(* ===== verification/_CoqProject ===== *)
-Q . S2P
Prelude.v
Bytes.v
CString.v
Json.v
JsonProofs.v
JsonRoundTrip.v
JsonNumber.v
JsonStack.v
PodBody.v
PodBuilder.v
PodSpec.v
PodBuilderSafety.v
PodParser.v
PodSafety.v
PodRoundTrip.v
PodLookup.v
Dense.v
DenseTask.v
Workers.v
WorkersProofs.v
PodIter.v
PodIterProofs.v
PodGetv.v
NdarrayFormat.v
NdarrayFormatProofs.v
PodCompare.v
PodFilter.v
PodFilterProofs.v
GraphProps.v
GraphPropsProofs.v
RunControl.v
RunControlProofs.v
RingBuffer.v
PwMap.v
BufferAlloc.v
BufferAllocProofs.v
MetaRecords.v
MetaRecordsProofs.v
BufferMetas.v
FilterGraph.v
GraphOrder.v
GraphWf.v
GraphLoad.v
GraphLifecycle.v
GraphQueries.v
GraphTransactions.v
GraphBuffers.v
GraphBuffersProofs.v
GraphProcess.v
GraphProcessProofs.v
