(* ===== verification/Prelude.v ===== *)
(** * PipeWireAO: a verification development

    PipeWireAO is a fork of PipeWire for adaptive optics.  It moves parameters
    between processes as PODs ("plain old data", a self-describing binary
    format), negotiates formats with them, and runs numeric filter graphs over
    arrays with a small pool of polling worker threads.  This library models
    the parts of it that can be checked by a proof assistant and proves what
    makes them correct.

    ** The parts and how they interact

    - The POD library ([src/spa/include/spa/pod/]): [body.h] reads typed
      values from a header and a body; [builder.h] writes values into a
      buffer, [dynamic.h] lets the buffer grow; [parser.h] walks over the
      members of a container; [iter.h] iterates over pods in memory, looks up
      properties and fixates choices; [compare.h] orders values; [filter.h]
      intersects what two sides offer when they negotiate.
    - The JSON reader ([spa/utils/json-core.h], [json.h]): a tokenizer over a
      text with nested iterators, strings and lookups; configurations are read
      with it.
    - ndarray formats ([spa/param/ndarray-utils.h]): descriptions of arrays, as
      structures and as [Format] objects.
    - Run control ([src/src/pipewire/run-control.c]): requests and statuses
      that a controller and a node exchange, built with the builder and read
      with the iterators and the parser.
    - The ndarray filter graph
      ([src/spa/plugins/filter-graph/filter-graph-ndarray.c]): builds a graph of
      plugin nodes from a configuration, changes its properties and parameters
      from a control thread, and runs it cycle by cycle on buffers.
    - The ndarray executor ([src/spa/plugins/filter-graph/ndarray-executor.c]):
      validates dense matrix-vector tasks, splits their rows over lanes, runs
      them on a group of worker threads.
    - Buffers ([spa/buffer/alloc.h], [spa/buffer/meta.h],
      [src/pipewire/buffers.c]): the memory a link shares between two ports, laid
      out with its metadata records; filters validate the records of their input
      and copy them to their output.
    - Containers: the single-producer single-consumer ring buffer
      ([spa/utils/ringbuffer.h]), growable arrays and the id map
      ([src/pipewire/array.h], [map.h]).

    ** Which file models what

    - [Prelude]: outcomes of C functions ([Ret], [Err], [Fault]), a state monad
      over them with weakest preconditions, machine-width integers, rounding.
    - [Bytes]: byte-addressed memory; [load], [store] and C strings.  A load or
      store outside the memory is a [Fault].
    - [CString]: string comparison and integer conversion of the C library and
      of [spa/utils/string.h].
    - [Json]: [json-core.h] and [json.h]; [JsonProofs]: safety on any text;
      [JsonRoundTrip]: lookups in printed objects; [JsonNumber]: the grammar of
      numbers; [JsonStack]: the stack of nested iterators.
    - [PodBody]: [type.h], [pod.h], [body.h].
    - [PodBuilder]: [builder.h], [dynamic.h].  The builder record is the state;
      every [spa_pod_builder_*] function is an operation on it.
    - [PodSpec]: values ([pod_val]), their encoding ([pod_enc]) and the call
      sequence that builds them.
    - [PodBuilderSafety]: any sequence of builder calls.
    - [PodParser]: [parser.h].
    - [PodSafety]: any sequence of parser calls on any bytes.
    - [PodRoundTrip], [PodLookup]: reading back, looking up properties.
    - [PodGetv]: the collecting of parser arguments.
    - [PodIter], [PodIterProofs]: [iter.h].
    - [PodCompare]: [spa/pod/compare.h] and the order of values.
    - [PodFilter], [PodFilterProofs]: [spa/pod/filter.h]; the input is a memory
      of its own, the result is written with the builder.
    - [NdarrayFormat], [NdarrayFormatProofs]: [ndarray-utils.h].
    - [RunControl], [RunControlProofs]: [run-control.c].
    - [Dense], [DenseTask]: validation, row partition and kernels of
      [ndarray-executor.c]; [float] is an abstract type with [fmaf] and [+].
    - [Workers], [WorkersProofs]: the worker group of [ndarray-executor.c] as a
      step relation of the coordinator and the helper threads.
    - [RingBuffer]: [ringbuffer.h] with a producer and a consumer thread.
    - [PwMap]: [array.h] and [map.h]; [realloc] is a parameter.
    - [BufferAlloc], [BufferAllocProofs]: [spa/buffer/alloc.h] and the allocation
      of [src/pipewire/buffers.c]; addresses and sizes are 64-bit numbers, a
      buffer is the addresses the code stores in it.
    - [MetaRecords], [MetaRecordsProofs]: the metadata records of
      [spa/buffer/meta.h]; descriptors and records are bytes of one memory.
    - [BufferMetas]: the metas of [pw_buffers_negotiate], from parsed parameters
      to the tables of the buffers.
    - [GraphProps], [GraphPropsProofs]: values and descriptions of properties in
      [filter-graph-ndarray.c].
    - [FilterGraph]: the construction of a graph; [GraphOrder]: its execution
      order; [GraphWf]: its invariant and the operations that keep it;
      [GraphLoad]: graphs from configurations.
    - [GraphLifecycle]: activation, preparation, deactivation and reset of a graph
      and the calls its nodes see; [GraphQueries]: what a graph tells about itself.
    - [GraphTransactions]: changes of a running graph, as a step relation of the
      control and the process thread.
    - [GraphBuffers], [GraphBuffersProofs]: the checks of buffers and their
      ownership; [GraphProcess], [GraphProcessProofs]: a cycle of the graph.

    ** What the theorems show

    - Encoding: the builder writes the encoding of a value
      (C1), what was written is read back
      (C2), lookups find the right property
      (C8).
    - Safety on untrusted bytes: the calls of the parser other than the variadic
      ones, the builder, the iterators, the message parsers and the lookups of the
      JSON reader stay inside their buffers and end, for every content and, for
      parser and builder, every sequence of calls (C4,
      C9, C37, C31,
      C18).  The variadic reads of the parser do leave the buffer,
      which [PodSafety] shows.
    - JSON: lookups of keys without escapes find what was printed
      (C7), and numbers are recognised by their grammar (C32).
    - Formats: counts are exact or refused (C28), what was
      offered is read back once fixated (C11), and only
      well-formed descriptions are read (C33).
    - Messages: exactly the complete and valid messages are accepted, in any
      order of their fields (C29), and builders and parsers
      agree (C30).
    - Construction of a graph: a graph that is handed out is well formed
      (C3) and owns what was created for it, a failure leaves
      nothing behind (C19); the order exists exactly for graphs
      without a cycle (C10); admitted properties admit the values
      they describe (C20).
    - Changes of a running graph, for every interleaving: objects are committed
      or discarded once (C5), the threads do not meet in the
      table (C26), publication is wait-free
      (C27).
    - Running a graph: a cycle stays in memory, runs the nodes that have their
      inputs and leaves complete or empty outputs (C38); the
      nodes see their callbacks in order whatever is called and fails
      (C39); the queries agree with each other
      (C40).
    - Dense tasks: validated tasks are in bounds (C21), the
      lanes partition the rows (C22), the result depends on
      neither lanes nor order (C23), kernels compute the
      dot product (C24).
    - Worker group: runs are synchronous (C6) and calls end
      (C25), for every interleaving and across the wrap of
      the generation counters.
    - Containers: the ring buffer is a FIFO for every interleaving, without end
      when its size is a power of two and up to the wrap of its indices otherwise
      (C12); the id map refines an abstract map (C14).
    - Buffers: the layout of buffers is disjoint, aligned and within its budget
      (C17), allocation stays inside its blocks and gives them
      back (C16).
    - Metadata: a record table is accepted exactly when it is well formed
      (C34), the copy moves the facts and nothing
      else, or nothing (C15), negotiated metas give valid tables
      with every required record (C35).
    - Negotiation: values are compared by an order (C36), and
      the filter of two properties is the intersection of their choices, except
      that the steps of ranges are dropped (C13).

    Theorems without a number are consequences, boundary cases and examples of
    behaviour that is not what the comments of the source lead one to expect.

    ** Bounds and fuel

    Integers have the width of the source: [u32], [i32], [u64] and [i64] wrap.
    Loops that are not structural take fuel.  A loop over a buffer or a text gets
    one round per byte, and every round consumes at least one; running out is a
    [Fault] (or [None] for the kernels), so a theorem that a function returns
    without one also shows that the loop ends.  Round trips are stated for bodies
    below [SPA_POD_MAX_SIZE] (2^20), the limit the accessors enforce, and JSON
    texts are below 2 GiB, as the tokenizer returns lengths as [int].

    ** What is assumed

    Memory is one region whose base is 8-byte aligned; pointers are offsets.
    [realloc] keeps the words it copies ([realloc_keeps]); [calloc] and the memory
    pool return blocks of the size asked for, the pool mapped and page-aligned
    where a mapping is asked for and the size is not 0 ([BlockSource]); of [strncmp] and
    [memcmp] only the sign is known ([CLibrary]); addresses are below 2^62; floats are any type
    with the operations the kernels use, the theorem on the dot product adds the
    ring laws.  The steps of threads are atomic and sequentially consistent, which
    the release and acquire operations of the source give for the data they
    protect.  Plugins are parameters; their tables have the entries they announce
    ([honest_plugins]), and during a cycle they write only their outputs
    ([confined]).

    ** What is not modelled

    The core objects of PipeWire (context, nodes, links, ports, streams), the
    protocol and the loops are callbacks around sockets, file descriptors and
    shared memory.  Device plugins, audio conversion, the compatibility layers
    and the tools are input and output or floating point signal processing.
    The enumeration of the properties of a filter graph, its stream client, the
    scheduler module, memory pools and the simplification of filtered pods are
    left out. *)
From coqutil Require Export Byte.
From coqutil Require Export Word.LittleEndianList.
From Stdlib Require Export ZArith Lia.
From stdpp Require Export base list numbers.

Declare Scope c_scope.
Delimit Scope c_scope with c.
#[global] Open Scope Z_scope.

(** ** Outcomes of C functions

    A C function that reports errors returns [Ret] with its out-parameters,
    [Err e] for a negative result [-e], or [Fault] when it reads or writes
    outside the memory it was given.  [Fault] is undefined behaviour, never a
    value the code can observe. *)
Inductive outcome (A : Type) : Type :=
| Ret (a : A)
| Err (e : Z)
| Fault.
Arguments Ret {A} a.
Arguments Err {A} e.
Arguments Fault {A}.

Definition obind {A B} (m : outcome A) (k : A -> outcome B) : outcome B :=
  match m with
  | Ret a => k a
  | Err e => Err e
  | Fault => Fault
  end.

(** [faults m]: the computation performs an out-of-bounds access. *)
Definition no_fault {A} (m : outcome A) : Prop := m <> Fault.

Notation "'let!' x ':=' m 'in' k" := (obind m (fun x => k))
  (at level 200, x pattern, m at level 100, k at level 200, right associativity) : c_scope.

(** ** State-passing computations

    Operations on a parser or a builder thread its state; the state is kept
    when the operation fails, as it is in the C code. *)
Definition ST (S A : Type) : Type := S -> outcome A * S.

Definition st_ret {S A} (a : A) : ST S A := fun s => (Ret a, s).
Definition st_err {S A} (e : Z) : ST S A := fun s => (Err e, s).
Definition st_bind {S A B} (m : ST S A) (k : A -> ST S B) : ST S B :=
  fun s => match m s with
           | (Ret a, s') => k a s'
           | (Err e, s') => (Err e, s')
           | (Fault, s') => (Fault, s')
           end.
Definition st_get {S} : ST S S := fun s => (Ret s, s).
Definition st_put {S} (s : S) : ST S unit := fun _ => (Ret tt, s).
Definition st_modify {S} (f : S -> S) : ST S unit := fun s => (Ret tt, f s).
Definition st_lift {S A} (m : outcome A) : ST S A := fun s => (m, s).
(** Run [m] and hand its failure to the continuation as a value, for code that
    tests the result of a call instead of returning it. *)
Definition st_try {S A} (m : ST S A) : ST S (A + Z) :=
  fun s => match m s with
           | (Ret a, s') => (Ret (inl a), s')
           | (Err e, s') => (Ret (inr e), s')
           | (Fault, s') => (Fault, s')
           end.

Notation "'let*' x ':=' m 'in' k" := (st_bind m (fun x => k))
  (at level 200, x pattern, m at level 100, k at level 200, right associativity) : c_scope.
Notation "m ;;; k" := (st_bind m (fun _ => k))
  (at level 100, right associativity) : c_scope.
#[global] Open Scope c_scope.

(** ** Machine integers

    A [w]-bit integer is a [Z]; [wrap w] is the value stored in an unsigned
    [w]-bit object and [swrap w] the value stored in a signed one. *)
Definition wrap (w z : Z) : Z := z mod 2 ^ w.
Definition swrap (w z : Z) : Z :=
  let u := wrap w z in if u <? 2 ^ (w - 1) then u else u - 2 ^ w.

Notation u32 := (wrap 32).
Notation u64 := (wrap 64).
Notation i32 := (swrap 32).
Notation i64 := (swrap 64).
Notation UINT32_MAX := (2 ^ 32 - 1).

Definition is_u32 (z : Z) : Prop := 0 <= z < 2 ^ 32.
Definition is_u64 (z : Z) : Prop := 0 <= z < 2 ^ 64.
Definition is_i32 (z : Z) : Prop := - 2 ^ 31 <= z < 2 ^ 31.
Definition is_i64 (z : Z) : Prop := - 2 ^ 63 <= z < 2 ^ 63.

(** [SPA_FLAG_IS_SET(field, flag)] and [SPA_FLAG_CLEAR(field, flag)]. *)
Definition flag_is_set (field flag : Z) : bool := Z.land field flag =? flag.
Definition flag_clear (field flag : Z) : Z := Z.ldiff field flag.

(** [SPA_ROUND_UP_N(num, align)] on a [num] of [w] bits: the decrement, the
    mask and the increment all happen at the width of [num]. *)
Definition round_up_n (w num align : Z) : Z :=
  wrap w (Z.lor (wrap w (num - 1)) (align - 1) + 1).

Notation SIZE_MAX := (2 ^ 64 - 1).

(** [spa_overflow_add] and [spa_overflow_mul] on [size_t]. *)
Definition overflow_add (a b : Z) : option Z := if SIZE_MAX <? a + b then None else Some (a + b).
Definition overflow_mul (a b : Z) : option Z := if SIZE_MAX <? a * b then None else Some (a * b).

(** [errno] values, as the code negates them. *)
Notation EPERM := 1.
Notation ENOENT := 2.
Notation ESRCH := 3.
Notation E2BIG := 7.
Notation EAGAIN := 11.
Notation ENOMEM := 12.
Notation EFAULT := 14.
Notation EBUSY := 16.
Notation EEXIST := 17.
Notation EINVAL := 22.
Notation ENOSPC := 28.
Notation EPIPE := 32.
Notation ERANGE := 34.
Notation ELOOP := 40.
Notation EPROTO := 71.
Notation EOVERFLOW := 75.
Notation EMSGSIZE := 90.
Notation EPROTONOSUPPORT := 93.
Notation ENOTSUP := 95.
Notation ENOBUFS := 105.
Notation ENOTCONN := 107.

Notation SPA_ID_INVALID := (2 ^ 32 - 1).

(** ** Automation *)

Create HintDb cdb.

(** Split the goal on the next [if] or boolean test and turn it into a
    proposition usable by [lia]. *)
Ltac bool_to_prop :=
  repeat match goal with
  | H : (_ && _)%bool = true |- _ => apply andb_prop in H; destruct H
  | H : (_ || _)%bool = false |- _ => apply orb_false_elim in H; destruct H
  | H : negb _ = true |- _ => apply negb_true_iff in H
  | H : negb _ = false |- _ => apply negb_false_iff in H
  | H : (_ <? _) = true |- _ => apply Z.ltb_lt in H
  | H : (_ <? _) = false |- _ => apply Z.ltb_ge in H
  | H : (_ <=? _) = true |- _ => apply Z.leb_le in H
  | H : (_ <=? _) = false |- _ => apply Z.leb_gt in H
  | H : (_ =? _) = true |- _ => apply Z.eqb_eq in H
  | H : (_ =? _) = false |- _ => apply Z.eqb_neq in H
  end.

Ltac case_if :=
  match goal with
  | |- context [if ?b then _ else _] =>
      lazymatch b with
      | context [if _ then _ else _] => fail
      | _ => let E := fresh "E" in destruct b eqn:E
      end
  | H : context [if ?b then _ else _] |- _ =>
      lazymatch b with
      | context [if _ then _ else _] => fail
      | _ => let E := fresh "E" in destruct b eqn:E
      end
  end; bool_to_prop.

(** ** Weakest preconditions

    [st_wp m Q E s]: run from [s], [m] does not fault, establishes [Q] when it
    returns and [E] when it reports an error. *)
Definition o_wp {A} (m : outcome A) (Q : A -> Prop) (E : Prop) : Prop :=
  match m with Ret a => Q a | Err _ => E | Fault => False end.
Definition st_wp {S A} (m : ST S A) (Q : A -> S -> Prop) (E : S -> Prop) (s : S) : Prop :=
  match m s with
  | (Ret a, s') => Q a s'
  | (Err _, s') => E s'
  | (Fault, _) => False
  end.

Lemma o_wp_no_fault {A} (m : outcome A) Q E : o_wp m Q E -> no_fault m.
Proof. unfold no_fault. by destruct m. Qed.

Lemma o_wp_mono {A} (m : outcome A) (Q Q' : A -> Prop) (E E' : Prop) :
  o_wp m Q E -> (forall a, Q a -> Q' a) -> (E -> E') -> o_wp m Q' E'.
Proof. destruct m; simpl; auto. Qed.

Lemma o_wp_bind {A B} (m : outcome A) (k : A -> outcome B) Q E :
  o_wp m (fun a => o_wp (k a) Q E) E -> o_wp (obind m k) Q E.
Proof. by destruct m. Qed.

Section St_wp.
Context {S A B : Type}.
Implicit Types (s : S).

Lemma st_wp_mono (m : ST S A) (Q Q' : A -> S -> Prop) (E E' : S -> Prop) s :
  st_wp m Q E s -> (forall a s', Q a s' -> Q' a s') -> (forall s', E s' -> E' s') ->
  st_wp m Q' E' s.
Proof. unfold st_wp. destruct (m s) as [[] ]; auto. Qed.

Lemma st_wp_bind (m : ST S A) (k : A -> ST S B) Q E s :
  st_wp m (fun a s' => st_wp (k a) Q E s') E s -> st_wp (st_bind m k) Q E s.
Proof. unfold st_wp, st_bind. by destruct (m s) as [[] ]. Qed.

Lemma st_wp_try (m : ST S A) (Q : A + Z -> S -> Prop) E s :
  st_wp m (fun a s' => Q (inl a) s') (fun s' => forall e, Q (inr e) s') s ->
  st_wp (st_try m) Q E s.
Proof. unfold st_wp, st_try. destruct (m s) as [[] ]; auto. Qed.

Lemma st_wp_lift (m : outcome A) (Q : A -> S -> Prop) E s :
  o_wp m (fun a => Q a s) (E s) -> st_wp (st_lift m) Q E s.
Proof. unfold st_wp, st_lift. by destruct m. Qed.

Lemma st_wp_get (Q : S -> S -> Prop) E s : Q s s -> st_wp st_get Q E s.
Proof. done. Qed.

Lemma st_wp_modify (f : S -> S) (Q : unit -> S -> Prop) E s :
  Q tt (f s) -> st_wp (st_modify f) Q E s.
Proof. done. Qed.
End St_wp.

(** ** Integer lemmas *)

Lemma wrap_small w z : 0 <= z < 2 ^ w -> wrap w z = z.
Proof. apply Z.mod_small. Qed.

Lemma wrap_range w z : 0 <= w -> 0 <= wrap w z < 2 ^ w.
Proof. intros ?. apply Z.mod_pos_bound. by apply Z.pow_pos_nonneg. Qed.

Lemma swrap_range w z : 0 < w -> - 2 ^ (w - 1) <= swrap w z < 2 ^ (w - 1).
Proof.
  intros Hw. unfold swrap. pose proof (wrap_range w z ltac:(lia)).
  assert (2 ^ w = 2 * 2 ^ (w - 1)) as E
    by (rewrite <- Z.pow_succ_r by lia; f_equal; lia).
  case_if; lia.
Qed.

Lemma swrap_small w z : 0 < w -> - 2 ^ (w - 1) <= z < 2 ^ (w - 1) -> swrap w z = z.
Proof.
  intros Hw Hz. unfold swrap, wrap.
  assert (2 ^ w = 2 * 2 ^ (w - 1)) as E
    by (rewrite <- Z.pow_succ_r by lia; f_equal; lia).
  destruct (Z.le_gt_cases 0 z).
  - rewrite Z.mod_small by lia. case_if; lia.
  - assert (z mod 2 ^ w = z + 2 ^ w) as ->.
    { symmetry. apply Z.mod_unique with (-1); lia. }
    case_if; lia.
Qed.

Lemma swrap_wrap w z : 0 <= w -> swrap w (wrap w z) = swrap w z.
Proof.
  intros Hw. unfold swrap, wrap. rewrite Z.mod_mod; [done|].
  apply Z.pow_nonzero; lia.
Qed.

Lemma lor_ones_low a k : 0 <= k -> Z.lor a (2 ^ k - 1) = 2 ^ k * (a / 2 ^ k) + (2 ^ k - 1).
Proof.
  intros Hk.
  replace (2 ^ k - 1) with (Z.ones k) by (rewrite Z.ones_equiv; lia).
  assert (Z.lor a (Z.ones k) = Z.lor (Z.ldiff a (Z.ones k)) (Z.ones k)) as ->.
  { apply Z.bits_inj'. intros i Hi.
    rewrite !Z.lor_spec, Z.ldiff_spec.
    by destruct (Z.testbit a i), (Z.testbit (Z.ones k) i). }
  rewrite <- Z.add_nocarry_lor by apply Z.land_ldiff.
  f_equal. rewrite Z.ldiff_ones_r by lia.
  rewrite Z.shiftl_mul_pow2, Z.shiftr_div_pow2 by lia. lia.
Qed.

(** The mask trick rounds up to the next multiple of a power of two. *)
Lemma round_up_n_spec w num k :
  0 <= k < w -> 0 <= num -> num + 2 ^ k <= 2 ^ w ->
  round_up_n w num (2 ^ k) = 2 ^ k * ((num + 2 ^ k - 1) / 2 ^ k).
Proof.
  intros Hk Hn Hb. unfold round_up_n.
  assert (0 < 2 ^ k) by (apply Z.pow_pos_nonneg; lia).
  assert (2 ^ w = 2 ^ k * 2 ^ (w - k)) as Ew
    by (rewrite <- Z.pow_add_r by lia; f_equal; lia).
  assert (0 < 2 ^ (w - k)) by (apply Z.pow_pos_nonneg; lia).
  rewrite lor_ones_low by lia.
  replace (num + 2 ^ k - 1) with (num - 1 + 1 * 2 ^ k) by lia.
  rewrite Z.div_add by lia.
  destruct (Z.eq_dec num 0) as [->|Hz].
  - replace (wrap w (0 - 1)) with (2 ^ w - 1).
    2: { unfold wrap. apply Z.mod_unique with (-1); lia. }
    assert ((2 ^ w - 1) / 2 ^ k = 2 ^ (w - k) - 1) as ->.
    { symmetry. apply Z.div_unique with (2 ^ k - 1); [lia|]. rewrite Ew. ring. }
    assert ((0 - 1) / 2 ^ k = -1) as ->.
    { symmetry. apply Z.div_unique with (2 ^ k - 1); lia. }
    unfold wrap. rewrite Ew.
    replace (2 ^ k * (2 ^ (w - k) - 1) + (2 ^ k - 1) + 1) with (2 ^ k * 2 ^ (w - k)) by ring.
    rewrite Z.mod_same; nia.
  - rewrite (wrap_small w (num - 1)) by lia.
    pose proof (Z.mul_div_le (num - 1) (2 ^ k) ltac:(lia)).
    pose proof (Z.div_pos (num - 1) (2 ^ k) ltac:(lia) ltac:(lia)).
    unfold wrap. rewrite Z.mod_small; [ring|].
    assert ((num - 1) / 2 ^ k < 2 ^ (w - k)); [|rewrite Ew; nia].
    apply Z.div_lt_upper_bound; lia.
Qed.

Lemma overflow_add_spec a b c : overflow_add a b = Some c -> c = a + b /\ a + b <= SIZE_MAX.
Proof. unfold overflow_add. case_if; [done|]. intros [= <-]. lia. Qed.
Lemma overflow_mul_spec a b c : overflow_mul a b = Some c -> c = a * b /\ a * b <= SIZE_MAX.
Proof. unfold overflow_mul. case_if; [done|]. intros [= <-]. lia. Qed.

(** The rounding of the POD format, with its sandwich bounds. *)
Definition pad8 (n : Z) : Z := 8 * ((n + 7) / 8).

Lemma round_up_n_8 w num :
  3 < w -> 0 <= num -> num + 8 <= 2 ^ w -> round_up_n w num 8 = pad8 num.
Proof.
  intros. change 8 with (2 ^ 3) at 1. rewrite round_up_n_spec by lia.
  unfold pad8. do 2 f_equal. lia.
Qed.

Lemma pad8_bounds n : n <= pad8 n < n + 8.
Proof. unfold pad8. pose proof (Z.mod_pos_bound (n + 7) 8). pose proof (Z.div_mod (n + 7) 8). lia. Qed.

Lemma pad8_add_l n m : n mod 8 = 0 -> pad8 (n + m) = n + pad8 m.
Proof.
  intros H. unfold pad8. pose proof (Z.div_mod n 8).
  replace (n + m + 7) with (m + 7 + (n / 8) * 8) by lia.
  rewrite Z.div_add by lia. lia.
Qed.

Lemma pad8_mod n : pad8 n mod 8 = 0.
Proof. unfold pad8. rewrite Z.mul_comm. by apply Z.mod_mul. Qed.

Lemma pad8_aligned n : n mod 8 = 0 -> pad8 n = n.
Proof. intros H. rewrite <- (Z.add_0_r n) at 1. rewrite pad8_add_l by done. change (pad8 0) with 0. lia. Qed.

Lemma mod8_add a b : a mod 8 = 0 -> b mod 8 = 0 -> (a + b) mod 8 = 0.
Proof. intros Ha Hb. by rewrite <- Zplus_mod_idemp_l, Ha. Qed.
Lemma mod8_8 : 8 mod 8 = 0.
Proof. done. Qed.

#[export] Hint Resolve pad8_mod mod8_add mod8_8 : cdb.
