(* ===== verification/Bytes.v ===== *)
(** * Byte-addressed memory

    A region of memory is a list of bytes; a pointer into it is an offset.
    Every access is checked: a load or a store outside the region is a
    [Fault].  Machine integers are little-endian, as on the targets the code
    is built for.  [holds m off bs] says that the region contains exactly [bs]
    at [off]; the round-trip proofs of the POD format are phrased with it. *)
From S2P Require Import Prelude.

Definition mem : Type := list byte.
#[export] Instance byte_eq_dec : EqDecision byte := Byte.byte_eq_dec.

Definition zlen {A} (l : list A) : Z := Z.of_nat (length l).

Definition in_bounds (m : mem) (off n : Z) : bool :=
  (0 <=? off) && (0 <=? n) && (off + n <=? zlen m).

Definition slice (off n : Z) (m : mem) : list byte :=
  take (Z.to_nat n) (drop (Z.to_nat off) m).

(** [memcpy] out of the region. *)
Definition load (m : mem) (off n : Z) : outcome (list byte) :=
  if in_bounds m off n then Ret (slice off n m) else Fault.

(** [memcpy] into the region. *)
Definition overwrite (m : mem) (off : Z) (bs : list byte) : mem :=
  take (Z.to_nat off) m ++ bs ++ drop (Z.to_nat off + length bs) m.
Definition store (m : mem) (off : Z) (bs : list byte) : outcome mem :=
  if in_bounds m off (zlen bs) then Ret (overwrite m off bs) else Fault.

Definition load_u8 (m : mem) (off : Z) : outcome Z :=
  let! bs := load m off 1 in Ret (le_combine bs).
Definition load_u32 (m : mem) (off : Z) : outcome Z :=
  let! bs := load m off 4 in Ret (le_combine bs).
Definition load_i32 (m : mem) (off : Z) : outcome Z :=
  let! v := load_u32 m off in Ret (i32 v).
Definition load_u64 (m : mem) (off : Z) : outcome Z :=
  let! bs := load m off 8 in Ret (le_combine bs).
Definition load_i64 (m : mem) (off : Z) : outcome Z :=
  let! v := load_u64 m off in Ret (i64 v).

Definition le32 (v : Z) : list byte := le_split 4 v.
Definition le64 (v : Z) : list byte := le_split 8 v.

Definition zeroes (n : Z) : list byte := replicate (Z.to_nat n) Byte.x00.

#[global] Arguments zlen : simpl never.
#[global] Arguments zeroes : simpl never.

(** C strings: the bytes before the first NUL, if there is one. *)
Fixpoint cstr (bs : list byte) : option (list byte) :=
  match bs with
  | [] => None
  | x :: r => if Byte.eqb x Byte.x00 then Some [] else cons x <$> cstr r
  end.
Definition load_cstr (m : mem) (off : Z) : outcome (list byte) :=
  if in_bounds m off 0 then
    match cstr (drop (Z.to_nat off) m) with
    | Some s => Ret s
    | None => Fault
    end
  else Fault.

Definition no_nul (s : list byte) : Prop := Forall (fun x => x <> Byte.x00) s.

(** ** Lengths *)

Lemma zlen_nonneg {A} (l : list A) : 0 <= zlen l.
Proof. unfold zlen. lia. Qed.
Lemma zlen_app {A} (l k : list A) : zlen (l ++ k) = zlen l + zlen k.
Proof. unfold zlen. rewrite length_app. lia. Qed.
Lemma zlen_cons {A} (x : A) l : zlen (x :: l) = 1 + zlen l.
Proof. unfold zlen. simpl. lia. Qed.
Lemma zlen_nil {A} : zlen (@nil A) = 0.
Proof. done. Qed.
Lemma zlen_le32 v : zlen (le32 v) = 4.
Proof. unfold zlen, le32. by rewrite length_le_split. Qed.
Lemma zlen_le64 v : zlen (le64 v) = 8.
Proof. unfold zlen, le64. by rewrite length_le_split. Qed.
Lemma zlen_zeroes n : 0 <= n -> zlen (zeroes n) = n.
Proof. intros. unfold zlen, zeroes. rewrite length_replicate. lia. Qed.

#[export] Hint Rewrite @zlen_app @zlen_cons @zlen_nil zlen_le32 zlen_le64 : zlen.

(** Normalise list lengths everywhere, then call [lia]. *)
Ltac zlia :=
  autorewrite with zlen in *;
  repeat match goal with
  | |- context [zlen ?l] =>
      lazymatch goal with H : 0 <= zlen l |- _ => fail | _ => pose proof (zlen_nonneg l) end
  | _ : context [zlen ?l] |- _ =>
      lazymatch goal with H : 0 <= zlen l |- _ => fail | _ => pose proof (zlen_nonneg l) end
  end; lia.

Lemma in_bounds_true m off n :
  in_bounds m off n = true <-> 0 <= off /\ 0 <= n /\ off + n <= zlen m.
Proof. unfold in_bounds. rewrite !andb_true_iff, !Z.leb_le. tauto. Qed.

Lemma zlen_slice m off n :
  0 <= off -> 0 <= n -> off + n <= zlen m -> zlen (slice off n m) = n.
Proof. unfold zlen, slice. intros. rewrite length_take, length_drop. lia. Qed.

Lemma zlen_overwrite m off bs :
  0 <= off -> off + zlen bs <= zlen m -> zlen (overwrite m off bs) = zlen m.
Proof.
  unfold zlen, overwrite. intros. rewrite !length_app, length_take, length_drop. lia.
Qed.

(** ** Loads inside the region never fault *)

Lemma load_ok m off n :
  0 <= off -> 0 <= n -> off + n <= zlen m -> load m off n = Ret (slice off n m).
Proof.
  intros. unfold load. by rewrite (proj2 (in_bounds_true m off n)) by lia.
Qed.

Lemma le_combine_slice_bound m off n :
  0 <= off -> 0 <= n -> off + n <= zlen m ->
  0 <= le_combine (slice off n m) < 2 ^ (8 * n).
Proof.
  intros. pose proof (le_combine_bound (slice off n m)) as B.
  pose proof (zlen_slice m off n). unfold zlen in *. by rewrite H2 in B.
Qed.

Lemma load_u32_ok m off :
  0 <= off -> off + 4 <= zlen m -> exists v, load_u32 m off = Ret v /\ is_u32 v.
Proof.
  intros. unfold load_u32. rewrite load_ok by lia. eexists; split; [done|].
  apply (le_combine_slice_bound m off 4); lia.
Qed.

Lemma load_i32_ok m off :
  0 <= off -> off + 4 <= zlen m -> exists v, load_i32 m off = Ret v /\ is_i32 v.
Proof.
  intros H1 H2. unfold load_i32. destruct (load_u32_ok m off H1 H2) as (v & -> & _).
  eexists; split; [done|]. by apply (swrap_range 32).
Qed.

Lemma load_u64_ok m off :
  0 <= off -> off + 8 <= zlen m -> exists v, load_u64 m off = Ret v /\ is_u64 v.
Proof.
  intros. unfold load_u64. rewrite load_ok by lia. eexists; split; [done|].
  apply (le_combine_slice_bound m off 8); lia.
Qed.

Lemma load_i64_ok m off :
  0 <= off -> off + 8 <= zlen m -> exists v, load_i64 m off = Ret v /\ is_i64 v.
Proof.
  intros H1 H2. unfold load_i64. destruct (load_u64_ok m off H1 H2) as (v & -> & _).
  eexists; split; [done|]. by apply (swrap_range 64).
Qed.

(** ** Contents *)

Definition holds (m : mem) (off : Z) (bs : list byte) : Prop :=
  exists pre post, m = pre ++ bs ++ post /\ zlen pre = off.

Lemma holds_bounds m off bs : holds m off bs -> 0 <= off /\ off + zlen bs <= zlen m.
Proof. intros (pre & post & -> & <-). zlia. Qed.

Lemma holds_app_l m off b1 b2 : holds m off (b1 ++ b2) -> holds m off b1.
Proof.
  intros (pre & post & -> & <-). exists pre, (b2 ++ post). by rewrite <- !app_assoc.
Qed.

Lemma holds_app_r m off b1 b2 : holds m off (b1 ++ b2) -> holds m (off + zlen b1) b2.
Proof.
  intros (pre & post & -> & <-). exists (pre ++ b1), post. split.
  - by rewrite <- !app_assoc.
  - zlia.
Qed.

Lemma holds_load m off bs n : holds m off bs -> n = zlen bs -> load m off n = Ret bs.
Proof.
  intros H ->. pose proof (holds_bounds _ _ _ H). destruct H as (pre & post & -> & <-).
  rewrite load_ok by zlia. f_equal. unfold slice, zlen. rewrite !Nat2Z.id.
  rewrite drop_app_length'; [|done]. by rewrite take_app_length.
Qed.

Lemma holds_slice m off bs : holds m off bs -> slice off (zlen bs) m = bs.
Proof.
  intros H. pose proof (holds_load m off bs _ H eq_refl) as L.
  pose proof (holds_bounds _ _ _ H). rewrite load_ok in L by zlia. congruence.
Qed.

Lemma holds_whole m bs : m = bs -> holds m 0 bs.
Proof. intros ->. exists [], []. by rewrite app_nil_r. Qed.

Lemma holds_sub m off bs off' bs' :
  holds m off bs -> holds bs off' bs' -> holds m (off + off') bs'.
Proof.
  intros (p & q & -> & <-) (p' & q' & -> & <-). exists (p ++ p'), (q' ++ q). split.
  - by rewrite <- !app_assoc.
  - zlia.
Qed.

Lemma holds_u32 m off v : holds m off (le32 v) -> load_u32 m off = Ret (u32 v).
Proof.
  intros H. unfold load_u32. rewrite (holds_load _ _ _ 4 H) by (by rewrite zlen_le32).
  simpl. unfold le32. by rewrite le_combine_split.
Qed.

Lemma holds_i32 m off v : holds m off (le32 v) -> load_i32 m off = Ret (i32 v).
Proof. intros H. unfold load_i32. rewrite (holds_u32 _ _ _ H). simpl. by rewrite swrap_wrap. Qed.

Lemma holds_u64 m off v : holds m off (le64 v) -> load_u64 m off = Ret (u64 v).
Proof.
  intros H. unfold load_u64. rewrite (holds_load _ _ _ 8 H) by (by rewrite zlen_le64).
  simpl. unfold le64. by rewrite le_combine_split.
Qed.

Lemma holds_i64 m off v : holds m off (le64 v) -> load_i64 m off = Ret (i64 v).
Proof. intros H. unfold load_i64. rewrite (holds_u64 _ _ _ H). simpl. by rewrite swrap_wrap. Qed.

Lemma cstr_nul s r : no_nul s -> cstr (s ++ Byte.x00 :: r) = Some s.
Proof.
  induction 1 as [|x s Hx _ IH]; [done|].
  simpl. destruct (Byte.eqb x Byte.x00) eqn:E.
  - by apply Byte.byte_dec_bl in E.
  - by rewrite IH.
Qed.

Lemma holds_cstr m off s :
  no_nul s -> holds m off (s ++ [Byte.x00]) -> load_cstr m off = Ret s.
Proof.
  intros Hs H. pose proof (holds_bounds _ _ _ H). destruct H as (pre & post & -> & <-).
  unfold load_cstr. rewrite (proj2 (in_bounds_true _ _ _)) by zlia.
  unfold zlen. rewrite Nat2Z.id, drop_app_length'; [|done].
  rewrite <- app_assoc. simpl. by rewrite cstr_nul.
Qed.

(** A string whose last byte is NUL is scanned without leaving it. *)
Lemma cstr_terminated bs r :
  list.last bs = Some Byte.x00 -> exists s, cstr (bs ++ r) = Some s.
Proof.
  induction bs as [|y bs IH]; [done|]. intros H. simpl.
  destruct (Byte.eqb y Byte.x00) eqn:E; [by exists []|].
  destruct bs as [|z bs].
  - simpl in H. injection H as ->. done.
  - destruct IH as (s & Hs); [done|]. exists (y :: s). by rewrite Hs.
Qed.

#[global] Opaque le32 le64.

(** ** Single bytes of slices and updates *)

Lemma holds_overwrite m off bs :
  0 <= off -> off + zlen bs <= zlen m -> holds (overwrite m off bs) off bs.
Proof.
  intros Ho Hl. exists (take (Z.to_nat off) m), (drop (Z.to_nat off + length bs) m).
  split; [done|]. unfold zlen in *. rewrite length_take. lia.
Qed.
Lemma lookup_overwrite (m bs : list byte) off i :
  0 <= off -> off + zlen bs <= zlen m ->
  (overwrite m off bs : list byte) !! i =
    if decide (off <= Z.of_nat i < off + zlen bs) then bs !! (i - Z.to_nat off)%nat else m !! i.
Proof.
  intros H1 H2. unfold overwrite, zlen in *. case_decide.
  - rewrite lookup_app_r by (rewrite length_take; lia).
    rewrite length_take, Nat.min_l by lia. rewrite lookup_app_l by lia. done.
  - destruct (decide (i < Z.to_nat off)%nat).
    + rewrite lookup_app_l by (rewrite length_take; lia). by rewrite lookup_take_lt.
    + rewrite lookup_app_r by (rewrite length_take; lia). rewrite length_take, Nat.min_l by lia.
      rewrite lookup_app_r by lia. rewrite lookup_drop. f_equal. lia.
Qed.

Lemma lookup_slice (m : list byte) off n i :
  (i < Z.to_nat n)%nat -> slice off n m !! i = m !! (Z.to_nat off + i)%nat.
Proof. intros H. unfold slice. by rewrite lookup_take_lt, lookup_drop. Qed.

Lemma store_ok m off bs :
  0 <= off -> off + zlen bs <= zlen m -> store m off bs = Ret (overwrite m off bs).
Proof.
  intros. pose proof (zlen_nonneg bs). unfold store.
  by rewrite (proj2 (in_bounds_true m off (zlen bs))) by lia.
Qed.

(** ** Memories that agree on some addresses *)

Definition same_if (Q : Z -> Prop) (m m' : mem) : Prop :=
  length m' = length m /\ forall i : nat, Q (Z.of_nat i) -> (m' : list byte) !! i = (m : list byte) !! i.

Lemma same_if_refl Q m : same_if Q m m.
Proof. done. Qed.

Lemma same_if_trans Q m1 m2 m3 : same_if Q m1 m2 -> same_if Q m2 m3 -> same_if Q m1 m3.
Proof. intros [L1 H1] [L2 H2]. split; [congruence|]. intros i Hi. by rewrite H2, H1. Qed.

Lemma same_if_weaken (Q Q' : Z -> Prop) m m' : (forall i, Q' i -> Q i) -> same_if Q m m' -> same_if Q' m m'.
Proof. intros HQ [L H]. split; [done|]. intros i Hi. by apply H, HQ. Qed.

Lemma same_if_load Q m m' off n :
  same_if Q m m' -> (forall i, off <= i < off + n -> Q i) -> load m' off n = load m off n.
Proof.
  intros [L H] HQ. unfold load, in_bounds, zlen. rewrite L. case_if; [|done].
  bool_to_prop. f_equal. apply list_eq. intros i. destruct (decide (i < Z.to_nat n)%nat).
  - rewrite !lookup_slice by done. apply H, HQ. lia.
  - unfold slice. by rewrite !lookup_take_ge by lia.
Qed.

Lemma same_if_u32 Q m m' off :
  same_if Q m m' -> (forall i, off <= i < off + 4 -> Q i) -> load_u32 m' off = load_u32 m off.
Proof. intros S H. unfold load_u32. by rewrite (same_if_load _ _ _ _ _ S H). Qed.

Lemma same_if_store m off bs m' :
  store m off bs = Ret m' -> same_if (fun i => ~ (off <= i < off + zlen bs)) m m'.
Proof.
  unfold store. destruct (in_bounds m off (zlen bs)) eqn:E; [|done]. intros [= <-].
  apply in_bounds_true in E. split.
  - pose proof (zlen_overwrite m off bs ltac:(lia) ltac:(lia)). unfold zlen in *. lia.
  - intros i Hi. rewrite lookup_overwrite by lia. by case_decide.
Qed.

Lemma store_load m off bs m' : store m off bs = Ret m' -> load m' off (zlen bs) = Ret bs.
Proof.
  unfold store. destruct (in_bounds m off (zlen bs)) eqn:E; [|done]. intros [= <-].
  apply in_bounds_true in E. pose proof (zlen_overwrite m off bs ltac:(lia) ltac:(lia)) as L.
  rewrite load_ok by lia. f_equal. apply list_eq. intros i.
  destruct (decide (i < length bs)%nat) as [Hi|Hi].
  - rewrite lookup_slice by (unfold zlen; lia). rewrite lookup_overwrite by lia.
    unfold zlen in *. rewrite decide_True by lia. f_equal. lia.
  - unfold slice. rewrite lookup_take_ge by (unfold zlen; lia). symmetry. apply lookup_ge_None. lia.
Qed.

(** ** Contents and agreement *)

Lemma holds_intro m off bs : 0 <= off -> load m off (zlen bs) = Ret bs -> holds m off bs.
Proof.
  intros Ho. unfold load. destruct (in_bounds m off (zlen bs)) eqn:E; [|done]. intros [= Hs].
  apply in_bounds_true in E. exists (take (Z.to_nat off) m), (drop (Z.to_nat off + length bs) m).
  rewrite <- Hs at 1. unfold slice, zlen. rewrite Nat2Z.id. split.
  - rewrite <- drop_drop, take_drop, take_drop. done.
  - rewrite length_take. unfold zlen in E. lia.
Qed.

Lemma holds_same Q m m' off bs :
  same_if Q m m' -> (forall i, off <= i < off + zlen bs -> Q i) -> holds m off bs -> holds m' off bs.
Proof.
  intros S HQ H. pose proof (holds_bounds _ _ _ H). apply holds_intro; [lia|].
  rewrite (same_if_load _ _ _ _ _ S HQ). by apply holds_load.
Qed.

Lemma holds_app m off b1 b2 : holds m off b1 -> holds m (off + zlen b1) b2 -> holds m off (b1 ++ b2).
Proof.
  intros H1 H2. pose proof (holds_bounds _ _ _ H1). pose proof (holds_bounds _ _ _ H2).
  pose proof (holds_slice _ _ _ H1) as E1. pose proof (holds_slice _ _ _ H2) as E2.
  pose proof (zlen_nonneg b1). pose proof (zlen_nonneg b2).
  apply holds_intro; [lia|]. rewrite zlen_app, load_ok by lia. f_equal.
  rewrite <- E1, <- E2 at 2. unfold slice.
  replace (Z.to_nat (off + zlen b1)) with (Z.to_nat off + Z.to_nat (zlen b1))%nat by lia.
  rewrite <- drop_drop, Z2Nat.inj_add by lia. symmetry. apply take_take_drop.
Qed.

Lemma holds_store m off bs m' : store m off bs = Ret m' -> holds m' off bs.
Proof.
  intros E. apply holds_intro; [|by eapply store_load]. unfold store in E.
  destruct (in_bounds m off (zlen bs)) eqn:Eb; [|done]. apply in_bounds_true in Eb. lia.
Qed.

Lemma load_zlen m off n bs : load m off n = Ret bs -> zlen bs = n.
Proof.
  unfold load. destruct (in_bounds m off n) eqn:E; [|done]. intros [= <-].
  apply in_bounds_true in E. apply zlen_slice; lia.
Qed.

(** Reading through a copy. *)
Lemma holds_load_u32 m off h o x :
  holds m off h -> 0 <= o -> load_u32 h o = Ret x -> load_u32 m (off + o) = Ret x.
Proof.
  intros H Ho. unfold load_u32. destruct (load h o 4) as [bs| |] eqn:E; [|done..]. cbn [obind]. intros [= <-].
  assert (zlen bs = 4) as L by (by eapply load_zlen).
  assert (holds h o bs) as Hb by (apply holds_intro; [done|by rewrite L]).
  by rewrite (holds_load m (off + o) bs 4 (holds_sub _ _ _ _ _ H Hb)).
Qed.

(** ** More on loads *)

Lemma load_inv m off n bs : load m off n = Ret bs -> 0 <= off /\ 0 <= n /\ off + n <= zlen m.
Proof. unfold load. destruct (in_bounds m off n) eqn:E; [|done]. by apply in_bounds_true in E. Qed.

Lemma load_u32_inv m off v : load_u32 m off = Ret v -> 0 <= off /\ off + 4 <= zlen m /\ is_u32 v.
Proof.
  intros H. pose proof H as H'. unfold load_u32 in H'. destruct (load m off 4) eqn:E; try done.
  apply load_inv in E as (? & _ & ?). destruct (load_u32_ok m off) as (v' & E' & ?); [lia|lia|].
  split_and!; [lia|lia|]. congruence.
Qed.

Lemma load_u64_inv m off v : load_u64 m off = Ret v -> 0 <= off /\ off + 8 <= zlen m /\ is_u64 v.
Proof.
  intros H. pose proof H as H'. unfold load_u64 in H'. destruct (load m off 8) eqn:E; try done.
  apply load_inv in E as (? & _ & ?). destruct (load_u64_ok m off) as (v' & E' & ?); [lia|lia|].
  split_and!; [lia|lia|]. congruence.
Qed.

Lemma holds_load_at m p bs o n :
  holds m p bs -> 0 <= o -> 0 <= n -> o + n <= zlen bs -> load m (p + o) n = load bs o n.
Proof.
  intros H Ho Hn Hb. rewrite (load_ok bs) by lia. apply holds_load; [|by rewrite zlen_slice by lia].
  eapply holds_sub; [exact H|]. apply holds_intro; [done|].
  rewrite zlen_slice by lia. apply load_ok; lia.
Qed.

Lemma slice_holds m p n : 0 <= p -> 0 <= n -> p + n <= zlen m -> holds m p (slice p n m).
Proof. intros. apply holds_intro; [done|]. rewrite zlen_slice by lia. apply load_ok; lia. Qed.

Lemma same_if_u64 Q m m' off :
  same_if Q m m' -> (forall i, off <= i < off + 8 -> Q i) -> load_u64 m' off = load_u64 m off.
Proof. intros S H. unfold load_u64. by rewrite (same_if_load _ _ _ _ _ S H). Qed.

Lemma same_if_zlen Q m m' : same_if Q m m' -> zlen m' = zlen m.
Proof. intros [L _]. unfold zlen. by rewrite L. Qed.

(** Loads inside a region whose contents are known. *)
Section At.
Context (m : mem) (p : Z) (bs : list byte) (H : holds m p bs).

Lemma load_u32_at o : 0 <= o -> o + 4 <= zlen bs -> load_u32 m (p + o) = load_u32 bs o.
Proof. intros. unfold load_u32. by rewrite (holds_load_at m p bs) by (done || lia). Qed.
Lemma load_u64_at o : 0 <= o -> o + 8 <= zlen bs -> load_u64 m (p + o) = load_u64 bs o.
Proof. intros. unfold load_u64. by rewrite (holds_load_at m p bs) by (done || lia). Qed.
Lemma load_i64_at o : 0 <= o -> o + 8 <= zlen bs -> load_i64 m (p + o) = load_i64 bs o.
Proof. intros. unfold load_i64. by rewrite load_u64_at. Qed.
Lemma load_u32_at0 : 4 <= zlen bs -> load_u32 m p = load_u32 bs 0.
Proof. intros. rewrite <- (Z.add_0_r p). apply load_u32_at; lia. Qed.
End At.
