(* ===== verification/CString.v ===== *)
(** * C strings

    The string functions of the C library and of [spa/include/spa/utils/string.h]
    that the modelled code calls, on the bytes before the terminator. *)
From S2P Require Import Prelude Bytes.
From Stdlib Require Import String.
#[local] Open Scope Z_scope.

(** A string constant as the bytes before its terminator. *)
Definition str (s : string) : list byte := list_byte_of_string s.

(** [spa_streq] on strings that are not NULL, and on strings that may be. *)
Definition spa_streq (a b : list byte) : bool := bool_decide (a = b).
Definition opt_streq (a b : option (list byte)) : bool := bool_decide (a = b).

(** The value of a character. *)
Definition code (c : byte) : Z := byte.unsigned c.

(** [strchr(s, c)]: what is before the character and what is behind it. *)
Fixpoint split_at (c : byte) (s : list byte) : option (list byte * list byte) :=
  match s with
  | [] => None
  | x :: r =>
      if Byte.eqb x c then Some ([], r)
      else match split_at c r with Some (a, b) => Some (x :: a, b) | None => None end
  end.
#[global] Arguments split_at _%_byte_scope _.

Definition isspace (c : byte) : bool := let z := code c in (z =? 32) || ((9 <=? z) && (z <=? 13)).

(** The value of a digit in bases up to 36. *)
Definition digit (c : byte) : Z :=
  let z := code c in
  if (48 <=? z) && (z <=? 57) then z - 48
  else if (65 <=? z) && (z <=? 90) then z - 55
  else if (97 <=? z) && (z <=? 122) then z - 87
  else 255.

Fixpoint skip_space (s : list byte) : list byte :=
  match s with
  | c :: r => if isspace c then skip_space r else s
  | [] => []
  end.

(** The digits of a number in [base]: the value, whether there was a digit
    and what follows. *)
Fixpoint digits (base : Z) (s : list byte) (value : Z) (any : bool) : Z * bool * list byte :=
  match s with
  | c :: r => if digit c <? base then digits base r (value * base + digit c) true else (value, any, s)
  | [] => (value, any, [])
  end.

(** The sign, the base and the digits [strtol] and [strtoull] read in base 0:
    the sign, the value, whether there was a digit and the rest. *)
Definition number_0 (s : list byte) : bool * Z * bool * list byte :=
  let t := skip_space s in
  let '(neg, t) :=
    match t with
    | c :: r => if code c =? 45 then (true, r) else if code c =? 43 then (false, r) else (false, t)
    | [] => (false, t)
    end in
  let '(base, t) :=
    match t with
    | z :: x :: d :: r =>
        if (code z =? 48) && ((code x =? 120) || (code x =? 88)) && (digit d <? 16) then (16, d :: r)
        else if code z =? 48 then (8, t) else (10, t)
    | z :: _ => if code z =? 48 then (8, t) else (10, t)
    | [] => (10, t)
    end in
  let '(value, any, rest) := digits base t 0 false in
  (neg, value, any, rest).

(** [strtoull(s, &end, 0)]: the value and the rest of the string when
    [errno] stays 0; [None] when the value is out of range.  A string without
    digits is left where it began. *)
Definition strtoull_0 (s : list byte) : option (Z * list byte) :=
  let '(neg, value, any, rest) := number_0 s in
  if negb any then Some (0, s)
  else if 2 ^ 64 - 1 <? value then None
  else Some (if neg then wrap 64 (- value) else value, rest).

(** [strtol(s, &end, 0)] where [long] has 64 bits: a value out of range is
    the nearest one. *)
Definition strtol_0 (s : list byte) : Z * list byte :=
  let '(neg, value, any, rest) := number_0 s in
  if negb any then (0, s)
  else (Z.max (- 2 ^ 63) (Z.min (2 ^ 63 - 1) (if neg then - value else value)), rest).

(** [strtoll] with [errno]: [None] when the value is out of range. *)
Definition strtoll_0 (s : list byte) : option (Z * list byte) :=
  let '(neg, value, any, rest) := number_0 s in
  let v := if neg then - value else value in
  if negb any then Some (0, s)
  else if (v <? - 2 ^ 63) || (2 ^ 63 - 1 <? v) then None
  else Some (v, rest).

(** [spa_atou32(str, &val, 0)]: the value, [None] when it is not stored. *)
Definition spa_atou32_0 (s : list byte) : option Z :=
  match s with
  | [] => None
  | _ =>
      match strtoull_0 s with
      | Some (v, []) => if v =? u32 v then Some v else None
      | _ => None
      end
  end.
