(* ===== verification/Json.v ===== *)
(** * Relaxed JSON

    Models [spa/include/spa/utils/json-core.h] and [json.h]: the tokenizer, the
    iterators on objects and arrays and the conversion of tokens.

    The text is a list of bytes and a pointer into it an offset; reading
    behind the text is a fault.  The bits of [state] are an inductive type, with
    the flags of the tokenizer as booleans.  An iterator is kept with the chain
    of the iterators it was entered from, which it updates when it ends or
    fails; [spa_json_begin_container] makes an iterator its own parent. *)
From S2P Require Import Prelude Bytes CString.
From Stdlib Require Import String.
#[local] Open Scope Z_scope.

(** ** Iterators *)

Inductive json_kind : Type := JNone | JStruct | JBare | JString | JUtf8 | JEsc | JComment.

Record json_flags : Type := mk_flags {
  ARRAY_FLAG : bool;
  PREV_ARRAY_FLAG : bool;
  KEY_FLAG : bool;
  SUB_FLAG : bool }.

(** [SPA_JSON_ERROR_FLAG] with one of the error codes, or a running tokenizer. *)
Inductive json_state : Type :=
  | Run (kind : json_kind) (flags : json_flags)
  | Broken (err : Z).

Notation ERROR_SYSTEM := 0.
Notation ERROR_INVALID_ARRAY_SEPARATOR := 1.
Notation ERROR_EXPECTED_OBJECT_KEY := 2.
Notation ERROR_EXPECTED_OBJECT_VALUE := 3.
Notation ERROR_TOO_DEEP_NESTING := 4.
Notation ERROR_EXPECTED_ARRAY_CLOSE := 5.
Notation ERROR_EXPECTED_OBJECT_CLOSE := 6.
Notation ERROR_MISMATCHED_BRACKET := 7.
Notation ERROR_ESCAPE_NOT_ALLOWED := 8.
Notation ERROR_CHARACTERS_NOT_ALLOWED := 9.
Notation ERROR_INVALID_ESCAPE := 10.
Notation ERROR_UNFINISHED_STRING := 12.

Inductive json_parent : Type := NoParent | SelfParent | UpParent.

Record spa_json : Type := mk_json {
  j_cur : Z;
  j_end : Z;
  j_parent : json_parent;
  j_state : json_state;
  j_depth : Z }.

Definition no_flags : json_flags := mk_flags false false false false.

Definition spa_json_init (data size : Z) : spa_json :=
  mk_json data (data + size) NoParent (Run JNone no_flags) 0.
Definition spa_json_init_relax (type : byte) (data size : Z) : spa_json :=
  mk_json data (data + size) NoParent (Run JNone (mk_flags (Byte.eqb type "[") false false false)) 0.

(** [state & 0xff0]. *)
Definition enter_state (s : json_state) : json_state :=
  match s with
  | Run _ f => Run JNone f
  | Broken _ => Broken ERROR_SYSTEM
  end.

(** The iterator and the chain of its parents. *)
Record json_stack : Type := mk_stack { top : spa_json; up : list spa_json }.

Definition spa_json_enter (s : json_stack) : json_stack :=
  mk_stack (mk_json (j_cur (top s)) (j_end (top s)) UpParent (enter_state (j_state (top s))) 0)
           (top s :: up s).
(** [spa_json_enter(iter, iter)]. *)
Definition spa_json_enter_self (s : json_stack) : json_stack :=
  mk_stack (mk_json (j_cur (top s)) (j_end (top s)) SelfParent (enter_state (j_state (top s))) 0) (up s).
Definition spa_json_save (s : json_stack) : json_stack :=
  mk_stack (mk_json (j_cur (top s)) (j_end (top s)) NoParent (j_state (top s)) 0) [].
Definition spa_json_start (iter : spa_json) (pos : Z) : json_stack :=
  mk_stack (mk_json pos (j_end iter) NoParent (Run JNone no_flags) 0) [].

(** ** The tokenizer *)

(** The variables of [spa_json_next] and the parts of the iterator it writes. *)
Record scan : Type := mk_scan {
  s_cur : Z;
  s_kind : json_kind;
  s_flags : json_flags;
  s_depth : Z;
  s_value : Z;
  s_utf8 : Z;
  s_stack : list bool }.

(** What one character leads to: go on behind it, return a length with the
    position where it is, return 0 to the parent, or an error. *)
Inductive verdict : Type :=
  | Continue (s : scan)
  | Return (len : Z) (s : scan)
  | Close (s : scan)
  | Throw (err : Z).

Definition to_kind (k : json_kind) (f : json_flags) (s : scan) : scan :=
  mk_scan (s_cur s) k f (s_depth s) (s_value s) (s_utf8 s) (s_stack s).
Definition mark (s : scan) : scan :=
  mk_scan (s_cur s) (s_kind s) (s_flags s) (s_depth s) (s_cur s) (s_utf8 s) (s_stack s).
Definition advance (s : scan) : scan :=
  mk_scan (s_cur s + 1) (s_kind s) (s_flags s) (s_depth s) (s_value s) (s_utf8 s) (s_stack s).
Definition set_utf8 (n : Z) (s : scan) : scan :=
  mk_scan (s_cur s) (s_kind s) (s_flags s) (s_depth s) (s_value s) n (s_stack s).

Definition is_one_of (c : byte) (s : string) : bool := existsb (Byte.eqb c) (str s).

(** NUL, tab, space, carriage return and newline. *)
Definition is_blank (c : byte) : bool :=
  let z := code c in (z =? 0) || (z =? 9) || (z =? 32) || (z =? 13) || (z =? 10).
Definition is_quote (c : byte) : bool := code c =? 34.
Definition is_backslash (c : byte) : bool := code c =? 92.

(** The flags of a token that begins. *)
Definition token_flags (f : json_flags) : json_flags :=
  let sub := SUB_FLAG f || KEY_FLAG f in
  let key := if ARRAY_FLAG f then KEY_FLAG f else negb (KEY_FLAG f) in
  mk_flags (ARRAY_FLAG f) (PREV_ARRAY_FLAG f) key sub.

Definition STACK_BITS : Z := 512.

(** [case '[': case '{':]. *)
Definition open_bracket (c : byte) (s : scan) : verdict :=
  let f := s_flags s in
  if negb (ARRAY_FLAG f) && SUB_FLAG f && negb (KEY_FLAG f) then Throw ERROR_EXPECTED_OBJECT_KEY
  else
    let key := if ARRAY_FLAG f then KEY_FLAG f else false in
    let array := Byte.eqb c "[" in
    let opened (prev : bool) (stack : list bool) : verdict :=
      let s := mk_scan (s_cur s) JStruct (mk_flags array prev key true) (s_depth s + 1) (s_cur s)
                       (s_utf8 s) stack in
      if 1 <? s_depth s then Continue s else Return 1 (advance s) in
    if s_depth s =? 0 then opened (ARRAY_FLAG f) (s_stack s)
    else if s_depth s - 1 <? STACK_BITS then
      opened (PREV_ARRAY_FLAG f) (<[Z.to_nat (s_depth s - 1) := ARRAY_FLAG f]> (s_stack s))
    else Throw ERROR_TOO_DEEP_NESTING.

(** [case '}': case ']':]. *)
Definition close_bracket (c : byte) (parent : json_parent) (s : scan) : verdict :=
  let f := s_flags s in
  if ARRAY_FLAG f && negb (Byte.eqb c "]") then Throw ERROR_EXPECTED_ARRAY_CLOSE
  else if negb (ARRAY_FLAG f) && negb (Byte.eqb c "}") then Throw ERROR_EXPECTED_OBJECT_CLOSE
  else if KEY_FLAG f then Throw ERROR_EXPECTED_OBJECT_VALUE
  else
    let closed (depth : Z) (array : bool) : scan :=
      mk_scan (s_cur s) JStruct (mk_flags array (PREV_ARRAY_FLAG f) (KEY_FLAG f) true) depth (s_value s)
              (s_utf8 s) (s_stack s) in
    if s_depth s =? 0 then
      match parent with
      | NoParent => Throw ERROR_MISMATCHED_BRACKET
      | _ => Close (closed 0 (ARRAY_FLAG f))
      end
    else
      let depth := s_depth s - 1 in
      if depth =? 0 then Continue (closed depth (PREV_ARRAY_FLAG f))
      else if depth - 1 <? STACK_BITS then
        Continue (closed depth (nth (Z.to_nat (depth - 1)) (s_stack s) false))
      else Throw ERROR_TOO_DEEP_NESTING.

(** [case __STRUCT:]. *)
Definition scan_struct (c : byte) (parent : json_parent) (s : scan) : verdict :=
  let f := s_flags s in
  if is_blank c || Byte.eqb c "," then Continue s
  else if Byte.eqb c ":" || Byte.eqb c "=" then
    if ARRAY_FLAG f then Throw ERROR_INVALID_ARRAY_SEPARATOR
    else if negb (KEY_FLAG f) then Throw ERROR_EXPECTED_OBJECT_KEY
    else Continue (to_kind JStruct (mk_flags (ARRAY_FLAG f) (PREV_ARRAY_FLAG f) (KEY_FLAG f) true) s)
  else if Byte.eqb c "#" then Continue (to_kind JComment f s)
  else if is_quote c then Continue (to_kind JString (token_flags f) (mark s))
  else if Byte.eqb c "[" || Byte.eqb c "{" then open_bracket c s
  else if Byte.eqb c "}" || Byte.eqb c "]" then close_bracket c parent s
  else if is_backslash c then Throw ERROR_ESCAPE_NOT_ALLOWED
  else if negb ((32 <=? code c) && (code c <=? 126)) then Throw ERROR_CHARACTERS_NOT_ALLOWED
  else Continue (to_kind JBare (token_flags f) (mark s)).

Definition ends_bare (c : byte) : bool :=
  is_blank c || is_quote c || is_one_of c "#{[:,=]}".

(** One round of the loop, [again] included. *)
Definition scan_char (c : byte) (parent : json_parent) (s : scan) : verdict :=
  let f := s_flags s in
  match s_kind s with
  | JNone =>
      scan_struct c parent
        (mk_scan (s_cur s) JStruct (mk_flags (ARRAY_FLAG f) false false (SUB_FLAG f)) 0 (s_value s)
                 (s_utf8 s) (s_stack s))
  | JStruct => scan_struct c parent s
  | JBare =>
      if ends_bare c then
        let s := to_kind JStruct f s in
        if 0 <? s_depth s then scan_struct c parent s else Return (i32 (s_cur s - s_value s)) s
      else if is_backslash c then Throw ERROR_ESCAPE_NOT_ALLOWED
      else if (32 <=? code c) && (code c <=? 126) then Continue s
      else Throw ERROR_CHARACTERS_NOT_ALLOWED
  | JString =>
      if is_backslash c then Continue (to_kind JEsc f s)
      else if is_quote c then
        let s := to_kind JStruct f s in
        if 0 <? s_depth s then Continue s
        else let s := advance s in Return (i32 (s_cur s - s_value s)) s
      else if (192 <=? code c) && (code c <=? 247) then
        let n := if 240 <=? code c then 3 else if 224 <=? code c then 2 else 1 in
        Continue (to_kind JUtf8 f (set_utf8 (s_utf8 s + n) s))
      else if (32 <=? code c) && (code c <=? 127) then Continue s
      else Throw ERROR_CHARACTERS_NOT_ALLOWED
  | JUtf8 =>
      if (128 <=? code c) && (code c <=? 191) then
        let s := set_utf8 (s_utf8 s - 1) s in
        Continue (if s_utf8 s =? 0 then to_kind JString f s else s)
      else Throw ERROR_CHARACTERS_NOT_ALLOWED
  | JEsc =>
      if is_quote c || is_backslash c || is_one_of c "/bfnrtu" then Continue (to_kind JString f s)
      else Throw ERROR_INVALID_ESCAPE
  | JComment =>
      Continue (if (code c =? 10) || (code c =? 13) then to_kind JStruct f s else s)
  end.

(** What the call returns: a length, and the position of the value. *)
Record token : Type := mk_token { t_len : Z; t_value : Z }.

(** [while (iter->parent)]: the error reaches the parents up to one that
    already has an error. *)
Fixpoint propagate (err cur : Z) (parent : json_parent) (up : list spa_json) : list spa_json :=
  match parent, up with
  | UpParent, p :: ps =>
      match j_state p with
      | Broken _ => up
      | Run _ _ =>
          mk_json cur (j_end p) (j_parent p) (Broken err) (j_depth p) :: propagate err cur (j_parent p) ps
      end
  | _, _ => up
  end.

Definition json_error (err : Z) (s : scan) (st : json_stack) : Z * json_stack :=
  let it := top st in
  (-1, mk_stack (mk_json (s_cur s) (j_end it) (j_parent it) (Broken err) (s_depth s))
                (propagate err (s_cur s) (j_parent it) (up st))).

(** The iterator after the scan. *)
Definition scanned (s : scan) (st : json_stack) : json_stack :=
  let it := top st in
  mk_stack (mk_json (s_cur s) (j_end it) (j_parent it) (Run (s_kind s) (s_flags s)) (s_depth s)) (up st).

(** [iter->parent->cur = iter->cur]. *)
Definition tell_parent (st : json_stack) : json_stack :=
  match j_parent (top st), up st with
  | UpParent, p :: ps =>
      mk_stack (top st) (mk_json (j_cur (top st)) (j_end p) (j_parent p) (j_state p) (j_depth p) :: ps)
  | _, _ => st
  end.

(** Behind the last character. *)
Definition scan_end (s : scan) (st : json_stack) : Z * json_stack :=
  let f := s_flags s in
  match s_depth s =? 0, j_parent (top st) with
  | true, NoParent =>
      match s_kind s with
      | JString | JUtf8 | JEsc => json_error ERROR_UNFINISHED_STRING s st
      | JComment => (0, scanned s st)
      | k =>
          if SUB_FLAG f && KEY_FLAG f then json_error ERROR_EXPECTED_OBJECT_VALUE s st
          else match k with
               | JStruct => (0, scanned s st)
               | _ => (i32 (s_cur s - s_value s), scanned (to_kind JStruct f s) st)
               end
      end
  | _, _ => json_error ERROR_MISMATCHED_BRACKET s st
  end.

(** The loop over the characters; there are [n] before the end. *)
Fixpoint scan_loop (text : list byte) (n : nat) (s : scan) (st : json_stack)
  : outcome (Z * Z * json_stack) :=
  match n with
  | O => let '(r, st) := scan_end s st in Ret (r, s_value s, st)
  | S n =>
      match text !! Z.to_nat (s_cur s) with
      | None => Fault
      | Some c =>
          match scan_char c (j_parent (top st)) s with
          | Continue s => scan_loop text n (advance s) st
          | Return len s => Ret (len, s_value s, scanned s st)
          | Close s => Ret (0, s_value s, tell_parent (scanned s st))
          | Throw err => let '(r, st) := json_error err s st in Ret (r, s_value s, st)
          end
      end
  end.

Definition spa_json_next (text : list byte) : ST json_stack token := fun st =>
  let it := top st in
  match j_state it with
  | Broken _ => (Ret (mk_token (-1) (j_cur it)), st)
  | Run kind f =>
      let s := mk_scan (j_cur it) kind f (j_depth it) (j_cur it) 0 (repeat false (Z.to_nat STACK_BITS)) in
      match scan_loop text (Z.to_nat (j_end it - j_cur it)) s st with
      | Ret (len, value, st) => (Ret (mk_token len value), st)
      | Err e => (Err e, st)
      | Fault => (Fault, st)
      end
  end.

(** ** Tokens *)

(** The bytes of a token. *)
Definition token_bytes (text : list byte) (t : token) : list byte :=
  take (Z.to_nat (t_len t)) (drop (Z.to_nat (t_value t)) text).

Definition first_is (val : list byte) (c : byte) : bool :=
  match val with x :: _ => Byte.eqb x c | [] => false end.
#[local] Arguments first_is _ _%_byte_scope.

(** On the [len] bytes of a token. *)
Definition spa_json_is_container (val : list byte) : bool := first_is val "{" || first_is val "[".
Definition spa_json_is_container_end (val : list byte) : bool := first_is val "}" || first_is val "]".
Definition spa_json_is_object (val : list byte) : bool := first_is val "{".
Definition spa_json_is_array (val : list byte) : bool := first_is val "[".
Definition spa_json_is_null (val : list byte) : bool := spa_streq val (str "null").
Definition spa_json_is_true (val : list byte) : bool := spa_streq val (str "true").
Definition spa_json_is_false (val : list byte) : bool := spa_streq val (str "false").
Definition spa_json_is_bool (val : list byte) : bool := spa_json_is_true val || spa_json_is_false val.
Definition spa_json_parse_bool (val : list byte) : option bool :=
  if spa_json_is_true val then Some true
  else if spa_json_is_false val then Some false
  else None.
Definition spa_json_is_string (val : list byte) : bool :=
  (1 <? zlen val) && match val with c :: _ => is_quote c | [] => false end.

(** [strtol(buf, &end, 0)] into an [int], the token being all of the number. *)
Definition spa_json_parse_int (val : list byte) : option Z :=
  if (zlen val <=? 0) || (64 <=? zlen val) then None
  else match strtol_0 val with
       | (v, []) => Some (i32 v)
       | _ => None
       end.
Definition spa_json_is_int (val : list byte) : bool :=
  match spa_json_parse_int val with Some _ => true | None => false end.

(** The classes of characters and the transitions of the automaton of
    [spa_json_is_json_number]; -1 rejects. *)
Definition char_class (z : Z) : nat :=
  if (49 <=? z) && (z <=? 57) then 0
  else if z =? 48 then 1
  else if z =? 45 then 2
  else if z =? 43 then 3
  else if z =? 46 then 4
  else if (z =? 69) || (z =? 101) then 5
  else 6.
Definition trans : list (list Z) :=
  [ [-1; -1; -1; -1;  6;  7; -1];
    [ 1;  1; -1; -1;  6;  7; -1];
    [ 2;  2; -1; -1; -1;  7; -1];
    [ 3;  3; -1; -1; -1; -1; -1];
    [ 1;  0;  5; -1; -1; -1; -1];
    [ 1;  0; -1; -1; -1; -1; -1];
    [ 2;  2; -1; -1; -1; -1; -1];
    [ 3;  3;  8;  8; -1; -1; -1];
    [ 3;  3; -1; -1; -1; -1; -1] ].
Definition transition (state : Z) (c : byte) : Z :=
  nth (char_class (Z.land (code c) 0x7f)) (nth (Z.to_nat state) trans []) (-1).
Fixpoint number_loop (val : list byte) (state : Z) : bool :=
  match val with
  | [] => state <? 4
  | c :: val =>
      let state := transition state c in
      if state <? 0 then false else number_loop val state
  end.
Definition spa_json_is_json_number (val : list byte) : bool := number_loop val 4.

Definition REJECT (c : byte) : bool := is_quote c || is_backslash c || is_one_of c "'=:,{}[]()#".
(** [val[i] <= 0x20] on a signed character. *)
Definition not_simple (c : byte) : bool := (swrap 8 (code c) <=? 0x20) || REJECT c.
Fixpoint spa_json_is_simple_string (val : list byte) : bool :=
  match val with
  | [] => true
  | c :: val =>
      if code c =? 0 then true
      else if not_simple c then false
      else spa_json_is_simple_string val
  end.

(** ** Strings *)

Definition hex_digit (c : byte) : option Z :=
  let v := code c in
  if (48 <=? v) && (v <=? 57) then Some (v - 48)
  else if (97 <=? v) && (v <=? 102) then Some (v - 97 + 10)
  else if (65 <=? v) && (v <=? 70) then Some (v - 65 + 10)
  else None.

(** Of [num] bytes at [p]; the digits are read until one is not one. *)
Fixpoint spa_json_parse_hex (text : list byte) (p : Z) (num : nat) (res : Z) : outcome (option Z) :=
  match num with
  | O => Ret (Some res)
  | S num =>
      match text !! Z.to_nat p with
      | None => Fault
      | Some c =>
          match hex_digit c with
          | None => Ret None
          | Some v => spa_json_parse_hex text (p + 1) num (Z.lor (u32 (Z.shiftl res 4)) v)
          end
      end
  end.

Definition to_byte (z : Z) : byte := byte.of_Z z.

(** The UTF-8 form of a code point. *)
Definition utf8 (cp : Z) : list byte :=
  let cont (cp : Z) : byte := to_byte (Z.land (Z.lor cp 0x80) 0xbf) in
  let lead (prefix cp : Z) : byte := to_byte (Z.land (Z.lor cp prefix) 0xff) in
  if cp <? 0x80 then [lead 0 cp]
  else if cp <? 0x800 then [lead 0xc0 (Z.shiftr cp 6); cont cp]
  else if cp <? 0x10000 then [lead 0xe0 (Z.shiftr cp 12); cont (Z.shiftr cp 6); cont cp]
  else [lead 0xf0 (Z.shiftr cp 18); cont (Z.shiftr cp 12); cont (Z.shiftr cp 6); cont cp].

Definition byte_at (text : list byte) (p : Z) : outcome byte :=
  match text !! Z.to_nat p with Some c => Ret c | None => Fault end.

(** A character at [p] behind the 'u' of an escape: what it writes, and the
    position the loop goes on behind. *)
Definition unicode_escape (text : list byte) (p stop : Z) : outcome (list byte * Z) :=
  if stop - p <? 5 then let! c := byte_at text p in Ret ([c], p)
  else
    let! h := spa_json_parse_hex text (p + 1) 4 0 in
    match h with
    | None => let! c := byte_at text p in Ret ([c], p)
    | Some cp =>
        let p := p + 4 in
        if (0xd800 <=? cp) && (cp <=? 0xdbff) then
          if stop - p <? 7 then Ret ([], p)
          else
            let! c1 := byte_at text (p + 1) in
            if negb (is_backslash c1) then Ret ([], p)
            else
              let! c2 := byte_at text (p + 2) in
              if negb (Byte.eqb c2 "u") then Ret ([], p)
              else
                let! h := spa_json_parse_hex text (p + 3) 4 0 in
                match h with
                | None => Ret ([], p)
                | Some v =>
                    if (v <? 0xdc00) || (0xdfff <? v) then Ret ([], p)
                    else
                      let cp := 0x010000 + Z.lor (Z.shiftl (Z.land cp 0x3ff) 10) (Z.land v 0x3ff) in
                      Ret (utf8 cp, p + 6)
                end
        else if (0xdc00 <=? cp) && (cp <=? 0xdfff) then Ret ([], p)
        else Ret (utf8 cp, p)
    end.

(** What the character behind a backslash stands for. *)
Definition escape (text : list byte) (p stop : Z) : outcome (list byte * Z) :=
  let! c := byte_at text p in
  if Byte.eqb c "n" then Ret ([to_byte 10], p)
  else if Byte.eqb c "r" then Ret ([to_byte 13], p)
  else if Byte.eqb c "b" then Ret ([to_byte 8], p)
  else if Byte.eqb c "t" then Ret ([to_byte 9], p)
  else if Byte.eqb c "f" then Ret ([to_byte 12], p)
  else if Byte.eqb c "u" then unicode_escape text p stop
  else Ret ([c], p).

(** [for (p = val+1; p < val + len; p++)]; every round moves [p], so one round
    per byte is enough. *)
Fixpoint string_loop (fuel : nat) (text : list byte) (p stop : Z) (result : list byte)
  : outcome (list byte) :=
  match fuel with
  | O => Fault
  | S fuel =>
      if stop <=? p then Ret result
      else
        let! c := byte_at text p in
        if is_backslash c then
          let! (bs, p) := escape text (p + 1) stop in
          string_loop fuel text (p + 1) stop (result ++ bs)
        else if is_quote c then Ret result
        else string_loop fuel text (p + 1) stop (result ++ [c])
  end.

(** The bytes written in front of the terminator, or [-ENOSPC].  The result
    is not the text itself. *)
Definition spa_json_parse_stringn (text : list byte) (t : token) (maxlen : Z) : outcome (list byte) :=
  if maxlen <=? t_len t then Err ENOSPC
  else
    let val := token_bytes text t in
    if negb (spa_json_is_string val) then Ret val
    else string_loop (S (Z.to_nat (t_len t))) text (t_value t + 1) (t_value t + t_len t) [].
Definition spa_json_parse_string (text : list byte) (t : token) : outcome (list byte) :=
  spa_json_parse_stringn text t (t_len t + 1).

Definition hex (n : Z) : byte := nth (Z.to_nat n) (str "0123456789abcdef") Byte.x00.

(** A backslash and the character. *)
Definition escaped (c : byte) : list byte := [to_byte 92; c].
#[global] Arguments escaped _%_byte_scope.

(** How many continuation bytes a lead byte asks for. *)
Definition cont_needed (lead : Z) : nat :=
  if (0xc0 <=? lead) && (lead <=? 0xdf) then 1
  else if (0xe0 <=? lead) && (lead <=? 0xef) then 2
  else if (0xf0 <=? lead) && (lead <=? 0xf7) then 3
  else 0.

(** How many of the next [n] bytes are continuation bytes. *)
Fixpoint cont_valid (n : nat) (src : list byte) : nat :=
  match n, src with
  | S n, c :: src => if (code c <? 0x80) || (0xbf <? code c) then O else S (cont_valid n src)
  | _, _ => O
  end.

(** One character of a string: what is written for it and what is left. *)
Definition encode_char (val : byte) (src : list byte) : list byte * list byte :=
  let z := code val in
  if z =? 10 then (escaped "n", src)
  else if z =? 13 then (escaped "r", src)
  else if z =? 8 then (escaped "b", src)
  else if z =? 9 then (escaped "t", src)
  else if z =? 12 then (escaped "f", src)
  else if is_backslash val || is_quote val then (escaped val, src)
  else if z <? 0x20 then
    (escaped "u" ++ str "00" ++ [hex (Z.land (Z.shiftr z 4) 0xf); hex (Z.land z 0xf)], src)
  else if z <? 0x80 then ([val], src)
  else
    let n := cont_needed z in
    if (0 <? Z.of_nat n) && Nat.eqb (cont_valid n src) n then (val :: take n src, drop n src)
    else ([to_byte 0xef; to_byte 0xbf; to_byte 0xbd], src).

Fixpoint encode_loop (fuel : nat) (src : list byte) : list byte :=
  match fuel, src with
  | S fuel, val :: src => let '(bs, src) := encode_char val src in bs ++ encode_loop fuel src
  | _, _ => []
  end.

(** What [__PUT] is called with before the terminator. *)
Definition encoded (src : list byte) : list byte :=
  [to_byte 34] ++ encode_loop (List.length src) src ++ [to_byte 34].

(** The bytes stored at [dst], and the length of the whole. *)
Definition spa_json_encode_stringn (capacity : Z) (src : list byte) : list byte * Z :=
  let out := encoded src ++ [Byte.x00] in
  (take (Z.to_nat capacity) out, zlen out - 1).

(** ** Getting values *)

Definition spa_json_get_int (text : list byte) : ST json_stack (option Z) :=
  let* t := spa_json_next text in
  st_ret (if t_len t <=? 0 then None else spa_json_parse_int (token_bytes text t)).

Definition spa_json_get_bool (text : list byte) : ST json_stack (option bool) :=
  let* t := spa_json_next text in
  st_ret (if t_len t <=? 0 then None else spa_json_parse_bool (token_bytes text t)).

(** The result of the C function is 1 with a string, or the number. *)
Inductive got_string : Type := Got (s : list byte) | NotGot (res : Z).

Definition spa_json_get_string (text : list byte) (maxlen : Z) : ST json_stack got_string :=
  let* t := spa_json_next text in
  if t_len t <=? 0 then st_ret (NotGot (t_len t))
  else fun st =>
    match spa_json_parse_stringn text t maxlen with
    | Ret s => (Ret (Got s), st)
    | Err e => (Ret (NotGot (- e)), st)
    | Fault => (Fault, st)
    end.

(** 1, and the sub-iterator is [spa_json_enter] of what it is left with. *)
Definition spa_json_enter_container (text : list byte) (type : byte) : ST json_stack Z :=
  let* t := spa_json_next text in
  st_ret (if t_len t <=? 0 then t_len t
          else
            let val := token_bytes text t in
            if negb (spa_json_is_container val) then - EPROTO
            else if negb (first_is val type) then - EINVAL
            else 1).

Definition spa_json_begin_container (text : list byte) (data size : Z) (type : byte) (relax : bool)
  : outcome (Z * json_stack) :=
  match spa_json_enter_container text type (mk_stack (spa_json_init data size) []) with
  | (Ret res, st) =>
      if (res =? - EPROTO) && relax then Ret (1, mk_stack (spa_json_init_relax type data size) [])
      else if res <=? 0 then Ret (res, st)
      else Ret (1, spa_json_enter_self st)
  | (Err e, _) => Err e
  | (Fault, _) => Fault
  end.
#[global] Arguments spa_json_enter_container _ _%_byte_scope _.
#[local] Arguments spa_json_begin_container _ _ _ _%_byte_scope _.

Definition spa_json_begin_object_relax (text : list byte) (data size : Z) :=
  spa_json_begin_container text data size "{" true.
Definition spa_json_begin_object (text : list byte) (data size : Z) :=
  spa_json_begin_container text data size "{" false.
Definition spa_json_begin_array_relax (text : list byte) (data size : Z) :=
  spa_json_begin_container text data size "[" true.
Definition spa_json_begin_array (text : list byte) (data size : Z) :=
  spa_json_begin_container text data size "[" false.

(** Every round of the loops below moves the iterator, so the bytes that are
    left are enough rounds. *)
Definition json_fuel (st : json_stack) : nat := S (Z.to_nat (j_end (top st) - j_cur (top st))).

(** [while ((res = spa_json_next(&sub, &val)) > 0);]. *)
Fixpoint skip_loop (fuel : nat) (text : list byte) : ST json_stack Z :=
  match fuel with
  | O => fun st => (Fault, st)
  | S fuel =>
      let* t := spa_json_next text in
      if 0 <? t_len t then skip_loop fuel text else st_ret (t_len t)
  end.

(** The length, and the iterator as its sub-iterator leaves it. *)
Definition spa_json_container_len (text : list byte) (value : Z) : ST json_stack Z := fun st =>
  let sub := spa_json_enter st in
  match skip_loop (json_fuel sub) text sub with
  | (Ret res, sub) =>
      let st := match up sub with it :: ps => mk_stack it ps | [] => st end in
      (Ret (if res <? 0 then 0 else i32 (j_cur (top sub) + 1 - value)), st)
  | (Err e, _) => (Err e, st)
  | (Fault, _) => (Fault, st)
  end.

(** A key and the token of its value, or the result of the function. *)
Inductive next_member : Type := Member (key : list byte) (value : token) | NoMember (res : Z).

Fixpoint object_next_loop (fuel : nat) (text : list byte) (maxkeylen : Z) : ST json_stack next_member :=
  match fuel with
  | O => fun st => (Fault, st)
  | S fuel =>
      let* res1 := spa_json_get_string text maxkeylen in
      match res1 with
      | NotGot r =>
          if (r <=? 0) && negb (r =? - ENOSPC) then st_ret (NoMember r)
          else
            let* value := spa_json_next text in
            if t_len value <=? 0 then st_ret (NoMember (t_len value))
            else object_next_loop fuel text maxkeylen
      | Got key =>
          let* value := spa_json_next text in
          if t_len value <=? 0 then st_ret (NoMember (t_len value)) else st_ret (Member key value)
      end
  end.

Definition spa_json_object_next (text : list byte) (maxkeylen : Z) : ST json_stack next_member :=
  fun st => object_next_loop (json_fuel st) text maxkeylen st.

(** [k] compared as a C string. *)
Definition to_cstr (s : list byte) : list byte := default s (cstr s).

(** [len] is the size of the buffer the keys are copied to. *)
Fixpoint object_find_loop (fuel : nat) (text : list byte) (key : list byte) (len : Z)
  : ST json_stack (option token) :=
  match fuel with
  | O => fun st => (Fault, st)
  | S fuel =>
      let* r := spa_json_object_next text len in
      match r with
      | NoMember _ => st_ret None
      | Member k value =>
          if spa_streq (to_cstr k) key then st_ret (Some value) else object_find_loop fuel text key len
      end
  end.

(** The iterator itself is not moved.  The size of the buffer is an [int]: a
    key that is too long for one makes [alloca] take the huge [size_t] a negative
    size is converted to. *)
Definition spa_json_object_find (text : list byte) (st : json_stack) (key : list byte) : outcome token :=
  let len := i32 (zlen key + 3) in
  if len <? 0 then Fault
  else
    match object_find_loop (json_fuel st) text key len (spa_json_save st) with
    | (Ret (Some t), _) => Ret t
    | (Ret None, _) => Err ENOENT
    | (Err e, _) => Err e
    | (Fault, _) => Fault
    end.

(** [maxlen] is a [size_t] here and an [int] for [spa_json_parse_stringn]. *)
Definition spa_json_str_object_find (obj : list byte) (key : list byte) (maxlen : Z) : outcome (list byte) :=
  let! (res, st) := spa_json_begin_object obj 0 (zlen obj) in
  if res <=? 0 then Err EINVAL
  else
    let! t := spa_json_object_find obj st key in
    spa_json_parse_stringn obj t (i32 maxlen).
