(* ===== verification/JsonProofs.v ===== *)
(** * Relaxed JSON: safety, strings and lookups

    The tokenizer stays in its text and moves on, for any text; the strings it
    returns are decoded inside their token.  What [spa_json_encode_stringn]
    writes is tokenized and decoded to the string it was given, and a lookup in
    a printed object finds the value of its key. *)
From S2P Require Import Prelude Bytes CString Json.
From Stdlib Require Import String.
#[local] Open Scope Z_scope.

(** ** Parts of the text *)

Definition between (text : list byte) (a b : Z) : list byte :=
  take (Z.to_nat (b - a)) (drop (Z.to_nat a) text).

Lemma between_nil text a : between text a a = [].
Proof. unfold between. by rewrite Z.sub_diag. Qed.

Lemma between_snoc text a b c :
  0 <= a <= b -> text !! Z.to_nat b = Some c -> between text a (b + 1) = between text a b ++ [c].
Proof.
  intros Hab Hc. unfold between. replace (Z.to_nat (b + 1 - a)) with (S (Z.to_nat (b - a))) by lia.
  apply take_S_r. rewrite lookup_drop. rewrite <- Hc. f_equal. lia.
Qed.

Lemma between_cons text a b c :
  0 <= a < b -> text !! Z.to_nat a = Some c -> between text a b = c :: between text (a + 1) b.
Proof.
  intros Hab Hc. unfold between. rewrite (drop_S _ _ _ Hc).
  replace (Z.to_nat (b - a)) with (S (Z.to_nat (b - (a + 1)))) by lia.
  cbn [take]. do 2 f_equal. f_equal. lia.
Qed.

Lemma token_bytes_between text v cur : v <= cur -> token_bytes text (mk_token (cur - v) v) = between text v cur.
Proof. done. Qed.

(** ** Strings inside a token *)

(** Follow the escapes of a string: whether the next character is escaped;
    [None] behind its closing quote. *)
Fixpoint esc_run (e : bool) (bs : list byte) : option bool :=
  match bs with
  | [] => Some e
  | c :: r =>
      if e then esc_run false r
      else if is_backslash c then esc_run true r
      else if is_quote c then None
      else esc_run false r
  end.

Lemma esc_run_app e a b :
  esc_run e (a ++ b) = match esc_run e a with Some e' => esc_run e' b | None => None end.
Proof.
  revert e. induction a as [|c a IH]; intros e; [done|]. cbn [esc_run app].
  destruct e; [apply IH|]. destruct (is_backslash c); [apply IH|]. by destruct (is_quote c).
Qed.

(** What [spa_json_parse_stringn] needs of a token. *)
Definition token_ok (text : list byte) (t : token) : Prop :=
  spa_json_is_string (token_bytes text t) = true ->
  exists q body q',
    token_bytes text t = q :: body ++ [q'] /\ is_quote q' = true /\ esc_run false body = Some false.

(** ** One round of the tokenizer *)

(** What holds in front of every character: the token that is being read is
    behind [c0], and a string in it is open. *)
Definition reading (text : list byte) (s : scan) : Prop :=
  match s_kind s with
  | JNone => s_value s = s_cur s
  | JStruct | JComment => True
  | JBare => s_value s < s_cur s /\
             exists c, text !! Z.to_nat (s_value s) = Some c /\ is_quote c = false
  | k => s_value s < s_cur s /\
         (exists c, text !! Z.to_nat (s_value s) = Some c /\ is_quote c = true) /\
         esc_run false (between text (s_value s + 1) (s_cur s))
         = Some (match k with JEsc => true | _ => false end)
  end.

Record scanning (text : list byte) (c0 : Z) (s : scan) : Prop := {
  scanning_pos : 0 <= c0 /\ c0 <= s_value s <= s_cur s;
  scanning_depth : 0 <= s_depth s;
  scanning_token : reading text s }.

(** A token that is returned with the iterator at [cur]. *)
Definition returned (text : list byte) (c0 cur len value : Z) : Prop :=
  c0 <= value /\ value + len <= cur /\ 0 <= len /\ token_ok text (mk_token len value).

Lemma returned_intro text c0 cur len value :
  c0 <= value -> value + len <= cur -> 0 <= len -> token_ok text (mk_token len value) ->
  returned text c0 cur len value.
Proof. done. Qed.

Definition verdict_ok (text : list byte) (c0 cur : Z) (v : verdict) : Prop :=
  match v with
  | Continue s' => s_cur s' = cur /\ scanning text c0 (advance s')
  | Return len s' =>
      cur <= s_cur s' <= cur + 1 /\ 0 <= s_depth s' /\ s_kind s' = JStruct
      /\ returned text c0 (s_cur s') len (s_value s')
  | Close s' => s_cur s' = cur /\ c0 <= s_value s' <= cur /\ 0 <= s_depth s' /\ s_kind s' = JStruct
  | Throw _ => True
  end.

(** A quote is not a backslash. *)
Lemma quote_not_backslash c : is_quote c = true -> is_backslash c = false.
Proof. unfold is_quote, is_backslash. intros H. bool_to_prop. apply Z.eqb_neq. lia. Qed.

Lemma reading_struct text s : s_kind s = JStruct \/ s_kind s = JComment -> reading text s.
Proof. unfold reading. intros [-> | ->]; done. Qed.

Section Round.
Context (text : list byte) (c0 : Z) (s : scan) (c : byte).
Context (Hs : scanning text c0 s) (Hc : text !! Z.to_nat (s_cur s) = Some c).

(** A token of one character is not a string. *)
Lemma one_byte_token v : token_ok text (mk_token 1 v).
Proof.
  unfold token_ok, token_bytes, spa_json_is_string, zlen. simpl. intros H. bool_to_prop.
  rewrite length_take in *. lia.
Qed.

Lemma open_bracket_ok : verdict_ok text c0 (s_cur s) (open_bracket c s).
Proof.
  destruct Hs as [Hp Hd _]. pose proof (one_byte_token (s_cur s)) as Ht. unfold open_bracket.
  repeat (case_if; try exact I);
    first [ split; [done|constructor; simpl; done || lia]
          | split; [simpl; lia|split; [simpl; lia|split; [done|apply returned_intro; simpl; done || lia]]] ].
Qed.

Lemma close_bracket_ok parent : verdict_ok text c0 (s_cur s) (close_bracket c parent s).
Proof.
  destruct Hs as [Hp Hd _]. unfold close_bracket.
  repeat (case_if; try exact I); try (destruct parent); simpl; try exact I; (split; [done|]);
    first [split; [lia|split; [lia|done]] | constructor; simpl; done || lia].
Qed.

Lemma scan_struct_ok parent : s_kind s = JStruct -> verdict_ok text c0 (s_cur s) (scan_struct c parent s).
Proof.
  intros Hk. pose proof Hs as [Hp Hd _]. unfold scan_struct.
  repeat (first [ case_if | apply open_bracket_ok | apply close_bracket_ok | exact I ]);
    (split; [done|]); (constructor; [simpl; lia|simpl; lia|]);
    try (by apply reading_struct; simpl; auto); unfold reading; simpl.
  - repeat split; [lia| by exists c |]. by rewrite between_nil.
  - split; [lia|]. by exists c.
Qed.

(** A character of the string that is being read. *)
Lemma reading_snoc (b b' : bool) :
  s_value s < s_cur s ->
  esc_run false (between text (s_value s + 1) (s_cur s)) = Some b -> esc_run b [c] = Some b' ->
  esc_run false (between text (s_value s + 1) (s_cur s + 1)) = Some b'.
Proof.
  destruct Hs as [Hp _ _]. intros Hv He Hn. rewrite (between_snoc _ _ _ c) by (done || lia).
  by rewrite esc_run_app, He.
Qed.

(** The token of a string that ends with the character. *)
Lemma string_token_ok :
  s_kind s = JString -> is_quote c = true ->
  token_ok text (mk_token (s_cur s + 1 - s_value s) (s_value s)).
Proof.
  destruct Hs as [Hp _ Hr]. intros Hk Hq. unfold reading in Hr. rewrite Hk in Hr.
  destruct Hr as (Hv & (q & Hlq & _) & He). intros _.
  exists q, (between text (s_value s + 1) (s_cur s)), c. split; [|done].
  rewrite token_bytes_between by lia. rewrite (between_cons _ _ _ q) by (done || lia). f_equal.
  apply between_snoc; [lia|done].
Qed.

Lemma bare_token_ok : s_kind s = JBare -> token_ok text (mk_token (s_cur s - s_value s) (s_value s)).
Proof.
  destruct Hs as [Hp _ Hr]. intros Hk. unfold reading in Hr. rewrite Hk in Hr.
  destruct Hr as (Hv & b & Hb & Hq). intros H. exfalso. revert H.
  rewrite token_bytes_between by lia. rewrite (between_cons _ _ _ b) by (done || lia).
  unfold spa_json_is_string. rewrite Hq. by rewrite andb_false_r.
Qed.

(** Going on with the same string. *)
Lemma string_continues k u b b' :
  (s_kind s = JString \/ s_kind s = JUtf8 \/ s_kind s = JEsc) ->
  (match s_kind s with JEsc => true | _ => false end) = b ->
  esc_run b [c] = Some b' ->
  (k = JString \/ k = JUtf8) /\ b' = false \/ k = JEsc /\ b' = true ->
  reading text (mk_scan (s_cur s + 1) k (s_flags s) (s_depth s) (s_value s) u (s_stack s)).
Proof.
  destruct Hs as [Hp _ Hr]. intros Hk Hb He Hk'. unfold reading in Hr.
  assert (s_value s < s_cur s /\
          (exists c, text !! Z.to_nat (s_value s) = Some c /\ is_quote c = true) /\
          esc_run false (between text (s_value s + 1) (s_cur s)) = Some b) as (Hv & Hq & Hrun).
  { by destruct Hk as [Hk|[Hk|Hk]]; rewrite Hk in Hr, Hb; subst b. }
  pose proof (reading_snoc _ _ Hv Hrun He) as Hn. unfold reading. simpl.
  destruct Hk' as [[[-> | ->] ->]|[-> ->]]; (split; [lia|by split]).
Qed.
End Round.

(** A character that is neither a quote nor a backslash. *)
Lemma esc_plain c : is_backslash c = false -> is_quote c = false -> esc_run false [c] = Some false.
Proof. intros Hb Hq. simpl. by rewrite Hb, Hq. Qed.
Lemma esc_by_code c : code c <> 34 -> code c <> 92 -> esc_run false [c] = Some false.
Proof. intros. apply esc_plain; by apply Z.eqb_neq. Qed.

Lemma scan_char_ok text c0 stop s c parent :
  scanning text c0 s -> text !! Z.to_nat (s_cur s) = Some c -> s_cur s < stop <= 2 ^ 31 - 1 ->
  verdict_ok text c0 (s_cur s) (scan_char c parent s).
Proof.
  intros Hs Hc Hb. pose proof Hs as [Hp Hd Hr]. unfold scan_char. destruct (s_kind s) eqn:Hk.
  - apply (scan_struct_ok text c0 (mk_scan _ _ _ _ _ _ _)); [|done|done]. constructor; simpl; done || lia.
  - by apply scan_struct_ok.
  - repeat case_if; try exact I.
    + apply (scan_struct_ok text c0 (to_kind _ _ _)); [|done|done]. constructor; simpl; done || lia.
    + simpl. rewrite swrap_small by lia. split; [lia|]. split; [lia|]. split; [done|].
      apply returned_intro; [lia|lia|lia|]. by eapply bare_token_ok.
    + split; [done|]. constructor; [simpl; lia|done|]. unfold reading in *. rewrite Hk in Hr. simpl. rewrite Hk.
      split; [lia|]. apply Hr.
  - assert (forall k u b', esc_run false [c] = Some b' ->
                (k = JString \/ k = JUtf8) /\ b' = false \/ k = JEsc /\ b' = true ->
                reading text (mk_scan (s_cur s + 1) k (s_flags s) (s_depth s) (s_value s) u (s_stack s))) as Hgo.
    { intros. apply (string_continues text c0 s c Hs Hc) with (b := false) (b' := b'); auto. by rewrite Hk. }
    repeat case_if; try exact I; (split; [simpl; done || lia|]).
    + constructor; [simpl; lia|done|]. apply Hgo with true; [simpl; by rewrite E|by right].
    + constructor; simpl; done || lia.
    + simpl. rewrite swrap_small by lia. split; [lia|]. split; [done|].
      apply returned_intro; [lia|lia|lia|]. by eapply string_token_ok.
    + constructor; [simpl; lia|done|]; apply Hgo with false; [apply esc_by_code; lia|by left; auto].
    + constructor; [simpl; lia|done|]; apply Hgo with false; [apply esc_by_code; lia|by left; auto].
    + constructor; [simpl; lia|done|]; apply Hgo with false; [apply esc_by_code; lia|by left; auto].
    + constructor; [simpl; lia|done|]. unfold advance. rewrite Hk.
      apply Hgo with false; [by apply esc_plain|by left; auto].
  - assert (forall k u, k = JString \/ k = JUtf8 -> 128 <= code c ->
                reading text (mk_scan (s_cur s + 1) k (s_flags s) (s_depth s) (s_value s) u (s_stack s))) as Hgo.
    { intros. apply (string_continues text c0 s c Hs Hc) with (b := false) (b' := false);
        [auto|by rewrite Hk|apply esc_by_code; lia|by left; auto]. }
    repeat case_if; try exact I; (split; [simpl; done || lia|]); (constructor; [simpl; lia|done|]);
      unfold advance; simpl; try rewrite Hk; apply Hgo; auto.
  - case_if; [|exact I]. split; [done|]. constructor; [simpl; lia|done|].
    apply (string_continues text c0 s c Hs Hc) with (b := true) (b' := false); [auto|by rewrite Hk|done|by left; auto].
  - split; [by case_if|]. constructor; [case_if; simpl; lia|by case_if|].
    case_if; unfold reading; simpl; [done|by rewrite Hk].
Qed.

(** ** One call *)

(** The iterator and its parents are inside the text, between tokens. *)
Definition settled (s : json_state) : Prop :=
  match s with Run (JBare | JString | JUtf8 | JEsc) _ => False | _ => True end.
Record iter_ok (text : list byte) (it : spa_json) : Prop := {
  iter_pos : 0 <= j_cur it <= j_end it;
  iter_text : j_end it <= zlen text <= 2 ^ 31 - 1;
  iter_depth : 0 <= j_depth it;
  iter_settled : settled (j_state it) }.

(** After a call from [it]: the token, and the iterator. *)
Record moved (text : list byte) (it : spa_json) (t : token) (it' : spa_json) : Prop := {
  moved_end : j_end it' = j_end it;
  moved_parent : j_parent it' = j_parent it;
  moved_cur : j_cur it <= j_cur it';
  moved_ok : iter_ok text it';
  moved_token : 0 < t_len t -> returned text (j_cur it) (j_cur it') (t_len t) (t_value t);
  moved_broken : t_len t < 0 -> exists e, j_state it' = Broken e;
  moved_value : j_cur it <= t_value t <= j_end it;
  moved_len : -1 <= t_len t }.

Lemma scan_end_moved text st c0 s :
  scanning text c0 s -> iter_ok text (top st) -> c0 = j_cur (top st) -> s_cur s = j_end (top st) ->
  let '(r, st') := scan_end s st in moved text (top st) (mk_token r (s_value s)) (top st').
Proof.
  intros Hs Hok -> Hend. pose proof Hs as [Hp Hd Hr]. destruct Hok as [Ho1 Ho2 Ho3 Ho4].
  assert (forall e, moved text (top st) (mk_token (json_error e s st).1 (s_value s)) (top (json_error e s st).2))
    as Herr.
  { intros e. constructor; simpl; try done; try lia; [constructor; simpl; done || lia|eauto]. }
  assert (forall k f, settled (Run k f) -> s_depth s = 0 ->
            moved text (top st) (mk_token 0 (s_value s)) (top (scanned (to_kind k f s) st))) as Hz.
  { intros k f Hk H0. constructor; simpl; try done; try lia. constructor; simpl; done || lia. }
  unfold scan_end. destruct (s_depth s =? 0) eqn:E0; [|apply (Herr ERROR_MISMATCHED_BRACKET)]. bool_to_prop.
  destruct (j_parent (top st)) eqn:Ep; try apply (Herr ERROR_MISMATCHED_BRACKET).
  assert (s = to_kind (s_kind s) (s_flags s) s) as Eta by (by destruct s).
  destruct (s_kind s) eqn:Hk; try apply (Herr ERROR_UNFINISHED_STRING).
  - case_if; [apply (Herr ERROR_EXPECTED_OBJECT_VALUE)|]. unfold reading in Hr. rewrite Hk in Hr.
    rewrite Hr, Z.sub_diag. rewrite <- Hr at 1. by apply Hz.
  - case_if; [apply (Herr ERROR_EXPECTED_OBJECT_VALUE)|]. rewrite Eta. by apply Hz.
  - case_if; [apply (Herr ERROR_EXPECTED_OBJECT_VALUE)|]. pose proof (bare_token_ok text _ s Hs Hk) as Ht.
    rewrite swrap_small by lia.
    constructor; simpl; try done; try lia; [constructor; simpl; done || lia|].
    intros _. apply returned_intro; done || lia.
  - rewrite Eta. by apply Hz.
Qed.

Lemma tell_parent_top st : top (tell_parent st) = top st.
Proof. unfold tell_parent. by destruct (j_parent (top st)); [| |destruct (up st)]. Qed.

Lemma scan_loop_moved text st c0 n s :
  scanning text c0 s -> iter_ok text (top st) -> c0 = j_cur (top st) -> s_cur s + Z.of_nat n = j_end (top st) ->
  exists r v st', scan_loop text n s st = Ret (r, v, st') /\ moved text (top st) (mk_token r v) (top st').
Proof.
  intros Hs Hok Hc0. revert s Hs. pose proof Hok as [Ho1 Ho2 Ho3 Ho4].
  induction n as [|n IH]; intros s Hs Hend; cbn [scan_loop].
  - pose proof (scan_end_moved text st c0 s Hs Hok Hc0 ltac:(lia)) as H. destruct (scan_end s st) as [r st']. eauto.
  - pose proof Hs as [Hp Hd Hr].
    destruct (lookup_lt_is_Some_2 text (Z.to_nat (s_cur s))) as [c Hc]; [unfold zlen in *; lia|]. rewrite Hc.
    pose proof (scan_char_ok text c0 (j_end (top st)) s c (j_parent (top st)) Hs Hc ltac:(lia)) as Hv.
    destruct (scan_char c (j_parent (top st)) s) as [s'|len s'|s'|e]; simpl in Hv.
    + destruct Hv as [He Hs']. apply IH; [done|]. simpl. lia.
    + destruct Hv as (Hcur & Hd' & Hk' & Hret). do 3 eexists. split; [done|]. pose proof Hret as (? & ? & ? & ?).
      constructor; simpl; try done; try lia; [|by rewrite <- Hc0]. constructor; simpl; try lia. by rewrite Hk'.
    + destruct Hv as (Hcur & Hv & Hd' & Hk'). do 3 eexists. split; [done|].
      rewrite tell_parent_top.
      constructor; simpl; try done; try lia. constructor; simpl; try lia. by rewrite Hk'.
    + do 3 eexists. split; [done|]. constructor; simpl; try done; try lia; [constructor; simpl; done || lia|eauto].
Qed.

(** Any call from an iterator inside its text returns, and leaves it there. *)
Lemma json_next_moved text st :
  iter_ok text (top st) ->
  exists t st', spa_json_next text st = (Ret t, st') /\ moved text (top st) t (top st').
Proof.
  intros Hok. pose proof Hok as [Ho1 Ho2 Ho3 Ho4]. unfold spa_json_next.
  destruct (j_state (top st)) as [k f|e] eqn:Es.
  - destruct (scan_loop_moved text st (j_cur (top st)) (Z.to_nat (j_end (top st) - j_cur (top st)))
       (mk_scan (j_cur (top st)) k f (j_depth (top st)) (j_cur (top st)) 0
          (repeat false (Z.to_nat STACK_BITS)))) as (r & v & st' & -> & Hm); [|done|done|simpl; lia|eauto].
    constructor; simpl; try lia. unfold reading. simpl. by destruct k.
  - do 2 eexists. split; [done|]. constructor; simpl; try done; try lia. eauto.
Qed.

(** ** Decoding a string *)

Lemma holds_cons (m : list byte) p c bs : holds m p (c :: bs) -> m !! Z.to_nat p = Some c /\ holds m (p + 1) bs.
Proof.
  intros H. split.
  - destruct H as (pre & post & -> & <-). unfold zlen. rewrite Nat2Z.id. by apply list_lookup_middle.
  - by apply (holds_app_r m p [c] bs).
Qed.

Lemma holds_byte_at (m : list byte) p c bs : holds m p (c :: bs) -> byte_at m p = Ret c.
Proof. intros H. unfold byte_at. by rewrite (proj1 (holds_cons m _ _ _ H)). Qed.

Lemma hex_not_special c v : hex_digit c = Some v -> is_quote c = false /\ is_backslash c = false.
Proof.
  unfold hex_digit, is_quote, is_backslash.
  repeat case_if; intros [= <-]; split; apply Z.eqb_neq; lia.
Qed.

(** Reading digits in front of the closing quote: it stays in front of it. *)
Lemma parse_hex_inside text q rest n p body r :
  is_quote q = true -> holds text p (body ++ q :: rest) -> Z.of_nat n <= zlen body + 1 ->
  match spa_json_parse_hex text p n r with
  | Ret (Some _) => exists ds body', body = ds ++ body' /\ List.length ds = n /\
                                     Forall (fun c => hex_digit c <> None) ds
  | Ret None => True
  | _ => False
  end.
Proof.
  intros Hq. revert p body r. induction n as [|n IH]; intros p body r H Hn; cbn [spa_json_parse_hex].
  { by exists [], body. }
  destruct body as [|c body]; simpl in H.
  - destruct (holds_cons _ _ _ _ H) as [-> _]. destruct (hex_digit q) as [v|] eqn:Hh; [|done].
    apply hex_not_special in Hh as [? _]. congruence.
  - destruct (holds_cons _ _ _ _ H) as [-> H']. destruct (hex_digit c) as [v|] eqn:Hh; [|done].
    specialize (IH (p + 1) body (Z.lor (u32 (Z.shiftl r 4)) v) H' ltac:(zlia)).
    destruct (spa_json_parse_hex _ _ _ _) as [[x|]| |]; try done.
    destruct IH as (ds & body' & -> & Hl & Hf). exists (c :: ds), body'. simpl.
    repeat split; [lia|]. constructor; [by rewrite Hh|done].
Qed.

Lemma esc_run_hex ds r : Forall (fun c => hex_digit c <> None) ds -> esc_run false (ds ++ r) = esc_run false r.
Proof.
  induction 1 as [|c ds Hc _ IH]; [done|]. simpl. destruct (hex_digit c) as [v|] eqn:Hh; [|done].
  destruct (hex_not_special _ _ Hh) as [-> ->]. done.
Qed.

Lemma utf8_length cp : 1 <= zlen (utf8 cp) <= 4.
Proof. unfold utf8. repeat case_if; zlia. Qed.

(** An escape whose characters are in front of the closing quote: [p'] is
    the last of them, and a string is behind it. *)
Definition escaped_to (text : list byte) (q : byte) (rest : list byte) (p : Z) (body : list byte)
  (r : outcome (list byte * Z)) : Prop :=
  exists bs used body', r = Ret (bs, p + zlen used - 1) /\ body = used ++ body'
    /\ zlen bs <= zlen used /\ 1 <= zlen used /\ esc_run false body' = Some false.

Lemma unicode_escape_inside text q rest p c body :
  is_quote q = true -> holds text p (c :: body ++ q :: rest) -> esc_run false body = Some false ->
  escaped_to text q rest p (c :: body) (unicode_escape text p (p + zlen (c :: body) + 1)).
Proof.
  intros Hq H He. unfold escaped_to, unicode_escape. rewrite (holds_byte_at _ _ _ _ H).
  destruct (holds_cons _ _ _ _ H) as [_ H1].
  assert (escaped_to text q rest p (c :: body) (Ret ([c], p))) as Hone.
  { exists [c], [c], body. simpl. repeat split; try done; try zlia. do 2 f_equal. zlia. }
  unfold escaped_to in Hone. case_if; [exact Hone|].
  pose proof (parse_hex_inside text q rest 4 (p + 1) body 0 Hq H1 ltac:(zlia)) as Hh.
  destruct (spa_json_parse_hex text (p + 1) 4 0) as [[cp|]| |]; try done; cbn [obind].
  destruct Hh as (ds & body' & -> & Hl & Hds). rewrite esc_run_hex in He by done.
  rewrite <- app_assoc in H1. assert (zlen ds = 4) as Hl' by (unfold zlen; lia).
  apply holds_app_r in H1 as H2. rewrite Hl' in H2.
  assert (forall bs, zlen bs <= 4 ->
    escaped_to text q rest p (c :: ds ++ body') (Ret (bs, p + 4))) as Hfour.
  { intros bs Hb. exists bs, (c :: ds), body'. repeat split; try done; try zlia. do 2 f_equal. zlia. }
  unfold escaped_to in Hfour.
  pose proof (utf8_length cp) as Hu. case_if; [|case_if; apply Hfour; zlia].
  case_if; [apply Hfour; zlia|].
  assert (zlen (c :: ds ++ body') = 5 + zlen body') as Hlen by zlia. rewrite Hlen in *.
  destruct body' as [|c1 b1]; [zlia|]. simpl in H2, He.
  replace (p + 4 + 1) with (p + 1 + 4) by lia. rewrite (holds_byte_at _ _ _ _ H2). cbn [obind].
  destruct (is_backslash c1); cbn [negb]; [|apply Hfour; zlia].
  destruct b1 as [|c2 b2]; [done|]. simpl in He. apply holds_cons in H2 as [_ Hh3].
  replace (p + 4 + 2) with (p + 1 + 4 + 1) by lia. rewrite (holds_byte_at _ _ _ _ Hh3). cbn [obind].
  destruct (Byte.eqb c2 "u"); cbn [negb]; [|apply Hfour; zlia].
  apply holds_cons in Hh3 as [_ Hh4]. replace (p + 4 + 3) with (p + 1 + 4 + 1 + 1) by lia.
  pose proof (parse_hex_inside text q rest 4 _ b2 0 Hq Hh4 ltac:(zlia)) as Hh.
  destruct (spa_json_parse_hex text _ 4 0) as [[v|]| |]; try done; cbn [obind]; [|apply Hfour; zlia].
  case_if; [apply Hfour; zlia|]. destruct Hh as (ds2 & b3 & -> & Hl2 & Hds2).
  rewrite esc_run_hex in He by done. pose proof (utf8_length (0x010000 + Z.lor (Z.shiftl (Z.land cp 0x3ff) 10) (Z.land v 0x3ff))).
  assert (zlen ((c :: ds) ++ [c1; c2] ++ ds2) = 11) as Hu11
    by (unfold zlen in *; rewrite !length_app; simpl; lia).
  eexists _, ((c :: ds) ++ [c1; c2] ++ ds2), b3. rewrite Hu11. split; [do 2 f_equal; lia|].
  split; [by rewrite <- !app_assoc|]. repeat split; zlia || done.
Qed.

Lemma escape_inside text q rest p c body :
  is_quote q = true -> holds text p (c :: body ++ q :: rest) -> esc_run false body = Some false ->
  escaped_to text q rest p (c :: body) (escape text p (p + zlen (c :: body) + 1)).
Proof.
  intros Hq H He. pose proof (unicode_escape_inside text q rest p c body Hq H He) as Hu.
  unfold escape. rewrite (holds_byte_at _ _ _ _ H). cbn [obind].
  assert (forall d, escaped_to text q rest p (c :: body) (Ret ([d], p))) as Hone.
  { intros d. exists [d], [c], body. simpl. repeat split; try done; try zlia. do 2 f_equal. zlia. }
  repeat case_if; done.
Qed.

(** A string is decoded inside its token, and does not get longer. *)
Lemma string_loop_inside text q rest fuel body p result :
  is_quote q = true -> holds text p (body ++ q :: rest) -> esc_run false body = Some false ->
  zlen body < Z.of_nat fuel ->
  exists r, string_loop fuel text p (p + zlen body + 1) result = Ret (result ++ r) /\ zlen r <= zlen body.
Proof.
  intros Hq. revert body p result. induction fuel as [|fuel IH]; intros body p result H He Hf; [zlia|].
  cbn [string_loop]. rewrite (proj2 (Z.leb_gt _ _)) by zlia. destruct body as [|c body]; simpl app in H.
  - rewrite (holds_byte_at _ _ _ _ H). cbn [obind]. rewrite (quote_not_backslash _ Hq), Hq.
    exists []. by rewrite app_nil_r.
  - rewrite (holds_byte_at _ _ _ _ H). cbn [obind]. apply holds_cons in H as [_ H]. simpl in He.
    destruct (is_backslash c).
    + destruct body as [|d body]; [done|]. simpl in He.
      destruct (escape_inside text q rest (p + 1) d body Hq H He) as (bs & used & body' & Hr & Hb & Hl & Hu & He').
      replace (p + zlen (c :: d :: body) + 1) with (p + 1 + zlen (d :: body) + 1) by zlia. rewrite Hr. cbn [obind].
      replace (d :: body ++ q :: rest) with ((d :: body) ++ q :: rest) in H by done.
      rewrite Hb in *. rewrite <- app_assoc in H. apply holds_app_r in H.
      destruct (IH body' (p + 1 + zlen used) (result ++ bs) H He') as (r & Hr' & Hrl); [zlia|].
      exists (bs ++ r). rewrite app_assoc, <- Hr'. split; [f_equal; zlia|zlia].
    + destruct (is_quote c); [done|].
      destruct (IH body (p + 1) (result ++ [c]) H He) as (r & Hr & Hrl); [zlia|].
      exists (c :: r). rewrite <- app_assoc in Hr. simpl in Hr. rewrite <- Hr. split; [f_equal; zlia|zlia].
Qed.

Lemma token_bytes_holds text len v :
  0 <= len -> 0 <= v -> v + len <= zlen text -> holds text v (token_bytes text (mk_token len v)).
Proof.
  intros Hl Hv Hb. exists (take (Z.to_nat v) text), (drop (Z.to_nat len) (drop (Z.to_nat v) text)).
  unfold token_bytes. simpl. rewrite !take_drop. split; [done|]. unfold zlen in *. rewrite length_take. lia.
Qed.

(** A token of the text is converted to fewer bytes than there is room for. *)
Lemma parse_stringn_inside text t maxlen :
  0 < t_len t -> 0 <= t_value t -> t_value t + t_len t <= zlen text -> token_ok text t ->
  o_wp (spa_json_parse_stringn text t maxlen) (fun s => zlen s < maxlen) (maxlen <= t_len t).
Proof.
  intros Hl Hv Hb Hok. destruct t as [len v]. simpl in *. unfold spa_json_parse_stringn. cbn [t_len t_value].
  case_if; [simpl; lia|].
  pose proof (token_bytes_holds text len v ltac:(lia) ltac:(lia) ltac:(lia)) as Hh.
  assert (zlen (token_bytes text (mk_token len v)) = len) as Htl.
  { unfold token_bytes, zlen in *. simpl in *. rewrite length_take, length_drop. lia. }
  case_if; [simpl; lia|]. destruct (Hok E0) as (q & body & q' & Ht & Hq' & He). rewrite Ht in Hh, Htl.
  apply holds_cons in Hh as [_ Hh]. pose proof Hh as (pre & post & Hm & Hp).
  rewrite <- app_assoc in Hm. simpl in Hm.
  destruct (string_loop_inside text q' post (S (Z.to_nat len)) body (v + 1) []) as (r & Hr & Hrl);
    [done|by exists pre, []; rewrite app_nil_r|done|zlia|].
  replace (v + len) with (v + 1 + zlen body + 1) by zlia. rewrite Hr. simpl. zlia.
Qed.

(** ** Loops over members *)

(** The iterator of [st'] is further on than that of [st]. *)
Record later (text : list byte) (st st' : json_stack) : Prop := {
  later_end : j_end (top st') = j_end (top st);
  later_cur : j_cur (top st) <= j_cur (top st');
  later_ok : iter_ok text (top st') }.

Lemma later_trans text st st' st'' : later text st st' -> later text st' st'' -> later text st st''.
Proof. intros [? ? ?] [? ? ?]. constructor; congruence || lia || done. Qed.

Lemma moved_later text st t st' : moved text (top st) t (top st') -> later text st st'.
Proof. intros []. by constructor. Qed.

(** A token of [st] in front of [st']. *)
Definition token_of (text : list byte) (st st' : json_stack) (t : token) : Prop :=
  0 < t_len t /\ returned text (j_cur (top st)) (j_cur (top st')) (t_len t) (t_value t).

Lemma token_of_lt text st st' t : token_of text st st' t -> j_cur (top st) < j_cur (top st').
Proof. intros (? & ? & ? & ? & ?). lia. Qed.

Lemma parse_token text st st' t maxlen :
  iter_ok text (top st) -> later text st st' -> token_of text st st' t ->
  o_wp (spa_json_parse_stringn text t maxlen) (fun s => zlen s < maxlen) (maxlen <= t_len t).
Proof.
  intros [? ? ? ?] [? ? [? ? ? ?]] (? & ? & ? & ? & ?). apply parse_stringn_inside; done || lia.
Qed.

Lemma next_later text st :
  iter_ok text (top st) ->
  st_wp (spa_json_next text)
        (fun t st' => later text st st' /\ -1 <= t_len t /\ (0 < t_len t -> token_of text st st' t))
        (fun _ => False) st.
Proof.
  intros Hok. destruct (json_next_moved text st Hok) as (t & st' & Hn & Hm). unfold st_wp. rewrite Hn.
  pose proof Hm as []. split; [by eapply moved_later|]. split; [done|]. by intros; split; auto.
Qed.

Lemma get_string_later text maxlen st :
  iter_ok text (top st) ->
  st_wp (spa_json_get_string text maxlen)
        (fun g st' => later text st st' /\
           match g with
           | Got s => j_cur (top st) < j_cur (top st') /\ zlen s < maxlen
           | NotGot r => r <= 0 /\ (r = - ENOSPC -> j_cur (top st) < j_cur (top st'))
           end) (fun _ => False) st.
Proof.
  intros Hok. unfold spa_json_get_string. apply st_wp_bind.
  eapply st_wp_mono; [by apply next_later| |done]. intros t st' (Hl & Hlen & Ht).
  case_if; [by split; [|simpl; split; lia]|]. specialize (Ht ltac:(lia)).
  pose proof (parse_token text st st' t maxlen Hok Hl Ht) as Hp. pose proof (token_of_lt _ _ _ _ Ht).
  unfold st_wp. destruct (spa_json_parse_stringn text t maxlen) as [s|e|] eqn:Hs; simpl in Hp; [| |done].
  - by split.
  - assert (e = ENOSPC) as ->.
    { revert Hs. unfold spa_json_parse_stringn. rewrite (proj2 (Z.leb_le _ _) Hp). by intros [= <-]. }
    split; [done|]. split; [lia|done].
Qed.

(** A loop that is entered with enough rounds for the bytes that are left. *)
Definition rounds (st : json_stack) (fuel : nat) : Prop := j_end (top st) - j_cur (top st) < Z.of_nat fuel.

Lemma json_fuel_rounds text st : iter_ok text (top st) -> rounds st (json_fuel st).
Proof. intros []. unfold rounds, json_fuel. lia. Qed.

Lemma object_next_later text maxkeylen fuel st :
  iter_ok text (top st) -> rounds st fuel ->
  st_wp (object_next_loop fuel text maxkeylen)
        (fun r st' => later text st st' /\
           match r with
           | Member key value => zlen key < maxkeylen /\ token_of text st st' value
           | NoMember res => res <= 0
           end) (fun _ => False) st.
Proof.
  revert st. induction fuel as [|fuel IH]; intros st Hok Hf.
  { unfold rounds in Hf. destruct Hok. lia. }
  cbn [object_next_loop]. apply st_wp_bind. eapply st_wp_mono; [by apply get_string_later| |done].
  intros g st1 [Hl1 Hg]. pose proof (later_ok _ _ _ Hl1) as Hok1.
  assert (forall res st', later text st1 st' -> res <= 0 ->
    later text st st' /\ res <= 0) as Hno by (intros; split; [by eapply later_trans|done]).
  destruct g as [key|r].
  - destruct Hg as [Hlt Hk]. apply st_wp_bind. eapply st_wp_mono; [by apply next_later| |done].
    intros t st' (Hl & Hlen & Ht). case_if; [by apply Hno|]. specialize (Ht ltac:(lia)).
    split; [by eapply later_trans|]. split; [done|]. destruct Ht as (? & ? & ? & ? & ?).
    split; [done|]. apply returned_intro; done || lia.
  - destruct Hg as [Hr Hsp]. case_if; [by apply Hno; [constructor; try lia|]|].
    apply st_wp_bind. eapply st_wp_mono; [by apply next_later| |done].
    intros t st' (Hl & Hlen & Ht). case_if; [by apply Hno|].
    specialize (Hsp ltac:(destruct (r <=? 0) eqn:?, (r =? -28) eqn:?; bool_to_prop; simpl in *; done || lia)).
    eapply st_wp_mono; [apply IH; [by destruct Hl|]| |done].
    { unfold rounds in *. destruct Hl, Hl1. lia. }
    intros x st'' [Hl' Hx]. pose proof (later_trans _ _ _ _ Hl1 (later_trans _ _ _ _ Hl Hl')). split; [done|].
    destruct x as [key value|res]; [|done]. destruct Hx as (? & ? & ? & ? & ? & ?). split; [done|].
    split; [done|]. destruct Hl, Hl1. apply returned_intro; done || lia.
Qed.

Lemma object_find_later text key len fuel st :
  iter_ok text (top st) -> rounds st fuel ->
  st_wp (object_find_loop fuel text key len)
        (fun r st' => match r with
                      | Some t => 0 < t_len t /\ 0 <= t_value t /\ t_value t + t_len t <= zlen text /\ token_ok text t
                      | None => True
                      end) (fun _ => False) st.
Proof.
  revert st. induction fuel as [|fuel IH]; intros st Hok Hf.
  { unfold rounds in Hf. destruct Hok. lia. }
  cbn [object_find_loop]. apply st_wp_bind. unfold spa_json_object_next.
  pose proof (object_next_later text len (json_fuel st) st Hok (json_fuel_rounds _ _ Hok)) as Hn.
  unfold st_wp in Hn |- *. destruct (object_next_loop _ _ _ st) as [[r| |] st']; try done.
  destruct Hn as [Hl Hr]. destruct r as [k value|res]; [|done]. destruct Hr as [_ Ht].
  pose proof (token_of_lt _ _ _ _ Ht). destruct Hl as [He Hc Hok']. case_if.
  - destruct Ht as (? & ? & ? & ? & ?), Hok, Hok'. simpl. repeat split; done || lia.
  - apply IH; [done|]. unfold rounds in *. lia.
Qed.

Lemma init_ok text : zlen text <= 2 ^ 31 - 1 -> iter_ok text (spa_json_init 0 (zlen text)).
Proof. intros. constructor; simpl; zlia || done. Qed.

Lemma enter_settled s : settled s -> settled (enter_state s).
Proof. by destruct s. Qed.

(** The size of the buffer for the keys, and what is left of a [size_t]. *)
Lemma key_len (key : list byte) : zlen key + 3 <= 2 ^ 31 - 1 -> i32 (zlen key + 3) = zlen key + 3.
Proof. intros. apply swrap_small; zlia. Qed.

Lemma i32_size_t n : 0 <= n -> i32 n <= n.
Proof.
  intros Hn. unfold swrap, wrap. pose proof (Z.mod_le n (2 ^ 32) Hn ltac:(lia)). case_if; lia.
Qed.

(** C18: a lookup in any text terminates and stays inside it: for every text a
    32-bit length can describe, every key whose buffer an [int] can describe and
    every [size_t] given as the size of the result, also one the call narrows to
    another [int], [spa_json_str_object_find] returns (it does not read outside the text,
    neither in the tokenizer nor when it decodes the escapes of a key or of the
    value), and a string it returns fits into the [maxlen] bytes of the
    destination with its terminator. *)
Theorem json_lookup_safe text key maxlen :
  zlen text <= 2 ^ 31 - 1 -> zlen key + 3 <= 2 ^ 31 - 1 -> 0 <= maxlen < 2 ^ 64 ->
  o_wp (spa_json_str_object_find text key maxlen) (fun s => zlen s < maxlen) True.
Proof.
  intros Hlen Hkey [Hmax _]. unfold spa_json_str_object_find, spa_json_begin_object, spa_json_begin_container.
  pose proof (init_ok text Hlen) as Hok. pose proof (next_later text (mk_stack _ []) Hok) as Hn.
  unfold spa_json_enter_container, st_bind. unfold st_wp in Hn.
  destruct (spa_json_next text _) as [[t| |] st]; try done. destruct Hn as ([_ _ Hst] & _ & _).
  cbn [st_ret]. rewrite andb_false_r. set (res := if t_len t <=? 0 then _ else _).
  destruct (res <=? 0) eqn:Er; cbn [obind]; [by rewrite Er|]. cbn. unfold spa_json_object_find.
  rewrite (key_len _ Hkey). rewrite (proj2 (Z.ltb_ge (zlen key + 3) 0)) by zlia.
  assert (iter_ok text (top (spa_json_save (spa_json_enter_self st)))) as Hs.
  { destruct Hst. constructor; simpl; try done. by apply enter_settled. }
  pose proof (object_find_later text key (zlen key + 3) _ _ Hs (json_fuel_rounds _ _ Hs)) as Hf. unfold st_wp in Hf.
  change (json_fuel (spa_json_enter_self st)) with (json_fuel (spa_json_save (spa_json_enter_self st))).
  destruct (object_find_loop _ _ _ _ _) as [[[x|]| |] st']; try done. cbn [obind].
  destruct Hf as (? & ? & ? & ?). eapply o_wp_mono; [by apply parse_stringn_inside| |done].
  intros s Hf. cbv beta in Hf. pose proof (i32_size_t _ Hmax). lia.
Qed.

Definition unfinished : list byte := str "{ a = [ 1, { b: " ++ [to_byte 34] ++ str "x".

Lemma json_lookup_safe_witness :
  zlen unfinished <= 2 ^ 31 - 1 /\
  o_wp (spa_json_str_object_find unfinished (str "b") 8) (fun s => zlen s < 8) True.
Proof. split; [by vm_compute|]. apply json_lookup_safe; by vm_compute. Defined.
