(* ===== verification/JsonRoundTrip.v ===== *)
(** * Relaxed JSON: printed values

    A value as a tree and its text, with the strings written by
    [spa_json_encode_stringn]; the tokenizer and the decoder read back what is
    printed. *)
From S2P Require Import Prelude Bytes CString Json JsonProofs.
From Stdlib Require Import String.
#[local] Open Scope Z_scope.

(** ** Values and their text *)

#[local] Unset Elimination Schemes.
Inductive jval : Type :=
  | VBare (s : list byte)
  | VString (s : list byte)
  | VArray (vs : list jval)
  | VObject (ms : list (list byte * jval)).
#[local] Set Elimination Schemes.

Section Jval_ind.
Context (P : jval -> Prop).
Context (Hb : forall s, P (VBare s)) (Hs : forall s, P (VString s)).
Context (Ha : forall vs, Forall P vs -> P (VArray vs)).
Context (Ho : forall ms, Forall (fun m => P m.2) ms -> P (VObject ms)).

Fixpoint jval_ind (v : jval) : P v :=
  match v with
  | VBare s => Hb s
  | VString s => Hs s
  | VArray vs =>
      Ha vs ((fix go (l : list jval) : Forall P l :=
                match l with
                | [] => List.Forall_nil _
                | x :: l => List.Forall_cons _ _ _ (jval_ind x) (go l)
                end) vs)
  | VObject ms =>
      Ho ms ((fix go (l : list (list byte * jval)) : Forall (fun m => P m.2) l :=
                match l with
                | [] => List.Forall_nil _
                | x :: l => List.Forall_cons _ _ _ (jval_ind x.2) (go l)
                end) ms)
  end.
End Jval_ind.

Definition comma : byte := to_byte 44.
Definition colon : byte := to_byte 58.

(** The texts with commas between them. *)
Fixpoint commas (ts : list (list byte)) : list byte :=
  match ts with
  | [] => []
  | [t] => t
  | t :: ts => t ++ comma :: commas ts
  end.

Fixpoint print (v : jval) : list byte :=
  match v with
  | VBare s => s
  | VString s => encoded s
  | VArray vs => [to_byte 91] ++ commas (map print vs) ++ [to_byte 93]
  | VObject ms =>
      [to_byte 123] ++ commas (map (fun m => encoded m.1 ++ colon :: print m.2) ms) ++ [to_byte 125]
  end.

Fixpoint nesting (v : jval) : Z :=
  match v with
  | VBare _ | VString _ => 0
  | VArray vs => 1 + foldr Z.max 0 (map nesting vs)
  | VObject ms => 1 + foldr Z.max 0 (map (fun m => nesting m.2) ms)
  end.

(** Every lead byte has its continuation bytes. *)
Definition is_cont (c : byte) : Prop := 0x80 <= code c <= 0xbf.
Inductive utf8_ok : list byte -> Prop :=
  | utf8_nil : utf8_ok []
  | utf8_ascii c s : code c < 0x80 -> utf8_ok s -> utf8_ok (c :: s)
  | utf8_multi c cs s :
      0x80 <= code c -> cont_needed (code c) = List.length cs -> cs <> [] -> Forall is_cont cs ->
      utf8_ok s -> utf8_ok (c :: cs ++ s).

(** A character of a bare token. *)
Definition bare_char (c : byte) : Prop := 32 < code c <= 126 /\ ends_bare c = false /\ is_backslash c = false.

Inductive printable : jval -> Prop :=
  | printable_bare s : s <> [] -> Forall bare_char s -> printable (VBare s)
  | printable_string s : utf8_ok s -> printable (VString s)
  | printable_array vs : Forall printable vs -> printable (VArray vs)
  | printable_object ms :
      Forall (fun m => utf8_ok m.1) ms -> Forall (fun m => printable m.2) ms -> printable (VObject ms).

(** ** Encoded strings *)

(** What is written for a string, as a relation. *)
Inductive encodes : list byte -> list byte -> Prop :=
  | encodes_nil : encodes [] []
  | encodes_ascii c s e :
      code c < 0x80 -> encodes s e -> encodes (c :: s) ((encode_char c []).1 ++ e)
  | encodes_multi c cs s e :
      0xc0 <= code c <= 0xf7 -> cont_needed (code c) = List.length cs -> cs <> [] -> Forall is_cont cs ->
      encodes s e -> encodes (c :: cs ++ s) (c :: cs ++ e).

Lemma code_range c : 0 <= code c < 256.
Proof. unfold code. pose proof (byte.unsigned_range c). lia. Qed.

Lemma encode_char_ascii c src :
  code c < 0x80 -> encode_char c src = ((encode_char c []).1, src).
Proof. intros H. unfold encode_char. repeat case_if; done || lia. Qed.

Lemma cont_valid_all cs s : Forall is_cont cs -> cont_valid (List.length cs) (cs ++ s) = List.length cs.
Proof.
  induction 1 as [|c cs Hc _ IH]; [done|]. simpl. unfold is_cont in Hc.
  rewrite (proj2 (Z.ltb_ge _ _)), (proj2 (Z.ltb_ge _ _)) by lia. simpl. by rewrite IH.
Qed.

Lemma encode_char_multi c cs s :
  0x80 <= code c -> cont_needed (code c) = List.length cs -> cs <> [] -> Forall is_cont cs ->
  encode_char c (cs ++ s) = (c :: cs, s).
Proof.
  intros Hc Hn Hne Hcs. unfold encode_char.
  do 5 (rewrite (proj2 (Z.eqb_neq _ _)) by lia).
  unfold is_backslash, is_quote. do 2 (rewrite (proj2 (Z.eqb_neq _ _)) by lia).
  do 2 (rewrite (proj2 (Z.ltb_ge _ _)) by lia). cbn [orb]. rewrite Hn, cont_valid_all, Nat.eqb_refl by done.
  rewrite (proj2 (Z.ltb_lt _ _)) by (destruct cs; [done|simpl; lia]). cbn [andb].
  by rewrite take_app_length, drop_app_length.
Qed.

Lemma cont_needed_range z n : cont_needed z = S n -> 0xc0 <= z <= 0xf7.
Proof. unfold cont_needed. repeat case_if; done || lia. Qed.

Lemma encode_loop_encodes s fuel :
  utf8_ok s -> (List.length s <= fuel)%nat -> encodes s (encode_loop fuel s).
Proof.
  intros H. revert fuel. induction H as [|c s Hc _ IH|c cs s Hc Hn Hne Hcs _ IH]; intros fuel Hf.
  - destruct fuel; constructor.
  - destruct fuel as [|fuel]; simpl in *; [lia|]. rewrite encode_char_ascii by done.
    constructor; [done|]. apply IH. lia.
  - destruct fuel as [|fuel]; simpl in *; [lia|]. rewrite encode_char_multi by done. simpl.
    constructor; try done.
    + destruct cs as [|d cs]; [done|]. by eapply cont_needed_range.
    + apply IH. rewrite length_app in Hf. lia.
Qed.

Lemma encoded_encodes s : utf8_ok s -> exists e, encodes s e /\ encoded s = to_byte 34 :: e ++ [to_byte 34].
Proof. intros H. eexists. split; [by apply encode_loop_encodes|done]. Qed.

Lemma code_to_byte z : 0 <= z < 256 -> code (to_byte z) = z.
Proof. intros H. unfold code, to_byte. rewrite byte.unsigned_of_Z. by apply Z.mod_small. Qed.

Lemma to_byte_code c : to_byte (code c) = c.
Proof. apply byte.of_Z_unsigned. Qed.

Lemma code_eq c z : code c = z -> c = to_byte z.
Proof. intros <-. by rewrite to_byte_code. Qed.

(** ** Decoding *)

Section Decode.
Context (text : list byte) (stop : Z).

(** A round of the decoder that reads the bytes [bs] and writes [out]. *)
Definition decodes (bs out : list byte) : Prop :=
  forall fuel p rest result,
    holds text p (bs ++ rest) -> p + zlen bs < stop ->
    string_loop (Datatypes.length out + fuel) text p stop result
    = string_loop fuel text (p + zlen bs) stop (result ++ out).

Lemma decodes_app b1 o1 b2 o2 : decodes b1 o1 -> decodes b2 o2 -> decodes (b1 ++ b2) (o1 ++ o2).
Proof.
  intros H1 H2 fuel p rest result H Hs. rewrite <- app_assoc in H. rewrite zlen_app in *.
  rewrite length_app, <- Nat.add_assoc. rewrite (H1 _ _ _ _ H) by zlia.
  rewrite (H2 _ _ rest) by (zlia || by apply holds_app_r in H). rewrite app_assoc. f_equal. lia.
Qed.

Lemma decodes_plain c : is_backslash c = false -> is_quote c = false -> decodes [c] [c].
Proof.
  intros Hb Hq fuel p rest result H Hs. change (zlen [c]) with 1 in *. simpl app in H. cbn.
  rewrite (proj2 (Z.leb_gt _ _)) by lia. rewrite (holds_byte_at _ _ _ _ H). cbn [obind]. by rewrite Hb, Hq.
Qed.

(** A backslash and a character that is not the one of a code point. *)
Lemma decodes_escape c d :
  Byte.eqb c "u" = false ->
  d = (if Byte.eqb c "n" then to_byte 10 else if Byte.eqb c "r" then to_byte 13
       else if Byte.eqb c "b" then to_byte 8 else if Byte.eqb c "t" then to_byte 9
       else if Byte.eqb c "f" then to_byte 12 else c) ->
  decodes (escaped c) [d].
Proof.
  intros Hu -> fuel p rest result H Hs. change (zlen (escaped c)) with 2 in *. simpl app in H. cbn.
  rewrite (proj2 (Z.leb_gt _ _)) by lia. rewrite (holds_byte_at _ _ _ _ H). cbn [obind].
  change (is_backslash (to_byte 92)) with true. cbv iota. apply holds_cons in H as [_ H].
  unfold escape. rewrite (holds_byte_at _ _ _ _ H). cbn [obind]. rewrite Hu.
  replace (p + 2) with (p + 1 + 1) by lia. by repeat case_if.
Qed.

(** The escape of a control character. *)
Definition control (z : Z) : list byte :=
  escaped "u" ++ str "00" ++ [hex (Z.land (Z.shiftr z 4) 0xf); hex (Z.land z 0xf)].

Definition control_value (z : Z) : Z :=
  Z.lor (u32 (Z.shiftl (Z.land (Z.shiftr z 4) 0xf) 4)) (Z.land z 0xf).

Lemma control_digits :
  forallb (fun z => bool_decide (hex_digit (hex (Z.land (Z.shiftr z 4) 0xf)) = Some (Z.land (Z.shiftr z 4) 0xf))
                    && bool_decide (hex_digit (hex (Z.land z 0xf)) = Some (Z.land z 0xf))
                    && (control_value z =? z) && bool_decide (utf8 z = [to_byte z])) (seqZ 0 32) = true.
Proof. by vm_compute. Qed.

(** Four digits below a surrogate. *)
Lemma unicode_escape_small p d1 d2 d3 d4 v1 v2 v3 v4 rest cp :
  holds text p (Byte.x75 :: d1 :: d2 :: d3 :: d4 :: rest) -> p + 5 <= stop ->
  hex_digit d1 = Some v1 -> hex_digit d2 = Some v2 -> hex_digit d3 = Some v3 -> hex_digit d4 = Some v4 ->
  cp = Z.lor (u32 (Z.shiftl (Z.lor (u32 (Z.shiftl (Z.lor (u32 (Z.shiftl (Z.lor 0 v1) 4)) v2) 4)) v3) 4)) v4 ->
  cp < 0xd800 -> unicode_escape text p stop = Ret (utf8 cp, p + 4).
Proof.
  intros H Hs E1 E2 E3 E4 -> Hcp. unfold unicode_escape. rewrite (proj2 (Z.ltb_ge _ _)) by lia.
  apply holds_cons in H as [_ H]. cbn [spa_json_parse_hex].
  apply holds_cons in H as [-> H]. rewrite E1. apply holds_cons in H as [-> H]. rewrite E2.
  apply holds_cons in H as [-> H]. rewrite E3. apply holds_cons in H as [-> H]. rewrite E4.
  cbn [obind]. change (Z.shiftl 0 4) with 0. change (u32 0) with 0.
  rewrite (proj2 (Z.leb_gt _ _)) by lia. cbn [andb]. rewrite (proj2 (Z.leb_gt _ _)) by lia. done.
Qed.

Lemma decodes_control z : 0 <= z < 32 -> decodes (control z) [to_byte z].
Proof.
  intros Hz fuel p rest result H Hs.
  pose proof (proj1 (forallb_forall _ _) control_digits z
                ltac:(apply list_elem_of_In, elem_of_seqZ; lia)) as Hd.
  apply andb_prop in Hd as [Hd H4]. apply andb_prop in Hd as [Hd H3]. apply andb_prop in Hd as [H1 H2].
  apply bool_decide_eq_true in H1, H2, H4. apply Z.eqb_eq in H3. unfold control_value in H3.
  unfold control in *. change (zlen _) with 6 in *.
  set (h1 := hex (Z.land (Z.shiftr z 4) 0xf)) in *. set (h2 := hex (Z.land z 0xf)) in *. clearbody h1 h2.
  change (holds text p (to_byte 92 :: Byte.x75 :: Byte.x30 :: Byte.x30 :: h1 :: h2 :: rest)) in H. cbn.
  rewrite (proj2 (Z.leb_gt _ _)) by lia. rewrite (holds_byte_at _ _ _ _ H). cbn [obind].
  change (is_backslash (to_byte 92)) with true. cbv iota. apply holds_cons in H as [_ H].
  unfold escape. rewrite (holds_byte_at _ _ _ _ H). cbn [obind].
  rewrite (unicode_escape_small (p + 1) _ _ h1 h2 0 0 _ _ rest z H) by (done || lia). cbn. rewrite H4.
  f_equal. lia.
Qed.

(** What is written for a character below 0x80 is read as that character. *)
Lemma decodes_ascii c : code c < 0x80 -> decodes (encode_char c []).1 [c].
Proof.
  intros Hc. pose proof (code_range c). unfold encode_char.
  case_if; [apply decodes_escape; [done|by apply code_eq]|].
  case_if; [apply decodes_escape; [done|by apply code_eq]|].
  case_if; [apply decodes_escape; [done|by apply code_eq]|].
  case_if; [apply decodes_escape; [done|by apply code_eq]|].
  case_if; [apply decodes_escape; [done|by apply code_eq]|].
  destruct (is_backslash c) eqn:Hb; cbn [orb].
  { apply Z.eqb_eq, code_eq in Hb as ->. by apply decodes_escape. }
  destruct (is_quote c) eqn:Hq; cbn [orb].
  { apply Z.eqb_eq, code_eq in Hq as ->. by apply decodes_escape. }
  case_if.
  { pose proof (decodes_control (code c) ltac:(lia)) as Hd. by rewrite to_byte_code in Hd. }
  rewrite (proj2 (Z.ltb_lt _ _)) by lia. by apply decodes_plain.
Qed.

Lemma decodes_conts cs : Forall (fun c => 0x80 <= code c) cs -> decodes cs cs.
Proof.
  induction 1 as [|c cs Hc _ IH].
  - intros fuel p rest result _ _. by rewrite Z.add_0_r, app_nil_r.
  - apply (decodes_app [c] [c]); [|done]. apply decodes_plain; apply Z.eqb_neq; lia.
Qed.

Lemma decodes_encoded s e : encodes s e -> decodes e s.
Proof.
  induction 1 as [|c s e Hc _ IH|c cs s e Hc Hn Hne Hcs _ IH].
  - by apply decodes_conts.
  - apply (decodes_app _ [c]); [by apply decodes_ascii|done].
  - rewrite !app_comm_cons. apply decodes_app; [|done]. apply decodes_conts. constructor; [lia|].
    eapply list.Forall_impl; [exact Hcs|]. unfold is_cont. intros ? ?. simpl in *. lia.
Qed.
End Decode.

(** The decoder reads back what was encoded. *)
Lemma parse_encoded text v s e maxlen :
  encodes s e -> holds text v (to_byte 34 :: e ++ [to_byte 34]) -> zlen e + 2 < maxlen ->
  spa_json_parse_stringn text (mk_token (zlen e + 2) v) maxlen = Ret s.
Proof.
  intros He H Hm. unfold spa_json_parse_stringn. cbn [t_len t_value].
  rewrite (proj2 (Z.leb_gt _ _)) by lia.
  assert (token_bytes text (mk_token (zlen e + 2) v) = to_byte 34 :: e ++ [to_byte 34]) as ->.
  { pose proof H as (pre & post & -> & <-). unfold token_bytes. cbn [t_len t_value].
    unfold zlen at 2. rewrite Nat2Z.id, drop_app_length. apply take_app_length'. simpl.
    rewrite length_app. unfold zlen. simpl. lia. }
  unfold spa_json_is_string. rewrite (proj2 (Z.ltb_lt _ _)) by zlia. change (is_quote (to_byte 34)) with true.
  cbn [andb negb]. apply holds_cons in H as [_ H].
  assert (Datatypes.length s <= Datatypes.length e)%nat as Hl.
  { clear -He. induction He as [|c s e Hc _ IH|c cs s e Hc Hn Hne Hcs _ IH]; simpl; rewrite ?length_app; try lia.
    assert (1 <= Datatypes.length (encode_char c []).1)%nat; [|lia].
    unfold encode_char. repeat case_if; simpl; lia. }
  replace (S (Z.to_nat (zlen e + 2)))
    with (Datatypes.length s + S (Z.to_nat (zlen e + 2) - Datatypes.length s))%nat by (unfold zlen; lia).
  rewrite (decodes_encoded text (v + (zlen e + 2)) s e He _ (v + 1) [to_byte 34] [] H) by lia.
  cbn. rewrite (proj2 (Z.leb_gt _ _)) by lia. apply holds_app_r in H. by rewrite (holds_byte_at _ _ _ _ H).
Qed.

(** ** Tokenizing *)

#[local] Arguments is_backslash : simpl never.
#[local] Arguments is_quote : simpl never.
#[local] Arguments is_one_of : simpl never.
#[local] Arguments is_blank : simpl never.
#[local] Arguments ends_bare : simpl never.
#[local] Arguments code : simpl never.
#[local] Arguments Z.add : simpl never.
#[local] Arguments Z.sub : simpl never.
#[local] Arguments Byte.eqb : simpl never.

(** The tokenizer at [p], in a token that began at [v]. *)
Definition scan_at (f : json_flags) (d v : Z) (stk : list bool) (k : json_kind) (u p : Z) : scan :=
  mk_scan p k f d v u stk.

Ltac open_char :=
  unfold scan_char, scan_at; cbn [s_cur s_kind s_flags s_depth s_value s_utf8 s_stack to_kind set_utf8 advance mark].

Section Tokenize.
Context (text : list byte) (stop : Z) (st : json_stack).

(** The loop from [s] returns what it returns from [s']. *)
Definition goes (s s' : scan) : Prop :=
  scan_loop text (Z.to_nat (stop - s_cur s)) s st = scan_loop text (Z.to_nat (stop - s_cur s')) s' st.

Lemma goes_refl s : goes s s.
Proof. done. Qed.
Lemma goes_trans s s' s'' : goes s s' -> goes s' s'' -> goes s s''.
Proof. unfold goes. congruence. Qed.

(** The loop at the character [c]. *)
Lemma scan_loop_at s c rest :
  holds text (s_cur s) (c :: rest) -> s_cur s < stop ->
  scan_loop text (Z.to_nat (stop - s_cur s)) s st =
  match scan_char c (j_parent (top st)) s with
  | Continue s => scan_loop text (Z.to_nat (stop - s_cur s - 1)) (advance s) st
  | Return len s => Ret (len, s_value s, scanned s st)
  | Close s => Ret (0, s_value s, tell_parent (scanned s st))
  | Throw err => let '(r, st) := json_error err s st in Ret (r, s_value s, st)
  end \/ exists s', scan_char c (j_parent (top st)) s = Continue s' /\ s_cur s' <> s_cur s.
Proof.
  intros H Hs. apply holds_cons in H as [Hc _].
  replace (Z.to_nat (stop - s_cur s)) with (S (Z.to_nat (stop - s_cur s - 1))) by lia. cbn [scan_loop].
  rewrite Hc. destruct (scan_char c (j_parent (top st)) s) as [s'| | |] eqn:E; auto.
  destruct (Z.eq_dec (s_cur s') (s_cur s)) as [Heq|]; [left; by rewrite Heq|right; eauto].
Qed.

Lemma goes_step s c rest s' :
  holds text (s_cur s) (c :: rest) -> s_cur s < stop ->
  scan_char c (j_parent (top st)) s = Continue s' -> s_cur s' = s_cur s -> goes s (advance s').
Proof.
  intros H Hs E Hcur. destruct (scan_loop_at s c rest H Hs) as [Hl|(s2 & E2 & Hn)]; [|congruence].
  unfold goes. rewrite Hl, E. f_equal. simpl. lia.
Qed.

Lemma loop_return s c rest len s' :
  holds text (s_cur s) (c :: rest) -> s_cur s < stop ->
  scan_char c (j_parent (top st)) s = Return len s' ->
  scan_loop text (Z.to_nat (stop - s_cur s)) s st = Ret (len, s_value s', scanned s' st).
Proof.
  intros H Hs E. destruct (scan_loop_at s c rest H Hs) as [Hl|(s2 & E2 & Hn)]; [|congruence].
  by rewrite Hl, E.
Qed.

(** The tokenizer in a string that began at [v]. *)
Section Strings.
Context (f : json_flags) (d v : Z) (stk : list bool).
#[local] Notation inside := (scan_at f d v stk).

(** The bytes are passed over. *)
Definition passes (bs : list byte) : Prop :=
  forall p rest, holds text p (bs ++ rest) -> p + zlen bs <= stop ->
    goes (inside JString 0 p) (inside JString 0 (p + zlen bs)).

Lemma passes_app b1 b2 : passes b1 -> passes b2 -> passes (b1 ++ b2).
Proof.
  intros H1 H2 p rest H Hs. rewrite <- app_assoc in H. rewrite zlen_app in *.
  eapply goes_trans; [apply (H1 _ _ H); zlia|]. apply holds_app_r in H. rewrite Z.add_assoc.
  apply (H2 _ _ H). lia.
Qed.

Lemma passes_plain c :
  is_backslash c = false -> is_quote c = false -> 32 <= code c <= 127 -> passes [c].
Proof.
  intros Hb Hq Hc p rest H Hs. change (zlen [c]) with 1 in *.
  apply (goes_step (inside JString 0 p) c rest (inside JString 0 p) H); [simpl; lia| |done].
  open_char. rewrite Hb, Hq. rewrite (proj2 (Z.leb_gt 192 _)) by lia. cbn [andb].
  by rewrite (proj2 (Z.leb_le 32 _)), (proj2 (Z.leb_le _ 127)) by lia.
Qed.

Lemma passes_escape c :
  is_quote c || is_backslash c || is_one_of c "/bfnrtu" = true -> passes (escaped c).
Proof.
  intros Hc p rest H Hs. change (zlen (escaped c)) with 2 in *. cbn in H.
  eapply goes_trans.
  - apply (goes_step (inside JString 0 p) _ _ (inside JEsc 0 p) H); [simpl; lia|done|done].
  - apply holds_cons in H as [_ H].
    replace (p + 2) with (p + 1 + 1) by lia.
    apply (goes_step (inside JEsc 0 (p + 1)) _ _ (inside JString 0 (p + 1)) H); [simpl; lia| |done].
    open_char. by rewrite Hc.
Qed.

Lemma hex_plain c v' : hex_digit c = Some v' -> passes [c].
Proof.
  intros Hh. pose proof (hex_not_special _ _ Hh) as [Hq Hb]. apply passes_plain; [done|done|].
  revert Hh. unfold hex_digit. repeat case_if; done || lia.
Qed.

Lemma passes_control z : 0 <= z < 32 -> passes (control z).
Proof.
  intros Hz. pose proof (proj1 (forallb_forall _ _) control_digits z
                ltac:(apply list_elem_of_In, elem_of_seqZ; lia)) as Hd.
  apply andb_prop in Hd as [Hd _]. apply andb_prop in Hd as [Hd _]. apply andb_prop in Hd as [H1 H2].
  apply bool_decide_eq_true in H1, H2. unfold control. apply passes_app; [by apply passes_escape|].
  apply (passes_app [_]); [by apply (hex_plain _ 0)|]. apply (passes_app [_]); [by apply (hex_plain _ 0)|].
  apply (passes_app [_]); by eapply hex_plain.
Qed.

Lemma passes_ascii c : code c < 0x80 -> passes (encode_char c []).1.
Proof.
  intros Hc. pose proof (code_range c). unfold encode_char.
  do 5 (case_if; [by apply passes_escape|]).
  destruct (is_backslash c) eqn:Hb; cbn [orb]; [apply passes_escape; by rewrite Hb, orb_true_r|].
  destruct (is_quote c) eqn:Hq; cbn [orb]; [apply passes_escape; by rewrite Hq|].
  case_if; [apply passes_control; lia|]. rewrite (proj2 (Z.ltb_lt _ _)) by lia. apply passes_plain; done || lia.
Qed.

(** The continuation bytes of a character. *)
Lemma passes_conts cs p rest :
  cs <> [] -> Forall is_cont cs -> holds text p (cs ++ rest) -> p + zlen cs <= stop ->
  goes (inside JUtf8 (zlen cs) p) (inside JString 0 (p + zlen cs)).
Proof.
  intros Hne Hcs. revert p. induction Hcs as [|c cs Hc Hcs IH]; [done|]. intros p H Hs. unfold is_cont in Hc.
  assert (scan_char c (j_parent (top st)) (inside JUtf8 (zlen (c :: cs)) p)
          = Continue (if zlen cs =? 0 then inside JString (zlen cs) p else inside JUtf8 (zlen cs) p)) as E.
  { open_char. rewrite (proj2 (Z.leb_le 128 _)), (proj2 (Z.leb_le _ 191)) by lia. cbn [andb].
    replace (zlen (c :: cs) - 1) with (zlen cs) by zlia. done. }
  simpl app in H. apply goes_step with (1 := H) in E; [|simpl; zlia|by case_if].
  eapply goes_trans; [exact E|]. destruct cs as [|c' cs].
  - apply goes_refl.
  - rewrite (proj2 (Z.eqb_neq _ _)) by zlia. apply holds_cons in H as [_ H].
    replace (p + zlen (c :: c' :: cs)) with (p + 1 + zlen (c' :: cs)) by zlia. apply IH; [done|done|zlia].
Qed.

Lemma passes_multi c cs :
  0xc0 <= code c <= 0xf7 -> cont_needed (code c) = List.length cs -> cs <> [] -> Forall is_cont cs ->
  passes (c :: cs).
Proof.
  intros Hc Hn Hne Hcs p rest H Hs. simpl app in H.
  assert (scan_char c (j_parent (top st)) (inside JString 0 p) = Continue (inside JUtf8 (zlen cs) p)) as E.
  { open_char. unfold is_backslash, is_quote. do 2 (rewrite (proj2 (Z.eqb_neq _ _)) by lia).
    rewrite (proj2 (Z.leb_le 192 _)), (proj2 (Z.leb_le _ 247)) by lia. cbn [andb].
    do 2 f_equal. unfold zlen. rewrite <- Hn. unfold cont_needed.
    repeat case_if; bool_to_prop; try done; lia. }
  apply goes_step with (1 := H) in E; [|simpl; zlia|done]. eapply goes_trans; [exact E|].
  apply holds_cons in H as [_ H]. replace (p + zlen (c :: cs)) with (p + 1 + zlen cs) by zlia.
  by apply (passes_conts cs (p + 1) rest); [| | |zlia].
Qed.

Lemma passes_encoded s e : encodes s e -> passes e.
Proof.
  induction 1 as [|c s e Hc _ IH|c cs s e Hc Hn Hne Hcs _ IH].
  - intros p rest _ _. rewrite Z.add_0_r. apply goes_refl.
  - apply passes_app; [by apply passes_ascii|done].
  - apply (passes_app (c :: cs)); [by apply passes_multi|done].
Qed.
End Strings.

(** ** Skipping values inside a container *)

Definition between_tokens (f : json_flags) (d v : Z) (stk : list bool) (p : Z) : scan :=
  mk_scan p JStruct f d v 0 stk.

(** The bytes go on with a character that ends a bare token. *)
Definition delimited (rest : list byte) : Prop :=
  match rest with c :: _ => ends_bare c = true | [] => False end.

Lemma skip_blank f d v stk p rest :
  holds text p (comma :: rest) -> p < stop ->
  goes (between_tokens f d v stk p) (between_tokens f d v stk (p + 1)).
Proof. intros H Hs. by apply (goes_step (between_tokens f d v stk p) _ _ (between_tokens f d v stk p) H). Qed.

Lemma skip_colon pv d v stk p rest :
  holds text p (colon :: rest) -> p < stop ->
  goes (between_tokens (mk_flags false pv true true) d v stk p)
       (between_tokens (mk_flags false pv true true) d v stk (p + 1)).
Proof.
  intros H Hs. by apply (goes_step (between_tokens (mk_flags false pv true true) d v stk p) _ _
                           (between_tokens (mk_flags false pv true true) d v stk p) H).
Qed.

Lemma open_string f d v stk p rest :
  holds text p (to_byte 34 :: rest) -> p < stop ->
  goes (between_tokens f d v stk p) (scan_at (token_flags f) d p stk JString 0 (p + 1)).
Proof.
  intros H Hs. by apply (goes_step (between_tokens f d v stk p) _ _ (scan_at (token_flags f) d p stk JString 0 p) H).
Qed.

Lemma skip_string s f d v stk p rest :
  utf8_ok s -> 1 <= d -> holds text p (encoded s ++ rest) -> p + zlen (encoded s) <= stop ->
  goes (between_tokens f d v stk p) (between_tokens (token_flags f) d p stk (p + zlen (encoded s))).
Proof.
  intros Hu Hd H Hs. destruct (encoded_encodes s Hu) as (e & He & Hen). rewrite Hen in *. simpl app in H.
  eapply goes_trans; [apply (open_string _ _ _ _ _ _ H); zlia|]. apply holds_cons in H as [_ H].
  rewrite <- app_assoc in H.
  eapply goes_trans; [apply (passes_encoded (token_flags f) d p stk s e He _ _ H); zlia|].
  apply holds_app_r in H. simpl app in H.
  replace (p + zlen (to_byte 34 :: e ++ [to_byte 34])) with (p + 1 + zlen e + 1) by zlia.
  apply (goes_step (scan_at _ _ _ _ JString 0 (p + 1 + zlen e)) _ _
           (between_tokens (token_flags f) d p stk (p + 1 + zlen e)) H); [simpl; zlia| |done].
  open_char. change (is_backslash (to_byte 34)) with false. change (is_quote (to_byte 34)) with true.
  by rewrite (proj2 (Z.ltb_lt 0 d)) by lia.
Qed.

(** The first character of a bare token. *)
Lemma open_bare c f d v stk p rest :
  bare_char c -> holds text p (c :: rest) -> p < stop ->
  goes (between_tokens f d v stk p) (scan_at (token_flags f) d p stk JBare 0 (p + 1)).
Proof.
  intros (Hc & He & Hb) H Hs.
  apply (goes_step (between_tokens f d v stk p) _ _ (scan_at (token_flags f) d p stk JBare 0 p) H); [simpl; lia| |done].
  unfold ends_bare in He. apply orb_false_elim in He as [He1 He3]. apply orb_false_elim in He1 as [He1 He2].
  unfold is_one_of in He3. cbn in He3. repeat (apply orb_false_elim in He3 as [?E He3]).
  unfold scan_char, scan_struct. cbn [between_tokens s_kind]. rewrite He1, He2.
  repeat match goal with E : Byte.eqb c _ = false |- _ => rewrite E; clear E end. cbn [orb].
  rewrite Hb. rewrite (proj2 (Z.leb_le 32 _)), (proj2 (Z.leb_le _ 126)) by lia. done.
Qed.

Lemma pass_bare s f d v stk p rest :
  Forall bare_char s -> holds text p (s ++ rest) -> p + zlen s <= stop ->
  goes (scan_at f d v stk JBare 0 p) (scan_at f d v stk JBare 0 (p + zlen s)).
Proof.
  intros Hs. revert p. induction Hs as [|c s (Hc & He & Hb) _ IH]; intros p H Hp.
  - rewrite Z.add_0_r. apply goes_refl.
  - simpl app in H. replace (p + zlen (c :: s)) with (p + 1 + zlen s) by zlia.
    eapply goes_trans; [apply (goes_step (scan_at f d v stk JBare 0 p) _ _ (scan_at f d v stk JBare 0 p) H)|].
    + simpl; zlia.
    + open_char. rewrite He, Hb. by rewrite (proj2 (Z.leb_le 32 _)), (proj2 (Z.leb_le _ 126)) by lia.
    + done.
    + apply holds_cons in H as [_ H]. apply IH; [done|zlia].
Qed.

Lemma skip_bare s f d v stk p rest :
  s <> [] -> Forall bare_char s -> 1 <= d -> holds text p (s ++ rest) -> delimited rest -> p + zlen s < stop ->
  goes (between_tokens f d v stk p) (between_tokens (token_flags f) d p stk (p + zlen s)).
Proof.
  intros Hne Hs Hd H Hr Hp. destruct s as [|c s]; [done|]. apply list.Forall_cons in Hs as [Hc Hs].
  simpl app in H. eapply goes_trans; [apply (open_bare c _ _ _ _ _ _ Hc H); zlia|].
  apply holds_cons in H as [_ H]. eapply goes_trans; [apply (pass_bare s _ _ _ _ _ _ Hs H); zlia|].
  apply holds_app_r in H. replace (p + zlen (c :: s)) with (p + 1 + zlen s) in * by zlia.
  destruct rest as [|r rest]; [done|]. simpl in Hr. apply holds_cons in H as [Hl _]. unfold goes.
  cbn [s_cur scan_at between_tokens].
  replace (Z.to_nat (stop - (p + 1 + zlen s))) with (S (Z.to_nat (stop - (p + 1 + zlen s) - 1))) by lia.
  cbn [scan_loop s_cur scan_at between_tokens]. rewrite Hl. open_char. rewrite Hr.
  by rewrite (proj2 (Z.ltb_lt 0 d)) by lia.
Qed.

(** The value is passed over in a container of depth [d]; the flags of the
    outer containers stay on the stack. *)
Definition STACK : nat := Z.to_nat STACK_BITS.
Definition skips (v : jval) : Prop :=
  forall a pv d v0 stk p rest,
    1 <= d -> d + nesting v <= STACK_BITS + 1 -> List.length stk = STACK ->
    holds text p (print v ++ rest) -> delimited rest -> p + zlen (print v) < stop ->
    exists v1 stk1,
      goes (between_tokens (mk_flags a pv (negb a) true) d v0 stk p)
           (between_tokens (mk_flags a pv false true) d v1 stk1 (p + zlen (print v)))
      /\ take (Z.to_nat (d - 1)) stk1 = take (Z.to_nat (d - 1)) stk /\ List.length stk1 = STACK.

(** The same for a text between the brackets of a container, which begins and
    ends in front of a member. *)
Definition skips_inner (a : bool) (n : Z) (ts : list byte) : Prop :=
  forall pv d v0 stk p rest,
    1 <= d -> d + n <= STACK_BITS + 1 -> List.length stk = STACK ->
    holds text p (ts ++ rest) -> delimited rest -> p + zlen ts < stop ->
    exists v1 stk1,
      goes (between_tokens (mk_flags a pv false true) d v0 stk p)
           (between_tokens (mk_flags a pv false true) d v1 stk1 (p + zlen ts))
      /\ take (Z.to_nat (d - 1)) stk1 = take (Z.to_nat (d - 1)) stk /\ List.length stk1 = STACK.

Lemma skips_inner_weaken a n n' ts : n <= n' -> skips_inner a n ts -> skips_inner a n' ts.
Proof. intros Hn H pv d v0 stk p rest ? ?. apply H; lia. Qed.

(** Texts with commas between them. *)
Lemma skips_commas a n ts : Forall (skips_inner a n) ts -> skips_inner a n (commas ts).
Proof.
  induction 1 as [|t ts Ht Hts IH].
  { intros pv d v0 stk p rest ? ? ? ? ? ?. exists v0, stk. rewrite Z.add_0_r. split; [apply goes_refl|done]. }
  destruct ts as [|t' ts]; [done|]. change (commas (t :: t' :: ts)) with (t ++ comma :: commas (t' :: ts)).
  intros pv d v0 stk p rest Hd Hn Hl H Hr Hp. rewrite <- app_assoc in H. rewrite zlen_app in *. simpl app in H.
  rewrite zlen_cons in *.
  destruct (Ht pv d v0 stk p _ Hd Hn Hl H) as (v1 & stk1 & G1 & T1 & L1); [done|pose proof (zlen_nonneg (commas (t' :: ts))); lia|].
  apply holds_app_r in H. pose proof (skip_blank (mk_flags a pv false true) d v1 stk1 _ _ H) as G2.
  apply holds_cons in H as [_ H].
  destruct (IH pv d v1 stk1 _ rest Hd Hn L1 H Hr) as (v2 & stk2 & G3 & T3 & L3); [lia|].
  exists v2, stk2. split; [|split; [congruence|done]].
  replace (p + (zlen t + (1 + zlen (commas (t' :: ts))))) with (p + zlen t + 1 + zlen (commas (t' :: ts))) by lia.
  eapply goes_trans; [exact G1|]. eapply goes_trans; [|exact G3]. apply G2.
  pose proof (zlen_nonneg (commas (t' :: ts))). lia.
Qed.

(** The two kinds of brackets. *)
Definition brackets (o c : byte) : Prop :=
  (o, c) = (to_byte 91, to_byte 93) \/ (o, c) = (to_byte 123, to_byte 125).

Ltac open_scan :=
  unfold between_tokens;
  cbn [s_cur s_kind s_flags s_depth s_value s_utf8 s_stack ARRAY_FLAG SUB_FLAG KEY_FLAG PREV_ARRAY_FLAG].

Lemma open_inside o c a pv d v0 stk p parent :
  brackets o c -> 1 <= d <= STACK_BITS ->
  scan_char o parent (between_tokens (mk_flags a pv (negb a) true) d v0 stk p)
  = Continue (between_tokens (mk_flags (Byte.eqb o "[") pv false true) (d + 1) p
                             (<[Z.to_nat (d - 1) := a]> stk) p).
Proof.
  intros Hoc Hd. set (s := between_tokens (mk_flags a pv (negb a) true) d v0 stk p).
  assert (scan_char o parent s = open_bracket o s) as -> by (by destruct Hoc as [[= -> ->]|[= -> ->]]).
  unfold open_bracket, s. open_scan. rewrite (proj2 (Z.eqb_neq d 0)) by lia.
  rewrite (proj2 (Z.ltb_lt (d - 1) _)), (proj2 (Z.ltb_lt 1 _)) by lia. by destruct a.
Qed.

Lemma close_inside o c a pv d v0 stk p parent :
  brackets o c -> 1 <= d <= STACK_BITS -> stk !! Z.to_nat (d - 1) = Some a ->
  scan_char c parent (between_tokens (mk_flags (Byte.eqb o "[") pv false true) (d + 1) v0 stk p)
  = Continue (between_tokens (mk_flags a pv false true) d v0 stk p).
Proof.
  intros Hoc Hd Ha. set (s := between_tokens (mk_flags (Byte.eqb o "[") pv false true) (d + 1) v0 stk p).
  assert (scan_char c parent s = close_bracket c parent s) as -> by (by destruct Hoc as [[= -> ->]|[= -> ->]]).
  apply nth_lookup_Some with (d := false) in Ha. unfold close_bracket, s. open_scan.
  replace (d + 1 - 1) with d by lia. rewrite (proj2 (Z.eqb_neq (d + 1) 0)), (proj2 (Z.eqb_neq d 0)) by lia.
  rewrite (proj2 (Z.ltb_lt (d - 1) _)) by lia. rewrite Ha. by destruct Hoc as [[= -> ->]|[= -> ->]].
Qed.

(** A container of which the inside is passed over. *)
Lemma skip_container o c n ts a pv d v0 stk p rest :
  brackets o c -> skips_inner (Byte.eqb o "[") n ts -> 0 <= n ->
  1 <= d -> d + (1 + n) <= STACK_BITS + 1 -> List.length stk = STACK ->
  holds text p ([o] ++ ts ++ [c] ++ rest) -> p + zlen ts + 2 < stop ->
  exists v1 stk1,
    goes (between_tokens (mk_flags a pv (negb a) true) d v0 stk p)
         (between_tokens (mk_flags a pv false true) d v1 stk1 (p + zlen ts + 2))
    /\ take (Z.to_nat (d - 1)) stk1 = take (Z.to_nat (d - 1)) stk /\ List.length stk1 = STACK.
Proof.
  intros Hoc Hin Hn0 Hd Hn Hl H Hp. pose proof (zlen_nonneg ts) as Hts. simpl app in H.
  pose proof (open_inside o c a pv d v0 stk p (j_parent (top st)) Hoc ltac:(lia)) as E1.
  set (stk' := <[Z.to_nat (d - 1) := a]> stk) in *.
  apply goes_step with (1 := H) in E1 as G1; [|simpl; lia|done]. apply holds_cons in H as [_ H].
  destruct (Hin pv (d + 1) p stk' (p + 1) (c :: rest)) as (v1 & stk1 & G2 & T2 & L2);
    [lia|lia|by unfold stk'; rewrite length_insert|done|by destruct Hoc as [[= -> ->]|[= -> ->]]|lia|].
  apply holds_app_r in H. exists v1, stk1.
  assert (stk1 !! Z.to_nat (d - 1) = Some a) as Ha.
  { rewrite <- (lookup_take_lt _ (Z.to_nat (d + 1 - 1))) by lia. rewrite T2, lookup_take_lt by lia.
    unfold stk'. apply list_lookup_insert_eq. unfold STACK, STACK_BITS in *. lia. }
  pose proof (close_inside o c a pv d v1 stk1 (p + 1 + zlen ts) (j_parent (top st)) Hoc ltac:(lia) Ha) as E3.
  apply goes_step with (1 := H) in E3 as G3; [|simpl; lia|done].
  split; [|split; [|done]].
  - replace (p + zlen ts + 2) with (p + 1 + zlen ts + 1) by lia.
    eapply goes_trans; [exact G1|]. eapply goes_trans; [exact G2|]. exact G3.
  - apply (f_equal (take (Z.to_nat (d - 1)))) in T2. rewrite !take_take in T2.
    replace (Z.to_nat (d - 1) `min` Z.to_nat (d + 1 - 1))%nat with (Z.to_nat (d - 1)) in T2 by lia.
    rewrite T2. unfold stk'. apply take_insert_ge. lia.
Qed.

Lemma foldr_max_le {A} (g : A -> Z) l x : In x l -> g x <= foldr Z.max 0 (map g l).
Proof. induction l as [|y l IH]; simpl; [done|]. intros [->|H]; [lia|]. specialize (IH H). lia. Qed.
Lemma foldr_max_nonneg (l : list Z) : 0 <= foldr Z.max 0 l.
Proof. induction l; simpl; lia. Qed.

Lemma token_flags_inside a pv : token_flags (mk_flags a pv (negb a) true) = mk_flags a pv false true.
Proof. by destruct a. Qed.

Lemma skips_member k v n : utf8_ok k -> skips v -> nesting v <= n -> skips_inner false n (encoded k ++ colon :: print v).
Proof.
  intros Hk Hv Hn pv d v0 stk p rest Hd Hdn Hl H Hr Hp. rewrite <- app_assoc in H.
  rewrite zlen_app, zlen_cons in *. pose proof (zlen_nonneg (print v)). rewrite <- app_comm_cons in H.
  pose proof (skip_string k (mk_flags false pv false true) d v0 stk p _ Hk Hd H ltac:(lia)) as G1.
  apply holds_app_r in H. pose proof (skip_colon pv d p stk _ _ H ltac:(lia)) as G2. apply holds_cons in H as [_ H].
  destruct (Hv false pv d p stk _ rest Hd ltac:(lia) Hl H Hr ltac:(lia)) as (v1 & stk1 & G3 & T3).
  exists v1, stk1. split; [|done].
  replace (p + (zlen (encoded k) + (1 + zlen (print v)))) with (p + zlen (encoded k) + 1 + zlen (print v)) by lia.
  eapply goes_trans; [exact G1|]. by eapply goes_trans.
Qed.

Lemma skips_elements vs :
  Forall skips vs -> skips_inner true (foldr Z.max 0 (map nesting vs)) (commas (map print vs)).
Proof.
  intros Hs. apply skips_commas, List.Forall_map. rewrite List.Forall_forall in *.
  intros x Hx pv d ? ? ? rest ? ? ? ? ? ?.
  pose proof (foldr_max_le nesting vs x Hx). apply (Hs x Hx true) with rest; done || lia.
Qed.

Lemma skips_members ms :
  Forall (fun m => utf8_ok m.1) ms -> Forall (fun m => skips m.2) ms ->
  skips_inner false (foldr Z.max 0 (map (fun m => nesting m.2) ms))
              (commas (map (fun m => encoded m.1 ++ colon :: print m.2) ms)).
Proof.
  intros Hk Hs. apply skips_commas, List.Forall_map. rewrite List.Forall_forall in *. intros x Hx.
  apply skips_member; [by apply Hk|by apply Hs|by apply (foldr_max_le (fun m => nesting m.2))].
Qed.

Lemma skips_all v : printable v -> skips v.
Proof.
  induction v as [s|s|vs IH|ms IH] using jval_ind; inversion 1 as [? Hne Hs|? Hs|? Hs|? Hk Hs]; subst;
    intros a pv d v0 stk p rest Hd Hn Hl H0 Hr Hp; cbn [print nesting] in *.
  - exists p, stk. split; [|done]. rewrite <- token_flags_inside. by eapply skip_bare.
  - exists p, stk. split; [|done]. rewrite <- token_flags_inside. eapply skip_string; eauto. lia.
  - set (ts := commas (map print vs)) in *.
    replace (p + zlen ([to_byte 91] ++ ts ++ [to_byte 93])) with (p + zlen ts + 2) in * by zlia.
    rewrite <- !app_assoc in H0. eapply skip_container; [by left| |apply foldr_max_nonneg|done|done|done|exact H0|done].
    apply skips_elements. rewrite List.Forall_forall in *. auto.
  - set (ts := commas (map _ ms)) in *.
    replace (p + zlen ([to_byte 123] ++ ts ++ [to_byte 125])) with (p + zlen ts + 2) in * by zlia.
    rewrite <- !app_assoc in H0. eapply skip_container; [by right| |apply foldr_max_nonneg|done|done|done|exact H0|done].
    apply skips_members; [done|]. rewrite List.Forall_forall in *. auto.
Qed.
End Tokenize.

(** ** Reading the members of a printed object *)

Definition member_text (m : list byte * jval) : list byte := encoded m.1 ++ colon :: print m.2.
Definition members_text (ms : list (list byte * jval)) : list byte := commas (map member_text ms) ++ [to_byte 125].
(** What is behind a value with the members [ms] to come. *)
Definition tail_text (ms : list (list byte * jval)) : list byte :=
  match ms with [] => members_text [] | _ => comma :: members_text ms end.

(** The bytes of the token of a value. *)
Definition head_text (v : jval) : list byte :=
  match v with
  | VBare s => s
  | VString s => encoded s
  | VArray _ => [to_byte 91]
  | VObject _ => [to_byte 123]
  end.

Lemma members_text_cons k v ms : members_text ((k, v) :: ms) = encoded k ++ colon :: print v ++ tail_text ms.
Proof.
  unfold members_text. destruct ms as [|m ms]; cbn [map commas].
  - unfold member_text. cbn [fst snd]. by rewrite <- app_assoc.
  - unfold member_text at 1. cbn [fst snd]. rewrite <- !app_assoc. done.
Qed.

Lemma tail_delimited ms : delimited (tail_text ms).
Proof. by destruct ms. Qed.

Lemma encoded_long k : 2 <= zlen (encoded k).
Proof. unfold encoded. pose proof (zlen_nonneg (encode_loop (List.length k) k)). zlia. Qed.

Lemma head_text_long v : printable v -> 0 < zlen (head_text v).
Proof.
  destruct 1 as [s Hs _|s _| |]; cbn [head_text]; try done. destruct s; [done|zlia].
Qed.

Lemma members_count ms : Z.of_nat (List.length ms) < zlen (members_text ms).
Proof.
  induction ms as [|[k v] ms IH]; [done|]. rewrite members_text_cons, zlen_app, zlen_cons, zlen_app.
  pose proof (zlen_nonneg (print v)). pose proof (encoded_long k).
  assert (zlen (members_text ms) <= zlen (tail_text ms)); [destruct ms; cbn [tail_text]; zlia|]. simpl. lia.
Qed.

Section Members.
Context (text : list byte) (Hlen : zlen text <= 2 ^ 31 - 1).

Notation expects_key := (mk_flags false false false true).
Notation expects_value := (mk_flags false false true true).

(** An iterator without parents at the end of the text. *)
Definition whole (st : json_stack) (k : json_kind) (f : json_flags) (d : Z) : Prop :=
  j_end (top st) = zlen text /\ j_parent (top st) = NoParent /\ j_state (top st) = Run k f /\ j_depth (top st) = d.

Definition start (st : json_stack) (k : json_kind) (f : json_flags) : scan :=
  mk_scan (j_cur (top st)) k f (j_depth (top st)) (j_cur (top st)) 0 (repeat false STACK).

(** The next token is looked for in front of the members [ms]. *)
Definition ready (st : json_stack) (ms : list (list byte * jval)) : Prop :=
  exists k f d v stk p,
    whole st k f d /\ goes text (zlen text) st (start st k f) (between_tokens expects_key 0 v stk p)
    /\ holds text p (members_text ms) /\ p + zlen (members_text ms) = zlen text /\ j_cur (top st) <= p.

(** The next token is the value [v] of the member in front of [ms]. *)
Definition valued (st : json_stack) (v : jval) (ms : list (list byte * jval)) : Prop :=
  whole st JStruct expects_value 0 /\
  holds text (j_cur (top st)) (colon :: print v ++ tail_text ms) /\
  j_cur (top st) + zlen (colon :: print v ++ tail_text ms) = zlen text.

Lemma next_goes st k f d s len value st' :
  whole st k f d -> goes text (zlen text) st (start st k f) s ->
  scan_loop text (Z.to_nat (zlen text - s_cur s)) s st = Ret (len, value, st') ->
  spa_json_next text st = (Ret (mk_token len value), st').
Proof.
  intros (He & Hp & Hs & Hd) Hg Hl. unfold spa_json_next. rewrite Hs, He. unfold goes, start in Hg.
  cbn [s_cur] in Hg. unfold STACK in Hg. by rewrite Hg, Hl.
Qed.

(** A string in front of the top level: its token is returned. *)
Lemma return_string st s f v stk p rest :
  utf8_ok s -> holds text p (encoded s ++ rest) ->
  scan_loop text (Z.to_nat (zlen text - p)) (between_tokens f 0 v stk p) st
  = Ret (zlen (encoded s), p,
         scanned (mk_scan (p + zlen (encoded s)) JStruct (token_flags f) 0 p 0 stk) st).
Proof.
  intros Hu H. pose proof (holds_bounds _ _ _ H) as Hb. destruct (encoded_encodes s Hu) as (e & He & Hen).
  rewrite Hen in *. simpl app in H. rewrite <- app_assoc in H. simpl app in H.
  pose proof (open_string text (zlen text) st f 0 v stk p _ H ltac:(zlia)) as G1. apply holds_cons in H as [_ H].
  pose proof (passes_encoded text (zlen text) st (token_flags f) 0 p stk s e He _ _ H ltac:(zlia)) as G2.
  pose proof (goes_trans _ _ _ _ _ _ G1 G2) as G. unfold goes in G. cbn [s_cur between_tokens] in G. rewrite G.
  apply holds_app_r in H.
  set (s1 := scan_at (token_flags f) 0 p stk JString 0 (p + 1 + zlen e)).
  rewrite (loop_return text (zlen text) st s1 _ _ (zlen (to_byte 34 :: e ++ [to_byte 34]))
    (mk_scan (p + 1 + zlen e + 1) JStruct (token_flags f) 0 p 0 stk) H).
  - cbn [s_value]. do 4 f_equal. zlia.
  - simpl. zlia.
  - unfold s1. open_char. change (is_backslash (to_byte 34)) with false. change (is_quote (to_byte 34)) with true.
    cbv iota. cbn. f_equal. rewrite swrap_small by zlia. zlia.
Qed.

Lemma key_read st k v ms :
  utf8_ok k -> ready st ((k, v) :: ms) ->
  exists p st', spa_json_next text st = (Ret (mk_token (zlen (encoded k)) p), st')
    /\ holds text p (encoded k) /\ valued st' v ms.
Proof.
  intros Hk (kd & f & d & v0 & stk & p & Hw & Hg & H & Hp & _). rewrite members_text_cons in *.
  pose proof (return_string st k expects_key v0 stk p _ Hk H) as Hr.
  exists p. eexists. split; [eapply next_goes; [exact Hw|exact Hg|exact Hr]|]. split; [by eapply holds_app_l|].
  destruct Hw as (He & Hpa & Hs & Hd). split; [done|]. simpl. apply holds_app_r in H. split; [done|]. zlia.
Qed.

(** Behind a value that is closed: the members to come are next. *)
Lemma ready_tail st k f d ms v stk p :
  whole st k f d -> goes text (zlen text) st (start st k f) (between_tokens expects_key 0 v stk p) ->
  holds text p (tail_text ms) -> p + zlen (tail_text ms) = zlen text -> j_cur (top st) <= p -> ready st ms.
Proof.
  intros Hw Hg H Hp Hc. destruct ms as [|m ms].
  - by exists k, f, d, v, stk, p.
  - cbn [tail_text] in *. rewrite zlen_cons in Hp. pose proof (zlen_nonneg (members_text (m :: ms))).
    exists k, f, d, v, stk, (p + 1). split; [done|].
    split; [eapply goes_trans; [exact Hg|]; eapply skip_blank; [exact H|lia]|].
    apply holds_cons in H as [_ H]. split; [done|]. split; lia.
Qed.

Lemma start_between st f d : whole st JStruct f d ->
  start st JStruct f = between_tokens f d (j_cur (top st)) (repeat false STACK) (j_cur (top st)).
Proof. intros (_ & _ & _ & Hd). unfold start. by rewrite Hd. Qed.

(** Behind a token that ended at [p]. *)
Lemma ready_behind st v' stk' p ms :
  whole st JStruct expects_value 0 -> holds text p (tail_text ms) -> p + zlen (tail_text ms) = zlen text ->
  ready (scanned (mk_scan p JStruct expects_key 0 v' 0 stk') st) ms.
Proof.
  intros (He & Hpa & _ & _) H Hp. set (st' := scanned _ st).
  assert (whole st' JStruct expects_key 0) as Hw by done.
  eapply ready_tail; [exact Hw|rewrite (start_between _ _ _ Hw); apply goes_refl|exact H|exact Hp|done].
Qed.

Lemma return_bare st s f v stk p rest :
  s <> [] -> Forall bare_char s -> holds text p (s ++ rest) -> delimited rest ->
  scan_loop text (Z.to_nat (zlen text - p)) (between_tokens f 0 v stk p) st
  = Ret (zlen s, p, scanned (mk_scan (p + zlen s) JStruct (token_flags f) 0 p 0 stk) st).
Proof.
  intros Hne Hs H Hr. pose proof (holds_bounds _ _ _ H) as Hb. destruct s as [|c s]; [done|].
  apply list.Forall_cons in Hs as [Hc Hs]. simpl app in H. destruct rest as [|r rest]; [done|].
  pose proof (open_bare text (zlen text) st c f 0 v stk p _ Hc H ltac:(zlia)) as G1. apply holds_cons in H as [_ H].
  pose proof (pass_bare text (zlen text) st s (token_flags f) 0 p stk _ _ Hs H ltac:(zlia)) as G2.
  pose proof (goes_trans _ _ _ _ _ _ G1 G2) as G. unfold goes in G. cbn [s_cur between_tokens] in G. rewrite G.
  apply holds_app_r in H. replace (p + zlen (c :: s)) with (p + 1 + zlen s) by zlia.
  set (s1 := scan_at (token_flags f) 0 p stk JBare 0 (p + 1 + zlen s)).
  rewrite (loop_return text (zlen text) st s1 _ _ (zlen (c :: s))
    (mk_scan (p + 1 + zlen s) JStruct (token_flags f) 0 p 0 stk) H).
  - done.
  - simpl. zlia.
  - unfold s1. open_char. simpl in Hr. rewrite Hr. cbn. f_equal. rewrite swrap_small by zlia. zlia.
Qed.

(** A container in front of the top level: its bracket is returned. *)
Lemma return_bracket st o c v stk p rest :
  brackets o c -> holds text p (o :: rest) ->
  scan_loop text (Z.to_nat (zlen text - p)) (between_tokens expects_value 0 v stk p) st
  = Ret (1, p, scanned (mk_scan (p + 1) JStruct (mk_flags (Byte.eqb o "[") false false true) 1 p 0 stk) st).
Proof.
  intros Hoc H. pose proof (holds_bounds _ _ _ H) as Hb.
  apply (loop_return text (zlen text) st (between_tokens expects_value 0 v stk p) _ _ 1
    (mk_scan (p + 1) JStruct (mk_flags (Byte.eqb o "[") false false true) 1 p 0 stk) H);
    [simpl; zlia|]. by destruct Hoc as [[= -> ->]|[= -> ->]].
Qed.

(** Inside a container that was returned: its members are passed over. *)
Lemma ready_inside st o c n ts v' stk' p ms :
  whole st JStruct expects_value 0 -> brackets o c ->
  (forall st', skips_inner text (zlen text) st' (Byte.eqb o "[") n ts) -> n <= STACK_BITS ->
  holds text p (ts ++ c :: tail_text ms) -> p + zlen ts + 1 + zlen (tail_text ms) = zlen text ->
  ready (scanned (mk_scan p JStruct (mk_flags (Byte.eqb o "[") false false true) 1 v' 0 stk') st) ms.
Proof.
  intros (He & Hpa & _ & _) Hoc Hin Hn H Hp. set (st' := scanned _ st).
  assert (whole st' JStruct (mk_flags (Byte.eqb o "[") false false true) 1) as Hw by done.
  pose proof (zlen_nonneg (tail_text ms)) as Ht.
  destruct (Hin st' false 1 p (repeat false STACK) p (c :: tail_text ms)) as (v1 & stk1 & G & _ & _);
    [lia|lia|by rewrite repeat_length|done|by destruct Hoc as [[= -> ->]|[= -> ->]]|lia|].
  apply holds_app_r in H.
  assert (scan_char c (j_parent (top st'))
            (between_tokens (mk_flags (Byte.eqb o "[") false false true) 1 v1 stk1 (p + zlen ts))
          = Continue (between_tokens expects_key 0 v1 stk1 (p + zlen ts))) as E
    by (by destruct Hoc as [[= -> ->]|[= -> ->]]).
  apply goes_step with (1 := H) (stop := zlen text) in E as G'; [|simpl; lia|done].
  eapply ready_tail; [exact Hw|rewrite (start_between _ _ _ Hw); eapply goes_trans; [exact G|exact G']| | |].
  - by apply holds_cons in H as [_ H].
  - simpl. lia.
  - simpl. pose proof (zlen_nonneg ts). lia.
Qed.

Lemma value_read st v ms :
  printable v -> nesting v <= STACK_BITS + 1 -> valued st v ms ->
  exists p st', spa_json_next text st = (Ret (mk_token (zlen (head_text v)) p), st')
    /\ holds text p (head_text v) /\ ready st' ms.
Proof.
  intros Hv Hn (Hw & H & Hp). rewrite !zlen_cons, zlen_app in Hp.
  pose proof (zlen_nonneg (print v)). pose proof (zlen_nonneg (tail_text ms)).
  pose proof (skip_colon text (zlen text) st false 0 (j_cur (top st)) (repeat false STACK) _ _ H ltac:(lia)) as G.
  rewrite <- (start_between _ _ _ Hw) in G. apply holds_cons in H as [_ H].
  pose proof (tail_delimited ms) as Hd. set (p := j_cur (top st) + 1) in *. exists p.
  destruct Hv as [s Hne Hs|s Hs|vs Hs|ms' Hk Hs]; cbn [print head_text nesting] in *; eexists;
    (split; [eapply next_goes; [exact Hw|exact G|]|split]).
  - by eapply return_bare.
  - by eapply holds_app_l.
  - apply ready_behind; [done|by apply holds_app_r in H|lia].
  - by eapply return_string.
  - by eapply holds_app_l.
  - apply ready_behind; [done|by apply holds_app_r in H|lia].
  - eapply (return_bracket st _ (to_byte 93)); [by left|exact H].
  - rewrite <- !app_assoc in H. by eapply holds_app_l.
  - rewrite <- !app_assoc in H. apply holds_cons in H as [_ H].
    eapply (ready_inside st (to_byte 91) (to_byte 93)); [done|by left| |..].
    + intros st'. apply skips_elements. eapply list.Forall_impl; [exact Hs|]. intros x. apply skips_all.
    + lia.
    + exact H.
    + zlia.
  - eapply (return_bracket st _ (to_byte 125)); [by right|exact H].
  - rewrite <- !app_assoc in H. by eapply holds_app_l.
  - rewrite <- !app_assoc in H. apply holds_cons in H as [_ H].
    eapply (ready_inside st (to_byte 123) (to_byte 125)); [done|by right| |..].
    + intros st'. apply skips_members; [done|]. eapply list.Forall_impl; [exact Hs|]. intros x. apply skips_all.
    + lia.
    + exact H.
    + zlia.
Qed.

(** Behind the last member there is only the bracket, which is an error for
    an iterator without a parent. *)
Lemma end_read st : ready st [] -> exists v st', spa_json_next text st = (Ret (mk_token (-1) v), st').
Proof.
  intros (k & f & d & v & stk & p & Hw & Hg & H & Hp & _). change (members_text []) with [to_byte 125] in *.
  do 2 eexists. eapply next_goes; [exact Hw|exact Hg|].
  destruct (scan_loop_at text (zlen text) st (between_tokens expects_key 0 v stk p) _ _ H) as [->|(s' & E & _)].
  - simpl. zlia.
  - destruct Hw as (_ & Hpa & _ & _). rewrite Hpa. done.
  - destruct Hw as (_ & Hpa & _ & _). rewrite Hpa in E. done.
Qed.

(** The key of a token, when there is room for it. *)
Lemma parse_key k p maxlen :
  utf8_ok k -> holds text p (encoded k) ->
  spa_json_parse_stringn text (mk_token (zlen (encoded k)) p) maxlen
  = if maxlen <=? zlen (encoded k) then Err ENOSPC else Ret k.
Proof.
  intros Hk H. case_if.
  - unfold spa_json_parse_stringn. cbn [t_len]. by rewrite (proj2 (Z.leb_le _ _)).
  - destruct (encoded_encodes k Hk) as (e & He & Hen). rewrite Hen in *.
    replace (zlen (to_byte 34 :: e ++ [to_byte 34])) with (zlen e + 2) in * by zlia.
    by apply parse_encoded.
Qed.

Definition member_ok (m : list byte * jval) : Prop :=
  utf8_ok m.1 /\ no_nul m.1 /\ printable m.2 /\ nesting m.2 <= STACK_BITS + 1.

(** The first of the members with a key that fits, and those behind it. *)
Fixpoint visible (maxkeylen : Z) (ms : list (list byte * jval))
  : option (list byte * jval * list (list byte * jval)) :=
  match ms with
  | [] => None
  | m :: ms => if zlen (encoded m.1) <? maxkeylen then Some (m, ms) else visible maxkeylen ms
  end.

Lemma object_next_printed maxkeylen fuel st ms :
  Forall member_ok ms -> ready st ms -> (List.length ms < fuel)%nat ->
  match visible maxkeylen ms with
  | Some ((k, v), rest) =>
      exists p st', object_next_loop fuel text maxkeylen st
                    = (Ret (Member k (mk_token (zlen (head_text v)) p)), st')
        /\ holds text p (head_text v) /\ ready st' rest
  | None => exists st', object_next_loop fuel text maxkeylen st = (Ret (NoMember (-1)), st')
  end.
Proof.
  intros Hms. revert st fuel. induction Hms as [|[k v] ms (Hk & _ & Hv & Hn) _ IH]; intros st fuel Hr Hf;
    (destruct fuel as [|fuel]; [simpl in Hf; lia|]); cbn [object_next_loop].
  - destruct (end_read st Hr) as (v & st' & E). exists st'. unfold spa_json_get_string, st_bind. by rewrite E.
  - cbn [fst snd] in *. destruct (key_read st k v ms Hk Hr) as (p & st1 & E1 & H1 & Hv1).
    destruct (value_read st1 v ms Hv Hn Hv1) as (q & st2 & E2 & H2 & Hr2).
    pose proof (encoded_long k). pose proof (head_text_long v Hv).
    unfold spa_json_get_string, st_bind. rewrite E1. cbn [t_len].
    rewrite (proj2 (Z.leb_gt _ 0)) by lia. rewrite (parse_key k p maxkeylen Hk H1).
    cbn [visible fst]. rewrite Z.ltb_antisym. destruct (maxkeylen <=? zlen (encoded k)); cbn [negb andb].
    + change ((- (28) <=? 0) && negb (- (28) =? - (28))) with false. cbv beta iota. rewrite E2. cbn [t_len].
      rewrite (proj2 (Z.leb_gt _ 0)) by lia. apply IH; [done|simpl in Hf; lia].
    + cbv beta. rewrite E2. cbn [t_len]. rewrite (proj2 (Z.leb_gt _ 0)) by lia. by exists q, st2.
Qed.

(** The value of the first member with the key. *)
Fixpoint find_key (key : list byte) (ms : list (list byte * jval)) : option jval :=
  match ms with
  | [] => None
  | (k, v) :: ms => if spa_streq k key then Some v else find_key key ms
  end.

Lemma to_cstr_no_nul s : no_nul s -> to_cstr s = s.
Proof.
  intros H. unfold to_cstr. assert (cstr s = None) as ->; [|done].
  induction H as [|c s Hc _ IH]; [done|]. simpl. rewrite IH. by destruct c.
Qed.

Lemma ready_fuel st ms : ready st ms -> (List.length ms < json_fuel st)%nat.
Proof.
  intros (k & f & d & v & stk & p & (He & _) & _ & _ & Hp & Hc). pose proof (members_count ms).
  unfold json_fuel. lia.
Qed.

Lemma visible_split n ms k v rest :
  visible n ms = Some ((k, v), rest) ->
  exists skipped, ms = skipped ++ (k, v) :: rest /\ Forall (fun m => n <= zlen (encoded m.1)) skipped.
Proof.
  induction ms as [|m ms IH]; simpl; [done|]. case_if.
  - intros [= -> ->]. by exists [].
  - intros H. destruct (IH H) as (sk & -> & Hs). exists (m :: sk). split; [done|]. by constructor.
Qed.

Lemma visible_none n ms : visible n ms = None -> Forall (fun m => n <= zlen (encoded m.1)) ms.
Proof. induction ms as [|m ms IH]; simpl; [done|]. case_if; [done|]. constructor; auto. Qed.

(** A key that is written without escapes is not skipped. *)
Lemma find_key_skipped key skipped ms :
  zlen (encoded key) = zlen key + 2 -> Forall (fun m => zlen key + 3 <= zlen (encoded m.1)) skipped ->
  find_key key (skipped ++ ms) = find_key key ms.
Proof.
  intros Hk. induction 1 as [|[k v] sk Hm _ IH]; [done|]. simpl. unfold spa_streq. case_bool_decide; [|done].
  subst. simpl in Hm. lia.
Qed.

Lemma object_find_printed key fuel st ms :
  zlen (encoded key) = zlen key + 2 -> Forall member_ok ms -> ready st ms -> (List.length ms < fuel)%nat ->
  match find_key key ms with
  | Some v => exists p st', object_find_loop fuel text key (zlen key + 3) st
                            = (Ret (Some (mk_token (zlen (head_text v)) p)), st') /\ holds text p (head_text v)
  | None => exists st', object_find_loop fuel text key (zlen key + 3) st = (Ret None, st')
  end.
Proof.
  intros Hkey. revert st ms. induction fuel as [|fuel IH]; intros st ms Hms Hr Hf; [lia|].
  cbn [object_find_loop]. unfold st_bind at 1. unfold st_bind at 1. unfold spa_json_object_next.
  pose proof (object_next_printed (zlen key + 3) _ st ms Hms Hr (ready_fuel st ms Hr)) as Hn.
  destruct (visible (zlen key + 3) ms) as [[[k v] rest]|] eqn:Hv.
  - destruct Hn as (p & st' & E & H & Hr'). rewrite E. destruct (visible_split _ _ _ _ _ Hv) as (sk & -> & Hsk).
    rewrite (find_key_skipped key sk _ Hkey Hsk). cbn [find_key].
    apply Forall_app in Hms as [_ Hms]. apply list.Forall_cons in Hms as [(_ & Hnul & _ & _) Hms].
    cbn [fst] in Hnul. rewrite (to_cstr_no_nul _ Hnul). destruct (spa_streq k key); [by exists p, st'|].
    apply IH; [done|done|]. rewrite length_app in Hf. simpl in Hf. lia.
  - destruct Hn as (st' & E). rewrite E. apply visible_none in Hv.
    rewrite <- (app_nil_r ms), (find_key_skipped key ms [] Hkey Hv). by exists st'.
Qed.
End Members.

(** What a lookup stores for a value: the text of a bare token, the string,
    the bracket of a container. *)
Definition value_text (v : jval) : list byte :=
  match v with VString s => s | _ => head_text v end.

Lemma parse_head text v p maxlen :
  printable v -> holds text p (head_text v) ->
  spa_json_parse_stringn text (mk_token (zlen (head_text v)) p) maxlen
  = if maxlen <=? zlen (head_text v) then Err ENOSPC else Ret (value_text v).
Proof.
  intros Hv H. destruct Hv as [s Hne Hs|s Hs|vs Hs|ms Hk Hs]; cbn [head_text value_text] in *;
    try (by apply parse_key); unfold spa_json_parse_stringn; cbn [t_len]; (case_if; [done|]);
    unfold token_bytes; cbn [t_len t_value]; destruct H as (pre & post & -> & <-); unfold zlen; rewrite !Nat2Z.id;
    rewrite drop_app_length, take_app_length; try done.
  destruct s as [|c s]; [done|]. apply list.Forall_cons in Hs as [(_ & He & _) _].
  unfold ends_bare in He. apply orb_false_elim in He as [He _]. apply orb_false_elim in He as [_ He].
  unfold spa_json_is_string. by rewrite He, andb_false_r.
Qed.

(** The iterator [spa_json_begin_object] leaves, without its parent. *)
Lemma begin_ready ms :
  zlen (print (VObject ms)) <= 2 ^ 31 - 1 ->
  exists st, spa_json_begin_object (print (VObject ms)) 0 (zlen (print (VObject ms))) = Ret (1, st)
    /\ ready (print (VObject ms)) (spa_json_save st) ms /\ json_fuel st = json_fuel (spa_json_save st).
Proof.
  intros Hlen. set (text := print (VObject ms)) in *.
  assert (text = to_byte 123 :: members_text ms) as Ht by done.
  assert (holds text 0 (to_byte 123 :: members_text ms)) as H by (by apply holds_whole).
  pose proof (members_count ms) as Hc.
  set (st0 := mk_stack (spa_json_init 0 (zlen text)) []).
  set (s1 := mk_scan 1 JStruct (mk_flags false false false true) 1 0 0 (repeat false STACK)).
  assert (spa_json_next text st0 = (Ret (mk_token 1 0), scanned s1 st0)) as E.
  { assert (whole text st0 JNone no_flags 0) as Hw by done.
    eapply next_goes; [exact Hw|apply goes_refl|].
    by apply (loop_return text (zlen text) st0 (start st0 JNone no_flags) _ _ 1 s1 H);
      [rewrite Ht, zlen_cons; simpl; lia|]. }
  exists (spa_json_enter_self (scanned s1 st0)).
  split; [|split; [|done]].
  - unfold spa_json_begin_object, spa_json_begin_container, spa_json_enter_container, st_bind. fold st0.
    rewrite E. done.
  - set (st := spa_json_save _). exists JNone, (mk_flags false false false true), 0, 1, (repeat false STACK), 1.
    apply holds_cons in H as [_ H]. assert (1 + zlen (members_text ms) = zlen text) as Hl by (rewrite Ht; zlia).
    split; [done|]. split; [|split; [done|split; [done|simpl; lia]]].
    assert (exists c r, members_text ms = c :: r) as (c & r & Hm).
    { destruct (members_text ms); [simpl in Hc; zlia|eauto]. }
    rewrite Hm in H. apply holds_cons in H as [Hl1 _]. change (0 + 1) with 1 in Hl1. unfold goes. cbn [s_cur start between_tokens].
    change (j_cur (top st)) with 1. replace (Z.to_nat (zlen text - 1)) with (S (Z.to_nat (zlen text - 2))) by zlia.
    cbn [scan_loop]. cbn [s_cur start between_tokens]. change (j_cur (top st)) with 1. rewrite Hl1. done.
Qed.

(** C7: a lookup finds what was printed.  [spa_json_str_object_find] on the text
    of an object, in which strings and keys are written by
    [spa_json_encode_stringn] and containers are nested up to the 512 levels the
    tokenizer has room for, returns the value of the first member with the key:
    the text of a number or another bare word, the decoded string, or the
    bracket of a container, provided there is room for the token, and
    [-ENOSPC] when there is not.  Without such a member it returns [-ENOENT].
    The key is one that is written without escapes ([escaped_key_not_found] for
    the others), and its buffer and the destination are of sizes an [int] can
    hold ([wide_destination_refused] for a larger destination). *)
Theorem json_lookup_correct ms key maxlen :
  let text := print (VObject ms) in
  Forall member_ok ms -> zlen text <= 2 ^ 31 - 1 -> zlen (encoded key) = zlen key + 2 ->
  zlen key + 3 <= 2 ^ 31 - 1 -> 0 <= maxlen <= 2 ^ 31 - 1 ->
  spa_json_str_object_find text key maxlen =
  match find_key key ms with
  | None => Err ENOENT
  | Some v => if maxlen <=? zlen (head_text v) then Err ENOSPC else Ret (value_text v)
  end.
Proof.
  intros text Hms Hlen Hkey Hint Hmax. unfold spa_json_str_object_find.
  rewrite (swrap_small 32 maxlen) by lia.
  destruct (begin_ready ms Hlen) as (st & Hb & Hr & Hf). fold text in Hb, Hr. rewrite Hb. cbn [obind].
  change (1 <=? 0) with false. cbv iota. unfold spa_json_object_find. rewrite Hf.
  rewrite (key_len _ Hint). rewrite (proj2 (Z.ltb_ge (zlen key + 3) 0)) by zlia.
  pose proof (object_find_printed _ Hlen key _ _ ms Hkey Hms Hr (ready_fuel _ _ _ Hr)) as Hfind.
  destruct (find_key key ms) as [v|] eqn:Hv.
  - destruct Hfind as (p & st' & -> & H). cbn [obind].
    assert (exists k, In (k, v) ms) as (k & Hin).
    { clear -Hv. induction ms as [|[k w] ms IH]; [done|]. simpl in Hv. case_if; [injection Hv as ->; eauto using in_eq|].
      destruct (IH Hv) as [k' ?]. eauto using in_cons. }
    rewrite List.Forall_forall in Hms. destruct (Hms _ Hin) as (_ & _ & Hp & _). by apply parse_head.
  - by destruct Hfind as (st' & ->).
Qed.

(** A nested value, a string with an escape and a letter of two bytes. *)
Definition sample : list (list byte * jval) :=
  [ (str "list", VArray [VBare (str "1"); VObject [(str "x", VString (str "]}"))]]);
    (str "name", VString (to_byte 0xc3 :: to_byte 0xa9 :: [to_byte 10])) ].

Lemma sample_ok : Forall member_ok sample.
Proof.
  assert (utf8_ok (to_byte 0xc3 :: to_byte 0xa9 :: [to_byte 10])) as Hu.
  { apply (utf8_multi (to_byte 0xc3) [to_byte 0xa9]); try (by vm_compute); repeat constructor; by vm_compute. }
  repeat first [exact Hu | constructor]; by vm_compute.
Qed.

Lemma json_lookup_correct_witness :
  spa_json_str_object_find (print (VObject sample)) (str "name") 16
  = Ret (to_byte 0xc3 :: to_byte 0xa9 :: [to_byte 10]).
Proof.
  rewrite (json_lookup_correct sample (str "name") 16 sample_ok); by vm_compute.
Defined.

(** A key that has to be escaped is written by [spa_json_encode_stringn] and is
    not found: the buffer for the keys has no room for the escape. *)
Lemma escaped_key_not_found :
  let key := [to_byte 10] in
  spa_json_str_object_find (print (VObject [(key, VBare (str "1"))])) key 16 = Err ENOENT.
Proof. by vm_compute. Qed.

(** A destination of 2 GiB or more is refused, whatever the value: its size is
    narrowed to a negative [int]. *)
Lemma wide_destination_refused :
  spa_json_str_object_find (print (VObject sample)) (str "name") (2 ^ 31) = Err ENOSPC.
Proof. by vm_compute. Qed.
