(* ===== verification/JsonNumber.v ===== *)
(** * JSON numbers

    The automaton of [spa_json_is_json_number] accepts the numbers of the JSON
    grammar, on texts of 7-bit characters. *)
From S2P Require Import Prelude Bytes CString Json.
#[local] Open Scope Z_scope.

(** ** The grammar *)

Definition is_digit (c : byte) : Prop := 48 <= code c <= 57.
Definition digits1 (ds : list byte) : Prop := ds <> [] /\ Forall is_digit ds.

(** [[ minus ] int [ frac ] [ exp ]]. *)
Definition int_part (i : list byte) : Prop :=
  (exists c, i = [c] /\ code c = 48) \/
  (exists c ds, i = c :: ds /\ 49 <= code c <= 57 /\ Forall is_digit ds).
Definition frac_part (r : list byte) : Prop :=
  r = [] \/ exists c ds, r = c :: ds /\ code c = 46 /\ digits1 ds.
Definition exp_part (r : list byte) : Prop :=
  r = [] \/ exists c sign ds, r = c :: sign ++ ds /\ (code c = 69 \/ code c = 101) /\
                              (sign = [] \/ exists s, sign = [s] /\ (code s = 43 \/ code s = 45)) /\ digits1 ds.
Definition json_number (v : list byte) : Prop :=
  exists minus i frac exp,
    v = minus ++ i ++ frac ++ exp /\ (minus = [] \/ exists c, minus = [c] /\ code c = 45) /\
    int_part i /\ frac_part frac /\ exp_part exp.

(** ** The automaton *)

Definition ascii (v : list byte) : Prop := Forall (fun c => code c < 128) v.

Lemma code_land c : code c < 128 -> Z.land (code c) 0x7f = code c.
Proof.
  intros H. change 0x7f with (Z.ones 7). rewrite Z.land_ones by lia. apply Z.mod_small.
  unfold code in *. pose proof (byte.unsigned_range c). lia.
Qed.

Definition row (s : Z) : list Z := nth (Z.to_nat s) trans [].

Lemma number_loop_cons s c v :
  code c < 128 ->
  number_loop (c :: v) s =
  let t := nth (char_class (code c)) (row s) (-1) in if t <? 0 then false else number_loop v t.
Proof. intros H. cbn [number_loop]. unfold transition. by rewrite code_land. Qed.

(** The class of a digit is 0 or 1. *)
Lemma class_digit c : is_digit c -> char_class (code c) = if code c =? 48 then 1%nat else 0%nat.
Proof.
  unfold is_digit, char_class. intros H. destruct (code c =? 48) eqn:E; bool_to_prop.
  - rewrite E. done.
  - rewrite (proj2 (Z.leb_le 49 _)), (proj2 (Z.leb_le _ 57)) by lia. done.
Qed.

(** The states that loop on digits. *)
Lemma loop_digits s ds r :
  (s = 1 \/ s = 2 \/ s = 3) -> Forall is_digit ds -> number_loop (ds ++ r) s = number_loop r s.
Proof.
  intros Hs. induction 1 as [|c ds Hc _ IH]; [done|]. simpl app.
  rewrite number_loop_cons by (unfold is_digit in Hc; lia). rewrite class_digit by done.
  destruct Hs as [->|[->| ->]]; destruct (code c =? 48); exact IH.
Qed.

(** The digits in front of a text. *)
Lemma split_digits v :
  exists ds r, v = ds ++ r /\ Forall is_digit ds /\ match r with [] => True | c :: _ => ~ is_digit c end.
Proof.
  induction v as [|c v (ds & r & -> & Hd & Hr)].
  - by exists [], [].
  - destruct (decide (48 <= code c <= 57)) as [H|H].
    + exists (c :: ds), r. repeat split; [|done]. by constructor.
    + by exists [], (c :: ds ++ r).
Qed.

Lemma class_cases c :
  (49 <= code c <= 57 /\ char_class (code c) = 0%nat) \/ (code c = 48 /\ char_class (code c) = 1%nat) \/
  (code c = 45 /\ char_class (code c) = 2%nat) \/ (code c = 43 /\ char_class (code c) = 3%nat) \/
  (code c = 46 /\ char_class (code c) = 4%nat) \/ ((code c = 69 \/ code c = 101) /\ char_class (code c) = 5%nat) \/
  ((~ 48 <= code c <= 57) /\ code c <> 45 /\ code c <> 43 /\ code c <> 46 /\ code c <> 69 /\ code c <> 101)
  /\ char_class (code c) = 6%nat.
Proof.
  unfold char_class. destruct ((49 <=? code c) && (code c <=? 57)) eqn:E1; bool_to_prop; [tauto|].
  apply andb_false_iff in E1. do 4 (case_if; [tauto|]).
  destruct (Z.eqb_spec (code c) 69), (Z.eqb_spec (code c) 101); simpl; try tauto.
  do 6 right. repeat split; try done. destruct E1; bool_to_prop; lia.
Qed.

(** One character, by its class. *)
Ltac by_class c :=
  destruct (class_cases c) as [[?Hrg Hcl]|[[?Hrg Hcl]|[[?Hrg Hcl]|[[?Hrg Hcl]|[[?Hrg Hcl]|[[?Hrg Hcl]|[?Hrg Hcl]]]]]]];
  rewrite Hcl; cbn.

Lemma in_exponent v : ascii v -> number_loop v 3 = true <-> Forall is_digit v.
Proof.
  intros Ha. split; [|intros Hd; by rewrite <- (app_nil_r v), loop_digits by auto].
  induction Ha as [|c v Hc Ha IH]; [done|]. rewrite number_loop_cons by done.
  by_class c; try done; intros H; (constructor; [unfold is_digit; lia|auto]).
Qed.

Lemma digit_then s v :
  ascii v -> (forall c r, v = c :: r -> is_digit c -> number_loop v s = number_loop r 3) ->
  (forall c r, v = c :: r -> ~ is_digit c -> number_loop v s = false) -> number_loop [] s = false ->
  number_loop v s = true <-> digits1 v.
Proof.
  intros Ha H1 H2 H3. destruct v as [|c r].
  - rewrite H3. split; [done|]. by intros [? _].
  - apply list.Forall_cons in Ha as [Hc Ha]. destruct (decide (48 <= code c <= 57)) as [Hd|Hd].
    + rewrite (H1 c r eq_refl Hd), in_exponent by done. split; [intros H; split; [done|by constructor]|].
      intros [_ H]. by apply list.Forall_cons in H as [_ H].
    + rewrite (H2 c r eq_refl Hd). split; [done|]. intros [_ H]. by apply list.Forall_cons in H as [H _].
Qed.

Lemma after_sign v : ascii v -> number_loop v 8 = true <-> digits1 v.
Proof.
  intros Ha. apply digit_then; [done| | |done]; intros c r -> Hd; apply list.Forall_cons in Ha as [Hc _];
    rewrite number_loop_cons by done.
  - rewrite class_digit by done. by destruct (code c =? 48).
  - unfold is_digit in Hd. by_class c; done || lia.
Qed.

Lemma after_e v :
  ascii v -> number_loop v 7 = true <->
  exists sign ds, v = sign ++ ds /\ (sign = [] \/ exists s, sign = [s] /\ (code s = 43 \/ code s = 45)) /\ digits1 ds.
Proof.
  intros Ha. split.
  - intros H. destruct v as [|c v]; [done|]. pose proof Ha as Ha'. apply list.Forall_cons in Ha' as [Hc Hv].
    rewrite number_loop_cons in H by done. revert H. by_class c; try done; intros H.
    + exists [], (c :: v). repeat split; auto. constructor; [unfold is_digit; lia|by apply in_exponent].
    + exists [], (c :: v). repeat split; auto. constructor; [unfold is_digit; lia|by apply in_exponent].
    + exists [c], v. repeat split; eauto; by apply after_sign.
    + exists [c], v. repeat split; eauto; by apply after_sign.
  - intros (sign & ds & -> & Hs & Hd). apply Forall_app in Ha as [Has Had].
    destruct Hs as [->|(s & -> & Hs)]; simpl app.
    + destruct Hd as [Hne Hd]. destruct ds as [|c ds]; [done|]. apply list.Forall_cons in Had as [Hc Had].
      apply list.Forall_cons in Hd as [Hdc Hd]. rewrite number_loop_cons, class_digit by done.
      apply in_exponent in Hd; [|done]. by destruct (code c =? 48).
    + apply list.Forall_cons in Has as [Hc _]. rewrite number_loop_cons by done.
      by_class s; try lia; by apply after_sign.
Qed.

(** The states in which the number may end or an exponent begin; [t] is where a
    point leads, if it leads anywhere. *)
Lemma exponent_or_end s v :
  ascii v -> s = 0 \/ s = 1 \/ s = 2 -> match v with [] => True | c :: _ => ~ is_digit c /\ code c <> 46 end ->
  number_loop v s = true <-> exp_part v.
Proof.
  intros Ha Hs Hv. destruct v as [|c v].
  - destruct Hs as [->|[->| ->]]; split; try done; by left.
  - destruct Hv as [Hnd Hnp]. apply list.Forall_cons in Ha as [Hc Ha]. rewrite number_loop_cons by done.
    assert (nth (char_class (code c)) (row s) (-1) = if Nat.eqb (char_class (code c)) 5 then 7 else -1) as ->.
    { unfold is_digit in Hnd. by_class c; try lia; by destruct Hs as [->|[->| ->]]. }
    cbv zeta. unfold exp_part. split.
    + by_class c; try done. intros H. right.
      apply after_e in H as (sign & ds & -> & Hsg & Hd); [|done]. by exists c, sign, ds.
    + intros [H|(c' & sign & ds & [= <- ->] & He & Hsg & Hd)]; [done|].
      by_class c; try lia.
      apply after_e; eauto.
Qed.

Lemma exp_part_head v : exp_part v -> match v with [] => True | c :: _ => ~ is_digit c /\ code c <> 46 end.
Proof.
  intros [->|(c & sign & ds & -> & Hc & _)]; [done|]. unfold is_digit. destruct Hc as [-> | ->]; split; lia.
Qed.

Lemma in_fraction v :
  ascii v -> number_loop v 2 = true <-> exists ds e, v = ds ++ e /\ Forall is_digit ds /\ exp_part e.
Proof.
  intros Ha. split.
  - destruct (split_digits v) as (ds & r & -> & Hd & Hr). rewrite loop_digits by auto.
    intros H. apply Forall_app in Ha as [_ Ha]. exists ds, r. repeat split; [done|].
    apply (exponent_or_end 2); [done|auto| |done]. destruct r as [|c r]; [done|]. split; [done|]. intros Hp.
    apply list.Forall_cons in Ha as [Hc Ha]. rewrite number_loop_cons in H by done.
    revert H. by_class c; done || lia.
  - intros (ds & e & -> & Hd & He). apply Forall_app in Ha as [_ Ha]. rewrite loop_digits by auto.
    apply exponent_or_end; auto. by apply exp_part_head.
Qed.

Lemma after_point v :
  ascii v -> number_loop v 6 = true <-> exists ds e, v = ds ++ e /\ digits1 ds /\ exp_part e.
Proof.
  intros Ha. destruct v as [|c v].
  - split; [done|]. intros (ds & e & H & [Hne _] & _). destruct ds; done.
  - pose proof Ha as Ha'. apply list.Forall_cons in Ha' as [Hc Hv]. rewrite number_loop_cons by done. split.
    + intros H. assert (is_digit c /\ number_loop v 2 = true) as [Hd H2].
      { revert H. unfold is_digit. by_class c; try done; intros; split; done || lia. }
      apply in_fraction in H2 as (ds & e & -> & Hds & He); [|done]. exists (c :: ds), e.
      repeat split; [done|by constructor|done].
    + intros (ds & e & Hv' & [Hne Hd] & He). destruct ds as [|c' ds]; [done|]. injection Hv' as -> ->.
      apply list.Forall_cons in Hd as [Hdc Hd]. rewrite class_digit by done.
      assert (number_loop (ds ++ e) 2 = true) as H by (apply in_fraction; eauto). by destruct (code c' =? 48).
Qed.

Lemma frac_or_end s v :
  ascii v -> s = 0 \/ s = 1 -> match v with [] => True | c :: _ => ~ is_digit c end ->
  number_loop v s = true <-> exists fr e, v = fr ++ e /\ frac_part fr /\ exp_part e.
Proof.
  intros Ha Hs Hv. split.
  - intros H. destruct v as [|c v]; [by exists [], []; repeat split; left|].
    destruct (decide (code c = 46)) as [Hp|Hp].
    + apply list.Forall_cons in Ha as [Hc Ha]. rewrite number_loop_cons in H by done.
      assert (number_loop v 6 = true) as H6.
      { revert H. by_class c; try lia; by destruct Hs as [-> | ->]. }
      apply after_point in H6 as (ds & e & -> & Hd & He); [|done]. exists (c :: ds), e.
      repeat split; [|done]. right. by exists c, ds.
    + exists [], (c :: v). repeat split; [by left|]. apply (exponent_or_end s); [done|tauto|done|done].
  - intros (fr & e & -> & Hf & He). destruct Hf as [->|(c & ds & -> & Hp & Hd)]; simpl app in *.
    + apply exponent_or_end; [done|tauto|by apply exp_part_head|done].
    + apply list.Forall_cons in Ha as [Hc Ha]. rewrite number_loop_cons by done.
      assert (number_loop (ds ++ e) 6 = true) as H by (apply after_point; eauto).
      by_class c; try lia. by destruct Hs as [-> | ->].
Qed.

(** Behind the sign: the state [s] is 4 or 5. *)
Lemma unsigned_number s v :
  ascii v -> s = 4 \/ s = 5 -> match v with [] => True | c :: _ => code c <> 45 end ->
  number_loop v s = true <->
  exists i fr e, v = i ++ fr ++ e /\ int_part i /\ frac_part fr /\ exp_part e.
Proof.
  intros Ha Hs Hm. destruct v as [|c v].
  - split; [by destruct Hs as [-> | ->]|]. intros (i & fr & e & H & Hi & _).
    destruct Hi as [(c & -> & _)|(c & ds & -> & _)]; done.
  - pose proof Ha as Ha'. apply list.Forall_cons in Ha' as [Hc Hv]. rewrite number_loop_cons by done.
    assert (nth (char_class (code c)) (row s) (-1)
            = if Nat.eqb (char_class (code c)) 0 then 1 else if Nat.eqb (char_class (code c)) 1 then 0 else -1) as ->.
    { by_class c; try lia; by destruct Hs as [-> | ->]. }
    cbv zeta. split.
    + by_class c; try done; intros H.
      * destruct (split_digits v) as (ds & r & -> & Hd & Hr). rewrite loop_digits in H by auto.
        apply Forall_app in Hv as [_ Hv]. apply frac_or_end in H as (fr & e & -> & Hf & He); [|done|auto|done].
        exists (c :: ds), fr, e. repeat split; [|done|done]. right. by exists c, ds.
      * apply frac_or_end in H as (fr & e & -> & Hf & He); [|done|auto|].
        -- exists [c], fr, e. repeat split; [|done|done]. left. by exists c.
        -- destruct v as [|d v]; [done|]. intros Hd. apply list.Forall_cons in Hv as [Hdc _].
           rewrite number_loop_cons, class_digit in H by done. by destruct (code d =? 48).
    + intros (i & fr & e & Hv' & Hi & Hf & He).
      assert (match fr ++ e with [] => True | c :: _ => ~ is_digit c end) as Hhead.
      { destruct Hf as [->|(p & ds & -> & Hp & _)].
        - apply exp_part_head in He. simpl. destruct e; tauto.
        - simpl. unfold is_digit. lia. }
      destruct Hi as [(c' & -> & Hz)|(c' & ds & -> & Hz & Hd)]; injection Hv' as -> ->.
      * by_class c'; try lia. apply frac_or_end; [done|auto|done|eauto].
      * by_class c'; try lia. rewrite loop_digits by auto. apply Forall_app in Hv as [_ Hv].
        apply frac_or_end; [done|auto|done|eauto].
Qed.

(** C32: the automaton of [spa_json_is_json_number] decides the grammar of
    JSON numbers: on a text of 7-bit characters it accepts exactly an optional
    minus, an integer part without leading zeros, an optional fraction with at
    least one digit and an optional exponent with an optional sign and at least
    one digit. *)
Theorem json_number_grammar v : ascii v -> spa_json_is_json_number v = true <-> json_number v.
Proof.
  intros Ha. unfold spa_json_is_json_number, json_number.
  destruct v as [|c v].
  { split; [done|]. intros (m & i & fr & e & H & _ & Hi & _). symmetry in H. apply app_eq_nil in H as [_ H].
    apply app_eq_nil in H as [-> _]. by destruct Hi as [(? & ? & _)|(? & ? & ? & _)]. }
  destruct (decide (code c = 45)) as [Hm|Hm].
  - pose proof Ha as Ha'. apply list.Forall_cons in Ha' as [Hc Hv].
    assert (number_loop (c :: v) 4 = number_loop v 5) as ->.
    { rewrite number_loop_cons by done. by_class c; done || lia. }
    assert (match v with [] => True | c :: _ => code c <> 45 end \/ exists d r, v = d :: r /\ code d = 45)
      as [Hh|(d & r & -> & Hd)] by (destruct v as [|d r]; [auto|destruct (Z.eq_dec (code d) 45); eauto]).
    + rewrite unsigned_number by auto. split.
      * intros (i & fr & e & -> & Hi & Hf & He). exists [c], i, fr, e. repeat split; eauto.
      * intros (m & i & fr & e & H & [->|(c' & -> & Hc')] & Hi & Hf & He).
        -- exfalso. destruct Hi as [(x & -> & Hx)|(x & ds & -> & Hx & _)]; injection H as -> _; lia.
        -- injection H as _ ->. by exists i, fr, e.
    + apply list.Forall_cons in Hv as [Hdc _].
      rewrite number_loop_cons by done. split; [by_class d; done || lia|].
      intros (m & i & fr & e & H & [->|(c' & -> & Hc')] & Hi & _); exfalso;
        destruct Hi as [(x & -> & Hx)|(x & ds & -> & Hx & _)]; simpl in H; injection H; intros; subst; lia.
  - rewrite unsigned_number by auto. split.
    + intros (i & fr & e & -> & Hi & Hf & He). exists [], i, fr, e. repeat split; eauto.
    + intros (m & i & fr & e & H & [->|(c' & -> & Hc')] & Hi & Hf & He).
      * by exists i, fr, e.
      * injection H as -> _. lia.
Qed.

Lemma json_number_grammar_witness : ascii (map to_byte [45; 48; 46; 53; 101; 43; 51]) /\
  json_number (map to_byte [45; 48; 46; 53; 101; 43; 51]).
Proof.
  assert (ascii (map to_byte [45; 48; 46; 53; 101; 43; 51])) as Ha by (repeat constructor).
  split; [exact Ha|]. by apply (json_number_grammar _ Ha).
Defined.

(** The mask makes the automaton take a byte of 8 bits for the character with
    its lower 7 bits: the byte 0xb1 is taken for a '1'. *)
Lemma number_beyond_ascii :
  spa_json_is_json_number [to_byte 0xb1] = true /\ ~ json_number [to_byte 0xb1].
Proof.
  split; [done|]. intros (m & i & fr & e & H & [->|(c & -> & Hc)] & Hi & _).
  - destruct Hi as [(c & -> & Hc)|(c & ds & -> & Hc & _)]; injection H as <- _; vm_compute in Hc; lia || (by destruct Hc).
  - injection H as <- _. by vm_compute in Hc.
Qed.
