(* ===== verification/JsonStack.v ===== *)
(** * Iterators and their parents

    An iterator of [spa/include/spa/utils/json-core.h] that was entered from
    another one moves its parent when its container closes and stops it with an
    error.  The iterators of a chain stay inside their text, each behind the
    ones it was entered from, whatever the calls on the last one: what the loops
    over nested containers terminate by. *)
From S2P Require Import Prelude Bytes CString Json JsonProofs.
#[local] Open Scope Z_scope.

(** [p] is in the chain of an iterator at [cur] whose text ends at [stop]. *)
Record above (text : list byte) (cur stop : Z) (p : spa_json) : Prop := {
  above_ok : iter_ok text p;
  above_end : j_end p = stop;
  above_cur : j_cur p <= cur }.

(** A chain in order: every iterator behind the one it was entered from. *)
Fixpoint chain (text : list byte) (cur stop : Z) (ps : list spa_json) : Prop :=
  match ps with
  | [] => True
  | p :: ps => above text cur stop p /\ chain text (j_cur p) stop ps
  end.

Record stack_ok (text : list byte) (st : json_stack) : Prop := {
  stack_top : iter_ok text (top st);
  stack_up : chain text (j_cur (top st)) (j_end (top st)) (up st) }.

(** The chain after some calls on the last iterator. *)
Record stack_later (text : list byte) (st st' : json_stack) : Prop := {
  sl_later : later text st st';
  sl_up : Forall2 (fun p p' => j_cur p <= j_cur p') (up st) (up st');
  sl_ok : stack_ok text st' }.

Lemma stack_later_trans text st st' st'' :
  stack_later text st st' -> stack_later text st' st'' -> stack_later text st st''.
Proof.
  intros [? H1 ?] [? H2 ?]. split; [by eapply later_trans| |done].
  clear -H1 H2. revert H2. generalize (up st''). induction H1; inversion 1; subst; constructor; [lia|auto].
Qed.

Lemma stack_later_refl text st : stack_ok text st -> stack_later text st st.
Proof.
  intros [H ?]. split; [constructor; done || lia| |by split]. apply Forall_Forall2_diag, list.Forall_forall. lia.
Qed.

(** [p'] is the parent [p] moved to the place of its child. *)
Definition dragged (cur : Z) (p p' : spa_json) : Prop :=
  j_cur p' = cur /\ j_end p' = j_end p /\ j_depth p' = j_depth p /\
  (settled (j_state p) -> settled (j_state p')).

(** The first iterators of a chain are moved, the others are as they were. *)
Inductive drags (cur : Z) : list spa_json -> list spa_json -> Prop :=
  | drags_none ps : drags cur ps ps
  | drags_first p p' ps ps' : dragged cur p p' -> drags cur ps ps' -> drags cur (p :: ps) (p' :: ps').
#[local] Hint Constructors drags : core.

Lemma drags_chain text cur cur' stop ps ps' : cur <= cur' -> 0 <= cur' <= stop ->
  chain text cur stop ps -> drags cur' ps ps' ->
  chain text cur' stop ps' /\ Forall2 (fun p p' => j_cur p <= j_cur p') ps ps'.
Proof.
  intros Hc Hs Hch Hd. revert cur Hc Hch.
  induction Hd as [ps|p p' ps ps' (E1 & E2 & E3 & E4) _ IH]; intros cur Hc Hch.
  - split; [|apply Forall_Forall2_diag, list.Forall_forall; lia].
    destruct ps as [|p ps]; [done|]. destruct Hch as [[? ? ?] ?]. split; [|done]. split; done || lia.
  - destruct Hch as [[[? ? ? ?] ? ?] Hch]. destruct (IH (j_cur p)) as [? ?]; [lia|done|]. split.
    + split; [|by rewrite E1]. split; [split|congruence|lia]; rewrite ?E1, ?E2, ?E3; auto; lia.
    + constructor; [lia|done].
Qed.

Lemma stack_moved text st st' : stack_ok text st -> later text st st' ->
  drags (j_cur (top st')) (up st) (up st') -> stack_later text st st'.
Proof.
  intros [Hok Hup] Hl H. pose proof Hl as [He Hc Hok']. pose proof (iter_pos _ _ Hok').
  destruct (drags_chain text (j_cur (top st)) (j_cur (top st')) (j_end (top st)) (up st) (up st'))
    as [? ?]; [lia|lia|done|done|]. split; [done|done|]. split; [done|]. by rewrite He.
Qed.

Lemma propagate_dragged err cur parent ps : drags cur ps (propagate err cur parent ps).
Proof.
  revert parent. induction ps as [|p ps IH]; intros parent; destruct parent; cbn [propagate]; auto.
  destruct (j_state p); [|auto]. by apply drags_first; [|apply IH].
Qed.

Lemma tell_parent_dragged st : drags (j_cur (top st)) (up st) (up (tell_parent st)).
Proof.
  unfold tell_parent. destruct (j_parent (top st)); auto.
  destruct (up st) as [|p ps] eqn:E; [by rewrite E|]. by apply drags_first.
Qed.

Lemma scan_end_dragged s st : let st' := (scan_end s st).2 in drags (j_cur (top st')) (up st) (up st').
Proof.
  unfold scan_end. destruct (s_depth s =? 0), (j_parent (top st)), (s_kind s); try case_if;
    apply propagate_dragged || apply drags_none.
Qed.

Lemma scan_loop_dragged text n : forall s st r v st', scan_loop text n s st = Ret (r, v, st') ->
  drags (j_cur (top st')) (up st) (up st').
Proof.
  induction n as [|n IH]; intros s st r v st'; cbn [scan_loop].
  - pose proof (scan_end_dragged s st). destruct (scan_end s st) as [? ?]. by intros [= _ _ ->].
  - destruct (text !! _); [|done]. destruct (scan_char _ _ _).
    + apply IH.
    + intros [= _ _ <-]. apply drags_none.
    + intros [= _ _ <-]. rewrite tell_parent_top. apply (tell_parent_dragged (scanned _ st)).
    + intros [= _ _ <-]. apply propagate_dragged.
Qed.

Lemma next_dragged text st t st' : spa_json_next text st = (Ret t, st') ->
  drags (j_cur (top st')) (up st) (up st').
Proof.
  unfold spa_json_next. destruct (j_state (top st)) as [k f|e].
  - destruct (scan_loop _ _ _ _) as [[[? ?] ?]| |] eqn:E; try done. intros [= _ <-]. by eapply scan_loop_dragged.
  - intros [= _ <-]. apply drags_none.
Qed.

(** ** The calls on the last iterator *)

Lemma next_stack text st :
  stack_ok text st ->
  st_wp (spa_json_next text)
        (fun t st' => stack_later text st st' /\ -1 <= t_len t /\ (0 < t_len t -> token_of text st st' t))
        (fun _ => False) st.
Proof.
  intros Hok. pose proof (next_later text st (stack_top _ _ Hok)) as H. unfold st_wp in *.
  destruct (spa_json_next text st) as [[t| |] st'] eqn:E; try done. destruct H as (? & ? & ?).
  split; [|done]. apply stack_moved; [done|done|]. by eapply next_dragged.
Qed.

(** The chain stays in order through [m], whatever it returns. *)
Definition in_order {A} (text : list byte) (m : ST json_stack A) : Prop :=
  forall st, stack_ok text st -> match m st with (Ret _, st') => stack_later text st st' | _ => True end.

Lemma in_order_next text : in_order text (spa_json_next text).
Proof.
  intros st Hok. pose proof (next_stack text st Hok) as H. unfold st_wp in H.
  by destruct (spa_json_next text st) as [[] ]; [destruct H| |].
Qed.

Lemma in_order_ret {A} text (a : A) : in_order text (st_ret a).
Proof. intros st Hok. by apply stack_later_refl. Qed.

Lemma in_order_bind {A B} text (m : ST json_stack A) (k : A -> ST json_stack B) :
  in_order text m -> (forall a, in_order text (k a)) -> in_order text (st_bind m k).
Proof.
  intros Hm Hk st Hok. unfold st_bind. specialize (Hm st Hok). destruct (m st) as [[a| |] st1]; [|done|done].
  specialize (Hk a st1 (sl_ok _ _ _ Hm)). destruct (k a st1) as [[b| |] st2]; [|done|done].
  by eapply stack_later_trans.
Qed.

Lemma in_order_get_string text maxlen : in_order text (spa_json_get_string text maxlen).
Proof.
  apply in_order_bind; [apply in_order_next|]. intros t. case_if; [apply in_order_ret|].
  intros st Hok. destruct (spa_json_parse_stringn _ _ _); [by apply stack_later_refl..|done].
Qed.

Lemma in_order_object_next text maxkeylen : in_order text (spa_json_object_next text maxkeylen).
Proof.
  intros st. unfold spa_json_object_next. generalize (json_fuel st). intros fuel. revert st.
  induction fuel as [|fuel IH]; [done|]. cbn [object_next_loop].
  apply in_order_bind; [apply in_order_get_string|]. intros [key|r].
  - apply in_order_bind; [apply in_order_next|]. intros t. case_if; apply in_order_ret.
  - case_if; [apply in_order_ret|]. apply in_order_bind; [apply in_order_next|]. intros t.
    case_if; [apply in_order_ret|exact IH].
Qed.

Lemma in_order_wp {A} text (m : ST json_stack A) Q st :
  stack_ok text st -> in_order text m -> st_wp m Q (fun _ => False) st ->
  st_wp m (fun a st' => stack_later text st st' /\ Q a st') (fun _ => False) st.
Proof. intros Hok Hm H. specialize (Hm st Hok). unfold st_wp in *. by destruct (m st) as [[] ]. Qed.

Lemma object_next_stack text maxkeylen st : stack_ok text st ->
  st_wp (spa_json_object_next text maxkeylen)
        (fun r st' => stack_later text st st' /\ later text st st' /\
           match r with
           | Member key value => zlen key < maxkeylen /\ token_of text st st' value
           | NoMember res => res <= 0
           end) (fun _ => False) st.
Proof.
  intros Hok. apply in_order_wp; [done|apply in_order_object_next|].
  apply object_next_later; [apply Hok|]. eapply json_fuel_rounds, Hok.
Qed.

Lemma get_string_stack text maxlen st : stack_ok text st ->
  st_wp (spa_json_get_string text maxlen)
        (fun g st' => stack_later text st st' /\ later text st st' /\
           match g with
           | Got s => j_cur (top st) < j_cur (top st') /\ zlen s < maxlen
           | NotGot r => r <= 0 /\ (r = - ENOSPC -> j_cur (top st) < j_cur (top st'))
           end) (fun _ => False) st.
Proof.
  intros Hok. apply in_order_wp; [done|apply in_order_get_string|]. apply get_string_later, Hok.
Qed.

(** Entering a container, with the token's bytes read inside the text. *)
Lemma enter_container_stack text type st : stack_ok text st ->
  st_wp (spa_json_enter_container text type)
        (fun res st' => stack_later text st st' /\ (0 < res -> j_cur (top st) < j_cur (top st')))
        (fun _ => False) st.
Proof.
  intros Hok. unfold spa_json_enter_container. apply st_wp_bind.
  eapply st_wp_mono; [by apply next_stack| |done]. intros t st' (Hl & Hlen & Ht). split; [done|].
  case_if; [lia|]. intros _. eapply token_of_lt, Ht. lia.
Qed.

(** A sub-iterator of a chain is in a chain, and leaving it goes back to where the
    parent was or further. *)
Lemma enter_stack text st : stack_ok text st -> stack_ok text (spa_json_enter st).
Proof.
  intros [Hok Hup]. pose proof Hok as [? ? ? ?]. split; cbn.
  - split; cbn; try done. by apply enter_settled.
  - constructor; [by split|done].
Qed.

Lemma leave_stack text st sub : stack_later text (spa_json_enter st) sub ->
  exists it ps, up sub = it :: ps /\ stack_ok text (mk_stack it ps) /\
                j_end it = j_end (top st) /\ j_cur (top st) <= j_cur it.
Proof.
  intros [[He _ _] Hup [_ Hab]]. cbn [up top j_end spa_json_enter] in Hup, He.
  destruct (up sub) as [|it ps]; [by inversion Hup|]. exists it, ps. split; [done|].
  destruct Hab as [[Hit Hend _] Hch]. split; [split; [done|]; cbn; by rewrite Hend|].
  split; [congruence|]. by inversion Hup.
Qed.
