(* ===== verification/PodBody.v ===== *)
(** * POD headers and typed bodies

    Models [spa/include/spa/pod/pod.h] (the header layout and its size macros),
    the basic type numbers of [spa/include/spa/utils/type.h] and the accessors
    of [spa/include/spa/pod/body.h].  A [const void *body] is an offset into a
    memory region; each accessor checks the header it is given and then loads
    from the region.  Floats and doubles are their bit patterns; pointers are
    64-bit words. *)
From S2P Require Import Prelude Bytes.

(** ** Types *)

Definition SPA_TYPE_None : Z := 1.
Definition SPA_TYPE_Bool : Z := 2.
Definition SPA_TYPE_Id : Z := 3.
Definition SPA_TYPE_Int : Z := 4.
Definition SPA_TYPE_Long : Z := 5.
Definition SPA_TYPE_Float : Z := 6.
Definition SPA_TYPE_Double : Z := 7.
Definition SPA_TYPE_String : Z := 8.
Definition SPA_TYPE_Bytes : Z := 9.
Definition SPA_TYPE_Rectangle : Z := 10.
Definition SPA_TYPE_Fraction : Z := 11.
Definition SPA_TYPE_Bitmap : Z := 12.
Definition SPA_TYPE_Array : Z := 13.
Definition SPA_TYPE_Struct : Z := 14.
Definition SPA_TYPE_Object : Z := 15.
Definition SPA_TYPE_Sequence : Z := 16.
Definition SPA_TYPE_Pointer : Z := 17.
Definition SPA_TYPE_Fd : Z := 18.
Definition SPA_TYPE_Choice : Z := 19.
Definition SPA_TYPE_Pod : Z := 20.

Definition SPA_CHOICE_None : Z := 0.
Definition SPA_CHOICE_Range : Z := 1.
Definition SPA_CHOICE_Step : Z := 2.
Definition SPA_CHOICE_Enum : Z := 3.
Definition SPA_CHOICE_Flags : Z := 4.

Definition SPA_POD_PROP_FLAG_MANDATORY : Z := 8.
Definition SPA_POD_PROP_FLAG_DONT_FIXATE : Z := 16.
Definition SPA_POD_PROP_FLAG_DROP : Z := 32.

Definition SPA_POD_MAX_SIZE : Z := 2 ^ 20.

(** ** Headers *)

Record spa_pod : Type := mk_pod { pod_size : Z; pod_type : Z }.

(** [SPA_POD_SIZE], a [uint64_t]. *)
Definition SPA_POD_SIZE (p : spa_pod) : Z := 8 + pod_size p.

Definition SPA_POD_IS_VALID (p : spa_pod) : bool := pod_size p <? SPA_POD_MAX_SIZE.
Definition SPA_POD_CHECK_TYPE (p : spa_pod) (t : Z) : bool :=
  SPA_POD_IS_VALID p && (pod_type p =? t).
Definition SPA_POD_CHECK (p : spa_pod) (t size : Z) : bool :=
  SPA_POD_CHECK_TYPE p t && (size <=? pod_size p).

Record spa_rectangle : Type := mk_rectangle { width : Z; height : Z }.
Record spa_fraction : Type := mk_fraction { num : Z; denom : Z }.

Record spa_pod_array : Type := mk_array { arr_pod : spa_pod; arr_child : spa_pod }.
Record spa_pod_choice : Type := mk_choice {
  choice_pod : spa_pod;
  choice_type : Z;
  choice_flags : Z;
  choice_child : spa_pod }.
Record spa_pod_object : Type := mk_object {
  object_pod : spa_pod;
  object_type : Z;
  object_id : Z }.
Record spa_pod_sequence : Type := mk_sequence {
  seq_pod : spa_pod;
  seq_unit : Z;
  seq_pad : Z }.
Record spa_pod_prop : Type := mk_prop {
  prop_key : Z;
  prop_flags : Z;
  prop_value : spa_pod }.
Record spa_pod_control : Type := mk_control {
  control_offset : Z;
  control_type : Z;
  control_value : spa_pod }.

(** A pod header as it lies in memory. *)
Definition load_pod (m : mem) (off : Z) : outcome spa_pod :=
  let! size := load_u32 m off in
  let! type := load_u32 m (off + 4) in
  Ret (mk_pod size type).

(** ** Sizes *)

Definition spa_pod_type_size (type : Z) : Z :=
  if existsb (Z.eqb type) [SPA_TYPE_None; SPA_TYPE_Bytes; SPA_TYPE_Struct; SPA_TYPE_Pod] then 0
  else if type =? SPA_TYPE_String then 1
  else if existsb (Z.eqb type) [SPA_TYPE_Bool; SPA_TYPE_Int] then 4
  else if type =? SPA_TYPE_Id then 4
  else if type =? SPA_TYPE_Long then 8
  else if type =? SPA_TYPE_Float then 4
  else if type =? SPA_TYPE_Double then 8
  else if type =? SPA_TYPE_Rectangle then 8
  else if type =? SPA_TYPE_Fraction then 8
  else if type =? SPA_TYPE_Bitmap then 1
  else if type =? SPA_TYPE_Array then 8
  else if type =? SPA_TYPE_Object then 8
  else if type =? SPA_TYPE_Sequence then 8
  else if type =? SPA_TYPE_Pointer then 16
  else if type =? SPA_TYPE_Fd then 8
  else if type =? SPA_TYPE_Choice then 16
  else 0.

(** [spa_pod_choice_n_values]: the result code with [min] and [max]. *)
Definition spa_pod_choice_n_values (choice_type : Z) : Z * Z * Z :=
  if choice_type =? SPA_CHOICE_Enum then (1, 2, UINT32_MAX)
  else if choice_type =? SPA_CHOICE_Range then (1, 3, 3)
  else if choice_type =? SPA_CHOICE_Step then (1, 4, 4)
  else if existsb (Z.eqb choice_type) [SPA_CHOICE_None; SPA_CHOICE_Flags] then (1, 1, 1)
  else (0, 1, UINT32_MAX).

(** [spa_pod_body_from_data]: [size] and [maxsize] are [size_t], [offset] is
    a signed 64-bit [off_t]. *)
Definition spa_pod_body_from_data (m : mem) (data maxsize offset size : Z)
  : outcome (spa_pod * Z) :=
  if offset <? 0 then Err EINVAL
  else if UINT32_MAX <? offset then Err EINVAL
  else if (size <? 8) || (maxsize <? size) || (maxsize - size <? u32 offset) then Err EINVAL
  else
    let! pod := load_pod m (data + offset) in
    if negb (SPA_POD_IS_VALID pod) then Err EINVAL
    else if size - 8 <? pod_size pod then Err EINVAL
    else Ret (pod, data + offset + 8).

(** ** Type tests *)

Definition spa_pod_is_none (p : spa_pod) : bool := SPA_POD_CHECK_TYPE p SPA_TYPE_None.
Definition spa_pod_is_bool (p : spa_pod) : bool := SPA_POD_CHECK p SPA_TYPE_Bool 4.
Definition spa_pod_is_id (p : spa_pod) : bool := SPA_POD_CHECK p SPA_TYPE_Id 4.
Definition spa_pod_is_int (p : spa_pod) : bool := SPA_POD_CHECK p SPA_TYPE_Int 4.
Definition spa_pod_is_long (p : spa_pod) : bool := SPA_POD_CHECK p SPA_TYPE_Long 8.
Definition spa_pod_is_float (p : spa_pod) : bool := SPA_POD_CHECK p SPA_TYPE_Float 4.
Definition spa_pod_is_double (p : spa_pod) : bool := SPA_POD_CHECK p SPA_TYPE_Double 8.
Definition spa_pod_is_string (p : spa_pod) : bool := SPA_POD_CHECK p SPA_TYPE_String 1.
Definition spa_pod_is_bytes (p : spa_pod) : bool := SPA_POD_CHECK_TYPE p SPA_TYPE_Bytes.
Definition spa_pod_is_pointer (p : spa_pod) : bool := SPA_POD_CHECK p SPA_TYPE_Pointer 16.
Definition spa_pod_is_fd (p : spa_pod) : bool := SPA_POD_CHECK p SPA_TYPE_Fd 8.
Definition spa_pod_is_rectangle (p : spa_pod) : bool := SPA_POD_CHECK p SPA_TYPE_Rectangle 8.
Definition spa_pod_is_fraction (p : spa_pod) : bool := SPA_POD_CHECK p SPA_TYPE_Fraction 8.
Definition spa_pod_is_bitmap (p : spa_pod) : bool := SPA_POD_CHECK p SPA_TYPE_Bitmap 1.
Definition spa_pod_is_array (p : spa_pod) : bool := SPA_POD_CHECK p SPA_TYPE_Array 8.
Definition spa_pod_is_choice (p : spa_pod) : bool := SPA_POD_CHECK p SPA_TYPE_Choice 16.
Definition spa_pod_is_struct (p : spa_pod) : bool := SPA_POD_CHECK_TYPE p SPA_TYPE_Struct.
Definition spa_pod_is_object (p : spa_pod) : bool := SPA_POD_CHECK p SPA_TYPE_Object 8.
Definition spa_pod_is_sequence (p : spa_pod) : bool := SPA_POD_CHECK p SPA_TYPE_Sequence 8.

(** ** Scalar accessors *)

Definition spa_pod_body_get_bool (p : spa_pod) (m : mem) (body : Z) : outcome bool :=
  if negb (spa_pod_is_bool p) then Err EINVAL
  else let! v := load_i32 m body in Ret (negb (v =? 0)).

Definition spa_pod_body_get_id (p : spa_pod) (m : mem) (body : Z) : outcome Z :=
  if negb (spa_pod_is_id p) then Err EINVAL else load_u32 m body.

Definition spa_pod_body_get_int (p : spa_pod) (m : mem) (body : Z) : outcome Z :=
  if negb (spa_pod_is_int p) then Err EINVAL else load_i32 m body.

Definition spa_pod_body_get_long (p : spa_pod) (m : mem) (body : Z) : outcome Z :=
  if negb (spa_pod_is_long p) then Err EINVAL else load_i64 m body.

Definition spa_pod_body_get_float (p : spa_pod) (m : mem) (body : Z) : outcome Z :=
  if negb (spa_pod_is_float p) then Err EINVAL else load_u32 m body.

Definition spa_pod_body_get_double (p : spa_pod) (m : mem) (body : Z) : outcome Z :=
  if negb (spa_pod_is_double p) then Err EINVAL else load_u64 m body.

(** The string accessor hands out a pointer to the body after checking that
    its last byte is NUL. *)
Definition spa_pod_body_get_string (p : spa_pod) (m : mem) (body : Z) : outcome Z :=
  if negb (spa_pod_is_string p) then Err EINVAL
  else
    let! c := load_u8 m (body + (pod_size p - 1)) in
    if negb (c =? 0) then Err EINVAL else Ret body.

(** [strncpy(dest, s, n)]: at most [n] bytes of the string, zero filled. *)
Definition strncpy (s : list byte) (n : Z) : list byte :=
  let t := take (Z.to_nat n) s in t ++ zeroes (n - zlen t).

(** [spa_pod_body_copy_string]: the result code and the new contents of
    [dest], a buffer of [maxlen] bytes. *)
Definition spa_pod_body_copy_string (p : spa_pod) (m : mem) (body : Z)
    (dest : list byte) (maxlen : Z) : outcome (Z * list byte) :=
  match spa_pod_body_get_string p m body with
  | Fault => Fault
  | Err _ => Ret (- EINVAL, dest)
  | Ret s =>
    if maxlen <? 1 then Ret (- EINVAL, dest)
    else if maxlen <? pod_size p then Ret (- ENOSPC, overwrite dest 0 [Byte.x00])
    else
      let! str := load_cstr m s in
      Ret (0, strncpy str (maxlen - 1) ++ [Byte.x00])
  end.

Definition spa_pod_body_get_bytes (p : spa_pod) (m : mem) (body : Z) : outcome (Z * Z) :=
  if negb (spa_pod_is_bytes p) then Err EINVAL else Ret (body, pod_size p).

Definition spa_pod_body_get_pointer (p : spa_pod) (m : mem) (body : Z) : outcome (Z * Z) :=
  if negb (spa_pod_is_pointer p) then Err EINVAL
  else
    let! type := load_u32 m body in
    let! value := load_u64 m (body + 8) in
    Ret (type, value).

Definition spa_pod_body_get_fd (p : spa_pod) (m : mem) (body : Z) : outcome Z :=
  if negb (spa_pod_is_fd p) then Err EINVAL else load_i64 m body.

Definition spa_pod_body_get_rectangle (p : spa_pod) (m : mem) (body : Z)
  : outcome spa_rectangle :=
  if negb (spa_pod_is_rectangle p) then Err EINVAL
  else
    let! w := load_u32 m body in
    let! h := load_u32 m (body + 4) in
    Ret (mk_rectangle w h).

Definition spa_pod_body_get_fraction (p : spa_pod) (m : mem) (body : Z)
  : outcome spa_fraction :=
  if negb (spa_pod_is_fraction p) then Err EINVAL
  else
    let! n := load_u32 m body in
    let! d := load_u32 m (body + 4) in
    Ret (mk_fraction n d).

Definition spa_pod_body_get_bitmap (p : spa_pod) (m : mem) (body : Z) : outcome Z :=
  if negb (spa_pod_is_bitmap p) then Err EINVAL else Ret body.

(** ** Containers *)

Definition spa_pod_body_get_array (p : spa_pod) (m : mem) (body : Z)
  : outcome (spa_pod_array * Z) :=
  if negb (spa_pod_is_array p) then Err EINVAL
  else
    let! child := load_pod m body in
    Ret (mk_array p child, body + 8).

(** [spa_pod_array_body_get_values]: [(n_values, val_size, val_type)]. *)
Definition spa_pod_array_body_get_values (arr : spa_pod_array) : Z * Z * Z :=
  let child_size := pod_size (arr_child arr) in
  let n_values :=
    if child_size =? 0 then 0
    else u32 (u64 (pod_size (arr_pod arr) - 8) / child_size) in
  let val_type := pod_type (arr_child arr) in
  let n_values := if child_size <? spa_pod_type_size val_type then 0 else n_values in
  (n_values, child_size, val_type).

(** [spa_pod_body_get_array_values] returns NULL (here [None]) when the pod is
    not an array. *)
Definition spa_pod_body_get_array_values (p : spa_pod) (m : mem) (body : Z)
  : outcome (option (Z * (Z * Z * Z))) :=
  match spa_pod_body_get_array p m body with
  | Fault => Fault
  | Err _ => Ret None
  | Ret (arr, body') => Ret (Some (body', spa_pod_array_body_get_values arr))
  end.

(** [spa_pod_body_copy_array]: the number of values copied and their bytes. *)
Definition spa_pod_body_copy_array (p : spa_pod) (m : mem) (body type size max_values : Z)
  : outcome (Z * list byte) :=
  let! v := spa_pod_body_get_array_values p m body in
  match v with
  | None => Ret (0, [])
  | Some (vals, (n_values, val_size, val_type)) =>
    if (max_values =? 0) || negb (val_type =? type) || negb (val_size =? size) then Ret (0, [])
    else
      let n := Z.min n_values max_values in
      let! bs := load m vals (u32 (val_size * n)) in
      Ret (n, bs)
  end.

Definition spa_pod_body_get_choice (p : spa_pod) (m : mem) (body : Z)
  : outcome (spa_pod_choice * Z) :=
  if negb (spa_pod_is_choice p) then Err EINVAL
  else
    let! type := load_u32 m body in
    let! flags := load_u32 m (body + 4) in
    let! child := load_pod m (body + 8) in
    Ret (mk_choice p type flags child, body + 16).

(** [spa_pod_choice_body_get_values]: [(n_values, choice, val_size, val_type)]. *)
Definition spa_pod_choice_body_get_values (c : spa_pod_choice) : Z * Z * Z * Z :=
  let child_size := pod_size (choice_child c) in
  let val_type := pod_type (choice_child c) in
  let n_values :=
    if child_size =? 0 then 0
    else u32 (u64 (pod_size (choice_pod c) - 16) / child_size) in
  let '(_, min, max) := spa_pod_choice_n_values (choice_type c) in
  let n_values :=
    if (n_values <? min) || (child_size <? spa_pod_type_size val_type) then 0
    else if max <? n_values then max else n_values in
  (n_values, choice_type c, child_size, val_type).

Definition spa_pod_body_get_object (p : spa_pod) (m : mem) (body : Z)
  : outcome (spa_pod_object * Z) :=
  if negb (spa_pod_is_object p) then Err EINVAL
  else
    let! type := load_u32 m body in
    let! id := load_u32 m (body + 4) in
    Ret (mk_object p type id, body + 8).

Definition spa_pod_body_get_sequence (p : spa_pod) (m : mem) (body : Z)
  : outcome (spa_pod_sequence * Z) :=
  if negb (spa_pod_is_sequence p) then Err EINVAL
  else
    let! unit := load_u32 m body in
    let! pad := load_u32 m (body + 4) in
    Ret (mk_sequence p unit pad, body + 8).
