(* ===== verification/PodBuilder.v ===== *)
(** * The POD builder

    Models [spa/include/spa/pod/builder.h] and the growing buffer of
    [spa/include/spa/pod/dynamic.h].  The buffer is a byte region whose length
    is [builder->size]; the chain of open frames is a list with the innermost
    frame first, so [frame->parent] is the tail.  [spa_pod_builder_pop] is
    called with the innermost frame, as the header's own [add_object],
    [add_struct] and [add_sequence] do.  The overflow callback is a function
    of the buffer and the requested size that returns its result code and the
    (possibly replaced) buffer.  Writes outside the buffer are a [Fault]. *)
From S2P Require Import Prelude Bytes PodBody.
From Stdlib Require Import Ascii.

Definition SPA_POD_BUILDER_FLAG_BODY : Z := 1.
Definition SPA_POD_BUILDER_FLAG_FIRST : Z := 2.

Record spa_pod_frame : Type := mk_frame {
  frame_pod : spa_pod;
  frame_offset : Z;
  frame_flags : Z }.

Record spa_pod_builder : Type := mk_builder {
  b_data : mem;
  b_offset : Z;
  b_flags : Z;
  b_frames : list spa_pod_frame;
  b_overflow : option (mem -> Z -> Z * mem) }.

Definition b_size (b : spa_pod_builder) : Z := zlen (b_data b).

(** [SPA_POD_BUILDER_INIT(buffer, size)]. *)
Definition spa_pod_builder_init (data : mem) : spa_pod_builder :=
  mk_builder data 0 0 [] None.

Definition spa_pod_builder_set_callbacks (f : mem -> Z -> Z * mem) (b : spa_pod_builder)
  : spa_pod_builder :=
  mk_builder (b_data b) (b_offset b) (b_flags b) (b_frames b) (Some f).

Definition spa_pod_builder_corrupted (b : spa_pod_builder) : bool := b_size b <? b_offset b.

Definition frame_add_size (n : Z) (f : spa_pod_frame) : spa_pod_frame :=
  mk_frame (mk_pod (u32 (pod_size (frame_pod f) + n)) (pod_type (frame_pod f)))
           (frame_offset f) (frame_flags f).
Definition frame_sub_size (n : Z) (f : spa_pod_frame) : spa_pod_frame :=
  mk_frame (mk_pod (pod_size (frame_pod f) - Z.min n (pod_size (frame_pod f)))
                   (pod_type (frame_pod f)))
           (frame_offset f) (frame_flags f).

(** The saved state holds the offset, the flags and the frame pointer, which
    is here the depth of the frame chain. *)
Record spa_pod_builder_state : Type := mk_bstate {
  bs_offset : Z;
  bs_flags : Z;
  bs_depth : nat }.

Definition spa_pod_builder_get_state (b : spa_pod_builder) : spa_pod_builder_state :=
  mk_bstate (b_offset b) (b_flags b) (length (b_frames b)).

Definition spa_pod_builder_reset (s : spa_pod_builder_state) (b : spa_pod_builder)
  : spa_pod_builder :=
  let size := u32 (b_offset b - bs_offset s) in
  let frames := drop (length (b_frames b) - bs_depth s) (b_frames b) in
  mk_builder (b_data b) (bs_offset s) (bs_flags s)
             (frame_sub_size size <$> frames) (b_overflow b).

(** [spa_pod_builder_deref]: the offset of the pod, or NULL. *)
Definition spa_pod_builder_deref (b : spa_pod_builder) (offset : Z) : outcome (option Z) :=
  if offset + 8 <=? b_size b then
    let! pod := load_pod (b_data b) offset in
    if (offset + SPA_POD_SIZE pod <=? b_size b) && SPA_POD_IS_VALID pod
    then Ret (Some offset) else Ret None
  else Ret None.

Definition spa_pod_builder_frame (b : spa_pod_builder) (f : spa_pod_frame) : option Z :=
  if frame_offset f + SPA_POD_SIZE (frame_pod f) <=? b_size b
  then Some (frame_offset f) else None.

Definition spa_pod_builder_push (pod : spa_pod) (offset : Z) (b : spa_pod_builder)
  : spa_pod_builder :=
  let frame := mk_frame pod offset (b_flags b) in
  let flags :=
    if (pod_type pod =? SPA_TYPE_Array) || (pod_type pod =? SPA_TYPE_Choice)
    then Z.lor SPA_POD_BUILDER_FLAG_FIRST SPA_POD_BUILDER_FLAG_BODY
    else b_flags b in
  mk_builder (b_data b) (b_offset b) flags (frame :: b_frames b) (b_overflow b).

(** ** Raw writes *)

Definition spa_pod_builder_raw (data : option (list byte)) (size : Z)
  : ST spa_pod_builder Z := fun b =>
  let offset := b_offset b in
  let total_size := offset + size in
  if (b_size b <? total_size) && (UINT32_MAX <? total_size) then (Ret (- ENOSPC), b)
  else
    let '(res, buf) :=
      if b_size b <? total_size then
        match b_overflow b with
        | Some overflow =>
            if offset <=? b_size b then overflow (b_data b) (u32 total_size)
            else (- ENOSPC, b_data b)
        | None => (- ENOSPC, b_data b)
        end
      else (0, b_data b) in
    let written :=
      match data with
      | Some src =>
          if res =? 0 then let! bs := load src 0 size in store buf offset bs else Ret buf
      | None => Ret buf
      end in
    match written with
    | Ret buf' =>
        (Ret res, mk_builder buf' (u32 total_size) (b_flags b)
                             (frame_add_size size <$> b_frames b) (b_overflow b))
    | _ => (Fault, b)
    end.

Definition spa_pod_builder_remove (size : Z) (b : spa_pod_builder) : spa_pod_builder :=
  mk_builder (b_data b) (b_offset b - Z.min size (b_offset b)) (b_flags b)
             (frame_sub_size size <$> b_frames b) (b_overflow b).

Definition spa_pod_builder_pad (size : Z) : ST spa_pod_builder Z :=
  let* b := st_get in
  if b_flags b =? SPA_POD_BUILDER_FLAG_BODY then st_ret 0
  else
    let size := u32 (round_up_n 32 size 8 - size) in
    if size =? 0 then st_ret 0 else spa_pod_builder_raw (Some (zeroes 8)) size.

(** The result of the last failing call wins: [if ((r = ...) < 0) res = r]. *)
Definition last_error (res r : Z) : Z := if r <? 0 then r else res.

Definition spa_pod_builder_raw_padded (data : option (list byte)) (size : Z)
  : ST spa_pod_builder Z :=
  let* res := spa_pod_builder_raw data size in
  let* r := spa_pod_builder_pad size in
  st_ret (last_error res r).

(** The bytes of a pod header. *)
Definition enc_pod (p : spa_pod) : list byte := le32 (pod_size p) ++ le32 (pod_type p).

(** [spa_pod_builder_pop] on the innermost frame; the result is the offset of
    the finished pod, or NULL when it did not fit. *)
Definition spa_pod_builder_pop : ST spa_pod_builder (option Z) :=
  let* b := st_get in
  (if flag_is_set (b_flags b) SPA_POD_BUILDER_FLAG_FIRST
   then spa_pod_builder_raw (Some (enc_pod (mk_pod 0 SPA_TYPE_None))) 8
   else st_ret 0) ;;;
  let* b := st_get in
  match b_frames b with
  | [] => st_lift Fault
  | frame :: parent =>
      let pod := spa_pod_builder_frame b frame in
      let* buf :=
        match pod with
        | Some off => st_lift (store (b_data b) off (enc_pod (frame_pod frame)))
        | None => st_ret (b_data b)
        end in
      st_put (mk_builder buf (b_offset b) (frame_flags frame) parent (b_overflow b)) ;;;
      let* _ := spa_pod_builder_pad (b_offset b) in
      st_ret pod
  end.

(** ** Primitives

    [pbytes] are the bytes at [p], of which the header part is written; it is
    the pod header, followed by the child header for an array. *)
Definition spa_pod_builder_primitive_body (p : spa_pod) (pbytes : list byte)
    (body : option (list byte)) (body_size : Z)
    (suffix : option (list byte)) (suffix_size : Z) : ST spa_pod_builder Z :=
  let size := u32 (SPA_POD_SIZE p - body_size - suffix_size) in
  let* b := st_get in
  let* res :=
    if b_flags b =? SPA_POD_BUILDER_FLAG_BODY then st_ret 0
    else
      st_put (mk_builder (b_data b) (b_offset b)
                         (flag_clear (b_flags b) SPA_POD_BUILDER_FLAG_FIRST)
                         (b_frames b) (b_overflow b)) ;;;
      spa_pod_builder_raw (Some pbytes) size in
  let* res :=
    if 0 <? body_size then
      let* r := spa_pod_builder_raw body body_size in st_ret (last_error res r)
    else st_ret res in
  let* res :=
    if 0 <? suffix_size then
      let* r := spa_pod_builder_raw suffix suffix_size in st_ret (last_error res r)
    else st_ret res in
  let* b := st_get in
  let* r := spa_pod_builder_pad (b_offset b) in
  st_ret (last_error res r).

(** [body] are the bytes that follow the header in memory. *)
Definition spa_pod_builder_primitive (p : spa_pod) (body : list byte)
  : ST spa_pod_builder Z :=
  spa_pod_builder_primitive_body p (enc_pod p) (Some body) (pod_size p) None 0.

Definition spa_pod_builder_none : ST spa_pod_builder Z :=
  spa_pod_builder_primitive (mk_pod 0 SPA_TYPE_None) [].

Definition spa_pod_builder_child (size type : Z) : ST spa_pod_builder Z :=
  let* b := st_get in
  st_put (mk_builder (b_data b) (b_offset b)
                     (flag_clear (b_flags b) SPA_POD_BUILDER_FLAG_FIRST)
                     (b_frames b) (b_overflow b)) ;;;
  spa_pod_builder_raw (Some (enc_pod (mk_pod size type))) 8.

Definition spa_pod_builder_bool (val : bool) : ST spa_pod_builder Z :=
  spa_pod_builder_primitive (mk_pod 4 SPA_TYPE_Bool) (le32 (if val then 1 else 0) ++ le32 0).

Definition spa_pod_builder_id (val : Z) : ST spa_pod_builder Z :=
  spa_pod_builder_primitive (mk_pod 4 SPA_TYPE_Id) (le32 val ++ le32 0).

Definition spa_pod_builder_int (val : Z) : ST spa_pod_builder Z :=
  spa_pod_builder_primitive (mk_pod 4 SPA_TYPE_Int) (le32 val ++ le32 0).

Definition spa_pod_builder_long (val : Z) : ST spa_pod_builder Z :=
  spa_pod_builder_primitive (mk_pod 8 SPA_TYPE_Long) (le64 val).

Definition spa_pod_builder_float (val : Z) : ST spa_pod_builder Z :=
  spa_pod_builder_primitive (mk_pod 4 SPA_TYPE_Float) (le32 val ++ le32 0).

Definition spa_pod_builder_double (val : Z) : ST spa_pod_builder Z :=
  spa_pod_builder_primitive (mk_pod 8 SPA_TYPE_Double) (le64 val).

Definition spa_pod_builder_write_string (str : list byte) (len : Z) : ST spa_pod_builder Z :=
  let* res := spa_pod_builder_raw (Some str) len in
  let* r := spa_pod_builder_raw (Some [Byte.x00]) 1 in
  let res := last_error res r in
  let* b := st_get in
  let* r := spa_pod_builder_pad (b_offset b) in
  st_ret (last_error res r).

Definition spa_pod_builder_string_len (str : list byte) (len : Z) : ST spa_pod_builder Z :=
  let p := mk_pod (u32 (len + 1)) SPA_TYPE_String in
  spa_pod_builder_primitive_body p (enc_pod p) (Some str) len (Some [Byte.x00]) 1.

(** A NULL string is written as the empty string. *)
Definition spa_pod_builder_string (str : option (list byte)) : ST spa_pod_builder Z :=
  let s := match str with Some s => s | None => [] end in
  spa_pod_builder_string_len s (u32 (zlen s)).

Definition spa_pod_builder_bytes (bytes : option (list byte)) (len : Z) : ST spa_pod_builder Z :=
  let p := mk_pod len SPA_TYPE_Bytes in
  spa_pod_builder_primitive_body p (enc_pod p) bytes len None 0.

Definition spa_pod_builder_reserve_bytes (len : Z) : ST spa_pod_builder (option Z) :=
  let* b := st_get in
  let offset := b_offset b in
  let* res := spa_pod_builder_bytes None len in
  if res <? 0 then st_ret None else st_ret (Some (offset + 8)).

Definition spa_pod_builder_pointer (type val : Z) : ST spa_pod_builder Z :=
  spa_pod_builder_primitive (mk_pod 16 SPA_TYPE_Pointer) (le32 type ++ le32 0 ++ le64 val).

Definition spa_pod_builder_fd (fd : Z) : ST spa_pod_builder Z :=
  spa_pod_builder_primitive (mk_pod 8 SPA_TYPE_Fd) (le64 fd).

Definition spa_pod_builder_rectangle (w h : Z) : ST spa_pod_builder Z :=
  spa_pod_builder_primitive (mk_pod 8 SPA_TYPE_Rectangle) (le32 w ++ le32 h).

Definition spa_pod_builder_fraction (n d : Z) : ST spa_pod_builder Z :=
  spa_pod_builder_primitive (mk_pod 8 SPA_TYPE_Fraction) (le32 n ++ le32 d).

(** ** Containers *)

(** The common shape of the [push] operations: write the first [zlen hdr]
    bytes of the container, then open its frame. *)
Definition push_container (pod : spa_pod) (hdr : list byte) : ST spa_pod_builder Z :=
  let* b := st_get in
  let offset := b_offset b in
  let* res := spa_pod_builder_raw (Some hdr) (zlen hdr) in
  st_modify (spa_pod_builder_push pod offset) ;;;
  st_ret res.

Definition spa_pod_builder_push_array : ST spa_pod_builder Z :=
  let p := mk_pod 0 SPA_TYPE_Array in push_container p (enc_pod p).

Definition spa_pod_builder_array (child_size child_type n_elems : Z)
    (elems : option (list byte)) : ST spa_pod_builder Z :=
  let p := mk_pod (u32 (8 + u32 (n_elems * child_size))) SPA_TYPE_Array in
  spa_pod_builder_primitive_body p
    (enc_pod p ++ enc_pod (mk_pod child_size child_type))
    elems (u32 (n_elems * child_size)) None 0.

Definition spa_pod_builder_push_choice (type flags : Z) : ST spa_pod_builder Z :=
  let p := mk_pod 8 SPA_TYPE_Choice in
  push_container p (enc_pod p ++ le32 type ++ le32 flags).

Definition spa_pod_builder_push_struct : ST spa_pod_builder Z :=
  let p := mk_pod 0 SPA_TYPE_Struct in push_container p (enc_pod p).

Definition spa_pod_builder_push_object (type id : Z) : ST spa_pod_builder Z :=
  let p := mk_pod 8 SPA_TYPE_Object in
  push_container p (enc_pod p ++ le32 type ++ le32 id).

Definition spa_pod_builder_prop (key flags : Z) : ST spa_pod_builder Z :=
  spa_pod_builder_raw (Some (le32 key ++ le32 flags)) 8.

Definition spa_pod_builder_push_sequence (unit : Z) : ST spa_pod_builder Z :=
  let p := mk_pod 8 SPA_TYPE_Sequence in
  push_container p (enc_pod p ++ le32 unit ++ le32 0).

Definition spa_pod_builder_control (offset type : Z) : ST spa_pod_builder Z :=
  spa_pod_builder_raw (Some (le32 offset ++ le32 type)) 8.

(** ** Varargs: [spa_pod_builder_addv]

    An argument of the variadic call is a value with the format character it
    is collected under. *)
Definition spa_choice_from_id_flags (id : ascii) (flags : Z) : Z * Z :=
  match id with
  | "r"%char => (SPA_CHOICE_Range, flags)
  | "s"%char => (SPA_CHOICE_Step, flags)
  | "e"%char => (SPA_CHOICE_Enum, flags)
  | "F"%char => (SPA_CHOICE_Flags, Z.lor flags SPA_POD_PROP_FLAG_DROP)
  | "f"%char => (SPA_CHOICE_Flags, flags)
  | _ => (SPA_CHOICE_None, flags)
  end.

Definition spa_choice_from_id (id : ascii) : Z := (spa_choice_from_id_flags id 0).1.

Inductive builder_arg : Type :=
| Arg_b (v : Z)
| Arg_I (v : Z)
| Arg_i (v : Z)
| Arg_l (v : Z)
| Arg_f (bits : Z)
| Arg_d (bits : Z)
| Arg_s (s : option (list byte))
| Arg_S (s : list byte) (len : Z)
| Arg_y (bytes : option (list byte)) (len : Z)
| Arg_R (r : spa_rectangle)
| Arg_F (f : spa_fraction)
| Arg_a (child_size child_type n_elems : Z) (elems : option (list byte))
| Arg_p (type val : Z)
| Arg_h (fd : Z)
| Arg_P (pod : option (spa_pod * list byte))
| Arg_Q (pod : spa_pod) (body : list byte).

(** [SPA_POD_BUILDER_COLLECT]: the result codes are dropped. *)
Definition SPA_POD_BUILDER_COLLECT (a : builder_arg) : ST spa_pod_builder Z :=
  match a with
  | Arg_b v => spa_pod_builder_bool (negb (v =? 0))
  | Arg_I v => spa_pod_builder_id v
  | Arg_i v => spa_pod_builder_int v
  | Arg_l v => spa_pod_builder_long v
  | Arg_f v => spa_pod_builder_float v
  | Arg_d v => spa_pod_builder_double v
  | Arg_s (Some s) => spa_pod_builder_string_len s (u32 (zlen s))
  | Arg_s None => spa_pod_builder_none
  | Arg_S s len => spa_pod_builder_string_len s (u32 len)
  | Arg_y bytes len => spa_pod_builder_bytes bytes (u32 len)
  | Arg_R r => spa_pod_builder_rectangle (width r) (height r)
  | Arg_F f => spa_pod_builder_fraction (num f) (denom f)
  | Arg_a cs ct n elems => spa_pod_builder_array (u32 cs) (u32 ct) (u32 n) elems
  | Arg_p t v => spa_pod_builder_pointer (u32 t) v
  | Arg_h fd => spa_pod_builder_fd fd
  | Arg_P None => spa_pod_builder_none
  | Arg_P (Some (p, body)) => spa_pod_builder_primitive p body
  | Arg_Q p body => spa_pod_builder_primitive_body p (enc_pod p) (Some body) (pod_size p) None 0
  end.

(** One round of the [do ... while] loop: the key of a property (with flags
    when it came through the [SPA_ID_INVALID] escape), the offset and type of a
    control, the choice letter after ['?'] and the collected values. *)
Record add_item : Type := mk_item {
  item_key : Z;
  item_flags : option Z;
  item_offset : Z;
  item_type : Z;
  item_choice : option ascii;
  item_values : list builder_arg }.

Fixpoint collect_values (l : list builder_arg) : ST spa_pod_builder Z :=
  match l with
  | [] => st_ret 0
  | a :: l => SPA_POD_BUILDER_COLLECT a ;;; collect_values l
  end.

Fixpoint addv_loop (ftype : Z) (items : list add_item) : ST spa_pod_builder Z :=
  match items with
  | [] => st_ret 0
  | it :: rest =>
      let flags := match item_flags it with Some f => f | None => 0 end in
      let escaped := match item_flags it with Some _ => true | None => false end in
      if (ftype =? SPA_TYPE_Object) && negb escaped && (item_key it =? 0) then st_ret 0
      else if (ftype =? SPA_TYPE_Sequence) && (item_type it =? 0) then st_ret 0
      else
        let '(ctype, flags) :=
          match item_choice it with
          | Some id => spa_choice_from_id_flags id flags
          | None => (0, flags)
          end in
        (if ftype =? SPA_TYPE_Object then spa_pod_builder_prop (item_key it) flags
         else if ftype =? SPA_TYPE_Sequence
         then spa_pod_builder_control (item_offset it) (item_type it)
         else st_ret 0) ;;;
        match item_choice it with
        | Some _ =>
            spa_pod_builder_push_choice ctype 0 ;;;
            collect_values (item_values it) ;;;
            spa_pod_builder_pop ;;;
            addv_loop ftype rest
        | None =>
            collect_values (item_values it) ;;;
            addv_loop ftype rest
        end
  end.

Definition spa_pod_builder_addv (items : list add_item) : ST spa_pod_builder Z :=
  let* b := st_get in
  let ftype :=
    match b_frames b with f :: _ => pod_type (frame_pod f) | [] => SPA_TYPE_None end in
  addv_loop ftype items.

(** [spa_pod_builder_add(builder, ...)] only packs the argument list. *)
Definition spa_pod_builder_add := spa_pod_builder_addv.

(** A struct member, a property and a control as arguments. *)
Definition item_value (a : builder_arg) : add_item := mk_item 0 None 0 0 None [a].
Definition item_prop (key : Z) (a : builder_arg) : add_item := mk_item key None 0 0 None [a].
Definition item_propf (key flags : Z) (a : builder_arg) : add_item :=
  mk_item key (Some flags) 0 0 None [a].

(** ** The dynamic builder *)

(** [spa_pod_dynamic_builder_overflow] when [realloc] succeeds: the size is
    rounded to [extend] and the old contents are kept; [fresh n] are the [n]
    indeterminate bytes the allocator adds. *)
Definition spa_pod_dynamic_builder_overflow (fresh : nat -> list byte) (extend : Z)
    (data : mem) (size : Z) : Z * mem :=
  let new_size := round_up_n 32 size extend in
  (0, take (Z.to_nat new_size) data ++ fresh (Z.to_nat new_size - length data)%nat).

Definition spa_pod_dynamic_builder_init (fresh : nat -> list byte) (data : mem) (extend : Z)
  : spa_pod_builder :=
  let b := spa_pod_builder_init data in
  if 0 <? extend
  then spa_pod_builder_set_callbacks (spa_pod_dynamic_builder_overflow fresh extend) b
  else b.
