(* ===== verification/PodSpec.v ===== *)
(** * What a builder call sequence means

    The abstract view of the POD format: a tree of values with its byte
    encoding [pod_enc].  [build_pod] is the call sequence the code uses for
    such a tree ([push], the members, [pop]; one call per scalar), and the
    theorems say that the builder of [builder.h] writes exactly [pod_enc] and
    nothing else. *)
From S2P Require Import Prelude Bytes PodBody PodBuilder.

Lemma enc_pod_eq p : enc_pod p = le32 (pod_size p) ++ le32 (pod_type p).
Proof. done. Qed.
Lemma zlen_enc_pod p : zlen (enc_pod p) = 8.
Proof. rewrite enc_pod_eq. by autorewrite with zlen. Qed.
#[export] Hint Rewrite zlen_enc_pod : zlen.
#[global] Opaque enc_pod.

Inductive scalar : Type :=
| SNone
| SBool (b : bool)
| SId (v : Z)
| SInt (v : Z)
| SLong (v : Z)
| SFloat (bits : Z)
| SDouble (bits : Z)
| SString (s : list byte)
| SBytes (bs : list byte)
| SRectangle (r : spa_rectangle)
| SFraction (f : spa_fraction)
| SPointer (type v : Z)
| SFd (v : Z)
| SArray (child_size child_type : Z) (elems : list byte).

Definition scalar_type (s : scalar) : Z :=
  match s with
  | SNone => SPA_TYPE_None
  | SBool _ => SPA_TYPE_Bool
  | SId _ => SPA_TYPE_Id
  | SInt _ => SPA_TYPE_Int
  | SLong _ => SPA_TYPE_Long
  | SFloat _ => SPA_TYPE_Float
  | SDouble _ => SPA_TYPE_Double
  | SString _ => SPA_TYPE_String
  | SBytes _ => SPA_TYPE_Bytes
  | SRectangle _ => SPA_TYPE_Rectangle
  | SFraction _ => SPA_TYPE_Fraction
  | SPointer _ _ => SPA_TYPE_Pointer
  | SFd _ => SPA_TYPE_Fd
  | SArray _ _ _ => SPA_TYPE_Array
  end.

Definition scalar_body (s : scalar) : list byte :=
  match s with
  | SNone => []
  | SBool b => le32 (if b then 1 else 0)
  | SId v | SInt v | SFloat v => le32 v
  | SLong v | SDouble v | SFd v => le64 v
  | SString s => s ++ [Byte.x00]
  | SBytes bs => bs
  | SRectangle r => le32 (width r) ++ le32 (height r)
  | SFraction f => le32 (num f) ++ le32 (denom f)
  | SPointer t v => le32 t ++ le32 0 ++ le64 v
  | SArray cs ct elems => enc_pod (mk_pod cs ct) ++ elems
  end.

Inductive pod_val : Type :=
| Scalar (s : scalar)
| Choice (ctype flags : Z) (hd : scalar) (tl : list scalar)
| Struct (l : list pod_val)
| Object (type id : Z) (props : list (Z * Z * pod_val))
| Sequence (unit : Z) (controls : list (Z * Z * pod_val)).

Definition pod_val_type (p : pod_val) : Z :=
  match p with
  | Scalar s => scalar_type s
  | Choice _ _ _ _ => SPA_TYPE_Choice
  | Struct _ => SPA_TYPE_Struct
  | Object _ _ _ => SPA_TYPE_Object
  | Sequence _ _ => SPA_TYPE_Sequence
  end.

(** A pod of type [t] around a body, padded to the 8-byte grid. *)
Definition enc_padded (t : Z) (body : list byte) : list byte :=
  enc_pod (mk_pod (zlen body) t) ++ body ++ zeroes (pad8 (zlen body) - zlen body).

Fixpoint pod_body (p : pod_val) : list byte :=
  match p with
  | Scalar s => scalar_body s
  | Choice ct fl hd tl =>
      le32 ct ++ le32 fl ++ enc_pod (mk_pod (zlen (scalar_body hd)) (scalar_type hd))
        ++ scalar_body hd ++ concat (map scalar_body tl)
  | Struct l => concat (map (fun c => enc_padded (pod_val_type c) (pod_body c)) l)
  | Object t i props =>
      le32 t ++ le32 i ++
      concat (map (fun '(k, f, c) =>
        le32 k ++ le32 f ++ enc_padded (pod_val_type c) (pod_body c)) props)
  | Sequence u controls =>
      le32 u ++ le32 0 ++
      concat (map (fun '(o, t, c) =>
        le32 o ++ le32 t ++ enc_padded (pod_val_type c) (pod_body c)) controls)
  end.

Definition pod_enc (p : pod_val) : list byte := enc_padded (pod_val_type p) (pod_body p).

(** ** The call sequences *)

Definition build_scalar (s : scalar) : ST spa_pod_builder Z :=
  match s with
  | SNone => spa_pod_builder_none
  | SBool b => spa_pod_builder_bool b
  | SId v => spa_pod_builder_id v
  | SInt v => spa_pod_builder_int v
  | SLong v => spa_pod_builder_long v
  | SFloat v => spa_pod_builder_float v
  | SDouble v => spa_pod_builder_double v
  | SString s => spa_pod_builder_string (Some s)
  | SBytes bs => spa_pod_builder_bytes (Some bs) (zlen bs)
  | SRectangle r => spa_pod_builder_rectangle (width r) (height r)
  | SFraction f => spa_pod_builder_fraction (num f) (denom f)
  | SPointer t v => spa_pod_builder_pointer t v
  | SFd v => spa_pod_builder_fd v
  | SArray cs ct elems => spa_pod_builder_array cs ct (zlen elems / cs) (Some elems)
  end.

Fixpoint st_seq {S A} (l : list (ST S A)) : ST S unit :=
  match l with
  | [] => st_ret tt
  | m :: l => m ;;; st_seq l
  end.

Fixpoint build_pod (p : pod_val) : ST spa_pod_builder Z :=
  match p with
  | Scalar s => build_scalar s
  | Choice ct fl hd tl =>
      spa_pod_builder_push_choice ct fl ;;;
      st_seq (map build_scalar (hd :: tl)) ;;;
      spa_pod_builder_pop ;;; st_ret 0
  | Struct l =>
      spa_pod_builder_push_struct ;;;
      st_seq (map build_pod l) ;;;
      spa_pod_builder_pop ;;; st_ret 0
  | Object t i props =>
      spa_pod_builder_push_object t i ;;;
      st_seq (map (fun '(k, f, c) => spa_pod_builder_prop k f ;;; build_pod c) props) ;;;
      spa_pod_builder_pop ;;; st_ret 0
  | Sequence u controls =>
      spa_pod_builder_push_sequence u ;;;
      st_seq (map (fun '(o, t, c) => spa_pod_builder_control o t ;;; build_pod c) controls) ;;;
      spa_pod_builder_pop ;;; st_ret 0
  end.

(** ** Well-formed values

    Array elements fill whole children, and the alternatives of a choice are
    no arrays and all have the size and type of the first. *)
Definition scalar_ok (s : scalar) : Prop :=
  match s with
  | SArray cs _ elems => 0 < cs /\ zlen elems mod cs = 0
  | _ => True
  end.
Definition scalar_is_array (s : scalar) : bool :=
  match s with SArray _ _ _ => true | _ => false end.

Fixpoint pod_ok (p : pod_val) : Prop :=
  match p with
  | Scalar s => scalar_ok s
  | Choice _ _ hd tl =>
      scalar_is_array hd = false /\
      Forall (fun s => scalar_is_array s = false /\ scalar_type s = scalar_type hd /\
                       zlen (scalar_body s) = zlen (scalar_body hd)) tl
  | Struct l => Forall id (map pod_ok l)
  | Object _ _ props => Forall id (map (fun '(_, _, c) => pod_ok c) props)
  | Sequence _ controls => Forall id (map (fun '(_, _, c) => pod_ok c) controls)
  end.

(** ** The builder appends *)

Definition frame_ok (f : spa_pod_frame) : Prop := is_u32 (pod_size (frame_pod f)).

(** Buffers are at most [UINT32_MAX] bytes: [builder->size] is a [uint32_t]. *)
Definition builder_ok (b : spa_pod_builder) : Prop :=
  0 <= b_offset b /\ b_size b <= UINT32_MAX /\ Forall frame_ok (b_frames b).

Definition fits (b : spa_pod_builder) (n : Z) : Prop := b_offset b + n <= b_size b.

Definition append_bytes (bs : list byte) (b : spa_pod_builder) : spa_pod_builder :=
  mk_builder (overwrite (b_data b) (b_offset b) bs) (b_offset b + zlen bs) (b_flags b)
             (frame_add_size (zlen bs) <$> b_frames b) (b_overflow b).

Definition set_flags (fl : Z) (b : spa_pod_builder) : spa_pod_builder :=
  mk_builder (b_data b) (b_offset b) fl (b_frames b) (b_overflow b).

Lemma overwrite_nil m off : overwrite m off [] = m.
Proof. unfold overwrite. simpl. rewrite Nat.add_0_r. apply take_drop. Qed.

Lemma overwrite_app m off b1 b2 :
  0 <= off -> off + zlen b1 + zlen b2 <= zlen m ->
  overwrite (overwrite m off b1) (off + zlen b1) b2 = overwrite m off (b1 ++ b2).
Proof.
  intros H1 H2. unfold overwrite, zlen in *.
  rewrite Z2Nat.inj_add, Nat2Z.id by lia.
  set (o := Z.to_nat off) in *.
  assert (length (take o m) = o) as L by (rewrite length_take; lia).
  rewrite (app_assoc (take o m) b1).
  rewrite take_app_length' by (rewrite length_app; lia).
  rewrite drop_app_ge by (rewrite length_app; lia).
  rewrite drop_drop, length_app, <- !app_assoc. do 4 f_equal. rewrite length_app. lia.
Qed.

Lemma overwrite_prefix m off a a' b :
  0 <= off -> off + zlen a + zlen b <= zlen m -> length a = length a' ->
  overwrite (overwrite m off (a ++ b)) off a' = overwrite m off (a' ++ b).
Proof.
  intros H1 H2 Hl. unfold overwrite, zlen in *.
  set (o := Z.to_nat off) in *.
  assert (length (take o m) = o) as L by (rewrite length_take; lia).
  rewrite take_app_length' by lia.
  rewrite drop_app_ge by lia. rewrite L.
  replace (o + length a' - o)%nat with (length a) by lia.
  rewrite <- !app_assoc, drop_app_length, !length_app, Hl. done.
Qed.

Lemma frame_add_size_0 f : frame_ok f -> frame_add_size 0 f = f.
Proof.
  destruct f as [[s t] o fl]. unfold frame_ok, frame_add_size. simpl. intros H.
  by rewrite Z.add_0_r, wrap_small.
Qed.

Lemma frame_add_size_add a b f : frame_add_size b (frame_add_size a f) = frame_add_size (a + b) f.
Proof.
  unfold frame_add_size. simpl. do 2 f_equal. unfold wrap.
  rewrite Zplus_mod_idemp_l. f_equal. lia.
Qed.

Lemma frame_add_size_ok n f : frame_ok (frame_add_size n f).
Proof. unfold frame_ok, frame_add_size, is_u32. simpl. by apply wrap_range. Qed.

Lemma append_bytes_nil b : builder_ok b -> append_bytes [] b = b.
Proof.
  destruct b as [d o fl fr ov]. intros (_ & _ & H). unfold append_bytes; simpl in *.
  rewrite overwrite_nil, Z.add_0_r. f_equal.
  induction H as [|f fr Hf _ IH]; [done|]. simpl. f_equal; [by apply frame_add_size_0|exact IH].
Qed.

Lemma append_bytes_offset bs b : b_offset (append_bytes bs b) = b_offset b + zlen bs.
Proof. done. Qed.

Lemma append_bytes_size bs b :
  0 <= b_offset b -> fits b (zlen bs) -> b_size (append_bytes bs b) = b_size b.
Proof. intros. unfold b_size, fits in *. simpl. by apply zlen_overwrite. Qed.

Lemma append_bytes_app b1 b2 b :
  0 <= b_offset b -> fits b (zlen b1 + zlen b2) ->
  append_bytes b2 (append_bytes b1 b) = append_bytes (b1 ++ b2) b.
Proof.
  destruct b as [d o fl fr ov]. intros Ho Hf. unfold append_bytes, fits, b_size in *; simpl in *.
  rewrite overwrite_app, zlen_app by lia. f_equal; [lia|].
  rewrite <- list_fmap_compose. apply list_fmap_ext. intros ? f _. simpl.
  apply frame_add_size_add.
Qed.

Lemma append_bytes_ok bs b :
  builder_ok b -> fits b (zlen bs) -> builder_ok (append_bytes bs b).
Proof.
  intros (H1 & H2 & H3) Hf. pose proof (zlen_nonneg bs). split; [|split].
  - simpl. lia.
  - rewrite append_bytes_size; done.
  - simpl. apply Forall_fmap, Forall_true. intros f. apply frame_add_size_ok.
Qed.

(** A source pointer whose first [zlen bs] bytes are [bs]; no source is needed
    for no bytes. *)
Definition source_of (src : option (list byte)) (bs : list byte) : Prop :=
  bs = [] \/ exists rest, src = Some (bs ++ rest).

Lemma raw_fits src bs b :
  builder_ok b -> fits b (zlen bs) -> (exists rest, src = Some (bs ++ rest)) ->
  spa_pod_builder_raw src (zlen bs) b = (Ret 0, append_bytes bs b).
Proof.
  intros (H1 & H2 & _) Hf (rest & ->). unfold fits in Hf. pose proof (zlen_nonneg bs).
  unfold spa_pod_builder_raw.
  rewrite (proj2 (Z.ltb_ge (b_size b) (b_offset b + zlen bs))) by lia. simpl.
  rewrite (holds_load (bs ++ rest) 0 bs); [|by exists [], rest|done]. simpl.
  unfold store. rewrite (proj2 (in_bounds_true _ _ _)) by (unfold b_size in *; lia).
  unfold append_bytes. by rewrite wrap_small by lia.
Qed.

Lemma pad_fits n b :
  builder_ok b -> b_flags b <> SPA_POD_BUILDER_FLAG_BODY ->
  0 <= n -> pad8 n <= UINT32_MAX -> fits b (pad8 n - n) ->
  spa_pod_builder_pad n b = (Ret 0, append_bytes (zeroes (pad8 n - n)) b).
Proof.
  intros Hb Hfl Hn Hn' Hf.
  assert (n + 8 <= 2 ^ 32).
  { pose proof (pad8_bounds n). pose proof (pad8_mod n).
    pose proof (Z.div_mod (pad8 n) 8). lia. }
  unfold spa_pod_builder_pad, st_bind, st_get.
  rewrite (proj2 (Z.eqb_neq _ _) Hfl).
  rewrite round_up_n_8 by lia. pose proof (pad8_bounds n).
  rewrite wrap_small by lia. case_if.
  - rewrite E. by rewrite append_bytes_nil.
  - replace (pad8 n - n) with (zlen (zeroes (pad8 n - n))) at 1 by (apply zlen_zeroes; lia).
    apply raw_fits; [done| |].
    + by rewrite zlen_zeroes by lia.
    + exists (zeroes (8 - (pad8 n - n))). f_equal. unfold zeroes.
      rewrite <- replicate_add. f_equal. lia.
Qed.

Lemma pad_body n b :
  b_flags b = SPA_POD_BUILDER_FLAG_BODY -> spa_pod_builder_pad n b = (Ret 0, b).
Proof. intros H. unfold spa_pod_builder_pad, st_bind, st_get. by rewrite H. Qed.

(** An optional write, as in [if (size > 0 && (r = raw(...)) < 0) res = r]. *)
Lemma raw_opt_fits src bs b :
  builder_ok b -> fits b (zlen bs) -> source_of src bs ->
  (if 0 <? zlen bs then
     let* r := spa_pod_builder_raw src (zlen bs) in st_ret (last_error 0 r)
   else st_ret 0) b = (Ret 0, append_bytes bs b).
Proof.
  intros Hb Hf [->|Hs].
  - simpl. by rewrite append_bytes_nil.
  - case_if.
    + unfold st_bind. by rewrite raw_fits.
    + assert (bs = []) as ->.
      { destruct bs; [done|]. unfold zlen in *. simpl in *. lia. }
      by rewrite append_bytes_nil.
Qed.

Section primitive.
Context (p : spa_pod) (pre bb sb rest : list byte) (body suffix : option (list byte)).
Hypothesis (Hbody : source_of body bb) (Hsuffix : source_of suffix sb).
Hypothesis (Hsize : pod_size p = zlen pre + zlen bb + zlen sb).
Hypothesis (Hsmall : pod_size p + 8 <= UINT32_MAX).

Let hdr := enc_pod p ++ pre.
Let prim := spa_pod_builder_primitive_body p (hdr ++ rest) body (zlen bb) suffix (zlen sb).

Lemma prim_header_size : u32 (SPA_POD_SIZE p - zlen bb - zlen sb) = zlen hdr.
Proof. unfold SPA_POD_SIZE, hdr. rewrite wrap_small; zlia. Qed.

(** In a struct, an object or at the top level the pod is written with its
    header and padded. *)
Lemma primitive_plain b :
  builder_ok b -> b_flags b = 0 -> b_offset b mod 8 = 0 ->
  fits b (8 + pad8 (pod_size p)) ->
  prim b = (Ret 0, append_bytes (hdr ++ bb ++ sb ++ zeroes (pad8 (pod_size p) - pod_size p)) b).
Proof.
  intros Hb Hfl Hal Hf. pose proof Hb as (Ho & Hsz & _). unfold fits in Hf.
  pose proof (pad8_bounds (pod_size p)).
  assert (zlen hdr = 8 + zlen pre) as Lh by (unfold hdr; zlia).
  unfold prim, spa_pod_builder_primitive_body. rewrite prim_header_size.
  unfold st_bind at 1, st_get at 1. rewrite Hfl. simpl Z.eqb. cbv iota.
  set (b1 := mk_builder _ _ _ _ _).
  assert (b1 = b) as -> by (unfold b1; destruct b; simpl in *; by subst).
  unfold st_bind at 1 2, st_put at 1.
  rewrite raw_fits; [|done|unfold fits; zlia|by exists rest].
  unfold st_bind at 1. rewrite raw_opt_fits; [|apply append_bytes_ok; unfold fits; try zlia; done| |done].
  2: { unfold fits. rewrite append_bytes_size; unfold fits; simpl; zlia. }
  rewrite append_bytes_app by (try (unfold fits); zlia).
  unfold st_bind at 1. rewrite raw_opt_fits; [|apply append_bytes_ok; unfold fits; try zlia; done| |done].
  2: { unfold fits. rewrite append_bytes_size; unfold fits; simpl; zlia. }
  rewrite append_bytes_app by (try (unfold fits); zlia).
  unfold st_bind, st_get, st_ret.
  rewrite append_bytes_offset, !zlen_app.
  replace (b_offset b + (zlen hdr + zlen bb + zlen sb)) with (b_offset b + 8 + pod_size p) by lia.
  rewrite pad_fits.
  - rewrite (pad8_add_l (b_offset b + 8)) by (rewrite <- Zplus_mod_idemp_l, Hal; done).
    replace (b_offset b + 8 + pad8 (pod_size p) - (b_offset b + 8 + pod_size p))
      with (pad8 (pod_size p) - pod_size p) by lia.
    rewrite append_bytes_app.
    + by rewrite <- !app_assoc.
    + done.
    + unfold fits. rewrite zlen_zeroes by lia. zlia.
  - apply append_bytes_ok; [done|]. unfold fits. zlia.
  - simpl. rewrite Hfl. done.
  - zlia.
  - rewrite (pad8_add_l (b_offset b + 8)) by (rewrite <- Zplus_mod_idemp_l, Hal; done). lia.
  - rewrite (pad8_add_l (b_offset b + 8)) by (rewrite <- Zplus_mod_idemp_l, Hal; done).
    unfold fits. rewrite append_bytes_size; [simpl; zlia|done|unfold fits; zlia].
Qed.

Lemma prim_tail b :
  builder_ok b -> b_flags b = SPA_POD_BUILDER_FLAG_BODY -> fits b (zlen bb + zlen sb) ->
  (let* res := if 0 <? zlen bb then
                 let* r := spa_pod_builder_raw body (zlen bb) in st_ret (last_error 0 r)
               else st_ret 0 in
   let* res := if 0 <? zlen sb then
                 let* r := spa_pod_builder_raw suffix (zlen sb) in st_ret (last_error res r)
               else st_ret res in
   let* b := st_get in
   let* r := spa_pod_builder_pad (b_offset b) in
   st_ret (last_error res r)) b = (Ret 0, append_bytes (bb ++ sb) b).
Proof.
  intros Hb Hfl Hf. pose proof Hb as (Ho & _ & _). unfold fits in Hf.
  unfold st_bind at 1. rewrite raw_opt_fits; [|done|unfold fits; zlia|done].
  unfold st_bind at 1. rewrite raw_opt_fits; [|apply append_bytes_ok; [done|unfold fits; zlia]| |done].
  2: { unfold fits. rewrite append_bytes_size; unfold fits; simpl; zlia. }
  rewrite append_bytes_app by (try (unfold fits); zlia).
  unfold st_bind, st_get. by rewrite pad_body.
Qed.

(** The first element of a choice or array writes its header, no padding. *)
Lemma primitive_first b :
  builder_ok b -> b_flags b = 3 -> fits b (8 + pod_size p) ->
  prim b = (Ret 0, append_bytes (hdr ++ bb ++ sb) (set_flags SPA_POD_BUILDER_FLAG_BODY b)).
Proof.
  intros Hb Hfl Hf. pose proof Hb as (Ho & Hsz & _). unfold fits in Hf.
  assert (zlen hdr = 8 + zlen pre) as Lh by (unfold hdr; zlia).
  unfold prim, spa_pod_builder_primitive_body. rewrite prim_header_size.
  unfold st_bind at 1, st_get at 1. rewrite Hfl. simpl Z.eqb. cbv iota.
  set (b1 := mk_builder _ _ _ _ _).
  assert (b1 = set_flags SPA_POD_BUILDER_FLAG_BODY b) as -> by done.
  unfold st_bind at 1 2, st_put at 1.
  rewrite raw_fits; [|done|unfold fits in *; unfold b_size in *; simpl; zlia|by exists rest].
  rewrite prim_tail; [|apply append_bytes_ok; [done|unfold fits, b_size in *; simpl; zlia]|done|].
  2: { unfold fits. rewrite append_bytes_size; unfold fits, b_size in *; simpl; zlia. }
  by rewrite append_bytes_app by (unfold fits, b_size in *; simpl; zlia).
Qed.

(** Further elements write only their body. *)
Lemma primitive_more b :
  builder_ok b -> b_flags b = SPA_POD_BUILDER_FLAG_BODY -> fits b (zlen bb + zlen sb) ->
  prim b = (Ret 0, append_bytes (bb ++ sb) b).
Proof.
  intros Hb Hfl Hf. unfold prim, spa_pod_builder_primitive_body.
  unfold st_bind at 1, st_get at 1. rewrite Hfl. simpl Z.eqb. cbv iota.
  unfold st_bind at 1, st_ret at 1. by apply prim_tail.
Qed.
End primitive.

(** A scalar whose body is one block without header or suffix. *)
Local Ltac prim_case bb :=
  eexists [], bb, [], [], _, None; simpl;
  split_and!; [rewrite ?app_nil_r; reflexivity
              |first [by left|right; by eexists|right; exists []; by rewrite app_nil_r]
              |by left|by rewrite ?app_nil_r|done].

(** Every scalar call is one call of [spa_pod_builder_primitive_body]. *)
Lemma build_scalar_primitive s :
  scalar_ok s -> zlen (scalar_body s) + 8 <= UINT32_MAX ->
  exists pre bb sb rest body suffix,
    let p := mk_pod (zlen (scalar_body s)) (scalar_type s) in
    build_scalar s = spa_pod_builder_primitive_body p ((enc_pod p ++ pre) ++ rest)
                       body (zlen bb) suffix (zlen sb) /\
    source_of body bb /\ source_of suffix sb /\ scalar_body s = pre ++ bb ++ sb /\
    (scalar_is_array s = false -> pre = []).
Proof.
  intros Hok Hsz.
  destruct s; simpl in Hok, Hsz; unfold build_scalar.
  - exists [], [], [], [], (Some []), None. simpl. rewrite !app_nil_r.
    split_and!; [done|by left|by left|done|done].
  - prim_case (le32 (if b then 1 else 0)).
  - prim_case (le32 v).
  - prim_case (le32 v).
  - prim_case (le64 v).
  - prim_case (le32 bits).
  - prim_case (le64 bits).
  - exists [], s, [Byte.x00], [], (Some s), (Some [Byte.x00]). simpl.
    autorewrite with zlen in *. pose proof (zlen_nonneg s).
    unfold spa_pod_builder_string, spa_pod_builder_string_len.
    rewrite (wrap_small 32 (zlen s)), (wrap_small 32 (zlen s + 1)) by lia.
    split_and!; [by rewrite !app_nil_r| | |done|done].
    + right. exists []. by rewrite app_nil_r.
    + right. by exists [].
  - prim_case bs.
  - prim_case (le32 (width r) ++ le32 (height r)).
  - prim_case (le32 (num f) ++ le32 (denom f)).
  - prim_case (le32 type ++ le32 0 ++ le64 v).
  - prim_case (le64 v).
  - exists (enc_pod (mk_pod child_size child_type)), elems, [], [], (Some elems), None. simpl.
    destruct Hok as [Hcs Hmod].
    assert (zlen elems / child_size * child_size = zlen elems) as Hn.
    { pose proof (Z.div_mod (zlen elems) child_size). lia. }
    simpl in *. autorewrite with zlen in *. pose proof (zlen_nonneg elems).
    unfold spa_pod_builder_array. rewrite Hn, (wrap_small 32 (zlen elems)), wrap_small by lia.
    split_and!; [by rewrite app_nil_r| |by left|by rewrite app_nil_r|done].
    right. exists []. by rewrite app_nil_r.
Qed.

(** ** Scalars *)

Lemma enc_padded_zlen t body : zlen (enc_padded t body) = 8 + pad8 (zlen body).
Proof.
  unfold enc_padded. pose proof (pad8_bounds (zlen body)).
  autorewrite with zlen. rewrite zlen_zeroes; lia.
Qed.
#[export] Hint Rewrite enc_padded_zlen : zlen.

Definition plain (b : spa_pod_builder) : Prop :=
  builder_ok b /\ b_flags b = 0 /\ b_offset b mod 8 = 0.

Lemma build_scalar_plain s b :
  scalar_ok s -> plain b -> fits b (8 + pad8 (zlen (scalar_body s))) ->
  build_scalar s b = (Ret 0, append_bytes (enc_padded (scalar_type s) (scalar_body s)) b).
Proof.
  intros Hok (Hb & Hfl & Hal) Hf. pose proof Hb as (Ho & Hsz & _).
  pose proof (pad8_bounds (zlen (scalar_body s))). unfold fits in Hf.
  destruct (build_scalar_primitive s Hok) as (pre & bb & sb & rest & body & suf & E & Hbo & Hsu & Es & _);
    [lia|].
  rewrite E, primitive_plain; try done; simpl; rewrite ?Es in *; try zlia.
  unfold enc_padded. by rewrite <- !app_assoc.
Qed.

Lemma build_scalar_first s b :
  scalar_is_array s = false -> builder_ok b -> b_flags b = 3 ->
  fits b (8 + zlen (scalar_body s)) ->
  build_scalar s b =
    (Ret 0, append_bytes (enc_pod (mk_pod (zlen (scalar_body s)) (scalar_type s)) ++ scalar_body s)
              (set_flags SPA_POD_BUILDER_FLAG_BODY b)).
Proof.
  intros Hna Hb Hfl Hf. pose proof Hb as (Ho & Hsz & _). unfold fits in Hf.
  destruct (build_scalar_primitive s) as (pre & bb & sb & rest & body & suf & E & Hbo & Hsu & Es & Hpre);
    [by destruct s|lia|].
  specialize (Hpre Hna). subst pre.
  rewrite E, primitive_first; try done; simpl; rewrite ?Es in *; try zlia.
  by rewrite app_nil_r.
Qed.

Lemma build_scalar_more s b :
  scalar_is_array s = false -> builder_ok b -> b_flags b = SPA_POD_BUILDER_FLAG_BODY ->
  fits b (zlen (scalar_body s)) -> zlen (scalar_body s) + 8 <= UINT32_MAX ->
  build_scalar s b = (Ret 0, append_bytes (scalar_body s) b).
Proof.
  intros Hna Hb Hfl Hf Hsz. unfold fits in Hf.
  destruct (build_scalar_primitive s) as (pre & bb & sb & rest & body & suf & E & Hbo & Hsu & Es & Hpre);
    [by destruct s|lia|].
  specialize (Hpre Hna). subst pre.
  rewrite E, primitive_more; try done; simpl; rewrite ?Es in *; unfold fits; try zlia; done.
Qed.

(** ** Frames *)

Definition opened (pod : spa_pod) (hdr : list byte) (b : spa_pod_builder) : spa_pod_builder :=
  spa_pod_builder_push pod (b_offset b) (append_bytes hdr b).

Lemma push_container_fits pod hdr b :
  builder_ok b -> fits b (zlen hdr) ->
  push_container pod hdr b = (Ret 0, opened pod hdr b).
Proof.
  intros Hb Hf. unfold push_container, st_bind, st_get.
  rewrite raw_fits; [done|done|done|]. exists []. by rewrite app_nil_r.
Qed.

Lemma opened_ok pod hdr b :
  builder_ok b -> fits b (zlen hdr) -> is_u32 (pod_size pod) -> builder_ok (opened pod hdr b).
Proof.
  intros Hb Hf Hp. destruct (append_bytes_ok hdr b Hb Hf) as (H1 & H2 & H3).
  split; [done|]. split; [done|]. simpl. constructor; [done|]. exact H3.
Qed.

(** Appending inside an open container commutes with opening it. *)
Definition in_frame (pod : spa_pod) (hdr body : list byte) (flags : Z) (b : spa_pod_builder)
  : spa_pod_builder :=
  mk_builder (overwrite (b_data b) (b_offset b) (hdr ++ body))
             (b_offset b + zlen hdr + zlen body) flags
             (mk_frame (mk_pod (pod_size pod + zlen body) (pod_type pod)) (b_offset b) (b_flags b)
               :: (frame_add_size (zlen hdr + zlen body) <$> b_frames b))
             (b_overflow b).

Lemma append_opened pod hdr body b :
  builder_ok b -> fits b (zlen hdr + zlen body) -> 0 <= pod_size pod ->
  pod_size pod + zlen body <= UINT32_MAX ->
  append_bytes body (opened pod hdr b) =
  in_frame pod hdr body (b_flags (opened pod hdr b)) b.
Proof.
  intros (Ho & Hs & _) Hf Hp Hsz. unfold append_bytes, opened, in_frame, fits, b_size in *. simpl.
  pose proof (zlen_nonneg body). rewrite overwrite_app by lia. f_equal. f_equal.
  - unfold frame_add_size. simpl. by rewrite wrap_small by lia.
  - rewrite <- list_fmap_compose. apply list_fmap_ext. intros ? f _. simpl.
    apply frame_add_size_add.
Qed.

Lemma pop_in_frame pod h0 tl body fl b :
  plain b -> flag_is_set fl SPA_POD_BUILDER_FLAG_FIRST = false ->
  pod_size pod = zlen tl -> fits b (8 + pad8 (zlen tl + zlen body)) ->
  spa_pod_builder_pop (in_frame pod (enc_pod h0 ++ tl) body fl b) =
  (Ret (Some (b_offset b)), append_bytes (enc_padded (pod_type pod) (tl ++ body)) b).
Proof.
  intros (Hb & Hfl & Hal) Hfirst Hps Hf. pose proof Hb as (Ho & Hsz & _). unfold fits in Hf.
  pose proof (pad8_bounds (zlen tl + zlen body)). pose proof (zlen_nonneg tl).
  pose proof (zlen_nonneg body). unfold b_size in *.
  set (h1 := mk_pod (pod_size pod + zlen body) (pod_type pod)).
  assert (zlen (overwrite (b_data b) (b_offset b) ((enc_pod h0 ++ tl) ++ body)) = zlen (b_data b))
    as Ld by (apply zlen_overwrite; zlia).
  unfold spa_pod_builder_pop, st_bind at 1, st_get at 1. simpl b_flags. rewrite Hfirst.
  unfold st_bind at 1, st_ret at 1. unfold st_bind at 1, st_get at 1.
  cbn [b_frames in_frame]. unfold spa_pod_builder_frame, b_size. simpl b_data.
  rewrite Ld. unfold SPA_POD_SIZE. simpl frame_offset. simpl frame_pod. simpl pod_size.
  rewrite (proj2 (Z.leb_le _ _)) by lia.
  unfold st_bind at 1, st_lift, store.
  rewrite (proj2 (in_bounds_true _ _ _)) by (rewrite Ld; zlia).
  rewrite <- app_assoc, overwrite_prefix; [|lia|zlia|].
  2: { pose proof (zlen_enc_pod h0). pose proof (zlen_enc_pod h1). unfold zlen in *. fold h1. lia. }
  unfold st_bind at 1, st_put at 1. simpl b_offset. simpl b_overflow. simpl frame_flags.
  fold h1. rewrite Hfl.
  set (b1 := mk_builder _ _ _ _ _).
  assert (b1 = append_bytes (enc_pod h1 ++ tl ++ body) b) as ->.
  { unfold b1, append_bytes. rewrite Hfl, !zlen_app, !zlen_enc_pod. f_equal; [lia|].
    f_equal. f_equal. lia. }
  unfold st_bind.
  replace (b_offset b + zlen (enc_pod h0 ++ tl) + zlen body)
    with (b_offset b + 8 + (zlen tl + zlen body)) by zlia.
  assert (pad8 (b_offset b + 8 + (zlen tl + zlen body)) =
          b_offset b + 8 + pad8 (zlen tl + zlen body)) as Ep.
  { apply pad8_add_l. by rewrite <- Zplus_mod_idemp_l, Hal. }
  rewrite pad_fits.
  - rewrite Ep, append_bytes_app; [|lia|unfold fits; rewrite zlen_zeroes; unfold b_size; zlia].
    f_equal. unfold enc_padded. rewrite <- !app_assoc, zlen_app. f_equal.
    f_equal; [f_equal; unfold h1; rewrite Hps; done|].
    do 3 f_equal. lia.
  - apply append_bytes_ok; [done|]. unfold fits, b_size. zlia.
  - simpl. by rewrite Hfl.
  - lia.
  - lia.
  - rewrite Ep. unfold fits. rewrite append_bytes_size by (unfold fits, b_size; zlia).
    simpl. unfold b_size. zlia.
Qed.

(** ** Appending call sequences *)

Definition appends {A} (m : ST spa_pod_builder A) (bs : list byte) : Prop :=
  zlen bs mod 8 = 0 /\
  forall b, plain b -> fits b (zlen bs) -> exists r, m b = (Ret r, append_bytes bs b).

Lemma plain_append bs b : plain b -> fits b (zlen bs) -> zlen bs mod 8 = 0 -> plain (append_bytes bs b).
Proof.
  intros (H1 & H2 & H3) Hf Hm. split; [by apply append_bytes_ok|]. split; [done|].
  rewrite append_bytes_offset. auto with cdb.
Qed.

Lemma appends_bind {A B} (m : ST spa_pod_builder A) (k : ST spa_pod_builder B) b1 b2 :
  appends m b1 -> appends k b2 -> appends (m ;;; k) (b1 ++ b2).
Proof.
  intros (M1 & H1) (M2 & H2). split.
  - rewrite zlen_app. auto with cdb.
  - intros b Hp Hf. unfold fits in Hf. rewrite zlen_app in Hf.
    pose proof (zlen_nonneg b1). pose proof (zlen_nonneg b2).
    destruct (H1 b Hp) as (r & E); [unfold fits; lia|].
    destruct Hp as (Hb & Hp). pose proof Hb as (Ho & _ & _).
    destruct (H2 (append_bytes b1 b)) as (r' & E').
    + apply plain_append; [done|unfold fits; lia|done].
    + unfold fits. rewrite append_bytes_size by (unfold fits; lia). simpl. lia.
    + exists r'. unfold st_bind. rewrite E, E', append_bytes_app by (unfold fits; lia). done.
Qed.

Lemma appends_ret {A} (a : A) : appends (st_ret a) [].
Proof.
  split; [done|]. intros b (Hb & _) _. exists a. by rewrite append_bytes_nil.
Qed.

Lemma appends_seq {A} (ms : list (ST spa_pod_builder A)) bss :
  Forall2 appends ms bss -> appends (st_seq ms) (concat bss).
Proof.
  induction 1 as [|m bs ms bss Hm _ IH]; simpl; [apply appends_ret|by apply appends_bind].
Qed.

Lemma appends_raw bs : zlen bs mod 8 = 0 -> appends (spa_pod_builder_raw (Some bs) (zlen bs)) bs.
Proof.
  intros H. split; [done|]. intros b (Hb & _) Hf. exists 0. apply raw_fits; [done|done|].
  exists []. by rewrite app_nil_r.
Qed.

(** Calls that look at the type of the innermost frame. *)
Definition top_type (b : spa_pod_builder) : Z :=
  match b_frames b with f :: _ => pod_type (frame_pod f) | [] => SPA_TYPE_None end.

Lemma top_type_append bs b : top_type (append_bytes bs b) = top_type b.
Proof. unfold top_type. cbn. by destruct (b_frames b). Qed.

Definition appends_in {A} (t : Z) (m : ST spa_pod_builder A) (bs : list byte) : Prop :=
  zlen bs mod 8 = 0 /\
  forall b, plain b -> top_type b = t -> fits b (zlen bs) -> exists r, m b = (Ret r, append_bytes bs b).

Lemma appends_any {A} t (m : ST spa_pod_builder A) bs : appends m bs -> appends_in t m bs.
Proof. intros [H1 H2]. split; [done|]. auto. Qed.

Lemma appends_in_bind {A B} t (m : ST spa_pod_builder A) (k : ST spa_pod_builder B) b1 b2 :
  appends_in t m b1 -> appends_in t k b2 -> appends_in t (m ;;; k) (b1 ++ b2).
Proof.
  intros (M1 & H1) (M2 & H2). split.
  - rewrite zlen_app. auto with cdb.
  - intros b Hp Ht Hf. unfold fits in Hf. rewrite zlen_app in Hf.
    pose proof (zlen_nonneg b1). pose proof (zlen_nonneg b2).
    destruct (H1 b Hp Ht) as (r & E); [unfold fits; lia|].
    destruct Hp as (Hb & Hp). pose proof Hb as (Ho & _ & _).
    destruct (H2 (append_bytes b1 b)) as (r' & E').
    + apply plain_append; [done|unfold fits; lia|done].
    + by rewrite top_type_append.
    + unfold fits. rewrite append_bytes_size by (unfold fits; lia). simpl. lia.
    + exists r'. unfold st_bind. rewrite E, E', append_bytes_app by (unfold fits; lia). done.
Qed.

(** A container whose members append [body]: popping it answers with the
    place it was written to. *)
Lemma container_returns {A} pod tl (m : ST spa_pod_builder A) body b :
  pod_size pod = zlen tl -> zlen tl mod 8 = 0 ->
  pod_type pod <> SPA_TYPE_Array -> pod_type pod <> SPA_TYPE_Choice ->
  appends_in (pod_type pod) m body -> plain b -> fits b (zlen (enc_padded (pod_type pod) (tl ++ body))) ->
  (push_container pod (enc_pod pod ++ tl) ;;; m ;;; spa_pod_builder_pop) b =
  (Ret (Some (b_offset b)), append_bytes (enc_padded (pod_type pod) (tl ++ body)) b).
Proof.
  intros Hps Htl Hna Hnc (Mb & Hm) Hp Hf. pose proof Hp as (Hb & Hfl & Hal). pose proof Hb as (Ho & Hsz & _).
  unfold fits in Hf. autorewrite with zlen in Hf.
  pose proof (pad8_bounds (zlen tl + zlen body)). pose proof (zlen_nonneg tl).
  pose proof (zlen_nonneg body).
  assert (fits b (zlen (enc_pod pod ++ tl))) as Hf1 by (unfold fits; zlia).
  assert (b_flags (opened pod (enc_pod pod ++ tl) b) = 0) as Hfl'.
  { simpl. rewrite (proj2 (Z.eqb_neq _ _) Hna), (proj2 (Z.eqb_neq _ _) Hnc). done. }
  unfold st_bind at 1. rewrite push_container_fits by done.
  destruct (Hm (opened pod (enc_pod pod ++ tl) b)) as (r & E).
  - split; [apply opened_ok; try done; split; zlia|]. split; [done|].
    simpl b_offset. rewrite zlen_app, zlen_enc_pod. auto with cdb.
  - done.
  - unfold fits. simpl. unfold b_size in *. simpl. rewrite zlen_overwrite; zlia.
  - unfold st_bind at 1. rewrite E, append_opened; [|done|unfold fits; zlia|lia|lia].
    rewrite Hfl'. apply pop_in_frame; [done|done|done|unfold fits; zlia].
Qed.

Lemma appends_container {A} pod tl (m : ST spa_pod_builder A) body :
  pod_size pod = zlen tl -> zlen tl mod 8 = 0 ->
  pod_type pod <> SPA_TYPE_Array -> pod_type pod <> SPA_TYPE_Choice ->
  appends m body ->
  appends (push_container pod (enc_pod pod ++ tl) ;;; m ;;; spa_pod_builder_pop ;;; st_ret 0)
          (enc_padded (pod_type pod) (tl ++ body)).
Proof.
  intros Hps Htl Hna Hnc Hm. split.
  { autorewrite with zlen. auto with cdb. }
  intros b Hp Hf. exists 0.
  pose proof (container_returns pod tl m body b Hps Htl Hna Hnc (appends_any _ _ _ Hm) Hp Hf) as E.
  unfold st_bind in *. destruct (push_container _ _ b) as [[]?]; [|done..].
  destruct (m _) as [[]?]; [|done..]. by rewrite E.
Qed.

Lemma build_scalars_more l b :
  Forall (fun s => scalar_is_array s = false) l -> builder_ok b ->
  b_flags b = SPA_POD_BUILDER_FLAG_BODY ->
  fits b (zlen (concat (map scalar_body l))) ->
  zlen (concat (map scalar_body l)) + 8 <= UINT32_MAX ->
  st_seq (map build_scalar l) b = (Ret tt, append_bytes (concat (map scalar_body l)) b).
Proof.
  intros Hl. revert b. induction Hl as [|s l Hs _ IH]; intros b Hb Hfl Hf Hsz; simpl in *.
  - by rewrite append_bytes_nil.
  - autorewrite with zlen in Hsz. unfold fits in *. rewrite zlen_app in Hf.
    pose proof Hb as (Ho & _ & _).
    pose proof (zlen_nonneg (scalar_body s)). pose proof (zlen_nonneg (concat (map scalar_body l))).
    unfold st_bind. rewrite build_scalar_more; [|done|done|done|unfold fits; lia|lia].
    rewrite IH; [|apply append_bytes_ok; [done|unfold fits; lia]|done| |lia].
    + by rewrite append_bytes_app by (unfold fits; lia).
    + rewrite append_bytes_size by (unfold fits; lia). simpl. lia.
Qed.

Lemma appends_choice ct fl hd tl :
  pod_ok (Choice ct fl hd tl) ->
  appends (build_pod (Choice ct fl hd tl)) (pod_enc (Choice ct fl hd tl)).
Proof.
  intros (Hhd & Htl). unfold pod_enc. split.
  { autorewrite with zlen. auto with cdb. }
  intros b Hp Hf. pose proof Hp as (Hb & Hfl & Hal). pose proof Hb as (Ho & Hsz & _).
  set (rest := concat (map scalar_body tl)).
  set (val := enc_pod (mk_pod (zlen (scalar_body hd)) (scalar_type hd)) ++ scalar_body hd).
  set (pod := mk_pod 8 SPA_TYPE_Choice). set (hdr := le32 ct ++ le32 fl).
  assert (pod_body (Choice ct fl hd tl) = hdr ++ val ++ rest) as Eb.
  { unfold hdr, val. simpl. by rewrite <- !app_assoc. }
  assert (zlen hdr = 8) as Lh by (unfold hdr; by autorewrite with zlen).
  assert (zlen val = 8 + zlen (scalar_body hd)) as Lv by (unfold val; zlia).
  rewrite Eb in *. unfold fits in Hf. autorewrite with zlen in Hf.
  pose proof (pad8_bounds (zlen hdr + (zlen val + zlen rest))).
  pose proof (zlen_nonneg rest). pose proof (zlen_nonneg (scalar_body hd)).
  exists 0. simpl build_pod. unfold spa_pod_builder_push_choice. fold hdr pod.
  unfold st_bind at 1. rewrite push_container_fits; [|done|unfold fits; zlia].
  set (B := opened pod (enc_pod pod ++ hdr) b).
  assert (builder_ok B) as HB by (apply opened_ok; [done|unfold fits; zlia|done]).
  assert (b_size B = b_size b) as HBs by (apply append_bytes_size; [done|unfold fits; zlia]).
  assert (b_offset B = b_offset b + 16) as HBo by (unfold B; simpl; zlia).
  unfold st_bind at 1 2.
  rewrite build_scalar_first; [|done|done|done|unfold fits; lia]. fold val.
  rewrite build_scalars_more; fold rest.
  - rewrite append_bytes_app;
      [|change (0 <= b_offset B); lia|change (b_offset B + (zlen val + zlen rest) <= b_size B); lia].
    change (append_bytes (val ++ rest) (set_flags SPA_POD_BUILDER_FLAG_BODY B))
      with (set_flags SPA_POD_BUILDER_FLAG_BODY (append_bytes (val ++ rest) B)).
    unfold B. rewrite append_opened; [|done|unfold fits; zlia|done|simpl; zlia].
    change (set_flags SPA_POD_BUILDER_FLAG_BODY (in_frame ?p ?h ?bd _ ?x))
      with (in_frame p h bd SPA_POD_BUILDER_FLAG_BODY x).
    unfold st_bind at 1. rewrite pop_in_frame; [done|done|done|done|unfold fits; zlia].
  - eapply Forall_impl; [|exact Htl]. by intros s (Hs & _).
  - apply (append_bytes_ok val (set_flags _ B)); [done|].
    change (b_offset B + zlen val <= b_size B). lia.
  - done.
  - unfold fits. rewrite append_bytes_size, append_bytes_offset;
      [change (b_offset B + zlen val + zlen rest <= b_size B); lia|change (0 <= b_offset B); lia|].
    change (b_offset B + zlen val <= b_size B). lia.
  - lia.
Qed.

(** Induction over trees, with the hypothesis for every member. *)
Section pod_val_induction.
Context (P : pod_val -> Prop).
Hypothesis (Hscalar : forall s, P (Scalar s)).
Hypothesis (Hchoice : forall ct fl hd tl, P (Choice ct fl hd tl)).
Hypothesis (Hstruct : forall l, Forall P l -> P (Struct l)).
Hypothesis (Hobject : forall t i props, Forall (fun x => P (snd x)) props -> P (Object t i props)).
Hypothesis (Hsequence : forall u cs, Forall (fun x => P (snd x)) cs -> P (Sequence u cs)).

Fixpoint pod_val_tree_ind (p : pod_val) : P p :=
  match p with
  | Scalar s => Hscalar s
  | Choice ct fl hd tl => Hchoice ct fl hd tl
  | Struct l =>
      Hstruct l ((fix go l : Forall P l :=
        match l with
        | [] => Forall_nil_2 _
        | x :: l => Forall_cons_2 _ _ _ (pod_val_tree_ind x) (go l)
        end) l)
  | Object t i props =>
      Hobject t i props ((fix go l : Forall (fun x => P (snd x)) l :=
        match l with
        | [] => Forall_nil_2 _
        | x :: l => Forall_cons_2 _ _ _ (pod_val_tree_ind (snd x)) (go l)
        end) props)
  | Sequence u cs =>
      Hsequence u cs ((fix go l : Forall (fun x => P (snd x)) l :=
        match l with
        | [] => Forall_nil_2 _
        | x :: l => Forall_cons_2 _ _ _ (pod_val_tree_ind (snd x)) (go l)
        end) cs)
  end.
End pod_val_induction.

Lemma appends_keyed (w : Z -> Z -> ST spa_pod_builder Z) l :
  (forall k f, appends (w k f) (le32 k ++ le32 f)) ->
  Forall (fun x => pod_ok (snd x) -> appends (build_pod (snd x)) (pod_enc (snd x))) l ->
  Forall id (map (fun '(_, _, c) => pod_ok c) l) ->
  appends (st_seq (map (fun '(k, f, c) => w k f ;;; build_pod c) l))
    (concat (map (fun '(k, f, c) =>
       le32 k ++ le32 f ++ enc_padded (pod_val_type c) (pod_body c)) l)).
Proof.
  intros Hw IH Hok. apply appends_seq.
  induction IH as [|((k & f) & c) l Hc _ IHl]; simpl in *; constructor.
  - apply Forall_cons_1 in Hok as [Hc' _]. rewrite app_assoc.
    apply appends_bind; [apply Hw|by apply Hc].
  - apply Forall_cons_1 in Hok as [_ Hl]. by apply IHl.
Qed.

Lemma build_pod_appends p : pod_ok p -> appends (build_pod p) (pod_enc p).
Proof.
  induction p as [s|ct fl hd tl|l IH|t i props IH|u cs IH] using pod_val_tree_ind; intros Hok.
  - split; [unfold pod_enc; autorewrite with zlen; auto with cdb|].
    intros b Hp Hf. exists 0. apply build_scalar_plain; [done|done|].
    unfold pod_enc in Hf. by autorewrite with zlen in Hf.
  - by apply appends_choice.
  - pose proof (appends_container (mk_pod 0 SPA_TYPE_Struct) [] (st_seq (map build_pod l))
      (concat (map pod_enc l))) as H.
    rewrite app_nil_r in H. apply H; [done|done|done|done|].
    apply appends_seq. simpl in Hok. clear H.
    induction IH as [|c l Hc _ IHl]; simpl in *; constructor;
      apply Forall_cons_1 in Hok as [? ?]; auto.
  - unfold pod_enc. simpl pod_body. rewrite app_assoc.
    apply (appends_container (mk_pod 8 SPA_TYPE_Object) (le32 t ++ le32 i));
      [by autorewrite with zlen|by autorewrite with zlen|done|done|].
    apply appends_keyed; [|done|done]. intros k f.
    apply (appends_raw (le32 k ++ le32 f)). by autorewrite with zlen.
  - unfold pod_enc. simpl pod_body. rewrite app_assoc.
    apply (appends_container (mk_pod 8 SPA_TYPE_Sequence) (le32 u ++ le32 0));
      [by autorewrite with zlen|by autorewrite with zlen|done|done|].
    apply appends_keyed; [|done|done]. intros k f.
    apply (appends_raw (le32 k ++ le32 f)). by autorewrite with zlen.
Qed.

(** ** Properties *)

(** C1: on a builder with enough room, in an 8-byte aligned state outside any
    array or choice, the call sequence for a value writes exactly the encoding
    of the value at the builder's offset, changes no other byte, and grows the
    sizes of all open frames by the length written. *)
Theorem builder_writes_encoding (p : pod_val) (b : spa_pod_builder) :
  pod_ok p -> builder_ok b -> b_flags b = 0 -> b_offset b mod 8 = 0 ->
  b_offset b + zlen (pod_enc p) <= b_size b ->
  exists r, build_pod p b = (Ret r, append_bytes (pod_enc p) b).
Proof. intros Hok Hb Hf Ho Hs. apply build_pod_appends; [done|by split_and!|done]. Qed.

(** An object with an id, a string and a range of rectangles, inside a struct. *)
Definition sample_value : pod_val :=
  Struct [ Scalar (SInt (-5));
           Object 262147 3 [ (1, 0, Scalar (SId 7)); (2, 8, Scalar (SString [Byte.x61; Byte.x62]));
                             (3, 0, Choice SPA_CHOICE_Range 0 (SRectangle (mk_rectangle 320 240))
                                      [SRectangle (mk_rectangle 1 1); SRectangle (mk_rectangle 4096 4096)]) ];
           Sequence 0 [ (0, 1, Scalar (SArray 4 SPA_TYPE_Int (le32 1 ++ le32 2 ++ le32 3))) ] ].

Lemma builder_writes_encoding_witness :
  exists r, build_pod sample_value (spa_pod_builder_init (zeroes 256))
            = (Ret r, append_bytes (pod_enc sample_value) (spa_pod_builder_init (zeroes 256))).
Proof.
  apply builder_writes_encoding.
  - repeat constructor.
  - split; [vm_compute; discriminate|split; [vm_compute; discriminate|constructor]].
  - reflexivity.
  - reflexivity.
  - vm_compute. discriminate.
Defined.
