(* ===== verification/PodBuilderSafety.v ===== *)
(** * Memory safety of the POD builder

    Any sequence of builder calls on a fixed buffer, however small, writes
    only inside it: a call that does not fit reports [-ENOSPC] (or drops the
    result, as the container calls do) and only moves the offset. *)
From S2P Require Import Prelude Bytes PodBody PodBuilder PodSpec.

(** ** Calls *)

(** The source bytes of an argument are as long as its size says. *)
Definition source_ok (src : option (list byte)) (n : Z) : Prop :=
  match src with Some bs => n <= zlen bs | None => True end.

Definition arg_ok (a : builder_arg) : Prop :=
  match a with
  | Arg_S s len => 0 <= len /\ u32 len <= zlen s
  | Arg_s (Some s) => zlen s < 2 ^ 32
  | Arg_y bytes len => source_ok bytes (u32 len)
  | Arg_a cs ct n elems => source_ok elems (u32 (u32 n * u32 cs))
  | Arg_P (Some (p, body)) | Arg_Q p body => is_u32 (pod_size p) /\ pod_size p <= zlen body
  | _ => True
  end.

Inductive builder_call : Type :=
| B_raw (bs : list byte)
| B_raw_padded (bs : list byte)
| B_pad (size : Z)
| B_remove (size : Z)
| B_value (a : builder_arg)
| B_write_string (str : list byte)
| B_reserve_bytes (len : Z)
| B_child (size type : Z)
| B_push_array
| B_push_choice (type flags : Z)
| B_push_struct
| B_push_object (type id : Z)
| B_push_sequence (unit : Z)
| B_prop (key flags : Z)
| B_control (offset type : Z)
| B_add (items : list add_item)
| B_pop.

Definition call_ok (c : builder_call) : Prop :=
  match c with
  | B_raw bs | B_raw_padded bs | B_write_string bs => zlen bs < 2 ^ 32
  | B_remove size => 0 <= size
  | B_value a => arg_ok a
  | B_reserve_bytes len => is_u32 len
  | B_add items => Forall (fun it => Forall arg_ok (item_values it)) items
  | _ => True
  end.

Definition drop_result {A} (m : ST spa_pod_builder A) : ST spa_pod_builder unit :=
  let* _ := m in st_ret tt.

(** A pop without an open frame is a call the client does not make. *)
Definition run_builder_call (c : builder_call) : ST spa_pod_builder unit :=
  match c with
  | B_raw bs => drop_result (spa_pod_builder_raw (Some bs) (zlen bs))
  | B_raw_padded bs => drop_result (spa_pod_builder_raw_padded (Some bs) (zlen bs))
  | B_pad size => drop_result (spa_pod_builder_pad (u32 size))
  | B_remove size => st_modify (spa_pod_builder_remove size)
  | B_value a => drop_result (SPA_POD_BUILDER_COLLECT a)
  | B_write_string str => drop_result (spa_pod_builder_write_string str (zlen str))
  | B_reserve_bytes len => drop_result (spa_pod_builder_reserve_bytes len)
  | B_child size type => drop_result (spa_pod_builder_child size type)
  | B_push_array => drop_result spa_pod_builder_push_array
  | B_push_choice type flags => drop_result (spa_pod_builder_push_choice type flags)
  | B_push_struct => drop_result spa_pod_builder_push_struct
  | B_push_object type id => drop_result (spa_pod_builder_push_object type id)
  | B_push_sequence unit => drop_result (spa_pod_builder_push_sequence unit)
  | B_prop key flags => drop_result (spa_pod_builder_prop key flags)
  | B_control offset type => drop_result (spa_pod_builder_control offset type)
  | B_add items => drop_result (spa_pod_builder_add items)
  | B_pop =>
      let* b := st_get in
      match b_frames b with [] => st_ret tt | _ => drop_result spa_pod_builder_pop end
  end.

Fixpoint run_builder_calls (cs : list builder_call) : ST spa_pod_builder unit :=
  match cs with
  | [] => st_ret tt
  | c :: cs => run_builder_call c ;;; run_builder_calls cs
  end.

(** ** Invariant *)

Definition bframe_ok (f : spa_pod_frame) : Prop := 0 <= frame_offset f /\ is_u32 (pod_size (frame_pod f)).

Record binv (b : spa_pod_builder) : Prop := mk_binv {
  bi_offset : is_u32 (b_offset b);
  bi_static : b_overflow b = None;
  bi_frames : Forall bframe_ok (b_frames b) }.

(** [m] does not fault, keeps the invariant and the buffer's size, and changes
    the number of open frames by [d]. *)
Definition bop_safe {A} (m : ST spa_pod_builder A) (d : nat -> nat) : Prop :=
  forall b, binv b ->
  st_wp m (fun _ b' => binv b' /\ b_size b' = b_size b /\ length (b_frames b') = d (length (b_frames b)))
          (fun _ => False) b.

Lemma bop_bind {A B} (m : ST spa_pod_builder A) (k : A -> ST spa_pod_builder B) d1 d2 :
  bop_safe m d1 -> (forall a, bop_safe (k a) d2) -> bop_safe (st_bind m k) (d2 ∘ d1).
Proof.
  intros Hm Hk b Hb. apply st_wp_bind. eapply st_wp_mono; [by apply Hm| |done].
  intros a b1 (H1 & S1 & F1). eapply st_wp_mono; [by apply Hk| |done].
  intros c b2 (H2 & S2 & F2). split_and!; [done|congruence|]. by rewrite F2, F1.
Qed.

Lemma bop_seq {A B} (m : ST spa_pod_builder A) (k : A -> ST spa_pod_builder B) :
  bop_safe m id -> (forall a, bop_safe (k a) id) -> bop_safe (st_bind m k) id.
Proof. intros. by apply (bop_bind m k id id). Qed.

Lemma bop_ret {A} (a : A) : bop_safe (st_ret a) id.
Proof. by intros b Hb. Qed.

Lemma bop_if {A} (c : bool) (m k : ST spa_pod_builder A) d :
  bop_safe m d -> bop_safe k d -> bop_safe (if c then m else k) d.
Proof. by destruct c. Qed.

(** Reading the state before going on. *)
Lemma bop_get {A} (k : spa_pod_builder -> ST spa_pod_builder A) d :
  (forall b, binv b -> bop_safe (k b) d) -> bop_safe (st_bind st_get k) d.
Proof. intros Hk b Hb. apply st_wp_bind, st_wp_get. by apply Hk. Qed.

Lemma bop_modify f d :
  (forall b, binv b -> binv (f b) /\ b_size (f b) = b_size b /\ length (b_frames (f b)) = d (length (b_frames b))) ->
  bop_safe (st_modify f) d.
Proof. intros H b Hb. by apply st_wp_modify, H. Qed.

(** ** Operations *)

Lemma u32_range z : is_u32 (u32 z).
Proof. by apply (wrap_range 32). Qed.

Lemma frames_add_ok n fs : Forall bframe_ok fs -> Forall bframe_ok (frame_add_size n <$> fs).
Proof.
  intros F. apply Forall_fmap. eapply Forall_impl; [|exact F].
  intros f [? ?]. split; [done|apply u32_range].
Qed.
Lemma frames_sub_ok n fs : 0 <= n -> Forall bframe_ok fs -> Forall bframe_ok (frame_sub_size n <$> fs).
Proof.
  intros Hn F. apply Forall_fmap. eapply Forall_impl; [|exact F].
  intros f [? ?]. split; [done|]. unfold is_u32 in *. cbn. lia.
Qed.

Lemma grown_ok b buf total size :
  binv b -> zlen buf = b_size b ->
  let b' := mk_builder buf (u32 total) (b_flags b) (frame_add_size size <$> b_frames b) None in
  binv b' /\ b_size b' = b_size b /\ length (b_frames b') = length (b_frames b).
Proof.
  intros [? ? ?] E. split_and!; [|done|apply length_fmap].
  constructor; [apply u32_range|done|by apply frames_add_ok].
Qed.

Lemma raw_safe data size :
  is_u32 size -> source_ok data size -> bop_safe (spa_pod_builder_raw data size) id.
Proof.
  intros Hs Hd b Hb. pose proof Hb as [Ho Hn Hf]. unfold st_wp, spa_pod_builder_raw. rewrite Hn.
  unfold is_u32 in *.
  destruct ((b_size b <? b_offset b + size) && (UINT32_MAX <? b_offset b + size)) eqn:C1; [done|].
  destruct (Z.ltb_spec (b_size b) (b_offset b + size)) as [Hlt|Hge].
  - replace (match data with Some _ => _ | None => _ end) with (Ret (b_data b)) by (by destruct data).
    by apply grown_ok.
  - destruct data as [bs|]; cbn [Z.eqb]; [|by apply grown_ok].
    cbn in Hd. rewrite load_ok by lia. cbn [obind].
    pose proof (zlen_slice bs 0 size ltac:(lia) ltac:(lia) ltac:(lia)) as El.
    unfold store. rewrite (proj2 (in_bounds_true _ _ _)) by (unfold b_size in *; lia).
    apply grown_ok; [done|]. unfold b_size in *. apply zlen_overwrite; lia.
Qed.

Lemma raw_bytes_safe bs : zlen bs < 2 ^ 32 -> bop_safe (spa_pod_builder_raw (Some bs) (zlen bs)) id.
Proof. intros. pose proof (zlen_nonneg bs). apply raw_safe; [unfold is_u32; lia|cbn; lia]. Qed.

Lemma round_up_32_8 size : is_u32 size -> u32 (round_up_n 32 size 8 - size) <= 8.
Proof.
  unfold is_u32. intros H. unfold round_up_n.
  change (8 - 1) with (2 ^ 3 - 1). rewrite lor_ones_low by lia.
  destruct (Z.eq_dec size 0) as [->|Hz]; [by vm_compute|].
  rewrite (wrap_small 32 (size - 1)) by lia.
  pose proof (Z.div_mod (size - 1) (2 ^ 3) ltac:(lia)) as D.
  pose proof (Z.mod_pos_bound (size - 1) (2 ^ 3) ltac:(lia)) as B.
  set (q := (size - 1) / 2 ^ 3) in *.
  replace (2 ^ 3 * q + (2 ^ 3 - 1) + 1) with (size + (8 - 1 - (size - 1) mod 2 ^ 3)) by lia.
  set (r := 8 - 1 - (size - 1) mod 2 ^ 3) in *.
  unfold wrap. rewrite Zminus_mod_idemp_l. replace (size + r - size) with r by lia.
  rewrite Z.mod_small; lia.
Qed.

Lemma pad_safe size : is_u32 size -> bop_safe (spa_pod_builder_pad size) id.
Proof.
  intros Hs. apply bop_get. intros b Hb. apply bop_if; [apply bop_ret|]. apply bop_if; [apply bop_ret|].
  apply raw_safe; [apply u32_range|]. cbn. rewrite zlen_zeroes by lia. by apply round_up_32_8.
Qed.

Lemma pad_here_safe {A} (k : Z -> A) :
  bop_safe (let* b := st_get in let* r := spa_pod_builder_pad (b_offset b) in st_ret (k r)) id.
Proof. apply bop_get. intros b Hb. apply bop_seq; [apply pad_safe, Hb|intros; apply bop_ret]. Qed.

Lemma set_flags_binv fl b : binv b -> binv (set_flags fl b).
Proof. by intros []. Qed.

(** The writes after the header of a primitive. *)
Definition primitive_rest (body : option (list byte)) (bn : Z) (suffix : option (list byte)) (sn res : Z)
  : ST spa_pod_builder Z :=
  let* res :=
    if 0 <? bn then let* r := spa_pod_builder_raw body bn in st_ret (last_error res r)
    else st_ret res in
  let* res :=
    if 0 <? sn then let* r := spa_pod_builder_raw suffix sn in st_ret (last_error res r)
    else st_ret res in
  let* b := st_get in
  let* r := spa_pod_builder_pad (b_offset b) in
  st_ret (last_error res r).

Lemma primitive_rest_safe body bn suffix sn res :
  is_u32 bn -> is_u32 sn -> source_ok body bn -> source_ok suffix sn ->
  bop_safe (primitive_rest body bn suffix sn res) id.
Proof.
  intros. apply bop_seq.
  { apply bop_if; [|apply bop_ret]. apply bop_seq; [by apply raw_safe|intros; apply bop_ret]. }
  intros r1. apply bop_seq; [|intros r2; apply pad_here_safe].
  apply bop_if; [|apply bop_ret]. apply bop_seq; [by apply raw_safe|intros; apply bop_ret].
Qed.

Lemma primitive_body_safe p pbytes body bn suffix sn :
  is_u32 bn -> is_u32 sn -> u32 (SPA_POD_SIZE p - bn - sn) <= zlen pbytes ->
  source_ok body bn -> source_ok suffix sn ->
  bop_safe (spa_pod_builder_primitive_body p pbytes body bn suffix sn) id.
Proof.
  intros Hbn Hsn Hp Hb Hsx b Hinv. apply st_wp_bind, st_wp_get, st_wp_bind.
  pose proof (fun res => primitive_rest_safe body bn suffix sn res Hbn Hsn Hb Hsx) as Hrest.
  destruct (b_flags b =? SPA_POD_BUILDER_FLAG_BODY); [by apply Hrest|].
  apply st_wp_bind. unfold st_wp at 1, st_put.
  eapply st_wp_mono; [apply raw_safe; [apply u32_range|done|]| |done].
  { apply (set_flags_binv (flag_clear (b_flags b) SPA_POD_BUILDER_FLAG_FIRST) b Hinv). }
  intros a b1 (H1 & S1 & F1). eapply st_wp_mono; [by apply Hrest| |done].
  intros c b2 (H2 & S2 & F2). unfold id in *. split_and!; [done|by rewrite S2, S1|by rewrite F2, F1].
Qed.

Lemma primitive_safe p body :
  is_u32 (pod_size p) -> pod_size p <= zlen body -> bop_safe (spa_pod_builder_primitive p body) id.
Proof.
  intros Hs Hb. apply primitive_body_safe; [done|done| |done|done].
  unfold SPA_POD_SIZE. replace (8 + pod_size p - pod_size p - 0) with 8 by lia.
  by rewrite zlen_enc_pod.
Qed.

Lemma string_len_safe str len :
  is_u32 len -> len <= zlen str -> bop_safe (spa_pod_builder_string_len str len) id.
Proof.
  intros Hl Hs. apply primitive_body_safe; [done|done| |done|done].
  rewrite zlen_enc_pod. unfold SPA_POD_SIZE. cbn [pod_size]. unfold is_u32, wrap in *.
  assert ((8 + (len + 1) mod 2 ^ 32 - len - 1) mod 2 ^ 32 = 8) as ->; [|done].
  replace (8 + (len + 1) mod 2 ^ 32 - len - 1) with ((len + 1) mod 2 ^ 32 - (len - 7)) by lia.
  rewrite Zminus_mod_idemp_l. by replace (len + 1 - (len - 7)) with 8 by lia.
Qed.

Lemma bytes_safe bytes len :
  is_u32 len -> source_ok bytes len -> bop_safe (spa_pod_builder_bytes bytes len) id.
Proof.
  intros Hl Hs. apply primitive_body_safe; [done|done| |done|done].
  rewrite zlen_enc_pod. unfold SPA_POD_SIZE. cbn [pod_size].
  by replace (8 + len - len - 0) with 8 by lia.
Qed.

Lemma array_safe cs ct n elems :
  source_ok elems (u32 (n * cs)) -> bop_safe (spa_pod_builder_array cs ct n elems) id.
Proof.
  intros Hs. apply primitive_body_safe; [apply u32_range|done| |done|done].
  rewrite zlen_app, !zlen_enc_pod. unfold SPA_POD_SIZE. cbn [pod_size].
  set (k := u32 (n * cs)). unfold wrap.
  assert ((8 + (8 + k) mod 2 ^ 32 - k - 0) mod 2 ^ 32 = 16) as ->; [|lia].
  replace (8 + (8 + k) mod 2 ^ 32 - k - 0) with ((8 + k) mod 2 ^ 32 - (k - 8)) by lia.
  rewrite Zminus_mod_idemp_l. by replace (8 + k - (k - 8)) with 16 by lia.
Qed.

Lemma collect_safe a : arg_ok a -> bop_safe (SPA_POD_BUILDER_COLLECT a) id.
Proof.
  intros Ha. destruct a as [v|v|v|v|v|v|[s|]|s len|bytes len|r|f|cs ct n elems|t v|fd|[[p body]|]|p body];
    cbn in Ha |- *;
    try (apply primitive_safe; [done|cbn [pod_size]; autorewrite with zlen; lia]).
  - pose proof (zlen_nonneg s). apply string_len_safe; [apply u32_range|].
    rewrite wrap_small; lia.
  - apply string_len_safe; [apply u32_range|apply Ha].
  - apply bytes_safe; [apply u32_range|done].
  - by apply array_safe.
  - by apply primitive_safe; apply Ha.
  - apply (primitive_safe p body); apply Ha.
Qed.

Lemma collect_values_safe l : Forall arg_ok l -> bop_safe (collect_values l) id.
Proof. induction 1 as [|a l Ha _ IH]; [apply bop_ret|]. apply bop_seq; [by apply collect_safe|done]. Qed.

Lemma push_binv pod offset b :
  binv b -> 0 <= offset -> is_u32 (pod_size pod) -> binv (spa_pod_builder_push pod offset b).
Proof. intros [] ? ?. by constructor; [..|apply Forall_cons]. Qed.

Lemma push_container_safe pod hdr :
  is_u32 (pod_size pod) -> zlen hdr < 2 ^ 32 -> bop_safe (push_container pod hdr) S.
Proof.
  intros Hp Hh. apply bop_get. intros b [[? _] _ _].
  apply (bop_bind _ _ id S); [by apply raw_bytes_safe|]. intros res.
  apply (bop_bind _ _ S id); [|intros; apply bop_ret].
  apply bop_modify. intros b' Hb'. split_and!; [by apply push_binv|done|done].
Qed.

Lemma none_header_safe : bop_safe (spa_pod_builder_raw (Some (enc_pod (mk_pod 0 SPA_TYPE_None))) 8) id.
Proof. apply raw_safe; [done|]. cbn. by rewrite zlen_enc_pod. Qed.

Lemma pop_safe b :
  binv b -> b_frames b <> [] ->
  st_wp spa_pod_builder_pop
    (fun _ b' => binv b' /\ b_size b' = b_size b /\ length (b_frames b') = pred (length (b_frames b)))
    (fun _ => False) b.
Proof.
  intros Hb Hne. apply st_wp_bind, st_wp_get, st_wp_bind.
  eapply st_wp_mono; [apply (bop_if _ _ _ id none_header_safe (bop_ret 0)); done| |done].
  intros r b1 (Hb1 & S1 & F1). apply st_wp_bind, st_wp_get. pose proof Hb1 as [Ho Hn Hf].
  destruct (b_frames b1) as [|f fs] eqn:Ef; [by destruct (b_frames b)|].
  apply Forall_cons_1 in Hf as [[Hfo Hfs] Hfs']. apply st_wp_bind.
  assert (forall buf, zlen buf = b_size b1 ->
    st_wp (st_put (mk_builder buf (b_offset b1) (frame_flags f) fs (b_overflow b1)) ;;;
           let* _ := spa_pod_builder_pad (b_offset b1) in st_ret (spa_pod_builder_frame b1 f))
      (fun _ b' => binv b' /\ b_size b' = b_size b /\ length (b_frames b') = pred (length (b_frames b)))
      (fun _ => False) b1) as K.
  { intros buf El. apply st_wp_bind. unfold st_wp at 1, st_put. apply st_wp_bind.
    eapply st_wp_mono; [apply pad_safe; [done|by constructor]| |done].
    intros _ b2 (H2 & S2 & F2). cbn. split_and!; [done| |].
    - rewrite S2. unfold b_size at 1. cbn. by rewrite El.
    - unfold id in *. rewrite F2, <- F1. done. }
  destruct (spa_pod_builder_frame b1 f) as [off|] eqn:Efr; [|by apply K].
  unfold spa_pod_builder_frame in Efr. case_if; [|done]. injection Efr as <-.
  unfold SPA_POD_SIZE, is_u32, b_size in *. apply st_wp_lift. unfold store.
  rewrite (proj2 (in_bounds_true _ _ _)) by (rewrite zlen_enc_pod; lia). cbn [o_wp].
  apply K. apply zlen_overwrite; [done|]. rewrite zlen_enc_pod. lia.
Qed.

(** A balanced container inside a longer sequence. *)
Lemma bracket_safe {A B C} (push : ST spa_pod_builder A) (m : ST spa_pod_builder B)
    (k : ST spa_pod_builder C) :
  bop_safe push S -> bop_safe m id -> bop_safe k id ->
  bop_safe (push ;;; m ;;; spa_pod_builder_pop ;;; k) id.
Proof.
  intros Hp Hm Hk b Hb. apply st_wp_bind. eapply st_wp_mono; [by apply Hp| |done].
  intros _ b1 (H1 & S1 & F1). apply st_wp_bind. eapply st_wp_mono; [by apply Hm| |done].
  intros _ b2 (H2 & S2 & F2). unfold id in *. rewrite F1 in F2. apply st_wp_bind.
  eapply st_wp_mono; [apply pop_safe; [done|by intros E; rewrite E in F2]| |done].
  intros _ b3 (H3 & S3 & F3). eapply st_wp_mono; [by apply Hk| |done].
  intros _ b4 (H4 & S4 & F4). split_and!; [done|congruence|]. rewrite F4, F3, F2. done.
Qed.

Lemma push_choice_safe t f : bop_safe (spa_pod_builder_push_choice t f) S.
Proof. apply push_container_safe; [done|by autorewrite with zlen]. Qed.
Lemma prop_safe k f : bop_safe (spa_pod_builder_prop k f) id.
Proof. apply raw_safe; [done|]. cbn. by autorewrite with zlen. Qed.

Lemma addv_loop_safe ftype items :
  Forall (fun it => Forall arg_ok (item_values it)) items -> bop_safe (addv_loop ftype items) id.
Proof.
  induction 1 as [|it items Hit _ IH]; [apply bop_ret|]. cbn [addv_loop].
  apply bop_if; [apply bop_ret|]. apply bop_if; [apply bop_ret|].
  destruct (match item_choice it with Some _ => _ | None => _ end) as [ct fl].
  apply bop_seq; [apply bop_if; [apply prop_safe|apply bop_if; [apply prop_safe|apply bop_ret]]|].
  intros _. destruct (item_choice it).
  - apply bracket_safe; [apply push_choice_safe|by apply collect_values_safe|done].
  - apply bop_seq; [by apply collect_values_safe|done].
Qed.

Lemma drop_result_safe {A} (m : ST spa_pod_builder A) d : bop_safe m d -> bop_safe (drop_result m) d.
Proof. intros H. apply (bop_bind _ _ d id); [done|intros; apply bop_ret]. Qed.

Lemma child_safe size type : bop_safe (spa_pod_builder_child size type) id.
Proof.
  intros b Hb. apply st_wp_bind, st_wp_get, st_wp_bind. unfold st_wp at 1, st_put.
  eapply st_wp_mono; [apply raw_safe; [done|cbn; by rewrite zlen_enc_pod|]| |done].
  { apply (set_flags_binv (flag_clear (b_flags b) SPA_POD_BUILDER_FLAG_FIRST) b Hb). }
  done.
Qed.

Lemma run_builder_call_safe c :
  call_ok c -> exists d, forall b, binv b ->
  st_wp (run_builder_call c)
    (fun _ b' => binv b' /\ b_size b' = b_size b /\ length (b_frames b') = d (length (b_frames b)))
    (fun _ => False) b.
Proof.
  intros Hc. destruct c; cbn [call_ok run_builder_call] in *.
  - exists id. by apply drop_result_safe, raw_bytes_safe.
  - exists id. apply drop_result_safe, bop_seq; [by apply raw_bytes_safe|]. intros r.
    apply bop_seq; [|intros; apply bop_ret]. apply pad_safe.
    pose proof (zlen_nonneg bs). unfold is_u32. lia.
  - exists id. by apply drop_result_safe, pad_safe, u32_range.
  - exists id. apply bop_modify. intros b [Ho Hn Hf]. split_and!; [|done|by apply length_fmap].
    constructor; [|done|by apply frames_sub_ok]. unfold is_u32 in *. cbn. lia.
  - exists id. by apply drop_result_safe, collect_safe.
  - exists id. apply drop_result_safe, bop_seq; [by apply raw_bytes_safe|]. intros r.
    apply bop_seq; [by apply raw_safe|intros; apply pad_here_safe].
  - exists id. apply drop_result_safe, bop_get. intros b _.
    apply bop_seq; [by apply bytes_safe|]. intros r. apply bop_if; apply bop_ret.
  - exists id. apply drop_result_safe, child_safe.
  - exists S. apply drop_result_safe, push_container_safe; [done|by rewrite zlen_enc_pod].
  - exists S. apply drop_result_safe, push_choice_safe.
  - exists S. apply drop_result_safe, push_container_safe; [done|by rewrite zlen_enc_pod].
  - exists S. apply drop_result_safe, push_container_safe; [done|by autorewrite with zlen].
  - exists S. apply drop_result_safe, push_container_safe; [done|by autorewrite with zlen].
  - exists id. apply drop_result_safe, prop_safe.
  - exists id. apply drop_result_safe, prop_safe.
  - exists id. apply drop_result_safe, bop_get. intros b _. by apply addv_loop_safe.
  - exists pred. intros b Hb. apply st_wp_bind, st_wp_get.
    destruct (b_frames b) eqn:E; rewrite <- E; [by cbn; rewrite E|]. apply st_wp_bind.
    eapply st_wp_mono; [apply pop_safe; [done|by rewrite E]| |done]. done.
Qed.

Lemma run_builder_calls_safe cs b :
  Forall call_ok cs -> binv b ->
  st_wp (run_builder_calls cs) (fun _ b' => binv b' /\ b_size b' = b_size b) (fun _ => False) b.
Proof.
  intros F. revert b. induction F as [|c cs Hc _ IH]; intros b Hb; [done|].
  apply st_wp_bind. destruct (run_builder_call_safe c Hc) as [d Hd].
  eapply st_wp_mono; [by apply Hd| |done]. intros _ b1 (H1 & S1 & _).
  eapply st_wp_mono; [by apply IH| |done]. intros _ b2 (H2 & S2). by rewrite S2, S1.
Qed.

(** ** Properties *)

(** C9: on a buffer of any size and with any sequence of builder calls, whether
    or not the data fits, the builder writes only inside the buffer and leaves
    its size alone. *)
Theorem builder_client_safe (data : mem) (cs : list builder_call) :
  Forall call_ok cs ->
  exists b', run_builder_calls cs (spa_pod_builder_init data) = (Ret tt, b') /\
             b_size b' = zlen data.
Proof.
  intros F.
  pose proof (run_builder_calls_safe cs (spa_pod_builder_init data) F) as W. unfold st_wp in W.
  destruct (run_builder_calls cs (spa_pod_builder_init data)) as [[[]| |] b'];
    destruct W as [_ W] || destruct W; try done; [by exists b'|..]; by constructor.
Qed.

Lemma builder_client_safe_witness :
  exists b', run_builder_calls
               [B_push_object 1 2; B_prop 3 0; B_value (Arg_i 7); B_prop 4 0;
                B_push_choice SPA_CHOICE_Enum 0; B_value (Arg_l 1); B_value (Arg_l 2); B_pop; B_pop]
               (spa_pod_builder_init (zeroes 20)) = (Ret tt, b') /\
             b_size b' = zlen (zeroes 20).
Proof. apply builder_client_safe. repeat constructor. Defined.
