(* ===== verification/PodParser.v ===== *)
(** * The POD parser

    Models [spa/include/spa/pod/parser.h].  A parser walks [size] bytes at
    [data] inside a memory region; it keeps an offset and the chain of open
    frames (innermost first).  Every read goes through the region, so a read
    past its end is a [Fault]. *)
From S2P Require Import Prelude Bytes PodBody PodBuilder.
From Stdlib Require Import Ascii.

Record spa_pod_parser : Type := mk_parser {
  p_mem : mem;
  p_data : Z;
  p_size : Z;
  p_offset : Z;
  p_flags : Z;
  p_frames : list spa_pod_frame }.

(** [SPA_POD_PARSER_INIT(buffer, size)]. *)
Definition spa_pod_parser_init (m : mem) (data size : Z) : spa_pod_parser :=
  mk_parser m data size 0 0 [].

(** [spa_pod_parser_pod]: the size comes from the pod's own header. *)
Definition spa_pod_parser_pod (m : mem) (pod : Z) : outcome spa_pod_parser :=
  let! p := load_pod m pod in Ret (spa_pod_parser_init m pod (u32 (SPA_POD_SIZE p))).

Definition spa_pod_parser_init_pod_body (m : mem) (pod : spa_pod) (body : Z) : spa_pod_parser :=
  spa_pod_parser_init m (body - 8) (u32 (pod_size pod + 8)).

Definition spa_pod_parser_init_from_data (m : mem) (data maxsize offset size : Z)
  : spa_pod_parser :=
  let offs := Z.min offset maxsize in
  let sz := Z.min (maxsize - offs) size in
  spa_pod_parser_init m (data + offs) (u32 sz).

Record spa_pod_parser_state : Type := mk_pstate {
  ps_offset : Z;
  ps_flags : Z;
  ps_frames : list spa_pod_frame }.

Definition spa_pod_parser_get_state (p : spa_pod_parser) : spa_pod_parser_state :=
  mk_pstate (p_offset p) (p_flags p) (p_frames p).
Definition spa_pod_parser_reset (s : spa_pod_parser_state) (p : spa_pod_parser) : spa_pod_parser :=
  mk_parser (p_mem p) (p_data p) (p_size p) (ps_offset s) (ps_flags s) (ps_frames s).

Definition set_offset (off : Z) (p : spa_pod_parser) : spa_pod_parser :=
  mk_parser (p_mem p) (p_data p) (p_size p) off (p_flags p) (p_frames p).
Definition set_frames (fs : list spa_pod_frame) (p : spa_pod_parser) : spa_pod_parser :=
  mk_parser (p_mem p) (p_data p) (p_size p) (p_offset p) (p_flags p) fs.

(** The first half of [spa_pod_parser_read_header]: the bytes copied to the
    caller's [*header], [None] when the copy is not made. *)
Definition copy_header (p : spa_pod_parser) (offset size header_size : Z)
  : outcome (option (list byte)) :=
  if (offset + header_size <=? size) && (Z.land offset 7 =? 0) then
    let! header := load (p_mem p) (p_data p + offset) header_size in
    Ret (Some header)
  else Ret None.

(** [spa_pod_parser_read_header]: the header bytes and the body pointer.  When
    the size check fails the copy has been made already; [spa_pod_parser_getv]
    is the one caller that goes on to use it. *)
Definition spa_pod_parser_read_header (p : spa_pod_parser)
    (offset size header_size pod_offset : Z) : outcome (list byte * Z) :=
  let long_offset := offset + header_size in
  let! copied := copy_header p offset size header_size in
  match copied with
  | None => Err EPIPE
  | Some header =>
    let! pod := load_pod header pod_offset in
    if long_offset + round_up_n 64 (pod_size pod) 8 <=? size
    then Ret (header, p_data p + long_offset)
    else Err EPIPE
  end.

(** [spa_pod_parser_deref]: NULL or the pod at [offset]. *)
Definition spa_pod_parser_deref (p : spa_pod_parser) (offset size : Z) : outcome (option Z) :=
  match spa_pod_parser_read_header p offset size 8 0 with
  | Ret (_, body) => Ret (Some (body - 8))
  | Err _ => Ret None
  | Fault => Fault
  end.

(** The end of what may be read: the innermost frame, or the whole buffer. *)
Definition parser_limit (p : spa_pod_parser) : Z :=
  match p_frames p with
  | f :: _ => u32 (frame_offset f + SPA_POD_SIZE (frame_pod f))
  | [] => p_size p
  end.

Definition spa_pod_parser_get_header (header_size pod_offset : Z)
  : ST spa_pod_parser (list byte * Z) := fun p =>
  (spa_pod_parser_read_header p (p_offset p) (parser_limit p) header_size pod_offset, p).

Definition spa_pod_parser_current_body : ST spa_pod_parser (spa_pod * Z) :=
  let* (header, body) := spa_pod_parser_get_header 8 0 in
  let* pod := st_lift (load_pod header 0) in
  st_ret (pod, body).

Definition spa_pod_parser_current : ST spa_pod_parser (option Z) :=
  let* r := st_try spa_pod_parser_current_body in
  match r with
  | inl (_, body) => st_ret (Some (body - 8))
  | inr _ => st_ret None
  end.

Definition spa_pod_parser_advance (pod : spa_pod) (p : spa_pod_parser) : spa_pod_parser :=
  set_offset (u32 (p_offset p + round_up_n 64 (SPA_POD_SIZE pod) 8)) p.

Definition spa_pod_parser_next_body : ST spa_pod_parser (spa_pod * Z) :=
  let* r := st_try spa_pod_parser_current_body in
  match r with
  | inl (pod, body) => st_modify (spa_pod_parser_advance pod) ;;; st_ret (pod, body)
  | inr _ => st_err EINVAL
  end.

Definition spa_pod_parser_next : ST spa_pod_parser (option Z) :=
  let* r := st_try spa_pod_parser_current_body in
  match r with
  | inl (pod, body) => st_modify (spa_pod_parser_advance pod) ;;; st_ret (Some (body - 8))
  | inr _ => st_ret None
  end.

Definition spa_pod_parser_push (pod : spa_pod) (offset : Z) (p : spa_pod_parser)
  : spa_pod_parser :=
  set_frames (mk_frame pod offset (p_flags p) :: p_frames p) p.

Definition spa_pod_parser_restart (f : spa_pod_frame) (p : spa_pod_parser) : spa_pod_parser :=
  set_offset (frame_offset f) p.

(** Leave the innermost frame; without an open frame there is nothing to
    unpush, and the callers never do. *)
Definition spa_pod_parser_unpush (p : spa_pod_parser) : spa_pod_parser :=
  match p_frames p with
  | f :: parent => set_frames parent (spa_pod_parser_restart f p)
  | [] => p
  end.

Definition spa_pod_parser_pop (p : spa_pod_parser) : spa_pod_parser :=
  match p_frames p with
  | f :: _ => spa_pod_parser_advance (frame_pod f) (spa_pod_parser_unpush p)
  | [] => p
  end.

(** ** Typed reads

    Each [spa_pod_parser_get_*] reads the current header, asks the accessor of
    [body.h], and advances when it succeeds. *)
Definition parser_get {A} (get : spa_pod -> mem -> Z -> outcome A) : ST spa_pod_parser A :=
  let* (pod, body) := spa_pod_parser_current_body in
  let* p := st_get in
  let* v := st_lift (get pod (p_mem p) body) in
  st_modify (spa_pod_parser_advance pod) ;;;
  st_ret v.

Definition spa_pod_parser_get_bool : ST spa_pod_parser bool := parser_get spa_pod_body_get_bool.
Definition spa_pod_parser_get_id : ST spa_pod_parser Z := parser_get spa_pod_body_get_id.
Definition spa_pod_parser_get_int : ST spa_pod_parser Z := parser_get spa_pod_body_get_int.
Definition spa_pod_parser_get_long : ST spa_pod_parser Z := parser_get spa_pod_body_get_long.
Definition spa_pod_parser_get_float : ST spa_pod_parser Z := parser_get spa_pod_body_get_float.
Definition spa_pod_parser_get_double : ST spa_pod_parser Z := parser_get spa_pod_body_get_double.
Definition spa_pod_parser_get_string : ST spa_pod_parser Z := parser_get spa_pod_body_get_string.
Definition spa_pod_parser_get_bytes : ST spa_pod_parser (Z * Z) :=
  parser_get spa_pod_body_get_bytes.
Definition spa_pod_parser_get_pointer : ST spa_pod_parser (Z * Z) :=
  parser_get spa_pod_body_get_pointer.
Definition spa_pod_parser_get_fd : ST spa_pod_parser Z := parser_get spa_pod_body_get_fd.
Definition spa_pod_parser_get_rectangle : ST spa_pod_parser spa_rectangle :=
  parser_get spa_pod_body_get_rectangle.
Definition spa_pod_parser_get_fraction : ST spa_pod_parser spa_fraction :=
  parser_get spa_pod_body_get_fraction.

Definition spa_pod_parser_get_pod_body : ST spa_pod_parser (spa_pod * Z) :=
  let* (pod, body) := spa_pod_parser_current_body in
  st_modify (spa_pod_parser_advance pod) ;;;
  st_ret (pod, body).

Definition spa_pod_parser_get_pod : ST spa_pod_parser Z :=
  let* (_, body) := spa_pod_parser_get_pod_body in st_ret (body - 8).

(** ** Containers *)

Definition spa_pod_parser_init_struct_body (m : mem) (pod : spa_pod) (body : Z)
  : outcome spa_pod_parser :=
  if negb (spa_pod_is_struct pod) then Err EINVAL
  else
    let p := spa_pod_parser_init_pod_body m pod body in
    let p := spa_pod_parser_push pod (p_offset p) p in
    Ret (set_offset (p_offset p + 8) p).

Definition spa_pod_parser_push_struct_body : ST spa_pod_parser (spa_pod * Z) :=
  let* (str, body) := spa_pod_parser_current_body in
  if negb (spa_pod_is_struct str) then st_err EINVAL
  else
    st_modify (fun p => spa_pod_parser_push str (p_offset p) p) ;;;
    st_modify (fun p => set_offset (u32 (p_offset p + 8)) p) ;;;
    st_ret (str, body).

Definition spa_pod_parser_push_struct : ST spa_pod_parser unit :=
  spa_pod_parser_push_struct_body ;;; st_ret tt.

Definition spa_pod_parser_init_object_body (m : mem) (pod : spa_pod) (body : Z)
  : outcome (spa_pod_parser * spa_pod_object * Z) :=
  if negb (spa_pod_is_object pod) then Err EINVAL
  else
    let p := spa_pod_parser_init_pod_body m pod body in
    let! (object, object_body) := spa_pod_body_get_object pod m body in
    let p := spa_pod_parser_push pod (p_offset p) p in
    Ret (set_offset (p_offset p + 16) p, object, object_body).

Definition spa_pod_parser_push_object_body : ST spa_pod_parser (spa_pod_object * Z) :=
  let* (pod, body) := spa_pod_parser_current_body in
  let* p := st_get in
  let* (object, object_body) := st_lift (spa_pod_body_get_object pod (p_mem p) body) in
  st_modify (fun p => spa_pod_parser_push pod (p_offset p) p) ;;;
  st_modify (fun p => set_offset (u32 (p_offset p + 16)) p) ;;;
  st_ret (object, object_body).

(** [spa_pod_parser_push_object]: the object id, or [-EPROTO] with the frame
    popped again when the object has another type. *)
Definition spa_pod_parser_push_object (type : Z) : ST spa_pod_parser Z :=
  let* (obj, _) := spa_pod_parser_push_object_body in
  if negb (type =? object_type obj) then
    st_modify spa_pod_parser_unpush ;;; st_err EPROTO
  else st_ret (object_id obj).

Definition load_prop (header : mem) : outcome spa_pod_prop :=
  let! key := load_u32 header 0 in
  let! flags := load_u32 header 4 in
  let! value := load_pod header 8 in
  Ret (mk_prop key flags value).

Definition spa_pod_parser_get_prop_body : ST spa_pod_parser (spa_pod_prop * Z) :=
  let* (header, body) := spa_pod_parser_get_header 16 8 in
  let* prop := st_lift (load_prop header) in
  st_modify (fun p =>
    set_offset (u32 (p_offset p + round_up_n 64 (16 + pod_size (prop_value prop)) 8)) p) ;;;
  st_ret (prop, body).

Definition spa_pod_parser_push_sequence_body : ST spa_pod_parser (spa_pod_sequence * Z) :=
  let* (pod, body) := spa_pod_parser_current_body in
  let* p := st_get in
  let* (seq, seq_body) := st_lift (spa_pod_body_get_sequence pod (p_mem p) body) in
  st_modify (fun p => spa_pod_parser_push pod (p_offset p) p) ;;;
  st_modify (fun p => set_offset (u32 (p_offset p + 16)) p) ;;;
  st_ret (seq, seq_body).

Definition load_control (header : mem) : outcome spa_pod_control :=
  let! offset := load_u32 header 0 in
  let! type := load_u32 header 4 in
  let! value := load_pod header 8 in
  Ret (mk_control offset type value).

Definition spa_pod_parser_get_control_body : ST spa_pod_parser (spa_pod_control * Z) :=
  let* (header, body) := spa_pod_parser_get_header 16 8 in
  let* control := st_lift (load_control header) in
  st_modify (fun p =>
    set_offset (u32 (p_offset p + round_up_n 64 (16 + pod_size (control_value control)) 8)) p) ;;;
  st_ret (control, body).

(** ** Looking up a property

    The [while] loops run on fuel; every round that goes on moves the offset
    by at least 16 bytes, so [p_size] rounds are enough. *)
Fixpoint find_prop_loop (fuel : nat) (stop : option Z) (key : Z)
  : ST spa_pod_parser (option (spa_pod_prop * Z)) :=
  match fuel with
  | O => st_ret None
  | S fuel =>
      let* p := st_get in
      if match stop with Some s => p_offset p =? s | None => false end then st_ret None
      else
        let* r := st_try spa_pod_parser_get_prop_body in
        match r with
        | inr _ => st_ret None
        | inl (prop, body) =>
            if prop_key prop =? key then st_ret (Some (prop, body))
            else find_prop_loop fuel stop key
        end
  end.

Definition spa_pod_parser_object_find_prop (key : Z) : ST spa_pod_parser (spa_pod_prop * Z) :=
  let* p := st_get in
  let fuel := S (Z.to_nat (p_size p)) in
  match p_frames p with
  | [] => st_err EINVAL
  | f :: _ =>
      if negb (pod_type (frame_pod f) =? SPA_TYPE_Object) then st_err EINVAL
      else
        let start_offset := frame_offset f in
        let* r := find_prop_loop fuel None key in
        match r with
        | Some res => st_ret res
        | None =>
            st_modify (spa_pod_parser_restart f) ;;;
            st_modify (fun p => set_offset (u32 (p_offset p + 16)) p) ;;;
            let* r := find_prop_loop fuel (Some start_offset) key in
            match r with
            | Some res => st_ret res
            | None => st_err ENOENT
            end
        end
  end.

(** ** Varargs: [spa_pod_parser_getv] *)

Definition ch (c : ascii) (d : ascii) : bool := Ascii.eqb c d.

(** [spa_pod_parser_body_can_collect] on a non-NULL pod. *)
Definition spa_pod_parser_body_can_collect (pod : spa_pod) (m : mem) (body : Z) (type : ascii)
  : outcome bool :=
  let check (pod : spa_pod) : bool :=
    if ch type "P" || ch type "Q" then true
    else if ch type "b" then spa_pod_is_bool pod
    else if ch type "I" then spa_pod_is_id pod
    else if ch type "i" then spa_pod_is_int pod
    else if ch type "l" then spa_pod_is_long pod
    else if ch type "f" then spa_pod_is_float pod
    else if ch type "d" then spa_pod_is_double pod
    else if ch type "s" then spa_pod_is_string pod || spa_pod_is_none pod
    else if ch type "S" then spa_pod_is_string pod
    else if ch type "y" then spa_pod_is_bytes pod
    else if ch type "R" then spa_pod_is_rectangle pod
    else if ch type "F" then spa_pod_is_fraction pod
    else if ch type "B" then spa_pod_is_bitmap pod
    else if ch type "a" then spa_pod_is_array pod
    else if ch type "p" then spa_pod_is_pointer pod
    else if ch type "h" then spa_pod_is_fd pod
    else if ch type "T" || ch type "U" then spa_pod_is_struct pod || spa_pod_is_none pod
    else if ch type "N" || ch type "O" then spa_pod_is_object pod || spa_pod_is_none pod
    else false in
  if pod_type pod =? SPA_TYPE_Choice then
    if negb (spa_pod_is_choice pod) then Ret false
    else if ch type "V" || ch type "W" then Ret true
    else
      match spa_pod_body_get_choice pod m body with
      | Fault => Fault
      | Err _ => Ret false
      | Ret (choice, _) =>
          if negb (choice_type choice =? SPA_CHOICE_None) then Ret false
          else Ret (check (choice_child choice))
      end
  else Ret (check pod).

(** What a format letter stores through its out-parameters. *)
Inductive parser_val : Type :=
| V_bool (b : bool)
| V_num (v : Z)
| V_string (s : option Z)
| V_stringn (res : list byte)
| V_bytes (value len : Z)
| V_rectangle (r : spa_rectangle)
| V_fraction (f : spa_fraction)
| V_array (body n_values val_size val_type : Z)
| V_pointer (type value : Z)
| V_pod (p : option Z)
| V_pod_body (p : spa_pod) (body : option Z).

(** The NULL body of a property that was not found: no load relative to it can
    land inside a region. *)
Definition NULL_body : Z := - 2 ^ 64.

Definition collect_as {A} (k : A -> parser_val) (m : outcome A) : outcome parser_val :=
  let! v := m in Ret (k v).

(** [SPA_POD_PARSER_COLLECT_BODY]: a choice of type None is seen through to
    its child.  [body] is NULL when the property was not found; [maxlen] and
    [dest] belong to the letter S.  The out-pointers are not NULL. *)
Definition SPA_POD_PARSER_COLLECT_BODY (pod : spa_pod) (m : mem) (body : option Z)
    (type : ascii) (dest : list byte) (maxlen : Z) : outcome parser_val :=
  let b := default NULL_body body in
  let! (p, pb) :=
    if (pod_type pod =? SPA_TYPE_Choice) && negb (ch type "V") && negb (ch type "W") then
      match spa_pod_body_get_choice pod m b with
      | Fault => Fault
      | Err _ => Ret (pod, body)
      | Ret (choice, b') =>
          if choice_type choice =? SPA_CHOICE_None
          then Ret (choice_child choice, Some b') else Ret (pod, Some b')
      end
    else Ret (pod, body) in
  let b := default NULL_body pb in
  let is_ptr (valid do_body : bool) : outcome parser_val :=
    if negb valid then Err EINVAL
    else if do_body then Ret (V_pod_body p pb)
    else Ret (V_pod (if pod_type p =? SPA_TYPE_None then None else Some (b - 8))) in
  if ch type "b" then collect_as V_bool (spa_pod_body_get_bool p m b)
  else if ch type "I" then collect_as V_num (spa_pod_body_get_id p m b)
  else if ch type "i" then collect_as V_num (spa_pod_body_get_int p m b)
  else if ch type "l" then collect_as V_num (spa_pod_body_get_long p m b)
  else if ch type "f" then collect_as V_num (spa_pod_body_get_float p m b)
  else if ch type "d" then collect_as V_num (spa_pod_body_get_double p m b)
  else if ch type "s" then
    if pod_type p =? SPA_TYPE_None then Ret (V_string None)
    else collect_as (V_string ∘ Some) (spa_pod_body_get_string p m b)
  else if ch type "S" then
    let! (res, d) := spa_pod_body_copy_string p m b dest maxlen in
    if res <? 0 then Err (- res) else Ret (V_stringn d)
  else if ch type "y" then collect_as (uncurry V_bytes) (spa_pod_body_get_bytes p m b)
  else if ch type "R" then collect_as V_rectangle (spa_pod_body_get_rectangle p m b)
  else if ch type "F" then collect_as V_fraction (spa_pod_body_get_fraction p m b)
  else if ch type "B" then collect_as (V_pod ∘ Some) (spa_pod_body_get_bitmap p m b)
  else if ch type "a" then
    let! v := spa_pod_body_get_array_values p m b in
    match v with
    | None => Err EINVAL
    | Some (vals, (n, sz, ty)) => Ret (V_array vals n sz ty)
    end
  else if ch type "p" then collect_as (uncurry V_pointer) (spa_pod_body_get_pointer p m b)
  else if ch type "h" then collect_as V_num (spa_pod_body_get_fd p m b)
  else if ch type "Q" then is_ptr true true
  else if ch type "P" then is_ptr true false
  else if ch type "U" then is_ptr (spa_pod_is_struct p || spa_pod_is_none p) true
  else if ch type "T" then is_ptr (spa_pod_is_struct p || spa_pod_is_none p) false
  else if ch type "N" then is_ptr (spa_pod_is_object p || spa_pod_is_none p) true
  else if ch type "O" then is_ptr (spa_pod_is_object p || spa_pod_is_none p) false
  else if ch type "W" then is_ptr (spa_pod_is_choice p || spa_pod_is_none p) true
  else if ch type "V" then is_ptr (spa_pod_is_choice p || spa_pod_is_none p) false
  else Err EINVAL.

(** One round of the argument loop: the property key (0 ends an object's
    list), whether the flags are asked for (the key [SPA_ID_INVALID] escape),
    the ['?'] of an optional value and the format letter. *)
Record get_item : Type := mk_get {
  get_key : Z;
  get_flags : bool;
  get_optional : bool;
  get_type : ascii;
  get_dest : list byte }.

(** What a round stored: the flags of the property and its value. *)
Record got_item : Type := mk_got {
  got_flags : option Z;
  got_value : option parser_val }.

(** What is left in [pod] when [spa_pod_parser_next_body] fails: the header
    that was copied before the size check, or the initial None pod. *)
Definition failed_next_pod : ST spa_pod_parser spa_pod := fun p =>
  (let! copied := copy_header p (p_offset p) (parser_limit p) 8 in
   match copied with
   | Some header => load_pod header 0
   | None => Ret (mk_pod 0 SPA_TYPE_None)
   end, p).

(** The pod, its body (NULL when nothing was found) and the flags one round
    of [spa_pod_parser_getv] collects from. *)
Definition getv_fetch (ftype : Z) (it : get_item)
  : ST spa_pod_parser (spa_pod * option Z * option Z) :=
  if ftype =? SPA_TYPE_Object then
    let* r := st_try (spa_pod_parser_object_find_prop (get_key it)) in
    match r with
    | inl (prop, body) =>
        st_ret (prop_value prop, Some body,
                if get_flags it then Some (prop_flags prop) else None)
    | inr _ => st_ret (mk_pod 0 SPA_TYPE_None, None, None)
    end
  else if ftype =? SPA_TYPE_Struct then
    let* r := st_try spa_pod_parser_next_body in
    match r with
    | inl (pod, body) => st_ret (pod, Some body, None)
    | inr _ => let* pod := failed_next_pod in st_ret (pod, None, None)
    end
  else st_ret (mk_pod 0 SPA_TYPE_None, None, None).

(** [spa_pod_parser_getv]; the C result is the number of stored values. *)
Fixpoint getv_loop (ftype : Z) (items : list get_item) (acc : list got_item)
  : ST spa_pod_parser (list got_item) :=
  match items with
  | [] => st_ret acc
  | it :: rest =>
      if (ftype =? SPA_TYPE_Object) && (get_key it =? 0) then st_ret acc
      else
        let* (pod, body, flags) := getv_fetch ftype it in
        let* p := st_get in
        let* r := st_try (st_lift (SPA_POD_PARSER_COLLECT_BODY pod (p_mem p) body (get_type it)
                                     (get_dest it) (zlen (get_dest it)))) in
        match r with
        | inl v => getv_loop ftype rest (acc ++ [mk_got flags (Some v)])
        | inr _ =>
            if get_optional it then getv_loop ftype rest (acc ++ [mk_got flags None])
            else match body with None => st_err ESRCH | Some _ => st_err EPROTO end
        end
  end.

Definition spa_pod_parser_getv (items : list get_item) : ST spa_pod_parser (list got_item) :=
  let* p := st_get in
  match p_frames p with
  | [] => st_err EINVAL
  | f :: _ => getv_loop (pod_type (frame_pod f)) items []
  end.

(** [spa_pod_parser_get(parser, ...)] only packs the argument list. *)
Definition spa_pod_parser_get := spa_pod_parser_getv.

(** [spa_pod_parser_get_object] and [spa_pod_parser_get_struct]: the frame is
    popped whether or not the values were found. *)
Definition spa_pod_parser_get_object (type : Z) (items : list get_item)
  : ST spa_pod_parser (Z * list got_item) :=
  let* id := spa_pod_parser_push_object type in
  let* r := st_try (spa_pod_parser_get items) in
  st_modify spa_pod_parser_pop ;;;
  match r with inl vs => st_ret (id, vs) | inr e => st_err e end.

Definition spa_pod_parser_get_struct (items : list get_item)
  : ST spa_pod_parser (list got_item) :=
  spa_pod_parser_push_struct ;;;
  let* r := st_try (spa_pod_parser_get items) in
  st_modify spa_pod_parser_pop ;;;
  match r with inl vs => st_ret vs | inr e => st_err e end.

Definition spa_pod_body_parse_object (m : mem) (pod : spa_pod) (body type : Z)
    (items : list get_item) : outcome (Z * list got_item) :=
  (spa_pod_parser_get_object type items (spa_pod_parser_init_pod_body m pod body)).1.

Definition spa_pod_body_parse_struct (m : mem) (pod : spa_pod) (body : Z)
    (items : list get_item) : outcome (list got_item) :=
  (spa_pod_parser_get_struct items (spa_pod_parser_init_pod_body m pod body)).1.

(** [spa_pod_parse_object(pod, type, NULL, ...)] on a pod in memory. *)
Definition spa_pod_parse_object (m : mem) (pod type : Z) (items : list get_item)
  : outcome (Z * list got_item) :=
  let! p := load_pod m pod in spa_pod_body_parse_object m p (pod + 8) type items.
