(* ===== verification/PodSafety.v ===== *)
(** * Memory safety of the POD parser

    The parser works on bytes that another process may have written.  This
    file shows that the accessors of [body.h] and every typed read, push and
    pop of [parser.h] stay inside the buffer whatever its contents, that the
    pointers they hand out do too, and that the property lookup terminates. *)
From S2P Require Import Prelude Bytes PodBody PodBuilder PodParser.
From Stdlib Require Import Ascii.

(** ** Invariants *)

(** The body of [pod] lies inside the region. *)
Definition body_ok (m : mem) (pod : spa_pod) (body : Z) : Prop :=
  0 <= body /\ 0 <= pod_size pod /\ body + pod_size pod <= zlen m.

Definition frame_in (size : Z) (f : spa_pod_frame) : Prop :=
  0 <= frame_offset f /\ 0 <= pod_size (frame_pod f) /\
  frame_offset f + 8 + pod_size (frame_pod f) <= size.

Record parser_ok (p : spa_pod_parser) : Prop := mk_parser_ok {
  pk_data : 0 <= p_data p;
  pk_mem : p_data p + p_size p <= zlen (p_mem p);
  pk_size : is_u32 (p_size p);
  pk_offset : is_u32 (p_offset p);
  pk_frames : Forall (frame_in (p_size p)) (p_frames p) }.

Definition same_buffer (p p' : spa_pod_parser) : Prop :=
  p_mem p' = p_mem p /\ p_data p' = p_data p /\ p_size p' = p_size p.

(** ** Accessors *)

Lemma check_type_spec p t :
  SPA_POD_CHECK_TYPE p t = true -> pod_size p < 2 ^ 20 /\ pod_type p = t.
Proof. unfold SPA_POD_CHECK_TYPE, SPA_POD_IS_VALID, SPA_POD_MAX_SIZE. intros. bool_to_prop. lia. Qed.

Lemma check_spec p t n :
  SPA_POD_CHECK p t n = true -> n <= pod_size p < 2 ^ 20 /\ pod_type p = t.
Proof.
  unfold SPA_POD_CHECK. intros H. bool_to_prop.
  pose proof (check_type_spec p t). intuition lia.
Qed.

(** Step through the loads of an accessor whose size check succeeded. *)
Ltac step_loads :=
  repeat match goal with
  | |- context [load_u32 ?m ?o] =>
      let v := fresh "v" in let E := fresh "E" in let R := fresh "R" in
      destruct (load_u32_ok m o) as (v & E & R); [lia|lia|rewrite E; clear E; simpl obind]
  | |- context [load_u64 ?m ?o] =>
      let v := fresh "v" in let E := fresh "E" in let R := fresh "R" in
      destruct (load_u64_ok m o) as (v & E & R); [lia|lia|rewrite E; clear E; simpl obind]
  | |- context [load_i32 ?m ?o] =>
      let v := fresh "v" in let E := fresh "E" in let R := fresh "R" in
      destruct (load_i32_ok m o) as (v & E & R); [lia|lia|rewrite E; clear E; simpl obind]
  | |- context [load_i64 ?m ?o] =>
      let v := fresh "v" in let E := fresh "E" in let R := fresh "R" in
      destruct (load_i64_ok m o) as (v & E & R); [lia|lia|rewrite E; clear E; simpl obind]
  end.

Ltac accessor :=
  intros (? & ? & ?); unfold load_pod; case_if; [done|];
  match goal with H : _ = true |- _ => apply check_spec in H || apply check_type_spec in H end;
  step_loads; simpl; intuition (assumption || lia).

Section Accessors.
Context (p : spa_pod) (m : mem) (body : Z).
Notation ok := (body_ok m p body).

Lemma get_bool_safe : ok -> o_wp (spa_pod_body_get_bool p m body) (fun _ => True) True.
Proof. unfold spa_pod_body_get_bool, spa_pod_is_bool. accessor. Qed.
Lemma get_id_safe : ok -> o_wp (spa_pod_body_get_id p m body) is_u32 True.
Proof. unfold spa_pod_body_get_id, spa_pod_is_id. accessor. Qed.
Lemma get_int_safe : ok -> o_wp (spa_pod_body_get_int p m body) is_i32 True.
Proof. unfold spa_pod_body_get_int, spa_pod_is_int. accessor. Qed.
Lemma get_long_safe : ok -> o_wp (spa_pod_body_get_long p m body) is_i64 True.
Proof. unfold spa_pod_body_get_long, spa_pod_is_long. accessor. Qed.
Lemma get_float_safe : ok -> o_wp (spa_pod_body_get_float p m body) is_u32 True.
Proof. unfold spa_pod_body_get_float, spa_pod_is_float. accessor. Qed.
Lemma get_double_safe : ok -> o_wp (spa_pod_body_get_double p m body) is_u64 True.
Proof. unfold spa_pod_body_get_double, spa_pod_is_double. accessor. Qed.
Lemma get_fd_safe : ok -> o_wp (spa_pod_body_get_fd p m body) is_i64 True.
Proof. unfold spa_pod_body_get_fd, spa_pod_is_fd. accessor. Qed.
Lemma get_rectangle_safe : ok ->
  o_wp (spa_pod_body_get_rectangle p m body) (fun r => is_u32 (width r) /\ is_u32 (height r)) True.
Proof. unfold spa_pod_body_get_rectangle, spa_pod_is_rectangle. accessor. Qed.
Lemma get_fraction_safe : ok ->
  o_wp (spa_pod_body_get_fraction p m body) (fun r => is_u32 (num r) /\ is_u32 (denom r)) True.
Proof. unfold spa_pod_body_get_fraction, spa_pod_is_fraction. accessor. Qed.
Lemma get_pointer_safe : ok -> o_wp (spa_pod_body_get_pointer p m body) (fun _ => True) True.
Proof. unfold spa_pod_body_get_pointer, spa_pod_is_pointer. accessor. Qed.
Lemma get_bytes_safe : ok ->
  o_wp (spa_pod_body_get_bytes p m body)
    (fun '(v, len) => v = body /\ len = pod_size p) True.
Proof. unfold spa_pod_body_get_bytes, spa_pod_is_bytes. accessor. Qed.
Lemma get_object_safe : ok ->
  o_wp (spa_pod_body_get_object p m body)
    (fun '(o, b) => object_pod o = p /\ b = body + 8 /\ 8 <= pod_size p) True.
Proof. unfold spa_pod_body_get_object, spa_pod_is_object. accessor. Qed.
Lemma get_sequence_safe : ok ->
  o_wp (spa_pod_body_get_sequence p m body)
    (fun '(o, b) => seq_pod o = p /\ b = body + 8 /\ 8 <= pod_size p) True.
Proof. unfold spa_pod_body_get_sequence, spa_pod_is_sequence. accessor. Qed.
Lemma get_choice_safe : ok ->
  o_wp (spa_pod_body_get_choice p m body)
    (fun '(c, b) => choice_pod c = p /\ b = body + 16 /\ 16 <= pod_size p /\
                    is_u32 (pod_size (choice_child c))) True.
Proof. unfold spa_pod_body_get_choice, spa_pod_is_choice. accessor. Qed.
Lemma get_array_safe : ok ->
  o_wp (spa_pod_body_get_array p m body)
    (fun '(a, b) => arr_pod a = p /\ b = body + 8 /\ 8 <= pod_size p < 2 ^ 20 /\
                    is_u32 (pod_size (arr_child a))) True.
Proof. unfold spa_pod_body_get_array, spa_pod_is_array. accessor. Qed.
End Accessors.

(** The string accessor hands out a pointer to a NUL-terminated string that
    ends inside the body. *)
Lemma load_u8_ok m off :
  0 <= off -> off + 1 <= zlen m ->
  load_u8 m off = Ret (le_combine (slice off 1 m)).
Proof. intros. unfold load_u8. by rewrite load_ok by lia. Qed.

Lemma slice_1 m off :
  0 <= off -> off + 1 <= zlen m ->
  exists x, m !! Z.to_nat off = Some x /\ slice off 1 m = [x].
Proof.
  intros H1 H2. destruct (lookup_lt_is_Some_2 m (Z.to_nat off)) as [x Hx].
  { unfold zlen in *. lia. }
  exists x. split; [done|]. unfold slice. change (Z.to_nat 1) with 1%nat.
  by rewrite (drop_S _ _ _ Hx).
Qed.

Lemma le_combine_one x : le_combine [x] = 0 -> x = Byte.x00.
Proof.
  intros H. pose proof (split_le_combine [x]) as S. rewrite H in S.
  change (le_split (length [x]) 0) with [byte.of_Z 0] in S. by injection S as <-.
Qed.

(** The first NUL of a list is no later than any position holding one. *)
Lemma cstr_before bs k :
  bs !! k = Some Byte.x00 -> exists s, cstr bs = Some s /\ (length s <= k)%nat.
Proof.
  revert k. induction bs as [|x bs IH]; [done|]. intros k H. simpl.
  destruct (Byte.eqb x Byte.x00) eqn:E; [exists []; simpl; split; [done|lia]|].
  destruct k as [|k]; [simpl in H; injection H as ->; done|].
  destruct (IH k H) as (s & -> & ?). exists (x :: s). split; [done|simpl; lia].
Qed.

Lemma get_string_safe p m body :
  body_ok m p body ->
  o_wp (spa_pod_body_get_string p m body)
    (fun s => s = body /\ exists str, load_cstr m s = Ret str /\ zlen str < pod_size p) True.
Proof.
  intros (H1 & H2 & H3). unfold spa_pod_body_get_string, spa_pod_is_string.
  case_if; [done|]. apply check_spec in E as [? _].
  rewrite load_u8_ok by lia. simpl.
  destruct (slice_1 m (body + (pod_size p - 1))) as (x & Hx & ->); [lia|lia|].
  destruct (le_combine [x] =? 0) eqn:Ez; [|done]. apply Z.eqb_eq, le_combine_one in Ez as ->.
  simpl. split; [done|].
  destruct (cstr_before (drop (Z.to_nat body) m) (Z.to_nat (pod_size p - 1))) as (s & Hs & ?).
  { rewrite lookup_drop. rewrite <- Hx. f_equal. lia. }
  exists s. unfold load_cstr. rewrite (proj2 (in_bounds_true _ _ _)), Hs by lia.
  split; [done|]. unfold zlen. lia.
Qed.

Lemma copy_string_safe p m body dest maxlen :
  body_ok m p body -> no_fault (spa_pod_body_copy_string p m body dest maxlen).
Proof.
  intros H. pose proof (get_string_safe p m body H) as W. unfold spa_pod_body_copy_string.
  destruct (spa_pod_body_get_string p m body); simpl in W; [|done..].
  destruct W as (_ & str & -> & _). repeat case_if; done.
Qed.

(** The values an array accessor counts lie inside the array's body. *)
Lemma array_values_extent arr :
  8 <= pod_size (arr_pod arr) < 2 ^ 32 -> is_u32 (pod_size (arr_child arr)) ->
  let '(n, sz, _) := spa_pod_array_body_get_values arr in
  0 <= n /\ 0 <= sz /\ n * sz <= pod_size (arr_pod arr) - 8.
Proof.
  unfold is_u32. intros H1 H2. unfold spa_pod_array_body_get_values.
  destruct (pod_size (arr_child arr) =? 0) eqn:Ez; bool_to_prop; [case_if; lia|].
  rewrite (wrap_small 64) by lia.
  set (q := (pod_size (arr_pod arr) - 8) / pod_size (arr_child arr)).
  assert (0 <= q <= pod_size (arr_pod arr) - 8 /\
          q * pod_size (arr_child arr) <= pod_size (arr_pod arr) - 8) as [].
  { subst q. split; [split|].
    - apply Z.div_pos; lia.
    - apply Z.div_le_upper_bound; nia.
    - rewrite Z.mul_comm. apply Z.mul_div_le. lia. }
  rewrite wrap_small by lia. case_if; lia.
Qed.

Lemma get_array_values_safe p m body :
  body_ok m p body ->
  o_wp (spa_pod_body_get_array_values p m body)
    (fun r => match r with
              | Some (vals, (n, sz, _)) =>
                  0 <= vals /\ 0 <= n /\ 0 <= sz /\ n * sz < 2 ^ 20 /\ vals + n * sz <= zlen m
              | None => True
              end) True.
Proof.
  intros H. pose proof (get_array_safe p m body H) as W. unfold spa_pod_body_get_array_values.
  destruct (spa_pod_body_get_array p m body) as [[arr b]| |]; cbn [o_wp] in *; [|done..].
  destruct W as (Hp & -> & ? & ?). pose proof (array_values_extent arr) as X.
  destruct (spa_pod_array_body_get_values arr) as [[n sz] ty].
  destruct H as (? & ? & ?). rewrite Hp in X.
  specialize (X ltac:(lia) ltac:(done)). lia.
Qed.

Lemma copy_array_safe p m body type size max :
  body_ok m p body -> 0 <= max -> no_fault (spa_pod_body_copy_array p m body type size max).
Proof.
  intros H Hm. pose proof (get_array_values_safe p m body H) as W.
  unfold spa_pod_body_copy_array.
  destruct (spa_pod_body_get_array_values p m body) as [[[vals [[n sz] ty]]|]| |];
    simpl in *; [|done..].
  case_if; [done|].
  destruct W as (? & ? & ? & ? & ?). assert (0 <= Z.min n max <= n) by lia.
  assert (0 <= sz * Z.min n max <= n * sz) by nia.
  rewrite wrap_small by lia. rewrite load_ok by lia. done.
Qed.

(** ** Headers *)

Lemma limit_in p : parser_ok p -> 0 <= parser_limit p <= p_size p.
Proof.
  intros [? ? Hs ? Hf]. unfold parser_limit, is_u32 in *.
  destruct (p_frames p) as [|f fs]; [lia|].
  apply Forall_inv in Hf as (? & ? & ?). unfold SPA_POD_SIZE.
  rewrite wrap_small; lia.
Qed.

Lemma load_pod_ok m off :
  0 <= off -> off + 8 <= zlen m -> exists p, load_pod m off = Ret p /\ is_u32 (pod_size p).
Proof.
  intros. unfold load_pod.
  destruct (load_u32_ok m off) as (s & -> & ?); [lia..|].
  destruct (load_u32_ok m (off + 4)) as (t & -> & _); [lia..|].
  by exists (mk_pod s t).
Qed.

(** A header that was accepted fits, with its padded body, below [size]. *)
Lemma read_header_safe p off size hs po :
  parser_ok p -> 0 <= off -> size <= p_size p -> 0 <= po -> po + 8 <= hs ->
  o_wp (spa_pod_parser_read_header p off size hs po)
    (fun '(h, body) => zlen h = hs /\ body = p_data p + off + hs /\
       exists pod, load_pod h po = Ret pod /\ is_u32 (pod_size pod) /\
                   off + hs + pad8 (pod_size pod) <= size) True.
Proof.
  intros [? ? Hs ? ?] Ho Hsz Hpo Hhs. unfold spa_pod_parser_read_header, copy_header.
  destruct ((off + hs <=? size) && (Z.land off 7 =? 0)) eqn:C; [|done]. bool_to_prop.
  rewrite load_ok by lia. simpl.
  pose proof (zlen_slice (p_mem p) (p_data p + off) hs) as L.
  destruct (load_pod_ok (slice (p_data p + off) hs (p_mem p)) po) as (pod & E & R); [lia..|].
  rewrite E. simpl. unfold is_u32 in *. rewrite round_up_n_8 by lia.
  case_if; simpl; [|done]. split; [apply L; lia|]. split; [lia|]. eauto.
Qed.

Lemma current_body_safe p :
  parser_ok p ->
  st_wp spa_pod_parser_current_body
    (fun '(pod, body) p' => p' = p /\ is_u32 (pod_size pod) /\ body = p_data p + p_offset p + 8 /\
       p_offset p + 8 + pad8 (pod_size pod) <= parser_limit p) (fun p' => p' = p) p.
Proof.
  intros H. pose proof (limit_in p H). pose proof (pk_offset p H) as [? _].
  apply st_wp_bind. unfold st_wp, spa_pod_parser_get_header.
  pose proof (read_header_safe p (p_offset p) (parser_limit p) 8 0 H) as W.
  destruct (spa_pod_parser_read_header _ _ _ _ _) as [[h b]| |]; simpl in *; try done.
  - destruct W as (? & -> & pod & -> & ? & ?); [lia..|]. cbn. split_and!; (done || lia).
  - apply W; lia.
Qed.

Lemma body_in p pod :
  parser_ok p -> is_u32 (pod_size pod) -> p_offset p + 8 + pad8 (pod_size pod) <= parser_limit p ->
  body_ok (p_mem p) pod (p_data p + p_offset p + 8) /\
  frame_in (p_size p) (mk_frame pod (p_offset p) (p_flags p)).
Proof.
  intros H ? ?. pose proof (limit_in p H). pose proof (pad8_bounds (pod_size pod)).
  destruct H. unfold body_ok, frame_in, is_u32 in *. simpl. lia.
Qed.

(** ** Operations preserve the invariant *)

(** From a well-formed parser, [m] does not fault, keeps the parser well formed
    on the same buffer, and its result satisfies [Q]. *)
Definition op_safe {A} (m : ST spa_pod_parser A) (Q : spa_pod_parser -> A -> Prop) : Prop :=
  forall p, parser_ok p ->
  st_wp m (fun a p' => (parser_ok p' /\ same_buffer p p') /\ Q p a)
          (fun p' => parser_ok p' /\ same_buffer p p') p.

Lemma parser_ok_offset p off : parser_ok p -> is_u32 off -> parser_ok (set_offset off p).
Proof. intros [] ?. by constructor. Qed.
Lemma parser_ok_push p pod off :
  parser_ok p -> frame_in (p_size p) (mk_frame pod off (p_flags p)) ->
  parser_ok (spa_pod_parser_push pod off p).
Proof. intros [] ?. by constructor; [..|apply Forall_cons]. Qed.
Lemma is_u32_wrap z : is_u32 (u32 z).
Proof. by apply (wrap_range 32). Qed.
#[export] Hint Resolve parser_ok_offset parser_ok_push is_u32_wrap : cdb.

Lemma same_buffer_refl p : same_buffer p p.
Proof. done. Qed.
Lemma same_buffer_trans p q r : same_buffer p q -> same_buffer q r -> same_buffer p r.
Proof. intros (? & ? & ?) (? & ? & ?). repeat split; congruence. Qed.
Lemma same_buffer_set_offset p off : same_buffer p (set_offset off p).
Proof. done. Qed.
#[export] Hint Resolve same_buffer_refl same_buffer_set_offset : cdb.

Lemma advance_ok pod p : parser_ok p -> parser_ok (spa_pod_parser_advance pod p).
Proof. unfold spa_pod_parser_advance. auto with cdb. Qed.
Lemma same_buffer_advance pod p : same_buffer p (spa_pod_parser_advance pod p).
Proof. done. Qed.
#[export] Hint Resolve advance_ok same_buffer_advance : cdb.

(** Use the header lemma at the head of an operation. *)
Ltac start_current :=
  let p := fresh "p" in let Hp := fresh "Hp" in
  intros p Hp; apply st_wp_bind;
  eapply st_wp_mono; [by apply current_body_safe| |by intros ? ->; auto with cdb];
  intros [pod body] ? (-> & Hs & -> & Hl);
  destruct (body_in p pod Hp Hs Hl) as [Hb Hf].

(** The pointer [b] to [n] bytes handed out by an operation stays inside. *)
Definition extent_in (p : spa_pod_parser) (b n : Z) : Prop :=
  p_data p <= b /\ 0 <= n /\ b + n <= p_data p + p_size p.

Lemma extent_body p pod :
  parser_ok p -> is_u32 (pod_size pod) -> p_offset p + 8 + pad8 (pod_size pod) <= parser_limit p ->
  extent_in p (p_data p + p_offset p) (8 + pod_size pod).
Proof.
  intros H ? ?. pose proof (limit_in p H). pose proof (pad8_bounds (pod_size pod)).
  destruct H. unfold extent_in, is_u32 in *. lia.
Qed.

(** Every typed read is safe because its accessor is. *)
Lemma parser_get_safe {A} (get : spa_pod -> mem -> Z -> outcome A) (Q : spa_pod -> mem -> Z -> A -> Prop) :
  (forall pod m body, body_ok m pod body -> o_wp (get pod m body) (Q pod m body) True) ->
  op_safe (parser_get get)
    (fun p a => exists pod body, extent_in p body (pod_size pod) /\ Q pod (p_mem p) body a).
Proof.
  intros Hget. start_current. pose proof (extent_body p pod Hp Hs Hl) as X.
  apply st_wp_bind, st_wp_get, st_wp_bind, st_wp_lift.
  eapply o_wp_mono; [by apply Hget| |auto with cdb].
  intros a Ha. cbn. split; [auto with cdb|]. do 2 eexists. split; [|done].
  unfold extent_in, is_u32 in *. lia.
Qed.

Lemma get_pod_body_safe :
  op_safe spa_pod_parser_get_pod_body (fun p '(pod, b) => extent_in p b (pod_size pod)).
Proof.
  start_current. pose proof (extent_body p pod Hp Hs Hl) as [].
  cbn. split; [by auto with cdb|]. unfold extent_in, is_u32 in *. lia.
Qed.

Lemma get_pod_safe : op_safe spa_pod_parser_get_pod (fun p b => extent_in p b 8).
Proof.
  intros p Hp. apply st_wp_bind. apply st_wp_bind.
  eapply st_wp_mono; [by apply current_body_safe| |by intros ? ->; auto with cdb].
  intros [pod body] ? (-> & Hs & -> & Hl). pose proof (extent_body p pod Hp Hs Hl) as [].
  cbn. split; [by auto with cdb|]. unfold extent_in, is_u32 in *. lia.
Qed.

Lemma next_body_safe :
  op_safe spa_pod_parser_next_body (fun p '(pod, b) => extent_in p b (pod_size pod)).
Proof.
  intros p Hp. apply st_wp_bind, st_wp_try.
  eapply st_wp_mono; [by apply current_body_safe| |by intros ? ->; cbn; auto with cdb].
  intros [pod body] ? (-> & Hs & -> & Hl). pose proof (extent_body p pod Hp Hs Hl) as [].
  cbn. split; [by auto with cdb|]. unfold extent_in, is_u32 in *. lia.
Qed.

Lemma next_safe :
  op_safe spa_pod_parser_next (fun p b => forall a, b = Some a -> extent_in p a 8).
Proof.
  intros p Hp. apply st_wp_bind, st_wp_try.
  eapply st_wp_mono; [by apply current_body_safe| |by intros ? ->; cbn; auto with cdb].
  intros [pod body] ? (-> & Hs & -> & Hl). pose proof (extent_body p pod Hp Hs Hl) as [].
  cbn. split; [by auto with cdb|]. intros ? [= <-]. unfold extent_in, is_u32 in *. lia.
Qed.

Lemma current_safe :
  op_safe spa_pod_parser_current (fun p b => forall a, b = Some a -> extent_in p a 8).
Proof.
  intros p Hp. apply st_wp_bind, st_wp_try.
  eapply st_wp_mono; [by apply current_body_safe| |by intros ? ->; cbn; auto with cdb].
  intros [pod body] ? (-> & Hs & -> & Hl). pose proof (extent_body p pod Hp Hs Hl) as [].
  cbn. split; [by auto with cdb|]. intros ? [= <-]. unfold extent_in, is_u32 in *. lia.
Qed.

Lemma current_body_extent :
  op_safe spa_pod_parser_current_body (fun p '(pod, b) => extent_in p b (pod_size pod)).
Proof.
  intros p Hp. eapply st_wp_mono; [by apply current_body_safe| |by intros ? ->; auto with cdb].
  intros [pod body] ? (-> & Hs & -> & Hl). pose proof (extent_body p pod Hp Hs Hl) as [].
  split; [by auto with cdb|]. unfold extent_in, is_u32 in *. lia.
Qed.

Lemma push_offset_ok p pod n :
  parser_ok p -> frame_in (p_size p) (mk_frame pod (p_offset p) (p_flags p)) ->
  parser_ok (set_offset (u32 (p_offset p + n)) (spa_pod_parser_push pod (p_offset p) p)) /\
  same_buffer p (set_offset (u32 (p_offset p + n)) (spa_pod_parser_push pod (p_offset p) p)).
Proof. intros. split; [auto with cdb|done]. Qed.

Lemma push_struct_body_safe :
  op_safe spa_pod_parser_push_struct_body (fun p '(pod, b) => extent_in p b (pod_size pod)).
Proof.
  start_current. pose proof (extent_body p pod Hp Hs Hl) as [].
  case_if; cbn; [auto with cdb|]. split; [by apply push_offset_ok|].
  unfold extent_in, is_u32 in *. lia.
Qed.

Lemma push_struct_safe : op_safe spa_pod_parser_push_struct (fun _ _ => True).
Proof.
  intros p Hp. apply st_wp_bind.
  eapply st_wp_mono; [by apply push_struct_body_safe| |done]. cbn. tauto.
Qed.

Lemma push_object_body_safe :
  op_safe spa_pod_parser_push_object_body
    (fun p '(o, b) => extent_in p b (pod_size (object_pod o) - 8)).
Proof.
  start_current. pose proof (extent_body p pod Hp Hs Hl) as [].
  apply st_wp_bind. cbn. apply st_wp_bind, st_wp_lift.
  eapply o_wp_mono; [by apply get_object_safe| |auto with cdb].
  intros [o b] (E & -> & ?). cbn. split; [by apply push_offset_ok|].
  rewrite E. unfold extent_in, is_u32 in *. lia.
Qed.

Lemma push_sequence_body_safe :
  op_safe spa_pod_parser_push_sequence_body
    (fun p '(o, b) => extent_in p b (pod_size (seq_pod o) - 8)).
Proof.
  start_current. pose proof (extent_body p pod Hp Hs Hl) as [].
  apply st_wp_bind. cbn. apply st_wp_bind, st_wp_lift.
  eapply o_wp_mono; [by apply get_sequence_safe| |auto with cdb].
  intros [o b] (E & -> & ?). cbn. split; [by apply push_offset_ok|].
  rewrite E. unfold extent_in, is_u32 in *. lia.
Qed.

Lemma frames_u32 p f fs :
  parser_ok p -> p_frames p = f :: fs -> is_u32 (frame_offset f) /\ Forall (frame_in (p_size p)) fs.
Proof.
  intros [? ? ? ? Hf] E. rewrite E in Hf. apply Forall_cons_1 in Hf as [(? & ? & ?) ?].
  unfold is_u32 in *. split; [lia|done].
Qed.

Lemma restart_ok p f fs :
  parser_ok p -> p_frames p = f :: fs -> parser_ok (spa_pod_parser_restart f p).
Proof. intros H E. destruct (frames_u32 p f fs H E). unfold spa_pod_parser_restart. auto with cdb. Qed.

Lemma unpush_ok p :
  parser_ok p -> parser_ok (spa_pod_parser_unpush p) /\ same_buffer p (spa_pod_parser_unpush p).
Proof.
  intros H. unfold spa_pod_parser_unpush. destruct (p_frames p) as [|f fs] eqn:E; [done|].
  destruct (frames_u32 p f fs H E). destruct H. by split; [constructor|].
Qed.

Lemma pop_ok p :
  parser_ok p -> parser_ok (spa_pod_parser_pop p) /\ same_buffer p (spa_pod_parser_pop p).
Proof.
  intros H. unfold spa_pod_parser_pop. destruct (p_frames p); [done|].
  destruct (unpush_ok p H). auto with cdb.
Qed.

Lemma push_object_safe type : op_safe (spa_pod_parser_push_object type) (fun _ _ => True).
Proof.
  intros p Hp. apply st_wp_bind.
  eapply st_wp_mono; [by apply push_object_body_safe| |done]. cbn.
  intros [o b] p' [[Hp' ?] _]. case_if; cbn; [|done].
  destruct (unpush_ok p' Hp'). eauto using same_buffer_trans.
Qed.

(** ** Keyed headers *)

(** [spa_pod_prop] and [spa_pod_control] are 16 bytes with the value's header
    in the second half. *)
Definition keyed_read {A} (ld : mem -> outcome A) (val : A -> spa_pod) : ST spa_pod_parser (A * Z) :=
  let* (header, body) := spa_pod_parser_get_header 16 8 in
  let* x := st_lift (ld header) in
  st_modify (fun p => set_offset (u32 (p_offset p + round_up_n 64 (16 + pod_size (val x)) 8)) p) ;;;
  st_ret (x, body).

(** A successful keyed read moves the offset past the value, at least 16
    bytes on. *)
Definition moved (p p' : spa_pod_parser) (n : Z) : Prop :=
  p' = set_offset (p_offset p + 16 + pad8 n) p /\ 0 <= n /\
  p_offset p + 16 + pad8 n <= parser_limit p.

Lemma keyed_read_safe {A} (ld : mem -> outcome A) (val : A -> spa_pod) p :
  (forall h, zlen h = 16 -> exists x, ld h = Ret x /\ load_pod h 8 = Ret (val x)) ->
  parser_ok p ->
  st_wp (keyed_read ld val)
    (fun '(x, b) p' => moved p p' (pod_size (val x)) /\ b = p_data p + p_offset p + 16)
    (fun p' => p' = p) p.
Proof.
  intros Hld H. pose proof (limit_in p H). pose proof (pk_offset p H) as [? _].
  pose proof (pk_size p H) as [_ ?].
  apply st_wp_bind. unfold st_wp at 1, spa_pod_parser_get_header.
  pose proof (read_header_safe p (p_offset p) (parser_limit p) 16 8 H) as W.
  destruct (spa_pod_parser_read_header _ _ _ _ _) as [[h b]| |]; cbn [o_wp] in W; try done.
  - destruct W as (Hh & -> & pod & E & Hs & Hl); [lia..|].
    destruct (Hld h Hh) as (x & Ex & Ep). rewrite Ep in E. injection E as <-.
    unfold st_wp, st_bind, st_lift. rewrite Ex. cbn. unfold is_u32, moved in *.
    rewrite round_up_n_8 by lia. rewrite (pad8_add_l 16) by done.
    pose proof (pad8_bounds (pod_size (val x))).
    rewrite wrap_small by lia. split_and!; [f_equal; lia|lia..].
  - apply W; lia.
Qed.

Lemma load_prop_ok h : zlen h = 16 -> exists x, load_prop h = Ret x /\ load_pod h 8 = Ret (prop_value x).
Proof.
  intros. unfold load_prop. destruct (load_pod_ok h 8) as (pod & -> & _); [lia..|].
  step_loads. eauto.
Qed.
Lemma load_control_ok h :
  zlen h = 16 -> exists x, load_control h = Ret x /\ load_pod h 8 = Ret (control_value x).
Proof.
  intros. unfold load_control. destruct (load_pod_ok h 8) as (pod & -> & _); [lia..|].
  step_loads. eauto.
Qed.

Lemma get_prop_body_safe p :
  parser_ok p ->
  st_wp spa_pod_parser_get_prop_body
    (fun '(x, b) p' => moved p p' (pod_size (prop_value x)) /\ b = p_data p + p_offset p + 16)
    (fun p' => p' = p) p.
Proof. apply (keyed_read_safe load_prop prop_value p load_prop_ok). Qed.

Lemma moved_ok p p' n : parser_ok p -> moved p p' n ->
  parser_ok p' /\ same_buffer p p' /\ extent_in p (p_data p + p_offset p + 16) n.
Proof.
  intros H (-> & ? & ?). pose proof (limit_in p H). pose proof (pad8_bounds n).
  pose proof (pk_offset p H) as [? _]. pose proof (pk_size p H) as [_ ?].
  split_and!; [|done|unfold extent_in; lia].
  apply parser_ok_offset; [done|]. unfold is_u32. lia.
Qed.

Lemma get_prop_safe :
  op_safe spa_pod_parser_get_prop_body (fun p '(x, b) => extent_in p b (pod_size (prop_value x))).
Proof.
  intros p H. eapply st_wp_mono; [by apply get_prop_body_safe| |by intros ? ->].
  intros [x b] p' [M ->]. destruct (moved_ok _ _ _ H M) as (? & ? & ?). done.
Qed.

Lemma get_control_safe :
  op_safe spa_pod_parser_get_control_body
    (fun p '(x, b) => extent_in p b (pod_size (control_value x))).
Proof.
  intros p H.
  eapply st_wp_mono;
    [by apply (keyed_read_safe load_control control_value p load_control_ok)| |by intros ? ->].
  intros [x b] p' [M ->]. destruct (moved_ok _ _ _ H M) as (? & ? & ?). done.
Qed.

(** ** The property lookup terminates inside the buffer *)

(** Bytes left before the end of the buffer. *)
Definition left_over (p : spa_pod_parser) : nat := Z.to_nat (p_size p - p_offset p).

Lemma moved_left p p' n :
  parser_ok p -> moved p p' n -> (left_over p' < left_over p)%nat.
Proof.
  intros H (-> & ? & ?). pose proof (limit_in p H). pose proof (pad8_bounds n).
  pose proof (pk_offset p H) as [? _]. unfold left_over. simpl. lia.
Qed.

(** Every amount of fuel above the bytes left gives the same run: the loop
    ends by itself. *)
Lemma find_prop_loop_fuel stop key f1 f2 p :
  parser_ok p -> (left_over p < f1)%nat -> (left_over p < f2)%nat ->
  find_prop_loop f1 stop key p = find_prop_loop f2 stop key p.
Proof.
  revert f2 p. induction f1 as [|f1 IH]; intros [|f2] p H H1 H2; [lia..|].
  simpl. unfold st_bind at 1 3, st_get. destruct (match stop with Some _ => _ | None => _ end); [done|].
  unfold st_bind, st_try. pose proof (get_prop_body_safe p H) as W. unfold st_wp in W.
  destruct (spa_pod_parser_get_prop_body p) as [[[x b]|e|] p']; [|done..].
  destruct W as [M _]. destruct (moved_ok p p' _ H M) as (? & _).
  pose proof (moved_left p p' _ H M). case_if; [done|]. apply IH; [done|lia..].
Qed.

Lemma find_prop_loop_safe stop key fuel :
  op_safe (find_prop_loop fuel stop key)
    (fun p r => forall x b, r = Some (x, b) ->
       prop_key x = key /\ extent_in p b (pod_size (prop_value x))).
Proof.
  induction fuel as [|fuel IH]; intros p H; [done|].
  simpl. apply st_wp_bind. cbn. case_if; [done|].
  apply st_wp_bind, st_wp_try.
  eapply st_wp_mono; [by apply get_prop_body_safe| |by intros ? ->].
  intros [x b] p' [M ->]. destruct (moved_ok p p' _ H M) as (? & B & ?). case_if; cbn.
  - split; [done|]. intros ?? [= <- <-]. done.
  - eapply st_wp_mono; [by apply IH| |]; cbn.
    + intros r q [[? ?] Q]. split; [eauto using same_buffer_trans|].
      intros y c Hy. destruct (Q y c Hy) as [? X]. split; [done|].
      destruct B as (_ & Bd & Bs). unfold extent_in in *. by rewrite Bd, Bs in X.
    + intros q []. eauto using same_buffer_trans.
Qed.

Lemma find_prop_safe key :
  op_safe (spa_pod_parser_object_find_prop key)
    (fun p '(x, b) => prop_key x = key /\ extent_in p b (pod_size (prop_value x))).
Proof.
  intros p H. apply st_wp_bind, st_wp_get.
  destruct (p_frames p) as [|f fs] eqn:Ef; [done|]. case_if; [done|].
  apply st_wp_bind. eapply st_wp_mono; [by apply find_prop_loop_safe| |done].
  intros [[x b]|] p' [[Hp' B] Q]; [cbn; auto|].
  apply st_wp_bind, st_wp_modify, st_wp_bind, st_wp_modify.
  destruct (frames_u32 p f fs H Ef) as [? _].
  assert (same_buffer p (set_offset (u32 (frame_offset f + 16)) (spa_pod_parser_restart f p')))
    as B' by (by destruct B as (? & ? & ?)).
  apply st_wp_bind. eapply st_wp_mono;
    [apply find_prop_loop_safe; unfold spa_pod_parser_restart; auto 6 with cdb| |].
  - intros [[x b]|] q [[? C] Q']; cbn; [|eauto using same_buffer_trans].
    split; [eauto using same_buffer_trans|]. destruct (Q' x b eq_refl) as [? X].
    destruct B as (Bm & Bd & Bs). unfold extent_in in *. cbn in X. by rewrite Bd, Bs in X.
  - intros q [? C]. eauto using same_buffer_trans.
Qed.

(** ** Every client is safe

    A client drives the parser with any sequence of the calls that read one
    header or value, enter and leave containers, look up a property, and save and
    restore the state of the parser; it keeps going after errors.  The variadic
    [spa_pod_parser_get] and [spa_pod_parser_getv] are not among them, see the end
    of the file.  Each call answers with the extents [(pointer, length)] it handed
    out; for a string the length is what the caller's [strlen] finds.  [C_reset n]
    goes back to the state saved [n] saves before the last one; its frames are
    still those that were open then. *)
Inductive parser_call : Type :=
| C_get_bool | C_get_id | C_get_int | C_get_long | C_get_float | C_get_double
| C_get_string | C_get_bytes | C_get_pointer | C_get_fd | C_get_rectangle | C_get_fraction
| C_get_pod | C_get_pod_body | C_current | C_current_body | C_next | C_next_body
| C_push_struct | C_push_struct_body | C_push_object (type : Z) | C_push_object_body | C_push_sequence_body
| C_get_prop_body | C_get_control_body | C_find_prop (key : Z)
| C_restart | C_unpush | C_pop
| C_get_state | C_reset (n : nat).

Definition no_extent {A} (m : ST spa_pod_parser A) : ST spa_pod_parser (list (Z * Z)) :=
  let* _ := m in st_ret [].

Definition run_call (saved : list spa_pod_parser_state) (c : parser_call) : ST spa_pod_parser (list (Z * Z)) :=
  match c with
  | C_get_bool => no_extent spa_pod_parser_get_bool
  | C_get_id => no_extent spa_pod_parser_get_id
  | C_get_int => no_extent spa_pod_parser_get_int
  | C_get_long => no_extent spa_pod_parser_get_long
  | C_get_float => no_extent spa_pod_parser_get_float
  | C_get_double => no_extent spa_pod_parser_get_double
  | C_get_string =>
      let* s := spa_pod_parser_get_string in
      let* p := st_get in
      let* str := st_lift (load_cstr (p_mem p) s) in
      st_ret [(s, zlen str + 1)]
  | C_get_bytes => let* (v, n) := spa_pod_parser_get_bytes in st_ret [(v, n)]
  | C_get_pointer => no_extent spa_pod_parser_get_pointer
  | C_get_fd => no_extent spa_pod_parser_get_fd
  | C_get_rectangle => no_extent spa_pod_parser_get_rectangle
  | C_get_fraction => no_extent spa_pod_parser_get_fraction
  | C_get_pod => let* b := spa_pod_parser_get_pod in st_ret [(b, 8)]
  | C_get_pod_body => let* (pod, b) := spa_pod_parser_get_pod_body in st_ret [(b, pod_size pod)]
  | C_current =>
      let* b := spa_pod_parser_current in
      st_ret match b with Some a => [(a, 8)] | None => [] end
  | C_current_body => let* (pod, b) := spa_pod_parser_current_body in st_ret [(b, pod_size pod)]
  | C_next =>
      let* b := spa_pod_parser_next in
      st_ret match b with Some a => [(a, 8)] | None => [] end
  | C_next_body => let* (pod, b) := spa_pod_parser_next_body in st_ret [(b, pod_size pod)]
  | C_push_struct => no_extent spa_pod_parser_push_struct
  | C_push_struct_body =>
      let* (pod, b) := spa_pod_parser_push_struct_body in st_ret [(b, pod_size pod)]
  | C_push_object type => no_extent (spa_pod_parser_push_object type)
  | C_push_object_body =>
      let* (o, b) := spa_pod_parser_push_object_body in st_ret [(b, pod_size (object_pod o) - 8)]
  | C_push_sequence_body =>
      let* (o, b) := spa_pod_parser_push_sequence_body in st_ret [(b, pod_size (seq_pod o) - 8)]
  | C_get_prop_body =>
      let* (x, b) := spa_pod_parser_get_prop_body in st_ret [(b, pod_size (prop_value x))]
  | C_get_control_body =>
      let* (x, b) := spa_pod_parser_get_control_body in st_ret [(b, pod_size (control_value x))]
  | C_find_prop key =>
      let* (x, b) := spa_pod_parser_object_find_prop key in st_ret [(b, pod_size (prop_value x))]
  | C_restart =>
      st_modify (fun p => match p_frames p with
                          | f :: _ => spa_pod_parser_restart f p
                          | [] => p
                          end) ;;; st_ret []
  | C_unpush => st_modify spa_pod_parser_unpush ;;; st_ret []
  | C_pop => st_modify spa_pod_parser_pop ;;; st_ret []
  | C_get_state => st_ret []
  | C_reset n =>
      st_modify (fun p => match saved !! n with
                          | Some s => spa_pod_parser_reset s p
                          | None => p
                          end) ;;; st_ret []
  end.

(** The states the client has saved after a call, the last one first. *)
Definition save_state (c : parser_call) (p : spa_pod_parser) (saved : list spa_pod_parser_state)
  : list spa_pod_parser_state :=
  match c with C_get_state => spa_pod_parser_get_state p :: saved | _ => saved end.

Fixpoint run_calls (saved : list spa_pod_parser_state) (cs : list parser_call)
  : ST spa_pod_parser (list (Z * Z)) :=
  match cs with
  | [] => st_ret []
  | c :: cs =>
      let* r := st_try (run_call saved c) in
      let* p := st_get in
      let* es := run_calls (save_state c p saved) cs in
      st_ret (match r with inl e => e | inr _ => [] end ++ es)
  end.

Definition extents_in (p : spa_pod_parser) (es : list (Z * Z)) : Prop :=
  Forall (fun '(b, n) => extent_in p b n) es.

Lemma no_extent_safe {A} (m : ST spa_pod_parser A) Q :
  op_safe m Q -> op_safe (no_extent m) extents_in.
Proof.
  intros H p Hp. apply st_wp_bind. eapply st_wp_mono; [by apply H| |done].
  intros a p' [? _]. cbn. split; [done|constructor].
Qed.

(** A call that binds one operation and answers with one extent. *)
Ltac one_extent lem :=
  let p := fresh "p" in let Hp := fresh "Hp" in
  intros p Hp; apply st_wp_bind; eapply st_wp_mono; [by apply lem| |done];
  let Q := fresh "Q" in intros a ? [? Q];
  try (let x := fresh "x" in let b := fresh "b" in destruct a as [x b]);
  cbn; split; [done|]; apply Forall_singleton; apply Q.

Lemma get_string_call_safe saved : op_safe (run_call saved C_get_string) extents_in.
Proof.
  intros p Hp. apply st_wp_bind.
  eapply st_wp_mono; [apply (parser_get_safe _ _ get_string_safe); done| |done].
  intros s p' [[? B] (pod & body & X & -> & str & Hs & ?)].
  apply st_wp_bind, st_wp_get, st_wp_bind, st_wp_lift.
  rewrite (proj1 B), Hs. cbn. split; [done|]. apply Forall_singleton.
  pose proof (zlen_nonneg str). unfold extent_in in *. lia.
Qed.

Lemma get_bytes_call_safe saved : op_safe (run_call saved C_get_bytes) extents_in.
Proof.
  intros p Hp. apply st_wp_bind.
  eapply st_wp_mono; [apply (parser_get_safe _ _ get_bytes_safe); done| |done].
  intros [v n] p' [? (pod & body & X & -> & ->)]. cbn. split; [done|]. by apply Forall_singleton.
Qed.

Lemma next_call_safe saved : op_safe (run_call saved C_next) extents_in.
Proof.
  intros p Hp. apply st_wp_bind. eapply st_wp_mono; [by apply next_safe| |done].
  intros [a|] p' [? H]; cbn; (split; [done|]); [|constructor].
  apply Forall_singleton. by apply H.
Qed.

Lemma current_call_safe saved : op_safe (run_call saved C_current) extents_in.
Proof.
  intros p Hp. apply st_wp_bind. eapply st_wp_mono; [by apply current_safe| |done].
  intros [a|] p' [? H]; cbn; (split; [done|]); [|constructor].
  apply Forall_singleton. by apply H.
Qed.

Lemma restart_call_safe saved : op_safe (run_call saved C_restart) extents_in.
Proof.
  intros p Hp. cbn. split; [|constructor].
  destruct (p_frames p) eqn:E; [done|]. split; [by eapply restart_ok|done].
Qed.

(** A saved state fits the buffer of the parser. *)
Definition state_ok (p : spa_pod_parser) (s : spa_pod_parser_state) : Prop :=
  is_u32 (ps_offset s) /\ Forall (frame_in (p_size p)) (ps_frames s).

Lemma save_state_ok c p p' saved :
  parser_ok p' -> same_buffer p p' -> Forall (state_ok p) saved -> Forall (state_ok p') (save_state c p' saved).
Proof.
  intros [] (_ & _ & E) Hs. assert (Forall (state_ok p') saved) as Hs'.
  { eapply Forall_impl; [|exact Hs]. intros s [? ?]. split; [done|]. by rewrite E. }
  by destruct c; try done; constructor.
Qed.

Lemma reset_safe saved n p :
  parser_ok p -> Forall (state_ok p) saved ->
  st_wp (run_call saved (C_reset n)) (fun a p' => (parser_ok p' /\ same_buffer p p') /\ extents_in p a)
        (fun p' => parser_ok p' /\ same_buffer p p') p.
Proof.
  intros Hp Hs. cbn. split; [|constructor]. destruct (saved !! n) as [s|] eqn:E; [|done].
  pose proof (Forall_lookup_1 _ _ _ _ Hs E) as [? ?]. split; [by destruct Hp|done].
Qed.

Lemma run_call_safe saved c p :
  parser_ok p -> Forall (state_ok p) saved ->
  st_wp (run_call saved c) (fun a p' => (parser_ok p' /\ same_buffer p p') /\ extents_in p a)
        (fun p' => parser_ok p' /\ same_buffer p p') p.
Proof.
  intros Hp Hs. destruct c; try (by apply reset_safe);
    refine ((_ : op_safe (run_call saved _) extents_in) p Hp); clear p Hp Hs.
  - eapply no_extent_safe, (parser_get_safe _ _ get_bool_safe).
  - eapply no_extent_safe, (parser_get_safe _ _ get_id_safe).
  - eapply no_extent_safe, (parser_get_safe _ _ get_int_safe).
  - eapply no_extent_safe, (parser_get_safe _ _ get_long_safe).
  - eapply no_extent_safe, (parser_get_safe _ _ get_float_safe).
  - eapply no_extent_safe, (parser_get_safe _ _ get_double_safe).
  - apply get_string_call_safe.
  - apply get_bytes_call_safe.
  - eapply no_extent_safe, (parser_get_safe _ _ get_pointer_safe).
  - eapply no_extent_safe, (parser_get_safe _ _ get_fd_safe).
  - eapply no_extent_safe, (parser_get_safe _ _ get_rectangle_safe).
  - eapply no_extent_safe, (parser_get_safe _ _ get_fraction_safe).
  - one_extent get_pod_safe.
  - one_extent get_pod_body_safe.
  - apply current_call_safe.
  - one_extent current_body_extent.
  - apply next_call_safe.
  - one_extent next_body_safe.
  - eapply no_extent_safe, push_struct_safe.
  - one_extent push_struct_body_safe.
  - eapply no_extent_safe, push_object_safe.
  - one_extent push_object_body_safe.
  - one_extent push_sequence_body_safe.
  - one_extent get_prop_safe.
  - one_extent get_control_safe.
  - one_extent find_prop_safe.
  - apply restart_call_safe.
  - intros p Hp. cbn. split; [by apply unpush_ok|constructor].
  - intros p Hp. cbn. split; [by apply pop_ok|constructor].
  - intros p Hp. cbn. split; [done|constructor].
Qed.

Lemma run_calls_safe cs saved p :
  parser_ok p -> Forall (state_ok p) saved ->
  st_wp (run_calls saved cs) (fun a p' => (parser_ok p' /\ same_buffer p p') /\ extents_in p a)
        (fun p' => parser_ok p' /\ same_buffer p p') p.
Proof.
  revert saved p. induction cs as [|c cs IH]; intros saved p Hp Hs; [by cbn; split; [|constructor]|].
  simpl. apply st_wp_bind, st_wp_try.
  assert (forall p' es, extents_in p es -> parser_ok p' -> same_buffer p p' ->
    st_wp (let* q := st_get in let* es' := run_calls (save_state c q saved) cs in st_ret (es ++ es'))
      (fun a q => (parser_ok q /\ same_buffer p q) /\ extents_in p a)
      (fun q => parser_ok q /\ same_buffer p q) p') as K.
  { intros p' es Hes Hp' B. apply st_wp_bind, st_wp_get, st_wp_bind.
    eapply st_wp_mono; [apply IH; [done|by eapply save_state_ok]| |cbn; intros q []; eauto using same_buffer_trans].
    intros es' q [[? ?] Q]. cbn. split; [eauto using same_buffer_trans|].
    apply Forall_app. split; [done|]. destruct B as (_ & Bd & Bs).
    unfold extents_in, extent_in in *. by rewrite Bd, Bs in Q. }
  eapply st_wp_mono; [by apply run_call_safe| |].
  - intros es p' [[? ?] ?]. by apply K.
  - intros p' [? ?] e. apply (K p' []); [constructor|done..].
Qed.

Lemma parser_init_ok m data size :
  0 <= data -> is_u32 size -> data + size <= zlen m -> parser_ok (spa_pod_parser_init m data size).
Proof. intros. unfold is_u32 in *. constructor; cbn; unfold is_u32; (lia || constructor). Qed.

Lemma run_calls_no_error saved cs p e q : run_calls saved cs p <> (Err e, q).
Proof.
  revert saved p e q. induction cs as [|c cs IH]; intros saved p e q; [done|].
  simpl. unfold st_bind, st_try, st_get. destruct (run_call saved c p) as [[r| |] p']; [| |done];
    (destruct (run_calls _ cs p') as [[es| |] p''] eqn:E; [done|by apply IH in E|done]).
Qed.

(** ** Properties *)

(** C4: whatever bytes the buffer holds, a client that makes any sequence of the
    calls of [parser_call], continuing after errors, never makes the parser read
    outside of the buffer, and every pointer it is handed, with the length that
    goes with it, lies inside the buffer.  The calls are the typed reads, the
    reads of headers, pods, properties and controls, entering and leaving structs,
    objects and sequences, the lookup of a property, restart, and saving and
    restoring the state.  The variadic [spa_pod_parser_get] and
    [spa_pod_parser_getv] are not covered: they do read outside of the buffer
    ([getv_struct_null_body], [getv_choice_out_of_bounds]). *)
Theorem parser_client_safe (m : mem) (data size : Z) (cs : list parser_call) :
  0 <= data -> is_u32 size -> data + size <= zlen m ->
  exists es p', run_calls [] cs (spa_pod_parser_init m data size) = (Ret es, p') /\
    Forall (fun '(b, n) => data <= b /\ 0 <= n /\ b + n <= data + size) es.
Proof.
  intros Hd Hs Hm. pose proof (run_calls_safe cs [] _ (parser_init_ok m data size Hd Hs Hm) (Forall_nil_2 _)) as W.
  unfold st_wp in W. destruct (run_calls [] cs _) as [[es| |] p'] eqn:E; [|by apply run_calls_no_error in E|done].
  exists es, p'. split; [done|]. apply W.
Qed.

(** A 16 byte buffer that claims to hold a struct with an oversized member. *)
Definition hostile : mem := le32 8 ++ le32 SPA_TYPE_Struct ++ le32 (2 ^ 32 - 1) ++ le32 SPA_TYPE_String.

Lemma parser_client_safe_witness :
  exists es p', run_calls [] [C_get_state; C_push_struct; C_get_string; C_next_body; C_reset 0; C_pop; C_find_prop 3]
                  (spa_pod_parser_init hostile 0 16) = (Ret es, p') /\
    Forall (fun '(b, n) => 0 <= b /\ 0 <= n /\ b + n <= 0 + 16) es.
Proof. apply parser_client_safe; [lia|split; vm_compute; congruence|vm_compute; discriminate]. Defined.

(** The search loop of the property lookup ends on its own in every
    buffer: once the fuel exceeds the buffer size, more of it changes
    nothing. *)
Theorem find_prop_loop_terminates (p : spa_pod_parser) (stop : option Z) (key : Z) (extra : nat) :
  parser_ok p ->
  find_prop_loop (S (Z.to_nat (p_size p)) + extra) stop key p
  = find_prop_loop (S (Z.to_nat (p_size p))) stop key p.
Proof.
  intros H. pose proof (pk_offset p H) as [? _].
  apply find_prop_loop_fuel; [done|unfold left_over; lia..].
Qed.

Lemma find_prop_loop_terminates_witness :
  find_prop_loop (S (Z.to_nat 16) + 100) None 3 (spa_pod_parser_init hostile 0 16)
  = find_prop_loop (S (Z.to_nat 16)) None 3 (spa_pod_parser_init hostile 0 16).
Proof.
  apply (find_prop_loop_terminates (spa_pod_parser_init hostile 0 16) None 3 100).
  apply parser_init_ok; [lia|split; vm_compute; congruence|vm_compute; discriminate].
Defined.

(** The values an array accessor announces, count times size, lie inside
    the memory of the pod, and copying them out reads nothing else. *)
Theorem array_accessors_in_bounds (p : spa_pod) (m : mem) (body type size max : Z) :
  body_ok m p body -> 0 <= max ->
  o_wp (spa_pod_body_get_array_values p m body)
    (fun r => match r with
              | Some (vals, (n, sz, _)) => 0 <= vals /\ 0 <= n * sz /\ vals + n * sz <= zlen m
              | None => True
              end) False /\
  no_fault (spa_pod_body_copy_array p m body type size max).
Proof.
  intros H Hm. split; [|by apply copy_array_safe].
  pose proof (get_array_values_safe p m body H) as W.
  unfold spa_pod_body_get_array_values in *.
  destruct (spa_pod_body_get_array p m body) as [[arr b]| |]; [|done..].
  unfold o_wp in *. destruct (spa_pod_array_body_get_values arr) as [[n sz] ty]. nia.
Qed.

Lemma array_accessors_in_bounds_witness :
  no_fault (spa_pod_body_copy_array (mk_pod 16 SPA_TYPE_Array)
              (le32 4 ++ le32 SPA_TYPE_Int ++ le32 1 ++ le32 2) 0 SPA_TYPE_Int 4 8).
Proof.
  apply (array_accessors_in_bounds (mk_pod 16 SPA_TYPE_Array)
           (le32 4 ++ le32 SPA_TYPE_Int ++ le32 1 ++ le32 2) 0 SPA_TYPE_Int 4 8).
  - split; [lia|split; vm_compute; discriminate].
  - lia.
Defined.

(** ** What [spa_pod_parser_getv] does with malformed input

    [spa_pod_parser_next_body] copies the member's header to the caller before
    it rejects it; [spa_pod_parser_getv] ignores the failure and collects from
    that header with a NULL body. *)
Definition truncated_struct : mem := le32 8 ++ le32 SPA_TYPE_Struct ++ le32 4 ++ le32 SPA_TYPE_Int.

Theorem getv_struct_null_body :
  (spa_pod_parser_get_struct [mk_get 0 false false "i"%char []]
     (spa_pod_parser_init truncated_struct 0 16)).1 = Fault.
Proof. vm_compute. reflexivity. Qed.

(** A choice of kind None with no values: the child's size is taken from its
    header without comparing it with the choice's own size. *)
Definition empty_choice : mem :=
  le32 24 ++ le32 SPA_TYPE_Struct ++
  le32 16 ++ le32 SPA_TYPE_Choice ++ le32 SPA_CHOICE_None ++ le32 0 ++ le32 4 ++ le32 SPA_TYPE_Int.

Theorem getv_choice_out_of_bounds :
  (spa_pod_parser_get_struct [mk_get 0 false false "i"%char []]
     (spa_pod_parser_init empty_choice 0 32)).1 = Fault.
Proof. vm_compute. reflexivity. Qed.
