(* ===== verification/PodRoundTrip.v ===== *)
(** * Reading back what the builder wrote

    [read_value] is the reader a client of the library writes: it looks at a
    header, uses the accessors of [body.h] for scalars, arrays and choices and
    the parser of [parser.h] for the members of structs, objects and
    sequences.  Applied to what [build_pod] wrote it returns the value that
    was built. *)
From S2P Require Import Prelude Bytes PodBody PodBuilder PodSpec PodParser PodSafety.

(** ** The reader *)

Definition read_scalar (pod : spa_pod) (m : mem) (body : Z) : outcome scalar :=
  let t := pod_type pod in
  if t =? SPA_TYPE_None then if spa_pod_is_none pod then Ret SNone else Err EINVAL
  else if t =? SPA_TYPE_Bool then let! v := spa_pod_body_get_bool pod m body in Ret (SBool v)
  else if t =? SPA_TYPE_Id then let! v := spa_pod_body_get_id pod m body in Ret (SId v)
  else if t =? SPA_TYPE_Int then let! v := spa_pod_body_get_int pod m body in Ret (SInt v)
  else if t =? SPA_TYPE_Long then let! v := spa_pod_body_get_long pod m body in Ret (SLong v)
  else if t =? SPA_TYPE_Float then let! v := spa_pod_body_get_float pod m body in Ret (SFloat v)
  else if t =? SPA_TYPE_Double then let! v := spa_pod_body_get_double pod m body in Ret (SDouble v)
  else if t =? SPA_TYPE_String then
    let! s := spa_pod_body_get_string pod m body in
    let! str := load_cstr m s in Ret (SString str)
  else if t =? SPA_TYPE_Bytes then
    let! (v, n) := spa_pod_body_get_bytes pod m body in
    let! bs := load m v n in Ret (SBytes bs)
  else if t =? SPA_TYPE_Rectangle then
    let! r := spa_pod_body_get_rectangle pod m body in Ret (SRectangle r)
  else if t =? SPA_TYPE_Fraction then
    let! r := spa_pod_body_get_fraction pod m body in Ret (SFraction r)
  else if t =? SPA_TYPE_Pointer then
    let! (ty, v) := spa_pod_body_get_pointer pod m body in Ret (SPointer ty v)
  else if t =? SPA_TYPE_Fd then let! v := spa_pod_body_get_fd pod m body in Ret (SFd v)
  else if t =? SPA_TYPE_Array then
    let! r := spa_pod_body_get_array_values pod m body in
    match r with
    | Some (vals, (n, sz, ty)) => let! bs := load m vals (n * sz) in Ret (SArray sz ty bs)
    | None => Err EINVAL
    end
  else Err EINVAL.

(** The [n] alternatives of a choice, each of the child's size. *)
Fixpoint read_alternatives (n : nat) (child : spa_pod) (m : mem) (vals : Z)
  : outcome (list scalar) :=
  match n with
  | O => Ret []
  | S n =>
      let! s := read_scalar child m vals in
      let! rest := read_alternatives n child m (vals + pod_size child) in
      Ret (s :: rest)
  end.

Definition read_choice (pod : spa_pod) (m : mem) (body : Z) : outcome pod_val :=
  let! (c, vals) := spa_pod_body_get_choice pod m body in
  let '(n, ct, _, _) := spa_pod_choice_body_get_values c in
  let! l := read_alternatives (Z.to_nat n) (choice_child c) m vals in
  match l with
  | hd :: tl => Ret (Choice ct (choice_flags c) hd tl)
  | [] => Err EINVAL
  end.

(** [while (next(parser, ...) >= 0) use(...)]. *)
Fixpoint read_items {A B} (next : ST spa_pod_parser A) (use : A -> outcome B) (fuel : nat)
  : ST spa_pod_parser (list B) :=
  match fuel with
  | O => st_ret []
  | S fuel =>
      let* r := st_try next in
      match r with
      | inr _ => st_ret []
      | inl a =>
          let* b := st_lift (use a) in
          let* rest := read_items next use fuel in
          st_ret (b :: rest)
      end
  end.

Fixpoint read_value (depth : nat) (m : mem) (pod : spa_pod) (body : Z) : outcome pod_val :=
  match depth with
  | O => Err EINVAL
  | S depth =>
      let items := S (Z.to_nat (pod_size pod)) in
      if pod_type pod =? SPA_TYPE_Choice then read_choice pod m body
      else if pod_type pod =? SPA_TYPE_Struct then
        let! p := spa_pod_parser_init_struct_body m pod body in
        let! l := (read_items spa_pod_parser_next_body
                     (fun '(c, b) => read_value depth m c b) items p).1 in
        Ret (Struct l)
      else if pod_type pod =? SPA_TYPE_Object then
        let! (p, o, _) := spa_pod_parser_init_object_body m pod body in
        let! l := (read_items spa_pod_parser_get_prop_body
                     (fun '(x, b) => let! v := read_value depth m (prop_value x) b in
                                     Ret (prop_key x, prop_flags x, v)) items p).1 in
        Ret (Object (object_type o) (object_id o) l)
      else if pod_type pod =? SPA_TYPE_Sequence then
        let p := spa_pod_parser_init_pod_body m pod body in
        let! (seq, l) := fst (
          (let* (seq, _) := spa_pod_parser_push_sequence_body in
           let* l := read_items spa_pod_parser_get_control_body
             (fun '(x, b) => let! v := read_value depth m (control_value x) b in
                             Ret (control_offset x, control_type x, v)) items in
           st_ret (seq, l)) p) in
        Ret (Sequence (seq_unit seq) l)
      else let! s := read_scalar pod m body in Ret (Scalar s)
  end.

(** ** Values that survive

    Scalars in the range of their C type, strings without an embedded NUL,
    arrays with a proper child size, choices with as many alternatives as
    their kind allows. *)
Definition scalar_rt (s : scalar) : Prop :=
  match s with
  | SNone | SBool _ | SBytes _ => True
  | SId v | SFloat v => is_u32 v
  | SInt v => is_i32 v
  | SLong v | SFd v => is_i64 v
  | SDouble v => is_u64 v
  | SString s => no_nul s
  | SRectangle r => is_u32 (width r) /\ is_u32 (height r)
  | SFraction f => is_u32 (num f) /\ is_u32 (denom f)
  | SPointer t v => is_u32 t /\ is_u64 v
  | SArray cs ct elems =>
      0 < cs < 2 ^ 32 /\ is_u32 ct /\ spa_pod_type_size ct <= cs /\ zlen elems mod cs = 0
  end.

Definition choice_count_ok (ct n : Z) : Prop :=
  let '(_, min, max) := spa_pod_choice_n_values ct in min <= n <= max.

Fixpoint pod_rt (p : pod_val) : Prop :=
  match p with
  | Scalar s => scalar_rt s
  | Choice ct fl hd tl =>
      is_u32 ct /\ is_u32 fl /\ choice_count_ok ct (1 + zlen tl) /\
      0 < zlen (scalar_body hd) /\ Forall scalar_rt (hd :: tl)
  | Struct l => Forall id (map pod_rt l)
  | Object t i props =>
      is_u32 t /\ is_u32 i /\
      Forall id (map (fun '(k, f, c) => is_u32 k /\ is_u32 f /\ pod_rt c) props)
  | Sequence u controls =>
      is_u32 u /\
      Forall id (map (fun '(o, t, c) => is_u32 o /\ is_u32 t /\ pod_rt c) controls)
  end.

Fixpoint depth (p : pod_val) : nat :=
  match p with
  | Scalar _ | Choice _ _ _ _ => 1
  | Struct l => S (list_max (map depth l))
  | Object _ _ props => S (list_max (map (fun '(_, _, c) => depth c) props))
  | Sequence _ controls => S (list_max (map (fun '(_, _, c) => depth c) controls))
  end.

(** ** Scalars *)

Lemma holds_u32' m off v : is_u32 v -> holds m off (le32 v) -> load_u32 m off = Ret v.
Proof. intros R H. rewrite (holds_u32 _ _ _ H). f_equal. by apply wrap_small. Qed.
Lemma holds_i32' m off v : is_i32 v -> holds m off (le32 v) -> load_i32 m off = Ret v.
Proof. intros R H. rewrite (holds_i32 _ _ _ H). f_equal. by apply swrap_small. Qed.
Lemma holds_u64' m off v : is_u64 v -> holds m off (le64 v) -> load_u64 m off = Ret v.
Proof. intros R H. rewrite (holds_u64 _ _ _ H). f_equal. by apply wrap_small. Qed.
Lemma holds_i64' m off v : is_i64 v -> holds m off (le64 v) -> load_i64 m off = Ret v.
Proof. intros R H. rewrite (holds_i64 _ _ _ H). f_equal. by apply swrap_small. Qed.

Lemma holds_pod m off p :
  is_u32 (pod_size p) -> is_u32 (pod_type p) -> holds m off (enc_pod p) -> load_pod m off = Ret p.
Proof.
  intros Hs Ht H. rewrite enc_pod_eq in H. unfold load_pod.
  rewrite (holds_u32' _ _ _ Hs (holds_app_l _ _ _ _ H)).
  apply holds_app_r in H. rewrite zlen_le32 in H.
  cbn [obind]. rewrite (holds_u32' _ _ _ Ht H). by destruct p.
Qed.

(** The size and type checks of [body.h] on a header whose size is known. *)
Lemma check_true t n (body : list byte) :
  n <= zlen body -> zlen body < 2 ^ 20 -> SPA_POD_CHECK (mk_pod (zlen body) t) t n = true.
Proof.
  intros. unfold SPA_POD_CHECK, SPA_POD_CHECK_TYPE, SPA_POD_IS_VALID, SPA_POD_MAX_SIZE.
  cbn [pod_size pod_type]. rewrite !andb_true_iff, Z.eqb_refl, Z.ltb_lt, Z.leb_le. lia.
Qed.
Lemma check_type_true t (body : list byte) :
  zlen body < 2 ^ 20 -> SPA_POD_CHECK_TYPE (mk_pod (zlen body) t) t = true.
Proof.
  intros. unfold SPA_POD_CHECK_TYPE, SPA_POD_IS_VALID, SPA_POD_MAX_SIZE.
  cbn [pod_size pod_type]. rewrite !andb_true_iff, Z.eqb_refl, Z.ltb_lt. lia.
Qed.

Lemma get_string_holds m off s :
  no_nul s -> zlen s + 1 < 2 ^ 20 -> holds m off (s ++ [Byte.x00]) ->
  spa_pod_body_get_string (mk_pod (zlen (s ++ [Byte.x00])) SPA_TYPE_String) m off = Ret off.
Proof.
  intros Hs Hl H. unfold spa_pod_body_get_string, spa_pod_is_string.
  rewrite check_true by zlia. cbn [negb pod_size].
  pose proof (holds_app_r _ _ _ _ H) as H0.
  replace (off + (zlen (s ++ [Byte.x00]) - 1)) with (off + zlen s) by zlia.
  unfold load_u8. by rewrite (holds_load _ _ _ _ H0).
Qed.

Lemma get_array_values_holds m off cs ct elems :
  scalar_rt (SArray cs ct elems) -> 8 + zlen elems < 2 ^ 20 ->
  holds m off (enc_pod (mk_pod cs ct) ++ elems) ->
  spa_pod_body_get_array_values (mk_pod (zlen (enc_pod (mk_pod cs ct) ++ elems)) SPA_TYPE_Array) m off
  = Ret (Some (off + 8, (zlen elems / cs, cs, ct))).
Proof.
  intros (Hcs & Hct & Hts & Hm) Hl H.
  unfold spa_pod_body_get_array_values, spa_pod_body_get_array, spa_pod_is_array.
  rewrite check_true by zlia. cbn [negb].
  rewrite (holds_pod m off (mk_pod cs ct)); [|unfold is_u32; cbn; lia|done|by eapply holds_app_l].
  cbn [obind]. unfold spa_pod_array_body_get_values. cbn [arr_child arr_pod pod_size pod_type].
  destruct (Z.eqb_spec cs 0); [lia|]. destruct (Z.ltb_spec cs (spa_pod_type_size ct)); [lia|].
  replace (zlen (enc_pod (mk_pod cs ct) ++ elems) - 8) with (zlen elems) by zlia.
  pose proof (zlen_nonneg elems).
  rewrite (wrap_small 64) by lia.
  assert (0 <= zlen elems / cs <= zlen elems).
  { split; [apply Z.div_pos; lia|apply Z.div_le_upper_bound; nia]. }
  by rewrite (wrap_small 32) by lia.
Qed.

Lemma read_scalar_holds s m off :
  scalar_rt s -> zlen (scalar_body s) < 2 ^ 20 -> holds m off (scalar_body s) ->
  read_scalar (mk_pod (zlen (scalar_body s)) (scalar_type s)) m off = Ret s.
Proof.
  intros R L H.
  destruct s; cbn [scalar_type scalar_body scalar_rt] in *; unfold read_scalar; cbn [pod_type Z.eqb Pos.eqb].
  - done.
  - unfold spa_pod_body_get_bool, spa_pod_is_bool. rewrite check_true by zlia. cbn.
    rewrite (holds_i32 _ _ _ H). by destruct b.
  - unfold spa_pod_body_get_id, spa_pod_is_id. rewrite check_true by zlia. cbn.
    by rewrite (holds_u32' _ _ _ R H).
  - unfold spa_pod_body_get_int, spa_pod_is_int. rewrite check_true by zlia. cbn.
    by rewrite (holds_i32' _ _ _ R H).
  - unfold spa_pod_body_get_long, spa_pod_is_long. rewrite check_true by zlia. cbn.
    by rewrite (holds_i64' _ _ _ R H).
  - unfold spa_pod_body_get_float, spa_pod_is_float. rewrite check_true by zlia. cbn.
    by rewrite (holds_u32' _ _ _ R H).
  - unfold spa_pod_body_get_double, spa_pod_is_double. rewrite check_true by zlia. cbn.
    by rewrite (holds_u64' _ _ _ R H).
  - rewrite get_string_holds by (done || zlia). cbn. by rewrite (holds_cstr _ _ _ R H).
  - unfold spa_pod_body_get_bytes, spa_pod_is_bytes. rewrite check_type_true by done. cbn.
    by rewrite (holds_load _ _ _ _ H eq_refl).
  - destruct R as [Ra Rb], r. unfold spa_pod_body_get_rectangle, spa_pod_is_rectangle.
    rewrite check_true by zlia. cbn [negb]. rewrite (holds_u32' _ _ _ Ra (holds_app_l _ _ _ _ H)). cbn [obind].
    apply holds_app_r in H. rewrite zlen_le32 in H. by rewrite (holds_u32' _ _ _ Rb H).
  - destruct R as [Ra Rb], f. unfold spa_pod_body_get_fraction, spa_pod_is_fraction.
    rewrite check_true by zlia. cbn [negb]. rewrite (holds_u32' _ _ _ Ra (holds_app_l _ _ _ _ H)). cbn [obind].
    apply holds_app_r in H. rewrite zlen_le32 in H. by rewrite (holds_u32' _ _ _ Rb H).
  - destruct R as [Ra Rb]. unfold spa_pod_body_get_pointer, spa_pod_is_pointer.
    rewrite check_true by zlia. cbn [negb]. rewrite (holds_u32' _ _ _ Ra (holds_app_l _ _ _ _ H)). cbn [obind].
    apply holds_app_r, holds_app_r in H. rewrite !zlen_le32 in H.
    replace (off + 4 + 4) with (off + 8) in H by lia.
    by rewrite (holds_u64' _ _ _ Rb H).
  - unfold spa_pod_body_get_fd, spa_pod_is_fd. rewrite check_true by zlia. cbn.
    by rewrite (holds_i64' _ _ _ R H).
  - rewrite get_array_values_holds by (done || zlia). cbn.
    apply holds_app_r in H. rewrite zlen_enc_pod in H.
    destruct R as (? & ? & ? & Hm).
    pose proof (Z.div_mod (zlen elems) child_size ltac:(lia)) as D.
    rewrite (holds_load _ _ _ _ H) by lia. done.
Qed.

(** ** Choices *)

Lemma scalar_type_size s :
  scalar_is_array s = false -> spa_pod_type_size (scalar_type s) <= zlen (scalar_body s).
Proof.
  destruct s; intros E; try discriminate E; cbn [scalar_type scalar_body];
    match goal with |- spa_pod_type_size ?t <= _ =>
      let v := eval vm_compute in (spa_pod_type_size t) in change (spa_pod_type_size t) with v end;
    zlia.
Qed.

Lemma scalar_type_u32 s : is_u32 (scalar_type s).
Proof. by destruct s. Qed.

Lemma read_alternatives_holds l child m vals :
  Forall scalar_rt l ->
  Forall (fun s => mk_pod (zlen (scalar_body s)) (scalar_type s) = child) l ->
  pod_size child < 2 ^ 20 -> holds m vals (concat (map scalar_body l)) ->
  read_alternatives (length l) child m vals = Ret l.
Proof.
  intros R. revert vals. induction R as [|s l Hs _ IH]; intros vals F L H; [done|].
  apply Forall_cons_1 in F as [F1 F2]. subst child. cbn [map concat] in H. cbn.
  rewrite read_scalar_holds by (done || by eapply holds_app_l). cbn.
  by rewrite IH by (done || by apply holds_app_r in H).
Qed.

Lemma concat_same_size (l : list (list byte)) n :
  Forall (fun x => zlen x = n) l -> zlen (concat l) = zlen l * n.
Proof. induction 1 as [|x l H _ IH]; [done|]. cbn. zlia. Qed.

Lemma choice_n_values ct n cs :
  0 < cs -> 0 <= n -> n * cs < 2 ^ 20 -> choice_count_ok ct n ->
  forall child pod fl, pod_size child = cs -> spa_pod_type_size (pod_type child) <= cs ->
  pod_size pod = 16 + n * cs ->
  spa_pod_choice_body_get_values (mk_choice pod ct fl child) = (n, ct, cs, pod_type child).
Proof.
  intros Hcs Hn Hb Hc child pod fl E Ht Ep. unfold spa_pod_choice_body_get_values, choice_count_ok in *.
  cbn. rewrite E, Ep. destruct (Z.eqb_spec cs 0); [lia|].
  replace (16 + n * cs - 16) with (n * cs) by lia.
  rewrite (wrap_small 64), Z.div_mul, (wrap_small 32) by nia.
  destruct (spa_pod_choice_n_values ct) as [[r mn] mx].
  destruct (Z.ltb_spec n mn); [lia|]. destruct (Z.ltb_spec cs (spa_pod_type_size (pod_type child))); [lia|].
  cbn. destruct (Z.ltb_spec mx n); [lia|done].
Qed.

Lemma read_choice_holds ct fl hd tl m off :
  let p := Choice ct fl hd tl in
  pod_ok p -> pod_rt p -> zlen (pod_body p) < 2 ^ 20 -> holds m off (pod_body p) ->
  read_choice (mk_pod (zlen (pod_body p)) SPA_TYPE_Choice) m off = Ret p.
Proof.
  cbn [pod_ok pod_rt pod_body].
  intros (Hna & Hsame) (Hct & Hfl & Hcnt & Hpos & Hrt) Hl H.
  set (cs := zlen (scalar_body hd)) in *.
  assert (zlen (concat (map scalar_body tl)) = zlen tl * cs) as Etl.
  { rewrite (concat_same_size _ cs).
    - unfold zlen. by rewrite length_map.
    - apply Forall_map. eapply Forall_impl; [|exact Hsame]. cbn. tauto. }
  assert (zlen (le32 ct ++ le32 fl ++ enc_pod (mk_pod cs (scalar_type hd)) ++ scalar_body hd ++
    concat (map scalar_body tl)) = 16 + (1 + zlen tl) * cs) as Elen by (subst cs; zlia).
  pose proof (zlen_nonneg tl).
  unfold read_choice, spa_pod_body_get_choice, spa_pod_is_choice.
  rewrite check_true by (rewrite Elen; nia). cbn [negb].
  rewrite (holds_u32' _ _ _ Hct (holds_app_l _ _ _ _ H)). cbn [obind].
  apply holds_app_r in H. rewrite zlen_le32 in H.
  rewrite (holds_u32' _ _ _ Hfl (holds_app_l _ _ _ _ H)). cbn [obind].
  apply holds_app_r in H. rewrite zlen_le32 in H. replace (off + 4 + 4) with (off + 8) in H by lia.
  rewrite (holds_pod m (off + 8) (mk_pod cs (scalar_type hd)));
    [|unfold is_u32; cbn; nia|apply scalar_type_u32|by eapply holds_app_l].
  cbn [obind]. apply holds_app_r in H. rewrite zlen_enc_pod in H.
  replace (off + 8 + 8) with (off + 16) in H by lia.
  rewrite (choice_n_values ct (1 + zlen tl) cs); [|lia|lia|nia|done|done|by apply scalar_type_size|by rewrite <- Elen].
  cbn [choice_child choice_flags].
  replace (Z.to_nat (1 + zlen tl)) with (length (hd :: tl)) by (cbn; unfold zlen; lia).
  rewrite (read_alternatives_holds (hd :: tl)); [done|done| |cbn; nia|done].
  constructor; [done|]. eapply Forall_impl; [|exact Hsame]. cbn.
  intros s (_ & -> & ->). done.
Qed.

(** ** Headers *)

Lemma land_7 off : 0 <= off -> off mod 8 = 0 -> Z.land off 7 = 0.
Proof. intros. change 7 with (Z.ones 3). by rewrite Z.land_ones by lia. Qed.

Lemma read_header_holds p off size po pod hdr :
  holds (p_mem p) (p_data p + off) hdr -> holds hdr po (enc_pod pod) ->
  is_u32 (pod_size pod) -> is_u32 (pod_type pod) ->
  0 <= off -> off mod 8 = 0 -> off + zlen hdr + pad8 (pod_size pod) <= size ->
  spa_pod_parser_read_header p off size (zlen hdr) po = Ret (hdr, p_data p + (off + zlen hdr)).
Proof.
  intros H Hp Rs Rt Ho Hm Hl. unfold spa_pod_parser_read_header, copy_header.
  pose proof (pad8_bounds (pod_size pod)). unfold is_u32 in *.
  rewrite (proj2 (Z.leb_le _ _)), land_7 by lia. cbn [andb Z.eqb].
  rewrite (holds_load _ _ _ _ H eq_refl). cbn [obind].
  rewrite (holds_pod _ _ _ Rs Rt Hp). cbn [obind]. rewrite round_up_n_8 by lia.
  by rewrite (proj2 (Z.leb_le _ _)) by lia.
Qed.

(** The parser stands before the bytes [bs], inside its limit. *)
Record at_item (p : spa_pod_parser) (bs : list byte) : Prop := mk_at {
  at_holds : holds (p_mem p) (p_data p + p_offset p) bs;
  at_offset : 0 <= p_offset p;
  at_align : p_offset p mod 8 = 0;
  at_limit : p_offset p + zlen bs <= parser_limit p;
  at_u32 : parser_limit p < 2 ^ 32 }.

Lemma current_body_holds p t bs :
  at_item p (enc_padded t bs) -> is_u32 t ->
  spa_pod_parser_current_body p = (Ret (mk_pod (zlen bs) t, p_data p + p_offset p + 8), p).
Proof.
  intros [H Ho Hm Hl Hu] Ht. rewrite enc_padded_zlen in Hl.
  pose proof (pad8_bounds (zlen bs)). pose proof (zlen_nonneg bs).
  assert (is_u32 (zlen bs)) by (unfold is_u32; lia).
  unfold spa_pod_parser_current_body, spa_pod_parser_get_header, st_bind.
  pose proof (read_header_holds p (p_offset p) (parser_limit p) 0 (mk_pod (zlen bs) t)
    (enc_pod (mk_pod (zlen bs) t))) as R.
  rewrite zlen_enc_pod in R.
  rewrite R; [|by eapply holds_app_l|by apply holds_whole|done..|cbn; lia].
  unfold st_lift. rewrite (holds_pod _ _ (mk_pod (zlen bs) t)); [|done|done|by apply holds_whole].
  cbn. by rewrite Z.add_assoc.
Qed.

Lemma advance_holds p n :
  0 <= n -> 0 <= p_offset p -> p_offset p + 8 + pad8 n < 2 ^ 32 ->
  spa_pod_parser_advance (mk_pod n 0) p = set_offset (p_offset p + 8 + pad8 n) p.
Proof.
  intros Hn Ho Hu. pose proof (pad8_bounds n). unfold spa_pod_parser_advance, SPA_POD_SIZE. cbn.
  rewrite round_up_n_8, (pad8_add_l 8) by (done || lia). rewrite wrap_small by lia.
  by rewrite Z.add_assoc.
Qed.

Lemma next_body_holds p t bs :
  at_item p (enc_padded t bs) -> is_u32 t ->
  spa_pod_parser_next_body p =
    (Ret (mk_pod (zlen bs) t, p_data p + p_offset p + 8),
     set_offset (p_offset p + zlen (enc_padded t bs)) p).
Proof.
  intros H Ht. unfold spa_pod_parser_next_body, st_bind, st_try.
  rewrite (current_body_holds p t bs) by done. destruct H as [_ ? _ Hl ?].
  rewrite enc_padded_zlen in *. cbn. f_equal.
  change (spa_pod_parser_advance (mk_pod (zlen bs) t) p)
    with (spa_pod_parser_advance (mk_pod (zlen bs) 0) p).
  pose proof (zlen_nonneg bs). rewrite advance_holds by lia. by rewrite Z.add_assoc.
Qed.

(** Keyed members: a property or a control. *)
Definition enc_keyed (k f t : Z) (bs : list byte) : list byte := le32 k ++ le32 f ++ enc_padded t bs.

Lemma keyed_read_holds {A} (ld : mem -> outcome A) (val : A -> spa_pod) (x : A) p k f t bs :
  (forall h, holds h 0 (le32 k) -> holds h 4 (le32 f) -> holds h 8 (enc_pod (mk_pod (zlen bs) t)) ->
             is_u32 (zlen bs) -> ld h = Ret x) ->
  val x = mk_pod (zlen bs) t ->
  at_item p (enc_keyed k f t bs) -> is_u32 t ->
  keyed_read ld val p =
    (Ret (x, p_data p + p_offset p + 16),
     set_offset (p_offset p + zlen (enc_keyed k f t bs)) p).
Proof.
  intros Hld Hv [H Ho Hm Hl Hu] Ht. unfold enc_keyed in *. autorewrite with zlen in Hl |- *.
  pose proof (pad8_bounds (zlen bs)). pose proof (zlen_nonneg bs).
  assert (is_u32 (zlen bs)) by (unfold is_u32; lia).
  set (hdr := le32 k ++ le32 f ++ enc_pod (mk_pod (zlen bs) t)).
  assert (zlen hdr = 16) as Eh by (subst hdr; zlia).
  assert (holds hdr 8 (enc_pod (mk_pod (zlen bs) t))) as H8.
  { pose proof (holds_whole hdr _ eq_refl) as W. by do 2 apply holds_app_r in W. }
  unfold keyed_read, spa_pod_parser_get_header, st_bind.
  pose proof (read_header_holds p (p_offset p) (parser_limit p) 8 (mk_pod (zlen bs) t) hdr) as R.
  rewrite Eh in R. rewrite R; [| |done|done|done|done|done|cbn; lia].
  2: { subst hdr. unfold enc_padded in H. rewrite !app_assoc in H. apply holds_app_l in H.
       apply holds_app_l in H. by rewrite <- !app_assoc in H. }
  unfold st_lift. rewrite (Hld hdr); [| | |done|done].
  - cbn. rewrite Hv. cbn. rewrite round_up_n_8, (pad8_add_l 16) by (done || lia).
    rewrite wrap_small by lia. rewrite Z.add_assoc. do 2 f_equal. lia.
  - eapply holds_app_l, holds_whole. done.
  - pose proof (holds_whole hdr _ eq_refl) as W. apply holds_app_r in W. by eapply holds_app_l.
Qed.

Lemma get_prop_body_holds p k f t bs :
  at_item p (enc_keyed k f t bs) -> is_u32 k -> is_u32 f -> is_u32 t ->
  spa_pod_parser_get_prop_body p =
    (Ret (mk_prop k f (mk_pod (zlen bs) t), p_data p + p_offset p + 16),
     set_offset (p_offset p + zlen (enc_keyed k f t bs)) p).
Proof.
  intros H Hk Hf Ht. apply (keyed_read_holds load_prop prop_value); [|done..].
  intros h H0 H4 H8 Hs. unfold load_prop.
  rewrite (holds_u32' _ _ _ Hk H0), (holds_u32' _ _ _ Hf H4). cbn.
  by rewrite (holds_pod _ _ (mk_pod (zlen bs) t) Hs Ht H8).
Qed.

Lemma get_control_body_holds p k f t bs :
  at_item p (enc_keyed k f t bs) -> is_u32 k -> is_u32 f -> is_u32 t ->
  spa_pod_parser_get_control_body p =
    (Ret (mk_control k f (mk_pod (zlen bs) t), p_data p + p_offset p + 16),
     set_offset (p_offset p + zlen (enc_keyed k f t bs)) p).
Proof.
  intros H Hk Hf Ht. apply (keyed_read_holds load_control control_value); [|done..].
  intros h H0 H4 H8 Hs. unfold load_control.
  rewrite (holds_u32' _ _ _ Hk H0), (holds_u32' _ _ _ Hf H4). cbn.
  by rewrite (holds_pod _ _ (mk_pod (zlen bs) t) Hs Ht H8).
Qed.

(** At the limit there is no further member. *)
Lemma read_header_limit p hs po :
  0 < hs -> spa_pod_parser_read_header p (parser_limit p) (parser_limit p) hs po = Err EPIPE.
Proof.
  intros. unfold spa_pod_parser_read_header, copy_header.
  by rewrite (proj2 (Z.leb_gt _ _)) by lia.
Qed.
Lemma next_body_limit p :
  p_offset p = parser_limit p -> spa_pod_parser_next_body p = (Err EINVAL, p).
Proof.
  intros E. unfold spa_pod_parser_next_body, spa_pod_parser_current_body,
    spa_pod_parser_get_header, st_bind, st_try. by rewrite E, read_header_limit.
Qed.
Lemma keyed_read_limit {A} (ld : mem -> outcome A) val p :
  p_offset p = parser_limit p -> keyed_read ld val p = (Err EPIPE, p).
Proof.
  intros E. unfold keyed_read, spa_pod_parser_get_header, st_bind. by rewrite E, read_header_limit.
Qed.

(** ** Member loops *)

Section ReadItems.
Context {A B : Type} (next : ST spa_pod_parser A) (use : A -> outcome B) (enc : B -> list byte).
Context (m : mem).

(** [next] steps over the encoding of [x], and [use] turns what it saw into [x]. *)
Definition reads_item (x : B) : Prop :=
  zlen (enc x) mod 8 = 0 /\ 0 < zlen (enc x) /\
  forall p, p_mem p = m -> at_item p (enc x) ->
  exists a, next p = (Ret a, set_offset (p_offset p + zlen (enc x)) p) /\ use a = Ret x.

Lemma at_item_app p b1 b2 :
  at_item p (b1 ++ b2) -> zlen b1 mod 8 = 0 ->
  at_item p b1 /\ at_item (set_offset (p_offset p + zlen b1) p) b2.
Proof.
  intros [H Ho Hm Hl Hu] M. rewrite zlen_app in Hl.
  pose proof (zlen_nonneg b1). pose proof (zlen_nonneg b2). split.
  - constructor; [by eapply holds_app_l|done|done|lia|done].
  - constructor; cbn.
    + apply holds_app_r in H. by rewrite Z.add_assoc.
    + lia.
    + auto with cdb.
    + change (parser_limit (set_offset _ p)) with (parser_limit p). lia.
    + done.
Qed.

Lemma read_items_holds xs fuel p :
  Forall reads_item xs ->
  (forall q, p_offset q = parser_limit q -> exists e, next q = (Err e, q)) ->
  p_mem p = m -> at_item p (concat (map enc xs)) ->
  p_offset p + zlen (concat (map enc xs)) = parser_limit p -> (length xs < fuel)%nat ->
  exists p', read_items next use fuel p = (Ret xs, p').
Proof.
  intros F Hend. revert fuel p. induction F as [|x xs (M & Hpos & Hx) _ IH];
    intros [|fuel] p Hm H E Hf; cbn in Hf; try lia; cbn [read_items map concat] in *.
  - rewrite zlen_nil in E. destruct (Hend p) as [e Ee]; [lia|].
    unfold st_bind, st_try. rewrite Ee. eauto.
  - destruct (at_item_app _ _ _ H M) as [H1 H2].
    destruct (Hx p Hm H1) as (a & Ea & Ua).
    unfold st_bind at 1, st_try. rewrite Ea. unfold st_bind, st_lift. rewrite Ua.
    destruct (IH fuel (set_offset (p_offset p + zlen (enc x)) p)) as [p' ->];
      [done|done| |lia|by eauto].
    cbn. change (parser_limit (set_offset _ p)) with (parser_limit p). zlia.
Qed.
End ReadItems.

Lemma items_count {B} (enc : B -> list byte) xs :
  Forall (fun x => 0 < zlen (enc x)) xs -> zlen xs <= zlen (concat (map enc xs)).
Proof. induction 1 as [|x xs H _ IH]; [done|]. cbn. zlia. Qed.

Lemma item_size {B} (enc : B -> list byte) xs :
  Forall (fun x => zlen (enc x) <= zlen (concat (map enc xs))) xs.
Proof.
  induction xs as [|x xs IH]; [constructor|]. constructor; cbn; [zlia|].
  eapply Forall_impl; [|exact IH]. cbn. intros y ?. zlia.
Qed.

(** ** Trees *)

Definition item_enc (c : pod_val) : list byte := enc_padded (pod_val_type c) (pod_body c).
Definition keyed_enc (x : Z * Z * pod_val) : list byte :=
  let '(k, f, c) := x in enc_keyed k f (pod_val_type c) (pod_body c).

Lemma pod_val_type_u32 p : is_u32 (pod_val_type p).
Proof. destruct p; [apply scalar_type_u32|done..]. Qed.

(** What the induction gives for a member. *)
Definition value_rt (c : pod_val) : Prop :=
  forall d m off, (depth c <= d)%nat -> zlen (pod_body c) < 2 ^ 20 ->
  holds m off (item_enc c) ->
  read_value d m (mk_pod (zlen (pod_body c)) (pod_val_type c)) (off + 8) = Ret c.

Lemma item_enc_align c : zlen (item_enc c) mod 8 = 0 /\ 0 < zlen (item_enc c).
Proof.
  unfold item_enc. rewrite enc_padded_zlen. pose proof (pad8_bounds (zlen (pod_body c))).
  pose proof (zlen_nonneg (pod_body c)). split; [auto with cdb|lia].
Qed.

Lemma reads_struct_item d m c :
  value_rt c -> (depth c <= d)%nat -> zlen (item_enc c) < 2 ^ 20 ->
  reads_item spa_pod_parser_next_body (fun '(pod, b) => read_value d m pod b) item_enc m c.
Proof.
  intros Hc Hd Hl. destruct (item_enc_align c) as [? ?]. split; [done|]. split; [done|].
  intros p Hp Hat. eexists. split; [apply next_body_holds; [exact Hat|apply pod_val_type_u32]|].
  cbn. unfold item_enc in Hl. rewrite enc_padded_zlen in Hl.
  pose proof (pad8_bounds (zlen (pod_body c))).
  apply Hc; [done|lia|]. rewrite <- Hp. apply Hat.
Qed.

Lemma keyed_value_holds m p k f c :
  p_mem p = m -> at_item p (keyed_enc (k, f, c)) -> holds m (p_data p + p_offset p + 8) (item_enc c).
Proof.
  intros <- [H _ _ _ _]. do 2 apply holds_app_r in H. rewrite !zlen_le32 in H.
  by replace (p_data p + p_offset p + 4 + 4) with (p_data p + p_offset p + 8) in H by lia.
Qed.

Lemma keyed_enc_align x : zlen (keyed_enc x) mod 8 = 0 /\ 16 + pad8 (zlen (pod_body (snd x))) = zlen (keyed_enc x).
Proof.
  destruct x as [[k f] c]. cbn. unfold enc_keyed. autorewrite with zlen.
  replace (4 + (4 + (8 + pad8 (zlen (pod_body c))))) with (16 + pad8 (zlen (pod_body c))) by lia.
  split; [|done]. by apply mod8_add; [|apply pad8_mod].
Qed.

Lemma reads_keyed_item {A} (next : ST spa_pod_parser A) (view : A -> outcome (Z * Z * pod_val))
    d m k f c (mk : Z -> Z -> spa_pod -> Z -> A) :
  (forall p t bs, at_item p (enc_keyed k f t bs) -> is_u32 t ->
     next p = (Ret (mk k f (mk_pod (zlen bs) t) (p_data p + p_offset p + 16)),
               set_offset (p_offset p + zlen (enc_keyed k f t bs)) p)) ->
  (forall pod b, view (mk k f pod b) = let! v := read_value d m pod b in Ret (k, f, v)) ->
  value_rt c -> (depth c <= d)%nat -> zlen (keyed_enc (k, f, c)) < 2 ^ 20 ->
  reads_item next view keyed_enc m (k, f, c).
Proof.
  intros Hn Hv Hc Hd Hl. destruct (keyed_enc_align (k, f, c)) as [Ha Hz]. cbn [snd] in Hz.
  pose proof (pad8_bounds (zlen (pod_body c))). pose proof (zlen_nonneg (pod_body c)).
  split; [done|]. split; [lia|]. intros p Hp Hat.
  eexists. split; [apply Hn; [exact Hat|apply pod_val_type_u32]|].
  rewrite Hv. pose proof (keyed_value_holds m p k f c Hp Hat) as Hh.
  replace (p_data p + p_offset p + 16) with (p_data p + p_offset p + 8 + 8) by lia.
  by rewrite (Hc d m _ Hd ltac:(lia) Hh).
Qed.

Lemma list_max_map_le {B} (f : B -> nat) l d :
  (list_max (map f l) <= d)%nat -> Forall (fun x => (f x <= d)%nat) l.
Proof. intros H. apply list_max_le, Forall_map in H. done. Qed.

(** A freshly opened container of [n] bytes whose members start after [k]
    bytes of its body. *)
Definition opened_at (m : mem) (pod : spa_pod) (data k : Z) : spa_pod_parser :=
  mk_parser m data (8 + pod_size pod) (8 + k) 0 [mk_frame pod 0 0].

Lemma opened_limit m pod data k :
  0 <= pod_size pod < 2 ^ 20 -> parser_limit (opened_at m pod data k) = 8 + pod_size pod.
Proof. intros. unfold parser_limit, SPA_POD_SIZE. cbn. rewrite wrap_small by lia. lia. Qed.

Lemma opened_at_item m t hd items off :
  zlen hd mod 8 = 0 -> zlen (hd ++ items) < 2 ^ 20 ->
  holds m off (enc_padded t (hd ++ items)) ->
  let p := opened_at m (mk_pod (zlen (hd ++ items)) t) off (zlen hd) in
  at_item p items /\ p_offset p + zlen items = parser_limit p.
Proof.
  intros M L H p. pose proof (zlen_nonneg (hd ++ items)). pose proof (zlen_nonneg hd).
  assert (parser_limit p = 8 + zlen (hd ++ items)) as El.
  { apply (opened_limit _ (mk_pod (zlen (hd ++ items)) t)). cbn. lia. }
  split; [constructor; rewrite ?El|rewrite El]; cbn; [| | | |lia|zlia].
  - apply holds_app_r, holds_app_l, holds_app_r in H. rewrite zlen_enc_pod in H.
    by replace (off + (8 + zlen hd)) with (off + 8 + zlen hd) by lia.
  - lia.
  - auto with cdb.
  - zlia.
Qed.

(** Run the member loop of a container to its end. *)
Lemma read_members {A B} (next : ST spa_pod_parser A) (use : A -> outcome B) enc m t hd xs off :
  zlen hd mod 8 = 0 -> zlen (hd ++ concat (map enc xs)) < 2 ^ 20 ->
  holds m off (enc_padded t (hd ++ concat (map enc xs))) ->
  Forall (reads_item next use enc m) xs ->
  (forall q, p_offset q = parser_limit q -> exists e, next q = (Err e, q)) ->
  let pod := mk_pod (zlen (hd ++ concat (map enc xs))) t in
  exists p', read_items next use (S (Z.to_nat (pod_size pod))) (opened_at m pod off (zlen hd)) = (Ret xs, p').
Proof.
  intros M L H F Hend pod. destruct (opened_at_item m t hd _ off M L H) as [Hat Hlim].
  apply (read_items_holds next use enc m); [done|done|done|done|done|].
  assert (zlen xs <= zlen (concat (map enc xs))).
  { apply items_count. eapply Forall_impl; [|exact F]. by intros x (_ & ? & _). }
  cbn. unfold zlen in *. rewrite length_app in *. lia.
Qed.

Lemma init_struct_holds m n off :
  0 <= n < 2 ^ 20 ->
  let pod := mk_pod n SPA_TYPE_Struct in
  spa_pod_parser_init_struct_body m pod (off + 8) = Ret (opened_at m pod off 0).
Proof.
  intros Hn pod. unfold spa_pod_parser_init_struct_body, spa_pod_is_struct, SPA_POD_CHECK_TYPE,
    SPA_POD_IS_VALID, SPA_POD_MAX_SIZE. cbn [pod_size pod_type pod].
  rewrite (proj2 (Z.ltb_lt _ _)) by lia. cbn -[Z.add Z.sub]. unfold opened_at, spa_pod_parser_init_pod_body.
  cbn. rewrite wrap_small by lia. unfold set_offset, spa_pod_parser_push. cbn.
  do 2 f_equal; lia.
Qed.

Lemma get_object_holds m off t i items :
  is_u32 t -> is_u32 i ->
  let bs := le32 t ++ le32 i ++ items in
  let pod := mk_pod (zlen bs) SPA_TYPE_Object in
  zlen bs < 2 ^ 20 -> holds m off bs ->
  spa_pod_body_get_object pod m off = Ret (mk_object pod t i, off + 8).
Proof.
  intros Ht Hi bs pod L H. unfold spa_pod_body_get_object, spa_pod_is_object, pod.
  subst bs. rewrite check_true by zlia. cbn [negb].
  rewrite (holds_u32' _ _ _ Ht (holds_app_l _ _ _ _ H)). cbn [obind].
  apply holds_app_r in H. rewrite zlen_le32 in H.
  by rewrite (holds_u32' _ _ _ Hi (holds_app_l _ _ _ _ H)).
Qed.

Lemma get_sequence_holds m off u items :
  is_u32 u ->
  let bs := le32 u ++ le32 0 ++ items in
  let pod := mk_pod (zlen bs) SPA_TYPE_Sequence in
  zlen bs < 2 ^ 20 -> holds m off bs ->
  spa_pod_body_get_sequence pod m off = Ret (mk_sequence pod u 0, off + 8).
Proof.
  intros Hu bs pod L H. unfold spa_pod_body_get_sequence, spa_pod_is_sequence, pod.
  subst bs. rewrite check_true by zlia. cbn [negb].
  rewrite (holds_u32' _ _ _ Hu (holds_app_l _ _ _ _ H)). cbn [obind].
  apply holds_app_r in H. rewrite zlen_le32 in H.
  rewrite (holds_u32' m (off + 4) 0); [done|done|by eapply holds_app_l].
Qed.

Lemma enc_padded_body m off t bs : holds m off (enc_padded t bs) -> holds m (off + 8) bs.
Proof. intros H. apply holds_app_r, holds_app_l in H. by rewrite zlen_enc_pod in H. Qed.

Lemma init_object_holds m off t i items :
  is_u32 t -> is_u32 i ->
  let bs := le32 t ++ le32 i ++ items in
  let pod := mk_pod (zlen bs) SPA_TYPE_Object in
  zlen bs < 2 ^ 20 -> holds m off (enc_padded SPA_TYPE_Object bs) ->
  spa_pod_parser_init_object_body m pod (off + 8)
  = Ret (opened_at m pod off 8, mk_object pod t i, off + 8 + 8).
Proof.
  intros Ht Hi bs pod L H. pose proof (zlen_nonneg bs). unfold spa_pod_parser_init_object_body.
  assert (spa_pod_is_object pod = true) as ->.
  { unfold spa_pod_is_object, pod. apply check_true; [subst bs; zlia|done]. }
  cbn [negb]. unfold pod, bs. rewrite get_object_holds by (done || by eapply enc_padded_body).
  cbn [obind]. unfold opened_at, spa_pod_parser_init_pod_body, set_offset, spa_pod_parser_push.
  fold bs. cbn. rewrite wrap_small by lia. rewrite (Z.add_comm (zlen bs) 8).
  by replace (off + 8 - 8) with off by lia.
Qed.

Lemma push_sequence_holds m off u items :
  is_u32 u ->
  let bs := le32 u ++ le32 0 ++ items in
  let pod := mk_pod (zlen bs) SPA_TYPE_Sequence in
  zlen bs < 2 ^ 20 -> zlen bs mod 8 = 0 -> holds m off (enc_padded SPA_TYPE_Sequence bs) ->
  spa_pod_parser_push_sequence_body (spa_pod_parser_init_pod_body m pod (off + 8))
  = (Ret (mk_sequence pod u 0, off + 8 + 8), opened_at m pod off 8).
Proof.
  intros Hu bs pod L M H. pose proof (zlen_nonneg bs).
  unfold spa_pod_parser_init_pod_body, spa_pod_parser_init. cbn [pod pod_size].
  rewrite wrap_small by lia. replace (off + 8 - 8) with off by lia.
  unfold spa_pod_parser_push_sequence_body, st_bind at 1.
  rewrite (current_body_holds _ SPA_TYPE_Sequence bs); [|constructor; cbn|done].
  - unfold st_bind, st_get, st_lift. cbn [p_data p_offset p_mem].
    replace (off + 0 + 8) with (off + 8) by lia.
    unfold bs. rewrite get_sequence_holds by (done || by eapply enc_padded_body). fold bs.
    cbn -[Z.add]. unfold opened_at, set_offset, spa_pod_parser_push. cbn.
    do 2 f_equal. lia.
  - by rewrite Z.add_0_r.
  - done.
  - done.
  - rewrite enc_padded_zlen, (pad8_aligned _ M). lia.
  - lia.
Qed.

Lemma Forall_id_map {B} (P : B -> Prop) l : Forall id (map P l) -> Forall P l.
Proof. induction l; cbn; [done|]. intros [? ?]%Forall_cons_1. constructor; auto. Qed.

Lemma struct_rt l : Forall value_rt l -> value_rt (Struct l).
Proof.
  intros F [|d] m off Hd L H; cbn [depth] in Hd; [lia|]. cbn [read_value pod_val_type pod_type].
  set (body := pod_body (Struct l)) in *. pose proof (zlen_nonneg body).
  change (item_enc (Struct l)) with (enc_padded SPA_TYPE_Struct body) in H.
  cbn [Z.eqb Pos.eqb SPA_TYPE_Struct SPA_TYPE_Choice].
  rewrite init_struct_holds by lia. cbn [obind].
  destruct (read_members spa_pod_parser_next_body (fun '(c, b) => read_value d m c b) item_enc m
    SPA_TYPE_Struct [] l off) as [p' E]; [done|done|done| | |].
  - pose proof (list_max_map_le depth l d ltac:(lia)) as D. pose proof (item_size item_enc l) as S.
    apply Forall_forall. intros c Hc. rewrite Forall_forall in F, D, S.
    apply reads_struct_item; [by apply F|by apply D|].
    specialize (S c Hc). change (concat (map item_enc l)) with body in S. lia.
  - intros q Hq. eexists. by apply next_body_limit.
  - change (zlen ([] ++ concat (map item_enc l))) with (zlen body) in E. cbn [pod_size] in *.
    change (zlen (@nil byte)) with 0 in E. by rewrite E.
Qed.

(** The members of an object and of a sequence differ in the record the
    parser fills. *)
Lemma keyed_members d m t hd off xs {A} (next : ST spa_pod_parser A)
    (view : A -> outcome (Z * Z * pod_val)) (mk : Z -> Z -> spa_pod -> Z -> A) :
  Forall (fun x => value_rt (snd x)) xs ->
  (list_max (map (fun '(_, _, c) => depth c) xs) <= d)%nat ->
  Forall id (map (fun '(k, f, c) => is_u32 k /\ is_u32 f /\ pod_rt c) xs) ->
  (forall p k f t bs, at_item p (enc_keyed k f t bs) -> is_u32 k -> is_u32 f -> is_u32 t ->
     next p = (Ret (mk k f (mk_pod (zlen bs) t) (p_data p + p_offset p + 16)),
               set_offset (p_offset p + zlen (enc_keyed k f t bs)) p)) ->
  (forall k f pod b, view (mk k f pod b) = let! v := read_value d m pod b in Ret (k, f, v)) ->
  (forall q, p_offset q = parser_limit q -> exists e, next q = (Err e, q)) ->
  zlen hd mod 8 = 0 -> zlen (hd ++ concat (map keyed_enc xs)) < 2 ^ 20 ->
  holds m off (enc_padded t (hd ++ concat (map keyed_enc xs))) ->
  let pod := mk_pod (zlen (hd ++ concat (map keyed_enc xs))) t in
  exists p', read_items next view (S (Z.to_nat (pod_size pod))) (opened_at m pod off (zlen hd)) = (Ret xs, p').
Proof.
  intros F D R Hn Hv Hend M L H. apply read_members; [done|done|done| |done].
  pose proof (list_max_map_le _ _ _ D) as D'. pose proof (item_size keyed_enc xs) as S.
  apply Forall_id_map in R. rewrite zlen_app in L. pose proof (zlen_nonneg hd).
  apply Forall_forall. intros [[k f] c] Hc.
  rewrite Forall_forall in F, D', S, R. destruct (R _ Hc) as (? & ? & ?).
  apply (reads_keyed_item next view d m k f c mk); [auto|auto|by apply (F _ Hc)|by apply (D' _ Hc)|].
  specialize (S _ Hc). cbn beta in S. lia.
Qed.

Lemma object_rt t i props :
  Forall (fun x => value_rt (snd x)) props -> pod_rt (Object t i props) -> value_rt (Object t i props).
Proof.
  intros F (Ht & Hi & R) [|d] m off Hd L H; cbn [depth] in Hd; [lia|].
  cbn [read_value pod_val_type pod_type Z.eqb Pos.eqb SPA_TYPE_Struct SPA_TYPE_Choice SPA_TYPE_Object].
  change (pod_body (Object t i props)) with (le32 t ++ le32 i ++ concat (map keyed_enc props)) in *.
  rewrite init_object_holds by done. cbn [obind object_type object_id].
  assert (zlen (le32 t ++ le32 i) mod 8 = 0) by (by autorewrite with zlen).
  destruct (keyed_members d m SPA_TYPE_Object (le32 t ++ le32 i) off props spa_pod_parser_get_prop_body
    (fun '(x, b) => let! v := read_value d m (prop_value x) b in Ret (prop_key x, prop_flags x, v))
    (fun k f pod b => (mk_prop k f pod, b))) as [p' E];
    try done; try (rewrite <- app_assoc; done); [lia|apply get_prop_body_holds| |].
  - intros q Hq. eexists. by apply (keyed_read_limit load_prop prop_value).
  - rewrite <- app_assoc in E.
    replace (zlen (le32 t ++ le32 i)) with 8 in E by zlia. cbn [pod_size] in *. by rewrite E.
Qed.

Lemma sequence_rt u cs :
  Forall (fun x => value_rt (snd x)) cs -> pod_rt (Sequence u cs) -> value_rt (Sequence u cs).
Proof.
  intros F (Hu & R) [|d] m off Hd L H; cbn [depth] in Hd; [lia|].
  cbn [read_value pod_val_type pod_type Z.eqb Pos.eqb SPA_TYPE_Struct SPA_TYPE_Choice SPA_TYPE_Object SPA_TYPE_Sequence].
  change (pod_body (Sequence u cs)) with (le32 u ++ le32 0 ++ concat (map keyed_enc cs)) in *.
  unfold st_bind at 1. rewrite push_sequence_holds; [|done|done| |done].
  - assert (zlen (le32 u ++ le32 0) mod 8 = 0) by (by autorewrite with zlen).
    destruct (keyed_members d m SPA_TYPE_Sequence (le32 u ++ le32 0) off cs spa_pod_parser_get_control_body
      (fun '(x, b) => let! v := read_value d m (control_value x) b in
                      Ret (control_offset x, control_type x, v))
      (fun k f pod b => (mk_control k f pod, b))) as [p' E];
      try done; try (rewrite <- app_assoc; done); [lia|apply get_control_body_holds| |].
    + intros q Hq. eexists. by apply (keyed_read_limit load_control control_value).
    + rewrite <- app_assoc in E. replace (zlen (le32 u ++ le32 0)) with 8 in E by zlia.
      cbn [pod_size] in *. unfold st_bind. by rewrite E.
  - rewrite !zlen_app, !zlen_le32, Z.add_assoc. apply mod8_add; [done|].
    clear. induction cs as [|x cs IH]; [done|]. cbn. rewrite zlen_app.
    apply mod8_add; [apply keyed_enc_align|done].
Qed.

(** Reading the encoding of a value gives the value back. *)
Lemma pod_value_rt p : pod_ok p -> pod_rt p -> value_rt p.
Proof.
  induction p as [s|ct fl hd tl|l IH|t i props IH|u cs IH] using pod_val_tree_ind; intros Hok R.
  - intros [|d] m off Hd L H; cbn [depth] in Hd; [lia|]. apply enc_padded_body in H.
    pose proof (read_scalar_holds s m (off + 8) R L H) as E. cbn [pod_val_type pod_body] in *.
    destruct s; unfold read_value; fold read_value;
      cbn [pod_type scalar_type Z.eqb Pos.eqb] in *; unfold scalar_type in E; by rewrite E.
  - intros [|d] m off Hd L H; cbn [depth] in Hd; [lia|]. apply enc_padded_body in H.
    by apply (read_choice_holds ct fl hd tl).
  - apply struct_rt. cbn in Hok, R. apply Forall_id_map in Hok, R.
    apply Forall_forall. intros x Hx. rewrite Forall_forall in IH, Hok, R. by apply IH; [|apply Hok|apply R].
  - apply object_rt; [|done]. destruct R as (_ & _ & R). cbn in Hok. apply Forall_id_map in Hok, R.
    apply Forall_forall. intros [[k f] c] Hx. rewrite Forall_forall in IH, Hok, R.
    apply (IH _ Hx); [by apply (Hok _ Hx)|by apply (R _ Hx)].
  - apply sequence_rt; [|done]. destruct R as (_ & R). cbn in Hok. apply Forall_id_map in Hok, R.
    apply Forall_forall. intros [[k f] c] Hx. rewrite Forall_forall in IH, Hok, R.
    apply (IH _ Hx); [by apply (Hok _ Hx)|by apply (R _ Hx)].
Qed.

Lemma zlen_pod_enc p : zlen (pod_enc p) = 8 + pad8 (zlen (pod_body p)).
Proof. apply enc_padded_zlen. Qed.

(** The header of a value that starts a buffer passes the checks of
    [spa_pod_body_from_data]. *)
Lemma body_from_data_holds m p size :
  zlen (pod_body p) < 2 ^ 20 -> holds m 0 (pod_enc p) -> zlen (pod_enc p) <= size -> size <= zlen m ->
  spa_pod_body_from_data m 0 (zlen m) 0 size
  = Ret (mk_pod (zlen (pod_body p)) (pod_val_type p), 8).
Proof.
  intros L H Hs Hm. rewrite zlen_pod_enc in Hs. pose proof (pad8_bounds (zlen (pod_body p))).
  pose proof (zlen_nonneg (pod_body p)). unfold spa_pod_body_from_data. cbn [Z.ltb Z.compare].
  rewrite (proj2 (Z.ltb_ge size 8)), (proj2 (Z.ltb_ge (zlen m) size)) by lia.
  rewrite (proj2 (Z.ltb_ge (zlen m - size) (u32 0))) by (change (u32 0) with 0; lia).
  cbn [orb]. rewrite (holds_pod m (0 + 0) (mk_pod (zlen (pod_body p)) (pod_val_type p)));
    [|unfold is_u32; cbn; lia|apply pod_val_type_u32|by eapply holds_app_l].
  cbn [obind]. unfold SPA_POD_IS_VALID, SPA_POD_MAX_SIZE. cbn [pod_size].
  rewrite (proj2 (Z.ltb_lt (zlen (pod_body p)) (2 ^ 20))), (proj2 (Z.ltb_ge (size - 8) (zlen (pod_body p)))) by lia. done.
Qed.

(** ** Properties *)

(** C2: a value written with the builder into a large enough buffer, then
    opened with [spa_pod_body_from_data] and read with the accessors and the
    parser, is the value that was written. *)
Theorem build_read_roundtrip (p : pod_val) (data : mem) :
  pod_ok p -> pod_rt p -> zlen (pod_body p) < 2 ^ 20 ->
  zlen (pod_enc p) <= zlen data <= UINT32_MAX ->
  exists r b' pod,
    build_pod p (spa_pod_builder_init data) = (Ret r, b') /\
    spa_pod_body_from_data (b_data b') 0 (b_size b') 0 (b_offset b') = Ret (pod, 8) /\
    read_value (depth p) (b_data b') pod 8 = Ret p.
Proof.
  intros Hok R L [Hs Hu].
  destruct (build_pod_appends p Hok) as [_ A].
  destruct (A (spa_pod_builder_init data)) as [r E].
  { split_and!; [|done|done]. split_and!; [done|done|constructor]. }
  { done. }
  exists r, (append_bytes (pod_enc p) (spa_pod_builder_init data)),
    (mk_pod (zlen (pod_body p)) (pod_val_type p)).
  split; [done|]. cbn [append_bytes b_data b_offset b_size].
  assert (holds (overwrite data 0 (pod_enc p)) 0 (pod_enc p)) as H by by apply holds_overwrite.
  cbn [spa_pod_builder_init b_data b_offset]. split.
  - unfold b_size. apply body_from_data_holds; [done|done|lia|].
    cbn. rewrite zlen_overwrite; lia.
  - apply (pod_value_rt p Hok R (depth p) _ 0); done.
Qed.

Lemma build_read_roundtrip_witness :
  exists r b' pod,
    build_pod sample_value (spa_pod_builder_init (zeroes 256)) = (Ret r, b') /\
    spa_pod_body_from_data (b_data b') 0 (b_size b') 0 (b_offset b') = Ret (pod, 8) /\
    read_value (depth sample_value) (b_data b') pod 8 = Ret sample_value.
Proof.
  apply build_read_roundtrip.
  - repeat constructor.
  - repeat constructor; vm_compute; congruence.
  - reflexivity.
  - split; vm_compute; discriminate.
Defined.
