(* ===== verification/PodLookup.v ===== *)
(** * Property lookup in an object

    [spa_pod_parser_object_find_prop] searches from the current position to
    the end of the object and then again from its first property.  On an
    object that [build_pod] wrote this finds the next property with the key,
    wherever the parser stands, and fails with [-ENOENT] exactly when the
    object has no such property. *)
From S2P Require Import Prelude Bytes PodBody PodBuilder PodSpec PodParser PodSafety PodRoundTrip.

Notation prop_member := (Z * Z * pod_val)%type.

(** The first member with key [key]. *)
Fixpoint first_with (key : Z) (l : list prop_member) : option prop_member :=
  match l with
  | [] => None
  | (k, f, c) :: l => if k =? key then Some (k, f, c) else first_with key l
  end.

Definition prop_ok (x : prop_member) : Prop :=
  let '(k, f, c) := x in is_u32 k /\ is_u32 f /\ zlen (pod_body c) < 2 ^ 20.
Definition member_ok (x : prop_member) : Prop :=
  let '(k, f, c) := x in is_u32 k /\ is_u32 f /\ value_rt c /\ zlen (pod_body c) < 2 ^ 20.

(** The parser found the member [(k, f, c)]: its header, and its value in
    memory. *)
Definition located (m : mem) (x : prop_member) (r : spa_pod_prop * Z) : Prop :=
  let '(k, f, c) := x in
  prop_key r.1 = k /\ prop_flags r.1 = f /\
  prop_value r.1 = mk_pod (zlen (pod_body c)) (pod_val_type c) /\ holds m (r.2 - 8) (item_enc c).

(** The answer of the parser for the member [(k, f, c)]. *)
Definition answers (m : mem) (x : prop_member) (r : spa_pod_prop * Z) : Prop :=
  located m x r /\ forall d, (depth x.2 <= d)%nat -> read_value d m (prop_value r.1) r.2 = Ret x.2.

Lemma find_prop_loop_step fuel stop key p :
  (forall s, stop = Some s -> s < p_offset p) ->
  find_prop_loop (S fuel) stop key p =
    match spa_pod_parser_get_prop_body p with
    | (Ret (x, b), q) =>
        if prop_key x =? key then (Ret (Some (x, b)), q) else find_prop_loop fuel stop key q
    | (Err _, q) => (Ret None, q)
    | (Fault, q) => (Fault, q)
    end.
Proof.
  intros Hst. cbn [find_prop_loop]. unfold st_bind at 1, st_get.
  destruct (match stop with Some s => p_offset p =? s | None => false end) eqn:Es.
  { destruct stop as [s|]; [|done]. specialize (Hst s eq_refl). bool_to_prop. lia. }
  unfold st_bind, st_try. destruct (spa_pod_parser_get_prop_body p) as [[[x b]| |] q]; [|done..].
  by destruct (prop_key x =? key).
Qed.

Lemma find_prop_loop_holds xs key stop fuel p :
  Forall prop_ok xs -> at_item p (concat (map keyed_enc xs)) ->
  p_offset p + zlen (concat (map keyed_enc xs)) = parser_limit p -> (length xs < fuel)%nat ->
  (forall s, stop = Some s -> s < p_offset p) ->
  match first_with key xs with
  | Some x => exists r j,
      find_prop_loop fuel stop key p =
        (Ret (Some r), set_offset (p_offset p + zlen (concat (map keyed_enc (take j xs)))) p) /\
      located (p_mem p) x r
  | None => find_prop_loop fuel stop key p = (Ret None, set_offset (parser_limit p) p)
  end.
Proof.
  intros F. revert fuel p. induction F as [|[[k f] c] xs (Hk & Hf & Hl) _ IH];
    intros [|fuel] p Hat E Hfuel Hst; cbn in Hfuel; try lia; cbn [first_with map concat] in *;
    rewrite find_prop_loop_step by done.
  - rewrite zlen_nil in E. change spa_pod_parser_get_prop_body with (keyed_read load_prop prop_value).
    rewrite keyed_read_limit by lia. by rewrite <- E, Z.add_0_r; destruct p.
  - destruct (keyed_enc_align (k, f, c)) as [Ha _].
    destruct (at_item_app _ _ _ Hat Ha) as [H1 H2]. cbn [keyed_enc] in H1.
    rewrite (get_prop_body_holds p k f _ _ H1 Hk Hf (pod_val_type_u32 c)).
    cbn [prop_key]. destruct (Z.eqb_spec k key) as [->|Hne].
    + eexists _, 1%nat. cbn [take map concat]. rewrite app_nil_r. split; [done|]. cbn.
      pose proof (keyed_value_holds (p_mem p) p key f c eq_refl H1) as Hh.
      replace (p_data p + p_offset p + 16) with (p_data p + p_offset p + 8 + 8) by lia.
      split_and!; [done..|].
      by replace (p_data p + p_offset p + 8 + 8 - 8) with (p_data p + p_offset p + 8) by lia.
    + rewrite zlen_app in E. pose proof (zlen_nonneg (keyed_enc (k, f, c))).
      assert (forall j, p_offset p + zlen (keyed_enc (k, f, c)) + zlen (concat (map keyed_enc (take j xs)))
        = p_offset p + zlen (concat (map keyed_enc (take (S j) ((k, f, c) :: xs))))) as Ej
        by (intros j; cbn [take map concat]; rewrite zlen_app; lia).
      refine (_ (IH fuel _ H2 _ ltac:(lia) _)).
      * destruct (first_with key xs) as [x|]; [|done]. intros (r & j & Er & Ha'). exists r, (S j).
        split; [|done]. rewrite <- Ej. exact Er.
      * cbn [set_offset p_offset]. change (parser_limit (set_offset _ p)) with (parser_limit p). lia.
      * intros s Hs. specialize (Hst s Hs). cbn [set_offset p_offset]. lia.
Qed.

(** The parser inside the object [(t, i, props)] encoded at [off], standing
    before its [j]-th property. *)
Definition inside_object (m : mem) (off t i : Z) (props : list prop_member) (j : nat)
  : spa_pod_parser :=
  let pod := mk_pod (zlen (pod_body (Object t i props))) SPA_TYPE_Object in
  opened_at m pod off (8 + zlen (concat (map keyed_enc (take j props)))).

Lemma keyed_concat_align l : zlen (concat (map keyed_enc l)) mod 8 = 0.
Proof.
  induction l as [|x l IH]; [done|]. cbn. rewrite zlen_app.
  apply mod8_add; [apply keyed_enc_align|done].
Qed.

Lemma inside_object_at m off t i props j :
  zlen (pod_body (Object t i props)) < 2 ^ 20 ->
  holds m off (item_enc (Object t i props)) ->
  let p := inside_object m off t i props j in
  at_item p (concat (map keyed_enc (drop j props))) /\
  p_offset p + zlen (concat (map keyed_enc (drop j props))) = parser_limit p.
Proof.
  intros L H.
  assert (pod_body (Object t i props) =
    (le32 t ++ le32 i ++ concat (map keyed_enc (take j props))) ++ concat (map keyed_enc (drop j props))) as E.
  { change (pod_body (Object t i props)) with (le32 t ++ le32 i ++ concat (map keyed_enc props)).
    rewrite <- !app_assoc. do 2 f_equal. rewrite <- concat_app, <- map_app. by rewrite take_drop. }
  cbv zeta. unfold inside_object, item_enc in *. rewrite E in *.
  pose proof (opened_at_item m SPA_TYPE_Object
    (le32 t ++ le32 i ++ concat (map keyed_enc (take j props)))
    (concat (map keyed_enc (drop j props))) off) as K.
  assert (zlen (le32 t ++ le32 i ++ concat (map keyed_enc (take j props)))
          = 8 + zlen (concat (map keyed_enc (take j props)))) as Ehd by zlia.
  rewrite Ehd in K. apply K; [|done|done].
  apply mod8_add; [done|apply keyed_concat_align].
Qed.

Lemma members_ok t i props :
  pod_ok (Object t i props) -> pod_rt (Object t i props) ->
  zlen (pod_body (Object t i props)) < 2 ^ 20 -> Forall member_ok props.
Proof.
  intros Hok (_ & _ & R) L. apply Forall_id_map in Hok, R.
  change (pod_body (Object t i props)) with (le32 t ++ le32 i ++ concat (map keyed_enc props)) in L.
  pose proof (item_size keyed_enc props) as S. apply Forall_forall. intros [[k f] c] Hx.
  rewrite Forall_forall in Hok, R, S. specialize (Hok _ Hx). destruct (R _ Hx) as (? & ? & ?).
  specialize (S _ Hx). cbn beta in S. destruct (keyed_enc_align (k, f, c)) as [_ Hz]. cbn [snd] in Hz.
  pose proof (pad8_bounds (zlen (pod_body c))).
  split_and!; [done|done|by apply pod_value_rt|zlia].
Qed.

(** The next property with the key, in the circular order of the search. *)
Definition next_with (j : nat) (key : Z) (props : list prop_member) : option prop_member :=
  match first_with key (drop j props) with
  | Some x => Some x
  | None => first_with key props
  end.

Lemma first_with_some key l x : first_with key l = Some x -> x ∈ l /\ x.1.1 = key.
Proof.
  induction l as [|[[k f] c] l IH]; [done|]. cbn. destruct (Z.eqb_spec k key) as [->|_].
  - intros [= <-]. split; [by left|done].
  - intros H. destruct (IH H). split; [by right|done].
Qed.

Lemma next_with_in j key l x : next_with j key l = Some x -> x ∈ l.
Proof.
  unfold next_with. destruct (first_with key (drop j l)) as [y|] eqn:E.
  - intros [= <-]. apply first_with_some in E as [H _]. rewrite <- (take_drop j l). apply elem_of_app. by right.
  - by intros [? _]%first_with_some.
Qed.

Lemma inside_object_fuel m off t i props j k :
  let p := inside_object m off t i props j in
  (length (drop k props) < S (Z.to_nat (p_size p)))%nat.
Proof.
  cbn [inside_object opened_at p_size pod_size]. rewrite length_drop.
  change (pod_body (Object t i props)) with (le32 t ++ le32 i ++ concat (map keyed_enc props)).
  assert (zlen props <= zlen (concat (map keyed_enc props))).
  { apply items_count, Forall_forall. intros x _. destruct (keyed_enc_align x) as [_ <-].
    pose proof (pad8_bounds (zlen (pod_body x.2))). pose proof (zlen_nonneg (pod_body x.2)). lia. }
  unfold zlen in *. rewrite !length_app. lia.
Qed.

Lemma inside_object_advance m off t i props j k :
  let p := inside_object m off t i props j in
  inside_object m off t i props (j + k) =
  set_offset (p_offset p + zlen (concat (map keyed_enc (take k (drop j props))))) p.
Proof.
  cbv zeta. unfold inside_object at 1. rewrite <- take_take_drop, map_app, concat_app, zlen_app.
  unfold inside_object, opened_at, set_offset. cbn [p_offset p_mem p_data p_size p_flags p_frames].
  f_equal. lia.
Qed.

Lemma find_prop_eq key p f fs :
  p_frames p = f :: fs -> pod_type (frame_pod f) = SPA_TYPE_Object ->
  spa_pod_parser_object_find_prop key p =
    let fuel := S (Z.to_nat (p_size p)) in
    match find_prop_loop fuel None key p with
    | (Ret (Some r), q) => (Ret r, q)
    | (Ret None, q) =>
        match find_prop_loop fuel (Some (frame_offset f)) key
                (set_offset (u32 (frame_offset f + 16)) q) with
        | (Ret (Some r), q') => (Ret r, q')
        | (Ret None, q') => (Err ENOENT, q')
        | (Err e, q') => (Err e, q')
        | (Fault, q') => (Fault, q')
        end
    | (Err e, q) => (Err e, q)
    | (Fault, q) => (Fault, q)
    end.
Proof.
  intros Ef Et. unfold spa_pod_parser_object_find_prop, st_bind at 1, st_get.
  rewrite Ef, Et. cbn [Z.eqb Pos.eqb SPA_TYPE_Object negb]. unfold st_bind at 1.
  destruct (find_prop_loop _ None key p) as [[[r|]| |] q]; [done| |done..].
  unfold st_bind, st_modify. change (set_offset _ (spa_pod_parser_restart f q))
    with (set_offset (u32 (frame_offset f + 16)) q).
  by destruct (find_prop_loop _ (Some _) key _) as [[[r|]| |] q'].
Qed.

Lemma find_prop_located t i props m off j key :
  Forall prop_ok props ->
  zlen (pod_body (Object t i props)) < 2 ^ 20 -> holds m off (item_enc (Object t i props)) ->
  let p := inside_object m off t i props j in
  match next_with j key props with
  | Some x => exists r j', spa_pod_parser_object_find_prop key p =
                             (Ret r, inside_object m off t i props j') /\ located m x r
  | None => (spa_pod_parser_object_find_prop key p).1 = Err ENOENT
  end.
Proof.
  intros F L H p.
  destruct (inside_object_at m off t i props j L H) as [A1 E1].
  destruct (inside_object_at m off t i props 0 L H) as [A2 E2]. rewrite drop_0 in *.
  pose proof (find_prop_loop_holds (drop j props) key None (S (Z.to_nat (p_size p))) p
    ltac:(by apply Forall_drop) A1 E1 (inside_object_fuel _ _ _ _ _ _ _) ltac:(done)) as L1.
  pose proof (find_prop_loop_holds props key (Some 0) (S (Z.to_nat (p_size p)))
    (inside_object m off t i props 0) F A2 E2 (inside_object_fuel m off t i props 0 0)
    ltac:(intros s [= <-]; cbn; zlia)) as L2.
  rewrite (find_prop_eq key p (mk_frame (mk_pod (zlen (pod_body (Object t i props))) SPA_TYPE_Object) 0 0) [])
    by done.
  cbv zeta. unfold next_with. fold p in L1.
  destruct (first_with key (drop j props)) as [x|].
  { destruct L1 as (r & k & E & Ha). exists r, (j + k)%nat. rewrite E. split; [|done].
    by rewrite inside_object_advance. }
  rewrite L1. change (set_offset (u32 _) _) with (inside_object m off t i props 0).
  cbn [frame_offset]. destruct (first_with key props) as [x|].
  - destruct L2 as (r & k & E & Ha). exists r, k. rewrite E. split; [|done].
    by rewrite (inside_object_advance m off t i props 0 k : inside_object m off t i props k = _), drop_0.
  - by rewrite L2.
Qed.

Lemma find_prop_holds t i props m off j key :
  pod_ok (Object t i props) -> pod_rt (Object t i props) ->
  zlen (pod_body (Object t i props)) < 2 ^ 20 -> holds m off (item_enc (Object t i props)) ->
  let p := inside_object m off t i props j in
  match next_with j key props with
  | Some x => exists r j', spa_pod_parser_object_find_prop key p =
                             (Ret r, inside_object m off t i props j') /\ answers m x r
  | None => (spa_pod_parser_object_find_prop key p).1 = Err ENOENT
  end.
Proof.
  intros Hok R L H. pose proof (members_ok t i props Hok R L) as F. cbv zeta.
  assert (Forall prop_ok props) as F' by (eapply Forall_impl; [|exact F]; intros [[k f] c] (? & ? & ? & ?); done).
  pose proof (find_prop_located t i props m off j key F' L H) as K. cbv zeta in K.
  destruct (next_with j key props) as [x|] eqn:E; [|done]. destruct K as (r & j' & Er & Hl).
  exists r, j'. split; [done|]. split; [done|]. apply next_with_in in E.
  rewrite list.Forall_forall in F. specialize (F x E). destruct x as [[k f] c], F as (_ & _ & Hv & Hc).
  destruct Hl as (_ & _ & -> & Hh). intros d Hd. replace r.2 with (r.2 - 8 + 8) by lia. by apply Hv.
Qed.

(** ** Properties *)

(** C8: inside an object, from any property on, the lookup of a key answers
    with the next property that has it in circular order, its flags and its
    value, and leaves the parser at a property of the object; when no property
    has the key it answers [-ENOENT]. *)
Theorem find_prop_correct t i props m off j key :
  pod_ok (Object t i props) -> pod_rt (Object t i props) ->
  zlen (pod_body (Object t i props)) < 2 ^ 20 -> holds m off (item_enc (Object t i props)) ->
  let p := inside_object m off t i props j in
  match next_with j key props with
  | Some x => exists r j', spa_pod_parser_object_find_prop key p =
                             (Ret r, inside_object m off t i props j') /\ answers m x r
  | None => (spa_pod_parser_object_find_prop key p).1 = Err ENOENT
  end.
Proof. apply find_prop_holds. Qed.

Definition sample_props : list prop_member :=
  [ (5, 0, Scalar (SInt 17)); (9, 8, Scalar (SLong (-1))); (5, 1, Scalar (SId 4)) ].

Lemma find_prop_correct_witness :
  let m := item_enc (Object 2 0 sample_props) in
  exists r j', spa_pod_parser_object_find_prop 5 (inside_object m 0 2 0 sample_props 1)
               = (Ret r, inside_object m 0 2 0 sample_props j') /\
               answers m (5, 1, Scalar (SId 4)) r.
Proof.
  apply (find_prop_correct 2 0 sample_props _ 0 1 5).
  - repeat constructor.
  - repeat constructor; vm_compute; congruence.
  - reflexivity.
  - exists [], []. split; [by rewrite app_nil_r|reflexivity].
Defined.
