(* ===== verification/Dense.v ===== *)
(** * Dense F32 tasks of the ndarray executor

    Models the numerical half of [spa/plugins/filter-graph/ndarray-executor.c]:
    the validation of a dense task, the split of its rows into lanes that end
    on cache-line boundaries, the dot-product kernels and the lane function
    [dense_task].  Pointers are addresses, [0] is NULL.  The arithmetic of
    [float] is a parameter (a carrier with zero, addition and fused
    multiply-add): results that hold for every such carrier hold for IEEE
    floats, and the comparison with the mathematical dot product is made for
    carriers that form a commutative ring. *)
From S2P Require Import Prelude Bytes.
From Stdlib Require Import Ring Permutation.

Definition SPA_FGN_DENSE_F32_FLAG_ACCUMULATE : Z := 1.

(** [struct spa_fgn_dense_f32_task]; the arrays behind its pointers are
    arguments of the functions that use them. *)
Record dense_f32_task : Type := mk_dense {
  d_struct_size : Z;
  d_flags : Z;
  d_matrix : Z;
  d_input : Z;
  d_output : Z;
  d_n_rows : Z;
  d_matrix_row_stride : Z;
  d_first_column : Z;
  d_n_columns : Z }.

Definition sizeof_dense_f32_task : Z := 48.

(** ** Validation *)

Definition region (pointer size : Z) : option (Z * Z) :=
  if SIZE_MAX - pointer <? size then None else Some (pointer, pointer + size).

Definition regions_overlap (a_begin a_end b_begin b_end : Z) : bool :=
  (a_begin <? b_end) && (b_begin <? a_end).

(** [validate_dense_task] on a task that is not NULL. *)
Definition validate_dense_task (t : dense_f32_task) : outcome unit :=
  if (d_struct_size t <? sizeof_dense_f32_task)
     || negb (Z.ldiff (d_flags t) SPA_FGN_DENSE_F32_FLAG_ACCUMULATE =? 0)
     || (d_matrix t =? 0) || (d_input t =? 0) || (d_output t =? 0)
     || (d_n_rows t =? 0) || (d_n_columns t =? 0)
     || (d_matrix_row_stride t =? 0)
     || (d_matrix_row_stride t <? d_first_column t)
     || (d_matrix_row_stride t - d_first_column t <? d_n_columns t)
     || negb (d_matrix t mod 4 =? 0) || negb (d_input t mod 4 =? 0)
     || negb (d_output t mod 4 =? 0)
  then Err EINVAL
  else
    match overflow_mul (d_n_rows t - 1) (d_matrix_row_stride t) with
    | None => Err EOVERFLOW
    | Some last_row =>
    match overflow_add last_row (d_first_column t) with
    | None => Err EOVERFLOW
    | Some matrix_elements =>
    match overflow_add matrix_elements (d_n_columns t) with
    | None => Err EOVERFLOW
    | Some matrix_elements =>
    match overflow_mul matrix_elements 4, overflow_mul (d_n_columns t) 4,
          overflow_mul (d_n_rows t) 4 with
    | Some matrix_bytes, Some input_bytes, Some output_bytes =>
        match region (d_matrix t) matrix_bytes, region (d_input t) input_bytes,
              region (d_output t) output_bytes with
        | Some (matrix_begin, matrix_end), Some (input_begin, input_end),
          Some (output_begin, output_end) =>
            if regions_overlap output_begin output_end matrix_begin matrix_end
               || regions_overlap output_begin output_end input_begin input_end
            then Err EINVAL else Ret tt
        | _, _, _ => Err EOVERFLOW
        end
    | _, _, _ => Err EOVERFLOW
    end end end end.

(** ** Partition of the rows *)

(** [proportional_row] on [uint32_t]. *)
Definition proportional_row (rows lane n_lanes : Z) : Z :=
  let quotient := rows / n_lanes in
  let remainder := rows mod n_lanes in
  u32 (u32 (lane * quotient) + (if lane <? remainder then lane else remainder)).

(** [SPA_CACHE_LINE_SIZE] is a power of two of at least 64 bytes, or the
    build stops. *)
Class CacheLine := {
  cache_bits : Z;
  cache_bits_ok : 6 <= cache_bits < 32 }.
Definition SPA_CACHE_LINE_SIZE `{CacheLine} : Z := 2 ^ cache_bits.

(** The x86-64 value. *)
Definition cache_line_64 : CacheLine.
Proof. refine {| cache_bits := 6 |}. split; [apply Z.le_refl|reflexivity]. Defined.

Definition cache_line_boundary `{CacheLine} (t : dense_f32_task) (lane n_lanes : Z) : Z :=
  if lane =? 0 then 0
  else if n_lanes <=? lane then d_n_rows t
  else
    let row := proportional_row (d_n_rows t) lane n_lanes in
    let address := u64 (d_output t + u64 (row * 4)) in
    let misalignment := Z.land address (SPA_CACHE_LINE_SIZE - 1) in
    let adjustment := if misalignment =? 0 then 0 else SPA_CACHE_LINE_SIZE - misalignment in
    let adjusted_row := u64 (row + adjustment / 4) in
    if adjusted_row <? d_n_rows t then adjusted_row else d_n_rows t.

(** [first, last) of a lane in [dense_task]. *)
Definition lane_first `{CacheLine} (t : dense_f32_task) (lane n_lanes : Z) : Z :=
  cache_line_boundary t lane n_lanes.
Definition lane_last `{CacheLine} (t : dense_f32_task) (lane n_lanes : Z) : Z :=
  cache_line_boundary t (u32 (lane + 1)) n_lanes.

(** ** Float arithmetic *)

(** [float] with [0.0f], [+] and [fmaf]. *)
Class FloatOps (F : Type) := {
  fzero : F;
  fadd : F -> F -> F;
  fmaf : F -> F -> F -> F }.

Section Kernels.
Context {F : Type} `{FloatOps F}.

(** Element [i] behind a pointer; past the end of its array is a [Fault]. *)
Definition elem (a : list F) (i : nat) : outcome F :=
  match a !! i with Some x => Ret x | None => Fault end.

(** One [sum = fmaf(left[i], right[i], sum)]. *)
Definition fma_at (left right : list F) (i : nat) (sum : F) : outcome F :=
  let! l := elem left i in
  let! r := elem right i in
  Ret (fmaf l r sum).

(** The remainder loops: indices [base], ..., [base + n - 1]. *)
Fixpoint fma_tail (left right : list F) (n base : nat) (sum : F) : outcome F :=
  match n with
  | O => Ret sum
  | S n => let! sum := fma_at left right base sum in fma_tail left right n (S base) sum
  end.

(** *** Scalar *)

Fixpoint scalar_chunks (left right : list F) (n base : nat) (s : F * F * F * F)
  : outcome (F * F * F * F) :=
  match n with
  | O => Ret s
  | S n =>
      let '(sum0, sum1, sum2, sum3) := s in
      let! sum0 := fma_at left right base sum0 in
      let! sum1 := fma_at left right (base + 1) sum1 in
      let! sum2 := fma_at left right (base + 2) sum2 in
      let! sum3 := fma_at left right (base + 3) sum3 in
      scalar_chunks left right n (base + 4) (sum0, sum1, sum2, sum3)
  end.

Definition dense_dot_f32_scalar (left right : list F) (count : nat) : outcome F :=
  let chunks := (count / 4)%nat in
  let remainder := (count mod 4)%nat in
  let! (sum0, sum1, sum2, sum3) :=
    scalar_chunks left right chunks 0 (fzero, fzero, fzero, fzero) in
  let! sum0 := fma_tail left right remainder (chunks * 4) sum0 in
  Ret (fadd (fadd sum0 sum1) (fadd sum2 sum3)).

(** *** Vectors

    A vector register is the list of its elements; [w] is 8 for [__m256] and
    4 for [float32x4_t]. *)
Definition vload (w : nat) (a : list F) (base : nat) : outcome (list F) :=
  if (base + w <=? length a)%nat then Ret (take w (drop base a)) else Fault.

Fixpoint vfma (l r s : list F) : list F :=
  match l, r, s with
  | x :: l, y :: r, z :: s => fmaf x y z :: vfma l r s
  | _, _, _ => []
  end.
Definition vadd (a b : list F) : list F := zip_with fadd a b.

Definition vfma_at (w : nat) (left right : list F) (base : nat) (s : list F) : outcome (list F) :=
  let! l := vload w left base in
  let! r := vload w right base in
  Ret (vfma l r s).

Fixpoint vector_chunks (w : nat) (left right : list F) (n base : nat)
    (s : list F * list F * list F * list F) : outcome (list F * list F * list F * list F) :=
  match n with
  | O => Ret s
  | S n =>
      let '(sum0, sum1, sum2, sum3) := s in
      let! sum0 := vfma_at w left right base sum0 in
      let! sum1 := vfma_at w left right (base + w) sum1 in
      let! sum2 := vfma_at w left right (base + 2 * w) sum2 in
      let! sum3 := vfma_at w left right (base + 3 * w) sum3 in
      vector_chunks w left right n (base + 4 * w) (sum0, sum1, sum2, sum3)
  end.

(** The shape the AVX2 and the NEON kernel share; [reduce] adds up the
    elements of the final register. *)
Definition dense_dot_f32_vector (w : nat) (reduce : list F -> F) (left right : list F) (count : nat)
  : outcome F :=
  let zero := replicate w fzero in
  let chunks := (count / (4 * w))%nat in
  let remainder := (count mod (4 * w))%nat in
  let! (sum0, sum1, sum2, sum3) := vector_chunks w left right chunks 0 (zero, zero, zero, zero) in
  let sum := reduce (vadd (vadd sum0 sum1) (vadd sum2 sum3)) in
  fma_tail left right remainder (chunks * (4 * w)) sum.

(** [sum = values[0] + values[1]; for (i = 2; i < 8; i++) sum += values[i];] *)
Definition reduce_avx2 (values : list F) : F :=
  match values with
  | v0 :: v1 :: rest => foldl fadd (fadd v0 v1) rest
  | _ => fzero
  end.

(** [vaddvq_f32]: pairwise. *)
Definition reduce_neon (values : list F) : F :=
  match values with
  | [v0; v1; v2; v3] => fadd (fadd v0 v1) (fadd v2 v3)
  | _ => fzero
  end.

Definition dense_dot_f32_avx2 := dense_dot_f32_vector 8 reduce_avx2.
Definition dense_dot_f32_neon := dense_dot_f32_vector 4 reduce_neon.

(** *** Blocked

    [first] is a [uint32_t] and its increment wraps. [None] means that the
    fuel ran out. *)
Fixpoint blocked_loop (block : list F -> list F -> nat -> outcome F) (left right : list F)
    (fuel : nat) (count first : Z) (sum : F) : option (outcome F) :=
  match fuel with
  | O => None
  | S fuel =>
      if first <? count then
        let remaining := count - first in
        let size := Z.min remaining 2048 in
        match block (drop (Z.to_nat first) left) (drop (Z.to_nat first) right) (Z.to_nat size) with
        | Ret v => blocked_loop block left right fuel count (u32 (first + 2048)) (fadd sum v)
        | Err e => Some (Err e)
        | Fault => Some Fault
        end
      else Some (Ret sum)
  end.

(** The build and the processor: x86-64 with or without AVX2 and FMA, AArch64,
    or another target. *)
Inductive target : Type := X86_64 (avx2 fma : bool) | AArch64 | Portable.

Definition block_kernel (tg : target) : list F -> list F -> nat -> outcome F :=
  match tg with
  | X86_64 _ _ => dense_dot_f32_avx2
  | AArch64 => dense_dot_f32_neon
  | Portable => dense_dot_f32_scalar
  end.

(** [count / 2048 + 2] rounds are enough, see [blocked_loop_total]. *)
Definition dense_dot_f32_blocked (tg : target) (left right : list F) (count : nat) : option (outcome F) :=
  blocked_loop (block_kernel tg) left right (count / 2048 + 2) (Z.of_nat count) 0 fzero.

Inductive dense_kernel : Type := K_scalar | K_avx2 | K_neon | K_blocked.

Definition select_dense_dot_f32 (tg : target) (count : Z) : dense_kernel :=
  if count <? 32 then K_scalar
  else
    match tg with
    | X86_64 avx2 fma =>
        if avx2 && fma then if count <? 8192 then K_avx2 else K_blocked else K_scalar
    | AArch64 => if count <? 8192 then K_neon else K_blocked
    | Portable => K_scalar
    end.

Definition dense_dot_f32 (tg : target) (k : dense_kernel) (left right : list F) (count : nat)
  : option (outcome F) :=
  match k with
  | K_scalar => Some (dense_dot_f32_scalar left right count)
  | K_avx2 => Some (dense_dot_f32_avx2 left right count)
  | K_neon => Some (dense_dot_f32_neon left right count)
  | K_blocked => dense_dot_f32_blocked tg left right count
  end.
End Kernels.

(** ** The lane function *)

Section Task.
Context {F : Type} `{FloatOps F} `{CacheLine}.
Context (tg : target) (t : dense_f32_task) (matrix input : list F).

Definition accumulate : bool := negb (Z.land (d_flags t) SPA_FGN_DENSE_F32_FLAG_ACCUMULATE =? 0).

(** [task->output[row] = v]. *)
Definition set_elem (a : list F) (i : nat) (v : F) : outcome (list F) :=
  if (i <? length a)%nat then Ret (<[i := v]> a) else Fault.

(** The body of the row loop of [dense_task]; [None] when the kernel does not
    terminate. *)
Definition dense_row (row : Z) (output : list F) : option (outcome (list F)) :=
  let offset := row * d_matrix_row_stride t + d_first_column t in
  match dense_dot_f32 tg (select_dense_dot_f32 tg (d_n_columns t))
          (drop (Z.to_nat offset) matrix) input (Z.to_nat (d_n_columns t)) with
  | None => None
  | Some sum =>
      Some (let! sum := sum in
            if accumulate then
              let! old := elem output (Z.to_nat row) in
              set_elem output (Z.to_nat row) (fadd old sum)
            else set_elem output (Z.to_nat row) sum)
  end.

Fixpoint dense_rows (rows : list Z) (output : list F) : option (outcome (list F)) :=
  match rows with
  | [] => Some (Ret output)
  | row :: rows =>
      match dense_row row output with
      | Some (Ret output) => dense_rows rows output
      | r => r
      end
  end.

(** The rows [first, ..., last - 1] of a lane. *)
Definition lane_rows (lane n_lanes : Z) : list Z :=
  let first := lane_first t lane n_lanes in
  let last := lane_last t lane n_lanes in
  seqZ first (last - first).

Definition dense_task (lane n_lanes : Z) (output : list F) : option (outcome (list F)) :=
  dense_rows (lane_rows lane n_lanes) output.
End Task.

(** ** The partition covers every row once *)

Lemma proportional_row_spec rows lane n :
  is_u32 rows -> 0 <= lane < n ->
  proportional_row rows lane n = lane * (rows / n) + Z.min lane (rows mod n) /\
  0 <= lane * (rows / n) + Z.min lane (rows mod n) <= rows.
Proof.
  unfold is_u32. intros Hr Hl. pose proof (Z.div_mod rows n ltac:(lia)) as D.
  pose proof (Z.mod_pos_bound rows n ltac:(lia)).
  pose proof (Z.div_pos rows n ltac:(lia) ltac:(lia)).
  assert (0 <= lane * (rows / n) <= n * (rows / n)) by nia.
  unfold proportional_row. rewrite (wrap_small 32 (lane * _)) by lia.
  destruct (Z.ltb_spec lane (rows mod n)); rewrite wrap_small by lia; lia.
Qed.

Section Partition.
Context `{CacheLine}.

Lemma line_pos : 64 <= SPA_CACHE_LINE_SIZE < 2 ^ 32.
Proof.
  pose proof cache_bits_ok. unfold SPA_CACHE_LINE_SIZE. split.
  - change 64 with (2 ^ 6). apply Z.pow_le_mono_r; lia.
  - apply Z.pow_lt_mono_r; lia.
Qed.

(** Rows per cache line. *)
Definition line_rows : Z := 2 ^ (cache_bits - 2).

Lemma line_rows_4 : SPA_CACHE_LINE_SIZE = 4 * line_rows.
Proof.
  pose proof cache_bits_ok. unfold SPA_CACHE_LINE_SIZE, line_rows. change 4 with (2 ^ 2).
  rewrite <- Z.pow_add_r by lia. f_equal. lia.
Qed.
Lemma line_rows_pos : 16 <= line_rows < 2 ^ 30.
Proof. pose proof line_pos. pose proof line_rows_4. lia. Qed.

Lemma land_line a : Z.land a (SPA_CACHE_LINE_SIZE - 1) = a mod SPA_CACHE_LINE_SIZE.
Proof.
  pose proof cache_bits_ok. unfold SPA_CACHE_LINE_SIZE.
  rewrite <- (Z.land_ones a cache_bits) by lia. f_equal. rewrite Z.ones_equiv. lia.
Qed.

(** The first row at or after [row] that starts a cache line, where [w] is the
    output address in floats. *)
Definition align_row (w row : Z) : Z := line_rows * ((w + row + line_rows - 1) / line_rows) - w.

Lemma align_row_bounds w row : row <= align_row w row < row + line_rows.
Proof.
  pose proof line_rows_pos. unfold align_row.
  pose proof (Z.div_mod (w + row + line_rows - 1) line_rows ltac:(lia)).
  pose proof (Z.mod_pos_bound (w + row + line_rows - 1) line_rows ltac:(lia)). lia.
Qed.

Lemma align_row_mono w a b : a <= b -> align_row w a <= align_row w b.
Proof.
  intros. pose proof line_rows_pos. unfold align_row.
  pose proof (Z.div_le_mono (w + a + line_rows - 1) (w + b + line_rows - 1) line_rows). nia.
Qed.

Lemma align_row_aligned w row : (w + align_row w row) mod line_rows = 0.
Proof.
  pose proof line_rows_pos. unfold align_row.
  replace (w + (line_rows * ((w + row + line_rows - 1) / line_rows) - w))
    with (((w + row + line_rows - 1) / line_rows) * line_rows) by lia.
  by apply Z.mod_mul; lia.
Qed.

Lemma align_row_step w row :
  row + (if (w + row) mod line_rows =? 0 then 0 else line_rows - (w + row) mod line_rows)
  = align_row w row.
Proof.
  pose proof line_rows_pos. unfold align_row.
  pose proof (Z.div_mod (w + row) line_rows ltac:(lia)) as D.
  pose proof (Z.mod_pos_bound (w + row) line_rows ltac:(lia)) as B.
  set (q := (w + row) / line_rows) in *. set (r := (w + row) mod line_rows) in *.
  destruct (Z.eqb_spec r 0) as [E|E].
  - replace ((w + row + line_rows - 1) / line_rows) with q; [lia|].
    apply Z.div_unique with (line_rows - 1); lia.
  - replace ((w + row + line_rows - 1) / line_rows) with (q + 1); [lia|].
    apply Z.div_unique with (r - 1); lia.
Qed.

(** What validation guarantees about the output. *)
Definition output_ok (t : dense_f32_task) : Prop :=
  0 <= d_output t /\ d_output t mod 4 = 0 /\ is_u32 (d_n_rows t) /\ 0 < d_n_rows t /\
  d_output t + 4 * d_n_rows t < 2 ^ 64.

Lemma boundary_spec t lane n :
  output_ok t -> 0 < lane < n ->
  cache_line_boundary t lane n
  = Z.min (align_row (d_output t / 4) (proportional_row (d_n_rows t) lane n)) (d_n_rows t).
Proof.
  intros (Ho & Hm & Hr & Hp & Hb) Hl. unfold cache_line_boundary.
  rewrite (proj2 (Z.eqb_neq lane 0)), (proj2 (Z.leb_gt n lane)) by lia.
  destruct (proportional_row_spec (d_n_rows t) lane n Hr ltac:(lia)) as [E R].
  rewrite <- E in R. set (row := proportional_row (d_n_rows t) lane n) in *. clearbody row.
  unfold is_u32 in Hr. pose proof line_rows_pos as Hlp.
  pose proof (Z.div_mod (d_output t) 4 ltac:(lia)) as Dm. set (w := d_output t / 4) in *.
  rewrite (wrap_small 64 (row * 4)), (wrap_small 64 (d_output t + row * 4)) by lia.
  replace (d_output t + row * 4) with (4 * (w + row)) by lia.
  rewrite land_line, line_rows_4, Z.mul_mod_distr_l by lia.
  pose proof (Z.mod_pos_bound (w + row) line_rows ltac:(lia)) as B.
  pose proof (align_row_step w row) as S. pose proof (align_row_bounds w row) as AB.
  assert (row + (if 4 * ((w + row) mod line_rows) =? 0 then 0
                 else 4 * line_rows - 4 * ((w + row) mod line_rows)) / 4 = align_row w row) as ->.
  { rewrite <- S. f_equal. destruct (Z.eqb_spec ((w + row) mod line_rows) 0) as [->|]; [done|].
    rewrite (proj2 (Z.eqb_neq _ 0)) by lia.
    replace (4 * line_rows - 4 * ((w + row) mod line_rows))
      with ((line_rows - (w + row) mod line_rows) * 4) by lia.
    by rewrite Z.div_mul. }
  rewrite wrap_small by lia. destruct (Z.ltb_spec (align_row w row) (d_n_rows t)); lia.
Qed.

Lemma proportional_row_mono rows a b n :
  is_u32 rows -> 0 <= a <= b -> b < n -> proportional_row rows a n <= proportional_row rows b n.
Proof.
  intros Hr Hab Hb. destruct (proportional_row_spec rows a n Hr ltac:(lia)) as [-> _].
  destruct (proportional_row_spec rows b n Hr ltac:(lia)) as [-> _].
  unfold is_u32 in Hr. pose proof (Z.div_pos rows n ltac:(lia) ltac:(lia)). nia.
Qed.

Lemma boundary_range t lane n :
  output_ok t -> 0 <= lane -> 0 < n -> 0 <= cache_line_boundary t lane n <= d_n_rows t.
Proof.
  intros Ht Hl Hn. pose proof Ht as (_ & _ & Hr & Hp & _).
  destruct (Z.eq_dec lane 0) as [->|]; [by cbn; lia|].
  destruct (Z.le_gt_cases n lane).
  { unfold cache_line_boundary. rewrite (proj2 (Z.eqb_neq lane 0)), (proj2 (Z.leb_le n lane)) by lia. lia. }
  rewrite boundary_spec by (done || lia).
  destruct (proportional_row_spec (d_n_rows t) lane n Hr ltac:(lia)) as [E R]. rewrite <- E in R.
  pose proof (align_row_bounds (d_output t / 4) (proportional_row (d_n_rows t) lane n)).
  pose proof line_rows_pos. lia.
Qed.

Lemma boundary_end t n : 0 < n -> cache_line_boundary t n n = d_n_rows t.
Proof.
  intros. unfold cache_line_boundary. rewrite (proj2 (Z.eqb_neq n 0)), Z.leb_refl by lia. done.
Qed.

Lemma boundary_mono t a b n :
  output_ok t -> 0 <= a <= b -> b <= n -> 0 < n ->
  cache_line_boundary t a n <= cache_line_boundary t b n.
Proof.
  intros Ht Hab Hb Hn. pose proof Ht as (_ & _ & Hr & _ & _).
  destruct (Z.eq_dec a 0) as [->|]; [apply boundary_range; (done || lia)|].
  destruct (Z.eq_dec b n) as [->|].
  { rewrite boundary_end by lia. apply boundary_range; (done || lia). }
  rewrite !boundary_spec by (done || lia).
  pose proof (proportional_row_mono (d_n_rows t) a b n Hr ltac:(lia) ltac:(lia)).
  pose proof (align_row_mono (d_output t / 4) (proportional_row (d_n_rows t) a n)
    (proportional_row (d_n_rows t) b n)). lia.
Qed.

Lemma lane_rows_prefix t n (k : nat) :
  output_ok t -> 0 < n < 2 ^ 32 -> Z.of_nat k <= n ->
  concat (map (fun lane => lane_rows t lane n) (seqZ 0 (Z.of_nat k)))
  = seqZ 0 (cache_line_boundary t (Z.of_nat k) n).
Proof.
  intros Ht Hn. induction k as [|k IH]; intros Hk; [done|].
  replace (Z.of_nat (S k)) with (Z.of_nat k + 1) in * by lia.
  rewrite seqZ_app, map_app, concat_app, IH by lia. rewrite Z.add_0_l.
  assert (seqZ (Z.of_nat k) 1 = [Z.of_nat k]) as -> by done. cbn [map concat].
  rewrite app_nil_r. unfold lane_rows, lane_first, lane_last. rewrite (wrap_small 32) by lia.
  pose proof (boundary_range t (Z.of_nat k) n Ht ltac:(lia) ltac:(lia)).
  pose proof (boundary_mono t (Z.of_nat k) (Z.of_nat k + 1) n Ht ltac:(lia) ltac:(lia) ltac:(lia)).
  rewrite <- seqZ_app by lia. f_equal. lia.
Qed.

(** The lanes, in order, work on the rows [0, ..., n_rows - 1]. *)
Lemma lanes_cover t n :
  output_ok t -> 0 < n < 2 ^ 32 ->
  concat (map (fun lane => lane_rows t lane n) (seqZ 0 n)) = seqZ 0 (d_n_rows t).
Proof.
  intros Ht Hn. pose proof (lane_rows_prefix t n (Z.to_nat n) Ht Hn) as P.
  rewrite Z2Nat.id in P by lia. rewrite P by lia. by rewrite boundary_end by lia.
Qed.

Lemma lane_rows_elem t lane n r :
  0 <= lane < 2 ^ 32 - 1 -> r ∈ lane_rows t lane n <->
  cache_line_boundary t lane n <= r < cache_line_boundary t (lane + 1) n.
Proof.
  intros. unfold lane_rows, lane_first, lane_last. rewrite elem_of_seqZ, wrap_small by lia. lia.
Qed.

(** Two lanes never write to the same cache line. *)
Lemma lanes_apart t n a b r r' :
  output_ok t -> 0 < n < 2 ^ 32 -> 0 <= a < b -> b < n ->
  r ∈ lane_rows t a n -> r' ∈ lane_rows t b n ->
  (d_output t + 4 * r) / SPA_CACHE_LINE_SIZE < (d_output t + 4 * r') / SPA_CACHE_LINE_SIZE.
Proof.
  intros Ht Hn Hab Hb Hr Hr'. rewrite lane_rows_elem in Hr, Hr' by lia.
  pose proof (boundary_mono t (a + 1) b n Ht ltac:(lia) ltac:(lia) ltac:(lia)) as M.
  pose proof (boundary_range t (b + 1) n Ht ltac:(lia) ltac:(lia)) as R.
  rewrite (boundary_spec t b n) in * by (done || lia).
  set (c := align_row (d_output t / 4) (proportional_row (d_n_rows t) b n)) in *.
  assert (r < c <= r') as [? ?] by lia. clear Hr Hr' M R.
  pose proof (align_row_aligned (d_output t / 4) (proportional_row (d_n_rows t) b n)) as A. fold c in A.
  destruct Ht as (_ & Hm & _). pose proof (Z.div_mod (d_output t) 4 ltac:(lia)).
  pose proof line_rows_pos. rewrite line_rows_4.
  replace (d_output t + 4 * r) with (4 * (d_output t / 4 + r)) by lia.
  replace (d_output t + 4 * r') with (4 * (d_output t / 4 + r')) by lia.
  rewrite !Z.div_mul_cancel_l by lia. set (w := d_output t / 4) in *.
  pose proof (Z.div_mod (w + c) line_rows ltac:(lia)) as Dc.
  apply Z.lt_le_trans with ((w + c) / line_rows); [|apply Z.div_le_mono; lia].
  apply Z.div_lt_upper_bound; lia.
Qed.
End Partition.

(** ** Validation *)

Lemma region_spec p n b e : region p n = Some (b, e) -> b = p /\ e = p + n /\ p + n <= SIZE_MAX.
Proof. unfold region. case_if; [done|]. intros [= <- <-]. lia. Qed.

(** The fields have the range of their C types. *)
Definition task_typed (t : dense_f32_task) : Prop :=
  is_u64 (d_matrix t) /\ is_u64 (d_input t) /\ is_u64 (d_output t) /\
  is_u32 (d_n_rows t) /\ is_u32 (d_matrix_row_stride t) /\ is_u32 (d_first_column t) /\
  is_u32 (d_n_columns t).

(** The byte interval of element [i] of a float array. *)
Definition float_at (p i : Z) : Z * Z := (p + 4 * i, p + 4 * i + 4).
Definition apart (a b : Z * Z) : Prop := a.2 <= b.1 \/ b.2 <= a.1.

(** The element a row writes, and those it reads: its part of the matrix, the
    input and, with ACCUMULATE, the element it is going to write. *)
Definition row_write (t : dense_f32_task) (row : Z) : Z * Z := float_at (d_output t) row.
Inductive row_read (t : dense_f32_task) (row : Z) : Z * Z -> Prop :=
| read_matrix col : 0 <= col < d_n_columns t ->
    row_read t row (float_at (d_matrix t) (row * d_matrix_row_stride t + d_first_column t + col))
| read_input col : 0 <= col < d_n_columns t -> row_read t row (float_at (d_input t) col)
| read_output : accumulate t = true -> row_read t row (row_write t row).

(** Every access a dense task makes: it stays below the top of the address
    space, no two rows write the same element, and what a row reads is not
    written, except for its own output element with ACCUMULATE. *)
Record task_sound (t : dense_f32_task) : Prop := mk_sound {
  ts_rows : 0 < d_n_rows t;
  ts_columns : 0 < d_n_columns t;
  ts_output : d_output t mod 4 = 0;
  ts_output_top : d_output t + 4 * d_n_rows t < 2 ^ 64;
  ts_write : forall row row', row <> row' -> apart (row_write t row) (row_write t row');
  ts_read : forall row a, 0 <= row < d_n_rows t -> row_read t row a -> 0 <= a.1 /\ a.2 <= SIZE_MAX;
  ts_apart : forall row out a, 0 <= row < d_n_rows t -> 0 <= out < d_n_rows t -> row_read t row a ->
    apart (row_write t out) a \/ accumulate t = true /\ out = row /\ a = row_write t row }.

Lemma validate_fields t :
  validate_dense_task t = Ret tt ->
  (d_struct_size t >= sizeof_dense_f32_task /\ d_n_rows t <> 0 /\ d_n_columns t <> 0 /\
   d_matrix_row_stride t <> 0 /\ d_output t mod 4 = 0 /\
   d_first_column t + d_n_columns t <= d_matrix_row_stride t) /\
  let elements := (d_n_rows t - 1) * d_matrix_row_stride t + d_first_column t + d_n_columns t in
  d_matrix t + elements * 4 <= SIZE_MAX /\ d_input t + d_n_columns t * 4 <= SIZE_MAX /\
  d_output t + d_n_rows t * 4 <= SIZE_MAX /\
  regions_overlap (d_output t) (d_output t + d_n_rows t * 4) (d_matrix t) (d_matrix t + elements * 4) = false /\
  regions_overlap (d_output t) (d_output t + d_n_rows t * 4) (d_input t) (d_input t + d_n_columns t * 4) = false.
Proof.
  unfold validate_dense_task. destruct (_ || _) eqn:C; [done|].
  destruct (overflow_mul (d_n_rows t - 1) _) as [lr|] eqn:E1; [|done].
  destruct (overflow_add lr _) as [m1|] eqn:E2; [|done].
  destruct (overflow_add m1 _) as [m2|] eqn:E3; [|done].
  destruct (overflow_mul m2 4) as [mb|] eqn:E4; [|done].
  destruct (overflow_mul (d_n_columns t) 4) as [ib|] eqn:E5; [|done].
  destruct (overflow_mul (d_n_rows t) 4) as [ob|] eqn:E6; [|done].
  destruct (region (d_matrix t) mb) as [[b1 e1]|] eqn:E7; [|done].
  destruct (region (d_input t) ib) as [[b2 e2]|] eqn:E8; [|done].
  destruct (region (d_output t) ob) as [[b3 e3]|] eqn:E9; [|done].
  apply overflow_mul_spec in E1 as [-> _], E4 as [-> _], E5 as [-> _], E6 as [-> _].
  apply overflow_add_spec in E2 as [-> _], E3 as [-> _].
  apply region_spec in E7 as (-> & -> & ?), E8 as (-> & -> & ?), E9 as (-> & -> & ?).
  destruct (regions_overlap _ _ _ _ || regions_overlap _ _ _ _) eqn:O; [done|]. intros _. bool_to_prop.
  split; [split_and!; lia|]. cbv zeta. split_and!; (assumption || lia).
Qed.

Lemma validate_sound t : task_typed t -> validate_dense_task t = Ret tt -> task_sound t.
Proof.
  intros (M & I & O & Hr & Hs & Hf & Hc) V. apply validate_fields in V as [(_ & ? & ? & ? & ? & ?) V].
  unfold is_u32, is_u64 in *. cbv zeta in V. destruct V as (? & ? & ? & Om & Oi).
  set (el := (d_n_rows t - 1) * d_matrix_row_stride t + d_first_column t + d_n_columns t) in *.
  assert (forall row col, 0 <= row < d_n_rows t -> 0 <= col < d_n_columns t ->
    0 <= row * d_matrix_row_stride t + d_first_column t + col < el) as Hel by (intros; subst el; nia).
  clearbody el.
  unfold regions_overlap in Om, Oi. apply andb_false_iff in Om, Oi. rewrite !Z.ltb_ge in Om, Oi.
  constructor; [lia|lia|done|lia| | |]; unfold apart, row_write, float_at; cbn [fst snd].
  - intros. lia.
  - intros row a Hrow [col Hcol|col Hcol|_]; unfold row_write, float_at; cbn [fst snd]; [|lia..].
    specialize (Hel row col Hrow Hcol). lia.
  - intros row out a Hrow Hout [col Hcol|col Hcol|Ha]; unfold row_write, float_at; cbn [fst snd].
    + specialize (Hel row col Hrow Hcol). left. lia.
    + left. lia.
    + destruct (decide (out = row)) as [->|Hne]; [by right|left; lia].
Qed.

(** ** The kernels compute the dot product

    Over a commutative ring in which [fmaf] is multiply and add without an
    intermediate rounding, every kernel returns the sum of products; reading
    never leaves the arrays. *)
Section Exact.
Context {F : Type} `{FloatOps F} (fone : F) (fmul fsub : F -> F -> F) (fopp : F -> F).
Context (F_ring : ring_theory fzero fone fadd fmul fsub fopp eq).
Context (fmaf_exact : forall a b c, fmaf a b c = fadd (fmul a b) c).
Add Ring F_ring_inst : F_ring.

Definition vsum (l : list F) : F := foldr fadd fzero l.
(** The mathematical dot product. *)
Definition dotp (l r : list F) : F := vsum (zip_with fmul l r).

Lemma dotp_cons x l y r : dotp (x :: l) (y :: r) = fadd (fmul x y) (dotp l r).
Proof. done. Qed.
Lemma vsum_cons x l : vsum (x :: l) = fadd x (vsum l).
Proof. done. Qed.

Lemma dotp_app l1 l2 r1 r2 :
  length l1 = length r1 -> dotp (l1 ++ l2) (r1 ++ r2) = fadd (dotp l1 r1) (dotp l2 r2).
Proof.
  revert r1. induction l1 as [|x l1 IH]; intros [|y r1] E; try done.
  - cbn [app]. change (dotp [] []) with fzero. ring.
  - injection E as E. cbn [app]. rewrite !dotp_cons, IH by done. ring.
Qed.

Section Arrays.
Context (left right : list F).

(** The part of the dot product over the indices [base], ..., [base + n - 1]. *)
Definition seg (base n : nat) : F := dotp (take n (drop base left)) (take n (drop base right)).
Definition inside (n : nat) : Prop := (n <= length left)%nat /\ (n <= length right)%nat.

Lemma seg_0 base : seg base 0 = fzero.
Proof. done. Qed.

Lemma seg_add base n m :
  inside (base + n) -> seg base (n + m) = fadd (seg base n) (seg (base + n) m).
Proof.
  intros []. unfold seg. rewrite <- !take_take_drop, dotp_app, !drop_drop; [done|].
  rewrite !length_take, !length_drop. lia.
Qed.

Lemma fma_at_spec base s :
  inside (S base) -> fma_at left right base s = Ret (fadd (seg base 1) s).
Proof.
  intros [Hl Hr]. unfold fma_at, elem, seg.
  destruct (lookup_lt_is_Some_2 left base ltac:(lia)) as [x Hx].
  destruct (lookup_lt_is_Some_2 right base ltac:(lia)) as [y Hy].
  rewrite Hx, Hy. cbn [obind]. rewrite (drop_S _ _ _ Hx), (drop_S _ _ _ Hy), fmaf_exact.
  cbn [take]. rewrite !take_0, dotp_cons. f_equal. change (dotp [] []) with fzero. ring.
Qed.

Lemma fma_tail_spec n base s :
  inside (base + n) -> fma_tail left right n base s = Ret (fadd (seg base n) s).
Proof.
  revert base s. induction n as [|n IH]; intros base s B; cbn [fma_tail].
  - rewrite seg_0. f_equal. ring.
  - unfold inside in *. rewrite fma_at_spec by (unfold inside; lia). cbn [obind].
    rewrite IH by lia. f_equal. replace (S n) with (1 + n)%nat by lia.
    rewrite seg_add by (unfold inside; lia). replace (base + 1)%nat with (S base) by lia. ring.
Qed.

Definition total4 (s : F * F * F * F) : F :=
  let '(a, b, c, d) := s in fadd (fadd a b) (fadd c d).

Lemma scalar_chunks_spec n base s :
  inside (base + 4 * n) ->
  exists s', scalar_chunks left right n base s = Ret s' /\ total4 s' = fadd (seg base (4 * n)) (total4 s).
Proof.
  revert base s. induction n as [|n IH]; intros base s B; cbn [scalar_chunks].
  - exists s. split; [done|]. rewrite Nat.mul_0_r, seg_0. ring.
  - destruct s as [[[a b] c] d]. unfold inside in B.
    rewrite !fma_at_spec by (unfold inside; lia). cbn [obind].
    destruct (IH (base + 4)%nat (fadd (seg base 1) a, fadd (seg (base + 1) 1) b,
      fadd (seg (base + 2) 1) c, fadd (seg (base + 3) 1) d)) as (s' & -> & E'); [unfold inside; lia|].
    exists s'. split; [done|]. rewrite E'. replace (4 * S n)%nat with (1 + (1 + (1 + (1 + 4 * n))))%nat by lia.
    rewrite !seg_add by (unfold inside; lia).
    replace (base + 1 + 1)%nat with (base + 2)%nat by lia.
    replace (base + 2 + 1)%nat with (base + 3)%nat by lia.
    replace (base + 3 + 1)%nat with (base + 4)%nat by lia. cbn. ring.
Qed.

Lemma scalar_exact count :
  inside count -> dense_dot_f32_scalar left right count = Ret (seg 0 count).
Proof.
  intros B. unfold dense_dot_f32_scalar. pose proof (Nat.div_mod count 4 ltac:(lia)) as D.
  set (q := (count / 4)%nat) in *. set (r := (count mod 4)%nat) in *. unfold inside in B.
  destruct (scalar_chunks_spec q 0 (fzero, fzero, fzero, fzero)) as ([[[a b] c] d] & -> & E);
    [unfold inside; lia|].
  cbn [obind]. rewrite fma_tail_spec by (unfold inside; lia). cbn [obind]. f_equal.
  replace count with (4 * q + r)%nat by lia. rewrite seg_add by (unfold inside; lia).
  cbn [total4] in E. replace (q * 4)%nat with (0 + 4 * q)%nat by lia.
  transitivity (fadd (seg (0 + 4 * q) r) (fadd (fadd a b) (fadd c d))); [ring|]. rewrite E. ring.
Qed.

(** *** Vectors *)

Lemma vsum_fma l r s :
  length l = length r -> length r = length s -> vsum (vfma l r s) = fadd (dotp l r) (vsum s).
Proof.
  revert r s. induction l as [|x l IH]; intros [|y r] [|z s] E1 E2; try done.
  - cbn [vfma]. change (dotp [] []) with fzero. ring.
  - injection E1 as E1. injection E2 as E2. cbn [vfma].
    rewrite !vsum_cons, dotp_cons, IH, fmaf_exact by done. ring.
Qed.
Lemma length_vfma l r s :
  length l = length r -> length r = length s -> length (vfma l r s) = length s.
Proof.
  revert r s. induction l as [|x l IH]; intros [|y r] [|z s] E1 E2; try done.
  cbn. f_equal. injection E1 as E1. injection E2 as E2. by apply IH.
Qed.
Lemma vsum_add a b : length a = length b -> vsum (vadd a b) = fadd (vsum a) (vsum b).
Proof.
  revert b. induction a as [|x a IH]; intros [|y b] E; try done.
  - change (vsum (vadd [] [])) with fzero. change (vsum []) with fzero. ring.
  - injection E as E. change (vadd (x :: a) (y :: b)) with (fadd x y :: vadd a b).
    rewrite !vsum_cons, IH by done. ring.
Qed.
Lemma vsum_zero w : vsum (replicate w fzero) = fzero.
Proof. induction w as [|w IH]; [done|]. cbn [replicate]. rewrite vsum_cons, IH. ring. Qed.

Lemma vfma_at_spec w base s :
  inside (base + w) -> length s = w ->
  exists s', vfma_at w left right base s = Ret s' /\ length s' = w /\
             vsum s' = fadd (seg base w) (vsum s).
Proof.
  intros [Hl Hr] Es. unfold vfma_at, vload.
  rewrite !(proj2 (Nat.leb_le _ _)) by lia. cbn [obind]. eexists. split; [done|].
  assert (length (take w (drop base left)) = length (take w (drop base right))) as El
    by (rewrite !length_take, !length_drop; lia).
  assert (length (take w (drop base right)) = length s) as Er
    by (rewrite !length_take, !length_drop; lia).
  rewrite length_vfma, vsum_fma by done. done.
Qed.

Definition vtotal4 (s : list F * list F * list F * list F) : F :=
  let '(a, b, c, d) := s in fadd (fadd (vsum a) (vsum b)) (fadd (vsum c) (vsum d)).
Definition vlen4 (w : nat) (s : list F * list F * list F * list F) : Prop :=
  let '(a, b, c, d) := s in length a = w /\ length b = w /\ length c = w /\ length d = w.

Lemma vector_chunks_spec w n base s :
  inside (base + 4 * w * n) -> vlen4 w s ->
  exists s', vector_chunks w left right n base s = Ret s' /\ vlen4 w s' /\
             vtotal4 s' = fadd (seg base (4 * w * n)) (vtotal4 s).
Proof.
  revert base s. induction n as [|n IH]; intros base s B Hs; cbn [vector_chunks].
  - exists s. split; [done|]. split; [done|]. rewrite Nat.mul_0_r, seg_0. ring.
  - destruct s as [[[a b] c] d]. destruct Hs as (Ha & Hb & Hc & Hd). unfold inside in B.
    assert (4 * w * S n = w + (w + (w + (w + 4 * w * n))))%nat as Ew by lia. rewrite Ew in *.
    destruct (vfma_at_spec w base a) as (a' & -> & La & Sa); [unfold inside; lia|done|]. cbn [obind].
    destruct (vfma_at_spec w (base + w) b) as (b' & -> & Lb & Sb); [unfold inside; lia|done|]. cbn [obind].
    destruct (vfma_at_spec w (base + 2 * w) c) as (c' & -> & Lc & Sc); [unfold inside; lia|done|]. cbn [obind].
    destruct (vfma_at_spec w (base + 3 * w) d) as (d' & -> & Ld & Sd); [unfold inside; lia|done|]. cbn [obind].
    destruct (IH (base + 4 * w)%nat (a', b', c', d')) as (s' & -> & Hs' & E'); [unfold inside; lia|done|].
    exists s'. split; [done|]. split; [done|]. rewrite E'. rewrite !seg_add by (unfold inside; lia).
    replace (base + w + w)%nat with (base + 2 * w)%nat by lia.
    replace (base + 2 * w + w)%nat with (base + 3 * w)%nat by lia.
    replace (base + 3 * w + w)%nat with (base + 4 * w)%nat by lia.
    cbn [vtotal4]. rewrite Sa, Sb, Sc, Sd. ring.
Qed.

Lemma vector_exact w reduce count :
  (0 < w)%nat -> (forall v, length v = w -> reduce v = vsum v) -> inside count ->
  dense_dot_f32_vector w reduce left right count = Ret (seg 0 count).
Proof.
  intros Hw Hred B. unfold dense_dot_f32_vector. unfold inside in B.
  pose proof (Nat.div_mod count (4 * w) ltac:(lia)) as D.
  set (q := (count / (4 * w))%nat) in *. set (r := (count mod (4 * w))%nat) in *.
  assert (vlen4 w (replicate w fzero, replicate w fzero, replicate w fzero, replicate w fzero)) as Hz
    by (cbn; by rewrite !length_replicate).
  destruct (vector_chunks_spec w q 0 _ ltac:(unfold inside; lia) Hz) as ([[[a b] c] d] & -> & Hs & E).
  cbn [obind]. destruct Hs as (Ha & Hb & Hc & Hd).
  rewrite fma_tail_spec by (unfold inside; lia). f_equal.
  rewrite Hred by (unfold vadd; rewrite !length_zip_with; lia).
  rewrite !vsum_add by (unfold vadd; rewrite ?length_zip_with; lia).
  cbn [vtotal4] in E. rewrite E. rewrite !vsum_zero.
  replace count with (4 * w * q + r)%nat by lia. rewrite seg_add by (unfold inside; lia).
  replace (q * (4 * w))%nat with (0 + 4 * w * q)%nat by lia. ring.
Qed.
End Arrays.

Lemma seg_drop left right a n : seg (drop a left) (drop a right) 0 n = seg left right a n.
Proof. unfold seg. by rewrite !drop_0. Qed.

Lemma inside_drop left right a n :
  inside left right (a + n) -> inside (drop a left) (drop a right) n.
Proof. unfold inside. rewrite !length_drop. lia. Qed.

Lemma reduce_avx2_sum v : length v = 8%nat -> reduce_avx2 v = vsum v.
Proof.
  destruct v as [|a [|b [|c [|d [|e [|f [|g [|h [|]]]]]]]]]; try done. intros _.
  cbn [reduce_avx2 foldl]. rewrite !vsum_cons. change (vsum []) with fzero. ring.
Qed.
Lemma reduce_neon_sum v : length v = 4%nat -> reduce_neon v = vsum v.
Proof.
  destruct v as [|a [|b [|c [|d [|]]]]]; try done. intros _.
  cbn [reduce_neon]. rewrite !vsum_cons. change (vsum []) with fzero. ring.
Qed.

Definition exact_kernel (k : list F -> list F -> nat -> outcome F) : Prop :=
  forall left right n, inside left right n -> k left right n = Ret (seg left right 0 n).

Lemma block_kernel_exact tg : exact_kernel (block_kernel tg).
Proof.
  intros left right n B. destruct tg; cbn [block_kernel].
  - apply vector_exact; [lia|apply reduce_avx2_sum|done].
  - apply vector_exact; [lia|apply reduce_neon_sum|done].
  - by apply scalar_exact.
Qed.

Lemma blocked_loop_exact block left right fuel count first sum :
  exact_kernel block -> 0 <= first -> count <= 2 ^ 32 - 2048 -> first <= count + 2047 ->
  inside left right (Z.to_nat count) -> (1 <= fuel)%nat -> count - first <= 2048 * (Z.of_nat fuel - 1) ->
  blocked_loop block left right fuel count first sum
  = Some (Ret (fadd sum (seg left right (Z.to_nat first) (Z.to_nat (count - first))))).
Proof.
  intros Hb. revert first sum.
  induction fuel as [|fuel IH]; intros first sum H0 H1 H2 B Hf H3; [lia|].
  cbn [blocked_loop]. destruct (Z.ltb_spec first count) as [Hlt|Hge].
  - unfold inside in B. rewrite Hb by (apply inside_drop; unfold inside; lia).
    rewrite seg_drop, (wrap_small 32) by lia.
    rewrite IH by (unfold inside; lia). do 2 f_equal.
    replace (Z.to_nat (count - first))
      with (Z.to_nat (Z.min (count - first) 2048) + Z.to_nat (count - (first + 2048)))%nat by lia.
    rewrite seg_add by (unfold inside; lia).
    destruct (Z.le_gt_cases (count - first) 2048).
    + replace (Z.to_nat (count - (first + 2048))) with 0%nat by lia. rewrite !seg_0. ring.
    + replace (Z.to_nat first + Z.to_nat (Z.min (count - first) 2048))%nat
        with (Z.to_nat (first + 2048)) by lia. ring.
  - replace (Z.to_nat (count - first)) with 0%nat by lia. rewrite seg_0. do 2 f_equal. ring.
Qed.

(** Every kernel that can be selected computes the dot product of the first
    [count] elements. *)
Lemma dense_dot_exact tg left right (count : nat) :
  Z.of_nat count <= 2 ^ 32 - 2048 -> inside left right count ->
  dense_dot_f32 tg (select_dense_dot_f32 tg (Z.of_nat count)) left right count
  = Some (Ret (dotp (take count left) (take count right))).
Proof.
  intros Hc B. change (dotp (take count left) (take count right)) with (seg left right 0 count).
  assert (dense_dot_f32_blocked tg left right count = Some (Ret (seg left right 0 count))) as Hbl.
  { unfold dense_dot_f32_blocked. pose proof (Nat.div_mod count 2048 ltac:(lia)).
    pose proof (Nat.mod_upper_bound count 2048 ltac:(lia)).
    rewrite blocked_loop_exact; [|apply block_kernel_exact|lia|lia|lia| |lia|lia].
    - rewrite Z.sub_0_r, Nat2Z.id. do 2 f_equal. change (Z.to_nat 0) with 0%nat. ring.
    - by rewrite Nat2Z.id. }
  assert (dense_dot_f32_scalar left right count = Ret (seg left right 0 count)) as Hs by by apply scalar_exact.
  unfold select_dense_dot_f32, dense_dot_f32. case_if; [by rewrite Hs|].
  destruct tg as [[] []| |]; cbn [andb]; try by rewrite Hs.
  - case_if; [|done]. f_equal. apply vector_exact; [lia|apply reduce_avx2_sum|done].
  - case_if; [|done]. f_equal. apply vector_exact; [lia|apply reduce_neon_sum|done].
Qed.
End Exact.
