(* ===== verification/DenseTask.v ===== *)
(** * Dense F32 tasks run to completion

    For every float arithmetic: on arrays of the validated size the kernels
    return, a dense task fills its output with the same values in whatever
    order the lanes get to their rows and however many lanes there are, and
    the blocked kernel's loop over [uint32_t] block offsets ends exactly when
    the offset cannot wrap. *)
From S2P Require Import Prelude Bytes Dense.
From Stdlib Require Import Permutation Ring.
From stdpp Require Import sets.
#[local] Open Scope Z_scope.

(** ** The kernels return *)

Section Total.
Context {F : Type} `{FloatOps F}.

Definition inside2 (left right : list F) (n : nat) : Prop :=
  (n <= length left)%nat /\ (n <= length right)%nat.

Lemma fma_at_total left right i s :
  inside2 left right (S i) -> exists v, fma_at left right i s = Ret v.
Proof.
  intros []. unfold fma_at, elem.
  destruct (lookup_lt_is_Some_2 left i ltac:(lia)) as [x ->].
  destruct (lookup_lt_is_Some_2 right i ltac:(lia)) as [y ->]. cbn. eauto.
Qed.

Lemma fma_tail_total left right n base s :
  inside2 left right (base + n) -> exists v, fma_tail left right n base s = Ret v.
Proof.
  unfold inside2. revert base s. induction n as [|n IH]; intros base s []; cbn [fma_tail]; [eauto|].
  destruct (fma_at_total left right base s) as [v ->]; [split; lia|]. apply IH. lia.
Qed.

Lemma scalar_chunks_total left right n base s :
  inside2 left right (base + 4 * n) -> exists v, scalar_chunks left right n base s = Ret v.
Proof.
  unfold inside2. revert base s. induction n as [|n IH]; intros base s []; cbn [scalar_chunks]; [eauto|].
  destruct s as [[[a b] c] d].
  destruct (fma_at_total left right base a) as [? ->]; [split; lia|].
  destruct (fma_at_total left right (base + 1) b) as [? ->]; [split; lia|].
  destruct (fma_at_total left right (base + 2) c) as [? ->]; [split; lia|].
  destruct (fma_at_total left right (base + 3) d) as [? ->]; [split; lia|].
  apply IH. lia.
Qed.

Lemma scalar_total left right count :
  inside2 left right count -> exists v, dense_dot_f32_scalar left right count = Ret v.
Proof.
  unfold inside2. intros []. unfold dense_dot_f32_scalar.
  pose proof (Nat.div_mod count 4 ltac:(lia)).
  destruct (scalar_chunks_total left right (count / 4) 0 (fzero, fzero, fzero, fzero))
    as [[[[a b] c] d] ->]; [split; lia|]. cbn [obind].
  destruct (fma_tail_total left right (count mod 4) (count / 4 * 4) a) as [v ->]; [split; lia|].
  cbn. eauto.
Qed.

Lemma vfma_at_total w left right base s :
  inside2 left right (base + w) -> exists v, vfma_at w left right base s = Ret v.
Proof.
  intros []. unfold vfma_at, vload. rewrite !(proj2 (Nat.leb_le _ _)) by lia. cbn. eauto.
Qed.

Lemma vector_chunks_total w left right n base s :
  inside2 left right (base + 4 * w * n) -> exists v, vector_chunks w left right n base s = Ret v.
Proof.
  unfold inside2. revert base s. induction n as [|n IH]; intros base s []; cbn [vector_chunks]; [eauto|].
  destruct s as [[[a b] c] d].
  destruct (vfma_at_total w left right base a) as [? ->]; [split; lia|].
  destruct (vfma_at_total w left right (base + w) b) as [? ->]; [split; lia|].
  destruct (vfma_at_total w left right (base + 2 * w) c) as [? ->]; [split; lia|].
  destruct (vfma_at_total w left right (base + 3 * w) d) as [? ->]; [split; lia|].
  apply IH. lia.
Qed.

Lemma vector_total w reduce left right count :
  (0 < w)%nat -> inside2 left right count ->
  exists v, dense_dot_f32_vector w reduce left right count = Ret v.
Proof.
  unfold inside2. intros Hw []. unfold dense_dot_f32_vector.
  pose proof (Nat.div_mod count (4 * w) ltac:(lia)).
  destruct (vector_chunks_total w left right (count / (4 * w)) 0
    (replicate w fzero, replicate w fzero, replicate w fzero, replicate w fzero))
    as [[[[a b] c] d] ->]; [split; lia|]. cbn [obind].
  apply fma_tail_total. split; lia.
Qed.

Lemma block_total tg left right n :
  inside2 left right n -> exists v, block_kernel tg left right n = Ret v.
Proof.
  intros B. destruct tg; cbn [block_kernel];
    [apply vector_total; [lia|done]|apply vector_total; [lia|done]|by apply scalar_total].
Qed.

Lemma inside2_drop left right a n :
  inside2 left right (a + n) -> inside2 (drop a left) (drop a right) n.
Proof. unfold inside2. rewrite !length_drop. lia. Qed.

(** One block of the loop. *)
Lemma block_at tg left right count first :
  0 <= first < count -> inside2 left right (Z.to_nat count) ->
  exists v, block_kernel tg (drop (Z.to_nat first) left) (drop (Z.to_nat first) right)
              (Z.to_nat (Z.min (count - first) 2048)) = Ret v.
Proof. unfold inside2. intros ? []. apply block_total, inside2_drop. unfold inside2. lia. Qed.

Lemma blocked_loop_total tg left right fuel count first sum :
  0 <= first <= count + 2047 -> count <= 2 ^ 32 - 2048 -> inside2 left right (Z.to_nat count) ->
  (1 <= fuel)%nat -> count - first <= 2048 * (Z.of_nat fuel - 1) ->
  exists v, blocked_loop (block_kernel tg) left right fuel count first sum = Some (Ret v).
Proof.
  revert first sum. induction fuel as [|fuel IH]; intros first sum H0 H1 B Hf H3; [lia|].
  cbn [blocked_loop]. destruct (Z.ltb_spec first count); [|eauto].
  destruct (block_at tg left right count first) as [v ->]; [lia|done|].
  rewrite (wrap_small 32) by lia. apply IH; [lia|lia|done|lia|lia].
Qed.

Lemma dense_dot_total tg left right count :
  0 <= count <= 2 ^ 32 - 2048 -> inside2 left right (Z.to_nat count) ->
  exists v, dense_dot_f32 tg (select_dense_dot_f32 tg count) left right (Z.to_nat count) = Some (Ret v).
Proof.
  intros Hc B.
  destruct (scalar_total left right (Z.to_nat count) B) as [vs Hs].
  assert (exists v, dense_dot_f32_blocked tg left right (Z.to_nat count) = Some (Ret v)) as [vb Hb].
  { unfold dense_dot_f32_blocked. rewrite Z2Nat.id by lia.
    pose proof (Nat.div_mod (Z.to_nat count) 2048 ltac:(lia)).
    pose proof (Nat.mod_upper_bound (Z.to_nat count) 2048 ltac:(lia)).
    apply blocked_loop_total; [lia|lia|done|lia|lia]. }
  unfold select_dense_dot_f32, dense_dot_f32. case_if; [rewrite Hs; eauto|].
  destruct tg as [[] []| |]; cbn [andb]; try (rewrite Hs; by eauto); case_if; try by eauto.
  - destruct (vector_total 8 reduce_avx2 left right (Z.to_nat count)) as [v Hv]; [lia|done|].
    exists v. f_equal. exact Hv.
  - destruct (vector_total 4 reduce_neon left right (Z.to_nat count)) as [v Hv]; [lia|done|].
    exists v. f_equal. exact Hv.
Qed.

(** The block offsets are multiples of 2048; when the last of them, 2^32 - 2048,
    is below [count] the increment wraps to 0 and the loop starts over. *)
Lemma blocked_loop_diverges tg left right fuel count first sum :
  2 ^ 32 - 2048 < count < 2 ^ 32 -> 0 <= first < 2 ^ 32 -> first mod 2048 = 0 ->
  inside2 left right (Z.to_nat count) ->
  blocked_loop (block_kernel tg) left right fuel count first sum = None.
Proof.
  intros Hc. revert first sum. induction fuel as [|fuel IH]; intros first sum H0 Hm B; [done|].
  cbn [blocked_loop]. pose proof (Z.div_mod first 2048 ltac:(lia)).
  rewrite (proj2 (Z.ltb_lt first count)) by lia.
  destruct (block_at tg left right count first) as [v ->]; [lia|done|].
  apply IH; [apply (wrap_range 32); lia| |done].
  unfold wrap. replace (2 ^ 32) with (2048 * 2 ^ 21) by done.
  rewrite <- Znumtheory.Zmod_div_mod; [|done|done|by exists (2 ^ 21)].
  by rewrite <- Zplus_mod_idemp_l, Hm.
Qed.
End Total.

(** ** The output does not depend on the schedule *)

Section Schedule.
Context {F : Type} `{FloatOps F}.
Context (tg : target) (t : dense_f32_task) (matrix input : list F).

(** The arrays are as long as the validated task says. *)
Record arrays_ok (output : list F) : Prop := mk_arrays {
  ao_columns : 0 <= d_n_columns t <= 2 ^ 32 - 2048;
  ao_offset : 0 <= d_first_column t /\ 0 <= d_matrix_row_stride t;
  ao_matrix : (d_n_rows t - 1) * d_matrix_row_stride t + d_first_column t + d_n_columns t <= zlen matrix;
  ao_input : d_n_columns t <= zlen input;
  ao_output : zlen output = d_n_rows t }.

(** The sum a row contributes. *)
Definition row_sum (row : Z) : F :=
  match dense_dot_f32 tg (select_dense_dot_f32 tg (d_n_columns t))
          (drop (Z.to_nat (row * d_matrix_row_stride t + d_first_column t)) matrix) input
          (Z.to_nat (d_n_columns t)) with
  | Some (Ret v) => v
  | _ => fzero
  end.

Definition row_value (row : Z) (old : F) : F :=
  if accumulate t then fadd old (row_sum row) else row_sum row.

(** [output = matrix[:, range] * input], or [+=] with ACCUMULATE. *)
Definition dense_spec (output : list F) : list F :=
  imap (fun i old => row_value (Z.of_nat i) old) output.

Lemma dense_row_spec output row old :
  arrays_ok output -> 0 <= row < d_n_rows t -> output !! Z.to_nat row = Some old ->
  dense_row tg t matrix input row output = Some (Ret (<[Z.to_nat row := row_value row old]> output)).
Proof.
  intros [Hc [Hf Hs] Hm Hi Ho] Hr Hold. unfold dense_row, row_value, row_sum.
  destruct (dense_dot_total tg
    (drop (Z.to_nat (row * d_matrix_row_stride t + d_first_column t)) matrix) input (d_n_columns t))
    as [v ->]; [done| |].
  { unfold inside2, zlen in *. rewrite length_drop. split; [nia|lia]. }
  cbn [obind]. unfold set_elem, elem. unfold zlen in Ho.
  rewrite (proj2 (Nat.ltb_lt _ _)) by lia. rewrite Hold. by destruct (accumulate t).
Qed.

(** Rows of [rows] replaced, the others kept. *)
Definition with_rows (rows : list Z) (output : list F) : list F :=
  imap (fun i old => if decide (Z.of_nat i ∈ rows) then row_value (Z.of_nat i) old else old) output.

Lemma with_rows_length rows output : length (with_rows rows output) = length output.
Proof. apply length_imap. Qed.

Lemma with_rows_step row rows output old :
  row ∉ rows -> 0 <= row -> output !! Z.to_nat row = Some old ->
  with_rows rows (<[Z.to_nat row := row_value row old]> output) = with_rows (row :: rows) output.
Proof.
  intros Hni Hr Hold. apply list_eq. intros i. unfold with_rows. rewrite !list_lookup_imap.
  destruct (decide (i = Z.to_nat row)) as [->|Hne].
  - apply lookup_lt_Some in Hold as Hlt. rewrite list_lookup_insert_eq by done. rewrite Hold. cbn.
    rewrite Z2Nat.id by done. rewrite decide_False by done. by rewrite decide_True by set_solver.
  - rewrite list_lookup_insert_ne by done. destruct (output !! i); [|done]. cbn. f_equal.
    apply decide_ext. rewrite elem_of_cons. split; [tauto|]. intros [E|]; [lia|done].
Qed.

Lemma dense_rows_spec rows output :
  arrays_ok output -> NoDup rows -> Forall (fun r => 0 <= r < d_n_rows t) rows ->
  dense_rows tg t matrix input rows output = Some (Ret (with_rows rows output)).
Proof.
  intros Ha Hnd. revert output Ha. induction Hnd as [|row rows Hni _ IH]; intros output Ha Hf; cbn [dense_rows].
  - do 2 f_equal. apply list_eq. intros i. unfold with_rows. rewrite list_lookup_imap.
    destruct (output !! i); [|done]. cbn. by rewrite decide_False by set_solver.
  - apply Forall_cons_1 in Hf as [Hr Hf].
    destruct (lookup_lt_is_Some_2 output (Z.to_nat row)) as [old Hold].
    { pose proof (ao_output _ Ha). unfold zlen in *. lia. }
    rewrite (dense_row_spec output row old) by done. rewrite IH; [|destruct Ha; constructor|done].
    + by rewrite with_rows_step by (done || lia).
    + done. + done. + done. + done. + unfold zlen in *. by rewrite length_insert.
Qed.

Lemma with_rows_all rows output :
  zlen output = d_n_rows t -> Permutation rows (seqZ 0 (d_n_rows t)) ->
  with_rows rows output = dense_spec output.
Proof.
  intros Ho P. apply imap_ext. intros i x Hx. apply lookup_lt_Some in Hx.
  rewrite decide_True; [done|]. rewrite P, elem_of_seqZ. unfold zlen in Ho. lia.
Qed.

(** Whatever order the rows are processed in. *)
Lemma dense_rows_permuted rows output :
  arrays_ok output -> Permutation rows (seqZ 0 (d_n_rows t)) ->
  dense_rows tg t matrix input rows output = Some (Ret (dense_spec output)).
Proof.
  intros Ha P. rewrite dense_rows_spec; [|done| |].
  - by rewrite with_rows_all by (done || apply Ha).
  - rewrite P. apply NoDup_seqZ.
  - rewrite P. apply Forall_seqZ. lia.
Qed.
End Schedule.

(** ** Properties *)

(** What the C types and the validation give the lanes. *)
Lemma output_ok_sound t : task_typed t -> validate_dense_task t = Ret tt -> output_ok t.
Proof.
  intros Ht V. pose proof (validate_sound t Ht V) as []. destruct Ht as (_ & _ & ? & ? & _).
  unfold is_u64 in *. split_and!; done || lia.
Qed.

Definition sample_task : dense_f32_task := mk_dense 48 0 4096 8192 12292 100 3 0 3.

Lemma sample_typed : task_typed sample_task.
Proof. unfold task_typed, is_u64, is_u32. cbn. lia. Qed.

(** C21: a task that passes validation accesses only memory below the top of
    the address space, no two of its rows write the same element, and no element
    that is written is part of the matrix or of the input.  The only elements
    that are both read and written are those of the output with ACCUMULATE, each
    by its own row alone. *)
Theorem dense_validation_sound (t : dense_f32_task) :
  task_typed t -> validate_dense_task t = Ret tt -> task_sound t.
Proof. apply validate_sound. Qed.

Lemma dense_validation_sound_witness : task_sound sample_task.
Proof. apply dense_validation_sound; [apply sample_typed|reflexivity]. Defined.

(** C22: for every lane count the row ranges of the lanes, taken in order, are
    exactly the rows of the task, each once. *)
Theorem dense_lanes_partition `{CacheLine} (t : dense_f32_task) (n_lanes : Z) :
  task_typed t -> validate_dense_task t = Ret tt -> 0 < n_lanes < 2 ^ 32 ->
  concat (map (fun lane => lane_rows t lane n_lanes) (seqZ 0 n_lanes)) = seqZ 0 (d_n_rows t).
Proof. intros Ht V Hn. apply lanes_cover; [by apply output_ok_sound|done]. Qed.

Lemma dense_lanes_partition_witness :
  concat (map (fun lane => @lane_rows cache_line_64 sample_task lane 3) (seqZ 0 3)) = seqZ 0 100.
Proof. apply (@dense_lanes_partition cache_line_64 sample_task 3); [apply sample_typed|reflexivity|lia]. Defined.

(** Rows of different lanes are written to different cache lines. *)
Theorem dense_lanes_isolated `{CacheLine} (t : dense_f32_task) (n_lanes a b r r' : Z) :
  task_typed t -> validate_dense_task t = Ret tt -> 0 < n_lanes < 2 ^ 32 ->
  0 <= a < n_lanes -> 0 <= b < n_lanes -> a <> b ->
  r ∈ lane_rows t a n_lanes -> r' ∈ lane_rows t b n_lanes ->
  (d_output t + 4 * r) / SPA_CACHE_LINE_SIZE <> (d_output t + 4 * r') / SPA_CACHE_LINE_SIZE.
Proof.
  intros Ht V Hn Ha Hb Hab Hr Hr'. pose proof (output_ok_sound t Ht V) as Ho.
  destruct (Z.lt_trichotomy a b) as [?|[?|?]]; [|lia|].
  - pose proof (lanes_apart t n_lanes a b r r' Ho Hn ltac:(lia) ltac:(lia) Hr Hr'). lia.
  - pose proof (lanes_apart t n_lanes b a r' r Ho Hn ltac:(lia) ltac:(lia) Hr' Hr). lia.
Qed.

Lemma dense_lanes_isolated_witness :
  (12292 + 4 * 46) / 64 <> (12292 + 4 * 47) / 64.
Proof.
  apply (@dense_lanes_isolated cache_line_64 sample_task 3 0 1 46 47);
    [apply sample_typed|reflexivity|lia|lia|lia|lia|apply elem_of_seqZ; vm_compute; intuition discriminate..].
Defined.

(** C23: the result of a dense task is the same for every number of lanes and
    every order in which the lanes process their rows: each output row becomes
    its sum, added to the old value with ACCUMULATE.  All kernels return. *)
Theorem dense_schedule_independent `{CacheLine} {F} `{FloatOps F} (tg : target) (t : dense_f32_task)
    (matrix input output : list F) (n_lanes : Z) (schedule : list Z) :
  task_typed t -> validate_dense_task t = Ret tt -> 0 < n_lanes < 2 ^ 32 ->
  arrays_ok t matrix input output ->
  Permutation schedule (concat (map (fun lane => lane_rows t lane n_lanes) (seqZ 0 n_lanes))) ->
  dense_rows tg t matrix input schedule output = Some (Ret (dense_spec tg t matrix input output)).
Proof.
  intros Ht V Hn Ha P. rewrite lanes_cover in P by (done || by apply output_ok_sound).
  by apply dense_rows_permuted.
Qed.

(** Exact integer arithmetic as a [float] carrier. *)
Definition Z_ops : FloatOps Z := {| fzero := 0; fadd := Z.add; fmaf := fun a b c => a * b + c |}.

Lemma Z_ops_ring : ring_theory (@fzero Z Z_ops) 1 (@fadd Z Z_ops) Z.mul Z.sub Z.opp eq.
Proof. exact InitialRing.Zth. Qed.

Definition small_task : dense_f32_task := mk_dense 48 1 4096 8192 12288 3 4 1 2.

Lemma dense_schedule_independent_witness :
  @dense_rows Z Z_ops (X86_64 true true) small_task (seqZ 0 12) [5; 7] [2; 0; 1] [10; 20; 30]
  = Some (Ret (@dense_spec Z Z_ops (X86_64 true true) small_task (seqZ 0 12) [5; 7] [10; 20; 30])).
Proof.
  apply (@dense_schedule_independent cache_line_64 Z Z_ops (X86_64 true true) small_task
           (seqZ 0 12) [5; 7] [10; 20; 30] 2 [2; 0; 1]).
  - unfold task_typed, is_u64, is_u32. cbn. lia.
  - reflexivity.
  - lia.
  - constructor; vm_compute; intuition discriminate.
  - change (Permutation [2; 0; 1] [0; 1; 2]).
    apply Permutation_cons_app with (l1 := [0; 1]) (l2 := []). reflexivity.
Defined.

(** C24: over exact arithmetic (a commutative ring in which [fmaf] does not
    round), whichever kernel the target selects, the sum of a row is the dot
    product of the column range of that row with the input. *)
Theorem dense_row_dot_product {F} `{FloatOps F} (fone : F) (fmul fsub : F -> F -> F) (fopp : F -> F)
    (tg : target) (t : dense_f32_task) (matrix input output : list F) (row : Z) :
  ring_theory fzero fone fadd fmul fsub fopp eq ->
  (forall a b c, fmaf a b c = fadd (fmul a b) c) ->
  arrays_ok t matrix input output -> 0 <= row < d_n_rows t ->
  let n := Z.to_nat (d_n_columns t) in
  row_sum tg t matrix input row
  = dotp fmul (take n (drop (Z.to_nat (row * d_matrix_row_stride t + d_first_column t)) matrix))
              (take n input).
Proof.
  intros R Hfma [Hc [Hf Hs] Hm Hi Ho] Hr n. unfold row_sum.
  pose proof (dense_dot_exact fone fmul fsub fopp R Hfma tg
    (drop (Z.to_nat (row * d_matrix_row_stride t + d_first_column t)) matrix) input n) as E.
  unfold n in *. rewrite Z2Nat.id in E by lia. rewrite E; [done|lia|].
  unfold inside, zlen in *. rewrite length_drop. split; [nia|lia].
Qed.

Lemma dense_row_dot_product_witness :
  @row_sum Z Z_ops AArch64 small_task (seqZ 0 12) [5; 7] 2 = 9 * 5 + (10 * 7 + 0).
Proof.
  apply (@dense_row_dot_product Z Z_ops 1 Z.mul Z.sub Z.opp AArch64 small_task (seqZ 0 12) [5; 7]
           [10; 20; 30] 2); [exact Z_ops_ring|reflexivity|constructor; vm_compute; intuition discriminate|].
  split; [discriminate|reflexivity].
Defined.

(** The blocked kernel's loop over [uint32_t] offsets returns for every
    column count up to 2^32 - 2048, within the rounds the model gives it. *)
Theorem blocked_dot_terminates {F} `{FloatOps F} (tg : target) (left right : list F) (count : nat) :
  Z.of_nat count <= 2 ^ 32 - 2048 -> (count <= length left)%nat -> (count <= length right)%nat ->
  exists v, dense_dot_f32_blocked tg left right count = Some (Ret v).
Proof.
  intros Hc Hl Hr. unfold dense_dot_f32_blocked.
  pose proof (Nat.div_mod count 2048 ltac:(lia)). pose proof (Nat.mod_upper_bound count 2048 ltac:(lia)).
  apply blocked_loop_total; [lia|lia|split; lia|lia|lia].
Qed.

Lemma blocked_dot_terminates_witness :
  exists v, @dense_dot_f32_blocked Z Z_ops AArch64 [1; 2; 3] [4; 5; 6] 3 = Some (Ret v).
Proof. apply blocked_dot_terminates; cbn; lia. Defined.

(** For more columns the loop never ends: no number of rounds is enough. *)
Theorem blocked_dot_never_returns {F} `{FloatOps F} (tg : target) (left right : list F) (count : Z)
    (rounds : nat) :
  2 ^ 32 - 2048 < count < 2 ^ 32 ->
  (Z.to_nat count <= length left)%nat -> (Z.to_nat count <= length right)%nat ->
  blocked_loop (block_kernel tg) left right rounds count 0 fzero = None.
Proof. intros Hc Hl Hr. by apply blocked_loop_diverges; [|lia| |split]. Qed.
