(* ===== verification/Workers.v ===== *)
(** * The worker group of the ndarray executor

    Models the threading half of [spa/plugins/filter-graph/ndarray-executor.c]:
    the helper threads ([worker_main]), the publication of commands through
    generation counters, [run_task], activation and deactivation.  Coordinator
    and helpers interleave step by step; each load and store of a shared field
    that another thread can observe is a step of its own.  The release/acquire
    pairs of the code order the plain fields with the generation they belong
    to, so a step acts on one shared memory.  Generations are 32-bit counters
    that wrap. *)
From S2P Require Import Prelude.
From stdpp Require Import relations.
#[local] Open Scope Z_scope.

Section Workers.
(** A job is a task function with its data; [exec j lane n] is the status it
    returns. *)
Context {J : Type} (exec : J -> Z -> Z -> Z).

(** Where a helper thread is in [worker_main]. *)
Inductive worker_pc : Type :=
| W_none                          (* no thread *)
| W_init                          (* created, has not loaded the generation *)
| W_announce                      (* about to set [started] *)
| W_poll
| W_fetch                         (* saw a new generation *)
| W_exec (j : J) (n : Z)
| W_status (st : Z)               (* about to store the status *)
| W_complete                      (* about to publish the completion *)
| W_exited.

(** [struct fgn_worker_slot] with the helper's program counter and its local
    [observed]; [s_runs] records the calls of the task function since the run
    began and is not part of the program. *)
Record slot : Type := mk_slot {
  s_next : Z;
  s_gen : Z;
  s_task : option J;
  s_lanes : Z;
  s_comp : Z;
  s_status : Z;
  s_started : bool;
  s_pc : worker_pc;
  s_observed : Z;
  s_runs : list (J * Z * Z) }.

(** ** The helper: one step of [worker_main], [None] while it spins or is
    gone. *)
Definition worker_step (lane : Z) (s : slot) : option slot :=
  let '(mk_slot next gen task lanes comp status started pc observed runs) := s in
  match pc with
  | W_init => Some (mk_slot next gen task lanes comp status started W_announce gen runs)
  | W_announce => Some (mk_slot next gen task lanes comp status true W_poll observed runs)
  | W_poll =>
      if gen =? observed then None
      else Some (mk_slot next gen task lanes comp status started W_fetch gen runs)
  | W_fetch =>
      match task with
      | None => Some (mk_slot next gen task lanes comp status started W_exited observed runs)
      | Some j => Some (mk_slot next gen task lanes comp status started (W_exec j lanes) observed runs)
      end
  | W_exec j n =>
      Some (mk_slot next gen task lanes comp status started (W_status (exec j lane n)) observed
                    (runs ++ [(j, lane, n)]))
  | W_status st => Some (mk_slot next gen task lanes comp st started W_complete observed runs)
  | W_complete => Some (mk_slot next gen task lanes observed status started W_poll observed runs)
  | W_none | W_exited => None
  end.

(** ** The coordinator's accesses to a slot *)

Definition next_generation (s : slot) : Z := u32 (s_next s + 1).

(** [publish_command] is [rearm], [fill] and [publish] in this order. *)
Definition rearm (s : slot) : slot :=
  let generation := next_generation s in
  mk_slot generation (s_gen s) (s_task s) (s_lanes s) (u32 (generation - 1)) (s_status s)
          (s_started s) (s_pc s) (s_observed s) (s_runs s).
Definition fill (task : option J) (n_lanes : Z) (s : slot) : slot :=
  mk_slot (s_next s) (s_gen s) task n_lanes (s_comp s) (s_status s)
          (s_started s) (s_pc s) (s_observed s) (s_runs s).
Definition publish (s : slot) : slot :=
  mk_slot (s_next s) (s_next s) (s_task s) (s_lanes s) (s_comp s) (s_status s)
          (s_started s) (s_pc s) (s_observed s) (s_runs s).
Definition create (s : slot) : slot :=
  mk_slot (s_next s) (s_gen s) (s_task s) (s_lanes s) (s_comp s) (s_status s)
          false W_init (s_observed s) (s_runs s).
(** The store in front of a [pthread_create] that fails. *)
Definition unstart (s : slot) : slot :=
  mk_slot (s_next s) (s_gen s) (s_task s) (s_lanes s) (s_comp s) (s_status s)
          false (s_pc s) (s_observed s) (s_runs s).
Definition forget_runs (s : slot) : slot :=
  mk_slot (s_next s) (s_gen s) (s_task s) (s_lanes s) (s_comp s) (s_status s)
          (s_started s) (s_pc s) (s_observed s) [].

(** [posix_memalign], [memset] and the loop of [spa_fgn_worker_group_new]. *)
Definition new_slot : slot := mk_slot 0 0 None 0 0 0 false W_none 0 [].

(** Where the coordinator is: outside every call, in
    [spa_fgn_worker_group_activate], in [run_task], or in
    [stop_created_workers]. *)
Inductive coord_pc : Type :=
| C_idle
| C_create (i : nat)
| C_started (i : nat)
| C_rearm (j : J) (n i : nat)
| C_fill (j : J) (n i : nat)
| C_publish (j : J) (n i : nat)
| C_run (j : J) (n : nat)
| C_wait (j : J) (n i : nat) (result : Z)
| C_ret (j : J) (n : nat) (result : Z)
| D_started (i : nat)
| D_rearm (i : nat)
| D_fill (i : nat)
| D_publish (i : nat)
| D_join (i : nat)
| D_ret.

(** [struct spa_fgn_worker_group]; [g_runs] records lane 0, run by the
    coordinator itself. *)
Record group : Type := mk_group {
  g_pc : coord_pc;
  g_active : bool;
  g_created : nat;
  g_slots : list slot;
  g_runs : list (J * Z * Z) }.

Definition initial_group (n_helpers : nat) : group :=
  mk_group C_idle false 0 (replicate n_helpers new_slot) [].

(** What the environment of [spa_fgn_worker_group_new] answers: the two
    [calloc]s, the error of [posix_memalign] and whether the atomics are
    lock-free. *)
Record new_env : Type := mk_new_env {
  e_group : bool;
  e_memalign : Z;
  e_threads : bool;
  e_lock_free : bool }.

Definition SPA_FGN_EXECUTOR_MAX_HELPERS : nat := 63.

(** [sizeof(struct fgn_worker_slot)] and [sizeof(pthread_t)] times 63 do not
    overflow [size_t], so the [-EOVERFLOW] branch is never taken. *)
Definition spa_fgn_worker_group_new (e : new_env) (n_helpers : nat) : outcome group :=
  if (SPA_FGN_EXECUTOR_MAX_HELPERS <? n_helpers)%nat then Err EINVAL
  else if negb (e_group e) then Err ENOMEM
  else if (n_helpers =? 0)%nat then Ret (initial_group n_helpers)
  else if negb (e_memalign e =? 0) then Err (e_memalign e)
  else if negb (e_threads e) then Err ENOMEM
  else if negb (e_lock_free e) then Err ENOTSUP
  else Ret (initial_group n_helpers).

(** The status [run_task] keeps: the first that is not zero. *)
Definition merge_status (result status : Z) : Z :=
  if (result =? 0) && negb (status =? 0) then status else result.

Definition lane_of (i : nat) : Z := Z.of_nat i + 1.

Inductive step : group -> group -> Prop :=
| step_worker pc a c ss rs i s s' :
    ss !! i = Some s -> worker_step (lane_of i) s = Some s' ->
    step (mk_group pc a c ss rs) (mk_group pc a c (<[i := s']> ss) rs)
(* spa_fgn_worker_group_activate *)
| step_activate c ss rs :
    step (mk_group C_idle false c ss rs) (mk_group (C_create 0) false c ss rs)
| step_create a c ss rs i s :
    ss !! i = Some s ->
    step (mk_group (C_create i) a c ss rs)
         (mk_group (C_create (S i)) a (S i) (<[i := create s]> ss) rs)
| step_create_fails a c ss rs i s :
    ss !! i = Some s ->
    step (mk_group (C_create i) a c ss rs) (mk_group (D_started 0) a i (<[i := unstart s]> ss) rs)
| step_create_done a c ss rs :
    step (mk_group (C_create (length ss)) a c ss rs) (mk_group (C_started 0) a c ss rs)
| step_started a c ss rs i s :
    ss !! i = Some s -> s_started s = true ->
    step (mk_group (C_started i) a c ss rs) (mk_group (C_started (S i)) a c ss rs)
| step_started_done a c ss rs :
    step (mk_group (C_started (length ss)) a c ss rs) (mk_group C_idle true c ss rs)
(* run_task *)
| step_run_begin c ss rs j n :
    (0 < n <= length ss + 1)%nat ->
    step (mk_group C_idle true c ss rs)
         (mk_group (C_rearm j n 0) true c (forget_runs <$> ss) [])
| step_rearm a c ss rs j n i s :
    (i + 1 < n)%nat -> ss !! i = Some s ->
    step (mk_group (C_rearm j n i) a c ss rs)
         (mk_group (C_fill j n i) a c (<[i := rearm s]> ss) rs)
| step_fill a c ss rs j n i s :
    ss !! i = Some s ->
    step (mk_group (C_fill j n i) a c ss rs)
         (mk_group (C_publish j n i) a c (<[i := fill (Some j) (Z.of_nat n) s]> ss) rs)
| step_publish a c ss rs j n i s :
    ss !! i = Some s ->
    step (mk_group (C_publish j n i) a c ss rs)
         (mk_group (C_rearm j n (S i)) a c (<[i := publish s]> ss) rs)
| step_publish_done a c ss rs j n i :
    (n <= i + 1)%nat ->
    step (mk_group (C_rearm j n i) a c ss rs) (mk_group (C_run j n) a c ss rs)
| step_run a c ss rs j n :
    step (mk_group (C_run j n) a c ss rs)
         (mk_group (C_wait j n 0 (exec j 0 (Z.of_nat n))) a c ss (rs ++ [(j, 0, Z.of_nat n)]))
| step_wait a c ss rs j n i r s :
    (i + 1 < n)%nat -> ss !! i = Some s -> s_comp s = s_next s ->
    step (mk_group (C_wait j n i r) a c ss rs)
         (mk_group (C_wait j n (S i) (merge_status r (s_status s))) a c ss rs)
| step_wait_done a c ss rs j n i r :
    (n <= i + 1)%nat ->
    step (mk_group (C_wait j n i r) a c ss rs) (mk_group (C_ret j n r) a c ss rs)
| step_ret a c ss rs j n r :
    step (mk_group (C_ret j n r) a c ss rs) (mk_group C_idle a c ss rs)
(* spa_fgn_worker_group_deactivate, stop_created_workers *)
| step_deactivate c ss rs :
    step (mk_group C_idle true c ss rs) (mk_group (D_started 0) false c ss rs)
| step_stop_started a c ss rs i s :
    (i < c)%nat -> ss !! i = Some s -> s_started s = true ->
    step (mk_group (D_started i) a c ss rs) (mk_group (D_started (S i)) a c ss rs)
| step_stop_started_done a c ss rs :
    step (mk_group (D_started c) a c ss rs) (mk_group (D_rearm 0) a c ss rs)
| step_stop_rearm a c ss rs i s :
    (i < c)%nat -> ss !! i = Some s ->
    step (mk_group (D_rearm i) a c ss rs) (mk_group (D_fill i) a c (<[i := rearm s]> ss) rs)
| step_stop_fill a c ss rs i s :
    ss !! i = Some s ->
    step (mk_group (D_fill i) a c ss rs) (mk_group (D_publish i) a c (<[i := fill None 0 s]> ss) rs)
| step_stop_publish a c ss rs i s :
    ss !! i = Some s ->
    step (mk_group (D_publish i) a c ss rs) (mk_group (D_rearm (S i)) a c (<[i := publish s]> ss) rs)
| step_stop_published a c ss rs :
    step (mk_group (D_rearm c) a c ss rs) (mk_group (D_join 0) a c ss rs)
| step_join a c ss rs i s :
    (i < c)%nat -> ss !! i = Some s -> s_pc s = W_exited ->
    step (mk_group (D_join i) a c ss rs) (mk_group (D_join (S i)) a c ss rs)
| step_join_done a c ss rs :
    step (mk_group (D_join c) a c ss rs) (mk_group D_ret a 0 ss rs)
| step_stop_ret a c ss rs :
    step (mk_group D_ret a c ss rs) (mk_group C_idle a c ss rs).

(** ** Entry points

    The argument checks in front of a run: the number of lanes to start with,
    or the error returned before anything is published.  [task_set] says that
    the function pointer is not NULL. *)
Definition run_task_check (g : group) (task_set : bool) (n_lanes : nat) : outcome nat :=
  if negb task_set || negb (g_active g) || (n_lanes =? 0)%nat
     || (length (g_slots g) + 1 <? n_lanes)%nat
  then Err EINVAL else Ret n_lanes.

(** [struct spa_fgn_lanes_task]. *)
Record lanes_task : Type := mk_lanes {
  l_struct_size : Z;
  l_flags : Z;
  l_run : option J;
  l_n_lanes : nat;
  l_reserved : Z }.
Definition sizeof_lanes_task : Z := 32.

Definition spa_fgn_worker_group_run_lanes (g : group) (t : lanes_task) : outcome nat :=
  if negb (g_active g) || (l_struct_size t <? sizeof_lanes_task) || negb (l_flags t =? 0)
     || (match l_run t with None => true | Some _ => false end) || (l_n_lanes t =? 0)%nat
     || (length (g_slots g) + 1 <? l_n_lanes t)%nat || negb (l_reserved t =? 0)
  then Err EINVAL
  else run_task_check g true (l_n_lanes t).

(** [validated] is the result of [validate_dense_task]. *)
Definition spa_fgn_worker_group_run_dense_f32 (g : group) (validated : outcome unit) : outcome nat :=
  if negb (g_active g) then Err EINVAL
  else
    let! _ := validated in
    run_task_check g true (length (g_slots g) + 1).

(** States the group can get into, starting from a new one. *)
Definition reachable (n_helpers : nat) (g : group) : Prop :=
  rtc step (initial_group n_helpers) g.
End Workers.
