(* ===== verification/WorkersProofs.v ===== *)
(** * Correctness of the worker group

    The invariant ties the state of every helper to the position of the
    coordinator; by rule induction it holds in every reachable state.  From
    it: [run_task] is synchronous (each lane ran exactly once, no helper still
    touches the task, the first failing status is returned), it never gets
    stuck and always terminates, and deactivation leaves no thread behind. *)
From S2P Require Import Prelude Workers.
From stdpp Require Import relations.
#[local] Open Scope Z_scope.

Section Proofs.
Context {J : Type} (exec : J -> Z -> Z -> Z).
Implicit Types (s : slot (J := J)) (g : group (J := J)).

(** ** Phases of a slot *)

Inductive phase : Type :=
| Ph_absent
| Ph_starting
| Ph_quiet (clean : bool)
| Ph_rearmed (clean : bool)
| Ph_filled (task : option J) (n : Z) (clean : bool)
| Ph_busy (j : J) (n : Z)
| Ph_finished (j : J) (n : Z)
| Ph_stopping.

(** The generation counters agree: nothing is being published. *)
Definition settled s : Prop := is_u32 (s_gen s) /\ s_next s = s_gen s.

(** Polling with nothing new to see. *)
Definition polling s : Prop :=
  s_pc s = W_poll /\ s_started s = true /\ s_observed s = s_gen s.

Definition clean_if (clean : bool) s : Prop := clean = true -> s_runs s = [].

Definition rearmed s : Prop :=
  is_u32 (s_gen s) /\ s_next s = u32 (s_gen s + 1) /\ s_comp s = s_gen s /\ polling s.

(** The stations of a helper between publication and completion. *)
Inductive at_work (j : J) (lane n : Z) s : Prop :=
| aw_published : s_pc s = W_poll -> s_observed s <> s_gen s -> s_comp s <> s_gen s -> s_runs s = [] ->
    at_work j lane n s
| aw_fetch : s_pc s = W_fetch -> s_observed s = s_gen s -> s_comp s <> s_gen s -> s_runs s = [] ->
    at_work j lane n s
| aw_exec : s_pc s = W_exec j n -> s_observed s = s_gen s -> s_comp s <> s_gen s -> s_runs s = [] ->
    at_work j lane n s
| aw_status : s_pc s = W_status (exec j lane n) -> s_observed s = s_gen s -> s_comp s <> s_gen s ->
    s_runs s = [(j, lane, n)] -> at_work j lane n s
| aw_complete : s_pc s = W_complete -> s_status s = exec j lane n -> s_observed s = s_gen s ->
    s_comp s <> s_gen s -> s_runs s = [(j, lane, n)] -> at_work j lane n s
| aw_done : s_pc s = W_poll -> s_status s = exec j lane n -> s_observed s = s_gen s ->
    s_comp s = s_gen s -> s_runs s = [(j, lane, n)] -> at_work j lane n s.

Definition slot_in (ph : phase) (lane : Z) s : Prop :=
  match ph with
  | Ph_absent => settled s /\ (s_pc s = W_none \/ s_pc s = W_exited)
  | Ph_starting =>
      settled s /\
      ((s_pc s = W_init /\ s_started s = false) \/
       (s_pc s = W_announce /\ s_started s = false /\ s_observed s = s_gen s) \/ polling s)
  | Ph_quiet clean => settled s /\ polling s /\ clean_if clean s
  | Ph_rearmed clean => rearmed s /\ clean_if clean s
  | Ph_filled task n clean => rearmed s /\ clean_if clean s /\ s_task s = task /\ s_lanes s = n
  | Ph_busy j n =>
      settled s /\ s_started s = true /\ s_task s = Some j /\ s_lanes s = n /\ at_work j lane n s
  | Ph_finished j n => settled s /\ polling s /\ s_runs s = [(j, lane, n)]
  | Ph_stopping =>
      settled s /\ s_task s = None /\
      ((s_pc s = W_poll /\ s_observed s <> s_gen s) \/ s_pc s = W_fetch \/ s_pc s = W_exited)
  end.

(** The phase of slot [i] when the coordinator is at [pc]. *)
Definition phase_at (pc : coord_pc (J := J)) (active : bool) (created i : nat) : phase :=
  match pc with
  | C_idle => if active then Ph_quiet false else Ph_absent
  | C_create k => if decide (i < k)%nat then Ph_starting else Ph_absent
  | C_started k => if decide (i < k)%nat then Ph_quiet false else Ph_starting
  | C_rearm j n k => if decide (i < k)%nat then Ph_busy j (Z.of_nat n) else Ph_quiet true
  | C_fill j n k =>
      if decide (i < k)%nat then Ph_busy j (Z.of_nat n)
      else if decide (i = k) then Ph_rearmed true else Ph_quiet true
  | C_publish j n k =>
      if decide (i < k)%nat then Ph_busy j (Z.of_nat n)
      else if decide (i = k) then Ph_filled (Some j) (Z.of_nat n) true else Ph_quiet true
  | C_run j n => if decide (i + 1 < n)%nat then Ph_busy j (Z.of_nat n) else Ph_quiet true
  | C_wait j n k _ =>
      if decide (i < k)%nat then Ph_finished j (Z.of_nat n)
      else if decide (i + 1 < n)%nat then Ph_busy j (Z.of_nat n) else Ph_quiet true
  | C_ret j n _ => if decide (i + 1 < n)%nat then Ph_finished j (Z.of_nat n) else Ph_quiet true
  | D_started k =>
      if decide (i < k)%nat then Ph_quiet false
      else if decide (i < created)%nat then Ph_starting else Ph_absent
  | D_rearm k =>
      if decide (i < k)%nat then Ph_stopping
      else if decide (i < created)%nat then Ph_quiet false else Ph_absent
  | D_fill k =>
      if decide (i < k)%nat then Ph_stopping
      else if decide (i = k) then Ph_rearmed false
      else if decide (i < created)%nat then Ph_quiet false else Ph_absent
  | D_publish k =>
      if decide (i < k)%nat then Ph_stopping
      else if decide (i = k) then Ph_filled None 0 false
      else if decide (i < created)%nat then Ph_quiet false else Ph_absent
  | D_join k =>
      if decide (i < k)%nat then Ph_absent
      else if decide (i < created)%nat then Ph_stopping else Ph_absent
  | D_ret => Ph_absent
  end.

(** The status kept after looking at the first [k] helpers. *)
Fixpoint status_upto (j : J) (n : Z) (k : nat) : Z :=
  match k with
  | O => exec j 0 n
  | S k => merge_status (status_upto j n k) (exec j (lane_of k) n)
  end.

Definition running (active : bool) (created len : nat) (n k : nat) : Prop :=
  active = true /\ created = len /\ (0 < n <= len + 1)%nat /\ (k + 1 <= n)%nat.

(** What is known of the coordinator's own state. *)
Definition coord_ok (pc : coord_pc (J := J)) (a : bool) (c len : nat) (rs : list (J * Z * Z)) : Prop :=
  match pc with
  | C_idle => c = if a then len else 0%nat
  | C_create k => a = false /\ c = k /\ (k <= len)%nat
  | C_started k => a = false /\ c = len /\ (k <= len)%nat
  | C_rearm j n k => running a c len n k /\ rs = []
  | C_fill j n k | C_publish j n k => running a c len n k /\ (k + 1 < n)%nat /\ rs = []
  | C_run j n => running a c len n 0 /\ rs = []
  | C_wait j n k r =>
      running a c len n k /\ rs = [(j, 0, Z.of_nat n)] /\ r = status_upto j (Z.of_nat n) k
  | C_ret j n r =>
      running a c len n 0 /\ rs = [(j, 0, Z.of_nat n)] /\ r = status_upto j (Z.of_nat n) (n - 1)
  | D_started k | D_rearm k | D_join k => a = false /\ (k <= c <= len)%nat
  | D_fill k | D_publish k => a = false /\ (k < c <= len)%nat
  | D_ret => a = false /\ c = 0%nat
  end.

Record inv g : Prop := mk_inv {
  inv_coord : coord_ok (g_pc g) (g_active g) (g_created g) (length (g_slots g)) (g_runs g);
  inv_slots : forall i s, g_slots g !! i = Some s ->
    slot_in (phase_at (g_pc g) (g_active g) (g_created g) i) (lane_of i) s }.

(** ** Steps of a helper stay in its phase *)

Lemma worker_phase ph lane s s' :
  slot_in ph lane s -> worker_step exec lane s = Some s' -> slot_in ph lane s'.
Proof.
  destruct s as [next gen task lanes comp status started pc observed runs].
  unfold slot_in, rearmed, settled, polling, clean_if. intros H. destruct ph; cbn in H |- *.
  - destruct H as [? [-> | ->]]; done.
  - destruct H as [? [[-> ->]|[(-> & -> & ->)|(-> & -> & ->)]]]; cbn.
    + intros [= <-]. cbn. tauto.
    + intros [= <-]. cbn. tauto.
    + by rewrite Z.eqb_refl.
  - destruct H as (? & (-> & -> & ->) & ?). by rewrite Z.eqb_refl.
  - destruct H as ((? & ? & ? & -> & -> & ->) & ?). by rewrite Z.eqb_refl.
  - destruct H as ((? & ? & ? & -> & -> & ->) & ?). by rewrite Z.eqb_refl.
  - destruct H as ((Hg & ->) & -> & -> & -> & A). destruct A; cbn in *; subst.
    + destruct (Z.eqb_spec gen observed); [congruence|]. intros [= <-]. cbn.
      split_and!; try done. by apply aw_fetch.
    + intros [= <-]. cbn. split_and!; try done. by apply aw_exec.
    + intros [= <-]. cbn. split_and!; try done. by apply aw_status.
    + intros [= <-]. cbn. split_and!; try done. by apply aw_complete.
    + intros [= <-]. cbn. split_and!; try done. by apply aw_done.
    + by rewrite Z.eqb_refl.
  - destruct H as (? & (-> & -> & ->) & ?). by rewrite Z.eqb_refl.
  - destruct H as (? & -> & [[-> Hne]|[-> | ->]]); cbn; [|intros [= <-]; cbn; tauto|done].
    destruct (Z.eqb_spec gen observed); [congruence|]. intros [= <-]. cbn. tauto.
Qed.

(** ** Steps of the coordinator on a slot *)

Lemma u32_succ_ne (x : Z) : is_u32 x -> u32 (x + 1) <> x.
Proof.
  unfold is_u32, wrap. intros Hx E. destruct (Z.eq_dec x (2 ^ 32 - 1)) as [->|].
  - by vm_compute in E.
  - rewrite Z.mod_small in E; lia.
Qed.

Lemma u32_pred_succ (x : Z) : is_u32 x -> u32 (u32 (x + 1) - 1) = x.
Proof.
  unfold is_u32, wrap. intros Hx. rewrite Zminus_mod_idemp_l.
  replace (x + 1 - 1) with x by lia. by apply Z.mod_small.
Qed.

Lemma rearm_phase clean lane s : slot_in (Ph_quiet clean) lane s -> slot_in (Ph_rearmed clean) lane (rearm s).
Proof.
  intros ([Hg Hn] & Hp & Hc). split; [|done]. unfold rearmed, next_generation, rearm. cbn.
  unfold next_generation. rewrite Hn. split_and!; [done|done|by apply u32_pred_succ|apply Hp..].
Qed.

Lemma fill_phase clean lane task n s :
  slot_in (Ph_rearmed clean) lane s -> slot_in (Ph_filled task n clean) lane (fill task n s).
Proof. by intros [? ?]. Qed.

Lemma publish_phase lane j n s :
  slot_in (Ph_filled (Some j) n true) lane s -> slot_in (Ph_busy j n) lane (publish s).
Proof.
  intros ((Hg & Hn & Hc & Hp & Hs & Ho) & Hcl & Ht & Hl). cbn.
  pose proof (u32_succ_ne _ Hg). split_and!; [|done|done|done|].
  - split; cbn; [rewrite Hn; by apply (wrap_range 32)|done].
  - apply aw_published; cbn; [done|congruence|congruence|by apply Hcl].
Qed.

Lemma publish_stop_phase lane s :
  slot_in (Ph_filled None 0 false) lane s -> slot_in Ph_stopping lane (publish s).
Proof.
  intros ((Hg & Hn & Hc & Hp & Hs & Ho) & _ & Ht & _). cbn.
  pose proof (u32_succ_ne _ Hg). split_and!; [|done|left; split; [done|congruence]].
  split; cbn; [rewrite Hn; by apply (wrap_range 32)|done].
Qed.

Lemma create_phase lane s : slot_in Ph_absent lane s -> slot_in Ph_starting lane (create s).
Proof. intros [H _]. split; [exact H|]. by left. Qed.

Lemma starting_quiet lane s :
  slot_in Ph_starting lane s -> s_started s = true -> slot_in (Ph_quiet false) lane s.
Proof. intros [H [[? ?]|[(? & ? & ?)|?]]] Hs; [congruence|congruence|]. by split. Qed.

Lemma quiet_starting clean lane s : slot_in (Ph_quiet clean) lane s -> slot_in Ph_starting lane s.
Proof. intros (? & ? & _). split; [done|]. by right; right. Qed.

Lemma quiet_any clean lane s : slot_in (Ph_quiet clean) lane s -> slot_in (Ph_quiet false) lane s.
Proof. by intros (? & ? & _). Qed.

Lemma finished_quiet j n lane s : slot_in (Ph_finished j n) lane s -> slot_in (Ph_quiet false) lane s.
Proof. by intros (? & ? & _). Qed.

Lemma forget_phase clean lane s : slot_in (Ph_quiet clean) lane s -> slot_in (Ph_quiet true) lane (forget_runs s).
Proof. by intros (? & ? & _). Qed.

Lemma busy_finished j n lane s :
  slot_in (Ph_busy j n) lane s -> s_comp s = s_next s ->
  slot_in (Ph_finished j n) lane s /\ s_status s = exec j lane n.
Proof.
  intros ([Hg Hn] & Hs & _ & _ & A) Hc. rewrite Hn in Hc.
  destruct A; try congruence. by split_and!.
Qed.

Lemma stopping_absent lane s : slot_in Ph_stopping lane s -> s_pc s = W_exited -> slot_in Ph_absent lane s.
Proof. intros (? & _ & _) E. split; [done|by right]. Qed.

(** ** The invariant *)

Lemma inv_init n_helpers : inv (initial_group n_helpers).
Proof.
  split; [done|]. intros i s Hs. cbn in *. apply lookup_replicate in Hs as [-> _].
  by split; [|left].
Qed.

(** Slots keep the invariant when slot [k] becomes [s'] and the phases change
    from [ph] to [ph']. *)
Lemma slots_update (ss : list slot) (ph ph' : nat -> phase) k s' :
  (forall i s, ss !! i = Some s -> slot_in (ph i) (lane_of i) s) ->
  slot_in (ph' k) (lane_of k) s' ->
  (forall i s, i <> k -> ss !! i = Some s -> slot_in (ph i) (lane_of i) s -> slot_in (ph' i) (lane_of i) s) ->
  forall i s, <[k := s']> ss !! i = Some s -> slot_in (ph' i) (lane_of i) s.
Proof.
  intros H Hk Ho i s Hs. destruct (decide (i = k)) as [->|Hne].
  - apply lookup_lt_Some in Hs as Hlt. rewrite length_insert in Hlt.
    rewrite list_lookup_insert_eq in Hs by done. by injection Hs as <-.
  - rewrite list_lookup_insert_ne in Hs by done. by apply Ho, H.
Qed.

#[local] Hint Resolve rearm_phase fill_phase publish_phase publish_stop_phase create_phase
  starting_quiet quiet_starting quiet_any finished_quiet forget_phase stopping_absent : core.

Lemma coord_step g g' :
  inv g -> step exec g g' ->
  coord_ok (g_pc g') (g_active g') (g_created g') (length (g_slots g')) (g_runs g').
Proof.
  intros [Hc Hs] St. destruct St; cbn [g_pc g_active g_created g_slots g_runs] in Hc, Hs |- *;
    rewrite ?length_insert, ?length_fmap; repeat match goal with
      | H : _ !! _ = Some _ |- _ => pose proof (Hs _ _ H); apply lookup_lt_Some in H end;
    cbn in *; unfold running in *; try (intuition (subst; auto; lia)).
  - rewrite decide_False, decide_True in H2 by lia.
    destruct (busy_finished _ _ _ _ H2 H1) as [_ ->]. intuition (subst; auto; lia).
  - replace (n - 1)%nat with i by lia. intuition lia.
Qed.

(** The phases of one slot before and after a step agree, or the slot itself
    moved from one to the other. *)
Ltac phases :=
  cbn [phase_at] in *; repeat case_decide; subst; try lia; try done; eauto.

(** The slot the coordinator just looked at, and the others. *)
Ltac at_slot Hs :=
  match goal with Hi : ?ss !! ?i = Some _ |- _ =>
  let k := fresh "k" in let x := fresh "x" in let Hx := fresh "Hx" in
  intros k x Hx; specialize (Hs k x Hx);
  destruct (decide (k = i)) as [->|];
    [rewrite Hi in Hx; injection Hx as ->|by phases]
  end.

Lemma slots_step g g' :
  inv g -> step exec g g' ->
  forall i s, g_slots g' !! i = Some s ->
  slot_in (phase_at (g_pc g') (g_active g') (g_created g') i) (lane_of i) s.
Proof.
  intros Hinv St. pose proof Hinv as [Hc Hs].
  destruct St; cbn [g_pc g_active g_created g_slots g_runs coord_ok] in Hc, Hs |- *;
    unfold running in *; destruct_and?; subst.
  all: try (match goal with
    | Hi : ?ss !! ?i = Some ?s |- context [<[?i := _]> ?ss] =>
        pose proof (lookup_lt_Some _ _ _ Hi); eapply slots_update; [exact Hs|specialize (Hs i s Hi)|]
    end).
  all: try (intros k x Hx; pose proof (lookup_lt_Some _ _ _ Hx); specialize (Hs k x Hx); by phases).
  all: try by phases.
  all: try (intros k x Hk Hx Hph; pose proof (lookup_lt_Some _ _ _ Hx); by phases).
  - eapply worker_phase; eauto.
  - at_slot Hs. phases.
  - intros k x Hx. apply list_lookup_fmap_Some in Hx as (y & -> & Hy).
    specialize (Hs k y Hy). phases.
  - at_slot Hs. cbn in Hs |- *. rewrite decide_False, decide_True in Hs by lia.
    rewrite decide_True by lia. by apply busy_finished.
  - at_slot Hs. phases.
  - at_slot Hs. phases.
Qed.

Lemma inv_step g g' : inv g -> step exec g g' -> inv g'.
Proof. intros H St. constructor; [by eapply coord_step|by eapply slots_step]. Qed.

Lemma inv_reachable n_helpers g : reachable exec n_helpers g -> inv g.
Proof.
  intros R. pose proof (inv_init n_helpers) as H. unfold reachable in R.
  induction R as [|x y z St _ IH]; [done|]. apply IH. by eapply inv_step.
Qed.

Lemma step_length g g' : step exec g g' -> length (g_slots g') = length (g_slots g).
Proof. destruct 1; cbn; by rewrite ?length_insert, ?length_fmap. Qed.

Lemma reachable_length n_helpers g : reachable exec n_helpers g -> length (g_slots g) = n_helpers.
Proof.
  intros R. unfold reachable in R.
  transitivity (length (g_slots (initial_group n_helpers : group (J := J))));
    [|apply length_replicate].
  induction R as [|x y z St _ IH]; [done|]. rewrite IH. by apply step_length.
Qed.

(** ** Every call makes progress and ends *)

(** Steps a helper has left before it polls an old generation or is gone. *)
Definition remaining s : nat :=
  match s_pc s with
  | W_init => 2
  | W_announce => 1
  | W_poll => if s_gen s =? s_observed s then 0 else 5
  | W_fetch => 4
  | W_exec _ _ => 3
  | W_status _ => 2
  | W_complete => 1
  | W_none | W_exited => 0
  end.

Definition pc_weight (pc : coord_pc (J := J)) (c len : nat) : nat :=
  match pc with
  | C_idle => 0
  | C_create i => 100 * len + 100 + 16 * (len - i)
  | C_started i => len - i + 1
  | C_rearm _ n i => 16 * (n - i) + n + 4
  | C_fill _ n i => 16 * (n - i) + n + 3
  | C_publish _ n i => 16 * (n - i) + n + 2
  | C_run _ n => n + 3
  | C_wait _ n i _ => n - i + 2
  | C_ret _ _ _ => 1
  | D_started i => 17 * c + 6 + (c - i)
  | D_rearm i => 16 * (c - i) + c + 5
  | D_fill i => 16 * (c - i) + c + 4
  | D_publish i => 16 * (c - i) + c + 3
  | D_join i => c - i + 3
  | D_ret => 1
  end.

Fixpoint work (ss : list (slot (J := J))) : nat :=
  match ss with [] => 0 | s :: ss => remaining s + work ss end.
Definition measure g : nat := pc_weight (g_pc g) (g_created g) (length (g_slots g)) + work (g_slots g).

Lemma work_insert ss i s s' :
  ss !! i = Some s -> (work (<[i := s']> ss) + remaining s = work ss + remaining s')%nat.
Proof.
  revert i. induction ss as [|x ss IH]; intros [|i] Hi; try done.
  - injection Hi as ->. cbn. lia.
  - specialize (IH i Hi). change (<[S i := s']> (x :: ss)) with (x :: <[i := s']> ss). cbn [work]. lia.
Qed.

(** In the phases a reachable slot can be in, a helper's step is progress. *)
Lemma worker_remaining ph lane s s' :
  slot_in ph lane s -> worker_step exec lane s = Some s' -> (remaining s' < remaining s)%nat.
Proof.
  intros Hp Hw. pose proof (worker_phase _ _ _ _ Hp Hw) as Hp'.
  destruct s as [next gen task lanes comp status started pc observed runs].
  destruct pc; cbn in Hw; try discriminate Hw.
  - injection Hw as <-. cbn. lia.
  - injection Hw as <-. destruct ph; cbn in Hp; unfold rearmed, settled, polling in Hp;
      cbn in Hp; destruct_and?; destruct_or?; destruct_and?; try discriminate.
    + subst. cbn. rewrite Z.eqb_refl. lia.
    + match goal with A : at_work _ _ _ _ |- _ => destruct A; discriminate end.
  - destruct (Z.eqb_spec gen observed) as [|Hne]; [done|]. injection Hw as <-. cbn.
    apply Z.eqb_neq in Hne. rewrite Hne. lia.
  - destruct task; injection Hw as <-; cbn; lia.
  - injection Hw as <-. cbn. lia.
  - injection Hw as <-. cbn. lia.
  - injection Hw as <-. destruct ph; cbn in Hp; unfold rearmed, settled, polling in Hp;
      cbn in Hp; destruct_and?; destruct_or?; destruct_and?; try discriminate.
    match goal with A : at_work _ _ _ _ |- _ => destruct A; try discriminate end.
    cbn in *. subst. rewrite Z.eqb_refl. lia.
Qed.

Lemma remaining_le s : (remaining s <= 5)%nat.
Proof. unfold remaining. destruct (s_pc s); try lia. case_if; lia. Qed.

Lemma step_decreases g g' :
  inv g -> step exec g g' -> g_pc g <> C_idle -> (measure g' < measure g)%nat.
Proof.
  intros [Hc Hs] St Hpc. unfold measure.
  destruct St; cbn [g_pc g_active g_created g_slots g_runs] in *; try done;
    rewrite ?length_insert;
    try match goal with Hi : ?ss !! ?i = Some ?s |- context [<[?i := ?s']> ?ss] =>
      pose proof (work_insert ss i s s' Hi); pose proof (lookup_lt_Some _ _ _ Hi);
      pose proof (Hs i s Hi) as Hph end;
    try match goal with Hi : _ !! _ = Some _ |- _ => pose proof (lookup_lt_Some _ _ _ Hi) end;
    try match goal with |- context [publish ?s] => pose proof (remaining_le (publish s)) end;
    try match goal with |- context [create ?s] => change (remaining (create s)) with 2%nat in * end;
    try match goal with |- context [unstart ?s] => change (remaining (unstart s)) with (remaining s) in * end;
    try match goal with |- context [rearm ?s] => change (remaining (rearm s)) with (remaining s) in * end;
    try match goal with |- context [fill ?t ?n ?s] => change (remaining (fill t n s)) with (remaining s) in * end;
    try match goal with Hw : worker_step _ _ _ = Some _ |- _ =>
      pose proof (worker_remaining _ _ _ _ Hph Hw) end;
    cbn [pc_weight coord_ok] in *; unfold running in *; lia.
Qed.

(** A helper that has been given work and has not announced its completion
    can move. *)
Lemma busy_moves j n lane s :
  slot_in (Ph_busy j n) lane s -> s_comp s = s_next s \/ is_Some (worker_step exec lane s).
Proof.
  destruct s as [next gen task lanes comp status started pc observed runs].
  intros ((? & Hn) & _ & Ht & _ & A). cbn in *. subst.
  destruct A; cbn in *; subst; try (right; by eexists); [|by left].
  right. destruct (Z.eqb_spec gen observed); [congruence|by eexists].
Qed.
Lemma starting_moves lane s :
  slot_in Ph_starting lane s -> s_started s = true \/ is_Some (worker_step exec lane s).
Proof.
  destruct s as [next gen task lanes comp status started pc observed runs].
  intros [_ [[? _]|[(? & _)|(_ & ? & _)]]]; cbn in *; subst; [right; by eexists..|by left].
Qed.
Lemma stopping_moves lane s :
  slot_in Ph_stopping lane s -> s_pc s = W_exited \/ is_Some (worker_step exec lane s).
Proof.
  destruct s as [next gen task lanes comp status started pc observed runs].
  intros (_ & ? & [[? Hne]|[?|?]]); cbn in *; subst; [|right; by eexists|by left].
  right. destruct (Z.eqb_spec gen observed); [congruence|by eexists].
Qed.

(** A worker's step is a step of the group. *)
Lemma worker_moves g i s :
  g_slots g !! i = Some s -> is_Some (worker_step exec (lane_of i) s) -> exists g', step exec g g'.
Proof. destruct g. intros Hi [s' Hw]. eexists. by eapply step_worker. Qed.

Lemma slot_exists (ss : list (slot (J := J))) i : (i < length ss)%nat -> exists s, ss !! i = Some s.
Proof. apply lookup_lt_is_Some_2. Qed.

Ltac next_slot Hs i :=
  match goal with |- context [mk_group _ _ _ ?ss _] =>
    let s := fresh "s" in let Hi := fresh "Hi" in
    destruct (slot_exists ss i ltac:(lia)) as [s Hi]; pose proof (Hs i s Hi) as Hph end.

Lemma progress g : inv g -> g_pc g <> C_idle -> exists g', step exec g g'.
Proof.
  destruct g as [pc a c ss rs]. intros [Hc Hs] Hpc. cbn in Hc, Hs, Hpc.
  destruct pc; cbn [coord_ok] in Hc; unfold running in Hc; try done; destruct_and?; subst.
  - destruct (decide (i = length ss)) as [->|]; [eexists; by apply step_create_done|].
    next_slot Hs i. eexists. by eapply step_create.
  - destruct (decide (i = length ss)) as [->|]; [eexists; by apply step_started_done|].
    next_slot Hs i. cbn in Hph. rewrite decide_False in Hph by lia.
    destruct (starting_moves _ _ Hph); [eexists; by eapply step_started|by eapply worker_moves].
  - destruct (decide (i + 1 < n)%nat); [|eexists; apply step_publish_done; lia].
    next_slot Hs i. eexists. by eapply step_rearm.
  - next_slot Hs i. eexists. by eapply step_fill.
  - next_slot Hs i. eexists. by eapply step_publish.
  - eexists. apply step_run.
  - destruct (decide (i + 1 < n)%nat); [|eexists; apply step_wait_done; lia].
    next_slot Hs i. cbn in Hph. rewrite decide_False, decide_True in Hph by lia.
    destruct (busy_moves _ _ _ _ Hph); [eexists; by eapply step_wait|by eapply worker_moves].
  - eexists. apply step_ret.
  - destruct (decide (i = c)) as [->|]; [eexists; by apply step_stop_started_done|].
    next_slot Hs i. cbn in Hph. rewrite decide_False, decide_True in Hph by lia.
    destruct (starting_moves _ _ Hph); [eexists; eapply step_stop_started; eauto; lia|by eapply worker_moves].
  - destruct (decide (i = c)) as [->|]; [eexists; by apply step_stop_published|].
    next_slot Hs i. eexists. eapply step_stop_rearm; eauto. lia.
  - next_slot Hs i. eexists. by eapply step_stop_fill.
  - next_slot Hs i. eexists. by eapply step_stop_publish.
  - destruct (decide (i = c)) as [->|]; [eexists; by apply step_join_done|].
    next_slot Hs i. cbn in Hph. rewrite decide_False, decide_True in Hph by lia.
    destruct (stopping_moves _ _ Hph); [eexists; eapply step_join; eauto; lia|by eapply worker_moves].
  - eexists. apply step_stop_ret.
Qed.

(** ** What a finished run did *)

Lemma runs_in_order (j : J) (n : nat) ss k :
  (forall i s, ss !! i = Some s ->
     s_runs s = if decide (i + k + 1 < n)%nat then [(j, lane_of (i + k), Z.of_nat n)] else []) ->
  concat (map s_runs ss)
  = map (fun i => (j, lane_of i, Z.of_nat n)) (seq k (Nat.min (length ss) (n - 1 - k))).
Proof.
  revert k. induction ss as [|s ss IH]; intros k H; [done|]. cbn [map concat length].
  rewrite (IH (S k)).
  2: { intros i x Hx. specialize (H (S i) x Hx). by replace (i + S k)%nat with (S i + k)%nat by lia. }
  rewrite (H 0%nat s eq_refl). cbn [Nat.add]. case_decide.
  - replace (Nat.min (S (length ss)) (n - 1 - k)) with (S (Nat.min (length ss) (n - 1 - S k))) by lia.
    done.
  - replace (n - 1 - k)%nat with 0%nat by lia. replace (n - 1 - S k)%nat with 0%nat by lia.
    by rewrite !Nat.min_0_r.
Qed.

(** The calls of the task function in a run, the coordinator's first. *)
Definition calls g : list (J * Z * Z) := g_runs g ++ concat (map s_runs (g_slots g)).

Lemma ret_calls g j n r :
  inv g -> g_pc g = C_ret j n r ->
  calls g = map (fun i => (j, Z.of_nat i, Z.of_nat n)) (seq 0 n).
Proof.
  intros [Hc Hs] E. rewrite E in Hc, Hs. destruct Hc as ((_ & _ & Hn & _) & Hr & _).
  unfold calls. rewrite Hr, (runs_in_order j n _ 0).
  - replace (Nat.min (length (g_slots g)) (n - 1 - 0)) with (n - 1)%nat by lia.
    destruct n as [|n]; [lia|]. replace (S n - 1)%nat with n by lia.
    change (seq 0 (S n)) with (0%nat :: seq 1 n). rewrite <- (seq_shift n 0).
    cbn [map app]. f_equal. rewrite map_map. apply map_ext. intros i. unfold lane_of.
    by replace (Z.of_nat i + 1) with (Z.of_nat (S i)) by lia.
  - intros i s Hi. specialize (Hs i s Hi). cbn in Hs. rewrite Nat.add_0_r. case_decide.
    + apply Hs.
    + by apply Hs.
Qed.

Lemma ret_quiet g j n r i s :
  inv g -> g_pc g = C_ret j n r -> g_slots g !! i = Some s ->
  s_pc s = W_poll /\ worker_step exec (lane_of i) s = None.
Proof.
  intros [_ Hs] E Hi. specialize (Hs i s Hi). rewrite E in Hs. cbn in Hs.
  destruct s as [next gen task lanes comp status started pc observed runs].
  case_decide; destruct Hs as (_ & (Hp & _ & Ho) & _); cbn in *; subst; by rewrite Z.eqb_refl.
Qed.

(** The first status that is not zero, or zero. *)
Fixpoint first_failure (l : list Z) : Z :=
  match l with [] => 0 | x :: l => if x =? 0 then first_failure l else x end.

Lemma first_failure_snoc l x : first_failure (l ++ [x]) = merge_status (first_failure l) x.
Proof.
  unfold merge_status. induction l as [|y l IH]; cbn.
  - destruct (Z.eqb_spec x 0); cbn; done || lia.
  - destruct (Z.eqb_spec y 0) as [|Hy]; [done|]. by rewrite (proj2 (Z.eqb_neq y 0) Hy).
Qed.

Lemma status_upto_first j n k :
  status_upto j n k = first_failure (map (fun i => exec j (Z.of_nat i) n) (seq 0 (S k))).
Proof.
  induction k as [|k IH].
  - cbn. change (Z.of_nat 0) with 0. destruct (Z.eqb_spec (exec j 0 n) 0); congruence.
  - cbn [status_upto]. rewrite IH, (seq_S (S k)), map_app.
    change (map ?f [?x]) with [f x]. rewrite first_failure_snoc. cbn [Nat.add].
    by replace (lane_of k) with (Z.of_nat (S k)) by (unfold lane_of; lia).
Qed.

(** A step taken while a call of the API is in progress. *)
Definition busy_step g g' : Prop := step exec g g' /\ g_pc g <> C_idle.

Lemma busy_steps_bounded k g g' : inv g -> nsteps busy_step k g g' -> (k + measure g' <= measure g)%nat.
Proof.
  intros Hi N. induction N as [|k x y z [St Hpc] _ IH]; [lia|].
  pose proof (step_decreases _ _ Hi St Hpc). pose proof (IH (inv_step _ _ Hi St)). lia.
Qed.
End Proofs.

(** ** Properties *)

(** A job that returns 7 on lane 1 and succeeds elsewhere. *)
Definition sample_exec (j : unit) (lane n : Z) : Z := if lane =? 1 then 7 else 0.

(** The states of a group with one helper on the way to the end of its first
    run. *)
Lemma sample_run_reachable : exists g, reachable sample_exec 1 g /\ g_pc g = C_ret tt 2 7.
Proof.
  eexists. split.
  - unfold reachable, initial_group. cbn.
    eapply rtc_l; [apply step_activate|].
    eapply rtc_l; [by eapply (step_create _ _ _ [_] _ 0)|]. cbn.
    eapply rtc_l; [apply (step_create_done _ _ _ [_])|].
    eapply rtc_l; [by eapply (step_worker _ _ _ _ [_] _ 0)|]. cbn.
    eapply rtc_l; [by eapply (step_worker _ _ _ _ [_] _ 0)|]. cbn.
    eapply rtc_l; [by eapply (step_started _ _ _ [_] _ 0)|].
    eapply rtc_l; [apply (step_started_done _ _ _ [_])|].
    eapply rtc_l; [apply (step_run_begin _ _ [_] _ tt 2); cbn; lia|]. cbn.
    eapply rtc_l; [eapply (step_rearm _ _ _ [_] _ tt 2 0); [lia|done]|]. cbn.
    eapply rtc_l; [by eapply (step_fill _ _ _ [_] _ tt 2 0)|]. cbn.
    eapply rtc_l; [by eapply (step_publish _ _ _ [_] _ tt 2 0)|]. cbn.
    eapply rtc_l; [by eapply (step_worker _ _ _ _ [_] _ 0)|]. cbn.
    eapply rtc_l; [apply step_publish_done; lia|].
    eapply rtc_l; [apply step_run|].
    do 4 (eapply rtc_l; [by eapply (step_worker _ _ _ _ [_] _ 0)|]; cbn).
    eapply rtc_l; [by eapply (step_wait _ _ _ [_] _ tt 2 0); [lia|..]|].
    eapply rtc_l; [apply step_wait_done; lia|]. apply rtc_refl.
  - reflexivity.
Qed.

(** C6: when [run_task] returns, the task function has been called exactly
    once for each lane, all helpers are polling again with nothing left to do,
    and the result is the first status that is not zero, in the order of the
    lanes.  This holds for every interleaving and also when the 32-bit
    generation counters wrap. *)
Theorem run_task_synchronous {J} (exec : J -> Z -> Z -> Z) (n_helpers : nat) (g : group) (j : J) (n : nat)
    (r : Z) :
  reachable exec n_helpers g -> g_pc g = C_ret j n r ->
  calls g = map (fun i => (j, Z.of_nat i, Z.of_nat n)) (seq 0 n) /\
  (forall i s, g_slots g !! i = Some s -> s_pc s = W_poll /\ worker_step exec (lane_of i) s = None) /\
  r = first_failure (map (fun i => exec j (Z.of_nat i) (Z.of_nat n)) (seq 0 n)).
Proof.
  intros R E. pose proof (inv_reachable _ _ _ R) as H. split_and!.
  - by eapply ret_calls.
  - intros i s Hi. by eapply ret_quiet.
  - destruct H as [Hc _]. rewrite E in Hc. destruct Hc as ((_ & _ & ? & _) & _ & ->).
    rewrite status_upto_first. by replace (S (n - 1)) with n by lia.
Qed.

Lemma run_task_synchronous_witness :
  exists g, calls g = [(tt, 0, 2); (tt, 1, 2)] /\ g_pc g = C_ret tt 2 7 /\
  (forall i s, g_slots g !! i = Some s -> s_pc s = W_poll /\ worker_step sample_exec (lane_of i) s = None).
Proof.
  destruct sample_run_reachable as (g & R & E).
  destruct (run_task_synchronous sample_exec 1 g tt 2 7 R E) as (H1 & H2 & _).
  exists g. split; [exact H1|]. split; [exact E|exact H2].
Defined.

(** C25: activation, a run and deactivation always come to their end: in every
    reachable state inside such a call some thread can move, and no more than
    [measure] steps are left, whatever the scheduler does. *)
Theorem group_calls_terminate {J} (exec : J -> Z -> Z -> Z) (n_helpers : nat) (g : group) :
  reachable exec n_helpers g -> g_pc g <> C_idle ->
  (exists g', step exec g g') /\
  (forall k g', nsteps (busy_step exec) k g g' -> (k <= measure g)%nat).
Proof.
  intros R Hpc. pose proof (inv_reachable _ _ _ R) as H. split; [by apply progress|].
  intros k g' N. pose proof (busy_steps_bounded _ _ _ _ H N). lia.
Qed.

Lemma group_calls_terminate_witness :
  let g := mk_group (C_create 0) false 0 [new_slot] [] in
  exists g', step sample_exec g g'.
Proof.
  apply (group_calls_terminate sample_exec 1 (mk_group (C_create 0) false 0 [new_slot] [])).
  - eapply rtc_l; [apply step_activate|apply rtc_refl].
  - discriminate.
Defined.

(** When [stop_created_workers] returns, at deactivation or after a failed
    activation, every helper thread has left [worker_main]: no thread can
    access the slots any more. *)
Theorem stop_leaves_no_thread {J} (exec : J -> Z -> Z -> Z) (n_helpers : nat) (g : group) (i : nat)
    (s : slot) :
  reachable exec n_helpers g -> g_pc g = D_ret -> g_slots g !! i = Some s ->
  (s_pc s = W_none \/ s_pc s = W_exited) /\ worker_step exec (lane_of i) s = None /\
  g_active g = false /\ g_created g = 0%nat.
Proof.
  intros R E Hi. destruct (inv_reachable _ _ _ R) as [Hc Hs]. specialize (Hs i s Hi).
  rewrite E in Hc, Hs. destruct Hs as [_ Hp]. destruct Hc as [? ?]. split_and!; [done| |done|done].
  destruct s. cbn in *. by destruct Hp as [-> | ->].
Qed.

Lemma sample_stop_reachable : exists g s, reachable sample_exec 1 g /\ g_pc g = D_ret /\ g_slots g !! 0%nat = Some s.
Proof.
  exists (mk_group D_ret false 0 [new_slot] []), new_slot. split; [|by split].
  unfold reachable, initial_group. cbn.
  eapply rtc_l; [apply step_activate|].
  eapply rtc_l; [by eapply (step_create_fails _ _ _ [_] _ 0)|].
  eapply rtc_l; [apply step_stop_started_done|].
  eapply rtc_l; [apply step_stop_published|].
  eapply rtc_l; [apply step_join_done|]. apply rtc_refl.
Qed.

Lemma stop_leaves_no_thread_witness :
  exists g s, g_pc g = D_ret /\ g_slots g !! 0%nat = Some s /\
              worker_step sample_exec (lane_of 0) s = None.
Proof.
  destruct sample_stop_reachable as (g & s & R & E & Hs).
  destruct (stop_leaves_no_thread sample_exec 1 g 0 s R E Hs) as (_ & H & _).
  exists g, s. split; [exact E|]. split; [exact Hs|exact H].
Defined.

(** A lanes task is started exactly when the group is active and idle and
    the task is well formed; otherwise it is rejected with [-EINVAL] before
    any helper is involved.  A run started this way has every requested lane
    available. *)
Theorem run_lanes_admission {J} (exec : J -> Z -> Z -> Z) (a : bool) (c : nat) (ss : list slot)
    (rs : list (J * Z * Z)) (t : lanes_task (J := J)) :
  let g := mk_group C_idle a c ss rs in
  match spa_fgn_worker_group_run_lanes g t with
  | Ret n => exists j, l_run t = Some j /\ n = l_n_lanes t /\
               exists g', step exec g g' /\ g_pc g' = C_rearm j n 0
  | Err e => e = EINVAL /\
      (a = false \/ l_struct_size t < sizeof_lanes_task \/ l_flags t <> 0 \/ l_run t = None \/
       l_n_lanes t = 0%nat \/ (length ss + 1 < l_n_lanes t)%nat \/ l_reserved t <> 0)
  | Fault => False
  end.
Proof.
  cbn zeta. unfold spa_fgn_worker_group_run_lanes, run_task_check. cbn [g_active g_slots negb orb].
  destruct a; cbn [negb orb]; [|by auto].
  destruct (Z.ltb_spec (l_struct_size t) sizeof_lanes_task); cbn [orb]; [by auto|].
  destruct (Z.eqb_spec (l_flags t) 0); cbn [negb orb]; [|by auto].
  destruct (l_run t) as [j|] eqn:Ej; cbn [orb]; [|by auto 6].
  destruct (Nat.eqb_spec (l_n_lanes t) 0); cbn [orb]; [by auto 8|].
  destruct (Nat.ltb_spec (length ss + 1) (l_n_lanes t)); cbn [orb]; [by auto 8|].
  destruct (Z.eqb_spec (l_reserved t) 0); cbn [negb]; [|by auto 9].
  exists j. split; [done|]. split; [done|]. eexists. split; [apply (step_run_begin exec c ss rs j (l_n_lanes t)); lia|done].
Qed.
