(* ===== verification/PodIter.v ===== *)
(** * Iterating over pods in memory

    Models [spa/include/spa/pod/iter.h]: the bounds tests and steps of the
    iterators, the [FOREACH] loops, the accessors that take a pointer to a
    whole pod, the lookup of a property and the fixation of an object.
    Pointers are offsets into one region whose base is 8-byte aligned.  A loop
    that runs out of fuel is a [Fault], so a result without one is also a
    proof that the loop ends. *)
From S2P Require Import Prelude Bytes PodBody.

(** ** Bounds ([spa/utils/defs.h]) *)

(** [spa_ptrinside]: what remains of the region behind the element. *)
Definition spa_ptrinside (p1 s1 p2 s2 : Z) : option Z :=
  if (p1 <=? p2) && (s2 <=? s1) && (p2 - p1 <=? s1 - s2)
  then Some ((p1 + s1) - (p2 + s2)) else None.
Definition spa_ptr_inside_and_aligned (p1 s1 p2 s2 align : Z) : option Z :=
  if p2 mod align =? 0 then spa_ptrinside p1 s1 p2 s2 else None.

(** ** Steps of the iterators *)

Definition spa_pod_is_inside (m : mem) (pod size iter : Z) : outcome bool :=
  match spa_ptr_inside_and_aligned pod size iter 8 4 with
  | Some remaining => let! s := load_u32 m iter in Ret (s <=? remaining)
  | None => Ret false
  end.
Definition spa_pod_next (m : mem) (iter : Z) : outcome Z :=
  let! s := load_u32 m iter in Ret (iter + round_up_n 64 (8 + s) 8).

Definition spa_pod_prop_first (body : Z) : Z := body + 8.
Definition spa_pod_prop_is_inside (m : mem) (body size iter : Z) : outcome bool :=
  match spa_ptr_inside_and_aligned body size iter 16 4 with
  | Some remaining => let! s := load_u32 m (iter + 8) in Ret (s <=? remaining)
  | None => Ret false
  end.
Definition spa_pod_prop_next (m : mem) (iter : Z) : outcome Z :=
  let! s := load_u32 m (iter + 8) in Ret (iter + round_up_n 64 (16 + s) 8).

Definition spa_pod_control_first (body : Z) : Z := body + 8.
Definition spa_pod_control_is_inside (m : mem) (body size iter : Z) : outcome bool :=
  match spa_ptr_inside_and_aligned body size iter 16 4 with
  | Some remaining => let! s := load_u32 m (iter + 8) in Ret (s <=? remaining)
  | None => Ret false
  end.
Definition spa_pod_control_next (m : mem) (iter : Z) : outcome Z :=
  let! s := load_u32 m (iter + 8) in Ret (iter + round_up_n 64 (16 + s) 8).

(** ** Loops *)

(** [for (iter = first; inside(iter); iter = next(iter)) body].  The body may
    write to the region and may leave the loop with a result. *)
Section Foreach.
Context {A : Type} (inside : mem -> Z -> outcome bool) (next : mem -> Z -> outcome Z)
        (body : Z -> mem -> outcome (option A * mem)).
Fixpoint foreach (fuel : nat) (iter : Z) (m : mem) : outcome (option A * mem) :=
  match fuel with
  | O => Fault
  | S fuel =>
      let! i := inside m iter in
      if i then
        let! rm := body iter m in
        match rm.1 with
        | Some _ => Ret rm
        | None => let! it := next rm.2 iter in foreach fuel it rm.2
        end
      else Ret (None, m)
  end.
End Foreach.

(** Elements are at least one byte apart, so one round per byte is enough. *)
Definition loop_fuel (size : Z) : nat := S (S (Z.to_nat size)).

Definition array_inside (body size : Z) (m : mem) (iter : Z) : outcome bool :=
  let! cs := load_u32 m body in
  Ret ((0 <? cs) && match spa_ptrinside body size iter cs with Some _ => true | None => false end).
Definition SPA_POD_ARRAY_BODY_FOREACH {A} (body size : Z) (f : Z -> mem -> outcome (option A * mem))
  : mem -> outcome (option A * mem) :=
  foreach (array_inside body size) (fun m iter => let! cs := load_u32 m body in Ret (iter + cs)) f
          (loop_fuel size) (body + 8).

Definition choice_inside (body size : Z) (m : mem) (iter : Z) : outcome bool :=
  let! cs := load_u32 m (body + 8) in
  Ret ((0 <? cs) && match spa_ptrinside body size iter cs with Some _ => true | None => false end).
Definition SPA_POD_CHOICE_BODY_FOREACH {A} (body size : Z) (f : Z -> mem -> outcome (option A * mem))
  : mem -> outcome (option A * mem) :=
  foreach (choice_inside body size) (fun m iter => let! cs := load_u32 m (body + 8) in Ret (iter + cs)) f
          (loop_fuel size) (body + 16).

Definition SPA_POD_FOREACH {A} (pod size : Z) (f : Z -> mem -> outcome (option A * mem))
  : mem -> outcome (option A * mem) :=
  foreach (fun m => spa_pod_is_inside m pod size) spa_pod_next f (loop_fuel size) pod.

Definition SPA_POD_OBJECT_BODY_FOREACH {A} (body size : Z) (f : Z -> mem -> outcome (option A * mem))
  : mem -> outcome (option A * mem) :=
  foreach (fun m => spa_pod_prop_is_inside m body size) spa_pod_prop_next f
          (loop_fuel size) (spa_pod_prop_first body).

Definition SPA_POD_SEQUENCE_BODY_FOREACH {A} (body size : Z) (f : Z -> mem -> outcome (option A * mem))
  : mem -> outcome (option A * mem) :=
  foreach (fun m => spa_pod_control_is_inside m body size) spa_pod_control_next f
          (loop_fuel size) (spa_pod_control_first body).

(** The loops over a whole pod take the size from its header. *)
Definition SPA_POD_OBJECT_FOREACH {A} (obj : Z) (f : Z -> mem -> outcome (option A * mem)) (m : mem)
  : outcome (option A * mem) :=
  let! size := load_u32 m obj in SPA_POD_OBJECT_BODY_FOREACH (obj + 8) size f m.

(** ** Accessors on a pointer to a pod *)

Definition with_pod {A} (f : spa_pod -> mem -> Z -> outcome A) (m : mem) (pod : Z) : outcome A :=
  let! p := load_pod m pod in f p m (pod + 8).

Definition spa_pod_from_data (m : mem) (data maxsize offset size : Z) : outcome (option Z) :=
  match spa_pod_body_from_data m data maxsize offset size with
  | Ret _ => Ret (Some (data + offset))
  | Err _ => Ret None
  | Fault => Fault
  end.

Definition spa_pod_get_bool := with_pod spa_pod_body_get_bool.
Definition spa_pod_get_id := with_pod spa_pod_body_get_id.
Definition spa_pod_get_int := with_pod spa_pod_body_get_int.
Definition spa_pod_get_long := with_pod spa_pod_body_get_long.
Definition spa_pod_get_float := with_pod spa_pod_body_get_float.
Definition spa_pod_get_double := with_pod spa_pod_body_get_double.
Definition spa_pod_get_string := with_pod spa_pod_body_get_string.
Definition spa_pod_copy_string (m : mem) (pod maxlen : Z) (dest : mem) :=
  with_pod (fun p m b => spa_pod_body_copy_string p m b dest maxlen) m pod.
Definition spa_pod_get_bytes := with_pod spa_pod_body_get_bytes.
Definition spa_pod_get_pointer := with_pod spa_pod_body_get_pointer.
Definition spa_pod_get_fd := with_pod spa_pod_body_get_fd.
Definition spa_pod_get_rectangle := with_pod spa_pod_body_get_rectangle.
Definition spa_pod_get_fraction := with_pod spa_pod_body_get_fraction.
Definition spa_pod_get_array_full := with_pod spa_pod_body_get_array_values.
Definition spa_pod_get_array (m : mem) (pod : Z) : outcome (option (Z * Z)) :=
  let! v := spa_pod_get_array_full m pod in
  Ret (match v with Some (vals, (n_values, _, _)) => Some (vals, n_values) | None => None end).
Definition spa_pod_copy_array_full (m : mem) (pod type size max_values : Z) : outcome (Z * list byte) :=
  with_pod (fun p m b => spa_pod_body_copy_array p m b type size max_values) m pod.

(** A choice in memory. *)
Definition load_choice (m : mem) (pod : Z) : outcome spa_pod_choice :=
  let! p := load_pod m pod in
  let! type := load_u32 m (pod + 8) in
  let! flags := load_u32 m (pod + 12) in
  let! child := load_pod m (pod + 16) in
  Ret (mk_choice p type flags child).

(** The pointer to the values' header, their number and the kind of choice. *)
Definition spa_pod_get_values (m : mem) (pod : Z) : outcome (Z * Z * Z) :=
  let! p := load_pod m pod in
  if spa_pod_is_choice p then
    let! c := load_choice m pod in
    let '(n_vals, choice, _, _) := spa_pod_choice_body_get_values c in
    Ret (pod + 16, n_vals, choice)
  else Ret (pod, (if pod_size p <? spa_pod_type_size (pod_type p) then 0 else 1), SPA_CHOICE_None).

(** The pointer is not NULL. *)
Definition spa_pod_is_object_type (m : mem) (pod type : Z) : outcome bool :=
  let! p := load_pod m pod in
  if spa_pod_is_object p then let! t := load_u32 m (pod + 8) in Ret (t =? type) else Ret false.
Definition spa_pod_is_object_id (m : mem) (pod id : Z) : outcome bool :=
  let! p := load_pod m pod in
  if spa_pod_is_object p then let! i := load_u32 m (pod + 12) in Ret (i =? id) else Ret false.

(** ** Properties of an object *)

Definition match_key (key iter : Z) (m : mem) : outcome (option Z * mem) :=
  let! k := load_u32 m iter in Ret (if k =? key then Some iter else None, m).

(** The second loop of the lookup: from the first property up to [start],
    without a bounds test. *)
Definition not_at (start : Z) (m : mem) (iter : Z) : outcome bool := Ret (negb (iter =? start)).

Definition spa_pod_object_find_prop (m : mem) (pod : Z) (start : option Z) (key : Z)
  : outcome (option Z) :=
  let first := spa_pod_prop_first (pod + 8) in
  let! start := match start with Some s => spa_pod_prop_next m s | None => Ret first end in
  let! size := load_u32 m pod in
  let! r := foreach (fun m => spa_pod_prop_is_inside m (pod + 8) size) spa_pod_prop_next
                    (match_key key) (loop_fuel size) start m in
  match r.1 with
  | Some res => Ret (Some res)
  | None =>
      let! r := foreach (not_at start) spa_pod_prop_next (match_key key) (loop_fuel size) first m in
      Ret r.1
  end.

Definition spa_pod_find_prop (m : mem) (pod : Z) (start : option Z) (key : Z) : outcome (option Z) :=
  let! p := load_pod m pod in
  if negb (spa_pod_is_object p) then Ret None else spa_pod_object_find_prop m pod start key.

Definition spa_pod_object_has_props (m : mem) (pod : Z) : outcome Z :=
  let! r := SPA_POD_OBJECT_FOREACH pod (fun _ m => Ret (Some tt, m)) m in
  Ret (match r.1 with Some _ => 1 | None => 0 end).

(** The body of the loop of [spa_pod_object_fixate]. *)
Definition fixate_prop (iter : Z) (m : mem) : outcome (option unit * mem) :=
  let! value := load_pod m (iter + 8) in
  if spa_pod_is_choice value then
    let! flags := load_u32 m (iter + 4) in
    if negb (flag_is_set flags SPA_POD_PROP_FLAG_DONT_FIXATE) then
      let! m := store m (iter + 16) (le32 SPA_CHOICE_None) in Ret (None, m)
    else Ret (None, m)
  else Ret (None, m).

Definition spa_pod_object_fixate (m : mem) (pod : Z) : outcome (Z * mem) :=
  let! r := SPA_POD_OBJECT_FOREACH pod fixate_prop m in Ret (0, r.2).

(** The body of the loop of [spa_pod_object_is_fixated]: leaves with 0. *)
Definition open_choice (iter : Z) (m : mem) : outcome (option unit * mem) :=
  let! value := load_pod m (iter + 8) in
  if spa_pod_is_choice value then
    let! type := load_u32 m (iter + 16) in
    Ret (if negb (type =? SPA_CHOICE_None) then Some tt else None, m)
  else Ret (None, m).

Definition spa_pod_object_is_fixated (m : mem) (pod : Z) : outcome Z :=
  let! r := SPA_POD_OBJECT_FOREACH pod open_choice m in
  Ret (match r.1 with Some _ => 0 | None => 1 end).

Definition spa_pod_fixate (m : mem) (pod : Z) : outcome (Z * mem) :=
  let! p := load_pod m pod in
  if negb (spa_pod_is_object p) then Ret (- EINVAL, m) else spa_pod_object_fixate m pod.

Definition spa_pod_is_fixated (m : mem) (pod : Z) : outcome Z :=
  let! p := load_pod m pod in
  if negb (spa_pod_is_object p) then Ret (- EINVAL) else spa_pod_object_is_fixated m pod.
