(* ===== verification/PodIterProofs.v ===== *)
(** * Iteration stays inside the pod, ends, and fixation fixates

    The loops of [iter.h] run on bytes of unknown origin: they terminate and
    hand only elements that lie inside the region to the loop body.  Fixation
    closes every choice it may close.  On an object the builder wrote, the
    lookup finds the property and fixation yields the encoding of the fixated
    object. *)
From S2P Require Import Prelude Bytes PodBody PodBuilder PodSpec PodParser PodSafety PodRoundTrip PodLookup PodIter.

(** ** Loops *)

(** The loop body succeeds on the elements it is given and keeps the invariant
    [I] of the memory. *)
Definition body_safe {A} (I : mem -> Prop) (ok : mem -> Z -> Prop)
    (f : Z -> mem -> outcome (option A * mem)) : Prop :=
  forall m it, I m -> ok m it -> exists r m', f it m = Ret (r, m') /\ I m'.

Section Loop.
Context {A : Type} (inside : mem -> Z -> outcome bool) (next : mem -> Z -> outcome Z)
        (f : Z -> mem -> outcome (option A * mem)) (I : mem -> Prop) (ok : mem -> Z -> Prop) (lo hi : Z).
Hypothesis inside_ok : forall m it, I m -> lo <= it ->
  exists b, inside m it = Ret b /\ (b = true -> it < hi /\ ok m it).
Hypothesis next_ok : forall m it m0, I m -> I m0 -> lo <= it < hi -> ok m0 it ->
  exists it', next m it = Ret it' /\ it < it'.
Hypothesis f_ok : body_safe I ok f.

Lemma foreach_ok fuel it m :
  I m -> lo <= it -> hi - it < Z.of_nat fuel -> 0 < Z.of_nat fuel ->
  exists r m', foreach inside next f fuel it m = Ret (r, m') /\ I m'.
Proof.
  revert it m. induction fuel as [|fuel IH]; intros it m Hm Hlo Hfuel Hpos; [lia|].
  cbn [foreach]. destruct (inside_ok m it Hm Hlo) as (b & Ei & Hb). rewrite Ei. cbn [obind].
  destruct b; [|by exists None, m]. destruct (Hb eq_refl) as [Hhi Hok].
  destruct (f_ok m it Hm Hok) as (r & m' & Ef & Hm'). rewrite Ef. cbn [obind fst snd].
  destruct r as [a|]; [by exists (Some a), m'|].
  destruct (next_ok m' it m Hm' Hm ltac:(lia) Hok) as (it' & En & Hlt). rewrite En. cbn [obind].
  apply IH; [done|lia..].
Qed.
End Loop.

Lemma foreach_ext {A} inside inside' next next' (f : Z -> mem -> outcome (option A * mem)) fuel it m :
  (forall m it, inside m it = inside' m it) -> (forall m it, next m it = next' m it) ->
  foreach inside next f fuel it m = foreach inside' next' f fuel it m.
Proof.
  intros Hi Hn. revert it m. induction fuel as [|fuel IH]; intros it m; [done|]. cbn [foreach].
  rewrite Hi. destruct (inside' m it) as [[]| |]; try done. cbn [obind].
  destruct (f it m) as [[[] m']| |]; try done. cbn [obind fst snd]. rewrite Hn.
  by destruct (next' m' it); cbn [obind].
Qed.

(** The number of rounds is bounded by the bytes left. *)
Lemma loop_fuel_enough size lo it : 0 <= size -> lo <= it -> lo + size - it < Z.of_nat (loop_fuel size).
Proof. unfold loop_fuel. lia. Qed.

(** ** Elements inside a region *)

Lemma ptrinside_spec p1 s1 p2 s2 r :
  spa_ptrinside p1 s1 p2 s2 = Some r -> p1 <= p2 /\ r = p1 + s1 - (p2 + s2) /\ 0 <= r.
Proof. unfold spa_ptrinside. case_if; [|done]. intros [= <-]. bool_to_prop. lia. Qed.

Lemma aligned_spec p1 s1 p2 s2 a r :
  spa_ptr_inside_and_aligned p1 s1 p2 s2 a = Some r -> p1 <= p2 /\ r = p1 + s1 - (p2 + s2) /\ 0 <= r.
Proof. unfold spa_ptr_inside_and_aligned. case_if; [|done]. apply ptrinside_spec. Qed.

(** A header of [hdr] bytes with the size of what follows at [szoff] in it. *)
Definition elem_in (hdr szoff base size : Z) (m : mem) (it : Z) : Prop :=
  base <= it /\ exists s, load_u32 m (it + szoff) = Ret s /\ is_u32 s /\ it + hdr + s <= base + size.

Section Sized.
Variables (hdr szoff base size : Z).
Hypothesis hdr_ok : 0 <= szoff /\ szoff + 4 <= hdr <= 16.
Hypothesis base_pos : 0 <= base.

Definition sized_inside (m : mem) (it : Z) : outcome bool :=
  match spa_ptr_inside_and_aligned base size it hdr 4 with
  | Some remaining => let! s := load_u32 m (it + szoff) in Ret (s <=? remaining)
  | None => Ret false
  end.
Definition sized_next (m : mem) (it : Z) : outcome Z :=
  let! s := load_u32 m (it + szoff) in Ret (it + round_up_n 64 (hdr + s) 8).

Lemma sized_inside_ok m it :
  base + size <= zlen m -> exists b, sized_inside m it = Ret b /\
    (b = true -> it < base + size - hdr + 1 /\ elem_in hdr szoff base size m it).
Proof.
  intros Hm. unfold sized_inside.
  destruct (spa_ptr_inside_and_aligned _ _ _ _ _) as [r|] eqn:E; [|by exists false].
  apply aligned_spec in E as (? & ? & ?).
  destruct (load_u32_ok m (it + szoff)) as (s & Es & Hs); [lia|lia|]. rewrite Es. cbn [obind].
  eexists. split; [done|]. intros Hle. apply Z.leb_le in Hle. split; [lia|]. split; [lia|].
  exists s. split; [done|]. split; [done|lia].
Qed.

Lemma sized_next_ok m it :
  base + size <= zlen m -> base <= it < base + size - hdr + 1 ->
  exists s, load_u32 m (it + szoff) = Ret s /\ is_u32 s /\
            sized_next m it = Ret (it + pad8 (hdr + s)).
Proof.
  intros Hm Hit. unfold sized_next.
  destruct (load_u32_ok m (it + szoff)) as (s & Es & Hs); [lia|lia|]. exists s.
  rewrite Es. cbn [obind]. unfold is_u32 in Hs. rewrite round_up_n_8 by lia. done.
Qed.

Lemma sized_foreach {A} (f : Z -> mem -> outcome (option A * mem)) it m :
  base + size <= zlen m -> 0 <= size -> base <= it ->
  body_safe (fun m' => zlen m' = zlen m) (elem_in hdr szoff base size) f ->
  exists r m', foreach sized_inside sized_next f (loop_fuel size) it m = Ret (r, m') /\
               zlen m' = zlen m.
Proof.
  intros Hm Hsz Hit Hf.
  apply (foreach_ok _ _ _ (fun m' => zlen m' = zlen m) (elem_in hdr szoff base size)
           base (base + size - hdr + 1)); try done.
  - intros m' it' Hl _. apply sized_inside_ok. lia.
  - intros m' it' _ Hl _ Hr _. destruct (sized_next_ok m' it') as (s & _ & Hs & E); [lia|lia|].
    eexists. split; [exact E|]. unfold is_u32 in Hs. pose proof (pad8_bounds (hdr + s)). lia.
  - pose proof (loop_fuel_enough size base it Hsz Hit). lia.
Qed.
End Sized.

(** Arrays and choices: the size of an element is read again in every round,
    so the loop body must leave it alone. *)
Definition child_in (child base size : Z) (m : mem) (it : Z) : Prop :=
  base <= it /\ exists cs, load_u32 m child = Ret cs /\ 0 < cs /\ is_u32 cs /\ it + cs <= base + size.

Section Children.
Variables (child base size : Z).
Hypothesis child_ok : 0 <= base <= child.

Definition children_inside (m : mem) (it : Z) : outcome bool :=
  let! cs := load_u32 m child in
  Ret ((0 <? cs) && match spa_ptrinside base size it cs with Some _ => true | None => false end).
Definition children_next (m : mem) (it : Z) : outcome Z :=
  let! cs := load_u32 m child in Ret (it + cs).

Lemma children_inside_ok m it :
  child + 4 <= zlen m -> exists b, children_inside m it = Ret b /\
    (b = true -> it < base + size /\ child_in child base size m it).
Proof.
  intros Hm. unfold children_inside.
  destruct (load_u32_ok m child) as (cs & E & Hcs); [lia|lia|]. rewrite E. cbn [obind].
  eexists. split; [done|]. intros [Hpos Hin]%andb_true_iff. apply Z.ltb_lt in Hpos.
  destruct (spa_ptrinside _ _ _ _) as [r|] eqn:Ep; [|done]. apply ptrinside_spec in Ep.
  split; [lia|]. split; [lia|]. exists cs. repeat split; try done; try lia; apply Hcs.
Qed.

Lemma children_foreach {A} (f : Z -> mem -> outcome (option A * mem)) it m :
  child + 4 <= zlen m -> 0 <= size -> base <= it ->
  body_safe (fun m' => m' = m) (child_in child base size) f ->
  exists r, foreach children_inside children_next f (loop_fuel size) it m = Ret (r, m).
Proof.
  intros Hm Hsz Hit Hf.
  destruct (foreach_ok children_inside children_next f (fun m' => m' = m) (child_in child base size)
              base (base + size)) with (fuel := loop_fuel size) (it := it) (m := m)
    as (r & m' & E & ->); try done.
  - intros m' it' -> _. by apply children_inside_ok.
  - intros m' it' m0 -> -> _ (_ & cs & E & Hpos & _ & _). exists (it' + cs). unfold children_next.
    rewrite E. cbn [obind]. split; [done|lia].
  - pose proof (loop_fuel_enough size base it Hsz Hit). lia.
  - by exists r.
Qed.
End Children.

(** ** Fixation *)

Lemma same_if_pod Q m m' off :
  same_if Q m m' -> (forall i, off <= i < off + 8 -> Q i) -> load_pod m' off = load_pod m off.
Proof.
  intros S H. unfold load_pod. rewrite (same_if_u32 _ _ _ _ S) by (intros; apply H; lia).
  by rewrite (same_if_u32 _ _ _ (off + 4) S) by (intros; apply H; lia).
Qed.

(** A choice that fixation has to leave open. *)
Definition pinned_choice (iter : Z) (m : mem) : outcome (option unit * mem) :=
  let! value := load_pod m (iter + 8) in
  if spa_pod_is_choice value then
    let! flags := load_u32 m (iter + 4) in
    let! type := load_u32 m (iter + 16) in
    Ret (if flag_is_set flags SPA_POD_PROP_FLAG_DONT_FIXATE && negb (type =? SPA_CHOICE_None)
         then Some tt else None, m)
  else Ret (None, m).

Lemma choice_size p : spa_pod_is_choice p = true -> 16 <= pod_size p.
Proof. intros H. apply check_spec in H. lia. Qed.

Section Fixate.
Variables (base size : Z).
Hypothesis base_pos : 0 <= base.
#[local] Notation props f := (foreach (fun m => spa_pod_prop_is_inside m base size) spa_pod_prop_next f).

(** The loop stands on a property with value header [v] and flags [fl]; the
    next one is at [it']. *)
Record at_prop (m : mem) (it : Z) (v : spa_pod) (fl it' : Z) : Prop := {
  ap_inside : spa_pod_prop_is_inside m base size it = Ret true;
  ap_value : load_pod m (it + 8) = Ret v;
  ap_flags : load_u32 m (it + 4) = Ret fl;
  ap_next : spa_pod_prop_next m it = Ret it' }.

Lemma prop_here m it :
  base + size <= zlen m -> base <= it ->
  spa_pod_prop_is_inside m base size it = Ret false \/
  exists v fl, at_prop m it v fl (it + pad8 (16 + pod_size v)) /\
    it + 16 + pod_size v <= base + size /\ 0 <= pod_size v.
Proof.
  intros Hm Hit.
  destruct (sized_inside_ok 16 8 base size ltac:(lia) ltac:(lia) m it Hm) as (b & E & Hb).
  change (sized_inside 16 8 base size m it) with (spa_pod_prop_is_inside m base size it) in E.
  destruct b; [right|by left]. destruct (Hb eq_refl) as [Hlt (_ & s & Es & Hs & Hin)].
  destruct (sized_next_ok 16 8 base size ltac:(lia) ltac:(lia) m it Hm ltac:(lia)) as (s' & Es' & _ & En).
  rewrite Es in Es'. injection Es' as <-.
  destruct (load_u32_ok m (it + 12)) as (t & Et & _); [lia|lia|].
  destruct (load_u32_ok m (it + 4)) as (fl & Efl & _); [lia|lia|].
  exists (mk_pod s t), fl. unfold is_u32 in Hs. cbn [pod_size]. split_and!; [|lia|lia].
  constructor; try done.
  unfold load_pod. rewrite Es. cbn [obind]. replace (it + 8 + 4) with (it + 12) by lia. by rewrite Et.
Qed.

(** Headers that are the same bytes. *)
Lemma same_inside Q m m' it :
  same_if Q m m' -> (forall i, it + 8 <= i < it + 12 -> Q i) ->
  spa_pod_prop_is_inside m' base size it = spa_pod_prop_is_inside m base size it.
Proof.
  intros S H. unfold spa_pod_prop_is_inside.
  by rewrite (same_if_u32 _ _ _ (it + 8) S) by (intros; apply H; lia).
Qed.

Lemma at_prop_same Q m m' it v fl it' :
  same_if Q m m' -> (forall i, it + 4 <= i < it + 16 -> Q i) -> at_prop m it v fl it' -> at_prop m' it v fl it'.
Proof.
  intros S H [Hi Hv Hf Hn]. constructor.
  - by rewrite (same_inside Q m m' it S) by (intros; apply H; lia).
  - by rewrite (same_if_pod _ _ _ _ S) by (intros; apply H; lia).
  - by rewrite (same_if_u32 _ _ _ (it + 4) S) by (intros; apply H; lia).
  - unfold spa_pod_prop_next in *. by rewrite (same_if_u32 _ _ _ (it + 8) S) by (intros; apply H; lia).
Qed.

(** One round of each loop. *)
Lemma fixate_round fuel m it v fl it' :
  at_prop m it v fl it' ->
  props fixate_prop (S fuel) it m =
    if spa_pod_is_choice v && negb (flag_is_set fl SPA_POD_PROP_FLAG_DONT_FIXATE)
    then let! m1 := store m (it + 16) (le32 SPA_CHOICE_None) in
         let! it'' := spa_pod_prop_next m1 it in props fixate_prop fuel it'' m1
    else props fixate_prop fuel it' m.
Proof.
  intros [Hi Hv Hf Hn]. cbn [foreach]. rewrite Hi. cbn [obind]. unfold fixate_prop at 1.
  rewrite Hv. cbn [obind]. destruct (spa_pod_is_choice v); cbn [andb]; [|cbn; by rewrite Hn].
  rewrite Hf. cbn [obind]. destruct (negb _); [|cbn; by rewrite Hn].
  by destruct (store _ _ _).
Qed.

Lemma open_round fuel m it v fl it' ty :
  at_prop m it v fl it' -> (spa_pod_is_choice v = true -> load_u32 m (it + 16) = Ret ty) ->
  props open_choice (S fuel) it m =
    if spa_pod_is_choice v && negb (ty =? SPA_CHOICE_None) then Ret (Some tt, m)
    else props open_choice fuel it' m.
Proof.
  intros [Hi Hv Hf Hn] Ht. cbn [foreach]. rewrite Hi. cbn [obind]. unfold open_choice at 1.
  rewrite Hv. cbn [obind]. destruct (spa_pod_is_choice v); cbn [andb]; [|cbn; by rewrite Hn].
  rewrite Ht by done. cbn [obind]. destruct (negb _); [done|]. cbn. by rewrite Hn.
Qed.

Lemma pinned_round fuel m it v fl it' ty :
  at_prop m it v fl it' -> (spa_pod_is_choice v = true -> load_u32 m (it + 16) = Ret ty) ->
  props pinned_choice (S fuel) it m =
    if spa_pod_is_choice v && (flag_is_set fl SPA_POD_PROP_FLAG_DONT_FIXATE && negb (ty =? SPA_CHOICE_None))
    then Ret (Some tt, m) else props pinned_choice fuel it' m.
Proof.
  intros [Hi Hv Hf Hn] Ht. cbn [foreach]. rewrite Hi. cbn [obind]. unfold pinned_choice at 1.
  rewrite Hv. cbn [obind]. destruct (spa_pod_is_choice v); cbn [andb]; [|cbn; by rewrite Hn].
  rewrite Hf, Ht by done. cbn [obind]. destruct (_ && _); [done|]. cbn. by rewrite Hn.
Qed.

(** What a round of [fixate_prop] leaves behind. *)
Definition fixated_prop (it : Z) (v : spa_pod) (fl : Z) (m m1 : mem) : Prop :=
  if spa_pod_is_choice v && negb (flag_is_set fl SPA_POD_PROP_FLAG_DONT_FIXATE)
  then same_if (fun i => ~ (it + 16 <= i < it + 20)) m m1 /\ holds m1 (it + 16) (le32 SPA_CHOICE_None)
  else m1 = m.

Lemma fixate_round_ok fuel m it v fl it' :
  at_prop m it v fl it' -> 0 <= it -> it + 16 + pod_size v <= zlen m ->
  exists m1, props fixate_prop (S fuel) it m = props fixate_prop fuel it' m1 /\ fixated_prop it v fl m m1.
Proof.
  intros Hat Hit Hin. rewrite (fixate_round _ _ _ _ _ _ Hat). unfold fixated_prop.
  destruct (spa_pod_is_choice v) eqn:Ec; cbn [andb]; [|by exists m].
  pose proof (choice_size v Ec) as Hc. destruct (negb _); [|by exists m].
  destruct (store m (it + 16) (le32 SPA_CHOICE_None)) as [m1| |] eqn:Es.
  2-3: unfold store in Es; rewrite (proj2 (in_bounds_true _ _ _)) in Es by (rewrite zlen_le32; lia); done.
  exists m1. pose proof (same_if_store _ _ _ _ Es) as Hs. rewrite zlen_le32 in Hs.
  assert (at_prop m1 it v fl it') as Hat1 by (eapply at_prop_same; [exact Hs|cbn; intros; lia|done]).
  cbn [obind]. rewrite (ap_next _ _ _ _ _ Hat1). cbn [obind]. split; [done|]. split; [|].
  - eapply same_if_weaken; [|exact Hs]. cbn. intros; lia.
  - by eapply holds_store.
Qed.

Lemma fixated_prop_same it v fl m m1 (Q : Z -> Prop) :
  fixated_prop it v fl m m1 ->
  (spa_pod_is_choice v = true -> forall i, Q i -> ~ (it + 16 <= i < it + 20)) -> same_if Q m m1.
Proof.
  unfold fixated_prop. destruct (spa_pod_is_choice v); cbn [andb]; [|by intros -> _].
  destruct (negb _); [|by intros -> _]. intros [S _] H. eapply same_if_weaken; [|exact S]. by apply H.
Qed.

(** The kind of a choice after its round: open exactly if it was pinned. *)
Lemma fixated_prop_type it v fl m m1 ty :
  fixated_prop it v fl m m1 -> spa_pod_is_choice v = true -> load_u32 m (it + 16) = Ret ty ->
  exists ty1, load_u32 m1 (it + 16) = Ret ty1 /\
    negb (ty1 =? SPA_CHOICE_None) =
    flag_is_set fl SPA_POD_PROP_FLAG_DONT_FIXATE && negb (ty =? SPA_CHOICE_None).
Proof.
  unfold fixated_prop. intros H Hc Ht. rewrite Hc in H. cbn [andb] in H.
  destruct (flag_is_set fl SPA_POD_PROP_FLAG_DONT_FIXATE); cbn [negb andb] in *.
  - subst m1. by exists ty.
  - destruct H as [_ H]. exists SPA_CHOICE_None. split; [by apply holds_u32'|done].
Qed.

(** Fixating from [it] on: nothing before the first value changes, and the
    choices open afterwards are the pinned ones of any memory [m0] that looks
    like [m] from [it] on. *)
Lemma fixate_loop fuel it m m0 :
  base + size <= zlen m -> base <= it -> base + size - it < Z.of_nat fuel -> 0 < Z.of_nat fuel ->
  same_if (fun i => it <= i) m m0 ->
  exists m' r, props fixate_prop fuel it m = Ret (None, m') /\
    same_if (fun i => i < it + 16) m m' /\
    props open_choice fuel it m' = Ret (r, m') /\ props pinned_choice fuel it m0 = Ret (r, m0).
Proof.
  revert it m m0. induction fuel as [|fuel IH]; intros it m m0 Hm Hit Hfuel Hpos S0; [lia|].
  destruct (prop_here m it Hm Hit) as [E|(v & fl & Hat & Hin & Hv)].
  { exists m, None. cbn [foreach]. rewrite (same_inside _ m m0 it S0) by (cbn; intros; lia).
    rewrite E. by repeat split. }
  pose proof (pad8_bounds (16 + pod_size v)) as Hp.
  remember (it + pad8 (16 + pod_size v)) as it' eqn:Hit'.
  assert (at_prop m0 it v fl it') as Hat0 by (eapply at_prop_same; [exact S0|cbn; intros; lia|done]).
  destruct (fixate_round_ok fuel m it v fl it' Hat ltac:(lia) ltac:(lia)) as (m1 & Ef & Hfix).
  assert (spa_pod_is_choice v = true -> it + 32 <= it') as Hc by (intros ?%choice_size; lia).
  destruct (IH it' m1 m0) as (m' & r & H1 & H2 & H3 & H4); try lia.
  { pose proof (fixated_prop_same _ _ _ _ _ (fun _ => False) Hfix ltac:(done)) as [L _].
    unfold zlen in *. lia. }
  { apply (same_if_trans _ m1 m m0).
    - destruct (fixated_prop_same it v fl m m1 (fun i => it' <= i) Hfix) as [L H]; [intros Hch i Hi; specialize (Hc Hch); cbn in Hi; lia|].
      split; [done|]. intros i Hi. by rewrite H.
    - eapply same_if_weaken; [|exact S0]. cbn. intros; lia. }
  assert (same_if (fun i => i < it + 16) m m') as Hsame.
  { apply (same_if_trans _ m m1 m').
    - apply (fixated_prop_same it v fl m m1 _ Hfix). cbn. intros _ i ?. lia.
    - eapply same_if_weaken; [|exact H2]. cbn. intros; lia. }
  assert (at_prop m' it v fl it') as Hat' by (eapply at_prop_same; [exact Hsame|cbn; intros; lia|done]).
  destruct (spa_pod_is_choice v) eqn:Ec.
  - specialize (Hc eq_refl). destruct (load_u32_ok m (it + 16)) as (ty & Ety & _); [lia|lia|].
    destruct (fixated_prop_type _ _ _ _ _ _ Hfix Ec Ety) as (ty1 & Ety1 & Hopen).
    pose proof (same_if_u32 _ _ _ (it + 16) H2 ltac:(cbn; intros; lia)) as Ety'. rewrite Ety1 in Ety'.
    pose proof (same_if_u32 _ _ _ (it + 16) S0 ltac:(cbn; intros; lia)) as Ety0. rewrite Ety in Ety0.
    pose proof (open_round fuel m' it v fl it' ty1 Hat' (fun _ => Ety')) as Eo.
    pose proof (pinned_round fuel m0 it v fl it' ty Hat0 (fun _ => Ety0)) as Ep.
    rewrite Ec in Eo, Ep. cbn [andb] in Eo, Ep. rewrite Hopen in Eo.
    destruct (flag_is_set _ _ && _); [exists m', (Some tt)|exists m', r]; rewrite Ef, Eo, Ep; done.
  - pose proof (open_round fuel m' it v fl it' 0 Hat' ltac:(congruence)) as Eo.
    pose proof (pinned_round fuel m0 it v fl it' 0 Hat0 ltac:(congruence)) as Ep.
    rewrite Ec in Eo, Ep. cbn [andb] in Eo, Ep. exists m', r. by rewrite Ef, Eo, Ep.
Qed.
End Fixate.

(** ** Objects the builder wrote *)

(** The encoded members from [it] to the end of the region. *)
Record at_suffix (base size : Z) (m : mem) (it : Z) (xs : list prop_member) : Prop := {
  as_holds : holds m it (concat (map keyed_enc xs));
  as_end : it + zlen (concat (map keyed_enc xs)) = base + size;
  as_base : 0 <= base <= it;
  as_align : it mod 8 = 0 }.

Section Encoded.
Variables (base size : Z).
#[local] Notation props f := (foreach (fun m => spa_pod_prop_is_inside m base size) spa_pod_prop_next f).

Lemma suffix_nil m it : at_suffix base size m it [] -> spa_pod_prop_is_inside m base size it = Ret false.
Proof.
  intros [_ He Hb _]. cbn in He. rewrite zlen_nil in He. unfold spa_pod_prop_is_inside.
  destruct (spa_ptr_inside_and_aligned _ _ _ _ _) eqn:E; [|done]. apply aligned_spec in E. lia.
Qed.

Lemma suffix_cons m it k f c xs :
  prop_ok (k, f, c) -> at_suffix base size m it ((k, f, c) :: xs) ->
  let v := mk_pod (zlen (pod_body c)) (pod_val_type c) in
  let it' := it + zlen (keyed_enc (k, f, c)) in
  at_prop base size m it v f it' /\ load_u32 m it = Ret k /\ at_suffix base size m it' xs /\
  holds m it (keyed_enc (k, f, c)).
Proof.
  intros (Hk & Hf & Hc) [Hh He Hb Ha]. cbn [map concat] in *. rewrite zlen_app in He.
  pose proof (zlen_nonneg (concat (map keyed_enc xs))) as Hn.
  destruct (keyed_enc_align (k, f, c)) as [Hal Hlen]. cbn [snd] in Hlen.
  pose proof (pad8_bounds (zlen (pod_body c))) as Hp. pose proof (zlen_nonneg (pod_body c)) as Hcn.
  pose proof (holds_app_l _ _ _ _ Hh) as Hx. pose proof (holds_app_r _ _ _ _ Hh) as Hxs.
  assert (is_u32 (zlen (pod_body c))) as Hu by (unfold is_u32; lia).
  pose proof Hx as Hx'. cbn [keyed_enc] in Hx'. unfold enc_keyed, enc_padded in Hx'.
  pose proof (holds_app_l _ _ _ _ Hx') as H1. pose proof (holds_app_r _ _ _ _ Hx') as H2.
  rewrite zlen_le32 in H2. pose proof (holds_app_l _ _ _ _ H2) as H3.
  pose proof (holds_app_l _ _ _ _ (holds_app_r _ _ _ _ H2)) as H4. rewrite zlen_le32 in H4.
  replace (it + 4 + 4) with (it + 8) in H4 by lia.
  pose proof H4 as H5. rewrite enc_pod_eq in H5. apply holds_app_l in H5. cbn [pod_size] in H5.
  pose proof (holds_u32' _ _ _ Hu H5) as Esz.
  cbv zeta. split; [|split; [by apply holds_u32'|split; [|done]]].
  - constructor.
    + unfold spa_pod_prop_is_inside, spa_ptr_inside_and_aligned.
      replace (it mod 4) with 0
        by (rewrite (Z.div_mod it 8), Ha by lia; replace (8 * (it / 8) + 0) with (2 * (it / 8) * 4) by lia;
            by rewrite Z.mod_mul).
      cbn [Z.eqb]. unfold spa_ptrinside.
      rewrite (proj2 (Z.leb_le base it)), (proj2 (Z.leb_le 16 size)),
        (proj2 (Z.leb_le (it - base) (size - 16))) by lia. cbn [andb].
      rewrite Esz. cbn [obind]. f_equal. apply Z.leb_le. lia.
    + apply holds_pod; [done|apply pod_val_type_u32|done].
    + by apply holds_u32'.
    + unfold spa_pod_prop_next. rewrite Esz. cbn [obind]. rewrite round_up_n_8 by lia.
      rewrite (pad8_add_l 16) by done. by rewrite Hlen.
  - constructor; [done|lia|lia|]. by apply mod8_add.
Qed.

Lemma find_first_loop key xs m it fuel :
  Forall prop_ok xs -> at_suffix base size m it xs -> (length xs < fuel)%nat ->
  match first_with key xs with
  | Some x => exists r, props (match_key key) fuel it m = Ret (Some r, m) /\ holds m r (keyed_enc x)
  | None => props (match_key key) fuel it m = Ret (None, m)
  end.
Proof.
  intros F. revert it fuel. induction F as [|[[k f] c] xs Hx _ IH]; intros it [|fuel] Hat Hfuel;
    cbn in Hfuel; try lia; cbn [first_with foreach].
  - by rewrite (suffix_nil _ _ Hat).
  - destruct (suffix_cons m it k f c xs Hx Hat) as (Hp & Ek & Hat' & Hh).
    rewrite (ap_inside _ _ _ _ _ _ _ Hp). cbn [obind]. unfold match_key at 1 3. rewrite Ek. cbn [obind fst snd].
    destruct (k =? key); [by exists it|]. rewrite (ap_next _ _ _ _ _ _ _ Hp). cbn [obind].
    apply IH; [done|lia].
Qed.

(** The second loop, over the members [ys] in front of [start]. *)
Lemma find_prefix_loop key ys xs m it start fuel :
  Forall prop_ok ys -> at_suffix base size m it (ys ++ xs) ->
  start = it + zlen (concat (map keyed_enc ys)) -> (length ys < fuel)%nat ->
  match first_with key ys with
  | Some x => exists r, foreach (not_at start) spa_pod_prop_next (match_key key) fuel it m = Ret (Some r, m) /\
                        holds m r (keyed_enc x)
  | None => foreach (not_at start) spa_pod_prop_next (match_key key) fuel it m = Ret (None, m)
  end.
Proof.
  intros F. revert it fuel. induction F as [|[[k f] c] ys Hx _ IH]; intros it [|fuel] Hat Hst Hfuel;
    cbn in Hfuel; try lia; cbn [first_with foreach map concat app] in *.
  - rewrite zlen_nil in Hst. unfold not_at at 1. rewrite (proj2 (Z.eqb_eq it start)) by lia. done.
  - destruct (suffix_cons m it k f c (ys ++ xs) Hx Hat) as (Hp & Ek & Hat' & Hh).
    destruct (keyed_enc_align (k, f, c)) as [_ Hlen]. pose proof (pad8_bounds (zlen (pod_body (k, f, c).2))).
    pose proof (zlen_nonneg (pod_body (k, f, c).2)). pose proof (zlen_nonneg (concat (map keyed_enc ys))).
    rewrite zlen_app in Hst. unfold not_at at 1 3. rewrite (proj2 (Z.eqb_neq it start)) by lia. cbn [negb obind].
    unfold match_key at 1 3. rewrite Ek. cbn [obind fst snd].
    destruct (k =? key); [by exists it|]. rewrite (ap_next _ _ _ _ _ _ _ Hp). cbn [obind].
    apply IH; [done|lia|lia].
Qed.
End Encoded.

(** ** Whole objects *)

Lemma first_with_app key l1 l2 :
  first_with key (l1 ++ l2) = match first_with key l1 with Some x => Some x | None => first_with key l2 end.
Proof. induction l1 as [|[[k f] c] l1 IH]; [done|]. cbn. by destruct (k =? key). Qed.

Section WholeObject.
Variables (t i : Z) (members : list prop_member) (m : mem) (off : Z).
#[local] Notation size := (zlen (pod_body (Object t i members))).
Hypothesis small : size < 2 ^ 20.
Hypothesis here : holds m off (pod_enc (Object t i members)).
Hypothesis aligned : off mod 8 = 0.

Lemma object_body : pod_body (Object t i members) = le32 t ++ le32 i ++ concat (map keyed_enc members).
Proof. done. Qed.

Lemma object_size : size = 8 + zlen (concat (map keyed_enc members)).
Proof. rewrite object_body. autorewrite with zlen. lia. Qed.

Lemma object_header : load_pod m off = Ret (mk_pod size SPA_TYPE_Object).
Proof.
  pose proof (zlen_nonneg (pod_body (Object t i members))).
  apply holds_pod; [unfold is_u32; cbn [pod_size]; lia|done|]. unfold pod_enc, enc_padded in here.
  by apply holds_app_l in here.
Qed.

Lemma object_load_size : load_u32 m off = Ret size.
Proof.
  pose proof object_header as E. unfold load_pod in E. destruct (load_u32 m off) as [z| |]; try done.
  cbn [obind] in E. destruct (load_u32 m (off + 4)); try done. injection E as E _. by rewrite E.
Qed.

(** Behind the first [j] members. *)
Definition member_offset (j : nat) : Z := off + 16 + zlen (concat (map keyed_enc (take j members))).

Lemma object_suffix j : at_suffix (off + 8) size m (member_offset j) (drop j members).
Proof.
  pose proof (holds_bounds _ _ _ here) as Hb. unfold pod_enc, enc_padded in here.
  apply holds_app_r in here as H1. rewrite zlen_enc_pod in H1. apply holds_app_l in H1.
  rewrite object_body in H1. rewrite app_assoc in H1. apply holds_app_r in H1. autorewrite with zlen in H1.
  pose proof (zlen_nonneg (concat (map keyed_enc (take j members)))) as Hn.
  assert (concat (map keyed_enc members) =
          concat (map keyed_enc (take j members)) ++ concat (map keyed_enc (drop j members))) as E
    by (by rewrite <- concat_app, <- map_app, take_drop).
  unfold member_offset. constructor.
  - rewrite E in H1. apply holds_app_r in H1.
    by replace (off + 8 + (4 + 4)) with (off + 16) in H1 by lia.
  - rewrite object_size, E, zlen_app. lia.
  - lia.
  - rewrite <- Z.add_assoc. apply mod8_add; [done|]. apply mod8_add; [done|apply keyed_concat_align].
Qed.

Lemma object_fuel j : (length (drop j members) < loop_fuel size)%nat /\ (length (take j members) < loop_fuel size)%nat.
Proof.
  assert (zlen members <= zlen (concat (map keyed_enc members))).
  { apply items_count, Forall_forall. intros x _. destruct (keyed_enc_align x) as [_ <-].
    pose proof (pad8_bounds (zlen (pod_body x.2))). pose proof (zlen_nonneg (pod_body x.2)). lia. }
  unfold loop_fuel. rewrite object_size, length_drop, length_take. unfold zlen in *. lia.
Qed.

Lemma member_offset_0 : member_offset 0 = off + 16.
Proof. unfold member_offset. rewrite take_0. change (zlen (concat (map keyed_enc []))) with 0. lia. Qed.

(** Where the search from the member before [j] begins. *)
Lemma search_start j :
  Forall prop_ok members -> (j <= length members)%nat ->
  match match j with O => None | S j' => Some (member_offset j') end with
  | Some s => spa_pod_prop_next m s
  | None => Ret (spa_pod_prop_first (off + 8))
  end = Ret (member_offset j).
Proof.
  intros F Hj. destruct j as [|j]; [rewrite member_offset_0; unfold spa_pod_prop_first; f_equal; lia|].
  destruct (lookup_lt_is_Some_2 members j Hj) as [[[k f] c] Ex].
  pose proof (object_suffix j) as Hat. rewrite (drop_S _ _ _ Ex) in Hat.
  apply suffix_cons in Hat as (Hp & _); [|by eapply Forall_lookup_1]. rewrite (ap_next _ _ _ _ _ _ _ Hp).
  f_equal. unfold member_offset. rewrite (take_S_r _ _ _ Ex), map_app, concat_app, zlen_app. cbn [map concat].
  rewrite app_nil_r. lia.
Qed.
End WholeObject.

(** The lookup on an encoded object, from any member. *)
Lemma find_prop_encoded (t i : Z) (members : list prop_member) (m : mem) (off : Z) (j : nat) (key : Z) :
  zlen (pod_body (Object t i members)) < 2 ^ 20 -> holds m off (pod_enc (Object t i members)) ->
  off mod 8 = 0 -> Forall prop_ok members -> (j <= length members)%nat ->
  let start := match j with O => None | S j' => Some (member_offset members off j') end in
  match next_with j key members with
  | Some x => exists r, spa_pod_find_prop m off start key = Ret (Some r) /\ holds m r (keyed_enc x)
  | None => spa_pod_find_prop m off start key = Ret None
  end.
Proof.
  intros L H Ha F Hj. cbv zeta. unfold spa_pod_find_prop, spa_pod_object_find_prop.
  rewrite (object_header t i members m off L H), (object_load_size t i members m off L H). cbn [obind].
  pose proof (object_size t i members) as Hsz. pose proof (zlen_nonneg (concat (map keyed_enc members))).
  assert (spa_pod_is_object (mk_pod (zlen (pod_body (Object t i members))) SPA_TYPE_Object) = true) as ->
    by (apply check_true; lia). cbn [negb].
  rewrite (search_start t i members m off H Ha j F Hj).
  cbn [obind]. destruct (object_fuel t i members j) as [F1 F2]. unfold next_with.
  pose proof (find_first_loop _ _ key _ _ _ _ (Forall_drop _ j _ F) (object_suffix t i members m off H Ha j) F1) as H1.
  destruct (first_with key (drop j members)) as [x|] eqn:E1.
  { destruct H1 as (r & -> & Hr). cbn [obind fst]. by exists r. }
  rewrite H1. cbn [obind fst].
  pose proof (object_suffix t i members m off H Ha 0) as Hat. rewrite drop_0 in Hat.
  rewrite <- (take_drop j members) in Hat at 3.
  assert (first_with key members = first_with key (take j members)) as E2.
  { rewrite <- (take_drop j members) at 1. rewrite first_with_app, E1. by destruct (first_with key (take j members)). }
  pose proof (find_prefix_loop _ _ key (take j members) _ m (member_offset members off 0)
    (member_offset members off j) (loop_fuel (zlen (pod_body (Object t i members))))
    (Forall_take _ j _ F) Hat ltac:(rewrite member_offset_0; unfold member_offset; lia) F2) as H2.
  replace (spa_pod_prop_first (off + 8)) with (member_offset members off 0)
    by (rewrite member_offset_0; unfold spa_pod_prop_first; lia).
  rewrite E2. destruct (first_with key (take j members)) as [x|].
  - destruct H2 as (r & -> & Hr). cbn [obind fst]. by exists r.
  - by rewrite H2.
Qed.

(** ** Fixation of an encoded object *)

(** What fixation makes of a member. *)
Definition fix_value (f : Z) (c : pod_val) : pod_val :=
  match c with
  | Choice ct fl hd tl =>
      if flag_is_set f SPA_POD_PROP_FLAG_DONT_FIXATE then c else Choice SPA_CHOICE_None fl hd tl
  | _ => c
  end.
Definition fix_member (x : prop_member) : prop_member := let '(k, f, c) := x in (k, f, fix_value f c).

Definition is_choice_val (c : pod_val) : bool := match c with Choice _ _ _ _ => true | _ => false end.

Lemma choice_header c :
  zlen (pod_body c) < 2 ^ 20 ->
  spa_pod_is_choice (mk_pod (zlen (pod_body c)) (pod_val_type c)) = is_choice_val c.
Proof.
  intros H. destruct c as [s|ct fl hd tl|l|t i l|u l]; cbn [is_choice_val pod_val_type].
  2: { apply check_true; [|done]. cbn [pod_body]. autorewrite with zlen.
       pose proof (zlen_nonneg (scalar_body hd ++ concat (map scalar_body tl))). rewrite zlen_app in *. lia. }
  all: unfold spa_pod_is_choice, SPA_POD_CHECK, SPA_POD_CHECK_TYPE; cbn [pod_type pod_size].
  1: replace (scalar_type s =? SPA_TYPE_Choice) with false by (by destruct s).
  all: by rewrite ?andb_false_r.
Qed.

Lemma fix_member_len x : zlen (keyed_enc (fix_member x)) = zlen (keyed_enc x).
Proof.
  destruct x as [[k f] c]. destruct (keyed_enc_align (k, f, c)) as [_ <-].
  destruct (keyed_enc_align (fix_member (k, f, c))) as [_ <-]. cbn [fix_member snd].
  destruct c; try done. cbn [fix_value]. by case_if.
Qed.

(** The bytes of an open choice around the word that tells its kind. *)
Lemma choice_bytes k f ct ct' fl hd tl :
  exists a r, zlen a = 16 /\ keyed_enc (k, f, Choice ct fl hd tl) = a ++ le32 ct ++ r /\
              keyed_enc (k, f, Choice ct' fl hd tl) = a ++ le32 ct' ++ r.
Proof.
  assert (zlen (pod_body (Choice ct' fl hd tl)) = zlen (pod_body (Choice ct fl hd tl))) as E
    by (cbn [pod_body]; autorewrite with zlen; done).
  exists (le32 k ++ le32 f ++ enc_pod (mk_pod (zlen (pod_body (Choice ct fl hd tl))) SPA_TYPE_Choice)).
  exists (le32 fl ++ enc_pod (mk_pod (zlen (scalar_body hd)) (scalar_type hd)) ++ scalar_body hd
          ++ concat (map scalar_body tl)
          ++ zeroes (pad8 (zlen (pod_body (Choice ct fl hd tl))) - zlen (pod_body (Choice ct fl hd tl)))).
  split; [zlia|]. unfold keyed_enc, enc_keyed, enc_padded. rewrite E. cbn [pod_val_type].
  set (z := zlen (pod_body (Choice ct fl hd tl))). cbn [pod_body]. by rewrite <- !app_assoc.
Qed.

Section FixateEncoded.
Variables (base size : Z).
#[local] Notation props f := (foreach (fun m => spa_pod_prop_is_inside m base size) spa_pod_prop_next f).

Lemma fixated_member m m1 it k f c :
  zlen (pod_body c) < 2 ^ 20 -> holds m it (keyed_enc (k, f, c)) ->
  fixated_prop it (mk_pod (zlen (pod_body c)) (pod_val_type c)) f m m1 ->
  holds m1 it (keyed_enc (fix_member (k, f, c))).
Proof.
  intros Hc Hh Hfix. unfold fixated_prop in Hfix. rewrite choice_header in Hfix by done.
  destruct c as [s|ct fl hd tl|l|t i l|u l]; cbn [is_choice_val andb] in Hfix; try (by subst m1).
  cbn [fix_member fix_value]. destruct (flag_is_set _ _); cbn [negb] in Hfix; [by subst m1|].
  destruct Hfix as [S Hw]. destruct (choice_bytes k f ct SPA_CHOICE_None fl hd tl) as (a & r & Ha & E & ->).
  rewrite E in Hh. pose proof (holds_app_l _ _ _ _ Hh) as H1. pose proof (holds_app_r _ _ _ _ Hh) as H2.
  apply holds_app_r in H2. rewrite zlen_le32, Ha in H2.
  apply holds_app; [|rewrite Ha; apply holds_app; [done|rewrite zlen_le32]].
  - eapply holds_same; [exact S| |done]. cbn. lia.
  - eapply holds_same; [exact S| |done]. cbn. lia.
Qed.

Lemma fixate_encoded_loop xs m it fuel :
  Forall prop_ok xs -> at_suffix base size m it xs -> base + size <= zlen m -> (length xs < fuel)%nat ->
  exists m', props fixate_prop fuel it m = Ret (None, m') /\
    holds m' it (concat (map keyed_enc (map fix_member xs))) /\
    same_if (fun i => i < it \/ base + size <= i) m m'.
Proof.
  intros F. revert m it fuel. induction F as [|[[k f] c] xs Hx _ IH]; intros m it [|fuel] Hat Hm Hfuel;
    cbn in Hfuel; try lia.
  - exists m. cbn [foreach]. rewrite (suffix_nil _ _ _ _ Hat). split; [done|]. split; [apply Hat|apply same_if_refl].
  - destruct (suffix_cons _ _ m it k f c xs Hx Hat) as (Hp & _ & Hat' & Hh).
    destruct Hx as (_ & _ & Hc). pose proof (as_base _ _ _ _ _ Hat). pose proof (as_end _ _ _ _ _ Hat') as He.
    destruct (keyed_enc_align (k, f, c)) as [_ Hlen]. cbn [snd] in Hlen.
    pose proof (pad8_bounds (zlen (pod_body c))). pose proof (zlen_nonneg (pod_body c)).
    pose proof (zlen_nonneg (concat (map keyed_enc xs))).
    set (v := mk_pod (zlen (pod_body c)) (pod_val_type c)) in *.
    destruct (fixate_round_ok _ _ fuel m it v f _ Hp) as (m1 & Ef & Hfix); [lia|cbn [v pod_size]; lia|].
    assert (same_if (fun i => i < it \/ it + zlen (keyed_enc (k, f, c)) <= i) m m1) as S1.
    { apply (fixated_prop_same it v f _ _ _ Hfix). intros Hch i Hi. apply choice_size in Hch.
      change (pod_size v) with (zlen (pod_body c)) in Hch. lia. }
    destruct (IH m1 (it + zlen (keyed_enc (k, f, c))) fuel) as (m' & E' & Hh' & S'); [| |lia|].
    { destruct Hat' as [Ha ? ? ?]. constructor; try done. eapply holds_same; [exact S1| |exact Ha]. cbv beta. lia. }
    { destruct S1 as [L _]. unfold zlen in *. lia. }
    exists m'. rewrite Ef. split; [done|]. cbn [map concat]. split.
    + apply holds_app; [|by rewrite fix_member_len].
      eapply holds_same; [exact S'| |by eapply fixated_member]. rewrite fix_member_len. cbv beta. lia.
    + eapply same_if_trans; eapply same_if_weaken; [|exact S1| |exact S']; cbv beta; lia.
Qed.
End FixateEncoded.

Lemma fixed_len l :
  zlen (concat (map keyed_enc (map fix_member l))) = zlen (concat (map keyed_enc l)).
Proof. induction l as [|x l IH]; [done|]. cbn [map concat]. by rewrite !zlen_app, fix_member_len, IH. Qed.

Lemma object_bytes t i l :
  let c := concat (map keyed_enc l) in
  pod_enc (Object t i l) =
    (enc_pod (mk_pod (8 + zlen c) SPA_TYPE_Object) ++ le32 t ++ le32 i) ++ c
    ++ zeroes (pad8 (8 + zlen c) - (8 + zlen c)).
Proof.
  cbv zeta. unfold pod_enc, enc_padded. rewrite object_size, object_body. cbn [pod_val_type].
  by rewrite <- !app_assoc.
Qed.

(** Fixating an encoded object closes its choices in place. *)
Lemma fixate_object_holds (t i : Z) (members : list prop_member) (m : mem) (off : Z) :
  zlen (pod_body (Object t i members)) < 2 ^ 20 -> holds m off (pod_enc (Object t i members)) ->
  off mod 8 = 0 -> Forall prop_ok members ->
  exists m', spa_pod_fixate m off = Ret (0, m') /\
    holds m' off (pod_enc (Object t i (map fix_member members))) /\
    same_if (fun a => a < off \/ off + zlen (pod_enc (Object t i members)) <= a) m m'.
Proof.
  intros L H Ha F. unfold spa_pod_fixate, spa_pod_object_fixate, SPA_POD_OBJECT_FOREACH.
  rewrite (object_header t i members m off L H), (object_load_size t i members m off L H). cbn [obind].
  pose proof (object_size t i members) as Hsz. pose proof (zlen_nonneg (concat (map keyed_enc members))) as Hn.
  assert (spa_pod_is_object (mk_pod (zlen (pod_body (Object t i members))) SPA_TYPE_Object) = true) as ->
    by (apply check_true; lia). cbn [negb].
  pose proof (object_suffix t i members m off H Ha 0) as Hat. rewrite drop_0, member_offset_0 in Hat.
  destruct (object_fuel t i members 0) as [F1 _]. rewrite drop_0 in F1.
  pose proof (holds_bounds _ _ _ H) as Hb. unfold pod_enc in Hb. rewrite enc_padded_zlen in Hb.
  pose proof (pad8_bounds (zlen (pod_body (Object t i members)))).
  destruct (fixate_encoded_loop (off + 8) _ members m (off + 16) _ F Hat ltac:(lia) F1) as (m' & E & Hh & S).
  exists m'. unfold SPA_POD_OBJECT_BODY_FOREACH, spa_pod_prop_first.
  replace (off + 8 + 8) with (off + 16) by lia. rewrite E. split; [done|]. split.
  - rewrite object_bytes in *. rewrite fixed_len.
    pose proof (holds_app_l _ _ _ _ H) as H1. pose proof (holds_app_r _ _ _ _ (holds_app_r _ _ _ _ H)) as H2.
    autorewrite with zlen in H2. apply holds_app; [|autorewrite with zlen; apply holds_app].
    + eapply holds_same; [exact S| |exact H1]. autorewrite with zlen. cbv beta. lia.
    + replace (off + (8 + (4 + 4))) with (off + 16) by lia. done.
    + rewrite fixed_len. eapply holds_same; [exact S| |exact H2]. cbv beta. lia.
  - eapply same_if_weaken; [|exact S]. cbv beta. unfold pod_enc. rewrite enc_padded_zlen. lia.
Qed.

(** ** Properties *)

(** The pod at [pod] with header [p] lies inside the region. *)
Definition pod_in (m : mem) (pod : Z) (p : spa_pod) : Prop :=
  load_pod m pod = Ret p /\ 0 <= pod /\ 0 <= pod_size p /\ pod + 8 + pod_size p <= zlen m.

Lemma pod_in_size m pod p : pod_in m pod p -> load_u32 m pod = Ret (pod_size p).
Proof.
  intros (H & _). unfold load_pod in H. destruct (load_u32 m pod) as [z| |]; try done.
  cbn [obind] in H. destruct (load_u32 m (pod + 4)); try done. by injection H as <-.
Qed.

(** A lookup returns an element of the region. *)
Lemma match_key_found inside next key fuel it m r m' :
  foreach inside next (match_key key) fuel it m = Ret (Some r, m') -> m' = m /\ inside m r = Ret true.
Proof.
  revert it. induction fuel as [|fuel IH]; intros it; cbn [foreach]; [done|].
  destruct (inside m it) as [[]| |] eqn:Ei; cbn [obind]; [|done..]. unfold match_key at 1.
  destruct (load_u32 m it) as [k| |]; cbn [obind fst snd]; [|done..].
  destruct (k =? key); cbn [fst snd]; [by intros [= <- <-]|].
  destruct (next m it) as [it'| |]; cbn [obind]; [apply IH|done..].
Qed.

Lemma lookup_safe m pod p key :
  pod_in m pod p ->
  exists r, spa_pod_find_prop m pod None key = Ret r /\
    forall a, r = Some a -> elem_in 16 8 (pod + 8) (pod_size p) m a.
Proof.
  intros H. pose proof (pod_in_size m pod p H) as Es. destruct H as (Ep & Hp & Hs & Hm).
  unfold spa_pod_find_prop, spa_pod_object_find_prop. rewrite Ep. cbn [obind].
  destruct (negb (spa_pod_is_object p)); [by exists None|]. rewrite Es. cbn [obind].
  destruct (sized_foreach 16 8 (pod + 8) (pod_size p) ltac:(lia) ltac:(lia) (match_key key)
              (spa_pod_prop_first (pod + 8)) m) as (r & m' & E & _);
    [lia|lia|unfold spa_pod_prop_first; lia| |].
  { intros m1 it L (Hb & s & _ & Hu & Hin). unfold is_u32 in Hu.
    destruct (load_u32_ok m1 it) as (k & Ek & _); [lia|lia|]. unfold match_key. rewrite Ek. cbn [obind]. eauto. }
  change (foreach (fun m => spa_pod_prop_is_inside m (pod + 8) (pod_size p)) spa_pod_prop_next)
    with (foreach (A := Z) (sized_inside 16 8 (pod + 8) (pod_size p)) (sized_next 16 8)).
  rewrite E. cbn [obind fst]. destruct r as [a|].
  - exists (Some a). split; [done|]. intros a' [= <-]. apply match_key_found in E as [_ E].
    destruct (sized_inside_ok 16 8 (pod + 8) (pod_size p) ltac:(lia) ltac:(lia) m a) as (b & Eb & Hb); [lia|].
    rewrite E in Eb. injection Eb as <-. by apply Hb.
  - unfold loop_fuel. cbn [foreach]. unfold not_at at 1. rewrite Z.eqb_refl. cbn [negb obind fst]. by exists None.
Qed.

(** C37: the [FOREACH] loops over pods, properties, controls, array elements
    and choice values end for every content of the memory, and only call the
    loop body on elements whose header and contents lie inside the region;
    the size of array elements is read in every round, so there the loop body
    must not write. *)
Theorem foreach_loops_safe {A} (m : mem) (base size : Z) (f : Z -> mem -> outcome (option A * mem)) :
  0 <= base -> 16 <= size -> base + size <= zlen m ->
  (body_safe (fun m' => zlen m' = zlen m) (elem_in 8 0 base size) f ->
    exists r m', SPA_POD_FOREACH base size f m = Ret (r, m') /\ zlen m' = zlen m) /\
  (body_safe (fun m' => zlen m' = zlen m) (elem_in 16 8 base size) f ->
    (exists r m', SPA_POD_OBJECT_BODY_FOREACH base size f m = Ret (r, m') /\ zlen m' = zlen m) /\
    (exists r m', SPA_POD_SEQUENCE_BODY_FOREACH base size f m = Ret (r, m') /\ zlen m' = zlen m)) /\
  (body_safe (fun m' => m' = m) (child_in base base size) f ->
    exists r, SPA_POD_ARRAY_BODY_FOREACH base size f m = Ret (r, m)) /\
  (body_safe (fun m' => m' = m) (child_in (base + 8) base size) f ->
    exists r, SPA_POD_CHOICE_BODY_FOREACH base size f m = Ret (r, m)).
Proof.
  intros Hb Hs Hm. split_and!.
  - intros Hf. destruct (sized_foreach 8 0 base size ltac:(lia) Hb f base m Hm ltac:(lia) ltac:(lia) Hf)
      as (r & m' & E & L). exists r, m'. split; [|done]. rewrite <- E. apply foreach_ext; intros x it;
      unfold spa_pod_is_inside, spa_pod_next, sized_inside, sized_next; by rewrite Z.add_0_r.
  - intros Hf. split; apply (sized_foreach 16 8 base size ltac:(lia) Hb f (base + 8) m Hm); done || lia.
  - intros Hf. apply (children_foreach base base size ltac:(lia) f (base + 8) m); done || lia.
  - intros Hf. apply (children_foreach (base + 8) base size ltac:(lia) f (base + 16) m); done || lia.
Qed.

(** A loop body that reads the key of a property. *)
Definition sample_object : mem := pod_enc (Object 7 1 [(5, 0, Scalar (SInt 17))]).

Lemma foreach_loops_safe_witness :
  exists r m', SPA_POD_OBJECT_BODY_FOREACH 8 32 (match_key 5) sample_object = Ret (r, m') /\
               zlen m' = zlen sample_object.
Proof.
  destruct (foreach_loops_safe sample_object 8 32 (match_key 5)) as (_ & H & _);
    [lia|lia|vm_compute; discriminate|]. apply H.
  intros m' it L (Hb & s & _ & Hs & Hin).
  assert (zlen sample_object = 40) as L0 by reflexivity. unfold is_u32 in Hs.
  destruct (load_u32_ok m' it) as (k & E & _); [lia|lia|].
  exists (if k =? 5 then Some it else None), m'. split; [|exact L]. unfold match_key. rewrite E. reflexivity.
Defined.

(** Fixating an object of any origin succeeds, and afterwards the object
    counts as fixated exactly if it has no open choice that is flagged
    [SPA_POD_PROP_FLAG_DONT_FIXATE]. *)
Theorem fixate_makes_fixated (m : mem) (pod : Z) (p : spa_pod) :
  pod_in m pod p -> spa_pod_is_object p = true ->
  exists m' r, spa_pod_fixate m pod = Ret (0, m') /\
    SPA_POD_OBJECT_FOREACH pod pinned_choice m = Ret (r, m) /\
    spa_pod_is_fixated m' pod = Ret (match r with Some _ => 0 | None => 1 end).
Proof.
  intros Hin Ho. pose proof (pod_in_size _ _ _ Hin) as Es. destruct Hin as (E & Hp & Hs & Hm).
  destruct (fixate_loop (pod + 8) (pod_size p) ltac:(lia) (loop_fuel (pod_size p)) (pod + 8 + 8) m m)
    as (m' & r & H1 & H2 & H3 & H4); try lia; try (unfold loop_fuel; lia); [apply same_if_refl|].
  exists m', r. unfold spa_pod_fixate, spa_pod_is_fixated, spa_pod_object_fixate, spa_pod_object_is_fixated,
    SPA_POD_OBJECT_FOREACH, SPA_POD_OBJECT_BODY_FOREACH, spa_pod_prop_first.
  rewrite (same_if_pod _ _ _ pod H2), (same_if_u32 _ _ _ pod H2) by (cbv beta; lia).
  rewrite E, Es. cbn [obind]. rewrite Ho. cbn [negb]. by rewrite H1, H3, H4.
Qed.

Lemma fixate_makes_fixated_witness :
  exists m', spa_pod_fixate sample_object 0 = Ret (0, m') /\ spa_pod_is_fixated m' 0 = Ret 1.
Proof.
  destruct (fixate_makes_fixated sample_object 0 (mk_pod 32 SPA_TYPE_Object)) as (m' & r & H1 & H2 & H3).
  - repeat split; vm_compute; discriminate.
  - reflexivity.
  - exists m'. split; [exact H1|]. rewrite H3.
    assert (r = None) as ->; [|reflexivity]. vm_compute in H2. injection H2 as <-. reflexivity.
Defined.

(** In an object the builder wrote, [spa_pod_find_prop] from the property
    with index [j - 1] (or from the beginning) returns the next property with
    the key in circular order, or NULL when no property has the key. *)
Theorem iter_find_prop_correct (t i : Z) (members : list prop_member) (m : mem) (off : Z) (j : nat) (key : Z) :
  zlen (pod_body (Object t i members)) < 2 ^ 20 -> holds m off (pod_enc (Object t i members)) ->
  off mod 8 = 0 -> Forall prop_ok members -> (j <= length members)%nat ->
  let start := match j with O => None | S j' => Some (member_offset members off j') end in
  match next_with j key members with
  | Some x => exists r, spa_pod_find_prop m off start key = Ret (Some r) /\ holds m r (keyed_enc x)
  | None => spa_pod_find_prop m off start key = Ret None
  end.
Proof. intros. by apply (find_prop_encoded t i). Qed.

Definition sample_members : list prop_member :=
  [ (5, 0, Choice SPA_CHOICE_Range 0 (SInt 17) [SInt 0; SInt 99]);
    (9, 16, Choice SPA_CHOICE_Enum 0 (SId 1) [SId 1; SId 2]);
    (5, 1, Scalar (SId 4)) ].

Lemma sample_members_ok : Forall prop_ok sample_members.
Proof. repeat constructor; vm_compute; congruence. Qed.

Lemma iter_find_prop_correct_witness :
  let m := pod_enc (Object 2 0 sample_members) in
  exists r, spa_pod_find_prop m 0 (Some (member_offset sample_members 0 0)) 5 = Ret (Some r) /\
            holds m r (keyed_enc (5, 1, Scalar (SId 4))).
Proof.
  apply (iter_find_prop_correct 2 0 sample_members _ 0 1 5).
  - reflexivity.
  - exists [], []. split; [by rewrite app_nil_r|reflexivity].
  - reflexivity.
  - exact sample_members_ok.
  - cbn. lia.
Defined.

(** Fixating an object the builder wrote turns it into the encoding of
    the same object with every choice closed on its default, except those
    flagged [SPA_POD_PROP_FLAG_DONT_FIXATE], and touches nothing outside it. *)
Theorem fixate_encoded (t i : Z) (members : list prop_member) (m : mem) (off : Z) :
  zlen (pod_body (Object t i members)) < 2 ^ 20 -> holds m off (pod_enc (Object t i members)) ->
  off mod 8 = 0 -> Forall prop_ok members ->
  exists m', spa_pod_fixate m off = Ret (0, m') /\
    holds m' off (pod_enc (Object t i (map fix_member members))) /\
    same_if (fun a => a < off \/ off + zlen (pod_enc (Object t i members)) <= a) m m'.
Proof. apply fixate_object_holds. Qed.

Lemma fixate_encoded_witness :
  let m := pod_enc (Object 2 0 sample_members) in
  exists m', spa_pod_fixate m 0 = Ret (0, m') /\
    holds m' 0 (pod_enc (Object 2 0
      [ (5, 0, Choice SPA_CHOICE_None 0 (SInt 17) [SInt 0; SInt 99]);
        (9, 16, Choice SPA_CHOICE_Enum 0 (SId 1) [SId 1; SId 2]); (5, 1, Scalar (SId 4)) ])).
Proof.
  destruct (fixate_encoded 2 0 sample_members (pod_enc (Object 2 0 sample_members)) 0) as (m' & H1 & H2 & _).
  - reflexivity.
  - exists [], []. split; [by rewrite app_nil_r|reflexivity].
  - reflexivity.
  - exact sample_members_ok.
  - exists m'. split; [exact H1|exact H2].
Defined.
