(* ===== verification/PodGetv.v ===== *)
(** * Variadic reads of encoded objects

    [spa_pod_parser_getv] and [spa_pod_parse_object] on an object that the
    builder wrote and whose keys are distinct: every item that asks for a
    property collects from the value encoded under its key, wherever the
    search stands. *)
From S2P Require Import Prelude Bytes PodBody PodBuilder PodSpec PodParser PodSafety PodRoundTrip PodLookup.
From Stdlib Require Import Ascii.
#[local] Open Scope Z_scope.

Definition member_key (x : prop_member) : Z := x.1.1.

Lemma first_with_none key l : first_with key l = None -> key ∉ map member_key l.
Proof.
  induction l as [|[[k f] c] l IH]; cbn; [by intros _ ?%not_elem_of_nil|].
  destruct (Z.eqb_spec k key) as [|Hk]; [done|]. intros H. rewrite not_elem_of_cons.
  split; [congruence|auto].
Qed.

Lemma keys_distinct l x y :
  NoDup (map member_key l) -> x ∈ l -> y ∈ l -> member_key x = member_key y -> x = y.
Proof.
  induction l as [|z l IH]; cbn; [by intros _ ?%not_elem_of_nil|].
  intros [Hz Hl]%list.NoDup_cons. rewrite !elem_of_cons.
  assert (forall w, w ∈ l -> member_key w <> member_key z) as Hw.
  { intros w Hw E. apply Hz. rewrite <- E. apply list_elem_of_fmap_2. done. }
  intros [-> |Hx] [-> |Hy] E; [done| | |by apply IH].
  - by destruct (Hw y).
  - by destruct (Hw x).
Qed.

(** With distinct keys the circular search finds the same member from
    everywhere. *)
Lemma next_with_distinct key l x j :
  NoDup (map member_key l) -> x ∈ l -> member_key x = key -> next_with j key l = Some x.
Proof.
  intros D Hx <-. unfold next_with. destruct (first_with _ (drop j l)) as [y|] eqn:E.
  - apply first_with_some in E as [Hy E]. f_equal. eapply keys_distinct; [done| |done|done].
    rewrite <- (take_drop j l). apply elem_of_app. by right.
  - destruct (first_with _ l) as [y|] eqn:E'.
    + apply first_with_some in E' as [Hy E']. f_equal. by eapply keys_distinct.
    + apply first_with_none in E'. destruct E'. by apply list_elem_of_fmap_2.
Qed.

Section Object.
Context (m : mem) (off t i : Z) (props : list prop_member).
#[local] Notation obj := (Object t i props).
Hypothesis okay : Forall prop_ok props.
Hypothesis small : zlen (pod_body obj) < 2 ^ 20.
Hypothesis here : holds m off (item_enc obj).
Hypothesis distinct : NoDup (map member_key props).

(** What the item stores when the value [c] is encoded at [addr]. *)
Definition collects (it : get_item) (c : pod_val) (addr : Z) (v : parser_val) : Prop :=
  SPA_POD_PARSER_COLLECT_BODY (mk_pod (zlen (pod_body c)) (pod_val_type c)) m (Some (addr + 8))
    (get_type it) (get_dest it) (zlen (get_dest it)) = Ret v.

Definition serves (it : get_item) (x : prop_member) : Prop :=
  get_key it <> 0 /\ get_flags it = false /\ x ∈ props /\ member_key x = get_key it /\
  forall addr, holds m addr (item_enc x.2) -> exists v, collects it x.2 addr v.

Definition served (it : get_item) (x : prop_member) (v : option parser_val) : Prop :=
  exists addr w, v = Some w /\ holds m addr (item_enc x.2) /\ collects it x.2 addr w.

Lemma getv_members items xs j acc :
  Forall2 serves items xs ->
  exists vs j', getv_loop SPA_TYPE_Object items acc (inside_object m off t i props j)
                = (Ret (acc ++ vs), inside_object m off t i props j') /\
                length vs = length items /\
                Forall2 (fun '(it, x) v => served it x v) (zip items xs) (map got_value vs).
Proof.
  intros F. revert j acc. induction F as [|it x items xs Hs F IH]; intros j acc.
  { exists [], j. rewrite app_nil_r. split_and!; [done|done|constructor]. }
  destruct Hs as (Hk & Hf & Hx & Ek & Hc). destruct x as [[k f] c]. cbn in Ek, Hc.
  pose proof (find_prop_located t i props m off j (get_key it) okay small here) as Hfind.
  cbv zeta in Hfind. rewrite (next_with_distinct _ _ _ j distinct Hx Ek) in Hfind.
  destruct Hfind as ([pr body] & j1 & Ef & (_ & _ & Ev & Hh)). cbn [fst snd] in Ev, Hh.
  destruct (Hc _ Hh) as [v Ec]. unfold collects in Ec. replace (body - 8 + 8) with body in Ec by lia.
  cbn [getv_loop]. rewrite (proj2 (Z.eqb_neq _ _) Hk). cbn [andb Z.eqb Pos.eqb SPA_TYPE_Object].
  unfold st_bind at 1, getv_fetch. cbn [Z.eqb Pos.eqb SPA_TYPE_Object]. unfold st_bind at 1, st_try at 1.
  rewrite Ef, Hf, Ev. unfold st_ret at 1, st_bind, st_get, st_try, st_lift.
  cbn [inside_object opened_at p_mem]. rewrite Ec.
  destruct (IH j1 (acc ++ [mk_got None (Some v)])) as (vs & j' & E & L & Fv).
  exists (mk_got None (Some v) :: vs), j'. rewrite <- app_assoc in E. split; [exact E|].
  split; [by cbn; rewrite L|]. cbn [map zip zip_with]. constructor; [|exact Fv].
  exists (body - 8), v. split; [done|]. split; [done|]. unfold collects.
  by replace (body - 8 + 8) with body by lia.
Qed.

Lemma push_object_holds :
  off mod 8 = 0 -> is_u32 t -> is_u32 i ->
  let pod := mk_pod (zlen (pod_body obj)) SPA_TYPE_Object in
  spa_pod_parser_push_object t (spa_pod_parser_init_pod_body m pod (off + 8))
  = (Ret i, inside_object m off t i props 0).
Proof.
  intros Ha Ht Hi pod. set (bs := pod_body obj) in *. pose proof (zlen_nonneg bs).
  assert (zlen bs mod 8 = 0) as M.
  { change bs with (le32 t ++ le32 i ++ concat (map keyed_enc props)). autorewrite with zlen.
    rewrite Z.add_assoc. apply mod8_add; [done|apply keyed_concat_align]. }
  unfold spa_pod_parser_init_pod_body, spa_pod_parser_init. cbn [pod pod_size].
  rewrite wrap_small by lia. replace (off + 8 - 8) with off by lia.
  unfold spa_pod_parser_push_object, spa_pod_parser_push_object_body, st_bind at 1 2.
  rewrite (current_body_holds _ SPA_TYPE_Object bs); [|constructor; cbn [p_data p_offset p_mem p_size p_frames parser_limit]|done].
  - unfold st_bind, st_get, st_lift. cbn [p_data p_offset p_mem].
    replace (off + 0 + 8) with (off + 8) by lia.
    change bs with (le32 t ++ le32 i ++ concat (map keyed_enc props)).
    rewrite get_object_holds by (done || by eapply enc_padded_body).
    unfold st_modify, st_ret. cbn [object_type object_id]. rewrite Z.eqb_refl. cbn [negb].
    unfold inside_object, opened_at, set_offset, spa_pod_parser_push, set_frames. cbn.
    change (zlen (le32 t ++ _)) with (zlen bs). do 2 f_equal. lia.
  - rewrite Z.add_0_r. exact here.
  - done.
  - done.
  - rewrite enc_padded_zlen, (pad8_aligned _ M). cbn [Z.add]. lia.
  - lia.
Qed.

Lemma parse_object_members items xs :
  off mod 8 = 0 -> is_u32 t -> is_u32 i -> Forall2 serves items xs ->
  exists vs, spa_pod_parse_object m off t items = Ret (i, vs) /\ length vs = length items /\
             Forall2 (fun '(it, x) v => served it x v) (zip items xs) (map got_value vs).
Proof.
  intros Ha Ht Hi F. unfold spa_pod_parse_object. pose proof (zlen_nonneg (pod_body obj)).
  rewrite (holds_pod m off (mk_pod (zlen (pod_body obj)) SPA_TYPE_Object));
    [|unfold is_u32; cbn [pod_size]; lia|done|by apply holds_app_l in here]. cbn [obind].
  unfold spa_pod_body_parse_object, spa_pod_parser_get_object, st_bind at 1.
  rewrite (push_object_holds Ha Ht Hi). unfold st_bind at 1, st_try, spa_pod_parser_get, spa_pod_parser_getv.
  unfold st_bind at 1, st_get. cbn [inside_object opened_at p_frames frame_pod pod_type].
  destruct (getv_members items xs 0 [] F) as (vs & j' & E & L & Fv). cbn [app] in E.
  change (mk_parser _ _ _ _ _ _) with (inside_object m off t i props 0). rewrite E.
  exists vs. split; [done|]. by split.
Qed.
End Object.
