(* ===== verification/NdarrayFormat.v ===== *)
(** * Ndarray formats

    Models [spa/include/spa/param/ndarray.h] and [ndarray-utils.h], with the
    element types of [spa/param/format.h]: the description of a packed
    N-dimensional array, the counting of its elements and bytes, the parsing of
    a [Format] object into a description and the building of a [Format] object
    from a description and optional alternatives. *)
From S2P Require Import Prelude Bytes PodBody PodBuilder PodParser PodIter.
From Stdlib Require Import Ascii.
#[local] Open Scope Z_scope.

Notation SPA_TYPE_OBJECT_Format := 0x40003.
Notation SPA_FORMAT_mediaType := 1.
Notation SPA_FORMAT_mediaSubtype := 2.
Notation SPA_FORMAT_NDARRAY_elementType := 0x1000001.
Notation SPA_FORMAT_NDARRAY_shape := 0x1000002.
Notation SPA_FORMAT_NDARRAY_layout := 0x1000003.
Notation SPA_FORMAT_NDARRAY_rate := 0x1000004.
Notation SPA_FORMAT_NDARRAY_schema := 0x1000005.
Notation SPA_MEDIA_TYPE_application := 6.
Notation SPA_MEDIA_SUBTYPE_ndarray := 0x1000000.
Notation SPA_NDARRAY_LAYOUT_ROW_MAJOR := 1.
Notation SPA_NDARRAY_LAYOUT_COLUMN_MAJOR := 2.
Notation SPA_NDARRAY_MAX_DIMENSIONS := 64.
Notation INT32_MAX := (2 ^ 31 - 1).

(** [enum spa_element_type] from [BOOL8] = 1 to [COMPLEX_F128_LE] = 25. *)
Definition spa_element_type_size (type : Z) : Z :=
  if (type =? 1) || (type =? 2) || (type =? 3) || (type =? 12) || (type =? 13) || (type =? 14)
     || (type =? 15) then 1
  else if (type =? 4) || (type =? 5) || (type =? 16) || (type =? 17) then 2
  else if (type =? 6) || (type =? 7) || (type =? 18) || (type =? 21) || (type =? 22) then 4
  else if (type =? 8) || (type =? 9) || (type =? 19) || (type =? 23) then 8
  else if (type =? 10) || (type =? 11) || (type =? 20) || (type =? 24) then 16
  else if type =? 25 then 32
  else 0.

(** The caller's structure: [shape] holds as many words as were allocated,
    and a read or a write behind them is a fault. *)
Record spa_ndarray_info : Type := mk_info {
  element_type : Z;
  layout : Z;
  rate : spa_fraction;
  n_dimensions : Z;
  shape : list Z }.

(** [offsetof(struct spa_ndarray_info, shape)] and [sizeof]. *)
Notation shape_offset := 20.
Notation sizeof_ndarray_info := (20 + 4 * SPA_NDARRAY_MAX_DIMENSIONS).

Definition SPA_NDARRAY_INFO_VALID_SIZE (size : Z) : bool := shape_offset <=? size.
(** Stored in an [uint32_t] by both users. *)
Definition SPA_NDARRAY_INFO_MAX_DIMENSIONS (size : Z) : Z := u32 ((size - shape_offset) / 4).

Definition shape_at (shape : list Z) (i : Z) : outcome Z :=
  match shape !! Z.to_nat i with Some d => Ret d | None => Fault end.

(** [for (i = from; i < n_dimensions; i++)]: multiply the dimensions up. *)
Fixpoint count_loop (shape : list Z) (i : Z) (n : nat) (elements : Z) : outcome Z :=
  match n with
  | O => Ret elements
  | S n =>
      let! dimension := shape_at shape i in
      if (dimension =? 0) || (INT32_MAX <? dimension) then Err EINVAL
      else if SIZE_MAX / dimension <? elements then Err EOVERFLOW
      else count_loop shape (i + 1) n (u64 (elements * dimension))
  end.

(** The number of elements and of bytes; a caller may drop either. *)
Definition spa_ndarray_info_ext_counts (info : option spa_ndarray_info) (size : Z) : outcome (Z * Z) :=
  match info with
  | None => Err EINVAL
  | Some info =>
      if negb (SPA_NDARRAY_INFO_VALID_SIZE size) then Err EINVAL
      else
        let max_dimensions := SPA_NDARRAY_INFO_MAX_DIMENSIONS size in
        if (n_dimensions info =? 0) || (max_dimensions <? n_dimensions info) then Err EINVAL
        else
          let element_size := spa_element_type_size (element_type info) in
          if element_size =? 0 then Err EINVAL
          else if negb (layout info =? SPA_NDARRAY_LAYOUT_ROW_MAJOR)
                  && negb (layout info =? SPA_NDARRAY_LAYOUT_COLUMN_MAJOR) then Err EINVAL
          else if ((denom (rate info) =? 0) && negb (num (rate info) =? 0))
                  || (negb (denom (rate info) =? 0) && (num (rate info) =? 0)) then Err EINVAL
          else
            let! elements := count_loop (shape info) 0 (Z.to_nat (n_dimensions info)) 1 in
            if SIZE_MAX / element_size <? elements then Err EOVERFLOW
            else Ret (elements, u64 (elements * element_size))
  end.

Definition spa_ndarray_info_ext_validate (info : option spa_ndarray_info) (size : Z) : outcome unit :=
  let! _ := spa_ndarray_info_ext_counts info size in Ret tt.
Definition spa_ndarray_info_validate (info : option spa_ndarray_info) : outcome unit :=
  spa_ndarray_info_ext_validate info sizeof_ndarray_info.
Definition spa_ndarray_info_ext_get_n_elements (info : option spa_ndarray_info) (size : Z) : outcome Z :=
  let! (n_elements, _) := spa_ndarray_info_ext_counts info size in Ret n_elements.
Definition spa_ndarray_info_get_n_elements (info : option spa_ndarray_info) : outcome Z :=
  spa_ndarray_info_ext_get_n_elements info sizeof_ndarray_info.
Definition spa_ndarray_info_ext_get_size (info : option spa_ndarray_info) (size : Z) : outcome Z :=
  let! (_, n_bytes) := spa_ndarray_info_ext_counts info size in Ret n_bytes.
Definition spa_ndarray_info_get_size (info : option spa_ndarray_info) : outcome Z :=
  spa_ndarray_info_ext_get_size info sizeof_ndarray_info.

(** ** Parsing *)

(** [SPA_POD_OBJECT_FOREACH(format, property)] counting the keys; every round
    moves by at least 16 bytes, so the size of the object is enough fuel. *)
Fixpoint key_count_loop (fuel : nat) (m : mem) (body size key iter count : Z) : outcome Z :=
  match fuel with
  | O => Fault
  | S fuel =>
      let! inside := spa_pod_prop_is_inside m body size iter in
      if negb inside then Ret count
      else
        let! k := load_u32 m iter in
        let! next := spa_pod_prop_next m iter in
        key_count_loop fuel m body size key next (if k =? key then u32 (count + 1) else count)
  end.

Definition spa_ndarray_format_key_count (m : mem) (format key : Z) : outcome Z :=
  let! ok := spa_pod_is_object_type m format SPA_TYPE_OBJECT_Format in
  if negb ok then Ret 0
  else
    let! size := load_u32 m format in
    key_count_loop (loop_fuel size) m (format + 8) size key (spa_pod_prop_first (format + 8)) 0.

(** The values [spa_pod_parse_object(format, SPA_TYPE_OBJECT_Format, NULL, ...)]
    stores. *)
Definition parse_format (m : mem) (format : Z) (items : list get_item)
  : outcome (list (option parser_val)) :=
  let! (_, vs) := spa_pod_parse_object m format SPA_TYPE_OBJECT_Format items in
  Ret (map got_value vs).

(** [key, SPA_POD_<Letter>(&v)]. *)
Definition wanted (key : Z) (letter : ascii) : get_item := mk_get key false false letter [].

(** The string is its address, [None] when the property is absent. *)
Definition spa_format_ndarray_parse_string (m : mem) (format key : Z) : outcome (option Z) :=
  let! n := spa_ndarray_format_key_count m format key in
  if 1 <? n then Err EINVAL
  else
    let! property := spa_pod_find_prop m format None key in
    match property with
    | None => Ret None
    | Some _ =>
        let! vs := parse_format m format [wanted key "s"] in
        match vs with
        | [Some (V_string v)] => Ret v
        | _ => Fault
        end
    end.

(** The copy of the dimensions, one at a time; a dimension that is not
    positive ends it. *)
Fixpoint shape_loop (m : mem) (values : Z) (i : Z) (n : nat) (sh : list Z) : outcome (Z * list Z) :=
  match n with
  | O => Ret (0, sh)
  | S n =>
      let! d := load_i32 m (values + 4 * i) in
      if d <=? 0 then Ret (- EINVAL, sh)
      else if zlen sh <=? i then Fault
      else shape_loop m values (i + 1) n (<[Z.to_nat i := u32 d]> sh)
  end.

(** A result a caller negates: the code and nothing else. *)
Definition code_of {A} (r : outcome A) : outcome Z :=
  match r with Ret _ => Ret 0 | Err e => Ret (- e) | Fault => Fault end.

(** [spa_pod_get_array_full(shape_pod, ...)] and what follows it; a NULL
    [shape_pod] is dereferenced. *)
Definition parse_shape (m : mem) (shape_pod : option Z) (info : spa_ndarray_info) (size : Z)
    (et lay : Z) (rt : spa_fraction) : outcome (Z * spa_ndarray_info) :=
  match shape_pod with
  | None => Fault
  | Some shape_pod =>
      let! arr := spa_pod_get_array_full m shape_pod in
      let max_dimensions := SPA_NDARRAY_INFO_MAX_DIMENSIONS size in
      match arr with
      | None => Ret (- EINVAL, info)
      | Some (values, (n, child_size, child_type)) =>
          if negb (child_size =? 4) || negb (child_type =? SPA_TYPE_Int) || (n =? 0)
             || (max_dimensions <? n) then Ret (- EINVAL, info)
          else
            let! (code, sh) := shape_loop m values 0 (Z.to_nat n) (shape info) in
            let info := mk_info et lay rt n sh in
            if code <? 0 then Ret (code, info)
            else let! code := code_of (spa_ndarray_info_ext_validate (Some info) size) in Ret (code, info)
      end
  end.

(** The code and the caller's structure. *)
Definition spa_format_ndarray_ext_parse (m : mem) (format : Z) (info : spa_ndarray_info) (size : Z)
  : outcome (Z * spa_ndarray_info) :=
  if negb (SPA_NDARRAY_INFO_VALID_SIZE size) then Ret (- EINVAL, info)
  else
    let count := spa_ndarray_format_key_count m format in
    let! n := count SPA_FORMAT_mediaType in
    if negb (n =? 1) then Ret (- EINVAL, info) else
    let! n := count SPA_FORMAT_mediaSubtype in
    if negb (n =? 1) then Ret (- EINVAL, info) else
    let! n := count SPA_FORMAT_NDARRAY_elementType in
    if negb (n =? 1) then Ret (- EINVAL, info) else
    let! n := count SPA_FORMAT_NDARRAY_shape in
    if negb (n =? 1) then Ret (- EINVAL, info) else
    let! n := count SPA_FORMAT_NDARRAY_layout in
    if negb (n =? 1) then Ret (- EINVAL, info) else
    let! n := count SPA_FORMAT_NDARRAY_rate in
    if 1 <? n then Ret (- EINVAL, info) else
    match parse_format m format
            [ wanted SPA_FORMAT_mediaType "I"; wanted SPA_FORMAT_mediaSubtype "I";
              wanted SPA_FORMAT_NDARRAY_elementType "I"; wanted SPA_FORMAT_NDARRAY_shape "P";
              wanted SPA_FORMAT_NDARRAY_layout "I" ] with
    | Fault => Fault
    | Err e => Ret (- e, info)
    | Ret [Some (V_num media_type); Some (V_num media_subtype); Some (V_num et);
           Some (V_pod shape_pod); Some (V_num lay)] =>
        let! n := count SPA_FORMAT_NDARRAY_rate in
        let parsed :=
          if n =? 1 then
            parse_format m format [wanted SPA_FORMAT_NDARRAY_rate "F"]
          else Ret [Some (V_fraction (mk_fraction 0 0))] in
        match parsed with
        | Fault => Fault
        | Err _ => Ret (- EINVAL, info)
        | Ret [Some (V_fraction rt)] =>
            if negb (media_type =? SPA_MEDIA_TYPE_application)
               || negb (media_subtype =? SPA_MEDIA_SUBTYPE_ndarray) then Ret (- EINVAL, info)
            else parse_shape m shape_pod info size et lay rt
        | Ret _ => Fault
        end
    | Ret _ => Fault
    end.

Definition spa_format_ndarray_parse (m : mem) (format : Z) (info : spa_ndarray_info)
  : outcome (Z * spa_ndarray_info) :=
  spa_format_ndarray_ext_parse m format info sizeof_ndarray_info.

(** ** Building *)

Definition spa_ndarray_rate_compare (a b : spa_fraction) : Z :=
  let left := u64 (num a * denom b) in
  let right := u64 (num b * denom a) in
  if left <? right then -1 else if right <? left then 1 else 0.

Definition spa_ndarray_rate_valid (r : spa_fraction) : bool :=
  negb (num r =? 0) && negb (denom r =? 0).

(** An array the caller passes is its elements, [None] for NULL. *)
Record spa_ndarray_choices : Type := mk_choices {
  n_element_types : Z;
  element_types : option (list Z);
  n_layouts : Z;
  layouts : option (list Z);
  rate_choice : Z;
  n_rate_values : Z;
  rate_values : option (list spa_fraction) }.

Definition array_at {A} (a : option (list A)) (i : Z) : outcome A :=
  match a with
  | None => Fault
  | Some l => match l !! Z.to_nat i with Some x => Ret x | None => Fault end
  end.

(** [for (i = 0; i < n; i++) if (!ok(a[i])) return -EINVAL;] *)
Fixpoint all_from {A} (a : option (list A)) (ok : A -> bool) (i : Z) (n : nat) : outcome unit :=
  match n with
  | O => Ret tt
  | S n => let! x := array_at a i in if ok x then all_from a ok (i + 1) n else Err EINVAL
  end.

Definition is_null {A} (a : option A) : bool := match a with None => true | Some _ => false end.

Definition spa_ndarray_choices_validate (info : option spa_ndarray_info) (size : Z)
    (choices : option spa_ndarray_choices) : outcome unit :=
  let! _ := spa_ndarray_info_ext_validate info size in
  match info, choices with
  | Some info, Some c =>
      if (negb (n_element_types c =? 0) && is_null (element_types c))
         || (negb (n_layouts c =? 0) && is_null (layouts c))
         || (negb (n_rate_values c =? 0) && is_null (rate_values c)) then Err EINVAL
      else
        let! _ := all_from (element_types c) (fun t => negb (spa_element_type_size t =? 0)) 0
                           (Z.to_nat (n_element_types c)) in
        let! _ := all_from (layouts c) (fun l => (l =? SPA_NDARRAY_LAYOUT_ROW_MAJOR)
                                                 || (l =? SPA_NDARRAY_LAYOUT_COLUMN_MAJOR)) 0
                           (Z.to_nat (n_layouts c)) in
        if denom (rate info) =? 0 then
          if (rate_choice c =? SPA_CHOICE_None) && (n_rate_values c =? 0) then Ret tt else Err EINVAL
        else
          let! _ := all_from (rate_values c) spa_ndarray_rate_valid 0 (Z.to_nat (n_rate_values c)) in
          let bounded :=
            let! v0 := array_at (rate_values c) 0 in
            if 0 <? spa_ndarray_rate_compare v0 (rate info) then Err EINVAL
            else
              let! v1 := array_at (rate_values c) 1 in
              if 0 <? spa_ndarray_rate_compare (rate info) v1 then Err EINVAL else Ret tt in
          if rate_choice c =? SPA_CHOICE_None then
            if n_rate_values c =? 0 then Ret tt else Err EINVAL
          else if rate_choice c =? SPA_CHOICE_Enum then
            if 0 <? n_rate_values c then Ret tt else Err EINVAL
          else if rate_choice c =? SPA_CHOICE_Range then
            if negb (n_rate_values c =? 2) then Err EINVAL else bounded
          else if rate_choice c =? SPA_CHOICE_Step then
            if negb (n_rate_values c =? 3) then Err EINVAL else bounded
          else Err EINVAL
  | _, _ => Ret tt
  end.

(** [for (i = from; i < from + n; i++) put(a[i]);] *)
Fixpoint put_from {A} (put : A -> ST spa_pod_builder Z) (a : option (list A)) (i : Z) (n : nat)
  : ST spa_pod_builder unit :=
  match n with
  | O => st_ret tt
  | S n => let* x := st_lift (array_at a i) in put x ;;; put_from put a (i + 1) n
  end.

Definition spa_ndarray_build_id (key value n_values : Z) (values : option (list Z))
  : ST spa_pod_builder unit :=
  spa_pod_builder_prop key 0 ;;;
  (if n_values =? 0 then spa_pod_builder_id value ;;; st_ret tt
   else
     spa_pod_builder_push_choice SPA_CHOICE_Enum 0 ;;;
     spa_pod_builder_id value ;;;
     spa_pod_builder_id value ;;;
     put_from spa_pod_builder_id values 0 (Z.to_nat n_values) ;;;
     spa_pod_builder_pop ;;; st_ret tt).

Definition put_fraction (f : spa_fraction) : ST spa_pod_builder Z :=
  spa_pod_builder_fraction (num f) (denom f).

Definition spa_ndarray_build_rate (r : spa_fraction) (choices : option spa_ndarray_choices)
  : ST spa_pod_builder unit :=
  spa_pod_builder_prop SPA_FORMAT_NDARRAY_rate 0 ;;;
  match choices with
  | None => put_fraction r ;;; st_ret tt
  | Some c =>
      if rate_choice c =? SPA_CHOICE_None then put_fraction r ;;; st_ret tt
      else
        spa_pod_builder_push_choice (rate_choice c) 0 ;;;
        put_fraction r ;;;
        (if rate_choice c =? SPA_CHOICE_Enum then put_fraction r else st_ret 0) ;;;
        put_from put_fraction (rate_values c) 0 (Z.to_nat (n_rate_values c)) ;;;
        spa_pod_builder_pop ;;; st_ret tt
  end.

(** The [n_dimensions] words of [info->shape] the builder copies. *)
Definition shape_bytes (info : spa_ndarray_info) : list byte :=
  concat (map le32 (take (Z.to_nat (n_dimensions info)) (shape info))).

(** NULL is [None]; the builder is not NULL. *)
Definition spa_format_ndarray_ext_build_choices (id : Z) (info : option spa_ndarray_info) (size : Z)
    (choices : option spa_ndarray_choices) : ST spa_pod_builder (option Z) :=
  let n_ets := match choices with None => 0 | Some c => n_element_types c end in
  let n_lays := match choices with None => 0 | Some c => n_layouts c end in
  let ets := match choices with None => None | Some c => element_types c end in
  let lays := match choices with None => None | Some c => layouts c end in
  let* res := st_try (st_lift (spa_ndarray_choices_validate info size choices)) in
  match res, info with
  | inl _, Some info =>
      spa_pod_builder_push_object SPA_TYPE_OBJECT_Format id ;;;
      spa_pod_builder_add
        [ item_prop SPA_FORMAT_mediaType (Arg_I SPA_MEDIA_TYPE_application);
          item_prop SPA_FORMAT_mediaSubtype (Arg_I SPA_MEDIA_SUBTYPE_ndarray) ] ;;;
      spa_ndarray_build_id SPA_FORMAT_NDARRAY_elementType (element_type info) n_ets ets ;;;
      spa_pod_builder_add
        [ item_prop SPA_FORMAT_NDARRAY_shape
            (Arg_a 4 SPA_TYPE_Int (n_dimensions info) (Some (shape_bytes info))) ] ;;;
      spa_ndarray_build_id SPA_FORMAT_NDARRAY_layout (layout info) n_lays lays ;;;
      (if negb (denom (rate info) =? 0) then spa_ndarray_build_rate (rate info) choices
       else st_ret tt) ;;;
      spa_pod_builder_pop
  | _, _ => st_ret None
  end.

Definition spa_format_ndarray_build_choices (id : Z) (info : option spa_ndarray_info)
    (choices : option spa_ndarray_choices) : ST spa_pod_builder (option Z) :=
  spa_format_ndarray_ext_build_choices id info sizeof_ndarray_info choices.
Definition spa_format_ndarray_ext_build (id : Z) (info : option spa_ndarray_info) (size : Z)
  : ST spa_pod_builder (option Z) := spa_format_ndarray_ext_build_choices id info size None.
Definition spa_format_ndarray_build (id : Z) (info : option spa_ndarray_info)
  : ST spa_pod_builder (option Z) := spa_format_ndarray_ext_build id info sizeof_ndarray_info.
