(* ===== verification/NdarrayFormatProofs.v ===== *)
(** * Ndarray formats: theorems

    The counts of a description are the product of its dimensions or an
    error, and the [Format] object built from a description is parsed back
    into it, also after a negotiation fixated the offered alternatives. *)
From S2P Require Import Prelude Bytes PodBody PodBuilder PodSpec PodParser PodSafety PodRoundTrip PodLookup.
From S2P Require Import PodIter PodIterProofs PodGetv NdarrayFormat.
From Stdlib Require Import Ascii.
#[local] Open Scope Z_scope.

(** ** Counting *)

Definition dims (info : spa_ndarray_info) : list Z := take (Z.to_nat (n_dimensions info)) (shape info).
Definition product (l : list Z) : Z := foldr Z.mul 1 l.
Definition dim_ok (d : Z) : Prop := 0 < d <= INT32_MAX.
Definition item_bytes (info : spa_ndarray_info) : Z := spa_element_type_size (element_type info).

(** The description the header promises to accept. *)
Record describes (info : spa_ndarray_info) (size : Z) : Prop := {
  de_size : shape_offset <= size;
  de_rank : 0 < n_dimensions info <= SPA_NDARRAY_INFO_MAX_DIMENSIONS size;
  de_type : item_bytes info <> 0;
  de_layout : layout info = SPA_NDARRAY_LAYOUT_ROW_MAJOR \/ layout info = SPA_NDARRAY_LAYOUT_COLUMN_MAJOR;
  de_rate : denom (rate info) = 0 <-> num (rate info) = 0;
  de_dims : Forall dim_ok (dims info) }.

(** The caller allocated [size] bytes of words. *)
Record allocated (info : spa_ndarray_info) (size : Z) : Prop := {
  al_words : SPA_NDARRAY_INFO_MAX_DIMENSIONS size <= zlen (shape info);
  al_rank : is_u32 (n_dimensions info);
  al_shape : Forall is_u32 (shape info) }.

#[global] Instance dim_ok_dec d : Decision (dim_ok d).
Proof. unfold dim_ok. apply _. Defined.
#[global] Instance describes_dec info size : Decision (describes info size).
Proof.
  refine (cast_if (decide (shape_offset <= size /\ (0 < n_dimensions info <= SPA_NDARRAY_INFO_MAX_DIMENSIONS size) /\
    item_bytes info <> 0 /\ (layout info = SPA_NDARRAY_LAYOUT_ROW_MAJOR \/ layout info = SPA_NDARRAY_LAYOUT_COLUMN_MAJOR) /\
    (denom (rate info) = 0 <-> num (rate info) = 0) /\ Forall dim_ok (dims info)))).
  - abstract (destruct_and!; by constructor).
  - abstract (intros [H1 H2 H3 H4 H5 H6]; exact (n (conj H1 (conj H2 (conj H3 (conj H4 (conj H5 H6))))))).
Defined.

Lemma product_pos l : Forall dim_ok l -> 1 <= product l.
Proof.
  induction 1 as [|d l Hd _ IH]; [done|]. change (1 <= d * product l). unfold dim_ok in Hd. nia.
Qed.

Lemma item_bytes_range t : 0 <= spa_element_type_size t <= 32.
Proof. unfold spa_element_type_size. repeat case_if; lia. Qed.

Lemma quotient_lt d e : 0 < d -> (SIZE_MAX / d <? e) = (SIZE_MAX <? e * d).
Proof.
  intros Hd. apply eq_bool_prop_intro. rewrite !Is_true_true, !Z.ltb_lt. split; intros H.
  - apply Z.nle_gt. intros H'. pose proof (Z.div_le_lower_bound SIZE_MAX d e). lia.
  - apply Z.div_lt_upper_bound; lia.
Qed.

Lemma count_loop_spec sh n i e :
  0 <= i -> (Z.to_nat i + n <= length sh)%nat -> Forall is_u32 sh -> 1 <= e <= SIZE_MAX ->
  let ds := take n (drop (Z.to_nat i) sh) in
  (Forall dim_ok ds ->
     count_loop sh i n e = if e * product ds <=? SIZE_MAX then Ret (e * product ds) else Err EOVERFLOW) /\
  (~ Forall dim_ok ds -> count_loop sh i n e = Err EINVAL \/ count_loop sh i n e = Err EOVERFLOW).
Proof.
  intros Hi Hn Hs. revert i e Hi Hn. induction n as [|n IH]; intros i e Hi Hn He; cbv zeta.
  { cbn. split; [intros _|intros []; constructor]. rewrite Z.mul_1_r. by rewrite (proj2 (Z.leb_le _ _)) by lia. }
  destruct (lookup_lt_is_Some_2 sh (Z.to_nat i) ltac:(lia)) as [d Ed].
  rewrite (drop_S _ _ _ Ed). cbn [take count_loop product foldr]. unfold shape_at. rewrite Ed. cbn [obind].
  assert (is_u32 d) as Hd by (by eapply Forall_lookup_1).
  specialize (IH (i + 1)). replace (Z.to_nat (i + 1)) with (S (Z.to_nat i)) in IH by lia.
  set (ds := take n (drop (S (Z.to_nat i)) sh)) in *. change (foldr Z.mul 1 ds) with (product ds).
  destruct ((d =? 0) || (INT32_MAX <? d)) eqn:E.
  { split; [|by left]. rewrite list.Forall_cons. intros [Hx _]. unfold dim_ok in Hx.
    apply orb_prop in E as []; bool_to_prop; lia. }
  bool_to_prop. rewrite quotient_lt by (unfold is_u32 in Hd; lia). unfold is_u32 in Hd.
  destruct (Z.ltb_spec SIZE_MAX (e * d)) as [Ho|Ho].
  - split; [|by right]. rewrite list.Forall_cons. intros [_ Hx]. pose proof (product_pos _ Hx).
    rewrite (proj2 (Z.leb_gt _ _)) by nia. done.
  - rewrite wrap_small by nia. destruct (IH (e * d) ltac:(lia) ltac:(lia) ltac:(nia)) as [IH1 IH2].
    fold ds in IH1, IH2. rewrite list.Forall_cons. split.
    + intros [_ Hx]. by rewrite IH1, Z.mul_assoc.
    + intros Hx. apply IH2. intros Hy. apply Hx. split; [unfold dim_ok; lia|done].
Qed.

Lemma counts_spec info size :
  allocated info size ->
  (describes info size ->
     spa_ndarray_info_ext_counts (Some info) size =
     if product (dims info) * item_bytes info <=? SIZE_MAX
     then Ret (product (dims info), product (dims info) * item_bytes info) else Err EOVERFLOW) /\
  (~ describes info size ->
     spa_ndarray_info_ext_counts (Some info) size = Err EINVAL \/
     spa_ndarray_info_ext_counts (Some info) size = Err EOVERFLOW).
Proof.
  intros [Hw Hr Hs]. unfold spa_ndarray_info_ext_counts, SPA_NDARRAY_INFO_VALID_SIZE.
  fold (item_bytes info). pose proof (item_bytes_range (element_type info)) as Hb. fold (item_bytes info) in Hb.
  unfold is_u32 in Hr.
  destruct (Z.leb_spec shape_offset size) as [H1|H1]; cbn [negb]; [|split; [intros []; lia|by left]].
  destruct (_ || _) eqn:E2; [split; [intros [_ ? _ _ _ _]; apply orb_prop in E2 as []; bool_to_prop; lia|by left]|].
  bool_to_prop. destruct (Z.eqb_spec (item_bytes info) 0) as [H3|H3]; [split; [by intros []|by left]|].
  destruct (_ && _) eqn:E4; [bool_to_prop; split; [intros [_ _ _ [] _ _]; lia|by left]|].
  assert (layout info = 1 \/ layout info = 2) as H4.
  { apply andb_false_iff in E4 as [E4|E4]; bool_to_prop; auto. }
  destruct (_ || _) eqn:E5.
  { split; [|by left]. intros [_ _ _ _ Hx _]. apply orb_prop in E5 as [E5|E5]; bool_to_prop; intuition. }
  apply orb_false_iff in E5 as [E5 E6].
  assert (denom (rate info) = 0 <-> num (rate info) = 0) as H5.
  { apply andb_false_iff in E5 as [E5|E5], E6 as [E6|E6]; bool_to_prop; lia. }
  destruct (count_loop_spec (shape info) (Z.to_nat (n_dimensions info)) 0 1) as [C1 C2];
    [lia|unfold zlen in *; lia|done|lia|]. change (drop (Z.to_nat 0) (shape info)) with (shape info) in C1, C2.
  fold (dims info) in C1, C2. split.
  - intros [_ _ _ _ _ Hd]. rewrite C1 by done. rewrite Z.mul_1_l. pose proof (product_pos _ Hd).
    destruct (Z.leb_spec (product (dims info)) SIZE_MAX) as [Hp|Hp]; cbn [obind].
    + rewrite quotient_lt by lia. rewrite Z.ltb_antisym.
      destruct (Z.leb_spec (product (dims info) * item_bytes info) SIZE_MAX); cbn [negb]; [|done].
      by rewrite wrap_small by nia.
    + by rewrite (proj2 (Z.leb_gt _ _)) by nia.
  - intros Hn. destruct C2 as [-> | ->]; [|by left|by right]. intros Hd. apply Hn. constructor; auto; lia.
Qed.

(** ** Building *)

Lemma appends_ext {A} (m m' : ST spa_pod_builder A) bs :
  (forall b, m b = m' b) -> appends m' bs -> appends m bs.
Proof. intros E [H1 H2]. split; [done|]. intros b. rewrite E. apply H2. Qed.

Lemma appends_then {A B} (m : ST spa_pod_builder A) (x : B) bs : appends m bs -> appends (m ;;; st_ret x) bs.
Proof. intros H. rewrite <- (app_nil_r bs). apply appends_bind; [done|apply appends_ret]. Qed.

Lemma appends_member k c {A} (m : ST spa_pod_builder A) :
  appends m (pod_enc c) -> appends (spa_pod_builder_prop k 0 ;;; m) (keyed_enc (k, 0, c)).
Proof.
  intros H. cbn [keyed_enc]. unfold enc_keyed. rewrite app_assoc. apply appends_bind; [|done].
  apply (appends_raw (le32 k ++ le32 0)). by autorewrite with zlen.
Qed.

(** Properties added by a variadic call. *)
Definition adds (x : Z * builder_arg * scalar) : Prop :=
  let '(k, a, s) := x in k <> 0 /\ SPA_POD_BUILDER_COLLECT a = build_scalar s /\ scalar_ok s.

Lemma appends_addv l :
  Forall adds l ->
  appends (addv_loop SPA_TYPE_Object (map (fun '(k, a, _) => item_prop k a) l))
          (concat (map (fun '(k, _, s) => keyed_enc (k, 0, Scalar s)) l)).
Proof.
  induction 1 as [|[[k a] s] l (Hk & Ha & Hs) _ IH]; [apply appends_ret|].
  cbn [map concat addv_loop item_prop item_flags item_key item_choice item_values].
  rewrite (proj2 (Z.eqb_neq _ _) Hk). cbn [andb negb Z.eqb Pos.eqb SPA_TYPE_Object SPA_TYPE_Sequence].
  cbn [collect_values]. rewrite Ha.
  eapply appends_ext;
    [|apply (appends_bind (spa_pod_builder_prop k 0 ;;; (build_scalar s ;;; st_ret 0)));
      [apply appends_member, appends_then, (build_pod_appends (Scalar s)), Hs|exact IH]].
  intros b. unfold st_bind, st_ret. destruct (spa_pod_builder_prop k 0 b) as [[] ?]; [|done..].
  by destruct (build_scalar s _) as [[] ?].
Qed.

Lemma appends_add l :
  Forall adds l ->
  appends_in SPA_TYPE_Object (spa_pod_builder_add (map (fun '(k, a, _) => item_prop k a) l))
             (concat (map (fun '(k, _, s) => keyed_enc (k, 0, Scalar s)) l)).
Proof.
  intros F. destruct (appends_addv l F) as [H1 H2]. split; [done|]. intros b Hp Ht Hf.
  unfold spa_pod_builder_add, spa_pod_builder_addv, st_bind, st_get.
  change (match b_frames b with [] => SPA_TYPE_None | f :: _ => pod_type (frame_pod f) end) with (top_type b).
  rewrite Ht. by apply H2.
Qed.

Lemma put_from_seq {A} (put : A -> ST spa_pod_builder Z) l n i b :
  0 <= i -> (Z.to_nat i + n <= length l)%nat ->
  put_from put (Some l) i n b = st_seq (map put (take n (drop (Z.to_nat i) l))) b.
Proof.
  revert i b. induction n as [|n IH]; intros i b Hi Hn; [done|].
  destruct (lookup_lt_is_Some_2 l (Z.to_nat i) ltac:(lia)) as [x Ex].
  rewrite (drop_S _ _ _ Ex). cbn [take map st_seq put_from array_at]. rewrite Ex.
  unfold st_bind, st_lift. destruct (put x b) as [[] b']; [|done..].
  rewrite IH by lia. by replace (Z.to_nat (i + 1)) with (S (Z.to_nat i)) by lia.
Qed.

(** The first [n] of the values the caller passes. *)
Definition passed {A} (a : option (list A)) (n : Z) : list A := take (Z.to_nat n) (default [] a).
Definition readable {A} (a : option (list A)) (n : Z) : Prop := 0 <= n <= zlen (default [] a).

Lemma put_from_passed {A} (put : A -> ST spa_pod_builder Z) a n b :
  readable a n -> put_from put a 0 (Z.to_nat n) b = st_seq (map put (passed a n)) b.
Proof.
  unfold readable, passed. intros Hn. destruct a as [l|]; cbn [from_option id] in *.
  - apply put_from_seq; [done|]. unfold zlen in Hn. cbn in Hn. lia.
  - unfold zlen in Hn. cbn in Hn. by replace n with 0 by lia.
Qed.

Definition id_value (value n : Z) (values : option (list Z)) : pod_val :=
  if n =? 0 then Scalar (SId value)
  else Choice SPA_CHOICE_Enum 0 (SId value) (SId value :: map SId (passed values n)).

Lemma appends_id key value n values :
  readable values n ->
  appends (spa_ndarray_build_id key value n values) (keyed_enc (key, 0, id_value value n values)).
Proof.
  intros Hr. unfold spa_ndarray_build_id, id_value. apply appends_member. case_if.
  - apply appends_then, (build_pod_appends (Scalar (SId value))). done.
  - set (c := Choice SPA_CHOICE_Enum 0 (SId value) (SId value :: map SId (passed values n))).
    eapply appends_ext; [|apply (appends_then (build_pod c) tt), build_pod_appends].
    + intros b. unfold c. cbn [build_pod map st_seq]. unfold st_bind at 1 6.
      unfold st_bind. destruct (spa_pod_builder_push_choice _ _ b) as [[] ?]; [|done..].
      cbn [build_scalar]. destruct (spa_pod_builder_id value _) as [[] ?]; [|done..].
      destruct (spa_pod_builder_id value _) as [[] ?]; [|done..].
      rewrite put_from_passed, map_map by done. cbn [build_scalar].
      destruct (st_seq _ _) as [[] ?]; [|done..]. by destruct (spa_pod_builder_pop _) as [[] ?].
    + split; [done|]. constructor; [by autorewrite with zlen|]. apply Forall_forall.
      intros s Hs. apply list_elem_of_In, list_elem_of_fmap in Hs as (v & -> & _). cbn. by split_and!.
Qed.

Definition rate_value (r : spa_fraction) (choices : option spa_ndarray_choices) : pod_val :=
  match choices with
  | None => Scalar (SFraction r)
  | Some c =>
      if rate_choice c =? SPA_CHOICE_None then Scalar (SFraction r)
      else Choice (rate_choice c) 0 (SFraction r)
             ((if rate_choice c =? SPA_CHOICE_Enum then [SFraction r] else [])
              ++ map SFraction (passed (rate_values c) (n_rate_values c)))
  end.

Lemma fractions_ok r l :
  Forall (fun s => scalar_is_array s = false /\ scalar_type s = scalar_type (SFraction r) /\
                   zlen (scalar_body s) = zlen (scalar_body (SFraction r))) (map SFraction l).
Proof.
  apply list.Forall_forall. intros s (f & -> & _)%list_elem_of_fmap. split_and!; [done..|].
  cbn. by autorewrite with zlen.
Qed.

Lemma appends_rate r choices :
  (forall c, choices = Some c -> readable (rate_values c) (n_rate_values c)) ->
  appends (spa_ndarray_build_rate r choices) (keyed_enc (SPA_FORMAT_NDARRAY_rate, 0, rate_value r choices)).
Proof.
  intros Hr. unfold spa_ndarray_build_rate, rate_value. apply appends_member.
  pose proof (appends_then _ tt _ (build_pod_appends (Scalar (SFraction r)) I)) as Hs.
  destruct choices as [c|]; [|exact Hs]. case_if; [exact Hs|].
  set (tl := (if rate_choice c =? SPA_CHOICE_Enum then [SFraction r] else [])
             ++ map SFraction (passed (rate_values c) (n_rate_values c))).
  eapply appends_ext;
    [|apply (appends_then (build_pod (Choice (rate_choice c) 0 (SFraction r) tl)) tt), build_pod_appends].
  - intros b. unfold tl. cbn [build_pod map st_seq build_scalar]. unfold put_fraction at 1. unfold st_bind.
    destruct (spa_pod_builder_push_choice _ _ b) as [[] ?]; [|done..].
    destruct (spa_pod_builder_fraction (num r) _ _) as [[] ?]; [|done..].
    destruct (rate_choice c =? SPA_CHOICE_Enum); cbn [app map st_seq build_scalar].
    + unfold st_bind. change (put_fraction r) with (spa_pod_builder_fraction (num r) (denom r)).
      destruct (spa_pod_builder_fraction (num r) _ _) as [[] ?]; [|done..].
      rewrite put_from_passed, map_map by auto. change (fun x => build_scalar (SFraction x)) with put_fraction.
      destruct (st_seq _ _) as [[] ?]; [|done..]. by destruct (spa_pod_builder_pop _) as [[] ?].
    + unfold st_ret at 1. rewrite put_from_passed, map_map by auto.
      change (fun x => build_scalar (SFraction x)) with put_fraction.
      destruct (st_seq _ _) as [[] ?]; [|done..]. by destruct (spa_pod_builder_pop _) as [[] ?].
  - split; [done|]. unfold tl. apply Forall_app_2; [|apply fractions_ok].
    case_if; [apply (fractions_ok r [r])|constructor].
Qed.

(** The properties of the object that offers [info] with [choices]. *)
Definition offered_types (choices : option spa_ndarray_choices) : Z * option (list Z) :=
  match choices with None => (0, None) | Some c => (n_element_types c, element_types c) end.
Definition offered_layouts (choices : option spa_ndarray_choices) : Z * option (list Z) :=
  match choices with None => (0, None) | Some c => (n_layouts c, layouts c) end.
Definition format_members (info : spa_ndarray_info) (choices : option spa_ndarray_choices)
  : list prop_member :=
  [ (SPA_FORMAT_mediaType, 0, Scalar (SId SPA_MEDIA_TYPE_application));
    (SPA_FORMAT_mediaSubtype, 0, Scalar (SId SPA_MEDIA_SUBTYPE_ndarray));
    (SPA_FORMAT_NDARRAY_elementType, 0,
      id_value (element_type info) (offered_types choices).1 (offered_types choices).2);
    (SPA_FORMAT_NDARRAY_shape, 0, Scalar (SArray 4 SPA_TYPE_Int (shape_bytes info)));
    (SPA_FORMAT_NDARRAY_layout, 0,
      id_value (layout info) (offered_layouts choices).1 (offered_layouts choices).2) ]
  ++ (if denom (rate info) =? 0 then []
      else [(SPA_FORMAT_NDARRAY_rate, 0, rate_value (rate info) choices)]).
Definition format_object (id : Z) (info : spa_ndarray_info) (choices : option spa_ndarray_choices) : pod_val :=
  Object SPA_TYPE_OBJECT_Format id (format_members info choices).

(** The caller's arrays are as long as it says. *)
Definition choices_readable (choices : option spa_ndarray_choices) : Prop :=
  match choices with
  | None => True
  | Some c => readable (element_types c) (n_element_types c) /\ readable (layouts c) (n_layouts c) /\
              readable (rate_values c) (n_rate_values c)
  end.

Lemma zlen_le32s l : zlen (concat (map le32 l)) = 4 * zlen l.
Proof. induction l as [|x l IH]; [done|]. cbn [map concat]. zlia. Qed.

Lemma zlen_shape_bytes info :
  0 <= n_dimensions info <= zlen (shape info) -> zlen (shape_bytes info) = 4 * n_dimensions info.
Proof.
  intros H. unfold shape_bytes. rewrite zlen_le32s. unfold zlen in *. rewrite length_take. lia.
Qed.

Lemma adds_shape info :
  0 <= n_dimensions info <= zlen (shape info) -> is_u32 (n_dimensions info) ->
  adds (SPA_FORMAT_NDARRAY_shape, Arg_a 4 SPA_TYPE_Int (n_dimensions info) (Some (shape_bytes info)),
        SArray 4 SPA_TYPE_Int (shape_bytes info)).
Proof.
  intros Hn Hu. split; [done|]. cbn [SPA_POD_BUILDER_COLLECT build_scalar scalar_ok].
  rewrite (zlen_shape_bytes _ Hn), (Z.mul_comm 4), Z.div_mul, Z.mod_mul by done.
  change (u32 4) with 4. change (u32 SPA_TYPE_Int) with SPA_TYPE_Int. by rewrite wrap_small.
Qed.

Lemma appends_members info choices :
  choices_readable choices -> 0 <= n_dimensions info <= zlen (shape info) -> is_u32 (n_dimensions info) ->
  appends_in SPA_TYPE_Object
    (spa_pod_builder_add
       [ item_prop SPA_FORMAT_mediaType (Arg_I SPA_MEDIA_TYPE_application);
         item_prop SPA_FORMAT_mediaSubtype (Arg_I SPA_MEDIA_SUBTYPE_ndarray) ] ;;;
     spa_ndarray_build_id SPA_FORMAT_NDARRAY_elementType (element_type info)
       (offered_types choices).1 (offered_types choices).2 ;;;
     spa_pod_builder_add
       [ item_prop SPA_FORMAT_NDARRAY_shape
           (Arg_a 4 SPA_TYPE_Int (n_dimensions info) (Some (shape_bytes info))) ] ;;;
     spa_ndarray_build_id SPA_FORMAT_NDARRAY_layout (layout info)
       (offered_layouts choices).1 (offered_layouts choices).2 ;;;
     (if negb (denom (rate info) =? 0) then spa_ndarray_build_rate (rate info) choices else st_ret tt))
    (concat (map keyed_enc (format_members info choices))).
Proof.
  intros Hc Hn Hu. unfold format_members. cbn [app]. rewrite map_cons, concat_cons, map_cons, concat_cons, app_assoc.
  apply appends_in_bind.
  { rewrite <- (app_nil_r (keyed_enc (SPA_FORMAT_mediaSubtype, 0, _))).
    apply (appends_add [(SPA_FORMAT_mediaType, Arg_I SPA_MEDIA_TYPE_application, SId SPA_MEDIA_TYPE_application);
                        (SPA_FORMAT_mediaSubtype, Arg_I SPA_MEDIA_SUBTYPE_ndarray, SId SPA_MEDIA_SUBTYPE_ndarray)]).
    by repeat constructor. }
  rewrite map_cons, concat_cons. apply appends_in_bind.
  { apply appends_any, appends_id. destruct choices; [apply Hc|done]. }
  rewrite map_cons, concat_cons. apply appends_in_bind.
  { rewrite <- (app_nil_r (keyed_enc (SPA_FORMAT_NDARRAY_shape, 0, _))).
    apply (appends_add [(SPA_FORMAT_NDARRAY_shape,
      Arg_a 4 SPA_TYPE_Int (n_dimensions info) (Some (shape_bytes info)),
      SArray 4 SPA_TYPE_Int (shape_bytes info))]). constructor; [|constructor]. by apply adds_shape. }
  rewrite map_cons, concat_cons. apply appends_in_bind.
  { apply appends_any, appends_id. destruct choices; [apply Hc|done]. }
  destruct (denom (rate info) =? 0); cbn [negb map concat]; [apply appends_any, appends_ret|].
  rewrite app_nil_r. apply appends_any, appends_rate. intros c ->. apply Hc.
Qed.

(** Run the calls of both sides of an equation in step. *)
Ltac in_step :=
  repeat match goal with
  | |- context [match ?x with _ => _ end] =>
      lazymatch x with
      | context [match _ with _ => _ end] => fail
      | _ => lazymatch type of x with (outcome _ * spa_pod_builder)%type => destruct x as [[] ?]; [|done..] end
      end
  end.

Lemma build_choices_spec id info size choices b :
  spa_ndarray_choices_validate (Some info) size choices = Ret tt -> choices_readable choices ->
  0 <= n_dimensions info <= zlen (shape info) -> is_u32 (n_dimensions info) ->
  plain b -> fits b (zlen (pod_enc (format_object id info choices))) ->
  spa_format_ndarray_ext_build_choices id (Some info) size choices b =
  (Ret (Some (b_offset b)), append_bytes (pod_enc (format_object id info choices)) b).
Proof.
  intros Hv Hc Hn Hu Hp Hf.
  pose (pod := mk_pod 8 SPA_TYPE_Object). pose (hdr := le32 SPA_TYPE_OBJECT_Format ++ le32 id).
  assert (pod_enc (format_object id info choices) =
          enc_padded SPA_TYPE_Object (hdr ++ concat (map keyed_enc (format_members info choices)))) as E.
  { unfold pod_enc, format_object, hdr. cbn [pod_val_type]. rewrite object_body. by rewrite <- app_assoc. }
  rewrite E in *.
  pose proof (container_returns pod hdr _ _ b ltac:(unfold hdr; by autorewrite with zlen)
    ltac:(unfold hdr; by autorewrite with zlen) ltac:(done) ltac:(done)
    (appends_members info choices Hc Hn Hu) Hp Hf) as K.
  change (enc_padded SPA_TYPE_Object _) with (enc_padded (pod_type pod)
    (hdr ++ concat (map keyed_enc (format_members info choices)))). rewrite <- K.
  unfold spa_format_ndarray_ext_build_choices, spa_pod_builder_push_object, offered_types, offered_layouts.
  fold pod hdr. unfold st_bind, st_try, st_lift. rewrite Hv. destruct choices; cbn [fst snd]; in_step; done.
Qed.

(** ** Parsing *)

Definition occurrences (key : Z) (l : list prop_member) : Z :=
  zlen (List.filter (fun x => member_key x =? key) l).

Lemma key_count_loop_spec base size key xs m it fuel count :
  Forall prop_ok xs -> at_suffix base size m it xs -> (length xs < fuel)%nat ->
  0 <= count -> count + zlen xs < 2 ^ 32 ->
  key_count_loop fuel m base size key it count = Ret (count + occurrences key xs).
Proof.
  intros F. revert it fuel count. induction F as [|[[k f] c] xs Hx _ IH]; intros it [|fuel] count Hat Hf Hc Hl;
    cbn in Hf; try lia; cbn [key_count_loop].
  - rewrite (suffix_nil _ _ _ _ Hat). cbn [obind negb]. by rewrite Z.add_0_r.
  - destruct (suffix_cons base size m it k f c xs Hx Hat) as (Hp & Ek & Hat' & _).
    rewrite (ap_inside _ _ _ _ _ _ _ Hp). cbn [obind negb]. rewrite Ek. cbn [obind].
    rewrite (ap_next _ _ _ _ _ _ _ Hp). cbn [obind]. unfold zlen in Hl. cbn in Hl.
    assert (0 <= zlen xs) by apply zlen_nonneg. unfold occurrences. cbn [List.filter].
    change (member_key (k, f, c)) with k. destruct (k =? key).
    + rewrite wrap_small by lia. rewrite IH; [|done|lia|lia|unfold zlen in *; lia].
      unfold occurrences. rewrite zlen_cons. f_equal. lia.
    + rewrite IH; [done|done|lia|lia|unfold zlen in *; lia].
Qed.

Lemma object_type_check t i members m off :
  let obj := Object t i members in
  is_u32 t -> zlen (pod_body obj) < 2 ^ 20 -> holds m off (pod_enc obj) ->
  spa_pod_is_object_type m off t = Ret true.
Proof.
  intros obj Ht L H. pose proof (object_header _ _ _ _ _ L H) as Eh. fold obj in Eh.
  pose proof (object_size t i members) as Ls. fold obj in Ls. pose proof (zlen_nonneg (concat (map keyed_enc members))).
  pose proof (enc_padded_body _ _ _ _ H) as Hb. unfold obj in Hb. rewrite object_body in Hb.
  unfold spa_pod_is_object_type. rewrite Eh. cbn [obind].
  assert (spa_pod_is_object (mk_pod (zlen (pod_body obj)) SPA_TYPE_Object) = true) as -> by (apply check_true; lia).
  rewrite (holds_u32' m (off + 8) t) by (done || by eapply holds_app_l). cbn [obind]. by rewrite Z.eqb_refl.
Qed.

Lemma key_count_spec id members m off key :
  let obj := Object SPA_TYPE_OBJECT_Format id members in
  zlen (pod_body obj) < 2 ^ 20 -> holds m off (pod_enc obj) -> off mod 8 = 0 -> Forall prop_ok members ->
  spa_ndarray_format_key_count m off key = Ret (occurrences key members).
Proof.
  intros obj L H Ha F. unfold spa_ndarray_format_key_count.
  rewrite (object_type_check SPA_TYPE_OBJECT_Format id members) by done. cbn [obind negb].
  rewrite (object_load_size SPA_TYPE_OBJECT_Format id members m off L H). cbn [obind].
  pose proof (object_suffix SPA_TYPE_OBJECT_Format id members m off H Ha 0) as Hat.
  rewrite drop_0, member_offset_0 in Hat. destruct (object_fuel SPA_TYPE_OBJECT_Format id members 0) as [F1 _].
  rewrite drop_0 in F1. unfold spa_pod_prop_first. replace (off + 8 + 8) with (off + 16) by lia.
  assert (zlen members < 2 ^ 32) by (unfold loop_fuel in F1; unfold obj in L; unfold zlen at 1; lia).
  by rewrite (key_count_loop_spec _ _ key members) by (done || lia).
Qed.

Lemma occurrences_one key members :
  NoDup (map member_key members) ->
  occurrences key members = if bool_decide (key ∈ map member_key members) then 1 else 0.
Proof.
  induction members as [|x l IH]; [done|]. cbn [map]. intros [Hx Hl]%list.NoDup_cons. unfold occurrences in *.
  cbn [List.filter]. destruct (Z.eqb_spec (member_key x) key) as [<-|Hk].
  - rewrite zlen_cons, IH, !bool_decide_decide by done.
    by rewrite (decide_False (P := _ ∈ map _ l)), decide_True by (done || by left).
  - rewrite IH by done. apply f_equal with (f := fun b : bool => if b then 1 else 0), bool_decide_ext.
    rewrite elem_of_cons. split; [by right|]. intros [E|E]; [by destruct Hk|done].
Qed.

(** The value is [s], or a choice that is closed on it. *)
Definition closed_on (s : scalar) (c : pod_val) : Prop :=
  c = Scalar s \/ exists fl tl, is_u32 fl /\ c = Choice SPA_CHOICE_None fl s tl.

Lemma get_choice_holds ct fl hd tl m off :
  let p := Choice ct fl hd tl in
  is_u32 ct -> is_u32 fl -> zlen (pod_body p) < 2 ^ 20 -> holds m off (pod_body p) ->
  let pod := mk_pod (zlen (pod_body p)) SPA_TYPE_Choice in
  spa_pod_body_get_choice pod m off =
    Ret (mk_choice pod ct fl (mk_pod (zlen (scalar_body hd)) (scalar_type hd)), off + 16) /\
  holds m (off + 16) (scalar_body hd).
Proof.
  intros p Hct Hfl L H pod. unfold spa_pod_body_get_choice. unfold pod at 1.
  pose proof (choice_header p L) as E. cbn [p pod_val_type is_choice_val] in E. rewrite E. cbn [negb].
  unfold p in H. cbn [pod_body] in H. rewrite (holds_u32' _ _ _ Hct (holds_app_l _ _ _ _ H)). cbn [obind].
  apply holds_app_r in H. rewrite zlen_le32 in H.
  rewrite (holds_u32' _ _ _ Hfl (holds_app_l _ _ _ _ H)). cbn [obind].
  apply holds_app_r in H. rewrite zlen_le32 in H. replace (off + 4 + 4) with (off + 8) in H by lia.
  assert (zlen (scalar_body hd) < 2 ^ 20).
  { unfold p in L. cbn [pod_body] in L. autorewrite with zlen in L.
    pose proof (zlen_nonneg (concat (map scalar_body tl))). lia. }
  pose proof (zlen_nonneg (scalar_body hd)).
  rewrite (holds_pod m (off + 8) (mk_pod (zlen (scalar_body hd)) (scalar_type hd)));
    [|unfold is_u32; cbn [pod_size]; lia|apply scalar_type_u32|by eapply holds_app_l].
  split; [done|]. apply holds_app_r, holds_app_l in H. rewrite zlen_enc_pod in H.
  by replace (off + 8 + 8) with (off + 16) in H by lia.
Qed.

Lemma collect_closed m it s c addr :
  closed_on s c -> zlen (pod_body c) < 2 ^ 20 -> holds m addr (item_enc c) ->
  ch (get_type it) "V" = false -> ch (get_type it) "W" = false ->
  exists a, holds m a (scalar_body s) /\ zlen (scalar_body s) < 2 ^ 20 /\
    forall v, collects m it c addr v <->
      SPA_POD_PARSER_COLLECT_BODY (mk_pod (zlen (scalar_body s)) (scalar_type s)) m (Some a)
        (get_type it) (get_dest it) (zlen (get_dest it)) = Ret v.
Proof.
  intros Hc L H HV HW. pose proof (enc_padded_body _ _ _ _ H) as Hb.
  destruct Hc as [->|(fl & tl & Hfl & ->)]; [by exists (addr + 8)|].
  destruct (get_choice_holds SPA_CHOICE_None fl s tl m (addr + 8)) as [E Hs]; [done..|].
  exists (addr + 8 + 16). split; [done|]. split.
  { cbn [pod_body] in L. autorewrite with zlen in L. pose proof (zlen_nonneg (concat (map scalar_body tl))). lia. }
  intros v. unfold collects, SPA_POD_PARSER_COLLECT_BODY.
  set (pod := mk_pod (zlen (pod_body (Choice SPA_CHOICE_None fl s tl))) SPA_TYPE_Choice) in *.
  cbn [pod_val_type]. fold pod. cbn [from_option id]. cbn [pod_type pod]. fold pod. rewrite E, HV, HW.
  assert ((scalar_type s =? SPA_TYPE_Choice) = false) as -> by (by destruct s).
  cbn [andb negb Z.eqb Pos.eqb SPA_TYPE_Choice obind choice_type SPA_CHOICE_None choice_child from_option id]. done.
Qed.

Lemma collects_id m key v c addr :
  is_u32 v -> closed_on (SId v) c -> zlen (pod_body c) < 2 ^ 20 -> holds m addr (item_enc c) ->
  forall w, collects m (wanted key "I") c addr w <-> w = V_num v.
Proof.
  intros Hv Hc L H w. destruct (collect_closed m (wanted key "I") _ _ _ Hc L H eq_refl eq_refl) as (a & Ha & _ & ->).
  cbn [scalar_body scalar_type] in *. unfold SPA_POD_PARSER_COLLECT_BODY, spa_pod_body_get_id, spa_pod_is_id.
  cbn [pod_type Z.eqb Pos.eqb andb obind wanted get_type from_option id]. cbn -[le32 load_u32].
  rewrite check_true by (done || by autorewrite with zlen). cbn [negb]. rewrite (holds_u32' _ _ _ Hv Ha).
  cbn. split; [by intros [= <-]|by intros ->].
Qed.

Lemma collects_fraction m key r c addr :
  is_u32 (num r) -> is_u32 (denom r) -> closed_on (SFraction r) c -> zlen (pod_body c) < 2 ^ 20 ->
  holds m addr (item_enc c) ->
  forall w, collects m (wanted key "F") c addr w <-> w = V_fraction r.
Proof.
  intros Hn Hd Hc L H w.
  destruct (collect_closed m (wanted key "F") _ _ _ Hc L H eq_refl eq_refl) as (a & Ha & _ & ->).
  destruct r as [n d]. cbn [scalar_body scalar_type num denom] in *.
  unfold SPA_POD_PARSER_COLLECT_BODY, spa_pod_body_get_fraction, spa_pod_is_fraction.
  cbn -[le32 load_u32]. rewrite check_true by (done || by autorewrite with zlen). cbn [negb].
  rewrite (holds_u32' _ _ _ Hn (holds_app_l _ _ _ _ Ha)). cbn [obind].
  apply holds_app_r in Ha. rewrite zlen_le32 in Ha. rewrite (holds_u32' _ _ _ Hd Ha).
  cbn. split; [by intros [= <-]|by intros ->].
Qed.

Lemma collects_array m key cs ct elems addr w :
  collects m (wanted key "P") (Scalar (SArray cs ct elems)) addr w <-> w = V_pod (Some addr).
Proof.
  unfold collects, SPA_POD_PARSER_COLLECT_BODY. cbn -[zlen]. replace (addr + 8 - 8) with addr by lia.
  split; [by intros [= <-]|by intros ->].
Qed.

Lemma shape_loop_spec m values n i ds sh :
  0 <= i -> length ds = n -> (Z.to_nat i + n <= length sh)%nat -> Forall dim_ok ds ->
  holds m (values + 4 * i) (concat (map le32 ds)) ->
  shape_loop m values i n sh = Ret (0, take (Z.to_nat i) sh ++ ds ++ drop (Z.to_nat i + n) sh).
Proof.
  revert i ds sh. induction n as [|n IH]; intros i ds sh Hi El Hn F H.
  { destruct ds; [|done]. cbn. by rewrite Nat.add_0_r, take_drop. }
  destruct ds as [|d ds]; [done|]. apply list.Forall_cons in F as [Hd F]. cbn [map concat] in H.
  unfold dim_ok in Hd. cbn [shape_loop].
  rewrite (holds_i32' _ _ d ltac:(unfold is_i32; lia) (holds_app_l _ _ _ _ H)). cbn [obind].
  rewrite (proj2 (Z.leb_gt d 0)) by lia. rewrite (proj2 (Z.leb_gt (zlen sh) i)) by (unfold zlen; lia).
  apply holds_app_r in H. rewrite zlen_le32 in H. rewrite wrap_small by lia.
  rewrite (IH (i + 1) ds); [|lia|by injection El|rewrite length_insert; lia|done|by
    replace (values + 4 * (i + 1)) with (values + 4 * i + 4) by lia].
  replace (Z.to_nat (i + 1)) with (S (Z.to_nat i)) by lia. do 2 f_equal.
  rewrite (take_S_r _ _ d) by (apply list_lookup_insert_eq; lia).
  rewrite take_insert_ge by lia. rewrite drop_insert_lt by lia.
  rewrite <- app_assoc. cbn [app]. do 4 f_equal. lia.
Qed.

(** The object spells [info]: its keys are distinct and carry the fields,
    each fixed; other keys may be there. *)
Record spells (info : spa_ndarray_info) (members : list prop_member) : Prop := {
  sp_ok : Forall prop_ok members;
  sp_distinct : NoDup (map member_key members);
  sp_field : forall k s,
    (k, s) ∈ [ (SPA_FORMAT_mediaType, SId SPA_MEDIA_TYPE_application);
               (SPA_FORMAT_mediaSubtype, SId SPA_MEDIA_SUBTYPE_ndarray);
               (SPA_FORMAT_NDARRAY_elementType, SId (element_type info));
               (SPA_FORMAT_NDARRAY_layout, SId (layout info)) ] ->
    exists f c, (k, f, c) ∈ members /\ closed_on s c;
  sp_shape : exists f, (SPA_FORMAT_NDARRAY_shape, f, Scalar (SArray 4 SPA_TYPE_Int (shape_bytes info))) ∈ members;
  sp_rate : if denom (rate info) =? 0 then SPA_FORMAT_NDARRAY_rate ∉ map member_key members
            else exists f c, (SPA_FORMAT_NDARRAY_rate, f, c) ∈ members /\ closed_on (SFraction (rate info)) c }.

(** The fields are values of their C types. *)
Record in_range (info : spa_ndarray_info) : Prop := {
  ra_type : is_u32 (element_type info);
  ra_layout : is_u32 (layout info);
  ra_num : is_u32 (num (rate info));
  ra_denom : is_u32 (denom (rate info)) }.

Section Parse.
Context (id : Z) (info : spa_ndarray_info) (members : list prop_member) (m : mem) (off : Z).
#[local] Notation obj := (Object SPA_TYPE_OBJECT_Format id members).
Hypothesis sp : spells info members.
Hypothesis ra : in_range info.
Hypothesis idr : is_u32 id.
Hypothesis small : zlen (pod_body obj) < 2 ^ 20.
Hypothesis here : holds m off (pod_enc obj).
Hypothesis aligned : off mod 8 = 0.

Lemma count_present key f c : (key, f, c) ∈ members -> spa_ndarray_format_key_count m off key = Ret 1.
Proof.
  intros H. rewrite (key_count_spec id members) by (done || apply sp).
  rewrite occurrences_one, bool_decide_true by (apply sp || by apply (list_elem_of_fmap_2 member_key) in H). done.
Qed.

Lemma count_rate :
  spa_ndarray_format_key_count m off SPA_FORMAT_NDARRAY_rate = Ret (if denom (rate info) =? 0 then 0 else 1).
Proof.
  pose proof (sp_rate _ _ sp) as H. destruct (denom (rate info) =? 0).
  - rewrite (key_count_spec id members) by (done || apply sp).
    by rewrite occurrences_one, bool_decide_false by (apply sp || done).
  - destruct H as (f & c & H & _). by eapply count_present.
Qed.

Lemma field_serves k s letter v :
  k <> 0 -> (exists f c, (k, f, c) ∈ members /\ closed_on s c) ->
  (forall c addr, closed_on s c -> zlen (pod_body c) < 2 ^ 20 -> holds m addr (item_enc c) ->
     forall w, collects m (wanted k letter) c addr w <-> w = v) ->
  exists x, serves m members (wanted k letter) x /\ forall w, served m (wanted k letter) x w -> w = Some v.
Proof.
  intros Hk (f & c & Hx & Hc) Hl. exists (k, f, c).
  assert (prop_ok (k, f, c)) as (_ & _ & L) by (pose proof (sp_ok _ _ sp) as F; rewrite list.Forall_forall in F; auto).
  split.
  - split_and!; [done|done|done|done|]. intros addr H. exists v. by apply (Hl c addr Hc L H).
  - intros w (addr & u & -> & H & E). f_equal. by apply (Hl c addr Hc L H).
Qed.

Lemma id_serves k v :
  k <> 0 -> is_u32 v -> (exists f c, (k, f, c) ∈ members /\ closed_on (SId v) c) ->
  exists x, serves m members (wanted k "I") x /\ forall w, served m (wanted k "I") x w -> w = Some (V_num v).
Proof. intros Hk Hv H. eapply field_serves; [done|exact H|]. intros. by apply collects_id. Qed.

Lemma parse_format_ids :
  exists addr, holds m addr (item_enc (Scalar (SArray 4 SPA_TYPE_Int (shape_bytes info)))) /\
  parse_format m off
    [ wanted SPA_FORMAT_mediaType "I"; wanted SPA_FORMAT_mediaSubtype "I";
      wanted SPA_FORMAT_NDARRAY_elementType "I"; wanted SPA_FORMAT_NDARRAY_shape "P";
      wanted SPA_FORMAT_NDARRAY_layout "I" ] =
  Ret [ Some (V_num SPA_MEDIA_TYPE_application); Some (V_num SPA_MEDIA_SUBTYPE_ndarray);
        Some (V_num (element_type info)); Some (V_pod (Some addr)); Some (V_num (layout info)) ].
Proof.
  pose proof (sp_field _ _ sp) as Hf.
  destruct (id_serves SPA_FORMAT_mediaType SPA_MEDIA_TYPE_application) as (x1 & S1 & E1); [done|done|apply Hf; by repeat constructor|].
  destruct (id_serves SPA_FORMAT_mediaSubtype SPA_MEDIA_SUBTYPE_ndarray) as (x2 & S2 & E2); [done|done|apply Hf; by repeat constructor|].
  destruct (id_serves SPA_FORMAT_NDARRAY_elementType (element_type info)) as (x3 & S3 & E3);
    [done|apply ra|apply Hf; by repeat constructor|].
  destruct (id_serves SPA_FORMAT_NDARRAY_layout (layout info)) as (x5 & S5 & E5); [done|apply ra|apply Hf; by repeat constructor|].
  destruct (sp_shape _ _ sp) as (f & Hs). set (x4 := (SPA_FORMAT_NDARRAY_shape, f, Scalar _)) in Hs.
  assert (serves m members (wanted SPA_FORMAT_NDARRAY_shape "P") x4) as S4.
  { split_and!; [done|done|done|done|]. intros addr _. exists (V_pod (Some addr)). by apply collects_array. }
  destruct (parse_object_members m off SPA_TYPE_OBJECT_Format id members (sp_ok _ _ sp) small here
    (sp_distinct _ _ sp)
    [ wanted SPA_FORMAT_mediaType "I"; wanted SPA_FORMAT_mediaSubtype "I";
      wanted SPA_FORMAT_NDARRAY_elementType "I"; wanted SPA_FORMAT_NDARRAY_shape "P";
      wanted SPA_FORMAT_NDARRAY_layout "I" ] [x1; x2; x3; x4; x5] aligned ltac:(done) idr
    ltac:(repeat (constructor; [done|]); constructor)) as (vs & E & L & F).
  destruct vs as [|v1 [|v2 [|v3 [|v4 [|v5 [|]]]]]]; try done. cbn [map zip zip_with] in F.
  apply list.Forall2_cons in F as [F1 F]. apply list.Forall2_cons in F as [F2 F].
  apply list.Forall2_cons in F as [F3 F]. apply list.Forall2_cons in F as [F4 F].
  apply list.Forall2_cons in F as [F5 _]. unfold parse_format. rewrite E. cbn [obind map].
  destruct F4 as (addr & u & Eu & Hh & Ec).
  apply collects_array in Ec as ->. exists addr. split; [done|]. rewrite Eu. do 2 f_equal; [by apply E1|].
  f_equal; [by apply E2|]. f_equal; [by apply E3|]. do 2 f_equal. by apply E5.
Qed.

Lemma parse_format_rate :
  denom (rate info) <> 0 ->
  parse_format m off [wanted SPA_FORMAT_NDARRAY_rate "F"] = Ret [Some (V_fraction (rate info))].
Proof.
  intros Hd. pose proof (sp_rate _ _ sp) as H. rewrite (proj2 (Z.eqb_neq _ _) Hd) in H.
  destruct (field_serves SPA_FORMAT_NDARRAY_rate (SFraction (rate info)) "F" (V_fraction (rate info)))
    as (x & S & E); [done|exact H|intros; apply collects_fraction; (done || apply ra)|].
  destruct (parse_object_members m off SPA_TYPE_OBJECT_Format id members (sp_ok _ _ sp) small here
    (sp_distinct _ _ sp) [wanted SPA_FORMAT_NDARRAY_rate "F"] [x] aligned ltac:(done) idr
    ltac:(constructor; [done|constructor])) as (vs & Ep & L & F).
  destruct vs as [|v [|]]; try done. cbn [map zip zip_with] in F. apply list.Forall2_cons in F as [F _].
  unfold parse_format. rewrite Ep. cbn [obind map]. do 2 f_equal. by apply E.
Qed.

(** What the caller finds in its structure. *)
Definition filled (out : spa_ndarray_info) : spa_ndarray_info :=
  mk_info (element_type info) (layout info) (rate info) (n_dimensions info)
          (dims info ++ drop (Z.to_nat (n_dimensions info)) (shape out)).

Lemma filled_facts out size :
  allocated info size -> describes info size -> SPA_NDARRAY_INFO_MAX_DIMENSIONS size <= zlen (shape out) ->
  Forall is_u32 (shape out) ->
  zlen (dims info) = n_dimensions info /\ dims (filled out) = dims info /\
  allocated (filled out) size /\ describes (filled out) size.
Proof.
  intros [Hw Hr Hs] D Ho Hu. pose proof (de_rank _ _ D) as Hk.
  assert (zlen (dims info) = n_dimensions info) as E by (unfold dims, zlen in *; rewrite length_take; lia).
  assert (dims (filled out) = dims info) as Ed.
  { unfold dims at 1. cbn [filled n_dimensions shape]. rewrite take_app_length'; [done|unfold zlen in E; lia]. }
  split; [done|]. split; [done|]. split.
  - constructor; cbn [filled shape n_dimensions]; [| |apply Forall_app_2; [by apply Forall_take|by apply Forall_drop]].
    + unfold zlen in *. rewrite length_app, length_drop. lia.
    + done.
  - destruct D. constructor; try done. by rewrite Ed.
Qed.

Lemma shape_array addr :
  0 <= n_dimensions info <= zlen (shape info) ->
  holds m addr (item_enc (Scalar (SArray 4 SPA_TYPE_Int (shape_bytes info)))) ->
  spa_pod_get_array_full m addr = Ret (Some (addr + 16, (n_dimensions info, 4, SPA_TYPE_Int))).
Proof.
  intros Hn H. pose proof (zlen_shape_bytes info Hn) as Eb. destruct (sp_shape _ _ sp) as (f & Hs).
  assert (prop_ok (SPA_FORMAT_NDARRAY_shape, f, Scalar (SArray 4 SPA_TYPE_Int (shape_bytes info)))) as (_ & _ & L)
    by (pose proof (sp_ok _ _ sp) as F; rewrite list.Forall_forall in F; auto).
  cbn [pod_body scalar_body] in L. rewrite zlen_app, zlen_enc_pod in L.
  unfold spa_pod_get_array_full, with_pod.
  rewrite (holds_pod m addr (mk_pod (zlen (enc_pod (mk_pod 4 SPA_TYPE_Int) ++ shape_bytes info)) SPA_TYPE_Array));
    [|unfold is_u32; cbn [pod_size]; rewrite zlen_app, zlen_enc_pod; pose proof (zlen_nonneg (shape_bytes info)); lia
     |done|by apply holds_app_l in H].
  cbn [obind]. rewrite get_array_values_holds; [| |lia|by apply enc_padded_body in H].
  - rewrite Eb, (Z.mul_comm 4), Z.div_mul by done. by replace (addr + 8 + 8) with (addr + 16) by lia.
  - split_and!; [done|done|done|done|]. by rewrite Eb, Z.mul_comm, Z.mod_mul.
Qed.

Lemma ext_parse_spells out size :
  allocated info size -> describes info size -> product (dims info) * item_bytes info <= SIZE_MAX ->
  SPA_NDARRAY_INFO_MAX_DIMENSIONS size <= zlen (shape out) -> Forall is_u32 (shape out) ->
  spa_format_ndarray_ext_parse m off out size = Ret (0, filled out).
Proof.
  intros A D B Ho Hu. destruct (filled_facts out size A D Ho Hu) as (El & Ed & Af & Df).
  pose proof (de_size _ _ D) as Hsz. pose proof (de_rank _ _ D) as Hk. pose proof (de_dims _ _ D) as Hd.
  pose proof (sp_field _ _ sp) as Hf.
  assert (forall k s, (k, s) ∈ [ (SPA_FORMAT_mediaType, SId SPA_MEDIA_TYPE_application);
               (SPA_FORMAT_mediaSubtype, SId SPA_MEDIA_SUBTYPE_ndarray);
               (SPA_FORMAT_NDARRAY_elementType, SId (element_type info));
               (SPA_FORMAT_NDARRAY_layout, SId (layout info)) ] ->
          spa_ndarray_format_key_count m off k = Ret 1) as Hc.
  { intros k s H. destruct (Hf k s H) as (f & c & Hx & _). by eapply count_present. }
  unfold spa_format_ndarray_ext_parse, SPA_NDARRAY_INFO_VALID_SIZE. rewrite (proj2 (Z.leb_le _ _) Hsz). cbn [negb].
  rewrite (Hc SPA_FORMAT_mediaType (SId SPA_MEDIA_TYPE_application)) by (by repeat constructor).
  rewrite (Hc SPA_FORMAT_mediaSubtype (SId SPA_MEDIA_SUBTYPE_ndarray)) by (by repeat constructor).
  rewrite (Hc SPA_FORMAT_NDARRAY_elementType (SId (element_type info))) by (by repeat constructor).
  rewrite (Hc SPA_FORMAT_NDARRAY_layout (SId (layout info))) by (by repeat constructor).
  destruct (sp_shape _ _ sp) as (f & Hs). rewrite (count_present _ _ _ Hs), count_rate. cbn [obind Z.eqb Pos.eqb negb].
  destruct parse_format_ids as (addr & Ha & ->). rewrite (proj2 (Z.ltb_ge 1 _)) by (case_if; lia).
  assert ((if (if denom (rate info) =? 0 then 0 else 1) =? 1
           then parse_format m off [wanted SPA_FORMAT_NDARRAY_rate "F"]
           else Ret [Some (V_fraction (mk_fraction 0 0))]) = Ret [Some (V_fraction (rate info))]) as ->.
  { destruct (Z.eqb_spec (denom (rate info)) 0) as [E|E]; cbn [Z.eqb].
    - destruct (rate info) as [n d] eqn:Er. cbn [denom] in E. subst d.
      pose proof (de_rate _ _ D) as Hr. rewrite Er in Hr. cbn in Hr. by rewrite (proj1 Hr eq_refl).
    - by apply parse_format_rate. }
  cbn [Z.eqb Pos.eqb negb orb]. unfold parse_shape.
  assert (0 <= n_dimensions info <= zlen (shape info)) as Hn by (destruct A; lia).
  rewrite (shape_array addr Hn Ha). cbn [obind Z.eqb Pos.eqb negb orb SPA_TYPE_Int].
  rewrite (proj2 (Z.eqb_neq (n_dimensions info) 0)), (proj2 (Z.ltb_ge _ (n_dimensions info))) by lia.
  cbn [orb]. pose proof (enc_padded_body _ _ _ _ Ha) as Hb. cbn [pod_body scalar_body] in Hb.
  apply holds_app_r in Hb. rewrite zlen_enc_pod in Hb. unfold zlen in El.
  rewrite (shape_loop_spec m (addr + 16) _ 0 (dims info)); [|lia|lia|unfold zlen in Ho; lia|done|].
  2: { replace (addr + 16 + 4 * 0) with (addr + 8 + 8) by lia. exact Hb. }
  cbn [obind Z.ltb Z.compare app take]. change (mk_info _ _ _ _ _) with (filled out).
  destruct (counts_spec (filled out) size Af) as [C _]. unfold spa_ndarray_info_ext_validate.
  rewrite (C Df), Ed. change (item_bytes (filled out)) with (item_bytes info).
  by rewrite (proj2 (Z.leb_le _ _) B).
Qed.
End Parse.

(** ** What is built is spelled *)

Lemma id_value_closed v n values : closed_on (SId v) (fix_value 0 (id_value v n values)).
Proof. unfold id_value. case_if; [by left|]. right. by do 2 eexists. Qed.
Lemma rate_value_closed r choices : closed_on (SFraction r) (fix_value 0 (rate_value r choices)).
Proof.
  unfold rate_value. destruct choices as [c|]; [|by left]. case_if; [by left|]. right. by do 2 eexists.
Qed.

Lemma format_keys info choices (g : prop_member -> prop_member) :
  (forall x, member_key (g x) = member_key x) ->
  map member_key (map g (format_members info choices)) =
  [1; 2; 0x1000001; 0x1000002; 0x1000003] ++ (if denom (rate info) =? 0 then [] else [0x1000004]).
Proof.
  intros Hg. rewrite map_map. rewrite (map_ext _ member_key) by done. unfold format_members.
  by destruct (denom (rate info) =? 0).
Qed.

Lemma format_keys_distinct info :
  NoDup ([1; 2; 0x1000001; 0x1000002; 0x1000003] ++ (if denom (rate info) =? 0 then [] else [0x1000004])).
Proof. case_if; by apply (bool_decide_unpack _). Qed.

(** Members that are fixed one by one spell the description. *)
Lemma spells_members info choices (g : prop_member -> prop_member) :
  (forall x, member_key (g x) = member_key x) -> Forall prop_ok (map g (format_members info choices)) ->
  (forall k s c, (k, 0, c) ∈ format_members info choices -> closed_on s (fix_value 0 c) ->
     exists c', g (k, 0, c) = (k, 0, c') /\ closed_on s c') ->
  (forall k cs ct e, g (k, 0, Scalar (SArray cs ct e)) = (k, 0, Scalar (SArray cs ct e))) ->
  spells info (map g (format_members info choices)).
Proof.
  intros Hk F Hg Ha.
  assert (forall k c, (k, 0, c) ∈ format_members info choices -> forall s, closed_on s (fix_value 0 c) ->
    exists f c', (k, f, c') ∈ map g (format_members info choices) /\ closed_on s c') as Hin.
  { intros k c Hx s Hc. destruct (Hg k s c Hx Hc) as (c' & E & Hc'). exists 0, c'. split; [|done].
    rewrite <- E. by apply list_elem_of_fmap_2. }
  constructor; [done| | | |].
  - rewrite format_keys by done. apply format_keys_distinct.
  - intros k s Hks. rewrite !elem_of_cons in Hks.
    destruct Hks as [[= -> ->]|[[= -> ->]|[[= -> ->]|[[= -> ->]|[]%not_elem_of_nil]]]];
      eapply Hin; first [by repeat constructor|apply id_value_closed|by left].
  - exists 0. rewrite <- Ha. apply list_elem_of_fmap_2. by repeat constructor.
  - destruct (denom (rate info) =? 0) eqn:E.
    + rewrite format_keys, E by done. by apply (bool_decide_unpack _).
    + eapply Hin; [|apply rate_value_closed]. unfold format_members. rewrite E. by repeat constructor.
Qed.

Lemma small_members t i props :
  Forall (fun x : prop_member => is_u32 x.1.1 /\ is_u32 x.1.2) props ->
  zlen (pod_body (Object t i props)) < 2 ^ 20 -> Forall prop_ok props.
Proof.
  intros K L. rewrite object_size in L. pose proof (item_size keyed_enc props) as S.
  apply list.Forall_forall. intros [[k f] c] Hx. rewrite list.Forall_forall in K, S.
  destruct (K _ Hx) as [Hk Hf]. specialize (S _ Hx). destruct (keyed_enc_align (k, f, c)) as [_ Hz].
  cbn [snd] in Hz. pose proof (pad8_bounds (zlen (pod_body c))). split_and!; [done|done|]. cbn beta in S. lia.
Qed.

Lemma format_members_u32 info choices :
  Forall (fun x : prop_member => is_u32 x.1.1 /\ is_u32 x.1.2) (format_members info choices).
Proof. unfold format_members. destruct (denom (rate info) =? 0); by repeat constructor. Qed.

Lemma fix_members_u32 l :
  Forall (fun x : prop_member => is_u32 x.1.1 /\ is_u32 x.1.2) l ->
  Forall (fun x : prop_member => is_u32 x.1.1 /\ is_u32 x.1.2) (map fix_member l).
Proof. intros H. apply Forall_map. eapply Forall_impl; [|exact H]. by intros [[k f] c]. Qed.

Lemma fixed_members_spell info choices id :
  zlen (pod_body (format_object id info choices)) < 2 ^ 20 ->
  spells info (map fix_member (format_members info choices)) /\
  zlen (pod_body (Object SPA_TYPE_OBJECT_Format id (map fix_member (format_members info choices)))) < 2 ^ 20.
Proof.
  intros L.
  assert (zlen (pod_body (Object SPA_TYPE_OBJECT_Format id (map fix_member (format_members info choices)))) < 2 ^ 20)
    as L' by (unfold format_object in L; rewrite object_size in *; by rewrite fixed_len).
  split; [|done]. apply spells_members.
  - by intros [[k f] c].
  - eapply small_members; [apply fix_members_u32, format_members_u32|exact L'].
  - intros k s c _ Hc. exists (fix_value 0 c). by split.
  - done.
Qed.

Lemma plain_members_spell info id :
  zlen (pod_body (format_object id info None)) < 2 ^ 20 -> spells info (format_members info None).
Proof.
  intros L. rewrite <- (map_id (format_members info None)). apply (spells_members info None (fun x => x)).
  - done.
  - rewrite map_id. eapply small_members; [apply format_members_u32|exact L].
  - intros k s c Hx Hc. exists c. split; [done|]. unfold format_members in Hx.
    destruct (denom (rate info) =? 0); cbn [app] in Hx; rewrite !elem_of_cons in Hx;
      destruct_or!; first [by apply not_elem_of_nil in Hx|simplify_eq; exact Hc].
  - done.
Qed.

(** Errors of the reader are positive [errno] values. *)
Definition fails_pos {A} (r : outcome A) : Prop := forall e, r = Err e -> 0 < e.

Definition st_fails_pos {A} (m : ST spa_pod_parser A) : Prop := forall p, fails_pos (m p).1.

Lemma bind_pos {A B} (m : ST spa_pod_parser A) (k : A -> ST spa_pod_parser B) :
  st_fails_pos m -> (forall a, st_fails_pos (k a)) -> st_fails_pos (st_bind m k).
Proof.
  intros Hm Hk p e. unfold st_bind. specialize (Hm p). destruct (m p) as [[a| |] q]; cbn; [exact (Hk a q e)|intros [= <-]; by apply Hm|done].
Qed.
Lemma ret_pos {A} (a : A) : st_fails_pos (st_ret a).
Proof. by intros p e. Qed.
Lemma modify_pos f : st_fails_pos (st_modify f).
Proof. by intros p e. Qed.
Lemma get_pos : st_fails_pos st_get.
Proof. by intros p e. Qed.
Lemma err_pos {A} e : 0 < e -> st_fails_pos (st_err (A := A) e).
Proof. intros H p e' [= <-]. done. Qed.
Lemma try_pos {A} (m : ST spa_pod_parser A) : st_fails_pos (st_try m).
Proof. intros p e. unfold st_try. by destruct (m p) as [[] q]. Qed.
Lemma lift_pos {A} (r : outcome A) : fails_pos r -> st_fails_pos (st_lift r).
Proof. intros H p. apply H. Qed.
Lemma obind_pos {A B} (m : outcome A) (k : A -> outcome B) :
  fails_pos m -> (forall a, fails_pos (k a)) -> fails_pos (obind m k).
Proof. intros Hm Hk e. destruct m as [a| |]; cbn; [exact (Hk a e)|intros [= <-]; by apply Hm|done]. Qed.
Lemma load_pos m off n : fails_pos (load m off n).
Proof. intros e. unfold load. by case_if. Qed.
Lemma load_u32_pos m off : fails_pos (load_u32 m off).
Proof. apply obind_pos; [apply load_pos|]. by intros a e. Qed.
Lemma load_pod_pos m off : fails_pos (load_pod m off).
Proof. apply obind_pos; [apply load_u32_pos|]. intros a. apply obind_pos; [apply load_u32_pos|]. by intros b e. Qed.

Lemma read_header_pos p o n h po : fails_pos (spa_pod_parser_read_header p o n h po).
Proof.
  unfold spa_pod_parser_read_header, copy_header. apply obind_pos.
  - case_if; [|by intros e]. apply obind_pos; [apply load_pos|]. by intros a e.
  - intros [h'|]; [|by intros e [= <-]]. apply obind_pos; [apply load_pod_pos|].
    intros a e. case_if; [done|by intros [= <-]].
Qed.

Lemma current_body_pos : st_fails_pos spa_pod_parser_current_body.
Proof.
  apply bind_pos; [intros p; apply read_header_pos|]. intros [h b].
  apply bind_pos; [apply lift_pos, load_pod_pos|]. intros a. apply ret_pos.
Qed.

Lemma push_object_pos t : st_fails_pos (spa_pod_parser_push_object t).
Proof.
  apply bind_pos.
  - apply bind_pos; [apply current_body_pos|]. intros [pod body]. apply bind_pos; [apply get_pos|]. intros p.
    apply bind_pos; [|intros [? ?]; auto using bind_pos, modify_pos, ret_pos]. apply lift_pos.
    unfold spa_pod_body_get_object. case_if; [by intros e [= <-]|].
    apply obind_pos; [apply load_u32_pos|]. intros a. apply obind_pos; [apply load_u32_pos|]. by intros b e.
  - intros [obj ?]. case_if; [|apply ret_pos]. apply bind_pos; [apply modify_pos|]. intros ?. by apply err_pos.
Qed.

Lemma getv_fetch_pos t it : st_fails_pos (getv_fetch t it).
Proof.
  unfold getv_fetch. destruct (t =? SPA_TYPE_Object); [|destruct (t =? SPA_TYPE_Struct); [|apply ret_pos]].
  - apply bind_pos; [apply try_pos|]. intros [[? ?]|?]; apply ret_pos.
  - apply bind_pos; [apply try_pos|]. intros [[? ?]|?]; [apply ret_pos|].
    apply bind_pos; [|intros; apply ret_pos]. intros p. unfold failed_next_pod, copy_header. cbn [fst].
    apply obind_pos.
    + case_if; [|by intros e]. apply obind_pos; [apply load_pos|]. by intros a e.
    + intros [h|]; [apply load_pod_pos|by intros e].
Qed.

Lemma getv_loop_pos t items acc : st_fails_pos (getv_loop t items acc).
Proof.
  revert acc. induction items as [|it items IH]; intros acc; cbn [getv_loop]; [apply ret_pos|].
  destruct (_ && _); [apply ret_pos|]. apply bind_pos; [apply getv_fetch_pos|]. intros [[pod body] fl].
  apply bind_pos; [apply get_pos|]. intros p. apply bind_pos; [apply try_pos|]. intros [v|e]; [apply IH|].
  destruct (get_optional it); [apply IH|]. destruct body; by apply err_pos.
Qed.

Lemma parse_format_pos m off items : fails_pos (parse_format m off items).
Proof.
  unfold parse_format, spa_pod_parse_object, spa_pod_body_parse_object.
  apply obind_pos; [|intros [? ?]; by intros e]. apply obind_pos; [apply load_pod_pos|]. intros p.
  match goal with |- fails_pos (?f ?q).1 => assert (st_fails_pos f) as H; [|apply H] end.
  apply bind_pos; [apply push_object_pos|]. intros i. unfold st_try at 1. intros q.
  unfold st_bind at 1. assert (fails_pos (spa_pod_parser_get items q).1) as Hg.
  { unfold spa_pod_parser_get, spa_pod_parser_getv, st_bind, st_get. destruct (p_frames q); [by intros e [= <-]|].
    apply getv_loop_pos. }
  destruct (spa_pod_parser_get items q) as [[vs|e'|] q']; [by intros e|intros e [= <-]|by intros e].
  by apply (Hg e').
Qed.

Lemma count_loop_pos sh n i elements : fails_pos (count_loop sh i n elements).
Proof.
  revert i elements. induction n as [|n IH]; intros i elements e; [done|]. cbn [count_loop].
  unfold shape_at. destruct (sh !! _); cbn [obind]; [|done]. repeat (case_if; [by intros [= <-]|]). apply IH.
Qed.

Lemma counts_pos info size : fails_pos (spa_ndarray_info_ext_counts info size).
Proof.
  intros e. unfold spa_ndarray_info_ext_counts. destruct info; [|by intros [= <-]].
  repeat (case_if; [by intros [= <-]|]).
  revert e. apply obind_pos; [apply count_loop_pos|intros a e; case_if; [by intros [= <-]|done]].
Qed.

Lemma shape_loop_keeps m values n i sh code sh' :
  Forall is_u32 sh -> shape_loop m values i n sh = Ret (code, sh') ->
  length sh' = length sh /\ Forall is_u32 sh'.
Proof.
  revert i sh. induction n as [|n IH]; intros i sh F; cbn [shape_loop]; [by intros [= <- <-]|].
  destruct (load_i32 m _) as [d| |]; cbn [obind]; try done. case_if; [by intros [= <- <-]|]. case_if; [done|].
  intros H. apply IH in H as [-> H]; [by rewrite length_insert|].
  apply Forall_insert; [done|]. apply (wrap_range 32). lia.
Qed.

Lemma array_count m pod values n cs ct :
  spa_pod_get_array_full m pod = Ret (Some (values, (n, cs, ct))) -> is_u32 n.
Proof.
  unfold spa_pod_get_array_full, with_pod. destruct (load_pod m pod) as [p| |]; cbn [obind]; try done.
  unfold spa_pod_body_get_array_values. destruct (spa_pod_body_get_array p m (pod + 8)) as [[arr b]| |]; cbn [obind]; try done.
  unfold spa_pod_array_body_get_values. intros [= _ <- _ _]. repeat case_if; try done. apply (wrap_range 32). lia.
Qed.

(** Only a description that validates is reported with code 0. *)
Lemma parse_shape_sound m sp info size et lay rt info' :
  SPA_NDARRAY_INFO_MAX_DIMENSIONS size <= zlen (shape info) -> Forall is_u32 (shape info) ->
  parse_shape m sp info size et lay rt = Ret (0, info') ->
  allocated info' size /\ exists n b, spa_ndarray_info_ext_counts (Some info') size = Ret (n, b).
Proof.
  intros Hw Hu. unfold parse_shape. destruct sp as [sp|]; [|done].
  destruct (spa_pod_get_array_full m sp) as [[[values [[n cs] ct]]|]| |] eqn:Ea; cbn [obind]; try done.
  apply array_count in Ea. destruct (_ || _); [done|].
  destruct (shape_loop _ _ _ _ _) as [[code sh]| |] eqn:Es; cbn [obind]; try done.
  apply shape_loop_keeps in Es as [El Es]; [|done].
  destruct (Z.ltb_spec code 0); [intros [= -> <-]; lia|]. unfold spa_ndarray_info_ext_validate.
  destruct (spa_ndarray_info_ext_counts _ size) as [[n' b']|e|] eqn:E; cbn [obind code_of]; [|intros [= He <-]|done].
  - intros [= <-]. split; [|by exists n', b']. constructor; cbn [shape n_dimensions]; [|done|done].
    unfold zlen in *. by rewrite El.
  - specialize (counts_pos _ _ e E). lia.
Qed.

Lemma ext_parse_shape m off info size info' :
  spa_format_ndarray_ext_parse m off info size = Ret (0, info') ->
  exists sp et lay rt, parse_shape m sp info size et lay rt = Ret (0, info').
Proof.
  unfold spa_format_ndarray_ext_parse. destruct (negb _); [done|].
  do 5 (destruct (spa_ndarray_format_key_count m off _) as [?| |]; cbn [obind]; [|done..];
        destruct (negb _); [done|]).
  destruct (spa_ndarray_format_key_count m off _) as [n| |]; cbn [obind]; [|done..].
  destruct (1 <? n); [done|].
  destruct (parse_format m off _) as [vs|e|] eqn:E; [|intros [= H <-]; specialize (parse_format_pos _ _ _ e E); lia|done].
  clear E. do 5 (destruct vs as [|[?v|] vs]; [done| |done];
    match goal with x : parser_val |- _ => destruct x; try done end). destruct vs; [|done]. cbv beta iota.
  destruct (if n =? 1 then _ else _) as [vs|e|]; [|done..].
  destruct vs as [|[?v|] vs]; [done| |done].
  match goal with x : parser_val |- _ => destruct x; try done end. destruct vs; [|done]. destruct (_ || _); [done|].
  intros H. by do 4 eexists.
Qed.

(** ** Properties *)

(** C28: on a structure with as many words as its size says, counting a
    description gives the product of its dimensions and that times the element
    size when the description is well formed and the bytes fit a [size_t],
    [-EOVERFLOW] when they do not, and an error for everything else; it never
    reads behind the words. *)
Theorem ndarray_counts_correct (info : spa_ndarray_info) (size : Z) :
  allocated info size ->
  (forall n b, spa_ndarray_info_ext_counts (Some info) size = Ret (n, b) <->
     describes info size /\ n = product (dims info) /\ b = n * item_bytes info /\ b <= SIZE_MAX) /\
  (describes info size -> SIZE_MAX < product (dims info) * item_bytes info ->
     spa_ndarray_info_ext_counts (Some info) size = Err EOVERFLOW) /\
  (~ describes info size ->
     spa_ndarray_info_ext_counts (Some info) size = Err EINVAL \/
     spa_ndarray_info_ext_counts (Some info) size = Err EOVERFLOW).
Proof.
  intros A. destruct (counts_spec info size A) as [C1 C2]. split; [|split; [|exact C2]].
  - intros n b. split.
    + intros E. assert (describes info size) as D.
      { apply dec_stable. intros D. destruct (C2 D); congruence. }
      rewrite (C1 D) in E. destruct (Z.leb_spec (product (dims info) * item_bytes info) SIZE_MAX); [|done].
      by injection E as <- <-.
    + intros (D & -> & -> & B). by rewrite (C1 D), (proj2 (Z.leb_le _ _) B).
  - intros D B. rewrite (C1 D). by rewrite (proj2 (Z.leb_gt _ _) B).
Qed.

Definition cube : spa_ndarray_info := mk_info 18 1 (mk_fraction 2000 1) 3 [4; 5; 6; 0].

Lemma cube_facts : allocated cube (20 + 4 * 4) /\ describes cube (20 + 4 * 4).
Proof.
  split; [split; [done|done|]|]; [repeat (constructor; [done|]); constructor|].
  by apply (bool_decide_unpack _).
Qed.

Lemma ndarray_counts_correct_witness :
  allocated cube (20 + 4 * 4) /\ spa_ndarray_info_ext_counts (Some cube) (20 + 4 * 4) = Ret (120, 480).
Proof.
  destruct cube_facts as [A D]. split; [exact A|].
  destruct (ndarray_counts_correct cube (20 + 4 * 4) A) as [H _].
  apply H. split; [exact D|]. split; [reflexivity|]. split; [reflexivity|]. vm_compute. discriminate.
Defined.

(** C11: what the negotiation of an ndarray format agrees on is what was
    offered: a valid description with valid alternatives is built as one
    [Format] object when it fits, and once that object is fixated the parser
    reads the description back; without alternatives it reads it back from the
    object as built. *)
Theorem ndarray_negotiation_roundtrip (id : Z) (info out : spa_ndarray_info) (size : Z)
    (choices : option spa_ndarray_choices) (b : spa_pod_builder) :
  is_u32 id -> in_range info -> allocated info size -> choices_readable choices ->
  spa_ndarray_choices_validate (Some info) size choices = Ret tt ->
  SPA_NDARRAY_INFO_MAX_DIMENSIONS size <= zlen (shape out) -> Forall is_u32 (shape out) ->
  plain b -> fits b (zlen (pod_enc (format_object id info choices))) ->
  zlen (pod_body (format_object id info choices)) < 2 ^ 20 ->
  exists b' m', let off := b_offset b in
    spa_format_ndarray_ext_build_choices id (Some info) size choices b = (Ret (Some off), b') /\
    spa_pod_fixate (b_data b') off = Ret (0, m') /\
    spa_format_ndarray_ext_parse m' off out size = Ret (0, filled info out) /\
    (choices = None -> spa_format_ndarray_ext_parse (b_data b') off out size = Ret (0, filled info out)).
Proof.
  intros Hid Hra A Hc Hv Ho Hu Hp Hf L.
  assert (exists n x, spa_ndarray_info_ext_counts (Some info) size = Ret (n, x)) as (n & x & E).
  { unfold spa_ndarray_choices_validate, spa_ndarray_info_ext_validate in Hv.
    destruct (spa_ndarray_info_ext_counts _ _) as [[n x]| |]; [by exists n, x|done..]. }
  destruct (counts_spec info size A) as [C1 C2].
  assert (describes info size) as D by (apply dec_stable; intros D; destruct (C2 D); congruence).
  rewrite (C1 D) in E. destruct (Z.leb_spec (product (dims info) * item_bytes info) SIZE_MAX) as [B|]; [|done].
  pose proof (de_rank _ _ D) as Hk. destruct A as [Hw Hr Hs] eqn:EA. clear EA.
  rewrite (build_choices_spec id info size choices b Hv Hc ltac:(lia) Hr Hp Hf).
  pose proof Hp as ((Hb & _) & _ & Hal).
  assert (holds (b_data (append_bytes (pod_enc (format_object id info choices)) b)) (b_offset b)
                (pod_enc (format_object id info choices))) as Hh.
  { cbn [append_bytes b_data]. by apply holds_overwrite. }
  destruct (fixate_object_holds SPA_TYPE_OBJECT_Format id (format_members info choices) _ _ L Hh Hal) as (m' & Ef & Hm & _).
  { eapply small_members; [apply format_members_u32|exact L]. }
  destruct (fixed_members_spell info choices id L) as [S L'].
  do 2 eexists. split; [done|]. split; [exact Ef|]. split.
  - by apply (ext_parse_spells id info _ m' (b_offset b) S Hra Hid L' Hm Hal).
  - intros ->. by apply (ext_parse_spells id info _ _ (b_offset b) (plain_members_spell info id L) Hra Hid L Hh Hal).
Qed.

Definition cube_choices : spa_ndarray_choices :=
  mk_choices 1 (Some [19]) 1 (Some [2]) SPA_CHOICE_Range 2 (Some [mk_fraction 1 1; mk_fraction 4000 1]).
Definition cube_out : spa_ndarray_info := mk_info 0 0 (mk_fraction 0 0) 0 [0; 0; 0; 7].

Lemma cube_out_words : Forall is_u32 (shape cube_out).
Proof. repeat (constructor; [done|]); constructor. Qed.

Lemma ndarray_negotiation_roundtrip_witness :
  let b := spa_pod_builder_init (zeroes 512) in
  exists b' m',
    spa_format_ndarray_ext_build_choices 3 (Some cube) (20 + 4 * 4) (Some cube_choices) b = (Ret (Some 0), b') /\
    spa_pod_fixate (b_data b') 0 = Ret (0, m') /\
    spa_format_ndarray_ext_parse m' 0 cube_out (20 + 4 * 4) =
      Ret (0, mk_info 18 1 (mk_fraction 2000 1) 3 [4; 5; 6; 7]).
Proof.
  destruct (ndarray_negotiation_roundtrip 3 cube cube_out (20 + 4 * 4) (Some cube_choices)
              (spa_pod_builder_init (zeroes 512))) as (b' & m' & H1 & H2 & H3 & _).
  - vm_compute. split; [discriminate|reflexivity].
  - split; vm_compute; (split; [discriminate|reflexivity]).
  - apply cube_facts.
  - vm_compute. repeat split; discriminate.
  - vm_compute. reflexivity.
  - vm_compute. discriminate.
  - exact cube_out_words.
  - split; [split; [|split]|split]; [done|vm_compute; discriminate|constructor|done|done].
  - vm_compute. discriminate.
  - vm_compute. reflexivity.
  - exists b', m'. split; [exact H1|]. split; [exact H2|exact H3].
Defined.

(** C33: whatever object lies in memory, the parser reports success only for a
    well-formed description whose bytes fit a [size_t]. *)
Theorem ndarray_parse_sound (m : mem) (off size : Z) (out info : spa_ndarray_info) :
  SPA_NDARRAY_INFO_MAX_DIMENSIONS size <= zlen (shape out) -> Forall is_u32 (shape out) ->
  spa_format_ndarray_ext_parse m off out size = Ret (0, info) ->
  describes info size /\ product (dims info) * item_bytes info <= SIZE_MAX.
Proof.
  intros Hw Hu H. apply ext_parse_shape in H as (sp & et & lay & rt & H).
  apply parse_shape_sound in H as (A & n & b & E); [|done|done].
  destruct (counts_spec info size A) as [C1 C2].
  assert (describes info size) as D by (apply dec_stable; intros D; destruct (C2 D); congruence).
  split; [done|]. rewrite (C1 D) in E. by destruct (Z.leb_spec (product (dims info) * item_bytes info) SIZE_MAX).
Qed.

Definition cube_object : mem := pod_enc (format_object 3 cube None).

Lemma ndarray_parse_sound_witness :
  spa_format_ndarray_ext_parse cube_object 0 cube_out (20 + 4 * 4) =
    Ret (0, mk_info 18 1 (mk_fraction 2000 1) 3 [4; 5; 6; 7]) /\
  describes (mk_info 18 1 (mk_fraction 2000 1) 3 [4; 5; 6; 7]) (20 + 4 * 4).
Proof.
  assert (spa_format_ndarray_ext_parse cube_object 0 cube_out (20 + 4 * 4) =
    Ret (0, mk_info 18 1 (mk_fraction 2000 1) 3 [4; 5; 6; 7])) as E by (vm_compute; reflexivity).
  split; [exact E|]. refine (proj1 (ndarray_parse_sound cube_object 0 (20 + 4 * 4) cube_out _ _ _ E)).
  - vm_compute. discriminate.
  - exact cube_out_words.
Defined.

(** A [Format] object whose [shape] is a None pod: [SPA_POD_Pod] stores NULL
    and the parser reads through it. *)
Definition null_shape_object : mem :=
  pod_enc (Object SPA_TYPE_OBJECT_Format 3
    [ (SPA_FORMAT_mediaType, 0, Scalar (SId SPA_MEDIA_TYPE_application));
      (SPA_FORMAT_mediaSubtype, 0, Scalar (SId SPA_MEDIA_SUBTYPE_ndarray));
      (SPA_FORMAT_NDARRAY_elementType, 0, Scalar (SId 18));
      (SPA_FORMAT_NDARRAY_shape, 0, Scalar SNone);
      (SPA_FORMAT_NDARRAY_layout, 0, Scalar (SId 1)) ]).

Theorem ndarray_null_shape_faults :
  spa_format_ndarray_ext_parse null_shape_object 0 cube_out (20 + 4 * 4) = Fault.
Proof. vm_compute. reflexivity. Qed.
