(* ===== verification/PodCompare.v ===== *)
(** * Comparison of PODs

    Models [spa/include/spa/pod/compare.h].  Values are compared where they are in
    memory; the two pointers may be into different memories, so that a value can
    also be compared as a list of bytes.  The C library only promises the sign of
    what [strncmp] and [memcmp] return; the class [CLibrary] leaves the rest open.
    The second half shows that the comparison of values is an order. *)
From Stdlib Require Import String.
From S2P Require Import Prelude Bytes CString PodBody PodIter.
#[local] Open Scope Z_scope.

(** [SPA_CMP] on integers. *)
Definition SPA_CMP (a b : Z) : Z := if b <? a then 1 else if a =? b then 0 else -1.

(** [SPA_CMP] on IEEE 754 numbers of [w] bits given by their bits, [inf] the bits
    of infinity.  Numbers other than NaN are ordered like their sign and
    magnitude; the two zeroes are equal. *)
Definition float_magnitude (w bits : Z) : Z := bits mod 2 ^ (w - 1).
Definition float_is_nan (w inf bits : Z) : bool := inf <? float_magnitude w bits.
Definition float_order (w bits : Z) : Z :=
  if 2 ^ (w - 1) <=? bits then - float_magnitude w bits else float_magnitude w bits.
Definition cmp_float (w inf a b : Z) : Z :=
  if float_is_nan w inf a then 1
  else if float_is_nan w inf b then -1
  else SPA_CMP (float_order w a) (float_order w b).

Notation FLOAT_INF := 0x7f800000.
Notation DOUBLE_INF := 0x7ff0000000000000.

(** A C library: how far from 0 the results of [strncmp] and [memcmp] are, for
    each place of the operands and each length. *)
Class CLibrary := {
  strncmp_magnitude : mem -> Z -> mem -> Z -> Z -> Z;
  memcmp_magnitude : mem -> Z -> mem -> Z -> Z -> Z;
  strncmp_magnitude_pos m1 r1 m2 r2 n : 0 < strncmp_magnitude m1 r1 m2 r2 n;
  memcmp_magnitude_pos m1 r1 m2 r2 n : 0 < memcmp_magnitude m1 r1 m2 r2 n
}.

(** The sign of [strncmp]: the bytes are read up to the first that differs or
    ends both strings. *)
Fixpoint strncmp_sign (m1 : mem) (r1 : Z) (m2 : mem) (r2 : Z) (n : nat) : outcome Z :=
  match n with
  | O => Ret 0
  | S n =>
      let! x := load_u8 m1 r1 in
      let! y := load_u8 m2 r2 in
      if negb (x =? y) then Ret (SPA_CMP x y)
      else if x =? 0 then Ret 0
      else strncmp_sign m1 (r1 + 1) m2 (r2 + 1) n
  end.

(** Lists in the lexicographic order. *)
Fixpoint lex (l1 l2 : list Z) : Z :=
  match l1, l2 with
  | [], [] => 0
  | [], _ :: _ => -1
  | _ :: _, [] => 1
  | x :: l1, y :: l2 => if x =? y then lex l1 l2 else SPA_CMP x y
  end.

Definition octets (b : list byte) : list Z := map (fun x => le_combine [x]) b.

Section Compare.
Context {CL : CLibrary}.

Definition strncmp (m1 : mem) (r1 : Z) (m2 : mem) (r2 n : Z) : outcome Z :=
  let! s := strncmp_sign m1 r1 m2 r2 (Z.to_nat n) in
  Ret (s * strncmp_magnitude m1 r1 m2 r2 n).

(** Both operands are [n] bytes long. *)
Definition memcmp (m1 : mem) (r1 : Z) (m2 : mem) (r2 n : Z) : outcome Z :=
  let! b1 := load m1 r1 n in
  let! b2 := load m2 r2 n in
  Ret (lex (octets b1) (octets b2) * memcmp_magnitude m1 r1 m2 r2 n).

(** [!!x]. *)
Definition truth (x : Z) : Z := if x =? 0 then 0 else 1.

Definition spa_pod_compare_value (type : Z) (m1 : mem) (r1 : Z) (m2 : mem) (r2 size : Z) : outcome Z :=
  if type =? SPA_TYPE_None then Ret 0
  else if type =? SPA_TYPE_Bool then
    let! a := load_i32 m1 r1 in let! b := load_i32 m2 r2 in Ret (SPA_CMP (truth a) (truth b))
  else if type =? SPA_TYPE_Id then
    let! a := load_u32 m1 r1 in let! b := load_u32 m2 r2 in Ret (SPA_CMP a b)
  else if type =? SPA_TYPE_Int then
    let! a := load_i32 m1 r1 in let! b := load_i32 m2 r2 in Ret (SPA_CMP a b)
  else if type =? SPA_TYPE_Long then
    let! a := load_i64 m1 r1 in let! b := load_i64 m2 r2 in Ret (SPA_CMP a b)
  else if type =? SPA_TYPE_Float then
    let! a := load_u32 m1 r1 in let! b := load_u32 m2 r2 in Ret (cmp_float 32 FLOAT_INF a b)
  else if type =? SPA_TYPE_Double then
    let! a := load_u64 m1 r1 in let! b := load_u64 m2 r2 in Ret (cmp_float 64 DOUBLE_INF a b)
  else if type =? SPA_TYPE_String then strncmp m1 r1 m2 r2 size
  else if type =? SPA_TYPE_Rectangle then
    let! w1 := load_u32 m1 r1 in let! h1 := load_u32 m1 (r1 + 4) in
    let! w2 := load_u32 m2 r2 in let! h2 := load_u32 m2 (r2 + 4) in
    let a1 := u64 (w1 * h1) in
    let a2 := u64 (w2 * h2) in
    if a1 <? a2 then Ret (-1) else if a2 <? a1 then Ret 1 else Ret (SPA_CMP w1 w2)
  else if type =? SPA_TYPE_Fraction then
    let! num1 := load_u32 m1 r1 in let! denom1 := load_u32 m1 (r1 + 4) in
    let! num2 := load_u32 m2 r2 in let! denom2 := load_u32 m2 (r2 + 4) in
    Ret (SPA_CMP (u64 (num1 * denom2)) (u64 (num2 * denom1)))
  else memcmp m1 r1 m2 r2 size.

(** On two pods of one memory; the pointers are not NULL. *)
Definition spa_pod_memcmp (m : mem) (a b : Z) : outcome Z :=
  if a =? b then Ret 0
  else
    let! pa := load_pod m a in
    let! pb := load_pod m b in
    if SPA_POD_SIZE pa =? SPA_POD_SIZE pb then
      let! c := memcmp m a m b (SPA_POD_SIZE pb) in Ret (if c =? 0 then 0 else 1)
    else Ret 1.

Definition spa_pod_compare_is_compatible_flags (type : Z) (m : mem) (r1 r2 : Z) : outcome Z :=
  if type =? SPA_TYPE_Int then
    let! a := load_i32 m r1 in let! b := load_i32 m r2 in Ret (truth (Z.land a b))
  else if type =? SPA_TYPE_Long then
    let! a := load_i64 m r1 in let! b := load_i64 m r2 in Ret (truth (Z.land a b))
  else Ret (- ENOTSUP).

(** [%] truncates towards zero. *)
Definition spa_pod_compare_is_step_of (type : Z) (m1 : mem) (r1 : Z) (m2 : mem) (r2 : Z) : outcome Z :=
  if type =? SPA_TYPE_Int then
    let! a := load_i32 m1 r1 in let! b := load_i32 m2 r2 in
    Ret (if b <? 1 then - EINVAL else if Z.rem a b =? 0 then 1 else 0)
  else if type =? SPA_TYPE_Long then
    let! a := load_i64 m1 r1 in let! b := load_i64 m2 r2 in
    Ret (if b <? 1 then - EINVAL else if Z.rem a b =? 0 then 1 else 0)
  else if type =? SPA_TYPE_Rectangle then
    let! w1 := load_u32 m1 r1 in let! h1 := load_u32 m1 (r1 + 4) in
    let! w2 := load_u32 m2 r2 in let! h2 := load_u32 m2 (r2 + 4) in
    Ret (if (w2 <? 1) || (h2 <? 1) then - EINVAL
         else if (Z.rem w1 w2 =? 0) && (Z.rem h1 h2 =? 0) then 1 else 0)
  else Ret (- ENOTSUP).

(** [step] is [None] for NULL. *)
Definition spa_pod_compare_is_in_range (type : Z) (m : mem) (v min max : Z) (step : option Z) (size : Z)
  : outcome Z :=
  let! c := spa_pod_compare_value type m v m min size in
  if c <? 0 then Ret 0
  else
    let! c := spa_pod_compare_value type m v m max size in
    if 0 <? c then Ret 0
    else match step with
         | Some step => spa_pod_compare_is_step_of type m v m step
         | None => Ret 1
         end.

(** The loop over the alternatives of an enumeration. *)
Fixpoint valid_enum (type size : Z) (m : mem) (val next : Z) (n : nat) : outcome Z :=
  match n with
  | O => Ret 0
  | S n =>
      let next := next + size in
      let! c := spa_pod_compare_value type m val m next size in
      if c =? 0 then Ret 1 else valid_enum type size m val next n
  end.

Definition spa_pod_compare_is_valid_choice (type size : Z) (m : mem) (val vals n_vals choice : Z)
  : outcome Z :=
  if choice =? SPA_CHOICE_None then
    let! c := spa_pod_compare_value type m val m vals size in Ret (if c =? 0 then 1 else 0)
  else if choice =? SPA_CHOICE_Enum then valid_enum type size m val vals (Z.to_nat (n_vals - 1))
  else if (choice =? SPA_CHOICE_Range) || (choice =? SPA_CHOICE_Step) then
    let min := vals + size in
    let max := min + size in
    let step := if choice =? SPA_CHOICE_Step then Some (max + size) else None in
    spa_pod_compare_is_in_range type m val min max step size
  else if choice =? SPA_CHOICE_Flags then Ret 1
  else Ret 0.

(** ** Whole pods

    The comparison of the members is a parameter of the loops. *)
Section Members.
Context (compare : Z -> Z -> outcome Z) (m : mem).

(** The members of two structs; [n] bounds the rounds. *)
Fixpoint compare_struct (n : nat) (pod1 p1s pod2 p2s p1 p2 : Z) : outcome Z :=
  match n with
  | O => Fault
  | S n =>
      let! i1 := spa_pod_is_inside m pod1 p1s p1 in
      let! i2 := (if i1 : bool then spa_pod_is_inside m pod2 p2s p2 else Ret false) in
      if negb i2 then Ret (- EINVAL)
      else
        let! res := compare p1 p2 in
        if negb (res =? 0) then Ret res
        else
          let! p1 := spa_pod_next m p1 in
          let! p2 := spa_pod_next m p2 in
          compare_struct n pod1 p1s pod2 p2s p1 p2
  end.

(** The properties of the first object; [Ret 0] when all are found and equal. *)
Fixpoint compare_props (n : nat) (o1 size1 o2 p1 : Z) (p2 : option Z) : outcome Z :=
  match n with
  | O => Fault
  | S n =>
      let! i := spa_pod_prop_is_inside m (o1 + 8) size1 p1 in
      if negb i then Ret 0
      else
        let! key := load_u32 m p1 in
        let! p2 := spa_pod_object_find_prop m o2 p2 key in
        match p2 with
        | None => Ret 1
        | Some q =>
            let! res := compare (p1 + 8) (q + 8) in
            if negb (res =? 0) then Ret res
            else let! next := spa_pod_prop_next m p1 in compare_props n o1 size1 o2 next (Some q)
        end
  end.

(** The properties of the second object are looked up in the first. *)
Fixpoint has_props (n : nat) (o2 size2 o1 p2 : Z) (p1 : option Z) : outcome Z :=
  match n with
  | O => Fault
  | S n =>
      let! i := spa_pod_prop_is_inside m (o2 + 8) size2 p2 in
      if negb i then Ret 0
      else
        let! key := load_u32 m p2 in
        let! p1 := spa_pod_object_find_prop m o1 p1 key in
        match p1 with
        | None => Ret (-1)
        | Some q => let! next := spa_pod_prop_next m p2 in has_props n o2 size2 o1 next (Some q)
        end
  end.
End Members.

(** The nesting of the pods is bounded by [depth]. *)
Fixpoint spa_pod_compare (depth : nat) (m : mem) (pod1 pod2 : Z) : outcome Z :=
  match depth with
  | O => Fault
  | S depth =>
      let! v1 := spa_pod_get_values m pod1 in
      let! v2 := spa_pod_get_values m pod2 in
      let '(pod1, n_vals1, _) := v1 in
      let '(pod2, n_vals2, _) := v2 in
      let! h1 := load_pod m pod1 in
      let! h2 := load_pod m pod2 in
      if negb (n_vals1 =? n_vals2) then Ret (- EINVAL)
      else if negb (pod_type h1 =? pod_type h2) then Ret (- EINVAL)
      else if n_vals1 <? 1 then Ret (- EINVAL)
      else if pod_type h1 =? SPA_TYPE_Struct then
        compare_struct (spa_pod_compare depth m) m (loop_fuel (pod_size h1))
          pod1 (pod_size h1) pod2 (pod_size h2) (pod1 + 8) (pod2 + 8)
      else if pod_type h1 =? SPA_TYPE_Object then
        let! res := compare_props (spa_pod_compare depth m) m (loop_fuel (pod_size h1))
                      pod1 (pod_size h1) pod2 (spa_pod_prop_first (pod1 + 8)) None in
        if negb (res =? 0) then Ret res
        else has_props m (loop_fuel (pod_size h2)) pod2 (pod_size h2) pod1
               (spa_pod_prop_first (pod2 + 8)) None
      else if pod_type h1 =? SPA_TYPE_Array then spa_pod_memcmp m pod1 pod2
      else if negb (pod_size h1 =? pod_size h2) then Ret (- EINVAL)
      else if pod_size h1 <? spa_pod_type_size (pod_type h1) then Ret (- EINVAL)
      else spa_pod_compare_value (pod_type h1) m (pod1 + 8) m (pod2 + 8) (pod_size h1)
  end.

End Compare.

(** ** Values as bytes *)

(** A value of the type in [size] bytes. *)
Definition value_ok (type size : Z) (b : list byte) : Prop :=
  zlen b = size /\ spa_pod_type_size type <= size.

(** ** The order

    Every type but the fractions is compared by a key: a list of numbers in the
    lexicographic order, [None] for a number that is not one, which is above the
    others. *)
Definition key_cmp (k1 k2 : option (list Z)) : Z :=
  match k1, k2 with
  | None, _ => 1
  | Some _, None => -1
  | Some l1, Some l2 => lex l1 l2
  end.

Fixpoint until_nul (l : list Z) : list Z :=
  match l with
  | [] => []
  | x :: l => if x =? 0 then [] else x :: until_nul l
  end.

Definition got (o : outcome Z) : Z := match o with Ret v => v | _ => 0 end.
Definition float_key (w inf bits : Z) : option (list Z) :=
  if float_is_nan w inf bits then None else Some [float_order w bits].

Definition value_key (type : Z) (b : list byte) : option (list Z) :=
  if type =? SPA_TYPE_None then Some []
  else if type =? SPA_TYPE_Bool then Some [truth (got (load_i32 b 0))]
  else if type =? SPA_TYPE_Id then Some [got (load_u32 b 0)]
  else if type =? SPA_TYPE_Int then Some [got (load_i32 b 0)]
  else if type =? SPA_TYPE_Long then Some [got (load_i64 b 0)]
  else if type =? SPA_TYPE_Float then float_key 32 FLOAT_INF (got (load_u32 b 0))
  else if type =? SPA_TYPE_Double then float_key 64 DOUBLE_INF (got (load_u64 b 0))
  else if type =? SPA_TYPE_String then Some (until_nul (octets b))
  else if type =? SPA_TYPE_Rectangle then
    Some [got (load_u32 b 0) * got (load_u32 b 4); got (load_u32 b 0)]
  else Some (octets b).

Definition num_of (b : list byte) : Z := got (load_u32 b 0).
Definition denom_of (b : list byte) : Z := got (load_u32 b 4).

(** The order of two values: the sign of their comparison.  Fractions are
    compared across. *)
Definition value_cmp (type : Z) (b1 b2 : list byte) : Z :=
  if type =? SPA_TYPE_Fraction then SPA_CMP (num_of b1 * denom_of b2) (num_of b2 * denom_of b1)
  else key_cmp (value_key type b1) (value_key type b2).

(** A value that has a place in the order: the denominator of a fraction is not 0. *)
Definition comparable (type size : Z) (b : list byte) : Prop :=
  value_ok type size b /\ (type = SPA_TYPE_Fraction -> 0 < denom_of b).

(** What the code that chooses among values relies on. *)
Class ValueOrder {A} (ok : A -> Prop) (cmp : A -> A -> Z) : Prop := {
  order_sign a b : ok a -> ok b -> -1 <= cmp a b <= 1;
  order_flip a b : ok a -> ok b -> cmp a a = 0 \/ cmp b b = 0 -> cmp b a = - cmp a b;
  order_refl a b : ok a -> ok b -> cmp a b <= 0 -> cmp a a = 0;
  order_le_trans a b c : ok a -> ok b -> ok c -> cmp a b <= 0 -> cmp b c <= 0 -> cmp a c <= 0;
  order_ge_trans a b c : ok a -> ok b -> ok c -> 0 <= cmp a b -> 0 <= cmp b c -> 0 <= cmp a c
}.

(** ** The place of the values *)

Lemma load_u8_at m p bs o :
  holds m p bs -> 0 <= o -> o + 1 <= zlen bs -> load_u8 m (p + o) = load_u8 bs o.
Proof. intros. unfold load_u8. by rewrite (holds_load_at m p bs) by (done || lia). Qed.

Lemma load_i32_at m p bs o :
  holds m p bs -> 0 <= o -> o + 4 <= zlen bs -> load_i32 m (p + o) = load_i32 bs o.
Proof. intros. unfold load_i32. by rewrite (load_u32_at m p bs). Qed.

Section Move.
Context (m1 : mem) (r1 : Z) (b1 : list byte) (m2 : mem) (r2 : Z) (b2 : list byte).
Context (H1 : holds m1 r1 b1) (H2 : holds m2 r2 b2).

Lemma strncmp_move o n :
  0 <= o -> o + Z.of_nat n <= zlen b1 -> o + Z.of_nat n <= zlen b2 ->
  strncmp_sign m1 (r1 + o) m2 (r2 + o) n = strncmp_sign b1 o b2 o n.
Proof.
  revert o. induction n as [|n IH]; intros o Ho Hb1 Hb2; [done|]. cbn [strncmp_sign].
  rewrite (load_u8_at m1 r1 b1), (load_u8_at m2 r2 b2) by (done || lia).
  destruct (load_u8 b1 o) as [x| |]; simpl; [|done..]. destruct (load_u8 b2 o) as [y| |]; simpl; [|done..].
  by rewrite <- !Z.add_assoc, IH by lia.
Qed.
End Move.

(** The types the comparison distinguishes. *)
Lemma type_cases (P : Z -> Prop) type :
  P SPA_TYPE_None -> P SPA_TYPE_Bool -> P SPA_TYPE_Id -> P SPA_TYPE_Int -> P SPA_TYPE_Long ->
  P SPA_TYPE_Float -> P SPA_TYPE_Double -> P SPA_TYPE_String -> P SPA_TYPE_Rectangle ->
  P SPA_TYPE_Fraction ->
  ((type =? SPA_TYPE_None) = false -> (type =? SPA_TYPE_Bool) = false -> (type =? SPA_TYPE_Id) = false ->
   (type =? SPA_TYPE_Int) = false -> (type =? SPA_TYPE_Long) = false -> (type =? SPA_TYPE_Float) = false ->
   (type =? SPA_TYPE_Double) = false -> (type =? SPA_TYPE_String) = false ->
   (type =? SPA_TYPE_Rectangle) = false -> (type =? SPA_TYPE_Fraction) = false -> P type) -> P type.
Proof.
  intros. destruct (Z.eqb_spec type SPA_TYPE_None) as [->|]; [done|].
  destruct (Z.eqb_spec type SPA_TYPE_Bool) as [->|]; [done|].
  destruct (Z.eqb_spec type SPA_TYPE_Id) as [->|]; [done|].
  destruct (Z.eqb_spec type SPA_TYPE_Int) as [->|]; [done|].
  destruct (Z.eqb_spec type SPA_TYPE_Long) as [->|]; [done|].
  destruct (Z.eqb_spec type SPA_TYPE_Float) as [->|]; [done|].
  destruct (Z.eqb_spec type SPA_TYPE_Double) as [->|]; [done|].
  destruct (Z.eqb_spec type SPA_TYPE_String) as [->|]; [done|].
  destruct (Z.eqb_spec type SPA_TYPE_Rectangle) as [->|]; [done|].
  destruct (Z.eqb_spec type SPA_TYPE_Fraction) as [->|]; [done|]. auto.
Qed.

(** The size of the type of the case at hand, and the branch of the comparison. *)
Ltac at_type type size :=
  lazymatch goal with
  | H : spa_pod_type_size type <= _ |- _ =>
      repeat match goal with E : (_ =? _) = false |- _ => rewrite E; clear E end
  | H : spa_pod_type_size ?t <= _ |- _ =>
      let n := eval vm_compute in (spa_pod_type_size t) in
      change (n <= size) in H;
      repeat match goal with
      | |- context [t =? ?u] => let e := eval vm_compute in (t =? u) in change (t =? u) with e
      end; cbv iota
  end.

(** Both values are loaded. *)
Ltac both_loaded E1 E2 :=
  destruct E1 as (? & -> & ?); [lia|lia|]; destruct E2 as (? & -> & ?); [lia|lia|]; cbn [obind got key_cmp].

(** ** The laws of the keys *)

Lemma SPA_CMP_spec a b :
  (a < b /\ SPA_CMP a b = -1) \/ (a = b /\ SPA_CMP a b = 0) \/ (b < a /\ SPA_CMP a b = 1).
Proof. unfold SPA_CMP. repeat case_if; bool_to_prop; lia. Qed.

Lemma lex_single a b : lex [a] [b] = SPA_CMP a b.
Proof. simpl. unfold SPA_CMP. repeat case_if; bool_to_prop; lia. Qed.

Lemma lex_sign l1 l2 : -1 <= lex l1 l2 <= 1.
Proof.
  revert l2. induction l1 as [|x l1 IH]; intros [|y l2]; simpl; try lia. case_if; [done|].
  destruct (SPA_CMP_spec x y); lia.
Qed.

Lemma lex_flip l1 l2 : lex l2 l1 = - lex l1 l2.
Proof.
  revert l2. induction l1 as [|x l1 IH]; intros [|y l2]; simpl; try lia.
  rewrite (Z.eqb_sym y x). case_if; [done|]. bool_to_prop.
  destruct (SPA_CMP_spec x y), (SPA_CMP_spec y x); lia.
Qed.

Lemma lex_refl l : lex l l = 0.
Proof. pose proof (lex_flip l l). lia. Qed.

Lemma lex_le_trans l1 l2 l3 : lex l1 l2 <= 0 -> lex l2 l3 <= 0 -> lex l1 l3 <= 0.
Proof.
  revert l2 l3. induction l1 as [|x l1 IH]; intros [|y l2] [|z l3]; simpl; try lia.
  destruct (SPA_CMP_spec x y), (SPA_CMP_spec y z), (SPA_CMP_spec x z).
  all: repeat case_if; bool_to_prop; try lia; eauto.
Qed.

Lemma key_cmp_sign k1 k2 : -1 <= key_cmp k1 k2 <= 1.
Proof. destruct k1, k2; simpl; [apply lex_sign|lia..]. Qed.

Lemma key_cmp_flip k1 k2 : k1 <> None \/ k2 <> None -> key_cmp k2 k1 = - key_cmp k1 k2.
Proof. destruct k1, k2; simpl; [intros; apply lex_flip|done|done|by intros [[]|[]]]. Qed.

Lemma key_cmp_refl k1 k2 : key_cmp k1 k2 <= 0 -> key_cmp k1 k1 = 0.
Proof. destruct k1; simpl; [intros; apply lex_refl|lia]. Qed.

Lemma key_cmp_le_trans k1 k2 k3 : key_cmp k1 k2 <= 0 -> key_cmp k2 k3 <= 0 -> key_cmp k1 k3 <= 0.
Proof. destruct k1, k2, k3; simpl; try lia. apply lex_le_trans. Qed.

Lemma key_cmp_ge_trans k1 k2 k3 : 0 <= key_cmp k1 k2 -> 0 <= key_cmp k2 k3 -> 0 <= key_cmp k1 k3.
Proof.
  destruct k1 as [l1|], k2 as [l2|], k3 as [l3|]; simpl; try lia.
  pose proof (lex_flip l1 l2). pose proof (lex_flip l2 l3). pose proof (lex_flip l1 l3).
  pose proof (lex_le_trans l3 l2 l1). lia.
Qed.

(** ** The keys give the comparison *)

Lemma octets_nonneg b : Forall (fun x => 0 <= x < 2 ^ 8) (octets b).
Proof.
  apply List.Forall_map, list.Forall_forall. intros x _. apply (le_combine_bound [x]).
Qed.

Lemma load_u8_here p x l : load_u8 (p ++ x :: l) (zlen p) = Ret (le_combine [x]).
Proof.
  unfold load_u8. rewrite (holds_load _ _ [x]); [done| |done]. by exists p, l.
Qed.

Lemma strncmp_lex p1 l1 p2 l2 :
  length l1 = length l2 ->
  strncmp_sign (p1 ++ l1) (zlen p1) (p2 ++ l2) (zlen p2) (length l1) =
  Ret (lex (until_nul (octets l1)) (until_nul (octets l2))).
Proof.
  revert p1 l2 p2. induction l1 as [|x l1 IH]; intros p1 [|y l2] p2 [=]; [done|].
  cbn [strncmp_sign length]. rewrite !load_u8_here. cbn [obind octets map until_nul].
  pose proof (le_combine_bound [x]). pose proof (le_combine_bound [y]).
  specialize (IH (p1 ++ [x]) l2 (p2 ++ [y]) ltac:(done)). rewrite <- !app_assoc in IH.
  rewrite !zlen_app in IH. cbn [app] in IH.
  destruct (Z.eqb_spec (le_combine [x]) (le_combine [y])) as [E|E]; cbn [negb].
  - rewrite <- E. case_if; [done|]. cbn [lex]. by rewrite Z.eqb_refl.
  - f_equal. destruct (SPA_CMP_spec (le_combine [x]) (le_combine [y])).
    all: repeat case_if; bool_to_prop; cbn [lex]; rewrite ?(proj2 (Z.eqb_neq _ _) E); try lia.
Qed.

Lemma cmp_float_key w inf a b : cmp_float w inf a b = key_cmp (float_key w inf a) (float_key w inf b).
Proof.
  unfold cmp_float, float_key. repeat case_if; try done. by cbn [key_cmp]; rewrite lex_single.
Qed.

Lemma rect_lex w1 h1 w2 h2 :
  is_u32 w1 -> is_u32 h1 -> is_u32 w2 -> is_u32 h2 ->
  (if u64 (w1 * h1) <? u64 (w2 * h2) then Ret (-1)
   else if u64 (w2 * h2) <? u64 (w1 * h1) then Ret 1 else Ret (SPA_CMP w1 w2)) =
  Ret (lex [w1 * h1; w1] [w2 * h2; w2]).
Proof.
  unfold is_u32. intros. rewrite !wrap_small by nia. cbn [lex].
  change (if w1 =? w2 then 0 else SPA_CMP w1 w2) with (lex [w1] [w2]). rewrite lex_single.
  destruct (SPA_CMP_spec (w1 * h1) (w2 * h2)).
  all: repeat case_if; bool_to_prop; f_equal; lia.
Qed.

(** ** The result of a comparison has the sign of the order *)
Section Sign.
Context {CL : CLibrary}.

(** The comparison returns, and the sign of the result is [s]. *)
Definition has_sign (o : outcome Z) (s : Z) : Prop := exists c, o = Ret c /\ Z.sgn c = s.

Lemma key_has_sign k1 k2 c : c = key_cmp k1 k2 -> has_sign (Ret c) (key_cmp k1 k2).
Proof. intros ->. eexists. split; [done|]. pose proof (key_cmp_sign k1 k2). lia. Qed.

Lemma lex_has_sign l1 l2 : has_sign (Ret (lex l1 l2)) (lex l1 l2).
Proof. by apply (key_has_sign (Some l1) (Some l2)). Qed.

Lemma single_has_sign a b : has_sign (Ret (SPA_CMP a b)) (lex [a] [b]).
Proof. rewrite <- lex_single. by apply lex_has_sign. Qed.

Lemma scaled_sign s k : -1 <= s <= 1 -> 0 < k -> Z.sgn (s * k) = s.
Proof. intros Hs Hk. rewrite Z.sgn_mul, (Z.sgn_pos k) by done. lia. Qed.

Section Values.
Context (m1 : mem) (r1 : Z) (b1 : list byte) (m2 : mem) (r2 : Z) (b2 : list byte) (size : Z).
Context (H1 : holds m1 r1 b1) (H2 : holds m2 r2 b2) (L1 : zlen b1 = size) (L2 : zlen b2 = size).

Lemma strncmp_has_sign :
  has_sign (strncmp m1 r1 m2 r2 size) (lex (until_nul (octets b1)) (until_nul (octets b2))).
Proof.
  pose proof (zlen_nonneg b1). unfold strncmp. rewrite <- (Z.add_0_r r1), <- (Z.add_0_r r2) at 1.
  rewrite (strncmp_move _ _ _ _ _ _ H1 H2) by lia.
  replace (Z.to_nat size) with (length b1) by (unfold zlen in *; lia).
  pose proof (strncmp_lex [] b1 [] b2 ltac:(unfold zlen in *; lia)) as E. cbn [app] in E.
  change (zlen []) with 0 in E. rewrite E. eexists. split; [done|].
  apply scaled_sign; [apply lex_sign|apply strncmp_magnitude_pos].
Qed.

Lemma memcmp_has_sign : has_sign (memcmp m1 r1 m2 r2 size) (lex (octets b1) (octets b2)).
Proof.
  unfold memcmp. rewrite (holds_load m1 r1 b1), (holds_load m2 r2 b2) by done.
  eexists. split; [done|]. apply scaled_sign; [apply lex_sign|apply memcmp_magnitude_pos].
Qed.

(** The loads of a value are those of its bytes. *)
Lemma load_first {A} (ld : mem -> Z -> outcome A) m r b :
  ld m (r + 0) = ld b 0 -> ld m r = ld b 0.
Proof. by rewrite Z.add_0_r. Qed.

Lemma compare_value_sign type :
  spa_pod_type_size type <= size ->
  has_sign (spa_pod_compare_value type m1 r1 m2 r2 size) (value_cmp type b1 b2).
Proof.
  assert (4 <= size -> load_u32 m1 r1 = load_u32 b1 0 /\ load_u32 m2 r2 = load_u32 b2 0 /\
          load_i32 m1 r1 = load_i32 b1 0 /\ load_i32 m2 r2 = load_i32 b2 0) as A.
  { intros. split_and!; apply load_first;
      first [apply load_u32_at|apply load_i32_at]; done || lia. }
  assert (8 <= size -> load_u64 m1 r1 = load_u64 b1 0 /\ load_u64 m2 r2 = load_u64 b2 0 /\
          load_i64 m1 r1 = load_i64 b1 0 /\ load_i64 m2 r2 = load_i64 b2 0 /\
          load_u32 m1 (r1 + 4) = load_u32 b1 4 /\ load_u32 m2 (r2 + 4) = load_u32 b2 4) as B.
  { intros. split_and!; try apply load_first;
      first [apply load_u32_at|apply load_u64_at|apply load_i64_at]; done || lia. }
  pattern type. apply type_cases; intros; unfold spa_pod_compare_value, value_cmp, value_key;
    at_type type size;
    try (destruct (B ltac:(lia)) as (B1 & B2 & B3 & B4 & B5 & B6); rewrite ?B1, ?B2, ?B3, ?B4, ?B5, ?B6);
    try (destruct (A ltac:(lia)) as (A1 & A2 & A3 & A4); rewrite ?A1, ?A2, ?A3, ?A4).
  - by eexists.
  - both_loaded (load_i32_ok b1 0) (load_i32_ok b2 0). by apply single_has_sign.
  - both_loaded (load_u32_ok b1 0) (load_u32_ok b2 0). by apply single_has_sign.
  - both_loaded (load_i32_ok b1 0) (load_i32_ok b2 0). by apply single_has_sign.
  - both_loaded (load_i64_ok b1 0) (load_i64_ok b2 0). by apply single_has_sign.
  - both_loaded (load_u32_ok b1 0) (load_u32_ok b2 0). rewrite cmp_float_key. by apply key_has_sign.
  - both_loaded (load_u64_ok b1 0) (load_u64_ok b2 0). rewrite cmp_float_key. by apply key_has_sign.
  - apply strncmp_has_sign.
  - both_loaded (load_u32_ok b1 0) (load_u32_ok b2 0). both_loaded (load_u32_ok b1 4) (load_u32_ok b2 4).
    rewrite rect_lex by done. by apply lex_has_sign.
  - unfold num_of, denom_of. both_loaded (load_u32_ok b1 0) (load_u32_ok b2 0).
    both_loaded (load_u32_ok b1 4) (load_u32_ok b2 4). unfold is_u32 in *. rewrite !wrap_small by nia.
    rewrite <- !lex_single. by apply lex_has_sign.
  - apply memcmp_has_sign.
Qed.
End Values.
End Sign.

(** ** The order of the values *)

Lemma value_cmp_key type b1 b2 :
  type <> SPA_TYPE_Fraction -> value_cmp type b1 b2 = key_cmp (value_key type b1) (value_key type b2).
Proof. intros Ht. unfold value_cmp. by rewrite (proj2 (Z.eqb_neq _ _) Ht). Qed.

Lemma cross_le n1 d1 n2 d2 n3 d3 :
  0 < d1 -> 0 < d2 -> 0 < d3 -> n1 * d2 <= n2 * d1 -> n2 * d3 <= n3 * d2 -> n1 * d3 <= n3 * d1.
Proof.
  intros. apply (Z.mul_le_mono_pos_r _ _ d2); [done|].
  transitivity (n2 * d1 * d3); [nia|]. transitivity (n3 * d2 * d1); nia.
Qed.

Lemma fraction_order size : ValueOrder (comparable SPA_TYPE_Fraction size) (value_cmp SPA_TYPE_Fraction).
Proof.
  assert (forall a b, comparable SPA_TYPE_Fraction size a -> comparable SPA_TYPE_Fraction size b ->
    0 < denom_of a /\ value_cmp SPA_TYPE_Fraction a b = SPA_CMP (num_of a * denom_of b) (num_of b * denom_of a)) as E.
  { intros a b [Ha Da] [Hb _]. split; [by apply Da|]. done. }
  split; intros a b.
  - intros Ha Hb. destruct (E a b Ha Hb) as [_ ->].
    destruct (SPA_CMP_spec (num_of a * denom_of b) (num_of b * denom_of a)); lia.
  - intros Ha Hb _. destruct (E a b Ha Hb) as [_ ->], (E b a Hb Ha) as [_ ->].
    destruct (SPA_CMP_spec (num_of a * denom_of b) (num_of b * denom_of a)),
      (SPA_CMP_spec (num_of b * denom_of a) (num_of a * denom_of b)); lia.
  - intros Ha _ _. destruct (E a a Ha Ha) as [_ ->].
    destruct (SPA_CMP_spec (num_of a * denom_of a) (num_of a * denom_of a)); lia.
  - intros c Ha Hb Hc. destruct (E a b Ha Hb) as [Da ->], (E b c Hb Hc) as [Db ->], (E a c Ha Hc) as [_ ->].
    destruct (E c c Hc Hc) as [Dc _].
    pose proof (cross_le (num_of a) (denom_of a) (num_of b) (denom_of b) (num_of c) (denom_of c) Da Db Dc).
    destruct (SPA_CMP_spec (num_of a * denom_of b) (num_of b * denom_of a)),
      (SPA_CMP_spec (num_of b * denom_of c) (num_of c * denom_of b)), (SPA_CMP_spec (num_of a * denom_of c) (num_of c * denom_of a)); lia.
  - intros c Ha Hb Hc. destruct (E a b Ha Hb) as [Da ->], (E b c Hb Hc) as [Db ->], (E a c Ha Hc) as [_ ->].
    destruct (E c c Hc Hc) as [Dc _].
    pose proof (cross_le (num_of c) (denom_of c) (num_of b) (denom_of b) (num_of a) (denom_of a) Dc Db Da).
    destruct (SPA_CMP_spec (num_of a * denom_of b) (num_of b * denom_of a)),
      (SPA_CMP_spec (num_of b * denom_of c) (num_of c * denom_of b)), (SPA_CMP_spec (num_of a * denom_of c) (num_of c * denom_of a)); lia.
Qed.

(** The values of a type in [size] bytes are ordered. *)
#[export] Instance value_order type size : ValueOrder (comparable type size) (value_cmp type).
Proof.
  destruct (decide (type = SPA_TYPE_Fraction)) as [->|Ht]; [apply fraction_order|].
  pose proof (fun a b => value_cmp_key type a b Ht) as E.
  split; intros a b.
  - intros. rewrite E by done. apply key_cmp_sign.
  - intros Ha Hb. rewrite !E by done. intros H. apply key_cmp_flip.
    by destruct H; [left|right]; intros K; rewrite K in *.
  - intros Ha Hb. rewrite !E by done. apply key_cmp_refl.
  - intros c Ha Hb Hc. rewrite !E by done. apply key_cmp_le_trans.
  - intros c Ha Hb Hc. rewrite !E by done. apply key_cmp_ge_trans.
Qed.

(** The types [spa_pod_compare_value] does not hand to the C library. *)
Definition compared_inline (type : Z) : bool :=
  (type =? SPA_TYPE_None) || (type =? SPA_TYPE_Bool) || (type =? SPA_TYPE_Id) || (type =? SPA_TYPE_Int)
  || (type =? SPA_TYPE_Long) || (type =? SPA_TYPE_Float) || (type =? SPA_TYPE_Double)
  || (type =? SPA_TYPE_Rectangle) || (type =? SPA_TYPE_Fraction).

Lemma cmp_float_unit w inf a b : Z.sgn (cmp_float w inf a b) = cmp_float w inf a b.
Proof. rewrite cmp_float_key. pose proof (key_cmp_sign (float_key w inf a) (float_key w inf b)). lia. Qed.

Lemma SPA_CMP_unit a b : Z.sgn (SPA_CMP a b) = SPA_CMP a b.
Proof. destruct (SPA_CMP_spec a b); lia. Qed.

Lemma compared_inline_sign {CL : CLibrary} type m1 r1 m2 r2 size c :
  compared_inline type = true -> spa_pod_compare_value type m1 r1 m2 r2 size = Ret c -> c = Z.sgn c.
Proof.
  destruct (Z.eqb_spec type SPA_TYPE_String) as [->|Hs%Z.eqb_neq]; [done|].
  unfold compared_inline, spa_pod_compare_value, obind. cbv zeta. rewrite Hs. clear Hs.
  repeat match goal with |- context [type =? ?t] => destruct (type =? t) end; try done; intros _.
  all: repeat match goal with
       | |- match ?x with _ => _ end = _ -> _ => destruct x; try done
       end; intros [= <-]; by rewrite ?SPA_CMP_unit, ?cmp_float_unit.
Qed.

(** A number that is not a number: the only value that does not equal itself. *)
Definition is_nan (type : Z) (b : list byte) : Prop := value_cmp type b b <> 0.

(** C36: [spa_pod_compare_value] orders the values of every type.  On values that
    fill [size] bytes, fractions with a denominator other than 0, it returns
    wherever they lie in memory, and the sign of the result is that of the order
    of the values: numbers by size, rectangles by area and then width, fractions
    as quotients, strings up to their end and the values of other types byte by
    byte.  Only the sign is promised where the C library compares; the result is
    -1, 0 or 1 for the types the function compares itself.  Swapping the values
    negates the sign, except that it is positive both ways between two values
    that are not numbers.  Both "not above" and "not below" are transitive, so
    the minima, maxima and ranges taken with it are well defined. *)
Theorem compare_value_order {CL : CLibrary} (type size : Z) (m : mem) (r1 r2 r3 : Z) (b1 b2 b3 : list byte)
    (H1 : holds m r1 b1) (H2 : holds m r2 b2) (H3 : holds m r3 b3)
    (C1 : comparable type size b1) (C2 : comparable type size b2) (C3 : comparable type size b3) :
  exists c12 c21 c23 c13,
    spa_pod_compare_value type m r1 m r2 size = Ret c12 /\
    spa_pod_compare_value type m r2 m r1 size = Ret c21 /\
    spa_pod_compare_value type m r2 m r3 size = Ret c23 /\
    spa_pod_compare_value type m r1 m r3 size = Ret c13 /\
    Z.sgn c12 = value_cmp type b1 b2 /\
    (compared_inline type = true -> c12 = Z.sgn c12) /\
    (Z.sgn c21 = - Z.sgn c12 \/ is_nan type b1 /\ is_nan type b2 /\ 0 < c12 /\ 0 < c21) /\
    (c12 <= 0 -> c23 <= 0 -> c13 <= 0) /\
    (0 <= c12 -> 0 <= c23 -> 0 <= c13).
Proof.
  assert (forall r b r' b', holds m r b -> holds m r' b' -> comparable type size b -> comparable type size b' ->
    has_sign (spa_pod_compare_value type m r m r' size) (value_cmp type b b')) as E.
  { intros r b r' b' H H' [[L Hs] _] [[L' _] _]. by apply compare_value_sign. }
  destruct (E r1 b1 r2 b2) as (c12 & E12 & S12), (E r2 b2 r1 b1) as (c21 & E21 & S21),
    (E r2 b2 r3 b3) as (c23 & E23 & S23), (E r1 b1 r3 b3) as (c13 & E13 & S13); try done.
  exists c12, c21, c23, c13. split_and!; try done.
  - intros Hi. by eapply compared_inline_sign.
  - rewrite S12, S21. unfold is_nan. pose proof (order_flip b1 b2 C1 C2). pose proof (order_refl b1 b2 C1 C2).
    pose proof (order_refl b2 b1 C2 C1). lia.
  - pose proof (order_le_trans b1 b2 b3 C1 C2 C3). lia.
  - pose proof (order_ge_trans b1 b2 b3 C1 C2 C3). lia.
Qed.

(** A C library whose results depend on the length that is given. *)
Definition sample_library : CLibrary :=
  Build_CLibrary (fun _ _ _ _ n => 1 + Z.abs n) (fun _ _ _ _ n => 1 + Z.abs n)
    ltac:(intros; lia) ltac:(intros; lia).

(** Three strings in four bytes each: two with a common start, and one above. *)
Definition sample_strings : mem :=
  (str "ab" ++ zeroes 2) ++ (str "abc" ++ zeroes 1) ++ (str "bcde").

Lemma compare_value_order_witness :
  exists c12 c21 c23 c13,
    spa_pod_compare_value (CL := sample_library) SPA_TYPE_String sample_strings 0 sample_strings 4 4 = Ret c12 /\
    spa_pod_compare_value (CL := sample_library) SPA_TYPE_String sample_strings 4 sample_strings 0 4 = Ret c21 /\
    spa_pod_compare_value (CL := sample_library) SPA_TYPE_String sample_strings 4 sample_strings 8 4 = Ret c23 /\
    spa_pod_compare_value (CL := sample_library) SPA_TYPE_String sample_strings 0 sample_strings 8 4 = Ret c13 /\
    Z.sgn c12 = -1 /\ (c12 <= 0 -> c23 <= 0 -> c13 <= 0).
Proof.
  destruct (compare_value_order (CL := sample_library) SPA_TYPE_String 4 sample_strings 0 4 8
    (str "ab" ++ zeroes 2) (str "abc" ++ zeroes 1) (str "bcde"))
    as (c12 & c21 & c23 & c13 & E1 & E2 & E3 & E4 & S & _ & _ & T & _).
  - exists [], ((str "abc" ++ zeroes 1) ++ str "bcde"). by vm_compute.
  - exists (str "ab" ++ zeroes 2), (str "bcde"). by vm_compute.
  - exists ((str "ab" ++ zeroes 2) ++ str "abc" ++ zeroes 1), []. by vm_compute.
  - split; [by split; vm_compute|by vm_compute].
  - split; [by split; vm_compute|by vm_compute].
  - split; [by split; vm_compute|by vm_compute].
  - exists c12, c21, c23, c13. by split_and!.
Defined.

(** ** Structs

    The loop over the members of two structs only ends with an error or a member
    that differs: no struct equals itself. *)
Lemma compare_struct_not_equal compare m n pod1 p1s pod2 p2s p1 p2 :
  compare_struct compare m n pod1 p1s pod2 p2s p1 p2 <> Ret 0.
Proof.
  revert p1 p2. induction n as [|n IH]; intros p1 p2; [done|]. cbn [compare_struct].
  destruct (spa_pod_is_inside m pod1 p1s p1) as [i1| |]; [|done..]. cbn [obind].
  destruct (if i1 then _ else _) as [[]| |]; [|done..]. cbn [obind negb].
  destruct (compare p1 p2) as [r| |]; [|done..]. cbn [obind].
  destruct (Z.eqb_spec r 0) as [->|]; cbn [negb]; [|by intros [=]].
  destruct (spa_pod_next m p1) as [q1| |]; [|done..]. cbn [obind].
  by destruct (spa_pod_next m p2) as [q2| |]; [apply IH|..].
Qed.

Lemma struct_compare_not_equal {CL : CLibrary} depth m pod p :
  load_pod m pod = Ret p -> pod_type p = SPA_TYPE_Struct -> spa_pod_compare depth m pod pod <> Ret 0.
Proof.
  intros Hp Ht. destruct depth as [|depth]; [done|]. cbn [spa_pod_compare].
  assert (exists n, spa_pod_get_values m pod = Ret (pod, n, SPA_CHOICE_None)) as [n ->].
  { unfold spa_pod_get_values. rewrite Hp. cbn [obind].
    destruct (spa_pod_is_choice p) eqn:E; [|by eexists].
    unfold spa_pod_is_choice, SPA_POD_CHECK, SPA_POD_CHECK_TYPE in E. bool_to_prop. by rewrite Ht in *. }
  cbn [obind]. rewrite Hp. cbn [obind]. rewrite Ht, !Z.eqb_refl. cbn [negb].
  destruct (n <? 1); [done|]. apply compare_struct_not_equal.
Qed.
