(* ===== verification/PodFilter.v ===== *)
(** * Intersection of PODs

    Models [spa/include/spa/pod/filter.h].  The pods that are filtered are read
    from a memory [m] of their own; the result goes to a builder.  The kind of the
    choice under construction is patched in the builder's buffer, or in the local
    [dummy] when the buffer is too small to hold the choice. *)
From S2P Require Import Prelude Bytes PodBody PodBuilder PodIter PodCompare.
#[local] Open Scope Z_scope.

Section Filter.
Context {CL : CLibrary} (m : mem).

(** [spa_pod_builder_raw(b, a, size)] and the padded form, with [a] a pointer
    into the input. *)
Definition raw_at (a size : Z) : ST spa_pod_builder Z :=
  spa_pod_builder_raw (Some (drop (Z.to_nat a) m)) size.
Definition raw_padded_at (a size : Z) : ST spa_pod_builder Z :=
  spa_pod_builder_raw_padded (Some (drop (Z.to_nat a) m)) size.

Definition spa_pod_filter_flags_value (type r1 r2 size : Z) : ST spa_pod_builder Z :=
  if type =? SPA_TYPE_Int then
    if size <? 4 then st_ret (- EINVAL)
    else
      let* a := st_lift (load_i32 m r1) in
      let* b := st_lift (load_i32 m r2) in
      let val := Z.land a b in
      if val =? 0 then st_ret 0 else spa_pod_builder_int val ;;; st_ret 1
  else if type =? SPA_TYPE_Long then
    if size <? 8 then st_ret (- EINVAL)
    else
      let* a := st_lift (load_i64 m r1) in
      let* b := st_lift (load_i64 m r2) in
      let val := Z.land a b in
      if val =? 0 then st_ret 0 else spa_pod_builder_long val ;;; st_ret 1
  else st_ret (- ENOTSUP).

(** ** The choice under construction

    [nc = spa_pod_builder_deref_fallback(b, nc_offs, &dummy.pod)], followed by a
    read or a write of [nc->body.type]; [dummy] is the type in the local. *)
Definition nc_type (nc_offs dummy : Z) : ST spa_pod_builder Z :=
  let* b := st_get in
  let* nc := st_lift (spa_pod_builder_deref b nc_offs) in
  match nc with
  | Some nc => st_lift (load_u32 (b_data b) (nc + 8))
  | None => st_ret dummy
  end.

Definition set_nc_type (nc_offs dummy type : Z) : ST spa_pod_builder Z :=
  let* b := st_get in
  let* nc := st_lift (spa_pod_builder_deref b nc_offs) in
  match nc with
  | Some nc =>
      let* data := st_lift (store (b_data b) (nc + 8) (le32 type)) in
      st_put (mk_builder data (b_offset b) (b_flags b) (b_frames b) (b_overflow b)) ;;;
      st_ret dummy
  | None => st_ret type
  end.

(** ** Copying values

    A value that is kept is written; the first one also as the default, unless
    there is one already.  The result is the new [n_copied]. *)
Definition copy_value (found_def : bool) (size a n_copied : Z) : ST spa_pod_builder Z :=
  (if (n_copied =? 0) && negb found_def then raw_at a size else st_ret 0) ;;;
  raw_at a size ;;;
  st_ret (n_copied + 1).

(** The inner loop over [alt1], with [n] alternatives left. *)
Fixpoint copy_equal_to (type size a2 : Z) (n : nat) (a1 n_copied : Z) : ST spa_pod_builder Z :=
  match n with
  | O => st_ret n_copied
  | S n =>
      let* c := st_lift (spa_pod_compare_value type m a1 m a2 size) in
      let* n_copied := (if c =? 0 then copy_value false size a1 n_copied else st_ret n_copied) in
      copy_equal_to type size a2 n (a1 + size) n_copied
  end.

(** The outer loop over [alt2]. *)
Fixpoint copy_equal (type size alt1 : Z) (nalt1 : nat) (n : nat) (a2 n_copied : Z)
  : ST spa_pod_builder Z :=
  match n with
  | O => st_ret n_copied
  | S n =>
      let* n_copied := copy_equal_to type size a2 nalt1 alt1 n_copied in
      copy_equal type size alt1 nalt1 n (a2 + size) n_copied
  end.

(** The first alternative that equals [def] becomes the default. *)
Fixpoint copy_default (type size def : Z) (n : nat) (a1 : Z) : ST spa_pod_builder bool :=
  match n with
  | O => st_ret false
  | S n =>
      let* c := st_lift (spa_pod_compare_value type m a1 m def size) in
      if c =? 0 then raw_at a1 size ;;; st_ret true else copy_default type size def n (a1 + size)
  end.

(** The alternatives in a range; [Err] is the early return with its code. *)
Fixpoint copy_in_range (type size min max : Z) (step : option Z) (found_def : bool) (n : nat) (a n_copied : Z)
  : ST spa_pod_builder Z :=
  match n with
  | O => st_ret n_copied
  | S n =>
      let* res := st_lift (spa_pod_compare_is_in_range type m a min max step size) in
      if res <? 0 then st_lift (Err (- res))
      else
        let* n_copied := (if res =? 0 then st_ret n_copied else copy_value found_def size a n_copied) in
        copy_in_range type size min max step found_def n (a + size) n_copied
  end.

(** ** One property

    A negative result is [Err] of the positive code; the early returns leave the
    choice's frame open, as the code does. *)

(** Both sides are ranges: the intersection replaces them. *)
Definition filter_ranges (type size alt1 alt2 nc_offs dummy : Z) : ST spa_pod_builder Z :=
  let min1 := alt1 + size in
  let max1 := min1 + size in
  let min2 := alt2 + size in
  let max2 := min2 + size in
  let* c := st_lift (spa_pod_compare_value type m min1 m min2 size) in
  let min1 := if c <? 0 then min2 else min1 in
  let* c := st_lift (spa_pod_compare_value type m max2 m max1 size) in
  let max1 := if c <? 0 then max2 else max1 in
  let* c := st_lift (spa_pod_compare_value type m max1 m min1 size) in
  if c <? 0 then st_err EINVAL
  else
    let* res := st_lift (spa_pod_compare_is_in_range type m alt2 min1 max1 None size) in
    if res <? 0 then st_err (- res)
    else
      let* a1 :=
        (if res =? 0 then
           let* res := st_lift (spa_pod_compare_is_in_range type m alt1 min1 max1 None size) in
           if res <? 0 then st_err (- res) else st_ret (if res =? 0 then min1 else alt1)
         else st_ret alt2) in
      raw_at a1 size ;;;
      raw_at min1 size ;;;
      raw_at max1 size ;;;
      set_nc_type nc_offs dummy SPA_CHOICE_Range.

(** The first side is a list of values, the second a range. *)
Definition filter_enum_range (type size alt1 : Z) (nalt1 : Z) (alt2 p2c : Z) : ST spa_pod_builder Z :=
  let min := alt2 + size in
  let max := min + size in
  let step := if p2c =? SPA_CHOICE_Step then Some (max + size) else None in
  let* c := st_lift (spa_pod_compare_value type m alt2 m min size) in
  let* in_range :=
    (if 0 <=? c then
       let* c := st_lift (spa_pod_compare_value type m alt2 m max size) in st_ret (c <=? 0)
     else st_ret false) in
  let* found_def :=
    (if in_range : bool then copy_default type size alt2 (Z.to_nat nalt1) alt1 else st_ret false) in
  copy_in_range type size min max step found_def (Z.to_nat nalt1) alt1 0.

(** The first side is a range, the second a list of values. *)
Definition filter_range_enum (type size alt1 p1c alt2 nalt2 : Z) : ST spa_pod_builder Z :=
  let min := alt1 + size in
  let max := min + size in
  let step := if p1c =? SPA_CHOICE_Step then Some (max + size) else None in
  copy_in_range type size min max step false (Z.to_nat nalt2) alt2 0.

Definition is_list (c : Z) : bool := (c =? SPA_CHOICE_None) || (c =? SPA_CHOICE_Enum).
Definition is_range (c : Z) : bool := (c =? SPA_CHOICE_Range) || (c =? SPA_CHOICE_Step).
Definition is_flags (c : Z) : bool := c =? SPA_CHOICE_Flags.
(** The pairs that are intersected as flags. *)
Definition flags_pair (p1c p2c : Z) : bool :=
  ((p1c =? SPA_CHOICE_None) && is_flags p2c) || (is_flags p1c && (p2c =? SPA_CHOICE_None)) ||
  (is_flags p1c && is_flags p2c).
(** The pairs the code rejects. *)
Definition rejected_pair (p1c p2c : Z) : bool :=
  (is_flags p2c && (is_range p1c || (p1c =? SPA_CHOICE_Enum))) ||
  (is_flags p1c && (is_range p2c || (p2c =? SPA_CHOICE_Enum))).

(** The case distinction on the two kinds of choice: [n_copied] and [dummy]. *)
Definition filter_values (type size alt1 nalt1 p1c alt2 nalt2 p2c nc_offs : Z)
  : ST spa_pod_builder (Z * Z) :=
  if is_list p1c && is_list p2c then
    let* n := copy_equal type size alt1 (Z.to_nat nalt1) (Z.to_nat nalt2) alt2 0 in st_ret (n, 0)
  else if is_list p1c && is_range p2c then
    let* n := filter_enum_range type size alt1 nalt1 alt2 p2c in st_ret (n, 0)
  else if is_range p1c && is_list p2c then
    let* n := filter_range_enum type size alt1 p1c alt2 nalt2 in st_ret (n, 0)
  else if is_range p1c && is_range p2c then
    let* dummy := filter_ranges type size alt1 alt2 nc_offs 0 in st_ret (0, dummy)
  else if flags_pair p1c p2c then
    let* res := spa_pod_filter_flags_value type alt1 alt2 size in
    if negb (res =? 1) then st_err EINVAL
    else let* dummy := set_nc_type nc_offs 0 SPA_CHOICE_Flags in st_ret (0, dummy)
  else if rejected_pair p1c p2c then st_err ENOTSUP
  else st_ret (0, 0).

(** The end of the choice. *)
Definition filter_finish (size nc_offs n_copied dummy : Z) : ST spa_pod_builder Z :=
  let* t := nc_type nc_offs dummy in
  (if t =? SPA_CHOICE_None then
     if n_copied =? 0 then st_err EINVAL
     else if n_copied =? 1 then st_modify (spa_pod_builder_remove size) ;;; st_ret dummy
     else set_nc_type nc_offs dummy SPA_CHOICE_Enum
   else st_ret dummy) ;;;
  spa_pod_builder_pop ;;;
  st_ret 0.

Definition spa_pod_filter_prop (p1 p2 : Z) : ST spa_pod_builder Z :=
  let* x1 := st_lift (spa_pod_get_values m (p1 + 8)) in
  let* x2 := st_lift (spa_pod_get_values m (p2 + 8)) in
  let '(v1, nalt1, p1c) := x1 in
  let '(v2, nalt2, p2c) := x2 in
  if (nalt1 <? 1) || (nalt2 <? 1) then st_err EINVAL
  else
    let* h1 := st_lift (load_pod m v1) in
    let* h2 := st_lift (load_pod m v2) in
    let* key1 := st_lift (load_u32 m p1) in
    let* key2 := st_lift (load_u32 m p2) in
    let type := pod_type h1 in
    let size := pod_size h1 in
    if negb (type =? pod_type h2) || negb (size =? pod_size h2) || negb (key1 =? key2)
    then st_err EINVAL
    else
      let* flags1 := st_lift (load_u32 m (p1 + 4)) in
      let* flags2 := st_lift (load_u32 m (p2 + 4)) in
      spa_pod_builder_prop key1 (Z.land flags1 flags2) ;;;
      let* b := st_get in
      let nc_offs := b_offset b in
      spa_pod_builder_push_choice SPA_CHOICE_None 0 ;;;
      spa_pod_builder_child size type ;;;
      let* valid := st_lift (spa_pod_compare_is_valid_choice type size m (v2 + 8) (v2 + 8) nalt2 p2c) in
      let* r :=
        (if valid =? 0
         then filter_values type size (v2 + 8) nalt2 p2c (v1 + 8) nalt1 p1c nc_offs
         else filter_values type size (v1 + 8) nalt1 p1c (v2 + 8) nalt2 p2c nc_offs) in
      filter_finish size nc_offs r.1 r.2.

(** ** Whole pods *)

Definition SPA_POD_PROP_SIZE_at (p : Z) : outcome Z := let! s := load_u32 m (p + 8) in Ret (16 + s).

(** A property that only one of the objects has: dropped, copied or an error. *)
Definition copy_missing (p : Z) : ST spa_pod_builder Z :=
  let* flags := st_lift (load_u32 m (p + 4)) in
  if flag_is_set flags SPA_POD_PROP_FLAG_MANDATORY then st_err EINVAL
  else if negb (flag_is_set flags SPA_POD_PROP_FLAG_DROP) then
    let* n := st_lift (SPA_POD_PROP_SIZE_at p) in raw_padded_at p (u32 n)
  else st_ret 0.

(** The properties of the object, with the last property found in the filter. *)
Fixpoint filter_props (fuel : nat) (op size fo p1 : Z) (p2 : option Z) : ST spa_pod_builder Z :=
  match fuel with
  | O => st_lift Fault
  | S fuel =>
      let* i := st_lift (spa_pod_prop_is_inside m (op + 8) size p1) in
      if negb i then st_ret 0
      else
        let* key := st_lift (load_u32 m p1) in
        let* p2 := st_lift (spa_pod_object_find_prop m fo p2 key) in
        (match p2 with Some p2 => spa_pod_filter_prop p1 p2 | None => copy_missing p1 end) ;;;
        let* next := st_lift (spa_pod_prop_next m p1) in
        filter_props fuel op size fo next p2
  end.

(** The properties of the filter that the object does not have. *)
Fixpoint filter_others (fuel : nat) (fo size op p2 : Z) (p1 : option Z) : ST spa_pod_builder Z :=
  match fuel with
  | O => st_lift Fault
  | S fuel =>
      let* i := st_lift (spa_pod_prop_is_inside m (fo + 8) size p2) in
      if negb i then st_ret 0
      else
        let* key := st_lift (load_u32 m p2) in
        let* p1 := st_lift (spa_pod_object_find_prop m op p1 key) in
        (match p1 with Some _ => st_ret 0 | None => copy_missing p2 end) ;;;
        let* next := st_lift (spa_pod_prop_next m p2) in
        filter_others fuel fo size op next p1
  end.

(** A result code that is tested after the frame has been closed. *)
Definition code_of {A} (r : A + Z) : Z := match r with inl _ => 0 | inr e => - e end.

(** [spa_pod_builder_pop(b, &f)] with [f] at the given depth of the chain: the
    frames that an early return left open inside of [f] go with it. *)
Definition pop_to (depth : nat) : ST spa_pod_builder (option Z) :=
  st_modify (fun b => mk_builder (b_data b) (b_offset b) (b_flags b)
                        (drop (length (b_frames b) - S depth) (b_frames b)) (b_overflow b)) ;;;
  spa_pod_builder_pop.

Definition filter_object (op fo : Z) : ST spa_pod_builder Z :=
  let* type := st_lift (load_u32 m (op + 8)) in
  let* id := st_lift (load_u32 m (op + 12)) in
  let* b := st_get in
  spa_pod_builder_push_object type id ;;;
  let* size1 := st_lift (load_u32 m op) in
  let* size2 := st_lift (load_u32 m fo) in
  let* res := st_try (filter_props (loop_fuel size1) op size1 fo (spa_pod_prop_first (op + 8)) None ;;;
                      filter_others (loop_fuel size2) fo size2 op (spa_pod_prop_first (fo + 8)) None) in
  pop_to (length (b_frames b)) ;;;
  st_ret (code_of res).

(** The elements of a pod; [part] filters the members of a struct.  The case
    distinction yields [res], [do_copy] and [do_advance]. *)
Section Part.
Context (part : Z -> Z -> Z -> Z -> ST spa_pod_builder Z).

Definition filter_struct (pp : Z) (p : spa_pod) (pf : Z) (f : spa_pod) : ST spa_pod_builder Z :=
  spa_pod_builder_push_struct ;;;
  let* res := st_try (part (pp + 8) (u32 (SPA_POD_SIZE p - 8)) (pf + 8) (u32 (SPA_POD_SIZE f - 8))) in
  spa_pod_builder_pop ;;;
  st_ret (code_of res).

Definition filter_element (pp : Z) (p : spa_pod) (pf : option Z) : ST spa_pod_builder (Z * bool * bool) :=
  if (pod_type p =? SPA_TYPE_Object) || (pod_type p =? SPA_TYPE_Struct) then
    match pf with
    | Some pf =>
        let* f := st_lift (load_pod m pf) in
        if negb (pod_type f =? pod_type p) then st_err EINVAL
        else
          let* res := (if pod_type p =? SPA_TYPE_Object then filter_object pp pf
                       else filter_struct pp p pf f) in
          st_ret (res, false, true)
    | None => st_ret (0, true, false)
    end
  else
    match pf with
    | Some pf =>
        let* c := st_lift (spa_pod_memcmp m pp pf) in
        if negb (c =? 0) then st_err EINVAL else st_ret (0, true, true)
    | None => st_ret (0, true, false)
    end.

Fixpoint part_loop (fuel : nat) (pod pod_size filter filter_size pp : Z) (pf : option Z)
  : ST spa_pod_builder Z :=
  match fuel with
  | O => st_lift Fault
  | S fuel =>
      let* i := st_lift (spa_pod_is_inside m pod pod_size pp) in
      if negb i then st_ret 0
      else
        let* p := st_lift (load_pod m pp) in
        let* r := filter_element pp p pf in
        let '(res, do_copy, do_advance) := r in
        (if do_copy : bool then raw_padded_at pp (u32 (SPA_POD_SIZE p)) else st_ret 0) ;;;
        let* pf :=
          match pf with
          | Some pf =>
              if do_advance : bool then
                let* pf := st_lift (spa_pod_next m pf) in
                let* i := st_lift (spa_pod_is_inside m filter filter_size pf) in
                st_ret (if i : bool then Some pf else None)
              else st_ret (Some pf)
          | None => st_ret None
          end in
        if res <? 0 then st_err (- res)
        else
          let* pp := st_lift (spa_pod_next m pp) in
          part_loop fuel pod pod_size filter filter_size pp pf
  end.
End Part.

(** The nesting of structs is bounded by [depth]. *)
Fixpoint spa_pod_filter_part (depth : nat) (pod pod_size filter filter_size : Z) : ST spa_pod_builder Z :=
  match depth with
  | O => st_lift Fault
  | S depth =>
      part_loop (spa_pod_filter_part depth) (loop_fuel pod_size) pod pod_size filter filter_size pod (Some filter)
  end.

(** ** The result in the caller's builder *)

(** The room that is left in a builder, and the dynamic builder on it. *)
Definition room (b : spa_pod_builder) : Z :=
  if b_size b <=? b_offset b then 0 else b_size b - b_offset b.
Definition spa_pod_dynamic_builder_continue (fresh : nat -> list byte) (b : spa_pod_builder) : spa_pod_builder :=
  spa_pod_dynamic_builder_init fresh (slice (b_offset b) (room b) (b_data b))
    (match b_overflow b with None => 0 | Some _ => 4096 end).

(** The dynamic builder writes into the room of [b] until it moves to memory of
    its own; [left] are the bytes of the room at that time. *)
Definition share_room (left : mem) (db : spa_pod_builder) (b : spa_pod_builder) : spa_pod_builder :=
  if b_size b <=? b_offset b then b
  else
    mk_builder (overwrite (b_data b) (b_offset b) (if b_size db =? room b then b_data db else left))
      (b_offset b) (b_flags b) (b_frames b) (b_overflow b).

(** The result code and the offset of the result; [pod] is not NULL and the
    caller asks for the result. *)
Definition spa_pod_filter (fresh : nat -> list byte) (left : mem) (depth : nat) (pod : Z) (filter : option Z)
  : ST spa_pod_builder (Z * option Z) :=
  let* b := st_get in
  let* p := st_lift (load_pod m pod) in
  let* res :=
    match filter with
    | None => raw_padded_at pod (u32 (SPA_POD_SIZE p))
    | Some filter =>
        let* f := st_lift (load_pod m filter) in
        let '(r, db) := spa_pod_filter_part depth pod (u32 (SPA_POD_SIZE p)) filter (u32 (SPA_POD_SIZE f))
                          (spa_pod_dynamic_builder_continue fresh b) in
        st_modify (share_room left db) ;;;
        match r with
        | Ret _ => spa_pod_builder_raw_padded (Some (b_data db)) (b_offset db)
        | Err e => st_ret (- e)
        | Fault => st_lift Fault
        end
    end in
  if 0 <=? res then
    let* b' := st_get in
    let* result := st_lift (spa_pod_builder_deref b' (bs_offset (spa_pod_builder_get_state b))) in
    match result with
    | Some r => st_ret (res, Some r)
    | None => st_ret (- ENOSPC, None)
    end
  else st_ret (res, None).
End Filter.

(** ** Fixing the choices that have a valid default *)

Fixpoint make_loop {CL : CLibrary} (fuel : nat) (body size iter count : Z) (m : mem) : outcome (Z * mem) :=
  match fuel with
  | O => Fault
  | S fuel =>
      let! i := spa_pod_prop_is_inside m body size iter in
      if negb i then Ret (count, m)
      else
        let! value := load_pod m (iter + 8) in
        let! flags := load_u32 m (iter + 4) in
        let! r :=
          (if spa_pod_is_choice value && negb (flag_is_set flags SPA_POD_PROP_FLAG_DONT_FIXATE) then
             let! vals := spa_pod_get_values m (iter + 8) in
             let '(v, nvals, choice) := vals in
             if nvals <? 1 then Ret (count, m)
             else
               let! h := load_pod m v in
               let! valid := spa_pod_compare_is_valid_choice (pod_type h) (pod_size h) m
                               (v + 8) (v + 8) nvals choice in
               if valid =? 0 then Ret (count, m)
               else let! m := store m (iter + 16) (le32 SPA_CHOICE_None) in Ret (count + 1, m)
           else Ret (count, m)) in
        let! next := spa_pod_prop_next r.2 iter in
        make_loop fuel body size next r.1 r.2
  end.

Definition spa_pod_filter_object_make {CL : CLibrary} (m : mem) (pod : Z) : outcome (Z * mem) :=
  let! size := load_u32 m pod in
  make_loop (loop_fuel size) (pod + 8) size (spa_pod_prop_first (pod + 8)) 0 m.

Definition spa_pod_filter_make {CL : CLibrary} (m : mem) (pod : Z) : outcome (Z * mem) :=
  let! p := load_pod m pod in
  if negb (spa_pod_is_object p) then Ret (- EINVAL, m) else spa_pod_filter_object_make m pod.
