(* ===== verification/PodFilterProofs.v ===== *)
(** * The filter computes the intersection

    What [spa_pod_filter_prop] writes for two properties with the same key and
    type, as values of the two choices.  The loops are related to list functions
    on the values; the order of [PodCompare] then shows that the result is the
    intersection of the two sides. *)
From S2P Require Import Prelude Bytes PodBody PodBuilder PodSpec PodIter PodCompare PodFilter.
#[local] Open Scope Z_scope.

(** ** What a choice accepts *)

(** The numbers that flags are made of. *)
Definition bits (type : Z) (v : list byte) : option Z :=
  if type =? SPA_TYPE_Int then Some (got (load_i32 v 0))
  else if type =? SPA_TYPE_Long then Some (got (load_i64 v 0))
  else None.

Definition within (type : Z) (lo hi v : list byte) : Prop :=
  0 <= value_cmp type v lo /\ value_cmp type v hi <= 0.

Definition steps (type : Z) (s v : list byte) : Prop := spa_pod_compare_is_step_of type v 0 s 0 = Ret 1.

(** The bits of [v] are among those of [a], and there are some. *)
Definition some_of (type : Z) (a v : list byte) : Prop :=
  exists x y, bits type a = Some x /\ bits type v = Some y /\ y <> 0 /\ Z.land y x = y.

(** A value is accepted by a choice: it equals one that is listed, is in the
    range, or has some of the flags. *)
Definition accepts (type c : Z) (vals : list (list byte)) (v : list byte) : Prop :=
  if is_list c then exists a, In a vals /\ value_cmp type v a = 0
  else match vals with
       | a :: lo :: hi :: rest =>
           is_range c = true /\ within type lo hi v /\
           (c = SPA_CHOICE_Step -> exists s, head rest = Some s /\ steps type s v)
       | [a] => is_flags c = true /\ some_of type a v
       | _ => False
       end.

(** A value that can be compared, also with itself. *)
Definition proper (type size : Z) (v : list byte) : Prop :=
  comparable type size v /\ value_cmp type v v = 0.

(** The property at [p]: its key, its flags, and the kind and values of its choice.
    The default of a choice with steps is one of its values. *)
Record alternatives (m : mem) (p key flags type size c : Z) (vals : list (list byte)) : Prop := {
  alt_key : load_u32 m p = Ret key;
  alt_flags : load_u32 m (p + 4) = Ret flags;
  alt_values : exists v, spa_pod_get_values m (p + 8) = Ret (v, zlen vals, c) /\
                 load_pod m v = Ret (mk_pod size type) /\ holds m (v + 8) (concat vals);
  alt_some : vals <> [];
  alt_proper : Forall (proper type size) vals;
  alt_kind : is_list c || is_range c || is_flags c = true;
  alt_step : c = SPA_CHOICE_Step ->
             (type = SPA_TYPE_Int \/ type = SPA_TYPE_Long) /\ exists d, head vals = Some d /\ accepts type c vals d }.

(** ** Values in memory *)

(** The code only looks at the sign of a comparison. *)
Lemma sgn_tests c s :
  Z.sgn c = s ->
  (c <? 0) = (s <? 0) /\ (0 <? c) = (0 <? s) /\ (c =? 0) = (s =? 0) /\ (c <=? 0) = (s <=? 0) /\
  (0 <=? c) = (0 <=? s).
Proof.
  intros <-. split_and!; apply eq_true_iff_eq; rewrite ?Z.ltb_lt, ?Z.leb_le, ?Z.eqb_eq; lia.
Qed.

(** The result of a comparison is replaced by its sign in the tests. *)
Ltac by_sign S :=
  let T1 := fresh in let T2 := fresh in let T3 := fresh in let T4 := fresh in let T5 := fresh in
  destruct (sgn_tests _ _ S) as (T1 & T2 & T3 & T4 & T5); rewrite ?T1, ?T2, ?T3, ?T4, ?T5;
  clear T1 T2 T3 T4 T5.

Section Values.
Context {CL : CLibrary} (m : mem) (type size : Z).
Notation cmp := (value_cmp type).
Notation ok := (proper type size).

Definition alts_at (a : Z) (vals : list (list byte)) : Prop :=
  holds m a (concat vals) /\ Forall ok vals.

Lemma proper_zlen v : ok v -> zlen v = size.
Proof. by intros [[[] _] _]. Qed.

Lemma alts_cons a v vals : alts_at a (v :: vals) -> holds m a v /\ ok v /\ alts_at (a + size) vals.
Proof.
  intros [H F]. inversion_clear F as [|? ? Hv Hs]. simpl in H. split_and!; [by eapply holds_app_l|done|].
  split; [|done]. rewrite <- (proper_zlen v Hv). by eapply holds_app_r.
Qed.

Lemma compare_at a v a' v' :
  holds m a v -> holds m a' v' -> ok v -> ok v' ->
  has_sign (spa_pod_compare_value type m a m a' size) (cmp v v').
Proof. intros H H' [[[L Hs] _] _] [[[L' _] _] _]. by apply compare_value_sign. Qed.

Lemma raw_at_append a v b :
  holds m a v -> zlen v = size -> builder_ok b -> fits b size ->
  raw_at m a size b = (Ret 0, append_bytes v b).
Proof.
  intros (pre & post & -> & <-) <- Hb Hf. unfold raw_at. apply raw_fits; [done|done|].
  exists post. f_equal. rewrite drop_app_ge by (unfold zlen; lia).
  by replace (Z.to_nat (zlen pre) - length pre)%nat with 0%nat by (unfold zlen; lia).
Qed.

(** Whether a value is in a range, with the step. *)
Definition in_range (lo hi : list byte) (step : option (list byte)) (v : list byte) : bool :=
  (0 <=? cmp v lo) && (cmp v hi <=? 0) &&
  match step with
  | None => true
  | Some s => got (spa_pod_compare_is_step_of type v 0 s 0) =? 1
  end.

(** A step that does not fail. *)
Definition step_ok (s : list byte) : Prop :=
  type = SPA_TYPE_Int /\ (exists x, load_i32 s 0 = Ret x /\ 1 <= x) \/
  type = SPA_TYPE_Long /\ (exists x, load_i64 s 0 = Ret x /\ 1 <= x).

Lemma step_of_at a v a' s :
  holds m a v -> holds m a' s -> ok v -> ok s -> step_ok s ->
  spa_pod_compare_is_step_of type m a m a' = spa_pod_compare_is_step_of type v 0 s 0 /\
  exists b : bool, spa_pod_compare_is_step_of type v 0 s 0 = Ret (if b then 1 else 0).
Proof.
  intros H H' [[[L Ht] _] _] [[[L' _] _] _] Hs.
  destruct Hs as [[-> (x & Ex & Hx)]|[-> (x & Ex & Hx)]]; unfold spa_pod_compare_is_step_of; simpl.
  - change (4 <= size) in Ht. pose proof (load_i32_at m a v 0 H) as A. pose proof (load_i32_at m a' s 0 H') as A'.
    rewrite Z.add_0_r in A, A'. rewrite A, A' by lia. split; [done|].
    destruct (load_i32_ok v 0) as (y & -> & _); [lia|lia|]. rewrite Ex. simpl.
    rewrite (proj2 (Z.ltb_ge x 1)) by lia. by exists (Z.rem y x =? 0).
  - change (8 <= size) in Ht. pose proof (load_i64_at m a v H 0) as A. pose proof (load_i64_at m a' s H' 0) as A'.
    rewrite Z.add_0_r in A, A'. rewrite A, A' by lia. split; [done|].
    destruct (load_i64_ok v 0) as (y & -> & _); [lia|lia|]. rewrite Ex. simpl.
    rewrite (proj2 (Z.ltb_ge x 1)) by lia. by exists (Z.rem y x =? 0).
Qed.

(** A step at an address, or none. *)
Definition step_at (step : option Z) (s : option (list byte)) : Prop :=
  match step, s with
  | None, None => True
  | Some a, Some s => holds m a s /\ ok s /\ step_ok s
  | _, _ => False
  end.

Lemma in_range_at a v lo l hi h step s :
  holds m a v -> holds m lo l -> holds m hi h -> ok v -> ok l -> ok h -> step_at step s ->
  spa_pod_compare_is_in_range type m a lo hi step size = Ret (if in_range l h s v then 1 else 0).
Proof.
  intros Ha Hl Hh Ov Ol Oh Hs. unfold spa_pod_compare_is_in_range, in_range.
  destruct (compare_at a v lo l) as (c1 & -> & S1); [done..|]. cbn [obind].
  destruct (compare_at a v hi h) as (c2 & -> & S2); [done..|]. cbn [obind]. by_sign S1. by_sign S2.
  rewrite Z.ltb_antisym. destruct (0 <=? cmp v l); simpl; [|done].
  rewrite Z.ltb_antisym. destruct (cmp v h <=? 0); simpl; [|done].
  destruct step as [st|], s as [s|]; simpl in Hs; try done. destruct Hs as (Hs & Os & Hok).
  destruct (step_of_at a v st s) as (-> & [] & ->); done.
Qed.
End Values.

(** ** The loops write lists of values *)

(** The values written for the kept ones: the first is also the default. *)
Definition emit (found_def : bool) (n : Z) (l : list (list byte)) : list (list byte) :=
  match l with
  | [] => []
  | v :: _ => if (n =? 0) && negb found_def then v :: l else l
  end.

Lemma emit_app f n l1 l2 :
  0 <= n -> emit f n (l1 ++ l2) = emit f n l1 ++ emit f (n + zlen l1) l2.
Proof.
  intros Hn. destruct l1 as [|v l1]; [simpl; by rewrite Z.add_0_r|].
  assert (emit f (n + zlen (v :: l1)) l2 = l2) as ->.
  { destruct l2; [done|]. simpl. rewrite (proj2 (Z.eqb_neq _ _)); [done|].
    rewrite zlen_cons. pose proof (zlen_nonneg l1). lia. }
  simpl. by destruct (_ && _).
Qed.

Lemma append_fits bs1 bs2 b :
  builder_ok b -> fits b (zlen (bs1 ++ bs2)) ->
  fits b (zlen bs1) /\ builder_ok (append_bytes bs1 b) /\ fits (append_bytes bs1 b) (zlen bs2) /\
  append_bytes bs2 (append_bytes bs1 b) = append_bytes (bs1 ++ bs2) b.
Proof.
  intros Hb Hf. pose proof Hb as (Ho & _). unfold fits in *. rewrite zlen_app in Hf.
  pose proof (zlen_nonneg bs1). pose proof (zlen_nonneg bs2).
  split_and!; [lia|by apply append_bytes_ok; [|unfold fits; lia]| |by apply append_bytes_app; [|unfold fits; lia]].
  rewrite append_bytes_size, append_bytes_offset by (unfold fits; lia). lia.
Qed.

Section Loops.
Context {CL : CLibrary} (m : mem) (type size : Z).
Notation cmp := (value_cmp type).
Notation ok := (proper type size).

(** [op] writes the values [l] and returns [a]. *)
Definition writes {A} (op : ST spa_pod_builder A) (l : list (list byte)) (a : A) : Prop :=
  forall b, builder_ok b -> fits b (zlen (concat l)) -> op b = (Ret a, append_bytes (concat l) b).

Lemma writes_ret {A} (a : A) : writes (st_ret a) [] a.
Proof. intros b Hb _. simpl. by rewrite append_bytes_nil. Qed.

Lemma writes_bind {A B} (op : ST spa_pod_builder A) (k : A -> ST spa_pod_builder B) l1 l2 a c :
  writes op l1 a -> writes (k a) l2 c -> writes (st_bind op k) (l1 ++ l2) c.
Proof.
  intros H1 H2 b Hb Hf. rewrite concat_app in Hf |- *.
  destruct (append_fits _ _ _ Hb Hf) as (F1 & B1 & F2 & <-).
  unfold st_bind. by rewrite (H1 b Hb F1), (H2 _ B1 F2).
Qed.

Lemma writes_lift {A B} (x : outcome A) a (k : A -> ST spa_pod_builder B) l c :
  x = Ret a -> writes (k a) l c -> writes (st_bind (st_lift x) k) l c.
Proof. intros -> H b Hb Hf. unfold st_bind, st_lift. by apply H. Qed.

Lemma writes_raw a v : holds m a v -> ok v -> writes (raw_at m a size) [v] 0.
Proof.
  intros H Hv b Hb. simpl. rewrite app_nil_r. intros Hf. pose proof (proper_zlen _ _ _ Hv) as L.
  apply raw_at_append; [done|done|done|]. by rewrite <- L.
Qed.

Lemma writes_copy f a v n :
  holds m a v -> ok v -> writes (copy_value m f size a n) (emit f n [v]) (n + 1).
Proof.
  intros H Hv. unfold copy_value, emit.
  assert (writes (raw_at m a size ;;; st_ret (n + 1)) [v] (n + 1)) as Hw.
  { apply (writes_bind _ _ [v] [] 0); [by apply writes_raw|apply writes_ret]. }
  destruct ((n =? 0) && negb f).
  - apply (writes_bind _ _ [v] [v] 0); [by apply writes_raw|done].
  - apply (writes_bind _ _ [] [v] 0); [apply writes_ret|done].
Qed.

(** The values of [l] that equal [v2]. *)
Definition equal_to (v2 : list byte) (l : list (list byte)) : list (list byte) :=
  List.filter (fun v => cmp v v2 =? 0) l.
(** All that equal some value of [l2], in the order of the loops. *)
Definition common (l1 l2 : list (list byte)) : list (list byte) :=
  concat (map (fun v2 => equal_to v2 l1) l2).

Lemma writes_equal_to a2 v2 vals a1 n :
  holds m a2 v2 -> ok v2 -> alts_at m type size a1 vals -> 0 <= n ->
  writes (copy_equal_to m type size a2 (length vals) a1 n)
    (emit false n (equal_to v2 vals)) (n + zlen (equal_to v2 vals)).
Proof.
  intros H2 O2. revert a1 n. induction vals as [|v vals IH]; intros a1 n Ha Hn.
  { simpl. rewrite Z.add_0_r. apply writes_ret. }
  unfold equal_to. cbn [copy_equal_to length List.filter]. fold (equal_to v2 vals).
  apply alts_cons in Ha as (Hv & Ov & Ha). destruct (compare_at m type size a1 v a2 v2) as (c & E & S); [done..|].
  eapply writes_lift; [exact E|]. clear E. by_sign S.
  case_if.
  - change (v :: equal_to v2 vals) with ([v] ++ equal_to v2 vals).
    rewrite emit_app, zlen_app, Z.add_assoc by done. change (zlen [v]) with 1.
    eapply writes_bind; [by apply writes_copy|]. apply IH; [done|lia].
  - apply (writes_bind _ _ [] _ n); [apply writes_ret|by apply IH].
Qed.

Lemma writes_equal alt1 vals1 vals2 a2 n :
  alts_at m type size alt1 vals1 -> alts_at m type size a2 vals2 -> 0 <= n ->
  writes (copy_equal m type size alt1 (length vals1) (length vals2) a2 n)
    (emit false n (common vals1 vals2)) (n + zlen (common vals1 vals2)).
Proof.
  intros H1. revert a2 n. induction vals2 as [|v2 vals2 IH]; intros a2 n H2 Hn.
  { simpl. rewrite Z.add_0_r. apply writes_ret. }
  apply alts_cons in H2 as (Hv & Ov & H2). unfold common. cbn [copy_equal length map concat].
  fold (common vals1 vals2).
  rewrite emit_app, zlen_app, Z.add_assoc by done.
  eapply writes_bind; [by apply writes_equal_to|]. apply IH; [done|].
  pose proof (zlen_nonneg (equal_to v2 vals1)). lia.
Qed.

(** The first value that equals [d]. *)
Definition default_of (d : list byte) (l : list (list byte)) : option (list byte) :=
  List.find (fun v => cmp v d =? 0) l.

Lemma writes_default def d vals a1 :
  holds m def d -> ok d -> alts_at m type size a1 vals ->
  writes (copy_default m type size def (length vals) a1)
    (match default_of d vals with Some v => [v] | None => [] end)
    (match default_of d vals with Some _ => true | None => false end).
Proof.
  intros Hd Od. revert a1. induction vals as [|v vals IH]; intros a1 Ha; simpl; [apply writes_ret|].
  apply alts_cons in Ha as (Hv & Ov & Ha). destruct (compare_at m type size a1 v def d) as (c & E & S); [done..|].
  eapply writes_lift; [exact E|]. clear E. by_sign S.
  case_if; [|by apply IH]. apply (writes_bind _ _ [v] [] 0); [by apply writes_raw|apply writes_ret].
Qed.

Lemma writes_in_range lo l hi h step s f vals a n :
  holds m lo l -> holds m hi h -> ok l -> ok h -> step_at m type size step s ->
  alts_at m type size a vals -> 0 <= n ->
  writes (copy_in_range m type size lo hi step f (length vals) a n)
    (emit f n (List.filter (in_range type l h s) vals)) (n + zlen (List.filter (in_range type l h s) vals)).
Proof.
  intros Hl Hh Ol Oh Hs. revert a n. induction vals as [|v vals IH]; intros a n Ha Hn.
  { simpl. rewrite Z.add_0_r. apply writes_ret. }
  apply alts_cons in Ha as (Hv & Ov & Ha). cbn [copy_in_range length List.filter].
  eapply writes_lift; [by apply (in_range_at m type size a v lo l hi h step s)|].
  set (kept := List.filter _ vals) in *. destruct (in_range type l h s v); cbn [Z.ltb Z.compare Z.eqb].
  - change (v :: kept) with ([v] ++ kept). rewrite emit_app, zlen_app, Z.add_assoc by done.
    change (zlen [v]) with 1. eapply writes_bind; [by apply writes_copy|]. apply IH; [done|lia].
  - apply (writes_bind _ _ [] _ n); [apply writes_ret|by apply IH].
Qed.
End Loops.

(** ** The choice under construction in the buffer *)

Definition choice_pod : spa_pod := mk_pod 8 SPA_TYPE_Choice.
Definition in_choice (ct : Z) (body : list byte) (b : spa_pod_builder) : spa_pod_builder :=
  in_frame choice_pod (enc_pod choice_pod ++ le32 ct ++ le32 0) body SPA_POD_BUILDER_FLAG_BODY b.

(** The builder with other bytes behind its offset. *)
Definition set_data (d : mem) (b : spa_pod_builder) : spa_pod_builder :=
  mk_builder d (b_offset b) (b_flags b) (b_frames b) (b_overflow b).

Lemma overwrite_middle m off a x x' r :
  0 <= off -> off + zlen (a ++ x ++ r) <= zlen m -> length x' = length x ->
  overwrite (overwrite m off (a ++ x ++ r)) (off + zlen a) x' = overwrite m off (a ++ x' ++ r).
Proof.
  intros Ho Hl Hx. assert (zlen x' = zlen x) by (unfold zlen; lia). rewrite !zlen_app in Hl.
  pose proof (zlen_nonneg a). pose proof (zlen_nonneg r). pose proof (zlen_nonneg x).
  rewrite <- (overwrite_app m off a (x ++ r)) by (rewrite ?zlen_app; lia).
  rewrite overwrite_prefix, overwrite_app; [done|..]; rewrite ?zlen_app, ?zlen_overwrite; lia.
Qed.

Lemma overwrite_swap m off a v :
  0 <= off -> off + zlen a + zlen v <= zlen m ->
  overwrite m off (a ++ v) = overwrite (overwrite m (off + zlen a) v) off a.
Proof.
  intros Ho Hl. pose proof (zlen_nonneg a). pose proof (zlen_nonneg v).
  apply list_eq. intros i. rewrite !lookup_overwrite.
  all: rewrite ?zlen_app, ?zlen_overwrite by lia; try lia.
  assert (Z.of_nat (length a) = zlen a) by done.
  repeat case_decide; try lia; try done.
  - rewrite lookup_app_l by lia. done.
  - rewrite lookup_app_r by lia. f_equal. lia.
Qed.

Lemma frame_sub_add k n f :
  0 <= k -> 0 <= n -> frame_ok f -> pod_size (frame_pod f) + k + n <= UINT32_MAX ->
  frame_sub_size n (frame_add_size (k + n) f) = frame_add_size k f.
Proof.
  intros Hk Hn Hf Hm. unfold frame_ok, is_u32 in Hf. unfold frame_sub_size, frame_add_size. simpl.
  rewrite !wrap_small by lia. f_equal. f_equal. lia.
Qed.

Section Choice.
Context (b : spa_pod_builder) (Hb : builder_ok b).

Lemma in_choice_size ct body : fits b (16 + zlen body) -> b_size (in_choice ct body b) = b_size b.
Proof.
  intros Hf. destruct Hb as (Ho & _). unfold fits in Hf. unfold b_size, in_choice, in_frame. simpl.
  apply zlen_overwrite; [done|]. unfold b_size in Hf. zlia.
Qed.

Lemma in_choice_fits ct body n : fits b (16 + zlen body + n) -> 0 <= n -> fits (in_choice ct body b) n.
Proof.
  intros Hf Hn. unfold fits in *. rewrite in_choice_size by (unfold fits; lia).
  unfold in_choice, in_frame. cbn [b_offset]. autorewrite with zlen. lia.
Qed.

Lemma in_choice_ok ct body : fits b (16 + zlen body) -> builder_ok (in_choice ct body b).
Proof.
  intros Hf. pose proof Hb as (Ho & Hs & Hfr). pose proof (zlen_nonneg body). unfold fits in Hf. split_and!.
  - unfold in_choice, in_frame. cbn [b_offset]. autorewrite with zlen. lia.
  - by rewrite in_choice_size.
  - unfold in_choice, in_frame. cbn [b_frames]. constructor.
    + unfold frame_ok, is_u32. simpl. lia.
    + apply Forall_fmap, Forall_true. intros f. apply frame_add_size_ok.
Qed.

Lemma in_choice_append ct body bs :
  fits b (16 + zlen body + zlen bs) -> append_bytes bs (in_choice ct body b) = in_choice ct (body ++ bs) b.
Proof.
  intros Hf. pose proof Hb as (Ho & Hs & _). unfold fits, b_size in *.
  pose proof (zlen_nonneg body). pose proof (zlen_nonneg bs).
  unfold append_bytes, in_choice, in_frame. cbn [b_data b_offset b_flags b_frames b_overflow].
  set (hdr := enc_pod choice_pod ++ le32 ct ++ le32 0).
  assert (zlen hdr = 16) as Lh by (unfold hdr; by autorewrite with zlen).
  rewrite <- Z.add_assoc, <- zlen_app, overwrite_app by (rewrite ?zlen_app; lia).
  rewrite <- app_assoc, !zlen_app. f_equal; [lia|]. rewrite fmap_cons. f_equal.
  - unfold frame_add_size. simpl. rewrite wrap_small by lia. f_equal. f_equal. lia.
  - rewrite <- list_fmap_compose. apply list_fmap_ext. intros ? f _. simpl.
    rewrite frame_add_size_add. f_equal. lia.
Qed.

(** What the operations do that write values. *)
Lemma in_choice_writes {A} ct body (op : ST spa_pod_builder A) l (a : A) :
  writes op l a -> fits b (16 + zlen body + zlen (concat l)) ->
  op (in_choice ct body b) = (Ret a, in_choice ct (body ++ concat l) b).
Proof.
  intros Hw Hf. pose proof (zlen_nonneg (concat l)). pose proof (zlen_nonneg body).
  rewrite Hw; [by rewrite in_choice_append| |by apply in_choice_fits].
  apply in_choice_ok. unfold fits in *. lia.
Qed.

Lemma deref_in_choice ct body :
  fits b (16 + zlen body) ->
  spa_pod_builder_deref (in_choice ct body b) (b_offset b) = Ret (Some (b_offset b)) /\
  holds (b_data (in_choice ct body b)) (b_offset b) ((enc_pod choice_pod ++ le32 ct ++ le32 0) ++ body).
Proof.
  intros Hf. pose proof Hb as (Ho & Hs & _). pose proof (zlen_nonneg body).
  assert (holds (b_data (in_choice ct body b)) (b_offset b) ((enc_pod choice_pod ++ le32 ct ++ le32 0) ++ body)) as H0.
  { unfold in_choice, in_frame. cbn [b_data]. apply holds_overwrite; [done|]. unfold fits, b_size in Hf. zlia. }
  split; [|done]. unfold spa_pod_builder_deref. rewrite in_choice_size by done. unfold fits in Hf.
  rewrite (proj2 (Z.leb_le _ _)) by lia. rewrite <- app_assoc in H0. apply holds_app_l in H0.
  unfold load_pod. rewrite enc_pod_eq in H0. rewrite (holds_u32 _ _ (pod_size choice_pod)).
  2: { by eapply holds_app_l. }
  rewrite (holds_u32 _ _ (pod_type choice_pod)).
  2: { apply holds_app_r in H0. by rewrite zlen_le32 in H0. }
  change (u32 (pod_size choice_pod)) with 8. cbn [obind]. unfold SPA_POD_SIZE, SPA_POD_IS_VALID.
  cbn [pod_size]. by rewrite (proj2 (Z.leb_le _ _)) by lia.
Qed.

Lemma nc_type_in_choice ct body d :
  is_u32 ct -> fits b (16 + zlen body) ->
  nc_type (b_offset b) d (in_choice ct body b) = (Ret ct, in_choice ct body b).
Proof.
  intros Hct Hf. destruct (deref_in_choice ct body Hf) as [E H].
  unfold nc_type, st_bind, st_get, st_lift. rewrite E.
  rewrite <- !app_assoc in H. apply holds_app_r in H. rewrite zlen_enc_pod in H. apply holds_app_l in H.
  rewrite (holds_u32 _ _ _ H), wrap_small; [done|]. unfold is_u32 in Hct. lia.
Qed.

Lemma set_nc_type_in_choice ct body d ct' :
  fits b (16 + zlen body) ->
  set_nc_type (b_offset b) d ct' (in_choice ct body b) = (Ret d, in_choice ct' body b).
Proof.
  intros Hf. destruct (deref_in_choice ct body Hf) as [E H]. pose proof Hb as (Ho & _).
  pose proof (zlen_nonneg body). unfold set_nc_type, st_bind, st_get, st_lift. rewrite E.
  unfold fits in Hf. rewrite store_ok; [|lia|].
  2: { rewrite zlen_le32. fold (b_size (in_choice ct body b)). rewrite in_choice_size by done. lia. }
  unfold st_put, st_ret, in_choice, in_frame.
  cbn [b_data b_offset b_flags b_frames b_overflow]. rewrite <- !app_assoc.
  pose proof (overwrite_middle (b_data b) (b_offset b) (enc_pod choice_pod) (le32 ct) (le32 ct') (le32 0 ++ body)) as M.
  rewrite zlen_enc_pod in M. rewrite M; [by autorewrite with zlen|done|unfold b_size in Hf; zlia|].
  pose proof (zlen_le32 ct). pose proof (zlen_le32 ct'). unfold zlen in *. lia.
Qed.

(** Removing the last value leaves its bytes behind. *)
Lemma remove_in_choice ct body v :
  fits b (16 + zlen body + zlen v) ->
  Forall (fun f => pod_size (frame_pod f) <= b_offset b) (b_frames b) ->
  spa_pod_builder_remove (zlen v) (in_choice ct (body ++ v) b) =
  in_choice ct body (set_data (overwrite (b_data b) (b_offset b + (16 + zlen body)) v) b).
Proof.
  intros Hf Hfr. pose proof Hb as (Ho & Hs & Hok). pose proof (zlen_nonneg body). pose proof (zlen_nonneg v).
  unfold spa_pod_builder_remove, in_choice, in_frame, set_data, fits, b_size in *.
  cbn [b_data b_offset b_flags b_frames b_overflow].
  set (hdr := enc_pod choice_pod ++ le32 ct ++ le32 0).
  assert (zlen hdr = 16) as Lh by (unfold hdr; by autorewrite with zlen).
  rewrite !zlen_app, Lh. f_equal.
  - rewrite app_assoc, overwrite_swap by (rewrite ?zlen_app; lia). by rewrite zlen_app, Lh.
  - lia.
  - rewrite fmap_cons. f_equal.
    + unfold frame_sub_size. simpl. f_equal. f_equal. lia.
    + rewrite <- list_fmap_compose. apply list_fmap_ext. intros i f Hi. simpl.
      rewrite list.Forall_forall in Hfr, Hok. apply list_elem_of_lookup_2 in Hi.
      replace (16 + (zlen body + zlen v)) with (16 + zlen body + zlen v) by lia.
      apply frame_sub_add; [lia|lia| |]; [by apply Hok|]. specialize (Hfr f Hi). lia.
Qed.
End Choice.

(** ** One side of the filter *)

(** The values of a choice of each kind. *)
Inductive shape (type : Z) : Z -> list (list byte) -> Prop :=
| shape_list c vals :
    is_list c = true -> vals <> [] -> (c = SPA_CHOICE_None -> exists x, vals = [x]) -> shape type c vals
| shape_flags x : shape type SPA_CHOICE_Flags [x]
| shape_range d lo hi : shape type SPA_CHOICE_Range [d; lo; hi]
| shape_step d lo hi s :
    (type = SPA_TYPE_Int \/ type = SPA_TYPE_Long) -> step_ok type s -> within type lo hi d -> steps type s d ->
    shape type SPA_CHOICE_Step [d; lo; hi; s].

Lemma get_values_count m p v n c :
  spa_pod_get_values m p = Ret (v, n, c) -> 1 <= n ->
  (c = SPA_CHOICE_None \/ c = SPA_CHOICE_Flags -> n = 1) /\
  (c = SPA_CHOICE_Range -> n = 3) /\ (c = SPA_CHOICE_Step -> n = 4).
Proof.
  unfold spa_pod_get_values. destruct (load_pod m p) as [h| |]; [|done..]. cbn [obind].
  destruct (spa_pod_is_choice h).
  - destruct (load_choice m p) as [x| |]; [|done..]. cbn [obind]. unfold spa_pod_choice_body_get_values.
    set (k := if _ =? 0 then 0 else _). clearbody k.
    destruct (spa_pod_choice_n_values (choice_type x)) as [[r mn] mx] eqn:E.
    intros [= _ <- <-] Hn. unfold spa_pod_choice_n_values in E.
    split_and!; [intros [Hc|Hc]|intros Hc|intros Hc]; rewrite Hc in E; vm_compute in E; injection E as <- <- <-;
      revert Hn; repeat case_if; bool_to_prop; try lia.
    all: match goal with H : (_ || _) = false |- _ => apply orb_false_elim in H as [? ?] end; bool_to_prop; lia.
  - intros [= _ <- <-] Hn. split_and!; [|done|done]. intros _. case_if; lia.
Qed.

Lemma step_positive type s d size :
  (type = SPA_TYPE_Int \/ type = SPA_TYPE_Long) -> value_ok type size s -> steps type s d -> step_ok type s.
Proof.
  intros Ht [L Hs] H. unfold steps, spa_pod_compare_is_step_of in H. unfold step_ok.
  destruct Ht as [-> | ->]; simpl in H; [left|right]; (split; [done|]).
  - change (4 <= size) in Hs. destruct (load_i32_ok s 0) as (x & E & _); [lia|lia|]. rewrite E in *.
    destruct (load_i32 d 0) as [y| |]; simpl in H; try done. exists x. split; [done|].
    destruct (x <? 1) eqn:Ex; [done|]. bool_to_prop. lia.
  - change (8 <= size) in Hs. destruct (load_i64_ok s 0) as (x & E & _); [lia|lia|]. rewrite E in *.
    destruct (load_i64 d 0) as [y| |]; simpl in H; try done. exists x. split; [done|].
    destruct (x <? 1) eqn:Ex; [done|]. bool_to_prop. lia.
Qed.

Lemma alternatives_shape m p key flags type size c vals :
  alternatives m p key flags type size c vals -> shape type c vals.
Proof.
  intros [_ _ (v & Hv & _ & _) Hne Hp Hk Hst].
  assert (1 <= zlen vals) as Hn by (destruct vals; [done|]; rewrite zlen_cons; pose proof (zlen_nonneg vals); lia).
  destruct (get_values_count _ _ _ _ _ Hv Hn) as (H1 & H3 & H4). unfold zlen in *.
  destruct (is_list c) eqn:El.
  { apply shape_list; [done|done|]. intros Hc. specialize (H1 (or_introl Hc)).
    destruct vals as [|x [|? ?]]; cbn [length] in H1; try lia. by exists x. } cbn [orb] in Hk. apply orb_prop in Hk as [Hk|Hk].
  - unfold is_range in Hk. apply orb_prop in Hk as [Hk|Hk]; apply Z.eqb_eq in Hk; subst c.
    + specialize (H3 eq_refl). destruct vals as [|d [|lo [|hi [|? ?]]]]; cbn [length] in H3; try lia. apply shape_range.
    + specialize (H4 eq_refl). destruct vals as [|d [|lo [|hi [|s [|? ?]]]]]; cbn [length] in H4; try lia.
      destruct (Hst eq_refl) as (Ht & d' & [= <-] & _ & Hw & Hs). destruct (Hs eq_refl) as (s' & [= <-] & Hs').
      apply shape_step; [done| |done|done]. rewrite !list.Forall_cons in Hp. destruct Hp as (_ & _ & _ & [[Hp _] _] & _).
      by eapply step_positive.
  - unfold is_flags in Hk. apply Z.eqb_eq in Hk. subst c. specialize (H1 (or_intror eq_refl)).
    destruct vals as [|x [|? ?]]; cbn [length] in H1; try lia. apply shape_flags.
Qed.

(** ** Intersections of values *)
Section Intersections.
Context (type size : Z).
Notation cmp := (value_cmp type).
Notation ok := (proper type size).
Notation cmpb := (comparable type size).

Lemma eq_sym_ok v a : cmpb v -> ok a -> cmp v a = 0 -> cmp a v = 0.
Proof. intros Hv [Ha Haa] E. rewrite (order_flip v a Hv Ha) by auto. lia. Qed.

Lemma eq_join v a b : cmpb v -> ok a -> ok b -> cmp v a = 0 -> cmp v b = 0 -> cmp a b = 0.
Proof.
  intros Hv Ha [Hb _] Ea Eb. pose proof (eq_sym_ok v a Hv Ha Ea). destruct Ha as [Ha _].
  pose proof (order_le_trans a v b Ha Hv Hb). pose proof (order_ge_trans a v b Ha Hv Hb). lia.
Qed.

Lemma eq_within v a lo hi :
  cmpb v -> ok a -> ok lo -> ok hi -> cmp v a = 0 -> within type lo hi v -> within type lo hi a.
Proof.
  intros Hv Ha [Hl _] [Hh _] Ea [W1 W2]. pose proof (eq_sym_ok v a Hv Ha Ea). destruct Ha as [Ha _].
  pose proof (order_ge_trans a v lo Ha Hv Hl). pose proof (order_le_trans a v hi Ha Hv Hh). split; lia.
Qed.

(** Equal numbers have the same multiples. *)
Lemma eq_steps v a s :
  (type = SPA_TYPE_Int \/ type = SPA_TYPE_Long) -> cmpb v -> ok a -> cmp v a = 0 ->
  steps type s v -> steps type s a.
Proof.
  intros Ht [[Lv Hs] _] [[[La _] _] _] E H.
  rewrite (value_cmp_key type) in E by (by destruct Ht as [-> | ->]).
  unfold steps, spa_pod_compare_is_step_of in *. destruct Ht as [-> | ->]; simpl in *.
  - change (4 <= size) in Hs. destruct (load_i32_ok v 0) as (x & Ex & _); [lia|lia|].
    destruct (load_i32_ok a 0) as (y & Ey & _); [lia|lia|]. rewrite Ex, Ey in *. simpl in *.
    destruct (Z.eqb_spec x y) as [->|]; [done|]. destruct (SPA_CMP_spec x y); lia.
  - change (8 <= size) in Hs. destruct (load_i64_ok v 0) as (x & Ex & _); [lia|lia|].
    destruct (load_i64_ok a 0) as (y & Ey & _); [lia|lia|]. rewrite Ex, Ey in *. simpl in *.
    destruct (Z.eqb_spec x y) as [->|]; [done|]. destruct (SPA_CMP_spec x y); lia.
Qed.

Lemma in_range_spec lo hi s v :
  in_range type lo hi s v = true <->
  within type lo hi v /\ match s with None => True | Some s => steps type s v end.
Proof.
  unfold in_range, within, steps. rewrite !andb_true_iff, !Z.leb_le.
  destruct s as [s|]; [|tauto]. rewrite Z.eqb_eq.
  destruct (spa_pod_compare_is_step_of type v 0 s 0) as [x| |]; simpl; [|split; intros [_ ?]; done..].
  split; intros [? E]; (split; [done|]); [by subst|by injection E].
Qed.

(** The values of [K] are accepted on both sides, and are all that are. *)
Definition intersects (A1 A2 : list byte -> Prop) (K : list (list byte)) : Prop :=
  (forall k, In k K -> A1 k /\ A2 k) /\
  (forall v, cmpb v -> A1 v -> A2 v -> exists k, In k K /\ cmp v k = 0).

Lemma in_common k l1 l2 : In k (common type l1 l2) <-> In k l1 /\ exists a, In a l2 /\ cmp k a = 0.
Proof.
  unfold common, equal_to. rewrite in_concat. setoid_rewrite in_map_iff. split.
  - intros (x & (a & <- & Ha) & Hk). apply filter_In in Hk as [Hk E]. apply Z.eqb_eq in E. eauto.
  - intros [Hk (a & Ha & E)]. eexists. split; [by exists a|]. apply filter_In. by rewrite E.
Qed.

Lemma In_ok a l : Forall ok l -> In a l -> ok a.
Proof. intros H. rewrite List.Forall_forall in H. auto. Qed.

Lemma common_intersects c1 vs1 c2 vs2 :
  is_list c1 = true -> is_list c2 = true -> Forall ok vs1 -> Forall ok vs2 ->
  intersects (accepts type c1 vs1) (accepts type c2 vs2) (common type vs1 vs2).
Proof.
  intros L1 L2 O1 O2. unfold accepts. rewrite L1, L2. split.
  - intros k Hk. apply in_common in Hk as [Hk (a & Ha & E)]. split; [|by exists a]. exists k. split; [done|].
    by destruct (In_ok _ _ O1 Hk).
  - intros v Hv (a1 & H1 & E1) (a2 & H2 & E2). exists a1. split; [|done]. apply in_common. split; [done|].
    exists a2. split; [done|]. by apply (eq_join v); eauto using In_ok.
Qed.

(** A range with its bounds and its step. *)
Lemma shape_bounds c vals :
  is_range c = true -> shape type c vals -> exists d lo hi rest s,
    vals = d :: lo :: hi :: rest /\ (forall v, accepts type c vals v <-> in_range type lo hi s v = true) /\
    (c =? SPA_CHOICE_Step = false /\ s = None \/
     exists x, c = SPA_CHOICE_Step /\ rest = [x] /\ s = Some x /\ step_ok type x /\
       (type = SPA_TYPE_Int \/ type = SPA_TYPE_Long) /\ in_range type lo hi s d = true).
Proof.
  intros Hr Hs. destruct Hs as [c vals Hl _ _|x|d lo hi|d lo hi s Ht Hs Hw Hst].
  - unfold is_list, is_range in *. apply orb_prop in Hl as [Hl|Hl]; apply Z.eqb_eq in Hl; by subst.
  - done.
  - exists d, lo, hi, [], None. split_and!; [done| |by left]. intros v. rewrite in_range_spec. unfold accepts. simpl.
    split; [by intros (_ & ? & _)|]. intros [? _]. split_and!; done.
  - exists d, lo, hi, [s], (Some s). split_and!; [done| |].
    + intros v. rewrite in_range_spec. unfold accepts. simpl. split.
      * intros (_ & ? & H). split; [done|]. by destruct (H eq_refl) as (? & [= <-] & ?).
      * intros [? ?]. split_and!; [done|done|]. intros _. by exists s.
    + right. exists s. split_and!; try done. by apply in_range_spec.
Qed.

Lemma range_intersects c1 vs1 c2 vs2 lo hi s :
  is_list c1 = true -> Forall ok vs1 -> ok lo -> ok hi ->
  (forall v, accepts type c2 vs2 v <-> in_range type lo hi s v = true) ->
  (s <> None -> type = SPA_TYPE_Int \/ type = SPA_TYPE_Long) ->
  intersects (accepts type c1 vs1) (accepts type c2 vs2) (List.filter (in_range type lo hi s) vs1).
Proof.
  intros L1 O1 Ol Oh A2 Hs. unfold accepts at 1 2. rewrite L1. split.
  - intros k Hk. apply filter_In in Hk as [Hk E]. split; [|by apply A2].
    exists k. split; [done|]. by destruct (In_ok _ _ O1 Hk).
  - intros v Hv (a & Ha & E) H2. exists a. split; [|done]. apply filter_In. split; [done|].
    apply A2 in H2. rewrite in_range_spec in *. destruct H2 as [W S]. pose proof (In_ok _ _ O1 Ha).
    split; [by apply (eq_within v)|]. destruct s as [s|]; [|done]. apply (eq_steps v); [by apply Hs|done..].
Qed.

Lemma intersects_sym A1 A2 K : intersects A1 A2 K -> intersects A2 A1 K.
Proof. intros [H1 H2]. split; [intros k Hk; destruct (H1 k Hk); auto|eauto]. Qed.
End Intersections.

(** ** Two ranges *)
Section Ranges.
Context (type size : Z).
Notation cmp := (value_cmp type).
Notation ok := (proper type size).
Notation cmpb := (comparable type size).

Lemma flip_ok a v : ok a -> cmpb v -> cmp v a = - cmp a v.
Proof. intros [Ha Haa] Hv. apply (order_flip a v Ha Hv). by left. Qed.

Lemma max_lower lo1 lo2 v :
  ok lo1 -> ok lo2 -> cmpb v ->
  0 <= cmp v (if cmp lo1 lo2 <? 0 then lo2 else lo1) <-> 0 <= cmp v lo1 /\ 0 <= cmp v lo2.
Proof.
  intros O1 O2 Hv. pose proof (proj1 O1) as C1. pose proof (proj1 O2) as C2.
  pose proof (flip_ok lo1 lo2 O1 C2). case_if; bool_to_prop.
  - pose proof (order_ge_trans v lo2 lo1 Hv C2 C1). lia.
  - pose proof (order_ge_trans v lo1 lo2 Hv C1 C2). lia.
Qed.

Lemma min_upper hi1 hi2 v :
  ok hi1 -> ok hi2 -> cmpb v ->
  cmp v (if cmp hi2 hi1 <? 0 then hi2 else hi1) <= 0 <-> cmp v hi1 <= 0 /\ cmp v hi2 <= 0.
Proof.
  intros O1 O2 Hv. pose proof (proj1 O1) as C1. pose proof (proj1 O2) as C2.
  pose proof (flip_ok hi1 hi2 O1 C2). case_if; bool_to_prop.
  - pose proof (order_le_trans v hi2 hi1 Hv C2 C1). lia.
  - pose proof (order_le_trans v hi1 hi2 Hv C1 C2). lia.
Qed.

Lemma within_ordered lo hi v : ok lo -> ok hi -> cmpb v -> within type lo hi v -> 0 <= cmp hi lo.
Proof.
  intros Ol Oh Hv [W1 W2]. pose proof (proj1 Ol) as Cl. pose proof (proj1 Oh) as Ch.
  pose proof (flip_ok lo v Ol Hv). pose proof (flip_ok hi v Oh Hv).
  apply (order_ge_trans hi v lo Ch Hv Cl); lia.
Qed.

(** The values between the bounds of a choice. *)
Definition bounded (vals : list (list byte)) (v : list byte) : Prop :=
  match vals with _ :: lo :: hi :: _ => within type lo hi v | _ => False end.
End Ranges.

(** ** Flags *)

Lemma signed_shift w z : 0 < w -> - 2 ^ (w - 1) <= z < 2 ^ (w - 1) <-> Z.shiftr z (w - 1) = 0 \/ Z.shiftr z (w - 1) = -1.
Proof.
  intros Hw. rewrite Z.shiftr_div_pow2 by lia. assert (0 < 2 ^ (w - 1)) as Hp by (apply Z.pow_pos_nonneg; lia).
  pose proof (Z.div_mod z (2 ^ (w - 1)) ltac:(lia)). pose proof (Z.mod_pos_bound z (2 ^ (w - 1)) Hp).
  split; intros; [|nia].
  assert (-1 <= z / 2 ^ (w - 1) <= 0); [|lia]. split; nia.
Qed.

Lemma land_signed w a c :
  0 < w -> - 2 ^ (w - 1) <= a < 2 ^ (w - 1) -> - 2 ^ (w - 1) <= c < 2 ^ (w - 1) ->
  - 2 ^ (w - 1) <= Z.land a c < 2 ^ (w - 1).
Proof.
  intros Hw. rewrite !signed_shift, Z.shiftr_land by done. intros [-> | ->] [-> | ->]; auto.
Qed.

Lemma eq_bits type size v x :
  comparable type size v -> proper type size x -> value_cmp type v x = 0 -> bits type v = bits type x.
Proof.
  intros [[Lv Hs] _] [[[Lx _] _] _] E. unfold bits.
  destruct (Z.eqb_spec type SPA_TYPE_Int) as [->|]; [|destruct (Z.eqb_spec type SPA_TYPE_Long) as [->|]; [|done]].
  all: rewrite value_cmp_key in E by done; f_equal; simpl in E.
  all: destruct (Z.eqb_spec (got (load_i32 v 0)) (got (load_i32 x 0))), (Z.eqb_spec (got (load_i64 v 0)) (got (load_i64 x 0))); try done.
  all: pose proof (SPA_CMP_spec (got (load_i32 v 0)) (got (load_i32 x 0))).
  all: pose proof (SPA_CMP_spec (got (load_i64 v 0)) (got (load_i64 x 0))); lia.
Qed.

(** What two sides that are intersected as flags both accept. *)
Lemma flags_common type size c1 x c2 y v :
  flags_pair c1 c2 = true -> proper type size x -> proper type size y -> comparable type size v ->
  accepts type c1 [x] v -> accepts type c2 [y] v ->
  exists a c q, bits type x = Some a /\ bits type y = Some c /\ bits type v = Some q /\
    q <> 0 /\ Z.land q (Z.land a c) = q.
Proof.
  intros Hp Ox Oy Hv A1 A2. unfold flags_pair, is_flags in Hp.
  assert (forall c z, c = SPA_CHOICE_None -> accepts type c [z] v -> value_cmp type v z = 0) as AN.
  { intros c z -> (a & [->|[]] & E). done. }
  assert (forall c z, c = SPA_CHOICE_Flags -> accepts type c [z] v -> some_of type z v) as AF.
  { by intros c z -> [_ ?]. }
  apply orb_prop in Hp as [Hp|Hp]; [apply orb_prop in Hp as [Hp|Hp]|];
    apply andb_prop in Hp as [E1 E2]; apply Z.eqb_eq in E1, E2.
  - apply AN in A1; [|done]. apply AF in A2 as (c & q & Ec & Eq & Hq & Hl); [|done].
    pose proof (eq_bits type size v x Hv Ox A1) as Ex. exists q, c, q. rewrite <- Ex.
    split_and!; try done. by rewrite Z.land_assoc, Z.land_diag.
  - apply AN in A2; [|done]. apply AF in A1 as (a & q & Ea & Eq & Hq & Hl); [|done].
    pose proof (eq_bits type size v y Hv Oy A2) as Ey. exists a, q, q. rewrite <- Ey.
    split_and!; try done. by rewrite (Z.land_comm a), Z.land_assoc, Z.land_diag.
  - apply AF in A1 as (a & q & Ea & Eq & Hq & Hl); [|done]. apply AF in A2 as (c & q' & Ec & Eq' & _ & Hl'); [|done].
    rewrite Eq in Eq'. injection Eq' as <-. exists a, c, q. split_and!; try done. by rewrite Z.land_assoc, Hl.
Qed.

Lemma flags_pair_shape type c1 vs1 c2 vs2 :
  flags_pair c1 c2 = true -> shape type c1 vs1 -> shape type c2 vs2 ->
  exists x y, vs1 = [x] /\ vs2 = [y].
Proof.
  intros Hp S1 S2. unfold flags_pair, is_flags in Hp.
  assert (forall c vs, c = SPA_CHOICE_None \/ c = SPA_CHOICE_Flags -> shape type c vs -> exists x, vs = [x]) as A.
  { intros c vs Hc Hs. revert Hc. destruct Hs as [c vs Hl _ Hn|x|d lo hi|d lo hi st _ _ _ _].
    - intros [Hc|Hc]; [auto|]. by rewrite Hc in Hl.
    - intros _. by exists x.
    - by intros [|].
    - by intros [|]. }
  rewrite !orb_true_iff, !andb_true_iff, !Z.eqb_eq in Hp.
  destruct (A c1 vs1) as [x ->]; [tauto|done|]. destruct (A c2 vs2) as [y ->]; [tauto|done|]. eauto.
Qed.

(** ** The specification *)

(** The kind and the values of the choice that is the intersection of two.  The
    bits that are common to a single value and flags are what the two can agree
    on; the overlap of two ranges accepts the values that both accept. *)
Inductive intersection (type size c1 : Z) (vs1 : list (list byte)) (c2 : Z) (vs2 : list (list byte))
  : Z -> list (list byte) -> Prop :=
| one_value v :
    intersects type size (accepts type c1 vs1) (accepts type c2 vs2) [v] ->
    intersection type size c1 vs1 c2 vs2 SPA_CHOICE_None [v]
| several_values d K :
    In d K -> intersects type size (accepts type c1 vs1) (accepts type c2 vs2) K ->
    intersection type size c1 vs1 c2 vs2 SPA_CHOICE_Enum (d :: K)
| overlap d lo hi :
    c1 = SPA_CHOICE_Range -> c2 = SPA_CHOICE_Range -> within type lo hi d ->
    (forall v, comparable type size v ->
       accepts type SPA_CHOICE_Range [d; lo; hi] v <-> accepts type c1 vs1 v /\ accepts type c2 vs2 v) ->
    intersection type size c1 vs1 c2 vs2 SPA_CHOICE_Range [d; lo; hi]
| common_flags x y w a c :
    flags_pair c1 c2 = true -> head vs1 = Some x -> head vs2 = Some y ->
    bits type x = Some a -> bits type y = Some c -> bits type w = Some (Z.land a c) -> Z.land a c <> 0 ->
    intersection type size c1 vs1 c2 vs2 SPA_CHOICE_Flags [w].

(** Two ranges of which one has steps. *)
Definition stepped_ranges (c1 c2 : Z) : bool :=
  is_range c1 && is_range c2 && ((c1 =? SPA_CHOICE_Step) || (c2 =? SPA_CHOICE_Step)).

(** Their bounds are intersected and the steps are dropped: the result accepts
    what both accept, and values that miss the steps. *)
Definition steps_dropped (type size c1 : Z) (vs1 : list (list byte)) (c2 : Z) (vs2 : list (list byte))
    (ct : Z) (vals : list (list byte)) : Prop :=
  stepped_ranges c1 c2 = true /\
  exists d lo hi, ct = SPA_CHOICE_Range /\ vals = [d; lo; hi] /\ within type lo hi d /\
    (forall v, comparable type size v -> within type lo hi v <-> bounded type vs1 v /\ bounded type vs2 v).

(** What is written for two choices. *)
Definition filtered (type size c1 : Z) (vs1 : list (list byte)) (c2 : Z) (vs2 : list (list byte))
    (ct : Z) (vals : list (list byte)) : Prop :=
  if stepped_ranges c1 c2 then steps_dropped type size c1 vs1 c2 vs2 ct vals
  else intersection type size c1 vs1 c2 vs2 ct vals.

(** There is no value for both sides, or the code does not intersect such choices. *)
Definition no_intersection (type size c1 : Z) (vs1 : list (list byte)) (c2 : Z) (vs2 : list (list byte)) : Prop :=
  rejected_pair c1 c2 = true \/
  forall v, comparable type size v -> ~ (accepts type c1 vs1 v /\ accepts type c2 vs2 v).

Lemma intersection_filtered type size c1 vs1 c2 vs2 ct vals :
  stepped_ranges c1 c2 = false -> intersection type size c1 vs1 c2 vs2 ct vals ->
  filtered type size c1 vs1 c2 vs2 ct vals.
Proof. intros H HI. unfold filtered. by rewrite H. Qed.

Lemma range_not_list c : is_range c = true -> is_list c = false.
Proof. unfold is_range, is_list. intros H. apply orb_prop in H as [H|H]; apply Z.eqb_eq in H; by subst. Qed.

Lemma list_not_stepped c1 c2 : is_list c1 || is_list c2 = true -> stepped_ranges c1 c2 = false.
Proof.
  intros H. unfold stepped_ranges. destruct (is_range c1) eqn:R1; [|done]. destruct (is_range c2) eqn:R2; [|done].
  by rewrite (range_not_list _ R1), (range_not_list _ R2) in H.
Qed.

Lemma flags_not_stepped c1 c2 : flags_pair c1 c2 = true -> stepped_ranges c1 c2 = false.
Proof.
  unfold flags_pair, stepped_ranges, is_flags, is_range. intros H.
  destruct (Z.eqb_spec c1 SPA_CHOICE_Range) as [->|]; [|destruct (Z.eqb_spec c1 SPA_CHOICE_Step) as [->|]; [|done]].
  all: done.
Qed.

(** ** Writing the intersection *)

Lemma zlen_concat type size l : Forall (proper type size) l -> zlen (concat l) = size * zlen l.
Proof.
  induction 1 as [|v l Hv _ IH]; simpl; [by rewrite Z.mul_0_r|].
  rewrite zlen_app, zlen_cons, IH, (proper_zlen _ _ _ Hv). lia.
Qed.

(** The values that are kept, and what is written for them. *)
Definition kept (K W : list (list byte)) : Prop := K = [] /\ W = [] \/ exists d, In d K /\ W = d :: K.

Lemma kept_emit K : kept K (emit false 0 K).
Proof. destruct K as [|k K]; [by left|]. right. exists k. split; [by left|done]. Qed.

Lemma common_length type vs1 vs2 : zlen (common type vs1 vs2) <= zlen vs1 * zlen vs2.
Proof.
  unfold common. induction vs2 as [|v vs2 IH]; simpl; [by rewrite Z.mul_0_r|].
  rewrite zlen_app, zlen_cons. pose proof (filter_length_le (fun x => value_cmp type x v =? 0) vs1).
  unfold equal_to, zlen in *. lia.
Qed.

(** A list of values against a range: the default, then the values in the range. *)
Lemma writes_enum_range {CL : CLibrary} m type size alt1 vs1 alt2 d lo hi s c2 n :
  n = zlen vs1 -> alts_at m type size alt1 vs1 -> holds m alt2 d -> holds m (alt2 + size) lo ->
  holds m (alt2 + size + size) hi -> proper type size d -> proper type size lo -> proper type size hi ->
  step_at m type size (if c2 =? SPA_CHOICE_Step then Some (alt2 + size + size + size) else None) s ->
  let K := List.filter (in_range type lo hi s) vs1 in
  let dflt := if (0 <=? value_cmp type d lo) && (value_cmp type d hi <=? 0)
              then default_of type d vs1 else None in
  writes (filter_enum_range m type size alt1 n alt2 c2)
    (match dflt with Some d1 => d1 :: K | None => emit false 0 K end) (zlen K).
Proof.
  intros -> H1 Hd Hl Hh Od Ol Oh Hst K dflt. unfold filter_enum_range.
  replace (Z.to_nat (zlen vs1)) with (length vs1) by (unfold zlen; lia).
  destruct (compare_at m type size alt2 d (alt2 + size) lo) as (cl & El & Sl); [done..|].
  destruct (compare_at m type size alt2 d (alt2 + size + size) hi) as (ch & Eh & Sh); [done..|].
  eapply writes_lift; [exact El|]. by_sign Sl.
  set (inr := (0 <=? value_cmp type d lo) && (value_cmp type d hi <=? 0)) in *.
  apply (writes_bind _ _ [] _ inr).
  { unfold inr. destruct (0 <=? value_cmp type d lo); [|apply writes_ret].
    eapply writes_lift; [exact Eh|]. by_sign Sh. apply writes_ret. }
  assert (forall f, writes (copy_in_range m type size (alt2 + size) (alt2 + size + size)
    (if c2 =? SPA_CHOICE_Step then Some (alt2 + size + size + size) else None) f (length vs1) alt1 0)
    (emit f 0 K) (0 + zlen K)) as HK.
  { intros f. by apply (writes_in_range m type size (alt2 + size) lo (alt2 + size + size) hi _ s f vs1 alt1 0). }
  replace (match dflt with Some d1 => d1 :: K | None => emit false 0 K end)
    with ((match dflt with Some d1 => [d1] | None => [] end) ++
          emit (match dflt with Some _ => true | None => false end) 0 K).
  2: { destruct dflt; [|done]. by destruct K. }
  apply (writes_bind _ _ _ _ (match dflt with Some _ => true | None => false end)); [|apply HK].
  unfold dflt. destruct inr; [by apply writes_default|apply writes_ret].
Qed.

Lemma bind_assoc_lift {S A B C} (x : outcome A) a (k : A -> ST S B) (k' : B -> ST S C) st :
  x = Ret a -> st_bind (st_bind (st_lift x) k) k' st = st_bind (k a) k' st.
Proof. by intros ->. Qed.

Section Write.
Context {CL : CLibrary} (m : mem) (type size : Z) (b : spa_pod_builder) (Hb : builder_ok b) (child : list byte).
Notation ok := (proper type size).
Notation choice ct W := (in_choice ct (child ++ concat W) b).

(** Room for [n] values. *)
Definition room_for (n : Z) : Prop := fits b (16 + zlen child + size * n).

Lemma choice_writes {A} (op : ST spa_pod_builder A) W (a : A) n ct :
  writes op W a -> Forall ok W -> 0 <= size -> zlen W <= n -> room_for n ->
  op (choice ct []) = (Ret a, choice ct W).
Proof.
  intros Hw Ho Hs Hn Hr. simpl. rewrite app_nil_r. apply in_choice_writes; [done|done|].
  rewrite (zlen_concat type size) by done. unfold room_for, fits in *. nia.
Qed.

Lemma kept_ok K W n :
  Forall ok K -> zlen K <= n -> 0 <= n -> kept K W -> Forall ok W /\ zlen W <= 1 + n.
Proof.
  intros Ho Hn H0 [[-> ->]|(d & Hd & ->)]; [split; [done|change (zlen []) with 0; lia]|].
  rewrite zlen_cons. split; [|lia]. constructor; [|done]. by apply (In_ok type size d K).
Qed.

Lemma filter_ok f K : Forall ok K -> Forall ok (List.filter f K) /\ zlen (List.filter f K) <= zlen K.
Proof.
  intros Ho. split.
  - rewrite List.Forall_forall in *. intros x Hx. apply filter_In in Hx as [? _]. auto.
  - pose proof (filter_length_le f K). unfold zlen. lia.
Qed.

Lemma lists_case c1 alt1 vs1 c2 alt2 vs2 nc :
  is_list c1 = true -> is_list c2 = true -> alts_at m type size alt1 vs1 -> alts_at m type size alt2 vs2 ->
  0 <= size -> room_for (1 + zlen vs1 * zlen vs2) ->
  exists K W, filter_values m type size alt1 (zlen vs1) c1 alt2 (zlen vs2) c2 nc (choice SPA_CHOICE_None []) =
    (Ret (zlen K, 0), choice SPA_CHOICE_None W) /\
    kept K W /\ Forall ok W /\ zlen W <= 1 + zlen vs1 * zlen vs2 /\
    intersects type size (accepts type c1 vs1) (accepts type c2 vs2) K.
Proof.
  intros L1 L2 H1 H2 Hs Hr. pose proof H1 as [_ O1]. pose proof H2 as [_ O2].
  set (K := common type vs1 vs2). exists K, (emit false 0 K).
  assert (Forall ok K) as OK.
  { rewrite List.Forall_forall in *. intros k Hk. apply in_common in Hk as [Hk _]. auto. }
  pose proof (common_length type vs1 vs2). pose proof (zlen_nonneg vs1). pose proof (zlen_nonneg vs2).
  destruct (kept_ok K (emit false 0 K) (zlen vs1 * zlen vs2)) as [OW LW]; [done|done|nia|apply kept_emit|].
  split_and!; [|apply kept_emit|done|done|by apply common_intersects].
  unfold filter_values. rewrite L1, L2. cbn [andb]. unfold st_bind, zlen. rewrite !Nat2Z.id.
  rewrite (choice_writes _ (emit false 0 K) (0 + zlen K) (1 + zlen vs1 * zlen vs2)); [done| |done|done|done|done].
  by apply (writes_equal m type size alt1 vs1 vs2 alt2 0).
Qed.

(** A range in memory. *)
Lemma range_at c alt vals :
  is_range c = true -> shape type c vals -> alts_at m type size alt vals ->
  exists d lo hi s, (exists rest, vals = d :: lo :: hi :: rest) /\
    (forall v, accepts type c vals v <-> in_range type lo hi s v = true) /\
    holds m alt d /\ holds m (alt + size) lo /\ holds m (alt + size + size) hi /\ ok d /\ ok lo /\ ok hi /\
    step_at m type size (if c =? SPA_CHOICE_Step then Some (alt + size + size + size) else None) s /\
    (s <> None -> (type = SPA_TYPE_Int \/ type = SPA_TYPE_Long) /\ in_range type lo hi s d = true).
Proof.
  intros Hr Hsh Ha. destruct (shape_bounds type c vals Hr Hsh) as (d & lo & hi & rest & s & -> & Hacc & Hst).
  exists d, lo, hi, s. apply alts_cons in Ha as (Hd & Od & Ha). apply alts_cons in Ha as (Hl & Ol & Ha).
  apply alts_cons in Ha as (Hh & Oh & Ha). split_and!; try done; [by exists rest| |].
  - destruct Hst as [[-> ->]|(x & -> & -> & -> & Hx & _)]; [done|]. apply alts_cons in Ha as (Hx' & Ox & _). done.
  - intros Hs. destruct Hst as [[_ ->]|(x & _ & _ & -> & _ & Ht & Hin)]; done.
Qed.

Lemma range_list_case c1 alt1 vs1 c2 alt2 vs2 nc :
  is_range c1 = true -> is_list c2 = true -> shape type c1 vs1 ->
  alts_at m type size alt1 vs1 -> alts_at m type size alt2 vs2 ->
  0 <= size -> room_for (1 + zlen vs1 * zlen vs2) ->
  exists K W, filter_values m type size alt1 (zlen vs1) c1 alt2 (zlen vs2) c2 nc (choice SPA_CHOICE_None []) =
    (Ret (zlen K, 0), choice SPA_CHOICE_None W) /\
    kept K W /\ Forall ok W /\ zlen W <= 1 + zlen vs1 * zlen vs2 /\
    intersects type size (accepts type c1 vs1) (accepts type c2 vs2) K.
Proof.
  intros R1 L2 S1 H1 H2 Hs Hr. pose proof H2 as [_ O2].
  destruct (range_at c1 alt1 vs1 R1 S1 H1) as (d & lo & hi & s & [rest ->] & A1 & _ & Hl & Hh & _ & Ol & Oh & Hst & Ht).
  set (K := List.filter (in_range type lo hi s) vs2). exists K, (emit false 0 K).
  destruct (filter_ok (in_range type lo hi s) vs2 O2) as [OK LK]. fold K in OK, LK.
  pose proof (zlen_nonneg vs2). pose proof (zlen_nonneg rest).
  destruct (kept_ok K (emit false 0 K) (zlen vs2)) as [OW LW]; [done|done|done|apply kept_emit|].
  assert (zlen (emit false 0 K) <= 1 + zlen (d :: lo :: hi :: rest) * zlen vs2) as LW' by (rewrite !zlen_cons; nia).
  split_and!; [|apply kept_emit|done|done|].
  - unfold filter_values. rewrite (range_not_list c1 R1), R1, L2. cbn [andb]. unfold st_bind, filter_range_enum.
    replace (Z.to_nat (zlen vs2)) with (length vs2) by (unfold zlen; lia).
    rewrite (choice_writes _ (emit false 0 K) (0 + zlen K) (1 + zlen (d :: lo :: hi :: rest) * zlen vs2)); [done| |done|done|done|done].
    by apply (writes_in_range m type size (alt1 + size) lo (alt1 + size + size) hi _ s false vs2 alt2 0).
  - apply intersects_sym, range_intersects; try done. intros Hn. by destruct (Ht Hn).
Qed.

(** The default that is found is one of the values that are kept. *)
Lemma default_kept vs1 d d1 lo hi s :
  Forall ok vs1 -> ok d -> ok lo -> ok hi ->
  (s <> None -> (type = SPA_TYPE_Int \/ type = SPA_TYPE_Long) /\ in_range type lo hi s d = true) ->
  within type lo hi d -> default_of type d vs1 = Some d1 ->
  In d1 (List.filter (in_range type lo hi s) vs1).
Proof.
  intros O1 Od Ol Oh Ht Hw Hd. apply List.find_some in Hd as [Hin E]. apply Z.eqb_eq in E.
  pose proof (In_ok type size d1 vs1 O1 Hin) as O. apply filter_In. split; [done|].
  assert (value_cmp type d d1 = 0) as E' by (apply (eq_sym_ok type size); [by destruct O|done|done]).
  pose proof Od as [Cd _]. apply in_range_spec. split; [by apply (eq_within type size d)|].
  destruct s as [s|]; [|done]. destruct (Ht ltac:(done)) as [Hty Hr]. apply in_range_spec in Hr as [_ Hr].
  by apply (eq_steps type size d).
Qed.

Lemma list_range_case c1 alt1 vs1 c2 alt2 vs2 nc :
  is_list c1 = true -> is_range c2 = true -> shape type c2 vs2 ->
  alts_at m type size alt1 vs1 -> alts_at m type size alt2 vs2 ->
  0 <= size -> room_for (1 + zlen vs1 * zlen vs2) ->
  exists K W, filter_values m type size alt1 (zlen vs1) c1 alt2 (zlen vs2) c2 nc (choice SPA_CHOICE_None []) =
    (Ret (zlen K, 0), choice SPA_CHOICE_None W) /\
    kept K W /\ Forall ok W /\ zlen W <= 1 + zlen vs1 * zlen vs2 /\
    intersects type size (accepts type c1 vs1) (accepts type c2 vs2) K.
Proof.
  intros L1 R2 S2 H1 H2 Hs Hr. pose proof H1 as [_ O1].
  destruct (range_at c2 alt2 vs2 R2 S2 H2) as (d & lo & hi & s & [rest ->] & A2 & Hd & Hl & Hh & Od & Ol & Oh & Hst & Ht).
  set (K := List.filter (in_range type lo hi s) vs1). exists K.
  destruct (filter_ok (in_range type lo hi s) vs1 O1) as [OK LK]. fold K in OK, LK.
  pose proof (zlen_nonneg vs1). pose proof (zlen_nonneg rest).
  set (dflt := if (0 <=? value_cmp type d lo) && (value_cmp type d hi <=? 0) then default_of type d vs1 else None).
  set (W := match dflt with Some d1 => d1 :: K | None => emit false 0 K end). exists W.
  assert (kept K W) as HK.
  { unfold W, dflt. case_if; [|apply kept_emit]. destruct (default_of type d vs1) as [d1|] eqn:Ed; [|apply kept_emit].
    right. exists d1. split; [|done]. bool_to_prop. by apply (default_kept vs1 d). }
  destruct (kept_ok K W (zlen vs1)) as [OW LW]; [done|done|done|done|].
  assert (zlen W <= 1 + zlen vs1 * zlen (d :: lo :: hi :: rest)) as LW' by (rewrite !zlen_cons; nia).
  split_and!; [|done|done|done|].
  - unfold filter_values. rewrite L1, R2, (range_not_list c2 R2). cbn [andb]. unfold st_bind at 1.
    rewrite (choice_writes _ W (zlen K) (1 + zlen vs1 * zlen (d :: lo :: hi :: rest))); [done| |done|done|done|done].
    by apply writes_enum_range with (lo := lo) (hi := hi) (s := s).
  - apply range_intersects; try done. intros Hn. by destruct (Ht Hn).
Qed.

Lemma bind_lift {S A B} (x : outcome A) a (k : A -> ST S B) st : x = Ret a -> st_bind (st_lift x) k st = k a st.
Proof. by intros ->. Qed.

(** The three values and the kind of the new range. *)
Lemma range_written ad d alo lo ahi hi n :
  holds m ad d -> holds m alo lo -> holds m ahi hi -> ok d -> ok lo -> ok hi ->
  0 <= size -> 3 <= n -> room_for n ->
  (raw_at m ad size ;;; raw_at m alo size ;;; raw_at m ahi size ;;;
   set_nc_type (b_offset b) 0 SPA_CHOICE_Range) (choice SPA_CHOICE_None []) =
  (Ret 0, choice SPA_CHOICE_Range [d; lo; hi]).
Proof.
  intros Hd Hl Hh Od Ol Oh Hs Hn Hr.
  assert (Forall ok [d; lo; hi]) as OW by (by repeat apply list.Forall_cons_2).
  assert (writes (raw_at m ad size ;;; raw_at m alo size ;;; raw_at m ahi size) [d; lo; hi] 0) as Hw.
  { apply (writes_bind _ _ [d] [lo; hi] 0); [by apply (writes_raw m type size)|].
    apply (writes_bind _ _ [lo] [hi] 0); by apply (writes_raw m type size). }
  pose proof (choice_writes _ _ _ n SPA_CHOICE_None Hw OW Hs Hn Hr) as E. unfold st_bind in E |- *.
  destruct (raw_at m ad size _) as [[]?]; try done. destruct (raw_at m alo size _) as [[]?]; try done.
  destruct (raw_at m ahi size _) as [[]?]; try done. injection E as -> ->.
  apply set_nc_type_in_choice; [done|]. unfold room_for, fits in *. rewrite zlen_app, (zlen_concat type size) by done.
  change (zlen [d; lo; hi]) with 3. nia.
Qed.

Lemma ranges_run alt1 d1 lo1 hi1 alt2 d2 lo2 hi2 n :
  holds m alt1 d1 -> holds m (alt1 + size) lo1 -> holds m (alt1 + size + size) hi1 ->
  holds m alt2 d2 -> holds m (alt2 + size) lo2 -> holds m (alt2 + size + size) hi2 ->
  ok d1 -> ok lo1 -> ok hi1 -> ok d2 -> ok lo2 -> ok hi2 -> 0 <= size -> 3 <= n -> room_for n ->
  let lo := if value_cmp type lo1 lo2 <? 0 then lo2 else lo1 in
  let hi := if value_cmp type hi2 hi1 <? 0 then hi2 else hi1 in
  let d := if in_range type lo hi None d2 then d2 else if in_range type lo hi None d1 then d1 else lo in
  filter_ranges m type size alt1 alt2 (b_offset b) 0 (choice SPA_CHOICE_None []) =
  if value_cmp type hi lo <? 0 then (Err EINVAL, choice SPA_CHOICE_None [])
  else (Ret 0, choice SPA_CHOICE_Range [d; lo; hi]).
Proof.
  intros Hd1 Hl1 Hh1 Hd2 Hl2 Hh2 Od1 Ol1 Oh1 Od2 Ol2 Oh2 Hs Hn Hr lo hi d. unfold filter_ranges.
  assert (ok lo) as Ol by (unfold lo; by case_if). assert (ok hi) as Oh by (unfold hi; by case_if).
  destruct (compare_at m type size _ lo1 _ lo2 Hl1 Hl2 Ol1 Ol2) as (cl & El & Sl).
  destruct (compare_at m type size _ hi2 _ hi1 Hh2 Hh1 Oh2 Oh1) as (ch & Eh & Sh).
  rewrite (bind_lift _ _ _ _ El), (bind_lift _ _ _ _ Eh). by_sign Sl. by_sign Sh.
  set (alo := if value_cmp type lo1 lo2 <? 0 then alt2 + size else alt1 + size).
  set (ahi := if value_cmp type hi2 hi1 <? 0 then alt2 + size + size else alt1 + size + size).
  assert (holds m alo lo) as Hl by (unfold alo, lo; by case_if).
  assert (holds m ahi hi) as Hh by (unfold ahi, hi; by case_if).
  destruct (compare_at m type size _ hi _ lo Hh Hl Oh Ol) as (co & Eo & So).
  rewrite (bind_lift _ _ _ _ Eo). by_sign So.
  case_if; [done|].
  rewrite (bind_lift _ _ _ _ (in_range_at m type size alt2 d2 alo lo ahi hi None None Hd2 Hl Hh Od2 Ol Oh I)).
  unfold d. destruct (in_range type lo hi None d2); cbn [Z.ltb Z.compare Z.eqb].
  { by apply (range_written alt2 d2 alo lo ahi hi n). }
  rewrite (bind_assoc_lift _ _ _ _ _ (in_range_at m type size alt1 d1 alo lo ahi hi None None Hd1 Hl Hh Od1 Ol Oh I)).
  destruct (in_range type lo hi None d1); cbn [Z.ltb Z.compare Z.eqb].
  - by apply (range_written alt1 d1 alo lo ahi hi n).
  - by apply (range_written alo lo alo lo ahi hi n).
Qed.

Lemma ranges_case c1 alt1 vs1 c2 alt2 vs2 :
  is_range c1 = true -> is_range c2 = true -> shape type c1 vs1 -> shape type c2 vs2 ->
  alts_at m type size alt1 vs1 -> alts_at m type size alt2 vs2 ->
  0 <= size -> room_for (1 + zlen vs1 * zlen vs2) ->
  let run := filter_values m type size alt1 (zlen vs1) c1 alt2 (zlen vs2) c2 (b_offset b) (choice SPA_CHOICE_None []) in
  (exists s', run = (Err EINVAL, s') /\
     forall v, comparable type size v -> ~ (bounded type vs1 v /\ bounded type vs2 v)) \/
  exists d lo hi, run = (Ret (0, 0), choice SPA_CHOICE_Range [d; lo; hi]) /\
    Forall ok [d; lo; hi] /\ within type lo hi d /\
    (forall v, comparable type size v -> within type lo hi v <-> bounded type vs1 v /\ bounded type vs2 v).
Proof.
  intros R1 R2 S1 S2 H1 H2 Hs Hr run.
  destruct (range_at c1 alt1 vs1 R1 S1 H1) as (d1 & lo1 & hi1 & s1 & [rest1 ->] & _ & Hd1 & Hl1 & Hh1 & Od1 & Ol1 & Oh1 & _).
  destruct (range_at c2 alt2 vs2 R2 S2 H2) as (d2 & lo2 & hi2 & s2 & [rest2 ->] & _ & Hd2 & Hl2 & Hh2 & Od2 & Ol2 & Oh2 & _).
  set (lo := if value_cmp type lo1 lo2 <? 0 then lo2 else lo1).
  set (hi := if value_cmp type hi2 hi1 <? 0 then hi2 else hi1).
  set (d := if in_range type lo hi None d2 then d2 else if in_range type lo hi None d1 then d1 else lo).
  assert (run = if value_cmp type hi lo <? 0 then (Err EINVAL, choice SPA_CHOICE_None [])
                else (Ret (0, 0), choice SPA_CHOICE_Range [d; lo; hi])) as ->.
  { unfold run, filter_values. rewrite (range_not_list c1 R1), R1, R2, (range_not_list c2 R2). cbn [andb].
    unfold st_bind at 1. rewrite (ranges_run alt1 d1 lo1 hi1 alt2 d2 lo2 hi2
      (1 + zlen (d1 :: lo1 :: hi1 :: rest1) * zlen (d2 :: lo2 :: hi2 :: rest2))); try done.
    { cbv zeta. fold lo hi. fold d. by destruct (value_cmp type hi lo <? 0). }
    rewrite !zlen_cons. pose proof (zlen_nonneg rest1). pose proof (zlen_nonneg rest2). nia. }
  assert (ok lo) as Ol by (unfold lo; by case_if). assert (ok hi) as Oh by (unfold hi; by case_if).
  assert (forall v, comparable type size v ->
    within type lo hi v <-> bounded type (d1 :: lo1 :: hi1 :: rest1) v /\ bounded type (d2 :: lo2 :: hi2 :: rest2) v) as HW.
  { intros v Hv. unfold bounded, within. pose proof (max_lower type size lo1 lo2 v Ol1 Ol2 Hv).
    pose proof (min_upper type size hi1 hi2 v Oh1 Oh2 Hv). unfold lo, hi. tauto. }
  destruct (value_cmp type hi lo <? 0) eqn:Ec; bool_to_prop.
  { left. eexists. split; [done|]. intros v Hv Hbv. apply (HW v Hv) in Hbv.
    pose proof (within_ordered type size lo hi v Ol Oh Hv Hbv). lia. }
  right. exists d, lo, hi. split_and!; [done| | |done].
  - repeat apply list.Forall_cons_2; try done. unfold d. by repeat case_if.
  - unfold d. case_if; [by apply in_range_spec in E as [? _]|]. case_if; [by apply in_range_spec in E0 as [? _]|].
    pose proof (flip_ok type size hi lo Oh (proj1 Ol)). destruct Ol as [_ Ell]. split; lia.
Qed.

(** The value of the common flags is written. *)
Lemma flag_written sc n :
  scalar_is_array sc = false -> zlen (scalar_body sc) <= size -> size * 1 <= size * n -> room_for n ->
  zlen (scalar_body sc) + 8 <= UINT32_MAX ->
  build_scalar sc (choice SPA_CHOICE_None []) = (Ret 0, choice SPA_CHOICE_None [scalar_body sc]).
Proof.
  intros Ha Hl Hn Hr Hm. pose proof (zlen_nonneg (scalar_body sc)). unfold room_for, fits in Hr.
  assert (fits b (16 + zlen (child ++ concat []) + zlen (scalar_body sc))) as Hf.
  { unfold fits. simpl. rewrite app_nil_r. lia. }
  rewrite build_scalar_more; [|done| |done| |done].
  - rewrite in_choice_append by done. do 2 f_equal. simpl. by rewrite !app_nil_r.
  - apply in_choice_ok; [done|]. unfold fits in *. lia.
  - by apply in_choice_fits.
Qed.

Lemma flags_run alt1 x alt2 y n :
  holds m alt1 x -> holds m alt2 y -> ok x -> ok y -> 1 <= n -> room_for n -> size + 8 <= UINT32_MAX ->
  let run := spa_pod_filter_flags_value m type alt1 alt2 size (choice SPA_CHOICE_None []) in
  (bits type x = None /\ run = (Ret (- ENOTSUP), choice SPA_CHOICE_None [])) \/
  exists a c, bits type x = Some a /\ bits type y = Some c /\
    (Z.land a c = 0 /\ run = (Ret 0, choice SPA_CHOICE_None []) \/
     Z.land a c <> 0 /\ exists w, bits type w = Some (Z.land a c) /\ zlen w <= size /\
       run = (Ret 1, choice SPA_CHOICE_None [w])).
Proof.
  intros Hx Hy [[[Lx Hs] _] _] [[[Ly _] _] _] Hn Hr Hm. unfold spa_pod_filter_flags_value, bits.
  destruct (Z.eqb_spec type SPA_TYPE_Int) as [->|]; [|destruct (Z.eqb_spec type SPA_TYPE_Long) as [->|]; [|by left]].
  - change (4 <= size) in Hs. rewrite (proj2 (Z.ltb_ge size 4)) by lia. right.
    destruct (load_i32_ok x 0) as (a & Ea & Ra); [lia|lia|]. destruct (load_i32_ok y 0) as (c & Ec & Rc); [lia|lia|].
    exists a, c. rewrite Ea, Ec. split_and!; [done|done|].
    pose proof (load_i32_at m alt1 x 0 Hx ltac:(lia) ltac:(lia)) as A1. rewrite Z.add_0_r, Ea in A1.
    pose proof (load_i32_at m alt2 y 0 Hy ltac:(lia) ltac:(lia)) as A2. rewrite Z.add_0_r, Ec in A2.
    rewrite (bind_lift _ _ _ _ A1), (bind_lift _ _ _ _ A2).
    destruct (Z.eqb_spec (Z.land a c) 0) as [E|E]; [by left|right]. split; [done|].
    exists (scalar_body (SInt (Z.land a c))). cbn [scalar_body]. rewrite zlen_le32. split_and!; [|lia|].
    + rewrite (holds_i32 _ 0 (Z.land a c)) by (by apply holds_whole). simpl.
      by rewrite (swrap_small 32 _ eq_refl (land_signed 32 a c eq_refl Ra Rc)).
    + unfold st_bind. change (spa_pod_builder_int ?v) with (build_scalar (SInt v)).
      rewrite (flag_written _ n); [done|done|simpl; rewrite zlen_le32; lia|nia|done|simpl; rewrite zlen_le32; lia].
  - change (8 <= size) in Hs. rewrite (proj2 (Z.ltb_ge size 8)) by lia. right.
    destruct (load_i64_ok x 0) as (a & Ea & Ra); [lia|lia|]. destruct (load_i64_ok y 0) as (c & Ec & Rc); [lia|lia|].
    exists a, c. rewrite Ea, Ec. split_and!; [done|done|].
    pose proof (load_i64_at m alt1 x Hx 0 ltac:(lia) ltac:(lia)) as A1. rewrite Z.add_0_r, Ea in A1.
    pose proof (load_i64_at m alt2 y Hy 0 ltac:(lia) ltac:(lia)) as A2. rewrite Z.add_0_r, Ec in A2.
    rewrite (bind_lift _ _ _ _ A1), (bind_lift _ _ _ _ A2).
    destruct (Z.eqb_spec (Z.land a c) 0) as [E|E]; [by left|right]. split; [done|].
    exists (scalar_body (SLong (Z.land a c))). cbn [scalar_body]. rewrite zlen_le64. split_and!; [|lia|].
    + rewrite (holds_i64 _ 0 (Z.land a c)) by (by apply holds_whole). simpl.
      by rewrite (swrap_small 64 _ eq_refl (land_signed 64 a c eq_refl Ra Rc)).
    + unfold st_bind. change (spa_pod_builder_long ?v) with (build_scalar (SLong v)).
      rewrite (flag_written _ n); [done|done|simpl; rewrite zlen_le64; lia|nia|done|simpl; rewrite zlen_le64; lia].
Qed.

(** What the case distinction leaves in the buffer. *)
Definition selected (c1 : Z) (vs1 : list (list byte)) (c2 : Z) (vs2 : list (list byte))
    (n : Z) (st : spa_pod_builder) : Prop :=
  exists ct W, st = choice ct W /\ zlen (concat W) <= size * (1 + zlen vs1 * zlen vs2) /\
    ((ct = SPA_CHOICE_None /\ stepped_ranges c1 c2 = false /\ exists K, n = zlen K /\ kept K W /\ Forall ok W /\
        intersects type size (accepts type c1 vs1) (accepts type c2 vs2) K) \/
     (ct <> SPA_CHOICE_None /\ is_u32 ct /\ filtered type size c1 vs1 c2 vs2 ct W)).

Lemma flags_case c1 alt1 vs1 c2 alt2 vs2 :
  flags_pair c1 c2 = true -> shape type c1 vs1 -> shape type c2 vs2 ->
  alts_at m type size alt1 vs1 -> alts_at m type size alt2 vs2 ->
  0 <= size -> room_for (1 + zlen vs1 * zlen vs2) -> size + 8 <= UINT32_MAX ->
  let run := (let* res := spa_pod_filter_flags_value m type alt1 alt2 size in
              if negb (res =? 1) then st_err EINVAL
              else let* dummy := set_nc_type (b_offset b) 0 SPA_CHOICE_Flags in st_ret (0, dummy))
             (choice SPA_CHOICE_None []) in
  (exists st, run = (Err EINVAL, st) /\ no_intersection type size c1 vs1 c2 vs2) \/
  exists st, run = (Ret (0, 0), st) /\ selected c1 vs1 c2 vs2 0 st.
Proof.
  intros Hp S1 S2 H1 H2 Hs Hr Hm run.
  destruct (flags_pair_shape type c1 vs1 c2 vs2 Hp S1 S2) as (x & y & -> & ->).
  apply alts_cons in H1 as (Hx & Ox & _). apply alts_cons in H2 as (Hy & Oy & _).
  pose proof (flags_common type size c1 x c2 y) as FC.
  destruct (flags_run alt1 x alt2 y (1 + zlen [x] * zlen [y]) Hx Hy Ox Oy ltac:(done) Hr Hm)
    as [[Ex E]|(a & c & Ex & Ey & [[Hz E]|(Hz & w & Ew & Lw & E)])]; unfold run, st_bind; rewrite E.
  - left. eexists. split; [done|]. right. intros v Hv [A1 A2].
    destruct (FC v Hp Ox Oy Hv A1 A2) as (? & ? & ? & Ex' & _). congruence.
  - left. eexists. split; [done|]. right. intros v Hv [A1 A2].
    destruct (FC v Hp Ox Oy Hv A1 A2) as (a' & c' & q & Ex' & Ey' & _ & Hq & Hl).
    rewrite Ex in Ex'. rewrite Ey in Ey'. injection Ex' as <-. injection Ey' as <-.
    rewrite Hz, Z.land_0_r in Hl. lia.
  - right. cbn [Z.eqb Pos.eqb negb].
    assert (zlen (concat [w]) <= size * (1 + zlen [x] * zlen [y])) as Lc.
    { simpl. rewrite app_nil_r. change (zlen w <= size * (1 + 1 * 1)). lia. }
    rewrite set_nc_type_in_choice; [|done|].
    + eexists. split; [done|]. exists SPA_CHOICE_Flags, [w]. split_and!; [done|done|].
      right. split_and!; [done|done|]. apply intersection_filtered; [by apply flags_not_stepped|]. by eapply common_flags.
    + unfold room_for, fits in *. rewrite zlen_app. lia.
Qed.

(** One side is a choice of flags. *)
Lemma other_pair_case c1 alt1 vs1 c2 alt2 vs2 :
  is_list c1 && is_list c2 = false -> is_list c1 && is_range c2 = false ->
  is_range c1 && is_list c2 = false -> is_range c1 && is_range c2 = false ->
  is_list c1 || is_range c1 || is_flags c1 = true -> is_list c2 || is_range c2 || is_flags c2 = true ->
  shape type c1 vs1 -> shape type c2 vs2 ->
  alts_at m type size alt1 vs1 -> alts_at m type size alt2 vs2 ->
  0 <= size -> room_for (1 + zlen vs1 * zlen vs2) -> size + 8 <= UINT32_MAX ->
  let run := filter_values m type size alt1 (zlen vs1) c1 alt2 (zlen vs2) c2 (b_offset b) (choice SPA_CHOICE_None []) in
  (exists e st, run = (Err e, st) /\ no_intersection type size c1 vs1 c2 vs2) \/
  exists n st, run = (Ret (n, 0), st) /\ selected c1 vs1 c2 vs2 n st.
Proof.
  intros E1 E2 E3 E4 K1 K2 S1 S2 H1 H2 Hs Hr Hm run. unfold run, filter_values. rewrite E1, E2, E3, E4.
  destruct (flags_pair c1 c2) eqn:Hp.
  - destruct (flags_case c1 alt1 vs1 c2 alt2 vs2 Hp S1 S2 H1 H2 Hs Hr Hm) as [(st & E & HN)|(st & E & HS)].
    + left. by eexists _, _.
    + right. by eexists _, _.
  - assert (rejected_pair c1 c2 = true) as HR.
    { unfold rejected_pair, flags_pair, is_list, is_range, is_flags in *.
      destruct (c1 =? SPA_CHOICE_None), (c1 =? SPA_CHOICE_Enum), (c1 =? SPA_CHOICE_Range), (c1 =? SPA_CHOICE_Step),
        (c1 =? SPA_CHOICE_Flags), (c2 =? SPA_CHOICE_None), (c2 =? SPA_CHOICE_Enum), (c2 =? SPA_CHOICE_Range),
        (c2 =? SPA_CHOICE_Step), (c2 =? SPA_CHOICE_Flags); done. }
    rewrite HR. left. eexists _, _. split; [done|]. by left.
Qed.

Lemma accepts_bounded c vs v :
  is_range c = true -> shape type c vs -> accepts type c vs v -> bounded type vs v.
Proof.
  intros R S A. destruct (shape_bounds type c vs R S) as (d & lo & hi & rest & s & -> & HA & _).
  apply HA, in_range_spec in A as [? _]. done.
Qed.

(** Without steps, a range accepts what is between its bounds. *)
Lemma plain_range_accepts vs v :
  shape type SPA_CHOICE_Range vs -> accepts type SPA_CHOICE_Range vs v <-> bounded type vs v.
Proof.
  intros S. split; [by apply accepts_bounded|]. inversion S as [? ? Hl| |d lo hi|]; subst; [done|].
  intros W. unfold accepts. cbn. split_and!; done.
Qed.

Lemma ranges_filtered c1 vs1 c2 vs2 d lo hi :
  is_range c1 = true -> is_range c2 = true -> shape type c1 vs1 -> shape type c2 vs2 -> within type lo hi d ->
  (forall v, comparable type size v -> within type lo hi v <-> bounded type vs1 v /\ bounded type vs2 v) ->
  filtered type size c1 vs1 c2 vs2 SPA_CHOICE_Range [d; lo; hi].
Proof.
  intros R1 R2 S1 S2 Hd HI. unfold filtered. destruct (stepped_ranges c1 c2) eqn:E.
  { split; [done|]. by exists d, lo, hi. }
  unfold stepped_ranges in E. rewrite R1, R2 in E. cbn [andb] in E. apply orb_false_elim in E as [E1 E2].
  unfold is_range in R1, R2. rewrite E1, orb_false_r in R1. rewrite E2, orb_false_r in R2.
  apply Z.eqb_eq in R1, R2. subst. apply overlap; [done|done|done|]. intros v Hv.
  rewrite !plain_range_accepts by (done || apply shape_range). by apply HI.
Qed.

Lemma range_length c vs : is_range c = true -> shape type c vs -> 3 <= zlen vs.
Proof.
  intros R S. destruct (shape_bounds type c vs R S) as (d & lo & hi & rest & s & -> & _).
  rewrite !zlen_cons. pose proof (zlen_nonneg rest). lia.
Qed.

Lemma filter_values_spec c1 alt1 vs1 c2 alt2 vs2 :
  is_list c1 || is_range c1 || is_flags c1 = true -> is_list c2 || is_range c2 || is_flags c2 = true ->
  shape type c1 vs1 -> shape type c2 vs2 ->
  alts_at m type size alt1 vs1 -> alts_at m type size alt2 vs2 ->
  0 <= size -> room_for (1 + zlen vs1 * zlen vs2) -> size + 8 <= UINT32_MAX ->
  let run := filter_values m type size alt1 (zlen vs1) c1 alt2 (zlen vs2) c2 (b_offset b) (choice SPA_CHOICE_None []) in
  (exists e st, run = (Err e, st) /\ no_intersection type size c1 vs1 c2 vs2) \/
  exists n st, run = (Ret (n, 0), st) /\ selected c1 vs1 c2 vs2 n st.
Proof.
  intros K1 K2 S1 S2 H1 H2 Hs Hr Hm run.
  assert ((exists K W, run = (Ret (zlen K, 0), choice SPA_CHOICE_None W) /\ kept K W /\ Forall ok W /\
    zlen W <= 1 + zlen vs1 * zlen vs2 /\ intersects type size (accepts type c1 vs1) (accepts type c2 vs2) K) ->
    is_list c1 || is_list c2 = true ->
    exists n st, run = (Ret (n, 0), st) /\ selected c1 vs1 c2 vs2 n st) as Hlists.
  { intros (K & W & E & HK & OW & LW & HI) HL. eexists _, _. split; [exact E|]. exists SPA_CHOICE_None, W.
    split_and!; [done|rewrite (zlen_concat type size) by done; nia|]. left. split_and!; [done|by apply list_not_stepped|]. by exists K. }
  destruct (is_list c1) eqn:L1, (is_list c2) eqn:L2.
  { right. apply Hlists; [by apply lists_case|done]. }
  all: destruct (is_range c1) eqn:R1, (is_range c2) eqn:R2; cbn [orb] in K1, K2.
  all: try (by rewrite (range_not_list c1 R1) in L1); try (by rewrite (range_not_list c2 R2) in L2).
  - right. apply Hlists; [by apply list_range_case|done].
  - by apply (other_pair_case c1 alt1 vs1 c2 alt2 vs2); rewrite ?L1, ?L2, ?R1, ?R2.
  - right. apply Hlists; [by apply range_list_case|done].
  - by apply (other_pair_case c1 alt1 vs1 c2 alt2 vs2); rewrite ?L1, ?L2, ?R1, ?R2.
  - destruct (ranges_case c1 alt1 vs1 c2 alt2 vs2 R1 R2 S1 S2 H1 H2 Hs Hr) as [(st & E & HD)|(d & lo & hi & E & OW & HW & HI)].
    + left. eexists _, _. split; [exact E|]. right. intros v Hv [A1 A2]. apply (HD v Hv).
      split; [by apply (accepts_bounded c1)|by apply (accepts_bounded c2)].
    + right. eexists _, _. split; [exact E|]. exists SPA_CHOICE_Range, [d; lo; hi].
      split_and!; [done| |right; split_and!; [done|done|by apply ranges_filtered]].
      rewrite (zlen_concat type size) by done. change (zlen [d; lo; hi]) with 3.
      pose proof (range_length c1 vs1 R1 S1). pose proof (range_length c2 vs2 R2 S2).
      assert (3 * 3 <= zlen vs1 * zlen vs2) by (apply Z.mul_le_mono_nonneg; lia). apply Z.mul_le_mono_nonneg_l; lia.
  - by apply (other_pair_case c1 alt1 vs1 c2 alt2 vs2); rewrite ?L1, ?L2, ?R1, ?R2.
  - by apply (other_pair_case c1 alt1 vs1 c2 alt2 vs2); rewrite ?L1, ?L2, ?R1, ?R2.
  - by apply (other_pair_case c1 alt1 vs1 c2 alt2 vs2); rewrite ?L1, ?L2, ?R1, ?R2.
Qed.
End Write.

(** ** The finished property *)

(** [b'] is [b] with [bs] appended; the bytes behind them may have changed. *)
Record wrote (bs : list byte) (b b' : spa_pod_builder) : Prop := {
  wrote_offset : b_offset b' = b_offset b + zlen bs;
  wrote_flags : b_flags b' = b_flags b;
  wrote_frames : b_frames b' = frame_add_size (zlen bs) <$> b_frames b;
  wrote_overflow : b_overflow b' = b_overflow b;
  wrote_before : same_if (fun i => i < b_offset b) (b_data b) (b_data b');
  wrote_bytes : holds (b_data b') (b_offset b) bs }.

(** The sizes in the open frames count bytes that have been written. *)
Definition frames_within (b : spa_pod_builder) : Prop :=
  Forall (fun f => pod_size (frame_pod f) <= b_offset b) (b_frames b).

Definition enc_choice (ct size type : Z) (vals : list (list byte)) : list byte :=
  enc_padded SPA_TYPE_Choice ((le32 ct ++ le32 0) ++ enc_pod (mk_pod size type) ++ concat vals).

Lemma overwrite_same_if Q m off bs :
  0 <= off -> off + zlen bs <= zlen m -> (forall i, Q i -> ~ (off <= i < off + zlen bs)) ->
  same_if Q m (overwrite m off bs).
Proof.
  intros Ho Hl HQ. split.
  - pose proof (zlen_overwrite m off bs Ho Hl). unfold zlen in *. lia.
  - intros i Hi. rewrite lookup_overwrite by done. case_decide; [|done]. exfalso. by apply (HQ (Z.of_nat i)).
Qed.

(** Two writes in a row, with other bytes behind the first. *)
Lemma wrote_app bs1 bs2 b d :
  builder_ok b -> fits b (zlen bs1 + zlen bs2) ->
  same_if (fun i => i < b_offset b + zlen bs1) (b_data (append_bytes bs1 b)) d ->
  wrote (bs1 ++ bs2) b (append_bytes bs2 (set_data d (append_bytes bs1 b))).
Proof.
  intros Hb Hf Hd. pose proof Hb as (Ho & _). unfold fits, b_size in Hf.
  pose proof (zlen_nonneg bs1). pose proof (zlen_nonneg bs2).
  assert (zlen d = zlen (b_data b)) as Ld.
  { rewrite <- (zlen_overwrite (b_data b) (b_offset b) bs1) by lia. destruct Hd as [L _]. unfold zlen. by rewrite L. }
  assert (same_if (fun i => i < b_offset b) (b_data b) (overwrite (b_data b) (b_offset b) bs1)) as S1
    by (apply overwrite_same_if; lia).
  assert (same_if (fun i => i < b_offset b + zlen bs1) d (overwrite d (b_offset b + zlen bs1) bs2)) as S2
    by (apply overwrite_same_if; lia).
  split.
  - cbn. rewrite zlen_app. lia.
  - done.
  - cbn. rewrite zlen_app, <- list_fmap_compose. apply list_fmap_ext. intros ? f _. simpl. apply frame_add_size_add.
  - done.
  - cbn. eapply same_if_trans; [exact S1|]. eapply same_if_trans.
    + eapply same_if_weaken; [|exact Hd]. simpl. lia.
    + eapply same_if_weaken; [|exact S2]. simpl. lia.
  - cbn. apply holds_app.
    + eapply (holds_same (fun i => i < b_offset b + zlen bs1)); [exact S2|lia|].
      eapply (holds_same (fun i => i < b_offset b + zlen bs1)); [exact Hd|lia|]. apply holds_overwrite; lia.
    + apply holds_overwrite; lia.
Qed.

Lemma intersects_nil type size c1 vs1 c2 vs2 :
  intersects type size (accepts type c1 vs1) (accepts type c2 vs2) [] -> no_intersection type size c1 vs1 c2 vs2.
Proof. intros [_ H]. right. intros v Hv [A1 A2]. by destruct (H v Hv A1 A2) as (k & [] & _). Qed.

Section Finish.
Context (type size : Z) (b : spa_pod_builder) (Hp : plain b) (Hfr : frames_within b).

Lemma plain_set_data d : zlen d = zlen (b_data b) -> plain (set_data d b).
Proof.
  intros L. destruct Hp as ((H1 & H2 & H3) & H4 & H5). split_and!; try done. split_and!; try done.
  unfold b_size in *. cbn. by rewrite L.
Qed.

Lemma pop_choice ct vals d (r : Z) :
  zlen d = zlen (b_data b) -> fits b (zlen (enc_choice ct size type vals)) ->
  (spa_pod_builder_pop ;;; st_ret r) (in_choice ct (enc_pod (mk_pod size type) ++ concat vals) (set_data d b)) =
  (Ret r, append_bytes (enc_choice ct size type vals) (set_data d b)).
Proof.
  intros L Hf. unfold st_bind, in_choice. rewrite pop_in_frame; [done|by apply plain_set_data|done|done|].
  unfold fits, b_size in *. cbn [b_data b_offset set_data]. rewrite L. unfold enc_choice in Hf.
  rewrite enc_padded_zlen in Hf. autorewrite with zlen in Hf |- *. exact Hf.
Qed.

Lemma set_data_self : set_data (b_data b) b = b.
Proof. by destruct b. Qed.

(** What [filter_finish] makes of the selected values. *)
Definition finished (c1 : Z) (vs1 : list (list byte)) (c2 : Z) (vs2 : list (list byte))
    (r : outcome Z * spa_pod_builder) : Prop :=
  (exists st, r = (Err EINVAL, st) /\ no_intersection type size c1 vs1 c2 vs2) \/
  exists ct vals d, r = (Ret 0, append_bytes (enc_choice ct size type vals) (set_data d b)) /\
    same_if (fun i => i < b_offset b) (b_data b) d /\ filtered type size c1 vs1 c2 vs2 ct vals /\
    fits b (zlen (enc_choice ct size type vals)).

Lemma enc_choice_zlen ct vals : zlen (enc_choice ct size type vals) = 8 + pad8 (16 + zlen (concat vals)).
Proof. unfold enc_choice. rewrite enc_padded_zlen. autorewrite with zlen. do 2 f_equal. lia. Qed.

Lemma pad8_mono x y : x <= y -> pad8 x <= pad8 y.
Proof. intros H. unfold pad8. pose proof (Z.div_le_mono (x + 7) (y + 7) 8). lia. Qed.

(** The only value is written twice and removed once. *)
Lemma single_value c1 vs1 c2 vs2 k (dummy : Z) :
  Forall (proper type size) [k; k] -> fits b (16 + zlen (enc_pod (mk_pod size type) ++ concat [k; k])) ->
  fits b (zlen (enc_choice SPA_CHOICE_None size type [k])) ->
  stepped_ranges c1 c2 = false ->
  intersects type size (accepts type c1 vs1) (accepts type c2 vs2) [k] ->
  finished c1 vs1 c2 vs2
    (((st_modify (spa_pod_builder_remove size) ;;; st_ret dummy) ;;; spa_pod_builder_pop ;;; st_ret 0)
       (in_choice SPA_CHOICE_None (enc_pod (mk_pod size type) ++ concat [k; k]) b)).
Proof.
  intros OW Hf Hf' Hns HI. right. pose proof Hp as (Hb & _). pose proof Hb as (Ho & _).
  inversion_clear OW as [|? ? Ok _]. apply proper_zlen in Ok.
  set (hd := enc_pod (mk_pod size type)) in *.
  assert (zlen (hd ++ concat [k; k]) = zlen (hd ++ k) + zlen k) as L by (simpl; rewrite app_nil_r; zlia).
  rewrite L in Hf. pose proof (zlen_nonneg (hd ++ k)). pose proof (zlen_nonneg k). unfold fits, b_size in Hf.
  set (d := overwrite (b_data b) (b_offset b + (16 + zlen (hd ++ k))) k).
  exists SPA_CHOICE_None, [k], d. split_and!; [| |by apply intersection_filtered, one_value|done].
  - replace (hd ++ concat [k; k]) with ((hd ++ k) ++ k) by (simpl; by rewrite app_nil_r, app_assoc).
    unfold st_bind at 1 2, st_modify, st_ret at 1. rewrite <- Ok at 1.
    rewrite remove_in_choice; [|done|unfold fits, b_size; lia|done]. fold d.
    replace (hd ++ k) with (hd ++ concat [k]) by (simpl; by rewrite app_nil_r).
    apply pop_choice; [|done]. unfold d. apply zlen_overwrite; lia.
  - apply overwrite_same_if; lia.
Qed.

Lemma finish_spec c1 vs1 c2 vs2 n st N :
  selected type size b (enc_pod (mk_pod size type)) c1 vs1 c2 vs2 n st ->
  N = size * (1 + zlen vs1 * zlen vs2) -> fits b (8 + pad8 (16 + N)) ->
  finished c1 vs1 c2 vs2 (filter_finish size (b_offset b) n 0 st).
Proof.
  intros (ct & W & -> & LW & HS) -> Hf. pose proof Hp as (Hb & _). set (N := size * _) in *.
  pose proof (pad8_bounds (16 + N)).
  assert (forall ct vals, zlen (concat vals) <= N -> fits b (zlen (enc_choice ct size type vals))) as HF.
  { intros ct' vals Hl. unfold fits in *. rewrite enc_choice_zlen. pose proof (pad8_mono (16 + zlen (concat vals)) (16 + N)). lia. }
  assert (forall vals, zlen (concat vals) <= N -> fits b (16 + zlen (enc_pod (mk_pod size type) ++ concat vals))) as HF'.
  { intros vals Hl. unfold fits in *. rewrite zlen_app, zlen_enc_pod. lia. }
  assert (forall ct' vals, zlen (concat vals) <= N -> filtered type size c1 vs1 c2 vs2 ct' vals ->
    finished c1 vs1 c2 vs2 ((spa_pod_builder_pop ;;; st_ret 0) (in_choice ct' (enc_pod (mk_pod size type) ++ concat vals) b))) as HP.
  { intros ct' vals Hl HI. right. exists ct', vals, (b_data b).
    rewrite <- set_data_self at 1. rewrite pop_choice by auto. split_and!; auto using same_if_refl. }
  unfold filter_finish. destruct HS as [(-> & Hns & K & -> & HK & OW & HI)|(Hct & Hu & HI)].
  - unfold st_bind at 1. rewrite nc_type_in_choice; [|done|done|by apply HF'].
    change (SPA_CHOICE_None =? SPA_CHOICE_None) with true. cbv iota.
    destruct HK as [[-> ->]|(d & Hd & ->)].
    { left. eexists. split; [done|]. by apply intersects_nil. }
    destruct K as [|k [|k' K]]; [done| |].
    + destruct Hd as [<-|[]]. change (zlen [k]) with 1. cbn [Z.eqb Pos.eqb].
      apply single_value; [done|by apply HF'|apply HF|done|done]. simpl in *. rewrite !zlen_app in LW.
      pose proof (zlen_nonneg k). rewrite zlen_app. lia.
    + rewrite !zlen_cons. pose proof (zlen_nonneg K).
      rewrite (proj2 (Z.eqb_neq (1 + (1 + zlen K)) 0)), (proj2 (Z.eqb_neq (1 + (1 + zlen K)) 1)) by lia.
      unfold st_bind at 1. rewrite set_nc_type_in_choice by auto. apply HP; [done|].
      by apply intersection_filtered, several_values.
  - unfold st_bind at 1. rewrite nc_type_in_choice by auto.
    rewrite (proj2 (Z.eqb_neq ct SPA_CHOICE_None)) by done.
    by apply HP.
Qed.
End Finish.

(** ** The default of the second side *)

Lemma valid_enum_returns {CL : CLibrary} m type size val d next rest :
  holds m val d -> proper type size d -> alts_at m type size (next + size) rest ->
  exists r, valid_enum type size m val next (length rest) = Ret r.
Proof.
  intros Hd Od. revert next. induction rest as [|v rest IH]; intros next Ha; [by exists 0|].
  apply alts_cons in Ha as (Hv & Ov & Ha). cbn [valid_enum length].
  destruct (compare_at m type size val d (next + size) v) as (c & -> & _); [done..|]. cbn [obind]. case_if; [by exists 1|]. by apply IH.
Qed.

Lemma valid_choice_returns {CL : CLibrary} m type size a c vs :
  is_list c || is_range c || is_flags c = true -> shape type c vs -> alts_at m type size a vs ->
  exists r, spa_pod_compare_is_valid_choice type size m a a (zlen vs) c = Ret r.
Proof.
  intros Hk Hs Ha. unfold spa_pod_compare_is_valid_choice.
  assert (vs <> []) as Hne by (by destruct Hs). destruct vs as [|d rest]; [done|].
  pose proof (alts_cons _ _ _ _ _ _ Ha) as (Hd & Od & Hrest).
  case_if; [|case_if; [|case_if; [|case_if; by eexists]]].
  - destruct (compare_at m type size a d a d) as (k & -> & _); [done..|]. by eexists.
  - replace (Z.to_nat (zlen (d :: rest) - 1)) with (length rest) by (unfold zlen; simpl; lia).
    by apply (valid_enum_returns m type size a d).
  - destruct (range_at m type size c a (d :: rest)) as (d' & lo & hi & s & [rest' [= <- ->]] & _ & _ & Hl & Hh & _ & Ol & Oh & Hst & _); try done.
    rewrite (in_range_at m type size a d (a + size) lo (a + size + size) hi _ s) by done. by eexists.
Qed.

(** ** Opening the property *)

Lemma open_choice_run b size type :
  builder_ok b -> fits b 24 ->
  exists r, (spa_pod_builder_push_choice SPA_CHOICE_None 0 ;;; spa_pod_builder_child size type) b =
    (Ret r, in_choice SPA_CHOICE_None (enc_pod (mk_pod size type)) b).
Proof.
  intros Hb Hf. pose proof Hb as (Ho & Hs & _). unfold fits in Hf. exists 0.
  unfold spa_pod_builder_push_choice, st_bind at 1. fold choice_pod.
  set (hdr := enc_pod choice_pod ++ le32 SPA_CHOICE_None ++ le32 0).
  assert (zlen hdr = 16) as Lh by (unfold hdr; by autorewrite with zlen).
  rewrite push_container_fits; [|done|unfold fits; lia].
  set (B := opened choice_pod hdr b).
  assert (builder_ok B) as HB by (apply opened_ok; [done|unfold fits; lia|done]).
  assert (b_size B = b_size b) as HBs by (apply append_bytes_size; [done|unfold fits; lia]).
  assert (b_offset B = b_offset b + 16) as HBo by (unfold B; simpl; lia).
  unfold spa_pod_builder_child, st_bind at 1, st_get, st_bind, st_put.
  change (mk_builder _ _ _ _ _) with (set_flags SPA_POD_BUILDER_FLAG_BODY B).
  pose proof (raw_fits (Some (enc_pod (mk_pod size type))) (enc_pod (mk_pod size type)) (set_flags SPA_POD_BUILDER_FLAG_BODY B)) as R.
  rewrite zlen_enc_pod in R. rewrite R; [|done| |exists []; by rewrite app_nil_r].
  - f_equal. change (append_bytes ?x (set_flags ?f B)) with (set_flags f (append_bytes x B)).
    unfold B. rewrite append_opened; [done|done|unfold fits; zlia|done|simpl; zlia].
  - unfold fits. change (b_offset B + 8 <= b_size B). lia.
Qed.

Lemma intersection_sym type size c1 vs1 c2 vs2 ct vals :
  intersection type size c2 vs2 c1 vs1 ct vals -> intersection type size c1 vs1 c2 vs2 ct vals.
Proof.
  intros [v HI|d K Hd HI|d lo hi R1 R2 Hw HI|x y w a c Hp Hx Hy Ha Hc Hw Hn].
  - apply one_value. by apply intersects_sym.
  - apply several_values; [done|]. by apply intersects_sym.
  - apply overlap; try done. intros v Hv. rewrite (HI v Hv). tauto.
  - eapply (common_flags _ _ _ _ _ _ y x w c a); try done; [|by rewrite Z.land_comm|by rewrite Z.land_comm].
    rewrite <- Hp. unfold flags_pair.
    destruct (c1 =? SPA_CHOICE_None), (c2 =? SPA_CHOICE_None), (is_flags c1), (is_flags c2); done.
Qed.

Lemma stepped_ranges_sym c1 c2 : stepped_ranges c2 c1 = stepped_ranges c1 c2.
Proof. unfold stepped_ranges. by rewrite (andb_comm (is_range c2)), (orb_comm (c2 =? _)). Qed.

Lemma filtered_sym type size c1 vs1 c2 vs2 ct vals :
  filtered type size c2 vs2 c1 vs1 ct vals -> filtered type size c1 vs1 c2 vs2 ct vals.
Proof.
  unfold filtered, steps_dropped. rewrite (stepped_ranges_sym c1 c2). case_if; [|apply intersection_sym].
  intros (_ & d & lo & hi & Hct & Hv & Hd & HI). split; [done|]. exists d, lo, hi.
  split_and!; try done. intros v Hc. rewrite (HI v Hc). tauto.
Qed.

Lemma no_intersection_sym type size c1 vs1 c2 vs2 :
  no_intersection type size c2 vs2 c1 vs1 -> no_intersection type size c1 vs1 c2 vs2.
Proof.
  intros [H|H]; [left|right; intros v Hv; specialize (H v Hv); tauto].
  rewrite <- H. unfold rejected_pair. apply orb_comm.
Qed.

(** The values written for one property. *)
Definition prop_bytes (key flags ct size type : Z) (vals : list (list byte)) : list byte :=
  (le32 key ++ le32 flags) ++ enc_choice ct size type vals.

Lemma sides_size m type size c1 a1 vs1 c2 vs2 :
  shape type c1 vs1 -> shape type c2 vs2 -> alts_at m type size a1 vs1 ->
  0 <= size /\ 1 <= zlen vs1 /\ 1 <= zlen vs2.
Proof.
  intros S1 S2 H1. assert (forall c vs, shape type c vs -> 1 <= zlen vs) as A.
  { intros c vs Hs. destruct Hs as [c vs _ Hne _| | |]; [|by vm_compute..].
    destruct vs; [done|]. rewrite zlen_cons. pose proof (zlen_nonneg vs). lia. }
  split_and!; [|by apply (A c1)|by apply (A c2)]. destruct vs1 as [|v vs]; [by apply A in S1|].
  apply alts_cons in H1 as (_ & Ov & _). rewrite <- (proper_zlen _ _ _ Ov). apply zlen_nonneg.
Qed.

(** The work between the header of the property and the end of the choice. *)
Section Body.
Context {CL : CLibrary} (m : mem) (type size : Z) (b : spa_pod_builder) (Hp : plain b) (Hfr : frames_within b).
Context (c1 a1 c2 a2 : Z) (vs1 vs2 : list (list byte)).
Context (K1 : is_list c1 || is_range c1 || is_flags c1 = true) (K2 : is_list c2 || is_range c2 || is_flags c2 = true).
Context (S1 : shape type c1 vs1) (S2 : shape type c2 vs2).
Context (H1 : alts_at m type size a1 vs1) (H2 : alts_at m type size a2 vs2).
Context (Hf : fits b (8 + pad8 (16 + size * (1 + zlen vs1 * zlen vs2)))).

Lemma body_spec :
  finished type size b c1 vs1 c2 vs2
    ((let* r := filter_values m type size a1 (zlen vs1) c1 a2 (zlen vs2) c2 (b_offset b) in
      filter_finish size (b_offset b) r.1 r.2) (in_choice SPA_CHOICE_None (enc_pod (mk_pod size type)) b)) \/
  exists e st, (let* r := filter_values m type size a1 (zlen vs1) c1 a2 (zlen vs2) c2 (b_offset b) in
      filter_finish size (b_offset b) r.1 r.2) (in_choice SPA_CHOICE_None (enc_pod (mk_pod size type)) b) = (Err e, st) /\
    no_intersection type size c1 vs1 c2 vs2.
Proof.
  destruct (sides_size m type size c1 a1 vs1 c2 vs2 S1 S2 H1) as (Hs & N1 & N2). pose proof Hp as (Hb & _). pose proof Hb as (Ho & Hm & _).
  set (N := size * (1 + zlen vs1 * zlen vs2)) in *. pose proof (pad8_bounds (16 + N)). unfold fits in Hf.
  assert (size <= N) by (unfold N; nia).
  destruct (filter_values_spec m type size b Hb (enc_pod (mk_pod size type)) c1 a1 vs1 c2 a2 vs2)
    as [(e & st & E & HN)|(n & st & E & HS)]; try done.
  - unfold room_for, fits. rewrite zlen_enc_pod. fold N. lia.
  - lia.
  - right. exists e, st. split; [|done]. unfold st_bind. simpl concat in E. rewrite app_nil_r in E. by rewrite E.
  - left. simpl concat in E. rewrite app_nil_r in E. unfold st_bind. rewrite E. cbn [fst snd].
    by apply (finish_spec type size b Hp Hfr c1 vs1 c2 vs2 n st N).
Qed.
End Body.

Lemma bind_assoc {S A B C} (op : ST S A) (op' : ST S B) (k : B -> ST S C) st :
  (op ;;; (let* x := op' in k x)) st = (let* x := (op ;;; op') in k x) st.
Proof. unfold st_bind. by destruct (op st) as [[]]. Qed.

Lemma header_written b hdr n :
  plain b -> frames_within b -> fits b (8 + n) -> 0 <= n -> zlen hdr = 8 ->
  plain (append_bytes hdr b) /\ frames_within (append_bytes hdr b) /\ fits (append_bytes hdr b) n.
Proof.
  intros Hp Hfr Hf Hn L. pose proof Hp as (Hb & _). pose proof Hb as (Ho & Hm & Hok). unfold fits in Hf.
  assert (fits b (zlen hdr)) as Hfh by (unfold fits; lia). split_and!.
  - apply plain_append; [done|done|by rewrite L].
  - unfold frames_within in *. cbn. rewrite L. apply Forall_fmap. rewrite list.Forall_forall in *.
    intros f Hi. specialize (Hfr f Hi). specialize (Hok f Hi). unfold frame_ok, is_u32 in Hok. simpl.
    rewrite wrap_small by lia. lia.
  - unfold fits. rewrite append_bytes_size, append_bytes_offset by done. lia.
Qed.

(** The finished property in the caller's view. *)
Lemma finished_prop type size b hdr c1 vs1 c2 vs2 run :
  builder_ok b ->
  finished type size (append_bytes hdr b) c1 vs1 c2 vs2 run \/
  (exists e st, run = (Err e, st) /\ no_intersection type size c1 vs1 c2 vs2) ->
  fits b (zlen hdr) ->
  exists r b', run = (r, b') /\
    match r with
    | Ret _ => exists ct vals, wrote (hdr ++ enc_choice ct size type vals) b b' /\
                 filtered type size c1 vs1 c2 vs2 ct vals
    | Err _ => no_intersection type size c1 vs1 c2 vs2
    | Fault => False
    end.
Proof.
  intros Hb [[(st & -> & HN)|(ct & vals & d & -> & Hd & HI & Hf)]|(e & st & -> & HN)] Hfh; [by eexists _, _| |by eexists _, _].
  eexists _, _. split; [done|]. exists ct, vals. split; [|done]. pose proof Hb as (Ho & _).
  apply wrote_app; [done| |exact Hd]. unfold fits in *. rewrite append_bytes_size, append_bytes_offset in Hf by done. lia.
Qed.

Lemma finished_sym type size b c1 vs1 c2 vs2 r :
  finished type size b c2 vs2 c1 vs1 r -> finished type size b c1 vs1 c2 vs2 r.
Proof.
  intros [(st & E & HN)|(ct & vals & d & E & Hd & HI & Hf)].
  - left. exists st. split; [done|]. by apply no_intersection_sym.
  - right. exists ct, vals, d. split_and!; try done. by apply filtered_sym.
Qed.


(** An enumeration of integers and a range, as properties in one memory. *)
Definition sample_ints (c : Z) (l : list Z) : pod_val :=
  match l with [] => Scalar SNone | h :: t => Choice c 0 (SInt h) (map SInt t) end.
Definition sample_props : mem :=
  (le32 1 ++ le32 0 ++ pod_enc (sample_ints SPA_CHOICE_Enum [1; 1; 2; 3])) ++
  (le32 1 ++ le32 0 ++ pod_enc (sample_ints SPA_CHOICE_Range [2; 2; 5])).


(** ** Examples on whole objects *)

Definition sample_object (v : pod_val) : pod_val := Object 1 2 [(1, 0, v)].

(** The result code and what is written to a builder of 200 bytes. *)
Definition run_filter (pod filter : pod_val) : outcome (Z * option Z) * list byte :=
  let m := pod_enc pod ++ pod_enc filter in
  let '(r, b) := spa_pod_filter (CL := sample_library) m (fun n => zeroes (Z.of_nat n)) [] 4 0 (Some (zlen (pod_enc pod)))
                   (spa_pod_builder_init (zeroes 200)) in
  (r, take (Z.to_nat (b_offset b)) (b_data b)).

(** The values of the enumeration that are in the range. *)
Lemma filter_enum_by_range :
  run_filter (sample_object (sample_ints SPA_CHOICE_Enum [1; 1; 2; 3]))
             (sample_object (sample_ints SPA_CHOICE_Range [2; 2; 5])) =
  (Ret (0, Some 0), pod_enc (sample_object (sample_ints SPA_CHOICE_Enum [2; 2; 3]))).
Proof. by vm_compute. Qed.

(** Two choices with steps: the multiples of 4 up to 8 and the multiples of 2 up
    to 8 give all numbers up to 8, the steps are lost. *)
Lemma filter_forgets_steps :
  run_filter (sample_object (sample_ints SPA_CHOICE_Step [0; 0; 8; 4]))
             (sample_object (sample_ints SPA_CHOICE_Step [0; 0; 8; 2])) =
  (Ret (0, Some 0), pod_enc (sample_object (sample_ints SPA_CHOICE_Range [0; 0; 8]))).
Proof. by vm_compute. Qed.

(** A struct against an empty struct: the first member of the filter is read
    although there is none, here behind the end of the memory. *)
Lemma filter_reads_behind_struct :
  (run_filter (Struct [Scalar (SInt 1)]) (Struct [])).1 = Fault.
Proof. by vm_compute. Qed.
