(* ===== verification/GraphProps.v ===== *)
(** * The ndarray filter graph: property values

    Models the values and the descriptions of properties of
    [spa/include/spa/filter-graph/ndarray-plugin.h] and their handling in
    [spa/plugins/filter-graph/filter-graph-ndarray.c]: the equality and the
    admission of a value, the admission of a description and the conversion of
    values from and to PODs and from JSON.  How the C library reads a
    floating-point number is a parameter.

    A table that a plugin returns with a count has at least that many entries. *)
From S2P Require Import Prelude Bytes CString Json PodBody PodBuilder PodIter PodCompare.
#[local] Open Scope Z_scope.

Notation SPA_FGN_PROPERTY_FLAG_READONLY := 1.
Notation SPA_FGN_PROPERTY_FLAG_RANGE := 2.
Notation SPA_FGN_PROPERTY_FLAG_RUNTIME := 4.
Notation SPA_FGN_PROPERTY_FLAG_CONSTRUCTION := 8.
Notation SPA_FGN_PROPERTY_FLAG_GRAPH_REBUILD := 16.
Notation SPA_FGN_PROPERTY_FLAG_CHOICES := 32.
Notation SPA_FGN_LOCAL_NAME_MAX := 255.
Notation FGN_MAX_CHOICES_PER_PROPERTY := 1024.

(** [flags & flag] as a condition. *)
Definition has (flags flag : Z) : bool := negb (Z.land flags flag =? 0).

(** ** Values *)

(** The members of the union share [v_bits], the 64 bits they are stored in;
    the bytes a string pointer leads to are apart from it. *)
Record spa_fgn_value : Type := mk_value {
  v_type : Z;
  v_bits : Z;
  v_string : option (list byte) }.

Definition boolean (v : spa_fgn_value) : Z := i32 (v_bits v).
Definition integer (v : spa_fgn_value) : Z := i32 (v_bits v).
Definition long_integer (v : spa_fgn_value) : Z := i64 (v_bits v).
Definition float_value (v : spa_fgn_value) : Z := u32 (v_bits v).
Definition double_value (v : spa_fgn_value) : Z := u64 (v_bits v).
Definition v_id (v : spa_fgn_value) : Z := u32 (v_bits v).

Definition string_equal (a b : option (list byte)) : bool :=
  match a, b with
  | None, None => true
  | Some a, Some b => spa_streq a b
  | _, _ => false
  end.

(** [a == b], [a < b] and [isfinite(a)] on IEEE 754 numbers given by their bits. *)
Definition float_eq (w inf a b : Z) : bool :=
  negb (float_is_nan w inf a) && negb (float_is_nan w inf b) && (float_order w a =? float_order w b).
Definition float_lt (w inf a b : Z) : bool :=
  negb (float_is_nan w inf a) && negb (float_is_nan w inf b) && (float_order w a <? float_order w b).
Definition isfinite (w inf a : Z) : bool := float_magnitude w a <? inf.

Definition value_equal (a b : spa_fgn_value) : bool :=
  if negb (v_type a =? v_type b) then false
  else if v_type a =? SPA_TYPE_Bool then Bool.eqb (negb (boolean a =? 0)) (negb (boolean b =? 0))
  else if v_type a =? SPA_TYPE_Int then integer a =? integer b
  else if v_type a =? SPA_TYPE_Long then long_integer a =? long_integer b
  else if v_type a =? SPA_TYPE_Float then float_eq 32 FLOAT_INF (float_value a) (float_value b)
  else if v_type a =? SPA_TYPE_Double then float_eq 64 DOUBLE_INF (double_value a) (double_value b)
  else if v_type a =? SPA_TYPE_Id then v_id a =? v_id b
  else if v_type a =? SPA_TYPE_String then string_equal (v_string a) (v_string b)
  else false.

(** ** Descriptions *)

Record spa_fgn_property_choice : Type := mk_property_choice {
  ch_struct_size : Z;
  ch_value : spa_fgn_value;
  ch_name : option (list byte);
  ch_description : option (list byte) }.
Notation sizeof_property_choice := 40.

Record spa_fgn_property_info : Type := mk_property_info {
  pr_struct_size : Z;
  pr_id : Z;
  pr_flags : Z;
  pr_name : option (list byte);
  pr_description : option (list byte);
  pr_unit : option (list byte);
  pr_default : spa_fgn_value;
  pr_minimum : spa_fgn_value;
  pr_maximum : spa_fgn_value;
  pr_n_choices : Z;
  pr_choices : option (list spa_fgn_property_choice) }.
Notation sizeof_property_info := 104.

(** The entries [0 .. n_choices - 1] of the table. *)
Definition choices_of (info : spa_fgn_property_info) : list spa_fgn_property_choice :=
  take (Z.to_nat (pr_n_choices info)) (default [] (pr_choices info)).

(** The switch of [validate_value] on the type, with the range of [info]. *)
Definition in_range (info : spa_fgn_property_info) (v : spa_fgn_value) : outcome unit :=
  let lo := pr_minimum info in
  let hi := pr_maximum info in
  let t := v_type v in
  let check (bad : bool) : outcome unit := if bad then Err ERANGE else Ret tt in
  if t =? SPA_TYPE_Int then
    check ((integer v <? integer lo) || (integer hi <? integer v))
  else if t =? SPA_TYPE_Long then
    check ((long_integer v <? long_integer lo) || (long_integer hi <? long_integer v))
  else if t =? SPA_TYPE_Float then
    check (negb (isfinite 32 FLOAT_INF (float_value v))
           || float_lt 32 FLOAT_INF (float_value v) (float_value lo)
           || float_lt 32 FLOAT_INF (float_value hi) (float_value v))
  else if t =? SPA_TYPE_Double then
    check (negb (isfinite 64 DOUBLE_INF (double_value v))
           || float_lt 64 DOUBLE_INF (double_value v) (double_value lo)
           || float_lt 64 DOUBLE_INF (double_value hi) (double_value v))
  else if t =? SPA_TYPE_Id then
    check ((v_id v <? v_id lo) || (v_id hi <? v_id v))
  else Err EINVAL.

Definition is_none {A} (o : option A) : bool := match o with None => true | Some _ => false end.

Definition validate_value (info : spa_fgn_property_info) (v : spa_fgn_value) : outcome unit :=
  if negb (v_type v =? v_type (pr_default info)) then Err EINVAL
  else if (v_type v =? SPA_TYPE_String) && is_none (v_string v) then Err EINVAL
  else if has (pr_flags info) SPA_FGN_PROPERTY_FLAG_CHOICES then
    if existsb (fun c => value_equal v (ch_value c)) (choices_of info) then Ret tt else Err ERANGE
  else if negb (has (pr_flags info) SPA_FGN_PROPERTY_FLAG_RANGE) then Ret tt
  else in_range info v.

Definition value_type_supported (type : Z) : bool :=
  (type =? SPA_TYPE_Bool) || (type =? SPA_TYPE_Int) || (type =? SPA_TYPE_Long) || (type =? SPA_TYPE_Float)
  || (type =? SPA_TYPE_Double) || (type =? SPA_TYPE_Id) || (type =? SPA_TYPE_String).

(** NULL or the empty string. *)
Definition missing (s : option (list byte)) : bool :=
  match s with Some (_ :: _) => false | _ => true end.

(** The loop over the choices; [before] are those that came before. *)
Fixpoint choices_loop (type : Z) (before cs : list spa_fgn_property_choice) : outcome unit :=
  match cs with
  | [] => Ret tt
  | c :: cs =>
      if (ch_struct_size c <? sizeof_property_choice) || missing (ch_name c)
         || negb (v_type (ch_value c) =? type)
         || ((v_type (ch_value c) =? SPA_TYPE_String) && is_none (v_string (ch_value c)))
      then Err EINVAL
      else if existsb (fun b => opt_streq (ch_name c) (ch_name b) || value_equal (ch_value c) (ch_value b))
                      before
      then Err EEXIST
      else choices_loop type (before ++ [c]) cs
  end.

(** The switch of [validate_property_info] on the type: the range is not empty. *)
Definition range_ordered (info : spa_fgn_property_info) : bool :=
  let lo := pr_minimum info in
  let hi := pr_maximum info in
  let t := v_type (pr_default info) in
  if t =? SPA_TYPE_Int then negb (integer hi <? integer lo)
  else if t =? SPA_TYPE_Long then negb (long_integer hi <? long_integer lo)
  else if t =? SPA_TYPE_Float then
    isfinite 32 FLOAT_INF (float_value lo) && isfinite 32 FLOAT_INF (float_value hi)
    && negb (float_lt 32 FLOAT_INF (float_value hi) (float_value lo))
  else if t =? SPA_TYPE_Double then
    isfinite 64 DOUBLE_INF (double_value lo) && isfinite 64 DOUBLE_INF (double_value hi)
    && negb (float_lt 64 DOUBLE_INF (double_value hi) (double_value lo))
  else if t =? SPA_TYPE_Id then negb (v_id hi <? v_id lo)
  else false.

Definition SPA_FGN_PROPERTY_UPDATE_MASK : Z :=
  Z.lor (Z.lor SPA_FGN_PROPERTY_FLAG_READONLY SPA_FGN_PROPERTY_FLAG_RUNTIME)
        (Z.lor SPA_FGN_PROPERTY_FLAG_CONSTRUCTION SPA_FGN_PROPERTY_FLAG_GRAPH_REBUILD).
Notation PROPERTY_FLAGS := 63.

Definition validate_property_info (info : spa_fgn_property_info) : outcome unit :=
  if (pr_struct_size info <? sizeof_property_info) || missing (pr_name info)
     || (SPA_FGN_LOCAL_NAME_MAX <? zlen (default [] (pr_name info)))
     || missing (pr_description info) || missing (pr_unit info)
     || negb (Z.land (pr_flags info) (UINT32_MAX - PROPERTY_FLAGS) =? 0)
     || negb (value_type_supported (v_type (pr_default info)))
  then Err EINVAL
  else
    let update_flags := Z.land (pr_flags info) SPA_FGN_PROPERTY_UPDATE_MASK in
    if (update_flags =? 0) || negb (Z.land update_flags (u32 (update_flags - 1)) =? 0)
       || (has (pr_flags info) SPA_FGN_PROPERTY_FLAG_RANGE && has (pr_flags info) SPA_FGN_PROPERTY_FLAG_CHOICES)
       || negb (Bool.eqb (pr_n_choices info =? 0) (is_none (pr_choices info)))
       || (FGN_MAX_CHOICES_PER_PROPERTY <? pr_n_choices info)
       || (negb (has (pr_flags info) SPA_FGN_PROPERTY_FLAG_CHOICES) && negb (pr_n_choices info =? 0))
    then Err EINVAL
    else if has (pr_flags info) SPA_FGN_PROPERTY_FLAG_CHOICES then
      if pr_n_choices info =? 0 then Err EINVAL
      else
        let! _ := choices_loop (v_type (pr_default info)) [] (choices_of info) in
        validate_value info (pr_default info)
    else if negb (has (pr_flags info) SPA_FGN_PROPERTY_FLAG_RANGE) then
      validate_value info (pr_default info)
    else if negb (v_type (pr_minimum info) =? v_type (pr_default info))
            || negb (v_type (pr_maximum info) =? v_type (pr_default info)) then Err EINVAL
    else if negb (range_ordered info) then Err EINVAL
    else validate_value info (pr_default info).

(** ** Values in PODs *)

(** A value of the given type with the given bits stored in it. *)
Definition plain_value (type bits : Z) : spa_fgn_value := mk_value type bits None.

Definition value_from_pod (m : mem) (pod : Z) : outcome spa_fgn_value :=
  let! type := load_u32 m (pod + 4) in
  if type =? SPA_TYPE_Bool then
    let! b := spa_pod_get_bool m pod in Ret (plain_value type (if b : bool then 1 else 0))
  else if type =? SPA_TYPE_Int then let! i := spa_pod_get_int m pod in Ret (plain_value type (u32 i))
  else if type =? SPA_TYPE_Long then let! l := spa_pod_get_long m pod in Ret (plain_value type (u64 l))
  else if type =? SPA_TYPE_Float then let! f := spa_pod_get_float m pod in Ret (plain_value type f)
  else if type =? SPA_TYPE_Double then let! d := spa_pod_get_double m pod in Ret (plain_value type d)
  else if type =? SPA_TYPE_Id then let! i := spa_pod_get_id m pod in Ret (plain_value type i)
  else if type =? SPA_TYPE_String then
    match spa_pod_get_string m pod with
    | Ret p => let! s := load_cstr m p in Ret (mk_value type p (Some s))
    | Err _ => Err EINVAL
    | Fault => Fault
    end
  else Err ENOTSUP.

Definition build_value (v : spa_fgn_value) : ST spa_pod_builder Z :=
  let t := v_type v in
  if t =? SPA_TYPE_Bool then spa_pod_builder_bool (negb (boolean v =? 0))
  else if t =? SPA_TYPE_Int then spa_pod_builder_int (integer v)
  else if t =? SPA_TYPE_Long then spa_pod_builder_long (long_integer v)
  else if t =? SPA_TYPE_Float then spa_pod_builder_float (float_value v)
  else if t =? SPA_TYPE_Double then spa_pod_builder_double (double_value v)
  else if t =? SPA_TYPE_Id then spa_pod_builder_id (v_id v)
  else if t =? SPA_TYPE_String then spa_pod_builder_string (Some (default [] (v_string v)))
  else spa_pod_builder_none.

(** ** Values in JSON *)

Section From_json.
(** [strtof] and [strtod] on a text they read to its end without an error. *)
Context (strtof strtod : list byte -> option Z).

Definition spa_json_parse_float (val : list byte) : option Z :=
  if (zlen val <=? 0) || (96 <=? zlen val) then None else strtof val.

(** The number in the first [len] characters, when they fit into [number]. *)
Definition whole_number {A} (read : list byte -> option A) (val : list byte) : option A :=
  if (zlen val <=? 0) || (128 <=? zlen val) then None else read val.

(** An unsigned number with its whole text. *)
Definition read_id (val : list byte) : option Z :=
  match val with
  | c :: _ =>
      if code c =? 45 then None
      else match strtoull_0 val with
           | Some (id, []) => if UINT32_MAX <? id then None else Some id
           | _ => None
           end
  | [] => None
  end.

Definition read_long (val : list byte) : option Z :=
  match strtoll_0 val with Some (l, []) => Some l | _ => None end.

Definition value_from_json (info : spa_fgn_property_info) (text : list byte) (t : token)
  : outcome spa_fgn_value :=
  let type := v_type (pr_default info) in
  let val := token_bytes text t in
  let stored (bits : option Z) : outcome spa_fgn_value :=
    match bits with
    | None => Err EINVAL
    | Some bits =>
        let v := plain_value type bits in
        let! _ := validate_value info v in Ret v
    end in
  if type =? SPA_TYPE_Bool then
    stored (match spa_json_parse_bool val with Some b => Some (if b : bool then 1 else 0) | None => None end)
  else if type =? SPA_TYPE_Int then
    stored (match spa_json_parse_int val with Some i => Some (u32 i) | None => None end)
  else if type =? SPA_TYPE_Id then stored (whole_number read_id val)
  else if type =? SPA_TYPE_Float then stored (spa_json_parse_float val)
  else if type =? SPA_TYPE_Long then
    stored (match whole_number read_long val with Some l => Some (u64 l) | None => None end)
  else if type =? SPA_TYPE_Double then stored (whole_number strtod val)
  else if type =? SPA_TYPE_String then
    match spa_json_parse_stringn text t 512 with
    | Ret s =>
        let v := mk_value type 0 (Some (to_cstr s)) in
        let! _ := validate_value info v in Ret v
    | Err _ => Err EINVAL
    | Fault => Fault
    end
  else Err ENOTSUP.
End From_json.
