(* ===== verification/GraphPropsProofs.v ===== *)
(** * The ndarray filter graph: what a property admits

    What the values of properties stand for, when a description is admitted,
    and that values survive being built into a POD and read back. *)
From S2P Require Import Prelude Bytes CString PodBody PodBuilder PodSpec PodRoundTrip PodIter PodCompare GraphProps.
From Stdlib Require Import String.
#[local] Open Scope Z_scope.

(** ** What a value stands for *)

(** Numbers of different types are not compared with each other, so that the
    place of a float in the order of its type is enough. *)
Inductive meaning : Type :=
  | MBool (b : bool)
  | MNumber (z : Z)
  | MString (s : option (list byte)).

Definition real (w inf bits : Z) : option meaning :=
  if float_is_nan w inf bits then None else Some (MNumber (float_order w bits)).

(** NaN stands for nothing, and neither does a type that is not supported. *)
Definition meaning_of (v : spa_fgn_value) : option meaning :=
  let t := v_type v in
  if t =? SPA_TYPE_Bool then Some (MBool (negb (boolean v =? 0)))
  else if t =? SPA_TYPE_Int then Some (MNumber (integer v))
  else if t =? SPA_TYPE_Long then Some (MNumber (long_integer v))
  else if t =? SPA_TYPE_Float then real 32 FLOAT_INF (float_value v)
  else if t =? SPA_TYPE_Double then real 64 DOUBLE_INF (double_value v)
  else if t =? SPA_TYPE_Id then Some (MNumber (v_id v))
  else if t =? SPA_TYPE_String then Some (MString (v_string v))
  else None.

Definition same_meaning (a b : spa_fgn_value) : Prop :=
  v_type a = v_type b /\ exists m, meaning_of a = Some m /\ meaning_of b = Some m.

Lemma float_eq_meaning w inf a b :
  float_eq w inf a b = true <-> exists m, real w inf a = Some m /\ real w inf b = Some m.
Proof.
  unfold float_eq, real. destruct (float_is_nan w inf a), (float_is_nan w inf b); simpl.
  1-3: split; [done|]; by intros (m & ? & ?).
  rewrite Z.eqb_eq. split; [intros ->; eauto|]. by intros (m & [= <-] & [= ->]).
Qed.

Lemma string_equal_spec a b : string_equal a b = true <-> a = b.
Proof.
  unfold string_equal, spa_streq. destruct a, b; try done; rewrite ?bool_decide_eq_true; split; congruence.
Qed.

Lemma some_same {A} (x y : A) : x = y <-> exists m, Some x = Some m /\ Some y = Some m.
Proof. split; [intros ->; eauto|]. by intros (m & [= ->] & [= ->]). Qed.

Lemma value_equal_meaning a b : value_equal a b = true <-> same_meaning a b.
Proof.
  unfold value_equal, same_meaning, meaning_of. destruct (v_type a =? v_type b) eqn:Et; bool_to_prop; simpl.
  2: { split; [done|]. by intros []. }
  rewrite <- Et. assert (forall P : Prop, P <-> v_type a = v_type a /\ P) as Hand by tauto. rewrite <- Hand.
  repeat case_if.
  - rewrite Bool.eqb_true_iff, some_same. split; intros (m & H1 & H2).
    + injection H1 as <-. injection H2 as H2. exists (MBool (negb (boolean a =? 0))). by rewrite H2.
    + exists (negb (boolean a =? 0)). split; [done|]. congruence.
  - rewrite Z.eqb_eq. split; [intros ->; eauto|]. intros (m & H1 & H2). congruence.
  - rewrite Z.eqb_eq. split; [intros ->; eauto|]. intros (m & H1 & H2). congruence.
  - apply float_eq_meaning.
  - apply float_eq_meaning.
  - rewrite Z.eqb_eq. split; [intros ->; eauto|]. intros (m & H1 & H2). congruence.
  - rewrite string_equal_spec. split; [intros ->; eauto|]. intros (m & H1 & H2). congruence.
  - split; [done|]. by intros (m & ? & ?).
Qed.

(** ** What a description admits *)

Definition numeric (v : spa_fgn_value) (z : Z) : Prop := meaning_of v = Some (MNumber z).

Definition admits (info : spa_fgn_property_info) (v : spa_fgn_value) : Prop :=
  v_type v = v_type (pr_default info)
  /\ (v_type v = SPA_TYPE_String -> v_string v <> None)
  /\ (has (pr_flags info) SPA_FGN_PROPERTY_FLAG_CHOICES = true ->
      exists c, In c (choices_of info) /\ same_meaning v (ch_value c))
  /\ (has (pr_flags info) SPA_FGN_PROPERTY_FLAG_RANGE = true ->
      exists lo z hi, numeric (pr_minimum info) lo /\ numeric v z /\ numeric (pr_maximum info) hi /\ lo <= z <= hi).

(** The four ways a property is updated. *)
Definition update_modes : list Z :=
  [SPA_FGN_PROPERTY_FLAG_READONLY; SPA_FGN_PROPERTY_FLAG_RUNTIME; SPA_FGN_PROPERTY_FLAG_CONSTRUCTION;
   SPA_FGN_PROPERTY_FLAG_GRAPH_REBUILD].

Lemma isfinite_not_nan w inf a : isfinite w inf a = true -> float_is_nan w inf a = false.
Proof. unfold isfinite, float_is_nan. intros H. bool_to_prop. apply Z.ltb_ge. lia. Qed.

Lemma order_finite w inf a : 0 < w -> isfinite w inf a = true <-> - inf < float_order w a < inf.
Proof.
  intros Hw. unfold isfinite, float_order. rewrite Z.ltb_lt.
  assert (0 <= float_magnitude w a) by (apply Z.mod_pos_bound, Z.pow_pos_nonneg; lia).
  case_if; lia.
Qed.

(** The numbers between finite bounds. *)
Lemma float_range w inf v lo hi :
  0 < w -> isfinite w inf lo = true -> isfinite w inf hi = true ->
  negb (isfinite w inf v) || float_lt w inf v lo || float_lt w inf hi v = false <->
  exists z, real w inf v = Some (MNumber z) /\ float_order w lo <= z <= float_order w hi.
Proof.
  intros Hw Hlo Hhi. pose proof (proj1 (order_finite w inf lo Hw) Hlo). pose proof (proj1 (order_finite w inf hi Hw) Hhi).
  unfold real, float_lt. rewrite (isfinite_not_nan _ _ _ Hlo), (isfinite_not_nan _ _ _ Hhi). simpl. split.
  - intros E. bool_to_prop. rewrite (isfinite_not_nan _ _ _ H1) in *. simpl in *. bool_to_prop.
    exists (float_order w v). split; [done|lia].
  - destruct (float_is_nan w inf v) eqn:En; [by intros (z & ? & _)|]. intros (z & [= <-] & Hz). simpl.
    rewrite (proj2 (order_finite w inf v Hw)) by lia. simpl.
    rewrite !(proj2 (Z.ltb_ge _ _)) by lia. done.
Qed.

Lemma numbers_between (lo z hi : Z) (ml mv mh : option meaning) :
  ml = Some (MNumber lo) -> mv = Some (MNumber z) -> mh = Some (MNumber hi) ->
  (z <? lo) || (hi <? z) = false <->
  exists lo z hi, ml = Some (MNumber lo) /\ mv = Some (MNumber z) /\ mh = Some (MNumber hi) /\ lo <= z <= hi.
Proof.
  intros -> -> ->. split.
  - intros E. bool_to_prop. exists lo, z, hi. repeat split; lia.
  - intros (l & x & h & [= <-] & [= <-] & [= <-] & H). by rewrite !(proj2 (Z.ltb_ge _ _)) by lia.
Qed.

Lemma floats_between w inf v lo hi :
  0 < w -> isfinite w inf lo = true -> isfinite w inf hi = true ->
  negb (isfinite w inf v) || float_lt w inf v lo || float_lt w inf hi v = false <->
  exists l z h, real w inf lo = Some (MNumber l) /\ real w inf v = Some (MNumber z)
                /\ real w inf hi = Some (MNumber h) /\ l <= z <= h.
Proof.
  intros Hw Hlo Hhi. rewrite float_range by done. unfold real at 2 4.
  rewrite (isfinite_not_nan _ _ _ Hlo), (isfinite_not_nan _ _ _ Hhi). split.
  - intros (z & Hz & H). eauto 8.
  - intros (l & z & h & [= <-] & Hz & [= <-] & H). eauto.
Qed.

Lemma range_check_false (b : bool) : (if b then @Err unit ERANGE else Ret tt) = Ret tt <-> b = false.
Proof. by destruct b. Qed.

Lemma value_in_range_spec info v :
  let t := v_type (pr_default info) in
  range_ordered info = true -> v_type (pr_minimum info) = t -> v_type (pr_maximum info) = t -> v_type v = t ->
  in_range info v = Ret tt <->
  exists lo z hi, numeric (pr_minimum info) lo /\ numeric v z /\ numeric (pr_maximum info) hi /\ lo <= z <= hi.
Proof.
  intros t Hr Hlo Hhi Hv. unfold range_ordered in Hr. fold t in Hr.
  unfold in_range, numeric, meaning_of. rewrite Hlo, Hhi, Hv. clearbody t.
  destruct (Z.eqb_spec t SPA_TYPE_Bool) as [->|_].
  { split; [done|]. by intros (? & ? & ? & ? & _). }
  destruct (t =? SPA_TYPE_Int); [rewrite range_check_false; by apply numbers_between|].
  destruct (t =? SPA_TYPE_Long); [rewrite range_check_false; by apply numbers_between|].
  destruct (t =? SPA_TYPE_Float); [bool_to_prop; rewrite range_check_false; by apply floats_between|].
  destruct (t =? SPA_TYPE_Double); [bool_to_prop; rewrite range_check_false; by apply floats_between|].
  destruct (t =? SPA_TYPE_Id); [rewrite range_check_false; by apply numbers_between|done].
Qed.

(** ** Admitted descriptions *)

Lemma one_update_mode flags :
  let f := Z.land flags SPA_FGN_PROPERTY_UPDATE_MASK in
  f <> 0 -> Z.land f (u32 (f - 1)) = 0 -> In f update_modes.
Proof.
  intros f Hf Hp.
  assert (0 <= f <= 31 /\ Z.land f SPA_FGN_PROPERTY_UPDATE_MASK = f) as [Hr Hm].
  { subst f. split; [|by rewrite <- Z.land_assoc].
    assert (0 <= Z.land flags SPA_FGN_PROPERTY_UPDATE_MASK) by (apply Z.land_nonneg; right; done).
    split; [done|]. replace (Z.land flags SPA_FGN_PROPERTY_UPDATE_MASK)
      with (Z.land (Z.land flags SPA_FGN_PROPERTY_UPDATE_MASK) (Z.ones 5))
      by (rewrite <- Z.land_assoc; f_equal).
    rewrite Z.land_ones by lia. pose proof (Z.mod_pos_bound (Z.land flags SPA_FGN_PROPERTY_UPDATE_MASK) (2 ^ 5)). lia. }
  clearbody f.
  assert (forallb (fun f => negb (Z.land f SPA_FGN_PROPERTY_UPDATE_MASK =? f) || (f =? 0)
                            || negb (Z.land f (u32 (f - 1)) =? 0) || existsb (Z.eqb f) update_modes) (seqZ 0 32) = true)
    as Hall by (by vm_compute).
  pose proof (proj1 (forallb_forall _ _) Hall f ltac:(apply list_elem_of_In, elem_of_seqZ; lia)) as Hc.
  cbv beta in Hc. rewrite Hm, Hp, Z.eqb_refl, (proj2 (Z.eqb_neq f 0) Hf) in Hc. cbn [negb orb] in Hc.
  apply existsb_exists in Hc as (m & Hin & ->%Z.eqb_eq). done.
Qed.

(** No two choices have the same name or stand for the same value. *)
Definition distinct_choices (cs : list spa_fgn_property_choice) : Prop :=
  ForallOrdPairs (fun b c => ch_name c <> ch_name b /\ ~ same_meaning (ch_value c) (ch_value b)) cs.

Lemma choices_loop_distinct type before cs :
  choices_loop type before cs = Ret tt -> distinct_choices before -> distinct_choices (before ++ cs).
Proof.
  revert before. induction cs as [|c cs IH]; intros before H Hb; [by rewrite app_nil_r|].
  simpl in H. case_if; [done|]. destruct (existsb _ before) eqn:Ex; [done|]. replace (before ++ c :: cs) with ((before ++ [c]) ++ cs) by (by rewrite <- app_assoc).
  apply IH; [done|]. unfold distinct_choices in *. clear IH H.
  assert (forall b, In b before -> ch_name c <> ch_name b /\ ~ same_meaning (ch_value c) (ch_value b)) as Hn.
  { intros b Hin. pose proof (existsb_exists (fun b => opt_streq (ch_name c) (ch_name b)
                      || value_equal (ch_value c) (ch_value b)) before) as [_ Hex].
    split; intros Hs; (rewrite Hex in Ex; [done|]); exists b; split; try done.
    - by unfold opt_streq; rewrite Hs, bool_decide_eq_true_2.
    - rewrite (proj2 (value_equal_meaning _ _) Hs). apply orb_true_r. }
  clear Ex. induction Hb as [|x l Hx Hl IH]; simpl; [by repeat constructor|].
  constructor; [|by apply IH; intros b Hin; apply Hn; right].
  apply Forall_app. split; [done|]. constructor; [|done]. apply Hn. by left.
Qed.

Lemma choices_loop_types type before cs :
  choices_loop type before cs = Ret tt ->
  Forall (fun c => v_type (ch_value c) = type /\ missing (ch_name c) = false) cs.
Proof.
  revert before. induction cs as [|c cs IH]; intros before H; [done|]. simpl in H.
  repeat case_if; try done. constructor; [done|]. by eapply IH.
Qed.

(** A range that can be tested. *)
Definition range_ok (info : spa_fgn_property_info) : Prop :=
  has (pr_flags info) SPA_FGN_PROPERTY_FLAG_RANGE = true ->
  has (pr_flags info) SPA_FGN_PROPERTY_FLAG_CHOICES = false /\ range_ordered info = true
  /\ v_type (pr_minimum info) = v_type (pr_default info) /\ v_type (pr_maximum info) = v_type (pr_default info).

Lemma validate_value_admits info v : range_ok info -> validate_value info v = Ret tt <-> admits info v.
Proof.
  intros Hr. unfold validate_value, admits. unfold range_ok in Hr.
  destruct (v_type v =? v_type (pr_default info)) eqn:Et; bool_to_prop; cbn [negb];
    [|split; [done|]; by intros [? _]].
  destruct ((v_type v =? SPA_TYPE_String) && is_none (v_string v)) eqn:Es.
  { split; [done|]. intros (_ & Hs & _). bool_to_prop. destruct (v_string v); [done|]. by destruct (Hs H). }
  assert (v_type v = SPA_TYPE_String -> v_string v <> None) as Hs.
  { intros Ht Hn. rewrite Ht, Hn in Es. done. }
  destruct (has (pr_flags info) SPA_FGN_PROPERTY_FLAG_CHOICES) eqn:Ec.
  - assert (has (pr_flags info) SPA_FGN_PROPERTY_FLAG_RANGE = false) as ->.
    { destruct (has (pr_flags info) SPA_FGN_PROPERTY_FLAG_RANGE); [|done]. by destruct (Hr eq_refl). }
    destruct (existsb _ (choices_of info)) eqn:Ex.
    + split; [|done]. intros _. repeat split; [done|done| |done]. intros _.
      apply existsb_exists in Ex as (c & Hin & He). exists c. split; [done|]. by apply value_equal_meaning.
    + split; [done|]. intros (_ & _ & Hc & _). destruct (Hc eq_refl) as (c & Hin & Hm).
      exfalso. rewrite (proj2 (existsb_exists _ _)) in Ex; [done|]. exists c. by rewrite value_equal_meaning.
  - destruct (has (pr_flags info) SPA_FGN_PROPERTY_FLAG_RANGE); cbn [negb].
    + destruct (Hr eq_refl) as (_ & Ho & Hlo & Hhi). rewrite value_in_range_spec by done. split.
      * intros H. by repeat split.
      * intros (_ & _ & _ & H). by apply H.
    + split; [|done]. by repeat split.
Qed.

Lemma property_info_range info : validate_property_info info = Ret tt -> range_ok info.
Proof.
  unfold validate_property_info, range_ok. intros H Hr. rewrite Hr in H. cbn [andb negb] in H.
  case_if; [done|]. destruct (has (pr_flags info) SPA_FGN_PROPERTY_FLAG_CHOICES);
    rewrite ?orb_true_r in H; [done|]. case_if; [done|]. case_if; [done|]. case_if; [done|]. bool_to_prop.
  by repeat split.
Qed.

(** C20: a property description that is admitted is coherent, and the values it
    then takes are the ones it describes.  Exactly one of the four update modes
    is set; the default value is admitted; the choices have the type of the
    default, names, and are pairwise different in name and in value; and
    [validate_value] accepts a value just when it has the type of the default,
    is not a NULL string, is one of the choices if there are choices, and lies
    between the minimum and the maximum if there is a range - as numbers, so
    that no infinity and no NaN passes a range. *)
Theorem property_info_admission info :
  validate_property_info info = Ret tt ->
  In (Z.land (pr_flags info) SPA_FGN_PROPERTY_UPDATE_MASK) update_modes
  /\ admits info (pr_default info)
  /\ (has (pr_flags info) SPA_FGN_PROPERTY_FLAG_CHOICES = true -> distinct_choices (choices_of info)
      /\ Forall (fun c => v_type (ch_value c) = v_type (pr_default info) /\ missing (ch_name c) = false)
                (choices_of info))
  /\ forall v, validate_value info v = Ret tt <-> admits info v.
Proof.
  intros Hok. pose proof (property_info_range info Hok) as Hr. revert Hok.
  unfold validate_property_info. case_if; [done|]. case_if; [done|]. intros Hok.
  split; [by apply one_update_mode|].
  assert (validate_value info (pr_default info) = Ret tt) as Hd.
  { destruct (has (pr_flags info) SPA_FGN_PROPERTY_FLAG_CHOICES).
    - case_if; [done|]. destruct (choices_loop _ _ _) as [[]| |]; done.
    - repeat case_if; done. }
  split; [by apply validate_value_admits|]. split; [|intros v; by apply validate_value_admits].
  intros Hc. rewrite Hc in Hok. case_if; [done|].
  destruct (choices_loop _ _ _) as [[]| |] eqn:El; [|done|done].
  split; [by eapply (choices_loop_distinct _ [] _ El); constructor|by eapply choices_loop_types].
Qed.

(** A gain between 0 and 1, changed while the graph runs. *)
Definition gain_info : spa_fgn_property_info :=
  mk_property_info 104 1 (Z.lor SPA_FGN_PROPERTY_FLAG_RANGE SPA_FGN_PROPERTY_FLAG_RUNTIME)
    (Some (str "gain")) (Some (str "loop gain")) (Some (str "1"))
    (plain_value SPA_TYPE_Float 0x3f000000) (plain_value SPA_TYPE_Float 0)
    (plain_value SPA_TYPE_Float 0x3f800000) 0 None.

Lemma property_info_admission_witness :
  validate_property_info gain_info = Ret tt /\
  admits gain_info (plain_value SPA_TYPE_Float 0x3e800000) /\
  ~ admits gain_info (plain_value SPA_TYPE_Float 0x7fc00000).
Proof.
  assert (validate_property_info gain_info = Ret tt) as H by (by vm_compute). split; [exact H|].
  destruct (property_info_admission gain_info H) as (_ & _ & _ & Hv). split.
  - apply Hv. by vm_compute.
  - intros Hn. apply Hv in Hn. by vm_compute in Hn.
Defined.
