(* ===== verification/RunControl.v ===== *)
(** * Run control and reset control messages

    Models [src/pipewire/run-control.c]: the tokened requests and statuses that
    a controller and the owner of a processing node exchange through
    [SPA_PARAM_Props].  A message is a [Props] object whose [params] property
    is a struct of alternating keys and values.  The functions are built from
    the pod builder, the iterators and the parser of the other files. *)
From S2P Require Import Prelude Bytes CString PodBody PodBuilder PodParser PodIter.
From Stdlib Require Import String.
#[local] Open Scope Z_scope.

Definition SPA_TYPE_OBJECT_Props : Z := 262146.
Definition SPA_PARAM_Props : Z := 2.
Definition SPA_PROP_params : Z := 524289.

Definition PW_AO_RUN_CONTROL_VERSION : Z := 1.
Definition PW_AO_RUN_CONTROL_KEY_VERSION := str "pipewireao.run-control.version".
Definition PW_AO_RUN_CONTROL_KEY_REQUEST_TOKEN := str "pipewireao.run-control.request-token".
Definition PW_AO_RUN_CONTROL_KEY_REQUESTED_STATE := str "pipewireao.run-control.requested-state".
Definition PW_AO_RUN_CONTROL_KEY_COMPLETED_TOKEN := str "pipewireao.run-control.completed-token".
Definition PW_AO_RUN_CONTROL_KEY_RESULT := str "pipewireao.run-control.result".
Definition PW_AO_RUN_CONTROL_KEY_ACTUAL_STATE := str "pipewireao.run-control.actual-state".

Definition PW_AO_RESET_CONTROL_VERSION : Z := 1.
Definition PW_AO_RESET_CONTROL_KEY_VERSION := str "pipewireao.reset-control.version".
Definition PW_AO_RESET_CONTROL_KEY_REQUEST_TOKEN := str "pipewireao.reset-control.request-token".
Definition PW_AO_RESET_CONTROL_KEY_COMPLETED_TOKEN := str "pipewireao.reset-control.completed-token".
Definition PW_AO_RESET_CONTROL_KEY_RESULT := str "pipewireao.reset-control.result".

(** [enum pw_ao_run_control_state]. *)
Definition PW_AO_RUN_CONTROL_STATE_UNKNOWN : Z := 0.
Definition PW_AO_RUN_CONTROL_STATE_STOPPED : Z := 1.
Definition PW_AO_RUN_CONTROL_STATE_RUNNING : Z := 2.

Definition state_from_string (value : list byte) : option Z :=
  if spa_streq value (str "stopped") then Some PW_AO_RUN_CONTROL_STATE_STOPPED
  else if spa_streq value (str "running") then Some PW_AO_RUN_CONTROL_STATE_RUNNING
  else if spa_streq value (str "unknown") then Some PW_AO_RUN_CONTROL_STATE_UNKNOWN
  else None.

Definition pw_ao_run_control_state_as_string (state : Z) : list byte :=
  if state =? PW_AO_RUN_CONTROL_STATE_STOPPED then str "stopped"
  else if state =? PW_AO_RUN_CONTROL_STATE_RUNNING then str "running"
  else str "unknown".

(** ** Building *)

Definition begin_props : ST spa_pod_builder Z :=
  let* r := spa_pod_builder_push_object SPA_TYPE_OBJECT_Props SPA_PARAM_Props in
  if r <? 0 then st_ret (- ENOSPC)
  else
    let* r := spa_pod_builder_prop SPA_PROP_params 0 in
    if r <? 0 then st_ret (- ENOSPC)
    else
      let* r := spa_pod_builder_push_struct in
      if r <? 0 then st_ret (- ENOSPC) else st_ret 0.

(** [SPA_POD_String], [SPA_POD_Int] and [SPA_POD_Long] as arguments. *)
Definition pod_string (s : list byte) : add_item := item_value (Arg_s (Some s)).
Definition pod_int (v : Z) : add_item := item_value (Arg_i v).
Definition pod_long (v : Z) : add_item := item_value (Arg_l v).

(** The tail the four functions share; NULL is [None]. *)
Definition build_values (values : list add_item) : ST spa_pod_builder (option Z) :=
  let* r := begin_props in
  if r <? 0 then st_ret None
  else
    spa_pod_builder_add values ;;;
    spa_pod_builder_pop ;;;
    spa_pod_builder_pop.

Definition pw_ao_run_control_build_request (token requested_state : Z)
  : ST spa_pod_builder (option Z) :=
  if (token <=? 0) || (negb (requested_state =? PW_AO_RUN_CONTROL_STATE_STOPPED) &&
                       negb (requested_state =? PW_AO_RUN_CONTROL_STATE_RUNNING))
  then st_ret None
  else build_values
    [ pod_string PW_AO_RUN_CONTROL_KEY_VERSION; pod_int PW_AO_RUN_CONTROL_VERSION;
      pod_string PW_AO_RUN_CONTROL_KEY_REQUEST_TOKEN; pod_long token;
      pod_string PW_AO_RUN_CONTROL_KEY_REQUESTED_STATE;
      pod_string (pw_ao_run_control_state_as_string requested_state) ].

Definition pw_ao_run_control_build_status (completed_token result actual_state : Z)
  : ST spa_pod_builder (option Z) :=
  if (completed_token <? 0) || (PW_AO_RUN_CONTROL_STATE_RUNNING <? actual_state)
  then st_ret None
  else build_values
    [ pod_string PW_AO_RUN_CONTROL_KEY_VERSION; pod_int PW_AO_RUN_CONTROL_VERSION;
      pod_string PW_AO_RUN_CONTROL_KEY_COMPLETED_TOKEN; pod_long completed_token;
      pod_string PW_AO_RUN_CONTROL_KEY_RESULT; pod_int result;
      pod_string PW_AO_RUN_CONTROL_KEY_ACTUAL_STATE;
      pod_string (pw_ao_run_control_state_as_string actual_state) ].

Definition pw_ao_reset_control_build_request (token : Z) : ST spa_pod_builder (option Z) :=
  if token <=? 0 then st_ret None
  else build_values
    [ pod_string PW_AO_RESET_CONTROL_KEY_VERSION; pod_int PW_AO_RESET_CONTROL_VERSION;
      pod_string PW_AO_RESET_CONTROL_KEY_REQUEST_TOKEN; pod_long token ].

Definition pw_ao_reset_control_build_status (completed_token result : Z)
  : ST spa_pod_builder (option Z) :=
  if completed_token <? 0 then st_ret None
  else build_values
    [ pod_string PW_AO_RESET_CONTROL_KEY_VERSION; pod_int PW_AO_RESET_CONTROL_VERSION;
      pod_string PW_AO_RESET_CONTROL_KEY_COMPLETED_TOKEN; pod_long completed_token;
      pod_string PW_AO_RESET_CONTROL_KEY_RESULT; pod_int result ].

(** ** Parsing *)

(** The caller's structure the results go to. *)
Record rc_out : Type := mk_out { o_version : Z; o_token : Z; o_result : Z; o_state : Z }.

(** The local variables of the loop. *)
Record rc_seen : Type := mk_seen {
  have_version : bool;
  have_token : bool;
  have_result : bool;
  have_state : bool;
  fields : Z }.

(** What a field leads to: the function returns, or goes on. *)
Inductive verdict : Type :=
| Return (code : Z) (out : rc_out)
| Continue (seen : rc_seen) (out : rc_out).

(** [if (have || get(value) < 0) return -EINVAL; store] *)
Definition take_value {A} (have : bool) (get : outcome A) (out : rc_out)
    (k : A -> outcome verdict) : outcome verdict :=
  if have then Ret (Return (- EINVAL) out)
  else match get with
       | Fault => Fault
       | Err _ => Ret (Return (- EINVAL) out)
       | Ret v => k v
       end.

(** One round of the loop of [parse_values] after the key and the pointer to
    the value are read. *)
Definition parse_field (status : bool) (m : mem) (key : list byte) (value : Z)
    (seen : rc_seen) (out : rc_out) : outcome verdict :=
  let '(mk_seen hv ht hr hs n) := seen in
  let '(mk_out version token result state) := out in
  let n := u32 (n + 1) in
  if spa_streq key PW_AO_RUN_CONTROL_KEY_VERSION then
    take_value hv (spa_pod_get_int m value) out (fun parsed =>
      if parsed <? 0 then Ret (Return (- EINVAL) out)
      else Ret (Continue (mk_seen true ht hr hs n) (mk_out (u32 parsed) token result state)))
  else if spa_streq key (if status then PW_AO_RUN_CONTROL_KEY_COMPLETED_TOKEN
                         else PW_AO_RUN_CONTROL_KEY_REQUEST_TOKEN) then
    take_value ht (spa_pod_get_long m value) out (fun parsed =>
      Ret (Continue (mk_seen hv true hr hs n) (mk_out version parsed result state)))
  else if status && spa_streq key PW_AO_RUN_CONTROL_KEY_RESULT then
    take_value hr (spa_pod_get_int m value) out (fun parsed =>
      Ret (Continue (mk_seen hv ht true hs n) (mk_out version token parsed state)))
  else if spa_streq key (if status then PW_AO_RUN_CONTROL_KEY_ACTUAL_STATE
                         else PW_AO_RUN_CONTROL_KEY_REQUESTED_STATE) then
    take_value hs (let! p := spa_pod_get_string m value in load_cstr m p) out (fun parsed =>
      match state_from_string parsed with
      | None => Ret (Return (- EINVAL) out)
      | Some s => Ret (Continue (mk_seen hv ht hr true n) (mk_out version token result s))
      end)
  else Ret (Return (if n =? 1 then - ENOENT else - EINVAL) out).

(** The checks behind the loop. *)
Definition parse_finish (status : bool) (seen : rc_seen) (out : rc_out) : Z :=
  if negb (have_version seen) || negb (have_token seen) || negb (have_state seen)
     || (status && negb (have_result seen)) || negb (fields seen =? (if status then 4 else 3))
  then - EINVAL
  else if negb (o_version out =? PW_AO_RUN_CONTROL_VERSION) then - EPROTONOSUPPORT
  else if o_token out <? (if status then 0 else 1) then - EINVAL
  else if negb status && (o_state out =? PW_AO_RUN_CONTROL_STATE_UNKNOWN) then - EINVAL
  else 0.

(** The same for [parse_reset_values]. *)
Definition parse_reset_field (status : bool) (m : mem) (key : list byte) (value : Z)
    (seen : rc_seen) (out : rc_out) : outcome verdict :=
  let '(mk_seen hv ht hr hs n) := seen in
  let '(mk_out version token result state) := out in
  let n := u32 (n + 1) in
  if spa_streq key PW_AO_RESET_CONTROL_KEY_VERSION then
    take_value hv (spa_pod_get_int m value) out (fun parsed =>
      if parsed <? 0 then Ret (Return (- EINVAL) out)
      else Ret (Continue (mk_seen true ht hr hs n) (mk_out (u32 parsed) token result state)))
  else if spa_streq key (if status then PW_AO_RESET_CONTROL_KEY_COMPLETED_TOKEN
                         else PW_AO_RESET_CONTROL_KEY_REQUEST_TOKEN) then
    take_value ht (spa_pod_get_long m value) out (fun parsed =>
      Ret (Continue (mk_seen hv true hr hs n) (mk_out version parsed result state)))
  else if status && spa_streq key PW_AO_RESET_CONTROL_KEY_RESULT then
    take_value hr (spa_pod_get_int m value) out (fun parsed =>
      Ret (Continue (mk_seen hv ht true hs n) (mk_out version token parsed state)))
  else Ret (Return (if n =? 1 then - ENOENT else - EINVAL) out).

Definition parse_reset_finish (status : bool) (seen : rc_seen) (out : rc_out) : Z :=
  if negb (have_version seen) || negb (have_token seen) || (status && negb (have_result seen))
     || negb (fields seen =? (if status then 3 else 2))
  then - EINVAL
  else if negb (o_version out =? PW_AO_RESET_CONTROL_VERSION) then - EPROTONOSUPPORT
  else if o_token out <? (if status then 0 else 1) then - EINVAL
  else 0.

Section Parse.
Context (field : mem -> list byte -> Z -> rc_seen -> rc_out -> outcome verdict)
        (finish : rc_seen -> rc_out -> Z).

(** The loop both parsers have.  Every round reads at least 16 bytes, so the
    size of the struct is enough fuel; running out is a [Fault]. *)
Fixpoint parse_loop (fuel : nat) (frame : spa_pod_frame) (p : spa_pod_parser)
    (seen : rc_seen) (out : rc_out) : outcome (Z * rc_out) :=
  match fuel with
  | O => Fault
  | S fuel =>
      match spa_pod_parser_get_string p with
      | (Fault, _) => Fault
      | (Err _, p) =>
          if p_offset p =? frame_offset frame + SPA_POD_SIZE (frame_pod frame)
          then Ret (finish seen out, out) else Ret (- EINVAL, out)
      | (Ret key, p) =>
          match spa_pod_parser_get_pod p with
          | (Fault, _) => Fault
          | (Err _, _) => Ret (- EINVAL, out)
          | (Ret value, p) =>
              let! k := load_cstr (p_mem p) key in
              let! v := field (p_mem p) k value seen out in
              match v with
              | Return code out => Ret (code, out)
              | Continue seen out => parse_loop fuel frame p seen out
              end
          end
      end
  end.

(** [parse_values] and [parse_reset_values]: the code and the structure. *)
Definition parse_message (m : mem) (props : option Z) (out : rc_out) : outcome (Z * rc_out) :=
  match props with
  | None => Ret (- EINVAL, out)
  | Some props =>
      let! ok := spa_pod_is_object_type m props SPA_TYPE_OBJECT_Props in
      if negb ok then Ret (- EINVAL, out) else
      let! id := load_u32 m (props + 12) in
      if negb (id =? SPA_PARAM_Props) then Ret (- EINVAL, out) else
      let! params := spa_pod_find_prop m props None SPA_PROP_params in
      match params with
      | None => Ret (- EINVAL, out)
      | Some params =>
          let! value := load_pod m (params + 8) in
          if negb (spa_pod_is_struct value) then Ret (- EINVAL, out) else
          let! parser := spa_pod_parser_pod m (params + 8) in
          match spa_pod_parser_push_struct parser with
          | (Fault, _) => Fault
          | (Err _, _) => Ret (- EINVAL, out)
          | (Ret _, p) =>
              match p_frames p with
              | [] => Fault
              | frame :: _ =>
                  parse_loop (S (Z.to_nat (p_size p))) frame p
                             (mk_seen false false false false 0) out
              end
          end
      end
  end.
End Parse.

Definition parse_values (status : bool) : mem -> option Z -> rc_out -> outcome (Z * rc_out) :=
  parse_message (parse_field status) (parse_finish status).
Definition parse_reset_values (status : bool) : mem -> option Z -> rc_out -> outcome (Z * rc_out) :=
  parse_message (parse_reset_field status) (parse_reset_finish status).

(** The caller's [request] is not NULL; [result] is the local [unused]. *)
Definition pw_ao_run_control_parse_request := parse_values false.
Definition pw_ao_run_control_parse_status := parse_values true.
Definition pw_ao_reset_control_parse_request := parse_reset_values false.
Definition pw_ao_reset_control_parse_status := parse_reset_values true.
