(* ===== verification/RunControlProofs.v ===== *)
(** * Messages survive the wire, and hostile ones do no harm

    A message that a builder function of [run-control.c] wrote is parsed back
    to the values it was built from.  For a message of any origin the parsers
    stay inside the memory they are given, end, and accept only complete and
    valid messages; on well-formed field lists they accept exactly those with
    every required field once and no other. *)
From S2P Require Import Prelude Bytes CString PodBody PodBuilder PodSpec PodParser PodSafety PodRoundTrip PodLookup.
From S2P Require Import PodIter PodIterProofs RunControl.

(** ** What is on the wire *)

Definition values_enc (l : list scalar) : list byte := concat (map (fun s => item_enc (Scalar s)) l).
Definition message (l : list scalar) : pod_val :=
  Object SPA_TYPE_OBJECT_Props SPA_PARAM_Props [(SPA_PROP_params, 0, Struct (map Scalar l))].

(** An argument of [spa_pod_builder_add] and the value it stands for. *)
Definition item_for (it : add_item) (s : scalar) : Prop :=
  exists a, it = item_value a /\ SPA_POD_BUILDER_COLLECT a = build_scalar s.

Lemma item_for_string s : item_for (pod_string s) (SString s).
Proof. by eexists. Qed.
Lemma item_for_int v : item_for (pod_int v) (SInt v).
Proof. by eexists. Qed.
Lemma item_for_long v : item_for (pod_long v) (SLong v).
Proof. by eexists. Qed.
#[local] Hint Resolve item_for_string item_for_int item_for_long : core.

Lemma values_enc_align l : zlen (values_enc l) mod 8 = 0.
Proof.
  induction l as [|s l IH]; [done|]. unfold values_enc. cbn [map concat]. rewrite zlen_app.
  apply mod8_add; [apply item_enc_align|exact IH].
Qed.

Lemma addv_values items vals b :
  Forall2 item_for items vals -> Forall scalar_ok vals -> plain b -> fits b (zlen (values_enc vals)) ->
  addv_loop SPA_TYPE_Struct items b = (Ret 0, append_bytes (values_enc vals) b).
Proof.
  intros F. revert b. induction F as [|it s items vals (a & -> & Ea) _ IH]; intros b Hok Hp Hf.
  - unfold values_enc. cbn [addv_loop map concat]. by rewrite append_bytes_nil by apply Hp.
  - apply Forall_cons_1 in Hok as [Hs Hok]. unfold values_enc in *. cbn [map concat] in *.
    unfold fits in Hf. rewrite zlen_app in Hf. unfold item_enc at 1 in Hf. rewrite enc_padded_zlen in Hf.
    cbn [pod_body pod_val_type] in Hf.
    pose proof (zlen_nonneg (concat (map (fun s => item_enc (Scalar s)) vals))).
    pose proof (zlen_nonneg (scalar_body s)). pose proof (pad8_bounds (zlen (scalar_body s))).
    cbn [addv_loop item_value item_flags item_key item_type item_choice item_values].
    cbn [Z.eqb Pos.eqb SPA_TYPE_Struct SPA_TYPE_Object SPA_TYPE_Sequence andb].
    unfold st_bind, st_ret. cbn [collect_values]. unfold st_bind, st_ret.
    rewrite Ea, build_scalar_plain by (done || unfold fits; lia).
    rewrite IH; [|done| |].
    + rewrite append_bytes_app; [done|apply Hp|unfold fits; rewrite enc_padded_zlen; lia].
    + apply plain_append; [done|unfold fits; rewrite enc_padded_zlen; lia|].
      apply (item_enc_align (Scalar s)).
    + unfold fits. rewrite append_bytes_size; [|apply Hp|unfold fits; rewrite enc_padded_zlen; lia].
      cbn [append_bytes b_offset]. rewrite enc_padded_zlen. lia.
Qed.

(** ** Building a message *)

Lemma message_enc l :
  pod_enc (message l) =
    enc_padded SPA_TYPE_Object
      ((le32 SPA_TYPE_OBJECT_Props ++ le32 SPA_PARAM_Props) ++
       (le32 SPA_PROP_params ++ le32 0) ++ enc_padded SPA_TYPE_Struct (values_enc l)).
Proof.
  unfold pod_enc, message. cbn [pod_val_type pod_body map concat]. rewrite app_nil_r, map_map, <- !app_assoc. done.
Qed.

Lemma struct_body l : pod_body (Struct (map Scalar l)) = values_enc l.
Proof. cbn [pod_body]. by rewrite map_map. Qed.
Lemma message_body_size l : zlen (pod_body (message l)) = 24 + zlen (values_enc l).
Proof.
  unfold message. rewrite object_size. cbn [map concat keyed_enc]. rewrite struct_body, app_nil_r.
  unfold enc_keyed. autorewrite with zlen. rewrite pad8_aligned by apply values_enc_align. lia.
Qed.

(** The struct of values: what [push_struct], [add] and the first [pop] do. *)
Lemma struct_values items vals b :
  Forall2 item_for items vals -> Forall scalar_ok vals -> plain b ->
  fits b (zlen (enc_padded SPA_TYPE_Struct (values_enc vals))) ->
  exists b3, spa_pod_builder_push_struct b = (Ret 0, b3) /\
    exists b4, spa_pod_builder_add items b3 = (Ret 0, b4) /\
      spa_pod_builder_pop b4 =
        (Ret (Some (b_offset b)), append_bytes (enc_padded SPA_TYPE_Struct (values_enc vals)) b).
Proof.
  intros F Hok Hp Hf. pose proof Hp as (Hb & Hfl & Hal). pose proof Hb as (Ho & Hsz & _).
  rewrite enc_padded_zlen in Hf. unfold fits in Hf. pose proof (zlen_nonneg (values_enc vals)).
  pose proof (pad8_bounds (zlen (values_enc vals))). set (pod := mk_pod 0 SPA_TYPE_Struct).
  assert (fits b (zlen (enc_pod pod))) as Hf1 by (unfold fits; rewrite zlen_enc_pod; lia).
  exists (opened pod (enc_pod pod) b). split; [by apply push_container_fits|].
  exists (append_bytes (values_enc vals) (opened pod (enc_pod pod) b)). split.
  - unfold spa_pod_builder_add, spa_pod_builder_addv, st_bind, st_get. apply addv_values; try done.
    + split; [by apply opened_ok|]. split; [exact Hfl|]. cbn [opened spa_pod_builder_push append_bytes b_offset].
      rewrite zlen_enc_pod. by apply mod8_add.
    + unfold fits. cbn [opened spa_pod_builder_push append_bytes b_offset b_data].
      change (b_size _) with (b_size (append_bytes (enc_pod pod) b)).
      rewrite append_bytes_size, zlen_enc_pod by done. lia.
  - rewrite append_opened; [|done|unfold fits; rewrite zlen_enc_pod; lia|done|cbn [pod pod_size]; lia].
    change (b_flags (opened pod (enc_pod pod) b)) with (b_flags b). rewrite Hfl.
    pose proof (pop_in_frame pod pod [] (values_enc vals) 0 b) as Hpop. rewrite app_nil_r in Hpop.
    apply Hpop; [done|done|done|]. by rewrite zlen_nil, Z.add_0_l.
Qed.

Lemma build_values_spec items vals b :
  Forall2 item_for items vals -> Forall scalar_ok vals -> plain b -> fits b (zlen (pod_enc (message vals))) ->
  build_values items b = (Ret (Some (b_offset b)), append_bytes (pod_enc (message vals)) b).
Proof.
  intros F Hok Hp Hf. pose proof Hp as (Hb & Hfl & Hal). pose proof Hb as (Ho & Hsz & _).
  rewrite message_enc in *. unfold fits in Hf. set (st := enc_padded SPA_TYPE_Struct (values_enc vals)) in *.
  set (ohdr := le32 SPA_TYPE_OBJECT_Props ++ le32 SPA_PARAM_Props) in *.
  set (phdr := le32 SPA_PROP_params ++ le32 0) in *. set (opod := mk_pod 8 SPA_TYPE_Object).
  assert (zlen ohdr = 8) as Lo by (unfold ohdr; by autorewrite with zlen).
  assert (zlen phdr = 8) as Lp by (unfold phdr; by autorewrite with zlen).
  autorewrite with zlen in Hf. rewrite Lo, Lp in Hf. pose proof (zlen_nonneg st).
  pose proof (pad8_bounds (8 + (8 + zlen st))). set (b1 := opened opod (enc_pod opod ++ ohdr) b).
  assert (builder_ok b1) as Hb1 by (apply opened_ok; [done|unfold fits; zlia|done]).
  assert (b_size b1 = b_size b) as Hs1 by (apply append_bytes_size; [done|unfold fits; zlia]).
  assert (b_offset b1 = b_offset b + 16) as Ho1 by (unfold b1; cbn; zlia).
  assert (plain b1) as Hp1 by (split; [done|]; split; [exact Hfl|rewrite Ho1; by apply mod8_add]).
  assert (fits b1 (zlen phdr)) as Hf1 by (unfold fits; lia).
  destruct (struct_values items vals (append_bytes phdr b1) F Hok) as (b3 & E3 & b4 & E4 & E5).
  { apply plain_append; [done|done|by rewrite Lp]. }
  { fold st. unfold fits. rewrite append_bytes_size, append_bytes_offset by (done || lia). lia. }
  unfold build_values, begin_props, st_bind, spa_pod_builder_push_object.
  fold opod ohdr. rewrite push_container_fits by (done || (unfold fits; zlia)). fold b1. cbn [Z.ltb Z.compare].
  unfold spa_pod_builder_prop. fold phdr.
  pose proof (raw_fits (Some phdr) phdr b1 Hb1 Hf1 ltac:(exists []; by rewrite app_nil_r)) as Er.
  rewrite Lp in Er. rewrite Er. cbn [Z.ltb Z.compare]. rewrite E3. cbn [Z.ltb Z.compare]. unfold st_ret.
  cbn [Z.ltb Z.compare]. rewrite E4, E5. fold st.
  rewrite append_bytes_app by (lia || (unfold fits; lia)). unfold b1.
  rewrite append_opened; [|done|unfold fits; zlia|done|cbn [opod pod_size]; zlia].
  change (b_flags (opened opod (enc_pod opod ++ ohdr) b)) with (b_flags b). rewrite Hfl.
  rewrite pop_in_frame; [|done|done|by rewrite Lo|unfold fits; autorewrite with zlen; by rewrite Lo, Lp]. done.
Qed.

(** ** What the parsers do with a list of fields *)

(** A key and the value that follows it. *)
Definition field : Type := list byte * scalar.
Definition wire (fs : list field) : list scalar := concat (map (fun '(k, v) => [SString k; v]) fs).

(** The keys of a message; the result and the state are not in all of them. *)
Record schema : Type := mk_schema {
  k_version : list byte;
  k_token : list byte;
  k_result : option (list byte);
  k_state : option (list byte) }.

Definition run_schema (status : bool) : schema :=
  if status
  then mk_schema PW_AO_RUN_CONTROL_KEY_VERSION PW_AO_RUN_CONTROL_KEY_COMPLETED_TOKEN
         (Some PW_AO_RUN_CONTROL_KEY_RESULT) (Some PW_AO_RUN_CONTROL_KEY_ACTUAL_STATE)
  else mk_schema PW_AO_RUN_CONTROL_KEY_VERSION PW_AO_RUN_CONTROL_KEY_REQUEST_TOKEN
         None (Some PW_AO_RUN_CONTROL_KEY_REQUESTED_STATE).
Definition reset_schema (status : bool) : schema :=
  if status
  then mk_schema PW_AO_RESET_CONTROL_KEY_VERSION PW_AO_RESET_CONTROL_KEY_COMPLETED_TOKEN
         (Some PW_AO_RESET_CONTROL_KEY_RESULT) None
  else mk_schema PW_AO_RESET_CONTROL_KEY_VERSION PW_AO_RESET_CONTROL_KEY_REQUEST_TOKEN None None.

(** Take one field: the effect of a round of the loop on an encoded field. *)
Definition absorb (sch : schema) (kv : field) (seen : rc_seen) (out : rc_out) : verdict :=
  let '(key, v) := kv in
  let '(mk_seen hv ht hr hs n) := seen in
  let '(mk_out version token result state) := out in
  let n := u32 (n + 1) in
  let bad := Return (- EINVAL) out in
  if bool_decide (key = k_version sch) then
    match hv, v with
    | false, SInt z => if z <? 0 then bad
                       else Continue (mk_seen true ht hr hs n) (mk_out (u32 z) token result state)
    | _, _ => bad
    end
  else if bool_decide (key = k_token sch) then
    match ht, v with
    | false, SLong z => Continue (mk_seen hv true hr hs n) (mk_out version z result state)
    | _, _ => bad
    end
  else if bool_decide (Some key = k_result sch) then
    match hr, v with
    | false, SInt z => Continue (mk_seen hv ht true hs n) (mk_out version token z state)
    | _, _ => bad
    end
  else if bool_decide (Some key = k_state sch) then
    match hs, v with
    | false, SString s =>
        match state_from_string s with
        | Some st => Continue (mk_seen hv ht hr true n) (mk_out version token result st)
        | None => bad
        end
    | _, _ => bad
    end
  else Return (if n =? 1 then - ENOENT else - EINVAL) out.

Fixpoint absorb_all (sch : schema) (finish : rc_seen -> rc_out -> Z) (fs : list field)
    (seen : rc_seen) (out : rc_out) : Z * rc_out :=
  match fs with
  | [] => (finish seen out, out)
  | kv :: fs =>
      match absorb sch kv seen out with
      | Return code out => (code, out)
      | Continue seen out => absorb_all sch finish fs seen out
      end
  end.

(** A field whose encoding the parser can read. *)
Definition field_ok (kv : field) : Prop :=
  no_nul kv.1 /\ zlen kv.1 + 1 < 2 ^ 20 /\ scalar_rt kv.2 /\ zlen (scalar_body kv.2) < 2 ^ 20.

Section Value.
Variables (m : mem) (value : Z) (v : scalar).
Hypothesis here : holds m value (item_enc (Scalar v)).
Hypothesis rt : scalar_rt v.
Hypothesis small : zlen (scalar_body v) < 2 ^ 20.

Lemma value_pod : load_pod m value = Ret (mk_pod (zlen (scalar_body v)) (scalar_type v)).
Proof.
  pose proof (zlen_nonneg (scalar_body v)). apply holds_pod; [unfold is_u32; cbn [pod_size]; lia| |].
  - apply scalar_type_u32.
  - unfold item_enc, enc_padded in here. by apply holds_app_l in here.
Qed.
Lemma value_body : holds m (value + 8) (scalar_body v).
Proof. by apply (enc_padded_body m value (scalar_type v)). Qed.

Lemma check_false t n : scalar_type v <> t -> SPA_POD_CHECK (mk_pod (zlen (scalar_body v)) (scalar_type v)) t n = false.
Proof.
  intros. unfold SPA_POD_CHECK, SPA_POD_CHECK_TYPE. cbn [pod_type].
  by rewrite (proj2 (Z.eqb_neq _ _)), andb_false_r.
Qed.

Lemma value_int : spa_pod_get_int m value = match v with SInt z => Ret z | _ => Err EINVAL end.
Proof.
  unfold spa_pod_get_int, with_pod. rewrite value_pod. cbn [obind]. pose proof value_body as Hb.
  pose proof check_false as F. unfold spa_pod_body_get_int, spa_pod_is_int. destruct v; try by rewrite F.
  cbn [scalar_type scalar_body] in *. rewrite check_true by zlia. by apply holds_i32'.
Qed.
Lemma value_long : spa_pod_get_long m value = match v with SLong z => Ret z | _ => Err EINVAL end.
Proof.
  unfold spa_pod_get_long, with_pod. rewrite value_pod. cbn [obind]. pose proof value_body as Hb.
  pose proof check_false as F. unfold spa_pod_body_get_long, spa_pod_is_long. destruct v; try by rewrite F.
  cbn [scalar_type scalar_body] in *. rewrite check_true by zlia. by apply holds_i64'.
Qed.
Lemma value_string :
  (let! p := spa_pod_get_string m value in load_cstr m p) =
  match v with SString s => Ret s | _ => Err EINVAL end.
Proof.
  unfold spa_pod_get_string, with_pod. rewrite value_pod. cbn [obind]. pose proof value_body as Hb.
  pose proof check_false as F. destruct v; try (unfold spa_pod_body_get_string, spa_pod_is_string; by rewrite F).
  cbn [scalar_type scalar_body] in *. rewrite get_string_holds by (done || zlia). cbn [obind].
  by apply holds_cstr.
Qed.

Lemma some_key (key k : list byte) : bool_decide (Some key = Some k) = bool_decide (key = k).
Proof. apply bool_decide_ext. split; congruence. Qed.
Lemma no_key (key : list byte) : bool_decide (Some key = None) = false.
Proof. by apply bool_decide_eq_false_2. Qed.

Lemma parse_field_absorb status key seen out :
  parse_field status m key value seen out = Ret (absorb (run_schema status) (key, v) seen out).
Proof.
  unfold parse_field, absorb, take_value, spa_streq. rewrite value_int, value_long, value_string.
  destruct seen as [hv ht hr hs n], out as [? ? ? ?], status;
    cbn [run_schema k_version k_token k_result k_state andb]; rewrite ?some_key, ?no_key;
    repeat case_bool_decide; try (destruct hv, v; by repeat case_match); try (destruct ht, v; by repeat case_match);
    try (destruct hr, v; by repeat case_match); destruct hs, v; by repeat case_match.
Qed.
Lemma parse_reset_field_absorb status key seen out :
  parse_reset_field status m key value seen out = Ret (absorb (reset_schema status) (key, v) seen out).
Proof.
  unfold parse_reset_field, absorb, take_value, spa_streq. rewrite value_int, value_long.
  destruct seen as [hv ht hr hs n], out as [? ? ? ?], status;
    cbn [reset_schema k_version k_token k_result k_state andb]; rewrite ?some_key, ?no_key;
    repeat case_bool_decide; try (destruct hv, v; by repeat case_match); try (destruct ht, v; by repeat case_match);
    destruct hr, v; by repeat case_match.
Qed.
End Value.

(** ** The loop on encoded fields *)

Lemma get_string_step p s bs :
  at_item p (item_enc (Scalar (SString s)) ++ bs) -> no_nul s -> zlen s + 1 < 2 ^ 20 ->
  spa_pod_parser_get_string p =
    (Ret (p_data p + p_offset p + 8), set_offset (p_offset p + zlen (item_enc (Scalar (SString s)))) p) /\
  load_cstr (p_mem p) (p_data p + p_offset p + 8) = Ret s.
Proof.
  intros H Hs Hl. apply at_item_app in H as [H _]; [|apply item_enc_align]. pose proof H as [Hh Ho _ Hlim Hu].
  apply enc_padded_body in Hh as Hb. cbn [pod_body scalar_body] in Hb. split; [|by apply holds_cstr].
  unfold spa_pod_parser_get_string, parser_get, st_bind, st_get, st_lift, item_enc in *.
  cbn [pod_val_type pod_body scalar_body scalar_type] in *.
  rewrite (current_body_holds p SPA_TYPE_String (s ++ [Byte.x00])) by done. rewrite get_string_holds by done.
  unfold st_modify, st_ret. rewrite enc_padded_zlen in *.
  change (spa_pod_parser_advance (mk_pod ?n SPA_TYPE_String) p) with (spa_pod_parser_advance (mk_pod n 0) p).
  pose proof (zlen_nonneg (s ++ [Byte.x00])). rewrite advance_holds by lia. by rewrite Z.add_assoc.
Qed.

Lemma get_pod_step p v bs :
  at_item p (item_enc (Scalar v) ++ bs) ->
  spa_pod_parser_get_pod p =
    (Ret (p_data p + p_offset p), set_offset (p_offset p + zlen (item_enc (Scalar v))) p).
Proof.
  intros H. apply at_item_app in H as [H _]; [|apply item_enc_align]. pose proof H as [_ Ho _ Hlim Hu].
  unfold spa_pod_parser_get_pod, spa_pod_parser_get_pod_body, st_bind, item_enc in *.
  cbn [pod_val_type pod_body] in *. rewrite (current_body_holds p (scalar_type v) (scalar_body v)) by (done || apply scalar_type_u32).
  unfold st_modify, st_ret. rewrite enc_padded_zlen in *.
  change (spa_pod_parser_advance (mk_pod ?n (scalar_type v)) p) with (spa_pod_parser_advance (mk_pod n 0) p).
  pose proof (zlen_nonneg (scalar_body v)). rewrite advance_holds by lia. rewrite Z.add_assoc.
  f_equal. f_equal. lia.
Qed.

Lemma values_enc_cons v l : values_enc (v :: l) = item_enc (Scalar v) ++ values_enc l.
Proof. done. Qed.

Lemma fields_count fs : zlen fs <= zlen (values_enc (wire fs)).
Proof.
  induction fs as [|[k v] fs IH]; [done|].
  change (wire ((k, v) :: fs)) with (SString k :: v :: wire fs). rewrite !values_enc_cons, !zlen_app.
  destruct (item_enc_align (Scalar (SString k))) as [_ ?], (item_enc_align (Scalar v)) as [_ ?].
  unfold zlen in *. cbn [length]. lia.
Qed.

(** The type and the id of an encoded [Props] object. *)
Lemma props_checks members m off :
  let obj := Object SPA_TYPE_OBJECT_Props SPA_PARAM_Props members in
  zlen (pod_body obj) < 2 ^ 20 -> holds m off (pod_enc obj) ->
  spa_pod_is_object_type m off SPA_TYPE_OBJECT_Props = Ret true /\ load_u32 m (off + 12) = Ret SPA_PARAM_Props.
Proof.
  intros obj L H. pose proof (object_header _ _ _ _ _ L H) as Eh. fold obj in Eh.
  pose proof (object_size SPA_TYPE_OBJECT_Props SPA_PARAM_Props members) as Ls. fold obj in Ls.
  pose proof (zlen_nonneg (concat (map keyed_enc members))).
  pose proof (enc_padded_body _ _ _ _ H) as Hb. unfold obj in Hb. rewrite object_body in Hb. split.
  - unfold spa_pod_is_object_type. rewrite Eh. cbn [obind].
    assert (spa_pod_is_object (mk_pod (zlen (pod_body obj)) SPA_TYPE_Object) = true) as -> by (apply check_true; lia).
    by rewrite (holds_u32' m (off + 8) SPA_TYPE_OBJECT_Props) by (done || by eapply holds_app_l).
  - apply holds_u32'; [done|]. apply holds_app_r, holds_app_l in Hb. rewrite zlen_le32 in Hb.
    by replace (off + 8 + 4) with (off + 12) in Hb by lia.
Qed.

Section Loop.
Context (sch : schema) (fld : mem -> list byte -> Z -> rc_seen -> rc_out -> outcome verdict)
        (finish : rc_seen -> rc_out -> Z).
Hypothesis fld_absorb : forall m value v key seen out,
  holds m value (item_enc (Scalar v)) -> scalar_rt v -> zlen (scalar_body v) < 2 ^ 20 ->
  fld m key value seen out = Ret (absorb sch (key, v) seen out).

Lemma parse_loop_fields fs fuel frame p seen out :
  Forall field_ok fs -> at_item p (values_enc (wire fs)) ->
  p_offset p + zlen (values_enc (wire fs)) = parser_limit p ->
  parser_limit p = frame_offset frame + SPA_POD_SIZE (frame_pod frame) -> (length fs < fuel)%nat ->
  parse_loop fld finish fuel frame p seen out = Ret (absorb_all sch finish fs seen out).
Proof.
  intros F. revert fuel p seen out. induction F as [|[k v] fs (Hk & Lk & Hv & Lv) _ IH];
    intros [|fuel] p seen out H E Hfr Hf; cbn [length] in Hf; try lia; cbn [parse_loop absorb_all].
  - change (zlen (values_enc (wire []))) with 0 in E.
    assert (spa_pod_parser_get_string p = (Err EPIPE, p)) as ->.
    { unfold spa_pod_parser_get_string, parser_get, spa_pod_parser_current_body, spa_pod_parser_get_header, st_bind.
      replace (p_offset p) with (parser_limit p) by lia. by rewrite read_header_limit. }
    by rewrite (proj2 (Z.eqb_eq _ _)) by lia.
  - change (wire ((k, v) :: fs)) with (SString k :: v :: wire fs) in *. rewrite !values_enc_cons in *. cbn [fst snd] in *.
    destruct (get_string_step p k _ H Hk Lk) as [-> Ek].
    apply at_item_app in H as [_ H]; [|apply item_enc_align].
    rewrite (get_pod_step _ v _ H). set (q := set_offset _ p) in *.
    change (p_mem (set_offset _ q)) with (p_mem p). rewrite Ek. cbn [obind].
    apply at_item_app in H as [[Hat _ _ _ _] H]; [|apply item_enc_align].
    rewrite (fld_absorb _ _ v) by done. cbn [obind]. destruct (absorb sch (k, v) seen out); [done|].
    apply IH; [done| |done|lia]. change (parser_limit (set_offset _ q)) with (parser_limit p).
    cbn [set_offset p_offset q]. rewrite !zlen_app in E. lia.
Qed.

(** The struct at [params + 8] is opened and its fields are read to the end. *)
Lemma parse_struct_fields fs m off out :
  Forall field_ok fs -> zlen (values_enc (wire fs)) < 2 ^ 20 ->
  holds m off (enc_padded SPA_TYPE_Struct (values_enc (wire fs))) ->
  match spa_pod_parser_pod m off with
  | Ret parser =>
      match spa_pod_parser_push_struct parser with
      | (Ret _, p) =>
          match p_frames p with
          | frame :: _ =>
              parse_loop fld finish (S (Z.to_nat (p_size p))) frame p (mk_seen false false false false 0) out
          | [] => Fault
          end
      | _ => Fault
      end
  | _ => Fault
  end = Ret (absorb_all sch finish fs (mk_seen false false false false 0) out).
Proof.
  intros F L H. pose proof (zlen_nonneg (values_enc (wire fs))). pose proof (values_enc_align (wire fs)) as Hal.
  set (n := zlen (values_enc (wire fs))) in *. set (pod := mk_pod n SPA_TYPE_Struct).
  assert (load_pod m off = Ret pod) as Ep.
  { apply holds_pod; [unfold is_u32; cbn [pod pod_size]; lia|done|]. by apply holds_app_l in H. }
  unfold spa_pod_parser_pod. rewrite Ep. cbn [obind]. unfold SPA_POD_SIZE. cbn [pod pod_size].
  rewrite wrap_small by lia. set (p := spa_pod_parser_init m off (8 + n)).
  assert (at_item p (enc_padded SPA_TYPE_Struct (values_enc (wire fs)))) as Hat.
  { constructor; [by replace (p_data p + p_offset p) with off by (cbn; lia)|done|done| |].
    - rewrite enc_padded_zlen. fold n. rewrite pad8_aligned by done. cbn. lia.
    - cbn. lia. }
  unfold spa_pod_parser_push_struct, spa_pod_parser_push_struct_body, st_bind.
  rewrite (current_body_holds p SPA_TYPE_Struct (values_enc (wire fs)) Hat) by done. fold n pod.
  assert (spa_pod_is_struct pod = true) as -> by (by apply check_type_true). cbn [negb].
  unfold st_modify, st_ret. cbn [p_frames set_offset spa_pod_parser_push set_frames].
  change (set_offset _ _) with (opened_at m pod off 0).
  destruct (opened_at_item m SPA_TYPE_Struct [] (values_enc (wire fs)) off eq_refl L H) as [Ha El].
  cbn [app] in Ha, El. fold n pod in Ha, El. apply parse_loop_fields; [done|exact Ha|exact El| |].
  - apply (opened_limit m pod off 0). cbn [pod pod_size]. lia.
  - pose proof (fields_count fs). unfold zlen in *. cbn [opened_at p_size pod pod_size]. lia.
Qed.

Lemma parse_message_fields fs m off out :
  Forall field_ok fs -> zlen (pod_body (message (wire fs))) < 2 ^ 20 ->
  holds m off (pod_enc (message (wire fs))) -> off mod 8 = 0 ->
  parse_message fld finish m (Some off) out =
    Ret (absorb_all sch finish fs (mk_seen false false false false 0) out).
Proof.
  intros F L H Ha. unfold message in *. set (members := [(SPA_PROP_params, 0, Struct (map Scalar (wire fs)))]) in *.
  set (obj := Object SPA_TYPE_OBJECT_Props SPA_PARAM_Props members) in *.
  assert (zlen (pod_body obj) = 24 + zlen (values_enc (wire fs))) as Ls by apply message_body_size.
  pose proof (zlen_nonneg (values_enc (wire fs))). destruct (props_checks members m off L H) as [Et Ei].
  pose proof (find_prop_encoded _ _ members m off 0 SPA_PROP_params L H Ha) as Hfind.
  destruct Hfind as (r & Er & Hr);
    [apply Forall_singleton; unfold prop_ok; rewrite struct_body; split_and!; [done..|lia]|lia|].
  unfold parse_message. rewrite Et. cbn [obind negb]. rewrite Ei. cbn [obind].
  rewrite Z.eqb_refl. cbn [negb]. rewrite Er. cbn [obind].
  unfold keyed_enc, enc_keyed in Hr. rewrite struct_body, app_assoc in Hr. apply holds_app_r in Hr.
  autorewrite with zlen in Hr. change (r + (4 + 4)) with (r + 8) in Hr.
  assert (load_pod m (r + 8) = Ret (mk_pod (zlen (values_enc (wire fs))) SPA_TYPE_Struct)) as ->.
  { apply holds_pod; [unfold is_u32; cbn [pod_size]; lia|done|]. by apply holds_app_l in Hr. }
  cbn [obind]. assert (spa_pod_is_struct (mk_pod (zlen (values_enc (wire fs))) SPA_TYPE_Struct) = true) as ->
    by (apply check_type_true; lia). cbn [negb].
  pose proof (parse_struct_fields fs m (r + 8) out F ltac:(lia) Hr) as P.
  destruct (spa_pod_parser_pod m (r + 8)) as [parser| |]; try done. cbn [obind].
  destruct (spa_pod_parser_push_struct parser) as [[] p]; done.
Qed.

End Loop.

(** ** Which lists of fields are accepted *)

(** The fields of a message, in the order the builders write them. *)
Definition opt_field (k : option (list byte)) (v : scalar) : list field :=
  match k with Some k => [(k, v)] | None => [] end.
Definition canon (sch : schema) (msg : rc_out) : list field :=
  [(k_version sch, SInt (o_version msg)); (k_token sch, SLong (o_token msg))] ++
  opt_field (k_result sch) (SInt (o_result msg)) ++
  opt_field (k_state sch) (SString (pw_ao_run_control_state_as_string (o_state msg))).

(** The fields that were taken so far. *)
Definition taken (sch : schema) (seen : rc_seen) (out : rc_out) : list field :=
  (if have_version seen then [(k_version sch, SInt (o_version out))] else []) ++
  (if have_token seen then [(k_token sch, SLong (o_token out))] else []) ++
  (if have_result seen then opt_field (k_result sch) (SInt (o_result out)) else []) ++
  (if have_state seen
   then opt_field (k_state sch) (SString (pw_ao_run_control_state_as_string (o_state out))) else []).

Lemma state_round s st : state_from_string s = Some st -> s = pw_ao_run_control_state_as_string st.
Proof.
  unfold state_from_string, spa_streq.
  repeat case_bool_decide; intros E; by simplify_eq.
Qed.
Lemma state_known s st : state_from_string s = Some st -> 0 <= st <= 2.
Proof. unfold state_from_string. repeat case_match; intros E; by simplify_eq. Qed.
Lemma state_read st : state_from_string (pw_ao_run_control_state_as_string st) <> None.
Proof. unfold pw_ao_run_control_state_as_string. by repeat case_if. Qed.

(** In a list without repeated keys a key names its value. *)
Lemma keys_unique {A B} (l : list (A * B)) k v v' :
  NoDup (map fst l) -> (k, v) ∈ l -> (k, v') ∈ l -> v = v'.
Proof.
  induction l as [|[k1 v1] l IH]; cbn [map fst]; intros ND H1 H2; [by apply not_elem_of_nil in H1|].
  apply NoDup_cons_1_1 in ND as Hn. apply NoDup_cons_1_2 in ND.
  assert (forall w, (k1, w) ∈ l -> False) as Hnot.
  { intros w Hw. apply Hn. apply (list_elem_of_fmap_2 fst) in Hw. exact Hw. }
  rewrite !elem_of_cons in H1, H2. destruct H1 as [H1|H1], H2 as [H2|H2]; simplify_eq;
    [done|by apply Hnot in H2|by apply Hnot in H1|by apply IH].
Qed.

(** A key is among those of [taken]. *)
Ltac taken_key := rewrite !map_app, !elem_of_app; cbn [map fst opt_field]; rewrite !elem_of_cons; tauto.

(** The keys of a schema differ. *)
Record schema_ok (sch : schema) : Prop := {
  version_token : k_version sch <> k_token sch;
  result_new : k_result sch <> Some (k_version sch) /\ k_result sch <> Some (k_token sch);
  state_new : k_state sch <> Some (k_version sch) /\ k_state sch <> Some (k_token sch);
  state_result : forall k, k_state sch = Some k -> k_result sch <> Some k }.

Section Accept.
Context (sch : schema).

Lemma absorb_taken kv seen out seen' out' :
  scalar_rt kv.2 -> absorb sch kv seen out = Continue seen' out' ->
  taken sch seen' out' ≡ₚ kv :: taken sch seen out /\ fields seen' = u32 (fields seen + 1).
Proof.
  destruct kv as [k v], seen as [hv ht hr hs n], out as [ve to re st]. cbn [snd]. intros Hrt.
  unfold absorb, taken. repeat case_bool_decide; subst.
  - destruct hv, v; try done. case_if; [done|]. intros [= <- <-]. bool_to_prop. cbn -[u32].
    rewrite wrap_small by (unfold scalar_rt, is_i32 in Hrt; lia). done.
  - destruct ht, v; try done. intros [= <- <-]. cbn -[u32]. by rewrite Permutation_middle.
  - destruct hr, v; try done. intros [= <- <-]. cbn -[u32].
    match goal with H : Some k = _ |- _ => rewrite <- H end. cbn -[u32].
    by rewrite !app_assoc, Permutation_middle.
  - destruct hs, v as [| | | | | | |str| | | | | |]; try done. destruct (state_from_string str) as [st'|] eqn:E; [|done].
    apply state_round in E as ->. intros [= <- <-]. cbn -[u32].
    match goal with H : Some k = _ |- _ => rewrite <- H end. cbn -[u32].
    by rewrite !app_assoc, Permutation_middle.
  - done.
Qed.

(** The state that was taken is one of the three. *)
Definition known (seen : rc_seen) (out : rc_out) : Prop := have_state seen = true -> 0 <= o_state out <= 2.

Lemma absorb_known kv seen out seen' out' :
  known seen out -> absorb sch kv seen out = Continue seen' out' -> known seen' out'.
Proof.
  unfold known, absorb. destruct kv, seen as [hv ht hr hs n], out as [ve to re st]. cbn [have_state o_state]. intros Hk.
  repeat case_match; intros [= <- <-]; try done. cbn [have_state o_state]. intros _. by eapply state_known.
Qed.

Lemma absorb_returns kv seen out code out' :
  absorb sch kv seen out = Return code out' -> code <> 0.
Proof. unfold absorb. destruct kv, seen, out. repeat case_match; intros [= <- <-]; done. Qed.

Lemma absorb_all_taken finish fs seen out out' :
  Forall (fun kv => scalar_rt kv.2) fs -> known seen out -> absorb_all sch finish fs seen out = (0, out') ->
  exists seen', finish seen' out' = 0 /\ taken sch seen' out' ≡ₚ fs ++ taken sch seen out /\ known seen' out'.
Proof.
  intros F. revert seen out. induction F as [|kv fs Hkv _ IH]; intros seen out Hk E; cbn [absorb_all] in E.
  - injection E as Ef <-. by exists seen.
  - destruct (absorb sch kv seen out) as [code o|seen1 out1] eqn:E1.
    + injection E as -> _. by apply absorb_returns in E1.
    + destruct (IH _ _ (absorb_known _ _ _ _ _ Hk E1) E) as (seen' & Hf & P & Hk'). exists seen'.
      split; [done|]. split; [|done]. rewrite P.
      destruct (absorb_taken _ _ _ _ _ Hkv E1) as [-> _]. by rewrite <- Permutation_middle.
Qed.

Hypothesis distinct : schema_ok sch.

Lemma canon_keys msg : NoDup (map fst (canon sch msg)).
Proof.
  destruct distinct as [H1 [H2 H2'] [H3 H3'] H4]. unfold canon, opt_field. destruct sch as [kv kt [kr|] [ks|]]; cbn in *;
    try specialize (H4 _ eq_refl); rewrite !list.NoDup_cons, !not_elem_of_cons; split_and?;
    (congruence || apply not_elem_of_nil || apply NoDup_nil_2).
Qed.

Lemma absorb_continues kv rest seen out msg :
  0 <= o_version msg -> kv :: rest ++ taken sch seen out ≡ₚ canon sch msg ->
  exists seen' out', absorb sch kv seen out = Continue seen' out'.
Proof.
  intros Hv P. pose proof (canon_keys msg) as ND. rewrite <- P in ND. cbn [map fst] in ND.
  rewrite map_app in ND. apply NoDup_cons_1_1 in ND as Hnew. rewrite elem_of_app in Hnew.
  assert (kv ∈ canon sch msg) as Hin by (rewrite <- P; apply list_elem_of_here). clear P.
  destruct distinct as [H1 [H2 H2'] [H3 H3'] H4], kv as [k v], seen as [hv ht hr hs n], out as [ve to re st]. cbn [fst] in Hnew.
  assert (k ∉ map fst (taken sch (mk_seen hv ht hr hs n) (mk_out ve to re st))) as Hn by tauto. clear Hnew.
  unfold canon, taken, absorb in *. cbn [have_version have_token have_result have_state] in Hn.
  rewrite !elem_of_app, !elem_of_cons in Hin. destruct Hin as [[E|[E|E]]|[E|E]].
  - injection E as -> ->. rewrite bool_decide_eq_true_2 by done. destruct hv; [by destruct Hn; taken_key|].
    case_if; [bool_to_prop; lia|eauto].
  - injection E as -> ->. rewrite bool_decide_eq_false_2, bool_decide_eq_true_2 by done.
    destruct ht; [by destruct Hn; taken_key|eauto].
  - by apply not_elem_of_nil in E.
  - destruct (k_result sch) as [kr|]; cbn in *; [|by apply not_elem_of_nil in E].
    apply list_elem_of_singleton in E as [= -> ->].
    rewrite !bool_decide_eq_false_2, bool_decide_eq_true_2 by congruence.
    destruct hr; [by destruct Hn; taken_key|eauto].
  - destruct (k_state sch) as [ks|]; cbn in *; [|by apply not_elem_of_nil in E].
    apply list_elem_of_singleton in E as [= -> ->]. specialize (H4 _ eq_refl).
    rewrite !bool_decide_eq_false_2, bool_decide_eq_true_2 by congruence.
    destruct hs; [by destruct Hn; taken_key|].
    pose proof (state_read (o_state msg)). by destruct (state_from_string _); [eauto|].
Qed.

Lemma absorb_all_ends finish fs seen out msg :
  0 <= o_version msg -> Forall (fun kv => scalar_rt kv.2) fs -> fs ++ taken sch seen out ≡ₚ canon sch msg ->
  0 <= fields seen -> fields seen + zlen fs < 2 ^ 32 -> known seen out ->
  exists seen' out', absorb_all sch finish fs seen out = (finish seen' out', out') /\
    taken sch seen' out' ≡ₚ canon sch msg /\ fields seen' = fields seen + zlen fs /\ known seen' out'.
Proof.
  intros Hv F. revert seen out. induction F as [|kv fs Hkv _ IH]; intros seen out P Hn Hlt Hk; cbn [absorb_all].
  - exists seen, out. by rewrite zlen_nil, Z.add_0_r.
  - destruct (absorb_continues kv fs seen out msg Hv P) as (seen1 & out1 & E). rewrite E.
    destruct (absorb_taken _ _ _ _ _ Hkv E) as [Et Ef]. change (kv :: fs) with ([kv] ++ fs) in Hlt.
    rewrite zlen_app in Hlt. change (zlen [kv]) with 1 in Hlt. pose proof (zlen_nonneg fs).
    rewrite wrap_small in Ef by lia. destruct (IH seen1 out1) as (seen' & out' & -> & Pt & Ef' & Hk').
    + by rewrite Et, <- Permutation_middle.
    + lia.
    + lia.
    + by eapply absorb_known.
    + exists seen', out'. split; [done|]. split; [done|]. split; [|done].
      change (kv :: fs) with ([kv] ++ fs). rewrite zlen_app. change (zlen [kv]) with 1. lia.
Qed.

(** All required fields were taken. *)
Definition complete (seen : rc_seen) : Prop :=
  have_version seen = true /\ have_token seen = true /\
  (k_result sch <> None -> have_result seen = true) /\ (k_state sch <> None -> have_state seen = true).

Lemma complete_taken seen out : complete seen -> taken sch seen out = canon sch out.
Proof.
  intros (Hv & Ht & Hr & Hs). unfold taken, canon. rewrite Hv, Ht. cbn [app]. f_equal. f_equal. f_equal.
  - destruct (k_result sch); [by rewrite Hr|by destruct (have_result seen)].
  - destruct (k_state sch); [by rewrite Hs|by destruct (have_state seen)].
Qed.
Lemma taken_complete seen out msg : taken sch seen out ≡ₚ canon sch msg -> complete seen.
Proof.
  intros P. apply Permutation_length in P. unfold taken, canon, complete, opt_field in *.
  destruct seen as [[] [] [] [] n], (k_result sch), (k_state sch); cbn in *; done || lia.
Qed.

(** A field list names its values. *)
Lemma canon_inj out msg :
  canon sch out ≡ₚ canon sch msg ->
  o_version out = o_version msg /\ o_token out = o_token msg /\
  (k_result sch <> None -> o_result out = o_result msg) /\
  (k_state sch <> None ->
   pw_ao_run_control_state_as_string (o_state out) = pw_ao_run_control_state_as_string (o_state msg)).
Proof.
  intros P. assert (forall k v v', (k, v) ∈ canon sch out -> (k, v') ∈ canon sch msg -> v = v') as U.
  { intros k v v' H1 H2. rewrite P in H1. apply (keys_unique (canon sch msg) k); [apply canon_keys|done|done]. }
  assert (forall k v, (k, v) ∈ opt_field (Some k) v) as Hopt by (intros; apply list_elem_of_here).
  unfold canon in U. repeat setoid_rewrite elem_of_app in U. split_and!.
  - enough (SInt (o_version out) = SInt (o_version msg)) by congruence.
    apply (U (k_version sch)); left; apply list_elem_of_here.
  - enough (SLong (o_token out) = SLong (o_token msg)) by congruence.
    apply (U (k_token sch)); left; apply list_elem_of_further, list_elem_of_here.
  - intros Hr. enough (SInt (o_result out) = SInt (o_result msg)) by congruence.
    destruct (k_result sch) as [k|]; [|done]. apply (U k); right; left; apply Hopt.
  - intros Hs. enough (SString (pw_ao_run_control_state_as_string (o_state out)) =
                       SString (pw_ao_run_control_state_as_string (o_state msg))) by congruence.
    destruct (k_state sch) as [k|]; [|done]. apply (U k); right; right; apply Hopt.
Qed.
End Accept.

Section Accepts.
Context (sch : schema) (finish : rc_seen -> rc_out -> Z) (valid : rc_out -> Prop).
Hypothesis distinct : schema_ok sch.
Hypothesis finish_ok : forall seen out, known seen out ->
  finish seen out = 0 <-> complete sch seen /\ fields seen = zlen (canon sch out) /\ valid out.
Hypothesis valid_canon : forall out msg,
  (k_state sch <> None -> 0 <= o_state out <= 2) -> canon sch out ≡ₚ canon sch msg -> valid msg -> valid out.
Hypothesis valid_version : forall msg, valid msg -> 0 <= o_version msg.

Definition nothing_seen : rc_seen := mk_seen false false false false 0.

Lemma accepts fs out :
  Forall (fun kv => scalar_rt kv.2) fs -> zlen fs < 2 ^ 32 ->
  let r := absorb_all sch finish fs nothing_seen out in
  (r.1 = 0 -> valid r.2 /\ fs ≡ₚ canon sch r.2) /\
  (forall msg, valid msg -> fs ≡ₚ canon sch msg -> r.1 = 0).
Proof.
  intros F L. cbv zeta. split.
  - destruct (absorb_all sch finish fs nothing_seen out) as [code out'] eqn:E. cbn [fst snd]. intros ->.
    destruct (absorb_all_taken sch finish fs nothing_seen out out' F ltac:(done) E) as (seen' & Hf & P & Hk).
     rewrite app_nil_r in P. apply finish_ok in Hf as (Hc & _ & Hv); [|done]. split; [done|].
    by rewrite <- P, complete_taken.
  - intros msg Hv P. destruct (absorb_all_ends sch distinct finish fs nothing_seen out msg)
      as (seen' & out' & -> & Pt & Ef & Hk); [by apply valid_version|done|by rewrite app_nil_r|done..|]. cbn [fst].
    apply taken_complete in Pt as Hc. rewrite complete_taken in Pt by done. apply finish_ok; [done|].
    split; [done|]. split; [|apply (valid_canon _ msg); [intros; by apply Hk, Hc|done|done]]. rewrite Ef. cbn [nothing_seen fields].
    apply Permutation_length in P, Pt. unfold zlen. rewrite P, Pt. done.
Qed.
End Accepts.

(** ** The four messages *)

Definition run_valid (status : bool) (msg : rc_out) : Prop :=
  o_version msg = PW_AO_RUN_CONTROL_VERSION /\ (if status then 0 else 1) <= o_token msg /\
  (o_state msg = PW_AO_RUN_CONTROL_STATE_STOPPED \/ o_state msg = PW_AO_RUN_CONTROL_STATE_RUNNING \/
   status = true /\ o_state msg = PW_AO_RUN_CONTROL_STATE_UNKNOWN).
Definition reset_valid (status : bool) (msg : rc_out) : Prop :=
  o_version msg = PW_AO_RESET_CONTROL_VERSION /\ (if status then 0 else 1) <= o_token msg.

Lemma run_schema_ok status : schema_ok (run_schema status).
Proof. destruct status; by constructor; cbn; intros; simplify_eq. Qed.
Lemma reset_schema_ok status : schema_ok (reset_schema status).
Proof. destruct status; by constructor; cbn; intros; simplify_eq. Qed.

Lemma run_finish_ok status seen out :
  known seen out ->
  parse_finish status seen out = 0 <->
  complete (run_schema status) seen /\ fields seen = zlen (canon (run_schema status) out) /\ run_valid status out.
Proof.
  unfold parse_finish, complete, run_valid, known, PW_AO_RUN_CONTROL_STATE_STOPPED, PW_AO_RUN_CONTROL_STATE_RUNNING,
    PW_AO_RUN_CONTROL_STATE_UNKNOWN. destruct seen as [[] [] [] [] n], status;
    cbn -[Z.eqb Z.ltb Z.le]; intros Hk; repeat case_if; bool_to_prop; intuition (congruence || lia).
Qed.

Lemma reset_finish_ok status seen out :
  known seen out ->
  parse_reset_finish status seen out = 0 <->
  complete (reset_schema status) seen /\ fields seen = zlen (canon (reset_schema status) out) /\ reset_valid status out.
Proof.
  unfold parse_reset_finish, complete, reset_valid. destruct seen as [[] [] [] [] n], status;
    cbn -[Z.eqb Z.ltb Z.le]; intros Hk; repeat case_if; bool_to_prop; intuition (congruence || lia).
Qed.

Lemma as_string_inj a b :
  0 <= a <= 2 -> 0 <= b <= 2 ->
  pw_ao_run_control_state_as_string a = pw_ao_run_control_state_as_string b -> a = b.
Proof.
  intros Ha Hb. unfold pw_ao_run_control_state_as_string, PW_AO_RUN_CONTROL_STATE_STOPPED, PW_AO_RUN_CONTROL_STATE_RUNNING.
  repeat case_if; bool_to_prop; (done || lia).
Qed.

Lemma run_valid_canon status out msg :
  (k_state (run_schema status) <> None -> 0 <= o_state out <= 2) ->
  canon (run_schema status) out ≡ₚ canon (run_schema status) msg -> run_valid status msg -> run_valid status out.
Proof.
  intros Hk P (Hv & Ht & Hs). apply canon_inj in P as (Ev & Et & _ & Es); [|apply run_schema_ok].
  assert (k_state (run_schema status) <> None) as Hst by (by destruct status).
  assert (o_state out = o_state msg) as Eo.
  { apply as_string_inj; [by apply Hk| |by apply Es]. destruct Hs as [-> | [-> | [_ ->]]]; done. }
  unfold run_valid. by rewrite Ev, Et, Eo.
Qed.
Lemma reset_valid_canon status out msg :
  (k_state (reset_schema status) <> None -> 0 <= o_state out <= 2) ->
  canon (reset_schema status) out ≡ₚ canon (reset_schema status) msg -> reset_valid status msg -> reset_valid status out.
Proof.
  intros _ P. apply canon_inj in P as (Ev & Et & _); [|apply reset_schema_ok]. unfold reset_valid. by rewrite Ev, Et.
Qed.

(** A list of fields that can be encoded and read back. *)
Definition readable (fs : list field) : Prop := Forall (fun kv => no_nul kv.1 /\ scalar_rt kv.2) fs.

Lemma readable_ok fs : readable fs -> zlen (values_enc (wire fs)) < 2 ^ 20 -> Forall field_ok fs.
Proof.
  induction 1 as [|[k v] fs [Hk Hv] _ IH]; [constructor|].
  change (wire ((k, v) :: fs)) with (SString k :: v :: wire fs). rewrite !values_enc_cons, !zlen_app. unfold item_enc.
  rewrite !enc_padded_zlen. cbn [pod_body scalar_body]. intros L.
  pose proof (pad8_bounds (zlen (k ++ [Byte.x00]))). pose proof (pad8_bounds (zlen (scalar_body v))).
  pose proof (zlen_nonneg (values_enc (wire fs))). pose proof (zlen_nonneg (scalar_body v)). pose proof (zlen_nonneg k).
  rewrite zlen_app in *. change (zlen [Byte.x00]) with 1 in *.
  constructor; [|apply IH; lia]. unfold field_ok. cbn [fst snd] in *. split_and!; [done|lia|done|lia].
Qed.

Lemma readable_facts fs :
  readable fs -> zlen (pod_body (message (wire fs))) < 2 ^ 20 ->
  Forall field_ok fs /\ Forall (fun kv => scalar_rt kv.2) fs /\ zlen fs < 2 ^ 32.
Proof.
  intros R L. rewrite message_body_size in L. pose proof (fields_count fs).
  split; [apply readable_ok; [done|lia]|]. split; [|lia]. eapply Forall_impl; [|exact R]. by intros kv [].
Qed.

(** ** Build, then parse *)

Lemma build_holds items fs b :
  Forall2 item_for items (wire fs) -> plain b -> fits b (zlen (pod_enc (message (wire fs)))) ->
  Forall scalar_ok (wire fs) ->
  exists b', build_values items b = (Ret (Some (b_offset b)), b') /\
    holds (b_data b') (b_offset b) (pod_enc (message (wire fs))).
Proof.
  intros F Hp Hf Hok. rewrite (build_values_spec items (wire fs) b F Hok Hp Hf). eexists. split; [done|].
  cbn [append_bytes b_data]. destruct Hp as ((Ho & _) & _). by apply holds_overwrite.
Qed.

(** ** Messages of any origin *)

(** What a successful read of the current header means for the memory. *)
Lemma current_pod p pod body p' :
  parser_ok p -> spa_pod_parser_current_body p = (Ret (pod, body), p') ->
  p' = p /\ body = p_data p + p_offset p + 8 /\ load_pod (p_mem p) (body - 8) = Ret pod /\
  body_ok (p_mem p) pod body /\ is_u32 (pod_size pod) /\ p_offset p + 8 + pad8 (pod_size pod) <= parser_limit p.
Proof.
  intros H E. pose proof (current_body_safe p H) as W. unfold st_wp in W. rewrite E in W.
  destruct W as (-> & Hs & -> & Hl). destruct (body_in p pod H Hs Hl) as [Hb _]. split_and!; try done.
  replace (p_data p + p_offset p + 8 - 8) with (p_data p + p_offset p) by lia. clear Hb Hl Hs.
  unfold spa_pod_parser_current_body, spa_pod_parser_get_header, st_bind, spa_pod_parser_read_header, copy_header in E.
  destruct (_ && _) in E; [|done].
  destruct (load (p_mem p) (p_data p + p_offset p) 8) as [h| |] eqn:Eh; [|done..]. cbn [obind] in E.
  destruct (load_pod h 0) as [pod'| |] eqn:Ep; [|done..]. cbn [obind] in E. destruct (_ <=? _) in E; [|done].
  unfold st_lift, st_ret in E. rewrite Ep in E. injection E as -> _.
  pose proof (pk_data p H). pose proof (pk_offset p H) as [? _].
  assert (holds (p_mem p) (p_data p + p_offset p) h) as Hh.
  { apply holds_intro; [lia|]. by rewrite (load_zlen _ _ _ _ Eh). }
  unfold load_pod in *. destruct (load_u32 h 0) as [s| |] eqn:E1; [|done..]. cbn [obind] in Ep.
  destruct (load_u32 h (0 + 4)) as [t| |] eqn:E2; [|done..].
  apply (holds_load_u32 _ _ _ _ _ Hh) in E1; [|lia]. apply (holds_load_u32 _ _ _ _ _ Hh) in E2; [|lia].
  rewrite Z.add_0_r in E1. rewrite E1. cbn [obind]. change (0 + 4) with 4 in E2. by rewrite E2.
Qed.

Lemma advance_left p pod :
  parser_ok p -> is_u32 (pod_size pod) -> p_offset p + 8 + pad8 (pod_size pod) <= parser_limit p ->
  parser_ok (spa_pod_parser_advance pod p) /\ (left_over (spa_pod_parser_advance pod p) < left_over p)%nat.
Proof.
  intros H Hs Hl. split; [auto with cdb|]. pose proof (limit_in p H). pose proof (pk_offset p H) as [? _].
  pose proof (pk_size p H) as [_ ?]. pose proof (pad8_bounds (pod_size pod)). unfold is_u32 in *.
  replace (spa_pod_parser_advance pod p) with (spa_pod_parser_advance (mk_pod (pod_size pod) 0) p) by done.
  rewrite advance_holds by lia. unfold left_over. cbn [set_offset p_size p_offset]. lia.
Qed.

Definition smaller (p p' : spa_pod_parser) : Prop :=
  parser_ok p' /\ p_mem p' = p_mem p /\ (left_over p' < left_over p)%nat.

Lemma get_string_hostile p :
  parser_ok p ->
  match spa_pod_parser_get_string p with
  | (Ret key, p') => smaller p p' /\ exists s, load_cstr (p_mem p) key = Ret s
  | (Err _, p') => p' = p
  | (Fault, _) => False
  end.
Proof.
  intros H. unfold spa_pod_parser_get_string, parser_get, st_bind. pose proof (current_body_safe p H) as W.
  unfold st_wp in W. destruct (spa_pod_parser_current_body p) as [[[pod body]| |] p'] eqn:E; [|done..]. clear W.
  apply current_pod in E as (-> & -> & _ & Hb & Hs & Hl); [|done]. unfold st_get, st_lift.
  pose proof (get_string_safe pod (p_mem p) _ Hb) as W.
  destruct (spa_pod_body_get_string pod (p_mem p) _) as [s| |]; [|done..]. destruct W as (-> & str & Es & _).
  destruct (advance_left p pod H Hs Hl) as [? ?]. unfold st_modify, st_ret. split; [by split_and!|by exists str].
Qed.

Lemma get_pod_hostile p :
  parser_ok p ->
  match spa_pod_parser_get_pod p with
  | (Ret value, p') => smaller p p' /\ exists pod, load_pod (p_mem p) value = Ret pod /\ body_ok (p_mem p) pod (value + 8)
  | (Err _, _) => True
  | (Fault, _) => False
  end.
Proof.
  intros H. unfold spa_pod_parser_get_pod, spa_pod_parser_get_pod_body, st_bind. pose proof (current_body_safe p H) as W.
  unfold st_wp in W. destruct (spa_pod_parser_current_body p) as [[[pod body]| |] p'] eqn:E; [|done..]. clear W.
  apply current_pod in E as (-> & -> & Ep & Hb & Hs & Hl); [|done].
  destruct (advance_left p pod H Hs Hl) as [? ?]. unfold st_modify, st_ret. split; [by split_and!|].
  exists pod. split; [done|]. by rewrite Z.sub_add.
Qed.

Lemma push_struct_frame p u p' :
  spa_pod_parser_push_struct p = (Ret u, p') -> exists f fs, p_frames p' = f :: fs.
Proof.
  unfold spa_pod_parser_push_struct, spa_pod_parser_push_struct_body, st_bind.
  destruct (spa_pod_parser_current_body p) as [[[pod body]| |] q]; [|done..].
  destruct (negb (spa_pod_is_struct pod)); [done|]. intros [= _ <-]. cbn. eauto.
Qed.

Section Hostile.
Context (fld : mem -> list byte -> Z -> rc_seen -> rc_out -> outcome verdict)
        (finish : rc_seen -> rc_out -> Z) (I : rc_seen -> rc_out -> Prop).
Hypothesis fld_safe : forall m key value pod seen out,
  load_pod m value = Ret pod -> body_ok m pod (value + 8) -> I seen out ->
  match fld m key value seen out with
  | Ret (Return code _) => code <> 0
  | Ret (Continue seen' out') => I seen' out'
  | _ => False
  end.

(** The function returns, and with 0 only when the final checks passed. *)
Definition returns (r : outcome (Z * rc_out)) : Prop :=
  exists code out, r = Ret (code, out) /\ (code = 0 -> exists seen, finish seen out = 0 /\ I seen out).

Lemma returns_error code out : code <> 0 -> returns (Ret (code, out)).
Proof. intros H. by exists code, out. Qed.

Lemma parse_loop_hostile fuel frame p seen out :
  parser_ok p -> (left_over p < fuel)%nat -> I seen out ->
  returns (parse_loop fld finish fuel frame p seen out).
Proof.
  revert p seen out. induction fuel as [|fuel IH]; intros p seen out H Hf HI; [lia|]. cbn [parse_loop].
  pose proof (get_string_hostile p H) as W1. destruct (spa_pod_parser_get_string p) as [[key|e|] p1]; [| |done].
  - destruct W1 as [(H1 & M1 & L1) [s Es]].
    pose proof (get_pod_hostile p1 H1) as W2. destruct (spa_pod_parser_get_pod p1) as [[value|e|] p2]; [| |done].
    + destruct W2 as [(H2 & M2 & L2) (pod & Ep & Hb)]. rewrite M2, M1 in *. rewrite Es. cbn [obind].
      pose proof (fld_safe _ s value pod seen out Ep Hb HI) as W3.
      destruct (fld _ _ _ _ _) as [[code o|seen' out']| |]; cbn [obind]; [by apply returns_error| |done..].
      apply IH; [done|lia|done].
    + by apply returns_error.
  - destruct (_ =? _); [|by apply returns_error]. exists (finish seen out), out. split; [done|]. by exists seen.
Qed.

Lemma parse_message_hostile m off p out :
  pod_in m off p -> (forall out, I nothing_seen out) -> returns (parse_message fld finish m (Some off) out).
Proof.
  intros H HI. pose proof H as (Ep & Ho & Hs & Hm). unfold parse_message, spa_pod_is_object_type. rewrite Ep. cbn [obind].
  destruct (spa_pod_is_object p) eqn:Eo; cbn [obind negb]; [|by apply returns_error].
  apply check_spec in Eo as [? _].
  destruct (load_u32_ok m (off + 8)) as (t & -> & _); [lia|lia|]. cbn [obind].
  destruct (negb (t =? _)); [by apply returns_error|].
  destruct (load_u32_ok m (off + 12)) as (i & -> & _); [lia|lia|]. cbn [obind].
  destruct (negb (i =? _)); [by apply returns_error|].
  destruct (lookup_safe m off p SPA_PROP_params H) as (r & -> & Hr). cbn [obind].
  destruct r as [a|]; [|by apply returns_error]. destruct (Hr a eq_refl) as (Ha & s & Es & Hu & Hin).
  unfold is_u32 in Hu. destruct (load_u32_ok m (a + 8 + 4)) as (ty & Ety & _); [lia|lia|].
  assert (load_pod m (a + 8) = Ret (mk_pod s ty)) as Ev by (unfold load_pod; rewrite Es; cbn [obind]; by rewrite Ety).
  rewrite Ev. cbn [obind]. destruct (spa_pod_is_struct (mk_pod s ty)) eqn:Est; cbn [negb]; [|by apply returns_error].
  apply check_type_spec in Est as [Hsmall _]. cbn [pod_size] in Hsmall.
  unfold spa_pod_parser_pod. rewrite Ev. cbn [obind]. unfold SPA_POD_SIZE. cbn [pod_size].
  rewrite wrap_small by lia. set (q := spa_pod_parser_init m (a + 8) (8 + s)).
  assert (parser_ok q) as Hq by (constructor; cbn; unfold is_u32; try constructor; lia).
  pose proof (push_struct_safe q Hq) as W. unfold st_wp in W.
  destruct (spa_pod_parser_push_struct q) as [[u|e|] q'] eqn:Eq; [|by apply returns_error|done].
  destruct (push_struct_frame _ _ _ Eq) as (f & fs & ->). destruct W as [[Hq' _] _].
  apply parse_loop_hostile; [done| |apply HI]. pose proof (pk_offset _ Hq') as [? _]. unfold left_over. lia.
Qed.
End Hostile.

(** What the loop knows of the values it took. *)
Definition held (seen : rc_seen) (out : rc_out) : Prop :=
  known seen out /\ (have_token seen = true -> is_i64 (o_token out)) /\
  (have_result seen = true -> is_i32 (o_result out)).

Definition verdict_ok (r : outcome verdict) : Prop :=
  match r with
  | Ret (Return code _) => code <> 0
  | Ret (Continue seen out) => held seen out
  | _ => False
  end.

Lemma take_value_ok {A} have (get : outcome A) out (k : A -> outcome verdict) (Q : A -> Prop) :
  o_wp get Q True -> (have = false -> forall v, Q v -> verdict_ok (k v)) -> verdict_ok (take_value have get out k).
Proof. intros H Hk. unfold take_value. destruct have, get; cbn in *; try done. by apply Hk. Qed.

Section Fields.
Variables (m : mem) (value : Z) (pod : spa_pod).
Hypothesis here : load_pod m value = Ret pod.
Hypothesis inside : body_ok m pod (value + 8).

Lemma hostile_int : o_wp (spa_pod_get_int m value) is_i32 True.
Proof. unfold spa_pod_get_int, with_pod. rewrite here. by apply get_int_safe. Qed.
Lemma hostile_long : o_wp (spa_pod_get_long m value) is_i64 True.
Proof. unfold spa_pod_get_long, with_pod. rewrite here. by apply get_long_safe. Qed.
Lemma hostile_string : o_wp (let! p := spa_pod_get_string m value in load_cstr m p) (fun _ => True) True.
Proof.
  unfold spa_pod_get_string, with_pod. rewrite here. cbn [obind]. pose proof (get_string_safe pod m _ inside) as W.
  destruct (spa_pod_body_get_string pod m (value + 8)); [|done..]. destruct W as (-> & s & E & _). cbn [obind]. by rewrite E.
Qed.

Lemma parse_field_hostile status key seen out :
  held seen out -> verdict_ok (parse_field status m key value seen out).
Proof.
  unfold held, known. destruct seen as [hv ht hr hs n], out as [ve to re st].
  cbn [have_token have_result have_state o_token o_result o_state]. intros (H1 & H2 & H3). unfold parse_field.
  destruct (spa_streq key PW_AO_RUN_CONTROL_KEY_VERSION).
  { eapply take_value_ok; [apply hostile_int|]. intros _ v Hv. by case_if. }
  destruct (spa_streq key (if status then _ else _)).
  { eapply take_value_ok; [apply hostile_long|]. by intros. }
  destruct (status && _).
  { eapply take_value_ok; [apply hostile_int|]. by intros. }
  destruct (spa_streq key (if status then _ else _)).
  { eapply take_value_ok; [apply hostile_string|]. intros _ v _. destruct (state_from_string v) eqn:E; [|done].
    apply state_known in E. split; [intros _; exact E|by split]. }
  by case_if.
Qed.
Lemma parse_reset_field_hostile status key seen out :
  held seen out -> verdict_ok (parse_reset_field status m key value seen out).
Proof.
  unfold held, known. destruct seen as [hv ht hr hs n], out as [ve to re st].
  cbn [have_token have_result have_state o_token o_result o_state]. intros (H1 & H2 & H3). unfold parse_reset_field.
  destruct (spa_streq key PW_AO_RESET_CONTROL_KEY_VERSION).
  { eapply take_value_ok; [apply hostile_int|]. intros _ v Hv. by case_if. }
  destruct (spa_streq key (if status then _ else _)).
  { eapply take_value_ok; [apply hostile_long|]. by intros. }
  destruct (status && _).
  { eapply take_value_ok; [apply hostile_int|]. by intros. }
  by case_if.
Qed.
End Fields.

(** ** Round trips *)

Definition room_for (sch : schema) (msg : rc_out) (b : spa_pod_builder) : Prop :=
  fits b (zlen (pod_enc (message (wire (canon sch msg))))).

Lemma canon_scalars sch msg : Forall scalar_ok (wire (canon sch msg)).
Proof. unfold canon. destruct (k_result sch), (k_state sch); by repeat constructor. Qed.

Definition keys_plain (sch : schema) : Prop :=
  no_nul (k_version sch) /\ no_nul (k_token sch) /\
  (forall k, k_result sch = Some k -> no_nul k) /\ (forall k, k_state sch = Some k -> no_nul k).

Lemma run_keys_plain status : keys_plain (run_schema status).
Proof. destruct status; split_and!; cbn; intros; simplify_eq; repeat constructor; discriminate. Qed.
Lemma reset_keys_plain status : keys_plain (reset_schema status).
Proof. destruct status; split_and!; cbn; intros; simplify_eq; repeat constructor; discriminate. Qed.

Lemma canon_readable sch msg :
  keys_plain sch -> is_i32 (o_version msg) -> is_i64 (o_token msg) -> is_i32 (o_result msg) -> readable (canon sch msg).
Proof.
  intros (Hv & Ht & Hr & Hs) Rv Rt Rr. unfold readable, canon, opt_field.
  assert (no_nul (pw_ao_run_control_state_as_string (o_state msg))) as Hn.
  { unfold pw_ao_run_control_state_as_string. repeat case_if; repeat constructor; discriminate. }
  apply Forall_cons; [done|]. apply Forall_cons; [done|]. apply Forall_app. split.
  - destruct (k_result sch); [|constructor]. apply Forall_singleton. split; [by apply Hr|done].
  - destruct (k_state sch); [|constructor]. apply Forall_singleton. split; [by apply Hs|done].
Qed.

(** What a builder function wrote is taken field by field. *)
Lemma message_roundtrip sch fld finish items msg b out :
  (forall m value v key seen out,
    holds m value (item_enc (Scalar v)) -> scalar_rt v -> zlen (scalar_body v) < 2 ^ 20 ->
    fld m key value seen out = Ret (absorb sch (key, v) seen out)) ->
  Forall2 item_for items (wire (canon sch msg)) -> readable (canon sch msg) ->
  zlen (pod_body (message (wire (canon sch msg)))) < 2 ^ 20 -> plain b -> room_for sch msg b ->
  exists b', build_values items b = (Ret (Some (b_offset b)), b') /\
    parse_message fld finish (b_data b') (Some (b_offset b)) out =
      Ret (absorb_all sch finish (canon sch msg) nothing_seen out).
Proof.
  intros Ha F R L Hp Hf. destruct (build_holds items (canon sch msg) b F Hp Hf) as (b' & -> & H); [apply canon_scalars|].
  exists b'. split; [done|]. destruct (readable_facts _ R L) as (Fok & _). apply parse_message_fields; try done. apply Hp.
Qed.

Definition all_seen (status state : bool) : rc_seen :=
  mk_seen true true status state (2 + (if status then 1 else 0) + (if state then 1 else 0)).

Lemma run_message status msg items b out :
  Forall2 item_for items (wire (canon (run_schema status) msg)) -> run_valid status msg ->
  is_i64 (o_token msg) -> is_i32 (o_result msg) -> plain b -> room_for (run_schema status) msg b ->
  exists b', build_values items b = (Ret (Some (b_offset b)), b') /\
    parse_values status (b_data b') (Some (b_offset b)) out =
      Ret (0, mk_out 1 (o_token msg) (if status then o_result msg else o_result out) (o_state msg)).
Proof.
  destruct msg as [ve to re st]. cbn [o_token o_result o_state]. intros F Hv Ht Hr Hp Hf.
  pose proof Hv as (Ev & Htok & Hst). cbn [o_version o_token o_state] in Ev, Htok, Hst. subst ve.
  destruct (message_roundtrip (run_schema status) (parse_field status) (parse_finish status) items
    (mk_out PW_AO_RUN_CONTROL_VERSION to re st) b out)
    as (b' & Eb & Ep); [intros; by apply parse_field_absorb|exact F|by apply canon_readable; [apply run_keys_plain|..]| |done|done|].
  { destruct status, Hst as [-> | [-> | [? ->]]]; reflexivity. }
  exists b'. split; [done|]. unfold parse_values. rewrite Ep. f_equal.
  transitivity (parse_finish status (all_seen status true) (mk_out 1 to (if status then re else o_result out) st),
                mk_out 1 to (if status then re else o_result out) st).
  - destruct out, status, Hst as [-> | [-> | [? ->]]]; (reflexivity || done).
  - f_equal. apply run_finish_ok; [|split; [by destruct status|split; [by destruct status|done]]].
    intros _. cbn [o_state]. destruct Hst as [-> | [-> | [_ ->]]]; done.
Qed.

Lemma reset_message status msg items b out :
  Forall2 item_for items (wire (canon (reset_schema status) msg)) -> reset_valid status msg ->
  is_i64 (o_token msg) -> is_i32 (o_result msg) -> plain b -> room_for (reset_schema status) msg b ->
  exists b', build_values items b = (Ret (Some (b_offset b)), b') /\
    parse_reset_values status (b_data b') (Some (b_offset b)) out =
      Ret (0, mk_out 1 (o_token msg) (if status then o_result msg else o_result out) (o_state out)).
Proof.
  destruct msg as [ve to re st], out as [v0 t0 r0 s0]. cbn [o_token o_result o_state]. intros F Hv Ht Hr Hp Hf.
  pose proof Hv as (Ev & Htok). cbn [o_version o_token] in Ev, Htok. subst ve.
  destruct (message_roundtrip (reset_schema status) (parse_reset_field status) (parse_reset_finish status) items
    (mk_out PW_AO_RESET_CONTROL_VERSION to re st) b (mk_out v0 t0 r0 s0)) as (b' & Eb & Ep);
    [intros; by apply parse_reset_field_absorb|exact F|by apply canon_readable; [apply reset_keys_plain|..]| |done|done|].
  { destruct status; reflexivity. }
  exists b'. split; [done|]. unfold parse_reset_values. rewrite Ep. f_equal.
  set (msg := mk_out 1 to (if status then re else r0) s0).
  transitivity (parse_reset_finish status (all_seen status false) msg, msg); [by destruct status|].
  f_equal. apply reset_finish_ok; [done|]. by destruct status.
Qed.

(** ** Messages that are not for the parser *)

Lemma parse_message_foreign fld finish members m off out :
  zlen (pod_body (Object SPA_TYPE_OBJECT_Props SPA_PARAM_Props members)) < 2 ^ 20 ->
  holds m off (pod_enc (Object SPA_TYPE_OBJECT_Props SPA_PARAM_Props members)) -> off mod 8 = 0 ->
  Forall prop_ok members -> first_with SPA_PROP_params members = None ->
  parse_message fld finish m (Some off) out = Ret (- EINVAL, out).
Proof.
  intros L H Ha F Hno. destruct (props_checks members m off L H) as [Et Ei].
  pose proof (find_prop_encoded _ _ members m off 0 SPA_PROP_params L H Ha F ltac:(lia)) as Hfind.
  unfold next_with in Hfind. rewrite drop_0, Hno in Hfind.
  unfold parse_message. rewrite Et. cbn [obind negb]. rewrite Ei. cbn [obind]. rewrite Z.eqb_refl. cbn [negb].
  by rewrite Hfind.
Qed.

(** A key that no field of the schema has. *)
Definition foreign (sch : schema) (k : list byte) : Prop :=
  k <> k_version sch /\ k <> k_token sch /\ Some k <> k_result sch /\ Some k <> k_state sch.

Lemma absorb_foreign sch k v fs finish out :
  foreign sch k -> absorb_all sch finish ((k, v) :: fs) nothing_seen out = (- ENOENT, out).
Proof.
  intros (H1 & H2 & H3 & H4). cbn [absorb_all absorb nothing_seen]. destruct out.
  by rewrite !bool_decide_eq_false_2.
Qed.

(** ** The properties *)

(** C29: a run control message is accepted exactly when its fields are, in any
    order, those of a valid message: the version, the token, the state and in
    a status the result, each once and nothing else; and then the caller gets
    their values. *)
Theorem run_control_accepts (status : bool) (fs : list field) (m : mem) (off : Z) (out : rc_out) :
  readable fs -> zlen (pod_body (message (wire fs))) < 2 ^ 20 ->
  holds m off (pod_enc (message (wire fs))) -> off mod 8 = 0 ->
  exists code out', parse_values status m (Some off) out = Ret (code, out') /\
    (code = 0 -> run_valid status out' /\ fs ≡ₚ canon (run_schema status) out') /\
    (forall msg, run_valid status msg -> fs ≡ₚ canon (run_schema status) msg -> code = 0).
Proof.
  intros R L H Ha. destruct (readable_facts fs R L) as (Fok & Frt & Ln).
  destruct (absorb_all (run_schema status) (parse_finish status) fs nothing_seen out) as [code out'] eqn:E.
  exists code, out'. split.
  - rewrite <- E. apply parse_message_fields; try done. intros. by apply parse_field_absorb.
  - pose proof (accepts (run_schema status) (parse_finish status) (run_valid status) (run_schema_ok status)
      (run_finish_ok status) (run_valid_canon status)) as A.
    specialize (A ltac:(by intros msg (-> & _)) fs out Frt Ln). by rewrite E in A.
Qed.

Definition shuffled_request : list field :=
  [ (PW_AO_RUN_CONTROL_KEY_REQUESTED_STATE, SString (pw_ao_run_control_state_as_string PW_AO_RUN_CONTROL_STATE_RUNNING));
    (PW_AO_RUN_CONTROL_KEY_VERSION, SInt 1); (PW_AO_RUN_CONTROL_KEY_REQUEST_TOKEN, SLong 7) ].

Lemma run_control_accepts_witness :
  exists out', parse_values false (pod_enc (message (wire shuffled_request))) (Some 0) (mk_out 0 0 0 0) = Ret (0, out') /\
               run_valid false out' /\ shuffled_request ≡ₚ canon (run_schema false) out'.
Proof.
  destruct (run_control_accepts false shuffled_request (pod_enc (message (wire shuffled_request))) 0 (mk_out 0 0 0 0))
    as (code & out' & E & H1 & H2).
  - repeat constructor; discriminate.
  - reflexivity.
  - by apply holds_whole.
  - reflexivity.
  - assert (code = 0) as ->.
    { apply (H2 (mk_out 1 7 0 2)); [by repeat split; auto|]. exact (Permutation_cons_append _ _). }
    exists out'. by split; [|apply H1].
Defined.

(** A reset control message, which carries no state, is accepted exactly
    when its fields are, in any order, the version, the token and in a status
    the result, each once and nothing else, with the supported version and a
    token in range; and then the caller gets their values. *)
Theorem reset_control_accepts (status : bool) (fs : list field) (m : mem) (off : Z) (out : rc_out) :
  readable fs -> zlen (pod_body (message (wire fs))) < 2 ^ 20 ->
  holds m off (pod_enc (message (wire fs))) -> off mod 8 = 0 ->
  exists code out', parse_reset_values status m (Some off) out = Ret (code, out') /\
    (code = 0 -> reset_valid status out' /\ fs ≡ₚ canon (reset_schema status) out') /\
    (forall msg, reset_valid status msg -> fs ≡ₚ canon (reset_schema status) msg -> code = 0).
Proof.
  intros R L H Ha. destruct (readable_facts fs R L) as (Fok & Frt & Ln).
  destruct (absorb_all (reset_schema status) (parse_reset_finish status) fs nothing_seen out) as [code out'] eqn:E.
  exists code, out'. split.
  - rewrite <- E. apply parse_message_fields; try done. intros. by apply parse_reset_field_absorb.
  - pose proof (accepts (reset_schema status) (parse_reset_finish status) (reset_valid status) (reset_schema_ok status)
      (reset_finish_ok status) (reset_valid_canon status)) as A.
    specialize (A ltac:(by intros msg (-> & _)) fs out Frt Ln). by rewrite E in A.
Qed.

(** A status with the result before the token. *)
Definition shuffled_status : list field :=
  [ (PW_AO_RESET_CONTROL_KEY_VERSION, SInt 1); (PW_AO_RESET_CONTROL_KEY_RESULT, SInt (-5));
    (PW_AO_RESET_CONTROL_KEY_COMPLETED_TOKEN, SLong 3) ].

Lemma reset_control_accepts_witness :
  exists out', parse_reset_values true (pod_enc (message (wire shuffled_status))) (Some 0) (mk_out 0 0 0 0) = Ret (0, out') /\
               reset_valid true out' /\ shuffled_status ≡ₚ canon (reset_schema true) out'.
Proof.
  destruct (reset_control_accepts true shuffled_status (pod_enc (message (wire shuffled_status))) 0 (mk_out 0 0 0 0))
    as (code & out' & E & H1 & H2).
  - repeat constructor; discriminate.
  - reflexivity.
  - by apply holds_whole.
  - reflexivity.
  - assert (code = 0) as ->.
    { apply (H2 (mk_out 1 3 (-5) 0)); [by split|]. apply perm_skip, perm_swap. }
    exists out'. by split; [|apply H1].
Defined.

(** C30: a run control request and a run control status that were built are
    parsed back to the values they were built from. *)
Theorem run_control_roundtrip (b : spa_pod_builder) (token result state : Z) (out : rc_out) :
  plain b -> is_i64 token -> is_i32 result -> 0 <= state <= 2 ->
  (1 <= token -> state <> PW_AO_RUN_CONTROL_STATE_UNKNOWN ->
   room_for (run_schema false) (mk_out 1 token 0 state) b ->
   exists b', pw_ao_run_control_build_request token state b = (Ret (Some (b_offset b)), b') /\
     pw_ao_run_control_parse_request (b_data b') (Some (b_offset b)) out = Ret (0, mk_out 1 token (o_result out) state)) /\
  (0 <= token -> room_for (run_schema true) (mk_out 1 token result state) b ->
   exists b', pw_ao_run_control_build_status token result state b = (Ret (Some (b_offset b)), b') /\
     pw_ao_run_control_parse_status (b_data b') (Some (b_offset b)) out = Ret (0, mk_out 1 token result state)).
Proof.
  intros Hp Ht Hr Hs. split.
  - intros H1 Hu Hf. unfold PW_AO_RUN_CONTROL_STATE_UNKNOWN in Hu.
    assert (state = 1 \/ state = 2) as Hst by lia.
    unfold pw_ao_run_control_build_request. rewrite (proj2 (Z.leb_gt _ _)) by lia.
    replace (_ && _) with false by (destruct Hst as [-> | ->]; reflexivity). cbn [orb].
    apply (run_message false (mk_out 1 token 0 state)); try done; [repeat constructor; auto|].
    unfold run_valid. cbn [o_version o_token o_state]. tauto.
  - intros H0 Hf. unfold pw_ao_run_control_build_status.
    rewrite (proj2 (Z.ltb_ge token 0)), (proj2 (Z.ltb_ge _ state)) by (unfold PW_AO_RUN_CONTROL_STATE_RUNNING; lia). cbn [orb].
    apply (run_message true (mk_out 1 token result state)); try done; [repeat constructor; auto|].
    unfold run_valid. cbn [o_version o_token o_state]. split_and!; [done|done|].
    assert (state = 0 \/ state = 1 \/ state = 2) as [-> | [-> | ->]] by lia; auto.
Qed.

(** A buffer of zeroes that is large enough for every message. *)
Definition empty_builder : spa_pod_builder := spa_pod_builder_init (zeroes 512).

Lemma empty_builder_plain : plain empty_builder.
Proof. split; [split; [|split]|split]; [done|vm_compute; discriminate|constructor|done|done]. Qed.

Lemma run_control_roundtrip_witness :
  (exists b', pw_ao_run_control_build_request 7 2 empty_builder = (Ret (Some 0), b') /\
     pw_ao_run_control_parse_request (b_data b') (Some 0) (mk_out 0 0 0 0) = Ret (0, mk_out 1 7 0 2)) /\
  (exists b', pw_ao_run_control_build_status 7 (-5) 0 empty_builder = (Ret (Some 0), b') /\
     pw_ao_run_control_parse_status (b_data b') (Some 0) (mk_out 0 0 0 0) = Ret (0, mk_out 1 7 (-5) 0)).
Proof.
  split.
  - destruct (run_control_roundtrip empty_builder 7 0 2 (mk_out 0 0 0 0) empty_builder_plain) as [H _]; [done..|].
    apply H; [done|done|]. vm_compute. discriminate.
  - destruct (run_control_roundtrip empty_builder 7 (-5) 0 (mk_out 0 0 0 0) empty_builder_plain) as [_ H]; [done..|].
    apply H; [done|]. vm_compute. discriminate.
Defined.

(** A reset request and a reset status that were built are parsed back to
    the values they were built from. *)
Theorem reset_control_roundtrip (b : spa_pod_builder) (token result : Z) (out : rc_out) :
  plain b -> is_i64 token -> is_i32 result ->
  (1 <= token -> room_for (reset_schema false) (mk_out 1 token 0 0) b ->
   exists b', pw_ao_reset_control_build_request token b = (Ret (Some (b_offset b)), b') /\
     pw_ao_reset_control_parse_request (b_data b') (Some (b_offset b)) out =
       Ret (0, mk_out 1 token (o_result out) (o_state out))) /\
  (0 <= token -> room_for (reset_schema true) (mk_out 1 token result 0) b ->
   exists b', pw_ao_reset_control_build_status token result b = (Ret (Some (b_offset b)), b') /\
     pw_ao_reset_control_parse_status (b_data b') (Some (b_offset b)) out =
       Ret (0, mk_out 1 token result (o_state out))).
Proof.
  intros Hp Ht Hr. split.
  - intros H1 Hf. unfold pw_ao_reset_control_build_request. rewrite (proj2 (Z.leb_gt _ _)) by lia.
    apply (reset_message false (mk_out 1 token 0 0)); try done. repeat constructor; auto.
  - intros H0 Hf. unfold pw_ao_reset_control_build_status. rewrite (proj2 (Z.ltb_ge _ _)) by lia.
    apply (reset_message true (mk_out 1 token result 0)); try done. repeat constructor; auto.
Qed.

Lemma reset_control_roundtrip_witness :
  exists b', pw_ao_reset_control_build_status 3 (-22) empty_builder = (Ret (Some 0), b') /\
    pw_ao_reset_control_parse_status (b_data b') (Some 0) (mk_out 0 0 0 0) = Ret (0, mk_out 1 3 (-22) 0).
Proof.
  destruct (reset_control_roundtrip empty_builder 3 (-22) (mk_out 0 0 0 0) empty_builder_plain) as [_ H]; [done..|].
  apply H; [done|]. vm_compute. discriminate.
Defined.

(** C31: for every content of the memory in which the pod lies, the parsers
    return without reading outside of it, and accept only messages with the
    supported version, a token in range and a state that is known. *)
Theorem control_parsers_safe (status : bool) (m : mem) (off : Z) (p : spa_pod) (out : rc_out) :
  pod_in m off p ->
  (exists code out', parse_values status m (Some off) out = Ret (code, out') /\
    (code = 0 -> run_valid status out' /\ is_i64 (o_token out'))) /\
  (exists code out', parse_reset_values status m (Some off) out = Ret (code, out') /\
    (code = 0 -> reset_valid status out' /\ is_i64 (o_token out'))).
Proof.
  intros H. split.
  - assert (returns (parse_finish status) held (parse_values status m (Some off) out)) as (code & out' & E & Hok).
    { apply (parse_message_hostile _ _ held) with (p := p); [|exact H|done]. intros. by eapply parse_field_hostile. }
    exists code, out'. split; [exact E|]. intros E0. destruct (Hok E0) as (seen & Hf & Hk & Ht & _).
    apply run_finish_ok in Hf as ((_ & Hht & _) & _ & Hv); [|done]. split; [done|by apply Ht].
  - assert (returns (parse_reset_finish status) held (parse_reset_values status m (Some off) out)) as (code & out' & E & Hok).
    { apply (parse_message_hostile _ _ held) with (p := p); [|exact H|done]. intros. by eapply parse_reset_field_hostile. }
    exists code, out'. split; [exact E|]. intros E0. destruct (Hok E0) as (seen & Hf & Hk & Ht & _).
    apply reset_finish_ok in Hf as ((_ & Hht & _) & _ & Hv); [|done]. split; [done|by apply Ht].
Qed.

Lemma control_parsers_safe_witness :
  exists code out', parse_values true (pod_enc (message [SString []; SInt 3; SInt 4])) (Some 0) (mk_out 0 0 0 0) =
    Ret (code, out') /\ (code = 0 -> run_valid true out' /\ is_i64 (o_token out')).
Proof.
  destruct (control_parsers_safe true (pod_enc (message [SString []; SInt 3; SInt 4])) 0 (mk_pod 72 SPA_TYPE_Object)
    (mk_out 0 0 0 0)) as [H _]; [|exact H].
  split; [vm_compute; reflexivity|]. split; [|split]; vm_compute; discriminate.
Defined.

(** [Props] that are not for run control are told apart only when they
    carry [params]: with a foreign first key the code is [-ENOENT], without
    [params] it is [-EINVAL], the code of a malformed message. *)
Theorem foreign_props_codes (status : bool) (members : list prop_member) (k : list byte) (v : scalar)
    (fs : list field) (m m' : mem) (off off' : Z) (out : rc_out) :
  let other := Object SPA_TYPE_OBJECT_Props SPA_PARAM_Props members in
  let params := message (wire ((k, v) :: fs)) in
  Forall prop_ok members -> first_with SPA_PROP_params members = None ->
  zlen (pod_body other) < 2 ^ 20 -> holds m off (pod_enc other) -> off mod 8 = 0 ->
  readable ((k, v) :: fs) -> foreign (run_schema status) k ->
  zlen (pod_body params) < 2 ^ 20 -> holds m' off' (pod_enc params) -> off' mod 8 = 0 ->
  parse_values status m (Some off) out = Ret (- EINVAL, out) /\
  parse_values status m' (Some off') out = Ret (- ENOENT, out).
Proof.
  intros other params F Hno L1 H1 A1 R Hk L2 H2 A2. split; [by apply (parse_message_foreign _ _ members)|].
  destruct (readable_facts _ R L2) as (Fok & _).
  unfold parse_values. rewrite (parse_message_fields (run_schema status) _ _) with (fs := (k, v) :: fs); try done.
  - by rewrite absorb_foreign.
  - intros. by apply parse_field_absorb.
Qed.

(** A volume property, and a [params] struct with a filter's own control. *)
Definition other_members : list prop_member := [(65539, 0, Scalar (SFloat 0))].
Definition other_params : list field := [([Byte.x67], SFloat 0)].
Definition other_object : pod_val := Object SPA_TYPE_OBJECT_Props SPA_PARAM_Props other_members.

Lemma foreign_props_codes_witness :
  parse_values true (pod_enc other_object) (Some 0) (mk_out 0 0 0 0) = Ret (- EINVAL, mk_out 0 0 0 0) /\
  parse_values true (pod_enc (message (wire other_params))) (Some 0) (mk_out 0 0 0 0) = Ret (- ENOENT, mk_out 0 0 0 0).
Proof.
  apply (foreign_props_codes true other_members [Byte.x67] (SFloat 0) [] _ _ 0 0 (mk_out 0 0 0 0)).
  - apply Forall_singleton. split; [split; [discriminate|reflexivity]|]. split; [split; [discriminate|reflexivity]|reflexivity].
  - reflexivity.
  - vm_compute. reflexivity.
  - by apply holds_whole.
  - reflexivity.
  - apply Forall_singleton. split; [by repeat constructor|]. split; [discriminate|reflexivity].
  - split_and!; discriminate.
  - vm_compute. reflexivity.
  - by apply holds_whole.
  - reflexivity.
Defined.
