(* ===== verification/RingBuffer.v ===== *)
(** * The ring buffer

    Models [spa/include/spa/utils/ringbuffer.h]: the two 32-bit indices, the
    copies in and out of the caller's memory, and one producer and one consumer
    thread that use them as documented, interleaved byte by byte.  Indices run
    freely and wrap at [2^32]; the offset in the memory is the index modulo the
    size. *)
From S2P Require Import Prelude Bytes.
From stdpp Require Import relations.
#[local] Open Scope Z_scope.

(** [struct spa_ringbuffer]. *)
Record spa_ringbuffer : Type := mk_rb {
  readindex : Z;
  writeindex : Z }.

Definition spa_ringbuffer_init : spa_ringbuffer := mk_rb 0 0.

Definition spa_ringbuffer_set_avail (size : Z) : spa_ringbuffer := mk_rb 0 size.

(** The index and the number of bytes that can be read. *)
Definition spa_ringbuffer_get_read_index (rb : spa_ringbuffer) : Z * Z :=
  (readindex rb, swrap 32 (writeindex rb - readindex rb)).

(** The index and the fill level. *)
Definition spa_ringbuffer_get_write_index (rb : spa_ringbuffer) : Z * Z :=
  (writeindex rb, swrap 32 (writeindex rb - readindex rb)).

Definition spa_ringbuffer_read_update (index : Z) (rb : spa_ringbuffer) : spa_ringbuffer :=
  mk_rb (u32 index) (writeindex rb).
Definition spa_ringbuffer_write_update (index : Z) (rb : spa_ringbuffer) : spa_ringbuffer :=
  mk_rb (readindex rb) (u32 index).

(** The length of the first of the two copies. *)
Definition first_part (size offset len : Z) : Z := Z.min len (u32 (size - offset)).

(** The bytes stored at [*data]. *)
Definition spa_ringbuffer_read_data (buffer : mem) (size offset len : Z) : outcome (list byte) :=
  let l0 := first_part size offset len in
  let l1 := len - l0 in
  let! a := load buffer offset l0 in
  if 0 <? l1 then let! b := load buffer 0 l1 in Ret (a ++ b) else Ret a.

Definition spa_ringbuffer_write_data (buffer : mem) (size offset : Z) (data : mem) (len : Z)
  : outcome mem :=
  let l0 := first_part size offset len in
  let l1 := len - l0 in
  let! a := load data 0 l0 in
  let! buffer := store buffer offset a in
  if 0 <? l1 then let! b := load data l0 l1 in store buffer 0 b else Ret buffer.

(** ** A producer and a consumer *)

(** Where byte [k] of a transfer of [len] bytes is, by the two copies. *)
Definition ring_pos (size offset len k : Z) : Z :=
  let l0 := first_part size offset len in if k <? l0 then offset + k else k - l0.

Inductive producer_pc : Type :=
| P_idle
| P_ready (index filled : Z)
| P_write (index : Z) (data : list byte) (k : nat).

Inductive consumer_pc : Type :=
| C_idle
| C_ready (index avail : Z)
| C_read (index : Z) (len : nat) (got : list byte).

(** [r_in] and [r_out] are the bytes published and consumed since the start;
    they are not part of the program. *)
Record ring : Type := mk_ring {
  r_rb : spa_ringbuffer;
  r_buf : list byte;
  r_prod : producer_pc;
  r_cons : consumer_pc;
  r_in : list byte;
  r_out : list byte }.

(** One thread asks for its index, transfers no more than there is room or
    data for, one byte at a time, and publishes the advanced index. *)
Inductive ring_step (size : Z) : ring -> ring -> Prop :=
| rs_get_write rb buf c i o :
    let '(index, filled) := spa_ringbuffer_get_write_index rb in
    ring_step size (mk_ring rb buf P_idle c i o) (mk_ring rb buf (P_ready index filled) c i o)
| rs_begin_write rb buf c i o index filled data :
    zlen data <= size - filled ->
    ring_step size (mk_ring rb buf (P_ready index filled) c i o)
                   (mk_ring rb buf (P_write index data 0) c i o)
| rs_write_byte rb buf c i o index data k b :
    data !! k = Some b ->
    ring_step size (mk_ring rb buf (P_write index data k) c i o)
      (mk_ring rb
        (<[Z.to_nat (ring_pos size (index mod size) (zlen data) (Z.of_nat k)) := b]> buf)
        (P_write index data (S k)) c i o)
| rs_write_update rb buf c i o index data :
    ring_step size (mk_ring rb buf (P_write index data (length data)) c i o)
      (mk_ring (spa_ringbuffer_write_update (index + zlen data) rb) buf P_idle c (i ++ data) o)
| rs_get_read rb buf p i o :
    let '(index, avail) := spa_ringbuffer_get_read_index rb in
    ring_step size (mk_ring rb buf p C_idle i o) (mk_ring rb buf p (C_ready index avail) i o)
| rs_begin_read rb buf p i o index avail len :
    Z.of_nat len <= avail ->
    ring_step size (mk_ring rb buf p (C_ready index avail) i o)
                   (mk_ring rb buf p (C_read index len []) i o)
| rs_read_byte rb buf p i o index len got b :
    (length got < len)%nat ->
    buf !! Z.to_nat (ring_pos size (index mod size) (Z.of_nat len) (zlen got)) = Some b ->
    ring_step size (mk_ring rb buf p (C_read index len got) i o)
                   (mk_ring rb buf p (C_read index len (got ++ [b])) i o)
| rs_read_update rb buf p i o index len got :
    length got = len ->
    ring_step size (mk_ring rb buf p (C_read index len got) i o)
      (mk_ring (spa_ringbuffer_read_update (index + Z.of_nat len) rb) buf p C_idle i (o ++ got)).

Definition ring_start (buf : list byte) : ring :=
  mk_ring spa_ringbuffer_init buf P_idle C_idle [] [].

Definition ring_reachable (size : Z) (r : ring) : Prop :=
  exists buf, zlen buf = size /\ rtc (ring_step size) (ring_start buf) r.

(** The memory holds at most 2^30 bytes.  Its size is a power of two, or the
    [n] bytes published so far have not made the 32-bit index wrap: index
    modulo size only keeps going at the wrap when the size divides 2^32. *)
Definition ring_size (size n : Z) : Prop :=
  0 < size <= 2 ^ 30 /\ ((exists k, 0 <= k /\ size = 2 ^ k) \/ n < 2 ^ 32).

(** ** Positions *)

(** Byte [i] of the stream sits here. *)
Definition stream_at (size : Z) (buf : list byte) (i : Z) : option byte := buf !! Z.to_nat (i mod size).

Lemma ring_size_bounds size n : ring_size size n -> 0 < size <= 2 ^ 30.
Proof. by intros [? _]. Qed.

Lemma ring_size_mono size n n' : ring_size size n' -> n <= n' -> ring_size size n.
Proof. intros [? [?|?]] ?; (split; [done|]); [by left|right; lia]. Qed.

Lemma power_divides size k : size <= 2 ^ 30 -> 0 <= k -> size = 2 ^ k -> (size | 2 ^ 32).
Proof.
  intros Hs Hk ->. apply Z.pow_le_mono_r_iff in Hs; [|lia|lia].
  exists (2 ^ (32 - k)). rewrite <- Z.pow_add_r by lia. f_equal. lia.
Qed.

Lemma u32_mod_size size n : 0 <= n -> ring_size size n -> u32 n mod size = n mod size.
Proof.
  intros Hn [Hs [(k & Hk & E)|Hw]]; [|by rewrite wrap_small by lia].
  apply Z.mod_mod_divide. eapply power_divides; [|done|done]. lia.
Qed.

Lemma mod_apart size i d : 0 < d < size -> (i + d) mod size <> i mod size.
Proof.
  intros Hd E. apply Z.cong_iff_0 in E. replace (i + d - i) with d in E by lia.
  rewrite Z.mod_small in E; lia.
Qed.

Lemma ring_pos_mod size n len k :
  0 <= n -> ring_size size n -> 0 <= k < len -> len <= size ->
  ring_pos size (u32 n mod size) len k = (n + k) mod size.
Proof.
  intros Hn H Hk Hl. pose proof (ring_size_bounds _ _ H) as Hs. rewrite u32_mod_size by done.
  unfold ring_pos, first_part. pose proof (Z.mod_pos_bound n size ltac:(lia)) as Ho.
  rewrite (wrap_small 32 (size - n mod size)) by lia.
  rewrite <- (Z.add_mod_idemp_l n k) by lia.
  destruct (Z.ltb_spec k (Z.min len (size - n mod size))).
  - symmetry. apply Z.mod_small. lia.
  - replace (n mod size + k) with (k - Z.min len (size - n mod size) + 1 * size) by lia.
    rewrite Z.mod_add by lia. symmetry. apply Z.mod_small. lia.
Qed.

Lemma stream_insert_eq size buf i b :
  0 < size -> zlen buf = size -> stream_at size (<[Z.to_nat (i mod size) := b]> buf) i = Some b.
Proof.
  intros Hs Hb. unfold stream_at. apply list_lookup_insert_eq. unfold zlen in Hb.
  pose proof (Z.mod_pos_bound i size). lia.
Qed.

Lemma stream_insert_ne size buf i j b :
  0 < j - i < size -> stream_at size (<[Z.to_nat (j mod size) := b]> buf) i = stream_at size buf i.
Proof.
  intros Hd. unfold stream_at. apply list_lookup_insert_ne. intros E.
  pose proof (Z.mod_pos_bound i size). pose proof (Z.mod_pos_bound j size).
  apply (mod_apart size i (j - i) Hd). replace (i + (j - i)) with j by lia. lia.
Qed.

(** ** The invariant *)

(** What a thread in the middle of a call knows, [n_in] and [n_out] being the
    bytes published and consumed so far. *)
Definition producer_ok (size : Z) (buf : list byte) (n_in n_out : Z) (p : producer_pc) : Prop :=
  match p with
  | P_idle => True
  | P_ready index filled => index = u32 n_in /\ n_in - n_out <= filled <= size
  | P_write index data k =>
      index = u32 n_in /\ n_in - n_out + zlen data <= size /\ (k <= length data)%nat /\
      forall j, (j < k)%nat -> stream_at size buf (n_in + Z.of_nat j) = data !! j
  end.

Definition consumer_ok (n_in n_out : Z) (input : list byte) (c : consumer_pc) : Prop :=
  match c with
  | C_idle => True
  | C_ready index avail => index = u32 n_out /\ avail <= n_in - n_out
  | C_read index len got =>
      index = u32 n_out /\ Z.of_nat len <= n_in - n_out /\ (length got <= len)%nat /\
      forall j, (j < length got)%nat -> got !! j = input !! (Z.to_nat n_out + j)%nat
  end.

Record ring_ok (size : Z) (r : ring) : Prop := {
  ro_size : zlen (r_buf r) = size;
  ro_write : writeindex (r_rb r) = u32 (zlen (r_in r));
  ro_read : readindex (r_rb r) = u32 (zlen (r_out r));
  ro_fill : 0 <= zlen (r_in r) - zlen (r_out r) <= size;
  ro_out : r_out r `prefix_of` r_in r;
  ro_stored : forall i, zlen (r_out r) <= i < zlen (r_in r) ->
    stream_at size (r_buf r) i = r_in r !! Z.to_nat i;
  ro_prod : producer_ok size (r_buf r) (zlen (r_in r)) (zlen (r_out r)) (r_prod r);
  ro_cons : consumer_ok (zlen (r_in r)) (zlen (r_out r)) (r_in r) (r_cons r) }.

(** The difference of the wrapped indices is the fill level. *)
Lemma fill_level size n_in n_out :
  size <= 2 ^ 30 -> 0 <= n_in - n_out <= size -> swrap 32 (u32 n_in - u32 n_out) = n_in - n_out.
Proof.
  intros H Hf.
  assert (u32 (u32 n_in - u32 n_out) = n_in - n_out) as E.
  { unfold wrap. rewrite <- Zminus_mod. apply Z.mod_small. lia. }
  rewrite <- (swrap_wrap 32) by lia. rewrite E. apply swrap_small; lia.
Qed.

Lemma ring_start_ok size buf : 0 < size -> zlen buf = size -> ring_ok size (ring_start buf).
Proof.
  intros H Hb.
  constructor; cbn; try done; try (unfold zlen; cbn; lia).
Qed.

(** Reduce the projections of a concrete ring. *)
Ltac ring_cbn :=
  cbn [r_rb r_buf r_prod r_cons r_in r_out readindex writeindex producer_ok consumer_ok
       spa_ringbuffer_write_update spa_ringbuffer_read_update] in *.

(** A byte written into the free part of the buffer is not one that can still
    be read, nor one written before. *)
Lemma write_byte_ok size rb buf c i o index data k b :
  ring_size size (zlen i) -> data !! k = Some b ->
  ring_ok size (mk_ring rb buf (P_write index data k) c i o) ->
  ring_ok size (mk_ring rb
    (<[Z.to_nat (ring_pos size (index mod size) (zlen data) (Z.of_nat k)) := b]> buf)
    (P_write index data (S k)) c i o).
Proof.
  intros H Hb [Hs Hw Hr Hf Ho Hst Hp Hc]. ring_cbn. destruct Hp as (-> & Hl & Hk & Hj).
  apply lookup_lt_Some in Hb as Hlt. pose proof (ring_size_bounds _ _ H). pose proof (zlen_nonneg i).
  assert (Z.of_nat k < zlen data) by (unfold zlen; lia).
  rewrite ring_pos_mod by (done || lia).
  constructor; ring_cbn; try done.
  - unfold zlen. by rewrite length_insert.
  - intros x Hx. rewrite stream_insert_ne by lia. by apply Hst.
  - split_and!; [done|done|lia|]. intros j Hjk. destruct (decide (j = k)) as [->|].
    + rewrite Hb. apply stream_insert_eq; [lia|done].
    + rewrite stream_insert_ne by lia. apply Hj. lia.
Qed.

Lemma write_update_ok size rb buf c i o index data :
  ring_ok size (mk_ring rb buf (P_write index data (length data)) c i o) ->
  ring_ok size
    (mk_ring (spa_ringbuffer_write_update (index + zlen data) rb) buf P_idle c (i ++ data) o).
Proof.
  intros [Hs Hw Hr Hf Ho Hst Hp Hc]. ring_cbn. destruct Hp as (-> & Hl & _ & Hj).
  pose proof (zlen_nonneg data). constructor; ring_cbn; rewrite ?zlen_app; try done.
  - unfold wrap. by rewrite Z.add_mod_idemp_l.
  - lia.
  - by apply prefix_app_r.
  - intros x Hx. destruct (Z.lt_ge_cases x (zlen i)) as [Hxi|Hxi].
    + rewrite lookup_app_l by (unfold zlen in *; lia). apply Hst. lia.
    + rewrite lookup_app_r by (unfold zlen in *; lia).
      replace x with (zlen i + Z.of_nat (Z.to_nat x - length i)) at 1 by (unfold zlen in *; lia).
      apply Hj. unfold zlen in *. lia.
  - destruct c as [| |index len got]; cbn in *; [done|lia|].
    destruct Hc as (-> & ? & ? & Hg). split_and!; [done|lia|done|]. intros j Hjg.
    rewrite (Hg j Hjg). symmetry. apply lookup_app_l. unfold zlen in *. lia.
Qed.

Lemma read_byte_ok size rb buf p i o index len got b :
  ring_size size (zlen i) -> (length got < len)%nat ->
  buf !! Z.to_nat (ring_pos size (index mod size) (Z.of_nat len) (zlen got)) = Some b ->
  ring_ok size (mk_ring rb buf p (C_read index len got) i o) ->
  ring_ok size (mk_ring rb buf p (C_read index len (got ++ [b])) i o).
Proof.
  intros H Hlt Hb [Hs Hw Hr Hf Ho Hst Hp Hc]. ring_cbn. destruct Hc as (-> & Hl & _ & Hj).
  pose proof (zlen_nonneg o). pose proof (ring_size_mono size (zlen o) (zlen i) H ltac:(lia)).
  rewrite ring_pos_mod in Hb by (done || unfold zlen; lia).
  constructor; ring_cbn; try done. rewrite length_app. cbn. split_and!; [done|done|lia|].
  intros j Hjg. destruct (decide (j < length got)%nat) as [|Hge].
  - rewrite lookup_app_l by done. by apply Hj.
  - replace j with (length got) by lia. rewrite list_lookup_middle by done.
    rewrite <- Hb. replace (Z.to_nat (zlen o) + length got)%nat
      with (Z.to_nat (zlen o + zlen got)) by (unfold zlen; lia).
    apply (Hst (zlen o + zlen got)). unfold zlen in *. lia.
Qed.

Lemma read_update_ok size rb buf p i o index got :
  ring_ok size (mk_ring rb buf p (C_read index (length got) got) i o) ->
  ring_ok size
    (mk_ring (spa_ringbuffer_read_update (index + zlen got) rb) buf p C_idle i (o ++ got)).
Proof.
  intros [Hs Hw Hr Hf Ho Hst Hp Hc]. ring_cbn. destruct Hc as (-> & Hl & _ & Hj).
  change (zlen got <= zlen i - zlen o) in Hl. pose proof (zlen_nonneg got).
  constructor; ring_cbn; rewrite ?zlen_app in *; try done.
  - unfold wrap. by rewrite Z.add_mod_idemp_l.
  - lia.
  - destruct Ho as [rest ->]. apply prefix_app. exists (drop (length got) rest). rewrite <- (take_drop (length got) rest) at 1.
    f_equal. apply list_eq. intros j. destruct (decide (j < length got)%nat) as [Hjg|Hge].
    + rewrite lookup_take_lt by done. specialize (Hj j Hjg).
      rewrite lookup_app_r in Hj by (unfold zlen; lia). unfold zlen in Hj.
      by replace (Z.to_nat (Z.of_nat (length o)) + j - length o)%nat with j in Hj by lia.
    + rewrite lookup_take_ge by lia. symmetry. apply lookup_ge_None. lia.
  - intros x Hx. apply Hst. lia.
  - destruct p; cbn in *; [done|lia|]. destruct_and!. split_and!; try done. lia.
Qed.

Lemma ring_step_ok size r r' :
  ring_size size (zlen (r_in r)) -> ring_ok size r -> ring_step size r r' -> ring_ok size r'.
Proof.
  intros H Hr St. pose proof (proj2 (ring_size_bounds _ _ H)). destruct St; cbn in *.
  - destruct Hr as [Hs Hw Hr Hf Ho Hst Hp Hc]. ring_cbn. constructor; ring_cbn; try done.
    split; [done|]. rewrite Hw, Hr, (fill_level size) by done. lia.
  - destruct Hr as [Hs Hw Hr Hf Ho Hst Hp Hc]. ring_cbn. constructor; ring_cbn; try done.
    destruct Hp as [-> ?]. split_and!; [done|lia|lia|]. intros; lia.
  - by apply write_byte_ok.
  - by apply write_update_ok.
  - destruct Hr as [Hs Hw Hr Hf Ho Hst Hp Hc]. ring_cbn. constructor; ring_cbn; try done.
    split; [done|]. rewrite Hw, Hr, (fill_level size) by done. lia.
  - destruct Hr as [Hs Hw Hr Hf Ho Hst Hp Hc]. ring_cbn. constructor; ring_cbn; try done.
    destruct Hc as [-> ?]. split_and!; [done|lia|cbn; lia|]. cbn. intros; lia.
  - by eapply read_byte_ok.
  - subst. by apply read_update_ok.
Qed.

Lemma ring_step_in size r r' : ring_step size r r' -> zlen (r_in r) <= zlen (r_in r').
Proof. destruct 1; cbn; rewrite ?zlen_app; try done. pose proof (zlen_nonneg data). lia. Qed.

Lemma ring_reachable_ok size r : ring_size size (zlen (r_in r)) -> ring_reachable size r -> ring_ok size r.
Proof.
  intros H (buf & Hb & R). revert H. pattern r. revert r R. apply rtc_ind_r; [|intros x y R St IH]; intros H.
  - apply ring_start_ok; [by apply ring_size_bounds in H as []|done].
  - pose proof (ring_step_in _ _ _ St) as Hin. pose proof (ring_size_mono _ _ _ H Hin).
    eapply ring_step_ok; [done|by apply IH|done].
Qed.

(** ** The copies *)

Section Copies.
Variables (size offset len : Z).
Hypothesis size_small : size <= 2 ^ 30.
Hypothesis offset_in : 0 <= offset < size.
Hypothesis len_in : 0 <= len <= size.
#[local] Notation pos := (ring_pos size offset len).

Lemma first_part_eq : first_part size offset len = Z.min len (size - offset).
Proof. unfold first_part. by rewrite (wrap_small 32) by lia. Qed.

Lemma pos_range k : 0 <= k < len -> 0 <= pos k < size.
Proof. intros Hk. unfold ring_pos. rewrite first_part_eq. case_if; lia. Qed.

Lemma pos_inj j k : 0 <= j < len -> 0 <= k < len -> pos j = pos k -> j = k.
Proof. intros Hj Hk. unfold ring_pos. rewrite first_part_eq. do 2 case_if; lia. Qed.

(** [buf'] is [buf] with [data] stored at the positions of the transfer. *)
Definition transferred (buf : list byte) (data : list byte) (n : Z) (buf' : list byte) : Prop :=
  length buf' = length buf /\
  (forall k, 0 <= k < n -> buf' !! Z.to_nat (pos k) = data !! Z.to_nat k) /\
  (forall x, (forall k, 0 <= k < n -> Z.to_nat (pos k) <> x) -> buf' !! x = buf !! x).

Lemma transferred_unique buf data b1 b2 :
  transferred buf data len b1 -> transferred buf data len b2 -> b1 = b2.
Proof.
  intros (L1 & I1 & O1) (L2 & I2 & O2). apply list_eq. intros x.
  destruct (decide (Exists (fun k => Z.to_nat (pos k) = x) (seqZ 0 len))) as [Hx|Hx];
    rewrite Exists_exists in Hx; [destruct Hx as (k & Hk & <-)|].
  - apply elem_of_seqZ in Hk. rewrite I1, I2 by lia. done.
  - assert (forall k, 0 <= k < len -> Z.to_nat (pos k) <> x) as Hout.
    { intros k Hk E. apply Hx. exists k. split; [|done]. apply elem_of_seqZ. lia. }
    by rewrite O1, O2.
Qed.

Lemma write_data_transferred buf data :
  zlen buf = size -> zlen data = len ->
  exists buf', spa_ringbuffer_write_data buf size offset data len = Ret buf' /\
    transferred buf data len buf'.
Proof.
  intros Hb Hd. unfold spa_ringbuffer_write_data. rewrite first_part_eq. cbv zeta.
  set (l0 := Z.min len (size - offset)). rewrite load_ok by lia. cbn [obind].
  assert (zlen (slice 0 l0 data) = l0) as Hl0 by (apply zlen_slice; lia).
  rewrite store_ok by lia. cbn [obind].
  assert (zlen (overwrite buf offset (slice 0 l0 data)) = size) as Ho
    by (rewrite zlen_overwrite; lia).
  destruct (Z.ltb_spec 0 (len - l0)) as [Hl1|Hl1].
  - rewrite load_ok by lia. cbn [obind].
    assert (zlen (slice l0 (len - l0) data) = len - l0) as Hs by (apply zlen_slice; lia).
    rewrite store_ok by lia. eexists. split; [done|]. split; [|split].
    + assert (zlen (overwrite (overwrite buf offset (slice 0 l0 data)) 0 (slice l0 (len - l0) data)) = zlen buf)
        by (rewrite zlen_overwrite; lia). unfold zlen in *. lia.
    + intros k Hk. unfold ring_pos. rewrite first_part_eq. fold l0.
      rewrite !lookup_overwrite by lia. rewrite Hl0, Hs.
      case_if; repeat case_decide; try lia; rewrite lookup_slice by lia; f_equal; lia.
    + intros x Hx. rewrite !lookup_overwrite by lia. rewrite Hl0, Hs.
      repeat case_decide; try done; exfalso.
      * apply (Hx (l0 + Z.of_nat x)); [lia|]. unfold ring_pos. rewrite first_part_eq. fold l0. case_if; lia.
      * apply (Hx (Z.of_nat x - offset)); [lia|]. unfold ring_pos. rewrite first_part_eq. fold l0. case_if; lia.
  - eexists. split; [done|]. split; [|split].
    + unfold zlen in *. lia.
    + intros k Hk. unfold ring_pos. rewrite first_part_eq. fold l0.
      rewrite !lookup_overwrite by lia. rewrite Hl0.
      case_if; case_decide; try lia; rewrite lookup_slice by lia; f_equal; lia.
    + intros x Hx. rewrite lookup_overwrite by lia. rewrite Hl0. case_decide; [exfalso|done].
      apply (Hx (Z.of_nat x - offset)); [lia|]. unfold ring_pos. rewrite first_part_eq. fold l0. case_if; lia.
Qed.

Lemma read_data_bytes buf :
  zlen buf = size ->
  exists bs, spa_ringbuffer_read_data buf size offset len = Ret bs /\ zlen bs = len /\
    forall k, 0 <= k < len -> bs !! Z.to_nat k = buf !! Z.to_nat (pos k).
Proof.
  intros Hb. unfold spa_ringbuffer_read_data. rewrite first_part_eq. cbv zeta.
  set (l0 := Z.min len (size - offset)). rewrite load_ok by lia. cbn [obind].
  assert (zlen (slice offset l0 buf) = l0) as Hl0 by (apply zlen_slice; lia).
  destruct (Z.ltb_spec 0 (len - l0)) as [Hl1|Hl1].
  - rewrite load_ok by lia. cbn [obind].
    assert (zlen (slice 0 (len - l0) buf) = len - l0) as Hs by (apply zlen_slice; lia).
    eexists. split; [done|]. split; [rewrite zlen_app; lia|]. intros k Hk.
    unfold ring_pos. rewrite first_part_eq. fold l0. unfold zlen in Hl0. case_if.
    + rewrite lookup_app_l, lookup_slice by lia. f_equal. lia.
    + rewrite lookup_app_r, lookup_slice by lia. f_equal. lia.
  - eexists. split; [done|]. split; [lia|]. intros k Hk.
    unfold ring_pos. rewrite first_part_eq. fold l0. case_if; [|lia].
    rewrite lookup_slice by lia. f_equal. lia.
Qed.

(** The same transfers, byte by byte. *)
Lemma transferred_step buf data k b buf' :
  zlen buf = size -> Z.of_nat k < len -> data !! k = Some b ->
  transferred buf data (Z.of_nat k) buf' ->
  transferred buf data (Z.of_nat (S k)) (<[Z.to_nat (pos (Z.of_nat k)) := b]> buf').
Proof.
  intros Hb Hk Hd (HL & HI & HO). pose proof (pos_range (Z.of_nat k) ltac:(lia)) as Hp.
  split; [by rewrite length_insert|split].
  - intros j Hj. destruct (decide (j = Z.of_nat k)) as [->|].
    + rewrite Nat2Z.id, Hd. apply list_lookup_insert_eq. unfold zlen in *. lia.
    + pose proof (pos_range j ltac:(lia)). rewrite list_lookup_insert_ne; [apply HI; lia|].
      intros E. assert (j = Z.of_nat k) by (apply pos_inj; lia). lia.
  - intros x Hx. rewrite list_lookup_insert_ne by (apply Hx; lia). apply HO. intros j Hj. apply Hx. lia.
Qed.
End Copies.

Section Steps.
Variables (size : Z).
Hypothesis size_pos : 0 < size <= 2 ^ 30.

Lemma write_steps rb c i o index data buf k :
  zlen buf = size -> zlen data <= size -> (k <= length data)%nat ->
  exists buf', rtc (ring_step size) (mk_ring rb buf (P_write index data 0) c i o)
                   (mk_ring rb buf' (P_write index data k) c i o) /\
    transferred size (index mod size) (zlen data) buf data (Z.of_nat k) buf'.
Proof.
  intros Hb Hd. pose proof (Z.mod_pos_bound index size ltac:(lia)). pose proof (zlen_nonneg data).
  induction k as [|k IH]; intros Hk.
  - exists buf. split; [apply rtc_refl|]. split; [done|]. split; [lia|done].
  - destruct IH as (buf' & R & T); [lia|].
    destruct (lookup_lt_is_Some_2 data k ltac:(lia)) as [b Hbk].
    eexists. split; [eapply rtc_r; [exact R|by apply rs_write_byte]|].
    apply transferred_step; try done; try lia. unfold zlen. lia.
Qed.

Lemma read_steps rb p i o index len buf bs n :
  zlen buf = size -> Z.of_nat len <= size -> (n <= len)%nat ->
  spa_ringbuffer_read_data buf size (index mod size) (Z.of_nat len) = Ret bs ->
  rtc (ring_step size) (mk_ring rb buf p (C_read index len []) i o)
                       (mk_ring rb buf p (C_read index len (take n bs)) i o).
Proof.
  intros Hb Hl Hn Hr. pose proof (Z.mod_pos_bound index size ltac:(lia)).
  destruct (read_data_bytes size (index mod size) (Z.of_nat len) ltac:(lia) ltac:(lia) ltac:(lia) buf Hb)
    as (bs' & E & HL & HI). rewrite Hr in E. injection E as <-. unfold zlen in HL.
  induction n as [|n IH]; [apply rtc_refl|]. eapply rtc_r; [apply IH; lia|].
  destruct (lookup_lt_is_Some_2 bs n ltac:(lia)) as [b Hbn]. rewrite (take_S_r _ _ _ Hbn).
  apply rs_read_byte.
  - rewrite length_take. lia.
  - unfold zlen. rewrite length_take, Nat.min_l by lia. rewrite <- HI by lia. by rewrite Nat2Z.id.
Qed.
End Steps.

(** ** Properties *)

(** C12: one producer and one consumer that use index modulo size as offset and
    transfer no more than the reported room or data see a first-in first-out
    byte stream: what was consumed is a prefix of what was published, no more
    than [size] bytes are in flight, and both index queries report their
    number.  Every interleaving of the two threads, byte by byte, is covered.
    The size is at most 2^30.  If it is a power of two this holds forever, also
    after the 32-bit indices have wrapped; for any other size it holds while
    fewer than 2^32 bytes have been published ([ring_index_jumps] shows what the
    wrap does then). *)
Theorem ring_fifo (size : Z) (r : ring) :
  ring_size size (zlen (r_in r)) -> ring_reachable size r ->
  r_out r `prefix_of` r_in r /\
  0 <= zlen (r_in r) - zlen (r_out r) <= size /\
  (spa_ringbuffer_get_read_index (r_rb r)).2 = zlen (r_in r) - zlen (r_out r) /\
  (spa_ringbuffer_get_write_index (r_rb r)).2 = zlen (r_in r) - zlen (r_out r).
Proof.
  intros H R. pose proof (proj2 (ring_size_bounds _ _ H)).
  destruct (ring_reachable_ok _ _ H R) as [_ Hw Hr Hf Ho _ _ _]. cbn.
  rewrite Hw, Hr, (fill_level size) by done. done.
Qed.

(** A buffer of four bytes through which one byte has gone. *)
Lemma sample_ring_reachable :
  exists r, ring_reachable 4 r /\ r_in r = [Byte.x41] /\ r_out r = [Byte.x41].
Proof.
  eexists. split; [exists (zeroes 4); split; [done|]|split].
  - unfold ring_start.
    eapply rtc_l; [apply rs_get_write|]. cbn.
    eapply rtc_l; [apply (rs_begin_write _ _ _ _ _ _ _ _ [Byte.x41]); done|].
    eapply rtc_l; [by apply rs_write_byte|]. cbn.
    eapply rtc_l; [apply (rs_write_update _ _ _ _ _ _ _ [Byte.x41])|]. cbn.
    eapply rtc_l; [apply rs_get_read|]. cbn.
    eapply rtc_l; [apply (rs_begin_read _ _ _ _ _ _ _ _ 1); cbn; done|].
    eapply rtc_l; [apply rs_read_byte; [cbn; lia|reflexivity]|]. cbn.
    eapply rtc_l; [by apply rs_read_update|]. apply rtc_refl.
  - reflexivity.
  - reflexivity.
Qed.

Lemma ring_fifo_witness :
  exists r, r_in r = [Byte.x41] /\ r_out r `prefix_of` r_in r /\
    (spa_ringbuffer_get_read_index (r_rb r)).2 = zlen (r_in r) - zlen (r_out r).
Proof.
  destruct sample_ring_reachable as (r & R & Hi & Ho).
  assert (ring_size 4 (zlen (r_in r))) as H by (split; [lia|left; exists 2; split; [lia|reflexivity]]).
  destruct (ring_fifo 4 r H R) as (H1 & _ & H2 & _). exists r. split; [exact Hi|]. split; [exact H1|exact H2].
Defined.

(** A size that is not a power of two: when the index wraps, byte 2^32 of the
    stream goes to the place of byte 2^32 - 1, not behind it. *)
Lemma ring_index_jumps :
  (2 ^ 32 - 1) mod 3 = 0 /\ ring_pos 3 (u32 (2 ^ 32) mod 3) 1 0 = 0 /\ 2 ^ 32 mod 3 = 1.
Proof. by vm_compute. Qed.

(** The two [memcpy]s of [spa_ringbuffer_write_data] and of
    [spa_ringbuffer_read_data] stay inside the buffer and are the transfers the
    threads above make byte by byte, whatever the offset and the split at the
    end of the buffer. *)
Theorem ring_copies_refine (size : Z) (rb : spa_ringbuffer) (index : Z) (buf data : list byte)
    (p : producer_pc) (c : consumer_pc) (i o : list byte) (len : nat) :
  0 < size <= 2 ^ 30 -> zlen buf = size -> zlen data <= size -> Z.of_nat len <= size ->
  (exists buf',
    spa_ringbuffer_write_data buf size (index mod size) data (zlen data) = Ret buf' /\
    rtc (ring_step size) (mk_ring rb buf (P_write index data 0) c i o)
                         (mk_ring rb buf' (P_write index data (length data)) c i o)) /\
  (exists bs,
    spa_ringbuffer_read_data buf size (index mod size) (Z.of_nat len) = Ret bs /\
    rtc (ring_step size) (mk_ring rb buf p (C_read index len []) i o)
                         (mk_ring rb buf p (C_read index len bs) i o)).
Proof.
  intros Hs Hb Hd Hl. pose proof (Z.mod_pos_bound index size ltac:(lia)). pose proof (zlen_nonneg data).
  split.
  - destruct (write_data_transferred size (index mod size) (zlen data) ltac:(lia) ltac:(lia) ltac:(lia)
                buf data Hb eq_refl) as (b1 & E & T1).
    destruct (write_steps size Hs rb c i o index data buf (length data) Hb Hd (Nat.le_refl _))
      as (b2 & R & T2). exists b1. split; [done|].
    rewrite (transferred_unique size (index mod size) (zlen data) buf data b1 b2); done.
  - destruct (read_data_bytes size (index mod size) (Z.of_nat len) ltac:(lia) ltac:(lia) ltac:(lia) buf Hb)
      as (bs & E & HL & _). exists bs. split; [done|].
    rewrite <- (firstn_all bs). apply read_steps; try done. unfold zlen in HL. lia.
Qed.

Lemma ring_copies_refine_witness :
  exists buf', spa_ringbuffer_write_data (zeroes 4) 4 (7 mod 4) [Byte.x41; Byte.x42] 2 = Ret buf'.
Proof.
  destruct (ring_copies_refine 4 spa_ringbuffer_init 7 (zeroes 4) [Byte.x41; Byte.x42] P_idle C_idle [] [] 1)
    as [(b & E & _) _]; [lia|reflexivity|vm_compute; discriminate|lia|]. exists b. exact E.
Defined.

(** Data written at an offset is read back from it. *)
Theorem ring_write_read (size offset : Z) (buf data : list byte) :
  0 <= offset < size -> size <= 2 ^ 30 -> zlen buf = size -> zlen data <= size ->
  (let! buf' := spa_ringbuffer_write_data buf size offset data (zlen data) in
   spa_ringbuffer_read_data buf' size offset (zlen data)) = Ret data.
Proof.
  intros Ho Hs Hb Hd. pose proof (zlen_nonneg data) as Hn.
  destruct (write_data_transferred size offset (zlen data) Hs Ho (conj Hn Hd) buf data Hb eq_refl)
    as (b1 & -> & HL & HI & _). cbn [obind].
  destruct (read_data_bytes size offset (zlen data) Hs Ho (conj Hn Hd) b1) as (bs & -> & Hlen & HR).
  { unfold zlen in *. lia. }
  f_equal. apply list_eq. intros k. unfold zlen in *. destruct (decide (k < length data)%nat).
  - specialize (HR (Z.of_nat k)). specialize (HI (Z.of_nat k)). rewrite Nat2Z.id in *.
    rewrite HR, HI by lia. done.
  - rewrite !lookup_ge_None_2 by lia. done.
Qed.

Lemma ring_write_read_witness :
  (let! buf' := spa_ringbuffer_write_data (zeroes 4) 4 3 [Byte.x41; Byte.x42] 2 in
   spa_ringbuffer_read_data buf' 4 3 2) = Ret [Byte.x41; Byte.x42].
Proof. apply (ring_write_read 4 3 (zeroes 4) [Byte.x41; Byte.x42]); vm_compute; (done || (split; discriminate)). Defined.
