(* ===== verification/PwMap.v ===== *)
(** * Arrays and id maps

    Models [src/pipewire/array.h] and [src/pipewire/map.h]: a growable array of
    pointer-sized words, and the map from ids to pointers built on it, whose
    removed entries form a free list threaded through the array.  The words of
    the allocation are [a_data]; an access outside the allocation is a [Fault].
    [realloc] is a parameter; [errno] is passed explicitly. *)
From S2P Require Import Prelude Bytes.
From stdpp Require Import list sets.
#[local] Open Scope Z_scope.

Section PwMap.
(** [realloc p n] in units of words: the new words of an allocation of [n]
    bytes, or NULL with [errno] [ENOMEM]. *)
Context (realloc : list Z -> Z -> option (list Z)).

(** ** pw_array *)

(** [struct pw_array]; sizes in bytes. *)
Record pw_array : Type := mk_array {
  a_data : list Z;
  a_size : Z;
  a_alloc : Z;
  a_extend : Z }.

Definition pw_array_init (extend : Z) : pw_array := mk_array [] 0 0 extend.

Definition pw_array_clear (arr : pw_array) : pw_array := pw_array_init (a_extend arr).

Definition pw_array_init_static (data : list Z) (size : Z) : pw_array := mk_array data 0 size 0.

Definition pw_array_reset (arr : pw_array) : pw_array :=
  mk_array (a_data arr) 0 (a_alloc arr) (a_extend arr).

(** [SPA_ROUND_UP] on [size_t]. *)
Definition round_up (num value : Z) : Z := u64 (u64 (num + value - 1) / value * value).

(** The result code, the array and [errno]. *)
Definition pw_array_ensure_size (arr : pw_array) (size errno : Z) : Z * pw_array * Z :=
  let need := a_size arr + size in
  if 2 ^ 64 <=? need then (- ENOMEM, arr, errno)
  else if a_alloc arr <? need then
    if a_extend arr =? 0 then (- ENOSPC, arr, errno)
    else
      let alloc := round_up need (a_extend arr) in
      match realloc (a_data arr) alloc with
      | None => (- ENOMEM, arr, ENOMEM)
      | Some data => (0, mk_array data (a_size arr) alloc (a_extend arr), errno)
      end
  else (0, arr, errno).

(** The offset of the new element, or NULL. *)
Definition pw_array_add (arr : pw_array) (size errno : Z) : option Z * pw_array * Z :=
  let '(res, arr, errno) := pw_array_ensure_size arr size errno in
  if res <? 0 then (None, arr, errno)
  else (Some (a_size arr),
        mk_array (a_data arr) (a_size arr + size) (a_alloc arr) (a_extend arr), errno).

(** Loads and stores of the word at index [i]. *)
Definition get_word (arr : pw_array) (i : Z) : outcome Z :=
  if i <? 0 then Fault
  else match a_data arr !! Z.to_nat i with Some w => Ret w | None => Fault end.
Definition set_word (arr : pw_array) (i w : Z) : outcome pw_array :=
  if (0 <=? i) && (i <? zlen (a_data arr))
  then Ret (mk_array (<[Z.to_nat i := w]> (a_data arr)) (a_size arr) (a_alloc arr) (a_extend arr))
  else Fault.

Definition pw_array_add_ptr (arr : pw_array) (ptr errno : Z) : outcome (Z * pw_array * Z) :=
  let '(p, arr, errno) := pw_array_add arr 8 errno in
  match p with
  | None => Ret (- errno, arr, errno)
  | Some off => let! arr := set_word arr (off / 8) ptr in Ret (0, arr, errno)
  end.

(** [pw_array_remove(a, p)] for the word at index [i]: the words behind it move
    down. *)
Definition pw_array_remove (arr : pw_array) (i : nat) : pw_array :=
  let size := u64 (a_size arr - 8) in
  mk_array (take i (a_data arr) ++ take (Z.to_nat (size / 8) - i) (drop (S i) (a_data arr))
            ++ drop (Z.to_nat (size / 8)) (a_data arr))
           size (a_alloc arr) (a_extend arr).

(** The elements [pw_array_for_each] visits. *)
Definition array_words (arr : pw_array) : list Z := take (Z.to_nat (a_size arr / 8)) (a_data arr).

(** ** pw_map *)

Record pw_map : Type := mk_map { m_items : pw_array; m_free : Z }.

Definition pw_map_get_size (m : pw_map) : Z := a_size (m_items m) / 8.
Definition pw_map_get_item (m : pw_map) (id : Z) : outcome Z := get_word (m_items m) id.
Definition pw_map_item_is_free (item : Z) : bool := negb (Z.land item 1 =? 0).
Definition pw_map_check_id (m : pw_map) (id : Z) : bool := id <? pw_map_get_size m.

Definition PW_MAP_ID_TO_PTR (id : Z) : Z := u32 (Z.shiftl id 1).
Definition PW_MAP_PTR_TO_ID (p : Z) : Z := Z.shiftr (u32 p) 1.

Definition pw_map_has_item (m : pw_map) (id : Z) : outcome bool :=
  if pw_map_check_id m id
  then let! item := pw_map_get_item m id in Ret (negb (pw_map_item_is_free item))
  else Ret false.

Definition pw_map_init (size extend errno : Z) : pw_map * Z :=
  let items := pw_array_init (u64 (extend * 8)) in
  let '(_, items, errno) := pw_array_ensure_size items (u64 (size * 8)) errno in
  (mk_map items SPA_ID_INVALID, errno).

Definition pw_map_clear (m : pw_map) : pw_map := mk_map (pw_array_clear (m_items m)) (m_free m).

Definition pw_map_reset (m : pw_map) : pw_map := mk_map (pw_array_reset (m_items m)) SPA_ID_INVALID.

Definition pw_map_insert_new (m : pw_map) (data errno : Z) : outcome (Z * pw_map * Z) :=
  if negb (m_free m =? SPA_ID_INVALID) then
    let i := Z.shiftr (m_free m) 1 in
    let! next := pw_map_get_item m i in
    let! items := set_word (m_items m) i data in
    Ret (u32 i, mk_map items (u32 next), errno)
  else
    let '(p, items, errno) := pw_array_add (m_items m) 8 errno in
    match p with
    | None => Ret (SPA_ID_INVALID, mk_map items (m_free m), errno)
    | Some off =>
        let! items := set_word items (off / 8) data in
        Ret (u32 (off / 8), mk_map items (m_free m), errno)
    end.

Definition pw_map_insert_at (m : pw_map) (id data errno : Z) : outcome (Z * pw_map * Z) :=
  let size := pw_map_get_size m in
  if size <? id then Ret (- ENOSPC, m, errno)
  else if id =? size then
    let '(p, items, errno) := pw_array_add (m_items m) 8 errno in
    match p with
    | None => Ret (- errno, mk_map items (m_free m), errno)
    | Some off =>
        let! items := set_word items (off / 8) data in
        Ret (0, mk_map items (m_free m), errno)
    end
  else
    let! item := pw_map_get_item m id in
    if pw_map_item_is_free item then Ret (- EINVAL, m, errno)
    else
      let! items := set_word (m_items m) id data in
      Ret (0, mk_map items (m_free m), errno).

Definition pw_map_remove (m : pw_map) (id : Z) : outcome pw_map :=
  let! item := pw_map_get_item m id in
  if pw_map_item_is_free item then Ret m
  else
    let! items := set_word (m_items m) id (m_free m) in
    Ret (mk_map items (Z.lor (u32 (Z.shiftl id 1)) 1)).

(** NULL is 0. *)
Definition pw_map_lookup (m : pw_map) (id : Z) : outcome Z :=
  if pw_map_check_id m id then
    let! item := pw_map_get_item m id in
    Ret (if pw_map_item_is_free item then 0 else item)
  else Ret 0.

(** [func] is the callback with its data; the calls made so far come first. *)
Fixpoint for_each_items (func : Z -> Z) (l : list Z) : list Z * Z :=
  match l with
  | [] => ([], 0)
  | item :: l =>
      if pw_map_item_is_free item then for_each_items func l
      else
        let res := func item in
        if res =? 0 then let '(seen, r) := for_each_items func l in (item :: seen, r)
        else ([item], res)
  end.
Definition pw_map_for_each (func : Z -> Z) (m : pw_map) : list Z * Z :=
  for_each_items func (array_words (m_items m)).

(** ** Calls of a client *)

Inductive map_call : Type :=
| Insert_new (data : Z)
| Insert_at (id data : Z)
| Remove (id : Z)
| Lookup (id : Z)
| Has_item (id : Z)
| Clear
| Reset_map.

(** What the caller has to see to: data pointers are even, ids and the size
    stay below the limit set by the 32-bit free list, only ids inside the map
    are removed, and nothing is inserted into a map that was cleared with removed
    entries before it is reset: its free list still names them. *)
Definition even_ptr (p : Z) : Prop := is_u64 p /\ Z.land p 1 = 0.
Definition has_room (m : pw_map) : Prop := pw_map_get_size m < 2 ^ 31 - 1.
Definition free_list_valid (m : pw_map) : Prop := pw_map_get_size m = 0 -> m_free m = SPA_ID_INVALID.
Definition call_ok (m : pw_map) (c : map_call) : Prop :=
  match c with
  | Insert_new data => even_ptr data /\ has_room m /\ free_list_valid m
  | Insert_at id data => even_ptr data /\ is_u32 id /\ has_room m /\ free_list_valid m
  | Remove id => is_u32 id /\ id < pw_map_get_size m
  | Lookup id | Has_item id => is_u32 id
  | Clear | Reset_map => True
  end.

Definition run_map_call (m : pw_map) (c : map_call) (errno : Z) : outcome (Z * pw_map * Z) :=
  match c with
  | Insert_new data => pw_map_insert_new m data errno
  | Insert_at id data => pw_map_insert_at m id data errno
  | Remove id => let! m := pw_map_remove m id in Ret (0, m, errno)
  | Lookup id => let! p := pw_map_lookup m id in Ret (p, m, errno)
  | Has_item id => let! b := pw_map_has_item m id in Ret (if b then 1 else 0, m, errno)
  | Clear => Ret (0, pw_map_clear m, errno)
  | Reset_map => Ret (0, pw_map_reset m, errno)
  end.

Inductive map_run (m : pw_map) (errno : Z) : list (map_call * Z) -> pw_map -> Z -> Prop :=
| run_nil : map_run m errno [] m errno
| run_snoc tr m1 e1 c r m2 e2 :
    map_run m errno tr m1 e1 -> call_ok m1 c -> run_map_call m1 c e1 = Ret (r, m2, e2) ->
    map_run m errno (tr ++ [(c, r)]) m2 e2.

(** ** The abstract map

    Slots hold a pointer or are free; the free ones are reused last removed
    first. *)
Record amap : Type := mk_amap { slots : list (option Z); free : list nat }.

Inductive amap_step : amap -> map_call -> Z -> amap -> Prop :=
| as_reuse sl id fr p : sl !! id = Some None ->
    amap_step (mk_amap sl (id :: fr)) (Insert_new p) (Z.of_nat id) (mk_amap (<[id := Some p]> sl) fr)
| as_append sl p :
    amap_step (mk_amap sl []) (Insert_new p) (zlen sl) (mk_amap (sl ++ [Some p]) [])
| as_full sl p : amap_step (mk_amap sl []) (Insert_new p) SPA_ID_INVALID (mk_amap sl [])
| as_replace sl fr id old p : sl !! id = Some (Some old) ->
    amap_step (mk_amap sl fr) (Insert_at (Z.of_nat id) p) 0 (mk_amap (<[id := Some p]> sl) fr)
| as_at_free sl fr id p : sl !! id = Some None ->
    amap_step (mk_amap sl fr) (Insert_at (Z.of_nat id) p) (- EINVAL) (mk_amap sl fr)
| as_at_end sl fr p :
    amap_step (mk_amap sl fr) (Insert_at (zlen sl) p) 0 (mk_amap (sl ++ [Some p]) fr)
| as_at_full sl fr p :
    amap_step (mk_amap sl fr) (Insert_at (zlen sl) p) (- ENOMEM) (mk_amap sl fr)
| as_at_beyond sl fr id p : zlen sl < id ->
    amap_step (mk_amap sl fr) (Insert_at id p) (- ENOSPC) (mk_amap sl fr)
| as_remove sl fr id old : sl !! id = Some (Some old) ->
    amap_step (mk_amap sl fr) (Remove (Z.of_nat id)) 0 (mk_amap (<[id := None]> sl) (id :: fr))
| as_remove_free sl fr id : sl !! id = Some None ->
    amap_step (mk_amap sl fr) (Remove (Z.of_nat id)) 0 (mk_amap sl fr)
| as_lookup sl fr id p : sl !! id = Some (Some p) ->
    amap_step (mk_amap sl fr) (Lookup (Z.of_nat id)) p (mk_amap sl fr)
| as_lookup_none sl fr id : (forall p, sl !! Z.to_nat id <> Some (Some p)) ->
    amap_step (mk_amap sl fr) (Lookup id) 0 (mk_amap sl fr)
| as_has sl fr id p : sl !! id = Some (Some p) ->
    amap_step (mk_amap sl fr) (Has_item (Z.of_nat id)) 1 (mk_amap sl fr)
| as_has_not sl fr id : (forall p, sl !! Z.to_nat id <> Some (Some p)) ->
    amap_step (mk_amap sl fr) (Has_item id) 0 (mk_amap sl fr)
| as_clear A : amap_step A Clear 0 (mk_amap [] [])
| as_reset A : amap_step A Reset_map 0 (mk_amap [] []).

Inductive amap_run : list (map_call * Z) -> amap -> Prop :=
| arun_nil : amap_run [] (mk_amap [] [])
| arun_snoc tr A c r A' : amap_run tr A -> amap_step A c r A' -> amap_run (tr ++ [(c, r)]) A'.

(** ** Representation *)

(** The free list starting at [f] visits [ids]. *)
Fixpoint chain (data : list Z) (f : Z) (ids : list nat) : Prop :=
  match ids with
  | [] => f = SPA_ID_INVALID
  | id :: ids => f = 2 * Z.of_nat id + 1 /\ exists next, data !! id = Some next /\ chain data next ids
  end.

Record array_rep (arr : pw_array) (n : nat) : Prop := {
  ar_size : a_size arr = 8 * Z.of_nat n;
  ar_alloc : a_size arr <= a_alloc arr < 2 ^ 64;
  ar_words : zlen (a_data arr) = a_alloc arr / 8;
  ar_extend : 0 < a_extend arr < 2 ^ 62 }.

Record map_rep (m : pw_map) (A : amap) : Prop := {
  mr_array : array_rep (m_items m) (length (slots A));
  mr_bound : zlen (slots A) <= 2 ^ 31 - 1;
  mr_live : forall id p, slots A !! id = Some (Some p) ->
    a_data (m_items m) !! id = Some p /\ Z.land p 1 = 0;
  mr_chain : chain (a_data (m_items m)) (m_free m) (free A);
  mr_free : forall id, id ∈ free A <-> slots A !! id = Some None;
  mr_nodup : NoDup (free A) }.

(** A map that was cleared while its free list was not empty. *)
Definition cleared (m : pw_map) : Prop := array_rep (m_items m) 0 /\ m_free m <> SPA_ID_INVALID.

(** The map in any state a client can bring it to. *)
Definition represents (m : pw_map) (A : amap) : Prop := map_rep m A \/ cleared m /\ A = mk_amap [] [].
End PwMap.

(** ** Proofs *)

Section Proofs.
Context (realloc : list Z -> Z -> option (list Z)).

(** [realloc] returns [n] bytes and keeps the contents. *)
Definition realloc_keeps : Prop :=
  forall old n new, 0 <= n -> realloc old n = Some new ->
    zlen new = n / 8 /\ forall i, (i < length old)%nat -> (i < length new)%nat -> new !! i = old !! i.
Hypothesis realloc_ok : realloc_keeps.

Lemma round_up_spec need extend :
  0 <= need <= 2 ^ 62 -> 0 < extend < 2 ^ 62 -> need <= round_up need extend < 2 ^ 64.
Proof.
  intros Hn He. unfold round_up. rewrite (wrap_small 64 (need + extend - 1)) by lia.
  pose proof (Z.div_mod (need + extend - 1) extend ltac:(lia)) as E.
  pose proof (Z.mod_pos_bound (need + extend - 1) extend ltac:(lia)).
  rewrite wrap_small by nia. nia.
Qed.

Lemma array_rep_words arr n : array_rep arr n -> (n <= length (a_data arr))%nat.
Proof.
  intros [Hs Ha Hw _]. unfold zlen in Hw. assert (Z.of_nat n <= a_alloc arr / 8); [|lia].
  apply Z.div_le_lower_bound; lia.
Qed.

(** One more element: the words so far are kept, or the array is untouched. *)
Lemma array_add_rep arr n errno :
  array_rep arr n -> Z.of_nat n <= 2 ^ 31 ->
  (pw_array_add realloc arr 8 errno = (None, arr, ENOMEM)) \/
  (exists arr', pw_array_add realloc arr 8 errno = (Some (8 * Z.of_nat n), arr', errno) /\
    array_rep arr' (S n) /\ forall i, (i < n)%nat -> a_data arr' !! i = a_data arr !! i).
Proof.
  intros Hr Hn. pose proof (array_rep_words _ _ Hr) as Hlen. destruct Hr as [Hs Ha Hw He].
  rewrite <- Hs. unfold pw_array_add, pw_array_ensure_size. cbv zeta.
  rewrite (proj2 (Z.leb_gt (2 ^ 64) (a_size arr + 8))) by lia.
  destruct (Z.ltb_spec (a_alloc arr) (a_size arr + 8)).
  - rewrite (proj2 (Z.eqb_neq (a_extend arr) 0)) by lia.
    pose proof (round_up_spec (a_size arr + 8) (a_extend arr) ltac:(lia) He) as Hru.
    destruct (realloc _ _) as [new|] eqn:E; [right|by left].
    edestruct realloc_ok as [Hl Hk]; [|exact E|]; [lia|]. cbn. eexists. split; [done|]. split.
    + constructor; cbn; try done; lia.
    + cbn. intros i Hi. apply Hk; [lia|]. unfold zlen in Hl.
      assert (Z.of_nat (S n) <= round_up (a_size arr + 8) (a_extend arr) / 8); [|lia].
      apply Z.div_le_lower_bound; lia.
  - right. cbn. eexists. split; [done|]. split; [|done].
    constructor; cbn; try done; lia.
Qed.

Lemma get_word_in arr i w : a_data arr !! i = Some w -> get_word arr (Z.of_nat i) = Ret w.
Proof.
  intros H. unfold get_word. rewrite (proj2 (Z.ltb_ge _ 0)) by lia. by rewrite Nat2Z.id, H.
Qed.

Definition with_word (arr : pw_array) (i : nat) (w : Z) : pw_array :=
  mk_array (<[i := w]> (a_data arr)) (a_size arr) (a_alloc arr) (a_extend arr).

Lemma set_word_in arr i w :
  (i < length (a_data arr))%nat -> set_word arr (Z.of_nat i) w = Ret (with_word arr i w).
Proof.
  intros H. unfold set_word. rewrite (proj2 (Z.leb_le 0 _)) by lia.
  rewrite (proj2 (Z.ltb_lt _ _)) by (unfold zlen; lia). cbn [andb]. by rewrite Nat2Z.id.
Qed.

Lemma with_word_rep arr n i w : array_rep arr n -> array_rep (with_word arr i w) n.
Proof.
  intros [? ? Hw ?]. constructor; try done. cbn. unfold zlen in *. by rewrite length_insert.
Qed.

(** ** The free list *)

Lemma chain_ext data data' f ids :
  (forall id, id ∈ ids -> data' !! id = data !! id) -> chain data f ids -> chain data' f ids.
Proof.
  revert f. induction ids as [|id ids IH]; intros f Hd; [done|]. intros (-> & next & Hn & Hc).
  split; [done|]. exists next. rewrite Hd by set_solver. split; [done|]. apply IH; [set_solver|done].
Qed.

Lemma chain_odd data f ids : chain data f ids -> Z.land f 1 <> 0.
Proof.
  destruct ids as [|id ids]; [by intros ->|]. intros [-> _].
  change 1 with (Z.ones 1) at 2. rewrite Z.land_ones by lia. change (2 ^ 1) with 2.
  rewrite Z.add_comm, Z.mul_comm, Z.mod_add by lia. done.
Qed.

Lemma chain_member data f ids id :
  chain data f ids -> id ∈ ids -> exists w, data !! id = Some w /\ Z.land w 1 <> 0.
Proof.
  revert f. induction ids as [|x ids IH]; intros f; [by intros _ ?%not_elem_of_nil|].
  intros (_ & next & Hn & Hc) [->|Hid]%elem_of_cons; [|by eapply IH].
  exists next. split; [done|]. by eapply chain_odd.
Qed.

(** ** What the representation says about an id *)

Section Rep.
Context {m : pw_map} {A : amap} (R : map_rep m A).

Lemma rep_size : pw_map_get_size m = zlen (slots A).
Proof.
  unfold pw_map_get_size. rewrite (ar_size _ _ (mr_array _ _ R)). unfold zlen.
  rewrite Z.mul_comm. by apply Z.div_mul.
Qed.

Lemma rep_words id x : slots A !! id = Some x -> (id < length (a_data (m_items m)))%nat.
Proof.
  intros H%lookup_lt_Some. pose proof (array_rep_words _ _ (mr_array _ _ R)). lia.
Qed.

Lemma rep_live id p :
  slots A !! id = Some (Some p) ->
  pw_map_get_item m (Z.of_nat id) = Ret p /\ pw_map_item_is_free p = false.
Proof.
  intros H. destruct (mr_live _ _ R id p H) as [Hd Hp]. split; [by apply get_word_in|].
  unfold pw_map_item_is_free. by rewrite Hp.
Qed.

Lemma rep_free id :
  slots A !! id = Some None ->
  exists w, pw_map_get_item m (Z.of_nat id) = Ret w /\ pw_map_item_is_free w = true.
Proof.
  intros H. apply (mr_free _ _ R) in H.
  destruct (chain_member _ _ _ _ (mr_chain _ _ R) H) as (w & Hd & Hw). exists w.
  split; [by apply get_word_in|]. unfold pw_map_item_is_free.
  by rewrite (proj2 (Z.eqb_neq _ 0) Hw).
Qed.

(** Inside the map an id is live or free. *)
Lemma rep_cases id :
  is_u32 id -> id < zlen (slots A) ->
  (exists p, slots A !! Z.to_nat id = Some (Some p)) \/ slots A !! Z.to_nat id = Some None.
Proof.
  intros Hid Hlt. destruct (lookup_lt_is_Some_2 (slots A) (Z.to_nat id)) as [[p|] Hp].
  - unfold zlen in Hlt. unfold is_u32 in Hid. lia.
  - left. by exists p.
  - by right.
Qed.

Lemma rep_free_bound id : id ∈ free A -> Z.of_nat id < 2 ^ 31 - 1.
Proof.
  intros H%(mr_free _ _ R)%lookup_lt_Some. pose proof (mr_bound _ _ R). unfold zlen in *. lia.
Qed.

Lemma rep_not_free id p : slots A !! id = Some (Some p) -> id ∉ free A.
Proof. intros H F%(mr_free _ _ R). congruence. Qed.

(** ** The representation after each kind of update *)

Lemma rep_replace id old p :
  slots A !! id = Some (Some old) -> Z.land p 1 = 0 ->
  map_rep (mk_map (with_word (m_items m) id p) (m_free m)) (mk_amap (<[id := Some p]> (slots A)) (free A)).
Proof.
  intros H Hp. pose proof (rep_words _ _ H) as Hw. pose proof (rep_not_free _ _ H) as Hf.
  destruct R as [Ha Hb Hl Hc Hfr Hn]. constructor; cbn; try done.
  - rewrite length_insert. by apply with_word_rep.
  - unfold zlen in *. by rewrite length_insert.
  - intros i q. destruct (decide (i = id)) as [->|Hne].
    + rewrite !list_lookup_insert_eq by (done || by eapply lookup_lt_Some). by intros [= ->].
    + rewrite !list_lookup_insert_ne by done. apply Hl.
  - eapply chain_ext; [|exact Hc]. intros i Hi. apply list_lookup_insert_ne. by intros ->.
  - intros i. rewrite Hfr. destruct (decide (i = id)) as [->|Hne].
    + rewrite list_lookup_insert_eq by (by eapply lookup_lt_Some). by rewrite H.
    + by rewrite list_lookup_insert_ne.
Qed.

Lemma rep_remove id old :
  slots A !! id = Some (Some old) ->
  map_rep (mk_map (with_word (m_items m) id (m_free m)) (2 * Z.of_nat id + 1))
          (mk_amap (<[id := None]> (slots A)) (id :: free A)).
Proof.
  intros H. pose proof (rep_words _ _ H) as Hw. pose proof (rep_not_free _ _ H) as Hf.
  destruct R as [Ha Hb Hl Hc Hfr Hn]. constructor; cbn; try done.
  - rewrite length_insert. by apply with_word_rep.
  - unfold zlen in *. by rewrite length_insert.
  - intros i q. destruct (decide (i = id)) as [->|Hne].
    + by rewrite list_lookup_insert_eq by (by eapply lookup_lt_Some).
    + rewrite !list_lookup_insert_ne by done. apply Hl.
  - split; [done|]. exists (m_free m). rewrite list_lookup_insert_eq by done. split; [done|].
    eapply chain_ext; [|exact Hc]. intros i Hi. apply list_lookup_insert_ne. by intros ->.
  - intros i. rewrite elem_of_cons, Hfr. destruct (decide (i = id)) as [->|Hne].
    + rewrite list_lookup_insert_eq by (by eapply lookup_lt_Some). by split; [|left].
    + rewrite list_lookup_insert_ne by done. tauto.
  - by constructor.
Qed.

Lemma rep_reuse id fr next p :
  free A = id :: fr -> a_data (m_items m) !! id = Some next -> chain (a_data (m_items m)) next fr ->
  Z.land p 1 = 0 ->
  map_rep (mk_map (with_word (m_items m) id p) next) (mk_amap (<[id := Some p]> (slots A)) fr).
Proof.
  intros E Hd Hch Hp. assert (slots A !! id = Some None) as H by (apply (mr_free _ _ R); rewrite E; set_solver).
  apply lookup_lt_Some in Hd as Hw. apply lookup_lt_Some in H as Hid.
  destruct R as [Ha Hb Hl Hc Hfr Hn]. rewrite E in *. apply NoDup_cons in Hn as [Hnin Hn].
  constructor; cbn; try done.
  - rewrite length_insert. by apply with_word_rep.
  - unfold zlen in *. by rewrite length_insert.
  - intros i q. destruct (decide (i = id)) as [->|Hne].
    + rewrite !list_lookup_insert_eq by done. by intros [= ->].
    + rewrite !list_lookup_insert_ne by done. apply Hl.
  - eapply chain_ext; [|exact Hch]. intros i Hi. apply list_lookup_insert_ne. by intros ->.
  - intros i. destruct (decide (i = id)) as [->|Hne].
    + rewrite list_lookup_insert_eq by done. split; [done|congruence].
    + rewrite list_lookup_insert_ne by done. rewrite <- Hfr, elem_of_cons. tauto.
Qed.

Lemma rep_append arr p :
  array_rep arr (S (length (slots A))) -> zlen (slots A) < 2 ^ 31 - 1 -> Z.land p 1 = 0 ->
  (forall i, (i < length (slots A))%nat -> a_data arr !! i = a_data (m_items m) !! i) ->
  map_rep (mk_map (with_word arr (length (slots A)) p) (m_free m)) (mk_amap (slots A ++ [Some p]) (free A)).
Proof.
  intros Harr Hroom Hp Hk. pose proof (array_rep_words _ _ Harr) as Hw.
  destruct R as [Ha Hb Hl Hc Hfr Hn]. constructor; cbn; try done.
  - rewrite length_app, Nat.add_comm. by apply with_word_rep.
  - rewrite zlen_app. unfold zlen in *. cbn. lia.
  - intros i q [Hi|[Hi Hq]]%lookup_app_Some; [|apply list_lookup_singleton_Some in Hq as [? [= ->]]].
    + apply lookup_lt_Some in Hi as Hlt. rewrite list_lookup_insert_ne, Hk by lia. by apply Hl.
    + assert (i = length (slots A)) as -> by lia. by rewrite list_lookup_insert_eq by lia.
  - eapply chain_ext; [|exact Hc]. intros i Hi%Hfr%lookup_lt_Some.
    rewrite list_lookup_insert_ne by lia. by apply Hk.
  - intros i. rewrite Hfr. split.
    + intros Hi. by apply lookup_app_l_Some.
    + intros [Hi|[_ Hq]]%lookup_app_Some; [done|]. by apply list_lookup_singleton_Some in Hq as [_ ?].
Qed.
End Rep.

(** ** Simulation *)

(** The concrete call answers as the abstract map does and the results
    represent each other. *)
Definition simulates (m : pw_map) (A : amap) (c : map_call) (errno : Z) : Prop :=
  exists r m' errno' A', run_map_call realloc m c errno = Ret (r, m', errno') /\
    amap_step A c r A' /\ represents m' A'.

(** The common tail of both insertions at the end of the array. *)
Lemma append_sim m A errno p :
  map_rep m A -> zlen (slots A) < 2 ^ 31 - 1 -> Z.land p 1 = 0 ->
  pw_array_add realloc (m_items m) 8 errno = (None, m_items m, ENOMEM) \/
  exists arr, pw_array_add realloc (m_items m) 8 errno = (Some (8 * zlen (slots A)), arr, errno) /\
    set_word arr (8 * zlen (slots A) / 8) p = Ret (with_word arr (length (slots A)) p) /\
    map_rep (mk_map (with_word arr (length (slots A)) p) (m_free m))
            (mk_amap (slots A ++ [Some p]) (free A)).
Proof.
  intros R Hroom Hp.
  destruct (array_add_rep (m_items m) (length (slots A)) errno (mr_array _ _ R)) as [->|(arr & -> & Har & Hk)];
    [unfold zlen in Hroom; lia|by left|right]. exists arr. split; [done|]. split.
  - rewrite Z.mul_comm, Z.div_mul by lia. apply set_word_in. pose proof (array_rep_words _ _ Har). lia.
  - by apply rep_append.
Qed.

Lemma insert_new_sim m A errno p :
  map_rep m A -> call_ok m (Insert_new p) -> simulates m A (Insert_new p) errno.
Proof.
  intros R ([_ Hp] & Hroom & _). unfold has_room in Hroom. rewrite (rep_size R) in Hroom.
  unfold simulates. cbn [run_map_call]. unfold pw_map_insert_new.
  pose proof (mr_chain _ _ R) as Hc. destruct (free A) as [|id fr] eqn:Ef; cbn [chain] in Hc.
  - rewrite Hc. cbn [Z.eqb negb]. change (negb (_ =? _)) with false. cbv iota.
    destruct (append_sim m A errno p R Hroom Hp) as [->|(arr & -> & Es & R')].
    + do 3 eexists. exists A. split; [done|]. rewrite <- Hc. destruct m, A. cbn in *. subst.
      split; [apply as_full|by left].
    + rewrite Es. cbn [obind]. do 3 eexists. eexists. split; [done|]. rewrite Hc in R'.
      split; [|by left]. destruct A. cbn in *. subst. rewrite (Z.mul_comm 8), Z.div_mul by lia.
      rewrite wrap_small by (pose proof (zlen_nonneg slots0); lia). apply as_append.
  - destruct Hc as (Hf & next & Hd & Hc).
    pose proof (rep_free_bound R id ltac:(rewrite Ef; set_solver)) as Hid.
    assert (u32 next = next) as En.
    { destruct fr as [|x fr]; cbn in Hc; [by subst next|]. destruct Hc as [-> _].
      pose proof (rep_free_bound R x ltac:(rewrite Ef; set_solver)). apply wrap_small. lia. }
    rewrite Hf. rewrite (proj2 (Z.eqb_neq _ _)) by lia. cbn [negb].
    replace (Z.shiftr (2 * Z.of_nat id + 1) 1) with (Z.of_nat id)
      by (rewrite Z.shiftr_div_pow2 by lia; change (2 ^ 1) with 2; Z.to_euclidean_division_equations; lia).
    unfold pw_map_get_item. rewrite (get_word_in _ _ _ Hd). cbn [obind].
    rewrite set_word_in by (by eapply lookup_lt_Some). cbn [obind]. rewrite En, wrap_small by lia.
    do 3 eexists. eexists. split; [done|]. split; [|left; by eapply rep_reuse].
    destruct A. cbn in *. subst. apply as_reuse. apply (mr_free _ _ R). cbn. set_solver.
Qed.

Lemma insert_at_sim m A errno id p :
  map_rep m A -> call_ok m (Insert_at id p) -> simulates m A (Insert_at id p) errno.
Proof.
  intros R ([_ Hp] & Hid & Hroom & _). unfold has_room in Hroom. unfold simulates. cbn [run_map_call].
  unfold pw_map_insert_at. cbv zeta. rewrite (rep_size R) in *.
  destruct (Z.ltb_spec (zlen (slots A)) id) as [Hgt|Hle].
  { do 3 eexists. exists A. split; [done|]. destruct A. split; [by apply as_at_beyond|by left]. }
  destruct (Z.eqb_spec id (zlen (slots A))) as [->|Hne].
  - destruct (append_sim m A errno p R Hroom Hp) as [->|(arr & -> & Es & R')].
    + do 3 eexists. exists A. split; [done|]. destruct m, A. split; [apply as_at_full|by left].
    + rewrite Es. cbn [obind]. do 3 eexists. eexists. split; [done|]. split; [|by left].
      destruct A. apply as_at_end.
  - destruct (rep_cases (A := A) id Hid ltac:(lia)) as [[q Hq]|Hq].
    + destruct (rep_live R _ _ Hq) as [Hg Hfr]. unfold is_u32 in Hid. rewrite Z2Nat.id in Hg by lia.
      rewrite Hg. cbn [obind]. rewrite Hfr.
      pose proof (set_word_in (m_items m) (Z.to_nat id) p (rep_words R _ _ Hq)) as Es.
      rewrite Z2Nat.id in Es by lia. rewrite Es. cbn [obind]. do 3 eexists. eexists. split; [done|].
      split; [|left; by eapply rep_replace]. rewrite <- (Z2Nat.id id) at 1 by lia. destruct A. by eapply as_replace.
    + destruct (rep_free R _ Hq) as (w & Hg & Hfr). unfold is_u32 in Hid. rewrite Z2Nat.id in Hg by lia.
      rewrite Hg. cbn [obind]. rewrite Hfr. do 3 eexists. exists A. split; [done|]. split; [|by left].
      rewrite <- (Z2Nat.id id) at 1 by lia. destruct A. by apply as_at_free.
Qed.

Lemma remove_sim m A errno id :
  map_rep m A -> call_ok m (Remove id) -> simulates m A (Remove id) errno.
Proof.
  intros R [Hid Hlt]. rewrite (rep_size R) in Hlt. unfold simulates. cbn [run_map_call]. unfold pw_map_remove.
  destruct (rep_cases (A := A) id Hid Hlt) as [[q Hq]|Hq]; unfold is_u32 in Hid.
  - destruct (rep_live R _ _ Hq) as [Hg Hfr]. rewrite Z2Nat.id in Hg by lia.
    rewrite Hg. cbn [obind]. rewrite Hfr.
    pose proof (set_word_in (m_items m) (Z.to_nat id) (m_free m) (rep_words R _ _ Hq)) as Es.
    rewrite Z2Nat.id in Es by lia. rewrite Es. cbn [obind]. do 3 eexists. eexists. split; [done|].
    pose proof (mr_bound _ _ R). pose proof (rep_remove R _ _ Hq) as R'. rewrite Z2Nat.id in R' by lia.
    rewrite Z.shiftl_mul_pow2, wrap_small by lia. change (2 ^ 1) with 2.
    replace (Z.lor (id * 2) 1) with (2 * id + 1).
    2: { pose proof (Z.add_lor_land (id * 2) 1). pose proof (Z.land_ones (id * 2) 1 ltac:(lia)) as E.
         change (Z.ones 1) with 1 in E. change (2 ^ 1) with 2 in E. rewrite Z.mod_mul in E by lia. lia. }
    split; [|by left]. rewrite <- (Z2Nat.id id) at 1 by lia. destruct A. by eapply as_remove.
  - destruct (rep_free R _ Hq) as (w & Hg & Hfr). rewrite Z2Nat.id in Hg by lia.
    rewrite Hg. cbn [obind]. rewrite Hfr. do 3 eexists. exists A. split; [done|]. split; [|by left].
    rewrite <- (Z2Nat.id id) at 1 by lia. destruct A. by apply as_remove_free.
Qed.

(** The two calls that only read. *)
Lemma read_cases m A id :
  map_rep m A -> is_u32 id ->
  (exists q, slots A !! Z.to_nat id = Some (Some q) /\
     pw_map_lookup m id = Ret q /\ pw_map_has_item m id = Ret true) \/
  ((forall p, slots A !! Z.to_nat id <> Some (Some p)) /\
     pw_map_lookup m id = Ret 0 /\ pw_map_has_item m id = Ret false).
Proof.
  intros R Hid. unfold pw_map_lookup, pw_map_has_item, pw_map_check_id. rewrite (rep_size R).
  destruct (Z.ltb_spec id (zlen (slots A))) as [Hlt|Hge].
  - destruct (rep_cases (A := A) id Hid Hlt) as [[q Hq]|Hq]; unfold is_u32 in Hid.
    + left. exists q. destruct (rep_live R _ _ Hq) as [Hg Hfr]. rewrite Z2Nat.id in Hg by lia.
      rewrite Hg. cbn [obind]. by rewrite Hfr.
    + right. destruct (rep_free R _ Hq) as (w & Hg & Hfr). rewrite Z2Nat.id in Hg by lia.
      rewrite Hg. cbn [obind]. rewrite Hfr. split; [congruence|done].
  - right. split; [|done]. intros p Hp%lookup_lt_Some. unfold zlen, is_u32 in *. lia.
Qed.

Lemma lookup_sim m A errno id :
  map_rep m A -> is_u32 id -> simulates m A (Lookup id) errno /\ simulates m A (Has_item id) errno.
Proof.
  intros R Hid. unfold simulates. cbn [run_map_call]. destruct A as [sl fr].
  destruct (read_cases m _ id R Hid) as [(q & Hq & -> & ->)|(Hq & -> & ->)]; cbn [slots obind] in *.
  - pose proof Hid as []. rewrite <- (Z2Nat.id id) by lia.
    split; do 3 eexists; eexists; (split; [done|]); (split; [by constructor + by econstructor|by left]).
  - split; do 3 eexists; eexists; (split; [done|]); (split; [by constructor|by left]).
Qed.

(** Both ways to empty a map. *)
Lemma reset_rep arr n : array_rep arr n -> map_rep (mk_map (pw_array_reset arr) SPA_ID_INVALID) (mk_amap [] []).
Proof.
  intros [Hs Ha Hw He]. constructor; cbn; try done.
  - constructor; cbn; try done. lia.
  - intros i. split; [by intros ?%not_elem_of_nil|done].
  - constructor.
Qed.

Lemma clear_rep m n : array_rep (m_items m) n -> represents (pw_map_clear m) (mk_amap [] []).
Proof.
  intros [Hs Ha Hw He]. assert (array_rep (pw_array_clear (m_items m)) 0) as Hc by (by constructor; cbn).
  destruct (decide (m_free m = SPA_ID_INVALID)) as [E|E]; [left|by right]. constructor; cbn; try done.
  - intros i. split; [by intros ?%not_elem_of_nil|done].
  - constructor.
Qed.

Lemma empty_sim m A n errno c :
  array_rep (m_items m) n -> c = Clear \/ c = Reset_map -> simulates m A c errno.
Proof.
  intros Ha [-> | ->]; unfold simulates; cbn [run_map_call]; do 3 eexists; eexists; (split; [done|]).
  - split; [apply as_clear|by eapply clear_rep].
  - split; [apply as_reset|left; by eapply reset_rep].
Qed.

(** A cleared map answers as an empty one. *)
Lemma cleared_sim m c errno : cleared m -> call_ok m c -> simulates m (mk_amap [] []) c errno.
Proof.
  intros [Ha Hf] Hok. assert (pw_map_get_size m = 0) as Hz.
  { unfold pw_map_get_size. by rewrite (ar_size _ _ Ha). }
  destruct c as [p|id p|id|id|id| |]; try (by eapply empty_sim; [exact Ha|auto]); cbn in Hok.
  - destruct Hok as (_ & _ & Hv). by apply Hv in Hz.
  - destruct Hok as (_ & _ & _ & Hv). by apply Hv in Hz.
  - unfold is_u32 in Hok. lia.
  - unfold simulates. cbn [run_map_call]. unfold pw_map_lookup, pw_map_check_id. rewrite Hz.
    unfold is_u32 in Hok. rewrite (proj2 (Z.ltb_ge _ _)) by lia. do 3 eexists. eexists. split; [done|].
    split; [by apply as_lookup_none|by right].
  - unfold simulates. cbn [run_map_call]. unfold pw_map_has_item, pw_map_check_id. rewrite Hz.
    unfold is_u32 in Hok. rewrite (proj2 (Z.ltb_ge _ _)) by lia. do 3 eexists. eexists. split; [done|].
    split; [by apply as_has_not|by right].
Qed.

Lemma call_sim m A c errno : represents m A -> call_ok m c -> simulates m A c errno.
Proof.
  intros [R|[Hc ->]] Hok; [|by apply cleared_sim].
  destruct c; try (by eapply empty_sim; [apply R|auto]);
    [by apply insert_new_sim|by apply insert_at_sim|by apply remove_sim|by apply lookup_sim..].
Qed.

Lemma represents_size m A : represents m A -> pw_map_get_size m = zlen (slots A).
Proof.
  intros [R|[[Ha _] ->]]; [by apply rep_size|]. unfold pw_map_get_size. by rewrite (ar_size _ _ Ha).
Qed.

Lemma init_rep size extend errno :
  0 <= size <= 2 ^ 31 -> 0 < extend < 2 ^ 32 ->
  map_rep (pw_map_init realloc size extend errno).1 (mk_amap [] []).
Proof.
  intros Hs He. unfold pw_map_init, pw_array_init, pw_array_ensure_size. cbn [a_size a_alloc a_extend a_data].
  rewrite (wrap_small 64 (extend * 8)), (wrap_small 64 (size * 8)) by lia. cbv zeta.
  rewrite (proj2 (Z.leb_gt (2 ^ 64) (0 + size * 8))) by lia.
  assert (forall arr, array_rep arr 0 -> map_rep (mk_map arr SPA_ID_INVALID) (mk_amap [] [])) as Hok.
  { intros arr Ha. constructor; cbn; try done.
    - intros i. split; [by intros ?%not_elem_of_nil|done].
    - constructor. }
  destruct (Z.ltb_spec 0 (0 + size * 8)).
  - rewrite (proj2 (Z.eqb_neq (extend * 8) 0)) by lia.
    pose proof (round_up_spec (0 + size * 8) (extend * 8) ltac:(lia) ltac:(lia)).
    destruct (realloc _ _) as [new|] eqn:E; apply Hok; constructor; cbn; try done; try lia.
    edestruct realloc_ok as [Hl _]; [|exact E|]; [lia|done].
  - apply Hok. constructor; cbn; try done; lia.
Qed.

Lemma run_rep size extend errno tr m e :
  0 <= size <= 2 ^ 31 -> 0 < extend < 2 ^ 32 ->
  map_run realloc (pw_map_init realloc size extend errno).1 errno tr m e ->
  exists A, amap_run tr A /\ represents m A.
Proof.
  intros Hs He Run. induction Run as [|tr m1 e1 c r m2 e2 _ (A & HA & R) Hok E].
  - exists (mk_amap [] []). split; [constructor|left; by apply init_rep].
  - destruct (call_sim m1 A c e1 R Hok) as (r' & m' & e' & A' & E' & St & R').
    rewrite E in E'. injection E' as <- <- <-. exists A'. split; [by econstructor|done].
Qed.

(** ** Iteration *)

(** A word and the slot it stands for. *)
Definition word_of (w : Z) (x : option Z) : Prop :=
  match x with
  | Some p => w = p /\ pw_map_item_is_free w = false
  | None => pw_map_item_is_free w = true
  end.

Lemma rep_word_of m A : represents m A -> Forall2 word_of (array_words (m_items m)) (slots A).
Proof.
  intros [R|[[Ha _] ->]]; unfold array_words; [|by rewrite (ar_size _ _ Ha)].
  rewrite (ar_size _ _ (mr_array _ _ R)), Z.mul_comm, Z.div_mul, Nat2Z.id by lia.
  pose proof (array_rep_words _ _ (mr_array _ _ R)) as Hw.
  apply Forall2_same_length_lookup. split; [rewrite length_take; lia|]. intros i w x Hi Hx.
  apply lookup_lt_Some in Hx as Hlt. rewrite lookup_take_lt in Hi by done.
  apply get_word_in in Hi. destruct x as [p|].
  - destruct (rep_live R _ _ Hx) as [Hg ?]. unfold pw_map_get_item in Hg. rewrite Hi in Hg. by injection Hg as ->.
  - destruct (rep_free R _ Hx) as (v & Hg & ?). unfold pw_map_get_item in Hg. rewrite Hi in Hg. by injection Hg as ->.
Qed.

(** [func] on the live pointers until it returns something else than 0. *)
Fixpoint visit (func : Z -> Z) (l : list (option Z)) : list Z * Z :=
  match l with
  | [] => ([], 0)
  | None :: l => visit func l
  | Some p :: l =>
      if func p =? 0 then let '(seen, r) := visit func l in (p :: seen, r) else ([p], func p)
  end.

Lemma for_each_visit func ws l : Forall2 word_of ws l -> for_each_items func ws = visit func l.
Proof.
  induction 1 as [|w x ws l Hx _ IH]; [done|]. destruct x as [p|]; cbn in *.
  - destruct Hx as [-> ->]. by rewrite IH.
  - by rewrite Hx.
Qed.
End Proofs.

(** ** Properties *)

(** An allocator that always succeeds and clears what it adds. *)
Definition sample_realloc (old : list Z) (n : Z) : option (list Z) :=
  Some (take (Z.to_nat (n / 8)) (old ++ replicate (Z.to_nat (n / 8)) 0)).

Lemma sample_realloc_keeps : realloc_keeps sample_realloc.
Proof.
  intros old n new Hn [= <-]. unfold zlen. rewrite length_take, length_app, length_replicate.
  pose proof (Z.div_pos n 8 Hn ltac:(lia)). split; [lia|]. intros i Hi Hlt.
  rewrite lookup_take_lt by lia. by apply lookup_app_l.
Qed.

Definition sample_map : pw_map := (pw_map_init sample_realloc 2 4 0).1.

(** An insertion, a removal and an insertion that reuses the id; the map is
    cleared with a removed entry, reset, and used again. *)
Definition sample_trace : list (map_call * Z) :=
  [(Insert_new 64, 0); (Remove 0, 0); (Insert_new 80, 0); (Remove 0, 0); (Clear, 0); (Lookup 0, 0);
   (Reset_map, 0); (Insert_new 96, 0)].
Definition sample_final : pw_map := mk_map (mk_array [96; 0; 0; 0] 8 32 32) SPA_ID_INVALID.

(** A run from its first call on. *)
Lemma run_cons realloc m e c r m1 e1 tr m2 e2 :
  call_ok m c -> run_map_call realloc m c e = Ret (r, m1, e1) -> map_run realloc m1 e1 tr m2 e2 ->
  map_run realloc m e ((c, r) :: tr) m2 e2.
Proof.
  intros Hok E. induction 1 as [|tr m3 e3 c' r' m4 e4 _ IH Hok' E'].
  - by apply (run_snoc _ _ _ [] m e); [constructor|..].
  - rewrite app_comm_cons. by eapply run_snoc.
Qed.

Lemma sample_run : map_run sample_realloc sample_map 0 sample_trace sample_final 0.
Proof. repeat (eapply run_cons; [repeat split; vm_compute; done|reflexivity|]). constructor. Qed.

(** C14: a map answers every history of calls the way the abstract map does:
    ids are those of slots that hold nothing, a removed id is reused last
    removed first, a lookup returns what was inserted at the id last and NULL
    for a free or unknown one, a failed allocation changes nothing, clearing and
    resetting empty the map; and no allowed call ever accesses memory outside
    the array.  The calls are those of [map_call].  What a caller has to see to
    is [call_ok]: even pointers, fewer than 2^31 - 1 entries, removals of ids
    inside the map, and no insertion between a clear that leaves a free list and
    the reset ([map_clear_dangling] is such an insertion). *)
Theorem pw_map_refines (realloc : list Z -> Z -> option (list Z)) (size extend errno : Z)
    (tr : list (map_call * Z)) (m : pw_map) (e : Z) :
  realloc_keeps realloc -> 0 <= size <= 2 ^ 31 -> 0 < extend < 2 ^ 32 ->
  map_run realloc (pw_map_init realloc size extend errno).1 errno tr m e ->
  exists A, amap_run tr A /\ pw_map_get_size m = zlen (slots A) /\
    forall c, call_ok m c ->
    exists r m' e' A', run_map_call realloc m c e = Ret (r, m', e') /\ amap_step A c r A'.
Proof.
  intros Hr Hs He Run. destruct (run_rep realloc Hr _ _ _ _ _ _ Hs He Run) as (A & HA & R).
  exists A. split; [done|]. split; [by apply represents_size|]. intros c Hc.
  destruct (call_sim realloc Hr m A c e R Hc) as (r & m' & e' & A' & ? & ? & _). eauto 6.
Qed.

Lemma pw_map_refines_witness :
  exists A, amap_run sample_trace A /\ pw_map_get_size sample_final = zlen (slots A).
Proof.
  destruct (pw_map_refines sample_realloc 2 4 0 sample_trace sample_final 0) as (A & H1 & H2 & _).
  - exact sample_realloc_keeps.
  - lia.
  - lia.
  - exact sample_run.
  - exists A. split; [exact H1|exact H2].
Defined.

(** [pw_map_for_each] calls the function on the inserted pointers that
    have not been removed, in the order of their ids, and stops at the first
    result that is not 0. *)
Theorem pw_map_for_each_live (realloc : list Z -> Z -> option (list Z)) (size extend errno : Z)
    (tr : list (map_call * Z)) (m : pw_map) (e : Z) (func : Z -> Z) :
  realloc_keeps realloc -> 0 <= size <= 2 ^ 31 -> 0 < extend < 2 ^ 32 ->
  map_run realloc (pw_map_init realloc size extend errno).1 errno tr m e ->
  exists A, amap_run tr A /\ pw_map_for_each func m = visit func (slots A).
Proof.
  intros Hr Hs He Run. destruct (run_rep realloc Hr _ _ _ _ _ _ Hs He Run) as (A & HA & R).
  exists A. split; [done|]. by apply for_each_visit, rep_word_of.
Qed.

Lemma pw_map_for_each_live_witness :
  exists A, amap_run sample_trace A /\ pw_map_for_each (fun _ => 0) sample_final = visit (fun _ => 0) (slots A).
Proof.
  apply (pw_map_for_each_live sample_realloc 2 4 0 sample_trace sample_final 0).
  - exact sample_realloc_keeps.
  - lia.
  - lia.
  - exact sample_run.
Defined.

(** A map that was cleared after a removal keeps its free list; the next
    insertion follows it into the storage that is gone. *)
Lemma map_clear_dangling :
  (let! m := pw_map_remove (mk_map (mk_array [64; 0; 0; 0] 8 32 32) SPA_ID_INVALID) 0 in
   pw_map_insert_new sample_realloc (pw_map_clear m) 80 0) = Fault.
Proof. reflexivity. Qed.

(** Adding to a full static array fails without setting [errno], so
    [pw_array_add_ptr] may report success and add nothing. *)
Lemma array_add_ptr_lost realloc :
  pw_array_add_ptr realloc (mk_array [64] 8 8 0) 80 0 = Ret (0, mk_array [64] 8 8 0, 0).
Proof. reflexivity. Qed.
