(* ===== verification/BufferAlloc.v ===== *)
(** * Allocation of buffers

    Models [spa/include/spa/buffer/alloc.h] ([spa_buffer_alloc_fill_info],
    [spa_buffer_alloc_layout], [spa_buffer_alloc_layout_array],
    [spa_buffer_alloc_array]), the structures of
    [spa/include/spa/buffer/buffer.h] and [alloc_buffers] and
    [pw_buffers_clear] of [src/pipewire/buffers.c].  Addresses and sizes are
    64-bit numbers with their wrap-around; [calloc] and the memory pool are
    parameters.  A buffer is described by the addresses the code stores in it,
    and the theorems are about the extents of memory those addresses start. *)
From S2P Require Import Prelude Bytes.
#[local] Open Scope Z_scope.

(** [struct spa_meta], [struct spa_data] and [struct spa_buffer]; the two
    arrays of a buffer are given by their address and their elements. *)
Record spa_meta : Type := mk_meta {
  mt_type : Z;
  mt_size : Z;
  mt_data : Z }.

Record spa_data : Type := mk_data {
  dt_type : Z;
  dt_flags : Z;
  dt_fd : Z;
  dt_mapoffset : Z;
  dt_maxsize : Z;
  dt_data : Z;
  dt_chunk : Z }.

Record spa_buffer : Type := mk_buffer {
  b_addr : Z;
  b_n_metas : Z;
  b_n_datas : Z;
  b_metas : Z;
  b_datas : Z;
  b_meta_list : list spa_meta;
  b_data_list : list spa_data }.

Notation sizeof_spa_buffer := 24.
Notation sizeof_spa_meta := 16.
Notation sizeof_spa_data := 40.
Notation sizeof_spa_chunk := 16.

Notation SPA_BUFFER_ALLOC_FLAG_INLINE_META := 1.
Notation SPA_BUFFER_ALLOC_FLAG_INLINE_CHUNK := 2.
Notation SPA_BUFFER_ALLOC_FLAG_INLINE_DATA := 4.
Notation SPA_BUFFER_ALLOC_FLAG_INLINE_ALL := 7.
Notation SPA_BUFFER_ALLOC_FLAG_NO_DATA := 8.

(** [SPA_PTROFF] and [SPA_PTR_ALIGN]. *)
Definition ptroff (p off : Z) : Z := u64 (p + off).
Definition ptr_align (p align : Z) : Z := round_up_n 64 p align.

(** [struct spa_buffer_alloc_info]. *)
Record spa_buffer_alloc_info : Type := mk_info {
  ai_flags : Z;
  ai_max_align : Z;
  ai_metas : list spa_meta;
  ai_datas : list spa_data;
  ai_data_aligns : list Z;
  ai_skel_size : Z;
  ai_meta_size : Z;
  ai_chunk_size : Z;
  ai_data_size : Z;
  ai_mem_size : Z }.

(** [*target += n] on one of the two sizes. *)
Definition add_target (skel : bool) (n : Z) (sizes : Z * Z) : Z * Z :=
  if skel then (u64 (sizes.1 + n), sizes.2) else (sizes.1, u64 (sizes.2 + n)).

(** The loop over the metas: each size is rounded as the [uint32_t] it is. *)
Definition metas_size (metas : list spa_meta) : Z :=
  fold_left (fun size m => u64 (size + round_up_n 32 (mt_size m) 8)) metas 0.

(** The loop over the datas: the size and [max_align]. *)
Fixpoint datas_size (datas : list spa_data) (data_aligns : list Z) (size max_align : Z) : Z * Z :=
  match datas, data_aligns with
  | d :: datas, align :: data_aligns =>
      datas_size datas data_aligns (u64 (round_up_n 64 size align + dt_maxsize d))
        (Z.max max_align align)
  | _, _ => (size, max_align)
  end.

(** [SPA_ROUND_UP_N] of a [size_t] with a [uint32_t] alignment, which is
    decremented at 32 bits. *)
Definition round_up_target (target align : Z) : Z := round_up_n 64 target (u32 (align - 1) + 1).

(** [n_datas ? data_aligns[0] : 1]. *)
Definition first_align (datas : list spa_data) (data_aligns : list Z) : Z :=
  match datas, data_aligns with _ :: _, a :: _ => a | _, _ => 1 end.

Definition spa_buffer_alloc_fill_info (flags : Z) (metas : list spa_meta)
  (datas : list spa_data) (data_aligns : list Z) : spa_buffer_alloc_info :=
  let skel_size := u64 (u64 (sizeof_spa_buffer + u64 (zlen metas * sizeof_spa_meta))
                        + u64 (zlen datas * sizeof_spa_data)) in
  let meta_size := metas_size metas in
  let sizes := add_target (flag_is_set flags SPA_BUFFER_ALLOC_FLAG_INLINE_META) meta_size
                 (skel_size, 0) in
  let chunk_size := u64 (zlen datas * sizeof_spa_chunk) in
  let sizes := add_target (flag_is_set flags SPA_BUFFER_ALLOC_FLAG_INLINE_CHUNK) chunk_size sizes in
  let '(data_size, max_align) := datas_size datas data_aligns 0 16 in
  let skel := negb (flag_is_set flags SPA_BUFFER_ALLOC_FLAG_NO_DATA) &&
              flag_is_set flags SPA_BUFFER_ALLOC_FLAG_INLINE_DATA in
  let target := if skel then sizes.1 else sizes.2 in
  let target := round_up_target target (first_align datas data_aligns) in
  let target := u64 (target + data_size) in
  let target := round_up_target target max_align in
  let sizes := if skel then (target, sizes.2) else (sizes.1, target) in
  mk_info flags max_align metas datas data_aligns sizes.1 meta_size chunk_size data_size sizes.2.

(** The loop that places the metas from [*dp] on. *)
Fixpoint layout_metas (metas : list spa_meta) (dp : Z) : list spa_meta * Z :=
  match metas with
  | [] => ([], dp)
  | m :: metas =>
      let '(ms, dp') := layout_metas metas (ptroff dp (round_up_n 32 (mt_size m) 8)) in
      (mk_meta (mt_type m) (mt_size m) dp :: ms, dp')
  end.

Definition data_set (d : spa_data) (data chunk : Z) : spa_data :=
  mk_data (dt_type d) (dt_flags d) (dt_fd d) (dt_mapoffset d) (dt_maxsize d) data chunk.

(** The loop that gives the datas their chunk, [cp] on, and their memory,
    from [*dp] on. *)
Fixpoint layout_datas (no_data : bool) (datas : list spa_data) (data_aligns : list Z) (cp dp : Z)
  : list spa_data :=
  match datas, data_aligns with
  | d :: datas, align :: data_aligns =>
      if no_data then
        data_set d (dt_data d) cp
          :: layout_datas no_data datas data_aligns (ptroff cp sizeof_spa_chunk) dp
      else
        let dp := ptr_align dp align in
        data_set d dp cp
          :: layout_datas no_data datas data_aligns (ptroff cp sizeof_spa_chunk)
               (ptroff dp (dt_maxsize d))
  | _, _ => []
  end.

Definition spa_buffer_alloc_layout (info : spa_buffer_alloc_info) (skel_mem data_mem : Z)
  : spa_buffer :=
  let flags := ai_flags info in
  let metas := ptroff skel_mem sizeof_spa_buffer in
  let datas := ptroff metas (u64 (zlen (ai_metas info) * sizeof_spa_meta)) in
  let skel := ptroff datas (u64 (zlen (ai_datas info) * sizeof_spa_data)) in
  let data := data_mem in
  let inline_meta := flag_is_set flags SPA_BUFFER_ALLOC_FLAG_INLINE_META in
  let '(ml, dp) := layout_metas (ai_metas info) (if inline_meta then skel else data) in
  let '(skel, data) := if inline_meta then (dp, data) else (skel, dp) in
  let size := u64 (zlen (ai_datas info) * sizeof_spa_chunk) in
  let '(cp, skel, data) :=
    if flag_is_set flags SPA_BUFFER_ALLOC_FLAG_INLINE_CHUNK
    then (skel, ptroff skel size, data) else (data, skel, ptroff data size) in
  let dp := if flag_is_set flags SPA_BUFFER_ALLOC_FLAG_INLINE_DATA then skel else data in
  let dl := layout_datas (flag_is_set flags SPA_BUFFER_ALLOC_FLAG_NO_DATA) (ai_datas info)
              (ai_data_aligns info) cp dp in
  mk_buffer skel_mem (zlen (ai_metas info)) (zlen (ai_datas info)) metas datas ml dl.

Fixpoint spa_buffer_alloc_layout_array (info : spa_buffer_alloc_info) (n_buffers : nat)
  (skel_mem data_mem : Z) : list spa_buffer :=
  match n_buffers with
  | O => []
  | S n =>
      spa_buffer_alloc_layout info skel_mem data_mem
        :: spa_buffer_alloc_layout_array info n (ptroff skel_mem (ai_skel_size info))
             (ptroff data_mem (ai_mem_size info))
  end.

(** [spa_buffer_find_meta] and [spa_buffer_find_meta_data]. *)
Definition spa_buffer_find_meta (b : spa_buffer) (type : Z) : option spa_meta :=
  find (fun m => mt_type m =? type) (b_meta_list b).
Definition spa_buffer_find_meta_data (b : spa_buffer) (type size : Z) : option Z :=
  match spa_buffer_find_meta b type with
  | Some m => if size <=? mt_size m then Some (mt_data m) else None
  | None => None
  end.

(** ** The allocators *)

Notation PW_BUFFERS_FLAG_NO_MEM := 1.
Notation PW_BUFFERS_FLAG_SHARED := 2.
Notation PW_BUFFERS_FLAG_DYNAMIC := 4.

Notation SPA_DATA_MemFd := 2.
Notation SPA_DATA_FLAG_READWRITE := 3.
Notation SPA_DATA_FLAG_DYNAMIC := 4.
Notation SPA_DATA_FLAG_MAPPABLE := 8.
Notation SPA_DATA_FLAG_HUGE_PAGES := (2 ^ 28).
Notation SPA_DATA_FLAG_HUGE_2MB := (2 ^ 29).
Notation SPA_DATA_FLAG_HUGE_1GB := (2 ^ 30).

Notation PW_MEMBLOCK_FLAG_READWRITE := 3.
Notation PW_MEMBLOCK_FLAG_SEAL := 4.
Notation PW_MEMBLOCK_FLAG_MAP := 8.
Notation PW_MEMBLOCK_FLAG_HUGE_PAGES_HINT := (2 ^ 7).
Notation PW_MEMBLOCK_FLAG_HUGE_2MB_HINT := (2 ^ 8).
Notation PW_MEMBLOCK_FLAG_HUGE_1GB_HINT := (2 ^ 9).
Notation PW_MEMBLOCK_FLAG_HUGE_PAGES := (2 ^ 10).

Inductive spa_buffer_page_size_hint : Type :=
| SPA_BUFFER_PAGE_SIZE_NORMAL
| SPA_BUFFER_PAGE_SIZE_HUGE_DEFAULT
| SPA_BUFFER_PAGE_SIZE_HUGE_2MB
| SPA_BUFFER_PAGE_SIZE_HUGE_1GB.

(** The fields of [struct pw_memblock] the allocator uses; [mb_map] is the
    address [map->ptr], [None] when [map] is NULL: [pw_mempool_alloc] only maps a
    block that is not empty. *)
Record pw_memblock : Type := mk_memblock {
  mb_fd : Z;
  mb_flags : Z;
  mb_page_size : Z;
  mb_size : Z;
  mb_map : option Z }.

(** [struct pw_buffers], with the address of the block of the skeletons. *)
Record pw_buffers : Type := mk_buffers {
  pb_mem : option pw_memblock;
  pb_block : Z;
  pb_buffers : list spa_buffer;
  pb_n_buffers : Z;
  pb_flags : Z }.

Definition data_or_flags (f : Z) (d : spa_data) : spa_data :=
  mk_data (dt_type d) (Z.lor (dt_flags d) f) (dt_fd d) (dt_mapoffset d) (dt_maxsize d)
    (dt_data d) (dt_chunk d).

(** The descriptions of the datas. *)
Definition init_data (flags type size : Z) : spa_data :=
  let f := if flag_is_set flags PW_BUFFERS_FLAG_DYNAMIC then SPA_DATA_FLAG_DYNAMIC else 0 in
  let f := if flag_is_set flags PW_BUFFERS_FLAG_NO_MEM then f else Z.lor f SPA_DATA_FLAG_READWRITE in
  mk_data type f 0 0 size 0 0.

(** The flags of the layout: no memory for the datas when the caller has none
    allocated, everything in the skeleton when it is not shared. *)
Definition alloc_info_flags (flags : Z) : Z :=
  let iflags := if flag_is_set flags PW_BUFFERS_FLAG_NO_MEM
                then SPA_BUFFER_ALLOC_FLAG_NO_DATA else 0 in
  if flag_is_set flags PW_BUFFERS_FLAG_SHARED then iflags
  else Z.lor iflags SPA_BUFFER_ALLOC_FLAG_INLINE_ALL.

Definition memblock_flags (hint : spa_buffer_page_size_hint) : Z :=
  let fl := Z.lor (Z.lor PW_MEMBLOCK_FLAG_READWRITE PW_MEMBLOCK_FLAG_SEAL) PW_MEMBLOCK_FLAG_MAP in
  match hint with
  | SPA_BUFFER_PAGE_SIZE_HUGE_DEFAULT => Z.lor fl PW_MEMBLOCK_FLAG_HUGE_PAGES_HINT
  | SPA_BUFFER_PAGE_SIZE_HUGE_2MB =>
      Z.lor fl (Z.lor PW_MEMBLOCK_FLAG_HUGE_PAGES_HINT PW_MEMBLOCK_FLAG_HUGE_2MB_HINT)
  | SPA_BUFFER_PAGE_SIZE_HUGE_1GB =>
      Z.lor fl (Z.lor PW_MEMBLOCK_FLAG_HUGE_PAGES_HINT PW_MEMBLOCK_FLAG_HUGE_1GB_HINT)
  | SPA_BUFFER_PAGE_SIZE_NORMAL => fl
  end.

(** The flags of a data in memory with huge pages. *)
Definition huge_flags (m : pw_memblock) (d : spa_data) : spa_data :=
  if flag_is_set (mb_flags m) PW_MEMBLOCK_FLAG_HUGE_PAGES then
    let d := data_or_flags SPA_DATA_FLAG_HUGE_PAGES d in
    if mb_page_size m =? 2 * 1024 * 1024 then data_or_flags SPA_DATA_FLAG_HUGE_2MB d
    else if mb_page_size m =? 1024 * 1024 * 1024 then data_or_flags SPA_DATA_FLAG_HUGE_1GB d
    else d
  else d.

(** The [fd] and [mapoffset] of a data in the shared memory at [data]. *)
Definition share_data (m : pw_memblock) (data : Z) (d : spa_data) : spa_data :=
  data_or_flags SPA_DATA_FLAG_MAPPABLE
    (mk_data (dt_type d) (dt_flags d) (mb_fd m) (u32 (dt_data d - data)) (dt_maxsize d)
       (dt_data d) (dt_chunk d)).
Definition share_buffer (m : pw_memblock) (data : Z) (b : spa_buffer) : spa_buffer :=
  mk_buffer (b_addr b) (b_n_metas b) (b_n_datas b) (b_metas b) (b_datas b) (b_meta_list b)
    (map (share_data m data) (b_data_list b)).

(** [info.datas] points to the array whose flags [alloc_buffers] extends. *)
Definition set_datas (datas : list spa_data) (info : spa_buffer_alloc_info)
  : spa_buffer_alloc_info :=
  mk_info (ai_flags info) (ai_max_align info) (ai_metas info) datas (ai_data_aligns info)
    (ai_skel_size info) (ai_meta_size info) (ai_chunk_size info) (ai_data_size info)
    (ai_mem_size info).

(** What the allocator does with the heap and the memory pool. *)
Inductive heap_event : Type :=
| Calloc (p : Z)
| Free (p : Z)
| Pool_alloc (m : pw_memblock)
| Pool_unref (m : pw_memblock).

Section Allocators.
(** [calloc(1, size)]: the address of the block or NULL. *)
Variable calloc : Z -> option Z.
(** [pw_mempool_alloc(pool, flags, type, size)]: the block or [errno]. *)
Variable pw_mempool_alloc : Z -> Z -> Z -> pw_memblock + Z.

(** The address of the array of pointers and the buffers. *)
Definition spa_buffer_alloc_array (n_buffers : nat) (flags : Z) (metas : list spa_meta)
  (datas : list spa_data) (data_aligns : list Z) : option (Z * list spa_buffer) :=
  let info := spa_buffer_alloc_fill_info (Z.lor flags SPA_BUFFER_ALLOC_FLAG_INLINE_ALL)
                metas datas data_aligns in
  match calloc (u64 (ai_max_align info
                     + u64 (Z.of_nat n_buffers * u64 (8 + ai_skel_size info)))) with
  | None => None
  | Some buffers =>
      let skel := ptroff buffers (u64 (8 * Z.of_nat n_buffers)) in
      let skel := ptr_align skel (ai_max_align info) in
      Some (buffers, spa_buffer_alloc_layout_array info n_buffers skel 0)
  end.

(** [alloc_buffers] of buffers.c: the result, with the code a failed call
    negates, and the blocks it took and gave back. *)
Definition alloc_buffers (n_buffers : nat) (metas : list spa_meta)
  (data_sizes data_aligns data_types : list Z) (hint : spa_buffer_page_size_hint) (flags : Z)
  : outcome pw_buffers * list heap_event :=
  let datas := zip_with (init_data flags) data_types data_sizes in
  let shared := flag_is_set flags PW_BUFFERS_FLAG_SHARED in
  let info := spa_buffer_alloc_fill_info (alloc_info_flags flags) metas datas data_aligns in
  match overflow_mul (Z.of_nat n_buffers) (u64 (8 + ai_skel_size info)) with
  | None => (Err ENOMEM, [])
  | Some skel_alloc =>
  match overflow_add skel_alloc (ai_max_align info) with
  | None => (Err ENOMEM, [])
  | Some skel_alloc =>
  match calloc skel_alloc with
  | None => (Err ENOMEM, [])
  | Some buffers =>
      let skel := ptroff buffers (u64 (Z.of_nat n_buffers * 8)) in
      let skel := ptr_align skel (ai_max_align info) in
      if shared then
        match overflow_mul (Z.of_nat n_buffers) (ai_mem_size info) with
        | None => (Err ENOMEM, [Calloc buffers; Free buffers])
        | Some mem_alloc =>
        match pw_mempool_alloc (memblock_flags hint) SPA_DATA_MemFd mem_alloc with
        | inr errno => (Err errno, [Calloc buffers; Free buffers])
        | inl m =>
        match mb_map m with
        | None => (Fault, [Calloc buffers; Pool_alloc m])
        | Some data =>
            let info := set_datas (map (huge_flags m) datas) info in
            let bl := spa_buffer_alloc_layout_array info n_buffers skel data in
            let bl := if flag_is_set flags PW_BUFFERS_FLAG_NO_MEM then bl
                      else map (share_buffer m data) bl in
            (Ret (mk_buffers (Some m) buffers bl (Z.of_nat n_buffers) flags),
             [Calloc buffers; Pool_alloc m])
        end
        end
        end
      else
        let bl := spa_buffer_alloc_layout_array info n_buffers skel 0 in
        (Ret (mk_buffers None buffers bl (Z.of_nat n_buffers) flags), [Calloc buffers])
  end
  end
  end.
End Allocators.

(** The cleared structure and the blocks given back. *)
Definition pw_buffers_clear (buffers : pw_buffers) : pw_buffers * list heap_event :=
  (mk_buffers None 0 [] 0 0,
   (match pb_mem buffers with Some m => [Pool_unref m] | None => [] end)
     ++ [Free (pb_block buffers)]).

(** ** Extents of memory *)

(** Extents one after the other, without overlap, between [lo] and [hi]. *)
Fixpoint stacked (lo : Z) (l : list (Z * Z)) (hi : Z) : Prop :=
  match l with
  | [] => lo <= hi
  | (a, n) :: l => lo <= a /\ 0 <= n /\ stacked (a + n) l hi
  end.

Definition meta_extent (m : spa_meta) : Z * Z := (mt_data m, mt_size m).
Definition chunk_extent (d : spa_data) : Z * Z := (dt_chunk d, sizeof_spa_chunk).
Definition data_extent (d : spa_data) : Z * Z := (dt_data d, dt_maxsize d).

Definition when {A} (c : bool) (l : list A) : list A := if c then l else [].

(** The parts of a buffer that are in the memory of the skeleton, and those in
    the separate memory; without memory for the datas there are no data
    extents. *)
Definition skel_extents (flags : Z) (b : spa_buffer) : list (Z * Z) :=
  [(b_addr b, sizeof_spa_buffer); (b_metas b, b_n_metas b * sizeof_spa_meta);
   (b_datas b, b_n_datas b * sizeof_spa_data)]
  ++ when (flag_is_set flags SPA_BUFFER_ALLOC_FLAG_INLINE_META) (map meta_extent (b_meta_list b))
  ++ when (flag_is_set flags SPA_BUFFER_ALLOC_FLAG_INLINE_CHUNK) (map chunk_extent (b_data_list b))
  ++ when (negb (flag_is_set flags SPA_BUFFER_ALLOC_FLAG_NO_DATA)
           && flag_is_set flags SPA_BUFFER_ALLOC_FLAG_INLINE_DATA)
       (map data_extent (b_data_list b)).
Definition mem_extents (flags : Z) (b : spa_buffer) : list (Z * Z) :=
  when (negb (flag_is_set flags SPA_BUFFER_ALLOC_FLAG_INLINE_META))
    (map meta_extent (b_meta_list b))
  ++ when (negb (flag_is_set flags SPA_BUFFER_ALLOC_FLAG_INLINE_CHUNK))
       (map chunk_extent (b_data_list b))
  ++ when (negb (flag_is_set flags SPA_BUFFER_ALLOC_FLAG_NO_DATA)
           && negb (flag_is_set flags SPA_BUFFER_ALLOC_FLAG_INLINE_DATA))
       (map data_extent (b_data_list b)).

(** Every meta is aligned to 8 bytes and every data to its alignment. *)
Definition buffer_aligned (flags : Z) (data_aligns : list Z) (b : spa_buffer) : Prop :=
  Forall (fun m => mt_data m mod 8 = 0) (b_meta_list b) /\
  (flag_is_set flags SPA_BUFFER_ALLOC_FLAG_NO_DATA = false ->
   Forall2 (fun d a => dt_data d mod a = 0) (b_data_list b) data_aligns).

(** The buffer has the described metas and datas. *)
Definition buffer_describes (metas : list spa_meta) (datas : list spa_data) (b : spa_buffer)
  : Prop :=
  b_n_metas b = zlen metas /\ b_n_datas b = zlen datas /\
  Forall2 (fun m m' => mt_type m' = mt_type m /\ mt_size m' = mt_size m) metas (b_meta_list b) /\
  Forall2 (fun d d' => dt_type d' = dt_type d /\ dt_maxsize d' = dt_maxsize d)
    datas (b_data_list b).

(** Alignments that are powers of two. *)
Definition pow2_align (a : Z) : Prop := exists k, 0 <= k < 32 /\ a = 2 ^ k.

(** What the caller describes: sizes of 32 bits that can be rounded, counts
    that fit the stack, alignments that are powers of two with the first one
    the largest. *)
Definition alloc_ok (metas : list spa_meta) (datas : list spa_data) (data_aligns : list Z) : Prop :=
  zlen metas < 2 ^ 28 /\ zlen datas < 2 ^ 28 /\ length datas = length data_aligns /\
  Forall (fun m => 0 <= mt_size m <= 2 ^ 32 - 8) metas /\
  Forall (fun d => is_u32 (dt_maxsize d)) datas /\
  Forall (fun a => pow2_align a /\ a <= first_align datas data_aligns) data_aligns.
