(* ===== verification/BufferAllocProofs.v ===== *)
(** * Correctness of the allocation of buffers

    The parts of the buffers [BufferAlloc] lays out are disjoint, aligned and
    inside the memory that was sized for them, when the alignments are powers of
    two and the first one is the largest; the allocators ask for enough memory
    and give back what they took when they fail. *)
From S2P Require Import Prelude Bytes BufferAlloc.
#[local] Open Scope Z_scope.

(** ** Rounding to a power of two *)

Definition rup (a n : Z) : Z := a * ((n + a - 1) / a).

Lemma rup_bounds a n : 0 < a -> n <= rup a n < n + a.
Proof.
  intros Ha. unfold rup. pose proof (Z.mod_pos_bound (n + a - 1) a Ha).
  pose proof (Z.div_mod (n + a - 1) a). lia.
Qed.

Lemma rup_mod a n : 0 < a -> rup a n mod a = 0.
Proof. intros Ha. unfold rup. rewrite Z.mul_comm. apply Z.mod_mul. lia. Qed.

Lemma rup_add a b n : 0 < a -> b mod a = 0 -> rup a (b + n) = b + rup a n.
Proof.
  intros Ha Hb. unfold rup. pose proof (Z.div_mod b a).
  replace (b + n + a - 1) with (n + a - 1 + (b / a) * a) by lia.
  rewrite Z.div_add by lia. lia.
Qed.

Lemma rup_aligned a n : 0 < a -> n mod a = 0 -> rup a n = n.
Proof.
  intros Ha Hn. rewrite <- (Z.add_0_r n) at 1. rewrite rup_add by done.
  unfold rup. rewrite Z.div_small by lia. lia.
Qed.

Lemma rup_1 n : rup 1 n = n.
Proof. apply rup_aligned; [lia|apply Z.mod_1_r]. Qed.

Lemma rup_0 a : 0 < a -> rup a 0 = 0.
Proof. intros Ha. apply rup_aligned; [done|]. by apply Z.mod_0_l, Z.neq_sym, Z.lt_neq. Qed.

Lemma mod_add_0 a b n : 0 < n -> a mod n = 0 -> b mod n = 0 -> (a + b) mod n = 0.
Proof. intros Hn Ha Hb. by rewrite Z.add_mod, Ha, Hb, Z.mod_0_l by lia. Qed.

Lemma pow2_align_bounds a : pow2_align a -> 1 <= a < 2 ^ 32.
Proof.
  intros (k & Hk & ->). split.
  - change 1 with (2 ^ 0). apply Z.pow_le_mono_r; lia.
  - apply Z.pow_lt_mono_r; lia.
Qed.

Lemma pow2_align_max a b : pow2_align a -> pow2_align b -> pow2_align (Z.max a b).
Proof. intros. destruct (Z.max_dec a b) as [-> | ->]; done. Qed.

(** Of two powers of two the smaller divides the larger. *)
Lemma pow2_align_mod a b n : pow2_align a -> pow2_align b -> a <= b -> n mod b = 0 -> n mod a = 0.
Proof.
  intros (k & Hk & ->) (l & Hl & ->) Hle Hn.
  apply Z.pow_le_mono_r_iff in Hle; [|lia|lia].
  assert (0 < 2 ^ k) by (apply Z.pow_pos_nonneg; lia).
  apply Z.mod_divide; [lia|]. apply Z.divide_trans with (2 ^ l).
  - exists (2 ^ (l - k)). rewrite <- Z.pow_add_r by lia. f_equal. lia.
  - apply Z.mod_divide; [|done]. apply Z.pow_nonzero; lia.
Qed.

Lemma round_up_pow2 a n :
  pow2_align a -> 0 <= n < 2 ^ 63 -> round_up_n 64 n a = rup a n.
Proof.
  intros Ha Hn. pose proof (pow2_align_bounds a Ha) as Hb. destruct Ha as (k & Hk & ->).
  rewrite round_up_n_spec by lia. done.
Qed.

Lemma round_up_target_pow2 a n :
  pow2_align a -> 0 <= n < 2 ^ 63 -> round_up_target n a = rup a n.
Proof.
  intros Ha Hn. pose proof (pow2_align_bounds a Ha) as Hb. unfold round_up_target.
  rewrite wrap_small by lia. rewrite Z.sub_add. by apply round_up_pow2.
Qed.

Lemma u64_small n : 0 <= n < 2 ^ 64 -> u64 n = n.
Proof. apply wrap_small. Qed.

(** ** Stacked extents *)

Lemma stacked_le lo l hi : stacked lo l hi -> lo <= hi.
Proof.
  revert lo. induction l as [|[a n] l IH]; intros lo; simpl; [done|].
  intros (? & ? & H%IH). lia.
Qed.

Lemma stacked_weaken lo l hi lo' hi' :
  stacked lo l hi -> lo' <= lo -> hi <= hi' -> stacked lo' l hi'.
Proof.
  revert lo lo'. induction l as [|[a n] l IH]; intros lo lo'; simpl; [lia|].
  intros (? & ? & H) ??. split_and!; [lia|lia|]. apply (IH (a + n)); [done|lia|lia].
Qed.

Lemma stacked_app lo l1 mid l2 hi :
  stacked lo l1 mid -> stacked mid l2 hi -> stacked lo (l1 ++ l2) hi.
Proof.
  revert lo. induction l1 as [|[a n] l1 IH]; intros lo; simpl.
  - intros. eapply stacked_weaken; [done|done|lia].
  - intros (? & ? & ?) ?. split_and!; [done|done|]. by apply IH.
Qed.

Lemma stacked_when (c : bool) lo l hi :
  lo <= hi -> (c = true -> stacked lo l hi) -> stacked lo (when c l) hi.
Proof. intros ? H. destruct c; simpl; [by apply H|done]. Qed.

(** Three optional parts, the first two of known size. *)
Lemma stacked_parts (c1 c2 c3 : bool) lo l1 n1 l2 n2 l3 hi :
  let mid := lo + (if c1 then n1 else 0) in
  let mid' := mid + (if c2 then n2 else 0) in
  0 <= n1 -> 0 <= n2 -> mid' <= hi ->
  (c1 = true -> stacked lo l1 (lo + n1)) -> (c2 = true -> stacked mid l2 (mid + n2)) ->
  (c3 = true -> stacked mid' l3 hi) ->
  stacked lo (when c1 l1 ++ when c2 l2 ++ when c3 l3) hi.
Proof.
  intros mid mid' ? ? ? H1 H2 H3. apply stacked_app with mid; [|apply stacked_app with mid'].
  - apply stacked_when; [subst mid; destruct c1; lia|]. intros ->. by apply H1.
  - apply stacked_when; [subst mid'; destruct c2; lia|]. subst mid'. intros ->. by apply H2.
  - by apply stacked_when.
Qed.

Lemma stacked_in lo l hi a n : stacked lo l hi -> In (a, n) l -> lo <= a /\ 0 <= n /\ a + n <= hi.
Proof.
  revert lo. induction l as [|[b k] l IH]; intros lo; simpl; [done|].
  intros (? & ? & H) [[= -> ->]|Hin].
  - pose proof (stacked_le _ _ _ H). lia.
  - destruct (IH _ H Hin) as (? & ? & ?). lia.
Qed.

(** ** The sizes without wrap-around *)

Fixpoint msum (metas : list spa_meta) : Z :=
  match metas with [] => 0 | m :: metas => pad8 (mt_size m) + msum metas end.
Fixpoint dsum (datas : list spa_data) (data_aligns : list Z) (size : Z) : Z :=
  match datas, data_aligns with
  | d :: datas, a :: data_aligns => dsum datas data_aligns (rup a size + dt_maxsize d)
  | _, _ => size
  end.

Definition metas_ok (metas : list spa_meta) : Prop :=
  Forall (fun m => 0 <= mt_size m <= 2 ^ 32 - 8) metas.

Lemma msum_bounds metas : metas_ok metas -> 0 <= msum metas <= zlen metas * 2 ^ 32.
Proof.
  induction 1 as [|m metas Hm _ IH]; simpl; [done|].
  rewrite zlen_cons. pose proof (pad8_bounds (mt_size m)) as Hp. pose proof (pad8_mod (mt_size m)).
  assert (pad8 (mt_size m) <= 2 ^ 32).
  { unfold pad8 in *. assert ((mt_size m + 7) / 8 < 2 ^ 29 + 1); [|lia].
    apply Z.div_lt_upper_bound; lia. }
  lia.
Qed.

Lemma msum_mod metas : msum metas mod 8 = 0.
Proof.
  induction metas as [|m metas IH]; simpl; [done|].
  rewrite Z.add_mod, pad8_mod, IH by lia. done.
Qed.

Lemma round_meta m : 0 <= mt_size m <= 2 ^ 32 - 8 -> round_up_n 32 (mt_size m) 8 = pad8 (mt_size m).
Proof. intros. apply round_up_n_8; lia. Qed.

Lemma metas_size_eq metas :
  metas_ok metas -> zlen metas < 2 ^ 28 -> metas_size metas = msum metas.
Proof.
  intros Hok Hn. unfold metas_size.
  assert (forall s, 0 <= s -> s + msum metas < 2 ^ 64 ->
    fold_left (fun size m => u64 (size + round_up_n 32 (mt_size m) 8)) metas s = s + msum metas)
    as H; [|apply (H 0); [lia|pose proof (msum_bounds _ Hok); lia]].
  clear Hn. induction Hok as [|m metas Hm Hok IH]; intros s Hs Hb; simpl in *; [lia|].
  rewrite round_meta by done. pose proof (pad8_bounds (mt_size m)).
  pose proof (msum_bounds _ Hok). rewrite u64_small by lia. rewrite IH by lia. lia.
Qed.

Definition datas_ok (datas : list spa_data) (data_aligns : list Z) : Prop :=
  Forall2 (fun d a => is_u32 (dt_maxsize d) /\ pow2_align a) datas data_aligns.

Lemma dsum_bounds datas data_aligns s :
  datas_ok datas data_aligns -> s <= dsum datas data_aligns s <= s + zlen datas * 2 ^ 33.
Proof.
  intros H. revert s. induction H as [|d a datas data_aligns [Hd Ha] _ IH]; intros s; simpl.
  { change (s <= s <= s + 0). lia. }
  specialize (IH (rup a s + dt_maxsize d)). rewrite zlen_cons.
  pose proof (pow2_align_bounds a Ha). pose proof (rup_bounds a s ltac:(lia)).
  unfold is_u32 in Hd. lia.
Qed.

Lemma datas_size_eq datas data_aligns s ma :
  datas_ok datas data_aligns -> 0 <= s -> s + zlen datas * 2 ^ 33 < 2 ^ 63 -> 16 <= ma -> pow2_align ma ->
  exists ma', datas_size datas data_aligns s ma = (dsum datas data_aligns s, ma') /\
    pow2_align ma' /\ ma <= ma' /\ Forall (fun a => a <= ma') data_aligns /\
    (forall bound, ma <= bound -> Forall (fun a => a <= bound) data_aligns -> ma' <= bound).
Proof.
  intros H. revert s ma.
  induction H as [|d a datas data_aligns [Hd Ha] _ IH]; intros s ma Hs Hb Hma Hp; simpl.
  { exists ma. done. }
  rewrite zlen_cons in Hb. unfold is_u32 in Hd. pose proof (zlen_nonneg datas).
  pose proof (pow2_align_bounds a Ha). pose proof (rup_bounds a s ltac:(lia)).
  rewrite round_up_pow2 by (done || lia). rewrite u64_small by lia.
  destruct (IH (rup a s + dt_maxsize d) (Z.max ma a)) as (ma' & E & ? & ? & ? & Hbd);
    [lia|lia|lia|by apply pow2_align_max|].
  exists ma'. split_and!; [done|done|lia|constructor; [lia|done]|].
  intros bound ? Hf. inversion Hf; subst. apply Hbd; [lia|done].
Qed.

(** ** The layout information *)

Section Info.
Context (flags : Z) (metas : list spa_meta) (datas : list spa_data) (data_aligns : list Z).
Context (Hok : alloc_ok metas datas data_aligns).

Notation im := (flag_is_set flags SPA_BUFFER_ALLOC_FLAG_INLINE_META).
Notation ic := (flag_is_set flags SPA_BUFFER_ALLOC_FLAG_INLINE_CHUNK).
Notation id := (flag_is_set flags SPA_BUFFER_ALLOC_FLAG_INLINE_DATA).
Notation nd := (flag_is_set flags SPA_BUFFER_ALLOC_FLAG_NO_DATA).
Notation a0 := (first_align datas data_aligns).
Notation info := (spa_buffer_alloc_fill_info flags metas datas data_aligns).

(** What precedes the datas in the two memories. *)
Definition fixed_size : Z :=
  sizeof_spa_buffer + zlen metas * sizeof_spa_meta + zlen datas * sizeof_spa_data.
Definition skel_off : Z :=
  fixed_size + (if im then msum metas else 0) + (if ic then zlen datas * sizeof_spa_chunk else 0).
Definition mem_off : Z :=
  (if negb im then msum metas else 0) + (if negb ic then zlen datas * sizeof_spa_chunk else 0).

Lemma ok_metas : metas_ok metas.
Proof. apply Hok. Qed.
Lemma ok_datas : datas_ok datas data_aligns.
Proof.
  destruct Hok as (_ & _ & Hl & _ & Hd & Ha). clear Hok. unfold datas_ok.
  assert (Forall pow2_align data_aligns) as Hp by (eapply Forall_impl; [|exact Ha]; by intros ? []).
  clear Ha. revert data_aligns Hl Hp.
  induction Hd as [|d datas' Hd _ IH]; intros [|a al] Hl Hp; [constructor|done|done|].
  inversion Hp; subst. constructor; [done|]. apply IH; [simpl in Hl; lia|done].
Qed.
Lemma ok_first : pow2_align a0.
Proof.
  destruct Hok as (_ & _ & Hl & _ & _ & Ha). unfold first_align in *.
  destruct datas as [|d ds], data_aligns as [|a al]; try (exists 0; split; [lia|done]).
  by inversion Ha as [|? ? [? ?]].
Qed.

Lemma off_bounds : 0 <= skel_off < 2 ^ 61 /\ 0 <= mem_off < 2 ^ 61.
Proof.
  destruct Hok as (Hm & Hd & _). pose proof (msum_bounds _ ok_metas).
  pose proof (zlen_nonneg metas). pose proof (zlen_nonneg datas).
  unfold skel_off, mem_off, fixed_size. destruct im, ic; simpl; lia.
Qed.

Lemma off_mod : skel_off mod 8 = 0 /\ mem_off mod 8 = 0.
Proof.
  assert (forall a b c : Z, (8 * a + b) mod 8 = b mod 8) as Hs.
  { intros. rewrite Z.add_comm, Z.mul_comm. apply Z.mod_add. lia. }
  pose proof (msum_mod metas) as Hm.
  assert (msum metas = 8 * (msum metas / 8)) as E by (apply Z.div_exact; lia).
  unfold skel_off, mem_off, fixed_size. rewrite E.
  split; apply Z.mod_divide; try lia; destruct im, ic; simpl.
  all: repeat first [ apply Z.divide_add_r | apply Z.divide_factor_l | apply Z.divide_0_r
    | apply Z.divide_mul_r; by apply Z.mod_divide | by apply Z.mod_divide ].
Qed.

Lemma data_bounds : 0 <= dsum datas data_aligns 0 < 2 ^ 61.
Proof. destruct Hok as (_ & Hd & _). pose proof (dsum_bounds _ _ 0 ok_datas). lia. Qed.

(** Both sizes, with the part that holds the datas rounded up twice. *)
Lemma fill_info_spec :
  exists ma, (pow2_align ma /\ 16 <= ma /\ a0 <= ma /\
    forall bound, 16 <= bound -> Forall (fun a => a <= bound) data_aligns -> ma <= bound) /\
  info = mk_info flags ma metas datas data_aligns
    (if negb nd && id then rup ma (rup a0 skel_off + dsum datas data_aligns 0) else skel_off)
    (msum metas) (zlen datas * sizeof_spa_chunk) (dsum datas data_aligns 0)
    (if negb nd && id then mem_off else rup ma (rup a0 mem_off + dsum datas data_aligns 0)).
Proof.
  destruct (datas_size_eq datas data_aligns 0 16) as (ma & E & Hp & H16 & Hle & Hbd);
    [apply ok_datas|lia|destruct Hok as (_ & ? & _); lia|lia|by exists 4|].
  exists ma. pose proof ok_first as Ha0. pose proof (pow2_align_bounds _ Ha0).
  assert (a0 <= ma).
  { unfold first_align in *. destruct datas, data_aligns as [|a al]; try lia. by inversion Hle. }
  split; [by split_and!|].
  unfold spa_buffer_alloc_fill_info. rewrite E, (metas_size_eq metas) by apply Hok.
  pose proof off_bounds as [Hs Hm]. pose proof off_mod. pose proof data_bounds.
  pose proof (rup_bounds a0 skel_off ltac:(lia)). pose proof (rup_bounds a0 mem_off ltac:(lia)).
  pose proof (msum_bounds _ ok_metas). pose proof (zlen_nonneg metas). pose proof (zlen_nonneg datas).
  destruct Hok as (Hn & Hd & _).
  rewrite !(u64_small (zlen _ * _)) by lia.
  assert (add_target ic (zlen datas * sizeof_spa_chunk) (add_target im (msum metas)
     (u64 (u64 (sizeof_spa_buffer + zlen metas * sizeof_spa_meta) + zlen datas * sizeof_spa_data), 0))
     = (skel_off, mem_off)) as ->.
  { unfold add_target, skel_off, mem_off, fixed_size.
    rewrite (u64_small (sizeof_spa_buffer + _)), (u64_small (_ + zlen datas * sizeof_spa_data)) by lia.
    destruct im, ic; simpl;
      rewrite ?(u64_small (_ + msum metas)), ?(u64_small (_ + zlen datas * sizeof_spa_chunk)) by lia;
      f_equal; lia. }
  simpl. destruct (negb nd && id); simpl.
  all: rewrite (round_up_target_pow2 a0) by (done || lia); rewrite u64_small by lia.
  all: by rewrite round_up_target_pow2 by (done || lia).
Qed.
End Info.

(** ** The layout of one buffer *)

Definition meta_like (m m' : spa_meta) : Prop := mt_type m' = mt_type m /\ mt_size m' = mt_size m.
Definition data_like (d d' : spa_data) : Prop :=
  dt_type d' = dt_type d /\ dt_maxsize d' = dt_maxsize d.

Lemma layout_metas_spec metas dp :
  metas_ok metas -> 0 <= dp -> dp + msum metas < 2 ^ 63 ->
  exists ms, layout_metas metas dp = (ms, dp + msum metas) /\
    stacked dp (map meta_extent ms) (dp + msum metas) /\
    (dp mod 8 = 0 -> Forall (fun m => mt_data m mod 8 = 0) ms) /\ Forall2 meta_like metas ms.
Proof.
  intros Hok. revert dp. induction Hok as [|m metas Hm Hok IH]; intros dp Hdp Hb; simpl in *.
  { exists []. rewrite Z.add_0_r. simpl. split_and!; done || lia. }
  pose proof (msum_bounds _ Hok). pose proof (pad8_bounds (mt_size m)).
  unfold ptroff. rewrite round_meta, u64_small by (done || lia).
  destruct (IH (dp + pad8 (mt_size m))) as (ms & -> & Hs & Ha & Hl); [lia|lia|].
  rewrite <- Z.add_assoc in Hs |- *. eexists. split; [done|]. simpl. split_and!; [lia|lia| | |].
  - eapply stacked_weaken; [exact Hs|lia|lia].
  - intros Hmod. constructor; [done|]. apply Ha.
    rewrite Z.add_mod, Hmod, pad8_mod by lia. done.
  - constructor; done.
Qed.

Lemma layout_datas_like nd datas data_aligns cp dp :
  length datas = length data_aligns -> 0 <= cp -> cp + zlen datas * sizeof_spa_chunk < 2 ^ 63 ->
  let dl := layout_datas nd datas data_aligns cp dp in
  stacked cp (map chunk_extent dl) (cp + zlen datas * sizeof_spa_chunk) /\
  Forall2 data_like datas dl.
Proof.
  simpl. revert data_aligns cp dp.
  induction datas as [|d datas IH]; intros [|a al] cp dp Hl Hcp Hb; [|done|done|].
  { simpl. change (zlen []) with 0. split; [lia|constructor]. }
  rewrite zlen_cons in *. pose proof (zlen_nonneg datas). simpl in Hl. simpl.
  assert (ptroff cp 16 = cp + 16) as -> by (apply u64_small; lia).
  destruct nd; simpl.
  - destruct (IH al (cp + 16) dp) as [Hs Hf]; [lia|lia|lia|].
    split_and!; [lia|lia| |by constructor]. eapply stacked_weaken; [exact Hs|lia|lia].
  - destruct (IH al (cp + 16) (ptroff (ptr_align dp a) (dt_maxsize d))) as [Hs Hf]; [lia|lia|lia|].
    split_and!; [lia|lia| |by constructor]. eapply stacked_weaken; [exact Hs|lia|lia].
Qed.

Lemma layout_datas_mem datas data_aligns cp base s :
  datas_ok datas data_aligns -> Forall (fun a => base mod a = 0) data_aligns ->
  0 <= base -> 0 <= s -> base + dsum datas data_aligns s < 2 ^ 63 ->
  let dl := layout_datas false datas data_aligns cp (base + s) in
  stacked (base + s) (map data_extent dl) (base + dsum datas data_aligns s) /\
  Forall2 (fun d a => dt_data d mod a = 0) dl data_aligns.
Proof.
  simpl. intros Hok. revert cp s.
  induction Hok as [|d a datas al [Hd Ha] Hok IH]; intros cp s Hbase Hb Hs Hlt; simpl in *.
  { split; [lia|constructor]. }
  inversion Hbase as [|? ? Hba Hbase']; subst. pose proof (pow2_align_bounds a Ha).
  pose proof (rup_bounds a s ltac:(lia)). unfold is_u32 in Hd.
  pose proof (dsum_bounds _ _ (rup a s + dt_maxsize d) Hok).
  unfold ptr_align. rewrite round_up_pow2 by (done || lia).
  rewrite rup_add by (done || lia).
  assert (ptroff (base + rup a s) (dt_maxsize d) = base + (rup a s + dt_maxsize d)) as ->.
  { unfold ptroff. rewrite u64_small by lia. lia. }
  destruct (IH (ptroff cp 16) (rup a s + dt_maxsize d)) as [Hst Hf]; [done|lia|lia|lia|].
  split_and!; [lia|lia| |].
  - eapply stacked_weaken; [exact Hst|lia|lia].
  - constructor; [|done]. simpl. rewrite Z.add_mod, Hba, rup_mod by lia. done.
Qed.

(** The first alignment moves the position once and for all. *)
Lemma layout_datas_head datas data_aligns cp dp :
  datas_ok datas data_aligns -> 0 <= dp < 2 ^ 62 ->
  layout_datas false datas data_aligns cp dp =
  layout_datas false datas data_aligns cp (rup (first_align datas data_aligns) dp).
Proof.
  intros Hok Hdp. destruct Hok as [|d a datas al [Hd Ha] Hok]; [done|].
  pose proof (pow2_align_bounds a Ha). simpl. pose proof (rup_bounds a dp ltac:(lia)).
  unfold ptr_align. rewrite !(round_up_pow2 a) by (done || lia).
  by rewrite (rup_aligned a (rup a dp)) by (lia || by apply rup_mod; lia).
Qed.

(** Where a buffer may be placed: both memories aligned to 8 bytes, the one
    with the datas to the largest alignment. *)
Definition placed (info : spa_buffer_alloc_info) (skel data : Z) : Prop :=
  0 <= skel /\ 0 <= data /\ skel mod 8 = 0 /\ data mod 8 = 0 /\
  (if negb (flag_is_set (ai_flags info) SPA_BUFFER_ALLOC_FLAG_NO_DATA)
      && flag_is_set (ai_flags info) SPA_BUFFER_ALLOC_FLAG_INLINE_DATA then skel else data)
    mod ai_max_align info = 0.

Section Layout.
Context (flags : Z) (metas : list spa_meta) (datas : list spa_data) (data_aligns : list Z).
Context (Hok : alloc_ok metas datas data_aligns).

Notation im := (flag_is_set flags SPA_BUFFER_ALLOC_FLAG_INLINE_META).
Notation ic := (flag_is_set flags SPA_BUFFER_ALLOC_FLAG_INLINE_CHUNK).
Notation id := (flag_is_set flags SPA_BUFFER_ALLOC_FLAG_INLINE_DATA).
Notation nd := (flag_is_set flags SPA_BUFFER_ALLOC_FLAG_NO_DATA).
Notation a0 := (first_align datas data_aligns).
Notation info := (spa_buffer_alloc_fill_info flags metas datas data_aligns).
Notation so := (skel_off flags metas datas).
Notation mo := (mem_off flags metas datas).
Notation fixed := (fixed_size metas datas).

(** Where the metas and the chunks start. *)
Definition metas_at (skel data : Z) : Z := if im then skel + fixed else data.
Definition chunks_at (skel data : Z) : Z :=
  if ic then skel + fixed + (if im then msum metas else 0)
  else data + (if negb im then msum metas else 0).

Lemma off_total skel data :
  0 <= skel -> 0 <= data -> skel + so < 2 ^ 62 -> data + mo < 2 ^ 62 ->
  0 <= fixed /\ 0 <= msum metas /\ 0 <= metas_at skel data /\
  metas_at skel data + msum metas < 2 ^ 62 /\ 0 <= chunks_at skel data /\
  chunks_at skel data + zlen datas * sizeof_spa_chunk < 2 ^ 62.
Proof.
  intros ??. pose proof (msum_bounds _ (ok_metas _ _ _ Hok)).
  pose proof (zlen_nonneg metas). pose proof (zlen_nonneg datas).
  unfold skel_off, mem_off, metas_at, chunks_at, fixed_size.
  destruct im, ic; simpl; lia.
Qed.

Lemma layout_shape skel data :
  0 <= skel -> 0 <= data -> skel + so < 2 ^ 62 -> data + mo < 2 ^ 62 ->
  exists ms,
    spa_buffer_alloc_layout info skel data =
      mk_buffer skel (zlen metas) (zlen datas) (skel + sizeof_spa_buffer)
        (skel + sizeof_spa_buffer + zlen metas * sizeof_spa_meta) ms
        (layout_datas nd datas data_aligns (chunks_at skel data)
           (if id then skel + so else data + mo)) /\
    stacked (metas_at skel data) (map meta_extent ms) (metas_at skel data + msum metas) /\
    (metas_at skel data mod 8 = 0 -> Forall (fun m => mt_data m mod 8 = 0) ms) /\
    Forall2 meta_like metas ms.
Proof.
  intros Hs Hd Hs' Hd'. pose proof (off_total skel data Hs Hd Hs' Hd') as Hoff.
  destruct (fill_info_spec flags _ _ _ Hok) as (ma & _ & ->).
  destruct (layout_metas_spec metas (metas_at skel data)) as (ms & E & Hst & Hal & Hl);
    [apply Hok|lia|lia|].
  exists ms. split; [|done]. unfold spa_buffer_alloc_layout. simpl.
  pose proof (zlen_nonneg metas). pose proof (zlen_nonneg datas).
  assert (zlen metas < 2 ^ 28 /\ zlen datas < 2 ^ 28) as [Hn Hn'] by (destruct Hok as (?&?&_); done).
  unfold ptroff. rewrite !(u64_small (zlen _ * _)) by lia.
  unfold skel_off, mem_off, metas_at, chunks_at, fixed_size in *.
  rewrite (u64_small (skel + sizeof_spa_buffer)) by (destruct im, ic; simpl in *; lia).
  rewrite (u64_small (_ + zlen metas * sizeof_spa_meta)) by (destruct im, ic; simpl in *; lia).
  rewrite (u64_small (_ + zlen datas * sizeof_spa_data)) by (destruct im, ic; simpl in *; lia).
  rewrite <- (Z.add_assoc skel _ (zlen metas * _)), <- (Z.add_assoc skel _ (zlen datas * _)), E.
  destruct im, ic; simpl in *; rewrite u64_small by lia; f_equal; f_equal; destruct id; lia.
Qed.

(** The datas behind [off] bytes of a memory aligned to [ma]. *)
Lemma layout_data_part ma tgt off cp :
  pow2_align ma -> a0 <= ma -> tgt mod ma = 0 -> 0 <= tgt -> 0 <= off ->
  tgt + rup ma (rup a0 off + dsum datas data_aligns 0) < 2 ^ 62 ->
  let dl := layout_datas false datas data_aligns cp (tgt + off) in
  stacked (tgt + off) (map data_extent dl) (tgt + rup ma (rup a0 off + dsum datas data_aligns 0)) /\
  Forall2 (fun d a => dt_data d mod a = 0) dl data_aligns.
Proof.
  intros Hma Hle Hmod Htgt Hoff Hb dl. subst dl.
  pose proof (ok_first _ _ _ Hok) as Ha0. pose proof (ok_datas _ _ _ Hok) as Hd.
  pose proof (pow2_align_bounds _ Ha0). pose proof (pow2_align_bounds _ Hma).
  pose proof (rup_bounds a0 off ltac:(lia)). pose proof (dsum_bounds _ _ 0 Hd).
  pose proof (rup_bounds ma (rup a0 off + dsum datas data_aligns 0) ltac:(lia)).
  rewrite layout_datas_head by (done || lia).
  rewrite rup_add by (lia || by apply pow2_align_mod with ma).
  rewrite <- (Z.add_0_r (tgt + rup a0 off)).
  destruct (layout_datas_mem datas data_aligns cp (tgt + rup a0 off) 0) as [Hst Hal];
    [done| |lia|lia|lia|].
  - destruct Hok as (_ & _ & _ & _ & _ & Ha). eapply Forall_impl; [|exact Ha].
    intros a [Hp Hle']. apply pow2_align_mod with a0; [done|done|done|].
    rewrite Z.add_mod, rup_mod, (pow2_align_mod a0 ma tgt) by (done || lia). done.
  - split; [|done]. eapply stacked_weaken; [exact Hst|lia|lia].
Qed.

Lemma off_le_sizes : so <= ai_skel_size info /\ mo <= ai_mem_size info.
Proof.
  destruct (fill_info_spec flags _ _ _ Hok) as (ma & (Hp & ? & ? & _) & ->). simpl.
  pose proof (ok_first _ _ _ Hok) as Ha0. pose proof (pow2_align_bounds _ Ha0).
  pose proof (dsum_bounds _ _ 0 (ok_datas _ _ _ Hok)).
  pose proof (rup_bounds a0 so ltac:(lia)). pose proof (rup_bounds a0 mo ltac:(lia)).
  destruct (negb nd && id).
  - pose proof (rup_bounds ma (rup a0 so + dsum datas data_aligns 0) ltac:(lia)). lia.
  - pose proof (rup_bounds ma (rup a0 mo + dsum datas data_aligns 0) ltac:(lia)). lia.
Qed.

(** The parts of a buffer are stacked in the two memories, in the budget that
    was computed for them, and aligned. *)
Lemma layout_spec skel data :
  placed info skel data ->
  skel + ai_skel_size info < 2 ^ 62 -> data + ai_mem_size info < 2 ^ 62 ->
  let b := spa_buffer_alloc_layout info skel data in
  stacked skel (skel_extents flags b) (skel + ai_skel_size info) /\
  stacked data (mem_extents flags b) (data + ai_mem_size info) /\
  buffer_aligned flags data_aligns b /\ buffer_describes metas datas b.
Proof.
  intros (Hs & Hd & Hs8 & Hd8 & Ht) Hbs Hbd. pose proof off_le_sizes as [Hle Hle'].
  pose proof (zlen_nonneg datas).
  destruct (layout_shape skel data) as (ms & -> & Hst & Hal & Hl); [done|done|lia|lia|].
  destruct (off_total skel data) as (Hf & Hms & Hma0 & Hma & Hca0 & Hca); [done|done|lia|lia|].
  assert (length datas = length data_aligns) as Hlen by apply Hok.
  destruct (layout_datas_like nd datas data_aligns (chunks_at skel data)
    (if id then skel + so else data + mo)) as [Hch Hdl]; [done|lia|lia|].
  assert (metas_at skel data mod 8 = 0) as Hm8.
  { unfold metas_at. destruct im; [|done].
    rewrite Z.add_mod, Hs8 by lia. unfold fixed_size.
    replace (24 + zlen metas * 16 + zlen datas * 40) with ((3 + zlen metas * 2 + zlen datas * 5) * 8)
      by lia. by rewrite Z.mod_mul by lia. }
  pose proof (off_bounds flags _ _ _ Hok) as [Hso Hmo].
  destruct (fill_info_spec flags _ _ _ Hok) as (ma & (Hp & H16 & Ha0 & _) & E).
  rewrite E in *. simpl in *. clear E.
  set (dl := layout_datas _ _ _ _ _) in *.
  assert (nd = false -> (let '(lo, hi) := if id
      then (skel + so, skel + rup ma (rup a0 so + dsum datas data_aligns 0))
      else (data + mo, data + rup ma (rup a0 mo + dsum datas data_aligns 0)) in
    stacked lo (map data_extent dl) hi) /\ Forall2 (fun d a => dt_data d mod a = 0) dl data_aligns)
    as Hdata.
  { intros Hn. subst dl. rewrite Hn in *. simpl in *. destruct id.
    all: by apply layout_data_part; (done || lia). }
  split; [|split; [|split]]; [| |by split; [apply Hal|apply Hdata]|done].
  - unfold skel_extents. simpl. pose proof (zlen_nonneg metas). split_and!; try lia.
    replace (skel + 24 + zlen metas * 16 + zlen datas * 40) with (skel + fixed)
      by (unfold fixed_size; lia).
    apply stacked_parts with (n1 := msum metas) (n2 := zlen datas * sizeof_spa_chunk); [lia|lia|..].
    + unfold skel_off in Hle at 1. lia.
    + intros Him. unfold metas_at in Hst. by rewrite Him in Hst.
    + intros Hic. unfold chunks_at in Hch. by rewrite Hic in Hch.
    + intros [Hn Hi]%andb_prop. apply negb_true_iff in Hn. rewrite Hn, Hi in *. simpl.
      destruct (Hdata eq_refl) as [Hd' _]. unfold skel_off in Hd' at 1. by rewrite !Z.add_assoc in Hd'.
  - unfold mem_extents. simpl.
    apply stacked_parts with (n1 := msum metas) (n2 := zlen datas * sizeof_spa_chunk); [lia|lia|..].
    + unfold mem_off in Hle' at 1. lia.
    + intros Him%negb_true_iff. unfold metas_at in Hst. by rewrite Him in Hst.
    + intros Hic%negb_true_iff. unfold chunks_at in Hch. by rewrite Hic in Hch.
    + intros [Hn Hi]%andb_prop. apply negb_true_iff in Hn, Hi. rewrite Hn, Hi in *. simpl.
      destruct (Hdata eq_refl) as [Hd' _]. unfold mem_off in Hd' at 1. by rewrite !Z.add_assoc in Hd'.
Qed.

Lemma sizes_spec :
  (0 <= ai_skel_size info < 2 ^ 63 /\ ai_skel_size info mod 8 = 0) /\
  (0 <= ai_mem_size info < 2 ^ 63 /\ ai_mem_size info mod 8 = 0) /\
  (if negb nd && id then ai_skel_size info else ai_mem_size info) mod ai_max_align info = 0 /\
  pow2_align (ai_max_align info) /\ 16 <= ai_max_align info.
Proof.
  destruct (fill_info_spec flags _ _ _ Hok) as (ma & (Hp & H16 & Ha0 & _) & ->). simpl.
  pose proof (ok_first _ _ _ Hok) as Hpa. pose proof (pow2_align_bounds _ Hpa).
  pose proof (pow2_align_bounds _ Hp). pose proof (data_bounds _ _ _ Hok).
  pose proof (off_bounds flags _ _ _ Hok) as [? ?]. pose proof (off_mod flags metas datas) as [? ?].
  assert (forall off, 0 <= off < 2 ^ 61 ->
    0 <= rup ma (rup a0 off + dsum datas data_aligns 0) < 2 ^ 63 /\
    rup ma (rup a0 off + dsum datas data_aligns 0) mod 8 = 0 /\
    rup ma (rup a0 off + dsum datas data_aligns 0) mod ma = 0) as Hr.
  { intros off ?. pose proof (rup_bounds a0 off ltac:(lia)).
    pose proof (rup_bounds ma (rup a0 off + dsum datas data_aligns 0) ltac:(lia)).
    pose proof (rup_mod ma (rup a0 off + dsum datas data_aligns 0) ltac:(lia)).
    split_and!; [lia|lia| |done]. apply (pow2_align_mod 8 ma); [by exists 3|done|lia|done]. }
  destruct (negb nd && id).
  - destruct (Hr so) as (? & ? & ?); [done|]. split_and!; (done || lia).
  - destruct (Hr mo) as (? & ? & ?); [done|]. split_and!; (done || lia).
Qed.

Lemma placed_next skel data :
  placed info skel data -> placed info (skel + ai_skel_size info) (data + ai_mem_size info).
Proof.
  destruct sizes_spec as ((? & ?) & (? & ?) & Hm & _ & H16).
  assert (ai_flags info = flags) as Hfl.
  { destruct (fill_info_spec flags _ _ _ Hok) as (ma & _ & ->). done. }
  intros (? & ? & ? & ? & Hp). unfold placed. rewrite Hfl in *.
  split_and!; [lia|lia|apply mod_add_0; done || lia..|].
  destruct (negb nd && id); apply mod_add_0; done || lia.
Qed.

Lemma layout_array_spec n skel data :
  placed info skel data ->
  skel + Z.of_nat n * ai_skel_size info < 2 ^ 62 -> data + Z.of_nat n * ai_mem_size info < 2 ^ 62 ->
  let bl := spa_buffer_alloc_layout_array info n skel data in
  length bl = n /\
  stacked skel (concat (map (skel_extents flags) bl)) (skel + Z.of_nat n * ai_skel_size info) /\
  stacked data (concat (map (mem_extents flags) bl)) (data + Z.of_nat n * ai_mem_size info) /\
  Forall (fun b => buffer_aligned flags data_aligns b /\ buffer_describes metas datas b) bl.
Proof.
  destruct sizes_spec as ((Hs & _) & (Hm & _) & _). simpl.
  revert skel data. induction n as [|n IH]; intros skel data Hpl Hbs Hbm.
  { simpl. split_and!; [done|lia|lia|constructor]. }
  rewrite Nat2Z.inj_succ in *. pose proof Hpl as (? & ? & _).
  destruct (layout_spec skel data Hpl) as (H1 & H2 & H3 & H4); [nia|nia|].
  destruct (IH (skel + ai_skel_size info) (data + ai_mem_size info)) as (Hl & I1 & I2 & I3);
    [by apply placed_next|nia|nia|].
  cbn [spa_buffer_alloc_layout_array]. unfold ptroff. rewrite !u64_small by nia.
  cbn [length map concat]. split_and!; [by rewrite Hl| | |by constructor].
  - eapply stacked_app; [exact H1|]. eapply stacked_weaken; [exact I1|lia|nia].
  - eapply stacked_app; [exact H2|]. eapply stacked_weaken; [exact I2|lia|nia].
Qed.
End Layout.

(** ** The theorems *)

(** C17: whatever the flags, the metas, the datas and the number of buffers, the
    buffers [spa_buffer_alloc_layout_array] lays out use disjoint memory: the
    structures, the arrays of metas and datas, the memory of the metas, the
    chunks and the memory of the datas of all buffers follow one another without
    overlap, in [n * skel_size] bytes from [skel] and [n * mem_size] bytes from
    [data]; the metas are aligned to 8 bytes and every data to its alignment.
    The alignments are powers of two and the first one is the largest
    ([alloc_ok]); [skel] and [data] are multiples of 8, and the one that holds the
    memory of the datas is a multiple of the largest alignment ([placed]). *)
Theorem buffer_layout_sound flags metas datas data_aligns n skel data :
  let info := spa_buffer_alloc_fill_info flags metas datas data_aligns in
  let bl := spa_buffer_alloc_layout_array info n skel data in
  alloc_ok metas datas data_aligns -> placed info skel data ->
  skel + Z.of_nat n * ai_skel_size info < 2 ^ 62 ->
  data + Z.of_nat n * ai_mem_size info < 2 ^ 62 ->
  length bl = n /\
  stacked skel (concat (map (skel_extents flags) bl)) (skel + Z.of_nat n * ai_skel_size info) /\
  stacked data (concat (map (mem_extents flags) bl)) (data + Z.of_nat n * ai_mem_size info) /\
  Forall (fun b => buffer_aligned flags data_aligns b /\ buffer_describes metas datas b) bl.
Proof. intros info bl Hok. by apply layout_array_spec. Qed.

Definition witness_metas : list spa_meta := [mk_meta 1 32 0; mk_meta 0x303 8 0; mk_meta 6 13 0].
Definition witness_datas : list spa_data := [mk_data 2 3 0 0 1000 0 0; mk_data 2 3 0 0 100 0 0].

Lemma witness_alloc_ok : alloc_ok witness_metas witness_datas [64; 32].
Proof.
  unfold alloc_ok, witness_metas, witness_datas, is_u32, zlen. simpl.
  split_and!; try lia; repeat constructor; simpl; try lia; [by exists 6|by exists 5].
Qed.

Lemma buffer_layout_sound_witness :
  exists bl, bl = spa_buffer_alloc_layout_array
      (spa_buffer_alloc_fill_info 3 witness_metas witness_datas [64; 32]) 3 4096 8192 /\
    map dt_data (concat (map b_data_list bl)) = [8192; 9216; 9344; 10368; 10496; 11520] /\
    stacked 8192 (concat (map (mem_extents 3) bl)) (8192 + 3 * 1152).
Proof.
  eexists. split; [reflexivity|]. split; [vm_compute; reflexivity|].
  destruct (buffer_layout_sound 3 witness_metas witness_datas [64; 32] 3 4096 8192) as (_ & _ & H & _).
  - apply witness_alloc_ok.
  - split_and!; vm_compute; (done || reflexivity).
  - vm_compute. reflexivity.
  - vm_compute. reflexivity.
  - exact H.
Defined.

(** ** The allocators *)

(** What [alloc_buffers] relies on.  [calloc] returns a block of the size asked
    for, aligned for any type, in the lower half of the address space.  The
    memory pool (mem.c) refuses sizes above [UINT32_MAX], so a block has at least
    the size asked for in 32 bits.  With [PW_MEMBLOCK_FLAG_MAP] it maps a block
    that is not empty, at an address that is a multiple of the page size; an empty
    block has no map. *)
Class BlockSource (calloc : Z -> option Z) (pool : Z -> Z -> Z -> pw_memblock + Z) (page : Z) : Prop := {
  calloc_block n p : calloc n = Some p -> 0 < p /\ p mod 8 = 0 /\ p + n < 2 ^ 62;
  pool_block fl ty n m : pool fl ty n = inl m ->
    n <= mb_size m < 2 ^ 32 /\
    (flag_is_set fl PW_MEMBLOCK_FLAG_MAP = true -> 0 < n -> exists data, mb_map m = Some data /\
       0 < data /\ data + mb_size m < 2 ^ 62 /\ data mod page = 0);
  page_pow2 : pow2_align page;
  page_large : 16 <= page }.

#[export] Instance pw_memblock_eq_dec : EqDecision pw_memblock.
Proof. solve_decision. Defined.

(** The blocks that are in use after a sequence of events. *)
Fixpoint remove_one {A} `{EqDecision A} (x : A) (l : list A) : list A :=
  match l with [] => [] | y :: l => if decide (x = y) then l else y :: remove_one x l end.
Definition heap_step (h : list Z * list pw_memblock) (e : heap_event) : list Z * list pw_memblock :=
  match e with
  | Calloc p => (p :: h.1, h.2)
  | Free p => (remove_one p h.1, h.2)
  | Pool_alloc m => (h.1, m :: h.2)
  | Pool_unref m => (h.1, remove_one m h.2)
  end.
Definition heap_live (ev : list heap_event) : list Z * list pw_memblock :=
  fold_left heap_step ev ([], []).

Lemma remove_one_head {A} `{EqDecision A} (x : A) l : remove_one x (x :: l) = l.
Proof. simpl. by rewrite decide_True. Qed.

(** Descriptions that differ in nothing the sizes depend on. *)
Lemma fill_info_map f flags metas datas data_aligns :
  (forall d, dt_maxsize (f d) = dt_maxsize d) ->
  spa_buffer_alloc_fill_info flags metas (map f datas) data_aligns =
  set_datas (map f datas) (spa_buffer_alloc_fill_info flags metas datas data_aligns).
Proof.
  intros Hf. unfold spa_buffer_alloc_fill_info.
  assert (forall s ma, datas_size (map f datas) data_aligns s ma = datas_size datas data_aligns s ma) as ->.
  { revert data_aligns. induction datas as [|d ds IH]; intros [|a al] s ma; simpl; try done.
    by rewrite Hf, IH. }
  assert (first_align (map f datas) data_aligns = first_align datas data_aligns) as ->
    by by destruct datas.
  assert (zlen (map f datas) = zlen datas) as -> by (unfold zlen; by rewrite length_map).
  by destruct (datas_size datas data_aligns 0 16).
Qed.

Lemma alloc_ok_map f metas datas data_aligns :
  (forall d, dt_maxsize (f d) = dt_maxsize d) ->
  alloc_ok metas datas data_aligns -> alloc_ok metas (map f datas) data_aligns.
Proof.
  intros Hf (? & ? & ? & ? & Hd & Ha). unfold alloc_ok.
  assert (first_align (map f datas) data_aligns = first_align datas data_aligns) as ->
    by by destruct datas.
  unfold zlen. rewrite length_map. split_and!; [done|done|done|done| |done].
  apply Forall_map. eapply Forall_impl; [|exact Hd]. intros d. simpl. by rewrite Hf.
Qed.

Lemma huge_flags_maxsize m d : dt_maxsize (huge_flags m d) = dt_maxsize d.
Proof. unfold huge_flags. by repeat case_match. Qed.
Lemma huge_flags_type m d : dt_type (huge_flags m d) = dt_type d.
Proof. unfold huge_flags. by repeat case_match. Qed.

(** Sharing a buffer moves nothing. *)
Lemma share_skel_extents flags m data b : skel_extents flags (share_buffer m data b) = skel_extents flags b.
Proof. unfold skel_extents. simpl. by rewrite !map_map. Qed.
Lemma share_mem_extents flags m data b : mem_extents flags (share_buffer m data b) = mem_extents flags b.
Proof. unfold mem_extents. simpl. by rewrite !map_map. Qed.

(** What a successful call leaves: the array of pointers and the skeletons are
    stacked in the block of [calloc], everything else in the shared memory when
    there is one, and there every data can be mapped from its file descriptor at
    its offset. *)
Definition buffers_sound (calloc : Z -> option Z) (n : nat) (metas : list spa_meta)
  (datas : list spa_data) (data_aligns : list Z) (flags : Z) (pb : pw_buffers) : Prop :=
  let bl := pb_buffers pb in
  let iflags := alloc_info_flags flags in
  pb_n_buffers pb = Z.of_nat n /\ length bl = n /\
  (exists size, calloc size = Some (pb_block pb) /\
     stacked (pb_block pb) ((pb_block pb, Z.of_nat n * 8) :: concat (map (skel_extents iflags) bl))
       (pb_block pb + size)) /\
  match pb_mem pb with
  | None => concat (map (mem_extents iflags) bl) = []
  | Some m => exists data, mb_map m = Some data /\
      stacked data (concat (map (mem_extents iflags) bl)) (data + mb_size m) /\
      (flag_is_set flags PW_BUFFERS_FLAG_NO_MEM = false ->
       Forall (fun b => Forall (fun d => dt_fd d = mb_fd m /\ data + dt_mapoffset d = dt_data d /\
         dt_mapoffset d + dt_maxsize d <= mb_size m) (b_data_list b)) bl)
  end /\
  Forall (fun b => buffer_aligned iflags data_aligns b /\ buffer_describes metas datas b) bl.

Lemma dsum_zero datas data_aligns :
  datas_ok datas data_aligns -> Forall (fun d => dt_maxsize d = 0) datas ->
  dsum datas data_aligns 0 = 0.
Proof.
  induction 1 as [|d a datas al [_ Ha] _ IH]; intros Hz; simpl; [done|].
  inversion Hz as [|? ? Hd Hz']; subst. pose proof (pow2_align_bounds a Ha).
  rewrite rup_0, Hd by lia. by apply IH.
Qed.

(** The skeletons behind the array of pointers. *)
Lemma skel_place p n ss ma k1 k2 :
  pow2_align ma -> 16 <= ma -> 0 <= ss < 2 ^ 63 ->
  overflow_mul (Z.of_nat n) (u64 (8 + ss)) = Some k1 -> overflow_add k1 ma = Some k2 ->
  0 < p -> p + k2 < 2 ^ 62 ->
  let skel := ptr_align (ptroff p (u64 (Z.of_nat n * 8))) ma in
  skel mod ma = 0 /\ skel mod 8 = 0 /\ p + Z.of_nat n * 8 <= skel /\
  skel + Z.of_nat n * ss <= p + k2.
Proof.
  intros Hma H16 Hss H1 H2 Hp Hb. rewrite u64_small in H1 by lia.
  apply overflow_mul_spec in H1 as [-> _]. apply overflow_add_spec in H2 as [-> _].
  pose proof (pow2_align_bounds _ Hma). simpl.
  unfold ptroff. rewrite (u64_small (_ * 8)), u64_small by nia.
  unfold ptr_align. rewrite round_up_pow2 by (done || nia).
  pose proof (rup_bounds ma (p + Z.of_nat n * 8) ltac:(lia)).
  pose proof (rup_mod ma (p + Z.of_nat n * 8) ltac:(lia)).
  split_and!; [done| |lia|nia]. apply (pow2_align_mod 8 ma); [by exists 3|done|lia|done].
Qed.

Lemma alloc_info_flags_bits flags :
  let sh := flag_is_set flags PW_BUFFERS_FLAG_SHARED in
  let fl := alloc_info_flags flags in
  flag_is_set fl SPA_BUFFER_ALLOC_FLAG_INLINE_META = negb sh /\
  flag_is_set fl SPA_BUFFER_ALLOC_FLAG_INLINE_CHUNK = negb sh /\
  flag_is_set fl SPA_BUFFER_ALLOC_FLAG_INLINE_DATA = negb sh /\
  flag_is_set fl SPA_BUFFER_ALLOC_FLAG_NO_DATA = flag_is_set flags PW_BUFFERS_FLAG_NO_MEM.
Proof.
  simpl. unfold alloc_info_flags.
  destruct (flag_is_set flags PW_BUFFERS_FLAG_SHARED), (flag_is_set flags PW_BUFFERS_FLAG_NO_MEM); done.
Qed.

Lemma describes_map f metas datas b :
  (forall d, dt_type (f d) = dt_type d /\ dt_maxsize (f d) = dt_maxsize d) ->
  buffer_describes metas (map f datas) b -> buffer_describes metas datas b.
Proof.
  intros Hf (? & Hn & ? & Hd). unfold buffer_describes, zlen in *. rewrite length_map in Hn.
  split_and!; [done|done|done|]. apply Forall2_fmap_l in Hd. eapply Forall2_impl; [|exact Hd].
  intros d d' [-> ->]. apply Hf.
Qed.

Lemma describes_share m data metas datas b :
  buffer_describes metas datas b -> buffer_describes metas datas (share_buffer m data b).
Proof.
  intros (? & ? & ? & Hd). unfold buffer_describes. simpl. split_and!; [done|done|done|].
  apply Forall2_fmap_r. eapply Forall2_impl; [|exact Hd]. by intros ? ? [].
Qed.

Lemma aligned_share m data flags data_aligns b :
  buffer_aligned flags data_aligns b -> buffer_aligned flags data_aligns (share_buffer m data b).
Proof.
  intros [? Hd]. split; [done|]. intros Hn. apply Forall2_fmap_l. by apply Hd.
Qed.

(** The offset of a data in the shared memory does not overflow its 32 bits. *)
Lemma share_offsets flags m data hi bl :
  flag_is_set flags SPA_BUFFER_ALLOC_FLAG_NO_DATA = false ->
  flag_is_set flags SPA_BUFFER_ALLOC_FLAG_INLINE_DATA = false ->
  stacked data (concat (map (mem_extents flags) bl)) hi ->
  hi <= data + mb_size m -> mb_size m < 2 ^ 32 ->
  Forall (fun b => Forall (fun d => dt_fd d = mb_fd m /\ data + dt_mapoffset d = dt_data d /\
    dt_mapoffset d + dt_maxsize d <= mb_size m) (b_data_list b)) (map (share_buffer m data) bl).
Proof.
  intros Hn Hi Hst Hhi Hsz. apply Forall_map, Forall_forall. intros b Hb. simpl.
  apply Forall_map, Forall_forall. intros d Hd. simpl.
  destruct (stacked_in _ _ _ (dt_data d) (dt_maxsize d) Hst) as (? & ? & ?).
  { apply in_concat. exists (mem_extents flags b). split; [by apply in_map|].
    unfold mem_extents. rewrite Hn, Hi. simpl. rewrite !in_app_iff. right. right.
    apply (in_map data_extent) in Hd. done. }
  rewrite wrap_small by lia. split_and!; [done|lia|lia].
Qed.

Section Alloc_buffers.
Context (calloc : Z -> option Z) (pool : Z -> Z -> Z -> pw_memblock + Z) (page : Z).
Context `{!BlockSource calloc pool page}.
Context (metas : list spa_meta) (datas : list spa_data) (data_aligns : list Z) (flags : Z).
Context (Hok : alloc_ok metas datas data_aligns).
Notation info := (spa_buffer_alloc_fill_info (alloc_info_flags flags) metas datas data_aligns).

Lemma info_flags : ai_flags info = alloc_info_flags flags.
Proof. destruct (fill_info_spec (alloc_info_flags flags) _ _ _ Hok) as (ma & _ & ->). done. Qed.

(** Without sharing there is nothing outside the skeletons. *)
Lemma private_mem_size :
  flag_is_set flags PW_BUFFERS_FLAG_SHARED = false ->
  (flag_is_set flags PW_BUFFERS_FLAG_NO_MEM = true -> Forall (fun d => dt_maxsize d = 0) datas) ->
  ai_mem_size info = 0.
Proof.
  intros Hsh Hz. destruct (alloc_info_flags_bits flags) as (Him & Hic & Hid & Hnd).
  destruct (fill_info_spec (alloc_info_flags flags) _ _ _ Hok) as (ma & (Hp & ? & _) & ->).
  unfold mem_off. simpl. rewrite Him, Hic, Hid, Hnd, Hsh. simpl.
  destruct (flag_is_set flags PW_BUFFERS_FLAG_NO_MEM); simpl; [|done].
  rewrite dsum_zero by (by apply ok_datas with metas || by apply Hz).
  pose proof (pow2_align_bounds _ (ok_first _ _ _ Hok)). rewrite (rup_0 (first_align _ _)) by lia.
  apply rup_0. lia.
Qed.

Lemma private_mem_extents bl :
  flag_is_set flags PW_BUFFERS_FLAG_SHARED = false ->
  concat (map (mem_extents (alloc_info_flags flags)) bl) = [].
Proof.
  intros Hsh. destruct (alloc_info_flags_bits flags) as (Him & Hic & Hid & _).
  induction bl as [|b bl IH]; [done|]. simpl. rewrite IH, app_nil_r.
  unfold mem_extents. rewrite Him, Hic, Hid, Hsh. simpl. by rewrite andb_false_r.
Qed.

Lemma private_sound n k1 k2 p :
  flag_is_set flags PW_BUFFERS_FLAG_SHARED = false ->
  (flag_is_set flags PW_BUFFERS_FLAG_NO_MEM = true -> Forall (fun d => dt_maxsize d = 0) datas) ->
  overflow_mul (Z.of_nat n) (u64 (8 + ai_skel_size info)) = Some k1 ->
  overflow_add k1 (ai_max_align info) = Some k2 -> calloc k2 = Some p ->
  buffers_sound calloc n metas datas data_aligns flags
    (mk_buffers None p (spa_buffer_alloc_layout_array info n
       (ptr_align (ptroff p (u64 (Z.of_nat n * 8))) (ai_max_align info)) 0) (Z.of_nat n) flags).
Proof.
  intros Hsh Hz H1 H2 Hc. destruct (calloc_block _ _ Hc) as (Hp & _ & Hb).
  destruct (sizes_spec (alloc_info_flags flags) _ _ _ Hok) as ((Hss & _) & _ & _ & Hma & H16).
  destruct (skel_place p n (ai_skel_size info) (ai_max_align info) k1 k2) as (Hm & Hm8 & Hlo & Hhi);
    [done..|].
  remember (ptr_align _ _) as skel. clear Heqskel.
  assert (0 <= Z.of_nat n * ai_skel_size info) by nia.
  destruct (layout_array_spec (alloc_info_flags flags) _ _ _ Hok n skel 0) as (Hl & Hst & _ & Hf).
  - unfold placed. split_and!; [lia|lia|done|done|]. case_match; [done|]. apply Z.mod_0_l. lia.
  - lia.
  - rewrite private_mem_size by done. lia.
  - unfold buffers_sound. cbn [pb_n_buffers pb_buffers pb_block pb_mem].
    split_and!; [done|done| |by apply private_mem_extents|done].
    exists k2. split; [done|]. split_and!; [lia|lia|]. eapply stacked_weaken; [exact Hst|lia|lia].
Qed.

(** With sharing the chunks are outside the skeletons. *)
Lemma shared_mem_size :
  datas <> [] -> flag_is_set flags PW_BUFFERS_FLAG_SHARED = true -> 0 < ai_mem_size info.
Proof.
  intros Hd Hsh. destruct (alloc_info_flags_bits flags) as (Him & Hic & Hid & Hnd).
  destruct (fill_info_spec (alloc_info_flags flags) _ _ _ Hok) as (ma & (Hp & ? & _) & ->).
  cbn [ai_mem_size]. rewrite Hid, Hsh, andb_false_r.
  pose proof (data_bounds _ _ _ Hok). pose proof (pow2_align_bounds _ (ok_first _ _ _ Hok)).
  assert (0 < mem_off (alloc_info_flags flags) metas datas) as Hm.
  { unfold mem_off. rewrite Him, Hic, Hsh. cbn [negb]. pose proof (msum_bounds _ (ok_metas _ _ _ Hok)).
    destruct datas; [done|]. rewrite zlen_cons. pose proof (zlen_nonneg l). lia. }
  pose proof (rup_bounds (first_align datas data_aligns) _ ltac:(lia) : _ <= rup _ (mem_off (alloc_info_flags flags) metas datas) < _).
  pose proof (rup_bounds ma (rup (first_align datas data_aligns) (mem_off (alloc_info_flags flags) metas datas)
    + dsum datas data_aligns 0) ltac:(lia)). lia.
Qed.

(** Recording the descriptor and the offsets moves nothing. *)
Lemma shared_result n p k2 m data bl skel hi :
  mb_map m = Some data ->
  flag_is_set flags PW_BUFFERS_FLAG_SHARED = true -> calloc k2 = Some p ->
  p + Z.of_nat n * 8 <= skel -> length bl = n ->
  stacked skel (concat (map (skel_extents (alloc_info_flags flags)) bl)) (p + k2) ->
  stacked data (concat (map (mem_extents (alloc_info_flags flags)) bl)) hi ->
  hi <= data + mb_size m -> mb_size m < 2 ^ 32 ->
  Forall (fun b => buffer_aligned (alloc_info_flags flags) data_aligns b /\
                   buffer_describes metas (map (huge_flags m) datas) b) bl ->
  buffers_sound calloc n metas datas data_aligns flags
    (mk_buffers (Some m) p (if flag_is_set flags PW_BUFFERS_FLAG_NO_MEM then bl
                            else map (share_buffer m data) bl) (Z.of_nat n) flags).
Proof.
  intros Hmap Hsh Hc Hlo Hl Hst Hst' Hhi Hsz Hf.
  destruct (alloc_info_flags_bits flags) as (_ & _ & Hid & Hnd).
  assert (forall d, dt_type (huge_flags m d) = dt_type d /\ dt_maxsize (huge_flags m d) = dt_maxsize d)
    as Hh by (split; [apply huge_flags_type|apply huge_flags_maxsize]).
  unfold buffers_sound. cbn [pb_n_buffers pb_buffers pb_block pb_mem].
  destruct (flag_is_set flags PW_BUFFERS_FLAG_NO_MEM) eqn:Hnm.
  - split_and!; [done|done| |exists data; split_and!; [done|by eapply stacked_weaken|done]|].
    + exists k2. split; [done|]. split_and!; [lia|lia|]. eapply stacked_weaken; [exact Hst|lia|lia].
    + eapply Forall_impl; [|exact Hf]. intros b [? ?%describes_map]; done.
  - rewrite !map_map. rewrite (map_ext _ _ (share_skel_extents _ m data)), (map_ext _ _ (share_mem_extents _ m data)).
    split_and!; [done|by rewrite length_map| |exists data; split_and!; [done|by eapply stacked_weaken|]|].
    + exists k2. split; [done|]. split_and!; [lia|lia|]. eapply stacked_weaken; [exact Hst|lia|lia].
    + intros _. eapply share_offsets; [exact Hnd| |exact Hst'|done|done]. by rewrite Hid, Hsh.
    + apply Forall_map. eapply Forall_impl; [|exact Hf]. intros b [? ?%describes_map]; [|done].
      split; [by apply aligned_share|by apply describes_share].
Qed.

Lemma shared_sound n k1 k2 p k3 hint m :
  (0 < n)%nat -> datas <> [] ->
  flag_is_set flags PW_BUFFERS_FLAG_SHARED = true -> Forall (fun a => a <= page) data_aligns ->
  overflow_mul (Z.of_nat n) (u64 (8 + ai_skel_size info)) = Some k1 ->
  overflow_add k1 (ai_max_align info) = Some k2 -> calloc k2 = Some p ->
  overflow_mul (Z.of_nat n) (ai_mem_size info) = Some k3 ->
  pool (memblock_flags hint) SPA_DATA_MemFd k3 = inl m ->
  exists data, mb_map m = Some data /\
  let bl := spa_buffer_alloc_layout_array (set_datas (map (huge_flags m) datas) info) n
       (ptr_align (ptroff p (u64 (Z.of_nat n * 8))) (ai_max_align info)) data in
  buffers_sound calloc n metas datas data_aligns flags
    (mk_buffers (Some m) p (if flag_is_set flags PW_BUFFERS_FLAG_NO_MEM then bl
                            else map (share_buffer m data) bl) (Z.of_nat n) flags).
Proof.
  intros Hn Hd Hsh Hpg H1 H2 Hc H3 Hm. destruct (calloc_block _ _ Hc) as (Hp & _ & Hb).
  destruct (sizes_spec (alloc_info_flags flags) _ _ _ Hok) as ((Hss & _) & (Hms & _) & _ & Hma & H16).
  pose proof (shared_mem_size Hd Hsh) as Hpos. apply overflow_mul_spec in H3 as [-> _].
  destruct (pool_block _ _ _ _ Hm) as (Hsz & data & Hmap & Hptr & Htop & Hal); [by destruct hint|nia|].
  exists data. split; [done|]. intros bl.
  assert (ai_max_align info <= page) as Hle.
  { destruct (fill_info_spec (alloc_info_flags flags) _ _ _ Hok) as (ma & (_ & _ & _ & Hbd) & ->).
    apply Hbd; [apply page_large|done]. }
  assert (data mod ai_max_align info = 0) as Hptrm
    by (apply (pow2_align_mod _ page); [done|apply page_pow2|done|done]).
  destruct (skel_place p n (ai_skel_size info) (ai_max_align info) k1 k2) as (Hm1 & Hm8 & Hlo & Hhi);
    [done..|].
  remember (ptr_align _ _) as skel. clear Heqskel.
  assert (0 <= Z.of_nat n * ai_skel_size info /\ 0 <= Z.of_nat n * ai_mem_size info) by nia.
  pose proof (huge_flags_maxsize m) as Hmx. pose proof info_flags as Hfl.
  pose proof (layout_array_spec (alloc_info_flags flags) _ _ _
    (alloc_ok_map (huge_flags m) _ _ _ Hmx Hok) n skel data) as Hspec.
  rewrite fill_info_map in Hspec by done. fold bl in Hspec.
  destruct Hspec as (Hl & Hst & Hst' & Hf); simpl; [|lia|lia|].
  { destruct (alloc_info_flags_bits flags) as (_ & _ & Hid & _). unfold placed. simpl.
    rewrite Hfl, Hid, Hsh, andb_false_r. split_and!; [lia|lia|done| |done].
    apply (pow2_align_mod 8 (ai_max_align info)); [by exists 3|done|lia|done]. }
  apply (shared_result n p k2 m data bl skel (data + Z.of_nat n * ai_mem_size info)); try done.
  - simpl in Hst. eapply stacked_weaken; [exact Hst|lia|lia].
  - lia.
  - lia.
Qed.
End Alloc_buffers.

Lemma init_data_zero flags types sizes :
  Forall (fun s => s = 0) sizes ->
  Forall (fun d => dt_maxsize d = 0) (zip_with (init_data flags) types sizes).
Proof.
  intros H. revert types. induction H as [|s sizes -> _ IH]; intros [|t types]; simpl; try constructor.
  - done.
  - apply IH.
Qed.

Lemma heap_live_clear p (m : option pw_memblock) bl n flags :
  heap_live (Calloc p :: (match m with Some m => [Pool_alloc m] | None => [] end)
    ++ (pw_buffers_clear (mk_buffers m p bl n flags)).2) = ([], []).
Proof.
  unfold heap_live. destruct m as [m|]; simpl; [rewrite (decide_True (P := m = m)) by done|].
  all: by rewrite (decide_True (P := p = p)) by done.
Qed.

(** C16: [alloc_buffers] for at least one buffer with at least one data, as its
    caller passes them, with alignments that are powers of two up to the page
    size, the first one the largest, and no size for the datas when no memory is
    asked for.  When it succeeds, every part of every buffer is inside the block
    it got from [calloc] or the shared memory it got from the pool, disjoint and
    aligned; the offsets that let the other side map a data are exact and inside
    the memory.  [pw_buffers_clear] then gives every block back, and a call that
    fails on any of its error paths keeps none.  The conditions are needed:
    [layout_overruns] for the alignments, [alloc_buffers_unmapped] for the
    counts. *)
Theorem alloc_buffers_sound calloc pool page `{!BlockSource calloc pool page}
  n metas data_sizes data_aligns data_types hint flags :
  let datas := zip_with (init_data flags) data_types data_sizes in
  alloc_ok metas datas data_aligns -> Forall (fun a => a <= page) data_aligns ->
  (0 < n)%nat -> datas <> [] ->
  (flag_is_set flags PW_BUFFERS_FLAG_NO_MEM = true -> Forall (fun s => s = 0) data_sizes) ->
  match alloc_buffers calloc pool n metas data_sizes data_aligns data_types hint flags with
  | (Ret pb, ev) =>
      buffers_sound calloc n metas datas data_aligns flags pb /\
      heap_live (ev ++ (pw_buffers_clear pb).2) = ([], [])
  | (Err _, ev) => heap_live ev = ([], [])
  | (Fault, _) => False
  end.
Proof.
  intros datas Hok Hpg Hn Hd Hz. unfold alloc_buffers. fold datas.
  destruct (overflow_mul _ (wrap _ _)) as [k1|] eqn:H1; [|done].
  destruct (overflow_add k1 _) as [k2|] eqn:H2; [|done].
  destruct (calloc k2) as [p|] eqn:Hc; [|done].
  destruct (flag_is_set flags PW_BUFFERS_FLAG_SHARED) eqn:Hsh.
  - assert (heap_live [Calloc p; Free p] = ([], [])) as Hfree
      by (unfold heap_live; simpl; by rewrite decide_True).
    destruct (overflow_mul _ (ai_mem_size _)) as [k3|] eqn:H3; [|done].
    destruct (pool _ _ k3) as [m|e] eqn:Hm; [|done].
    edestruct shared_sound as (data & -> & Hs); [done..|].
    split; [exact Hs|]. by apply (heap_live_clear p (Some m)).
  - split; [|by apply (heap_live_clear p None)].
    eapply private_sound; try done. intros Hnm. by apply init_data_zero, Hz.
Qed.

Definition witness_calloc (n : Z) : option Z := if n <? 2 ^ 40 then Some 65536 else None.
Definition witness_pool (_ _ n : Z) : pw_memblock + Z :=
  if n <? 2 ^ 31 then inl (mk_memblock 7 11 4096 n (if 0 <? n then Some (2 ^ 30) else None))
  else inr ENOMEM.

#[export] Instance witness_source : BlockSource witness_calloc witness_pool 4096.
Proof.
  split.
  - unfold witness_calloc. intros n p. case_if; [|done]. intros [= <-]. split_and!; [lia|done|lia].
  - unfold witness_pool. intros fl ty n m. case_if; [|done]. intros [= <-]. simpl.
    split; [lia|]. intros _ Hn. exists (2 ^ 30). rewrite (proj2 (Z.ltb_lt _ _) Hn). split_and!; done || lia.
  - by exists 12.
  - lia.
Qed.

Lemma alloc_buffers_sound_witness :
  exists pb ev,
    alloc_buffers witness_calloc witness_pool 3 witness_metas [1000; 100] [64; 32] [2; 2]
      SPA_BUFFER_PAGE_SIZE_NORMAL PW_BUFFERS_FLAG_SHARED = (Ret pb, ev) /\
    map dt_mapoffset (concat (map b_data_list (pb_buffers pb))) = [128; 1152; 1408; 2432; 2688; 3712] /\
    heap_live (ev ++ (pw_buffers_clear pb).2) = ([], []).
Proof.
  eexists _, _. split; [vm_compute; reflexivity|]. split; [vm_compute; reflexivity|].
  refine (proj2 (alloc_buffers_sound witness_calloc witness_pool 4096 3 witness_metas
    [1000; 100] [64; 32] [2; 2] SPA_BUFFER_PAGE_SIZE_NORMAL PW_BUFFERS_FLAG_SHARED _ _ _ _ _)).
  - unfold alloc_ok, witness_metas, is_u32, zlen. simpl.
    split_and!; try lia; repeat constructor; simpl; try lia; [by exists 6|by exists 5].
  - repeat constructor; lia.
  - lia.
  - discriminate.
  - vm_compute. discriminate.
Defined.

(** Shared buffers without metas and datas: the block is empty, and so has no map
    to read the address from. *)
Lemma alloc_buffers_unmapped :
  (alloc_buffers witness_calloc witness_pool 1 [] [] [] [] SPA_BUFFER_PAGE_SIZE_NORMAL
     PW_BUFFERS_FLAG_SHARED).1 = Fault.
Proof. by vm_compute. Qed.

(** ** Alignments outside the assumptions

    Where the last data of one buffer in a separate memory ends, relative to the
    end of that memory. *)
Definition overrun (metas : list spa_meta) (sizes data_aligns : list Z) (data : Z) : Z :=
  let datas := map (fun s => mk_data 2 3 0 0 s 0 0) sizes in
  let info := spa_buffer_alloc_fill_info 0 metas datas data_aligns in
  let b := spa_buffer_alloc_layout info 65536 data in
  match rev (b_data_list b) with
  | d :: _ => dt_data d + dt_maxsize d - (data + ai_mem_size info)
  | [] => 0
  end.

(** An alignment that is no power of two, alignments that grow, and memory that is
    only page-aligned under a larger alignment: each makes the last data end
    behind the memory that was sized for it. *)
Lemma layout_overruns :
  overrun [mk_meta 1 8 0] [33; 33] [33; 33] 65536 = 32 /\
  overrun [] [64; 32] [16; 64] 65536 = 32 /\
  overrun [mk_meta 6 5000 0] [8192] [8192] 4096 = 4096.
Proof. split_and!; vm_compute; reflexivity. Qed.
