(* ===== verification/MetaRecords.v ===== *)
(** * Metadata records

    Models the PipeWireAO part of [spa/include/spa/buffer/meta.h]: the sizes and
    the validation of metadata records, their requirements, the copy of the
    facts of one buffer to another and the comparison of identities.  The
    arrays of [struct spa_meta] are bytes of the same memory as the records they
    point to, and are read whenever the code reads them, so that a record that
    overlaps a descriptor is seen.  A read or write outside the memory is a
    fault. *)
From S2P Require Import Prelude Bytes BufferAlloc.
#[local] Open Scope Z_scope.

Notation SPA_META_Invalid := 0.
Notation SPA_META_Header := 1.
Notation SPA_META_Busy := 7.
Notation SPA_META_SyncTimeline := 9.
Notation SPA_META_AcquisitionIdentity := 0x300.
Notation SPA_META_ExposureTiming := 0x301.
Notation SPA_META_OpticalChopping := 0x303.
Notation SPA_META_ElectricalTrigger := 0x304.
Notation SPA_META_ReferenceTimestamp := 0x305.
Notation SPA_META_START_features := 0x10000.

Notation SPA_META_MAX_RECORDS := 64.
Notation SPA_META_MAX_BYTES := 4096.
Notation SPA_META_RECORD_VALID := 1.
Notation SPA_META_EXPOSURE_START_VALID := 1.
Notation SPA_META_EXPOSURE_DURATION_VALID := 2.
Notation SPA_META_CLOCK_MONOTONIC := 1.
Notation SPA_META_CLOCK_MODEL := 4.
Notation SPA_META_REQUIREMENT_REQUIRED := 1.
Notation UINTPTR_MAX := (2 ^ 64 - 1).
Notation UINT64_MAX := (2 ^ 64 - 1).

(** [for (i = from; i < from + n; i++) if (!f(i)) return false;] *)
Fixpoint for_all_from (i : Z) (n : nat) (f : Z -> outcome bool) : outcome bool :=
  match n with
  | O => Ret true
  | S n => let! b := f i in if b : bool then for_all_from (i + 1) n f else Ret false
  end.
Definition for_all (n : Z) (f : Z -> outcome bool) : outcome bool := for_all_from 0 (Z.to_nat n) f.

(** [metas[i]]. *)
Definition meta_at (m : mem) (metas i : Z) : outcome spa_meta :=
  let p := metas + i * sizeof_spa_meta in
  let! type := load_u32 m p in
  let! size := load_u32 m (p + 4) in
  let! data := load_u64 m (p + 8) in
  Ret (mk_meta type size data).

(** [struct spa_meta_requirement]. *)
Record spa_meta_requirement : Type := mk_requirement {
  rq_type : Z;
  rq_size : Z;
  rq_flags : Z;
  rq_reserved : Z }.

Definition requirement_at (m : mem) (requirements i : Z) : outcome spa_meta_requirement :=
  let p := requirements + i * 16 in
  let! type := load_u32 m p in
  let! size := load_u32 m (p + 4) in
  let! flags := load_u32 m (p + 8) in
  let! reserved := load_u32 m (p + 12) in
  Ret (mk_requirement type size flags reserved).

Fixpoint bytes_or (m : mem) (p : Z) (n : nat) (value : Z) : outcome Z :=
  match n with
  | O => Ret value
  | S n => let! x := load_u8 m p in bytes_or m (p + 1) n (Z.lor value x)
  end.
Definition spa_meta_bytes_zero (m : mem) (data size : Z) : outcome bool :=
  let! value := bytes_or m data (Z.to_nat size) 0 in Ret (value =? 0).

Definition spa_meta_type_is_transport_owned (type : Z) : bool :=
  (type =? SPA_META_Busy) || (type =? SPA_META_SyncTimeline) || (SPA_META_START_features <=? type).

Definition spa_meta_record_size (type : Z) : Z :=
  if type =? SPA_META_Header then 32
  else if type =? SPA_META_AcquisitionIdentity then 40
  else if type =? SPA_META_ExposureTiming then 24
  else if type =? SPA_META_ReferenceTimestamp then 24
  else if type =? SPA_META_OpticalChopping then 8
  else if type =? SPA_META_ElectricalTrigger then 8
  else 0.

Definition spa_meta_record_layout_validate (type size max_bytes : Z) : bool :=
  if (type =? SPA_META_Invalid) || (type =? 11) || (type =? 12) || (type =? 13) || (type =? 0x302)
     || (max_bytes <? size) then false
  else if SPA_META_START_features <=? type then
    (size =? 0) && negb ((11 <=? Z.shiftr type 16) && (Z.shiftr type 16 <=? 13))
    && negb (Z.shiftr type 16 =? 0x302)
  else let expected := spa_meta_record_size type in (expected =? 0) || (expected =? size).

(** [SPA_IS_ALIGNED(p, 8)]. *)
Definition is_aligned8 (p : Z) : bool := Z.land p 7 =? 0.

(** [size && (data == NULL || !SPA_IS_ALIGNED(data, 8))]. *)
Definition bad_storage (r : spa_meta) : bool :=
  negb (mt_size r =? 0) && ((mt_data r =? 0) || negb (is_aligned8 (mt_data r))).

Fixpoint find_from (m : mem) (metas : Z) (i : Z) (n : nat) (type : Z) : outcome (option spa_meta) :=
  match n with
  | O => Ret None
  | S n =>
      let! r := meta_at m metas i in
      if mt_type r =? type then Ret (Some r) else find_from m metas (i + 1) n type
  end.
Definition spa_meta_records_find (m : mem) (metas count type : Z) : outcome (option spa_meta) :=
  find_from m metas 0 (Z.to_nat count) type.

Definition validate_identity (m : mem) (p : Z) (require_valid : bool) : outcome bool :=
  let! flags := load_u32 m p in
  if flags =? 0 then if require_valid then Ret false else spa_meta_bytes_zero m p 40
  else if negb (flags =? SPA_META_RECORD_VALID) then Ret false
  else
    let! reserved := load_u32 m (p + 4) in
    if negb (reserved =? 0) then Ret false
    else let! z := spa_meta_bytes_zero m (p + 8) 16 in Ret (negb z).

Definition validate_exposure (m : mem) (p : Z) (require_valid : bool) : outcome bool :=
  let! flags := load_u32 m p in
  if flags =? 0 then if require_valid then Ret false else spa_meta_bytes_zero m p 24
  else if negb (Z.land flags (2 ^ 32 - 4) =? 0) then Ret false
  else
    let! clock := load_u32 m (p + 4) in
    let! start_nsec := load_i64 m (p + 8) in
    let! duration_nsec := load_u64 m (p + 16) in
    if Z.land flags SPA_META_EXPOSURE_START_VALID =? 0 then
      Ret ((flags =? SPA_META_EXPOSURE_DURATION_VALID) && (0 <? duration_nsec) && (clock =? 0)
           && (start_nsec =? 0))
    else
      Ret ((SPA_META_CLOCK_MONOTONIC <=? clock) && (clock <=? SPA_META_CLOCK_MODEL)
           && (if Z.land flags SPA_META_EXPOSURE_DURATION_VALID =? 0 then duration_nsec =? 0
               else 0 <? duration_nsec)).

Definition validate_timestamp (m : mem) (p : Z) (require_valid : bool) : outcome bool :=
  let! clock := load_u32 m p in
  if clock =? 0 then if require_valid then Ret false else spa_meta_bytes_zero m p 24
  else
    let! reserved := load_u32 m (p + 4) in
    let! timestamp_nsec := load_u64 m (p + 8) in
    Ret ((SPA_META_CLOCK_MONOTONIC <=? clock) && (clock <=? SPA_META_CLOCK_MODEL)
         && (reserved =? 0) && negb (timestamp_nsec =? UINT64_MAX)).

Definition validate_classification (m : mem) (p : Z) (require_valid : bool) : outcome bool :=
  let! m0 := load_u32 m p in
  let! m1 := load_u32 m (p + 4) in
  Ret (if m0 =? SPA_META_RECORD_VALID then m1 <=? 3
       else negb require_valid && (m0 =? 0) && (m1 =? 0)).

Definition spa_meta_record_validate (m : mem) (meta : spa_meta) (require_valid : bool) : outcome bool :=
  if negb (spa_meta_record_layout_validate (mt_type meta) (mt_size meta) SPA_META_MAX_BYTES)
     || bad_storage meta then Ret false
  else if spa_meta_record_size (mt_type meta) =? 0 then Ret (negb require_valid)
  else if mt_type meta =? SPA_META_AcquisitionIdentity then
    validate_identity m (mt_data meta) require_valid
  else if mt_type meta =? SPA_META_ExposureTiming then
    validate_exposure m (mt_data meta) require_valid
  else if mt_type meta =? SPA_META_ReferenceTimestamp then
    validate_timestamp m (mt_data meta) require_valid
  else if (mt_type meta =? SPA_META_OpticalChopping) || (mt_type meta =? SPA_META_ElectricalTrigger)
  then validate_classification m (mt_data meta) require_valid
  else Ret true.

(** The result and the memory. *)
Definition spa_meta_record_init (m : mem) (meta : spa_meta) : outcome (bool * mem) :=
  if negb (spa_meta_record_layout_validate (mt_type meta) (mt_size meta) SPA_META_MAX_BYTES)
     || bad_storage meta then Ret (false, m)
  else if spa_meta_type_is_transport_owned (mt_type meta) then Ret (true, m)
  else if mt_size meta =? 0 then Ret (true, m)
  else let! m := store m (mt_data meta) (zeroes (mt_size meta)) in Ret (true, m).

(** [(size + 7u) & ~7u]. *)
Definition round8 (size : Z) : Z := Z.land (u32 (size + 7)) (2 ^ 32 - 8).

(** [a < b + b_size && b < a + a_size] on [uintptr_t]. *)
Definition overlaps (a a_size b b_size : Z) : bool :=
  (a <? u64 (b + b_size)) && (b <? u64 (a + a_size)).

(** The comparison of record [i] with the records before it. *)
Definition distinct_from (m : mem) (metas : Z) (r : spa_meta) (j : Z) : outcome bool :=
  let! rj := meta_at m metas j in
  Ret (negb (mt_type r =? mt_type rj) &&
       negb (negb (mt_size r =? 0) && negb (mt_size rj =? 0)
             && overlaps (mt_data r) (mt_size r) (mt_data rj) (mt_size rj))).

(** The loop over the records, with the bytes counted so far. *)
Fixpoint layout_loop (m : mem) (metas count i : Z) (n : nat) (bytes : Z) : outcome bool :=
  match n with
  | O => Ret true
  | S n =>
      let! r := meta_at m metas i in
      if negb (spa_meta_record_layout_validate (mt_type r) (mt_size r) SPA_META_MAX_BYTES)
         || bad_storage r || (u32 (SPA_META_MAX_BYTES - bytes) <? round8 (mt_size r)) then Ret false
      else
        let bytes := u32 (bytes + round8 (mt_size r)) in
        let table := u64 (count * sizeof_spa_meta) in
        if negb (mt_size r =? 0) &&
           ((UINTPTR_MAX - mt_size r <? mt_data r) || (UINTPTR_MAX - table <? metas)
            || overlaps (mt_data r) (mt_size r) metas table) then Ret false
        else
          let! b := for_all i (distinct_from m metas r) in
          if b : bool then layout_loop m metas count (i + 1) n bytes else Ret false
  end.

Definition spa_meta_records_layout_validate (m : mem) (metas count : Z) : outcome bool :=
  if (SPA_META_MAX_RECORDS <? count)
     || (negb (count =? 0) && ((metas =? 0) || negb (is_aligned8 metas))) then Ret false
  else layout_loop m metas count 0 (Z.to_nat count) 0.

(** The last record of a type. *)
Fixpoint find_last (m : mem) (metas : Z) (i : Z) (n : nat) (type : Z) (found : option spa_meta)
  : outcome (option spa_meta) :=
  match n with
  | O => Ret found
  | S n =>
      let! r := meta_at m metas i in
      find_last m metas (i + 1) n type (if mt_type r =? type then Some r else found)
  end.

(** The checks of one requirement. *)
Definition check_requirement (m : mem) (metas count requirements i : Z) : outcome bool :=
  let! r := requirement_at m requirements i in
  if negb (rq_reserved r =? 0) || negb (Z.land (rq_flags r) (2 ^ 32 - 1 - SPA_META_REQUIREMENT_REQUIRED) =? 0)
     || negb (spa_meta_record_layout_validate (rq_type r) (rq_size r) SPA_META_MAX_BYTES) then Ret false
  else
    let! distinct := for_all i (fun j =>
      let! rj := requirement_at m requirements j in Ret (negb (rq_type rj =? rq_type r))) in
    if negb distinct then Ret false
    else
      let! found := find_last m metas 0 (Z.to_nat count) (rq_type r) None in
      let required := negb (Z.land (rq_flags r) SPA_META_REQUIREMENT_REQUIRED =? 0) in
      match found with
      | None => Ret (negb required)
      | Some r' =>
          if negb (mt_size r' =? rq_size r) then Ret false
          else if required && negb (spa_meta_record_size (rq_type r) =? 0)
          then spa_meta_record_validate m r' true
          else Ret true
      end.

(** [struct spa_meta_requirement] is aligned to 4 bytes. *)
Definition is_aligned4 (p : Z) : bool := Z.land p 3 =? 0.

Definition spa_meta_records_validate (m : mem) (metas count requirements n_requirements : Z)
  : outcome bool :=
  let! b := spa_meta_records_layout_validate m metas count in
  if negb b || (SPA_META_MAX_RECORDS <? n_requirements) || (negb (count =? 0) && (metas =? 0))
     || (negb (n_requirements =? 0) && ((requirements =? 0) || negb (is_aligned4 requirements)))
  then Ret false
  else
    let! b := for_all count (fun i =>
      let! r := meta_at m metas i in spa_meta_record_validate m r false) in
    if b : bool then for_all n_requirements (check_requirement m metas count requirements)
    else Ret false.

(** The three preflight loops of the copy. *)
Definition copy_target_ok (m : mem) (dst n_dst src i : Z) : outcome bool :=
  let! s := meta_at m src i in
  if spa_meta_type_is_transport_owned (mt_type s) then Ret true
  else
    let! d := spa_meta_records_find m dst n_dst (mt_type s) in
    match d with
    | None => Ret false
    | Some d => Ret ((mt_size d =? mt_size s) && negb (bad_storage d))
    end.
Definition copy_spares_table (m : mem) (dst src n_src j : Z) : outcome bool :=
  let! d := meta_at m dst j in
  if spa_meta_type_is_transport_owned (mt_type d) then Ret true
  else Ret (negb (negb (mt_size d =? 0)
                  && overlaps (mt_data d) (mt_size d) src (u64 (n_src * sizeof_spa_meta)))).
Definition copy_disjoint (m : mem) (dst src i j : Z) : outcome bool :=
  let! s := meta_at m src i in
  let! d := meta_at m dst j in
  if spa_meta_type_is_transport_owned (mt_type s) && spa_meta_type_is_transport_owned (mt_type d)
  then Ret true
  else Ret (negb (negb (mt_size s =? 0) && negb (mt_size d =? 0) &&
       ((UINTPTR_MAX - mt_size s <? mt_data s) || (UINTPTR_MAX - mt_size d <? mt_data d)
        || overlaps (mt_data s) (mt_size s) (mt_data d) (mt_size d)))).

Fixpoint init_loop (m : mem) (dst i : Z) (n : nat) : outcome (bool * mem) :=
  match n with
  | O => Ret (true, m)
  | S n =>
      let! d := meta_at m dst i in
      let! bm := spa_meta_record_init m d in
      if bm.1 : bool then init_loop bm.2 dst (i + 1) n else Ret bm
  end.

Fixpoint copy_loop (m : mem) (dst n_dst src i : Z) (n : nat) : outcome mem :=
  match n with
  | O => Ret m
  | S n =>
      let! s := meta_at m src i in
      if spa_meta_type_is_transport_owned (mt_type s) then copy_loop m dst n_dst src (i + 1) n
      else
        let! d := spa_meta_records_find m dst n_dst (mt_type s) in
        match d with
        | None => Fault
        | Some d =>
            let! m := (if mt_size d =? 0 then Ret m
                       else let! bs := load m (mt_data s) (mt_size d) in store m (mt_data d) bs) in
            copy_loop m dst n_dst src (i + 1) n
        end
  end.

Definition spa_meta_records_copy (m : mem) (dst n_dst src n_src : Z) : outcome (bool * mem) :=
  let! vs := spa_meta_records_validate m src n_src 0 0 in
  let! vd := (if vs : bool then spa_meta_records_layout_validate m dst n_dst else Ret false) in
  if negb vd then Ret (false, m)
  else if dst =? src then Ret (n_dst =? n_src, m)
  else
    let! b := for_all n_src (copy_target_ok m dst n_dst src) in
    if negb b then Ret (false, m)
    else
      let! b := for_all n_dst (copy_spares_table m dst src n_src) in
      if negb b then Ret (false, m)
      else
        let! b := for_all n_src (fun i => for_all n_dst (copy_disjoint m dst src i)) in
        if negb b then Ret (false, m)
        else
          let! bm := init_loop m dst 0 (Z.to_nat n_dst) in
          if negb bm.1 then Ret bm
          else
            let! m := copy_loop bm.2 dst n_dst src 0 (Z.to_nat n_src) in
            Ret (true, m).

(** On two records of [struct spa_meta_acquisition_identity] at addresses
    that are not NULL. *)
Definition spa_acquisition_identity_equal (m : mem) (a b : Z) : outcome bool :=
  let! a_flags := load_u32 m a in
  let! b_flags := load_u32 m b in
  let! a_reserved := load_u32 m (a + 4) in
  let! b_reserved := load_u32 m (b + 4) in
  let! zero := spa_meta_bytes_zero m (a + 8) 16 in
  let! a_generation := load_u64 m (a + 24) in
  let! b_generation := load_u64 m (b + 24) in
  let! a_sequence := load_u64 m (a + 32) in
  let! b_sequence := load_u64 m (b + 32) in
  let! a_domain := load m (a + 8) 16 in
  let! b_domain := load m (b + 8) 16 in
  Ret ((a_flags =? SPA_META_RECORD_VALID) && (b_flags =? SPA_META_RECORD_VALID)
       && (a_reserved =? 0) && (b_reserved =? 0) && negb zero
       && (a_generation =? b_generation) && (a_sequence =? b_sequence)
       && bool_decide (a_domain = b_domain)).
