(* ===== verification/MetaRecordsProofs.v ===== *)
(** * Correctness of the metadata records

    The validation of [MetaRecords] accepts exactly the well-formed record
    tables; the copy leaves the destination with the facts of the source, or
    leaves the memory as it was; what it leaves validates again; and the metas of
    a buffer laid out by [BufferAlloc] are well formed. *)
From S2P Require Import Prelude Bytes BufferAlloc BufferAllocProofs MetaRecords.
#[local] Open Scope Z_scope.

(** ** Checks that decide a property *)

(** The check returns, and returns true exactly when [P] holds. *)
Definition decides (o : outcome bool) (P : Prop) : Prop := exists b, o = Ret b /\ (b = true <-> P).

Lemma decides_ret (b : bool) (P : Prop) : (b = true <-> P) -> decides (Ret b) P.
Proof. intros H. by exists b. Qed.

Lemma decides_iff o (P Q : Prop) : (P <-> Q) -> decides o P -> decides o Q.
Proof. intros HPQ (b & -> & H). exists b. split; [done|]. tauto. Qed.

(** A guard with an early return, and a nested check. *)
Lemma decides_guard (c : bool) k (P : Prop) :
  (c = true -> ~ P) -> (c = false -> decides k P) -> decides (if c then Ret false else k) P.
Proof. intros Ht Hf. destruct c; [|by apply Hf]. apply decides_ret. split; [done|]. intros ?. by destruct Ht. Qed.

Lemma decides_and o k (P Q : Prop) :
  decides o P -> (P -> decides k Q) -> decides (let! b := o in if b : bool then k else Ret false) (P /\ Q).
Proof.
  intros (b & -> & Hb) Hk. simpl. destruct b.
  - eapply decides_iff; [|apply Hk; by apply Hb]. split; [|by intros []]. intros ?. split; [by apply Hb|done].
  - apply decides_ret. split; [done|]. intros [HP _]. by apply Hb.
Qed.

Lemma decides_for_all_from i n f (P : Z -> Prop) :
  (forall k, i <= k < i + Z.of_nat n -> decides (f k) (P k)) ->
  decides (for_all_from i n f) (forall k, i <= k < i + Z.of_nat n -> P k).
Proof.
  revert i. induction n as [|n IH]; intros i H; cbn [for_all_from].
  { apply decides_ret. split; [|done]. intros _ k Hk. lia. }
  eapply decides_iff; [|apply decides_and;
    [apply (H i); lia|intros _; apply IH; intros k Hk; apply H; lia]].
  split.
  - intros [Hi Hr] k Hk. destruct (decide (k = i)) as [->|]; [done|]. apply Hr. lia.
  - intros Ha. split; [apply Ha; lia|]. intros k Hk. apply Ha. lia.
Qed.

Lemma decides_for_all n f (P : Z -> Prop) :
  (forall k, 0 <= k < n -> decides (f k) (P k)) -> decides (for_all n f) (forall k, 0 <= k < n -> P k).
Proof.
  intros H. unfold for_all. destruct (Z.le_gt_cases 0 n).
  - pose proof (decides_for_all_from 0 (Z.to_nat n) f P) as Hd.
    rewrite Z2Nat.id in Hd by done. by apply Hd.
  - replace (Z.to_nat n) with O by lia. apply decides_ret. split; [|done]. intros _ k Hk. lia.
Qed.

(** ** Arithmetic of the checks *)

Lemma is_aligned8_spec p : is_aligned8 p = true <-> p mod 8 = 0.
Proof.
  unfold is_aligned8. change 7 with (Z.ones 3). rewrite Z.land_ones, Z.eqb_eq by lia. done.
Qed.

Lemma land_clear_low x : 0 <= x < 2 ^ 32 -> Z.land x (2 ^ 32 - 8) = 8 * (x / 8).
Proof.
  intros Hx. change (2 ^ 32 - 8) with (Z.ldiff (Z.ones 32) (Z.ones 3)).
  assert (Z.land x (Z.ldiff (Z.ones 32) (Z.ones 3)) = Z.ldiff x (Z.ones 3)) as ->.
  { rewrite <- (Z.mod_small x (2 ^ 32)) at 2 by done. rewrite <- Z.land_ones by lia.
    apply Z.bits_inj'. intros i Hi. rewrite !Z.land_spec, !Z.ldiff_spec, Z.land_spec.
    by destruct (Z.testbit x i), (Z.testbit (Z.ones 32) i). }
  rewrite Z.ldiff_ones_r, Z.shiftl_mul_pow2, Z.shiftr_div_pow2 by lia.
  change (2 ^ 3) with 8. lia.
Qed.

Lemma round8_spec size : 0 <= size <= 4096 -> round8 size = pad8 size.
Proof.
  intros H. unfold round8. rewrite wrap_small, land_clear_low by lia. done.
Qed.

(** Two extents have no byte in common. *)
Definition apart (a n b k : Z) : Prop := a + n <= b \/ b + k <= a.

Lemma overlaps_spec a n b k :
  0 <= a -> 0 <= n -> 0 <= b -> 0 <= k -> a + n < 2 ^ 64 -> b + k < 2 ^ 64 ->
  overlaps a n b k = false <-> apart a n b k.
Proof.
  intros. unfold overlaps, apart. rewrite !u64_small by lia.
  rewrite andb_false_iff, !Z.ltb_ge. lia.
Qed.

Lemma record_layout_size type size max :
  spa_meta_record_layout_validate type size max = true -> size <= max.
Proof.
  unfold spa_meta_record_layout_validate. case_if; [done|]. intros _. lia.
Qed.

Lemma bad_storage_spec r :
  bad_storage r = false <-> (mt_size r <> 0 -> mt_data r <> 0 /\ mt_data r mod 8 = 0).
Proof.
  unfold bad_storage. rewrite andb_false_iff, orb_false_iff, !negb_false_iff, is_aligned8_spec.
  rewrite Z.eqb_eq, Z.eqb_neq. lia.
Qed.

(** ** Record tables *)

(** The memory holds the descriptors [ml] at [metas]. *)
Definition metas_in (m : mem) (metas : Z) (ml : list spa_meta) : Prop :=
  forall i r, ml !! i = Some r -> meta_at m metas (Z.of_nat i) = Ret r.

Lemma meta_at_inv m metas i r :
  meta_at m metas i = Ret r ->
  0 <= metas + i * sizeof_spa_meta /\ metas + (i + 1) * sizeof_spa_meta <= zlen m /\
  is_u32 (mt_type r) /\ is_u32 (mt_size r) /\ is_u64 (mt_data r).
Proof.
  unfold meta_at. destruct (load_u32 m _) as [t| |] eqn:E1; try done. simpl.
  destruct (load_u32 m (_ + 4)) as [s| |] eqn:E2; try done. simpl.
  destruct (load_u64 m _) as [d| |] eqn:E3; try done. intros [= <-]. simpl.
  apply load_u32_inv in E1 as (? & ? & ?), E2 as (? & ? & ?). apply load_u64_inv in E3 as (? & ? & ?).
  split_and!; try done; lia.
Qed.

Lemma metas_in_at m metas ml i :
  metas_in m metas ml -> 0 <= i < zlen ml ->
  exists r, ml !! Z.to_nat i = Some r /\ meta_at m metas i = Ret r.
Proof.
  intros H Hi. destruct (lookup_lt_is_Some_2 ml (Z.to_nat i)) as [r Hr]; [unfold zlen in Hi; lia|].
  exists r. split; [done|]. rewrite <- (Z2Nat.id i) by lia. by apply H.
Qed.

Lemma metas_in_middle m metas pre r post :
  metas_in m metas (pre ++ r :: post) -> meta_at m metas (zlen pre) = Ret r.
Proof. intros H. apply H. by apply list_lookup_middle. Qed.

(** A table that is not empty lies in the memory. *)
Lemma metas_in_bounds m metas ml :
  metas_in m metas ml -> ml <> [] -> 0 <= metas /\ metas + zlen ml * sizeof_spa_meta <= zlen m.
Proof.
  intros H Hn. assert (0 < zlen ml) by (destruct ml; [done|]; rewrite zlen_cons; pose proof (zlen_nonneg ml); lia).
  destruct (metas_in_at m metas ml 0 H) as (r & _ & Hr); [lia|].
  destruct (metas_in_at m metas ml (zlen ml - 1) H) as (r' & _ & Hr'); [lia|].
  apply meta_at_inv in Hr as (? & _), Hr' as (_ & ? & _). lia.
Qed.

(** ** Well-formed tables *)

(** One record of a table of [count] descriptors at [metas]: a known layout of
    at most 4096 bytes, and storage that is aligned, below the top of the address
    space and apart from the table. *)
Definition record_ok (metas count : Z) (r : spa_meta) : Prop :=
  spa_meta_record_layout_validate (mt_type r) (mt_size r) SPA_META_MAX_BYTES = true /\
  (mt_size r <> 0 ->
   mt_data r <> 0 /\ mt_data r mod 8 = 0 /\ mt_data r + mt_size r <= UINTPTR_MAX /\
   apart (mt_data r) (mt_size r) metas (count * sizeof_spa_meta)).

(** Two records of a table: different types, storage apart. *)
Definition record_apart (r r' : spa_meta) : Prop :=
  mt_type r <> mt_type r' /\
  (mt_size r <> 0 -> mt_size r' <> 0 -> apart (mt_data r) (mt_size r) (mt_data r') (mt_size r')).

Definition records_bytes (ml : list spa_meta) : Z := foldr (fun r s => pad8 (mt_size r) + s) 0 ml.

(** A well-formed table. *)
Definition records_ok (metas : Z) (ml : list spa_meta) : Prop :=
  zlen ml <= SPA_META_MAX_RECORDS /\ (ml <> [] -> metas <> 0 /\ metas mod 8 = 0) /\
  Forall (record_ok metas (zlen ml)) ml /\ records_bytes ml <= SPA_META_MAX_BYTES /\
  forall i j r r', (i < j)%nat -> ml !! i = Some r -> ml !! j = Some r' -> record_apart r' r.

(** The same for the records behind [pre], as the loop meets them. *)
Fixpoint rest_ok (metas count : Z) (pre : list spa_meta) (bytes : Z) (post : list spa_meta) : Prop :=
  match post with
  | [] => True
  | r :: post =>
      record_ok metas count r /\ bytes + pad8 (mt_size r) <= SPA_META_MAX_BYTES /\
      (forall j r', pre !! j = Some r' -> record_apart r r') /\
      rest_ok metas count (pre ++ [r]) (bytes + pad8 (mt_size r)) post
  end.

Lemma records_bytes_nonneg ml :
  Forall (fun r => 0 <= mt_size r) ml -> 0 <= records_bytes ml.
Proof.
  induction 1 as [|r ml Hr _ IH]; simpl; [lia|]. pose proof (pad8_bounds (mt_size r)). lia.
Qed.

Lemma rest_ok_iff metas count pre bytes post :
  0 <= bytes <= SPA_META_MAX_BYTES -> Forall (fun r => 0 <= mt_size r) post ->
  rest_ok metas count pre bytes post <->
  Forall (record_ok metas count) post /\ bytes + records_bytes post <= SPA_META_MAX_BYTES /\
  forall i j r r', (i < j)%nat -> (length pre <= j)%nat ->
    (pre ++ post) !! i = Some r -> (pre ++ post) !! j = Some r' -> record_apart r' r.
Proof.
  intros Hb Hs. revert pre bytes Hb. induction Hs as [|r post Hr Hs IH]; intros pre bytes Hb; simpl.
  { split; [|done]. intros _. split_and!; [constructor|lia|].
    intros i j r r' Hij Hj _ Hl%lookup_lt_Some. rewrite app_nil_r in Hl. lia. }
  pose proof (pad8_bounds (mt_size r)). pose proof (records_bytes_nonneg _ Hs).
  split.
  - intros (H1 & H2 & H3 & H4). apply IH in H4 as (G1 & G2 & G3); [|lia].
    rewrite <- app_assoc in G3. simpl in G3.
    split_and!; [by constructor|lia|].
    intros i j x y Hij Hj Hx Hy. destruct (decide (j = length pre)) as [->|].
    + rewrite list_lookup_middle in Hy by done. injection Hy as <-.
      rewrite lookup_app_l in Hx by lia. by apply (H3 i).
    + apply (G3 i j); [done|rewrite length_app; simpl; lia|done|done].
  - intros (H1 & H2 & H3). inversion H1 as [|? ? Hr1 H1']; subst.
    split_and!; [done|lia| |].
    + intros j r' Hj. apply (H3 j (length pre)).
      * by apply lookup_lt_Some in Hj.
      * done.
      * by apply lookup_app_l_Some.
      * by apply list_lookup_middle.
    + apply IH; [lia|]. rewrite <- app_assoc. simpl. split_and!; [done|lia|].
      intros i j x y Hij Hj. rewrite length_app in Hj. simpl in Hj. apply H3; lia.
Qed.

(** ** Validation of tables *)

Section Layout_validate.
Context (m : mem) (metas : Z) (ml : list spa_meta).
Context (Hin : metas_in m metas ml) (Hm : zlen m < 2 ^ 63).

Lemma distinct_from_decides r j r' :
  is_u32 (mt_size r) -> is_u32 (mt_size r') -> is_u64 (mt_data r) -> is_u64 (mt_data r') ->
  (mt_size r <> 0 -> mt_data r + mt_size r <= UINTPTR_MAX) ->
  (mt_size r' <> 0 -> mt_data r' + mt_size r' <= UINTPTR_MAX) ->
  meta_at m metas j = Ret r' -> decides (distinct_from m metas r j) (record_apart r r').
Proof.
  unfold is_u32, is_u64. intros Hs Hs' Hd Hd' Ht Ht' Hj. unfold distinct_from. rewrite Hj. simpl.
  apply decides_ret. unfold record_apart.
  rewrite andb_true_iff, !negb_true_iff, Z.eqb_neq, !andb_false_iff, !negb_false_iff, !Z.eqb_eq.
  destruct (Z.eq_dec (mt_size r) 0), (Z.eq_dec (mt_size r') 0); [tauto|tauto|tauto|].
  rewrite overlaps_spec by lia. tauto.
Qed.

(** The storage test against the table. *)
Lemma table_guard r :
  ml <> [] -> is_u32 (mt_size r) -> is_u64 (mt_data r) ->
  spa_meta_record_layout_validate (mt_type r) (mt_size r) SPA_META_MAX_BYTES = true ->
  bad_storage r = false ->
  let table := u64 (zlen ml * sizeof_spa_meta) in
  (negb (mt_size r =? 0) &&
     ((UINTPTR_MAX - mt_size r <? mt_data r) || (UINTPTR_MAX - table <? metas)
      || overlaps (mt_data r) (mt_size r) metas table)) = false <-> record_ok metas (zlen ml) r.
Proof.
  intros Hne Hs Hd Hv Hb table. rewrite bad_storage_spec in Hb. subst table. unfold is_u32, is_u64 in *.
  destruct (metas_in_bounds _ _ _ Hin Hne) as [? ?]. pose proof (zlen_nonneg ml).
  rewrite (u64_small (_ * _)) by lia. unfold record_ok.
  rewrite andb_false_iff, negb_false_iff, Z.eqb_eq, !orb_false_iff, !Z.ltb_ge.
  destruct (Z.eq_dec (mt_size r) 0) as [?|Hnz].
  { split; [|by left]. intros _. split; [done|]. intros ?. done. }
  destruct (Hb Hnz) as [? ?]. split.
  - intros [?|[[? _] Ho]]; [done|]. rewrite overlaps_spec in Ho by lia. split; [done|]. intros _.
    split_and!; done || lia.
  - intros [_ Hok]. destruct (Hok Hnz) as (_ & _ & ? & ?). right. rewrite overlaps_spec by lia.
    split_and!; done || lia.
Qed.

Lemma layout_loop_decides pre post bytes :
  ml = pre ++ post -> 0 <= bytes <= SPA_META_MAX_BYTES ->
  Forall (record_ok metas (zlen ml)) pre ->
  decides (layout_loop m metas (zlen ml) (zlen pre) (length post) bytes)
    (rest_ok metas (zlen ml) pre bytes post).
Proof.
  revert pre bytes. induction post as [|r post IH]; intros pre bytes Hml Hb Hpre.
  { by apply decides_ret. }
  assert (meta_at m metas (zlen pre) = Ret r) as Hr by (apply metas_in_middle with post; by rewrite <- Hml).
  pose proof (meta_at_inv _ _ _ _ Hr) as (_ & _ & _ & Hs & Hd). pose proof Hs as Hs'. unfold is_u32 in Hs'.
  cbn [layout_loop length rest_ok]. rewrite Hr. simpl obind.
  destruct (spa_meta_record_layout_validate (mt_type r) (mt_size r) SPA_META_MAX_BYTES) eqn:Hv.
  2: { apply decides_ret. split; [done|]. intros ((Hv' & _) & _). congruence. }
  pose proof (record_layout_size _ _ _ Hv). rewrite round8_spec, wrap_small by lia.
  destruct (bad_storage r) eqn:Hbs.
  { apply decides_ret. split; [done|]. intros ((_ & Hst) & _).
    assert (bad_storage r = false); [|congruence]. apply bad_storage_spec.
    intros Hnz. by destruct (Hst Hnz) as (? & ? & _). }
  pose proof (pad8_bounds (mt_size r)).
  apply decides_guard; [simpl; intros Hc; bool_to_prop; lia|]. simpl. intros Hc. bool_to_prop.
  rewrite (wrap_small 32 (bytes + _)) by lia.
  assert (ml <> []) as Hne by (rewrite Hml; by destruct pre).
  pose proof (table_guard r Hne Hs Hd Hv Hbs) as Hg.
  apply decides_guard; [intros Hc' (Hr' & _); apply Hg in Hr'; congruence|].
  intros Hok%Hg. eapply decides_iff; [|apply decides_and;
    [apply (decides_for_all (zlen pre) _ (fun k => forall r', pre !! Z.to_nat k = Some r' -> record_apart r r'))
    |intros _; replace (zlen pre + 1) with (zlen (pre ++ [r])) by (by rewrite zlen_app);
     apply IH; [by rewrite <- app_assoc|lia|by apply Forall_app_2; [|constructor]]]].
  - split.
    + intros [Hp Hrest]. split_and!; [done|lia| |done]. intros j r' Hj.
      pose proof (lookup_lt_Some _ _ _ Hj). apply (Hp (Z.of_nat j)); [unfold zlen; lia|].
      by rewrite Nat2Z.id.
    + intros (_ & _ & Hp & Hrest). split; [|done]. intros k Hk r'. apply Hp.
  - intros k Hk. destruct (lookup_lt_is_Some_2 pre (Z.to_nat k)) as [r' Hr']; [unfold zlen in Hk; lia|].
    assert (meta_at m metas k = Ret r') as Hk'.
    { rewrite <- (Z2Nat.id k) by lia. apply Hin. rewrite Hml. by apply lookup_app_l_Some. }
    pose proof (meta_at_inv _ _ _ _ Hk') as (_ & _ & _ & ? & ?).
    eapply decides_iff; [|eapply distinct_from_decides; try done].
    + split; [by intros ? ? [= <-]%(eq_trans (eq_sym Hr'))|]. intros Ha. by apply Ha.
    + intros Hnz. by apply Hok.
    + intros Hnz. rewrite Forall_lookup in Hpre. by apply (Hpre _ _ Hr').
Qed.

(** The validation returns on every table, reads nothing but the table, and
    accepts the well-formed ones. *)
Lemma layout_validate_decides : decides (spa_meta_records_layout_validate m metas (zlen ml)) (records_ok metas ml).
Proof.
  unfold spa_meta_records_layout_validate, records_ok. pose proof (zlen_nonneg ml).
  assert (zlen ml = 0 <-> ml = []) as Hnil.
  { destruct ml; [done|]. rewrite zlen_cons in *. pose proof (zlen_nonneg l). split; [lia|done]. }
  apply decides_guard.
  - intros [Hc|Hc]%orb_true_iff; [bool_to_prop; lia|].
    apply andb_true_iff in Hc as [Hc1 Hc2]. bool_to_prop.
    intros (_ & Hm0 & _). destruct Hm0 as [? Ha]; [tauto|].
    apply orb_true_iff in Hc2 as [?|Hc2]; bool_to_prop; [done|].
    apply is_aligned8_spec in Ha. congruence.
  - intros [Hc1 Hc2]%orb_false_iff. apply Z.ltb_ge in Hc1.
    replace (Z.to_nat (zlen ml)) with (length ml) by (unfold zlen; lia).
    eapply decides_iff; [|apply (layout_loop_decides [] ml 0); [done|lia|constructor]].
    rewrite rest_ok_iff; [|lia|].
    + simpl. split.
      * intros (? & ? & Hp). split_and!; [done| |done|done|].
        -- intros Hne. apply andb_false_iff in Hc2 as [Hc2|Hc2]; bool_to_prop; [tauto|].
           by rewrite <- is_aligned8_spec.
        -- intros i j r r' Hij. apply Hp; [done|lia].
      * intros (_ & _ & ? & ? & Hp). split_and!; [done|done|]. intros i j r r' Hij _. by apply Hp.
    + apply Forall_lookup_2. intros i r Hi. apply Hin, meta_at_inv in Hi as (_ & _ & _ & Hs & _).
      unfold is_u32 in Hs. lia.
Qed.
End Layout_validate.

(** ** Records depend on their bytes only *)

Lemma bytes_or_at m p bs o n v :
  holds m p bs -> 0 <= o -> o + Z.of_nat n <= zlen bs -> bytes_or m (p + o) n v = bytes_or bs o n v.
Proof.
  intros H. revert o v. induction n as [|n IH]; intros o v Ho Hb; [done|].
  cbn [bytes_or]. unfold load_u8. rewrite (holds_load_at m p bs) by (done || lia).
  destruct (load bs o 1); simpl; [|done|done]. rewrite <- Z.add_assoc. apply IH; lia.
Qed.

Lemma bytes_or_ok m p n v : 0 <= p -> p + Z.of_nat n <= zlen m -> exists w, bytes_or m p n v = Ret w.
Proof.
  revert p v. induction n as [|n IH]; intros p v Hp Hb; [by eexists|].
  cbn [bytes_or]. unfold load_u8. rewrite load_ok by lia. simpl. apply IH; lia.
Qed.

Section At.
Context (m : mem) (p : Z) (bs : list byte) (H : holds m p bs).

Lemma bytes_zero_at o n :
  0 <= o -> 0 <= n -> o + n <= zlen bs -> spa_meta_bytes_zero m (p + o) n = spa_meta_bytes_zero bs o n.
Proof. intros. unfold spa_meta_bytes_zero. by rewrite (bytes_or_at m p bs) by (done || lia). Qed.
Lemma bytes_zero_at0 n :
  0 <= n <= zlen bs -> spa_meta_bytes_zero m p n = spa_meta_bytes_zero bs 0 n.
Proof. intros. rewrite <- (Z.add_0_r p) at 1. apply bytes_zero_at; lia. Qed.

Lemma validate_identity_at rv : zlen bs = 40 -> validate_identity m p rv = validate_identity bs 0 rv.
Proof.
  intros Hz. unfold validate_identity.
  by rewrite (load_u32_at0 m p bs), (load_u32_at m p bs), bytes_zero_at0, bytes_zero_at by (done || lia).
Qed.
Lemma validate_exposure_at rv : zlen bs = 24 -> validate_exposure m p rv = validate_exposure bs 0 rv.
Proof.
  intros Hz. unfold validate_exposure.
  by rewrite (load_u32_at0 m p bs), (load_u32_at m p bs), (load_i64_at m p bs), (load_u64_at m p bs), bytes_zero_at0 by (done || lia).
Qed.
Lemma validate_timestamp_at rv : zlen bs = 24 -> validate_timestamp m p rv = validate_timestamp bs 0 rv.
Proof.
  intros Hz. unfold validate_timestamp.
  by rewrite (load_u32_at0 m p bs), (load_u32_at m p bs), (load_u64_at m p bs), bytes_zero_at0 by (done || lia).
Qed.
Lemma validate_classification_at rv :
  zlen bs = 8 -> validate_classification m p rv = validate_classification bs 0 rv.
Proof. intros Hz. unfold validate_classification. by rewrite (load_u32_at0 m p bs), (load_u32_at m p bs) by (done || lia). Qed.
End At.

(** Every validator returns on records of its size. *)
Lemma bytes_zero_ok bs o n :
  0 <= o -> 0 <= n -> o + n <= zlen bs -> exists b, spa_meta_bytes_zero bs o n = Ret b.
Proof.
  intros. unfold spa_meta_bytes_zero. destruct (bytes_or_ok bs o (Z.to_nat n) 0) as [w ->]; [lia|lia|].
  by eexists.
Qed.

Ltac total_step :=
  match goal with
  | |- context [load_u32 ?bs ?o] =>
      let v := fresh "v" in let E := fresh "E" in
      destruct (load_u32_ok bs o) as (v & E & _); [lia|lia|]; rewrite E; clear E; simpl obind
  | |- context [load_u64 ?bs ?o] =>
      let v := fresh "v" in let E := fresh "E" in
      destruct (load_u64_ok bs o) as (v & E & _); [lia|lia|]; rewrite E; clear E; simpl obind
  | |- context [load_i64 ?bs ?o] =>
      let v := fresh "v" in let E := fresh "E" in
      destruct (load_i64_ok bs o) as (v & E & _); [lia|lia|]; rewrite E; clear E; simpl obind
  | |- context [spa_meta_bytes_zero ?bs ?o ?n] =>
      let v := fresh "v" in let E := fresh "E" in
      destruct (bytes_zero_ok bs o n) as (v & E); [lia|lia|lia|]; rewrite E; clear E; simpl obind
  | |- context [if ?c then _ else _] => destruct c
  | _ => by eexists
  end.

Lemma validators_return bs rv :
  (zlen bs = 40 -> exists b, validate_identity bs 0 rv = Ret b) /\
  (zlen bs = 24 -> exists b, validate_exposure bs 0 rv = Ret b) /\
  (zlen bs = 24 -> exists b, validate_timestamp bs 0 rv = Ret b) /\
  (zlen bs = 8 -> exists b, validate_classification bs 0 rv = Ret b).
Proof.
  split_and!; intros Hz.
  - unfold validate_identity. repeat total_step.
  - unfold validate_exposure. repeat total_step.
  - unfold validate_timestamp. repeat total_step.
  - unfold validate_classification. repeat total_step.
Qed.

(** The validation of a record of known size, on its bytes. *)
Definition validate_bytes (type : Z) (bs : list byte) (require_valid : bool) : outcome bool :=
  if type =? SPA_META_AcquisitionIdentity then validate_identity bs 0 require_valid
  else if type =? SPA_META_ExposureTiming then validate_exposure bs 0 require_valid
  else if type =? SPA_META_ReferenceTimestamp then validate_timestamp bs 0 require_valid
  else if (type =? SPA_META_OpticalChopping) || (type =? SPA_META_ElectricalTrigger)
  then validate_classification bs 0 require_valid
  else Ret true.

(** The types of known size. *)
Lemma record_size_cases type (P : Z -> Prop) :
  spa_meta_record_size type <> 0 ->
  P SPA_META_Header -> P SPA_META_AcquisitionIdentity -> P SPA_META_ExposureTiming ->
  P SPA_META_ReferenceTimestamp -> P SPA_META_OpticalChopping -> P SPA_META_ElectricalTrigger -> P type.
Proof.
  unfold spa_meta_record_size. intros Hz. intros.
  repeat (match goal with H : context [?a =? ?b] |- _ =>
            destruct (Z.eqb_spec a b) as [->|_]; [assumption|] end).
  done.
Qed.

Lemma known_size type size max :
  spa_meta_record_layout_validate type size max = true -> spa_meta_record_size type <> 0 ->
  size = spa_meta_record_size type.
Proof.
  intros Hv Hz. revert Hv. pattern type. apply record_size_cases; [done|..].
  all: unfold spa_meta_record_layout_validate; simpl; case_if; [done|];
    destruct size as [|q|q]; intros Hq; try done; apply Pos.eqb_eq in Hq; by subst.
Qed.

Lemma record_validate_bytes m r bs rv :
  spa_meta_record_layout_validate (mt_type r) (mt_size r) SPA_META_MAX_BYTES = true ->
  bad_storage r = false -> spa_meta_record_size (mt_type r) <> 0 ->
  holds m (mt_data r) bs -> zlen bs = mt_size r ->
  spa_meta_record_validate m r rv = validate_bytes (mt_type r) bs rv.
Proof.
  intros Hv Hb Hz H Hl. pose proof (known_size _ _ _ Hv Hz) as Hs.
  unfold spa_meta_record_validate. rewrite Hv, Hb. simpl.
  rewrite (proj2 (Z.eqb_neq _ _) Hz). rewrite Hs in Hl. clear Hv Hb Hs.
  destruct r as [type size p]. simpl in *. revert Hl. pattern type.
  apply record_size_cases; [done|..]; intros Hl; unfold validate_bytes; simpl in *.
  - done.
  - by apply validate_identity_at.
  - by apply validate_exposure_at.
  - by apply validate_timestamp_at.
  - by apply validate_classification_at.
  - by apply validate_classification_at.
Qed.

Lemma validate_bytes_return type bs rv :
  spa_meta_record_size type <> 0 -> zlen bs = spa_meta_record_size type ->
  exists b, validate_bytes type bs rv = Ret b.
Proof.
  intros Hz. pose proof (validators_return bs rv) as (? & ? & ? & ?). pattern type.
  apply record_size_cases; [done|..]; unfold validate_bytes; simpl; intros; eauto.
Qed.

(** A record of zeroes is an unavailable fact, which validates. *)
Lemma validate_bytes_zero type :
  spa_meta_record_size type <> 0 ->
  validate_bytes type (zeroes (spa_meta_record_size type)) false = Ret true.
Proof. intros Hz. pattern type. apply record_size_cases; [done|..]; vm_compute; reflexivity. Qed.

(** The storage of a record is in the memory. *)
Definition stored (m : mem) (r : spa_meta) : Prop :=
  mt_size r <> 0 -> mt_data r + mt_size r <= zlen m.

Lemma stored_holds m r :
  is_u32 (mt_size r) -> is_u64 (mt_data r) -> stored m r -> mt_size r <> 0 ->
  let bs := slice (mt_data r) (mt_size r) m in
  holds m (mt_data r) bs /\ zlen bs = mt_size r.
Proof.
  intros Hs Hd Hst Hz bs. specialize (Hst Hz). subst bs. unfold is_u32, is_u64 in *.
  split; [apply slice_holds; lia|apply zlen_slice; lia].
Qed.

Lemma record_validate_total m r rv :
  is_u32 (mt_size r) -> is_u64 (mt_data r) -> stored m r ->
  exists b, spa_meta_record_validate m r rv = Ret b.
Proof.
  intros Hs Hd Hst.
  destruct (spa_meta_record_layout_validate (mt_type r) (mt_size r) SPA_META_MAX_BYTES) eqn:Hv.
  2: { unfold spa_meta_record_validate. rewrite Hv. by eexists. }
  destruct (bad_storage r) eqn:Hb.
  { unfold spa_meta_record_validate. rewrite Hv, Hb. by eexists. }
  destruct (Z.eq_dec (spa_meta_record_size (mt_type r)) 0) as [Hz|Hz].
  { unfold spa_meta_record_validate. rewrite Hv, Hb, Hz. by eexists. }
  pose proof (known_size _ _ _ Hv Hz) as Hk.
  destruct (stored_holds m r Hs Hd Hst) as [H Hl]; [lia|].
  rewrite (record_validate_bytes m r _ rv Hv Hb Hz H Hl).
  apply validate_bytes_return; [done|]. lia.
Qed.

(** ** Looking records up *)

Definition find_type (type : Z) (ml : list spa_meta) : option spa_meta :=
  find (fun r => mt_type r =? type) ml.

Lemma records_find_spec m metas ml type :
  metas_in m metas ml -> spa_meta_records_find m metas (zlen ml) type = Ret (find_type type ml).
Proof.
  intros Hin. unfold spa_meta_records_find.
  replace (Z.to_nat (zlen ml)) with (length ml) by (unfold zlen; lia).
  assert (forall pre post, ml = pre ++ post ->
    find_from m metas (zlen pre) (length post) type = Ret (find_type type post)) as H; [|by apply (H [])].
  intros pre post. revert pre. induction post as [|r post IH]; intros pre Hml; [done|].
  cbn [find_from length]. rewrite (metas_in_middle m metas pre r post) by (by rewrite <- Hml).
  simpl. case_if; [done|]. change 1 with (zlen [r]). rewrite <- zlen_app. apply IH.
  by rewrite <- app_assoc.
Qed.

Lemma find_type_some type ml r : find_type type ml = Some r -> r ∈ ml /\ mt_type r = type.
Proof. intros [Hi Ht%Z.eqb_eq]%find_some. by rewrite list_elem_of_In. Qed.
Lemma find_type_none type ml r : find_type type ml = None -> r ∈ ml -> mt_type r <> type.
Proof. intros Hn Hr%list_elem_of_In. eapply find_none in Hn; [|done]. by apply Z.eqb_neq. Qed.

(** The pairs of a well-formed table. *)
Definition pairwise (ml : list spa_meta) : Prop :=
  forall i j r r', (i < j)%nat -> ml !! i = Some r -> ml !! j = Some r' -> record_apart r' r.

Lemma pairwise_cons r ml :
  pairwise (r :: ml) -> (forall r', r' ∈ ml -> record_apart r' r) /\ pairwise ml.
Proof.
  intros H. split.
  - intros r' [i Hi]%list_elem_of_lookup. by apply (H O (S i) r r'); [lia|..].
  - intros i j x y Hij Hx Hy. by apply (H (S i) (S j)); [lia|..].
Qed.

Lemma pairwise_app_r pre post : pairwise (pre ++ post) -> pairwise post.
Proof.
  intros H i j x y Hij Hx Hy. apply (H (length pre + i)%nat (length pre + j)%nat); [lia|..].
  - by rewrite lookup_app_r, Nat.add_comm, Nat.add_sub by lia.
  - by rewrite lookup_app_r, Nat.add_comm, Nat.add_sub by lia.
Qed.

Lemma apart_sym a n b k : apart a n b k -> apart b k a n.
Proof. unfold apart. lia. Qed.

(** Different records of a table are apart; records of one type are the same. *)
Lemma pairwise_apart ml r r' :
  pairwise ml -> r ∈ ml -> r' ∈ ml -> r = r' \/ record_apart r r'.
Proof.
  intros H [i Hi]%list_elem_of_lookup [j Hj]%list_elem_of_lookup.
  destruct (lt_eq_lt_dec i j) as [[Hlt|<-]|Hlt].
  - right. destruct (H i j r r' Hlt Hi Hj) as [? Ha]. split; [congruence|]. intros. by apply apart_sym, Ha.
  - left. congruence.
  - right. by apply (H j i r' r).
Qed.

Lemma pairwise_find ml r :
  pairwise ml -> r ∈ ml -> find_type (mt_type r) ml = Some r.
Proof.
  intros H Hr. destruct (find_type (mt_type r) ml) as [x|] eqn:E.
  - apply find_type_some in E as [Hx Ht]. destruct (pairwise_apart _ _ _ H Hx Hr) as [->|[? _]]; done.
  - by destruct (find_type_none _ _ _ E Hr).
Qed.

(** ** Writing records *)

Definition fact (r : spa_meta) : Prop := spa_meta_type_is_transport_owned (mt_type r) = false.

Definition within (r : spa_meta) (a : Z) : Prop := mt_data r <= a < mt_data r + mt_size r.

(** The addresses outside the facts of a table. *)
Definition outside_facts (dl : list spa_meta) (a : Z) : Prop :=
  forall d, d ∈ dl -> fact d -> ~ within d a.

Lemma metas_in_same Q m m' metas ml :
  same_if Q m m' -> (forall a, metas <= a < metas + zlen ml * sizeof_spa_meta -> Q a) ->
  metas_in m metas ml -> metas_in m' metas ml.
Proof.
  intros S HQ H i r Hr. rewrite <- (H i r Hr). pose proof (lookup_lt_Some _ _ _ Hr).
  unfold meta_at. unfold zlen in HQ.
  rewrite !(same_if_u32 _ _ _ _ S), (same_if_u64 _ _ _ _ S); [done|..]; intros a Ha; apply HQ; lia.
Qed.

Lemma init_one m dst count d :
  record_ok dst count d -> is_u32 (mt_size d) -> is_u64 (mt_data d) -> stored m d ->
  exists m', spa_meta_record_init m d = Ret (true, m') /\
    same_if (fun a => ~ (fact d /\ within d a)) m m' /\
    (fact d -> mt_size d <> 0 -> load m' (mt_data d) (mt_size d) = Ret (zeroes (mt_size d))).
Proof.
  intros [Hv Hst] Hs Hd Hin. unfold spa_meta_record_init. rewrite Hv.
  assert (bad_storage d = false) as ->
    by (apply bad_storage_spec; intros Hz; by destruct (Hst Hz) as (? & ? & _)).
  simpl. unfold fact. destruct (spa_meta_type_is_transport_owned (mt_type d)) eqn:Ho.
  { exists m. split_and!; [done| |done]. apply same_if_refl. }
  destruct (Z.eqb_spec (mt_size d) 0) as [Hz|Hz].
  { exists m. split_and!; [done| |done]. apply same_if_refl. }
  specialize (Hin Hz). unfold is_u32, is_u64 in *.
  assert (zlen (zeroes (mt_size d)) = mt_size d) as Hl by (apply zlen_zeroes; lia).
  destruct (store m (mt_data d) (zeroes (mt_size d))) as [m'| |] eqn:E.
  2,3: by rewrite store_ok in E by lia.
  exists m'. split_and!; [done| |].
  - eapply same_if_weaken; [|by apply same_if_store]. simpl. rewrite zlen_zeroes by lia.
    unfold within. intros a Ha ?. by apply Ha.
  - intros _ _. apply store_load in E. by rewrite zlen_zeroes in E by lia.
Qed.

(** ** The copy *)

(** What the checks before the first write establish. *)
Record preflight (dst : Z) (dl : list spa_meta) (src : Z) (sl : list spa_meta) : Prop := {
  pf_dst : records_ok dst dl;
  pf_src : records_ok src sl;
  pf_target s : s ∈ sl -> fact s -> exists d, find_type (mt_type s) dl = Some d /\ mt_size d = mt_size s;
  pf_table d : d ∈ dl -> fact d -> mt_size d <> 0 ->
    apart (mt_data d) (mt_size d) src (zlen sl * sizeof_spa_meta);
  pf_apart s d : s ∈ sl -> d ∈ dl -> fact s \/ fact d -> mt_size s <> 0 -> mt_size d <> 0 ->
    apart (mt_data s) (mt_size s) (mt_data d) (mt_size d) }.

Section Copy.
Context (dst : Z) (dl : list spa_meta) (src : Z) (sl : list spa_meta).
Context (Hpf : preflight dst dl src sl).

(** A memory with both tables and all storage, of the range of addresses. *)
Record ready (m : mem) : Prop := {
  rd_dst : metas_in m dst dl;
  rd_src : metas_in m src sl;
  rd_stored r : r ∈ dl ++ sl -> stored m r }.

Lemma ready_typed m r :
  ready m -> r ∈ dl ++ sl -> is_u32 (mt_size r) /\ is_u64 (mt_data r).
Proof.
  intros [Hd Hs _] [[i Hi]%list_elem_of_lookup|[i Hi]%list_elem_of_lookup]%elem_of_app.
  - apply Hd, meta_at_inv in Hi as (_ & _ & _ & ? & ?). done.
  - apply Hs, meta_at_inv in Hi as (_ & _ & _ & ? & ?). done.
Qed.

Lemma dst_ok d : d ∈ dl -> record_ok dst (zlen dl) d.
Proof. destruct (pf_dst _ _ _ _ Hpf) as (_ & _ & H & _). rewrite list.Forall_forall in H. apply H. Qed.

Lemma dst_pairwise : pairwise dl.
Proof. by destruct (pf_dst _ _ _ _ Hpf) as (_ & _ & _ & _ & H). Qed.
Lemma src_pairwise : pairwise sl.
Proof. by destruct (pf_src _ _ _ _ Hpf) as (_ & _ & _ & _ & H). Qed.

(** Writes to facts of the destination keep both tables. *)
Lemma ready_same m m' : ready m -> same_if (outside_facts dl) m m' -> ready m'.
Proof.
  intros [Hd Hs Hst] S. split.
  - eapply metas_in_same; [exact S| |done]. intros a Ha d Hin Hf [? ?].
    assert (mt_size d <> 0) as Hz by lia.
    destruct (dst_ok d Hin) as [_ Hok]. destruct (Hok Hz) as (_ & _ & _ & [?|?]); lia.
  - eapply metas_in_same; [exact S| |done]. intros a Ha d Hin Hf [? ?].
    destruct (pf_table _ _ _ _ Hpf d Hin Hf) as [?|?]; lia.
  - intros r Hr Hz. rewrite (same_if_zlen _ _ _ S). by apply Hst.
Qed.

Lemma outside_facts_one d a : d ∈ dl -> outside_facts dl a -> ~ (fact d /\ within d a).
Proof. intros Hd Ho [? ?]. by apply (Ho d). Qed.

(** The bytes of a record that is apart from what is written stay. *)
Lemma load_outside Q m m' r :
  same_if Q m m' -> (forall a, within r a -> Q a) ->
  load m' (mt_data r) (mt_size r) = load m (mt_data r) (mt_size r).
Proof. intros S H. by eapply same_if_load. Qed.

Lemma init_loop_spec pre post m :
  dl = pre ++ post -> ready m ->
  exists m', init_loop m dst (zlen pre) (length post) = Ret (true, m') /\
    same_if (outside_facts post) m m' /\
    forall d, d ∈ post -> fact d -> mt_size d <> 0 ->
      load m' (mt_data d) (mt_size d) = Ret (zeroes (mt_size d)).
Proof.
  revert pre m. induction post as [|d post IH]; intros pre m Hdl Hr.
  { exists m. split_and!; [done|apply same_if_refl|]. by intros d ?%not_elem_of_nil. }
  assert (d ∈ dl) as Hd by (rewrite Hdl; apply elem_of_app; right; by constructor).
  cbn [init_loop length]. rewrite (metas_in_middle m dst pre d post) by (rewrite <- Hdl; apply Hr).
  simpl obind.
  destruct (ready_typed m d Hr) as [Hs Hda]; [apply elem_of_app; by left|].
  destruct (init_one m dst (zlen dl) d) as (m1 & -> & S1 & Z1);
    [by apply dst_ok|done|done|apply Hr, elem_of_app; by left|]. simpl.
  assert (same_if (outside_facts dl) m m1) as S1'.
  { eapply same_if_weaken; [|exact S1]. intros a. by apply outside_facts_one. }
  destruct (IH (pre ++ [d]) m1) as (m' & E & S & Z);
    [by rewrite <- app_assoc|by eapply ready_same|].
  rewrite zlen_app in E. change (zlen [d]) with 1 in E.
  exists m'. split_and!; [done| |].
  - eapply same_if_trans; eapply same_if_weaken; [|exact S1| |exact S].
    + intros a Ho [Hf Hw]. by apply (Ho d); [constructor|..].
    + intros a Ho x Hx. apply Ho. by constructor.
  - intros x [->|Hx]%elem_of_cons Hf Hz; [|by apply Z].
    rewrite <- (Z1 Hf Hz). apply (load_outside _ _ _ _ S). intros a [? ?] y Hy _ [? ?].
    pose proof dst_pairwise as Hp. rewrite Hdl in Hp. apply pairwise_app_r, pairwise_cons in Hp as [Hp _].
    destruct (Hp y Hy) as [_ [?|?]]; lia.
Qed.

(** What a fact of the destination holds after the facts of [post] were copied. *)
Definition copied (post : list spa_meta) (m m' : mem) (d : spa_meta) : Prop :=
  load m' (mt_data d) (mt_size d) =
  match find_type (mt_type d) post with
  | Some s => load m (mt_data s) (mt_size d)
  | None => load m (mt_data d) (mt_size d)
  end.

Lemma copied_skip s post m m' d :
  mt_type s <> mt_type d -> copied post m m' d -> copied (s :: post) m m' d.
Proof. intros Ht. unfold copied, find_type. simpl. by rewrite (proj2 (Z.eqb_neq _ _) Ht). Qed.

(** One [memcpy]. *)
Lemma copy_one m s d :
  ready m -> s ∈ sl -> d ∈ dl -> fact d -> mt_size d = mt_size s -> mt_size d <> 0 ->
  exists bs m', load m (mt_data s) (mt_size d) = Ret bs /\ store m (mt_data d) bs = Ret m' /\
    same_if (fun a => ~ within d a) m m' /\ load m' (mt_data d) (mt_size d) = Ret bs.
Proof.
  intros Hr Hs Hd Hf Heq Hz.
  destruct (ready_typed m s Hr) as [Ts Ds]; [apply elem_of_app; by right|].
  destruct (ready_typed m d Hr) as [Td Dd]; [apply elem_of_app; by left|].
  pose proof (rd_stored _ Hr s) as Ss. pose proof (rd_stored _ Hr d) as Sd.
  rewrite elem_of_app in Ss, Sd. specialize (Ss (or_intror Hs) ltac:(lia)).
  specialize (Sd (or_introl Hd) Hz). unfold is_u32, is_u64 in *.
  eexists. rewrite load_ok by lia. set (bs := slice _ _ m).
  assert (zlen bs = mt_size d) as Hl by (apply zlen_slice; lia).
  destruct (store m (mt_data d) bs) as [m'| |] eqn:E.
  2,3: by rewrite store_ok in E by lia.
  exists m'. split_and!; [done|done| |].
  - apply same_if_store in E. rewrite Hl in E. done.
  - apply store_load in E. by rewrite Hl in E.
Qed.

(** The step of the loop that writes [d]; the rest of the facts follows. *)
Lemma copied_write s post m m1 m2 ds d bs :
  ready m -> (forall x, x ∈ s :: post -> x ∈ sl) -> find_type (mt_type s) post = None ->
  ds ∈ dl -> fact ds -> mt_type ds = mt_type s -> mt_size ds <> 0 ->
  load m (mt_data s) (mt_size ds) = Ret bs -> same_if (fun a => ~ within ds a) m m1 ->
  load m1 (mt_data ds) (mt_size ds) = Ret bs ->
  d ∈ dl -> fact d -> mt_size d <> 0 -> copied post m1 m2 d -> copied (s :: post) m m2 d.
Proof.
  intros Hr Hsub Hnone Hds Hfs Hts Hzs Hbs S Hm1 Hd Hf Hz. unfold copied.
  destruct (Z.eq_dec (mt_type s) (mt_type d)) as [Ht|Ht].
  - assert (d = ds) as ->.
    { destruct (pairwise_apart _ _ _ dst_pairwise Hd Hds) as [?|[? _]]; congruence. }
    unfold find_type at 2. simpl. rewrite (proj2 (Z.eqb_eq _ _) Ht), Hbs, <- Ht, Hnone. congruence.
  - intros ->. unfold find_type at 2. simpl. rewrite (proj2 (Z.eqb_neq _ _) Ht).
    fold (find_type (mt_type d) post).
    assert (forall x, mt_size x <> 0 -> apart (mt_data x) (mt_size x) (mt_data ds) (mt_size ds) ->
      load m1 (mt_data x) (mt_size x) = load m (mt_data x) (mt_size x)) as Hsame.
    { intros x Hx Ha. apply (load_outside _ _ _ _ S). unfold within. intros a ?. destruct Ha; lia. }
    destruct (find_type (mt_type d) post) as [x|] eqn:E.
    + apply find_type_some in E as [Hx Htx].
      assert (x ∈ sl) as Hxs by (apply Hsub; by constructor).
      assert (fact x) as Hfx by (unfold fact in *; congruence).
      destruct (pf_target _ _ _ _ Hpf x Hxs Hfx) as (d' & Ed & Hsz).
      rewrite Htx, (pairwise_find _ _ dst_pairwise Hd) in Ed. injection Ed as <-.
      rewrite Hsz. apply Hsame; [lia|]. apply (pf_apart _ _ _ _ Hpf); [done|done|by left|lia|done].
    + apply Hsame; [done|]. destruct (pairwise_apart _ _ _ dst_pairwise Hd Hds) as [->|[_ Ha]].
      * congruence.
      * by apply Ha.
Qed.

Lemma copy_loop_spec pre post m :
  sl = pre ++ post -> ready m ->
  exists m', copy_loop m dst (zlen dl) src (zlen pre) (length post) = Ret m' /\
    same_if (outside_facts dl) m m' /\
    forall d, d ∈ dl -> fact d -> mt_size d <> 0 -> copied post m m' d.
Proof.
  revert pre m. induction post as [|s post IH]; intros pre m Hsl Hr.
  { exists m. split_and!; [done|apply same_if_refl|done]. }
  assert (s ∈ sl) as Hs by (rewrite Hsl; apply elem_of_app; right; by constructor).
  pose proof src_pairwise as Hp. rewrite Hsl in Hp. apply pairwise_app_r, pairwise_cons in Hp as [Hp _].
  cbn [copy_loop length]. rewrite (metas_in_middle m src pre s post) by (rewrite <- Hsl; apply Hr).
  simpl obind.
  assert (forall m1, ready m1 -> exists m', copy_loop m1 dst (zlen dl) src (zlen pre + 1) (length post) = Ret m' /\
    same_if (outside_facts dl) m1 m' /\
    forall d, d ∈ dl -> fact d -> mt_size d <> 0 -> copied post m1 m' d) as IH'.
  { intros m1 Hr1. change 1 with (zlen [s]). rewrite <- zlen_app. apply IH; [by rewrite <- app_assoc|done]. }
  destruct (spa_meta_type_is_transport_owned (mt_type s)) eqn:Ho.
  { destruct (IH' m Hr) as (m' & -> & S & C). exists m'. split_and!; [done|done|].
    intros d Hd Hf Hz. apply copied_skip; [|by apply C]. unfold fact in Hf. congruence. }
  rewrite (records_find_spec m dst dl) by apply Hr.
  destruct (pf_target _ _ _ _ Hpf s Hs Ho) as (ds & Ef & Heq). rewrite Ef. simpl obind.
  apply find_type_some in Ef as [Hds Hts].
  destruct (Z.eqb_spec (mt_size ds) 0) as [Hz0|Hz0]; simpl obind.
  { destruct (IH' m Hr) as (m' & -> & S & C). exists m'. split_and!; [done|done|].
    intros d Hd Hf Hz. apply copied_skip; [|by apply C]. intros Ht.
    destruct (pairwise_apart _ _ _ dst_pairwise Hd Hds) as [->|[? _]]; congruence. }
  assert (fact ds) as Hfs by (unfold fact; congruence).
  destruct (copy_one m s ds Hr Hs Hds Hfs Heq Hz0) as (bs & m1 & Hbs & Est & S1 & H1).
  rewrite Hbs. simpl obind. rewrite Est. simpl obind.
  assert (same_if (outside_facts dl) m m1) as S1'.
  { eapply same_if_weaken; [|exact S1]. intros a Ha Hw. by apply (Ha ds). }
  destruct (IH' m1) as (m' & -> & S & C); [by eapply ready_same|].
  exists m'. split_and!; [done|by eapply same_if_trans|].
  intros d Hd Hf Hz. eapply (copied_write s post m m1 m' ds d bs); try done.
  - intros x Hx. rewrite Hsl. apply elem_of_app. by right.
  - destruct (find_type (mt_type s) post) as [x|] eqn:E; [|done].
    apply find_type_some in E as [Hx Hxt]. by destruct (Hp x Hx).
  - by apply C.
Qed.
End Copy.

(** What the two writing loops do after the checks. *)
Definition copy_contents (dl sl : list spa_meta) (m m' : mem) : Prop :=
  forall d, d ∈ dl -> fact d -> mt_size d <> 0 ->
    load m' (mt_data d) (mt_size d) =
    match find_type (mt_type d) sl with
    | Some s => load m (mt_data s) (mt_size d)
    | None => Ret (zeroes (mt_size d))
    end.

Lemma copy_writes dst dl src sl (Hpf : preflight dst dl src sl) m :
  ready dst dl src sl m ->
  exists m1 m2, init_loop m dst 0 (Z.to_nat (zlen dl)) = Ret (true, m1) /\
    copy_loop m1 dst (zlen dl) src 0 (Z.to_nat (zlen sl)) = Ret m2 /\
    same_if (outside_facts dl) m m2 /\ copy_contents dl sl m m2.
Proof.
  intros Hr. replace (Z.to_nat (zlen dl)) with (length dl) by (unfold zlen; lia).
  replace (Z.to_nat (zlen sl)) with (length sl) by (unfold zlen; lia).
  destruct (init_loop_spec dst dl src sl Hpf [] dl m) as (m1 & E1 & S1 & Z1); [done|done|].
  destruct (copy_loop_spec dst dl src sl Hpf [] sl m1) as (m2 & E2 & S2 & C2);
    [done|by eapply ready_same|].
  exists m1, m2. split_and!; [done|done|by eapply same_if_trans|]. intros d Hd Hf Hz.
  rewrite (C2 d Hd Hf Hz). destruct (find_type (mt_type d) sl) as [s|] eqn:E; [|by apply Z1].
  apply find_type_some in E as [Hs Ht].
  destruct (pf_target _ _ _ _ Hpf s Hs) as (d' & Ed & Hsz); [unfold fact in *; congruence|].
  rewrite Ht, (pairwise_find _ _ (dst_pairwise _ _ _ _ Hpf) Hd) in Ed. injection Ed as <-. rewrite Hsz.
  apply (load_outside _ _ _ _ S1). intros a [? ?] x Hx Hfx [? ?].
  destruct (pf_apart _ _ _ _ Hpf s x Hs Hx (or_intror Hfx)); lia.
Qed.

(** ** The checks before the first write *)

(** Every record of the list validates. *)
Definition valid_records (m : mem) (ml : list spa_meta) : Prop :=
  forall r, r ∈ ml -> spa_meta_record_validate m r false = Ret true.

(** A check of every element of a table. *)
Lemma decides_table m metas ml f (P : spa_meta -> Prop) :
  metas_in m metas ml ->
  (forall i r, meta_at m metas i = Ret r -> r ∈ ml -> decides (f i) (P r)) ->
  decides (for_all (zlen ml) f) (forall r, r ∈ ml -> P r).
Proof.
  intros Hin Hf. eapply decides_iff; [|apply (decides_for_all (zlen ml) f
    (fun i => forall r, meta_at m metas i = Ret r -> P r))].
  - split.
    + intros H r [i Hi]%list_elem_of_lookup. pose proof (lookup_lt_Some _ _ _ Hi).
      apply (H (Z.of_nat i)); [unfold zlen; lia|]. by apply Hin.
    + intros H i Hi r Hr. destruct (metas_in_at _ _ _ i Hin Hi) as (r' & Hl & Hr').
      rewrite Hr in Hr'. injection Hr' as <-. apply H. apply list_elem_of_lookup. by eexists.
  - intros i Hi. destruct (metas_in_at _ _ _ i Hin Hi) as (r & Hl & Hr).
    eapply decides_iff; [|apply (Hf i r Hr); apply list_elem_of_lookup; by eexists].
    split; [|by auto]. intros HP r' Hr'. congruence.
Qed.

Section Checks.
Context (m : mem) (Hm : zlen m < 2 ^ 63).

Lemma records_validate_decides metas ml :
  metas_in m metas ml -> (forall r, r ∈ ml -> stored m r) ->
  decides (spa_meta_records_validate m metas (zlen ml) 0 0) (records_ok metas ml /\ valid_records m ml).
Proof.
  intros Hin Hst. unfold spa_meta_records_validate.
  destruct (layout_validate_decides m metas ml Hin Hm) as (b & -> & Hb). simpl obind.
  destruct b; simpl.
  2: { apply decides_ret. split; [done|]. intros [Hok _]. by apply Hb in Hok. }
  assert (records_ok metas ml) as Hok by by apply Hb.
  apply decides_guard.
  - intros Hc _. rewrite !orb_false_r in Hc. apply andb_true_iff in Hc as [Hc1 Hc2]. bool_to_prop.
    destruct Hok as (_ & Hne & _). destruct Hne as [? _]; [|done]. intros ->. done.
  - intros _. eapply decides_iff; [|apply decides_and with (Q := True);
      [apply (decides_table m metas ml _ (fun r => spa_meta_record_validate m r false = Ret true) Hin)
      |intros _; by apply decides_ret]].
    + unfold valid_records. tauto.
    + intros i r Hr Hin'. rewrite Hr. simpl.
      pose proof (meta_at_inv _ _ _ _ Hr) as (_ & _ & _ & ? & ?).
      destruct (record_validate_total m r false) as [b E]; [done|done|by apply Hst|].
      rewrite E. apply decides_ret. destruct b; split; intros; congruence.
Qed.

Context (dst : Z) (dl : list spa_meta) (src : Z) (sl : list spa_meta).
Context (Hd : metas_in m dst dl) (Hs : metas_in m src sl).

Lemma copy_targets_decides :
  decides (for_all (zlen sl) (copy_target_ok m dst (zlen dl) src))
    (forall s, s ∈ sl -> fact s ->
       exists d, find_type (mt_type s) dl = Some d /\ mt_size d = mt_size s /\ bad_storage d = false).
Proof.
  apply decides_table with (1 := Hs). intros i s Hsi _. unfold copy_target_ok, fact. rewrite Hsi. simpl.
  destruct (spa_meta_type_is_transport_owned (mt_type s)); [by apply decides_ret|].
  rewrite (records_find_spec m dst dl) by done. simpl.
  destruct (find_type (mt_type s) dl) as [d|]; apply decides_ret.
  - rewrite andb_true_iff, Z.eqb_eq, negb_true_iff. split; [intros [? ?] _; by exists d|].
    intros H. destruct (H eq_refl) as (? & [= <-] & ? & ?). done.
  - split; [done|]. intros H. by destruct (H eq_refl) as (? & ? & _).
Qed.

Context (Hdok : records_ok dst dl).

Lemma copy_table_decides :
  is_u64 src ->
  decides (for_all (zlen dl) (copy_spares_table m dst src (zlen sl)))
    (forall d, d ∈ dl -> fact d -> mt_size d <> 0 ->
       apart (mt_data d) (mt_size d) src (zlen sl * sizeof_spa_meta)).
Proof.
  intros Hsrc. pose proof (zlen_nonneg sl).
  assert (0 <= src /\ src + zlen sl * sizeof_spa_meta < 2 ^ 64) as [? ?].
  { unfold is_u64 in Hsrc. destruct sl as [|x l] eqn:E; [change (zlen []) with 0; lia|].
    destruct (metas_in_bounds _ _ _ Hs) as [? ?]; [done|lia]. }
  apply decides_table with (1 := Hd). intros j d Hdj Hin. unfold copy_spares_table, fact. rewrite Hdj. simpl.
  destruct (spa_meta_type_is_transport_owned (mt_type d)); [by apply decides_ret|].
  apply decides_ret. pose proof (meta_at_inv _ _ _ _ Hdj) as (_ & _ & _ & Ts & Td).
  unfold is_u32, is_u64 in *. rewrite negb_true_iff, andb_false_iff, negb_false_iff, Z.eqb_eq.
  destruct (Z.eq_dec (mt_size d) 0) as [?|Hz]; [split; [done|by left]|].
  destruct Hdok as (_ & _ & Hall & _). rewrite list.Forall_forall in Hall.
  destruct (Hall d Hin) as [_ Hr]. destruct (Hr Hz) as (_ & _ & ? & _).
  rewrite (u64_small (_ * _)), overlaps_spec by lia. tauto.
Qed.

Context (Hsok : records_ok src sl).

Lemma copy_apart_decides :
  decides (for_all (zlen sl) (fun i => for_all (zlen dl) (copy_disjoint m dst src i)))
    (forall s, s ∈ sl -> forall d, d ∈ dl -> fact s \/ fact d -> mt_size s <> 0 -> mt_size d <> 0 ->
       apart (mt_data s) (mt_size s) (mt_data d) (mt_size d)).
Proof.
  apply decides_table with (1 := Hs). intros i s Hsi Hsin.
  apply decides_table with (1 := Hd). intros j d Hdj Hdin. unfold copy_disjoint. rewrite Hsi, Hdj. simpl.
  pose proof (meta_at_inv _ _ _ _ Hdj) as (_ & _ & _ & Td & Dd).
  pose proof (meta_at_inv _ _ _ _ Hsi) as (_ & _ & _ & Ts & Ds). unfold is_u32, is_u64, fact in *.
  destruct (spa_meta_type_is_transport_owned (mt_type s) && spa_meta_type_is_transport_owned (mt_type d)) eqn:Ho.
  { apply andb_true_iff in Ho as [-> ->]. apply decides_ret. split; [|done]. by intros _ [|]. }
  apply decides_ret. rewrite negb_true_iff, !andb_false_iff, !negb_false_iff, !Z.eqb_eq, !orb_false_iff, !Z.ltb_ge.
  apply andb_false_iff in Ho.
  destruct (Z.eq_dec (mt_size s) 0) as [?|Hz]; [tauto|].
  destruct (Z.eq_dec (mt_size d) 0) as [?|Hz']; [tauto|].
  destruct Hdok as (_ & _ & Hall & _), Hsok as (_ & _ & Hall' & _). rewrite list.Forall_forall in Hall, Hall'.
  destruct (Hall d Hdin) as [_ Hr]. destruct (Hr Hz') as (_ & _ & ? & _).
  destruct (Hall' s Hsin) as [_ Hr']. destruct (Hr' Hz) as (_ & _ & ? & _).
  rewrite overlaps_spec by lia. split.
  - intros [[?|?]|[_ ?]] _ _ _; done.
  - intros Hap. right. split; [lia|]. by apply Hap.
Qed.
End Checks.

(** The whole copy: with both tables and all storage in the memory it returns;
    when it fails it has written nothing, when it succeeds the checks hold and
    the facts are copied. *)
Lemma records_copy_spec m dst dl src sl :
  zlen m < 2 ^ 63 -> is_u64 src -> ready dst dl src sl m ->
  exists b m', spa_meta_records_copy m dst (zlen dl) src (zlen sl) = Ret (b, m') /\
    (b = false \/ dst = src -> m' = m) /\
    (b = true -> dst <> src ->
     preflight dst dl src sl /\ valid_records m sl /\ same_if (outside_facts dl) m m' /\
     copy_contents dl sl m m').
Proof.
  intros Hm Hsrc Hr. pose proof Hr as [Hd Hs Hst]. unfold spa_meta_records_copy.
  destruct (records_validate_decides m Hm src sl Hs) as (vs & -> & Hvs);
    [intros r ?; apply Hst, elem_of_app; by right|]. simpl obind.
  destruct (layout_validate_decides m dst dl Hd Hm) as (vd & Evd & Hvd).
  destruct vs; [|by eexists false, m]. rewrite Evd. simpl obind.
  destruct vd; [|by eexists false, m]. cbn [negb].
  destruct (proj1 Hvs eq_refl) as [Hsok Hval]. pose proof (proj1 Hvd eq_refl) as Hdok.
  destruct (Z.eqb_spec dst src) as [->|Hne].
  { by eexists _, m. }
  destruct (copy_targets_decides m dst dl src sl Hd Hs) as ([] & -> & Ht); simpl obind; [|by eexists false, m].
  destruct (copy_table_decides m Hm dst dl src sl Hd Hs Hdok Hsrc) as ([] & -> & Htab); simpl obind;
    [|by eexists false, m].
  destruct (copy_apart_decides m dst dl src sl Hd Hs Hdok Hsok) as ([] & -> & Hap); simpl obind;
    [|by eexists false, m].
  assert (preflight dst dl src sl) as Hpf.
  { split; [done|done| |by apply Htab|].
    - intros s Hin Hf. destruct (proj1 Ht eq_refl s Hin Hf) as (d & ? & ? & _). by exists d.
    - intros s d Hin Hin'. by apply (proj1 Hap eq_refl). }
  destruct (copy_writes dst dl src sl Hpf m Hr) as (m1 & m2 & -> & E2 & S2 & C2). simpl obind. simpl.
  rewrite E2. simpl. eexists true, m2. split; [done|]. split; [by intros [?|?]|]. by intros _ _.
Qed.

(** ** The theorems *)

(** C34: [spa_meta_records_layout_validate] returns for every table in memory,
    reads nothing but the table, and accepts it exactly when there are at most 64
    records of known layout with different types and at most 4096 bytes, each
    with storage that is aligned, inside the address space and apart from the
    table and from the storage of the others. *)
Theorem records_layout_validate_correct m metas ml :
  metas_in m metas ml -> zlen m < 2 ^ 63 ->
  exists b, spa_meta_records_layout_validate m metas (zlen ml) = Ret b /\ (b = true <-> records_ok metas ml).
Proof. apply layout_validate_decides. Qed.

(** C15: [spa_meta_records_copy] on two tables whose storage is in memory
    returns without reading or writing anything else.  When it refuses, no byte
    has changed.  When it accepts two different tables, every fact of the source
    has a record of its type and size in the destination; afterwards every fact
    of the destination holds the bytes the source had for its type, or zeroes
    when the source has none; and no other byte, in particular no record the
    transport owns, no descriptor and no byte of the source, has changed. *)
Theorem records_copy_correct m dst dl src sl :
  zlen m < 2 ^ 63 -> is_u64 src ->
  metas_in m dst dl -> metas_in m src sl -> (forall r, r ∈ dl ++ sl -> stored m r) ->
  exists b m', spa_meta_records_copy m dst (zlen dl) src (zlen sl) = Ret (b, m') /\
    (b = false \/ dst = src -> m' = m) /\
    (b = true -> dst <> src ->
     (forall s, s ∈ sl -> fact s ->
        exists d, d ∈ dl /\ mt_type d = mt_type s /\ mt_size d = mt_size s) /\
     same_if (outside_facts dl) m m' /\ copy_contents dl sl m m' /\
     metas_in m' dst dl /\ metas_in m' src sl /\
     forall s, s ∈ sl -> mt_size s <> 0 ->
       load m' (mt_data s) (mt_size s) = load m (mt_data s) (mt_size s)).
Proof.
  intros Hm Hsrc Hd Hs Hst. assert (ready dst dl src sl m) as Hr by done.
  destruct (records_copy_spec m dst dl src sl Hm Hsrc Hr) as (b & m' & E & Hno & Hyes).
  exists b, m'. split_and!; [done|done|]. intros Hb Hne.
  destruct (Hyes Hb Hne) as (Hpf & _ & S & C).
  destruct (ready_same _ _ _ _ Hpf m m' Hr S) as [Hd' Hs' _].
  split_and!; [|done|done|done|done|].
  - intros s Hin Hf. destruct (pf_target _ _ _ _ Hpf s Hin Hf) as (d & Ed & Hsz).
    apply find_type_some in Ed as [? ?]. by exists d.
  - intros s Hin Hz. apply (load_outside _ _ _ _ S). intros a [? ?] x Hx Hfx [? ?].
    destruct (pf_apart _ _ _ _ Hpf s x Hin Hx (or_intror Hfx)); lia.
Qed.

Lemma owned_size type : spa_meta_type_is_transport_owned type = true -> spa_meta_record_size type = 0.
Proof.
  intros Ho. destruct (Z.eq_dec (spa_meta_record_size type) 0) as [|Hz]; [done|].
  revert Ho. pattern type. by apply record_size_cases.
Qed.

Lemma record_ok_validate m metas count r bs rv :
  record_ok metas count r -> spa_meta_record_size (mt_type r) <> 0 ->
  load m (mt_data r) (mt_size r) = Ret bs ->
  spa_meta_record_validate m r rv = validate_bytes (mt_type r) bs rv.
Proof.
  intros [Hv Hst] Hz Hl. pose proof (load_zlen _ _ _ _ Hl) as Hlen.
  pose proof (load_inv _ _ _ _ Hl) as (? & _ & _). apply record_validate_bytes; [done| |done| |done].
  - apply bad_storage_spec. intros Hz'. by destruct (Hst Hz') as (? & ? & _).
  - apply holds_intro; [done|]. by rewrite Hlen.
Qed.

(** A record of the destination validates after the copy. *)
Lemma copied_validates dst dl src sl m m' d :
  preflight dst dl src sl -> ready dst dl src sl m -> valid_records m sl ->
  copy_contents dl sl m m' -> d ∈ dl -> spa_meta_record_validate m' d false = Ret true.
Proof.
  intros Hpf Hr Hval C Hd. pose proof (dst_ok _ _ _ _ Hpf d Hd) as Hok. pose proof Hok as [Hv Hst].
  destruct (Z.eq_dec (spa_meta_record_size (mt_type d)) 0) as [Hz|Hz].
  { unfold spa_meta_record_validate. rewrite Hv, Hz.
    destruct (bad_storage d) eqn:Hb; [|done]. assert (bad_storage d = false); [|congruence].
    apply bad_storage_spec. intros Hz'. by destruct (Hst Hz') as (? & ? & _). }
  pose proof (known_size _ _ _ Hv Hz) as Hk.
  assert (fact d) as Hf.
  { unfold fact. destruct (spa_meta_type_is_transport_owned (mt_type d)) eqn:Ho; [|done].
    by apply owned_size in Ho. }
  specialize (C d Hd Hf ltac:(lia)). destruct (find_type (mt_type d) sl) as [s|] eqn:E.
  - apply find_type_some in E as [Hs Ht].
    destruct (pf_target _ _ _ _ Hpf s Hs) as (d' & Ed & Hsz); [unfold fact in *; congruence|].
    rewrite Ht, (pairwise_find _ _ (dst_pairwise _ _ _ _ Hpf) Hd) in Ed. injection Ed as <-.
    destruct (ready_typed dst dl src sl m s) as [Ts Td]; [done|apply elem_of_app; by right|].
    destruct (stored_holds m s Ts Td) as [H Hl]; [apply Hr, elem_of_app; by right|lia|].
    specialize (Hval s Hs). destruct (pf_src _ _ _ _ Hpf) as (_ & _ & Hall & _).
    rewrite list.Forall_forall in Hall.
    assert (load m (mt_data s) (mt_size s) = Ret (slice (mt_data s) (mt_size s) m)) as Hbs
      by by apply holds_load.
    rewrite (record_ok_validate _ _ _ _ _ _ (Hall s Hs) ltac:(congruence) Hbs) in Hval.
    rewrite Hsz in C at 2. rewrite Hbs in C.
    rewrite (record_ok_validate _ _ _ _ _ _ Hok Hz C). congruence.
  - rewrite (record_ok_validate _ _ _ _ _ _ Hok Hz C), Hk. by apply validate_bytes_zero.
Qed.

(** The records [spa_meta_records_copy] leaves in the destination pass
    [spa_meta_records_validate] again, whatever the destination held before: a
    filter that forwards the metadata of its input produces an output the next
    one accepts. *)
Theorem records_copy_validates m dst dl src sl m' :
  zlen m < 2 ^ 63 -> is_u64 src -> dst <> src ->
  metas_in m dst dl -> metas_in m src sl -> (forall r, r ∈ dl ++ sl -> stored m r) ->
  spa_meta_records_copy m dst (zlen dl) src (zlen sl) = Ret (true, m') ->
  spa_meta_records_validate m' dst (zlen dl) 0 0 = Ret true.
Proof.
  intros Hm Hsrc Hne Hd Hs Hst Hcopy. assert (ready dst dl src sl m) as Hr by done.
  destruct (records_copy_spec m dst dl src sl Hm Hsrc Hr) as (b & x & E & _ & Hyes).
  rewrite Hcopy in E. injection E as <- <-.
  destruct (Hyes eq_refl Hne) as (Hpf & Hval & S & C).
  pose proof (ready_same _ _ _ _ Hpf m m' Hr S) as Hr'. pose proof Hr' as [Hd' _ Hst'].
  pose proof (same_if_zlen _ _ _ S) as Hl.
  destruct (records_validate_decides m' ltac:(lia) dst dl Hd') as (b & -> & Hb);
    [intros r ?; apply Hst', elem_of_app; by left|].
  f_equal. apply Hb. split; [by apply (pf_dst _ _ _ _ Hpf)|].
  intros d Hin. by apply (copied_validates dst dl src sl m m').
Qed.

(** ** A memory with two tables *)

Definition meta_bytes (r : spa_meta) : list byte := le32 (mt_type r) ++ le32 (mt_size r) ++ le64 (mt_data r).
Definition sample_dst : list spa_meta :=
  [mk_meta SPA_META_AcquisitionIdentity 40 256; mk_meta SPA_META_OpticalChopping 8 296;
   mk_meta SPA_META_Busy 8 304].
Definition sample_src : list spa_meta :=
  [mk_meta SPA_META_AcquisitionIdentity 40 312; mk_meta SPA_META_Busy 8 352].
Definition sample_identity : list byte :=
  le32 1 ++ le32 0 ++ replicate 16 Byte.x01 ++ le64 5 ++ le64 7.
Definition sample_memory : mem :=
  zeroes 64 ++ concat (map meta_bytes sample_dst) ++ zeroes 16 ++ concat (map meta_bytes sample_src)
  ++ zeroes 96 ++ replicate 48 Byte.xff ++ replicate 8 Byte.x05 ++ sample_identity ++ replicate 8 Byte.x09.

Lemma sample_dst_in : metas_in sample_memory 64 sample_dst.
Proof. intros [|[|[|i]]] r; simpl; intros E; inversion E; vm_compute; reflexivity. Qed.
Lemma sample_src_in : metas_in sample_memory 128 sample_src.
Proof. intros [|[|i]] r; simpl; intros E; inversion E; vm_compute; reflexivity. Qed.
Lemma sample_stored : forall r, r ∈ sample_dst ++ sample_src -> stored sample_memory r.
Proof.
  apply list.Forall_forall. unfold stored, sample_dst, sample_src. simpl.
  repeat constructor; intros _; vm_compute; discriminate.
Qed.

Lemma records_layout_validate_correct_witness :
  spa_meta_records_layout_validate sample_memory 64 3 = Ret true /\ records_ok 64 sample_dst.
Proof.
  assert (spa_meta_records_layout_validate sample_memory 64 3 = Ret true) as E by (vm_compute; reflexivity).
  split; [exact E|].
  destruct (records_layout_validate_correct sample_memory 64 sample_dst) as (b & Eb & Hb);
    [apply sample_dst_in|vm_compute; reflexivity|].
  apply Hb. change (zlen sample_dst) with 3 in Eb. congruence.
Defined.

Lemma records_copy_correct_witness :
  exists m', spa_meta_records_copy sample_memory 64 3 128 2 = Ret (true, m') /\
    load m' 256 56 = Ret (sample_identity ++ zeroes 8 ++ replicate 8 Byte.x05) /\
    same_if (outside_facts sample_dst) sample_memory m'.
Proof.
  destruct (records_copy_correct sample_memory 64 sample_dst 128 sample_src) as (b & m' & E & _ & H);
    [vm_compute; reflexivity|unfold is_u64; lia|apply sample_dst_in|apply sample_src_in|apply sample_stored|].
  change (zlen sample_dst) with 3 in E. change (zlen sample_src) with 2 in E.
  exists m'. destruct b.
  - split; [exact E|]. split; [|by apply H]. revert E. vm_compute. intros [= <-]. reflexivity.
  - revert E. vm_compute. discriminate.
Defined.

Lemma records_copy_validates_witness :
  exists m', spa_meta_records_copy sample_memory 64 3 128 2 = Ret (true, m') /\
    spa_meta_records_validate m' 64 3 0 0 = Ret true.
Proof.
  eexists. split; [vm_compute; reflexivity|].
  apply (records_copy_validates sample_memory 64 sample_dst 128 sample_src);
    [vm_compute; reflexivity|unfold is_u64; lia|lia|apply sample_dst_in|apply sample_src_in
    |apply sample_stored|vm_compute; reflexivity].
Defined.
