(* ===== verification/BufferMetas.v ===== *)
(** * Negotiation of buffer metadata

    Models the part of [src/pipewire/buffers.c] that turns the negotiated Meta
    parameters into the metas of the buffers: the collection of the parameters
    in [pw_buffers_negotiate], the byte budget of the ndarray profile and
    [check_required_metas].  A parameter is given by the fields the code parses
    from it; enumerating and intersecting the parameters of the two ports is not
    part of this file.  The theorem composes the negotiation with the layout of
    [BufferAlloc] and the validation of [MetaRecords]. *)
From S2P Require Import Prelude Bytes BufferAlloc BufferAllocProofs MetaRecords MetaRecordsProofs.
#[local] Open Scope Z_scope.

Notation MAX_METAS := 64.
Notation INT32_MAX := (2 ^ 31 - 1).

(** The fields of a Meta parameter; [features] and [required] are 0 and false
    when the parameter does not have them. *)
Record meta_param : Type := mk_param {
  mp_type : Z;
  mp_size : Z;
  mp_features : Z;
  mp_required : bool }.

(** [SPA_META_TYPE_FEATURES]. *)
Definition SPA_META_TYPE_FEATURES (type features : Z) : Z := u32 (Z.lor (Z.shiftl type 16) features).

(** The test both loops make on the type, the size and the features. *)
Definition meta_supported (p : meta_param) : bool :=
  spa_meta_record_layout_validate (mp_type p) (mp_size p) INT32_MAX
  && negb ((SPA_META_START_features <=? mp_type p) && negb (mp_features p =? 0)).

(** One Meta parameter of the collection loop. *)
Definition collect_meta (metas : list spa_meta) (p : meta_param) : outcome (list spa_meta) :=
  if negb (meta_supported p) then Err ENOTSUP
  else if existsb (fun m => mt_type m =? mp_type p) metas then Err EEXIST
  else if MAX_METAS <? zlen metas + 1 + (if mp_features p =? 0 then 0 else 1) then Err ENOSPC
  else
    let metas := metas ++ [mk_meta (mp_type p) (mp_size p) 0] in
    Ret (if mp_features p =? 0 then metas
         else metas ++ [mk_meta (SPA_META_TYPE_FEATURES (mp_type p) (mp_features p)) 0 0]).

(** The loop; [None] is a parameter that is no Meta object or does not parse. *)
Fixpoint collect_metas (params : list (option meta_param)) (metas : list spa_meta)
  : outcome (list spa_meta) :=
  match params with
  | [] => Ret metas
  | None :: params => collect_metas params metas
  | Some p :: params => let! metas := collect_meta metas p in collect_metas params metas
  end.

(** The budget of the ndarray profile. *)
Fixpoint check_metadata_bytes (metas : list spa_meta) (metadata_bytes : Z) : outcome unit :=
  match metas with
  | [] => Ret tt
  | m :: metas =>
      if (SPA_META_MAX_BYTES <? mt_size m)
         || (u32 (SPA_META_MAX_BYTES - metadata_bytes) <? round_up_n 32 (mt_size m) 8)
      then Err ENOSPC
      else check_metadata_bytes metas (u32 (metadata_bytes + round_up_n 32 (mt_size m) 8))
  end.

(** [check_required_metas] on the parameters a port enumerates; [None] does not
    parse.  [seen] holds the types of the parameters before. *)
Fixpoint check_required_metas (params : list (option meta_param)) (metas : list spa_meta)
  (seen : list Z) : outcome unit :=
  match params with
  | [] => Ret tt
  | o :: params =>
      if MAX_METAS <? zlen seen + 1 then Err EINVAL
      else
        match o with
        | None => Err EINVAL
        | Some p =>
            if negb (meta_supported p) then Err ENOTSUP
            else if existsb (fun t => t =? mp_type p) seen then Err EEXIST
            else if mp_required p &&
                    negb (existsb (fun m => (mt_type m =? mp_type p) && (mt_size m =? mp_size p)) metas)
            then Err ENOTSUP
            else if mp_required p && negb (mp_features p =? 0) &&
                    negb (existsb (fun m => mt_type m =? SPA_META_TYPE_FEATURES (mp_type p) (mp_features p)) metas)
            then Err ENOTSUP
            else check_required_metas params metas (seen ++ [mp_type p])
        end
  end.

(** ** The collected metas *)

(** Parameters of plain types: features are not named as types of their own, and
    fit the 16 bits they have in a type. *)
Definition plain_param (p : meta_param) : Prop :=
  0 <= mp_type p < SPA_META_START_features /\ is_u32 (mp_size p) /\ 0 <= mp_features p < 2 ^ 16.

Lemma features_value t f : 0 <= t < 2 ^ 16 -> 0 <= f < 2 ^ 16 -> SPA_META_TYPE_FEATURES t f = t * 2 ^ 16 + f.
Proof.
  intros Ht Hf. unfold SPA_META_TYPE_FEATURES. rewrite Z.shiftl_mul_pow2 by lia.
  assert (Z.land (t * 2 ^ 16) f = 0) as Hl.
  { rewrite <- (Z.mod_small f (2 ^ 16)), <- Z.land_ones by lia. rewrite (Z.land_comm f), Z.land_assoc.
    rewrite Z.land_ones, Z.mod_mul by lia. apply Z.land_0_l. }
  rewrite <- Z.add_nocarry_lor by done. apply wrap_small. lia.
Qed.

Lemma features_base t f :
  0 <= t < 2 ^ 16 -> 0 <= f < 2 ^ 16 -> Z.shiftr (SPA_META_TYPE_FEATURES t f) 16 = t.
Proof.
  intros Ht Hf. rewrite features_value by done. rewrite Z.shiftr_div_pow2 by lia.
  rewrite Z.add_comm, Z.div_add, Z.div_small by lia. lia.
Qed.

(** What the loop keeps true: at most 64 metas of supported layout and different
    types, and every feature next to its plain type. *)
Record collected (metas : list spa_meta) : Prop := {
  co_count : zlen metas <= MAX_METAS;
  co_layout : Forall (fun m => spa_meta_record_layout_validate (mt_type m) (mt_size m) INT32_MAX = true /\
                               is_u32 (mt_size m)) metas;
  co_nodup : NoDup (map mt_type metas);
  co_base m : m ∈ metas -> SPA_META_START_features <= mt_type m ->
    Z.shiftr (mt_type m) 16 ∈ map mt_type metas }.

Lemma features_layout t f :
  0 <= t < 2 ^ 16 -> 0 <= f < 2 ^ 16 -> forall size, 
  spa_meta_record_layout_validate t size INT32_MAX = true ->
  SPA_META_START_features <= SPA_META_TYPE_FEATURES t f /\
  spa_meta_record_layout_validate (SPA_META_TYPE_FEATURES t f) 0 INT32_MAX = true.
Proof.
  intros Ht Hf size. pose proof (features_base t f Ht Hf) as Hb.
  pose proof (features_value t f Ht Hf) as Hv. unfold spa_meta_record_layout_validate. rewrite Hb.
  repeat case_if; try done; intros _; bool_to_prop; try lia.
Qed.

Lemma existsb_type_false t metas :
  existsb (fun m => mt_type m =? t) metas = false -> t ∉ map mt_type metas.
Proof.
  intros H Hin. apply list_elem_of_In, in_map_iff in Hin as (m & <- & Hm).
  assert (existsb (fun m' => mt_type m' =? mt_type m) metas = true); [|congruence].
  apply existsb_exists. exists m. split; [done|]. by apply Z.eqb_eq.
Qed.

(** Appending one meta of a new type. *)
Lemma collected_snoc metas m :
  collected metas -> zlen metas + 1 <= MAX_METAS ->
  spa_meta_record_layout_validate (mt_type m) (mt_size m) INT32_MAX = true -> is_u32 (mt_size m) ->
  mt_type m ∉ map mt_type metas ->
  (SPA_META_START_features <= mt_type m -> Z.shiftr (mt_type m) 16 ∈ map mt_type metas) ->
  collected (metas ++ [m]).
Proof.
  intros [Hc Hl Hn Hb] Hcount Hv Hs Hnew Hbase. split.
  - rewrite zlen_app. done.
  - apply Forall_app_2; [done|]. by constructor.
  - rewrite map_app. apply list.NoDup_app. split_and!; [done| |apply NoDup_singleton].
    intros x Hx ->%list_elem_of_singleton. done.
  - intros x Hx Hf. rewrite map_app. apply elem_of_app. left.
    apply elem_of_app in Hx as [Hx| ->%list_elem_of_singleton]; [by apply Hb|by apply Hbase].
Qed.

Lemma collect_meta_collected metas p metas' :
  collected metas -> plain_param p -> collect_meta metas p = Ret metas' -> collected metas'.
Proof.
  intros Hc (Ht & Hs & Hf). unfold collect_meta, meta_supported. repeat case_if; try done; intros [= <-].
  all: destruct (spa_meta_record_layout_validate _ _ _) eqn:Hv; try done.
  all: pose proof (existsb_type_false _ _ ltac:(eassumption)) as Hnew.
  all: assert (collected (metas ++ [mk_meta (mp_type p) (mp_size p) 0])) as H1
      by (apply collected_snoc; try done; simpl; lia).
  - done.
  - destruct (features_layout (mp_type p) (mp_features p) ltac:(lia) Hf _ Hv) as [Hge Hv'].
    pose proof (features_base (mp_type p) (mp_features p) ltac:(lia) Hf) as Hbase.
    apply collected_snoc; simpl; try done.
    + rewrite zlen_app. change (zlen [_]) with 1. lia.
    + rewrite map_app. intros [Hin|Hin]%elem_of_app.
      * apply list_elem_of_In, in_map_iff in Hin as (m & Hm & Hin).
        apply Hnew. rewrite <- Hbase, <- Hm. apply Hc; [by apply list_elem_of_In|lia].
      * apply list_elem_of_singleton in Hin. simpl in Hin. lia.
    + intros _. rewrite Hbase, map_app. apply elem_of_app. right. by constructor.
Qed.

Lemma collect_metas_collected params metas metas' :
  collected metas -> Forall (fun o => forall p, o = Some p -> plain_param p) params ->
  collect_metas params metas = Ret metas' -> collected metas'.
Proof.
  intros Hc Hp. revert metas Hc. induction Hp as [|o params Ho _ IH]; intros metas Hc; simpl.
  { by intros [= <-]. }
  destruct o as [p|]; [|by apply IH]. destruct (collect_meta metas p) as [x| |] eqn:E; try done. simpl.
  apply IH. eapply collect_meta_collected; [done| |done]. by apply Ho.
Qed.

Lemma metadata_bytes_ok metas bytes :
  Forall (fun m => is_u32 (mt_size m)) metas -> 0 <= bytes <= SPA_META_MAX_BYTES ->
  check_metadata_bytes metas bytes = Ret tt ->
  bytes + records_bytes metas <= SPA_META_MAX_BYTES /\ Forall (fun m => mt_size m <= SPA_META_MAX_BYTES) metas.
Proof.
  intros Hs. revert bytes. induction Hs as [|m metas Hm _ IH]; intros bytes Hb; simpl.
  { intros _. split; [lia|constructor]. }
  unfold is_u32 in Hm. case_if; [done|].
  pose proof (pad8_bounds (mt_size m)). rewrite round_up_n_8, !wrap_small in * by lia.
  intros [? ?]%IH; [|lia]. split; [lia|]. by constructor.
Qed.

Lemma layout_validate_smaller type size max max' :
  size <= max' -> spa_meta_record_layout_validate type size max = true ->
  spa_meta_record_layout_validate type size max' = true.
Proof.
  intros Hs. unfold spa_meta_record_layout_validate.
  assert ((max' <? size) = false) as -> by (apply Z.ltb_ge; lia).
  rewrite orb_false_r. match goal with |- (if ?c || _ then _ else _) = _ -> _ => destruct c end; simpl.
  - done.
  - by destruct (max <? size).
Qed.

(** ** The metas of a buffer *)

Lemma stacked_app_inv lo l1 l2 hi :
  stacked lo (l1 ++ l2) hi -> exists mid, stacked lo l1 mid /\ stacked mid l2 hi.
Proof.
  revert lo. induction l1 as [|[a n] l1 IH]; intros lo; simpl.
  - intros H. exists lo. split; [lia|done].
  - intros (? & ? & (mid & ? & ?)%IH). by exists mid.
Qed.

Lemma stacked_order lo l hi i j a n b k :
  stacked lo l hi -> (i < j)%nat -> l !! i = Some (a, n) -> l !! j = Some (b, k) -> a + n <= b.
Proof.
  revert lo i j. induction l as [|[x y] l IH]; intros lo i j; simpl; [done|].
  intros (? & ? & Hs) Hij Hi Hj. destruct j as [|j]; [lia|]. destruct i as [|i].
  - injection Hi as -> ->. simpl in Hj. apply list_elem_of_lookup_2, list_elem_of_In in Hj.
    by destruct (stacked_in _ _ _ _ _ Hs Hj).
  - simpl in Hi, Hj. apply (IH (x + y) i j); [done|lia|done|done].
Qed.

Section Buffer_metas.
Context (flags : Z) (metas : list spa_meta) (datas : list spa_data) (data_aligns : list Z).
Context (Hok : alloc_ok metas datas data_aligns).
Notation info := (spa_buffer_alloc_fill_info flags metas datas data_aligns).
Context (skel data : Z) (Hplaced : placed info skel data).
Context (Hskel : 0 < skel) (Hdata : flag_is_set flags SPA_BUFFER_ALLOC_FLAG_INLINE_META = true \/ 0 < data).
Context (Hs : skel + ai_skel_size info < 2 ^ 62) (Hd : data + ai_mem_size info < 2 ^ 62).
Context (Hap : apart skel (ai_skel_size info) data (ai_mem_size info)).
Notation b := (spa_buffer_alloc_layout info skel data).

(** The storage of the metas is stacked apart from the table, above NULL. *)
Lemma metas_stacked :
  exists lo hi, stacked lo (map meta_extent (b_meta_list b)) hi /\ 0 < lo /\ hi < 2 ^ 62 /\
    apart lo (hi - lo) (b_metas b) (zlen metas * sizeof_spa_meta).
Proof.
  destruct (layout_spec flags _ _ _ Hok skel data Hplaced Hs Hd) as (H1 & H2 & _ & (Hn & _)).
  assert (Hn' : b_n_metas b = zlen metas) by done.
  unfold skel_extents, mem_extents in *. simpl in H1.
  destruct H1 as (? & _ & ? & ? & ? & ? & H1). rewrite Hn' in *.
  pose proof (zlen_nonneg metas). pose proof (stacked_le _ _ _ H1).
  destruct (flag_is_set flags SPA_BUFFER_ALLOC_FLAG_INLINE_META) eqn:E; simpl in H1, H2.
  - apply stacked_app_inv in H1 as (mid & Hm & Hr). pose proof (stacked_le _ _ _ Hm).
    pose proof (stacked_le _ _ _ Hr). eexists _, mid. split; [exact Hm|]. unfold apart. lia.
  - apply stacked_app_inv in H2 as (mid & Hm & Hr). pose proof (stacked_le _ _ _ Hm).
    pose proof (stacked_le _ _ _ Hr). destruct Hdata as [?|?]; [done|].
    exists data, mid. split; [done|]. unfold apart in *. lia.
Qed.

(** The table of the metas of a buffer is well formed. *)
Lemma layout_records_ok :
  collected metas -> check_metadata_bytes metas 0 = Ret tt -> records_ok (b_metas b) (b_meta_list b).
Proof.
  intros Hc Hbytes. destruct metas_stacked as (lo & hi & Hst & Hlo & Hhi & Htab).
  destruct (layout_spec flags _ _ _ Hok skel data Hplaced Hs Hd) as (_ & _ & (Ha8 & _) & (_ & _ & Hlike & _)).
  assert (b_metas b = skel + 24) as Hb.
  { destruct (off_le_sizes flags _ _ _ Hok). destruct Hplaced as (? & ? & _).
    destruct (layout_shape flags _ _ _ Hok skel data) as (ms & -> & _); [lia|lia|lia|lia|done]. }
  destruct Hplaced as (_ & _ & Hs8 & _).
  assert (Forall (fun m => is_u32 (mt_size m)) metas) as Hu
    by (eapply Forall_impl; [|apply Hc]; by intros ? []).
  destruct (metadata_bytes_ok metas 0 Hu ltac:(lia) Hbytes) as [Hsum Hmax].
  assert (zlen (b_meta_list b) = zlen metas) as Hlen by (unfold zlen; by rewrite <- (Forall2_length Hlike)).
  assert (records_bytes (b_meta_list b) = records_bytes metas) as Hrb.
  { clear -Hlike. induction Hlike as [|m m' l l' [_ E] _ IH]; simpl; [done|]. by rewrite E, IH. }
  assert (forall i r, b_meta_list b !! i = Some r -> exists m, metas !! i = Some m /\ meta_like m r) as Hget.
  { intros i r Hi. by destruct (Forall2_lookup_r _ _ _ _ _ Hlike Hi) as (m & ? & ?); exists m. }
  split_and!; [rewrite Hlen; apply Hc| | |lia|].
  - intros _. rewrite Hb. split; [lia|]. by apply mod_add_0.
  - apply Forall_lookup_2. intros i r Hi. destruct (Hget i r Hi) as (m & Hm & Ht & Hsz).
    pose proof (co_layout _ Hc) as Hl. rewrite Forall_lookup in Hl, Hmax. specialize (Hl i m Hm) as [Hl Hu'].
    split; [rewrite Ht, Hsz; eapply layout_validate_smaller; [by apply (Hmax i)|done]|]. intros Hz.
    rewrite Forall_lookup in Ha8. specialize (Ha8 i r Hi).
    destruct (stacked_in _ _ _ (mt_data r) (mt_size r) Hst) as (? & ? & ?).
    { apply list_elem_of_In. apply list_elem_of_lookup_2 with i. by rewrite list_lookup_fmap, Hi. }
    rewrite Hlen. split_and!; [lia|done|lia|]. unfold apart in *. lia.
  - intros i j r r' Hij Hi Hj. destruct (Hget i r Hi) as (m & Hm & Ht & _), (Hget j r' Hj) as (m' & Hm' & Ht' & _).
    split.
    + rewrite Ht, Ht'. intros E. pose proof (co_nodup _ Hc) as Hnd.
      assert (i = j); [|lia]. apply (NoDup_lookup _ i j (mt_type m) Hnd); rewrite list_lookup_fmap.
      * by rewrite Hm.
      * by rewrite Hm', <- E.
    + intros _ _. right. eapply (stacked_order _ _ _ i j); [exact Hst|done|..]; by rewrite list_lookup_fmap, ?Hi, ?Hj.
Qed.
End Buffer_metas.

(** ** Requirements *)

Lemma check_required_spec params metas seen p :
  check_required_metas params metas seen = Ret tt -> Some p ∈ params -> mp_required p = true ->
  (exists m, m ∈ metas /\ mt_type m = mp_type p /\ mt_size m = mp_size p) /\
  (mp_features p <> 0 -> exists m, m ∈ metas /\ mt_type m = SPA_META_TYPE_FEATURES (mp_type p) (mp_features p)).
Proof.
  revert seen. induction params as [|o params IH]; intros seen; [by intros _ ?%not_elem_of_nil|].
  cbn [check_required_metas]. case_if; [done|]. destruct o as [q|]; [|done].
  case_if; [done|]. case_if; [done|].
  destruct (mp_required q && negb (existsb _ metas)) eqn:G1; [done|].
  destruct (mp_required q && _ && _) eqn:G2; [done|].
  intros Hr [Hq|Hin]%elem_of_cons Hreq; [|by apply (IH _ Hr)]. injection Hq as <-. rewrite Hreq in *.
  simpl in G1, G2. split.
  - apply negb_false_iff, existsb_exists in G1 as (m & Hm & [?%Z.eqb_eq ?%Z.eqb_eq]%andb_prop).
    exists m. by rewrite list_elem_of_In.
  - intros Hf. rewrite (proj2 (Z.eqb_neq _ _) Hf) in G2.
    apply negb_false_iff, existsb_exists in G2 as (m & Hm & ?%Z.eqb_eq). exists m. by rewrite list_elem_of_In.
Qed.

(** A meta of the description is found by its type. *)
Lemma find_like metas ml m :
  Forall2 meta_like metas ml -> NoDup (map mt_type metas) -> m ∈ metas ->
  exists r, find (fun x => mt_type x =? mt_type m) ml = Some r /\ mt_size r = mt_size m.
Proof.
  intros Hl. revert m. induction Hl as [|x y metas ml [Ht Hs] _ IH]; intros m Hn Hm; [by apply not_elem_of_nil in Hm|].
  simpl in Hn |- *. pose proof (NoDup_cons_1_1 _ _ Hn) as Hx. pose proof (NoDup_cons_1_2 _ _ Hn) as Hn'.
  apply elem_of_cons in Hm as [->|Hm].
  - rewrite Ht, Z.eqb_refl. by exists y.
  - rewrite Ht. destruct (Z.eqb_spec (mt_type x) (mt_type m)) as [E|_]; [|by apply IH].
    destruct Hx. rewrite E. apply list_elem_of_In, in_map, list_elem_of_In. done.
Qed.


Definition sample_params : list (option meta_param) :=
  [Some (mk_param SPA_META_Header 32 0 false); None; Some (mk_param SPA_META_AcquisitionIdentity 40 5 false)].
Definition sample_metas : list spa_meta :=
  [mk_meta SPA_META_Header 32 0; mk_meta SPA_META_AcquisitionIdentity 40 0; mk_meta 0x3000005 0 0].
Definition sample_datas : list spa_data := [mk_data 1 3 0 0 100 0 0].


(** The collection tests a plain type against the metas before it, but not the
    type of its features: a feature named as a type of its own by an earlier
    parameter ends up in the metas twice, a table the validation refuses. *)
Lemma features_collected_twice :
  collect_metas [Some (mk_param 0x10001 0 0 false); Some (mk_param SPA_META_Header 32 1 false)] [] =
  Ret [mk_meta 0x10001 0 0; mk_meta SPA_META_Header 32 0; mk_meta 0x10001 0 0].
Proof. vm_compute. reflexivity. Qed.
