(* ===== verification/FilterGraph.v ===== *)
(** * The ndarray filter graph: construction

    Models the construction half of
    [spa/plugins/filter-graph/filter-graph-ndarray.c] and the structures of
    [spa/include/spa/filter-graph/ndarray-plugin.h]: the formats of ports, the
    admission of a node's ports and properties, links, external ports, the
    validation of the rates and connections and the execution order.

    A node is its position in [graph->nodes] and a port the pair of its node
    and its position in [node->ports], where the code has pointers; the instance
    of a node and what it prepares are addresses, 0 for NULL.  What a shared
    library and a plugin answer are parameters, and so is the rewriting of a
    node's configuration.  A table that a plugin returns with a count has at
    least that many entries.  Allocations succeed. *)
From S2P Require Import Prelude Bytes CString Json NdarrayFormat BufferAlloc MetaRecords GraphProps.
From Stdlib Require Import String.
#[local] Open Scope Z_scope.

Notation FGN_MAX_NODES := 1024.
Notation FGN_MAX_PORTS_PER_NODE := 1024.
Notation FGN_MAX_LINKS := 4096.
Notation FGN_MAX_EXTERNAL_PORTS := 1024.
Notation SPA_FGN_MAX_METAS := 64.
Notation SPA_FGN_MAX_META_BYTES := 4096.
Notation SPA_DIRECTION_INPUT := 0.
Notation SPA_DIRECTION_OUTPUT := 1.
Notation SPA_FGN_PORT_FLAG_OPTIONAL := 1.
Notation SPA_FGN_PORT_FLAG_PARAMETER := 2.
Notation SPA_FGN_PORT_FLAG_CONDITIONAL := 4.
Notation SPA_META_PROPAGATION_PRESERVE := 0.
Notation SPA_META_PROPAGATION_DROP := 2.

Definition next_array_size (count maximum element_size : Z) : outcome Z :=
  if maximum <=? count then Err E2BIG
  else
    let next := count + 1 in
    if negb (element_size =? 0) && (SIZE_MAX / element_size <? next) then Err EOVERFLOW
    else Ret (u64 (next * element_size)).

(** ** Formats *)

Record spa_fgn_format : Type := mk_format {
  f_element_type : Z;
  f_layout : Z;
  f_rate_num : Z;
  f_rate_denom : Z;
  f_n_dimensions : Z;
  f_shape : option (list Z);
  f_schema : option (list byte) }.

(** The loop of [format_size] over the dimensions. *)
Fixpoint elements_loop (shape : list Z) (i : Z) (n : nat) (elements : Z) : outcome Z :=
  match n with
  | O => Ret elements
  | S n =>
      let! d := shape_at shape i in
      if (d =? 0) || (INT32_MAX <? d) then Err EINVAL
      else match overflow_mul elements d with
           | None => Err EOVERFLOW
           | Some elements => elements_loop shape (i + 1) n elements
           end
  end.

Definition format_size (format : option spa_fgn_format) : outcome Z :=
  match format with
  | None => Err EINVAL
  | Some f =>
      match f_shape f with
      | None => Err EINVAL
      | Some shape =>
          if (f_n_dimensions f =? 0) || (SPA_NDARRAY_MAX_DIMENSIONS <? f_n_dimensions f) then Err EINVAL
          else if negb (f_layout f =? SPA_NDARRAY_LAYOUT_ROW_MAJOR)
                  && negb (f_layout f =? SPA_NDARRAY_LAYOUT_COLUMN_MAJOR) then Err EINVAL
          else if negb (Bool.eqb (f_rate_num f =? 0) (f_rate_denom f =? 0)) then Err EINVAL
          else
            let element_size := spa_element_type_size (f_element_type f) in
            if element_size =? 0 then Err EINVAL
            else
              let! elements := elements_loop shape 0 (Z.to_nat (f_n_dimensions f)) 1 in
              match overflow_mul elements element_size with
              | None => Err EOVERFLOW
              | Some bytes => if UINT32_MAX <? bytes then Err EOVERFLOW else Ret bytes
              end
      end
  end.

Fixpoint shapes_equal (a b : list Z) (i : Z) (n : nat) : outcome bool :=
  match n with
  | O => Ret true
  | S n =>
      let! x := shape_at a i in
      let! y := shape_at b i in
      if negb (x =? y) then Ret false else shapes_equal a b (i + 1) n
  end.

(** On formats that are not NULL; a NULL shape is read through. *)
Definition format_equal (a b : spa_fgn_format) : outcome bool :=
  if negb (f_element_type a =? f_element_type b) || negb (f_layout a =? f_layout b)
     || negb (f_rate_num a =? f_rate_num b) || negb (f_rate_denom a =? f_rate_denom b)
     || negb (f_n_dimensions a =? f_n_dimensions b) || negb (string_equal (f_schema a) (f_schema b))
  then Ret false
  else
    shapes_equal (default [] (f_shape a)) (default [] (f_shape b)) 0 (Z.to_nat (f_n_dimensions a)).

Definition format_has_rate (f : spa_fgn_format) : bool := negb (f_rate_num f =? 0).
Definition format_rate_equal (a b : spa_fgn_format) : bool :=
  (f_rate_num a =? f_rate_num b) && (f_rate_denom a =? f_rate_denom b).

(** ** Ports and nodes *)

Record spa_fgn_port_info : Type := mk_port_info {
  pi_struct_size : Z;
  pi_index : Z;
  pi_direction : Z;
  pi_flags : Z;
  pi_name : option (list byte);
  pi_n_metas : Z;
  pi_propagation : Z;
  pi_metas : option (list spa_meta_requirement) }.
Notation sizeof_port_info := 40.

(** A node and a position in its array of ports. *)
Definition port_ref : Type := nat * nat.

Record fgn_port : Type := mk_port {
  pt_info : spa_fgn_port_info;
  pt_format : spa_fgn_format;
  pt_payload_size : Z;
  pt_element_size : Z;
  pt_source : option port_ref;
  pt_n_consumers : Z;
  pt_external : Z }.

(** ** Plugins *)

Record spa_fgn_property : Type := mk_property { as_id : Z; as_value : spa_fgn_value }.

(** The callbacks the construction calls are functions of the instance, [None]
    for NULL; of the others only the presence matters here.  A callback that
    stores a pointer and returns a number returns both. *)
Record spa_fgn_descriptor : Type := mk_descriptor {
  d_struct_size : Z;
  d_version : Z;
  d_name : option (list byte);
  d_n_ports : Z;
  d_ports : option (list spa_fgn_port_info);
  d_instantiate : option (list byte -> Z * Z);
  d_cleanup : bool;
  d_get_port_format : option (Z -> Z -> Z * option spa_fgn_format);
  d_enum_prop_info : option (Z -> Z -> Z * spa_fgn_property_info);
  d_get_prop : option (Z -> Z -> Z * spa_fgn_value);
  d_prepare_props : option (Z -> list spa_fgn_property -> Z * Z);
  d_commit_props : bool;
  d_discard_props : bool;
  d_prepare_parameter : bool;
  d_commit_parameter : bool;
  d_discard_parameter : bool;
  d_prepare_parameters : bool;
  d_adopt_parameters : bool;
  d_process : bool;
  d_prepare_process_thread : bool;
  d_get_port_metadata : option (Z -> Z -> Z * (option (list spa_meta_requirement) * Z)) }.

(** [offsetof(struct spa_fgn_descriptor, prepare_process_thread)], and the ends
    of the two fields behind it. *)
Definition SPA_FGN_DESCRIPTOR_ABI_V7_SIZE : Z := 176.
Definition spa_fgn_descriptor_has_prepare_process_thread (d : spa_fgn_descriptor) : bool :=
  176 + 8 <=? d_struct_size d.
Definition spa_fgn_descriptor_has_get_port_metadata (d : spa_fgn_descriptor) : bool :=
  184 + 8 <=? d_struct_size d.

Record spa_fgn_plugin : Type := mk_plugin {
  pl_struct_size : Z;
  pl_abi_version : Z;
  pl_name : option (list byte);
  pl_find_descriptor : option (list byte -> option spa_fgn_descriptor);
  pl_flags : Z }.
Notation sizeof_plugin := 32.
Notation SPA_FGN_PLUGIN_ABI_VERSION := 8.
Notation SPA_FGN_PLUGIN_FLAG_RETAIN_LIBRARY := 1.

(** What the graph calls with an effect on an instance. *)
Inductive call : Type :=
  | Instantiated (instance : Z)
  | Cleaned (instance : Z)
  | Prepared (instance prepared : Z)
  | Committed (instance prepared : Z)
  | Discarded (instance prepared : Z).

Record fgn_node : Type := mk_node {
  nd_name : list byte;
  nd_descriptor : spa_fgn_descriptor;
  nd_instance : Z;
  nd_ports : list fgn_port;
  nd_inputs : list nat;
  nd_outputs : list nat;
  nd_properties : list spa_fgn_property_info;
  nd_initial_prepared : Z;
  nd_indegree : Z }.

Record spa_fgn_graph : Type := mk_graph {
  gr_nodes : list fgn_node;
  gr_links : list (port_ref * port_ref);
  gr_order : list nat;
  gr_inputs : list port_ref;
  gr_outputs : list port_ref }.

Definition port_at (g : spa_fgn_graph) (r : port_ref) : option fgn_port :=
  match gr_nodes g !! r.1 with Some n => nd_ports n !! r.2 | None => None end.

Definition set_port (f : fgn_port -> fgn_port) (k : nat) (n : fgn_node) : fgn_node :=
  mk_node (nd_name n) (nd_descriptor n) (nd_instance n) (alter f k (nd_ports n)) (nd_inputs n) (nd_outputs n)
          (nd_properties n) (nd_initial_prepared n) (nd_indegree n).
Definition update_port (f : fgn_port -> fgn_port) (r : port_ref) (g : spa_fgn_graph) : spa_fgn_graph :=
  mk_graph (alter (set_port f r.2) r.1 (gr_nodes g)) (gr_links g) (gr_order g) (gr_inputs g) (gr_outputs g).
Definition update_node (f : fgn_node -> fgn_node) (k : nat) (g : spa_fgn_graph) : spa_fgn_graph :=
  mk_graph (alter f k (gr_nodes g)) (gr_links g) (gr_order g) (gr_inputs g) (gr_outputs g).

Definition set_source (s : port_ref) (p : fgn_port) : fgn_port :=
  mk_port (pt_info p) (pt_format p) (pt_payload_size p) (pt_element_size p) (Some s)
          (pt_n_consumers p) (pt_external p).
Definition add_consumer (p : fgn_port) : fgn_port :=
  mk_port (pt_info p) (pt_format p) (pt_payload_size p) (pt_element_size p) (pt_source p)
          (u32 (pt_n_consumers p + 1)) (pt_external p).
Definition set_external (e : Z) (p : fgn_port) : fgn_port :=
  mk_port (pt_info p) (pt_format p) (pt_payload_size p) (pt_element_size p) (pt_source p)
          (pt_n_consumers p) e.
Definition add_indegree (n : fgn_node) : fgn_node :=
  mk_node (nd_name n) (nd_descriptor n) (nd_instance n) (nd_ports n) (nd_inputs n) (nd_outputs n)
          (nd_properties n) (nd_initial_prepared n) (u32 (nd_indegree n + 1)).

(** ** Finding nodes and ports *)

(** The first position that satisfies the condition. *)
Fixpoint find_pos {A} (f : A -> bool) (l : list A) : option nat :=
  match l with
  | [] => None
  | x :: l => if f x then Some O else option_map S (find_pos f l)
  end.

Definition find_node (g : spa_fgn_graph) (name : list byte) : option nat :=
  find_pos (fun n => spa_streq (nd_name n) name) (gr_nodes g).

Definition find_port (n : fgn_node) (name : list byte) (direction : Z) : option nat :=
  let port_id := default SPA_ID_INVALID (spa_atou32_0 name) in
  find_pos (fun p => (pi_direction (pt_info p) =? direction)
                     && (opt_streq (pi_name (pt_info p)) (Some name) || (pi_index (pt_info p) =? port_id)))
           (nd_ports n).

(** [copy_string(destination, 256, source)] succeeds. *)
Definition copy_fits (size : Z) (s : list byte) : bool := zlen s <? size.

(** [strchr] and the two halves around it, each of which fits its buffer. *)
Definition qualified (reference : list byte) : option (list byte * list byte) :=
  match split_at ":" reference with
  | None => None
  | Some (node_name, rest) =>
      if (zlen node_name =? 0) || (256 <=? zlen node_name) || negb (copy_fits 256 rest) then None
      else Some (node_name, rest)
  end.

Definition resolve_port (g : spa_fgn_graph) (reference : list byte) (direction : Z) : option port_ref :=
  match qualified reference with
  | None => None
  | Some (node_name, port_name) =>
      match find_node g node_name with
      | None => None
      | Some k =>
          match gr_nodes g !! k with
          | None => None
          | Some n => match find_port n port_name direction with Some j => Some (k, j) | None => None end
          end
      end
  end.

Definition find_property (n : fgn_node) (name : list byte) : option spa_fgn_property_info :=
  List.find (fun p => opt_streq (pr_name p) (Some name)) (nd_properties n).

(** ** Admission of a node *)

(** The number a callback returned, with what it stored. *)
Definition checked {A} (r : Z * A) : outcome A := if r.1 <? 0 then Err (- r.1) else Ret r.2.

(** The entries [0 .. n_metas - 1] of the table. *)
Definition metas_of (info : spa_fgn_port_info) : list spa_meta_requirement :=
  take (Z.to_nat (pi_n_metas info)) (default [] (pi_metas info)).

(** The first test of a port. *)
Definition bad_port (d : spa_fgn_descriptor) (info : spa_fgn_port_info) : bool :=
  (pi_struct_size info <? sizeof_port_info) || missing (pi_name info)
  || (SPA_FGN_LOCAL_NAME_MAX <? zlen (default [] (pi_name info)))
  || negb (Z.land (pi_flags info)
             (UINT32_MAX - Z.lor SPA_FGN_PORT_FLAG_OPTIONAL
                             (Z.lor SPA_FGN_PORT_FLAG_PARAMETER SPA_FGN_PORT_FLAG_CONDITIONAL)) =? 0)
  || (has (pi_flags info) SPA_FGN_PORT_FLAG_CONDITIONAL && negb (pi_direction info =? SPA_DIRECTION_OUTPUT))
  || (has (pi_flags info) SPA_FGN_PORT_FLAG_PARAMETER
      && (negb (pi_direction info =? SPA_DIRECTION_INPUT)
          || negb (has (pi_flags info) SPA_FGN_PORT_FLAG_OPTIONAL) || negb (d_prepare_parameter d)))
  || (negb (pi_direction info =? SPA_DIRECTION_INPUT) && negb (pi_direction info =? SPA_DIRECTION_OUTPUT)).

(** The loop over the metadata of a port; [before] are the records that came
    before, [bytes] what they and the header take. *)
Fixpoint metas_loop (before metas : list spa_meta_requirement) (bytes : Z) : outcome unit :=
  match metas with
  | [] => Ret tt
  | r :: metas =>
      if (rq_type r =? SPA_META_Header) || negb (rq_reserved r =? 0)
         || negb (Z.land (rq_flags r) (UINT32_MAX - SPA_META_REQUIREMENT_REQUIRED) =? 0)
         || negb (spa_meta_record_layout_validate (rq_type r) (rq_size r) SPA_FGN_MAX_META_BYTES)
         || (u32 (SPA_FGN_MAX_META_BYTES - bytes) <? round_up_n 32 (rq_size r) 8)
      then Err EINVAL
      else if existsb (fun b => rq_type b =? rq_type r) before then Err EEXIST
      else metas_loop (before ++ [r]) metas (u32 (bytes + round_up_n 32 (rq_size r) 8))
  end.
Notation sizeof_meta_header := 32.

(** The loop over the prepared requirements; [before] came before. *)
Fixpoint effective_loop (declared before metas : list spa_meta_requirement) : outcome unit :=
  match metas with
  | [] => Ret tt
  | r :: metas =>
      if existsb (fun b => rq_type b =? rq_type r) before then Err EEXIST
      else
        match List.find (fun x => rq_type x =? rq_type r) (rev declared) with
        | None => Err EINVAL
        | Some x =>
            if negb (rq_size r =? rq_size x) || negb (rq_reserved r =? 0)
               || negb (Z.land (rq_flags r) (UINT32_MAX - SPA_META_REQUIREMENT_REQUIRED) =? 0)
               || negb (Z.land (rq_flags r) (rq_flags x) =? rq_flags x)
            then Err EINVAL
            else effective_loop declared (before ++ [r]) metas
        end
  end.

Definition with_metas (info : spa_fgn_port_info) (metas : option (list spa_meta_requirement)) : spa_fgn_port_info :=
  mk_port_info (pi_struct_size info) (pi_index info) (pi_direction info) (pi_flags info) (pi_name info)
               (pi_n_metas info) (pi_propagation info) metas.

(** The port's effective description. *)
Definition prepare_port_metadata (d : spa_fgn_descriptor) (instance : Z) (info : spa_fgn_port_info)
  : outcome spa_fgn_port_info :=
  match spa_fgn_descriptor_has_get_port_metadata d, d_get_port_metadata d with
  | true, Some get_port_metadata =>
      let! (metas, n_metas) := checked (get_port_metadata instance (pi_index info)) in
      if (SPA_FGN_MAX_METAS <=? n_metas) || negb (n_metas =? pi_n_metas info) || ((0 <? n_metas) && is_none metas)
      then Err EINVAL
      else
        let! _ := effective_loop (metas_of info) [] (take (Z.to_nat n_metas) (default [] metas)) in
        Ret (with_metas info metas)
  | _, _ => Ret info
  end.

(** One round of the loop over the ports. *)
Definition admit_port (d : spa_fgn_descriptor) (instance : Z) (before : list spa_fgn_port_info)
  (info : spa_fgn_port_info) : outcome fgn_port :=
  if bad_port d info then Err EINVAL
  else if existsb (fun b => (pi_index b =? pi_index info) || opt_streq (pi_name b) (pi_name info)) before
  then Err EEXIST
  else if (SPA_FGN_MAX_METAS <=? pi_n_metas info) || (SPA_META_PROPAGATION_DROP <? pi_propagation info)
          || (negb (pi_n_metas info =? 0) && is_none (pi_metas info))
  then Err EINVAL
  else
    let! _ := metas_loop [] (metas_of info) sizeof_meta_header in
    let! effective := prepare_port_metadata d instance info in
    match d_get_port_format d with
    | None => Fault
    | Some get_port_format =>
        let! format := checked (get_port_format instance (pi_index info)) in
        let! payload_size := format_size format in
        match format with
        | None => Fault
        | Some f =>
            Ret (mk_port effective f payload_size (spa_element_type_size (f_element_type f)) None 0 SPA_ID_INVALID)
        end
    end.

Fixpoint admit_ports (d : spa_fgn_descriptor) (instance : Z) (before infos : list spa_fgn_port_info)
  : outcome (list fgn_port) :=
  match infos with
  | [] => Ret []
  | info :: infos =>
      let! p := admit_port d instance before info in
      let! ps := admit_ports d instance (before ++ [info]) infos in
      Ret (p :: ps)
  end.

(** The records of every other input are on an output that preserves them. *)
Definition preserves (ports : list fgn_port) (out : spa_fgn_port_info) : bool :=
  forallb (fun p =>
    let source := pt_info p in
    if negb (pi_direction source =? SPA_DIRECTION_INPUT) || has (pi_flags source) SPA_FGN_PORT_FLAG_PARAMETER
    then true
    else forallb (fun m =>
           spa_meta_type_is_transport_owned (rq_type m)
           || existsb (fun d => (rq_type m =? rq_type d) && (rq_size m =? rq_size d)) (metas_of out))
         (metas_of source)) ports.

Definition check_propagation (ports : list fgn_port) : outcome unit :=
  if forallb (fun p =>
       let out := pt_info p in
       negb (pi_direction out =? SPA_DIRECTION_OUTPUT) || negb (pi_propagation out =? SPA_META_PROPAGATION_PRESERVE)
       || preserves ports out) ports
  then Ret tt else Err ENOTSUP.

(** The storage of an output: its size, its stride, and the records with their
    place behind [storage->metadata]. *)
Record fgn_storage : Type := mk_storage {
  so_size : Z;
  so_stride : Z;
  so_metas : list spa_meta }.

Fixpoint storage_metas (metas : list spa_meta_requirement) (offset : Z) : outcome (list spa_meta) :=
  match metas with
  | [] => Ret []
  | r :: metas =>
      (* The record is zeroed where it is valid. *)
      if negb (spa_meta_record_layout_validate (rq_type r) (rq_size r) SPA_META_MAX_BYTES) then Err EINVAL
      else
        let! rest := storage_metas metas (u32 (offset + round_up_n 32 (rq_size r) 8)) in
        Ret (mk_meta (rq_type r) (rq_size r) offset :: rest)
  end.

Definition storage_init (f : spa_fgn_format) (size : Z) (info : spa_fgn_port_info) : outcome fgn_storage :=
  let element_size := spa_element_type_size (f_element_type f) in
  let contiguous_axis := if f_layout f =? SPA_NDARRAY_LAYOUT_ROW_MAJOR then u32 (f_n_dimensions f - 1) else 0 in
  let! d := shape_at (default [] (f_shape f)) contiguous_axis in
  let contiguous := u64 (d * element_size) in
  if INT32_MAX <? contiguous then Err EOVERFLOW
  else
    let! metas := storage_metas (metas_of info) 0 in
    Ret (mk_storage size contiguous metas).

Fixpoint init_outputs (ports : list fgn_port) : outcome unit :=
  match ports with
  | [] => Ret tt
  | p :: ports =>
      if pi_direction (pt_info p) =? SPA_DIRECTION_INPUT then init_outputs ports
      else let! _ := storage_init (pt_format p) (pt_payload_size p) (pt_info p) in init_outputs ports
  end.

Notation FGN_MAX_PROPERTIES_PER_NODE := 4096.

(** [for (i = 0; ; i++)]: the properties are added until the plugin has no
    more; the bound on their number ends the loop. *)
Fixpoint enum_loop (fuel : nat) (enum : Z -> Z * spa_fgn_property_info) (i : Z)
  (properties : list spa_fgn_property_info) : outcome (list spa_fgn_property_info) :=
  match fuel with
  | O => Fault
  | S fuel =>
      let '(res, info) := enum i in
      if res =? 0 then Ret properties
      else if res <? 0 then Err (- res)
      else
        let! _ := validate_property_info info in
        if existsb (fun p => (pr_id p =? pr_id info) || opt_streq (pr_name p) (pr_name info)) properties
        then Err EEXIST
        else
          let! _ := next_array_size (zlen properties) FGN_MAX_PROPERTIES_PER_NODE sizeof_property_info in
          enum_loop fuel enum (u32 (i + 1)) (properties ++ [info])
  end.
Definition enum_fuel : nat := Z.to_nat (FGN_MAX_PROPERTIES_PER_NODE + 2).

Definition load_properties (d : spa_fgn_descriptor) (instance : Z) : outcome (list spa_fgn_property_info) :=
  match d_enum_prop_info d with
  | None => Ret []
  | Some enum => enum_loop enum_fuel (enum instance) 0 []
  end.

(** The calls [node_free] makes. *)
Definition node_free (n : fgn_node) : list call :=
  (if negb (nd_initial_prepared n =? 0) && negb (nd_instance n =? 0) && d_discard_props (nd_descriptor n)
   then [Discarded (nd_instance n) (nd_initial_prepared n)] else [])
  ++ (if negb (nd_instance n =? 0) && d_cleanup (nd_descriptor n) then [Cleaned (nd_instance n)] else []).

Definition calls := ST (list call).
Definition note (cs : list call) : calls unit := st_modify (fun l => l ++ cs).

(** [goto error] with the calls that free the node. *)
Definition or_free {A} (n : fgn_node) (m : outcome A) : calls A := fun l =>
  match m with
  | Ret a => (Ret a, l)
  | Err e => (Err e, l ++ node_free n)
  | Fault => (Fault, l)
  end.

(** The descriptor has the callbacks that belong together. *)
Definition bad_descriptor (d : spa_fgn_descriptor) (label : list byte) : bool :=
  (d_struct_size d <? SPA_FGN_DESCRIPTOR_ABI_V7_SIZE) || negb (d_version d =? SPA_FGN_PLUGIN_ABI_VERSION)
  || negb (opt_streq (d_name d) (Some label)) || (SPA_FGN_LOCAL_NAME_MAX <? zlen (default [] (d_name d)))
  || (FGN_MAX_PORTS_PER_NODE <? d_n_ports d) || is_none (d_ports d) || is_none (d_instantiate d)
  || negb (d_cleanup d) || is_none (d_get_port_format d)
  || (negb (is_none (d_enum_prop_info d)) && is_none (d_get_prop d))
  || ((negb (is_none (d_prepare_props d)) || d_commit_props d || d_discard_props d)
      && (is_none (d_prepare_props d) || negb (d_commit_props d) || negb (d_discard_props d)))
  || ((d_prepare_parameter d || d_commit_parameter d || d_discard_parameter d)
      && (negb (d_prepare_parameter d) || negb (d_commit_parameter d) || negb (d_discard_parameter d)))
  || ((d_prepare_parameters d || d_adopt_parameters d)
      && (negb (d_prepare_parameters d) || negb (d_adopt_parameters d) || negb (d_commit_parameter d)
          || negb (d_discard_parameter d)))
  || negb (d_process d).

Definition bad_plugin (p : spa_fgn_plugin) : bool :=
  (pl_struct_size p <? sizeof_plugin) || negb (pl_abi_version p =? SPA_FGN_PLUGIN_ABI_VERSION)
  || missing (pl_name p) || is_none (pl_find_descriptor p)
  || negb (Z.land (pl_flags p) (UINT32_MAX - SPA_FGN_PLUGIN_FLAG_RETAIN_LIBRARY) =? 0).

(** The positions of the ports of a direction, in their order. *)
Fixpoint positions (f : fgn_port -> bool) (i : nat) (ports : list fgn_port) : list nat :=
  match ports with
  | [] => []
  | p :: ports => if f p then i :: positions f (S i) ports else positions f (S i) ports
  end.
Definition is_input (p : fgn_port) : bool := pi_direction (pt_info p) =? SPA_DIRECTION_INPUT.

(** ** Initial properties *)

Section Load.
Context (text : list byte).
Context (strtof strtod : list byte -> option Z).
(** [canonicalize_json_object]. *)
Context (canonicalize : spa_json -> token -> option (list byte)).
(** The path of a library, the entry point and what it answers; [None] for a
    library that cannot be opened. *)
Context (dlopen : list byte -> option (option (Z -> option spa_fgn_plugin))).

(** The loop over the members of the object; every round reads a member. *)
Fixpoint initial_loop (fuel : nat) (n : fgn_node) (props : list spa_fgn_property)
  : ST json_stack (outcome (list spa_fgn_property)) :=
  match fuel with
  | O => fun st => (Fault, st)
  | S fuel =>
      let* r := spa_json_object_next text 256 in
      match r with
      | NoMember res => st_ret (if res <? 0 then Err EINVAL else Ret props)
      | Member key t =>
          match find_property n (to_cstr key) with
          | None => st_ret (Err ENOENT)
          | Some info =>
              if negb (has (pr_flags info) SPA_FGN_PROPERTY_FLAG_RUNTIME) then st_ret (Err EPERM)
              else if existsb (fun p => as_id p =? pr_id info) props then st_ret (Err EEXIST)
              else
                match next_array_size (zlen props) FGN_MAX_PROPERTIES_PER_NODE 24 with
                | Ret _ =>
                    match value_from_json strtof strtod info text t with
                    | Ret v => initial_loop fuel n (props ++ [mk_property (pr_id info) v])
                    | Err e => st_ret (Err e)
                    | Fault => fun st => (Fault, st)
                    end
                | Err e => st_ret (Err e)
                | Fault => fun st => (Fault, st)
                end
          end
      end
  end.

(** [Ret] with what [node->initial_prepared] is then.  The calls are those of
    the plugin. *)
Definition node_prepare_initial_props (n : fgn_node) (props : json_stack) : calls Z := fun l =>
  match initial_loop (json_fuel props) n [] props with
  | (Ret (Ret []), _) => (Ret 0, l)
  | (Ret (Ret ps), _) =>
      match d_prepare_props (nd_descriptor n), d_commit_props (nd_descriptor n) with
      | Some prepare, true =>
          let '(res, prepared) := prepare (nd_instance n) ps in
          let l := if prepared =? 0 then l else l ++ [Prepared (nd_instance n) prepared] in
          if res <? 0 then
            (Err (- res), if negb (prepared =? 0) && d_discard_props (nd_descriptor n)
                          then l ++ [Discarded (nd_instance n) prepared] else l)
          else (Ret prepared, l)
      | _, _ => (Err ENOTSUP, l)
      end
  | (Ret (Err e), _) => (Err e, l)
  | (Ret Fault, _) | (Err _, _) | (Fault, _) => (Fault, l)
  end.

(** ** Nodes *)

Record node_config : Type := mk_config {
  c_name : list byte;
  c_plugin : list byte;
  c_label : list byte;
  c_config : option (list byte);
  c_props : option json_stack }.

(** A string member of at most [size] bytes with its terminator. *)
Definition string_member (t : token) (size : Z) : outcome (list byte) :=
  match spa_json_parse_stringn text t size with
  | Ret s => Ret (to_cstr s)
  | Err _ => Err EINVAL
  | Fault => Fault
  end.

(** One member of the object of a node; [st] is the iterator behind it. *)
Definition node_member (c : node_config) (key : list byte) (t : token) (st : json_stack) : outcome node_config :=
  if spa_streq key (str "name") then
    let! s := string_member t 256 in Ret (mk_config s (c_plugin c) (c_label c) (c_config c) (c_props c))
  else if spa_streq key (str "plugin") then
    let! s := string_member t 1024 in Ret (mk_config (c_name c) s (c_label c) (c_config c) (c_props c))
  else if spa_streq key (str "label") then
    let! s := string_member t 256 in Ret (mk_config (c_name c) (c_plugin c) s (c_config c) (c_props c))
  else if spa_streq key (str "type") then
    let! s := string_member t 64 in if spa_streq s (str "ndarray") then Ret c else Err EINVAL
  else if spa_streq key (str "config") then
    match c_config c, canonicalize (top st) t with
    | None, Some s => Ret (mk_config (c_name c) (c_plugin c) (c_label c) (Some s) (c_props c))
    | _, _ => Err EINVAL
    end
  else if spa_streq key (str "props") then
    if spa_json_is_object (token_bytes text t)
    then Ret (mk_config (c_name c) (c_plugin c) (c_label c) (c_config c) (Some (spa_json_enter st)))
    else Err EINVAL
  else Err EINVAL.

Fixpoint node_members (fuel : nat) (c : node_config) : ST json_stack (outcome node_config) :=
  match fuel with
  | O => fun st => (Fault, st)
  | S fuel =>
      let* r := spa_json_object_next text 256 in
      match r with
      | NoMember _ => st_ret (Ret c)
      | Member key t => fun st =>
          match node_member c (to_cstr key) t st with
          | Ret c => node_members fuel c st
          | Err e => (Ret (Err e), st)
          | Fault => (Fault, st)
          end
      end
  end.

(** The plugin and the descriptor of a node. *)
Definition find_plugin (path label : list byte) : outcome spa_fgn_descriptor :=
  match dlopen path with
  | None => Err ENOENT
  | Some None => Err ENOTSUP
  | Some (Some entry) =>
      match entry SPA_FGN_PLUGIN_ABI_VERSION with
      | None => Err ENOTSUP
      | Some p =>
          if bad_plugin p then Err ENOTSUP
          else
            match pl_find_descriptor p with
            | None => Err ENOTSUP
            | Some find_descriptor =>
                match find_descriptor label with
                | None => Err ENOTSUP
                | Some d => if bad_descriptor d label then Err ENOTSUP else Ret d
                end
            end
      end
  end.

(** A node of which the ports are admitted. *)
Definition new_node (name : list byte) (d : spa_fgn_descriptor) (instance : Z) (ports : list fgn_port)
  (properties : list spa_fgn_property_info) (prepared : Z) : fgn_node :=
  mk_node name d instance ports (positions is_input 0 ports) (positions (fun p => negb (is_input p)) 0 ports)
          properties prepared 0.

Definition add_node (n : fgn_node) (g : spa_fgn_graph) : spa_fgn_graph :=
  mk_graph (gr_nodes g ++ [n]) (gr_links g) (gr_order g) (gr_inputs g) (gr_outputs g).

(** What [instantiate] leaves is one of: an error, no error and no instance,
    an instance.  In the second case the function returns what
    [instantiate] returned, and the node is not added. *)
Definition load_node_config (g : spa_fgn_graph) (c : node_config) : calls spa_fgn_graph :=
  if (zlen (c_name c) =? 0) || (zlen (c_plugin c) =? 0) || (zlen (c_label c) =? 0)
     || negb (is_none (find_node g (c_name c)))
  then st_err EINVAL
  else
    let* d := st_lift (find_plugin (c_plugin c) (c_label c)) in
    match d_instantiate d with
    | None => fun l => (Fault, l)
    | Some instantiate =>
        let '(res, instance) := instantiate (default (str "{}") (c_config c)) in
        let* _ := (if instance =? 0 then st_ret tt else note [Instantiated instance]) in
        let free := new_node (c_name c) d instance [] [] 0 in
        if res <? 0 then or_free free (Err (- res))
        else if instance =? 0 then st_ret g
        else
          let* ports := or_free free (admit_ports d instance [] (take (Z.to_nat (d_n_ports d)) (default [] (d_ports d)))) in
          let* _ := or_free free (check_propagation ports) in
          let* _ := or_free free (init_outputs ports) in
          let* properties := or_free free (load_properties d instance) in
          let n := new_node (c_name c) d instance ports properties 0 in
          let* prepared :=
            match c_props c with
            | None => st_ret 0
            | Some props => fun l =>
                match node_prepare_initial_props n props l with
                | (Err e, l) => (Err e, l ++ node_free n)
                | r => r
                end
            end in
          let n := new_node (c_name c) d instance ports properties prepared in
          let* _ := or_free n (next_array_size (zlen (gr_nodes g)) FGN_MAX_NODES 8) in
          st_ret (add_node n g)
    end.

(** The node of the object [json] enters. *)
Definition load_node (g : spa_fgn_graph) (json : json_stack) : calls (spa_fgn_graph * json_stack) := fun l =>
  match node_members (json_fuel json) (mk_config [] [] [] None None) json with
  | (Ret (Ret c), json) =>
      match load_node_config g c l with
      | (Ret g, l) => (Ret (g, json), l)
      | (Err e, l) => (Err e, l)
      | (Fault, l) => (Fault, l)
      end
  | (Ret (Err e), _) => (Err e, l)
  | (_, _) => (Fault, l)
  end.

(** ** Links *)

(** The members of the object of a link. *)
Fixpoint link_members (fuel : nat) (output input : list byte) : ST json_stack (outcome (list byte * list byte)) :=
  match fuel with
  | O => fun st => (Fault, st)
  | S fuel =>
      let* r := spa_json_object_next text 256 in
      match r with
      | NoMember _ => st_ret (Ret (output, input))
      | Member key t => fun st =>
          if spa_streq (to_cstr key) (str "output") then
            match string_member t 512 with
            | Ret s => link_members fuel s input st
            | Err e => (Ret (Err e), st)
            | Fault => (Fault, st)
            end
          else if spa_streq (to_cstr key) (str "input") then
            match string_member t 512 with
            | Ret s => link_members fuel output s st
            | Err e => (Ret (Err e), st)
            | Fault => (Fault, st)
            end
          else (Ret (Err EINVAL), st)
      end
  end.
End Load.

(** The records the input requires are on the output. *)
Definition metas_offered (out_info in_info : spa_fgn_port_info) : bool :=
  forallb (fun r =>
    negb (has (rq_flags r) SPA_META_REQUIREMENT_REQUIRED)
    || existsb (fun o => (rq_type o =? rq_type r) && (rq_size o =? rq_size r)) (metas_of out_info))
  (metas_of in_info).

Definition add_link (o i : port_ref) (g : spa_fgn_graph) : spa_fgn_graph :=
  let g := mk_graph (gr_nodes g) (gr_links g ++ [(o, i)]) (gr_order g) (gr_inputs g) (gr_outputs g) in
  let g := update_port (set_source o) i g in
  let g := update_port add_consumer o g in
  update_node add_indegree i.1 g.

Definition link_ports (g : spa_fgn_graph) (output input : list byte) : outcome spa_fgn_graph :=
  match resolve_port g output SPA_DIRECTION_OUTPUT, resolve_port g input SPA_DIRECTION_INPUT with
  | Some o, Some i =>
      match port_at g o, port_at g i with
      | Some out_port, Some in_port =>
          if has (pi_flags (pt_info in_port)) SPA_FGN_PORT_FLAG_PARAMETER then Err ENOTSUP
          else if negb (is_none (pt_source in_port)) || negb (pt_external in_port =? SPA_ID_INVALID) then Err EBUSY
          else
            let! equal := format_equal (pt_format out_port) (pt_format in_port) in
            if negb equal then Err EINVAL
            else if negb (metas_offered (pt_info out_port) (pt_info in_port)) then Err ENOTSUP
            else
              let! _ := next_array_size (zlen (gr_links g)) FGN_MAX_LINKS 16 in
              Ret (add_link o i g)
      | _, _ => Fault
      end
  | _, _ => Err ENOENT
  end.

Definition load_link (text : list byte) (g : spa_fgn_graph) (json : json_stack) : outcome (spa_fgn_graph * json_stack) :=
  match link_members text (json_fuel json) [] [] json with
  | (Ret (Ret (output, input)), json) => let! g := link_ports g output input in Ret (g, json)
  | (Ret (Err e), _) => Err e
  | (_, _) => Fault
  end.

(** ** External ports *)

Definition externals (direction : Z) (g : spa_fgn_graph) : list port_ref :=
  if direction =? SPA_DIRECTION_INPUT then gr_inputs g else gr_outputs g.

Definition add_external (direction : Z) (r : port_ref) (g : spa_fgn_graph) : spa_fgn_graph :=
  let g := update_port (set_external (zlen (externals direction g))) r g in
  if direction =? SPA_DIRECTION_INPUT
  then mk_graph (gr_nodes g) (gr_links g) (gr_order g) (gr_inputs g ++ [r]) (gr_outputs g)
  else mk_graph (gr_nodes g) (gr_links g) (gr_order g) (gr_inputs g) (gr_outputs g ++ [r]).

(** One reference to an external port. *)
Definition load_external (direction : Z) (g : spa_fgn_graph) (reference : list byte) : outcome spa_fgn_graph :=
  match resolve_port g reference direction with
  | None => Err EINVAL
  | Some r =>
      match port_at g r with
      | None => Fault
      | Some p =>
          if negb (pt_external p =? SPA_ID_INVALID)
             || ((direction =? SPA_DIRECTION_INPUT) && negb (is_none (pt_source p)))
          then Err EINVAL
          else
            let! _ := next_array_size (zlen (externals direction g)) FGN_MAX_EXTERNAL_PORTS 8 in
            Ret (add_external direction r g)
      end
  end.

(** [while (spa_json_get_string(json, reference, 512) > 0)]. *)
Fixpoint external_loop (fuel : nat) (text : list byte) (direction : Z) (g : spa_fgn_graph)
  : ST json_stack (outcome spa_fgn_graph) :=
  match fuel with
  | O => fun st => (Fault, st)
  | S fuel =>
      let* r := spa_json_get_string text 512 in
      match r with
      | NotGot _ => st_ret (Ret g)
      | Got s => fun st =>
          match load_external direction g (to_cstr s) with
          | Ret g => external_loop fuel text direction g st
          | Err e => (Ret (Err e), st)
          | Fault => (Fault, st)
          end
      end
  end.
Definition load_external_ports (text : list byte) (g : spa_fgn_graph) (json : json_stack) (direction : Z)
  : outcome spa_fgn_graph :=
  match external_loop (json_fuel json) text direction g json with
  | (Ret r, _) => r
  | (_, _) => Fault
  end.

(** The loop over the ports [js] of the node at [k]. *)
Fixpoint default_loop (direction : Z) (k : nat) (js : list nat) (g : spa_fgn_graph) : outcome spa_fgn_graph :=
  match js with
  | [] => Ret g
  | j :: js =>
      match port_at g (k, j) with
      | None => Fault
      | Some p =>
          if (direction =? SPA_DIRECTION_INPUT) && negb (is_none (pt_source p)) then default_loop direction k js g
          else
            let! _ := next_array_size (zlen (externals direction g)) FGN_MAX_EXTERNAL_PORTS 8 in
            default_loop direction k js (add_external direction (k, j) g)
      end
  end.
Definition load_default_ports (g : spa_fgn_graph) (direction : Z) : outcome spa_fgn_graph :=
  let k := if direction =? SPA_DIRECTION_INPUT then O else (List.length (gr_nodes g) - 1)%nat in
  match gr_nodes g !! k with
  | None => Fault
  | Some n => default_loop direction k (if direction =? SPA_DIRECTION_INPUT then nd_inputs n else nd_outputs n) g
  end.

(** ** The execution order *)

(** The loop over the links: one less for every link that leaves [node]. *)
Fixpoint relax (node : nat) (links : list (port_ref * port_ref)) (indegree : list Z) : list Z :=
  match links with
  | [] => indegree
  | (o, i) :: links =>
      relax node links
        (if Nat.eqb o.1 node then alter (fun d => if 0 <? d then u32 (d - 1) else d) i.1 indegree else indegree)
  end.

Record sorting : Type := mk_sorting {
  order : list nat;
  indegree : list Z;
  progress : bool }.

(** One node of a pass. *)
Definition sort_node (links : list (port_ref * port_ref)) (s : sorting) (i : nat) : sorting :=
  if negb (default 0 (indegree s !! i) =? 0) then s
  else if existsb (Nat.eqb i) (order s) then s
  else mk_sorting (order s ++ [i]) (relax i links (indegree s)) true.

Definition sort_pass (n : nat) (links : list (port_ref * port_ref)) (s : sorting) : sorting :=
  foldl (sort_node links) (mk_sorting (order s) (indegree s) false) (seq 0 n).

(** [do ... while (progress && done < graph->n_nodes)]; every pass but the last
    places a node. *)
Fixpoint sort_loop (fuel n : nat) (links : list (port_ref * port_ref)) (s : sorting) : outcome (list nat) :=
  match fuel with
  | O => Fault
  | S fuel =>
      let s := sort_pass n links s in
      if progress s && Nat.ltb (List.length (order s)) n then sort_loop fuel n links s
      else if Nat.eqb (List.length (order s)) n then Ret (order s)
      else Err ELOOP
  end.

Definition set_order (o : list nat) (g : spa_fgn_graph) : spa_fgn_graph :=
  mk_graph (gr_nodes g) (gr_links g) o (gr_inputs g) (gr_outputs g).

Definition sort_graph (g : spa_fgn_graph) : outcome spa_fgn_graph :=
  let n := List.length (gr_nodes g) in
  let! o := sort_loop (S n) n (gr_links g) (mk_sorting [] (map nd_indegree (gr_nodes g)) false) in
  Ret (set_order o g).

(** ** Validation *)

Definition node_ports (n : fgn_node) (js : list nat) : list fgn_port := omap (fun j => nd_ports n !! j) js.

(** The required input of the port's node, fed by a conditional output at the
    port's rate. *)
Definition input_gated_by_conditional_output (g : spa_fgn_graph) (n : fgn_node) (p : fgn_port) : bool :=
  existsb (fun input =>
    match pt_source input with
    | None => false
    | Some r =>
        match port_at g r with
        | None => false
        | Some source =>
            negb (has (pi_flags (pt_info input)) SPA_FGN_PORT_FLAG_OPTIONAL)
            && has (pi_flags (pt_info source)) SPA_FGN_PORT_FLAG_CONDITIONAL
            && format_rate_equal (pt_format source) (pt_format p)
        end
    end) (node_ports n (nd_inputs n)).

(** The ports have one rate, of those that have a rate: the first one, or
    [-EINVAL]. *)
Fixpoint common_rate (rate : option spa_fgn_format) (ps : list fgn_port) : outcome (option spa_fgn_format) :=
  match ps with
  | [] => Ret rate
  | p :: ps =>
      match rate with
      | None => common_rate (Some (pt_format p)) ps
      | Some f => if format_rate_equal f (pt_format p) then common_rate rate ps else Err EINVAL
      end
  end.

(** A port whose rate is not looked at. *)
Definition unrated (p : fgn_port) : bool :=
  has (pi_flags (pt_info p)) SPA_FGN_PORT_FLAG_PARAMETER || negb (format_has_rate (pt_format p)).

(** The loop over the inputs of a node: every required one is connected, and
    they have one rate. *)
Fixpoint inputs_loop (rate : option spa_fgn_format) (ps : list fgn_port) : outcome (option spa_fgn_format) :=
  match ps with
  | [] => Ret rate
  | p :: ps =>
      if is_none (pt_source p) && (pt_external p =? SPA_ID_INVALID)
         && negb (has (pi_flags (pt_info p)) SPA_FGN_PORT_FLAG_OPTIONAL)
      then Err ENOTCONN
      else if unrated p then inputs_loop rate ps
      else match rate with
           | None => inputs_loop (Some (pt_format p)) ps
           | Some f => if format_rate_equal f (pt_format p) then inputs_loop rate ps else Err EINVAL
           end
  end.

Definition outputs_ok (rate : option spa_fgn_format) (ps : list fgn_port) : bool :=
  match rate with
  | None => true
  | Some f =>
      forallb (fun p => negb (format_has_rate (pt_format p)) || format_rate_equal f (pt_format p)
                        || has (pi_flags (pt_info p)) SPA_FGN_PORT_FLAG_CONDITIONAL) ps
  end.

Fixpoint nodes_loop (ns : list fgn_node) : outcome unit :=
  match ns with
  | [] => Ret tt
  | n :: ns =>
      let! rate := inputs_loop None (node_ports n (nd_inputs n)) in
      if outputs_ok rate (node_ports n (nd_outputs n)) then nodes_loop ns else Err EINVAL
  end.

(** The external inputs that decide the rate of the graph. *)
Definition activating (g : spa_fgn_graph) (r : port_ref) : option fgn_port :=
  match gr_nodes g !! r.1, port_at g r with
  | Some n, Some p => if unrated p || input_gated_by_conditional_output g n p then None else Some p
  | _, _ => None
  end.

Definition validate_graph (g : spa_fgn_graph) : outcome unit :=
  match gr_inputs g, gr_outputs g with
  | [], [] => Err EINVAL
  | _, _ =>
      let! _ := common_rate None (omap (activating g) (gr_inputs g)) in
      nodes_loop (gr_nodes g)
  end.

(** ** A graph from its configuration *)

(** The prepared objects of the nodes, which the nodes then no longer have. *)
Definition initial_transactions (g : spa_fgn_graph) : list (nat * Z) :=
  omap (fun kn => if nd_initial_prepared kn.2 =? 0 then None else Some (kn.1, nd_initial_prepared kn.2))
       (imap pair (gr_nodes g)).
Definition take_prepared (n : fgn_node) : fgn_node :=
  mk_node (nd_name n) (nd_descriptor n) (nd_instance n) (nd_ports n) (nd_inputs n) (nd_outputs n)
          (nd_properties n) 0 (nd_indegree n).
Definition queue_initial_property_transaction (g : spa_fgn_graph) : spa_fgn_graph * list (nat * Z) :=
  (mk_graph (map take_prepared (gr_nodes g)) (gr_links g) (gr_order g) (gr_inputs g) (gr_outputs g),
   initial_transactions g).

(** The graph behind the nodes and the links: external ports, validation and
    order. *)
Definition finish_graph (text : list byte) (inputs outputs : option json_stack) (g : spa_fgn_graph)
  : outcome spa_fgn_graph :=
  let! g := match inputs with Some j => load_external_ports text g j SPA_DIRECTION_INPUT | None => Ret g end in
  let! g := match outputs with Some j => load_external_ports text g j SPA_DIRECTION_OUTPUT | None => Ret g end in
  let! g := match inputs with None => load_default_ports g SPA_DIRECTION_INPUT | Some _ => Ret g end in
  let! g := match outputs with None => load_default_ports g SPA_DIRECTION_OUTPUT | Some _ => Ret g end in
  let! _ := validate_graph g in
  sort_graph g.

(** Back to the iterator a sub-iterator was entered from. *)
Definition leave (st : json_stack) : json_stack :=
  match up st with it :: ps => mk_stack it ps | [] => st end.

Definition empty_graph : spa_fgn_graph := mk_graph [] [] [] [] [].

(** What [spa_fgn_graph_free] calls for the nodes, from the last one. *)
Definition free_nodes (g : spa_fgn_graph) : list call := List.concat (map node_free (rev (gr_nodes g))).

Section New.
Context (text : list byte).
Context (strtof strtod : list byte -> option Z).
Context (canonicalize : spa_json -> token -> option (list byte)).
Context (dlopen : list byte -> option (option (Z -> option spa_fgn_plugin))).

Notation SPA_FGN_EXECUTOR_MAX_HELPERS := 63.

Fixpoint workers_loop (fuel : nat) (n_helpers : option Z) : ST json_stack (outcome Z) :=
  match fuel with
  | O => fun st => (Fault, st)
  | S fuel =>
      let* r := spa_json_object_next text 256 in
      match r with
      | NoMember _ => st_ret (match n_helpers with Some n => Ret n | None => Err EINVAL end)
      | Member key t =>
          if negb (spa_streq (to_cstr key) (str "helpers")) || negb (is_none n_helpers) then st_ret (Err EINVAL)
          else
            match spa_json_parse_int (token_bytes text t) with
            | None => st_ret (Err EINVAL)
            | Some value =>
                if (value <? 0) || (SPA_FGN_EXECUTOR_MAX_HELPERS <? value) then st_ret (Err EINVAL)
                else workers_loop fuel (Some value)
            end
      end
  end.

(** The number of helpers, and the iterator behind the object. *)
Definition parse_workers (st : json_stack) (t : token) : outcome (Z * json_stack) :=
  if negb (spa_json_is_object (token_bytes text t)) then Err EINVAL
  else
    let sub := spa_json_enter st in
    match workers_loop (json_fuel sub) None sub with
    | (Ret (Ret n), sub) => Ret (n, leave sub)
    | (Ret (Err e), _) => Err e
    | (_, _) => Fault
    end.

Record top_config : Type := mk_top {
  t_workers : option Z;
  t_nodes : option json_stack;
  t_links : option json_stack;
  t_inputs : option json_stack;
  t_outputs : option json_stack }.

(** A list of the configuration, which may be given once. *)
Definition enter_list (present : option json_stack) (t : token) (st : json_stack) : outcome (option json_stack) :=
  if negb (is_none present) || negb (spa_json_is_array (token_bytes text t)) then Err EINVAL
  else Ret (Some (spa_json_enter st)).

Definition top_member (c : top_config) (key : list byte) (t : token) (st : json_stack)
  : outcome (top_config * json_stack) :=
  if spa_streq key (str "workers") then
    if negb (is_none (t_workers c)) then Err EINVAL
    else
      let! (n, st) := parse_workers st t in
      Ret (mk_top (Some n) (t_nodes c) (t_links c) (t_inputs c) (t_outputs c), st)
  else if spa_streq key (str "nodes") then
    let! j := enter_list (t_nodes c) t st in
    Ret (mk_top (t_workers c) j (t_links c) (t_inputs c) (t_outputs c), st)
  else if spa_streq key (str "links") then
    let! j := enter_list (t_links c) t st in
    Ret (mk_top (t_workers c) (t_nodes c) j (t_inputs c) (t_outputs c), st)
  else if spa_streq key (str "inputs") then
    let! j := enter_list (t_inputs c) t st in
    Ret (mk_top (t_workers c) (t_nodes c) (t_links c) j (t_outputs c), st)
  else if spa_streq key (str "outputs") then
    let! j := enter_list (t_outputs c) t st in
    Ret (mk_top (t_workers c) (t_nodes c) (t_links c) (t_inputs c) j, st)
  else Err EINVAL.

Fixpoint top_loop (fuel : nat) (c : top_config) (st : json_stack) : outcome top_config :=
  match fuel with
  | O => Fault
  | S fuel =>
      match spa_json_object_next text 256 st with
      | (Ret (NoMember _), _) => Ret c
      | (Ret (Member key t), st) =>
          let! (c, st) := top_member c (to_cstr key) t st in
          top_loop fuel c st
      | (_, _) => Fault
      end
  end.

(** The loops over the objects of a list.  When a node fails the nodes before
    it are freed with the graph. *)
Fixpoint load_nodes (fuel : nat) (g : spa_fgn_graph) (nodes : json_stack) : calls spa_fgn_graph := fun l =>
  match fuel with
  | O => (Fault, l)
  | S fuel =>
      match spa_json_enter_container text "{" nodes with
      | (Ret res, nodes) =>
          if res <=? 0 then (Ret g, l)
          else
            match load_node text strtof strtod canonicalize dlopen g (spa_json_enter nodes) l with
            | (Ret (g, child), l) => load_nodes fuel g (leave child) l
            | (Err e, l) => (Err e, l ++ free_nodes g)
            | (Fault, l) => (Fault, l)
            end
      | (_, _) => (Fault, l)
      end
  end.

Fixpoint load_links (fuel : nat) (g : spa_fgn_graph) (links : json_stack) : outcome spa_fgn_graph :=
  match fuel with
  | O => Fault
  | S fuel =>
      match spa_json_enter_container text "{" links with
      | (Ret res, links) =>
          if res <=? 0 then Ret g
          else
            let! (g, child) := load_link text g (spa_json_enter links) in
            load_links fuel g (leave child)
      | (_, _) => Fault
      end
  end.

(** A step behind the nodes; an error frees the graph. *)
Definition or_free_graph {A} (g : spa_fgn_graph) (m : outcome A) : calls A := fun l =>
  match m with
  | Ret a => (Ret a, l)
  | Err e => (Err e, l ++ free_nodes g)
  | Fault => (Fault, l)
  end.

(** The graph, the helpers of its worker group and its first transaction. *)
Definition spa_fgn_graph_new : calls (spa_fgn_graph * Z * list (nat * Z)) :=
  let* (res, top) := st_lift (spa_json_begin_object text 0 (zlen text)) in
  if res <=? 0 then st_err EINVAL
  else
    let* c := st_lift (top_loop (json_fuel top) (mk_top None None None None None) top) in
    match t_nodes c with
    | None => st_err EINVAL
    | Some nodes =>
        let* g := load_nodes (json_fuel nodes) empty_graph nodes in
        if zlen (gr_nodes g) =? 0 then st_err EINVAL
        else
          let* g' := or_free_graph g (match t_links c with Some links => load_links (json_fuel links) g links
                                                    | None => Ret g end) in
          let* g' := or_free_graph g' (finish_graph text (t_inputs c) (t_outputs c) g') in
          let '(g', transactions) := queue_initial_property_transaction g' in
          st_ret (g', default 0 (t_workers c), transactions)
    end.
End New.
