(* ===== verification/GraphOrder.v ===== *)
(** * The execution order of the ndarray filter graph

    [sort_graph] of [spa/plugins/filter-graph/filter-graph-ndarray.c] places a
    node when no link from an unplaced node enters it, in passes over the nodes
    until a pass places none.  The order it stores is a permutation of the nodes
    in which a link's output node comes before its input node, and it refuses
    exactly the graphs with a cycle. *)
From stdpp Require Import relations.
From S2P Require Import Prelude Bytes CString Json NdarrayFormat BufferAlloc MetaRecords GraphProps FilterGraph.
#[local] Open Scope Z_scope.

Notation link_list := (list (port_ref * port_ref)).

(** A link leads from node [a] to node [b]. *)
Definition edge (links : link_list) (a b : nat) : Prop :=
  exists l, l ∈ links /\ l.1.1 = a /\ l.2.1 = b.

(** The links into [k] from nodes outside [placed]. *)
Definition pending (links : link_list) (placed : list nat) (k : nat) : nat :=
  List.length (filter (fun l : port_ref * port_ref => l.2.1 = k /\ l.1.1 ∉ placed) links).

Definition links_between (links : link_list) (a b : nat) : nat :=
  List.length (filter (fun l : port_ref * port_ref => l.1.1 = a /\ l.2.1 = b) links).

(** The links lead between nodes of the graph and the counters of the nodes
    agree with them. *)
Record links_counted (g : spa_fgn_graph) : Prop := {
  lc_number : Z.of_nat (List.length (gr_links g)) < 2 ^ 32;
  lc_ends : Forall (fun l => (l.1.1 < List.length (gr_nodes g))%nat /\ (l.2.1 < List.length (gr_nodes g))%nat)
              (gr_links g);
  lc_indegree : forall k n, gr_nodes g !! k = Some n -> nd_indegree n = Z.of_nat (pending (gr_links g) [] k) }.

(** Every link goes forward in the order. *)
Definition topological (links : link_list) (o : list nat) : Prop :=
  forall j a b, edge links a b -> o !! j = Some b -> exists i, (i < j)%nat /\ o !! i = Some a.

Definition acyclic (links : link_list) : Prop := Irreflexive (tc (edge links)).

Record sorted_upto (n : nat) (links : link_list) (s : sorting) : Prop := {
  so_nodup : NoDup (order s);
  so_nodes : forall k, k ∈ order s -> (k < n)%nat;
  so_indegree : forall k, (k < n)%nat -> indegree s !! k = Some (Z.of_nat (pending links (order s) k));
  so_topological : topological links (order s) }.

(** ** Counting links *)

Lemma pending_le (links : link_list) (placed : list nat) (k : nat) :
  (pending links placed k <= List.length links)%nat.
Proof. apply length_filter. Qed.

Lemma pending_place (links : link_list) (placed : list nat) (i k : nat) : i ∉ placed ->
  pending links placed k = (pending links (placed ++ [i]) k + links_between links i k)%nat.
Proof.
  intros Hi. unfold pending, links_between. induction links as [|l links IH]; [done|].
  rewrite !filter_cons. repeat case_decide; cbn [List.length]; rewrite ?IH; try lia;
    exfalso; rewrite elem_of_app, list_elem_of_singleton in *; intuition congruence.
Qed.

Lemma pending_zero (links : link_list) (placed : list nat) (k : nat) :
  pending links placed k = 0%nat -> forall a, edge links a k -> a ∈ placed.
Proof.
  unfold pending. intros H a (l & Hl & <- & Hk). apply List.length_zero_iff_nil in H.
  destruct (decide (l.1.1 ∈ placed)) as [|Hn]; [done|].
  assert (l ∈ filter (fun l : port_ref * port_ref => l.2.1 = k /\ l.1.1 ∉ placed) links) as Hin.
  { by apply list_elem_of_filter. }
  rewrite H in Hin. set_solver.
Qed.

Lemma pending_pos (links : link_list) (placed : list nat) (k : nat) :
  pending links placed k <> 0%nat -> exists a, edge links a k /\ a ∉ placed.
Proof.
  unfold pending. intros H.
  destruct (filter _ links) as [|l ls] eqn:E; [done|].
  assert (l ∈ filter (fun l : port_ref * port_ref => l.2.1 = k /\ l.1.1 ∉ placed) links) as Hin
    by (rewrite E; set_solver).
  apply list_elem_of_filter in Hin as [[<- Hn] Hl]. exists l.1.1. split; [|done]. by exists l.
Qed.

(** The loop over the links takes off one for every link out of the node. *)
Lemma relax_lookup (n node : nat) (links : link_list) (c : nat -> nat) : forall ind : list Z,
  (forall k, Z.of_nat (c k + links_between links node k) < 2 ^ 32) ->
  (forall k, (k < n)%nat -> ind !! k = Some (Z.of_nat (c k + links_between links node k))) ->
  forall k, (k < n)%nat -> relax node links ind !! k = Some (Z.of_nat (c k)).
Proof.
  induction links as [|[o i] links IH]; intros ind Hb Hind k Hk.
  { rewrite Hind by done. f_equal. unfold links_between. cbn. lia. }
  cbn [relax]. apply IH; [| |done].
  - intros j. specialize (Hb j). unfold links_between in Hb |- *. rewrite filter_cons in Hb.
    case_decide; cbn [List.length] in Hb; lia.
  - intros j Hj. specialize (Hb j). specialize (Hind j Hj). unfold links_between in Hb, Hind |- *.
    rewrite filter_cons in Hb, Hind. cbn [fst snd] in Hb, Hind.
    destruct (Nat.eqb_spec o.1 node) as [Ho|Ho].
    + destruct (decide (i.1 = j)) as [<-|Hne].
      * rewrite decide_True in Hb, Hind by done. rewrite list_lookup_alter_eq, Hind.
        cbn [fmap option_fmap option_map]. rewrite List.length_cons in Hb |- *.
        rewrite (proj2 (Z.ltb_lt _ _)), wrap_small by lia. f_equal. lia.
      * rewrite list_lookup_alter_ne, Hind, decide_False by (done || tauto). done.
    + rewrite Hind, decide_False by tauto. done.
Qed.

(** ** Passes *)

Section Sort.
Context (n : nat) (links : link_list).
Context (Hnumber : Z.of_nat (List.length links) < 2 ^ 32).

Lemma topological_place (o : list nat) (k : nat) : topological links o ->
  (forall a, edge links a k -> a ∈ o) -> topological links (o ++ [k]).
Proof.
  intros Ht Hk j a b He Hb. destruct (decide (j < List.length o)%nat) as [Hj|Hj].
  - rewrite lookup_app_l in Hb by done. destruct (Ht j a b He Hb) as (i & Hi & Ha).
    exists i. split; [done|]. rewrite lookup_app_l; [done|]. by apply lookup_lt_Some in Ha.
  - rewrite lookup_app_r in Hb by lia. apply list_lookup_singleton_Some in Hb as [Hj0 ->].
    destruct (proj1 (list_elem_of_lookup _ _) (Hk a He)) as [i Hi].
    pose proof (lookup_lt_Some _ _ _ Hi). exists i. split; [lia|]. by rewrite lookup_app_l.
Qed.

Lemma existsb_elem (i : nat) (o : list nat) : existsb (Nat.eqb i) o = true <-> i ∈ o.
Proof.
  rewrite List.existsb_exists, list_elem_of_In. split.
  - intros (x & Hx & He). apply Nat.eqb_eq in He. by subst.
  - intros Hi. exists i. by rewrite Nat.eqb_refl.
Qed.

Lemma sort_node_upto (s : sorting) (i : nat) : (i < n)%nat ->
  sorted_upto n links s -> sorted_upto n links (sort_node links s i).
Proof.
  intros Hi [Hd Hn Hind Ht]. unfold sort_node. rewrite (Hind i Hi). cbn [default from_option].
  unfold id. destruct (Z.eqb_spec (Z.of_nat (pending links (order s) i)) 0) as [Hz|]; cbn [negb]; [|done].
  destruct (existsb _ _) eqn:Ee; [done|].
  assert (i ∉ order s) as Hnew by (rewrite <- existsb_elem, Ee; done).
  split; cbn [order indegree].
  - apply list.NoDup_app. split; [done|]. split; [|apply NoDup_singleton].
    intros k Hk ->%list_elem_of_singleton. done.
  - intros k [Hk| ->%list_elem_of_singleton]%elem_of_app; [by apply Hn|done].
  - intros k Hk. apply (relax_lookup n); [| |done].
    + intros j. rewrite <- pending_place by done. pose proof (pending_le links (order s) j). lia.
    + intros j Hj. rewrite <- pending_place by done. by apply Hind.
  - apply topological_place; [done|]. apply pending_zero. lia.
Qed.

Lemma fold_upto (l : list nat) : forall s, Forall (fun i => (i < n)%nat) l ->
  sorted_upto n links s -> sorted_upto n links (foldl (sort_node links) s l).
Proof.
  induction l as [|i l IH]; intros s Hl Hs; [done|].
  apply list.Forall_cons in Hl as [Hi Hl]. apply IH; [done|]. by apply sort_node_upto.
Qed.

Lemma seq_below : Forall (fun i => (i < n)%nat) (seq 0 n).
Proof. apply List.Forall_forall. intros i Hi. apply List.in_seq in Hi. lia. Qed.

Lemma sort_pass_upto (s : sorting) : sorted_upto n links s -> sorted_upto n links (sort_pass n links s).
Proof. intros [????]. apply fold_upto; [apply seq_below|]. by split. Qed.

(** A node that a pass would not place. *)
Definition held (s : sorting) (i : nat) : Prop := default 0 (indegree s !! i) <> 0 \/ i ∈ order s.

Lemma sort_node_step (s : sorting) (i : nat) :
  sort_node links s i = s /\ held s i \/
  progress (sort_node links s i) = true /\ order (sort_node links s i) = order s ++ [i].
Proof.
  unfold sort_node, held. destruct (Z.eqb_spec (default 0 (indegree s !! i)) 0); cbn [negb]; [|by left; auto].
  destruct (existsb _ _) eqn:E; [|by right]. left. split; [done|]. right. by apply existsb_elem.
Qed.

Lemma fold_grows (l : list nat) : forall s,
  progress s = true -> progress (foldl (sort_node links) s l) = true /\
                       (List.length (order s) <= List.length (order (foldl (sort_node links) s l)))%nat.
Proof.
  induction l as [|i l IH]; intros s Hp; [by split|]. cbn [foldl].
  destruct (sort_node_step s i) as [[-> _]|[Hp' Ho]]; [by apply IH|].
  destruct (IH _ Hp') as [? Hlen]. rewrite Ho, length_app in Hlen. split; [done|]. lia.
Qed.

(** A pass places a node, or leaves everything as it was with every node held. *)
Lemma fold_progress (l : list nat) : forall s, progress s = false ->
  let s' := foldl (sort_node links) s l in
  progress s' = true /\ (List.length (order s) < List.length (order s'))%nat \/
  s' = s /\ Forall (held s) l.
Proof.
  induction l as [|i l IH]; intros s Hp; [by right|]. cbn [foldl].
  destruct (sort_node_step s i) as [[-> Hh]|[Hp' Ho]].
  - destruct (IH s Hp) as [?|[-> ?]]; [by left|right]. split; [done|]. by constructor.
  - left. destruct (fold_grows l _ Hp') as [? Hlen]. rewrite Ho, length_app in Hlen.
    cbn [List.length] in Hlen. split; [done|]. lia.
Qed.

Lemma upto_length (s : sorting) : sorted_upto n links s -> (List.length (order s) <= n)%nat.
Proof.
  intros [Hd Hn _ _]. rewrite <- (length_seq n 0). apply submseteq_length, NoDup_submseteq; [done|].
  intros k Hk. apply elem_of_seq. pose proof (Hn k Hk). lia.
Qed.

Lemma unplaced (s : sorting) : sorted_upto n links s -> List.length (order s) <> n ->
  exists k, (k < n)%nat /\ k ∉ order s.
Proof.
  intros Hs Hn.
  destruct (decide (Forall (fun k => k ∈ order s) (seq 0 n))) as [Hall|Hnot].
  - exfalso. apply Hn. apply Nat.le_antisymm; [by apply upto_length|].
    rewrite <- (length_seq n 0) at 1. apply submseteq_length, NoDup_submseteq; [apply NoDup_seq|].
    by apply list.Forall_forall.
  - apply not_Forall_Exists in Hnot; [|apply _]. apply list.Exists_exists in Hnot as (k & Hk & Hko).
    apply elem_of_seq in Hk. exists k. split; [lia|done].
Qed.

(** The links in an order of all the nodes go forward, so they close no cycle. *)
Lemma topological_acyclic (o : list nat) : NoDup o -> topological links o ->
  (forall a b, edge links a b -> b ∈ o) -> acyclic links.
Proof.
  intros Hd Ht Hin k Hk.
  assert (forall a b, tc (edge links) a b -> forall j, o !! j = Some b -> exists i, (i < j)%nat /\ o !! i = Some a) as H.
  { induction 1 as [a b He|a b c He _ IH]; intros j Hj; [by eapply Ht|].
    destruct (IH j Hj) as (i & Hi & Hb). destruct (Ht i a b He Hb) as (i' & Hi' & Ha).
    exists i'. split; [lia|done]. }
  assert (k ∈ o) as [j Hj]%list_elem_of_lookup.
  { apply tc_rtc_l with (x := k) in Hk; [|done]. clear -Hk Hin.
    induction Hk as [a b He|]; [by eapply Hin|done]. }
  destruct (H k k Hk j Hj) as (i & Hi & Hk'). pose proof (NoDup_lookup _ _ _ _ Hd Hj Hk'). lia.
Qed.

Lemma tc_flip {A} (R : relation A) (x y : A) : tc (flip R) x y -> tc R y x.
Proof. induction 1 as [a b H|a b c H _ IH]; [by apply tc_once|]. by eapply tc_r. Qed.

(** Walking back along the links among nodes that all have an unplaced
    predecessor cannot end. *)
Lemma blocked_cycle (o : list nat) (k : nat) :
  (forall a b, edge links a b -> (a < n)%nat) -> (k < n)%nat -> k ∉ o ->
  (forall b, (b < n)%nat -> b ∉ o -> exists a, edge links a b /\ a ∉ o) -> ~ acyclic links.
Proof.
  intros Hends Hk Ho Hpred Ha.
  assert (sn (flip (edge links)) k) as Hsn.
  { apply tc_finite_sn.
    - intros x Hx. apply (Ha x). by apply tc_flip.
    - exists (seq 0 n). intros y Hy. apply elem_of_seq. split; [lia|].
      clear -Hy Hends. induction Hy as [a b H|]; [|done]. by apply Hends in H. }
  induction Hsn as [k _ IH]. destruct (Hpred k Hk Ho) as (a & He & Hao).
  apply (IH a); [done|by eapply Hends|done].
Qed.

Lemma sort_loop_correct (Hends : forall a b, edge links a b -> (a < n)%nat /\ (b < n)%nat) (fuel : nat) :
  forall s, sorted_upto n links s -> (n < fuel + List.length (order s))%nat ->
  match sort_loop fuel n links s with
  | Ret o => o ≡ₚ seq 0 n /\ topological links o /\ acyclic links
  | Err e => e = ELOOP /\ ~ acyclic links
  | Fault => False
  end.
Proof.
  induction fuel as [|fuel IH]; intros s Hs Hf; [pose proof (upto_length s Hs); lia|].
  cbn [sort_loop]. cbv zeta. pose proof (sort_pass_upto s Hs) as Hs'.
  pose proof (fold_progress (seq 0 n) (mk_sorting (order s) (indegree s) false) eq_refl) as Hp.
  cbv zeta in Hp. change (foldl _ _ _) with (sort_pass n links s) in Hp.
  set (t := sort_pass n links s) in *. cbn [order] in Hp.
  destruct (progress t && _) eqn:Eg.
  - apply andb_prop in Eg as [Ep _]. destruct Hp as [[_ Hlen]|[Ht _]]; [|by rewrite Ht in Ep].
    apply IH; [done|lia].
  - destruct (Nat.eqb_spec (List.length (order t)) n) as [Hn|Hn].
    + pose proof (so_nodup _ _ _ Hs') as Hd.
      assert (order t ≡ₚ seq 0 n) as Hperm.
      { apply submseteq_length_Permutation; [|by rewrite length_seq, Hn].
        apply NoDup_submseteq; [done|]. intros k Hk. apply elem_of_seq.
        pose proof (so_nodes _ _ _ Hs' k Hk). lia. }
      split; [done|]. split; [apply Hs'|]. apply (topological_acyclic (order t)); [done|apply Hs'|].
      intros a b He. rewrite Hperm. apply elem_of_seq. pose proof (proj2 (Hends a b He)). lia.
    + split; [done|]. pose proof (upto_length t Hs') as Hle.
      destruct Hp as [[Hp _]|[Ht Hheld]].
      { rewrite Hp in Eg. cbn [andb] in Eg. apply Nat.ltb_ge in Eg. lia. }
      destruct (unplaced t Hs' Hn) as (k & Hk & Hko).
      apply (blocked_cycle (order t) k); [by apply Hends|done|done|].
      intros b Hb Hbo. apply pending_pos. intros Hz.
      rewrite List.Forall_forall in Hheld. specialize (Hheld b).
      rewrite <- Ht in Hheld. destruct Hheld as [Hd|Hin]; [apply List.in_seq; lia| |done].
      rewrite (so_indegree _ _ _ Hs' b Hb), Hz in Hd. done.
Qed.

End Sort.

Lemma counted_upto (g : spa_fgn_graph) : links_counted g ->
  sorted_upto (List.length (gr_nodes g)) (gr_links g) (mk_sorting [] (map nd_indegree (gr_nodes g)) false).
Proof.
  intros H. split; cbn [order indegree].
  - constructor.
  - by intros k ?%not_elem_of_nil.
  - intros k Hk. destruct (lookup_lt_is_Some_2 (gr_nodes g) k Hk) as [nd Hnd].
    rewrite list_lookup_fmap, Hnd. cbn. f_equal. by eapply lc_indegree.
  - intros j a b _ Hb. by rewrite lookup_nil in Hb.
Qed.

(** What the answer [r] of [sort_graph] says of the graph. *)
Definition sorts (g : spa_fgn_graph) (r : outcome spa_fgn_graph) : Prop :=
  match r with
  | Ret g' => g' = set_order (gr_order g') g /\
              gr_order g' ≡ₚ seq 0 (List.length (gr_nodes g)) /\
              topological (gr_links g) (gr_order g') /\ acyclic (gr_links g)
  | Err e => e = ELOOP /\ ~ acyclic (gr_links g)
  | Fault => False
  end.

Lemma sort_graph_sorts (g : spa_fgn_graph) : links_counted g -> sorts g (sort_graph g).
Proof.
  intros Hg. unfold sort_graph.
  assert (forall a b, edge (gr_links g) a b ->
    (a < List.length (gr_nodes g))%nat /\ (b < List.length (gr_nodes g))%nat) as Hends.
  { intros a b (l & Hl & <- & <-). pose proof (lc_ends g Hg) as H. rewrite list.Forall_forall in H. by apply H. }
  pose proof (sort_loop_correct _ _ (lc_number g Hg) Hends (S (List.length (gr_nodes g))) _ (counted_upto g Hg)) as H.
  cbn [order List.length] in H. specialize (H ltac:(lia)).
  destruct (sort_loop _ _ _ _) as [o|e|]; cbn; [|done|done]. by split.
Qed.

(** C10: on a graph whose input counters agree with its links, [sort_graph]
    returns.  When it succeeds it changes nothing but the order, which is a
    permutation of the nodes where every link's output node precedes its input
    node, and the graph has no cycle; otherwise the result is -ELOOP and the
    graph has a cycle. *)
Theorem sort_graph_correct (g : spa_fgn_graph) (Hg : links_counted g) :
  match sort_graph g with
  | Ret g' => g' = set_order (gr_order g') g /\
              gr_order g' ≡ₚ seq 0 (List.length (gr_nodes g)) /\
              topological (gr_links g) (gr_order g') /\ acyclic (gr_links g)
  | Err e => e = ELOOP /\ ~ acyclic (gr_links g)
  | Fault => False
  end.
Proof. exact (sort_graph_sorts g Hg). Qed.

(** Two nodes without ports, of which the first feeds the second. *)
Definition bare_node (indegree : Z) : fgn_node :=
  mk_node [] (mk_descriptor 0 0 None 0 None None false None None None None false false false false false false false
                            false false None) 0 [] [] [] [] 0 indegree.
Definition two_nodes : spa_fgn_graph := mk_graph [bare_node 1; bare_node 0] [((1, 0), (0, 0))%nat] [] [] [].

Lemma two_nodes_counted : links_counted two_nodes.
Proof.
  split; [done|repeat constructor|].
  intros [|[|k]] n; by intros [= <-].
Qed.

Lemma sort_graph_correct_witness :
  links_counted two_nodes /\ sort_graph two_nodes = Ret (set_order [1; 0]%nat two_nodes) /\
  topological (gr_links two_nodes) [1; 0]%nat.
Proof.
  pose proof (sort_graph_correct two_nodes two_nodes_counted) as H.
  assert (sort_graph two_nodes = Ret (set_order [1; 0]%nat two_nodes)) as E by reflexivity.
  rewrite E in H. split; [apply two_nodes_counted|]. split; [exact E|]. apply H.
Defined.
