(* ===== verification/GraphWf.v ===== *)
(** * Well-formed filter graphs

    What the construction in [spa/plugins/filter-graph/filter-graph-ndarray.c]
    keeps true of a graph while it adds nodes, links and external ports: the
    fields that are stored twice, in the ports and in the tables of the graph,
    agree, an input is fed from one place, and a link joins ports of equal
    formats. *)
From stdpp Require Import relations.
From S2P Require Import Prelude Bytes CString Json NdarrayFormat NdarrayFormatProofs BufferAlloc MetaRecords.
From S2P Require Import GraphProps FilterGraph GraphOrder.
#[local] Open Scope Z_scope.

(** ** Formats *)

Definition f_dims (f : spa_fgn_format) : list Z := take (Z.to_nat (f_n_dimensions f)) (default [] (f_shape f)).

(** The table of the dimensions is one of [uint32_t] with the entries that the
    count announces. *)
Definition honest_format (f : spa_fgn_format) : Prop :=
  is_u32 (f_n_dimensions f) /\
  forall shape, f_shape f = Some shape -> f_n_dimensions f <= zlen shape /\ Forall is_u32 shape.

(** A format that a graph admits: [bytes] is the size of its array. *)
Record format_ok (f : spa_fgn_format) (bytes : Z) : Prop := {
  fo_shape : f_shape f <> None;
  fo_dimensions : 1 <= f_n_dimensions f <= SPA_NDARRAY_MAX_DIMENSIONS;
  fo_length : zlen (f_dims f) = f_n_dimensions f;
  fo_dims : Forall dim_ok (f_dims f);
  fo_layout : f_layout f = SPA_NDARRAY_LAYOUT_ROW_MAJOR \/ f_layout f = SPA_NDARRAY_LAYOUT_COLUMN_MAJOR;
  fo_rate : f_rate_num f = 0 <-> f_rate_denom f = 0;
  fo_bytes : bytes = product (f_dims f) * spa_element_type_size (f_element_type f);
  fo_size : 0 < bytes <= UINT32_MAX }.

(** Formats that agree in everything the ports of a link share. *)
Record same_format (a b : spa_fgn_format) : Prop := {
  sf_element_type : f_element_type a = f_element_type b;
  sf_layout : f_layout a = f_layout b;
  sf_rate : f_rate_num a = f_rate_num b /\ f_rate_denom a = f_rate_denom b;
  sf_dims : f_dims a = f_dims b;
  sf_schema : f_schema a = f_schema b }.

Lemma elements_loop_spec sh n : forall i e,
  Forall is_u32 sh -> 0 <= i -> i + Z.of_nat n <= zlen sh ->
  o_wp (elements_loop sh i n e)
    (fun r => Forall dim_ok (take n (drop (Z.to_nat i) sh)) /\ r = e * product (take n (drop (Z.to_nat i) sh))) True.
Proof.
  induction n as [|n IH]; intros i e Hsh Hi Hlen; cbn [elements_loop].
  { rewrite take_0. split; [constructor|]. unfold product. cbn [foldr]. lia. }
  destruct (lookup_lt_is_Some_2 sh (Z.to_nat i)) as [d Hd]; [unfold zlen in Hlen; lia|].
  pose proof (Forall_lookup_1 _ _ _ _ Hsh Hd) as Hu. unfold is_u32 in Hu.
  unfold shape_at. rewrite Hd, (drop_S _ _ _ Hd). cbn [obind firstn].
  destruct ((d =? 0) || (INT32_MAX <? d)) eqn:Eb; [done|]. bool_to_prop.
  destruct (overflow_mul e d) as [e'|] eqn:Em; [|done]. apply overflow_mul_spec in Em as [-> _].
  eapply o_wp_mono; [apply IH; [done|lia|lia]| |done].
  rewrite (Z2Nat.inj_add i 1), Nat.add_1_r by lia. intros r [Hf ->]. split.
  - constructor; [|done]. unfold dim_ok. lia.
  - change (product (d :: ?l)) with (d * product l). lia.
Qed.

Lemma format_size_spec f : honest_format f -> o_wp (format_size (Some f)) (format_ok f) True.
Proof.
  intros [Hn Hsh]. unfold format_size. destruct (f_shape f) as [sh|] eqn:Es; [|done].
  destruct (Hsh sh eq_refl) as [Hlen Hu]. unfold is_u32 in Hn.
  destruct ((f_n_dimensions f =? 0) || _) eqn:E1; [done|].
  destruct (negb (f_layout f =? _) && _) eqn:E2; [done|].
  destruct (negb (Bool.eqb _ _)) eqn:E3; [done|]. case_if; [done|]. bool_to_prop.
  pose proof (item_bytes_range (f_element_type f)) as Hi.
  pose proof (elements_loop_spec sh (Z.to_nat (f_n_dimensions f)) 0 1 Hu ltac:(lia) ltac:(lia)) as He.
  destruct (elements_loop _ _ _ _) as [e| |]; cbn in He |- *; [|done|done]. destruct He as [Hd ->].
  destruct (overflow_mul _ _) as [b|] eqn:Em; [|done]. apply overflow_mul_spec in Em as [-> _].
  case_if; [done|]. rewrite drop_0, Z.mul_1_l in *. pose proof (product_pos _ Hd) as Hp.
  assert (f_dims f = take (Z.to_nat (f_n_dimensions f)) sh) as Hdims by (unfold f_dims; by rewrite Es).
  cbn. rewrite <- Hdims in *. split; try done; try lia.
  - by rewrite Es.
  - rewrite Hdims. unfold zlen in *. rewrite length_take. lia.
Qed.

Lemma shapes_equal_spec a b n : forall i, 0 <= i -> i + Z.of_nat n <= zlen a -> i + Z.of_nat n <= zlen b ->
  o_wp (shapes_equal a b i n)
    (fun r => r = true -> take n (drop (Z.to_nat i) a) = take n (drop (Z.to_nat i) b)) True.
Proof.
  induction n as [|n IH]; intros i Hi Ha Hb; cbn [shapes_equal]; [done|].
  destruct (lookup_lt_is_Some_2 a (Z.to_nat i)) as [x Hx]; [unfold zlen in *; lia|].
  destruct (lookup_lt_is_Some_2 b (Z.to_nat i)) as [y Hy]; [unfold zlen in *; lia|].
  unfold shape_at. rewrite Hx, Hy, (drop_S _ _ _ Hx), (drop_S _ _ _ Hy). cbn [obind firstn].
  destruct (Z.eqb_spec x y) as [->|]; cbn [negb]; [|done].
  eapply o_wp_mono; [apply IH; lia| |done].
  rewrite (Z2Nat.inj_add i 1), Nat.add_1_r by lia. intros r Hr Ht. by rewrite Hr.
Qed.

Lemma string_equal_eq a b : string_equal a b = true -> a = b.
Proof. destruct a, b; cbn; try done. unfold spa_streq. intros H%bool_decide_eq_true. by subst. Qed.

Lemma ok_dims f bytes : format_ok f bytes -> f_n_dimensions f <= zlen (default [] (f_shape f)).
Proof. intros H. rewrite <- (fo_length f bytes H) at 1. unfold f_dims, zlen. rewrite length_take. lia. Qed.

Lemma format_equal_spec a b m n : format_ok a m -> format_ok b n ->
  o_wp (format_equal a b) (fun r => r = true -> same_format a b) True.
Proof.
  intros Ha Hb. unfold format_equal. destruct (_ || negb (string_equal _ _)) eqn:E; [done|]. bool_to_prop.
  pose proof (ok_dims a m Ha) as La. pose proof (ok_dims b n Hb) as Lb. pose proof (fo_dimensions a m Ha).
  eapply o_wp_mono; [apply shapes_equal_spec; lia| |done]. intros r Hr ->. specialize (Hr eq_refl).
  split; try done; try lia; [|by apply string_equal_eq]. unfold f_dims. rewrite !drop_0 in Hr. congruence.
Qed.

(** ** Places in a graph *)

Lemma port_at_update f r g r' :
  port_at (update_port f r g) r' = (if decide (r = r') then f else id) <$> port_at g r'.
Proof.
  unfold port_at, update_port. cbn [gr_nodes]. destruct r as [k j], r' as [k' j']. cbn [fst snd].
  destruct (decide (k = k')) as [<-|Hk].
  - rewrite list_lookup_alter_eq. destruct (gr_nodes g !! k) as [n|]; cbn; [|done].
    destruct (decide (j = j')) as [<-|Hj].
    + rewrite list_lookup_alter_eq, decide_True by done. done.
    + rewrite list_lookup_alter_ne, decide_False by (done || congruence). by destruct (nd_ports n !! j').
  - rewrite list_lookup_alter_ne, decide_False by (done || congruence). by destruct (gr_nodes g !! k'); [destruct (_ !! j')|].
Qed.

Lemma port_at_indegree k g r : port_at (update_node add_indegree k g) r = port_at g r.
Proof.
  unfold port_at, update_node. cbn [gr_nodes]. destruct (decide (k = r.1)) as [->|Hk].
  - rewrite list_lookup_alter_eq. by destruct (gr_nodes g !! r.1).
  - by rewrite list_lookup_alter_ne.
Qed.

(** ** The invariant *)

(** The index of an external port, as the port stores it. *)
Definition ext_index (r : port_ref) (l : list port_ref) : Z :=
  match find_pos (fun x => bool_decide (x = r)) l with Some e => Z.of_nat e | None => SPA_ID_INVALID end.

(** The links out of a port. *)
Definition fan_out (links : link_list) (r : port_ref) : nat :=
  List.length (filter (fun l : port_ref * port_ref => l.1 = r) links).

(** What a port stores agrees with the tables of the graph. *)
Record port_wired (g : spa_fgn_graph) (r : port_ref) (p : fgn_port) : Prop := {
  pw_format : format_ok (pt_format p) (pt_payload_size p);
  pw_direction : pi_direction (pt_info p) = SPA_DIRECTION_INPUT \/ pi_direction (pt_info p) = SPA_DIRECTION_OUTPUT;
  pw_source : forall o, pt_source p = Some o <-> (o, r) ∈ gr_links g;
  pw_consumers : pt_n_consumers p = Z.of_nat (fan_out (gr_links g) r);
  pw_external : pt_external p = ext_index r (externals (pi_direction (pt_info p)) g) }.

(** A link joins an output and an input that carry the same arrays, and the
    output has the records the input requires. *)
Record joins (p q : fgn_port) : Prop := {
  jo_output : pi_direction (pt_info p) = SPA_DIRECTION_OUTPUT;
  jo_input : pi_direction (pt_info q) = SPA_DIRECTION_INPUT;
  jo_signal : has (pi_flags (pt_info q)) SPA_FGN_PORT_FLAG_PARAMETER = false;
  jo_format : same_format (pt_format p) (pt_format q);
  jo_metas : metas_offered (pt_info p) (pt_info q) = true }.

Record node_wf (g : spa_fgn_graph) (k : nat) (n : fgn_node) : Prop := {
  nw_inputs : nd_inputs n = positions is_input 0 (nd_ports n);
  nw_outputs : nd_outputs n = positions (fun p => negb (is_input p)) 0 (nd_ports n);
  nw_indegree : nd_indegree n = Z.of_nat (pending (gr_links g) [] k);
  nw_n_ports : zlen (nd_ports n) <= FGN_MAX_PORTS_PER_NODE }.

Record graph_wf (g : spa_fgn_graph) : Prop := {
  wf_names : NoDup (map nd_name (gr_nodes g));
  wf_n_nodes : zlen (gr_nodes g) <= FGN_MAX_NODES;
  wf_n_links : zlen (gr_links g) <= FGN_MAX_LINKS;
  wf_n_externals : forall d, zlen (externals d g) <= FGN_MAX_EXTERNAL_PORTS;
  wf_node : forall k n, gr_nodes g !! k = Some n -> node_wf g k n;
  wf_port : forall r p, port_at g r = Some p -> port_wired g r p;
  wf_link : forall o i, (o, i) ∈ gr_links g ->
    exists p q, port_at g o = Some p /\ port_at g i = Some q /\ joins p q;
  wf_single : NoDup (map snd (gr_links g));
  wf_distinct : forall d, NoDup (externals d g);
  wf_external : forall d r, d = SPA_DIRECTION_INPUT \/ d = SPA_DIRECTION_OUTPUT -> r ∈ externals d g ->
    exists p, port_at g r = Some p /\ pi_direction (pt_info p) = d /\
              (d = SPA_DIRECTION_INPUT -> pt_source p = None) }.

(** ** Keeping it *)

(** The ports keep what their plugin said of them. *)
Definition same_port (p p' : fgn_port) : Prop :=
  pt_info p' = pt_info p /\ pt_format p' = pt_format p /\ pt_payload_size p' = pt_payload_size p.
Definition ports_kept (g g' : spa_fgn_graph) : Prop :=
  forall r p, port_at g r = Some p -> exists p', port_at g' r = Some p' /\ same_port p p'.

Lemma joins_kept p q p' q' : same_port p p' -> same_port q q' -> joins p q -> joins p' q'.
Proof. intros (Ei & Ef & _) (Ei' & Ef' & _) [? ? ? ? ?]. split; rewrite ?Ei, ?Ei', ?Ef, ?Ef'; done. Qed.

Lemma find_pos_none {A} (f : A -> bool) (l : list A) : find_pos f l = None <-> Forall (fun x => f x = false) l.
Proof.
  induction l as [|x l IH]; cbn [find_pos]; [split; [constructor|done]|]. rewrite list.Forall_cons, <- IH.
  destruct (f x); [by split; [|intros []]|]. destruct (find_pos f l); cbn; (split; [done|by intros []]) || by split.
Qed.

Lemma find_pos_some {A} (f : A -> bool) (l : list A) k :
  find_pos f l = Some k -> exists x, l !! k = Some x /\ f x = true.
Proof.
  revert k. induction l as [|x l IH]; cbn [find_pos]; intros k; [done|].
  destruct (f x) eqn:E; [intros [= <-]; eauto|]. destruct (find_pos f l) as [j|]; [|done]. intros [= <-].
  by apply IH.
Qed.

Lemma find_pos_snoc {A} (f : A -> bool) (l : list A) y :
  find_pos f (l ++ [y]) = match find_pos f l with
                          | Some k => Some k
                          | None => if f y then Some (List.length l) else None
                          end.
Proof.
  induction l as [|x l IH]; cbn [app find_pos List.length]; [by destruct (f y)|]. destruct (f x); [done|].
  rewrite IH. destruct (find_pos f l); [done|]. by destruct (f y).
Qed.

Lemma ext_index_absent r l : r ∉ l -> ext_index r l = SPA_ID_INVALID.
Proof.
  intros H. unfold ext_index. destruct (find_pos _ l) as [k|] eqn:E; [|done].
  apply find_pos_some in E as (x & Hx & ->%bool_decide_eq_true). apply list_elem_of_lookup_2 in Hx. done.
Qed.

Lemma ext_index_invalid r l : zlen l <= FGN_MAX_EXTERNAL_PORTS -> ext_index r l = SPA_ID_INVALID -> r ∉ l.
Proof.
  unfold ext_index. intros Hl. destruct (find_pos _ l) as [k|] eqn:E.
  - apply find_pos_some in E as (x & Hx & _). apply lookup_lt_Some in Hx. unfold zlen in Hl. lia.
  - intros _ Hr. apply find_pos_none in E. rewrite list.Forall_forall in E. specialize (E r Hr).
    by apply bool_decide_eq_false in E.
Qed.

Lemma ext_index_snoc r r' l : r' ∉ l ->
  ext_index r (l ++ [r']) = if decide (r = r') then zlen l else ext_index r l.
Proof.
  intros Hn. case_decide as E.
  - subst r'. unfold ext_index. rewrite find_pos_snoc, bool_decide_true by done.
    destruct (find_pos _ l) as [k|] eqn:Ek; [|done].
    apply find_pos_some in Ek as (x & Hx & ->%bool_decide_eq_true). apply list_elem_of_lookup_2 in Hx. done.
  - unfold ext_index. rewrite find_pos_snoc, bool_decide_false by done. by destruct (find_pos _ l).
Qed.

Lemma fan_out_snoc links l r : fan_out (links ++ [l]) r = (fan_out links r + if decide (l.1 = r) then 1 else 0)%nat.
Proof.
  unfold fan_out. rewrite list.filter_app, length_app, filter_cons, filter_nil. by repeat case_decide.
Qed.

Lemma pending_snoc links l k : pending (links ++ [l]) [] k = (pending links [] k + if decide (l.2.1 = k) then 1 else 0)%nat.
Proof.
  unfold pending. rewrite list.filter_app, length_app, filter_cons, filter_nil. repeat case_decide; try done; exfalso.
  - tauto.
  - match goal with H : ~ (_ /\ _) |- _ => apply H end. split; [done|apply not_elem_of_nil].
Qed.

Lemma fan_out_le links r : (fan_out links r <= List.length links)%nat.
Proof. apply length_filter. Qed.

(** The nodes keep their names and the descriptions of their ports. *)
Definition same_node (n n' : fgn_node) : Prop :=
  nd_name n' = nd_name n /\ nd_inputs n' = nd_inputs n /\ nd_outputs n' = nd_outputs n /\
  map pt_info (nd_ports n') = map pt_info (nd_ports n) /\ nd_indegree n' = nd_indegree n.

Lemma node_update f r g k :
  gr_nodes (update_port f r g) !! k = (if decide (r.1 = k) then set_port f r.2 else id) <$> gr_nodes g !! k.
Proof.
  unfold update_port. cbn [gr_nodes]. rewrite list_lookup_alter. case_decide; [by subst|].
  by destruct (gr_nodes g !! k).
Qed.

Lemma set_port_same f j n : (forall p, pt_info (f p) = pt_info p) -> same_node n (set_port f j n).
Proof.
  intros Hf. repeat split. cbn [nd_ports set_port]. change (map pt_info) with (fmap (M := list) pt_info).
  apply list_eq. intros k. rewrite !list_lookup_fmap, list_lookup_alter. case_decide; [subst|done].
  destruct (nd_ports n !! k); cbn; [by rewrite Hf|done].
Qed.

Lemma positions_info f i ps ps' : (forall p p', pt_info p = pt_info p' -> f p = f p') ->
  map pt_info ps' = map pt_info ps -> positions f i ps' = positions f i ps.
Proof.
  intros Hf. revert i ps'. induction ps as [|p ps IH]; intros i [|p' ps'] H; try done.
  cbn in H. injection H as Hp Hps. cbn [positions]. rewrite (Hf p' p Hp), (IH _ _ Hps). done.
Qed.

Lemma same_ports ps ps' : map pt_info ps' = map pt_info ps -> zlen ps' = zlen ps.
Proof. intros H. unfold zlen. by rewrite <- (List.length_map pt_info ps'), H, List.length_map. Qed.

Lemma node_wf_same g g' k n n' : same_node n n' -> nd_indegree n = Z.of_nat (pending (gr_links g') [] k) ->
  node_wf g k n -> node_wf g' k n'.
Proof.
  intros (_ & Ei & Eo & Ep & Ed) Hd [? ? ? ?].
  split; rewrite ?Ei, ?Eo, ?Ed, ?(same_ports _ _ Ep); try done; [rewrite nw_inputs0|rewrite nw_outputs0];
    symmetry; apply positions_info; try done; unfold is_input; by intros ? ? ->.
Qed.

Lemma same_node_refl n : same_node n n.
Proof. by repeat split. Qed.
Lemma same_node_trans n n' n'' : same_node n n' -> same_node n' n'' -> same_node n n''.
Proof. intros (? & ? & ? & ? & ?) (? & ? & ? & ? & ?). repeat split; congruence. Qed.

Lemma node_kept f r g k n' : (forall p, pt_info (f p) = pt_info p) ->
  gr_nodes (update_port f r g) !! k = Some n' -> exists n, gr_nodes g !! k = Some n /\ same_node n n'.
Proof.
  intros Hf. rewrite node_update. destruct (gr_nodes g !! k) as [n|]; [|done]. intros [= <-]. exists n.
  split; [done|]. case_decide; [by apply set_port_same|apply same_node_refl].
Qed.

(** What no change to a port or a counter touches. *)
Lemma map_update {A} (F : fgn_node -> A) f r g : (forall j n, F (set_port f j n) = F n) ->
  map F (gr_nodes (update_port f r g)) = map F (gr_nodes g).
Proof.
  intros HF. change (map F) with (fmap (M := list) F). apply list_eq. intros k.
  rewrite !list_lookup_fmap, node_update. destruct (gr_nodes g !! k); cbn; [|done]. case_decide; [by rewrite HF|done].
Qed.

Lemma map_add_link {A} (F : fgn_node -> A) o i g :
  (forall f j n, F (set_port f j n) = F n) -> (forall n, F (add_indegree n) = F n) ->
  map F (gr_nodes (add_link o i g)) = map F (gr_nodes g).
Proof.
  intros H1 H2. unfold add_link, update_node. cbn [gr_nodes].
  transitivity (map F (gr_nodes (update_port add_consumer o (update_port (set_source o) i g))));
    [|by rewrite !map_update].
  change (map F) with (fmap (M := list) F). apply list_eq. intros k.
  rewrite !list_lookup_fmap, list_lookup_alter. case_decide; [subst|done]. cbn [gr_nodes update_port].
  destruct (_ !! i.1); cbn; [by rewrite H2|done].
Qed.

Lemma map_add_external {A} (F : fgn_node -> A) d r g : (forall f j n, F (set_port f j n) = F n) ->
  map F (gr_nodes (add_external d r g)) = map F (gr_nodes g).
Proof.
  intros HF. transitivity (map F (gr_nodes (update_port (set_external (zlen (externals d g))) r g))).
  - unfold add_external. by case_if.
  - by apply map_update.
Qed.

Section Link.
Context (g : spa_fgn_graph) (Hg : graph_wf g) (o i : port_ref) (p q : fgn_port).
Context (Hp : port_at g o = Some p) (Hq : port_at g i = Some q) (Hj : joins p q).
Context (Hfree : pt_source q = None) (Hext : pt_external q = SPA_ID_INVALID).
Context (Hroom : zlen (gr_links g) < FGN_MAX_LINKS).

Definition linked (r : port_ref) (x : fgn_port) : fgn_port :=
  (if decide (o = r) then add_consumer else id) ((if decide (i = r) then set_source o else id) x).

Lemma port_at_link r : port_at (add_link o i g) r = linked r <$> port_at g r.
Proof.
  unfold add_link. cbv zeta. rewrite port_at_indegree, !port_at_update.
  change (port_at (mk_graph (gr_nodes g) _ _ _ _) r) with (port_at g r). by destruct (port_at g r).
Qed.

Lemma linked_same r x : same_port x (linked r x).
Proof. unfold linked, same_port. by repeat case_decide. Qed.

Lemma unlinked : i ∉ map snd (gr_links g).
Proof.
  intros ([o' i'] & Hi & Hl)%list_elem_of_fmap. cbn in Hi. subst i'.
  apply (pw_source _ _ _ (wf_port g Hg i q Hq)) in Hl. congruence.
Qed.

Lemma ends_differ : o <> i.
Proof. intros ->. destruct Hj. congruence. Qed.

Lemma link_port r x : port_at g r = Some x -> port_wired (add_link o i g) r (linked r x).
Proof.
  intros Hx. destruct (wf_port g Hg r x Hx) as [H1 H2 H3 H4 H5]. destruct (linked_same r x) as (Ei & Ef & Es).
  split; rewrite ?Ei, ?Ef, ?Es; try done.
  - intros o'. cbn [gr_links add_link update_node update_port]. rewrite elem_of_app, list_elem_of_singleton, <- H3.
    unfold linked. destruct (decide (i = r)) as [<-|Hr].
    + rewrite decide_False by apply ends_differ. cbn. assert (x = q) as -> by congruence. rewrite Hfree.
      split; [intros [= ->]; by right|by intros [|[= ->]]].
    + assert (pt_source ((if decide (o = r) then add_consumer else id) (id x)) = pt_source x) as -> by by case_decide.
      split; [by left|]. by intros [|[= _ <-]].
  - cbn [gr_links add_link update_node update_port]. rewrite fan_out_snoc. cbn [fst]. unfold linked.
    pose proof (fan_out_le (gr_links g) r). unfold zlen in Hroom.
    destruct (decide (o = r)) as [<-|Hr].
    + rewrite decide_False by (intros E; by apply ends_differ). cbn. rewrite H4, wrap_small; lia.
    + assert (pt_n_consumers (id ((if decide (i = r) then set_source o else id) x)) = pt_n_consumers x) as -> by by case_decide.
      lia.
  - assert (pt_external (linked r x) = pt_external x) as -> by (unfold linked; by repeat case_decide). done.
Qed.

Lemma link_node k n : gr_nodes (add_link o i g) !! k = Some n -> node_wf (add_link o i g) k n.
Proof.
  unfold add_link at 1. cbv zeta. set (g1 := mk_graph _ _ _ _ _). set (g2 := update_port add_consumer o _).
  unfold update_node. cbn [gr_nodes]. rewrite list_lookup_alter. intros Hk.
  assert (exists n2, gr_nodes g2 !! k = Some n2 /\ n = if decide (i.1 = k) then add_indegree n2 else n2)
    as (n2 & Hn2 & ->).
  { case_decide as E; [rewrite E in Hk|by eauto]. destruct (gr_nodes g2 !! k) as [n2|]; [|done]. injection Hk as <-. eauto. }
  destruct (node_kept add_consumer _ _ _ _ (fun _ => eq_refl) Hn2) as (n1 & Hn1 & S1).
  destruct (node_kept (set_source o) _ _ _ _ (fun _ => eq_refl) Hn1) as (n0 & Hn0 & S0).
  pose proof (same_node_trans _ _ _ S0 S1) as (Ea & Eb & Ec & Ed & Ee).
  destruct (wf_node g Hg k n0 Hn0) as [Hi Ho Hd Hn].
  pose proof (pending_le (gr_links g) [] k). unfold zlen in Hroom.
  assert (pending (gr_links (add_link o i g)) [] k = (pending (gr_links g) [] k + if decide (i.1 = k) then 1 else 0)%nat)
    as Hpend by (apply pending_snoc).
  split; case_decide; cbn [nd_inputs nd_outputs nd_ports nd_indegree add_indegree]; rewrite ?Eb, ?Ec, ?Ee, ?Hpend.
  all: try (rewrite Hi || rewrite Ho; symmetry; apply positions_info; [unfold is_input; by intros ? ? ->|done]).
  - rewrite Hd, wrap_small; lia.
  - lia.
  - by rewrite (same_ports _ _ Ed).
  - by rewrite (same_ports _ _ Ed).
Qed.

Lemma link_names : map nd_name (gr_nodes (add_link o i g)) = map nd_name (gr_nodes g).
Proof. by apply map_add_link. Qed.

Lemma link_kept : ports_kept g (add_link o i g).
Proof. intros r x Hx. exists (linked r x). rewrite port_at_link, Hx. split; [done|apply linked_same]. Qed.

Lemma wf_add_link : graph_wf (add_link o i g).
Proof.
  split.
  - rewrite link_names. apply Hg.
  - pose proof (wf_n_nodes g Hg). unfold zlen in *. rewrite <- (List.length_map nd_name), link_names, List.length_map. done.
  - cbn [gr_links add_link update_node update_port]. rewrite zlen_app. change (zlen [(o, i)]) with 1. lia.
  - apply (wf_n_externals g Hg).
  - apply link_node.
  - intros r y Hy. rewrite port_at_link in Hy. destruct (port_at g r) as [x|] eqn:Hx; [|done].
    injection Hy as <-. by apply link_port.
  - intros o' i' [Hl|[= -> ->]%list_elem_of_singleton]%elem_of_app.
    + destruct (wf_link g Hg o' i' Hl) as (x & y & Hx & Hy & Hxy). destruct (link_kept _ _ Hx) as (x' & ? & ?).
      destruct (link_kept _ _ Hy) as (y' & ? & ?). exists x', y'. split; [done|]. split; [done|].
      by eapply joins_kept.
    + destruct (link_kept _ _ Hp) as (x' & ? & ?). destruct (link_kept _ _ Hq) as (y' & ? & ?).
      exists x', y'. split; [done|]. split; [done|]. by eapply joins_kept.
  - cbn [gr_links add_link update_node update_port]. rewrite List.map_app. apply list.NoDup_app. split; [apply Hg|].
    split; [|apply NoDup_singleton]. intros r Hr ->%list_elem_of_singleton. by apply unlinked.
  - apply (wf_distinct g Hg).
  - intros d r Hd Hr. destruct (wf_external g Hg d r Hd Hr) as (x & Hx & Ex & Hs). exists (linked r x).
    rewrite port_at_link, Hx. split; [done|]. destruct (linked_same r x) as (-> & _ & _). split; [done|].
    intros ->. specialize (Hs eq_refl). unfold linked. destruct (decide (i = r)) as [<-|Hi].
    + assert (x = q) as -> by congruence. apply (ext_index_invalid i) in Hr; [done|apply (wf_n_externals g Hg)|].
      pose proof (pw_external _ _ _ (wf_port g Hg i q Hq)) as He. rewrite Ex in He. by transitivity (pt_external q).
    + by case_decide.
Qed.
End Link.

Section External.
Context (g : spa_fgn_graph) (Hg : graph_wf g) (d : Z) (r : port_ref) (p : fgn_port).
Context (Hp : port_at g r = Some p) (Hd : pi_direction (pt_info p) = d).
Context (Hnew : pt_external p = SPA_ID_INVALID) (Hfree : d = SPA_DIRECTION_INPUT -> pt_source p = None).
Context (Hroom : zlen (externals d g) < FGN_MAX_EXTERNAL_PORTS).

Lemma direction_of : d = SPA_DIRECTION_INPUT \/ d = SPA_DIRECTION_OUTPUT.
Proof. rewrite <- Hd. apply (wf_port g Hg r p Hp). Qed.

Lemma not_external : r ∉ externals d g.
Proof.
  apply ext_index_invalid; [apply (wf_n_externals g Hg)|].
  pose proof (pw_external _ _ _ (wf_port g Hg r p Hp)) as He. rewrite Hd in He. congruence.
Qed.

Lemma externals_add d' : externals d' (add_external d r g) =
  if decide ((d' =? SPA_DIRECTION_INPUT) = (d =? SPA_DIRECTION_INPUT)) then externals d' g ++ [r] else externals d' g.
Proof.
  unfold add_external, externals. cbv zeta. destruct (d =? 0), (d' =? 0); (by rewrite decide_True) || (by rewrite decide_False).
Qed.

Definition exported (r' : port_ref) (x : fgn_port) : fgn_port :=
  (if decide (r = r') then set_external (zlen (externals d g)) else id) x.

Lemma port_at_external r' : port_at (add_external d r g) r' = exported r' <$> port_at g r'.
Proof.
  transitivity (port_at (update_port (set_external (zlen (externals d g))) r g) r').
  - unfold add_external. cbv zeta. by case_if.
  - rewrite port_at_update. unfold exported. by destruct (port_at g r').
Qed.

Lemma exported_same r' x : same_port x (exported r' x) /\ pt_source (exported r' x) = pt_source x /\
  pt_n_consumers (exported r' x) = pt_n_consumers x.
Proof. unfold exported, same_port. by case_decide. Qed.

Lemma links_external : gr_links (add_external d r g) = gr_links g.
Proof. unfold add_external. by case_if. Qed.
Lemma nodes_external : gr_nodes (add_external d r g) = gr_nodes (update_port (set_external (zlen (externals d g))) r g).
Proof. unfold add_external. by case_if. Qed.

Lemma external_port r' x : port_at g r' = Some x -> port_wired (add_external d r g) r' (exported r' x).
Proof.
  intros Hx. destruct (wf_port g Hg r' x Hx) as [H1 H2 H3 H4 H5].
  destruct (exported_same r' x) as ((Ei & Ef & Es) & Eo & Ec).
  split; rewrite ?Ei, ?Ef, ?Es, ?Eo, ?Ec, ?links_external; try done.
  rewrite externals_add. unfold exported. pose proof direction_of as Hdir. pose proof not_external as Hn.
  destruct (decide (r = r')) as [E|Hne].
  - assert (x = p) as -> by congruence. rewrite Hd, decide_True by done. cbn.
    rewrite ext_index_snoc by done. by rewrite decide_True by done.
  - cbn [id]. rewrite H5. case_decide as Ed; [|done].
    assert (pi_direction (pt_info x) = d) as ->.
    { destruct Hdir as [Hdir|Hdir], H2 as [H2|H2]; rewrite Hdir, H2 in Ed |- *; done. }
    rewrite ext_index_snoc by done. by rewrite decide_False by congruence.
Qed.

Lemma wf_add_external : graph_wf (add_external d r g).
Proof.
  pose proof direction_of as Hdir. pose proof not_external as Hn.
  split; rewrite ?links_external, ?nodes_external; try apply Hg.
  - rewrite map_update by done. apply Hg.
  - pose proof (wf_n_nodes g Hg). unfold zlen in *.
    rewrite <- (List.length_map nd_name), map_update, List.length_map by done. done.
  - intros d'. rewrite externals_add. pose proof (wf_n_externals g Hg d'). case_decide as E; [|done].
    rewrite zlen_app. change (zlen [r]) with 1. unfold externals in *. rewrite E. lia.
  - intros k n Hk. destruct (node_kept (set_external _) _ _ _ _ (fun _ => eq_refl) Hk) as (n0 & Hn0 & Hs).
    pose proof (wf_node g Hg k n0 Hn0) as Hw. eapply node_wf_same; [done| |done].
    rewrite links_external. apply Hw.
  - intros r' y Hy. rewrite port_at_external in Hy. destruct (port_at g r') as [x|] eqn:Hx; [|done].
    injection Hy as <-. by apply external_port.
  - intros o i Hl. destruct (wf_link g Hg o i Hl) as (x & y & Hx & Hy & Hxy).
    exists (exported o x), (exported i y). rewrite !port_at_external, Hx, Hy. split; [done|]. split; [done|].
    eapply joins_kept; [apply exported_same|apply exported_same|done].
  - intros d'. rewrite externals_add. pose proof (wf_distinct g Hg d') as Hdd. case_decide as E; [|done].
    apply list.NoDup_app. split; [done|]. split; [|apply NoDup_singleton].
    intros r' Hr' ->%list_elem_of_singleton. apply Hn. unfold externals in *. by rewrite <- E.
  - intros d' r' Hd' Hr'. rewrite externals_add in Hr'.
    assert (r' ∈ externals d' g \/ r' = r /\ d' = d) as [Hold|[-> ->]].
    { case_decide as E; [|by left]. apply elem_of_app in Hr' as [?| ->%list_elem_of_singleton]; [by left|right].
      split; [done|]. destruct Hdir as [H|H], Hd' as [H'|H']; rewrite H, H' in E |- *; done. }
    + destruct (wf_external g Hg d' r' Hd' Hold) as (x & Hx & Ex & Hs). exists (exported r' x).
      rewrite port_at_external, Hx. destruct (exported_same r' x) as ((-> & _ & _) & -> & _). done.
    + exists (exported r p). rewrite port_at_external, Hp.
      destruct (exported_same r p) as ((-> & _ & _) & -> & _). done.
Qed.
End External.

(** ** New nodes *)

Lemma lookup_app_Some_snoc {A} (l : list A) x k y :
  (l ++ [x]) !! k = Some y -> l !! k = Some y \/ k = List.length l /\ Some x = Some y.
Proof.
  intros [?|[Hk Hy]]%lookup_app_Some; [by left|right]. apply list_lookup_singleton_Some in Hy as [? ->].
  split; [lia|done].
Qed.

(** A port as the admission leaves it. *)
Record fresh_port (p : fgn_port) : Prop := {
  fp_format : format_ok (pt_format p) (pt_payload_size p);
  fp_direction : pi_direction (pt_info p) = SPA_DIRECTION_INPUT \/ pi_direction (pt_info p) = SPA_DIRECTION_OUTPUT;
  fp_unused : pt_source p = None /\ pt_n_consumers p = 0 /\ pt_external p = SPA_ID_INVALID }.

Lemma port_at_node g r p : port_at g r = Some p -> (r.1 < List.length (gr_nodes g))%nat.
Proof. unfold port_at. destruct (gr_nodes g !! r.1) eqn:E; [|done]. intros _. by eapply lookup_lt_Some. Qed.

Lemma port_at_add_node n g r :
  port_at (add_node n g) r =
  if decide (r.1 = List.length (gr_nodes g)) then nd_ports n !! r.2 else port_at g r.
Proof.
  unfold port_at, add_node. cbn [gr_nodes]. case_decide as E.
  - rewrite E, lookup_app_r, Nat.sub_diag by lia. done.
  - destruct (decide (r.1 < List.length (gr_nodes g))%nat).
    + by rewrite lookup_app_l.
    + rewrite (lookup_ge_None_2 (gr_nodes g ++ _)) by (rewrite length_app; cbn; lia).
      by rewrite lookup_ge_None_2 by lia.
Qed.

Lemma filter_none {A} (P : A -> Prop) `{!forall x, Decision (P x)} (l : list A) :
  (forall x, x ∈ l -> ~ P x) -> filter P l = [].
Proof.
  intros Hnot. induction l as [|x l IH]; [done|]. rewrite filter_cons, decide_False by (apply Hnot; left).
  apply IH. intros y Hy. apply Hnot. by right.
Qed.

Section Node.
Context (g : spa_fgn_graph) (Hg : graph_wf g) (n : fgn_node).
Context (Hfresh : Forall fresh_port (nd_ports n)) (Hname : find_node g (nd_name n) = None).
Context (Hroom : zlen (gr_nodes g) < FGN_MAX_NODES).
Context (Hin : nd_inputs n = positions is_input 0 (nd_ports n)).
Context (Hout : nd_outputs n = positions (fun p => negb (is_input p)) 0 (nd_ports n)).
Context (Hdeg : nd_indegree n = 0) (Hnp : zlen (nd_ports n) <= FGN_MAX_PORTS_PER_NODE).

Notation fresh := (List.length (gr_nodes g)).

Lemma no_link_fresh l : l ∈ gr_links g -> l.1.1 <> fresh /\ l.2.1 <> fresh.
Proof.
  destruct l as [o i]. intros Hl. destruct (wf_link g Hg o i Hl) as (p & q & Hp & Hq & _).
  apply port_at_node in Hp, Hq. cbn [fst snd]. lia.
Qed.

Lemma no_external_fresh d r : d = SPA_DIRECTION_INPUT \/ d = SPA_DIRECTION_OUTPUT ->
  r ∈ externals d g -> r.1 <> fresh.
Proof.
  intros Hd Hr. destruct (wf_external g Hg d r Hd Hr) as (p & Hp & _). apply port_at_node in Hp. lia.
Qed.

Lemma kept_port r p : port_at g r = Some p -> port_at (add_node n g) r = Some p.
Proof. intros Hp. rewrite port_at_add_node, decide_False; [done|]. apply port_at_node in Hp. lia. Qed.

Lemma node_port r p : port_at (add_node n g) r = Some p -> port_wired (add_node n g) r p.
Proof.
  rewrite port_at_add_node. case_decide as E; [|by intros Hp; destruct (wf_port g Hg r p Hp)]. intros Hp.
  pose proof (Forall_lookup_1 _ _ _ _ Hfresh Hp) as [Hf Hd (Hs & Hc & He)]. split; [done|done| | |].
  - intros o. rewrite Hs. split; [done|]. intros Hl. apply no_link_fresh in Hl as [_ Hl]. done.
  - rewrite Hc. unfold fan_out. rewrite filter_none; [done|]. intros l Hl. apply no_link_fresh in Hl as [Hl _].
    by intros <-.
  - rewrite He. symmetry. apply ext_index_absent. intros Hr. by apply (no_external_fresh _ _ Hd) in Hr.
Qed.

Lemma wf_add_node : graph_wf (add_node n g).
Proof.
  split.
  - cbn [gr_nodes add_node]. rewrite List.map_app. apply list.NoDup_app. split; [apply Hg|].
    split; [|apply NoDup_singleton]. intros x (m & -> & Hm)%list_elem_of_fmap Hx%list_elem_of_singleton.
    apply find_pos_none in Hname. rewrite list.Forall_forall in Hname. specialize (Hname m Hm).
    apply bool_decide_eq_false in Hname. congruence.
  - cbn [gr_nodes add_node]. rewrite zlen_app. change (zlen [n]) with 1. lia.
  - apply Hg.
  - apply Hg.
  - intros k m. cbn [gr_nodes add_node]. intros [Hk|[-> [= <-]]]%lookup_app_Some_snoc.
    + destruct (wf_node g Hg k m Hk). by split.
    + split; [done|done| |done]. rewrite Hdeg. unfold pending. rewrite filter_none; [done|].
      intros l Hl. apply no_link_fresh in Hl. tauto.
  - apply node_port.
  - intros o i Hl. destruct (wf_link g Hg o i Hl) as (p & q & Hp & Hq & Hj).
    exists p, q. split; [by apply kept_port|]. split; [by apply kept_port|done].
  - apply Hg.
  - apply Hg.
  - intros d r Hd Hr. destruct (wf_external g Hg d r Hd Hr) as (p & Hp & Hs).
    exists p. split; [by apply kept_port|done].
Qed.
End Node.
