(* ===== verification/GraphLoad.v ===== *)
(** * Loading a filter graph

    [spa_fgn_graph_new] of [spa/plugins/filter-graph/filter-graph-ndarray.c] from
    any text and any libraries whose tables have the entries they announce: it
    returns, a graph it returns is well-formed, connected, at one rate and in
    order, and of the instances and the prepared properties it asked the plugins
    for the graph has those it did not give back. *)
From stdpp Require Import relations.
From Stdlib Require Import String.
From S2P Require Import Prelude Bytes CString Json JsonProofs JsonStack NdarrayFormat NdarrayFormatProofs.
From S2P Require Import BufferAlloc MetaRecords GraphProps GraphPropsProofs FilterGraph GraphOrder GraphWf.
#[local] Open Scope Z_scope.

(** ** What the plugins promise *)

Definition honest_descriptor (d : spa_fgn_descriptor) : Prop :=
  forall get instance index res f, d_get_port_format d = Some get -> get instance index = (res, Some f) ->
    honest_format f.
Definition honest_plugins (dlopen : list byte -> option (option (Z -> option spa_fgn_plugin))) : Prop :=
  forall path entry abi p find label d, dlopen path = Some (Some entry) -> entry abi = Some p ->
    pl_find_descriptor p = Some find -> find label = Some d -> honest_descriptor d.

(** ** Calls that are owed *)

(** How often an instance was created and not cleaned up, and an object prepared
    and neither committed nor discarded. *)
Definition live (x : Z) (l : list call) : Z :=
  foldr (fun c n => match c with
                    | Instantiated y => n + (if x =? y then 1 else 0)
                    | Cleaned y => n - (if x =? y then 1 else 0)
                    | _ => n
                    end) 0 l.
Definition held_back (x o : Z) (l : list call) : Z :=
  foldr (fun c n => match c with
                    | Prepared y u => n + (if (x =? y) && (o =? u) then 1 else 0)
                    | Committed y u | Discarded y u => n - (if (x =? y) && (o =? u) then 1 else 0)
                    | _ => n
                    end) 0 l.

(** The nodes of an instance, and those of an instance and an object prepared
    for it. *)
Definition instances (x : Z) (ns : list fgn_node) : Z :=
  foldr (fun n k => k + (if x =? nd_instance n then 1 else 0)) 0 ns.
Definition prepared_of (x o : Z) (ns : list fgn_node) : Z :=
  foldr (fun n k => k + (if (x =? nd_instance n) && (o =? nd_initial_prepared n) then 1 else 0)) 0 ns.

(** From [l0] to [l] the calls created what the nodes have, and nothing else
    that is left. *)
Definition accounts (l0 : list call) (ns : list fgn_node) (l : list call) : Prop :=
  (forall x, live x l = live x l0 + instances x ns) /\
  (forall x o, o <> 0 -> held_back x o l = held_back x o l0 + prepared_of x o ns).

(** The descriptor can free what the node has. *)
Record frees (n : fgn_node) : Prop := {
  fr_instance : nd_instance n <> 0;
  fr_cleanup : d_cleanup (nd_descriptor n) = true;
  fr_discard : nd_initial_prepared n <> 0 -> d_discard_props (nd_descriptor n) = true }.

Lemma live_app x a b : live x (a ++ b) = live x a + live x b.
Proof. unfold live. induction a as [|c a IH]; [done|]. cbn. destruct c; rewrite IH; lia. Qed.
Lemma held_back_app x o a b : held_back x o (a ++ b) = held_back x o a + held_back x o b.
Proof. unfold held_back. induction a as [|c a IH]; [done|]. cbn. destruct c; rewrite IH; lia. Qed.
Lemma instances_app x a b : instances x (a ++ b) = instances x a + instances x b.
Proof. unfold instances. induction a as [|n a IH]; [done|]. cbn. rewrite IH. lia. Qed.
Lemma prepared_of_app x o a b : prepared_of x o (a ++ b) = prepared_of x o a + prepared_of x o b.
Proof. unfold prepared_of. induction a as [|n a IH]; [done|]. cbn. rewrite IH. lia. Qed.

(** Freeing a node gives back what it has. *)
Lemma accounts_free l0 ns n l : frees n -> accounts l0 (ns ++ [n]) l -> accounts l0 ns (l ++ node_free n).
Proof.
  intros [Hi Hc Hd] [Hl Hh]. unfold node_free. rewrite Hc. cbn [andb].
  rewrite (proj2 (Z.eqb_neq _ _) Hi). cbn [negb andb].
  assert (forall x, instances x (ns ++ [n]) = instances x ns + if x =? nd_instance n then 1 else 0) as Hi1
    by (intros; rewrite instances_app; cbn; lia).
  assert (forall x o, prepared_of x o (ns ++ [n]) =
            prepared_of x o ns + if (x =? nd_instance n) && (o =? nd_initial_prepared n) then 1 else 0) as Hp1
    by (intros; rewrite prepared_of_app; cbn; lia).
  destruct (Z.eqb_spec (nd_initial_prepared n) 0) as [E|E]; cbn [negb andb]; [|rewrite Hd by done].
  - split; [intros x|intros x o Ho]; rewrite ?live_app, ?held_back_app, ?Hl, ?Hi1; cbn; [lia|].
    rewrite Hh, Hp1, E by done. rewrite (proj2 (Z.eqb_neq _ _) Ho), andb_false_r. lia.
  - split; [intros x|intros x o Ho]; rewrite ?live_app, ?held_back_app, ?Hl, ?Hi1; cbn; [lia|].
    rewrite Hh, Hp1 by done. lia.
Qed.

Lemma accounts_free_all l0 ns : Forall frees ns -> forall l, accounts l0 ns l ->
  accounts l0 [] (l ++ List.concat (map node_free (rev ns))).
Proof.
  induction ns as [|n ns IH] using rev_ind; intros Hf l Ha; [by rewrite app_nil_r|].
  apply Forall_app in Hf as [Hf Hn]. rewrite rev_app_distr. cbn [rev app map List.concat].
  rewrite app_assoc. apply IH; [done|]. apply accounts_free; [by inversion Hn|done].
Qed.

(** ** Admission of a node *)

Notation returns m := (o_wp m (fun _ => True) True).

Lemma next_array_size_spec count maximum size : 0 <= maximum ->
  o_wp (next_array_size count maximum size) (fun _ => count < maximum) True.
Proof. intros. unfold next_array_size. case_if; [done|]. cbv zeta. by case_if. Qed.

Lemma metas_loop_returns ms : forall before bytes, returns (metas_loop before ms bytes).
Proof.
  induction ms as [|m ms IH]; intros before bytes; cbn [metas_loop]; [done|].
  destruct (_ || _); [done|]. destruct (existsb _ _); [done|]. apply IH.
Qed.

Lemma effective_loop_returns declared ms : forall before, returns (effective_loop declared before ms).
Proof.
  induction ms as [|m ms IH]; intros before; cbn [effective_loop]; [done|].
  destruct (existsb _ _); [done|]. destruct (List.find _ _); [|done]. destruct (_ || _); [done|]. apply IH.
Qed.

Lemma prepare_port_metadata_direction d instance info :
  o_wp (prepare_port_metadata d instance info) (fun e => pi_direction e = pi_direction info) True.
Proof.
  unfold prepare_port_metadata. destruct (spa_fgn_descriptor_has_get_port_metadata d); [|done].
  destruct (d_get_port_metadata d) as [f|]; [|done]. unfold checked.
  destruct (f instance (pi_index info)) as [res [metas n]]. cbn [fst snd]. destruct (res <? 0); [done|].
  cbn [obind]. destruct (_ || _); [done|]. apply o_wp_bind.
  eapply o_wp_mono; [apply effective_loop_returns|done|done].
Qed.

Lemma admit_port_spec d instance before info :
  honest_descriptor d -> d_get_port_format d <> None ->
  o_wp (admit_port d instance before info) fresh_port True.
Proof.
  intros Hh Hget. unfold admit_port. destruct (bad_port d info) eqn:Eb; [done|].
  destruct (existsb _ _); [done|]. destruct (_ || _); [done|].
  apply o_wp_bind. eapply o_wp_mono; [apply metas_loop_returns|intros _ _|done].
  apply o_wp_bind. eapply o_wp_mono; [apply prepare_port_metadata_direction|intros e He|done].
  destruct (d_get_port_format d) as [get|] eqn:Eg; [|done].
  unfold checked. destruct (get instance (pi_index info)) as [res f] eqn:Ef. cbn [fst snd].
  destruct (res <? 0); [done|]. cbn [obind]. destruct f as [f|]; [|done].
  apply o_wp_bind. eapply o_wp_mono; [apply format_size_spec; by eapply Hh| |done].
  intros bytes Hb. split; cbn; [done| |done]. rewrite He. unfold bad_port in Eb. bool_to_prop. lia.
Qed.

Lemma admit_ports_spec d instance infos : honest_descriptor d -> d_get_port_format d <> None ->
  forall before, o_wp (admit_ports d instance before infos) (fun ps => Forall fresh_port ps /\ List.length ps = List.length infos) True.
Proof.
  intros Hh Hget. induction infos as [|info infos IH]; intros before; cbn [admit_ports]; [by split; [constructor|]|].
  apply o_wp_bind. eapply o_wp_mono; [by apply admit_port_spec|intros p Hp|done].
  apply o_wp_bind. eapply o_wp_mono; [apply IH|intros ps [Hps Hl]|done]. split; [by constructor|]. cbn. by rewrite Hl.
Qed.

Lemma storage_metas_returns ms : forall offset, returns (storage_metas ms offset).
Proof.
  induction ms as [|m ms IH]; intros offset; cbn [storage_metas]; [done|]. destruct (negb _); [done|].
  apply o_wp_bind. eapply o_wp_mono; [apply IH|done|done].
Qed.

Lemma storage_init_returns f size bytes info : format_ok f bytes -> returns (storage_init f size info).
Proof.
  intros Hf. unfold storage_init. cbv zeta.
  set (axis := if _ =? _ then _ else _). pose proof (ok_dims f bytes Hf) as Hd. pose proof (fo_dimensions f bytes Hf).
  assert (0 <= axis < f_n_dimensions f) as Ha by (unfold axis; case_if; rewrite ?wrap_small; lia).
  destruct (lookup_lt_is_Some_2 (default [] (f_shape f)) (Z.to_nat axis)) as [d Hdim]; [unfold zlen in Hd; lia|].
  unfold shape_at. rewrite Hdim. cbn [obind]. destruct (INT32_MAX <? _); [done|].
  apply o_wp_bind. eapply o_wp_mono; [apply storage_metas_returns|done|done].
Qed.

Lemma init_outputs_returns ps : Forall fresh_port ps -> returns (init_outputs ps).
Proof.
  induction 1 as [|p ps Hp _ IH]; cbn [init_outputs]; [done|]. destruct (_ =? _); [done|].
  apply o_wp_bind. eapply o_wp_mono; [eapply storage_init_returns, fp_format, Hp|done|done].
Qed.

Lemma choices_loop_returns type cs : forall before, returns (choices_loop type before cs).
Proof.
  induction cs as [|c cs IH]; intros before; cbn [choices_loop]; [done|].
  destruct (_ || _); [done|]. destruct (existsb _ _); [done|]. apply IH.
Qed.

Lemma validate_value_returns info v : returns (validate_value info v).
Proof.
  unfold validate_value. destruct (negb _); [done|]. destruct (_ && _); [done|].
  destruct (has _ _); [by destruct (existsb _ _)|]. destruct (negb _); [done|].
  unfold in_range. cbv zeta. repeat (case_if; [by case_if|]). done.
Qed.

Lemma validate_property_info_returns info : returns (validate_property_info info).
Proof.
  unfold validate_property_info. destruct (_ || _); [done|]. cbv zeta. destruct (_ || _); [done|].
  destruct (has _ _).
  - destruct (_ =? _); [done|]. apply o_wp_bind.
    eapply o_wp_mono; [apply choices_loop_returns|intros _ _; apply validate_value_returns|done].
  - destruct (negb (has _ _)); [apply validate_value_returns|]. destruct (_ || _); [done|].
    destruct (negb _); [done|apply validate_value_returns].
Qed.

(** The bound on the number of properties ends the loop over them. *)
Lemma enum_loop_returns enum fuel : forall i ps,
  FGN_MAX_PROPERTIES_PER_NODE + 1 < zlen ps + Z.of_nat fuel -> zlen ps <= FGN_MAX_PROPERTIES_PER_NODE ->
  returns (enum_loop fuel enum i ps).
Proof.
  induction fuel as [|fuel IH]; intros i ps Hf Hps; [lia|]. cbn [enum_loop].
  destruct (enum i) as [res info]. destruct (res =? 0); [done|]. destruct (res <? 0); [done|].
  apply o_wp_bind. eapply o_wp_mono; [apply validate_property_info_returns|intros _ _|done].
  destruct (existsb _ _); [done|]. apply o_wp_bind.
  eapply o_wp_mono; [by apply next_array_size_spec| |done]. intros a Hn. cbv beta in Hn.
  apply IH; rewrite zlen_app; change (zlen [info]) with 1; lia.
Qed.

Lemma load_properties_returns d instance : returns (load_properties d instance).
Proof.
  unfold load_properties. destruct (d_enum_prop_info d); [|done]. apply enum_loop_returns; [|done].
  unfold enum_fuel. change (zlen []) with 0. lia.
Qed.

(** ** Nodes *)

Section Load.
Context (text : list byte) (strtof strtod : list byte -> option Z).
Context (canonicalize : spa_json -> token -> option (list byte)).
Context (dlopen : list byte -> option (option (Z -> option spa_fgn_plugin))).
Context (Hhonest : honest_plugins dlopen).

Lemma value_from_json_returns info st st' t :
  iter_ok text (top st) -> later text st st' -> token_of text st st' t ->
  returns (value_from_json strtof strtod info text t).
Proof.
  intros Hok Hl Ht. unfold value_from_json. cbv zeta.
  repeat (destruct (_ =? _);
    [match goal with
     | |- context [spa_json_parse_stringn] =>
         pose proof (parse_token text st st' t 512 Hok Hl Ht) as Hp;
         destruct (spa_json_parse_stringn text t 512); [|done|done]
     | |- context [match ?b with Some _ => _ | None => _ end] => destruct b; [|done]
     end; apply o_wp_bind; eapply o_wp_mono; [apply validate_value_returns|done|done]|]).
  done.
Qed.

(** A loop over the members of an object, whose answers are results. *)
Notation member_loop m st Q :=
  (st_wp m (fun r st' => stack_later text st st' /\ o_wp r Q True) (fun _ => False) st).

Lemma initial_loop_returns fuel n : forall ps st, stack_ok text st -> rounds st fuel ->
  member_loop (initial_loop text strtof strtod fuel n ps) st (fun _ => True).
Proof.
  induction fuel as [|fuel IH]; intros ps st Hok Hf.
  { pose proof (iter_pos _ _ (stack_top _ _ Hok)). unfold rounds in Hf. lia. }
  cbn [initial_loop]. apply st_wp_bind. eapply st_wp_mono; [by apply object_next_stack| |done].
  intros [key t|res] st1 (Hs1 & Hl & Hr).
  - destruct Hr as [_ Ht]. destruct (find_property _ _) as [info|]; [|done].
    destruct (negb _); [done|]. destruct (existsb _ _); [done|].
    pose proof (next_array_size_spec (zlen ps) FGN_MAX_PROPERTIES_PER_NODE 24 ltac:(lia)) as Hn.
    destruct (next_array_size _ _ _); [|done|done].
    pose proof (value_from_json_returns info _ _ _ (stack_top _ _ Hok) Hl Ht) as Hv.
    destruct (value_from_json _ _ _ _ _); [|done|done].
    eapply st_wp_mono; [apply IH; [apply Hs1|]| |done].
    + pose proof (token_of_lt _ _ _ _ Ht). destruct Hl. unfold rounds in *. lia.
    + intros r st2 [Hs2 Ho]. split; [by eapply stack_later_trans|done].
  - split; [done|]. by destruct (res <? 0).
Qed.

(** What [find_plugin] makes sure of. *)
Record usable (d : spa_fgn_descriptor) : Prop := {
  us_honest : honest_descriptor d;
  us_instantiate : d_instantiate d <> None;
  us_format : d_get_port_format d <> None;
  us_cleanup : d_cleanup d = true;
  us_discard : d_prepare_props d <> None -> d_discard_props d = true;
  us_n_ports : d_n_ports d <= FGN_MAX_PORTS_PER_NODE }.

Lemma find_plugin_usable path label : o_wp (find_plugin dlopen path label) usable True.
Proof.
  unfold find_plugin. destruct (dlopen path) as [[entry|]|] eqn:E1; try done.
  destruct (entry _) as [p|] eqn:E2; [|done]. destruct (bad_plugin p); [done|].
  destruct (pl_find_descriptor p) as [find|] eqn:E3; [|done].
  destruct (find label) as [d|] eqn:E4; [|done]. destruct (bad_descriptor d label) eqn:Eb; [done|].
  unfold bad_descriptor in Eb. apply orb_false_iff in Eb as [Eb _].
  repeat match type of Eb with _ || _ = false => let H := fresh "B" in apply orb_false_iff in Eb as [Eb H] end.
  split.
  - by eapply Hhonest.
  - by destruct (d_instantiate d).
  - by destruct (d_get_port_format d).
  - by destruct (d_cleanup d).
  - intros Hp. destruct (d_prepare_props d), (d_discard_props d), (d_commit_props d); done.
  - lia.
Qed.

(** The ports that are admitted are no more than the descriptor declares. *)
Lemma admitted d instance : usable d ->
  o_wp (admit_ports d instance [] (take (Z.to_nat (d_n_ports d)) (default [] (d_ports d))))
    (fun ports => Forall fresh_port ports /\ zlen ports <= FGN_MAX_PORTS_PER_NODE) True.
Proof.
  intros Hd. eapply o_wp_mono; [apply admit_ports_spec; apply Hd|intros ports [Hf Hl]|done]. split; [done|].
  unfold zlen. rewrite Hl, length_take. pose proof (us_n_ports d Hd). lia.
Qed.

(** A node as it is before its properties are prepared, and after. *)
Lemma accounts_prepared l0 ns name d x ports props u l : u <> 0 ->
  accounts l0 (ns ++ [new_node name d x ports props 0]) l ->
  accounts l0 (ns ++ [new_node name d x ports props u]) (l ++ [Prepared x u]).
Proof.
  intros Hu [Hl Hh]. split; [intros y|intros y o Ho].
  - rewrite live_app, Hl, !instances_app. cbn. lia.
  - rewrite held_back_app, Hh, !prepared_of_app by done. cbn.
    rewrite (proj2 (Z.eqb_neq _ _) Ho), andb_false_r. lia.
Qed.

Lemma accounts_cancel l0 ns x u l : accounts l0 ns l -> accounts l0 ns ((l ++ [Prepared x u]) ++ [Discarded x u]).
Proof.
  intros [Hl Hh]. split; [intros y|intros y o Ho]; rewrite !live_app || rewrite !held_back_app; rewrite ?Hl, ?Hh by done; cbn; lia.
Qed.

Lemma prepare_initial_accounts l0 ns name d x ports props st l :
  usable d -> stack_ok text st ->
  accounts l0 (ns ++ [new_node name d x ports props 0]) l ->
  st_wp (node_prepare_initial_props text strtof strtod (new_node name d x ports props 0) st)
    (fun u l' => (u <> 0 -> d_discard_props d = true) /\ accounts l0 (ns ++ [new_node name d x ports props u]) l')
    (fun l' => accounts l0 (ns ++ [new_node name d x ports props 0]) l') l.
Proof.
  intros Hd Hok Ha. unfold st_wp, node_prepare_initial_props. cbn [nd_descriptor nd_instance new_node].
  pose proof (initial_loop_returns (json_fuel st) (new_node name d x ports props 0) [] st Hok
                (json_fuel_rounds _ _ (stack_top _ _ Hok))) as Hi. unfold st_wp in Hi.
  destruct (initial_loop _ _ _ _ _ _ _) as [[[[|p ps]| |]| |] st']; try (by destruct Hi); try done.
  destruct (d_prepare_props d) as [prepare|] eqn:Ep; [|done]. destruct (d_commit_props d); [|done].
  assert (d_discard_props d = true) as Hdis by (apply Hd; by rewrite Ep).
  destruct (prepare x (p :: ps)) as [res u]. rewrite Hdis, andb_true_r.
  destruct (Z.eqb_spec u 0) as [->|Hu]; cbn [negb]; destruct (res <? 0); try done.
  - by apply accounts_cancel.
  - split; [done|]. by apply accounts_prepared.
Qed.

Definition loading (l0 : list call) (g : spa_fgn_graph) (l : list call) : Prop :=
  (graph_wf g /\ gr_inputs g = [] /\ gr_outputs g = []) /\ Forall frees (gr_nodes g) /\ accounts l0 (gr_nodes g) l.

Lemma accounts_like l0 ns n m l : nd_instance m = nd_instance n -> nd_initial_prepared m = nd_initial_prepared n ->
  accounts l0 (ns ++ [n]) l -> accounts l0 (ns ++ [m]) l.
Proof.
  intros Ei Ep [Hl Hh]. split; [intros x|intros x o Ho].
  - rewrite Hl, !instances_app. cbn. by rewrite Ei.
  - rewrite Hh, !prepared_of_app by done. cbn. by rewrite Ei, Ep.
Qed.

Lemma or_free_wp {A} l0 ns n (m : outcome A) (Q : A -> Prop) l :
  frees n -> accounts l0 (ns ++ [n]) l -> o_wp m Q True ->
  st_wp (or_free n m) (fun a l' => l' = l /\ Q a) (accounts l0 ns) l.
Proof. intros Hn Ha Hm. unfold st_wp, or_free. destruct m; [done| |done]. by apply accounts_free. Qed.

Lemma accounts_instantiated l0 ns n l : nd_initial_prepared n = 0 ->
  accounts l0 ns l -> accounts l0 (ns ++ [n]) (l ++ [Instantiated (nd_instance n)]).
Proof.
  intros Ep [Hl Hh]. split; [intros x|intros x o Ho].
  - rewrite live_app, instances_app, Hl. cbn. lia.
  - rewrite held_back_app, prepared_of_app, Hh by done. cbn. rewrite Ep, (proj2 (Z.eqb_neq _ _) Ho), andb_false_r. lia.
Qed.

Definition props_ok (c : node_config) : Prop := match c_props c with Some st => stack_ok text st | None => True end.

Lemma initial_prepared_spec l0 ns name d x ports properties props l :
  usable d -> x <> 0 -> match props with Some st => stack_ok text st | None => True end ->
  accounts l0 (ns ++ [new_node name d x ports properties 0]) l ->
  st_wp (match props with
         | None => st_ret 0
         | Some st => fun l =>
             match node_prepare_initial_props text strtof strtod (new_node name d x ports properties 0) st l with
             | (Err e, l) => (Err e, l ++ node_free (new_node name d x ports properties 0))
             | r => r
             end
         end)
    (fun u l' => frees (new_node name d x ports properties u) /\
                 accounts l0 (ns ++ [new_node name d x ports properties u]) l') (accounts l0 ns) l.
Proof.
  intros Hd Hx Hok Ha. destruct props as [st|].
  - pose proof (prepare_initial_accounts l0 ns name d x ports properties st l Hd Hok Ha) as Hp.
    unfold st_wp in *. destruct (node_prepare_initial_props _ _ _ _ _ _) as [[u| |] l']; [| |done].
    + destruct Hp as [Hu Hp]. split; [|done]. split; cbn; [done|apply Hd|done].
    + apply accounts_free; [|done]. split; cbn; [done|apply Hd|done].
  - split; [|done]. split; cbn; [done|apply Hd|done].
Qed.

Lemma load_node_config_spec l0 g c l : loading l0 g l -> props_ok c ->
  st_wp (load_node_config text strtof strtod dlopen g c) (loading l0) (accounts l0 (gr_nodes g)) l.
Proof.
  intros ((Hg & Hin & Hout) & Hfr & Ha) Hc. unfold load_node_config. destruct (_ || _) eqn:Ename; [done|].
  apply st_wp_bind, st_wp_lift. eapply o_wp_mono; [apply find_plugin_usable| |done]. intros d Hd.
  destruct (d_instantiate d) as [inst|] eqn:Ei; [|by destruct (us_instantiate d Hd)].
  destruct (inst _) as [res x]. set (free := new_node (c_name c) d x [] [] 0).
  destruct (Z.eqb_spec x 0) as [->|Hx].
  { cbn [st_ret st_bind]. apply st_wp_bind. destruct (res <? 0); [|by split]. unfold st_wp. cbn.
    by rewrite app_nil_r. }
  apply st_wp_bind, st_wp_modify.
  assert (frees free) as Hfree by (split; cbn; [done|apply Hd|done]).
  pose proof (accounts_instantiated l0 (gr_nodes g) free l eq_refl Ha) as Ha1. cbn [nd_instance free new_node] in Ha1.
  set (l1 := l ++ [Instantiated x]) in *.
  assert (forall A (m : outcome A) Q, o_wp m Q True ->
    st_wp (or_free free m) (fun a l' => l' = l1 /\ Q a) (accounts l0 (gr_nodes g)) l1) as Hor
    by (intros; by apply or_free_wp).
  destruct (res <? 0).
  { eapply st_wp_mono; [apply (Hor _ (Err (- res)) (fun _ => False) I)|by intros ? ? [_ []]|done]. }
  apply st_wp_bind. eapply st_wp_mono; [apply (Hor _ _ (fun ports => Forall fresh_port ports /\ zlen ports <= FGN_MAX_PORTS_PER_NODE)), admitted; apply Hd| |done].
  intros ports ? (-> & Hports & Hnp). cbv beta.
  apply st_wp_bind. eapply st_wp_mono; [apply (Hor _ _ (fun _ => True))| |done].
  { unfold check_propagation. by case_if. }
  intros _ ? [-> _]. apply st_wp_bind.
  eapply st_wp_mono; [apply (Hor _ _ (fun _ => True)); by apply init_outputs_returns| |done].
  intros _ ? [-> _]. apply st_wp_bind.
  eapply st_wp_mono; [apply (Hor _ _ (fun _ => True)), load_properties_returns| |done].
  intros properties ? [-> _]. apply st_wp_bind. eapply st_wp_mono; [apply initial_prepared_spec; [done|done|done|]| |done].
  { by eapply accounts_like; [| |exact Ha1]. }
  intros u l2 [Hfu Ha2]. apply st_wp_bind.
  eapply st_wp_mono; [eapply or_free_wp; [done|done|by apply next_array_size_spec]| |done].
  intros _ ? [-> Hroom]. unfold st_wp. cbn. split; [|split].
  - split; [|done]. apply wf_add_node; try done. apply orb_false_iff in Ename as [_ Ename].
    by destruct (find_node _ _).
  - apply Forall_app. split; [done|]. by constructor.
  - done.
Qed.

Lemma string_member_returns st st' t size :
  iter_ok text (top st) -> later text st st' -> token_of text st st' t -> returns (string_member text t size).
Proof.
  intros Hok Hl Ht. unfold string_member. pose proof (parse_token text st st' t size Hok Hl Ht).
  by destruct (spa_json_parse_stringn text t size).
Qed.

Lemma node_member_spec st st' c key t : stack_ok text st -> stack_later text st st' -> token_of text st st' t ->
  props_ok c -> o_wp (node_member text canonicalize c key t st') props_ok True.
Proof.
  intros Hok [Hl _ Hok'] Ht Hc. unfold node_member.
  assert (forall size, returns (string_member text t size)) as Hs
    by (intros; by eapply string_member_returns; [apply Hok| |]).
  repeat (match goal with |- o_wp (if ?b then _ else _) _ _ => destruct b end;
    [first [apply o_wp_bind; eapply o_wp_mono; [apply Hs| |done]; intros s _; try done; by case_if
           |destruct (c_config c); [done|]; by destruct (canonicalize _ t)
           |destruct (spa_json_is_object _); [by apply enter_stack|done]]|]).
  done.
Qed.

Lemma node_members_spec fuel : forall c st, stack_ok text st -> rounds st fuel -> props_ok c ->
  member_loop (node_members text canonicalize fuel c) st props_ok.
Proof.
  induction fuel as [|fuel IH]; intros c st Hok Hf Hc.
  { pose proof (iter_pos _ _ (stack_top _ _ Hok)). unfold rounds in Hf. lia. }
  cbn [node_members]. apply st_wp_bind. eapply st_wp_mono; [by apply object_next_stack| |done].
  intros [key t|res] st1 (Hs1 & Hl & Hr); [|by split].
  destruct Hr as [_ Ht]. pose proof (node_member_spec st st1 c (to_cstr key) t Hok Hs1 Ht Hc) as Hm.
  unfold st_wp. destruct (node_member _ _ _ _ _ _) as [c'| |]; [|done|done].
  eapply st_wp_mono; [apply IH; [apply Hs1| |done]| |done].
  - pose proof (token_of_lt _ _ _ _ Ht). destruct Hl. unfold rounds in *. lia.
  - intros r st2 [Hs2 Ho]. split; [by eapply stack_later_trans|done].
Qed.

Lemma load_node_spec l0 g st l : loading l0 g l -> stack_ok text st ->
  st_wp (load_node text strtof strtod canonicalize dlopen g st)
    (fun r l' => loading l0 r.1 l' /\ stack_later text st r.2) (accounts l0 (gr_nodes g)) l.
Proof.
  intros Hg Hok. unfold st_wp, load_node.
  pose proof (node_members_spec (json_fuel st) (mk_config [] [] [] None None) st Hok
                (json_fuel_rounds _ _ (stack_top _ _ Hok)) I) as Hm. unfold st_wp in Hm.
  destruct (node_members _ _ _ _ _) as [[[c| |]| |] st']; try (by destruct Hm); [|by apply Hg].
  destruct Hm as [Hs Hc]. pose proof (load_node_config_spec l0 g c l Hg Hc) as Hn. unfold st_wp in Hn.
  by destruct (load_node_config _ _ _ _ _ _ _) as [[] ].
Qed.

(** The iterator of a list after a round over one of its objects. *)
Lemma leave_rounds st sub (fuel : nat) : stack_later text (spa_json_enter st) sub -> rounds st fuel ->
  stack_ok text (leave sub) /\ rounds (leave sub) fuel.
Proof.
  intros Hs Hf. destruct (leave_stack text st sub Hs) as (it & ps & E & Hok & He & Hc).
  unfold leave. rewrite E. split; [done|]. unfold rounds in *. cbn. lia.
Qed.

Lemma enter_container_rounds st st' res (fuel : nat) : 0 < res -> rounds st (S fuel) ->
  stack_later text st st' -> (0 < res -> j_cur (top st) < j_cur (top st')) -> rounds st' fuel.
Proof. intros Hr Hf [[] _ _] Hc. specialize (Hc Hr). unfold rounds in *. lia. Qed.

Lemma load_nodes_spec l0 fuel : forall g st l, loading l0 g l -> stack_ok text st -> rounds st fuel ->
  st_wp (load_nodes text strtof strtod canonicalize dlopen fuel g st) (loading l0) (accounts l0 []) l.
Proof.
  induction fuel as [|fuel IH]; intros g st l Hg Hok Hf.
  { pose proof (iter_pos _ _ (stack_top _ _ Hok)). unfold rounds in Hf. lia. }
  unfold st_wp. cbn [load_nodes]. pose proof (enter_container_stack text Byte.x7b st Hok) as He. unfold st_wp in He.
  destruct (spa_json_enter_container _ _ st) as [[res| |] st1]; [|done|done]. destruct He as [Hs1 Hc].
  destruct (Z.leb_spec res 0) as [|Hres]; [done|].
  pose proof (load_node_spec l0 g _ l Hg (enter_stack _ _ (sl_ok _ _ _ Hs1))) as Hn. unfold st_wp in Hn.
  destruct (load_node _ _ _ _ _ _ _ _) as [[[g' sub]| |] l']; [| |done].
  - destruct Hn as [Hg' Hsub]. cbn [fst snd] in *.
    destruct (leave_rounds st1 sub fuel Hsub) as [Hok2 Hf2]; [by eapply enter_container_rounds|].
    by apply IH.
  - apply accounts_free_all; [apply Hg|done].
Qed.

(** ** Links *)

Lemma resolve_port_spec g reference d r : resolve_port g reference d = Some r ->
  exists p, port_at g r = Some p /\ pi_direction (pt_info p) = d.
Proof.
  unfold resolve_port. destruct (qualified reference) as [[name port]|]; [|done].
  destruct (find_node g name) as [k|]; [|done]. destruct (gr_nodes g !! k) as [n|] eqn:Ek; [|done].
  destruct (find_port n port d) as [j|] eqn:Ej; [|done]. intros [= <-].
  apply find_pos_some in Ej as (p & Hp & Hd). exists p. unfold port_at. cbn [fst snd]. rewrite Ek.
  split; [done|]. apply andb_prop in Hd as [Hd _]. lia.
Qed.

(** What the nodes own, which links and external ports do not change. *)
Definition owner (n : fgn_node) : Z * Z * spa_fgn_descriptor :=
  (nd_instance n, nd_initial_prepared n, nd_descriptor n).
Definition owned (g : spa_fgn_graph) : list (Z * Z * spa_fgn_descriptor) := map owner (gr_nodes g).

Lemma link_ports_spec g output input : graph_wf g ->
  o_wp (link_ports g output input)
    (fun g' => graph_wf g' /\ owned g' = owned g /\ gr_inputs g' = gr_inputs g /\ gr_outputs g' = gr_outputs g) True.
Proof.
  intros Hg. unfold link_ports. destruct (resolve_port g output _) as [o|] eqn:Eo; [|done].
  destruct (resolve_port g input _) as [i|] eqn:Ei; [|done].
  destruct (resolve_port_spec _ _ _ _ Eo) as (p & Hp & Hdp). destruct (resolve_port_spec _ _ _ _ Ei) as (q & Hq & Hdq).
  rewrite Hp, Hq. destruct (has _ _) eqn:Epar; [done|]. destruct (_ || _) eqn:Eb; [done|].
  apply orb_false_iff in Eb as [Esrc Eext]. apply negb_false_iff in Esrc, Eext.
  apply o_wp_bind. eapply o_wp_mono; [eapply format_equal_spec; by eapply wf_port| |done].
  intros [] Hf; cbn [negb]; [|done]. destruct (metas_offered _ _) eqn:Em; cbn [negb]; [|done].
  apply o_wp_bind. eapply o_wp_mono; [by apply next_array_size_spec| |done]. intros x Hroom. cbv beta in Hroom.
  split; [|split; [by apply map_add_link|done]].
  apply (wf_add_link g Hg o i p q); try done; [split; auto|by destruct (pt_source q)|lia].
Qed.

Lemma link_members_spec fuel : forall output input st, stack_ok text st -> rounds st fuel ->
  member_loop (link_members text fuel output input) st (fun _ => True).
Proof.
  induction fuel as [|fuel IH]; intros output input st Hok Hf.
  { pose proof (iter_pos _ _ (stack_top _ _ Hok)). unfold rounds in Hf. lia. }
  cbn [link_members]. apply st_wp_bind. eapply st_wp_mono; [by apply object_next_stack| |done].
  intros [key t|res] st1 (Hs1 & Hl & Hr); [|by split]. destruct Hr as [_ Ht].
  assert (forall output input, member_loop (link_members text fuel output input) st1 (fun _ => True) ->
    st_wp (link_members text fuel output input)
      (fun r st' => stack_later text st st' /\ returns r) (fun _ => False) st1) as Hmono.
  { intros x y H. eapply st_wp_mono; [exact H| |done]. intros r st2 [Hs2 Ho].
    split; [by eapply stack_later_trans|done]. }
  assert (rounds st1 fuel) as Hf1.
  { pose proof (token_of_lt _ _ _ _ Ht). destruct Hl. unfold rounds in *. lia. }
  pose proof (string_member_returns st st1 t 512 (stack_top _ _ Hok) Hl Ht) as Hs.
  unfold st_wp. destruct (spa_streq _ _); [|destruct (spa_streq _ _); [|done]];
    (destruct (string_member text t 512) as [s| |]; [|done|done]);
    apply Hmono, IH; (apply Hs1 || done).
Qed.

Lemma load_link_spec g st : graph_wf g -> stack_ok text st ->
  o_wp (load_link text g st)
    (fun r => (graph_wf r.1 /\ owned r.1 = owned g /\ gr_inputs r.1 = gr_inputs g /\ gr_outputs r.1 = gr_outputs g) /\
              stack_later text st r.2) True.
Proof.
  intros Hg Hok. unfold load_link.
  pose proof (link_members_spec (json_fuel st) [] [] st Hok (json_fuel_rounds _ _ (stack_top _ _ Hok))) as Hm.
  unfold st_wp in Hm. destruct (link_members _ _ _ _ _) as [[[[output input]| |]| |] st']; try (by destruct Hm).
  apply o_wp_bind. eapply o_wp_mono; [by apply link_ports_spec| |done]. intros g' Hg'. by destruct Hm.
Qed.

Lemma load_links_spec fuel : forall g st, graph_wf g -> stack_ok text st -> rounds st fuel ->
  o_wp (load_links text fuel g st)
    (fun g' => graph_wf g' /\ owned g' = owned g /\ gr_inputs g' = gr_inputs g /\ gr_outputs g' = gr_outputs g) True.
Proof.
  induction fuel as [|fuel IH]; intros g st Hg Hok Hf.
  { pose proof (iter_pos _ _ (stack_top _ _ Hok)). unfold rounds in Hf. lia. }
  cbn [load_links]. pose proof (enter_container_stack text Byte.x7b st Hok) as He. unfold st_wp in He.
  destruct (spa_json_enter_container _ _ st) as [[res| |] st1]; [|done|done]. destruct He as [Hs1 Hc].
  destruct (Z.leb_spec res 0) as [|Hres]; [done|].
  apply o_wp_bind. eapply o_wp_mono; [apply load_link_spec; [done|by apply enter_stack, Hs1]| |done].
  intros [g' sub] [(Hg' & Eo & Ei & Eu) Hsub]. cbn [fst snd] in *.
  destruct (leave_rounds st1 sub fuel Hsub) as [Hok2 Hf2]; [by eapply enter_container_rounds|].
  eapply o_wp_mono; [by apply IH| |done]. intros g2 (? & ? & ? & ?). split; [done|]. split; [|split]; congruence.
Qed.

(** ** External ports *)

(** The other list of external ports. *)
Definition other (d : Z) : Z := 1 - d.

(** A step that adds external ports of direction [d]. *)
Definition exports (d : Z) (g g' : spa_fgn_graph) : Prop :=
  graph_wf g' /\ owned g' = owned g /\ externals (other d) g' = externals (other d) g.

Lemma exports_trans d g g' g'' : exports d g g' -> exports d g' g'' -> exports d g g''.
Proof. intros (? & ? & ?) (? & ? & ?). split; [done|]. split; congruence. Qed.

Lemma add_external_exports g d r p : graph_wf g -> d = SPA_DIRECTION_INPUT \/ d = SPA_DIRECTION_OUTPUT ->
  port_at g r = Some p -> pi_direction (pt_info p) = d -> pt_external p = SPA_ID_INVALID ->
  (d = SPA_DIRECTION_INPUT -> pt_source p = None) -> zlen (externals d g) < FGN_MAX_EXTERNAL_PORTS ->
  exports d g (add_external d r g).
Proof.
  intros Hg Hd Hp Ed Ee Es Hroom. split; [by eapply wf_add_external|]. split; [by apply map_add_external|].
  rewrite externals_add, decide_False; [done|]. unfold other. by destruct Hd as [-> | ->].
Qed.

Lemma load_external_spec d g reference : graph_wf g -> d = SPA_DIRECTION_INPUT \/ d = SPA_DIRECTION_OUTPUT ->
  o_wp (load_external d g reference) (exports d g) True.
Proof.
  intros Hg Hd. unfold load_external. destruct (resolve_port g reference d) as [r|] eqn:Er; [|done].
  destruct (resolve_port_spec _ _ _ _ Er) as (p & Hp & Hdp). rewrite Hp. destruct (_ || _) eqn:Eb; [done|].
  apply orb_false_iff in Eb as [Ee Es]. apply negb_false_iff in Ee.
  apply o_wp_bind. eapply o_wp_mono; [by apply next_array_size_spec| |done]. intros x Hroom. cbv beta in Hroom.
  eapply add_external_exports; try done; [lia|]. intros ->. by destruct (pt_source p).
Qed.

Lemma external_loop_spec fuel d : d = SPA_DIRECTION_INPUT \/ d = SPA_DIRECTION_OUTPUT ->
  forall g st, graph_wf g -> stack_ok text st -> rounds st fuel ->
  st_wp (external_loop fuel text d g) (fun r _ => o_wp r (exports d g) True) (fun _ => False) st.
Proof.
  intros Hd. induction fuel as [|fuel IH]; intros g st Hg Hok Hf.
  { pose proof (iter_pos _ _ (stack_top _ _ Hok)). unfold rounds in Hf. lia. }
  cbn [external_loop]. apply st_wp_bind. eapply st_wp_mono; [by apply get_string_stack| |done].
  intros [s|res] st1 (Hs1 & Hl & Hr); [|by split]. destruct Hr as [Hlt _].
  pose proof (load_external_spec d g (to_cstr s) Hg Hd) as He.
  unfold st_wp. destruct (load_external d g _) as [g'| |]; [|done|done].
  assert (rounds st1 fuel) as Hf1 by (destruct Hl; unfold rounds in *; lia).
  eapply st_wp_mono; [apply IH; [apply He|apply Hs1|done]| |done].
  intros r ? Hr. cbv beta in Hr. eapply o_wp_mono; [exact Hr| |done]. intros g2 Hg2. by eapply exports_trans.
Qed.

Lemma load_external_ports_spec d g st : d = SPA_DIRECTION_INPUT \/ d = SPA_DIRECTION_OUTPUT ->
  graph_wf g -> stack_ok text st -> o_wp (load_external_ports text g st d) (exports d g) True.
Proof.
  intros Hd Hg Hok. unfold load_external_ports.
  pose proof (external_loop_spec (json_fuel st) d Hd g st Hg Hok (json_fuel_rounds _ _ (stack_top _ _ Hok))) as He.
  unfold st_wp in He. by destruct (external_loop _ _ _ _ _) as [[] ].
Qed.

Lemma positions_spec f ps : forall i j, j ∈ positions f i ps <->
  exists k p, j = (i + k)%nat /\ ps !! k = Some p /\ f p = true.
Proof.
  induction ps as [|p ps IH]; intros i j; cbn [positions].
  { split; [by intros ?%not_elem_of_nil|]. by intros (k & p & _ & H & _). }
  assert (j ∈ positions f (S i) ps <-> exists k p, j = (S i + k)%nat /\ ps !! k = Some p /\ f p = true) as H by apply IH.
  split.
  - intros Hj. assert (f p = true /\ j = i \/ j ∈ positions f (S i) ps) as [[Hp ->]|Hj'].
    { destruct (f p); [apply elem_of_cons in Hj as [->|?]; auto|by right]. }
    + exists O, p. split; [lia|done].
    + apply H in Hj' as (k & q & -> & Hq & Hf). exists (S k), q. split; [lia|done].
  - intros ([|k] & q & -> & Hq & Hf).
    + injection Hq as ->. rewrite Hf, Nat.add_0_r. left.
    + assert ((i + S k)%nat ∈ positions f (S i) ps) by (apply H; exists k, q; split; [lia|done]).
      destruct (f p); [by right|done].
Qed.

Lemma positions_NoDup f ps : forall i, NoDup (positions f i ps).
Proof.
  induction ps as [|p ps IH]; intros i; cbn [positions]; [constructor|]. destruct (f p); [|apply IH].
  constructor; [|apply IH]. intros (k & q & Hk & _)%positions_spec. lia.
Qed.

Definition exportable (d : Z) (g : spa_fgn_graph) (k j : nat) : Prop :=
  exists p, port_at g (k, j) = Some p /\ pi_direction (pt_info p) = d /\ pt_external p = SPA_ID_INVALID.

Lemma default_loop_spec d k : d = SPA_DIRECTION_INPUT \/ d = SPA_DIRECTION_OUTPUT ->
  forall js g, graph_wf g -> NoDup js -> Forall (exportable d g k) js ->
  o_wp (default_loop d k js g) (exports d g) True.
Proof.
  intros Hd. induction js as [|j js IH]; intros g Hg Hdup Hjs; cbn [default_loop]; [by split|].
  apply list.NoDup_cons in Hdup as [Hj Hdup]. apply list.Forall_cons in Hjs as [(p & Hp & Edir & Eext) Hjs]. rewrite Hp.
  destruct (_ && _) eqn:Eb; [by apply IH|].
  apply o_wp_bind. eapply o_wp_mono; [by apply next_array_size_spec| |done]. intros x Hroom. cbv beta in Hroom.
  assert (exports d g (add_external d (k, j) g)) as Hx.
  { eapply add_external_exports; try done. intros ->. by destruct (pt_source p). }
  eapply o_wp_mono; [apply IH; [apply Hx|done|]|by intros; eapply exports_trans|done].
  apply list.Forall_forall. intros j' Hj'. rewrite list.Forall_forall in Hjs.
  destruct (Hjs j' Hj') as (q & Hq & ? & ?). exists q. rewrite port_at_external, Hq. cbn.
  unfold exported. rewrite decide_False; [done|]. intros [= ->]. done.
Qed.

Lemma load_default_ports_spec d g : d = SPA_DIRECTION_INPUT \/ d = SPA_DIRECTION_OUTPUT ->
  graph_wf g -> gr_nodes g <> [] -> externals d g = [] -> o_wp (load_default_ports g d) (exports d g) True.
Proof.
  intros Hd Hg Hne Hempty. unfold load_default_ports. cbv zeta.
  set (k := if _ =? _ then O else _).
  destruct (lookup_lt_is_Some_2 (gr_nodes g) k) as [n Hn].
  { destruct (gr_nodes g); [done|]. unfold k. cbn. case_if; lia. }
  rewrite Hn. pose proof (wf_node g Hg k n Hn) as [Hin Hout _].
  apply default_loop_spec; [done|done| |].
  - destruct (_ =? _); rewrite ?Hin, ?Hout; apply positions_NoDup.
  - apply list.Forall_forall. intros j Hj. unfold exportable, port_at. cbn [fst snd]. rewrite Hn.
    assert (exists p, nd_ports n !! j = Some p /\ is_input p = (d =? SPA_DIRECTION_INPUT)) as (p & Hp & Hi).
    { destruct (d =? _); rewrite ?Hin, ?Hout in Hj; apply positions_spec in Hj as (j' & p & -> & Hp & Hf);
        exists p; (split; [done|]); [done|]. by apply negb_true_iff in Hf. }
    exists p. split; [done|].
    pose proof (wf_port g Hg (k, j) p) as Hw. unfold port_at in Hw. cbn [fst snd] in Hw. rewrite Hn in Hw.
    destruct (Hw Hp) as [_ Hdir _ _ Hext].
    assert (pi_direction (pt_info p) = d) as Ed by (unfold is_input in Hi; destruct Hd as [-> | ->]; lia).
    split; [done|]. rewrite Hext, Ed, Hempty. done.
Qed.

(** ** Validation *)

Definition rate_of (p : fgn_port) : Z * Z := (f_rate_num (pt_format p), f_rate_denom (pt_format p)).

(** The ports of a node whose rates are compared. *)
Definition rated (p : fgn_port) : bool :=
  if is_input p then negb (unrated p)
  else format_has_rate (pt_format p) && negb (has (pi_flags (pt_info p)) SPA_FGN_PORT_FLAG_CONDITIONAL).

(** A node's inputs share a rate with each other and with its outputs. *)
Definition one_rate (n : fgn_node) : Prop :=
  forall p q, p ∈ nd_ports n -> q ∈ nd_ports n -> is_input p = true -> rated p = true -> rated q = true ->
    rate_of p = rate_of q.

(** An input that has to be connected is. *)
Definition connected (p : fgn_port) : Prop :=
  is_input p = true -> has (pi_flags (pt_info p)) SPA_FGN_PORT_FLAG_OPTIONAL = false ->
  pt_source p <> None \/ pt_external p <> SPA_ID_INVALID.

(** A graph that is handed out. *)
Record graph_ready (g : spa_fgn_graph) : Prop := {
  rd_wf : graph_wf g;
  rd_external : gr_inputs g <> [] \/ gr_outputs g <> [];
  rd_connected : forall r p, port_at g r = Some p -> connected p;
  rd_rates : Forall one_rate (gr_nodes g);
  rd_activation : forall r s p q, r ∈ gr_inputs g -> s ∈ gr_inputs g ->
    activating g r = Some p -> activating g s = Some q -> rate_of p = rate_of q;
  rd_order : gr_order g ≡ₚ seq 0 (List.length (gr_nodes g)) /\ topological (gr_links g) (gr_order g) }.

Lemma rate_equal_spec p q : format_rate_equal (pt_format p) (pt_format q) = true -> rate_of p = rate_of q.
Proof. unfold format_rate_equal, rate_of. intros [? ?]%andb_prop. f_equal; lia. Qed.

Lemma node_ports_positions f ps : forall pre, omap (fun j => (pre ++ ps) !! j) (positions f (List.length pre) ps) = List.filter f ps.
Proof.
  induction ps as [|p ps IH]; intros pre; cbn [positions List.filter]; [done|].
  specialize (IH (pre ++ [p])). rewrite <- app_assoc, length_app, Nat.add_comm in IH. cbn [app] in IH.
  destruct (f p); [|exact IH]. cbn [omap list_omap].
  rewrite (list_lookup_middle pre ps p) by done. f_equal. exact IH.
Qed.

(** The rate that a list of ports starts from, and the one it ends with. *)
Definition carries (rate : option spa_fgn_format) (p : fgn_port) : Prop :=
  exists f, rate = Some f /\ (f_rate_num f, f_rate_denom f) = rate_of p.

Lemma common_rate_spec ps : forall rate,
  o_wp (common_rate rate ps) (fun r => (forall f, rate = Some f -> r = Some f) /\ Forall (carries r) ps) True.
Proof.
  induction ps as [|p ps IH]; intros rate; cbn [common_rate]; [by split|]. destruct rate as [f|].
  - destruct (format_rate_equal f _) eqn:E; [|done]. eapply o_wp_mono; [apply IH| |done].
    intros r [Hr Hps]. split; [done|]. constructor; [|done]. exists f. split; [by apply Hr|].
    unfold format_rate_equal in E. unfold rate_of. apply andb_prop in E as [? ?]. f_equal; lia.
  - eapply o_wp_mono; [apply IH| |done]. intros r [Hr Hps]. split; [done|]. constructor; [|done].
    exists (pt_format p). split; [by apply Hr|done].
Qed.

Lemma inputs_loop_spec ps : Forall (fun p => is_input p = true) ps -> forall rate,
  o_wp (inputs_loop rate ps)
    (fun r => (forall f, rate = Some f -> r = Some f) /\ Forall connected ps /\
              Forall (fun p => rated p = true -> carries r p) ps) True.
Proof.
  induction 1 as [|p ps Hp _ IH]; intros rate; cbn [inputs_loop]; [by repeat split|].
  destruct (_ && _) eqn:Ec; [done|].
  assert (connected p) as Hc.
  { intros _ Ho. rewrite Ho in Ec. cbn [negb] in Ec. rewrite andb_true_r in Ec.
    apply andb_false_iff in Ec as [Ec|Ec]; [left; by destruct (pt_source p)|right; lia]. }
  assert (rated p = negb (unrated p)) as Hrated by (unfold rated; by rewrite Hp).
  destruct (unrated p) eqn:Eu; cbn [negb] in Hrated.
  - eapply o_wp_mono; [apply IH| |done]. intros r (Hr & Hcs & Hps). split; [done|].
    split; constructor; try done. by rewrite Hrated.
  - assert (forall f, (f_rate_num f, f_rate_denom f) = rate_of p ->
      o_wp (inputs_loop (Some f) ps)
        (fun r => r = Some f /\ Forall connected (p :: ps) /\ Forall (fun p => rated p = true -> carries r p) (p :: ps))
        True) as Hgo.
    { intros f Ef. eapply o_wp_mono; [apply IH| |done]. intros r (Hr & Hcs & Hps). specialize (Hr f eq_refl).
      split; [done|]. split; constructor; try done. intros _. by exists f. }
    destruct rate as [f|].
    + destruct (format_rate_equal f _) eqn:E; [|done]. eapply o_wp_mono; [apply (Hgo f)| |done].
      * unfold format_rate_equal in E. unfold rate_of. apply andb_prop in E as [? ?]. f_equal; lia.
      * intros r (-> & Hr). split; [by intros ? [= ->]|done].
    + eapply o_wp_mono; [by apply (Hgo (pt_format p))| |done]. intros r (_ & Hr). by split.
Qed.

Definition node_ready (n : fgn_node) : Prop := Forall connected (nd_ports n) /\ one_rate n.

Lemma outputs_ok_spec rate ps q : outputs_ok rate ps = true -> q ∈ ps -> is_input q = false -> rated q = true ->
  forall f, rate = Some f -> (f_rate_num f, f_rate_denom f) = rate_of q.
Proof.
  intros Ho Hq Hi Hr f ->. cbn [outputs_ok] in Ho. rewrite forallb_forall in Ho.
  specialize (Ho q (proj1 (list_elem_of_In _ _) Hq)). unfold rated in Hr. rewrite Hi in Hr.
  apply andb_prop in Hr as [H1 H2]. apply negb_true_iff in H2. rewrite H1, H2 in Ho. cbn [negb] in Ho.
  rewrite orb_false_l, orb_false_r in Ho. unfold format_rate_equal in Ho. unfold rate_of.
  apply andb_prop in Ho as [? ?]. f_equal; lia.
Qed.

Lemma node_loop_spec n : nd_inputs n = positions is_input 0 (nd_ports n) ->
  nd_outputs n = positions (fun p => negb (is_input p)) 0 (nd_ports n) ->
  o_wp (inputs_loop None (node_ports n (nd_inputs n)))
    (fun rate => outputs_ok rate (node_ports n (nd_outputs n)) = true -> node_ready n) True.
Proof.
  intros Hin Hout. rewrite Hin, Hout. unfold node_ports.
  pose proof (fun f => node_ports_positions f (nd_ports n) []) as Hpos. cbn [List.length app] in Hpos. rewrite !Hpos.
  assert (forall f p, p ∈ List.filter f (nd_ports n) <-> p ∈ nd_ports n /\ f p = true) as Hel.
  { intros f p. by rewrite !list_elem_of_In, List.filter_In. }
  eapply o_wp_mono; [apply inputs_loop_spec|intros rate (_ & Hc & Hr) Ho|done].
  { apply list.Forall_forall. intros p Hp. by apply Hel in Hp as [_ ?]. }
  rewrite list.Forall_forall in Hc, Hr. split.
  - apply list.Forall_forall. intros p Hp Hi. apply Hc; [by apply Hel|done].
  - intros p q Hp Hq Hi Hrp Hrq. destruct (Hr p (proj2 (Hel _ p) (conj Hp Hi)) Hrp) as (f & -> & <-).
    destruct (is_input q) eqn:Eq.
    + destruct (Hr q (proj2 (Hel _ q) (conj Hq Eq)) Hrq) as (f' & [= <-] & <-). done.
    + eapply outputs_ok_spec; [exact Ho| |done|done|done]. apply Hel. by rewrite Eq.
Qed.

Lemma nodes_loop_spec ns : Forall (fun n => nd_inputs n = positions is_input 0 (nd_ports n) /\
                             nd_outputs n = positions (fun p => negb (is_input p)) 0 (nd_ports n)) ns ->
  o_wp (nodes_loop ns) (fun _ => Forall node_ready ns) True.
Proof.
  induction 1 as [|n ns [Hin Hout] _ IH]; cbn [nodes_loop]; [constructor|].
  apply o_wp_bind. eapply o_wp_mono; [by apply node_loop_spec| |done]. intros rate Hr. cbv beta in Hr.
  destruct (outputs_ok _ _); [|done]. eapply o_wp_mono; [exact IH| |done]. intros ? Hns. cbv beta in Hns. constructor; auto.
Qed.

Lemma validate_graph_spec g : graph_wf g ->
  o_wp (validate_graph g)
    (fun _ => (gr_inputs g <> [] \/ gr_outputs g <> []) /\ Forall node_ready (gr_nodes g) /\
              forall r s p q, r ∈ gr_inputs g -> s ∈ gr_inputs g ->
                activating g r = Some p -> activating g s = Some q -> rate_of p = rate_of q) True.
Proof.
  intros Hg. unfold validate_graph.
  assert (o_wp (let! _ := common_rate None (omap (activating g) (gr_inputs g)) in nodes_loop (gr_nodes g))
    (fun _ => Forall node_ready (gr_nodes g) /\ forall r s p q, r ∈ gr_inputs g -> s ∈ gr_inputs g ->
                activating g r = Some p -> activating g s = Some q -> rate_of p = rate_of q) True) as H.
  { apply o_wp_bind. eapply o_wp_mono; [apply common_rate_spec| |done]. intros rate [_ Hc].
    eapply o_wp_mono; [apply nodes_loop_spec| |done].
    - apply list.Forall_forall. intros n [k Hk]%list_elem_of_lookup. destruct (wf_node g Hg k n Hk). done.
    - intros ? Hn. split; [exact Hn|]. intros r s p q Hr Hs Hp Hq. rewrite list.Forall_forall in Hc.
      assert (forall x y, x ∈ gr_inputs g -> activating g x = Some y -> carries rate y) as Hy.
      { intros x y Hx Hxy. apply Hc, list_elem_of_omap. eauto. }
      destruct (Hy r p Hr Hp) as (f & -> & <-). destruct (Hy s q Hs Hq) as (f' & [= <-] & <-). done. }
  destruct (gr_inputs g) as [|i ins] eqn:Ei, (gr_outputs g) as [|o os] eqn:Eo; [done|..];
    (eapply o_wp_mono; [exact H| |done]; intros ? Hx; split; [by (left + right)|exact Hx]).
Qed.

Lemma wf_counted g : graph_wf g -> links_counted g.
Proof.
  intros Hg. split.
  - pose proof (wf_n_links g Hg). unfold zlen in *. lia.
  - apply list.Forall_forall. intros [o i] Hl. destruct (wf_link g Hg o i Hl) as (p & q & Hp & Hq & _).
    apply port_at_node in Hp, Hq. done.
  - intros k n Hk. apply (wf_node g Hg k n Hk).
Qed.

Lemma wf_set_order o g : graph_wf g -> graph_wf (set_order o g).
Proof.
  intros Hg. split; try apply Hg.
  - intros k n Hk. destruct (wf_node g Hg k n Hk). by split.
  - intros r p Hp. destruct (wf_port g Hg r p Hp). by split.
Qed.

Lemma finish_graph_spec inputs outputs g :
  match inputs with Some st => stack_ok text st | None => True end ->
  match outputs with Some st => stack_ok text st | None => True end ->
  graph_wf g -> gr_nodes g <> [] -> gr_inputs g = [] -> gr_outputs g = [] ->
  o_wp (finish_graph text inputs outputs g) (fun g' => graph_ready g' /\ owned g' = owned g) True.
Proof.
  intros Hi Ho Hg Hne Hin Hout. unfold finish_graph.
  assert (forall x, owned x = owned g -> gr_nodes x <> []) as Hnodes.
  { intros x Hx Hnil. unfold owned in Hx. rewrite Hnil in Hx. by destruct (gr_nodes g). }
  apply o_wp_bind. eapply (o_wp_mono _ (fun g1 => exports 0 g g1 /\ (inputs = None -> g1 = g)));
    [destruct inputs as [st|]; [|done]|intros g1 [(Hg1 & E1 & X1) N1]|done].
  { eapply o_wp_mono; [apply load_external_ports_spec; [by left|done|done]|done|done]. }
  apply o_wp_bind. eapply (o_wp_mono _ (fun g2 => exports 1 g1 g2 /\ (outputs = None -> g2 = g1)));
    [destruct outputs as [st|]; [|done]|intros g2 [(Hg2 & E2 & X2) N2]|done].
  { eapply o_wp_mono; [apply load_external_ports_spec; [by right|done|done]|done|done]. }
  apply o_wp_bind. eapply (o_wp_mono _ (exports 0 g2)); [|intros g3 (Hg3 & E3 & X3)|done].
  { destruct inputs as [st|]; [done|]. apply load_default_ports_spec; [by left|done|apply Hnodes; congruence|].
    change (externals 0 g2) with (externals (other 1) g2). rewrite X2, N1 by done. done. }
  apply o_wp_bind. eapply (o_wp_mono _ (exports 1 g3)); [|intros g4 (Hg4 & E4 & X4)|done].
  { destruct outputs as [st|]; [done|]. apply load_default_ports_spec; [by right|done|apply Hnodes; congruence|].
    change (externals 1 g3) with (externals (other 0) g3). rewrite X3, N2 by done.
    change (externals (other 0) g1 = []). by rewrite X1. }
  apply o_wp_bind. eapply o_wp_mono; [by apply validate_graph_spec| |done]. intros ? (Hx & Hnr & Ha).
  pose proof (sort_graph_sorts g4 (wf_counted g4 Hg4)) as Hs.
  destruct (sort_graph g4) as [g5| |]; [|done|done]. destruct Hs as (E5 & Hperm & Htop & _).
  rewrite E5. split; [|by transitivity (owned g4); [done|congruence]]. rewrite list.Forall_forall in Hnr.
  split; try done.
  - by apply wf_set_order.
  - intros r p Hp. unfold port_at in Hp. destruct (gr_nodes _ !! r.1) as [n|] eqn:En; [|done].
    destruct (Hnr n) as [Hc _]; [by eapply list_elem_of_lookup_2|]. rewrite list.Forall_forall in Hc.
    apply Hc. by eapply list_elem_of_lookup_2.
  - apply list.Forall_forall. intros n Hn. by apply Hnr.
Qed.

(** ** The configuration *)

Lemma workers_loop_spec fuel : forall n st, stack_ok text st -> rounds st fuel ->
  (forall k, n = Some k -> 0 <= k <= 63) ->
  member_loop (workers_loop text fuel n) st (fun k => 0 <= k <= 63).
Proof.
  induction fuel as [|fuel IH]; intros n st Hok Hf Hn.
  { pose proof (iter_pos _ _ (stack_top _ _ Hok)). unfold rounds in Hf. lia. }
  cbn [workers_loop]. apply st_wp_bind. eapply st_wp_mono; [by apply object_next_stack| |done].
  intros [key t|res] st1 (Hs1 & Hl & Hr).
  - destruct Hr as [_ Ht]. destruct (_ || _); [done|]. destruct (spa_json_parse_int _) as [v|]; [|done].
    destruct ((v <? 0) || _) eqn:Ev; [done|].
    eapply st_wp_mono; [apply IH; [apply Hs1| |]| |done].
    + pose proof (token_of_lt _ _ _ _ Ht). destruct Hl. unfold rounds in *. lia.
    + intros k [= <-]. lia.
    + intros r st2 [Hs2 Ho]. split; [by eapply stack_later_trans|done].
  - split; [done|]. destruct n as [k|]; [by apply Hn|done].
Qed.

(** The iterator behind a member: not before the token, in the same text. *)
Definition behind (st st' : json_stack) : Prop :=
  stack_ok text st' /\ j_end (top st') = j_end (top st) /\ j_cur (top st) <= j_cur (top st').

Lemma parse_workers_spec st t : stack_ok text st ->
  o_wp (parse_workers text st t) (fun r => 0 <= r.1 <= 63 /\ behind st r.2) True.
Proof.
  intros Hok. unfold parse_workers. destruct (negb _); [done|]. cbv zeta. pose proof (enter_stack text st Hok) as He.
  pose proof (workers_loop_spec (json_fuel (spa_json_enter st)) None (spa_json_enter st) He
                (json_fuel_rounds _ _ (stack_top _ _ He)) ltac:(done)) as Hw. unfold st_wp in Hw.
  destruct (workers_loop _ _ _ _) as [[[n| |]| |] sub]; try (by destruct Hw).
  destruct Hw as [Hs Hn]. destruct (leave_stack text st sub Hs) as (it & ps & E & Hok' & Hend & Hcur).
  split; [done|]. unfold leave. cbn [fst snd]. rewrite E. done.
Qed.

Definition list_ok (o : option json_stack) : Prop := match o with Some st => stack_ok text st | None => True end.
Record top_ok (c : top_config) : Prop := {
  to_workers : 0 <= default 0 (t_workers c) <= 63;
  to_nodes : list_ok (t_nodes c);
  to_links : list_ok (t_links c);
  to_inputs : list_ok (t_inputs c);
  to_outputs : list_ok (t_outputs c) }.

Lemma top_member_spec c key t st : stack_ok text st -> top_ok c ->
  o_wp (top_member text c key t st) (fun r => top_ok r.1 /\ behind st r.2) True.
Proof.
  intros Hok [? ? ? ? ?]. unfold top_member.
  assert (forall o, o_wp (enter_list text o t st) list_ok True) as Hl.
  { intros o. unfold enter_list. destruct (_ || _); [done|]. by apply enter_stack. }
  assert (behind st st) as Hb by (split; [done|]; split; [done|lia]).
  destruct (spa_streq key _).
  - destruct (negb _); [done|]. apply o_wp_bind. eapply o_wp_mono; [by apply parse_workers_spec| |done].
    intros [n st'] [Hn Hst]. split; [|done]. by split.
  - repeat (match goal with |- o_wp (if ?b then _ else _) _ _ => destruct b end;
      [apply o_wp_bind; eapply o_wp_mono; [apply Hl| |done]; intros j Hj; (split; [|done]); by split|]).
    done.
Qed.

Lemma top_loop_spec fuel : forall c st, stack_ok text st -> rounds st fuel -> top_ok c ->
  o_wp (top_loop text fuel c st) top_ok True.
Proof.
  induction fuel as [|fuel IH]; intros c st Hok Hf Hc.
  { pose proof (iter_pos _ _ (stack_top _ _ Hok)). unfold rounds in Hf. lia. }
  cbn [top_loop]. pose proof (object_next_stack text 256 st Hok) as Hn. unfold st_wp in Hn.
  destruct (spa_json_object_next _ _ st) as [[[key t|res]| |] st1]; [|done|done|done].
  destruct Hn as (Hs1 & Hl & _ & Ht). pose proof (token_of_lt _ _ _ _ Ht).
  apply o_wp_bind. eapply o_wp_mono; [apply top_member_spec; [apply Hs1|done]| |done].
  intros [c' st2] [Hc' (Hok2 & Hend & Hcur)]. cbn [fst snd] in *. apply IH; [done| |done].
  destruct Hl. unfold rounds in *. lia.
Qed.

Lemma begin_object_spec : zlen text <= 2 ^ 31 - 1 ->
  o_wp (spa_json_begin_object text 0 (zlen text)) (fun r => 0 < r.1 -> stack_ok text r.2) True.
Proof.
  intros Hlen. unfold spa_json_begin_object, spa_json_begin_container.
  assert (stack_ok text (mk_stack (spa_json_init 0 (zlen text)) [])) as Hok by (split; [by apply init_ok|done]).
  pose proof (enter_container_stack text Byte.x7b _ Hok) as He. unfold st_wp in He.
  destruct (spa_json_enter_container _ _ _) as [[res| |] st]; [|done|done]. destruct He as [[_ _ [Hst Hup]] _].
  rewrite andb_false_r. destruct (Z.leb_spec res 0); [cbn; lia|]. intros _. cbn [snd].
  split; [|done]. destruct Hst. split; cbn; try done. by apply enter_settled.
Qed.

Lemma accounts_owned l0 g g' l : owned g' = owned g -> accounts l0 (gr_nodes g) l -> accounts l0 (gr_nodes g') l.
Proof.
  unfold owned. intros E [Hl Hh].
  assert (forall x o, instances x (gr_nodes g') = instances x (gr_nodes g) /\
                      prepared_of x o (gr_nodes g') = prepared_of x o (gr_nodes g)) as H.
  { intros x o. revert E. generalize (gr_nodes g) as b, (gr_nodes g') as a. clear.
    induction b as [|n b IH]; intros [|m a] E; try done. cbn in E. injection E as Ei Ep _ E.
    destruct (IH a E) as [H1 H2]. unfold instances, prepared_of in *. cbn. by rewrite H1, H2, Ei, Ep. }
  split; [intros x|intros x o Ho]; rewrite ?Hl, ?Hh by done; [by rewrite (proj1 (H x 0))|by rewrite (proj2 (H x o))].
Qed.

Lemma frees_owned g g' : owned g' = owned g -> Forall frees (gr_nodes g) -> Forall frees (gr_nodes g').
Proof.
  unfold owned. generalize (gr_nodes g) as b, (gr_nodes g') as a.
  intros b. induction b as [|n b IH]; intros [|m a] E H; try done. cbn in E. injection E as Ei Ep Ed E.
  apply list.Forall_cons in H as [[H1 H2 H3] H]. constructor; [|by apply IH].
  split; [by rewrite Ei|by rewrite Ed|by rewrite Ep, Ed].
Qed.

Lemma or_free_graph_wp {A} l0 g (m : outcome A) (Q : A -> Prop) l :
  Forall frees (gr_nodes g) -> accounts l0 (gr_nodes g) l -> o_wp m Q True ->
  st_wp (or_free_graph g m) (fun a l' => l' = l /\ Q a) (accounts l0 []) l.
Proof. intros Hf Ha Hm. unfold st_wp, or_free_graph. destruct m; [done| |done]. by apply accounts_free_all. Qed.

(** ** The first transaction *)

(** The entries of a transaction for an instance and an object. *)
Definition queued (x o : Z) (ns : list fgn_node) (ts : list (nat * Z)) : Z :=
  foldr (fun t k => k + match ns !! t.1 with
                        | Some n => if (x =? nd_instance n) && (o =? t.2) then 1 else 0
                        | None => 0
                        end) 0 ts.

Definition transactions_of (ns : list fgn_node) : list (nat * Z) :=
  omap (fun kn => if nd_initial_prepared kn.2 =? 0 then None else Some (kn.1, nd_initial_prepared kn.2))
       (imap pair ns).

Lemma queued_app x o ns a b : queued x o ns (a ++ b) = queued x o ns a + queued x o ns b.
Proof. unfold queued. induction a as [|t a IH]; [done|]. cbn. rewrite IH. lia. Qed.

Lemma queued_grow x o ns n ts : Forall (fun t => (t.1 < List.length ns)%nat) ts ->
  queued x o (ns ++ [n]) ts = queued x o ns ts.
Proof.
  unfold queued. induction 1 as [|t ts Ht _ IH]; [done|]. cbn. rewrite IH, lookup_app_l by done. done.
Qed.

Lemma transactions_below ns : Forall (fun t => (t.1 < List.length ns)%nat) (transactions_of ns).
Proof.
  apply list.Forall_forall. intros [k u] ([k' n] & Hin & Hu)%list_elem_of_omap.
  apply elem_of_lookup_imap in Hin as (j & m & [= -> ->] & Hj). cbn in Hu.
  destruct (_ =? 0); [done|]. injection Hu as <- _. cbn. by eapply lookup_lt_Some.
Qed.

Lemma queued_transactions x o ns : o <> 0 -> queued x o ns (transactions_of ns) = prepared_of x o ns.
Proof.
  intros Ho. induction ns as [|n ns IH] using rev_ind; [done|].
  rewrite prepared_of_app, <- IH. unfold transactions_of. rewrite imap_app, omap_app. fold (transactions_of ns).
  rewrite queued_app, queued_grow by apply transactions_below. f_equal. cbn. rewrite Nat.add_0_r.
  destruct (Z.eqb_spec (nd_initial_prepared n) 0) as [E|E]; cbn.
  - rewrite E, (proj2 (Z.eqb_neq _ _) Ho), andb_false_r. done.
  - rewrite (list_lookup_middle ns [] n) by done. done.
Qed.

Lemma queued_taken x o ns ts : queued x o (map take_prepared ns) ts = queued x o ns ts.
Proof.
  unfold queued. induction ts as [|t ts IH]; [done|]. cbn. rewrite IH. f_equal.
  change (map take_prepared ns) with (take_prepared <$> ns). rewrite list_lookup_fmap. by destruct (ns !! t.1).
Qed.

Lemma instances_taken x ns : instances x (map take_prepared ns) = instances x ns.
Proof. unfold instances. induction ns as [|n ns IH]; [done|]. cbn. by rewrite IH. Qed.

(** The graph without the prepared objects is as ready as it was. *)
Definition taken (g : spa_fgn_graph) : spa_fgn_graph := (queue_initial_property_transaction g).1.

Lemma node_taken g k : gr_nodes (taken g) !! k = take_prepared <$> gr_nodes g !! k.
Proof. apply list_lookup_fmap. Qed.
Lemma port_at_taken g r : port_at (taken g) r = port_at g r.
Proof. unfold port_at. rewrite node_taken. by destruct (gr_nodes g !! r.1). Qed.

Lemma wf_taken g : graph_wf g -> graph_wf (taken g).
Proof.
  intros Hg. split; try apply Hg.
  - cbn. rewrite List.map_map. apply Hg.
  - cbn. unfold zlen. rewrite List.length_map. apply (wf_n_nodes g Hg).
  - intros k n. rewrite node_taken. destruct (gr_nodes g !! k) as [m|] eqn:Em; [|done]. intros [= <-].
    destruct (wf_node g Hg k m Em). by split.
  - intros r p. rewrite port_at_taken. intros Hp. destruct (wf_port g Hg r p Hp). by split.
  - intros o i Hl. destruct (wf_link g Hg o i Hl) as (p & q & ?). exists p, q. by rewrite !port_at_taken.
  - intros d r Hd Hr. destruct (wf_external g Hg d r Hd Hr) as (p & ?). exists p. by rewrite port_at_taken.
Qed.

Lemma existsb_eq {A} (f f' : A -> bool) l : (forall x, f x = f' x) -> existsb f l = existsb f' l.
Proof. intros H. induction l as [|x l IH]; [done|]. cbn. by rewrite H, IH. Qed.

Lemma activating_taken g r : activating (taken g) r = activating g r.
Proof.
  unfold activating. rewrite node_taken, port_at_taken. destruct (gr_nodes g !! r.1) as [n|]; [|done].
  cbn [fmap option_fmap option_map]. destruct (port_at g r) as [p|]; [|done].
  assert (input_gated_by_conditional_output (taken g) (take_prepared n) p = input_gated_by_conditional_output g n p) as ->;
    [|done].
  apply existsb_eq. intros q. destruct (pt_source q) as [s|]; [|done]. by rewrite port_at_taken.
Qed.

Lemma ready_taken g : graph_ready g -> graph_ready (taken g).
Proof.
  intros [Hw He Hc Hr Ha Ho]. split; try done.
  - by apply wf_taken.
  - intros r p. rewrite port_at_taken. apply Hc.
  - apply List.Forall_map. exact Hr.
  - intros r s p q. rewrite !activating_taken. apply Ha.
  - cbn [gr_nodes taken queue_initial_property_transaction fst]. rewrite List.length_map. done.
Qed.

(** ** A graph from its configuration *)

(** What the construction leaves the caller with. *)
Definition constructed (l0 : list call) (r : spa_fgn_graph * Z * list (nat * Z)) (l : list call) : Prop :=
  let '(g, helpers, ts) := r in
  graph_ready g /\ 0 <= helpers <= 63 /\
  (forall x, live x l = live x l0 + instances x (gr_nodes g)) /\
  (forall x o, o <> 0 -> held_back x o l = held_back x o l0 + queued x o (gr_nodes g) ts).

Lemma empty_wf : graph_wf empty_graph.
Proof.
  split; cbn [gr_nodes gr_links empty_graph map]; try done; try constructor.
  - intros d. unfold externals. by case_if.
  - by intros ? ? ?%not_elem_of_nil.
  - intros d. unfold externals. case_if; constructor.
  - intros d r _ Hr. unfold externals in Hr. case_if; by apply not_elem_of_nil in Hr.
Qed.

Lemma graph_new_constructs l0 : zlen text <= 2 ^ 31 - 1 ->
  st_wp (spa_fgn_graph_new text strtof strtod canonicalize dlopen) (constructed l0) (accounts l0 []) l0.
Proof.
  intros Hlen. unfold spa_fgn_graph_new.
  assert (accounts l0 [] l0) as Hnil by (split; [intros x|intros x o _]; cbn; lia).
  apply st_wp_bind, st_wp_lift. eapply o_wp_mono; [by apply begin_object_spec| |done]. intros [res top] Htop.
  cbn [fst snd] in Htop. destruct (Z.leb_spec res 0) as [|Hres]; [done|]. specialize (Htop Hres).
  apply st_wp_bind, st_wp_lift.
  eapply o_wp_mono; [apply top_loop_spec; [done|eapply json_fuel_rounds, Htop|by split]| |done].
  intros c [Hw Hn Hl Hi Ho]. destruct (t_nodes c) as [nodes|]; [|done].
  apply st_wp_bind. eapply st_wp_mono; [apply load_nodes_spec; [|done|eapply json_fuel_rounds, Hn]| |done].
  { split; [split; [apply empty_wf|done]|]. split; [constructor|done]. }
  intros g l [(Hg & Ein & Eout) [Hfr Ha]]. destruct (Z.eqb_spec (zlen (gr_nodes g)) 0) as [E|E]; [by destruct (gr_nodes g)|].
  assert (gr_nodes g <> []) as Hne by (intros En; by rewrite En in E).
  apply st_wp_bind. eapply st_wp_mono; [apply (or_free_graph_wp l0 g _ (fun g' => graph_wf g' /\ owned g' = owned g /\
    gr_inputs g' = gr_inputs g /\ gr_outputs g' = gr_outputs g)); [done|done|]| |done].
  { destruct (t_links c) as [links|]; [|done]. apply load_links_spec; [done|done|eapply json_fuel_rounds, Hl]. }
  intros g1 ? [-> (Hg1 & E1 & Ein1 & Eout1)]. apply st_wp_bind.
  eapply st_wp_mono; [apply (or_free_graph_wp l0 g1 _ (fun g' => graph_ready g' /\ owned g' = owned g1))| |done].
  - by eapply frees_owned.
  - by eapply accounts_owned.
  - apply finish_graph_spec; try done; try congruence. intros En. unfold owned in E1. rewrite En in E1. by destruct (gr_nodes g).
  - intros g2 ? [-> [Hr E2]].
    assert (accounts l0 (gr_nodes g2) l) as [Hlive Hheld] by (eapply accounts_owned; [|exact Ha]; congruence).
    split; [exact (ready_taken g2 Hr)|]. split; [done|]. split.
    + intros x. rewrite Hlive. f_equal. symmetry. apply instances_taken.
    + intros x o Hx. rewrite Hheld, <- queued_transactions by done. f_equal. symmetry. apply queued_taken.
Qed.

(** C3: the construction of a graph from any configuration of less than 2 GiB,
    with plugins whose tables of dimensions have the entries that they
    announce, returns and reads nothing outside its text.  A graph it returns is
    well-formed: what its ports store of links and external ports agrees with its
    tables, links join an output and an input of the same format, and no input is
    fed twice.  Every input that is not optional is connected, the ports of a node
    share its rate, and the order runs every node once, behind the nodes that
    feed it. *)
Theorem graph_new_ready (Hlen : zlen text <= 2 ^ 31 - 1) (l : list call) :
  st_wp (spa_fgn_graph_new text strtof strtod canonicalize dlopen)
    (fun r _ => graph_ready r.1.1 /\ 0 <= r.1.2 <= 63) (fun _ => True) l.
Proof.
  eapply st_wp_mono; [by apply graph_new_constructs| |done]. intros [[g helpers] ts] l' (? & ? & _). done.
Qed.

(** C19: the construction keeps account of what it asks the plugins for.  When it
    fails, every instance it created was cleaned up and every prepared object
    discarded.  When it succeeds, what is left to clean up are the instances of the
    nodes, and what is left to commit or discard are the objects in the first
    transaction. *)
Theorem graph_new_releases (Hlen : zlen text <= 2 ^ 31 - 1) (l : list call) :
  st_wp (spa_fgn_graph_new text strtof strtod canonicalize dlopen)
    (fun r l' => (forall x, live x l' = live x l + instances x (gr_nodes r.1.1)) /\
                 (forall x o, o <> 0 -> held_back x o l' = held_back x o l + queued x o (gr_nodes r.1.1) r.2))
    (fun l' => (forall x, live x l' = live x l) /\ (forall x o, o <> 0 -> held_back x o l' = held_back x o l)) l.
Proof.
  eapply st_wp_mono; [by apply graph_new_constructs| |].
  - intros [[g helpers] ts] l' (_ & _ & ? & ?). done.
  - intros l' [Hl Hh]. split; [intros x; rewrite Hl; cbn; lia|intros x o Ho; rewrite Hh by done; cbn; lia].
Qed.
End Load.

(** ** Two nodes of a plugin that copies *)

Module Copy.
Definition copied : spa_fgn_format := mk_format 19 1 1000 1 1 (Some [16]) None.
Definition ports : list spa_fgn_port_info :=
  [mk_port_info 40 0 SPA_DIRECTION_INPUT 0 (Some (str "in")) 0 SPA_META_PROPAGATION_DROP None;
   mk_port_info 40 1 SPA_DIRECTION_OUTPUT 0 (Some (str "out")) 0 SPA_META_PROPAGATION_DROP None].
Definition copy : spa_fgn_descriptor :=
  mk_descriptor 192 8 (Some (str "copy")) 2 (Some ports) (Some (fun _ => (0, 4096))) true
    (Some (fun _ _ => (0, Some copied))) None None None false false false false false false false true false None.
Definition library (path : list byte) : option (option (Z -> option spa_fgn_plugin)) :=
  Some (Some (fun _ => Some (mk_plugin 32 8 (Some (str "p"))
    (Some (fun label => if spa_streq label (str "copy") then Some copy else None)) 0))).

Definition quoted (s : list byte) : list byte := [to_byte 34] ++ s ++ [to_byte 34].
Definition config : list byte :=
  str "{ nodes = [ { name=b plugin=x label=copy } { name=a plugin=x label=copy } ] links = [ { output="
  ++ quoted (str "a:out") ++ str " input=" ++ quoted (str "b:0") ++ str " } ] workers = { helpers=2 } inputs = [ "
  ++ quoted (str "a:in") ++ str " ] outputs = [ " ++ quoted (str "b:out") ++ str " ] }".

Definition new (text : list byte) (l : list call) :=
  spa_fgn_graph_new text (fun _ => None) (fun _ => None) (fun _ _ => None) library l.
Definition order_of (text : list byte) : outcome (list nat) :=
  let! r := (new text []).1 in Ret (gr_order r.1.1).

Lemma library_honest : honest_plugins library.
Proof.
  intros path entry abi p find label d [= <-] [= <-] [= <-]. destruct (spa_streq _ _); [|done]. intros [= <-].
  intros get instance index res f [= <-] [= <- <-]. split; [done|]. intros shape [= <-]. split; [done|].
  repeat constructor; done.
Qed.

(** The graph of [config]: [a] is node 1 and [b] is node 0. *)
Definition graph : spa_fgn_graph := match (new config []).1 with Ret r => r.1.1 | _ => empty_graph end.

Lemma graph_is_ready : graph_ready graph.
Proof.
  pose proof (graph_new_constructs config (fun _ => None) (fun _ => None) (fun _ _ => None) library library_honest [] ltac:(by vm_compute)) as H.
  unfold st_wp in H. change (spa_fgn_graph_new config _ _ _ _ []) with (new config []) in H.
  assert (match (new config []).1 with Ret _ => True | _ => False end) as Hok by (vm_compute; done).
  unfold graph. destruct (new config []) as [[[[g h] ts]| |] l]; try done. apply H.
Qed.

(** A configuration that ends inside its list of nodes, with something that is
    not an object in between: the nodes before it make a graph. *)
Lemma truncated_config_accepted :
  order_of (str "{ nodes = [ { name=b plugin=x label=copy } 5 { name=a plugin=x ") = Ret [0%nat].
Proof. vm_compute. reflexivity. Qed.
End Copy.

Lemma graph_new_ready_witness :
  honest_plugins Copy.library /\ zlen Copy.config <= 2 ^ 31 - 1 /\ Copy.order_of Copy.config = Ret [1; 0]%nat /\
  st_wp (Copy.new Copy.config) (fun r _ => graph_ready r.1.1 /\ 0 <= r.1.2 <= 63) (fun _ => True) [].
Proof.
  split; [apply Copy.library_honest|]. split; [by vm_compute|]. split; [vm_compute; reflexivity|].
  apply graph_new_ready; [apply Copy.library_honest|by vm_compute].
Defined.

(** The second node's name is taken: the first one's instance is cleaned up. *)
Definition name_taken : list byte :=
  str "{ nodes = [ { name=b plugin=x label=copy } { name=b plugin=x label=copy } ] }".

Lemma graph_new_releases_witness :
  Copy.new name_taken [] = (Err EINVAL, [Instantiated 4096; Cleaned 4096]) /\
  forall x, live x (Copy.new name_taken []).2 = live x [].
Proof.
  assert (Copy.new name_taken [] = (Err EINVAL, [Instantiated 4096; Cleaned 4096])) as E by (vm_compute; reflexivity).
  split; [exact E|].
  pose proof (graph_new_releases name_taken (fun _ => None) (fun _ => None) (fun _ _ => None) Copy.library
                Copy.library_honest ltac:(by vm_compute) []) as H.
  unfold st_wp in H. change (spa_fgn_graph_new name_taken _ _ _ _ []) with (Copy.new name_taken []) in H.
  rewrite E in H |- *. apply H.
Defined.
