(* ===== verification/GraphLifecycle.v ===== *)
(** * The ndarray filter graph: activation

    Models [spa_fgn_graph_activate], [spa_fgn_graph_prepare_process_thread],
    [spa_fgn_graph_deactivate] and [spa_fgn_graph_reset] of
    [spa/plugins/filter-graph/filter-graph-ndarray.c], and proves that the plugins
    see their callbacks in the order that [ndarray-plugin.h] documents.

    The callbacks of the plugins and the two calls of the worker group are
    functions of a world [W] that they may change; every call is kept, with its
    result, in a list. *)
From stdpp Require Import relations.
From S2P Require Import Prelude GraphProps FilterGraph GraphOrder GraphWf GraphLoad.
#[local] Open Scope Z_scope.

Inductive life_call : Type :=
  | Workers_activate (res : Z)
  | Workers_deactivate (res : Z)
  | Node_activate (k : nat) (res : Z)
  | Node_deactivate (k : nat) (res : Z)
  | Node_prepare (k : nat) (res : Z)
  | Node_reset (k : nat) (res : Z).

Section Lifecycle.
Context {W : Type}.
(** [spa_fgn_worker_group_activate] and [spa_fgn_worker_group_deactivate] on the
    workers of the graph, and the callbacks of the node at a position. *)
Context (workers_activate workers_deactivate : W -> Z * W).
Context (activate deactivate reset : nat -> option (W -> Z * W)).
Context (prepare_process_thread : nat -> W -> Z * W).
Context (g : spa_fgn_graph).

(** [graph->active], [graph->process_thread_prepared] and
    [node->process_thread_prepared] of the nodes. *)
Record life : Type := mk_life {
  lf_active : bool;
  lf_prepared : bool;
  lf_nodes : list bool;
  lf_world : W;
  lf_calls : list life_call }.

Definition set_active (b : bool) (s : life) : life := mk_life b (lf_prepared s) (lf_nodes s) (lf_world s) (lf_calls s).
Definition set_prepared (b : bool) (s : life) : life := mk_life (lf_active s) b (lf_nodes s) (lf_world s) (lf_calls s).
Definition set_nodes (l : list bool) (s : life) : life := mk_life (lf_active s) (lf_prepared s) l (lf_world s) (lf_calls s).
Definition set_node (k : nat) (b : bool) (s : life) : life := set_nodes (<[k := b]> (lf_nodes s)) s.

Definition life_st := ST life.
Definition call_out (kept : Z -> life_call) (f : W -> Z * W) : life_st Z := fun s =>
  let '(res, w) := f (lf_world s) in
  (Ret res, mk_life (lf_active s) (lf_prepared s) (lf_nodes s) w (lf_calls s ++ [kept res])).

(** The node has the callback, in a structure that is large enough for it. *)
Definition prepares (k : nat) : bool :=
  match gr_nodes g !! k with
  | Some n => spa_fgn_descriptor_has_prepare_process_thread (nd_descriptor n) && d_prepare_process_thread (nd_descriptor n)
  | None => false
  end.

(** The nodes that were activated, the last one first. *)
Fixpoint roll_back (ks : list nat) : life_st unit :=
  match ks with
  | [] => st_ret tt
  | k :: ks =>
      (match deactivate k with
       | Some f => let* _ := call_out (Node_deactivate k) f in st_ret tt
       | None => st_ret tt
       end) ;;;
      roll_back ks
  end.

Fixpoint activate_nodes (before ks : list nat) : life_st unit :=
  match ks with
  | [] => st_ret tt
  | k :: ks =>
      st_modify (set_node k (negb (prepares k))) ;;;
      match activate k with
      | None => activate_nodes (k :: before) ks
      | Some f =>
          let* res := call_out (Node_activate k) f in
          if res <? 0 then
            roll_back before ;;;
            let* _ := call_out Workers_deactivate workers_deactivate in
            st_err (- res)
          else activate_nodes (k :: before) ks
      end
  end.

Definition spa_fgn_graph_activate : life_st unit :=
  let* s := st_get in
  if lf_active s then st_ret tt
  else
    let* res := call_out Workers_activate workers_activate in
    if res <? 0 then st_err (- res)
    else
      st_modify (set_prepared false) ;;;
      activate_nodes [] (gr_order g) ;;;
      st_modify (fun s => set_prepared (forallb id (lf_nodes s)) s) ;;;
      st_modify (set_active true).

Fixpoint prepare_nodes (ks : list nat) : life_st unit :=
  match ks with
  | [] => st_ret tt
  | k :: ks =>
      let* s := st_get in
      match lf_nodes s !! k with
      | None => fun s => (Fault, s)
      | Some true => prepare_nodes ks
      | Some false =>
          if negb (prepares k) then st_err EFAULT
          else
            let* res := call_out (Node_prepare k) (prepare_process_thread k) in
            if res <? 0 then st_err (- res)
            else st_modify (set_node k true) ;;; prepare_nodes ks
      end
  end.

Definition spa_fgn_graph_prepare_process_thread : life_st unit :=
  let* s := st_get in
  if negb (lf_active s) then st_err EINVAL
  else if lf_prepared s then st_ret tt
  else prepare_nodes (gr_order g) ;;; st_modify (set_prepared true).

(** Every node is deactivated; the first error is the one of the call. *)
Fixpoint deactivate_nodes (ks : list nat) (res : Z) : life_st Z :=
  match ks with
  | [] => st_ret res
  | k :: ks =>
      match deactivate k with
      | None => deactivate_nodes ks res
      | Some f =>
          let* r := call_out (Node_deactivate k) f in
          deactivate_nodes ks (if (res =? 0) && (r <? 0) then r else res)
      end
  end.

Definition spa_fgn_graph_deactivate : life_st unit :=
  let* s := st_get in
  if negb (lf_active s) then st_ret tt
  else
    let* res := deactivate_nodes (rev (gr_order g)) 0 in
    st_modify (set_active false) ;;;
    st_modify (set_prepared false) ;;;
    st_modify (fun s => set_nodes (map (fun _ => false) (lf_nodes s)) s) ;;;
    let* r := call_out Workers_deactivate workers_deactivate in
    let res := if (res =? 0) && (r <? 0) then r else res in
    if res <? 0 then st_err (- res) else st_ret tt.

Fixpoint reset_nodes (ks : list nat) : life_st unit :=
  match ks with
  | [] => st_ret tt
  | k :: ks =>
      match reset k with
      | None => reset_nodes ks
      | Some f =>
          let* res := call_out (Node_reset k) f in
          if res <? 0 then st_err (- res) else reset_nodes ks
      end
  end.
Definition spa_fgn_graph_reset : life_st unit := reset_nodes (gr_order g).

(** The calls of a client. *)
Inductive life_op : Type := Activate | Prepare | Deactivate | Reset_graph.
Definition life_run (o : life_op) : life_st unit :=
  match o with
  | Activate => spa_fgn_graph_activate
  | Prepare => spa_fgn_graph_prepare_process_thread
  | Deactivate => spa_fgn_graph_deactivate
  | Reset_graph => spa_fgn_graph_reset
  end.
(** A sequence of them: a call that fails is not the end. *)
Fixpoint life_runs (os : list life_op) : life_st unit :=
  match os with
  | [] => st_ret tt
  | o :: os => let* _ := st_try (life_run o) in life_runs os
  end.
Definition life_new (w : W) : life := mk_life false false (map (fun _ => false) (gr_nodes g)) w [].

(** ** What a node sees *)

(** Where a node is in its life: not active, active, or active with its process
    thread prepared.  A node without a callback for activation becomes active with
    the workers, and one without a callback for deactivation inactive with them. *)
Inductive phase : Type := Off | On | Ready.

Definition phase_step (k : nat) (p : phase) (c : life_call) : option phase :=
  match c with
  | Workers_activate res =>
      match p with
      | Off => Some (if res <? 0 then Off else if activate k then Off else On)
      | _ => None
      end
  | Workers_deactivate _ =>
      match p with
      | Off => Some Off
      | _ => if activate k then (if deactivate k then None else Some Off) else Some Off
      end
  | Node_activate j res =>
      if (j =? k)%nat then match p with Off => Some (if res <? 0 then Off else On) | _ => None end else Some p
  | Node_deactivate j _ =>
      if (j =? k)%nat then match p with Off => None | _ => Some Off end else Some p
  | Node_prepare j res =>
      if (j =? k)%nat then match p with On => Some (if res <? 0 then On else Ready) | _ => None end else Some p
  | Node_reset _ _ => Some p
  end.

(** The phase of a node behind a list of calls, where the calls come in an order
    that is documented. *)
Definition phase_of (k : nat) (l : list life_call) : option phase :=
  fold_left (fun p c => p ≫= fun p => phase_step k p c) l (Some Off).

(** ** Proofs *)

Context (Hg : graph_ready g).

Definition phases (ph : nat -> phase) (s : life) : Prop :=
  forall k, k ∈ gr_order g -> phase_of k (lf_calls s) = Some (ph k).

Lemma phase_of_snoc k l c : phase_of k (l ++ [c]) = phase_of k l ≫= fun p => phase_step k p c.
Proof. unfold phase_of. by rewrite fold_left_app. Qed.

Lemma call_out_wp kept f (Q : Z -> life -> Prop) E s :
  (forall res w, Q res (mk_life (lf_active s) (lf_prepared s) (lf_nodes s) w (lf_calls s ++ [kept res]))) -> st_wp (call_out kept f) Q E s.
Proof. intros H. unfold st_wp, call_out. destruct (f (lf_world s)) as [res w]. apply H. Qed.

Lemma ret_wp {A} (a : A) (Q : A -> life -> Prop) E s : Q a s -> st_wp (st_ret a) Q E s.
Proof. done. Qed.

(** A call that every node takes note of as [ph'] says. *)
Lemma phases_call ph ph' s c w : phases ph s -> (forall k, k ∈ gr_order g -> phase_step k (ph k) c = Some (ph' k)) ->
  phases ph' (mk_life (lf_active s) (lf_prepared s) (lf_nodes s) w (lf_calls s ++ [c])).
Proof. intros Hs Hc k Hk. cbn [lf_calls]. rewrite phase_of_snoc, (Hs k Hk). cbn. by apply Hc. Qed.

Lemma phases_ext ph ph' s : phases ph s -> (forall k, k ∈ gr_order g -> ph k = ph' k) -> phases ph' s.
Proof. intros Hs He k Hk. rewrite <- He by done. by apply Hs. Qed.

(** The flags, which a callback does not change. *)
Definition flags (s : life) : bool * bool * list bool := (lf_active s, lf_prepared s, lf_nodes s).

Definition turned_off (ks : list nat) (ph : nat -> phase) (k : nat) : phase :=
  if decide (k ∈ ks) then (if deactivate k then Off else ph k) else ph k.

Lemma turn_off k ks ph s w res f : phases ph s -> deactivate k = Some f -> ph k <> Off -> k ∉ ks ->
  phases (fun k' => if decide (k' = k) then Off else ph k') (mk_life (lf_active s) (lf_prepared s) (lf_nodes s) w (lf_calls s ++ [Node_deactivate k res])) /\
  forall k', turned_off ks (fun k' => if decide (k' = k) then Off else ph k') k' = turned_off (k :: ks) ph k'.
Proof.
  intros Hs Hf Hk Hno. split.
  - eapply phases_call; [exact Hs|]. intros k' _. cbn. destruct (Nat.eqb_spec k k') as [<-|Hne].
    + rewrite decide_True by done. by destruct (ph k).
    + by rewrite decide_False.
  - intros k'. unfold turned_off. destruct (decide (k' = k)) as [->|Hne].
    + rewrite (decide_False (P := k ∈ ks)), (decide_True (P := k ∈ k :: ks)), Hf; [done|by left|done].
    + destruct (decide (k' ∈ ks)) as [Hin|Hout].
      * rewrite (decide_True (P := k' ∈ k :: ks)); [done|by right].
      * rewrite (decide_False (P := k' ∈ k :: ks)); [done|]. by intros [?|?]%elem_of_cons.
Qed.

Lemma turned_off_skip k ks ph : deactivate k = None -> forall k', turned_off ks ph k' = turned_off (k :: ks) ph k'.
Proof.
  intros Hn k'. unfold turned_off. destruct (decide (k' ∈ k :: ks)) as [Hin|Hout].
  - apply elem_of_cons in Hin as [->|Hin]; [rewrite Hn; by destruct (decide _)|by rewrite decide_True].
  - rewrite decide_False; [done|]. intros Hin. apply Hout. by right.
Qed.

Lemma roll_back_wp ks : NoDup ks -> forall ph s E, phases ph s -> (forall k, k ∈ ks -> ph k <> Off) ->
  st_wp (roll_back ks) (fun _ s' => phases (turned_off ks ph) s' /\ flags s' = flags s) E s.
Proof.
  induction ks as [|k ks IH]; intros Hnd ph s E Hs Hon; cbn [roll_back]; [by split|].
  apply list.NoDup_cons in Hnd as [Hno Hnd]. apply st_wp_bind. destruct (deactivate k) as [f|] eqn:Ef.
  - apply st_wp_bind, call_out_wp. intros res w.
    apply ret_wp.
    destruct (turn_off k ks ph s w res f Hs Ef (Hon k ltac:(by left)) Hno) as [H1 H2].
    eapply st_wp_mono; [apply (IH Hnd _ _ E H1)| |done].
    + intros k' Hk'. cbv beta. rewrite decide_False by (by intros ->). apply Hon. by right.
    + intros [] s' [H3 H4]. split; [|done]. eapply phases_ext; [exact H3|]. intros k' _. apply H2.
  - apply ret_wp. eapply st_wp_mono; [apply (IH Hnd ph s E Hs)| |done]; [intros k' Hk'; apply Hon; by right|].
    intros [] s' [H3 H4]. split; [|done]. eapply phases_ext; [exact H3|]. intros k' _. by apply turned_off_skip.
Qed.

Lemma deactivate_nodes_wp ks : NoDup ks -> forall ph s E res, phases ph s -> (forall k, k ∈ ks -> ph k <> Off) -> res <= 0 ->
  st_wp (deactivate_nodes ks res) (fun r s' => phases (turned_off ks ph) s' /\ flags s' = flags s /\ r <= 0) E s.
Proof.
  induction ks as [|k ks IH]; intros Hnd ph s E res Hs Hon Hres; cbn [deactivate_nodes]; [by split|].
  apply list.NoDup_cons in Hnd as [Hno Hnd]. destruct (deactivate k) as [f|] eqn:Ef.
  - apply st_wp_bind, call_out_wp. intros r w.
    destruct (turn_off k ks ph s w r f Hs Ef (Hon k ltac:(by left)) Hno) as [H1 H2].
    eapply st_wp_mono; [apply (IH Hnd _ _ E _ H1)| |done].
    + intros k' Hk'. cbv beta. rewrite decide_False by (by intros ->). apply Hon. by right.
    + destruct ((res =? 0) && (r <? 0)) eqn:Er; lia.
    + intros r' s' (H3 & H4 & H5). split; [|done]. eapply phases_ext; [exact H3|]. intros k' _. apply H2.
  - eapply st_wp_mono; [apply (IH Hnd ph s E res Hs)| |done]; [intros k' Hk'; apply Hon; by right|done|].
    intros r' s' (H3 & H4 & H5). split; [|done]. eapply phases_ext; [exact H3|]. intros k' _. by apply turned_off_skip.
Qed.

(** ** Activation *)

Definition started_phase (before : list nat) (k : nat) : phase :=
  if decide (k ∈ before) then On else if activate k then Off else On.

Definition marked (before : list nat) (s : life) : Prop :=
  List.length (lf_nodes s) = List.length (gr_nodes g) /\
  forall k, k ∈ before -> lf_nodes s !! k = Some (negb (prepares k)).

Lemma ordered k : k ∈ gr_order g <-> (k < List.length (gr_nodes g))%nat.
Proof. rewrite (proj1 (rd_order _ Hg)), elem_of_seq. lia. Qed.
Lemma order_once : NoDup (gr_order g).
Proof. rewrite (proj1 (rd_order _ Hg)). apply NoDup_seq. Qed.

Lemma order_once_rev : NoDup (rev (gr_order g)).
Proof. apply NoDup_ListNoDup, List.NoDup_rev, NoDup_ListNoDup, order_once. Qed.

Lemma marked_next before k s : k ∈ gr_order g -> k ∉ before -> marked before s -> marked (k :: before) (set_node k (negb (prepares k)) s).
Proof.
  intros Hk%ordered Hno [Hl Hm]. split; cbn [lf_nodes set_node set_nodes]; [by rewrite length_insert|].
  intros k' [->|Hk']%elem_of_cons; [apply list_lookup_insert_eq; lia|].
  rewrite list_lookup_insert_ne by (by intros ->). by apply Hm.
Qed.

(** The nodes before the one that failed, and the workers, are turned off. *)
Lemma undo_wp before s (Q : unit -> life -> Prop) (E : life -> Prop) e : NoDup before -> phases (started_phase before) s ->
  (forall s', phases (fun _ => Off) s' -> flags s' = flags s -> E s') ->
  st_wp (roll_back before ;;; let* _ := call_out Workers_deactivate workers_deactivate in st_err e) Q E s.
Proof.
  intros Hnd Hs HE. apply st_wp_bind. eapply st_wp_mono; [apply (roll_back_wp before Hnd _ s E Hs)| |done].
  - intros k Hk. unfold started_phase. by rewrite decide_True.
  - intros [] s1 [H1 H2]. apply st_wp_bind, call_out_wp. intros res w. apply HE; [|done].
    eapply phases_call; [exact H1|]. intros k _. cbn. unfold turned_off, started_phase.
    destruct (decide (k ∈ before)), (deactivate k), (activate k); done.
Qed.

Lemma activate_nodes_wp ks : forall before s (E : life -> Prop), gr_order g = rev before ++ ks -> NoDup before ->
  phases (started_phase before) s -> marked before s ->
  (forall s', phases (fun _ => Off) s' -> List.length (lf_nodes s') = List.length (gr_nodes g) -> lf_active s' = lf_active s ->
     lf_prepared s' = lf_prepared s -> E s') ->
  st_wp (activate_nodes before ks) (fun _ s' => phases (fun _ => On) s' /\ marked (gr_order g) s' /\ lf_active s' = lf_active s) E s.
Proof.
  induction ks as [|k ks IH]; intros before s E Hord Hnd Hs Hm HE; cbn [activate_nodes].
  { rewrite app_nil_r in Hord. assert (forall k, k ∈ gr_order g <-> k ∈ before) as Hin by (intros k; rewrite Hord, !list_elem_of_In, <- in_rev; done).
    split; [|split; [|done]].
    - eapply phases_ext; [exact Hs|]. intros k Hk%Hin. unfold started_phase. by rewrite decide_True.
    - split; [apply Hm|]. intros k Hk%Hin. by apply Hm. }
  assert (k ∈ gr_order g /\ k ∉ before) as [Hk Hno].
  { split; [rewrite Hord; set_solver|]. pose proof order_once as Ho. rewrite Hord in Ho. apply list.NoDup_app in Ho as (_ & Ho & _).
    intros Hin. apply (Ho k); [by rewrite list_elem_of_In, <- in_rev, <- list_elem_of_In|by left]. }
  assert (forall k', k' <> k -> started_phase before k' = started_phase (k :: before) k') as Hsame.
  { intros k' Hne. unfold started_phase. destruct (decide (k' ∈ before)) as [Hin|Hout].
    - rewrite decide_True; [done|by right].
    - rewrite (decide_False (P := k' ∈ k :: before)); [done|]. by intros [?|?]%elem_of_cons. }
  assert (started_phase (k :: before) k = On) as Hkon by (unfold started_phase; rewrite decide_True; [done|by left]).
  assert (gr_order g = rev (k :: before) ++ ks) as Hord' by (cbn; by rewrite <- app_assoc).
  assert (NoDup (k :: before)) as Hnd' by (by apply list.NoDup_cons).
  apply st_wp_bind, st_wp_modify. set (s1 := set_node k (negb (prepares k)) s).
  pose proof (marked_next before k s Hk Hno Hm : marked (k :: before) s1) as Hm1.
  assert (phases (started_phase before) s1) as Hs1 by exact Hs.
  destruct (activate k) as [f|] eqn:Ef.
  - apply st_wp_bind, call_out_wp. intros res w.
    assert (started_phase before k = Off) as Hkoff by (unfold started_phase; rewrite decide_False, Ef; done).
    destruct (Z.ltb_spec res 0) as [Hneg|Hpos].
    + apply undo_wp; [done|..].
      * eapply phases_call; [exact Hs1|]. intros k' _. cbn. destruct (Nat.eqb_spec k k') as [<-|Hne]; [|done].
        rewrite Hkoff. by rewrite (proj2 (Z.ltb_lt res 0) Hneg).
      * intros s' H1 H2. injection H2 as Ea Ep En. apply HE; [done| |done|done]. rewrite En. apply Hm1.
    + eapply st_wp_mono; [apply (IH (k :: before)); try done| |].
      * eapply phases_call; [exact Hs1|]. intros k' _. cbn. destruct (Nat.eqb_spec k k') as [<-|Hne].
        -- rewrite Hkoff, Hkon. by rewrite (proj2 (Z.ltb_ge res 0) Hpos).
        -- f_equal. by apply Hsame.
      * intros [] s' H. exact H.
      * done.
  - eapply st_wp_mono; [apply (IH (k :: before)); try done| |]; [|intros [] s' H; exact H|done].
    eapply phases_ext; [exact Hs1|]. intros k' _. destruct (decide (k' = k)) as [->|Hne]; [|by apply Hsame].
    unfold started_phase. rewrite Ef. by destruct (decide _), (decide _).
Qed.

(** ** The invariant *)

Definition flag (s : life) (k : nat) : Prop := lf_nodes s !! k = Some true.
Definition active_phase (s : life) (k : nat) : phase :=
  if prepares k && default false (lf_nodes s !! k) then Ready else On.

(** The graph is active, whether or not its process thread is prepared. *)
Record running (s : life) : Prop := {
  ru_length : List.length (lf_nodes s) = List.length (gr_nodes g);
  ru_active : lf_active s = true;
  ru_phases : phases (active_phase s) s;
  ru_need : forall k, k ∈ gr_order g -> prepares k = false -> flag s k }.

Record alive (s : life) : Prop := {
  al_length : List.length (lf_nodes s) = List.length (gr_nodes g);
  al_off : lf_active s = false -> phases (fun _ => Off) s /\ lf_prepared s = false;
  al_on : lf_active s = true -> running s /\ (lf_prepared s = true <-> forall k, k ∈ gr_order g -> flag s k) }.

Lemma all_flags s : List.length (lf_nodes s) = List.length (gr_nodes g) ->
  forallb id (lf_nodes s) = true <-> forall k, k ∈ gr_order g -> flag s k.
Proof.
  intros Hl. rewrite forallb_forall. split.
  - intros H k Hk%ordered. destruct (lookup_lt_is_Some_2 (lf_nodes s) k) as [b Hb]; [lia|].
    specialize (H b). cbv [id] in H. unfold flag. rewrite Hb, H; [done|]. apply list_elem_of_In. by apply list_elem_of_lookup_2 with k.
  - intros H b Hb%list_elem_of_In%list_elem_of_lookup. destruct Hb as [k Hk]. pose proof (lookup_lt_Some _ _ _ Hk) as Hlt.
    assert (flag s k) as Hf by (apply H, ordered; lia). unfold flag in Hf. rewrite Hk in Hf. by injection Hf as ->.
Qed.

Lemma activate_alive s : alive s -> st_wp spa_fgn_graph_activate (fun _ => alive) alive s.
Proof.
  intros Ha. unfold spa_fgn_graph_activate. apply st_wp_bind, st_wp_get. destruct (lf_active s) eqn:Eact; [done|].
  destruct (al_off _ Ha Eact) as [Hph Hpr]. apply st_wp_bind, call_out_wp. intros res w. destruct (Z.ltb_spec res 0) as [Hneg|Hpos].
  { split; cbn [lf_active lf_nodes lf_prepared]; [apply Ha| |congruence]. intros _. split; [|done].
    eapply phases_call; [exact Hph|]. intros k _. cbn. by rewrite (proj2 (Z.ltb_lt res 0) Hneg). }
  apply st_wp_bind, st_wp_modify. cbn [set_prepared]. apply st_wp_bind.
  eapply st_wp_mono; [apply (activate_nodes_wp (gr_order g) [] _ alive)| |]; [done|constructor| | | | |].
  - unfold set_prepared. cbn. intros k Hk. cbn [lf_calls]. rewrite phase_of_snoc, (Hph k Hk). cbn.
    rewrite (proj2 (Z.ltb_ge res 0) Hpos). unfold started_phase. rewrite decide_False by (by intros ?%elem_of_nil). by destruct (activate k).
  - split; [apply Ha|]. by intros k ?%elem_of_nil.
  - intros s' H1 H2 H3 H4. cbn in H3, H4. split; [done| |congruence]. by intros _.
  - intros [] s1 (H1 & [H2 H3] & H4). apply st_wp_bind, st_wp_modify, st_wp_modify.
    split; cbn [lf_active lf_nodes lf_prepared set_active set_prepared]; [done|done|]. intros _. split.
    + split; cbn [lf_active lf_nodes lf_prepared set_active set_prepared]; [done|done| |].
      * eapply phases_ext; [exact H1|]. intros k Hk. unfold active_phase. cbn [lf_nodes set_active set_prepared]. rewrite (H3 k Hk).
        by destruct (prepares k).
      * intros k Hk Hn. unfold flag. cbn [lf_nodes set_active set_prepared]. by rewrite (H3 k Hk), Hn.
    + by apply (all_flags s1).
  - done.
Qed.

Lemma prepare_nodes_wp ks : forall s, (forall k, k ∈ ks -> k ∈ gr_order g) -> running s -> lf_prepared s = false ->
  st_wp (prepare_nodes ks) (fun _ s' => running s' /\ lf_prepared s' = false /\ (forall k, k ∈ ks -> flag s' k) /\ forall k, flag s k -> flag s' k) alive s.
Proof.
  induction ks as [|k ks IH]; intros s Hin Hr Hp; cbn [prepare_nodes].
  { split; [done|]. split; [done|]. split; [by intros k ?%elem_of_nil|done]. }
  assert (forall k', k' ∈ ks -> k' ∈ gr_order g) as Hin' by (intros; apply Hin; by right).
  pose proof (Hin k ltac:(by left)) as Hk. apply st_wp_bind, st_wp_get.
  destruct (lookup_lt_is_Some_2 (lf_nodes s) k) as [b Eb]; [rewrite (ru_length _ Hr); by apply ordered|]. rewrite Eb. destruct b.
  { eapply st_wp_mono; [by apply (IH s)| |done]. intros [] s' (H1 & H2 & H3 & H4). split; [done|]. split; [done|]. split; [|done].
    intros k' [->|Hk']%elem_of_cons; [by apply H4|by apply H3]. }
  assert (forall w c, (forall k', k' ∈ gr_order g -> phase_step k' (active_phase s k') c = Some (active_phase s k')) ->
    alive (mk_life (lf_active s) (lf_prepared s) (lf_nodes s) w (lf_calls s ++ [c]))) as Hstop.
  { intros w c Hc. split; cbn; [apply Hr|rewrite (ru_active _ Hr); done|]. intros _. split.
    - split; [apply Hr..| |apply Hr]. eapply phases_call; [apply Hr|exact Hc].
    - rewrite Hp. split; [done|]. intros Hall. specialize (Hall k Hk). unfold flag in Hall. cbn in Hall. congruence. }
  destruct (prepares k) eqn:Ep; cbn [negb]; [|by rewrite (ru_need _ Hr k Hk Ep) in Eb].
  assert (active_phase s k = On) as Hon by (unfold active_phase; by rewrite Ep, Eb).
  apply st_wp_bind, call_out_wp. intros res w. destruct (Z.ltb_spec res 0) as [Hneg|Hpos].
  - apply Hstop. intros k' _. cbn. destruct (Nat.eqb_spec k k') as [<-|]; [|done]. rewrite Hon. by rewrite (proj2 (Z.ltb_lt res 0) Hneg).
  - apply st_wp_bind, st_wp_modify. set (s1 := set_node k true _).
    assert (lf_nodes s1 = <[k := true]> (lf_nodes s)) as En by done. pose proof (lookup_lt_Some _ _ _ Eb) as Hlt.
    assert (flag s1 k) as Hf1 by (unfold flag; rewrite En; by apply list_lookup_insert_eq).
    assert (forall k', k' <> k -> flag s1 k' <-> flag s k') as Hfo by (intros k' Hne; unfold flag; rewrite En, list_lookup_insert_ne; done).
    assert (running s1) as Hr1.
    { split; [rewrite En, length_insert; apply Hr|apply Hr| |].
      - intros k' Hk'. change (lf_calls s1) with (lf_calls s ++ [Node_prepare k res]). rewrite phase_of_snoc, (ru_phases _ Hr k' Hk'). cbn.
        destruct (Nat.eqb_spec k k') as [<-|Hne].
        + rewrite Hon, (proj2 (Z.ltb_ge res 0) Hpos). unfold active_phase. by rewrite Ep, Hf1.
        + unfold active_phase. by rewrite En, list_lookup_insert_ne.
      - intros k' Hk' Hn. destruct (decide (k' = k)) as [->|Hne]; [done|]. apply Hfo; [done|]. by apply (ru_need _ Hr). }
    eapply st_wp_mono; [by apply (IH s1)| |done]. intros [] s' (H1 & H2 & H3 & H4). split; [done|]. split; [done|]. split.
    + intros k' [->|Hk']%elem_of_cons; [by apply H4|by apply H3].
    + intros k' Hf. destruct (decide (k' = k)) as [->|Hne]; [by apply H4|]. by apply H4, Hfo.
Qed.

Lemma prepare_alive s : alive s -> st_wp spa_fgn_graph_prepare_process_thread (fun _ => alive) alive s.
Proof.
  intros Ha. unfold spa_fgn_graph_prepare_process_thread. apply st_wp_bind, st_wp_get. destruct (lf_active s) eqn:Eact; [|done]. cbn [negb].
  destruct (lf_prepared s) eqn:Epr; [done|]. destruct (al_on _ Ha Eact) as [Hr _].
  apply st_wp_bind. eapply st_wp_mono; [by apply (prepare_nodes_wp (gr_order g) s)| |done]. intros [] s' (H1 & H2 & H3 & _).
  apply st_wp_modify. split; cbn [lf_active lf_nodes lf_prepared set_prepared]; [apply H1|rewrite (ru_active _ H1); done|].
  intros _. split; [|split; [intros _; exact H3|done]]. destruct H1. by split.
Qed.

Lemma deactivate_alive s : alive s -> st_wp spa_fgn_graph_deactivate (fun _ => alive) alive s.
Proof.
  intros Ha. unfold spa_fgn_graph_deactivate. apply st_wp_bind, st_wp_get. destruct (lf_active s) eqn:Eact; [|done]. cbn [negb].
  destruct (al_on _ Ha Eact) as [Hr _]. apply st_wp_bind.
  eapply st_wp_mono; [apply (deactivate_nodes_wp (rev (gr_order g)) order_once_rev (active_phase s) s); [apply Hr| |lia]| |done].
  - intros k _. unfold active_phase. by destruct (_ && _).
  - intros res s1 (H1 & H2 & H3). do 3 apply st_wp_bind, st_wp_modify. apply st_wp_bind, call_out_wp. intros r w.
    match goal with |- st_wp _ _ _ ?x => assert (alive x) as Hal; [|by destruct (_ <? 0)] end.
    injection H2 as E1 E2 E3. split; cbn; [rewrite List.length_map, E3; apply Hr| |done]. intros _. split; [|done].
    intros k Hk. cbn [lf_calls]. rewrite phase_of_snoc. rewrite (H1 k Hk). cbn. unfold turned_off, active_phase.
    rewrite decide_True by (by rewrite list_elem_of_In, <- in_rev, <- list_elem_of_In).
    destruct (deactivate k); [done|]. destruct (prepares k && default false (lf_nodes s !! k)), (activate k); done.
Qed.

Lemma reset_alive ks : forall s, alive s -> st_wp (reset_nodes ks) (fun _ => alive) alive s.
Proof.
  induction ks as [|k ks IH]; intros s Ha; cbn [reset_nodes]; [done|]. destruct (reset k); [|by apply IH].
  apply st_wp_bind, call_out_wp. intros res w.
  match goal with |- st_wp _ _ _ ?x => assert (alive x) as Hal; [|destruct (res <? 0); [exact Hal|by apply IH]] end.
  assert (forall ph, phases ph s -> phases ph (mk_life (lf_active s) (lf_prepared s) (lf_nodes s) w (lf_calls s ++ [Node_reset k res]))) as Hph.
  { intros ph Hs. by eapply phases_call. }
  destruct Ha as [H1 H2 H3]. split; cbn; [done|intros E; destruct (H2 E); split; [by apply Hph|done]|].
  intros E. destruct (H3 E) as [[R1 R2 R3 R4] Hf]. split; [|done]. split; [done|done|by apply Hph|done].
Qed.

Lemma life_runs_alive os : forall s, alive s -> st_wp (life_runs os) (fun _ => alive) (fun _ => False) s.
Proof.
  induction os as [|o os IH]; intros s Ha; cbn [life_runs]; [done|].
  apply st_wp_bind, st_wp_try. eapply (st_wp_mono _ (fun _ => alive) _ alive); [|intros a s' Hs'; by apply IH|intros s' Hs' e; by apply IH].
  destruct o; [by apply activate_alive|by apply prepare_alive|by apply deactivate_alive|by apply reset_alive].
Qed.

Lemma life_new_alive w : alive (life_new w).
Proof. split; cbn; [by rewrite List.length_map|by intros _|done]. Qed.

(** C39: whatever a client calls, in any order and also after errors, and whatever
    the callbacks return, every node of a graph that [spa_fgn_graph_new] hands out
    sees its callbacks in the documented order: it is activated while it is
    inactive, its process thread is prepared successfully at most once in each active
    interval and only there, it is deactivated while it is active, and the workers stop only when no
    node that was activated still waits to be deactivated.  The graph calls itself
    active exactly when its nodes are, and prepared exactly when it is active and
    every node that asks for preparation has had it.  Every call returns. *)
Theorem lifecycle_protocol (os : list life_op) (w : W) :
  st_wp (life_runs os) (fun _ s =>
    (forall k, (k < List.length (gr_nodes g))%nat ->
       exists p, phase_of k (lf_calls s) = Some p /\ (lf_active s = true <-> p <> Off)) /\
    (lf_prepared s = true <-> lf_active s = true /\
       forall k, (k < List.length (gr_nodes g))%nat -> prepares k = true -> phase_of k (lf_calls s) = Some Ready))
    (fun _ => False) (life_new w).
Proof.
  eapply st_wp_mono; [apply (life_runs_alive os), life_new_alive| |done]. intros [] s [_ Hoff Hon].
  destruct (lf_active s).
  - destruct (Hon eq_refl) as [Hr Hp]. split.
    + intros k Hk%ordered. exists (active_phase s k). split; [by apply Hr|]. unfold active_phase. by destruct (_ && _).
    + rewrite Hp. split.
      * intros Hall. split; [done|]. intros k Hk%ordered Hn. rewrite (ru_phases _ Hr k Hk). unfold active_phase. by rewrite Hn, (Hall k Hk).
      * intros [_ Hall] k Hk. destruct (prepares k) eqn:En; [|by apply (ru_need _ Hr)].
        specialize (Hall k (proj1 (ordered k) Hk) En). rewrite (ru_phases _ Hr k Hk) in Hall. unfold active_phase in Hall. rewrite En in Hall.
        unfold flag. destruct (lf_nodes s !! k) as [[]|]; done.
  - destruct (Hoff eq_refl) as [Hph Hp]. split; [|by rewrite Hp; split; [|intros [? _]]].
    intros k Hk%ordered. exists Off. by split; [apply Hph|].
Qed.
End Lifecycle.

(** What a run that returns ends with. *)
Lemma st_wp_returns {S A} (m : ST S A) Q E s a : st_wp m Q E s -> (m s).1 = Ret a -> Q a (m s).2.
Proof. unfold st_wp. destruct (m s) as [o s']. cbn. by intros H ->. Qed.

(** ** Two nodes of which one refuses *)

(** The first activation of node 0 fails; there is one node of each kind: node 1
    has no callback for activation. *)
Definition refusing : list life_op := [Activate; Prepare; Activate; Prepare; Reset_graph; Deactivate; Deactivate].
Definition fine (w : nat) : Z * nat := (0, S w).
Definition only_node (k : nat) (f : nat -> Z * nat) (j : nat) : option (nat -> Z * nat) := if (j =? k)%nat then Some f else None.
Definition refusing_run := life_runs (W := nat) fine fine
  (only_node 0 (fun w => (if (w =? 1)%nat then -5 else 0, S w))) (fun _ => Some fine) (only_node 1 fine) (fun _ => fine) Copy.graph
  refusing (life_new Copy.graph 0%nat).

#[local] Opaque Copy.graph.

Lemma lifecycle_protocol_witness :
  lf_calls refusing_run.2 =
    [Workers_activate 0; Node_activate 0 (-5); Node_deactivate 1 0; Workers_deactivate 0;
     Workers_activate 0; Node_activate 0 0; Node_reset 1 0; Node_deactivate 0 0; Node_deactivate 1 0; Workers_deactivate 0] /\
  lf_active refusing_run.2 = false /\
  exists p, phase_of (only_node 0 (fun w => (if (w =? 1)%nat then -5 else 0, S w))) (fun _ => Some fine) 0 (lf_calls refusing_run.2) = Some p /\
    (lf_active refusing_run.2 = true <-> p <> Off).
Proof.
  split; [vm_compute; reflexivity|]. split; [vm_compute; reflexivity|].
  pose proof (lifecycle_protocol fine fine (only_node 0 (fun w => (if (w =? 1)%nat then -5 else 0, S w))) (fun _ => Some fine) (only_node 1 fine)
    (fun _ => fine) Copy.graph Copy.graph_is_ready refusing 0%nat) as H.
  pose proof (st_wp_returns _ _ _ _ tt H ltac:(vm_compute; reflexivity)) as [H1 _]. apply (H1 0%nat). apply Nat.ltb_lt. vm_compute. reflexivity.
Defined.
