(* ===== verification/GraphQueries.v ===== *)
(** * The ndarray filter graph: queries

    Models the queries of [spa/plugins/filter-graph/filter-graph-ndarray.c] that
    describe a graph to its client: the counts, the external ports, and the nodes,
    ports and links in coordinates of the execution order.  The theorem says that
    the coordinates lead back to the ports they were made from.  The pointers of
    the arguments are not NULL. *)
From stdpp Require Import relations.
From S2P Require Import Prelude Bytes GraphProps FilterGraph GraphOrder GraphWf GraphLoad.
#[local] Open Scope Z_scope.

Notation SPA_FGN_NODE_CAPABILITY_NONE := 0.
Notation SPA_FGN_NODE_CAPABILITY_RESETTABLE := 1.
Notation SPA_FGN_NODE_CAPABILITY_RUNTIME_PROPERTIES := 2.
Notation SPA_FGN_NODE_CAPABILITY_PARAMETER_INPUTS := 4.
Notation SPA_FGN_NODE_CAPABILITY_CONDITIONAL_OUTPUTS := 8.
Notation SPA_FGN_NODE_CAPABILITY_PROCESS_THREAD_PREPARATION := 16.

(** The structures that are filled in, without their size. *)
Record spa_fgn_graph_info : Type := mk_graph_info {
  gi_n_nodes : Z;
  gi_n_links : Z;
  gi_n_inputs : Z;
  gi_n_outputs : Z;
  gi_n_lanes : Z;
  gi_executor_flags : Z;
  gi_allocated_output_buffer_bytes : Z;
  gi_internal_output_buffer_bytes : Z }.
Notation sizeof_graph_info := 48.

Record spa_fgn_node_info : Type := mk_node_info {
  ni_execution_index : Z;
  ni_capabilities : Z;
  ni_plugin_flags : Z;
  ni_name : list byte;
  ni_plugin_path : list byte;
  ni_plugin_name : option (list byte);
  ni_descriptor_name : option (list byte);
  ni_n_inputs : Z;
  ni_n_outputs : Z;
  ni_n_properties : Z;
  ni_allocated_output_buffer_bytes : Z;
  ni_internal_output_buffer_bytes : Z }.
Notation sizeof_node_info := 80.

Record spa_fgn_graph_port_info : Type := mk_graph_port_info {
  gp_execution_index : Z;
  gp_direction : Z;
  gp_port_ordinal : Z;
  gp_info : spa_fgn_port_info;
  gp_format : spa_fgn_format;
  gp_payload_bytes : Z;
  gp_external_index : Z;
  gp_source_execution_index : Z;
  gp_source_port_ordinal : Z;
  gp_n_consumers : Z;
  gp_allocated_buffer_bytes : Z;
  gp_internal_buffer_bytes : Z }.
Notation sizeof_graph_port_info := 64.

Record spa_fgn_link_info : Type := mk_link_info {
  li_link_index : Z;
  li_output_execution_index : Z;
  li_output_port_ordinal : Z;
  li_input_execution_index : Z;
  li_input_port_ordinal : Z }.
Notation sizeof_link_info := 32.

Section Queries.
(** What [graph->workers] gives for its executor, its lanes and flags, and what a
    node keeps of its plugin: the path, the plugin itself, and whether the
    descriptor has a callback for reset. *)
Context (executor : option (Z * Z)) (plugin_path : nat -> list byte) (plugin : nat -> spa_fgn_plugin) (resets : nat -> bool).
Context (g : spa_fgn_graph).

Definition deref {A} (x : option A) : outcome A := match x with Some a => Ret a | None => Fault end.

Definition spa_fgn_graph_get_n_inputs : Z := zlen (gr_inputs g).
Definition spa_fgn_graph_get_n_outputs : Z := zlen (gr_outputs g).

(** The choice of an external port by its direction and index. *)
Definition choose_port (direction port : Z) : outcome port_ref :=
  if direction =? SPA_DIRECTION_INPUT then
    if zlen (gr_inputs g) <=? port then Err ENOENT else deref (gr_inputs g !! Z.to_nat port)
  else if direction =? SPA_DIRECTION_OUTPUT then
    if zlen (gr_outputs g) <=? port then Err ENOENT else deref (gr_outputs g !! Z.to_nat port)
  else Err EINVAL.

Definition spa_fgn_graph_get_port_format (direction port : Z) : outcome spa_fgn_format :=
  let! r := choose_port direction port in
  let! p := deref (port_at g r) in
  Ret (pt_format p).

Definition spa_fgn_graph_get_port_info (direction port : Z) : outcome (list byte * spa_fgn_port_info) :=
  let! r := choose_port direction port in
  let! p := deref (port_at g r) in
  let! n := deref (gr_nodes g !! r.1) in
  Ret (nd_name n, pt_info p).

Definition node_execution_index (k : nat) : Z :=
  match find_pos (Nat.eqb k) (gr_order g) with Some i => Z.of_nat i | None => SPA_ID_INVALID end.

Definition node_port_ordinal (n : fgn_node) (j : nat) (direction : Z) : Z :=
  if direction =? SPA_DIRECTION_INPUT then
    match find_pos (Nat.eqb j) (nd_inputs n) with Some i => Z.of_nat i | None => SPA_ID_INVALID end
  else if direction =? SPA_DIRECTION_OUTPUT then
    match find_pos (Nat.eqb j) (nd_outputs n) with Some i => Z.of_nat i | None => SPA_ID_INVALID end
  else SPA_ID_INVALID.

Definition node_output_buffer_bytes (n : fgn_node) : Z * Z :=
  fold_left (fun x p =>
    (u64 (x.1 + pt_payload_size p),
     if pt_external p =? SPA_ID_INVALID then u64 (x.2 + pt_payload_size p) else x.2))
    (node_ports n (nd_outputs n)) (0, 0).

Definition node_capabilities (k : nat) (n : fgn_node) : Z :=
  let d := nd_descriptor n in
  let c := SPA_FGN_NODE_CAPABILITY_NONE in
  let c := if resets k then Z.lor c SPA_FGN_NODE_CAPABILITY_RESETTABLE else c in
  let c := if spa_fgn_descriptor_has_prepare_process_thread d && d_prepare_process_thread d
           then Z.lor c SPA_FGN_NODE_CAPABILITY_PROCESS_THREAD_PREPARATION else c in
  let c := if existsb (fun p => has (pr_flags p) SPA_FGN_PROPERTY_FLAG_RUNTIME) (nd_properties n)
           then Z.lor c SPA_FGN_NODE_CAPABILITY_RUNTIME_PROPERTIES else c in
  let c := if existsb (fun p => has (pi_flags (pt_info p)) SPA_FGN_PORT_FLAG_PARAMETER) (node_ports n (nd_inputs n))
           then Z.lor c SPA_FGN_NODE_CAPABILITY_PARAMETER_INPUTS else c in
  if existsb (fun p => has (pi_flags (pt_info p)) SPA_FGN_PORT_FLAG_CONDITIONAL) (node_ports n (nd_outputs n))
  then Z.lor c SPA_FGN_NODE_CAPABILITY_CONDITIONAL_OUTPUTS else c.

Definition spa_fgn_graph_get_info (struct_size : Z) : outcome spa_fgn_graph_info :=
  if struct_size <? sizeof_graph_info then Err ENOSPC
  else match executor with
       | None => Err EFAULT
       | Some (n_lanes, flags) =>
           let bytes := fold_left (fun x n => let b := node_output_buffer_bytes n in (u64 (x.1 + b.1), u64 (x.2 + b.2)))
                          (gr_nodes g) (0, 0) in
           Ret (mk_graph_info (zlen (gr_nodes g)) (zlen (gr_links g)) (zlen (gr_inputs g)) (zlen (gr_outputs g))
                  n_lanes flags bytes.1 bytes.2)
       end.

(** [graph->order[execution_index]]. *)
Definition ordered_node (execution_index : Z) : outcome (nat * fgn_node) :=
  let! k := deref (gr_order g !! Z.to_nat execution_index) in
  let! n := deref (gr_nodes g !! k) in
  Ret (k, n).

Definition spa_fgn_graph_get_node_info (execution_index struct_size : Z) : outcome spa_fgn_node_info :=
  if struct_size <? sizeof_node_info then Err ENOSPC
  else if zlen (gr_nodes g) <=? execution_index then Err ENOENT
  else
    let! kn := ordered_node execution_index in
    let '(k, n) := kn in
    let bytes := node_output_buffer_bytes n in
    Ret (mk_node_info execution_index (node_capabilities k n) (pl_flags (plugin k)) (nd_name n) (plugin_path k)
           (pl_name (plugin k)) (d_name (nd_descriptor n)) (zlen (nd_inputs n)) (zlen (nd_outputs n))
           (zlen (nd_properties n)) bytes.1 bytes.2).

(** [source_execution_index] and [source_port_ordinal]. *)
Definition source_coordinates (port : fgn_port) : outcome (Z * Z) :=
  match pt_source port with
  | None => Ret (SPA_ID_INVALID, SPA_ID_INVALID)
  | Some o =>
      let! source := deref (gr_nodes g !! o.1) in
      let source_execution_index := node_execution_index o.1 in
      let source_port_ordinal := node_port_ordinal source o.2 SPA_DIRECTION_OUTPUT in
      if (source_execution_index =? SPA_ID_INVALID) || (source_port_ordinal =? SPA_ID_INVALID) then Err EFAULT
      else Ret (source_execution_index, source_port_ordinal)
  end.

Definition spa_fgn_graph_get_node_port_info (execution_index direction port_ordinal struct_size : Z)
  : outcome spa_fgn_graph_port_info :=
  if struct_size <? sizeof_graph_port_info then Err ENOSPC
  else if zlen (gr_nodes g) <=? execution_index then Err ENOENT
  else
    let! kn := ordered_node execution_index in
    let '(k, n) := kn in
    let! j :=
      if direction =? SPA_DIRECTION_INPUT then
        if zlen (nd_inputs n) <=? port_ordinal then Err ENOENT else deref (nd_inputs n !! Z.to_nat port_ordinal)
      else if direction =? SPA_DIRECTION_OUTPUT then
        if zlen (nd_outputs n) <=? port_ordinal then Err ENOENT else deref (nd_outputs n !! Z.to_nat port_ordinal)
      else Err EINVAL in
    let! port := deref (nd_ports n !! j) in
    let! source := source_coordinates port in
    Ret (mk_graph_port_info execution_index direction port_ordinal (pt_info port) (pt_format port)
           (u32 (pt_payload_size port)) (pt_external port) source.1 source.2
           (if direction =? SPA_DIRECTION_OUTPUT then pt_n_consumers port else 0)
           (if direction =? SPA_DIRECTION_OUTPUT then u32 (pt_payload_size port) else 0)
           (if (direction =? SPA_DIRECTION_OUTPUT) && (pt_external port =? SPA_ID_INVALID) then u32 (pt_payload_size port) else 0)).

Definition spa_fgn_graph_get_link_info (link_index struct_size : Z) : outcome spa_fgn_link_info :=
  if struct_size <? sizeof_link_info then Err ENOSPC
  else if zlen (gr_links g) <=? link_index then Err ENOENT
  else
    let! link := deref (A := port_ref * port_ref) (gr_links g !! Z.to_nat link_index) in
    let '(o, i) := link in
    let! output := deref (gr_nodes g !! o.1) in
    let! input := deref (gr_nodes g !! i.1) in
    let output_node := node_execution_index o.1 in
    let output_port := node_port_ordinal output o.2 SPA_DIRECTION_OUTPUT in
    let input_node := node_execution_index i.1 in
    let input_port := node_port_ordinal input i.2 SPA_DIRECTION_INPUT in
    if (output_node =? SPA_ID_INVALID) || (output_port =? SPA_ID_INVALID)
       || (input_node =? SPA_ID_INVALID) || (input_port =? SPA_ID_INVALID) then Err EFAULT
    else Ret (mk_link_info link_index output_node output_port input_node input_port).

(** ** Proofs *)

Context (Hg : graph_ready g).

Lemma find_nth (l : list nat) i x : NoDup l -> l !! i = Some x -> find_pos (Nat.eqb x) l = Some i.
Proof.
  revert i. induction l as [|y l IH]; intros i Hnd Hi; [done|]. apply list.NoDup_cons in Hnd as [Hno Hnd]. cbn [find_pos].
  destruct i as [|i]; cbn in Hi; [injection Hi as ->; by rewrite Nat.eqb_refl|].
  destruct (Nat.eqb_spec x y) as [->|_]; [exfalso; apply Hno; by apply list_elem_of_lookup_2 with i|]. by rewrite (IH i Hnd Hi).
Qed.

Lemma positions_le f ps : forall i, (List.length (positions f i ps) <= List.length ps)%nat.
Proof. induction ps as [|q ps IH]; intros i; cbn; [done|]. specialize (IH (S i)). destruct (f q); cbn; lia. Qed.

Lemma omap_le {A B} (f : A -> option B) l : (List.length (omap f l) <= List.length l)%nat.
Proof. induction l as [|x l IH]; cbn; [done|]. destruct (f x); cbn; lia. Qed.

Definition sided (direction : Z) (n : fgn_node) : list nat := if direction =? SPA_DIRECTION_INPUT then nd_inputs n else nd_outputs n.

(** Where a port is in the coordinates of the queries. *)
Record located (r : port_ref) (n : fgn_node) (p : fgn_port) (e o : nat) : Prop := {
  lo_node : gr_nodes g !! r.1 = Some n;
  lo_port : nd_ports n !! r.2 = Some p;
  lo_order : gr_order g !! e = Some r.1;
  lo_ordinal : sided (pi_direction (pt_info p)) n !! o = Some r.2 }.

Lemma ports_of_side k n p j : gr_nodes g !! k = Some n -> nd_ports n !! j = Some p ->
  NoDup (sided (pi_direction (pt_info p)) n) /\ j ∈ sided (pi_direction (pt_info p)) n /\
  (List.length (sided (pi_direction (pt_info p)) n) <= List.length (nd_ports n))%nat.
Proof.
  intros Hn Hp. destruct (wf_node _ (rd_wf _ Hg) k n Hn) as [Hi Ho _ _].
  unfold sided. destruct (Z.eqb_spec (pi_direction (pt_info p)) SPA_DIRECTION_INPUT) as [E|E].
  - rewrite Hi. split; [apply positions_NoDup|]. split; [|apply positions_le]. apply positions_spec. exists j, p. split; [done|]. split; [done|].
    unfold is_input. by rewrite E.
  - rewrite Ho. split; [apply positions_NoDup|]. split; [|apply positions_le]. apply positions_spec. exists j, p. split; [done|]. split; [done|].
    unfold is_input. by rewrite (proj2 (Z.eqb_neq _ _) E).
Qed.

Lemma order_NoDup : NoDup (gr_order g).
Proof. rewrite (proj1 (rd_order _ Hg)). apply NoDup_seq. Qed.
Lemma order_length : List.length (gr_order g) = List.length (gr_nodes g).
Proof. rewrite (proj1 (rd_order _ Hg)). apply length_seq. Qed.

Lemma port_located r p : port_at g r = Some p -> exists n e o, located r n p e o.
Proof.
  intros Hp. unfold port_at in Hp. destruct (gr_nodes g !! r.1) as [n|] eqn:Hn; [|done]. cbn in Hp.
  destruct (ports_of_side r.1 n p r.2 Hn Hp) as (_ & [o Ho]%list_elem_of_lookup & _).
  assert (r.1 ∈ gr_order g) as [e He]%list_elem_of_lookup.
  { rewrite (proj1 (rd_order _ Hg)), elem_of_seq. apply lookup_lt_Some in Hn. lia. }
  exists n, e, o. by split.
Qed.

Lemma located_port r n p e o : located r n p e o -> port_at g r = Some p.
Proof. intros [Hn Hp _ _]. unfold port_at. by rewrite Hn. Qed.

(** The functions give the coordinates, which are indices. *)
Lemma located_index r n p e o : located r n p e o ->
  node_execution_index r.1 = Z.of_nat e /\ node_port_ordinal n r.2 (pi_direction (pt_info p)) = Z.of_nat o /\
  Z.of_nat e < zlen (gr_nodes g) /\ Z.of_nat e < SPA_ID_INVALID /\ Z.of_nat o < SPA_ID_INVALID.
Proof.
  intros Hl. pose proof Hl as [Hn Hp He Ho]. destruct (ports_of_side r.1 n p r.2 Hn Hp) as (Hnd & _ & Hlen).
  pose proof (pw_direction _ _ _ (wf_port _ (rd_wf _ Hg) r p (located_port _ _ _ _ _ Hl))) as Hd.
  pose proof (wf_n_nodes _ (rd_wf _ Hg)) as Hnn. pose proof (nw_n_ports _ _ _ (wf_node _ (rd_wf _ Hg) r.1 n Hn)) as Hnp.
  pose proof (lookup_lt_Some _ _ _ He) as Hel. pose proof (lookup_lt_Some _ _ _ Ho) as Hol. rewrite order_length in Hel. unfold zlen in *.
  split; [|split; [|lia]].
  - unfold node_execution_index. by rewrite (find_nth _ e _ order_NoDup He).
  - unfold node_port_ordinal. pose proof (find_nth _ o _ Hnd Ho) as Hf. unfold sided in Hf.
    destruct Hd as [Hd|Hd]; rewrite Hd in *; cbn in *; by rewrite Hf.
Qed.

Definition source_is (p : fgn_port) (x : Z * Z) : Prop :=
  match pt_source p with
  | None => x = (SPA_ID_INVALID, SPA_ID_INVALID)
  | Some s => exists n q e o, located s n q e o /\ pi_direction (pt_info q) = SPA_DIRECTION_OUTPUT /\ x = (Z.of_nat e, Z.of_nat o)
  end.

Lemma port_query r n p e o : located r n p e o -> exists x, source_is p x /\
  spa_fgn_graph_get_node_port_info (Z.of_nat e) (pi_direction (pt_info p)) (Z.of_nat o) sizeof_graph_port_info =
  let output := pi_direction (pt_info p) =? SPA_DIRECTION_OUTPUT in
  Ret (mk_graph_port_info (Z.of_nat e) (pi_direction (pt_info p)) (Z.of_nat o) (pt_info p) (pt_format p)
         (u32 (pt_payload_size p)) (pt_external p) x.1 x.2 (if output then pt_n_consumers p else 0)
         (if output then u32 (pt_payload_size p) else 0)
         (if output && (pt_external p =? SPA_ID_INVALID) then u32 (pt_payload_size p) else 0)).
Proof.
  intros Hl. pose proof Hl as [Hn Hp He Ho]. destruct (located_index _ _ _ _ _ Hl) as (_ & _ & Hen & _).
  pose proof (located_port _ _ _ _ _ Hl) as Hat.
  pose proof (pw_direction _ _ _ (wf_port _ (rd_wf _ Hg) r p Hat)) as Hd.
  assert (exists x, source_is p x /\ source_coordinates p = Ret x) as (x & Hx & Ex).
  { unfold source_is, source_coordinates. destruct (pt_source p) as [s|] eqn:Es; [|by eexists].
    apply (pw_source _ _ _ (wf_port _ (rd_wf _ Hg) r p Hat)) in Es.
    destruct (wf_link _ (rd_wf _ Hg) s r Es) as (q & p' & Hq & _ & Hj). destruct (port_located s q Hq) as (n' & e' & o' & Hl').
    destruct (located_index _ _ _ _ _ Hl') as (E1 & E2 & _ & L1 & L2). pose proof (jo_output _ _ Hj) as Hdq. rewrite Hdq in E2.
    eexists. split; [by exists n', q, e', o'|]. rewrite (lo_node _ _ _ _ _ Hl'). cbn [deref obind]. cbv zeta. rewrite E1, E2.
    rewrite (proj2 (Z.eqb_neq _ _)), (proj2 (Z.eqb_neq _ _)) by lia. done. }
  exists x. split; [done|]. unfold spa_fgn_graph_get_node_port_info, ordered_node.
  destruct (Z.leb_spec (zlen (gr_nodes g)) (Z.of_nat e)) as [|_]; [lia|]. rewrite Nat2Z.id, He. cbn [deref obind]. rewrite Hn. cbn [deref obind].
  pose proof (lookup_lt_Some _ _ _ Ho) as Hol.
  assert ((if pi_direction (pt_info p) =? SPA_DIRECTION_INPUT then
        if zlen (nd_inputs n) <=? Z.of_nat o then Err ENOENT else deref (nd_inputs n !! Z.to_nat (Z.of_nat o))
      else if pi_direction (pt_info p) =? SPA_DIRECTION_OUTPUT then
        if zlen (nd_outputs n) <=? Z.of_nat o then Err ENOENT else deref (nd_outputs n !! Z.to_nat (Z.of_nat o))
      else Err EINVAL) = Ret r.2) as ->.
  { rewrite Nat2Z.id. unfold sided in *. destruct Hd as [Hd|Hd]; rewrite Hd in *; cbn in *; rewrite Ho; case_if; unfold zlen in *; done || lia. }
  cbn [obind]. rewrite Hp. cbn [deref obind]. rewrite Ex. done.
Qed.

Lemma located_unique r n p e o e' o' n' p' : located r n p e o -> located r n' p' e' o' -> e = e' /\ o = o'.
Proof.
  intros Hl Hl'. pose proof Hl as [A1 A2 A3 A4]. pose proof Hl' as [B1 B2 B3 B4]. rewrite A1 in B1. injection B1 as <-. rewrite A2 in B2. injection B2 as <-.
  split; [by apply (NoDup_lookup _ _ _ _ order_NoDup A3 B3)|].
  destruct (ports_of_side r.1 n p r.2 A1 A2) as (Hnd & _). by apply (NoDup_lookup _ _ _ _ Hnd A4 B4).
Qed.

(** What the query of a link gives. *)
Lemma link_query i o r p q np nq ep op ei oi : gr_links g !! i = Some (o, r) -> located o np p ep op -> located r nq q ei oi -> joins p q ->
  spa_fgn_graph_get_link_info (Z.of_nat i) sizeof_link_info = Ret (mk_link_info (Z.of_nat i) (Z.of_nat ep) (Z.of_nat op) (Z.of_nat ei) (Z.of_nat oi)).
Proof.
  intros Hi Hlp Hlq [Jo Ji _ _ _]. destruct (located_index _ _ _ _ _ Hlp) as (P1 & P2 & _ & P3 & P4), (located_index _ _ _ _ _ Hlq) as (Q1 & Q2 & _ & Q3 & Q4).
  rewrite Jo in P2. rewrite Ji in Q2. pose proof (lookup_lt_Some _ _ _ Hi). unfold spa_fgn_graph_get_link_info.
  destruct (Z.leb_spec (zlen (gr_links g)) (Z.of_nat i)) as [|_]; [unfold zlen in *; lia|]. rewrite Nat2Z.id, Hi. cbn [deref obind].
  rewrite (lo_node _ _ _ _ _ Hlp). cbn [deref obind]. rewrite (lo_node _ _ _ _ _ Hlq). cbn [deref obind]. cbv zeta. rewrite P1, P2, Q1, Q2.
  rewrite !(proj2 (Z.eqb_neq _ _)) by lia. done.
Qed.

Lemma link_forward o r p q np nq ep op ei oi : (o, r) ∈ gr_links g -> located o np p ep op -> located r nq q ei oi -> (ep < ei)%nat.
Proof.
  intros Hl Hp Hq. destruct (proj2 (rd_order _ Hg) ei o.1 r.1) as (i & Hlt & Hi); [by exists (o, r)|apply Hq|].
  by rewrite (NoDup_lookup _ _ _ _ order_NoDup (lo_order _ _ _ _ _ Hp) Hi).
Qed.

Lemma fan_out_pos (o r : port_ref) links : (o, r) ∈ links -> (1 <= fan_out links o)%nat.
Proof.
  intros Hin. unfold fan_out. assert ((o, r) ∈ filter (fun l : port_ref * port_ref => l.1 = o) links) as Hf by (by apply list_elem_of_filter).
  destruct (filter _ links); [by apply elem_of_nil in Hf|cbn; lia].
Qed.

(** A link and its ends. *)
Lemma query_link i : 0 <= i < zlen (gr_links g) -> exists link output input,
  spa_fgn_graph_get_link_info i sizeof_link_info = Ret link /\
  0 <= li_output_execution_index link < li_input_execution_index link /\
  spa_fgn_graph_get_node_port_info (li_output_execution_index link) SPA_DIRECTION_OUTPUT (li_output_port_ordinal link)
    sizeof_graph_port_info = Ret output /\
  spa_fgn_graph_get_node_port_info (li_input_execution_index link) SPA_DIRECTION_INPUT (li_input_port_ordinal link)
    sizeof_graph_port_info = Ret input /\
  gp_source_execution_index input = li_output_execution_index link /\ gp_source_port_ordinal input = li_output_port_ordinal link /\
  1 <= gp_n_consumers output /\ same_format (gp_format output) (gp_format input).
Proof.
  intros Hi. destruct (lookup_lt_is_Some_2 (gr_links g) (Z.to_nat i)) as [[o r] Hl]; [unfold zlen in Hi; lia|].
  assert ((o, r) ∈ gr_links g) as Hin by (by apply list_elem_of_lookup_2 with (Z.to_nat i)).
  destruct (wf_link _ (rd_wf _ Hg) o r Hin) as (p & q & Hp & Hq & Hj). pose proof (jo_output _ _ Hj) as Jo. pose proof (jo_input _ _ Hj) as Ji.
  destruct (port_located o p Hp) as (np & ep & op & Lp), (port_located r q Hq) as (nq & ei & oi & Lq).
  pose proof (link_query _ _ _ _ _ _ _ _ _ _ _ Hl Lp Lq Hj) as El. rewrite Z2Nat.id in El by lia.
  destruct (port_query _ _ _ _ _ Lp) as (x & _ & Ep), (port_query _ _ _ _ _ Lq) as (y & Hy & Eq). rewrite Jo in Ep. rewrite Ji in Eq. cbn in Ep, Eq.
  unfold source_is in Hy. rewrite (proj2 (pw_source _ _ _ (wf_port _ (rd_wf _ Hg) r q Hq) o) Hin) in Hy. destruct Hy as (n' & q' & e' & o' & Hl' & _ & ->).
  destruct (located_unique _ _ _ _ _ _ _ _ _ Lp Hl') as [<- <-].
  do 3 eexists. split; [exact El|]. cbn. pose proof (link_forward _ _ _ _ _ _ _ _ _ _ Hin Lp Lq). split; [lia|].
  split; [exact Ep|]. split; [exact Eq|]. cbn. split; [done|]. split; [done|]. split; [|apply Hj].
  rewrite (pw_consumers _ _ _ (wf_port _ (rd_wf _ Hg) o p Hp)). pose proof (fan_out_pos o r _ Hin). lia.
Qed.

(** The node of a port. *)
Lemma node_query r n p e o : located r n p e o ->
  spa_fgn_graph_get_node_info (Z.of_nat e) sizeof_node_info =
  Ret (mk_node_info (Z.of_nat e) (node_capabilities r.1 n) (pl_flags (plugin r.1)) (nd_name n) (plugin_path r.1)
         (pl_name (plugin r.1)) (d_name (nd_descriptor n)) (zlen (nd_inputs n)) (zlen (nd_outputs n))
         (zlen (nd_properties n)) (node_output_buffer_bytes n).1 (node_output_buffer_bytes n).2).
Proof.
  intros Hl. destruct (located_index _ _ _ _ _ Hl) as (_ & _ & Hen & _). destruct Hl as [Hn _ He _].
  unfold spa_fgn_graph_get_node_info, ordered_node. rewrite (proj2 (Z.leb_gt _ _) Hen), Nat2Z.id, He. cbn [deref obind]. by rewrite Hn.
Qed.

(** A port and its source. *)
Lemma query_port r p : port_at g r = Some p -> exists e o info, (0 <= e /\ 0 <= o /\ gr_order g !! Z.to_nat e = Some r.1) /\
  spa_fgn_graph_get_node_port_info e (pi_direction (pt_info p)) o sizeof_graph_port_info = Ret info /\
  gp_info info = pt_info p /\
  (gp_source_execution_index info <> SPA_ID_INVALID -> exists i link, spa_fgn_graph_get_link_info i sizeof_link_info = Ret link /\
     li_input_execution_index link = e /\ li_input_port_ordinal link = o /\
     li_output_execution_index link = gp_source_execution_index info /\ li_output_port_ordinal link = gp_source_port_ordinal info).
Proof.
  intros Hp. destruct (port_located r p Hp) as (n & e & o & Hl). destruct (port_query _ _ _ _ _ Hl) as (x & Hx & E).
  exists (Z.of_nat e), (Z.of_nat o). eexists. split; [rewrite Nat2Z.id; split; [lia|split; [lia|apply Hl]]|]. split; [exact E|].
  cbn [gp_info gp_source_execution_index gp_source_port_ordinal fst snd]. split; [done|]. intros Hne. unfold source_is in Hx.
  destruct (pt_source p) as [s|] eqn:Es; [|by subst x]. destruct Hx as (ns & q & es & os & Hls & _ & ->).
  apply (pw_source _ _ _ (wf_port _ (rd_wf _ Hg) r p Hp)) in Es. destruct (wf_link _ (rd_wf _ Hg) s r Es) as (q' & p' & Hq' & Hp' & Hj).
  rewrite (located_port _ _ _ _ _ Hls) in Hq'. injection Hq' as <-. rewrite Hp in Hp'. injection Hp' as <-.
  apply list_elem_of_lookup in Es as [i Hi]. exists (Z.of_nat i). eexists. by split; [exact (link_query _ _ _ _ _ _ _ _ _ _ _ Hi Hls Hl Hj)|].
Qed.

(** An external port. *)
Lemma query_external direction i : direction = SPA_DIRECTION_INPUT \/ direction = SPA_DIRECTION_OUTPUT -> 0 <= i < zlen (externals direction g) ->
  exists e o info node, (0 <= e /\ 0 <= o) /\
    spa_fgn_graph_get_node_port_info e direction o sizeof_graph_port_info = Ret info /\ gp_external_index info = i /\
    spa_fgn_graph_get_node_info e sizeof_node_info = Ret node /\
    spa_fgn_graph_get_port_format direction i = Ret (gp_format info) /\ spa_fgn_graph_get_port_info direction i = Ret (ni_name node, gp_info info).
Proof.
  intros Hd Hi. destruct (lookup_lt_is_Some_2 (externals direction g) (Z.to_nat i)) as [r Hr]; [unfold zlen in Hi; lia|].
  destruct (wf_external _ (rd_wf _ Hg) direction r Hd) as (p & Hp & Hdp & _); [by apply list_elem_of_lookup_2 with (Z.to_nat i)|].
  destruct (port_located r p Hp) as (n & e & o & Hl). destruct (port_query _ _ _ _ _ Hl) as (x & _ & E). rewrite Hdp in E.
  assert (choose_port direction i = Ret r) as Er.
  { unfold choose_port, externals in *. destruct Hd as [-> | ->]; cbn in *; rewrite Hr; case_if; lia || done. }
  exists (Z.of_nat e), (Z.of_nat o). do 2 eexists. split; [lia|]. split; [exact E|]. cbn [gp_external_index gp_format gp_info]. split; [|split; [exact (node_query _ _ _ _ _ Hl)|split]].
  - rewrite (pw_external _ _ _ (wf_port _ (rd_wf _ Hg) r p Hp)), Hdp. unfold ext_index.
    destruct (find_pos _ _) as [j|] eqn:Ej.
    + apply find_pos_some in Ej as (r' & Hr' & ->%bool_decide_eq_true).
      pose proof (NoDup_lookup _ _ _ _ (wf_distinct _ (rd_wf _ Hg) direction) Hr Hr'). lia.
    + apply find_pos_none in Ej. rewrite list.Forall_forall in Ej. specialize (Ej r (list_elem_of_lookup_2 _ _ _ Hr)). by apply bool_decide_eq_false in Ej.
  - unfold spa_fgn_graph_get_port_format. rewrite Er. cbn [obind]. by rewrite Hp.
  - unfold spa_fgn_graph_get_port_info. rewrite Er. cbn [obind]. rewrite Hp. cbn [deref obind]. by rewrite (lo_node _ _ _ _ _ Hl).
Qed.

(** ** The bytes of the outputs *)

Definition total (ps : list fgn_port) : Z := fold_right (fun p x => pt_payload_size p + x) 0 ps.
Definition internal (p : fgn_port) : bool := pt_external p =? SPA_ID_INVALID.
Definition outputs_of (n : fgn_node) : list fgn_port := node_ports n (nd_outputs n).

Lemma total_bound ps : Forall (fun p => 0 < pt_payload_size p <= UINT32_MAX) ps -> 0 <= total ps <= zlen ps * UINT32_MAX.
Proof. induction 1 as [|p ps Hp _ IH]; [done|]. rewrite zlen_cons. cbn [total fold_right]. fold (total ps). lia. Qed.
Lemma total_filter f ps : Forall (fun p => 0 < pt_payload_size p <= UINT32_MAX) ps -> 0 <= total (List.filter f ps) <= total ps.
Proof. induction 1 as [|p ps Hp Hps IH]; [done|]. cbn [List.filter]. destruct (f p); cbn [total fold_right]; fold (total ps) (total (List.filter f ps)); lia. Qed.
Lemma total_app ps qs : total (ps ++ qs) = total ps + total qs.
Proof. induction ps as [|p ps IH]; [done|]. cbn [total fold_right app]. fold (total ps) (total (ps ++ qs)). rewrite IH. lia. Qed.

Lemma bytes_fold ps : Forall (fun p => 0 < pt_payload_size p <= UINT32_MAX) ps -> forall a b, 0 <= b -> 0 <= a -> b + total ps < 2 ^ 64 -> a + total ps < 2 ^ 64 ->
  fold_left (fun x p =>
    (u64 (x.1 + pt_payload_size p),
     if pt_external p =? SPA_ID_INVALID then u64 (x.2 + pt_payload_size p) else x.2)) ps (a, b) = (a + total ps, b + total (List.filter internal ps)).
Proof.
  induction 1 as [|p ps Hp Hps IH]; intros a b Hb Ha Hlb Hla; cbn [fold_left total fold_right List.filter]; [f_equal; cbn; lia|].
  fold (total ps). cbn [fst snd]. pose proof (total_bound ps Hps) as [? _]. cbn [total fold_right] in Hla, Hlb. fold (total ps) in Hla, Hlb.
  rewrite (wrap_small 64 (a + pt_payload_size p)) by lia. unfold internal at 1. destruct (pt_external p =? SPA_ID_INVALID).
  - rewrite (wrap_small 64 (b + pt_payload_size p)) by lia. rewrite IH by lia. cbn [total fold_right]. fold (total (List.filter internal ps)). f_equal; lia.
  - rewrite IH by lia. f_equal; lia.
Qed.

Lemma outputs_sized k n : gr_nodes g !! k = Some n ->
  Forall (fun p => 0 < pt_payload_size p <= UINT32_MAX) (outputs_of n) /\ zlen (outputs_of n) <= FGN_MAX_PORTS_PER_NODE.
Proof.
  intros Hn. destruct (wf_node _ (rd_wf _ Hg) k n Hn) as [_ Ho _ Hnp]. split.
  - apply list.Forall_forall. intros p (j & Hj & Hp)%list_elem_of_omap.
    apply (fo_size _ _ (pw_format _ _ _ (wf_port _ (rd_wf _ Hg) (k, j) p ltac:(unfold port_at; cbn; by rewrite Hn)))).
  - unfold outputs_of, node_ports, zlen in *. pose proof (omap_le (fun j => nd_ports n !! j) (nd_outputs n)) as Hl.
    pose proof (positions_le (fun p => negb (is_input p)) (nd_ports n) 0) as Hp. rewrite <- Ho in Hp. lia.
Qed.

Lemma node_bytes k n : gr_nodes g !! k = Some n ->
  node_output_buffer_bytes n = (total (outputs_of n), total (List.filter internal (outputs_of n))) /\
  0 <= total (outputs_of n) <= FGN_MAX_PORTS_PER_NODE * UINT32_MAX.
Proof.
  intros Hn. destruct (outputs_sized k n Hn) as [Hs Hl]. pose proof (total_bound _ Hs). split; [|lia].
  unfold node_output_buffer_bytes. fold (outputs_of n). rewrite (bytes_fold _ Hs 0 0); [f_equal; lia|lia..].
Qed.

Lemma nodes_fold ns : (forall n, n ∈ ns -> exists k, gr_nodes g !! k = Some n) -> forall a b, 0 <= b <= a ->
  a + zlen ns * (FGN_MAX_PORTS_PER_NODE * UINT32_MAX) < 2 ^ 64 ->
  fold_left (fun x n => let b := node_output_buffer_bytes n in (u64 (x.1 + b.1), u64 (x.2 + b.2))) ns (a, b) =
  (a + total (ns ≫= outputs_of), b + total (List.filter internal (ns ≫= outputs_of))).
Proof.
  induction ns as [|n ns IH]; intros Hin a b Hb Hla; cbn [fold_left]; [cbn; f_equal; lia|].
  destruct (Hin n ltac:(by left)) as [k Hk]. destruct (node_bytes k n Hk) as [E Ht]. destruct (outputs_sized k n Hk) as [Hs _].
  pose proof (total_filter internal _ Hs). rewrite zlen_cons in Hla. pose proof (zlen_nonneg ns). rewrite E. cbv zeta. cbn [fst snd].
  rewrite !wrap_small by lia. rewrite IH; [|intros m Hm; apply Hin; by right|lia|lia].
  cbn [mbind list_bind]. rewrite List.filter_app, !total_app. f_equal; lia.
Qed.

(** The totals of the graph are those of the outputs of all nodes: none of the
    sums wraps around. *)
Lemma graph_info_bytes n_lanes flags : executor = Some (n_lanes, flags) -> exists info,
  spa_fgn_graph_get_info sizeof_graph_info = Ret info /\
  gi_allocated_output_buffer_bytes info = total (gr_nodes g ≫= outputs_of) /\
  gi_internal_output_buffer_bytes info = total (List.filter internal (gr_nodes g ≫= outputs_of)).
Proof.
  intros E. unfold spa_fgn_graph_get_info. rewrite E. cbn [Z.ltb]. eexists. split; [done|].
  pose proof (wf_n_nodes _ (rd_wf _ Hg)). cbn [gi_allocated_output_buffer_bytes gi_internal_output_buffer_bytes].
  rewrite nodes_fold; [done| |lia|lia]. intros n [k Hk]%list_elem_of_lookup. by exists k.
Qed.

(** C40: the queries describe one and the same graph, for every graph that
    [spa_fgn_graph_new] hands out ([graph_ready]) and structures of the full size.
    Every link is reported from
    an earlier to a later node of the execution order; asked at the coordinates of
    its ends, the ports carry the same arrays, the input names the output as its
    source and the output counts a consumer.  A port that names a source is the
    input of a link that is reported with these coordinates, and every port of a
    node is found at the index of its node.  Every external port is found among the
    ports of the nodes, with its index, its description, its format and the name of
    its node.  With an executor, the bytes reported for the graph are the sums over
    the outputs of all nodes, and over those that are not external: no sum wraps
    around. *)
Theorem queries_consistent :
  (forall i, 0 <= i < zlen (gr_links g) -> exists link output input,
     spa_fgn_graph_get_link_info i sizeof_link_info = Ret link /\
     0 <= li_output_execution_index link < li_input_execution_index link /\
     spa_fgn_graph_get_node_port_info (li_output_execution_index link) SPA_DIRECTION_OUTPUT (li_output_port_ordinal link)
       sizeof_graph_port_info = Ret output /\
     spa_fgn_graph_get_node_port_info (li_input_execution_index link) SPA_DIRECTION_INPUT (li_input_port_ordinal link)
       sizeof_graph_port_info = Ret input /\
     gp_source_execution_index input = li_output_execution_index link /\ gp_source_port_ordinal input = li_output_port_ordinal link /\
     1 <= gp_n_consumers output /\ same_format (gp_format output) (gp_format input)) /\
  (forall r p, port_at g r = Some p -> exists e o info, (0 <= e /\ 0 <= o /\ gr_order g !! Z.to_nat e = Some r.1) /\
     spa_fgn_graph_get_node_port_info e (pi_direction (pt_info p)) o sizeof_graph_port_info = Ret info /\
     gp_info info = pt_info p /\
     (gp_source_execution_index info <> SPA_ID_INVALID -> exists i link, spa_fgn_graph_get_link_info i sizeof_link_info = Ret link /\
        li_input_execution_index link = e /\ li_input_port_ordinal link = o /\
        li_output_execution_index link = gp_source_execution_index info /\ li_output_port_ordinal link = gp_source_port_ordinal info)) /\
  (forall direction i, direction = SPA_DIRECTION_INPUT \/ direction = SPA_DIRECTION_OUTPUT -> 0 <= i < zlen (externals direction g) ->
     exists e o info node, (0 <= e /\ 0 <= o) /\
       spa_fgn_graph_get_node_port_info e direction o sizeof_graph_port_info = Ret info /\ gp_external_index info = i /\
       spa_fgn_graph_get_node_info e sizeof_node_info = Ret node /\
       spa_fgn_graph_get_port_format direction i = Ret (gp_format info) /\ spa_fgn_graph_get_port_info direction i = Ret (ni_name node, gp_info info)) /\
  (forall n_lanes flags, executor = Some (n_lanes, flags) -> exists info, spa_fgn_graph_get_info sizeof_graph_info = Ret info /\
     gi_allocated_output_buffer_bytes info = total (gr_nodes g ≫= outputs_of) /\
     gi_internal_output_buffer_bytes info = total (List.filter internal (gr_nodes g ≫= outputs_of))).
Proof. split; [exact query_link|]. split; [exact query_port|]. split; [exact query_external|exact graph_info_bytes]. Qed.
End Queries.

#[local] Opaque Copy.graph.

Definition example_plugin : spa_fgn_plugin := mk_plugin 32 8 None None 0.

Lemma queries_consistent_witness :
  spa_fgn_graph_get_link_info Copy.graph 0 sizeof_link_info = Ret (mk_link_info 0 0 0 1 0) /\
  (exists e o info node, (0 <= e /\ 0 <= o) /\
     spa_fgn_graph_get_node_port_info Copy.graph e SPA_DIRECTION_OUTPUT o sizeof_graph_port_info = Ret info /\ gp_external_index info = 0 /\
     spa_fgn_graph_get_node_info (fun _ => []) (fun _ => example_plugin) (fun _ => false) Copy.graph e sizeof_node_info = Ret node /\
     spa_fgn_graph_get_port_format Copy.graph SPA_DIRECTION_OUTPUT 0 = Ret (gp_format info) /\
     spa_fgn_graph_get_port_info Copy.graph SPA_DIRECTION_OUTPUT 0 = Ret (ni_name node, gp_info info)).
Proof.
  split; [vm_compute; reflexivity|].
  apply (proj1 (proj2 (proj2 (queries_consistent (Some (1, 0)) (fun _ => []) (fun _ => example_plugin) (fun _ => false) Copy.graph Copy.graph_is_ready)))); [by right|].
  assert (zlen (externals SPA_DIRECTION_OUTPUT Copy.graph) = 1) as -> by (vm_compute; reflexivity). lia.
Defined.
