(* ===== verification/GraphTransactions.v ===== *)
(** * Transactions of a running filter graph

    Models how [spa/plugins/filter-graph/filter-graph-ndarray.c] changes the
    properties and the parameters of a running graph: [spa_fgn_graph_set_props]
    and [spa_fgn_graph_set_parameters] of the control thread prepare an object
    for every node and publish them together through an atomic word, and
    [publish_graph_property_transaction] and
    [publish_graph_parameter_transaction] of the process thread commit them.

    The two protocols are one, with [params] for the one of the parameters.  A
    step is an access to the word, to the shared table or a call of a plugin, so
    that every interleaving of the two threads is a sequence of steps; the word
    is accessed in acquire and release order, which the steps are.  The objects
    of the plugins are addresses, 0 for NULL. *)
From S2P Require Import Prelude Bytes CString.
#[local] Open Scope Z_scope.

(** [enum fgn_transaction_state]. *)
Inductive fgn_transaction_state : Type :=
  | FGN_TRANSACTION_EMPTY
  | FGN_TRANSACTION_PENDING
  | FGN_TRANSACTION_PROCESSING
  | FGN_TRANSACTION_RETIRED.
#[global] Instance fgn_transaction_state_dec : EqDecision fgn_transaction_state.
Proof. solve_decision. Defined.

(** What a thread of [struct fgn_transaction] shares: the node, and the object. *)
Record entry : Type := mk_entry { en_node : nat; en_prepared : Z }.

(** The calls of the plugins. *)
Inductive event : Type :=
  | Prepare (node : nat) (prepared : Z)
  | Commit (node : nat) (prepared : Z)
  | Discard (node : nat) (prepared : Z)
  | Adopt (node : nat).

#[global] Instance event_dec : EqDecision event.
Proof. solve_decision. Defined.
#[global] Instance entry_dec : EqDecision entry.
Proof. solve_decision. Defined.

(** The assignments for the nodes that a call gives, or the error it finds in
    its arguments behind the test of the word. *)
Definition request (A : Type) : Type := (list (nat * list A) + Z)%type.

(** The control thread: outside of every call, in [spa_fgn_graph_set_props] or
    [spa_fgn_graph_set_parameters], or in [spa_fgn_graph_free]. *)
Inductive control_pc (A : Type) : Type :=
  | C_idle
  | C_reclaim (req : request A)                  (* about to test for RETIRED *)
  | C_clear (req : request A) (k : nat)          (* in clear_..._transactions *)
  | C_reset (req : request A)                    (* about to forget the table *)
  | C_emptied (req : request A)                  (* about to store EMPTY *)
  | C_check (req : request A)                    (* about to test for EMPTY *)
  | C_prepare (res : Z) (todo : list (nat * list A)) (done : list entry)
  | C_abort (res : Z) (k : nat) (done : list entry)
  | C_install (res : Z) (done : list entry)      (* about to store the table *)
  | C_publish (res : Z)                          (* about to store PENDING *)
  | C_free (k : nat)
  | C_freed.
Arguments C_idle {A}.
Arguments C_reclaim {A}.
Arguments C_clear {A}.
Arguments C_reset {A}.
Arguments C_emptied {A}.
Arguments C_check {A}.
Arguments C_prepare {A}.
Arguments C_abort {A}.
Arguments C_install {A}.
Arguments C_publish {A}.
Arguments C_free {A}.
Arguments C_freed {A}.

(** The process thread: outside, or in [publish_graph_..._transaction]. *)
Inductive process_pc : Type :=
  | P_idle
  | P_exchange                                   (* about to exchange PENDING *)
  | P_commit (k : nat)
  | P_adopt (k : nat)
  | P_retire.                                    (* about to store RETIRED *)

(** [sy_results] are the results of the calls that returned. *)
Record system (A : Type) : Type := mk_system {
  sy_state : fgn_transaction_state;
  sy_table : list entry;
  sy_control : control_pc A;
  sy_process : process_pc;
  sy_events : list event;
  sy_results : list Z }.
Arguments mk_system {A}.
Arguments sy_state {A}.
Arguments sy_table {A}.
Arguments sy_control {A}.
Arguments sy_process {A}.
Arguments sy_events {A}.
Arguments sy_results {A}.

Section Protocol.
Context {A : Type}.
(** The descriptor of the node has the callbacks, what they answer with the
    object they store, and whether it has the one that discards. *)
Context (prepares : nat -> bool) (prepare : nat -> list A -> Z * Z) (discards : nat -> bool).
(** Of the parameters: an object is required, and adopted. *)
Context (params : bool).

(** The body of the loop of [clear_property_transactions]. *)
Definition discard (e : entry) : list event :=
  if negb (en_prepared e =? 0) && discards (en_node e) then [Discard (en_node e) (en_prepared e)] else [].

Definition control_to (pc : control_pc A) (evs : list event) (s : system A) : system A :=
  mk_system (sy_state s) (sy_table s) pc (sy_process s) (sy_events s ++ evs) (sy_results s).
Definition return_to (res : Z) (s : system A) : system A :=
  mk_system (sy_state s) (sy_table s) C_idle (sy_process s) (sy_events s) (sy_results s ++ [res]).

(** One step of the control thread inside a call. *)
Definition control_step (s : system A) : option (system A) :=
  match sy_control s with
  | C_idle | C_freed => None
  | C_reclaim req =>
      Some (control_to (if decide (sy_state s = FGN_TRANSACTION_RETIRED) then C_clear req 0 else C_check req) [] s)
  | C_clear req k =>
      match sy_table s !! k with
      | Some e => Some (control_to (C_clear req (S k)) (discard e) s)
      | None => Some (control_to (C_reset req) [] s)
      end
  | C_reset req =>
      Some (mk_system (sy_state s) [] (C_emptied req) (sy_process s) (sy_events s) (sy_results s))
  | C_emptied req =>
      Some (mk_system FGN_TRANSACTION_EMPTY (sy_table s) (C_check req) (sy_process s) (sy_events s) (sy_results s))
  | C_check req =>
      if decide (sy_state s = FGN_TRANSACTION_EMPTY) then
        match req with
        | inr res => Some (return_to res s)
        | inl [] => Some (return_to 0 s)
        | inl todo => Some (control_to (C_prepare 0 todo []) [] s)
        end
      else Some (return_to (- EBUSY) s)
  | C_prepare res [] done => Some (control_to (C_install res done) [] s)
  | C_prepare _ ((node, assignments) :: todo) done =>
      if negb (prepares node) then Some (control_to (C_abort (- ENOTSUP) 0 done) [] s)
      else
        let '(res, prepared) := prepare node assignments in
        let evs := if prepared =? 0 then [] else [Prepare node prepared] in
        let done := done ++ [mk_entry node prepared] in
        if res <? 0 then Some (control_to (C_abort res 0 done) evs s)
        else if params && (prepared =? 0) then Some (control_to (C_abort (- EFAULT) 0 done) evs s)
        else Some (control_to (C_prepare res todo done) evs s)
  | C_abort res k done =>
      match done !! k with
      | Some e => Some (control_to (C_abort res (S k) done) (discard e) s)
      | None => Some (return_to res s)
      end
  | C_install res done =>
      Some (mk_system (sy_state s) done (C_publish res) (sy_process s) (sy_events s) (sy_results s))
  | C_publish res =>
      Some (mk_system FGN_TRANSACTION_PENDING (sy_table s) C_idle (sy_process s) (sy_events s) (sy_results s ++ [res]))
  | C_free k =>
      match sy_table s !! k with
      | Some e => Some (control_to (C_free (S k)) (discard e) s)
      | None => Some (mk_system FGN_TRANSACTION_EMPTY [] C_freed (sy_process s) (sy_events s) (sy_results s))
      end
  end.

Definition process_to (pc : process_pc) (evs : list event) (s : system A) : system A :=
  mk_system (sy_state s) (sy_table s) (sy_control s) pc (sy_events s ++ evs) (sy_results s).

(** One step of the process thread inside of the publication. *)
Definition process_step (s : system A) : option (system A) :=
  match sy_process s with
  | P_idle => None
  | P_exchange =>
      Some (if decide (sy_state s = FGN_TRANSACTION_PENDING)
            then mk_system FGN_TRANSACTION_PROCESSING (sy_table s) (sy_control s) (P_commit 0) (sy_events s) (sy_results s)
            else process_to P_idle [] s)
  | P_commit k =>
      match sy_table s !! k with
      | Some e =>
          Some (mk_system (sy_state s) (<[k := mk_entry (en_node e) 0]> (sy_table s)) (sy_control s) (P_commit (S k))
                          (sy_events s ++ [Commit (en_node e) (en_prepared e)]) (sy_results s))
      | None => Some (process_to (if params then P_adopt 0 else P_retire) [] s)
      end
  | P_adopt k =>
      match sy_table s !! k with
      | Some e => Some (process_to (P_adopt (S k)) [Adopt (en_node e)] s)
      | None => Some (process_to P_retire [] s)
      end
  | P_retire =>
      Some (mk_system FGN_TRANSACTION_RETIRED (sy_table s) (sy_control s) P_idle (sy_events s) (sy_results s))
  end.

Definition freeing (pc : control_pc A) : bool := match pc with C_free _ | C_freed => true | _ => false end.

(** The threads, and the calls that begin.  The graph is freed when nothing
    processes it any more. *)
Inductive step : system A -> system A -> Prop :=
  | step_control s s' : control_step s = Some s' -> step s s'
  | step_process s s' : process_step s = Some s' -> step s s'
  | step_call s req : sy_control s = C_idle -> step s (control_to (C_reclaim req) [] s)
  | step_cycle s : sy_process s = P_idle -> freeing (sy_control s) = false -> step s (process_to P_exchange [] s)
  | step_free s : sy_control s = C_idle -> sy_process s = P_idle -> step s (control_to (C_free 0) [] s).

(** A graph as [spa_fgn_graph_new] returns it: with the objects of the initial
    properties, published. *)
Definition started (initial : list entry) : system A :=
  mk_system (if decide (initial = []) then FGN_TRANSACTION_EMPTY else FGN_TRANSACTION_PENDING) initial C_idle P_idle
            (map (fun e => Prepare (en_node e) (en_prepared e)) initial) [].

Inductive reachable (initial : list entry) : system A -> Prop :=
  | reach_start : reachable initial (started initial)
  | reach_step s s' : reachable initial s -> step s s' -> reachable initial s'.

(** A schedule: who moves next. *)
Inductive move : Type :=
  | M_control | M_process | M_call (req : request A) | M_cycle | M_free.

Definition play (m : move) (s : system A) : option (system A) :=
  match m with
  | M_control => control_step s
  | M_process => process_step s
  | M_call req => match sy_control s with C_idle => Some (control_to (C_reclaim req) [] s) | _ => None end
  | M_cycle =>
      match sy_process s with
      | P_idle => if freeing (sy_control s) then None else Some (process_to P_exchange [] s)
      | _ => None
      end
  | M_free =>
      match sy_control s, sy_process s with C_idle, P_idle => Some (control_to (C_free 0) [] s) | _, _ => None end
  end.

Fixpoint play_all (ms : list move) (s : system A) : option (system A) :=
  match ms with
  | [] => Some s
  | m :: ms => match play m s with Some s => play_all ms s | None => None end
  end.

Lemma play_step m s s' : play m s = Some s' -> step s s'.
Proof.
  destruct m; cbn; intros H.
  - by apply step_control.
  - by apply step_process.
  - destruct (sy_control s) eqn:E; simplify_eq. by apply step_call.
  - destruct (sy_process s) eqn:E; simplify_eq. destruct (freeing _) eqn:F; simplify_eq. by apply step_cycle.
  - destruct (sy_control s) eqn:E; simplify_eq. destruct (sy_process s) eqn:F; simplify_eq. by apply step_free.
Qed.

Lemma play_reachable initial ms s : play_all ms (started initial) = Some s -> reachable initial s.
Proof.
  assert (forall s0, reachable initial s0 -> play_all ms s0 = Some s -> reachable initial s) as H.
  { induction ms as [|m ms IH]; cbn; intros s0 Hr H; [by simplify_eq|].
    destruct (play m s0) as [s1|] eqn:E; [|done]. apply (IH s1); [|done]. by eapply reach_step, play_step. }
  apply H. constructor.
Qed.

(** ** What is kept *)

Definition settled_table (t : list entry) : Prop := Forall (fun e => en_prepared e = 0) t.

Definition control_inv (s : system A) : Prop :=
  match sy_control s with
  | C_clear _ _ | C_reset _ => sy_state s = FGN_TRANSACTION_RETIRED
  | C_emptied _ => sy_state s = FGN_TRANSACTION_RETIRED /\ sy_table s = []
  | C_prepare _ _ _ | C_abort _ _ _ | C_install _ _ => sy_state s = FGN_TRANSACTION_EMPTY /\ sy_table s = []
  | C_publish _ => sy_state s = FGN_TRANSACTION_EMPTY
  | C_free _ => sy_process s = P_idle
  | C_freed => sy_process s = P_idle /\ sy_table s = []
  | C_idle | C_reclaim _ | C_check _ => sy_state s = FGN_TRANSACTION_EMPTY -> sy_table s = []
  end.

Definition process_inv (s : system A) : Prop :=
  match sy_process s with
  | P_idle | P_exchange => sy_state s <> FGN_TRANSACTION_PROCESSING
  | P_commit k =>
      sy_state s = FGN_TRANSACTION_PROCESSING /\ settled_table (take k (sy_table s))
  | P_adopt _ | P_retire => sy_state s = FGN_TRANSACTION_PROCESSING /\ settled_table (sy_table s)
  end.

Definition retired_inv (s : system A) : Prop :=
  sy_state s = FGN_TRANSACTION_RETIRED -> settled_table (sy_table s).

Record inv (s : system A) : Prop := {
  inv_control : control_inv s;
  inv_process : process_inv s;
  inv_retired : retired_inv s }.

(** The process thread is in the table. *)
Definition processing (s : system A) : bool :=
  match sy_process s with P_commit _ | P_adopt _ | P_retire => true | _ => false end.
(** The control thread reads or changes the table. *)
Definition controlling (s : system A) : bool :=
  match sy_control s with C_clear _ _ | C_reset _ | C_install _ _ | C_free _ => true | _ => false end.

Lemma processing_state s : inv s -> processing s = true -> sy_state s = FGN_TRANSACTION_PROCESSING.
Proof. intros [_ Hp _]. unfold processing, process_inv in *. destruct (sy_process s); by intros; destruct_and?. Qed.

(** What a control step leaves of the invariant of the process thread, which it
    has in its word. *)
Lemma process_inv_kept s s' : process_inv s -> sy_process s' = sy_process s ->
  (processing s = true -> sy_state s' = sy_state s /\ sy_table s' = sy_table s) ->
  (processing s = false -> sy_state s' <> FGN_TRANSACTION_PROCESSING) -> process_inv s'.
Proof.
  unfold process_inv, processing. intros Hp Hpc Hon Hoff. rewrite Hpc.
  destruct (sy_process s); try (by apply Hoff); destruct (Hon eq_refl) as [-> ->]; done.
Qed.

Lemma settled_insert k n t : settled_table (take k t) -> settled_table (take (S k) (<[k := mk_entry n 0]> t)).
Proof.
  intros H. destruct (decide (k < List.length t)%nat) as [Hk|Hk].
  - rewrite (take_S_r _ _ (mk_entry n 0)) by (rewrite list_lookup_insert_eq; done).
    rewrite take_insert_ge by lia. apply Forall_app. split; [done|]. by constructor.
  - rewrite list_insert_ge by lia. rewrite take_ge in H by lia. rewrite take_ge by lia. done.
Qed.

(** Decide the tests of a step and split on what the threads do. *)
Ltac step_cases :=
  repeat match goal with
  | H : None = Some _ |- _ => discriminate H
  | H : context [match ?x with _ => _ end] |- _ =>
      lazymatch x with
      | context [match _ with _ => _ end] => fail
      | decide ?P => destruct (decide P)
      | _ => let E := fresh "E" in destruct x eqn:E
      end
  | H : Some _ = Some _ |- _ => injection H as <-
  end.

Lemma inv_control_step s s' : inv s -> control_step s = Some s' -> inv s'.
Proof.
  destruct s as [st tb cpc ppc evs rs]. intros [Hc Hp Hr] Hs.
  unfold control_inv, process_inv, retired_inv, control_step in *.
  cbn [sy_state sy_table sy_control sy_process sy_events sy_results] in *.
  destruct cpc; step_cases; destruct_and?; subst;
    split; unfold control_inv, process_inv, retired_inv; cbn; try destruct ppc; try done; try (by constructor);
    try (destruct_and?; done); try (case_decide; auto); auto.
Qed.

Lemma inv_process_step s s' : inv s -> process_step s = Some s' -> inv s'.
Proof.
  destruct s as [st tb cpc ppc evs rs]. intros [Hc Hp Hr] Hs.
  unfold control_inv, process_inv, retired_inv, process_step in *.
  cbn [sy_state sy_table sy_control sy_process sy_events sy_results] in *.
  destruct ppc; step_cases; destruct_and?; subst;
    split; unfold control_inv, process_inv, retired_inv; cbn; try done; try (by destruct cpc; destruct_and?).
  all: split; [done|];
    first [by apply settled_insert | rewrite take_0; constructor |
           rewrite take_ge in * by (by apply lookup_ge_None_1); done].
Qed.

Lemma inv_started initial : inv (started initial).
Proof.
  split; unfold control_inv, process_inv, retired_inv, started; cbn; case_decide; done.
Qed.

Lemma protocol_inv_step s s' : inv s -> step s s' -> inv s'.
Proof.
  intros Hi Hs. destruct Hs as [s s' Hs|s s' Hs|s req Hc|s Hc Hf|s Hc Hp].
  - by eapply inv_control_step.
  - by eapply inv_process_step.
  - destruct s. cbn in *. subst. destruct Hi as [H1 H2 H3]. by split.
  - destruct s as [? ? cpc ppc ? ?]. cbn in *. subst. destruct Hi as [H1 H2 H3]. split; [|done|done].
    unfold control_inv in *. cbn in *. by destruct cpc.
  - destruct s. cbn in *. subst. destruct Hi as [H1 H2 H3]. by split.
Qed.

Lemma protocol_inv_reachable initial s : reachable initial s -> inv s.
Proof. induction 1; [apply inv_started|by eapply protocol_inv_step]. Qed.

(** ** Accounting *)

Definition occurs {B} `{EqDecision B} (x : B) (l : list B) : nat := List.length (filter (eq x) l).
#[local] Arguments occurs : simpl never.

(** The objects that are neither committed nor discarded: in the table, and
    with the control thread. *)
Definition outstanding (s : system A) : list entry :=
  (match sy_control s with C_free k => drop k (sy_table s) | _ => sy_table s end) ++
  (match sy_control s with
   | C_prepare _ _ done | C_install _ done => done
   | C_abort _ k done => drop k done
   | _ => []
   end).

Definition accounted (s : system A) : Prop :=
  forall n u, u <> 0 ->
    occurs (Prepare n u) (sy_events s) =
    (occurs (Commit n u) (sy_events s) + occurs (Discard n u) (sy_events s) + occurs (mk_entry n u) (outstanding s))%nat.

(** What is outstanding can be discarded. *)
Definition discardable (s : system A) : Prop := Forall (fun e => discards (en_node e) = true) (outstanding s).

Lemma occurs_app {B} `{EqDecision B} (x : B) a b : occurs x (a ++ b) = (occurs x a + occurs x b)%nat.
Proof. unfold occurs. by rewrite list.filter_app, length_app. Qed.
Lemma occurs_cons {B} `{EqDecision B} (x y : B) l : occurs x (y :: l) = ((if decide (x = y) then 1 else 0) + occurs x l)%nat.
Proof. unfold occurs. rewrite filter_cons. by case_decide. Qed.
Lemma occurs_nil {B} `{EqDecision B} (x : B) : occurs x [] = O.
Proof. done. Qed.

Lemma occurs_settled n u t : u <> 0 -> settled_table t -> occurs (mk_entry n u) t = O.
Proof.
  intros Hu. induction 1 as [|e t He _ IH]; [done|]. rewrite occurs_cons, IH, decide_False; [done|].
  intros <-. by apply Hu.
Qed.

Lemma occurs_discard n u e : u <> 0 -> discards (en_node e) = true ->
  occurs (Discard n u) (discard e) = if decide (mk_entry n u = e) then 1%nat else O.
Proof.
  intros Hu Hd. unfold discard. rewrite Hd, andb_true_r. destruct e as [n' u']. cbn.
  destruct (Z.eqb_spec u' 0) as [->|Hu']; cbn [negb].
  - rewrite decide_False by congruence. done.
  - rewrite occurs_cons, occurs_nil. destruct (decide (n = n' /\ u = u')) as [[-> ->]|Hne].
    + by rewrite !decide_True.
    + rewrite !decide_False; [done|intros [= -> ->]; tauto..].
Qed.

Lemma occurs_not_discard n u e :
  occurs (Prepare n u) (discard e) = O /\ occurs (Commit n u) (discard e) = O.
Proof. unfold discard. by case_if. Qed.

Lemma occurs_insert n u k e t : u <> 0 -> t !! k = Some e ->
  (occurs (mk_entry n u) (<[k := mk_entry (en_node e) 0]> t) + (if decide (mk_entry n u = e) then 1 else 0))%nat =
  occurs (mk_entry n u) t.
Proof.
  intros Hu He. rewrite <- (take_drop_middle t k e He) at 2.
  rewrite insert_take_drop by (by eapply lookup_lt_Some). rewrite !occurs_app, !occurs_cons.
  rewrite (decide_False (P := mk_entry n u = mk_entry (en_node e) 0)) by congruence. lia.
Qed.

(** A step is right when its events make up for what it does to the objects. *)
Lemma accounted_by s s' evs : accounted s -> sy_events s' = sy_events s ++ evs ->
  (forall n u, u <> 0 ->
     (occurs (Prepare n u) evs + occurs (mk_entry n u) (outstanding s) =
      occurs (Commit n u) evs + occurs (Discard n u) evs + occurs (mk_entry n u) (outstanding s'))%nat) ->
  accounted s'.
Proof.
  intros Ha He Hb n u Hu. specialize (Ha n u Hu). specialize (Hb n u Hu). rewrite He, !occurs_app. lia.
Qed.

Lemma same_accounts s s' : accounted s -> sy_events s' = sy_events s ++ [] -> outstanding s' = outstanding s -> accounted s'.
Proof. intros Ha He Ho. eapply accounted_by; [exact Ha|exact He|]. intros n u _. by rewrite Ho. Qed.

Context (Hdiscards : forall n, prepares n = true -> discards n = true).

(** The loops that discard take the first of the objects off. *)
Lemma discard_accounts s s' e rest before after : accounted s -> discards (en_node e) = true ->
  sy_events s' = sy_events s ++ discard e ->
  outstanding s = before ++ e :: rest ++ after -> outstanding s' = before ++ rest ++ after -> accounted s'.
Proof.
  intros Ha Hd He Ho Ho'. eapply accounted_by; [exact Ha|exact He|]. intros n u Hu.
  destruct (occurs_not_discard n u e) as [-> ->]. rewrite occurs_discard, Ho, Ho' by done.
  rewrite !occurs_app, occurs_cons, occurs_app. lia.
Qed.

Lemma discards_next s s' e before rest after : discardable s -> accounted s ->
  sy_events s' = sy_events s ++ discard e ->
  outstanding s = before ++ e :: rest ++ after -> outstanding s' = before ++ rest ++ after ->
  accounted s' /\ discardable s'.
Proof.
  intros Hd Ha He Ho Ho'. unfold discardable in *. rewrite Ho in Hd. rewrite Ho'.
  apply Forall_app in Hd as [Hb Hd]. apply list.Forall_cons in Hd as [Hx Hd].
  split; [by eapply (discard_accounts s s' e rest before after)|]. by apply Forall_app.
Qed.

Lemma accounted_prepare st tb res node l todo done ppc evs rs s' :
  let s := mk_system st tb (C_prepare res ((node, l) :: todo) done) ppc evs rs in
  discardable s -> accounted s -> control_step s = Some s' -> accounted s' /\ discardable s'.
Proof.
  intros s Hd Ha Hs. unfold control_step, s in Hs. cbn [sy_control] in Hs.
  destruct (prepares node) eqn:Ep; cbn [negb] in Hs; [|by injection Hs as <-; split; [apply (same_accounts _ _ Ha)|]].
  destruct (prepare node l) as [r u] eqn:Er.
  assert (forall pc, outstanding (control_to pc (if u =? 0 then [] else [Prepare node u]) s) =
                     outstanding s ++ [mk_entry node u] ->
    let s1 := control_to pc (if u =? 0 then [] else [Prepare node u]) s in accounted s1 /\ discardable s1) as Hgo.
  { intros pc Ho s1. split.
    - eapply (accounted_by s s1); [exact Ha|reflexivity|]. intros n v Hv. unfold s1. rewrite Ho, occurs_app, occurs_cons, occurs_nil.
      destruct (Z.eqb_spec u 0) as [->|Hu].
      + rewrite !occurs_nil, decide_False by (intros [= _ E]; by apply Hv). lia.
      + rewrite !occurs_cons, !occurs_nil. repeat case_decide; simplify_eq; lia || done.
    - unfold discardable, s1. rewrite Ho. apply Forall_app. split; [exact Hd|]. constructor; [by apply Hdiscards|done]. }
  destruct (r <? 0); [|destruct (params && _)]; injection Hs as <-; apply Hgo; unfold outstanding, s; cbn;
    by rewrite ?drop_0, app_assoc.
Qed.

Lemma accounted_control_step s s' : inv s -> discardable s -> accounted s -> control_step s = Some s' ->
  accounted s' /\ discardable s'.
Proof.
  destruct s as [st tb cpc ppc evs rs]. intros [Hc _ Hr] Hd Ha Hs.
  unfold control_step, control_inv, retired_inv in *. cbn [sy_state sy_table sy_control sy_process sy_events sy_results] in *.
  destruct cpc as [|req|req k|req|req|req|res todo done|res k done|res done|res|k|]; cbv iota in Hs; try discriminate Hs.
  - injection Hs as <-. split; [apply (same_accounts _ _ Ha)|]; [done|by case_decide|].
    revert Hd. unfold discardable, outstanding. cbn. by case_decide.
  - destruct (tb !! k) as [e|] eqn:Ek; injection Hs as <-; [|by split; [apply (same_accounts _ _ Ha)|]].
    assert (discard e = []) as He.
    { unfold discard. pose proof (Forall_lookup_1 _ _ _ _ (Hr Hc) Ek) as ->. done. }
    split; [|exact Hd]. apply (same_accounts _ _ Ha); [|done]. cbn. by rewrite He.
  - injection Hs as <-. split; [|by constructor]. apply (accounted_by _ _ [] Ha); [by rewrite app_nil_r|].
    intros n u Hu. cbn. rewrite app_nil_r, (occurs_settled n u tb) by auto. done.
  - injection Hs as <-. split; [|done]. apply (same_accounts _ _ Ha); [by rewrite app_nil_r|done].
  - destruct (decide _) as [->|Hne]; [destruct req as [[|t todo]|res]|]; injection Hs as <-;
      (split; [|done]); apply (same_accounts _ _ Ha); try done; cbn; by rewrite app_nil_r.
  - destruct todo as [|[node l] todo]; [injection Hs as <-; by split; [apply (same_accounts _ _ Ha)|]|].
    by apply (accounted_prepare st tb res node l todo done ppc evs rs).
  - destruct (done !! k) as [e|] eqn:Ek; injection Hs as <-.
    + apply (discards_next _ _ e tb (drop (S k) done) [] Hd Ha); [reflexivity|..]; unfold outstanding; cbn;
        by rewrite ?(drop_S _ _ _ Ek), ?app_nil_r.
    + apply lookup_ge_None_1 in Ek. revert Hd. unfold discardable, outstanding. cbn. rewrite drop_ge by done.
      intros Hd. split; [|done]. apply (same_accounts _ _ Ha); [by cbn; rewrite app_nil_r|].
      unfold outstanding. cbn. by rewrite drop_ge.
  - injection Hs as <-. destruct Hc as [_ ->]. revert Hd. unfold discardable, outstanding. cbn. intros Hd.
    rewrite app_nil_r. split; [|done]. apply (same_accounts _ _ Ha); [by cbn; rewrite app_nil_r|].
    unfold outstanding. cbn. by rewrite app_nil_r.
  - injection Hs as <-. split; [|done]. apply (same_accounts _ _ Ha); [by cbn; rewrite app_nil_r|done].
  - destruct (tb !! k) as [e|] eqn:Ek; injection Hs as <-.
    + apply (discards_next _ _ e [] (drop (S k) tb) [] Hd Ha); [reflexivity|..]; unfold outstanding; cbn;
        by rewrite ?(drop_S _ _ _ Ek), ?app_nil_r.
    + apply lookup_ge_None_1 in Ek. split; [|constructor]. apply (same_accounts _ _ Ha); [by cbn; rewrite app_nil_r|].
      unfold outstanding. cbn. by rewrite drop_ge.
Qed.

Lemma processing_outstanding s : inv s -> processing s = true -> outstanding s = sy_table s.
Proof.
  intros Hi Hp. pose proof (processing_state s Hi Hp) as Hst. destruct Hi as [Hc _ _].
  unfold processing, control_inv, outstanding in *.
  destruct (sy_control s); destruct_and?; rewrite ?app_nil_r; try congruence. by rewrite Hc in Hp.
Qed.

Lemma accounted_process_step s s' : inv s -> discardable s -> accounted s -> process_step s = Some s' ->
  accounted s' /\ discardable s'.
Proof.
  destruct s as [st tb cpc ppc evs rs]. intros Hi Hd Ha Hs.
  assert (forall pc' st' evs', evs' = evs ++ [] ->
    accounted (mk_system st' tb cpc pc' evs' rs) /\ discardable (mk_system st' tb cpc pc' evs' rs)) as Hsame.
  { intros pc' st' evs' ->. split; [|exact Hd]. by apply (same_accounts _ _ Ha). }
  unfold process_step in Hs. cbn [sy_state sy_table sy_control sy_process sy_events sy_results] in Hs.
  destruct ppc as [| |k|k|]; cbv iota in Hs; try discriminate Hs.
  - injection Hs as <-. case_decide; apply Hsame; by rewrite ?app_nil_r.
  - destruct (tb !! k) as [e|] eqn:Ek; injection Hs as <-; [|by apply Hsame].
    pose proof (processing_outstanding _ Hi eq_refl) as Ho. cbn [sy_table] in Ho.
    set (s2 := mk_system _ _ _ _ _ _).
    assert (outstanding s2 = <[k := mk_entry (en_node e) 0]> tb) as Ho2.
    { apply (processing_outstanding s2); [|done]. apply (inv_process_step _ _ Hi). unfold process_step. cbn. by rewrite Ek. }
    split.
    + apply (accounted_by _ s2 [Commit (en_node e) (en_prepared e)] Ha); [done|]. intros n u Hu.
      rewrite Ho, Ho2, !occurs_cons, !occurs_nil. rewrite <- (occurs_insert n u k e tb Hu Ek). destruct e as [n' u']. cbn.
      repeat case_decide; simplify_eq; lia || done.
    + unfold discardable. rewrite Ho2. unfold discardable in Hd. rewrite Ho in Hd.
      apply Forall_insert; [done|]. cbn. by apply (Forall_lookup_1 _ _ _ _ Hd Ek).
  - destruct (tb !! k) as [e|]; injection Hs as <-; [|by apply Hsame]. split; [|exact Hd].
    apply (accounted_by _ _ [Adopt (en_node e)] Ha); [done|]. intros n u Hu.
    rewrite !occurs_cons, !occurs_nil. done.
  - injection Hs as <-. apply Hsame. by rewrite app_nil_r.
Qed.

Lemma occurs_prepared n u es : occurs (Prepare n u) (map (fun e => Prepare (en_node e) (en_prepared e)) es) = occurs (mk_entry n u) es.
Proof.
  induction es as [|[n' u'] es IH]; [done|]. cbn [map en_node en_prepared]. rewrite !occurs_cons, IH.
  repeat case_decide; simplify_eq; done.
Qed.

Lemma occurs_other (x : event) es : (forall e : entry, x <> Prepare (en_node e) (en_prepared e)) ->
  occurs x (map (fun e => Prepare (en_node e) (en_prepared e)) es) = O.
Proof. intros Hx. induction es as [|e es IH]; [done|]. cbn [map]. by rewrite occurs_cons, decide_False. Qed.

Lemma accounted_reachable initial s : Forall (fun e => discards (en_node e) = true) initial ->
  reachable initial s -> accounted s /\ discardable s.
Proof.
  intros Hi. induction 1 as [|s s' Hr [Ha Hd] Hs].
  - split; [|unfold discardable, outstanding; cbn; by rewrite app_nil_r]. intros n u Hu. unfold started, outstanding.
    cbn [sy_events sy_control sy_table]. by rewrite occurs_prepared, !occurs_other, app_nil_r.
  - pose proof (protocol_inv_reachable _ _ Hr) as Hinv.
    destruct Hs as [s s' Hs|s s' Hs|s req Hc|s Hc Hf|s Hc Hp].
    + by eapply accounted_control_step.
    + by eapply accounted_process_step.
    + assert (outstanding (control_to (C_reclaim req) [] s) = outstanding s) as Ho
        by (unfold outstanding; cbn; by rewrite Hc).
      split; [by apply (same_accounts s)|]. unfold discardable. by rewrite Ho.
    + by split; [apply (same_accounts s)|].
    + assert (outstanding (control_to (C_free 0) [] s) = outstanding s) as Ho
        by (unfold outstanding; cbn; by rewrite Hc, drop_0).
      split; [by apply (same_accounts s)|]. unfold discardable. by rewrite Ho.
Qed.

(** ** The theorems *)

(** C26: in every interleaving of the control and the process thread, the control
    thread touches the table of a transaction only while the process thread does
    not, so neither sees it half changed; and when the process thread adopts
    parameters or leaves the table, every object in it has been committed. *)
Theorem transaction_exclusive (initial : list entry) (s : system A) : reachable initial s ->
  (controlling s = true -> processing s = false) /\
  (forall k, sy_process s = P_adopt k \/ sy_process s = P_retire -> settled_table (sy_table s)).
Proof.
  intros Hr. pose proof (protocol_inv_reachable _ _ Hr) as Hi. split.
  - intros Hc. destruct (processing s) eqn:Ep; [|done]. pose proof (processing_state s Hi Ep) as Hst.
    destruct Hi as [Hci _ _]. unfold controlling, control_inv, processing in *.
    destruct (sy_control s); destruct_and?; try congruence. by rewrite Hci in Ep.
  - intros k Hk. destruct Hi as [_ Hp _]. unfold process_inv in Hp. destruct Hk as [Hk|Hk]; rewrite Hk in Hp; apply Hp.
Qed.

(** C5: in every interleaving, an object that a plugin prepared is committed or
    discarded once, or it is still in the table or with the call that prepared it;
    when the graph has been freed, every object has been committed or discarded. *)
Theorem transaction_objects (initial : list entry) (s : system A) (n : nat) (u : Z) :
  Forall (fun e => discards (en_node e) = true) initial -> reachable initial s -> u <> 0 ->
  occurs (Prepare n u) (sy_events s) =
    (occurs (Commit n u) (sy_events s) + occurs (Discard n u) (sy_events s) + occurs (mk_entry n u) (outstanding s))%nat /\
  (sy_control s = C_freed ->
   occurs (Prepare n u) (sy_events s) = (occurs (Commit n u) (sy_events s) + occurs (Discard n u) (sy_events s))%nat).
Proof.
  intros Hi Hr Hu. destruct (accounted_reachable initial s Hi Hr) as [Ha _]. split; [by apply Ha|]. intros Hc.
  pose proof (inv_control _ (protocol_inv_reachable _ _ Hr)) as H. unfold control_inv in H. rewrite Hc in H.
  rewrite (Ha n u Hu). unfold outstanding. rewrite Hc. destruct H as [_ ->]. cbn. by rewrite occurs_nil, Nat.add_0_r.
Qed.

(** How many steps the process thread still makes in a publication. *)
Definition rank (s : system A) : nat :=
  let n := List.length (sy_table s) in
  match sy_process s with
  | P_idle => 0
  | P_exchange => 2 * n + 5
  | P_commit k => (n - k) + n + 4
  | P_adopt k => (n - k) + 2
  | P_retire => 1
  end.

(** C27: a publication by the process thread never waits for the control thread:
    a step of it is possible in every state and brings it closer to the end, and
    while it has the table no step of the control thread takes it further away. *)
Theorem publication_wait_free (initial : list entry) (s : system A) : reachable initial s -> sy_process s <> P_idle ->
  (exists s', process_step s = Some s' /\ (rank s' < rank s)%nat) /\
  (forall s', processing s = true -> control_step s = Some s' -> rank s' = rank s).
Proof.
  intros Hr Hp. pose proof (protocol_inv_reachable _ _ Hr) as Hi. split.
  - unfold process_step, rank. destruct (sy_process s) as [| |k|k|] eqn:E; [done|..].
    + eexists. split; [done|]. case_decide; cbn; lia.
    + destruct (sy_table s !! k) as [e|] eqn:Ek; eexists; (split; [done|]); cbn.
      * rewrite length_insert. apply lookup_lt_Some in Ek. lia.
      * destruct params; cbn; lia.
    + destruct (sy_table s !! k) as [e|] eqn:Ek; eexists; (split; [done|]); cbn; [apply lookup_lt_Some in Ek|]; lia.
    + eexists. split; [done|]. cbn. lia.
  - intros s' Hon Hs. pose proof (processing_state s Hi Hon) as Hst.
    assert (sy_table s' = sy_table s /\ sy_process s' = sy_process s) as [E1 E2]; [|unfold rank; by rewrite E1, E2].
    destruct s as [st tb cpc ppc evs rs], Hi as [Hc _ _]. unfold control_inv, control_step in *. cbn in *. subst st.
    destruct cpc; destruct_and?; try discriminate; subst; try done; by step_cases.
Qed.
End Protocol.
Arguments M_control {A}.
Arguments M_process {A}.
Arguments M_call {A}.
Arguments M_cycle {A}.
Arguments M_free {A}.

(** A graph of two nodes with parameters, which prepare the object of the sum
    of what they are given; the second node rejects a negative sum. *)
Module Example_run.
Definition prepares (n : nat) : bool := (n <? 2)%nat.
Definition prepare (n : nat) (l : list Z) : Z * Z :=
  let sum := fold_right Z.add 0 l in
  if (n =? 1)%nat && (sum <? 0) then (- EINVAL, 16) else (0, 16 * sum).
Definition first : request Z := inl [(0%nat, [1; 2]); (1%nat, [4])].
Definition second : request Z := inl [(0%nat, [5]); (1%nat, [- 1])].
Definition after (ms : list move) : system Z :=
  default (started []) (play_all prepares prepare prepares true ms (started [])).
(** A call that publishes, and the start of the publication. *)
Definition published : list move :=
  [M_call first] ++ replicate 7 M_control ++ [M_cycle; M_process; M_process].
(** While it lasts a call finds the word taken. *)
Definition adopting : list move :=
  published ++ [M_call second; M_control; M_process; M_control; M_process; M_process].
(** Behind it the next call reclaims the table. *)
Definition clearing : list move :=
  adopting ++ [M_process; M_process; M_process; M_call second; M_control; M_cycle].
(** The second node rejects its assignment, and the graph is freed. *)
Definition freed : list move :=
  clearing ++ [M_process] ++ replicate 11 M_control ++ [M_free; M_control].

Lemma transaction_exclusive_witness :
  (controlling (after clearing) = true /\ processing (after clearing) = false) /\
  (sy_process (after adopting) = P_adopt 1 /\ settled_table (sy_table (after adopting))).
Proof.
  split; (split; [vm_compute; reflexivity|]).
  - apply (transaction_exclusive prepares prepare prepares true []); [|vm_compute; reflexivity].
    apply (play_reachable prepares prepare prepares true [] clearing). vm_compute. reflexivity.
  - apply (transaction_exclusive prepares prepare prepares true []) with 1%nat; [|left; vm_compute; reflexivity].
    apply (play_reachable prepares prepare prepares true [] adopting). vm_compute. reflexivity.
Defined.

Lemma transaction_objects_witness :
  sy_control (after freed) = C_freed /\ sy_results (after freed) = [0; - EBUSY; - EINVAL] /\
  occurs (Prepare 0 80) (sy_events (after freed)) =
    (occurs (Commit 0 80) (sy_events (after freed)) + occurs (Discard 0 80) (sy_events (after freed)))%nat.
Proof.
  split; [vm_compute; reflexivity|]. split; [vm_compute; reflexivity|].
  apply (transaction_objects prepares prepare prepares true (fun n H => H) [] (after freed) 0 80);
    [constructor| |lia|vm_compute; reflexivity].
  apply (play_reachable prepares prepare prepares true [] freed). vm_compute. reflexivity.
Defined.

Lemma publication_wait_free_witness :
  exists s, process_step true (after published) = Some s /\ (rank s < rank (after published))%nat.
Proof.
  apply (publication_wait_free prepares prepare prepares true []); [|vm_compute; discriminate].
  apply (play_reachable prepares prepare prepares true [] published). vm_compute. reflexivity.
Defined.
End Example_run.
