(* ===== verification/GraphBuffers.v ===== *)
(** * The ndarray filter graph: buffers

    Models the checks of [spa/plugins/filter-graph/filter-graph-ndarray.c] on
    the buffers of a cycle: [validate_buffer], the regions of memory that a
    buffer is made of, and the ownership of the outputs.  The structures
    [spa_buffer], [spa_data], [spa_chunk] and [spa_meta] are bytes of the memory
    that their pointers address, with 0 for NULL, so that structures that share
    bytes are seen as they are. *)
From S2P Require Import Prelude Bytes BufferAlloc MetaRecords GraphProps FilterGraph.
#[local] Open Scope Z_scope.

(** ** The structures *)

(** [buffer->n_metas], [buffer->n_datas], [buffer->metas], [buffer->datas]. *)
Definition buffer_n_metas (m : mem) (b : Z) : outcome Z := load_u32 m b.
Definition buffer_n_datas (m : mem) (b : Z) : outcome Z := load_u32 m (b + 4).
Definition buffer_metas (m : mem) (b : Z) : outcome Z := load_u64 m (b + 8).
Definition buffer_datas (m : mem) (b : Z) : outcome Z := load_u64 m (b + 16).
(** The members of [struct spa_data] and [struct spa_chunk]. *)
Definition data_maxsize (m : mem) (d : Z) : outcome Z := load_u32 m (d + 20).
Definition data_data (m : mem) (d : Z) : outcome Z := load_u64 m (d + 24).
Definition data_chunk (m : mem) (d : Z) : outcome Z := load_u64 m (d + 32).
Definition chunk_offset (m : mem) (c : Z) : outcome Z := load_u32 m c.
Definition chunk_size (m : mem) (c : Z) : outcome Z := load_u32 m (c + 4).

(** [&buffer->datas[0].chunk]. *)
Definition buffer_chunk (m : mem) (b : Z) : outcome Z :=
  let! datas := buffer_datas m b in data_chunk m datas.

Definition buffer_find_meta (m : mem) (b type : Z) : outcome (option spa_meta) :=
  let! n_metas := buffer_n_metas m b in
  let! metas := buffer_metas m b in
  find_from m metas 0 (Z.to_nat n_metas) type.

(** No two records have the same type. *)
Definition types_distinct (m : mem) (metas n_metas : Z) : outcome bool :=
  for_all n_metas (fun i => for_all i (fun j =>
    let! ri := meta_at m metas i in
    let! rj := meta_at m metas j in
    Ret (negb (mt_type ri =? mt_type rj)))).

Definition validate_buffer (m : mem) (buffer : Z) (port : fgn_port) (output : bool) : outcome unit :=
  if buffer =? 0 then Err ENOBUFS
  else
    let! n_datas := buffer_n_datas m buffer in
    let! datas := buffer_datas m buffer in
    let! n_metas := buffer_n_metas m buffer in
    let! metas := buffer_metas m buffer in
    if negb (n_datas =? 1) || (datas =? 0) || negb (datas mod 8 =? 0) || (SPA_FGN_MAX_METAS <? n_metas)
       || (negb (n_metas =? 0) && ((metas =? 0) || negb (metas mod 8 =? 0)))
    then Err EINVAL
    else
      let! data := data_data m datas in
      let! chunk := data_chunk m datas in
      if (data =? 0) || (chunk =? 0) || negb (chunk mod 4 =? 0) then Err EINVAL
      else
        let! offset := chunk_offset m chunk in
        let! maxsize := data_maxsize m datas in
        if (maxsize <=? offset) || (u32 (maxsize - offset) <? pt_payload_size port) then Err ENOSPC
        else if UINTPTR_MAX - offset <? data then Err EOVERFLOW
        else
          let payload := u64 (data + offset) in
          if negb (payload mod pt_element_size port =? 0) then Err EINVAL
          else
            let! size := chunk_size m chunk in
            if negb output && ((size <? pt_payload_size port) || (u32 (maxsize - offset) <? size)) then Err EMSGSIZE
            else
              let! distinct := types_distinct m metas n_metas in
              if negb distinct then Err EEXIST
              else
                let! ok := spa_meta_records_layout_validate m metas n_metas in
                if negb ok then Err EINVAL
                else
                  let! header := buffer_find_meta m buffer SPA_META_Header in
                  if is_none header then Err EINVAL else Ret tt.

(** ** Regions *)

(** [struct memory_region]: start and end. *)
Definition memory_region : Type := Z * Z.

Definition memory_region_init (pointer size : Z) : outcome memory_region :=
  if size =? 0 then Ret (0, 0)
  else if (pointer =? 0) || (UINTPTR_MAX - size <? pointer) then Err EOVERFLOW
  else Ret (pointer, pointer + size).

Definition memory_regions_overlap (first second : memory_region) : bool :=
  negb (first.1 =? first.2) && negb (second.1 =? second.2) && (first.1 <? second.2) && (second.1 <? first.2).

(** [ADD_REGION] for every record. *)
Fixpoint meta_regions (m : mem) (metas i : Z) (n : nat) : outcome (list memory_region) :=
  match n with
  | O => Ret []
  | S n =>
      let! r := meta_at m metas i in
      let! region := memory_region_init (mt_data r) (mt_size r) in
      let! rest := meta_regions m metas (i + 1) n in
      Ret (region :: rest)
  end.

Definition collect_buffer_regions (m : mem) (buffer payload_size : Z) : outcome (list memory_region) :=
  let! datas := buffer_datas m buffer in
  let! chunk := data_chunk m datas in
  let! metas := buffer_metas m buffer in
  let! n_metas := buffer_n_metas m buffer in
  let! data := data_data m datas in
  let! r0 := memory_region_init buffer sizeof_spa_buffer in
  let! r1 := memory_region_init datas sizeof_spa_data in
  let! r2 := memory_region_init chunk sizeof_spa_chunk in
  let! r3 := memory_region_init metas (n_metas * sizeof_spa_meta) in
  let! offset := chunk_offset m chunk in
  let! r4 := memory_region_init (u64 (data + offset)) payload_size in
  let! rest := meta_regions m metas 0 (Z.to_nat n_metas) in
  Ret (r0 :: r1 :: r2 :: r3 :: r4 :: rest).

(** The two loops: no region overlaps one [before] it. *)
Fixpoint regions_apart (before regions : list memory_region) : bool :=
  match regions with
  | [] => true
  | r :: regions => negb (existsb (memory_regions_overlap r) before) && regions_apart (before ++ [r]) regions
  end.

Definition validate_buffer_nonalias (m : mem) (buffer payload_size : Z) : outcome unit :=
  let! regions := collect_buffer_regions m buffer payload_size in
  if regions_apart [] regions then Ret tt else Err EINVAL.

Definition buffers_overlap (m : mem) (first first_payload_size second second_payload_size : Z) : outcome bool :=
  let! first_regions := collect_buffer_regions m first first_payload_size in
  let! second_regions := collect_buffer_regions m second second_payload_size in
  Ret (existsb (fun a => existsb (memory_regions_overlap a) second_regions) first_regions).

Definition buffer_overlaps_region (m : mem) (buffer payload_size pointer size : Z) : outcome bool :=
  let! buffer_regions := collect_buffer_regions m buffer payload_size in
  let! region := memory_region_init pointer size in
  Ret (existsb (fun a => memory_regions_overlap a region) buffer_regions).

(** ** Ownership of the outputs *)

(** Where the graph has its arrays: the storage of an output port, which starts
    with its [spa_buffer], the tables of a node that are handed to its plugin, and
    the format and the records' requirements of a port. *)
Record placement : Type := mk_placement {
  at_storage : port_ref -> Z;
  at_process_inputs : nat -> Z;
  at_process_outputs : nat -> Z;
  at_format : port_ref -> Z;
  at_metas : port_ref -> Z }.
Notation sizeof_spa_fgn_buffer := 16.
Notation sizeof_pointer := 8.

(** [table[i]] in an array of pointers. *)
Definition pointer_at (m : mem) (table i : Z) : outcome Z := load_u64 m (table + i * sizeof_pointer).

(** [if (overlap) return -EINVAL]. *)
Definition refuse (o : outcome bool) : outcome unit :=
  let! overlap := o in if overlap : bool then Err EINVAL else Ret tt.

(** [for (i = from; i < from + n; i++)] with [return] out of the body. *)
Fixpoint each_from (i : Z) (n : nat) (f : Z -> outcome unit) : outcome unit :=
  match n with
  | O => Ret tt
  | S n => let! _ := f i in each_from (i + 1) n f
  end.
Definition each (n : Z) (f : Z -> outcome unit) : outcome unit := each_from 0 (Z.to_nat n) f.

Section Ownership.
Context (g : spa_fgn_graph) (w : placement).

(** [graph->inputs[i]->payload_size], [graph->outputs[i]->payload_size]. *)
Definition payload_of (ports : list port_ref) (i : Z) : outcome Z :=
  match ports !! Z.to_nat i with
  | Some r => match port_at g r with Some p => Ret (pt_payload_size p) | None => Fault end
  | None => Fault
  end.

Fixpoint spares_tables (m : mem) (output payload_size : Z) (k : nat) (nodes : list fgn_node) : outcome unit :=
  match nodes with
  | [] => Ret tt
  | n :: nodes =>
      let! _ := refuse (buffer_overlaps_region m output payload_size (at_process_inputs w k)
                          (zlen (nd_inputs n) * sizeof_spa_fgn_buffer)) in
      let! _ := refuse (buffer_overlaps_region m output payload_size (at_process_outputs w k)
                          (zlen (nd_outputs n) * sizeof_spa_fgn_buffer)) in
      spares_tables m output payload_size (S k) nodes
  end.

(** The body of the loop over the outputs. *)
Definition owns_output (m : mem) (inputs n_inputs outputs n_outputs i : Z) : outcome unit :=
  let! output := pointer_at m outputs i in
  let! payload_size := payload_of (gr_outputs g) i in
  let! _ := validate_buffer_nonalias m output payload_size in
  let! _ := refuse (buffer_overlaps_region m output payload_size inputs (n_inputs * sizeof_pointer)) in
  let! _ := refuse (buffer_overlaps_region m output payload_size outputs (n_outputs * sizeof_pointer)) in
  let! _ := spares_tables m output payload_size 0 (gr_nodes g) in
  let! _ := each n_inputs (fun j =>
    let! input := pointer_at m inputs j in
    if input =? 0 then Ret tt
    else let! size := payload_of (gr_inputs g) j in refuse (buffers_overlap m output payload_size input size)) in
  each i (fun j =>
    let! other := pointer_at m outputs j in
    let! size := payload_of (gr_outputs g) j in refuse (buffers_overlap m output payload_size other size)).

Definition validate_output_ownership (m : mem) (inputs n_inputs outputs n_outputs : Z) : outcome unit :=
  each n_outputs (owns_output m inputs n_inputs outputs n_outputs).
End Ownership.
