(* ===== verification/GraphBuffersProofs.v ===== *)
(** * Buffers of a cycle: what the checks establish

    A buffer that [validate_buffer] accepts has the structures of a buffer where
    its pointers lead; the regions of [collect_buffer_regions] are their bytes;
    and where [validate_output_ownership] returns, no byte of an output belongs
    to another structure, to an input, to another output or to a table of the
    graph. *)
From S2P Require Import Prelude Bytes BufferAlloc MetaRecords MetaRecordsProofs GraphProps FilterGraph GraphBuffers.
#[local] Open Scope Z_scope.

(** ** The structures of a buffer *)

Record view : Type := mk_view {
  vw_at : Z;
  vw_metas : Z;
  vw_records : list spa_meta;
  vw_datas : Z;
  vw_data : Z;
  vw_maxsize : Z;
  vw_chunk : Z }.

(** The memory has them where the pointers lead. *)
Record viewed (m : mem) (v : view) : Prop := {
  vd_n_metas : buffer_n_metas m (vw_at v) = Ret (zlen (vw_records v));
  vd_n_datas : buffer_n_datas m (vw_at v) = Ret 1;
  vd_metas : buffer_metas m (vw_at v) = Ret (vw_metas v);
  vd_datas : buffer_datas m (vw_at v) = Ret (vw_datas v);
  vd_maxsize : data_maxsize m (vw_datas v) = Ret (vw_maxsize v);
  vd_data : data_data m (vw_datas v) = Ret (vw_data v);
  vd_chunk : data_chunk m (vw_datas v) = Ret (vw_chunk v);
  vd_records : metas_in m (vw_metas v) (vw_records v);
  vd_datas_in : vw_datas v + sizeof_spa_data <= zlen m;
  vd_chunk_in : vw_chunk v + sizeof_spa_chunk <= zlen m;
  vd_stored : forall r, r ∈ vw_records v -> stored m r }.

(** Every structure that the pointers of a buffer lead to can be read, as far as
    the pointers are followed. *)
Record readable (m : mem) (b : Z) : Prop := {
  rb_struct : 0 <= b /\ b + sizeof_spa_buffer <= zlen m;
  rb_data : forall d, buffer_n_datas m b = Ret 1 -> buffer_datas m b = Ret d -> d <> 0 -> d + sizeof_spa_data <= zlen m;
  rb_chunk : forall d c, buffer_n_datas m b = Ret 1 -> buffer_datas m b = Ret d -> data_chunk m d = Ret c -> c <> 0 ->
    c + sizeof_spa_chunk <= zlen m;
  rb_metas : forall n p, buffer_n_metas m b = Ret n -> buffer_metas m b = Ret p -> n <= SPA_FGN_MAX_METAS ->
    n <> 0 -> p <> 0 -> p + n * sizeof_spa_meta <= zlen m;
  rb_stored : forall n p i r, buffer_n_metas m b = Ret n -> buffer_metas m b = Ret p -> n <= SPA_FGN_MAX_METAS ->
    p <> 0 -> 0 <= i < n -> meta_at m p i = Ret r -> stored m r }.

Lemma meta_at_ok m p i : 0 <= p -> 0 <= i -> p + (i + 1) * sizeof_spa_meta <= zlen m -> exists r, meta_at m p i = Ret r.
Proof.
  intros Hp Hi Hm. unfold meta_at.
  destruct (load_u32_ok m (p + i * 16)) as (? & -> & _); [lia..|]. cbn [obind].
  destruct (load_u32_ok m (p + i * 16 + 4)) as (? & -> & _); [lia..|]. cbn [obind].
  destruct (load_u64_ok m (p + i * 16 + 8)) as (? & -> & _); [lia..|]. cbn [obind]. by eexists.
Qed.

Lemma metas_in_snoc m p ml r : metas_in m p ml -> meta_at m p (zlen ml) = Ret r -> metas_in m p (ml ++ [r]).
Proof.
  intros Hml Hr i x Hx. apply lookup_app_Some in Hx as [Hx|[Hi Hx]]; [by apply Hml|].
  apply list_lookup_singleton_Some in Hx as [Hx <-]. rewrite <- Hr. f_equal. unfold zlen. lia.
Qed.

Lemma table_in m p (n : nat) : 0 <= p -> p + Z.of_nat n * sizeof_spa_meta <= zlen m ->
  exists ml, List.length ml = n /\ metas_in m p ml.
Proof.
  intros Hp. induction n as [|n IH]; intros Hm.
  { exists []. split; [done|]. by intros i r Hr. }
  destruct IH as (ml & Hn & Hml); [lia|]. destruct (meta_at_ok m p (Z.of_nat n)) as [r Hr]; [lia..|].
  exists (ml ++ [r]). split; [rewrite length_app; cbn; lia|]. apply metas_in_snoc; [done|]. unfold zlen. by rewrite Hn.
Qed.

(** ** Acceptance *)

Record fits (m : mem) (v : view) (p : fgn_port) (off : Z) : Prop := {
  ft_offset : chunk_offset m (vw_chunk v) = Ret off;
  ft_room : 0 <= off < vw_maxsize v /\ off + pt_payload_size p <= vw_maxsize v;
  ft_top : vw_data v <> 0 /\ vw_data v + off <= UINTPTR_MAX;
  ft_aligned : (vw_data v + off) mod pt_element_size p = 0;
  ft_chunk : vw_chunk v mod 4 = 0;
  ft_records : records_ok (vw_metas v) (vw_records v);
  ft_header : exists r, r ∈ vw_records v /\ mt_type r = SPA_META_Header }.

(** What an input has beyond an output. *)
Definition filled (m : mem) (v : view) (p : fgn_port) (off : Z) : Prop :=
  exists size, chunk_size m (vw_chunk v) = Ret size /\ pt_payload_size p <= size <= vw_maxsize v - off.

Lemma types_distinct_total m p ml : metas_in m p ml -> exists b, types_distinct m p (zlen ml) = Ret b.
Proof.
  intros Hml.
  destruct (decides_for_all (zlen ml) (fun i => for_all i (fun j =>
    let! ri := meta_at m p i in let! rj := meta_at m p j in Ret (negb (mt_type ri =? mt_type rj))))
    (fun i => forall j, 0 <= j < i -> exists ri rj, meta_at m p i = Ret ri /\ meta_at m p j = Ret rj /\ mt_type ri <> mt_type rj))
    as (b & Hb & _); [|by exists b].
  intros i Hi. apply decides_for_all. intros j Hj.
  destruct (metas_in_at m p ml i Hml Hi) as (ri & _ & Ei), (metas_in_at m p ml j Hml ltac:(lia)) as (rj & _ & Ej).
  rewrite Ei, Ej. cbn [obind]. apply decides_ret. rewrite negb_true_iff, Z.eqb_neq. split.
  - intros Ht. by exists ri, rj.
  - intros (? & ? & [= <-] & [= <-] & Ht). done.
Qed.

(** The next access of a structure lies in the memory. *)
Ltac next_load :=
  apply o_wp_bind;
  unfold buffer_n_metas, buffer_n_datas, buffer_metas, buffer_datas, data_maxsize, data_data, data_chunk,
    chunk_offset, chunk_size;
  match goal with
  | |- o_wp (load_u32 ?m ?a) _ _ =>
      let x := fresh "x" in let E := fresh "E" in let R := fresh "R" in
      destruct (load_u32_ok m a) as (x & E & R); [lia..|]; rewrite E; unfold o_wp at 1; cbv iota
  | |- o_wp (load_u64 ?m ?a) _ _ =>
      let x := fresh "x" in let E := fresh "E" in let R := fresh "R" in
      destruct (load_u64_ok m a) as (x & E & R); [lia..|]; rewrite E; unfold o_wp at 1; cbv iota
  end.

(** The records of a buffer that is readable. *)
Lemma readable_table m b n p : readable m b -> buffer_n_metas m b = Ret n -> buffer_metas m b = Ret p ->
  n <= SPA_FGN_MAX_METAS -> (n <> 0 -> p <> 0) ->
  exists ml, zlen ml = n /\ metas_in m p ml /\ forall r, r ∈ ml -> stored m r.
Proof.
  intros Hr Hn Hp Hmax Hnz. pose proof (load_u32_inv _ _ _ Hn) as (_ & _ & Hn32). pose proof (load_u64_inv _ _ _ Hp) as (_ & _ & Hp64).
  unfold is_u32, is_u64 in *. destruct (decide (n = 0)) as [->|Hne].
  { exists []. split; [done|]. split; [by intros i r Hr'|]. by intros r ?%elem_of_nil. }
  pose proof (rb_metas m b Hr n p Hn Hp Hmax Hne (Hnz Hne)) as Hin.
  destruct (table_in m p (Z.to_nat n)) as (ml & Hl & Hml); [lia..|].
  assert (zlen ml = n) as Hz by (unfold zlen; lia).
  exists ml. split; [done|]. split; [done|]. intros r [i Hi]%list_elem_of_lookup. pose proof (lookup_lt_Some _ _ _ Hi).
  apply (rb_stored m b Hr n p (Z.of_nat i)); try done; [by apply Hnz|lia|by apply Hml].
Qed.

Lemma validate_readable m b p out : zlen m < 2 ^ 63 -> 0 <= pt_payload_size p -> (b <> 0 -> readable m b) ->
  o_wp (validate_buffer m b p out)
    (fun _ => exists v off, b <> 0 /\ vw_at v = b /\ viewed m v /\ fits m v p off /\ (out = false -> filled m v p off)) True.
Proof.
  intros Hm Hpay Hr. unfold validate_buffer. destruct (Z.eqb_spec b 0) as [|Hb]; [done|]. specialize (Hr Hb).
  destruct (rb_struct m b Hr) as [Hb0 Hbm].
  next_load. rename x into n_datas, E into En. next_load. rename x into datas, E into Ed.
  next_load. rename x into n_metas, E into Em. next_load. rename x into metas, E into Ep.
  unfold is_u32, is_u64 in *.
  destruct (_ || (_ && _)) eqn:C1; [done|]. bool_to_prop. subst n_datas.
  assert (n_metas <= SPA_FGN_MAX_METAS) as Hmax by lia. assert (n_metas <> 0 -> metas <> 0) as Hnz by lia.
  pose proof (rb_data m b Hr datas En Ed ltac:(lia)) as Hdin.
  next_load. rename x into data, E into Edata. next_load. rename x into chunk, E into Echunk.
  unfold is_u64 in *. destruct (_ || negb (chunk mod 4 =? 0)) eqn:C2; [done|]. bool_to_prop.
  pose proof (rb_chunk m b Hr datas chunk En Ed Echunk ltac:(lia)) as Hcin.
  next_load. rename x into off, E into Eoff. next_load. rename x into maxsize, E into Emax. unfold is_u32 in *.
  destruct (Z.leb_spec maxsize off) as [|Hlt]; cbn [orb]; [done|]. rewrite (wrap_small 32 (maxsize - off)) by lia.
  destruct (Z.ltb_spec (maxsize - off) (pt_payload_size p)) as [|Hroom]; [done|].
  destruct (Z.ltb_spec (UINTPTR_MAX - off) data) as [|Htop]; [done|].
  rewrite (wrap_small 64 (data + off)) by lia.
  destruct (Z.eqb_spec ((data + off) mod pt_element_size p) 0) as [Halign|]; cbn [negb]; [|done].
  next_load. rename x into size, E into Esize. unfold is_u32 in *.
  destruct (negb out && _) eqn:C3; [done|].
  destruct (readable_table m b n_metas metas Hr Em Ep Hmax Hnz) as (ml & <- & Hml & Hst).
  apply o_wp_bind. destruct (types_distinct_total m metas ml Hml) as [d Ed']. rewrite Ed'. cbn [o_wp].
  destruct d; cbn [negb]; [|done]. apply o_wp_bind.
  destruct (layout_validate_decides m metas ml Hml Hm) as (ok & Eok & Hok). rewrite Eok. cbn [o_wp].
  destruct ok; cbn [negb]; [|done].
  apply o_wp_bind. unfold buffer_find_meta, buffer_n_metas, buffer_metas. rewrite Em. cbn [obind]. rewrite Ep. cbn [obind].
  change (find_from m metas 0 _ _) with (spa_meta_records_find m metas (zlen ml) SPA_META_Header).
  rewrite (records_find_spec m metas ml _ Hml). cbn [o_wp].
  destruct (find_type SPA_META_Header ml) as [h|] eqn:Eh; cbn [is_none]; [|done].
  exists (mk_view b metas ml datas data maxsize chunk), off. split; [done|]. split; [done|].
  split; [by split|]. split; [split; cbn; try done; try lia|].
  - by apply Hok.
  - exists h. by apply find_type_some.
  - intros ->. exists size. cbn. split; [done|]. cbn [negb andb] in C3. bool_to_prop. lia.
Qed.

Lemma metas_in_unique m p ml ml' : metas_in m p ml -> metas_in m p ml' -> zlen ml = zlen ml' -> ml = ml'.
Proof.
  intros H H' Hl. apply list_eq_same_length with (List.length ml); [unfold zlen in Hl; lia|done|].
  intros i x y _ Hx Hy. pose proof (H i x Hx). pose proof (H' i y Hy). congruence.
Qed.

Lemma viewed_unique m v v' : viewed m v -> viewed m v' -> vw_at v = vw_at v' -> v = v'.
Proof.
  intros [N1 N2 N3 N4 N5 N6 N7 N8 N9 N10 N11] [M1 M2 M3 M4 M5 M6 M7 M8 M9 M10 M11] Ha. destruct v as [a ms ml ds d mx c], v' as [a' ms' ml' ds' d' mx' c'].
  cbn in *. subst a'. rewrite N1 in M1. rewrite N3 in M3. rewrite N4 in M4. simplify_eq.
  rewrite N5 in M5. rewrite N6 in M6. rewrite N7 in M7. simplify_eq. f_equal. by apply (metas_in_unique m ms').
Qed.

Lemma viewed_readable m v : viewed m v -> readable m (vw_at v).
Proof.
  intros H. pose proof (load_u32_inv _ _ _ (vd_n_metas m v H)) as (? & _). pose proof (load_u64_inv _ _ _ (vd_datas m v H)) as (_ & ? & _).
  split.
  - lia.
  - intros d _ Hd _. rewrite (vd_datas m v H) in Hd. injection Hd as <-. apply (vd_datas_in m v H).
  - intros d c _ Hd Hc _. rewrite (vd_datas m v H) in Hd. injection Hd as <-. rewrite (vd_chunk m v H) in Hc. injection Hc as <-.
    apply (vd_chunk_in m v H).
  - intros n p Hn Hp _ Hne _. rewrite (vd_n_metas m v H) in Hn. rewrite (vd_metas m v H) in Hp. injection Hn as <-. injection Hp as <-.
    apply metas_in_bounds; [apply (vd_records m v H)|]. by intros E; rewrite E in Hne.
  - intros n p i r Hn Hp _ _ Hi Hr. rewrite (vd_n_metas m v H) in Hn. rewrite (vd_metas m v H) in Hp. injection Hn as <-. injection Hp as <-.
    destruct (metas_in_at _ _ _ i (vd_records m v H) Hi) as (r' & Hl & Hr'). rewrite Hr in Hr'. injection Hr' as <-.
    apply (vd_stored m v H). apply list_elem_of_lookup. by eexists.
Qed.

Lemma validate_viewed m v p out : zlen m < 2 ^ 63 -> 0 <= pt_payload_size p -> viewed m v ->
  o_wp (validate_buffer m (vw_at v) p out)
    (fun _ => vw_at v <> 0 /\ exists off, fits m v p off /\ (out = false -> filled m v p off)) True.
Proof.
  intros Hm Hp Hv. eapply o_wp_mono; [apply validate_readable; [done|done|by intros _; apply viewed_readable]| |done].
  intros _ (v' & off & Hne & Ha & Hv' & Hf). rewrite (viewed_unique m v' v Hv' Hv Ha) in Hf. eauto.
Qed.

(** ** Requirements *)

Lemma for_all_total n f : (forall k, 0 <= k < n -> exists b, f k = Ret b) -> exists b, for_all n f = Ret b.
Proof.
  intros H. destruct (decides_for_all n f (fun k => f k = Ret true)) as (b & -> & _); [|by eexists].
  intros k Hk. destruct (H k Hk) as [b ->]. exists b. split; [done|]. by split; [intros ->|intros [= ->]].
Qed.

Lemma requirement_total m p i n : 0 <= p -> 0 <= i < n -> p + n * 16 <= zlen m -> exists r, requirement_at m p i = Ret r.
Proof.
  intros Hp Hi Hm. unfold requirement_at.
  destruct (load_u32_ok m (p + i * 16)) as (? & -> & _); [lia..|]. cbn [obind].
  destruct (load_u32_ok m (p + i * 16 + 4)) as (? & -> & _); [lia..|]. cbn [obind].
  destruct (load_u32_ok m (p + i * 16 + 8)) as (? & -> & _); [lia..|]. cbn [obind].
  destruct (load_u32_ok m (p + i * 16 + 12)) as (? & -> & _); [lia..|]. cbn [obind]. by eexists.
Qed.

Lemma find_last_total m p ml type : metas_in m p ml -> forall pre post found, ml = pre ++ post ->
  (forall r, found = Some r -> r ∈ ml) ->
  exists f, find_last m p (zlen pre) (List.length post) type found = Ret f /\ forall r, f = Some r -> r ∈ ml.
Proof.
  intros Hml pre post. revert pre. induction post as [|x post IH]; intros pre found E Hf; cbn [find_last List.length]; [by exists found|].
  rewrite E in Hml. rewrite (metas_in_middle m p pre x post Hml). rewrite <- E in Hml. cbn [obind].
  replace (zlen pre + 1) with (zlen (pre ++ [x])) by (rewrite zlen_app; done). apply IH; [by rewrite <- app_assoc|].
  case_if; [|done]. intros r [= <-]. rewrite E. apply elem_of_app. right. left.
Qed.

(** The records of a buffer are checked against requirements in the memory
    without a fault. *)
Lemma records_validate_total m p ml q n : zlen m < 2 ^ 63 -> metas_in m p ml -> (forall r, r ∈ ml -> stored m r) ->
  0 <= q -> 0 <= n -> q + n * 16 <= zlen m -> exists b, spa_meta_records_validate m p (zlen ml) q n = Ret b.
Proof.
  intros Hm Hml Hst Hq Hn Hqm. unfold spa_meta_records_validate.
  assert (forall r rv, r ∈ ml -> exists b, spa_meta_record_validate m r rv = Ret b) as Hv.
  { intros r rv Hr. pose proof Hr as [i Hi]%list_elem_of_lookup. pose proof (meta_at_inv _ _ _ _ (Hml i r Hi)) as (_ & _ & _ & ? & ?).
    apply record_validate_total; auto. }
  destruct (layout_validate_decides m p ml Hml Hm) as (b & -> & _). cbn [obind]. case_if; [by eexists|].
  destruct (for_all_total (zlen ml) (fun i => let! r := meta_at m p i in spa_meta_record_validate m r false)) as [b' ->].
  { intros k Hk. destruct (metas_in_at _ _ _ k Hml Hk) as (r & Hl & ->). apply Hv, list_elem_of_lookup. by eexists. }
  cbn [obind]. destruct b'; [|by eexists]. apply for_all_total. intros i Hi. unfold check_requirement.
  destruct (requirement_total m q i n) as [r ->]; [lia..|]. cbn [obind]. case_if; [by eexists|].
  destruct (for_all_total i (fun j => let! rj := requirement_at m q j in Ret (negb (rq_type rj =? rq_type r)))) as [d ->].
  { intros j Hj. destruct (requirement_total m q j n) as [rj ->]; [lia..|]. by eexists. }
  cbn [obind]. case_if; [by eexists|].
  destruct (find_last_total m p ml (rq_type r) Hml [] ml None eq_refl) as (f & Ef & Hf); [done|].
  replace (Z.to_nat (zlen ml)) with (List.length ml) by (unfold zlen; lia). change (zlen []) with 0 in Ef. rewrite Ef. cbn [obind].
  destruct f as [r'|]; [|by eexists]. case_if; [by eexists|]. case_if; [|by eexists]. by apply Hv, Hf.
Qed.

(** ** Regions and bytes *)

Definition covers (r : memory_region) (a : Z) : Prop := r.1 <= a < r.2.
Definition extent (pointer size : Z) : memory_region := if size =? 0 then (0, 0) else (pointer, pointer + size).

Lemma covers_extent p n a : 0 <= n -> covers (extent p n) a <-> p <= a < p + n.
Proof. intros Hn. unfold covers, extent. destruct (Z.eqb_spec n 0) as [->|]; cbn; lia. Qed.

Lemma overlap_covers r s a : memory_regions_overlap r s = false -> covers r a -> covers s a -> False.
Proof. unfold memory_regions_overlap, covers. intros H H1 H2. bool_to_prop; lia. Qed.

Lemma region_init_wp p n : o_wp (memory_region_init p n) (fun r => r = extent p n /\ (n <> 0 -> p <> 0 /\ p + n <= UINTPTR_MAX)) True.
Proof.
  unfold memory_region_init, extent. destruct (Z.eqb_spec n 0) as [|Hn]; [by split|].
  destruct (_ || _) eqn:E; [done|]. bool_to_prop. cbn. split; [done|]. lia.
Qed.

(** The bytes of the structures that lead to the payload, and those that a node
    writes: the chunk, the payload and the records. *)
Definition fixed (v : view) (a : Z) : Prop :=
  covers (extent (vw_at v) sizeof_spa_buffer) a \/ covers (extent (vw_datas v) sizeof_spa_data) a \/
  covers (extent (vw_metas v) (zlen (vw_records v) * sizeof_spa_meta)) a.
Definition chunk_byte (v : view) (a : Z) : Prop := covers (extent (vw_chunk v) sizeof_spa_chunk) a.
Definition payload_byte (v : view) (off n a : Z) : Prop := covers (extent (vw_data v + off) n) a.
Definition record_byte (v : view) (a : Z) : Prop :=
  exists r, r ∈ vw_records v /\ covers (extent (mt_data r) (mt_size r)) a.
Definition moving (v : view) (off n a : Z) : Prop := chunk_byte v a \/ payload_byte v off n a \/ record_byte v a.
Definition any_byte (v : view) (off n a : Z) : Prop := fixed v a \/ moving v off n a.

Definition view_regions (v : view) (off n : Z) : list memory_region :=
  [extent (vw_at v) sizeof_spa_buffer; extent (vw_datas v) sizeof_spa_data; extent (vw_chunk v) sizeof_spa_chunk;
   extent (vw_metas v) (zlen (vw_records v) * sizeof_spa_meta); extent (vw_data v + off) n] ++
  map (fun r => extent (mt_data r) (mt_size r)) (vw_records v).

Lemma view_regions_byte v off n a : any_byte v off n a <-> exists r, r ∈ view_regions v off n /\ covers r a.
Proof.
  unfold any_byte, fixed, moving, chunk_byte, payload_byte, record_byte, view_regions. split.
  - intros [[H|[H|H]]|[H|[H|(r & Hr & H)]]]; eexists; (split; [|exact H]); cbn [app];
      rewrite ?elem_of_cons; auto 10. do 5 right. apply list_elem_of_fmap. eauto.
  - intros (r & Hr & H). cbn [app] in Hr. rewrite !elem_of_cons in Hr.
    destruct Hr as [->|[->|[->|[->|[->|Hr]]]]]; auto 10. apply list_elem_of_fmap in Hr as (x & -> & Hx). eauto 10.
Qed.

Lemma meta_regions_wp m p pre post : metas_in m p (pre ++ post) ->
  o_wp (meta_regions m p (zlen pre) (List.length post))
    (fun rs => rs = map (fun r => extent (mt_data r) (mt_size r)) post) True.
Proof.
  revert pre. induction post as [|r post IH]; intros pre H; cbn [meta_regions List.length map]; [done|].
  rewrite (metas_in_middle m p pre r post H). cbn [obind]. apply o_wp_bind.
  eapply o_wp_mono; [apply region_init_wp| |done]. intros x [-> _]. apply o_wp_bind.
  replace (zlen pre + 1) with (zlen (pre ++ [r])) by (rewrite zlen_app; done).
  eapply o_wp_mono; [apply IH; by rewrite <- app_assoc| |done]. by intros rs ->.
Qed.

Lemma collect_viewed m v off n : viewed m v -> chunk_offset m (vw_chunk v) = Ret off -> vw_data v + off <= UINTPTR_MAX ->
  o_wp (collect_buffer_regions m (vw_at v) n) (fun rs => rs = view_regions v off n) True.
Proof.
  intros H Ho Ht. unfold collect_buffer_regions.
  rewrite (vd_datas m v H). cbn [obind]. rewrite (vd_chunk m v H). cbn [obind]. rewrite (vd_metas m v H). cbn [obind].
  rewrite (vd_n_metas m v H). cbn [obind]. rewrite (vd_data m v H). cbn [obind].
  do 4 (apply o_wp_bind; eapply o_wp_mono; [apply region_init_wp|intros ? [-> _]|done]).
  rewrite Ho. cbn [obind].
  pose proof (load_u32_inv _ _ _ Ho) as (_ & _ & Hoff). pose proof (load_u64_inv _ _ _ (vd_data m v H)) as (_ & _ & Hd).
  unfold is_u32, is_u64 in *. rewrite wrap_small by lia.
  apply o_wp_bind. eapply o_wp_mono; [apply region_init_wp|intros ? [-> _]|done].
  apply o_wp_bind. replace (Z.to_nat (zlen (vw_records v))) with (List.length (vw_records v)) by (unfold zlen; lia).
  eapply o_wp_mono; [apply (meta_regions_wp m (vw_metas v) []); apply (vd_records m v H)| |done]. by intros rs ->.
Qed.

(** No byte is in two of the regions. *)
Definition separate (rs : list memory_region) : Prop :=
  forall i j r s a, i <> j -> rs !! i = Some r -> rs !! j = Some s -> covers r a -> covers s a -> False.

Lemma regions_apart_spec before rs : regions_apart before rs = true -> separate before -> separate (before ++ rs).
Proof.
  revert before. induction rs as [|r rs IH]; intros before; cbn [regions_apart]; [by rewrite app_nil_r|].
  intros [Hr Hrs]%andb_prop Hb. replace (before ++ r :: rs) with ((before ++ [r]) ++ rs) by (by rewrite <- app_assoc).
  apply IH; [done|]. apply negb_true_iff in Hr.
  assert (forall s a, s ∈ before -> covers s a -> covers r a -> False) as Hnew.
  { intros s a Hs H1 H2. apply (overlap_covers r s a); [|done|done].
    apply not_true_is_false. intros Ho. rewrite <- not_true_iff_false in Hr. apply Hr, existsb_exists.
    exists s. split; [by apply list_elem_of_In|done]. }
  intros i j x y a Hij Hx Hy H1 H2. rewrite !lookup_app_Some in Hx, Hy.
  destruct Hx as [Hx|[Hix [Hx <-]%list_lookup_singleton_Some]], Hy as [Hy|[Hjy [Hy <-]%list_lookup_singleton_Some]].
  - by apply (Hb i j x y a).
  - apply (Hnew x a); [by apply list_elem_of_lookup_2 with i|done|done].
  - apply (Hnew y a); [by apply list_elem_of_lookup_2 with j|done|done].
  - lia.
Qed.

(** The parts of a buffer do not meet. *)
Record view_apart (v : view) (off n : Z) : Prop := {
  va_fixed : forall a, fixed v a -> moving v off n a -> False;
  va_chunk : forall a, chunk_byte v a -> payload_byte v off n a \/ record_byte v a -> False;
  va_payload : forall a, payload_byte v off n a -> record_byte v a -> False }.

(** Two of the regions at given places have a byte in common. *)
Ltac clash H i j := eapply (H i j); [lia|reflexivity|reflexivity|eassumption|eassumption].

Lemma separate_view v off n : separate (view_regions v off n) -> view_apart v off n.
Proof.
  intros H.
  assert (forall i r a, view_regions v off n !! i = Some r -> (i < 5)%nat -> covers r a -> record_byte v a -> False) as Hrec.
  { intros i r a Hi Hlt Hc (x & [j Hj]%list_elem_of_lookup & Hx). apply (H i (5 + j)%nat r (extent (mt_data x) (mt_size x)) a); try done.
    - lia.
    - unfold view_regions. rewrite lookup_app_r by (cbn; lia). cbn [List.length]. replace (5 + j - 5)%nat with j by lia.
      rewrite list_lookup_fmap, Hj. done. }
  split; intros a.
  - intros [Hf|[Hf|Hf]] [Hm|[Hm|Hm]].
    + clash H 0%nat 2%nat.
    + clash H 0%nat 4%nat.
    + eapply (Hrec 0%nat); [reflexivity|lia|exact Hf|exact Hm].
    + clash H 1%nat 2%nat.
    + clash H 1%nat 4%nat.
    + eapply (Hrec 1%nat); [reflexivity|lia|exact Hf|exact Hm].
    + clash H 3%nat 2%nat.
    + clash H 3%nat 4%nat.
    + eapply (Hrec 3%nat); [reflexivity|lia|exact Hf|exact Hm].
  - intros Hc [Hm|Hm].
    + clash H 2%nat 4%nat.
    + eapply (Hrec 2%nat); [reflexivity|lia|exact Hc|exact Hm].
  - intros Hp Hm. eapply (Hrec 4%nat); [reflexivity|lia|exact Hp|exact Hm].
Qed.

(** A buffer with its payload. *)
Record slot : Type := mk_slot { sl_view : view; sl_offset : Z; sl_size : Z }.
Definition slot_byte (s : slot) : Z -> Prop := any_byte (sl_view s) (sl_offset s) (sl_size s).

Record slotted (m : mem) (s : slot) : Prop := {
  sd_view : viewed m (sl_view s);
  sd_offset : chunk_offset m (vw_chunk (sl_view s)) = Ret (sl_offset s);
  sd_top : vw_data (sl_view s) + sl_offset s <= UINTPTR_MAX }.

Lemma collect_slot m s : slotted m s ->
  o_wp (collect_buffer_regions m (vw_at (sl_view s)) (sl_size s))
    (fun rs => rs = view_regions (sl_view s) (sl_offset s) (sl_size s)) True.
Proof. intros [Hv Ho Ht]. by apply collect_viewed. Qed.

Lemma nonalias_slot m s : slotted m s ->
  o_wp (validate_buffer_nonalias m (vw_at (sl_view s)) (sl_size s))
    (fun _ => view_apart (sl_view s) (sl_offset s) (sl_size s)) True.
Proof.
  intros H. apply o_wp_bind. eapply o_wp_mono; [by apply collect_slot| |done]. intros rs ->.
  destruct (regions_apart [] _) eqn:E; [|done]. apply separate_view, (regions_apart_spec [] _ E). by intros i j r s' a _ ?.
Qed.

Lemma existsb_false {A} (f : A -> bool) l x : existsb f l = false -> x ∈ l -> f x = false.
Proof.
  intros H Hx. apply not_true_is_false. intros Hf. rewrite <- not_true_iff_false in H. apply H, existsb_exists.
  exists x. by rewrite <- list_elem_of_In.
Qed.

Lemma overlap_slots m s t : slotted m s -> slotted m t ->
  o_wp (refuse (buffers_overlap m (vw_at (sl_view s)) (sl_size s) (vw_at (sl_view t)) (sl_size t)))
    (fun _ => forall a, slot_byte s a -> slot_byte t a -> False) True.
Proof.
  intros Hs Ht. unfold refuse, buffers_overlap. apply o_wp_bind, o_wp_bind.
  eapply o_wp_mono; [apply (collect_slot m s Hs)|intros ? ->|done].
  apply o_wp_bind. eapply o_wp_mono; [apply (collect_slot m t Ht)|intros ? ->|done].
  cbn [o_wp]. destruct (existsb _ _) eqn:E; [done|]. intros a (r & Hr & Ha)%view_regions_byte (x & Hx & Hb)%view_regions_byte.
  apply (overlap_covers r x a); [|done|done]. by apply (existsb_false _ _ x (existsb_false _ _ r E Hr)).
Qed.

Lemma overlap_region m s p n : slotted m s -> 0 <= n ->
  o_wp (refuse (buffer_overlaps_region m (vw_at (sl_view s)) (sl_size s) p n))
    (fun _ => forall a, slot_byte s a -> p <= a < p + n -> False) True.
Proof.
  intros Hs Hn. unfold refuse, buffer_overlaps_region. apply o_wp_bind, o_wp_bind.
  eapply o_wp_mono; [apply (collect_slot m s Hs)|intros ? ->|done].
  apply o_wp_bind. eapply o_wp_mono; [apply region_init_wp|intros ? [-> _]|done].
  cbn [o_wp]. destruct (existsb _ _) eqn:E; [done|]. intros a (r & Hr & Ha)%view_regions_byte Hb.
  apply (overlap_covers r (extent p n) a); [|done|by apply covers_extent]. by apply (existsb_false _ _ r E Hr).
Qed.

Lemma each_from_wp (Q : Z -> Prop) f i n : (forall k, i <= k < i + Z.of_nat n -> o_wp (f k) (fun _ => Q k) True) ->
  o_wp (each_from i n f) (fun _ => forall k, i <= k < i + Z.of_nat n -> Q k) True.
Proof.
  revert i. induction n as [|n IH]; intros i H; cbn [each_from]; [cbn; lia|].
  apply o_wp_bind. eapply o_wp_mono; [apply (H i); lia|intros [] Hi; cbv beta in Hi|done].
  eapply o_wp_mono; [apply IH; intros k Hk; apply H; lia|intros [] Hr; cbv beta in Hr|done].
  intros k Hk. destruct (decide (k = i)) as [E|]; [by rewrite E|]. apply Hr. lia.
Qed.

Lemma each_wp (Q : Z -> Prop) f n : 0 <= n -> (forall k, 0 <= k < n -> o_wp (f k) (fun _ => Q k) True) ->
  o_wp (each n f) (fun _ => forall k, 0 <= k < n -> Q k) True.
Proof.
  intros Hn H. pose proof (each_from_wp Q f 0 (Z.to_nat n)) as Hw. rewrite Z2Nat.id in Hw by done. by apply Hw.
Qed.

(** The arrays of the caller. *)
Definition in_arrays (inputs n_inputs outputs n_outputs a : Z) : Prop :=
  inputs <= a < inputs + n_inputs * sizeof_pointer \/ outputs <= a < outputs + n_outputs * sizeof_pointer.

Section Owned.
Context (g : spa_fgn_graph) (w : placement) (m : mem).
Context (inputs outputs : Z) (ins : list (option slot)) (outs : list slot).

Definition pointer_of (x : option slot) : Z := match x with Some s => vw_at (sl_view s) | None => 0 end.

(** The arrays of the caller point to the buffers, NULL for [None]. *)
Record arrays_in : Prop := {
  ar_inputs : forall j x, ins !! j = Some x -> pointer_at m inputs (Z.of_nat j) = Ret (pointer_of x);
  ar_outputs : forall i s, outs !! i = Some s -> pointer_at m outputs (Z.of_nat i) = Ret (vw_at (sl_view s));
  ar_input : forall j s, ins !! j = Some (Some s) -> slotted m s /\ vw_at (sl_view s) <> 0 /\
    payload_of g (gr_inputs g) (Z.of_nat j) = Ret (sl_size s);
  ar_output : forall i s, outs !! i = Some s -> slotted m s /\ payload_of g (gr_outputs g) (Z.of_nat i) = Ret (sl_size s) }.
Context (Har : arrays_in).

Definition in_tables (a : Z) : Prop := exists k n, gr_nodes g !! k = Some n /\
  (at_process_inputs w k <= a < at_process_inputs w k + zlen (nd_inputs n) * sizeof_spa_fgn_buffer \/
   at_process_outputs w k <= a < at_process_outputs w k + zlen (nd_outputs n) * sizeof_spa_fgn_buffer).

(** No byte of an output is shared. *)
Record owned_output (i : nat) (s : slot) : Prop := {
  ow_self : view_apart (sl_view s) (sl_offset s) (sl_size s);
  ow_arrays : forall a, slot_byte s a -> in_arrays inputs (zlen ins) outputs (zlen outs) a -> False;
  ow_tables : forall a, slot_byte s a -> in_tables a -> False;
  ow_inputs : forall j t a, ins !! j = Some (Some t) -> slot_byte s a -> slot_byte t a -> False;
  ow_before : forall j t a, (j < i)%nat -> outs !! j = Some t -> slot_byte s a -> slot_byte t a -> False }.

Lemma spares_tables_wp s k nodes : slotted m s ->
  o_wp (spares_tables w m (vw_at (sl_view s)) (sl_size s) k nodes)
    (fun _ => forall i n a, nodes !! i = Some n -> slot_byte s a ->
       (at_process_inputs w (k + i) <= a < at_process_inputs w (k + i) + zlen (nd_inputs n) * sizeof_spa_fgn_buffer \/
        at_process_outputs w (k + i) <= a < at_process_outputs w (k + i) + zlen (nd_outputs n) * sizeof_spa_fgn_buffer) -> False)
    True.
Proof.
  intros Hs. revert k. induction nodes as [|n nodes IH]; intros k; cbn [spares_tables]; [done|].
  apply o_wp_bind. pose proof (zlen_nonneg (nd_inputs n)). pose proof (zlen_nonneg (nd_outputs n)).
  eapply o_wp_mono; [apply overlap_region; [done|lia]|intros [] H1; cbv beta in H1|done].
  apply o_wp_bind. eapply o_wp_mono; [apply overlap_region; [done|lia]|intros [] H2; cbv beta in H2|done].
  eapply o_wp_mono; [apply IH|intros [] H3; cbv beta in H3|done]. intros [|i] x a; cbn [lookup list_lookup].
  - intros [= <-] Ha. rewrite Nat.add_0_r. intros [Hb|Hb]; [by apply (H1 a)|by apply (H2 a)].
  - intros Hx Ha Hb. apply (H3 i x a Hx Ha). replace (S k + i)%nat with (k + S i)%nat by lia. done.
Qed.

Lemma owns_output_wp i s : outs !! i = Some s ->
  o_wp (owns_output g w m inputs (zlen ins) outputs (zlen outs) (Z.of_nat i)) (fun _ => owned_output i s) True.
Proof.
  intros Hi. unfold owns_output. destruct (ar_output Har i s Hi) as [Hs Hp].
  pose proof (zlen_nonneg ins). pose proof (zlen_nonneg outs).
  rewrite (ar_outputs Har i s Hi). cbn [obind]. rewrite Hp. cbn [obind].
  apply o_wp_bind. eapply o_wp_mono; [by apply nonalias_slot|intros [] Hself; cbv beta in Hself|done].
  apply o_wp_bind. eapply o_wp_mono; [apply overlap_region; [done|lia]|intros [] Ha1; cbv beta in Ha1|done].
  apply o_wp_bind. eapply o_wp_mono; [apply overlap_region; [done|lia]|intros [] Ha2; cbv beta in Ha2|done].
  apply o_wp_bind. eapply o_wp_mono; [by apply spares_tables_wp|intros [] Htab; cbv beta in Htab|done].
  apply o_wp_bind.
  eapply o_wp_mono; [apply (each_wp (fun j => forall t a, ins !! Z.to_nat j = Some (Some t) -> slot_byte s a -> slot_byte t a -> False)); [done|]
                    |intros [] Hin; cbv beta in Hin|done].
  { intros j Hj. destruct (lookup_lt_is_Some_2 ins (Z.to_nat j)) as [x Hx]; [unfold zlen in Hj; lia|].
    pose proof (ar_inputs Har _ _ Hx) as Ex. rewrite Z2Nat.id in Ex by lia. rewrite Ex. cbn [obind].
    destruct x as [t|]; cbn [pointer_of].
    - destruct (ar_input Har _ _ Hx) as (Ht & Hne & Et). rewrite Z2Nat.id in Et by lia.
      destruct (Z.eqb_spec (vw_at (sl_view t)) 0) as [|_]; [done|]. rewrite Et. cbn [obind].
      eapply o_wp_mono; [by apply overlap_slots|intros [] Ho; cbv beta in Ho|done]. intros t' a Hx'. rewrite Hx in Hx'. injection Hx' as <-. apply Ho.
    - cbn. intros t a Hx'. by rewrite Hx in Hx'. }
  eapply o_wp_mono; [apply (each_wp (fun j => forall t a, outs !! Z.to_nat j = Some t -> slot_byte s a -> slot_byte t a -> False)); [lia|]
                    |intros [] Hout; cbv beta in Hout|done].
  { intros j Hj. pose proof (lookup_lt_Some _ _ _ Hi). destruct (lookup_lt_is_Some_2 outs (Z.to_nat j)) as [t Ht]; [lia|].
    pose proof (ar_outputs Har _ _ Ht) as Ex. destruct (ar_output Har _ _ Ht) as [Hst Et].
    rewrite Z2Nat.id in Ex, Et by lia. rewrite Ex. cbn [obind]. rewrite Et. cbn [obind].
    eapply o_wp_mono; [by apply overlap_slots|intros [] Ho; cbv beta in Ho|done]. intros t' a Ht'. rewrite Ht in Ht'. injection Ht' as <-. apply Ho. }
  split; [done|..].
  - intros a Ha [Hb|Hb]; [by apply (Ha1 a)|by apply (Ha2 a)].
  - intros a Ha (k & n & Hk & Hb). by apply (Htab k n a).
  - intros j t a Hj. apply (Hin (Z.of_nat j)); [pose proof (lookup_lt_Some _ _ _ Hj); unfold zlen; lia|]. by rewrite Nat2Z.id.
  - intros j t a Hlt Hj. apply (Hout (Z.of_nat j)); [lia|]. by rewrite Nat2Z.id.
Qed.

Lemma ownership_wp :
  o_wp (validate_output_ownership g w m inputs (zlen ins) outputs (zlen outs))
    (fun _ => forall i s, outs !! i = Some s -> owned_output i s) True.
Proof.
  unfold validate_output_ownership.
  eapply o_wp_mono; [apply (each_wp (fun i => forall s, outs !! Z.to_nat i = Some s -> owned_output (Z.to_nat i) s)); [apply zlen_nonneg|]
                    |intros [] H; cbv beta in H|done].
  - intros i Hi. destruct (lookup_lt_is_Some_2 outs (Z.to_nat i)) as [s Hs]; [unfold zlen in Hi; lia|].
    pose proof (owns_output_wp _ _ Hs) as Hw. rewrite Z2Nat.id in Hw by lia.
    eapply o_wp_mono; [exact Hw|intros [] Ho; cbv beta in Ho|done]. intros s' Hs'. congruence.
  - intros i s Hs. specialize (H (Z.of_nat i)). rewrite Nat2Z.id in H. apply H; [|done].
    pose proof (lookup_lt_Some _ _ _ Hs). unfold zlen. lia.
Qed.

(** Two outputs have no byte in common. *)
Lemma owned_pair i j s t a : (forall i s, outs !! i = Some s -> owned_output i s) -> outs !! i = Some s -> outs !! j = Some t ->
  i <> j -> slot_byte s a -> slot_byte t a -> False.
Proof.
  intros H Hs Ht Hij H1 H2. destruct (decide (j < i)%nat).
  - by apply (ow_before _ _ (H i s Hs) j t a).
  - apply (ow_before _ _ (H j t Ht) i s a); [lia|done..].
Qed.
End Owned.
