(* ===== verification/GraphProcess.v ===== *)
(** * The ndarray filter graph: a cycle

    Models [spa_fgn_graph_process] of
    [spa/plugins/filter-graph/filter-graph-ndarray.c] and what it calls: the
    buffers of the cycle are chosen and checked, the transactions that wait are
    published, and the nodes run in their order, each on the buffers that the
    nodes before it completed.

    The buffers, the tables that the plugins read and the arrays of the caller
    are bytes of one memory.  What the plugins keep is a parameter [W], and their
    callbacks are functions of it and of the memory. *)
From stdpp Require Import gmap.
From S2P Require Import Prelude Bytes BufferAlloc MetaRecords GraphProps FilterGraph GraphTransactions GraphBuffers.
#[local] Open Scope Z_scope.

Notation SPA_FGN_PROCESS_RESULT_NONE := 0.
Notation SPA_FGN_PROCESS_RESULT_PROPS_CHANGED := 1.

Section Process.
Context {W : Type}.
(** The callbacks of the node at a position in [graph->nodes]. *)
Context (commit_props commit_parameter : nat -> Z -> W -> W) (adopt_parameters : nat -> W -> W).
Context (get_prop_revision : nat -> option (W -> Z)).
(** [process(instance, inputs, n_inputs, outputs, n_outputs)]. *)
Context (process : nat -> Z -> Z -> Z -> Z -> W * mem -> Z * (W * mem)).
Context (g : spa_fgn_graph) (w : placement).

(** What a cycle changes: the memory, the plugins, [cycle_buffer] and
    [cycle_offset] of the ports, and the transactions; [cy_runs] are the nodes whose
    [process] was called. *)
Record cycle : Type := mk_cycle {
  cy_mem : mem;
  cy_world : W;
  cy_buffer : gmap port_ref Z;
  cy_offset : gmap port_ref Z;
  cy_props : fgn_transaction_state * list entry;
  cy_params : fgn_transaction_state * list entry;
  cy_runs : list nat }.

Definition set_mem (m : mem) (c : cycle) : cycle :=
  mk_cycle m (cy_world c) (cy_buffer c) (cy_offset c) (cy_props c) (cy_params c) (cy_runs c).
Definition set_buffer (r : port_ref) (b : Z) (c : cycle) : cycle :=
  mk_cycle (cy_mem c) (cy_world c) (<[r := b]> (cy_buffer c)) (cy_offset c) (cy_props c) (cy_params c) (cy_runs c).
Definition set_offset (r : port_ref) (o : Z) (c : cycle) : cycle :=
  mk_cycle (cy_mem c) (cy_world c) (cy_buffer c) (<[r := o]> (cy_offset c)) (cy_props c) (cy_params c) (cy_runs c).

(** [port->cycle_buffer], NULL until it is set. *)
Definition buffer_of (c : cycle) (r : port_ref) : Z := default 0 (cy_buffer c !! r).
Definition offset_of (c : cycle) (r : port_ref) : Z := default 0 (cy_offset c !! r).

Definition cycle_st := ST cycle.
Definition reads {A} (f : mem -> outcome A) : cycle_st A := fun c => (f (cy_mem c), c).
Definition writes (f : mem -> outcome mem) : cycle_st unit := fun c =>
  match f (cy_mem c) with
  | Ret m => (Ret tt, set_mem m c)
  | Err e => (Err e, c)
  | Fault => (Fault, c)
  end.

(** A loop over a list, and one over indices. *)
Fixpoint st_each {A} (l : list A) (f : A -> cycle_st unit) : cycle_st unit :=
  match l with
  | [] => st_ret tt
  | x :: l => f x ;;; st_each l f
  end.
Definition st_count (n : Z) (f : Z -> cycle_st unit) : cycle_st unit :=
  st_each (map Z.of_nat (seq 0 (Z.to_nat n))) f.

Definition the_port (r : port_ref) : cycle_st fgn_port :=
  st_lift (match port_at g r with Some p => Ret p | None => Fault end).
Definition the_node (k : nat) : cycle_st fgn_node :=
  st_lift (match gr_nodes g !! k with Some n => Ret n | None => Fault end).
Definition the_external (ports : list port_ref) (i : Z) : cycle_st port_ref :=
  st_lift (match ports !! Z.to_nat i with Some r => Ret r | None => Fault end).

(** ** The start of a cycle *)

(** [offsetof] in [struct fgn_storage]. *)
Notation storage_chunk := 64.
Notation storage_metas_at := 80.

Definition init_record (metas k : Z) : cycle_st bool := fun c =>
  match (let! r := meta_at (cy_mem c) metas k in spa_meta_record_init (cy_mem c) r) with
  | Ret (b, m) => (Ret b, set_mem m c)
  | Err e => (Err e, c)
  | Fault => (Fault, c)
  end.

(** The output takes its own storage. *)
Definition reset_output (r : port_ref) : cycle_st unit :=
  let storage := at_storage w r in
  writes (fun m => store m (storage + storage_chunk) (le32 0)) ;;;
  writes (fun m => store m (storage + storage_chunk + 4) (le32 0)) ;;;
  let* n_metas := reads (fun m => buffer_n_metas m storage) in
  st_count n_metas (fun k => let* _ := init_record (storage + storage_metas_at) k in st_ret tt) ;;;
  st_modify (set_buffer r storage) ;;;
  st_modify (set_offset r 0).

Definition reset_node (kn : nat * fgn_node) : cycle_st unit :=
  let '(k, n) := kn in
  st_each (nd_inputs n) (fun j => st_modify (set_buffer (k, j) 0)) ;;;
  st_each (nd_outputs n) (fun j => reset_output (k, j)).

Definition numbered_nodes : list (nat * fgn_node) := imap pair (gr_nodes g).

Definition take_input (inputs i : Z) : cycle_st unit :=
  let* r := the_external (gr_inputs g) i in
  let* port := the_port r in
  let* input := reads (fun m => pointer_at m inputs i) in
  if has (pi_flags (pt_info port)) SPA_FGN_PORT_FLAG_PARAMETER then
    if negb (input =? 0) then st_err EINVAL else st_ret tt
  else if (input =? 0) && has (pi_flags (pt_info port)) SPA_FGN_PORT_FLAG_OPTIONAL then st_ret tt
  else
    reads (fun m => validate_buffer m input port false) ;;;
    reads (fun m => validate_buffer_nonalias m input (pt_payload_size port)) ;;;
    st_modify (set_buffer r input).

Definition check_output (outputs i : Z) : cycle_st unit :=
  let* r := the_external (gr_outputs g) i in
  let* port := the_port r in
  let* output := reads (fun m => pointer_at m outputs i) in
  reads (fun m => validate_buffer m output port true).

(** The output takes the buffer of the caller. *)
Definition take_output (outputs i : Z) : cycle_st unit :=
  let* output := reads (fun m => pointer_at m outputs i) in
  let* chunk := reads (fun m => buffer_chunk m output) in
  writes (fun m => store m (chunk + 4) (le32 0)) ;;;
  writes (fun m => store m (chunk + 12) (le32 0)) ;;;
  let* n_metas := reads (fun m => buffer_n_metas m output) in
  let* metas := reads (fun m => buffer_metas m output) in
  st_count n_metas (fun k =>
    let* ok := init_record metas k in if ok : bool then st_ret tt else st_err EINVAL) ;;;
  let* r := the_external (gr_outputs g) i in
  let* offset := reads (fun m => chunk_offset m chunk) in
  st_modify (set_buffer r output) ;;;
  st_modify (set_offset r offset).

(** [spa_meta_records_validate] on the records of a buffer. *)
Definition records_validate (m : mem) (buffer requirements n_requirements : Z) : outcome bool :=
  let! metas := buffer_metas m buffer in
  let! n_metas := buffer_n_metas m buffer in
  spa_meta_records_validate m metas n_metas requirements n_requirements.

Definition check_input (inputs i : Z) : cycle_st unit :=
  let* input := reads (fun m => pointer_at m inputs i) in
  if input =? 0 then st_ret tt
  else
    let* r := the_external (gr_inputs g) i in
    let* port := the_port r in
    let* ok := reads (fun m => records_validate m input (at_metas w r) (pi_n_metas (pt_info port))) in
    if ok : bool then st_ret tt else st_err EINVAL.

(** ** Publication *)

(** Without another thread: the transaction is taken, committed and retired. *)
Definition publish_graph_property_transaction : cycle_st bool := fun c =>
  match cy_props c with
  | (FGN_TRANSACTION_PENDING, table) =>
      let world := fold_left (fun x e => commit_props (en_node e) (en_prepared e) x) table (cy_world c) in
      (Ret true, mk_cycle (cy_mem c) world (cy_buffer c) (cy_offset c)
                   (FGN_TRANSACTION_RETIRED, map (fun e => mk_entry (en_node e) 0) table) (cy_params c) (cy_runs c))
  | _ => (Ret false, c)
  end.

Definition publish_graph_parameter_transaction : cycle_st bool := fun c =>
  match cy_params c with
  | (FGN_TRANSACTION_PENDING, table) =>
      let world := fold_left (fun x e => commit_parameter (en_node e) (en_prepared e) x) table (cy_world c) in
      let world := fold_left (fun x e => adopt_parameters (en_node e) x) table world in
      (Ret true, mk_cycle (cy_mem c) world (cy_buffer c) (cy_offset c) (cy_props c)
                   (FGN_TRANSACTION_RETIRED, map (fun e => mk_entry (en_node e) 0) table) (cy_runs c))
  | _ => (Ret false, c)
  end.

(** ** A node *)

(** [node->process_inputs[j]] and [node->process_outputs[j]]. *)
Definition store_entry (table j buffer format : Z) : cycle_st unit :=
  writes (fun m => store m (table + j * sizeof_spa_fgn_buffer) (le64 buffer ++ le64 format)).
Definition entry_buffer (table j : Z) : cycle_st Z :=
  reads (fun m => load_u64 m (table + j * sizeof_spa_fgn_buffer)).

(** The buffer an input reads: none where its source was left empty. *)
Definition input_buffer (r : port_ref) (port : fgn_port) : cycle_st Z :=
  match pt_source port with
  | None => let* c := st_get in st_ret (buffer_of c r)
  | Some source =>
      let* c := st_get in
      let buffer := buffer_of c source in
      if buffer =? 0 then st_ret buffer
      else
        let* size := reads (fun m => let! chunk := buffer_chunk m buffer in chunk_size m chunk) in
        st_ret (if size =? 0 then 0 else buffer)
  end.

(** The loop over the inputs, which gives [ready]. *)
Fixpoint gather_inputs (k : nat) (i : Z) (js : list nat) (ready : bool) : cycle_st bool :=
  match js with
  | [] => st_ret ready
  | j :: js =>
      let* port := the_port (k, j) in
      let* buffer := input_buffer (k, j) port in
      let ready := ready && negb ((buffer =? 0) && negb (has (pi_flags (pt_info port)) SPA_FGN_PORT_FLAG_OPTIONAL)) in
      store_entry (at_process_inputs w k) i buffer (at_format w (k, j)) ;;;
      gather_inputs k (i + 1) js ready
  end.

Fixpoint gather_outputs (k : nat) (i : Z) (js : list nat) : cycle_st unit :=
  match js with
  | [] => st_ret tt
  | j :: js =>
      let* c := st_get in
      store_entry (at_process_outputs w k) i (buffer_of c (k, j)) (at_format w (k, j)) ;;;
      gather_outputs k (i + 1) js
  end.

(** The two loops that check the inputs of a node that is ready. *)
Fixpoint validate_inputs (k : nat) (i : Z) (js : list nat) : cycle_st unit :=
  match js with
  | [] => st_ret tt
  | j :: js =>
      let* buffer := entry_buffer (at_process_inputs w k) i in
      let* port := the_port (k, j) in
      (if buffer =? 0 then st_ret tt else reads (fun m => validate_buffer m buffer port false)) ;;;
      validate_inputs k (i + 1) js
  end.
Fixpoint validate_input_records (k : nat) (i : Z) (js : list nat) : cycle_st unit :=
  match js with
  | [] => st_ret tt
  | j :: js =>
      let* buffer := entry_buffer (at_process_inputs w k) i in
      let* port := the_port (k, j) in
      (if buffer =? 0 then st_ret tt
       else
         let* ok := reads (fun m => records_validate m buffer (at_metas w (k, j)) (pi_n_metas (pt_info port))) in
         if ok : bool then st_ret tt else st_err EINVAL) ;;;
      validate_input_records k (i + 1) js
  end.

(** The call of the plugin; its error is the one of the cycle. *)
Definition call_process (k : nat) (n : fgn_node) : cycle_st unit := fun c =>
  let '(res, (world, m)) :=
    process k (at_process_inputs w k) (zlen (nd_inputs n)) (at_process_outputs w k) (zlen (nd_outputs n))
            (cy_world c, cy_mem c) in
  let c := mk_cycle m world (cy_buffer c) (cy_offset c) (cy_props c) (cy_params c) (cy_runs c ++ [k]) in
  (if res <? 0 then Err (- res) else Ret tt, c).

Definition validate_completed_output (m : mem) (buffer payload_size expected_offset : Z) (conditional : bool)
  : outcome unit :=
  let! datas := buffer_datas m buffer in
  let! chunk := data_chunk m datas in
  let! size := chunk_size m chunk in
  let! offset := chunk_offset m chunk in
  if conditional && (size =? 0) then (if offset =? expected_offset then Ret tt else Err EMSGSIZE)
  else
    let! maxsize := data_maxsize m datas in
    if negb (offset =? expected_offset) || negb (size =? payload_size) || (maxsize <=? offset)
       || (u32 (maxsize - offset) <? payload_size) then Err EMSGSIZE
    else
      let! ok := records_validate m buffer 0 0 in
      if ok : bool then Ret tt else Err EINVAL.

Definition check_completed (r : port_ref) : cycle_st unit :=
  let* port := the_port r in
  let* c := st_get in
  let buffer := buffer_of c r in
  let* size := reads (fun m => let! chunk := buffer_chunk m buffer in chunk_size m chunk) in
  let* ok := (if size =? 0 then st_ret true
              else reads (fun m => records_validate m buffer (at_metas w r) (pi_n_metas (pt_info port)))) in
  if negb ok then st_err EINVAL
  else
    reads (fun m => validate_completed_output m buffer (pt_payload_size port) (offset_of c r)
                      (has (pi_flags (pt_info port)) SPA_FGN_PORT_FLAG_CONDITIONAL)).

Definition node_revision (k : nat) : cycle_st Z :=
  let* c := st_get in
  st_ret (match get_prop_revision k with Some f => f (cy_world c) | None => 0 end).

(** One round of the loop over the order; the result is the status. *)
Definition run_node (k : nat) (status : Z) : cycle_st Z :=
  let* n := the_node k in
  let* property_revision := node_revision k in
  let* ready := gather_inputs k 0 (nd_inputs n) true in
  gather_outputs k 0 (nd_outputs n) ;;;
  if negb ready then st_ret status
  else
    validate_inputs k 0 (nd_inputs n) ;;;
    validate_input_records k 0 (nd_inputs n) ;;;
    call_process k n ;;;
    st_each (nd_outputs n) (fun j => check_completed (k, j)) ;;;
    match get_prop_revision k with
    | None => st_ret status
    | Some _ =>
        let* current := node_revision k in
        st_ret (if negb (Z.land property_revision 1 =? 0) || negb (current =? property_revision)
                   || negb (Z.land current 1 =? 0)
                then Z.lor status SPA_FGN_PROCESS_RESULT_PROPS_CHANGED else status)
    end.

Fixpoint run_nodes (order : list nat) (status : Z) : cycle_st Z :=
  match order with
  | [] => st_ret status
  | k :: order => let* status := run_node k status in run_nodes order status
  end.

(** ** The cycle *)

Definition clear_external_output_sizes (outputs n_outputs : Z) : cycle_st unit :=
  st_count n_outputs (fun i =>
    let* output := reads (fun m => pointer_at m outputs i) in
    let* chunk := reads (fun m => buffer_chunk m output) in
    writes (fun m => store m (chunk + 4) (le32 0))).

(** What may end at [process_error]. *)
Definition run_cycle (inputs n_inputs : Z) : cycle_st Z :=
  st_count n_inputs (check_input inputs) ;;;
  let* props := publish_graph_property_transaction in
  let status := if props : bool then SPA_FGN_PROCESS_RESULT_PROPS_CHANGED else SPA_FGN_PROCESS_RESULT_NONE in
  let* params := publish_graph_parameter_transaction in
  let status := if params : bool then Z.lor status SPA_FGN_PROCESS_RESULT_PROPS_CHANGED else status in
  run_nodes (gr_order g) status.

(** The preparation of the buffers. *)
Definition begin_cycle (inputs n_inputs outputs n_outputs : Z) : cycle_st unit :=
  st_each numbered_nodes reset_node ;;;
  st_count n_inputs (take_input inputs) ;;;
  st_count n_outputs (check_output outputs) ;;;
  reads (fun m => validate_output_ownership g w m inputs n_inputs outputs n_outputs) ;;;
  st_count n_outputs (take_output outputs).

Definition spa_fgn_graph_process (active prepared : bool) (inputs n_inputs outputs n_outputs : Z) : cycle_st Z :=
  if negb active || negb (n_inputs =? zlen (gr_inputs g)) || negb (n_outputs =? zlen (gr_outputs g))
     || (negb (n_inputs =? 0) && (inputs =? 0)) || (negb (n_outputs =? 0) && (outputs =? 0))
  then st_err EINVAL
  else if negb prepared then st_err EAGAIN
  else
    begin_cycle inputs n_inputs outputs n_outputs ;;;
    let* r := st_try (run_cycle inputs n_inputs) in
    match r with
    | inl status => st_ret status
    | inr res => clear_external_output_sizes outputs n_outputs ;;; st_err res
    end.
End Process.
