(* ===== verification/GraphProcessProofs.v ===== *)
(** * A cycle of the filter graph: what it does

    The proofs about [spa_fgn_graph_process]: what a cycle leaves in the memory,
    for any plugins that write nothing but their outputs. *)
From stdpp Require Import gmap.
From S2P Require Import Prelude Bytes Json BufferAlloc MetaRecords MetaRecordsProofs GraphProps FilterGraph GraphOrder GraphWf GraphLoad.
From S2P Require Import GraphTransactions GraphBuffers GraphBuffersProofs GraphProcess.
#[local] Open Scope Z_scope.

(** ** Memory *)

(** What a buffer's structures need of a change to stay. *)
Lemma viewed_same Q m m' v : same_if Q m m' -> (forall a, fixed v a -> Q a) -> viewed m v -> viewed m' v.
Proof.
  intros S HQ H. destruct H as [H1 H2 H3 H4 H5 H6 H7 H8 H9 H10 H11].
  assert (forall a, vw_at v <= a < vw_at v + 24 -> Q a) as Q1.
  { intros a Ha. apply HQ. left. by apply covers_extent. }
  assert (forall a, vw_datas v <= a < vw_datas v + 40 -> Q a) as Q2.
  { intros a Ha. apply HQ. right. left. by apply covers_extent. }
  pose proof (zlen_nonneg (vw_records v)).
  assert (forall a, vw_metas v <= a < vw_metas v + zlen (vw_records v) * sizeof_spa_meta -> Q a) as Q3.
  { intros a Ha. apply HQ. right. right. apply covers_extent; lia. }
  pose proof (same_if_zlen Q m m' S) as L. unfold buffer_n_metas, buffer_n_datas, buffer_metas, buffer_datas, data_maxsize, data_data, data_chunk in *.
  split; unfold buffer_n_metas, buffer_n_datas, buffer_metas, buffer_datas, data_maxsize, data_data, data_chunk; rewrite ?L; try done.
  - rewrite (same_if_u32 Q m m' _ S); [done|]. intros; apply Q1; lia.
  - rewrite (same_if_u32 Q m m' _ S); [done|]. intros; apply Q1; lia.
  - rewrite (same_if_u64 Q m m' _ S); [done|]. intros; apply Q1; lia.
  - rewrite (same_if_u64 Q m m' _ S); [done|]. intros; apply Q1; lia.
  - rewrite (same_if_u32 Q m m' _ S); [done|]. intros; apply Q2; lia.
  - rewrite (same_if_u64 Q m m' _ S); [done|]. intros; apply Q2; lia.
  - rewrite (same_if_u64 Q m m' _ S); [done|]. intros; apply Q2; lia.
  - by apply (metas_in_same Q m m').
  - intros r Hr Hs. rewrite L. by apply H11.
Qed.

Lemma chunk_same Q m m' v : same_if Q m m' -> (forall a, chunk_byte v a -> Q a) ->
  chunk_offset m' (vw_chunk v) = chunk_offset m (vw_chunk v) /\ chunk_size m' (vw_chunk v) = chunk_size m (vw_chunk v).
Proof.
  intros S HQ. unfold chunk_offset, chunk_size.
  split; apply (same_if_u32 Q m m' _ S); intros a Ha; apply HQ; apply covers_extent; lia.
Qed.

Definition slot_moving (s : slot) : Z -> Prop := moving (sl_view s) (sl_offset s) (sl_size s).

(** ** Running a cycle *)

Section Wp.
Context {W : Type}.
Notation cyc := (cycle (W := W)).

Lemma reads_wp {A} (f : mem -> outcome A) (Q : A -> cyc -> Prop) E c :
  o_wp (f (cy_mem c)) (fun a => Q a c) (E c) -> st_wp (reads f) Q E c.
Proof. unfold st_wp, reads. by destruct (f (cy_mem c)). Qed.

Lemma store_wp a bs (Q : unit -> cyc -> Prop) E c : 0 <= a -> a + zlen bs <= zlen (cy_mem c) ->
  (forall m', store (cy_mem c) a bs = Ret m' -> Q tt (set_mem m' c)) -> st_wp (writes (fun m => store m a bs)) Q E c.
Proof.
  intros Ha Hb H. unfold st_wp, writes. destruct (store (cy_mem c) a bs) as [m'| |] eqn:Es; [by apply H|..];
    by rewrite store_ok in Es by lia.
Qed.

Lemma st_each_wp {A} (l : list A) (f : A -> cycle_st (W := W) unit) (I : list A -> cyc -> Prop) E :
  (forall pre x post c, l = pre ++ x :: post -> I pre c -> st_wp (f x) (fun _ => I (pre ++ [x])) E c) ->
  forall c, I [] c -> st_wp (st_each l f) (fun _ => I l) E c.
Proof.
  intros H. assert (forall post pre c, l = pre ++ post -> I pre c -> st_wp (st_each post f) (fun _ => I l) E c) as Hgo.
  { induction post as [|x post IH]; intros pre c Hl Hc; cbn [st_each].
    - rewrite app_nil_r in Hl. by subst.
    - apply st_wp_bind. eapply st_wp_mono; [by apply (H pre x post c)| |done]. intros [] c' Hc'.
      apply (IH (pre ++ [x])); [by rewrite <- app_assoc|done]. }
  intros c Hc. by apply (Hgo l []).
Qed.

Lemma st_count_wp n (f : Z -> cycle_st (W := W) unit) (I : Z -> cyc -> Prop) E : 0 <= n ->
  (forall i c, 0 <= i < n -> I i c -> st_wp (f i) (fun _ => I (i + 1)) E c) ->
  forall c, I 0 c -> st_wp (st_count n f) (fun _ => I n) E c.
Proof.
  intros Hn H c Hc. unfold st_count.
  eapply st_wp_mono; [apply (st_each_wp _ _ (fun pre => I (zlen pre))); [|exact Hc]| |done].
  - intros pre x post c' Hl Hi. rewrite zlen_app, zlen_cons, zlen_nil.
    assert (map Z.of_nat (seq 0 (Z.to_nat n)) !! List.length pre = Some x) as Hx by (rewrite Hl; by apply list_lookup_middle).
    rewrite list_lookup_fmap in Hx. destruct (seq 0 (Z.to_nat n) !! List.length pre) as [y|] eqn:Ey; [|done].
    apply lookup_seq in Ey as [-> ?]. cbn in Hx. injection Hx as <-.
    change (Z.of_nat (List.length pre)) with (zlen pre). apply H; [unfold zlen; lia|done].
  - intros [] c' Hc'. cbv beta in Hc'. unfold zlen in Hc'. rewrite List.length_map, length_seq, Z2Nat.id in Hc' by done. done.
Qed.
End Wp.

(** ** Zeroing the records of a buffer *)

Section Records.
Context {W : Type}.
Notation cyc := (cycle (W := W)).
Context (v : view) (off n : Z) (Hapart : view_apart v off n) (Hok : records_ok (vw_metas v) (vw_records v)).

Lemma record_within r a : r ∈ vw_records v -> 0 <= mt_size r -> within r a -> record_byte v a.
Proof. intros Hr Hs Ha. exists r. split; [done|]. by apply covers_extent. Qed.

Lemma init_record_wp k (Q : bool -> cyc -> Prop) E c : viewed (cy_mem c) v -> 0 <= k < zlen (vw_records v) ->
  (forall m', same_if (fun a => ~ record_byte v a) (cy_mem c) m' -> Q true (set_mem m' c)) ->
  st_wp (init_record (vw_metas v) k) Q E c.
Proof.
  intros Hv Hk HQ. destruct (metas_in_at _ _ _ k (vd_records _ _ Hv) Hk) as (r & Hl & Hr).
  assert (r ∈ vw_records v) as Hin by (apply list_elem_of_lookup; by eexists).
  pose proof (meta_at_inv _ _ _ _ Hr) as (_ & _ & _ & Hs & Hd).
  destruct Hok as (_ & _ & Hrec & _). rewrite list.Forall_forall in Hrec.
  destruct (init_one (cy_mem c) (vw_metas v) (zlen (vw_records v)) r (Hrec r Hin) Hs Hd (vd_stored _ _ Hv r Hin)) as (m' & Em & Hsame & _).
  unfold st_wp, init_record. rewrite Hr. cbn [obind]. rewrite Em. apply HQ.
  eapply same_if_weaken; [|exact Hsame]. intros a Ha [_ Hw]. apply Ha. unfold is_u32 in Hs. apply (record_within r); [done|lia|done].
Qed.

Lemma init_records_wp (body : bool -> cycle_st (W := W) unit) (Q : unit -> cyc -> Prop) E c : body true = st_ret tt ->
  viewed (cy_mem c) v -> (forall m', same_if (fun a => ~ record_byte v a) (cy_mem c) m' -> Q tt (set_mem m' c)) ->
  st_wp (st_count (zlen (vw_records v)) (fun k => let* ok := init_record (vw_metas v) k in body ok)) Q E c.
Proof.
  intros Hb Hv HQ.
  assert (forall m', same_if (fun a => ~ record_byte v a) (cy_mem c) m' -> viewed m' v) as Hkeep.
  { intros m' Hs. eapply viewed_same; [exact Hs| |exact Hv]. intros a Hf Hr. apply (va_fixed _ _ _ Hapart a Hf). by right; right. }
  eapply st_wp_mono; [apply (st_count_wp _ _ (fun _ c' => exists m', c' = set_mem m' c /\ same_if (fun a => ~ record_byte v a) (cy_mem c) m'))| |].
  - apply zlen_nonneg.
  - intros i c' Hi (m' & -> & Hs). apply st_wp_bind. apply init_record_wp; [by apply Hkeep|done|].
    intros m'' Hs'. cbn [cy_mem set_mem] in Hs'. rewrite Hb. exists m''. split; [done|]. by eapply same_if_trans.
  - exists (cy_mem c). split; [by destruct c|apply same_if_refl].
  - intros [] c' (m' & -> & Hs). by apply HQ.
  - done.
Qed.
End Records.

(** ** What the start of a cycle leaves alone *)

(** The plugins and the transactions: no plugin is called. *)
Section Keeps.
Context {W : Type}.
Notation cyc := (cycle (W := W)).
Definition outside (c : cyc) := (cy_world c, cy_props c, cy_params c, cy_runs c).
Definition keeps {A} (m : cycle_st (W := W) A) : Prop := forall c, outside (m c).2 = outside c.

Lemma keeps_bind {A B} (m : cycle_st (W := W) A) (k : A -> cycle_st B) : keeps m -> (forall a, keeps (k a)) -> keeps (st_bind m k).
Proof. intros Hm Hk c. unfold st_bind. specialize (Hm c). destruct (m c) as [[a|e|] c1]; try done. by rewrite Hk. Qed.
Lemma keeps_each {A} (l : list A) f : (forall x, keeps (f x)) -> keeps (st_each l f).
Proof. intros Hf. induction l as [|x l IH]; [by intros c|]. by apply keeps_bind. Qed.
Lemma keeps_count n f : (forall i, keeps (f i)) -> keeps (st_count n f).
Proof. apply keeps_each. Qed.
Lemma keeps_reads {A} (f : mem -> outcome A) : keeps (reads f).
Proof. done. Qed.
Lemma keeps_writes f : keeps (writes f).
Proof. intros c. unfold writes. by destruct (f (cy_mem c)). Qed.
Lemma keeps_record q k : keeps (init_record q k).
Proof. intros c. unfold init_record. by destruct (obind _ _) as [[]| |]. Qed.
Lemma keeps_lift {A} (o : outcome A) : keeps (st_lift o).
Proof. done. Qed.
Lemma keeps_buffer r b : keeps (st_modify (set_buffer r b)).
Proof. done. Qed.
Lemma keeps_offset r b : keeps (st_modify (set_offset r b)).
Proof. done. Qed.
Lemma keeps_ret {A} (a : A) : keeps (st_ret a).
Proof. done. Qed.
Lemma keeps_err {A} e : keeps (st_err (A := A) e).
Proof. done. Qed.
Lemma keeps_wp {A} (m : cycle_st (W := W) A) (Q : A -> cyc -> Prop) (E : cyc -> Prop) c : keeps m -> st_wp m Q E c ->
  st_wp m (fun a c' => Q a c' /\ outside c' = outside c) (fun c' => E c' /\ outside c' = outside c) c.
Proof. intros Hk. specialize (Hk c). unfold st_wp. by destruct (m c) as [[] ]. Qed.
End Keeps.

Create HintDb keeps.
#[export] Hint Resolve keeps_bind keeps_each keeps_count keeps_reads keeps_writes keeps_record keeps_lift keeps_buffer keeps_offset keeps_ret keeps_err : keeps.

Ltac keeps_tac := repeat first [progress intros | solve [eauto 2 with keeps nocore] | apply keeps_bind | apply keeps_each | apply keeps_count | case_match].

Lemma begin_cycle_keeps {W : Type} g w inputs n_inputs outputs n_outputs :
  keeps (W := W) (begin_cycle g w inputs n_inputs outputs n_outputs).
Proof.
  unfold begin_cycle, reset_node, reset_output, take_input, check_output, take_output, the_external, the_port. cbv zeta. keeps_tac.
Qed.

(** ** The setting of a cycle *)

Section Cycle.
Context {W : Type}.
Context (commit_props commit_parameter : nat -> Z -> W -> W) (adopt_parameters : nat -> W -> W).
Context (get_prop_revision : nat -> option (W -> Z)).
Context (process : nat -> Z -> Z -> Z -> Z -> W * mem -> Z * (W * mem)).
Context (g : spa_fgn_graph) (w : placement).
(** The memory at the call, the storage of the output ports, and the buffers
    that the arrays of the caller point to, [None] for NULL. *)
Context (m0 : mem) (st : port_ref -> slot) (inputs outputs : Z) (ins outs : list (option slot)).
Notation cyc := (cycle (W := W)).

Definition out_port (r : port_ref) (p : fgn_port) : Prop := port_at g r = Some p /\ is_input p = false.
Definition in_port (r : port_ref) (p : fgn_port) : Prop := port_at g r = Some p /\ is_input p = true.

Definition storage_byte (a : Z) : Prop := exists r p, out_port r p /\ slot_byte (st r) a.
Definition storage_moves (a : Z) : Prop := exists r p, out_port r p /\ slot_moving (st r) a.

(** The storage of an output, as [storage_init] sets it up. *)
Record storage_placed (r : port_ref) (p : fgn_port) (s : slot) : Prop := {
  sp_viewed : viewed m0 (sl_view s);
  sp_at : vw_at (sl_view s) = at_storage w r /\ at_storage w r <> 0;
  sp_chunk : vw_chunk (sl_view s) = at_storage w r + 64;
  sp_metas : vw_metas (sl_view s) = at_storage w r + 80;
  sp_payload : sl_offset s = 0 /\ sl_size s = pt_payload_size p;
  sp_apart : view_apart (sl_view s) (sl_offset s) (sl_size s);
  sp_records : records_ok (vw_metas (sl_view s)) (vw_records (sl_view s)) }.

Definition table_inputs (k : nat) (n : fgn_node) (a : Z) : Prop :=
  at_process_inputs w k <= a < at_process_inputs w k + zlen (nd_inputs n) * sizeof_spa_fgn_buffer.
Definition table_outputs (k : nat) (n : fgn_node) (a : Z) : Prop :=
  at_process_outputs w k <= a < at_process_outputs w k + zlen (nd_outputs n) * sizeof_spa_fgn_buffer.

(** The allocations of the graph are in the memory and apart from each other. *)
Record placed : Prop := {
  pl_size : zlen m0 < 2 ^ 63;
  pl_storage : forall r p, out_port r p -> storage_placed r p (st r);
  pl_apart : forall r r' p p' a, out_port r p -> out_port r' p' -> r <> r' -> slot_byte (st r) a -> slot_byte (st r') a -> False;
  pl_tables : forall a, storage_byte a -> in_tables g w a -> False;
  pl_tables_in : forall k n, gr_nodes g !! k = Some n ->
    (0 <= at_process_inputs w k /\ at_process_inputs w k + zlen (nd_inputs n) * sizeof_spa_fgn_buffer <= zlen m0) /\
    (0 <= at_process_outputs w k /\ at_process_outputs w k + zlen (nd_outputs n) * sizeof_spa_fgn_buffer <= zlen m0);
  pl_table_pair : forall k n a, gr_nodes g !! k = Some n -> table_inputs k n a -> table_outputs k n a -> False;
  pl_metas : forall r p, port_at g r = Some p -> 0 <= pi_n_metas (pt_info p) /\ 0 <= at_metas w r /\
    at_metas w r + pi_n_metas (pt_info p) * 16 <= zlen m0 }.

(** The arrays of the caller and their buffers are in the memory and apart from
    the allocations of the graph; outputs may share bytes with anything else. *)
Record called : Prop := {
  ca_inputs : List.length ins = List.length (gr_inputs g) /\
    forall j x, ins !! j = Some x -> pointer_at m0 inputs (Z.of_nat j) = Ret (pointer_of x);
  ca_outputs : List.length outs = List.length (gr_outputs g) /\
    forall i x, outs !! i = Some x -> pointer_at m0 outputs (Z.of_nat i) = Ret (pointer_of x);
  ca_input : forall j s r p, ins !! j = Some (Some s) -> gr_inputs g !! j = Some r -> port_at g r = Some p ->
    slotted m0 s /\ vw_at (sl_view s) <> 0 /\ sl_size s = pt_payload_size p;
  ca_output : forall i s r p, outs !! i = Some (Some s) -> gr_outputs g !! i = Some r -> port_at g r = Some p ->
    slotted m0 s /\ vw_at (sl_view s) <> 0 /\ sl_size s = pt_payload_size p;
  ca_arrays : forall a, in_arrays inputs (zlen ins) outputs (zlen outs) a -> ~ storage_byte a /\ ~ in_tables g w a;
  ca_ins : forall j s a, ins !! j = Some (Some s) -> slot_byte s a -> ~ storage_byte a /\ ~ in_tables g w a;
  ca_outs : forall i s a, outs !! i = Some (Some s) -> slot_byte s a -> ~ storage_byte a }.

Context (Hg : graph_ready g) (Hpl : placed) (Hca : called).

Lemma slot_parts (s : slot) a : slot_byte s a <-> fixed (sl_view s) a \/ slot_moving s a.
Proof. done. Qed.

Lemma moves_storage a : storage_moves a -> storage_byte a.
Proof. intros (r & p & Hr & Ha). exists r, p. split; [done|]. by right. Qed.

(** Bytes that no storage moves. *)
Lemma fixed_kept r p a : out_port r p -> fixed (sl_view (st r)) a -> ~ storage_moves a.
Proof.
  intros Hr Hf (r' & p' & Hr' & Hm). destruct (decide (r = r')) as [<-|Hne].
  - by apply (va_fixed _ _ _ (sp_apart _ _ _ (pl_storage Hpl r p Hr)) a).
  - apply (pl_apart Hpl r r' p p' a); try done; [by left|by right].
Qed.

(** ** The outputs take their storage *)

Definition own_storage (c : cyc) : Prop := same_if (fun a => ~ storage_moves a) m0 (cy_mem c).

Lemma storage_viewed c r p : own_storage c -> out_port r p -> viewed (cy_mem c) (sl_view (st r)).
Proof.
  intros Hc Hr. eapply viewed_same; [exact Hc| |apply (sp_viewed _ _ _ (pl_storage Hpl r p Hr))].
  intros a Ha. by apply (fixed_kept r p).
Qed.

(** The state of a port behind its round of the first loop. *)
Definition reset (c : cyc) (r : port_ref) (p : fgn_port) : Prop :=
  if is_input p then buffer_of c r = 0
  else buffer_of c r = vw_at (sl_view (st r)) /\ offset_of c r = 0 /\
       chunk_offset (cy_mem c) (vw_chunk (sl_view (st r))) = Ret 0 /\ chunk_size (cy_mem c) (vw_chunk (sl_view (st r))) = Ret 0.

Lemma storage_touched r p m m' : out_port r p -> same_if (fun a => ~ slot_moving (st r) a) m m' ->
  same_if (fun a => ~ storage_moves a) m m' /\
  forall r' p', out_port r' p' -> r' <> r ->
    chunk_offset m' (vw_chunk (sl_view (st r'))) = chunk_offset m (vw_chunk (sl_view (st r'))) /\
    chunk_size m' (vw_chunk (sl_view (st r'))) = chunk_size m (vw_chunk (sl_view (st r'))).
Proof.
  intros Hr S. split.
  - eapply same_if_weaken; [|exact S]. intros a Ha Hm. apply Ha. by exists r, p.
  - intros r' p' Hr' Hne. eapply chunk_same; [exact S|]. intros a Ha Hm.
    apply (pl_apart Hpl r' r p' p a); try done; [right; by left|by right].
Qed.

Lemma buffer_of_set r b c r' : buffer_of (set_buffer (W := W) r b c) r' = if decide (r = r') then b else buffer_of c r'.
Proof. unfold buffer_of, set_buffer. cbn. case_decide as E; [subst; by rewrite lookup_insert_eq|by rewrite lookup_insert_ne]. Qed.
Lemma offset_of_set r b c r' : offset_of (set_offset (W := W) r b c) r' = if decide (r = r') then b else offset_of c r'.
Proof. unfold offset_of, set_offset. cbn. case_decide as E; [subst; by rewrite lookup_insert_eq|by rewrite lookup_insert_ne]. Qed.

Lemma zlen_kept Q (c : cyc) : same_if Q m0 (cy_mem c) -> zlen (cy_mem c) = zlen m0.
Proof. apply same_if_zlen. Qed.

Lemma load_stored m a v m' : 0 <= v < 2 ^ 32 -> store m a (le32 v) = Ret m' -> 0 <= a -> load_u32 m' a = Ret v.
Proof.
  intros Hv Hs Ha. apply holds_store in Hs. rewrite (holds_u32 m' a v Hs). by rewrite wrap_small.
Qed.

Lemma store_same m a bs m' (Q : Z -> Prop) : store m a bs = Ret m' -> (forall i, a <= i < a + zlen bs -> ~ Q i) -> same_if Q m m'.
Proof. intros Hs HQ. eapply same_if_weaken; [|by apply same_if_store]. intros i Hi Hin. by apply (HQ i). Qed.

(** The part of a chunk, as bytes that move. *)
Lemma chunk_moves s o n i : 0 <= o -> o + n <= 16 -> vw_chunk (sl_view s) + o <= i < vw_chunk (sl_view s) + o + n -> slot_moving s i.
Proof. intros Ho Hn Hi. left. apply covers_extent; lia. Qed.

(** A word of a chunk is stored. *)
Lemma store_chunk_wp s o v a (Q : unit -> cyc -> Prop) E c : a = vw_chunk (sl_view s) + o -> viewed (cy_mem c) (sl_view s) -> 0 <= o -> o + 4 <= 16 -> 0 <= v < 2 ^ 32 ->
  (forall m', same_if (fun a => ~ (vw_chunk (sl_view s) + o <= a < vw_chunk (sl_view s) + o + 4)) (cy_mem c) m' ->
     load_u32 m' (vw_chunk (sl_view s) + o) = Ret v -> Q tt (set_mem m' c)) ->
  st_wp (writes (fun m => store m a (le32 v))) Q E c.
Proof.
  intros -> Hv Ho Hn Hval HQ. pose proof (load_u64_inv _ _ _ (vd_chunk _ _ Hv)) as (_ & _ & Hc). unfold is_u64 in Hc.
  pose proof (vd_chunk_in _ _ Hv). apply store_wp; [lia|rewrite zlen_le32; lia|]. intros m' Hm'. apply HQ.
  - eapply store_same; [exact Hm'|]. rewrite zlen_le32. intros i Hi Hno. by apply Hno.
  - eapply load_stored; [done|exact Hm'|lia].
Qed.

Lemma set_mem_twice m m' (c : cyc) : set_mem m' (set_mem m c) = set_mem m' c.
Proof. done. Qed.
Lemma set_mem_buffer m (c : cyc) r : buffer_of (set_mem m c) r = buffer_of c r.
Proof. done. Qed.
Lemma buffer_of_set_offset r o (c : cyc) r' : buffer_of (set_offset r o c) r' = buffer_of c r'.
Proof. done. Qed.
Lemma offset_of_set_buffer r b (c : cyc) r' : offset_of (set_buffer r b c) r' = offset_of c r'.
Proof. done. Qed.
Lemma set_mem_offset m (c : cyc) r : offset_of (set_mem m c) r = offset_of c r.
Proof. done. Qed.

(** The words of the chunk and the records: what two stores and the zeroing of
    the records leave of the chunk. *)
Lemma reset_output_wp r p (c : cyc) E : out_port r p -> own_storage c ->
  st_wp (reset_output w r)
    (fun _ c' => own_storage c' /\ cy_runs c' = cy_runs c /\ reset c' r p /\ forall r' p', port_at g r' = Some p' -> reset c r' p' -> reset c' r' p') E c.
Proof.
  intros Hr Hc. pose proof (pl_storage Hpl r p Hr) as Hsp. set (s := st r) in *.
  pose proof (storage_viewed c r p Hc Hr) as Hv. fold s in Hv. destruct (sp_at _ _ _ Hsp) as [Hat _].
  assert (forall m m', same_if (fun a => ~ slot_moving s a) m m' -> viewed m (sl_view s) -> viewed m' (sl_view s)) as Hkeep.
  { intros m m' S Hvm. eapply viewed_same; [exact S| |exact Hvm]. intros a Hf Hm. by apply (va_fixed _ _ _ (sp_apart _ _ _ Hsp) a). }
  unfold reset_output. cbv zeta. rewrite <- (sp_chunk _ _ _ Hsp), <- (sp_metas _ _ _ Hsp), <- Hat. fold s.
  apply st_wp_bind. apply (store_chunk_wp s 0 0); [lia|done|lia|lia|lia|]. intros m1 S1 E1. rewrite Z.add_0_r in S1, E1.
  assert (same_if (fun a => ~ slot_moving s a) (cy_mem c) m1) as T1.
  { eapply same_if_weaken; [|exact S1]. intros a Ha Hi. apply Ha. apply (chunk_moves s 0 4); lia. }
  apply st_wp_bind. apply (store_chunk_wp s 4 0); [done|cbn; by apply (Hkeep (cy_mem c))|lia|lia|lia|]. intros m2 S2 E2. cbn [cy_mem set_mem] in S2.
  assert (same_if (fun a => ~ slot_moving s a) m1 m2) as T2.
  { eapply same_if_weaken; [|exact S2]. intros a Ha Hi. apply Ha. apply (chunk_moves s 4 4); lia. }
  assert (viewed m2 (sl_view s)) as Hv2 by (apply (Hkeep m1); [done|by apply (Hkeep (cy_mem c))]).
  apply st_wp_bind, reads_wp. cbn [cy_mem set_mem]. rewrite (vd_n_metas _ _ Hv2). cbn [o_wp].
  apply st_wp_bind. apply (init_records_wp (sl_view s) _ _ (sp_apart _ _ _ Hsp) (sp_records _ _ _ Hsp) (fun _ => st_ret tt)); [done|done|].
  intros m3 S3. cbn [cy_mem set_mem] in S3.
  assert (same_if (fun a => ~ slot_moving s a) m2 m3) as T3.
  { eapply same_if_weaken; [|exact S3]. intros a Ha Hi. apply Ha. by right; right. }
  assert (same_if (fun a => ~ slot_moving s a) (cy_mem c) m3) as T by (eapply same_if_trans; [exact T1|by eapply same_if_trans]).
  destruct (storage_touched r p (cy_mem c) m3 Hr T) as [Town Tother].
  destruct (chunk_same _ _ _ (sl_view s) S3) as [Eo Es].
  { intros a Ha Hb. apply (va_chunk _ _ _ (sp_apart _ _ _ Hsp) a Ha). by right. }
  assert (chunk_offset m2 (vw_chunk (sl_view s)) = Ret 0) as Eo2.
  { rewrite <- E1. unfold chunk_offset. eapply same_if_u32; [exact S2|]. intros a Ha Hb. lia. }
  apply st_wp_bind, st_wp_modify, st_wp_modify.
  assert (reset (set_offset r 0 (set_buffer r (vw_at (sl_view s)) (set_mem m3 c))) r p) as Hdone.
  { unfold reset. rewrite (proj2 Hr). fold s. cbn [cy_mem set_mem set_buffer set_offset].
    rewrite offset_of_set, buffer_of_set_offset, buffer_of_set, !decide_True by done.
    split; [done|split; [done|split; [congruence|by rewrite Es]]]. }
  split; [|split; [done|split; [exact Hdone|]]].
  - unfold own_storage. cbn [cy_mem set_mem set_buffer set_offset]. by eapply same_if_trans.
  - intros r' p' Hr' Hrs. destruct (decide (r' = r)) as [->|Hne].
    { destruct Hr as [Hp _]. rewrite Hp in Hr'. injection Hr' as <-. exact Hdone. }
    revert Hrs. unfold reset.
    rewrite offset_of_set, buffer_of_set_offset, buffer_of_set, !decide_False, offset_of_set_buffer by done. destruct (is_input p') eqn:Ei; [done|].
    cbn [cy_mem set_mem set_buffer set_offset]. destruct (Tother r' p' (conj Hr' Ei) Hne) as [-> ->]. done.
Qed.

Lemma reset_input r p (c : cyc) : in_port r p ->
  reset (set_buffer r 0 c) r p /\ forall r' p', port_at g r' = Some p' -> reset c r' p' -> reset (set_buffer r 0 c) r' p'.
Proof.
  intros [Hp Hi]. assert (reset (set_buffer r 0 c) r p) as Hr by (unfold reset; by rewrite Hi, buffer_of_set, decide_True).
  split; [done|]. intros r' p' Hp' H. destruct (decide (r' = r)) as [->|Hne]; [rewrite Hp in Hp'; by injection Hp' as <-|].
  revert H. unfold reset. by rewrite buffer_of_set, offset_of_set_buffer, decide_False.
Qed.

(** The ports of a node, by direction. *)
Lemma node_port_at k n j p : gr_nodes g !! k = Some n -> port_at g (k, j) = Some p <-> nd_ports n !! j = Some p.
Proof. intros Hk. unfold port_at. cbn [fst snd]. by rewrite Hk. Qed.

Lemma node_inputs k n j : gr_nodes g !! k = Some n -> j ∈ nd_inputs n <-> exists p, in_port (k, j) p.
Proof.
  intros Hk. rewrite (nw_inputs _ _ _ (wf_node _ (rd_wf _ Hg) k n Hk)). rewrite positions_spec. unfold in_port. split.
  - intros (i & p & -> & Hp & Hi). exists p. split; [|done]. by apply (node_port_at k n).
  - intros (p & Hp & Hi). apply (node_port_at k n) in Hp; [|done]. by exists j, p.
Qed.
Lemma node_outputs k n j : gr_nodes g !! k = Some n -> j ∈ nd_outputs n <-> exists p, out_port (k, j) p.
Proof.
  intros Hk. rewrite (nw_outputs _ _ _ (wf_node _ (rd_wf _ Hg) k n Hk)). rewrite positions_spec. unfold out_port. split.
  - intros (i & p & -> & Hp & Hi%negb_true_iff). exists p. split; [|done]. by apply (node_port_at k n).
  - intros (p & Hp & Hi). apply (node_port_at k n) in Hp; [|done]. exists j, p. by rewrite Hi.
Qed.

(** Everything that was reset stays so. *)
Definition resets (c c' : cyc) : Prop :=
  (own_storage c -> own_storage c') /\ cy_runs c' = cy_runs c /\
  forall r p, port_at g r = Some p -> reset c r p -> reset c' r p.

Lemma reset_node_wp k n (c : cyc) E : gr_nodes g !! k = Some n -> own_storage c ->
  st_wp (reset_node w (k, n)) (fun _ c' => resets c c' /\ own_storage c' /\ forall j p, port_at g (k, j) = Some p -> reset c' (k, j) p) E c.
Proof.
  intros Hk Hc. unfold reset_node. apply st_wp_bind.
  eapply st_wp_mono; [apply (st_each_wp _ _ (fun pre c' => own_storage c' /\ resets c c' /\
    forall j p, j ∈ pre -> port_at g (k, j) = Some p -> reset c' (k, j) p)); [|split; [done|split; [by split|by intros j p ?%elem_of_nil]]]| |done].
  - intros pre j post c' Hl (Ho & (H1 & H2 & H3) & Hpre). apply st_wp_modify.
    assert (j ∈ nd_inputs n) as Hj by (rewrite Hl; set_solver). apply (node_inputs k n j Hk) in Hj as [p Hp].
    destruct (reset_input (k, j) p c' Hp) as [Hr Hkeep]. split; [done|]. split.
    + split; [done|]. split; [done|]. intros r' p' Hp' Hrs. by apply Hkeep, H3.
    + intros j' p' Hj' Hp'. apply elem_of_app in Hj' as [Hj'|Hj']; [by apply Hkeep, Hpre|].
      apply list_elem_of_singleton in Hj' as ->. destruct Hp as [Hp _]. rewrite Hp in Hp'. by injection Hp' as <-.
  - intros [] c1 (Ho1 & (H1 & H2 & H3) & Hin).
    eapply st_wp_mono; [apply (st_each_wp _ _ (fun pre c' => own_storage c' /\ resets c1 c' /\
      forall j p, j ∈ pre -> port_at g (k, j) = Some p -> reset c' (k, j) p)); [|split; [done|split; [by split|by intros j p ?%elem_of_nil]]]| |done].
    + intros pre j post c' Hl (Ho & (G1 & G2 & G3) & Hpre).
      assert (j ∈ nd_outputs n) as Hj by (rewrite Hl; set_solver). apply (node_outputs k n j Hk) in Hj as [p Hp].
      eapply st_wp_mono; [by apply (reset_output_wp (k, j) p)| |done]. intros [] c2 (Ho2 & Er & Hr & Hkeep). split; [done|]. split.
      * split; [done|]. split; [congruence|]. intros r' p' Hp' Hrs. by apply Hkeep, G3.
      * intros j' p' Hj' Hp'. apply elem_of_app in Hj' as [Hj'|Hj']; [by apply Hkeep, Hpre|].
        apply list_elem_of_singleton in Hj' as ->. destruct Hp as [Hp _]. rewrite Hp in Hp'. by injection Hp' as <-.
    + intros [] c2 (Ho2 & (G1 & G2 & G3) & Hout). split; [|split; [done|]].
      * split; [done|]. split; [congruence|]. intros r' p' Hp' Hrs. by apply G3, H3.
      * intros j p Hp. destruct (is_input p) eqn:Ei.
        -- apply G3; [done|]. apply Hin; [|done]. apply (node_inputs k n j Hk). by exists p.
        -- apply Hout; [|done]. apply (node_outputs k n j Hk). by exists p.
Qed.

Lemma reset_nodes_wp (c : cyc) E : own_storage c ->
  st_wp (st_each (numbered_nodes g) (reset_node w))
    (fun _ c' => own_storage c' /\ cy_runs c' = cy_runs c /\ forall r p, port_at g r = Some p -> reset c' r p) E c.
Proof.
  intros Hc.
  eapply st_wp_mono; [apply (st_each_wp _ _ (fun pre c' => own_storage c' /\ cy_runs c' = cy_runs c /\
    forall kn j p, kn ∈ pre -> port_at g (kn.1, j) = Some p -> reset c' (kn.1, j) p)); [|by split; [|split; [|by intros kn j p ?%elem_of_nil]]]| |done].
  - intros pre [k n] post c' Hl (Ho & Er & Hpre).
    assert (gr_nodes g !! k = Some n) as Hk.
    { assert ((k, n) ∈ numbered_nodes g) as Hin by (rewrite Hl; set_solver).
      unfold numbered_nodes in Hin. apply list_elem_of_lookup in Hin as [i Hi]. rewrite list_lookup_imap in Hi.
      destruct (gr_nodes g !! i) as [n'|] eqn:E1; [|done]. cbn in Hi. by injection Hi as <- <-. }
    eapply st_wp_mono; [by apply (reset_node_wp k n)| |done]. intros [] c2 ((G1 & G2 & G3) & Ho2 & Hn). split; [done|]. split; [congruence|].
    intros kn j p Hkn Hp. apply elem_of_app in Hkn as [Hkn|Hkn]; [by apply G3, Hpre|].
    apply list_elem_of_singleton in Hkn as ->. by apply Hn.
  - intros [] c' (Ho & Er & Hall). split; [done|]. split; [done|]. intros [k j] p Hp.
    assert (exists n, gr_nodes g !! k = Some n) as [n Hk] by (unfold port_at in Hp; cbn in Hp; destruct (gr_nodes g !! k); [eauto|done]).
    apply (Hall (k, n)); [|done]. apply list_elem_of_lookup. exists k. unfold numbered_nodes. by rewrite list_lookup_imap, Hk.
Qed.

(** ** The buffers of the caller *)

Lemma slotted_same Q m m' s : same_if Q m m' -> (forall a, slot_byte s a -> Q a) -> slotted m s -> slotted m' s.
Proof.
  intros S HQ [Hv Ho Ht]. split; [|rewrite <- Ho|done].
  - eapply viewed_same; [exact S| |done]. intros a Ha. apply HQ. by left.
  - apply (chunk_same Q m m' (sl_view s) S). intros a Ha. apply HQ. right. by left.
Qed.

Lemma pointer_same Q m m' table n i : same_if Q m m' -> 0 <= i < n ->
  (forall a, table <= a < table + n * sizeof_pointer -> Q a) -> pointer_at m' table i = pointer_at m table i.
Proof. intros S Hi HQ. apply (same_if_u64 Q m m' _ S). intros a Ha. apply HQ. lia. Qed.

Lemma own_input (c : cyc) j x : own_storage c -> ins !! j = Some x -> pointer_at (cy_mem c) inputs (Z.of_nat j) = Ret (pointer_of x).
Proof.
  intros Hc Hj. rewrite <- (proj2 (ca_inputs Hca) j x Hj). pose proof (lookup_lt_Some _ _ _ Hj).
  apply (pointer_same _ _ _ _ (zlen ins) _ Hc); [unfold zlen; lia|]. intros a Ha Hm.
  apply (proj1 (ca_arrays Hca a ltac:(by left))). by apply moves_storage.
Qed.
Lemma own_output (c : cyc) i x : own_storage c -> outs !! i = Some x -> pointer_at (cy_mem c) outputs (Z.of_nat i) = Ret (pointer_of x).
Proof.
  intros Hc Hi. rewrite <- (proj2 (ca_outputs Hca) i x Hi). pose proof (lookup_lt_Some _ _ _ Hi).
  apply (pointer_same _ _ _ _ (zlen outs) _ Hc); [unfold zlen; lia|]. intros a Ha Hm.
  apply (proj1 (ca_arrays Hca a ltac:(by right))). by apply moves_storage.
Qed.

Lemma own_ins (c : cyc) j s : own_storage c -> ins !! j = Some (Some s) -> slotted m0 s -> slotted (cy_mem c) s.
Proof.
  intros Hc Hj. apply (slotted_same _ _ _ _ Hc). intros a Ha Hm. apply (proj1 (ca_ins Hca j s a Hj Ha)). by apply moves_storage.
Qed.
Lemma own_outs (c : cyc) i s : own_storage c -> outs !! i = Some (Some s) -> slotted m0 s -> slotted (cy_mem c) s.
Proof.
  intros Hc Hi. apply (slotted_same _ _ _ _ Hc). intros a Ha Hm. apply (ca_outs Hca i s a Hi Ha). by apply moves_storage.
Qed.

(** External ports. *)
Lemma external_input j r : gr_inputs g !! j = Some r -> exists p, in_port r p /\ pt_source p = None.
Proof.
  intros Hj. destruct (wf_external _ (rd_wf _ Hg) SPA_DIRECTION_INPUT r (or_introl eq_refl)) as (p & Hp & Hd & Hs).
  { by apply list_elem_of_lookup_2 with j. }
  exists p. split; [|by apply Hs]. split; [done|]. unfold is_input. by apply Z.eqb_eq.
Qed.
Lemma external_output i r : gr_outputs g !! i = Some r -> exists p, out_port r p.
Proof.
  intros Hi. destruct (wf_external _ (rd_wf _ Hg) SPA_DIRECTION_OUTPUT r (or_intror eq_refl)) as (p & Hp & Hd & _).
  { by apply list_elem_of_lookup_2 with i. }
  exists p. split; [done|]. unfold is_input. apply Z.eqb_neq. rewrite Hd. done.
Qed.
Lemma inputs_distinct : NoDup (gr_inputs g).
Proof. apply (wf_distinct _ (rd_wf _ Hg) SPA_DIRECTION_INPUT). Qed.
Lemma outputs_distinct : NoDup (gr_outputs g).
Proof. apply (wf_distinct _ (rd_wf _ Hg) SPA_DIRECTION_OUTPUT). Qed.

Lemma input_at j : (j < List.length (gr_inputs g))%nat -> exists r p x, gr_inputs g !! j = Some r /\ in_port r p /\ ins !! j = Some x.
Proof.
  intros Hj. destruct (lookup_lt_is_Some_2 (gr_inputs g) j Hj) as [r Hr]. destruct (external_input j r Hr) as (p & Hp & _).
  destruct (lookup_lt_is_Some_2 ins j) as [x Hx]; [by rewrite (proj1 (ca_inputs Hca))|]. by exists r, p, x.
Qed.
Lemma output_at i : (i < List.length (gr_outputs g))%nat -> exists r p x, gr_outputs g !! i = Some r /\ out_port r p /\ outs !! i = Some x.
Proof.
  intros Hi. destruct (lookup_lt_is_Some_2 (gr_outputs g) i Hi) as [r Hr]. destruct (external_output i r Hr) as [p Hp].
  destruct (lookup_lt_is_Some_2 outs i) as [x Hx]; [by rewrite (proj1 (ca_outputs Hca))|]. by exists r, p, x.
Qed.

Lemma payload_nonneg r p : port_at g r = Some p -> 0 < pt_payload_size p.
Proof. intros Hp. apply (fo_size _ _ (pw_format _ _ _ (wf_port _ (rd_wf _ Hg) r p Hp))). Qed.

(** What is known of an input that was taken. *)
Definition input_taken (m : mem) (x : option slot) (p : fgn_port) : Prop :=
  match x with
  | Some s => fits m (sl_view s) p (sl_offset s) /\ filled m (sl_view s) p (sl_offset s) /\
      view_apart (sl_view s) (sl_offset s) (sl_size s)
  | None => True
  end.

Lemma fits_offset m v p off off' : fits m v p off -> chunk_offset m (vw_chunk v) = Ret off' -> off = off'.
Proof. intros [H _ _ _ _ _ _] H'. congruence. Qed.

Lemma take_input_wp j r p x (c : cyc) E : gr_inputs g !! j = Some r -> in_port r p -> ins !! j = Some x -> own_storage c ->
  buffer_of c r = 0 -> E c ->
  st_wp (take_input g inputs (Z.of_nat j)) (fun _ c' => input_taken (cy_mem c) x p /\
    (c' = set_buffer r (pointer_of x) c \/ x = None /\ c' = c)) E c.
Proof.
  intros Hj Hp Hx Hc Hb HE. unfold take_input, the_external, the_port. rewrite Nat2Z.id, Hj.
  apply st_wp_bind, st_wp_lift. cbn [o_wp]. rewrite (proj1 Hp). apply st_wp_bind, st_wp_lift. cbn [o_wp].
  apply st_wp_bind, reads_wp. rewrite (own_input c j x Hc Hx). cbn [o_wp].
  assert (x = None -> pointer_of x = 0) as Hnull by (by intros ->).
  assert (pointer_of x = 0 -> x = None) as Hnone.
  { destruct x as [s|]; [|done]. intros H0. by destruct (ca_input Hca j s r p Hx Hj (proj1 Hp)) as (_ & ? & _). }
  destruct (has _ SPA_FGN_PORT_FLAG_PARAMETER).
  { destruct (Z.eqb_spec (pointer_of x) 0) as [H0|]; cbn [negb]; [|done]. rewrite (Hnone H0). split; [done|]. by right. }
  destruct (_ && _) eqn:Eo.
  { apply andb_prop in Eo as [H0%Z.eqb_eq _]. rewrite (Hnone H0). split; [done|]. by right. }
  destruct x as [s|]; cbn [pointer_of] in *.
  2: { apply st_wp_bind, reads_wp. cbn. done. }
  destruct (ca_input Hca j s r p Hx Hj (proj1 Hp)) as (Hs0 & Hne & Hsz). pose proof (own_ins c j s Hc Hx Hs0) as Hs.
  pose proof (payload_nonneg r p (proj1 Hp)). rewrite <- Hsz.
  apply st_wp_bind, reads_wp. eapply o_wp_mono; [apply validate_viewed; [rewrite (zlen_kept _ c Hc); apply (pl_size Hpl)|lia|apply (sd_view _ _ Hs)]| |done].
  intros [] (_ & off & Hf & Hfill). pose proof (fits_offset _ _ _ _ _ Hf (sd_offset _ _ Hs)) as ->.
  apply st_wp_bind, reads_wp. eapply o_wp_mono; [by apply nonalias_slot| |done]. intros [] Ha.
  apply st_wp_modify. split; [by split; [|split; [by apply Hfill|]]|by left].
Qed.

(** The state behind the inputs. *)
Record inputs_taken (c : cyc) : Prop := {
  it_mem : own_storage c;
  it_runs : cy_runs c = [];
  it_input : forall j x r p, ins !! j = Some x -> gr_inputs g !! j = Some r -> port_at g r = Some p ->
    buffer_of c r = pointer_of x /\ input_taken (cy_mem c) x p;
  it_other : forall r p, port_at g r = Some p -> r ∉ gr_inputs g -> reset c r p }.

Lemma take_inputs_wp (c : cyc) E : own_storage c -> cy_runs c = [] -> (forall r p, port_at g r = Some p -> reset c r p) ->
  (forall c', own_storage c' -> E c') ->
  st_wp (st_count (zlen (gr_inputs g)) (take_input g inputs)) (fun _ => inputs_taken) E c.
Proof.
  intros Hc Hr Hall HE.
  eapply st_wp_mono; [apply (st_count_wp _ _ (fun i c' => cy_mem c' = cy_mem c /\ cy_runs c' = [] /\
    (forall j x r p, Z.of_nat j < i -> ins !! j = Some x -> gr_inputs g !! j = Some r -> port_at g r = Some p ->
       buffer_of c' r = pointer_of x /\ input_taken (cy_mem c) x p) /\
    (forall r p, port_at g r = Some p -> (forall j, Z.of_nat j < i -> gr_inputs g !! j <> Some r) -> reset c' r p)))| |].
  - apply zlen_nonneg.
  - intros i c' Hi (Hm & Hrun & Htaken & Hother).
    destruct (input_at (Z.to_nat i)) as (r & p & x & Hj & Hp & Hx); [unfold zlen in Hi; lia|].
    assert (own_storage c') as Hc' by (unfold own_storage; by rewrite Hm).
    assert (reset c' r p) as Hrp.
    { apply Hother; [apply Hp|]. intros j Hlt Hjr. pose proof (NoDup_lookup _ _ _ _ inputs_distinct Hj Hjr). lia. }
    assert (buffer_of c' r = 0) as Hb by (revert Hrp; unfold reset; by rewrite (proj2 Hp)).
    rewrite <- (Z2Nat.id i) by lia. eapply st_wp_mono; [by apply (take_input_wp _ r p x); auto| |done].
    intros [] c2 [Hin Hc2]. rewrite Hm in Hin.
    assert (cy_mem c2 = cy_mem c /\ cy_runs c2 = [] /\ buffer_of c2 r = pointer_of x /\
            (forall r', r' <> r -> forall p', reset c' r' p' -> reset c2 r' p') /\ (forall r', r' <> r -> buffer_of c2 r' = buffer_of c' r')) as (M2 & R2 & B2 & O2 & K2).
    { destruct Hc2 as [->|[-> ->]]; [|by split_and!]. split_and!; try done.
      - by rewrite buffer_of_set, decide_True.
      - intros r' Hne p'. unfold reset. by rewrite buffer_of_set, offset_of_set_buffer, decide_False.
      - intros r' Hne. by rewrite buffer_of_set, decide_False. }
    split; [done|]. split; [done|]. split.
    + intros j x' r' p' Hlt Hx' Hj' Hp'. destruct (decide (j = Z.to_nat i)) as [->|Hne].
      * rewrite Hx in Hx'. rewrite Hj in Hj'. injection Hx' as <-. injection Hj' as <-. rewrite (proj1 Hp) in Hp'. by injection Hp' as <-.
      * destruct (Htaken j x' r' p' ltac:(lia) Hx' Hj' Hp') as [Hb' Hi']. split; [|done]. rewrite K2; [done|].
        intros ->. apply Hne. by apply (NoDup_lookup _ _ _ _ inputs_distinct Hj' Hj).
    + intros r' p' Hp' Hno. destruct (decide (r' = r)) as [->|Hne].
      * exfalso. apply (Hno (Z.to_nat i)); [lia|done].
      * apply O2; [done|]. apply Hother; [done|]. intros j Hlt. apply Hno. lia.
  - split; [done|]. split; [done|]. split; [intros; lia|]. intros r p Hp _. by apply Hall.
  - intros [] c' (Hm & Hrun & Htaken & Hother). split.
    + unfold own_storage. by rewrite Hm.
    + done.
    + intros j x r p Hx Hj Hp. rewrite Hm. apply (Htaken j); try done. pose proof (lookup_lt_Some _ _ _ Hj). unfold zlen. lia.
    + intros r p Hp Hno. apply Hother; [done|]. intros j _ Hj. apply Hno. by apply list_elem_of_lookup_2 with j.
  - done.
Qed.

(** ** The outputs are checked *)

Lemma check_outputs_wp (c : cyc) E : own_storage c -> E c ->
  st_wp (st_count (zlen (gr_outputs g)) (check_output g outputs)) (fun _ c' => c' = c /\
    exists osl, outs = map Some osl /\
      forall i s r p, osl !! i = Some s -> gr_outputs g !! i = Some r -> port_at g r = Some p -> fits (cy_mem c) (sl_view s) p (sl_offset s)) E c.
Proof.
  intros Hc HE.
  eapply st_wp_mono; [apply (st_count_wp _ _ (fun i c' => c' = c /\ exists osl, take (Z.to_nat i) outs = map Some osl /\
      forall i s r p, osl !! i = Some s -> gr_outputs g !! i = Some r -> port_at g r = Some p -> fits (cy_mem c) (sl_view s) p (sl_offset s)))| |].
  - apply zlen_nonneg.
  - intros i c' Hi (-> & osl & Ho & Hfit).
    destruct (output_at (Z.to_nat i)) as (r & p & x & Hj & Hp & Hx); [unfold zlen in Hi; lia|].
    unfold check_output, the_external, the_port. apply st_wp_bind, st_wp_lift. rewrite Hj. cbn [o_wp].
    apply st_wp_bind, st_wp_lift. rewrite (proj1 Hp). cbn [o_wp].
    apply st_wp_bind, reads_wp. pose proof (own_output c _ x Hc Hx) as Ex. rewrite Z2Nat.id in Ex by lia. rewrite Ex. cbn [o_wp].
    apply reads_wp. destruct x as [s|]; [|exact HE]. cbn [pointer_of].
    destruct (ca_output Hca _ s r p Hx Hj (proj1 Hp)) as (Hs0 & Hne & Hsz). pose proof (own_outs c _ s Hc Hx Hs0) as Hs.
    pose proof (payload_nonneg r p (proj1 Hp)).
    eapply o_wp_mono; [apply validate_viewed; [rewrite (zlen_kept _ c Hc); apply (pl_size Hpl)|lia|apply (sd_view _ _ Hs)]| |done].
    intros [] (_ & off & Hf & _). pose proof (fits_offset _ _ _ _ _ Hf (sd_offset _ _ Hs)) as ->. split; [done|].
    exists (osl ++ [s]). assert (Z.to_nat i = List.length osl) as Hl.
    { pose proof (f_equal List.length Ho) as Hlen. rewrite List.length_map, length_take in Hlen. apply lookup_lt_Some in Hx. lia. }
    split.
    + replace (Z.to_nat (i + 1)) with (S (Z.to_nat i)) by lia. rewrite (take_S_r _ _ _ Hx), Ho, map_app. done.
    + intros i' s' r' p' Hs' Hr' Hp'. apply lookup_app_Some in Hs' as [Hs'|[Hge Hs']]; [by apply (Hfit i' s' r' p')|].
      apply list_lookup_singleton_Some in Hs' as [Hi' <-]. assert (i' = Z.to_nat i) as -> by lia.
      rewrite Hj in Hr'. injection Hr' as <-. rewrite (proj1 Hp) in Hp'. by injection Hp' as <-.
  - split; [done|]. exists []. split; [done|]. by intros.
  - intros [] c' (-> & osl & Ho & Hfit). split; [done|]. exists osl. split; [|done].
    rewrite take_ge in Ho; [done|]. rewrite (proj1 (ca_outputs Hca)). unfold zlen. lia.
  - done.
Qed.

Lemma payload_of_port ports j r p : ports !! j = Some r -> port_at g r = Some p -> payload_of g ports (Z.of_nat j) = Ret (pt_payload_size p).
Proof. intros Hj Hp. unfold payload_of. by rewrite Nat2Z.id, Hj, Hp. Qed.

Lemma arrays_ready (c : cyc) osl : own_storage c -> outs = map Some osl -> arrays_in g (cy_mem c) inputs outputs ins osl.
Proof.
  intros Hc Ho.
  assert (forall i s, osl !! i = Some s -> outs !! i = Some (Some s)) as Hosl by (intros i s Hs; rewrite Ho, list_lookup_fmap, Hs; done).
  split.
  - intros j x Hx. by apply own_input.
  - intros i s Hs. by apply (own_output c i (Some s)), Hosl.
  - intros j s Hs. destruct (input_at j) as (r & p & x & Hj & Hp & Hx).
    { rewrite <- (proj1 (ca_inputs Hca)). by eapply lookup_lt_Some. }
    destruct (ca_input Hca j s r p Hs Hj (proj1 Hp)) as (Hs0 & Hne & Hsz). split; [by apply (own_ins c j)|]. split; [done|].
    rewrite Hsz. apply (payload_of_port _ j r p Hj (proj1 Hp)).
  - intros i s Hs. apply Hosl in Hs. destruct (output_at i) as (r & p & x & Hj & Hp & Hx).
    { rewrite <- (proj1 (ca_outputs Hca)). by eapply lookup_lt_Some. }
    destruct (ca_output Hca i s r p Hs Hj (proj1 Hp)) as (Hs0 & Hne & Hsz). split; [by apply (own_outs c i)|].
    rewrite Hsz. apply (payload_of_port _ i r p Hj (proj1 Hp)).
Qed.

(** ** The buffers of a cycle that was accepted *)

Section Accepted.
Context (osl : list slot) (Hosl : outs = map Some osl).
Context (Hown : forall i s, osl !! i = Some s -> owned_output g w inputs outputs ins osl i s).
Context (Hfits : forall i s r p, osl !! i = Some s -> gr_outputs g !! i = Some r -> port_at g r = Some p ->
  records_ok (vw_metas (sl_view s)) (vw_records (sl_view s))).

(** The buffer an output writes. *)
Definition slot_of (r : port_ref) : slot :=
  match find_pos (fun x => bool_decide (x = r)) (gr_outputs g) with
  | Some i => default (st r) (osl !! i)
  | None => st r
  end.

Lemma osl_outs i s : osl !! i = Some s -> outs !! i = Some (Some s).
Proof. intros H. by rewrite Hosl, list_lookup_fmap, H. Qed.
Lemma osl_length : List.length osl = List.length (gr_outputs g).
Proof. rewrite <- (proj1 (ca_outputs Hca)), Hosl. by rewrite List.length_map. Qed.

Lemma slot_cases r p : out_port r p ->
  (r ∉ gr_outputs g /\ slot_of r = st r) \/ (exists i, gr_outputs g !! i = Some r /\ osl !! i = Some (slot_of r)).
Proof.
  intros Hr. unfold slot_of. destruct (find_pos _ (gr_outputs g)) as [i|] eqn:E.
  - right. apply find_pos_some in E as (x & Hx & ->%bool_decide_eq_true). exists i. split; [done|].
    destruct (lookup_lt_is_Some_2 osl i) as [s ->]; [rewrite osl_length; by eapply lookup_lt_Some|done].
  - left. split; [|done]. intros Hin. apply find_pos_none in E. rewrite list.Forall_forall in E.
    specialize (E r Hin). by apply bool_decide_eq_false in E.
Qed.

Lemma slot_external i r s : gr_outputs g !! i = Some r -> osl !! i = Some s -> slot_of r = s.
Proof.
  intros Hi Hs. destruct (external_output i r Hi) as [p Hp].
  destruct (slot_cases r p Hp) as [[Hno _]|(i' & Hi' & Hs')].
  - exfalso. apply Hno. by apply list_elem_of_lookup_2 with i.
  - pose proof (NoDup_lookup _ _ _ _ outputs_distinct Hi Hi') as ->. congruence.
Qed.

Lemma osl_not_storage i s a : osl !! i = Some s -> slot_byte s a -> ~ storage_byte a.
Proof. intros Hi. apply (ca_outs Hca i s a). by apply osl_outs. Qed.

Lemma slot_size r p : out_port r p -> sl_size (slot_of r) = pt_payload_size p.
Proof.
  intros Hr. destruct (slot_cases r p Hr) as [[_ ->]|(i & Hi & Hs)].
  - apply (sp_payload _ _ _ (pl_storage Hpl r p Hr)).
  - apply (ca_output Hca i (slot_of r) r p (osl_outs _ _ Hs) Hi (proj1 Hr)).
Qed.

Lemma slot_apart r p : out_port r p -> view_apart (sl_view (slot_of r)) (sl_offset (slot_of r)) (sl_size (slot_of r)).
Proof.
  intros Hr. destruct (slot_cases r p Hr) as [[_ ->]|(i & Hi & Hs)]; [apply (sp_apart _ _ _ (pl_storage Hpl r p Hr))|].
  apply (ow_self _ _ _ _ _ _ _ _ (Hown i _ Hs)).
Qed.

Lemma slot_records r p : out_port r p -> records_ok (vw_metas (sl_view (slot_of r))) (vw_records (sl_view (slot_of r))).
Proof.
  intros Hr. destruct (slot_cases r p Hr) as [[_ ->]|(i & Hi & Hs)]; [apply (sp_records _ _ _ (pl_storage Hpl r p Hr))|].
  by apply (Hfits i _ r p Hs Hi (proj1 Hr)).
Qed.

(** No two outputs share a byte. *)
Lemma slots_apart r r' p p' a : out_port r p -> out_port r' p' -> r <> r' ->
  slot_byte (slot_of r) a -> slot_byte (slot_of r') a -> False.
Proof.
  intros Hr Hr' Hne.
  destruct (slot_cases r p Hr) as [[_ ->]|(i & Hi & Hs)], (slot_cases r' p' Hr') as [[_ ->]|(i' & Hi' & Hs')]; intros H1 H2.
  - by apply (pl_apart Hpl r r' p p' a).
  - apply (osl_not_storage i' _ a Hs' H2). by exists r, p.
  - apply (osl_not_storage i _ a Hs H1). by exists r', p'.
  - apply (owned_pair g w inputs outputs ins osl i i' (slot_of r) (slot_of r') a); try done. intros ->. congruence.
Qed.

Lemma slot_not_table r p a : out_port r p -> slot_byte (slot_of r) a -> ~ in_tables g w a.
Proof.
  intros Hr H1 H2. destruct (slot_cases r p Hr) as [[_ E]|(i & Hi & Hs)].
  - rewrite E in H1. apply (pl_tables Hpl a); [by exists r, p|done].
  - by apply (ow_tables _ _ _ _ _ _ _ _ (Hown i _ Hs) a).
Qed.

(** What a cycle may change. *)
Definition changes (a : Z) : Prop :=
  storage_moves a \/ in_tables g w a \/ exists r p, out_port r p /\ slot_moving (slot_of r) a.
Definition kept (c : cyc) : Prop := same_if (fun a => ~ changes a) m0 (cy_mem c).

Lemma own_kept c : own_storage c -> kept c.
Proof. apply same_if_weaken. intros a Ha Hm. apply Ha. by left. Qed.

Lemma slot_fixed r p a : out_port r p -> fixed (sl_view (slot_of r)) a -> ~ changes a.
Proof.
  intros Hr Hf [Hm|[Ht|(r' & p' & Hr' & Hm)]].
  - destruct (slot_cases r p Hr) as [[_ E]|(i & Hi & Hs)].
    + rewrite E in Hf. by apply (fixed_kept r p a).
    + apply (osl_not_storage i _ a Hs); [by left|by apply moves_storage].
  - by apply (slot_not_table r p a Hr); [left|].
  - destruct (decide (r = r')) as [<-|Hne].
    + by apply (va_fixed _ _ _ (slot_apart r p Hr) a).
    + apply (slots_apart r r' p p' a); try done; [by left|by right].
Qed.

Lemma input_kept j s a : ins !! j = Some (Some s) -> slot_byte s a -> ~ changes a.
Proof.
  intros Hj Ha [Hm|[Ht|(r & p & Hr & Hm)]].
  - apply (proj1 (ca_ins Hca j s a Hj Ha)). by apply moves_storage.
  - by apply (proj2 (ca_ins Hca j s a Hj Ha)).
  - destruct (slot_cases r p Hr) as [[_ E]|(i & Hi & Hs)].
    + rewrite E in Hm. apply (proj1 (ca_ins Hca j s a Hj Ha)). exists r, p. split; [done|]. by right.
    + apply (ow_inputs _ _ _ _ _ _ _ _ (Hown i _ Hs) j s a Hj); [by right|done].
Qed.

Lemma arrays_kept a : in_arrays inputs (zlen ins) outputs (zlen outs) a -> ~ changes a.
Proof.
  intros Ha [Hm|[Ht|(r & p & Hr & Hm)]].
  - apply (proj1 (ca_arrays Hca a Ha)). by apply moves_storage.
  - by apply (proj2 (ca_arrays Hca a Ha)).
  - destruct (slot_cases r p Hr) as [[_ E]|(i & Hi & Hs)].
    + rewrite E in Hm. apply (proj1 (ca_arrays Hca a Ha)). exists r, p. split; [done|]. by right.
    + apply (ow_arrays _ _ _ _ _ _ _ _ (Hown i _ Hs) a); [by right|].
      replace (zlen osl) with (zlen outs) by (rewrite Hosl; unfold zlen; by rewrite List.length_map). done.
Qed.

(** What stays readable. *)
Lemma slot_viewed0 r p : out_port r p -> viewed m0 (sl_view (slot_of r)).
Proof.
  intros Hr. destruct (slot_cases r p Hr) as [[_ ->]|(i & Hi & Hs)]; [apply (sp_viewed _ _ _ (pl_storage Hpl r p Hr))|].
  apply (sd_view _ _ (proj1 (ca_output Hca i (slot_of r) r p (osl_outs _ _ Hs) Hi (proj1 Hr)))).
Qed.

Lemma slot_viewed c r p : kept c -> out_port r p -> viewed (cy_mem c) (sl_view (slot_of r)).
Proof.
  intros Hc Hr. eapply viewed_same; [exact Hc| |by eapply slot_viewed0]. intros a Ha. by apply (slot_fixed r p).
Qed.

Lemma input_slotted c j s r p : kept c -> ins !! j = Some (Some s) -> gr_inputs g !! j = Some r -> port_at g r = Some p ->
  slotted (cy_mem c) s.
Proof.
  intros Hc Hj Hr Hp. eapply slotted_same; [exact Hc| |apply (ca_input Hca j s r p Hj Hr Hp)]. intros a Ha. by apply (input_kept j s).
Qed.

Lemma kept_input c j x : kept c -> ins !! j = Some x -> pointer_at (cy_mem c) inputs (Z.of_nat j) = Ret (pointer_of x).
Proof.
  intros Hc Hj. rewrite <- (proj2 (ca_inputs Hca) j x Hj). pose proof (lookup_lt_Some _ _ _ Hj).
  apply (pointer_same _ _ _ _ (zlen ins) _ Hc); [unfold zlen; lia|]. intros a Ha. apply arrays_kept. by left.
Qed.
Lemma kept_output c i s : kept c -> osl !! i = Some s -> pointer_at (cy_mem c) outputs (Z.of_nat i) = Ret (vw_at (sl_view s)).
Proof.
  intros Hc Hi%osl_outs. change (vw_at (sl_view s)) with (pointer_of (Some s)). rewrite <- (proj2 (ca_outputs Hca) i _ Hi). pose proof (lookup_lt_Some _ _ _ Hi).
  apply (pointer_same _ _ _ _ (zlen outs) _ Hc); [unfold zlen; lia|]. intros a Ha. apply arrays_kept. by right.
Qed.

(** ** The outputs take the buffers of the caller *)

(** An output that nothing was written to. *)
Definition empty (m : mem) (r : port_ref) : Prop :=
  chunk_offset m (vw_chunk (sl_view (slot_of r))) = Ret (sl_offset (slot_of r)) /\
  chunk_size m (vw_chunk (sl_view (slot_of r))) = Ret 0.
Definition assigned (c : cyc) (r : port_ref) : Prop :=
  buffer_of c r = vw_at (sl_view (slot_of r)) /\ offset_of c r = sl_offset (slot_of r).

(** Bytes that move for an output only. *)
Lemma slot_touched r p m m' : out_port r p -> same_if (fun a => ~ slot_moving (slot_of r) a) m m' ->
  same_if (fun a => ~ changes a) m m' /\
  forall r' p', out_port r' p' -> r' <> r ->
    chunk_offset m' (vw_chunk (sl_view (slot_of r'))) = chunk_offset m (vw_chunk (sl_view (slot_of r'))) /\
    chunk_size m' (vw_chunk (sl_view (slot_of r'))) = chunk_size m (vw_chunk (sl_view (slot_of r'))).
Proof.
  intros Hr S. split.
  - eapply same_if_weaken; [|exact S]. intros a Ha Hm. apply Ha. right. right. by exists r, p.
  - intros r' p' Hr' Hne. eapply chunk_same; [exact S|]. intros a Ha Hm.
    apply (slots_apart r' r p' p a); try done; [right; by left|by right].
Qed.

Lemma kept_moved r p c m' : out_port r p -> kept c -> same_if (fun a => ~ slot_moving (slot_of r) a) (cy_mem c) m' -> kept (set_mem m' c).
Proof. intros Hr Hc S. eapply same_if_trans; [exact Hc|]. by apply (slot_touched r p). Qed.

Lemma take_output_wp i r p (c : cyc) E : gr_outputs g !! i = Some r -> out_port r p -> kept c ->
  chunk_offset (cy_mem c) (vw_chunk (sl_view (slot_of r))) = Ret (sl_offset (slot_of r)) ->
  st_wp (take_output g outputs (Z.of_nat i)) (fun _ c' => exists m', same_if (fun a => ~ slot_moving (slot_of r) a) (cy_mem c) m' /\
    empty m' r /\ c' = set_offset r (sl_offset (slot_of r)) (set_buffer r (vw_at (sl_view (slot_of r))) (set_mem m' c))) E c.
Proof.
  intros Hi Hr Hc Hoff. set (s := slot_of r) in *.
  assert (osl !! i = Some s) as Hs.
  { destruct (lookup_lt_is_Some_2 osl i) as [s' Hs']; [rewrite osl_length; by eapply lookup_lt_Some|].
    unfold s. by rewrite (slot_external i r s' Hi Hs'). }
  pose proof (slot_viewed c r p Hc Hr) as Hv. fold s in Hv. pose proof (slot_apart r p Hr) as Hap. fold s in Hap.
  assert (forall m m', same_if (fun a => ~ slot_moving s a) m m' -> viewed m (sl_view s) -> viewed m' (sl_view s)) as Hkeep.
  { intros m m' S Hvm. eapply viewed_same; [exact S| |exact Hvm]. intros a Hf Hm. by apply (va_fixed _ _ _ Hap a). }
  unfold take_output, the_external. apply st_wp_bind, reads_wp. rewrite (kept_output c i s Hc Hs). cbn [o_wp].
  apply st_wp_bind, reads_wp. unfold buffer_chunk. rewrite (vd_datas _ _ Hv). cbn [obind]. rewrite (vd_chunk _ _ Hv). cbn [o_wp].
  apply st_wp_bind. apply (store_chunk_wp s 4 0); [done|done|lia|lia|lia|]. intros m1 S1 E1.
  assert (same_if (fun a => ~ slot_moving s a) (cy_mem c) m1) as T1.
  { eapply same_if_weaken; [|exact S1]. intros a Ha Hb. apply Ha. apply (chunk_moves s 4 4); lia. }
  apply st_wp_bind. apply (store_chunk_wp s 12 0); [done|cbn; by apply (Hkeep (cy_mem c))|lia|lia|lia|]. intros m2 S2 _. cbn [cy_mem set_mem] in S2.
  assert (same_if (fun a => ~ slot_moving s a) m1 m2) as T2.
  { eapply same_if_weaken; [|exact S2]. intros a Ha Hb. apply Ha. apply (chunk_moves s 12 4); lia. }
  assert (viewed m2 (sl_view s)) as Hv2 by (apply (Hkeep m1); [done|by apply (Hkeep (cy_mem c))]).
  apply st_wp_bind, reads_wp. cbn [cy_mem set_mem]. rewrite (vd_n_metas _ _ Hv2). cbn [o_wp].
  apply st_wp_bind, reads_wp. cbn [cy_mem set_mem]. rewrite (vd_metas _ _ Hv2). cbn [o_wp].
  apply st_wp_bind. apply (init_records_wp (sl_view s) _ _ Hap (slot_records r p Hr) (fun ok : bool => if ok then st_ret tt else st_err EINVAL)); [done|done|].
  intros m3 S3. cbn [cy_mem set_mem] in S3.
  assert (same_if (fun a => ~ slot_moving s a) m2 m3) as T3.
  { eapply same_if_weaken; [|exact S3]. intros a Ha Hb. apply Ha. by right; right. }
  destruct (chunk_same _ _ _ (sl_view s) S3) as [Eo Es].
  { intros a Ha Hb. apply (va_chunk _ _ _ Hap a Ha). by right. }
  assert (chunk_offset m2 (vw_chunk (sl_view s)) = Ret (sl_offset s)) as Eo2.
  { rewrite <- Hoff. unfold chunk_offset. transitivity (load_u32 m1 (vw_chunk (sl_view s))).
    - eapply same_if_u32; [exact S2|]. intros a Ha Hb. lia.
    - eapply same_if_u32; [exact S1|]. intros a Ha Hb. lia. }
  assert (chunk_size m2 (vw_chunk (sl_view s)) = Ret 0) as Es2.
  { rewrite <- E1. unfold chunk_size. eapply same_if_u32; [exact S2|]. intros a Ha Hb. lia. }
  apply st_wp_bind, st_wp_lift. rewrite Nat2Z.id, Hi. cbn [o_wp].
  apply st_wp_bind, reads_wp. cbn [cy_mem set_mem]. rewrite Eo, Eo2. cbn [o_wp].
  apply st_wp_bind, st_wp_modify, st_wp_modify. exists m3. split; [|split; [|done]].
  - eapply same_if_trans; [exact T1|by eapply same_if_trans].
  - split; fold s; congruence.
Qed.

(** The state before the nodes run. *)
Record wired (c : cyc) : Prop := {
  wi_output : forall r p, out_port r p -> assigned c r;
  wi_input : forall j x r, ins !! j = Some x -> gr_inputs g !! j = Some r -> buffer_of c r = pointer_of x;
  wi_other : forall r p, in_port r p -> r ∉ gr_inputs g -> buffer_of c r = 0 }.
Record begun (c : cyc) : Prop := {
  bg_kept : kept c;
  bg_wired : wired c;
  bg_empty : forall r p, out_port r p -> empty (cy_mem c) r;
  bg_runs : cy_runs c = [] }.

Lemma in_out r p r' p' : in_port r p -> out_port r' p' -> r <> r'.
Proof. intros [H1 H2] [H3 H4] ->. congruence. Qed.

Lemma take_outputs_wp (c : cyc) E : inputs_taken c ->
  (forall i s r p, osl !! i = Some s -> gr_outputs g !! i = Some r -> port_at g r = Some p ->
     chunk_offset (cy_mem c) (vw_chunk (sl_view s)) = Ret (sl_offset s)) ->
  st_wp (st_count (zlen (gr_outputs g)) (take_output g outputs)) (fun _ => begun) E c.
Proof.
  intros [Hmem Hruns Hin Hother] Hoffs.
  eapply st_wp_mono; [apply (st_count_wp _ _ (fun i c' => kept c' /\ cy_runs c' = [] /\
    (forall r p, in_port r p -> buffer_of c' r = buffer_of c r) /\
    (forall r p, out_port r p -> chunk_offset (cy_mem c') (vw_chunk (sl_view (slot_of r))) = Ret (sl_offset (slot_of r))) /\
    (forall r p, out_port r p -> (forall j, i <= Z.of_nat j -> gr_outputs g !! j <> Some r) -> assigned c' r /\ empty (cy_mem c') r)))| |].
  - apply zlen_nonneg.
  - intros i c' Hi (Hk & Hr' & Hb & Ho & Hd).
    destruct (output_at (Z.to_nat i)) as (r & p & x & Hj & Hp & _); [unfold zlen in Hi; lia|].
    rewrite <- (Z2Nat.id i) at 1 by lia. eapply st_wp_mono; [apply (take_output_wp _ r p c'); try done; by eapply Ho| |done].
    intros [] c2 (m' & S & Hemp & ->). destruct (slot_touched r p _ m' Hp S) as [Sk Soth].
    split; [|split; [done|split; [|split]]].
    + by apply (kept_moved r p c' m').
    + intros r' p' Hp'. rewrite buffer_of_set_offset, buffer_of_set, decide_False; [by apply (Hb r' p')|].
      intros <-. by apply (in_out r p' r p).
    + intros r' p' Hp'. cbn [cy_mem set_mem set_buffer set_offset]. destruct (decide (r' = r)) as [->|Hne]; [apply Hemp|].
      destruct (Soth r' p' Hp' Hne) as [-> _]. by eapply Ho.
    + intros r' p' Hp' Hno. cbn [cy_mem set_mem set_buffer set_offset]. destruct (decide (r' = r)) as [->|Hne].
      * split; [|done]. split; [by rewrite buffer_of_set_offset, buffer_of_set, decide_True|by rewrite offset_of_set, decide_True].
      * destruct (Hd r' p' Hp') as [[A1 A2] [E1 E2]].
        { intros j Hlt. destruct (decide (Z.of_nat j = i)) as [<-|]; [|apply Hno; lia]. rewrite Nat2Z.id in Hj. congruence. }
        split; [split; [by rewrite buffer_of_set_offset, buffer_of_set, decide_False|by rewrite offset_of_set, offset_of_set_buffer, decide_False]|].
        unfold empty. destruct (Soth r' p' Hp' Hne) as [-> ->]. done.
  - split; [by apply own_kept|]. split; [done|]. split; [done|].
    assert (forall r p, out_port r p -> r ∉ gr_outputs g -> assigned c r /\ empty (cy_mem c) r) as Hint.
    { intros r p Hp Hno. destruct (slot_cases r p Hp) as [[_ E1]|(i & Hi & _)]; [|exfalso; apply Hno; by apply list_elem_of_lookup_2 with i].
      assert (r ∉ gr_inputs g) as Hni.
      { intros [j Hj]%list_elem_of_lookup. destruct (external_input j r Hj) as (p' & Hp' & _). by apply (in_out r p' r p). }
      specialize (Hother r p (proj1 Hp) Hni). unfold reset in Hother. rewrite (proj2 Hp) in Hother. destruct Hother as (H1 & H2 & H3 & H4).
      destruct (sp_payload _ _ _ (pl_storage Hpl r p Hp)) as [Hz _]. unfold assigned, empty. rewrite E1, Hz. done. }
    split.
    + intros r p Hp. destruct (slot_cases r p Hp) as [[Hno _]|(i & Hi & Hs)]; [apply (Hint r p Hp Hno)|].
      apply (Hoffs i _ r p Hs Hi (proj1 Hp)).
    + intros r p Hp Hno. apply (Hint r p Hp). intros [j Hj]%list_elem_of_lookup. by apply (Hno j); [lia|].
  - intros [] c' (Hk & Hr' & Hb & Ho & Hd).
    assert (forall r p, out_port r p -> assigned c' r /\ empty (cy_mem c') r) as Hall.
    { intros r p Hp. apply (Hd r p Hp). intros j Hlt Hj. apply lookup_lt_Some in Hj. unfold zlen in Hlt. lia. }
    split; [done| |intros r p Hp; by apply (Hall r p)|done].
    split; [intros r p Hp; by apply (Hall r p)| |].
    + intros j x r Hx Hj. destruct (external_input j r Hj) as (p & Hp & _). rewrite (Hb r p Hp). by apply (Hin j x r p Hx Hj (proj1 Hp)).
    + intros r p Hp Hno. rewrite (Hb r p Hp). specialize (Hother r p (proj1 Hp) Hno). unfold reset in Hother. by rewrite (proj2 Hp) in Hother.
  - done.
Qed.

(** ** What a node is given *)

(** The buffer an input reads: the one of its source when something was written
    to it, or the one of the caller. *)
Definition written (m : mem) (o : port_ref) : bool :=
  match chunk_size m (vw_chunk (sl_view (slot_of o))) with Ret z => negb (z =? 0) | _ => false end.
Definition input_of (m : mem) (r : port_ref) (p : fgn_port) : option slot :=
  match pt_source p with
  | Some o => if written m o then Some (slot_of o) else None
  | None => match find_pos (fun x => bool_decide (x = r)) (gr_inputs g) with Some j => default None (ins !! j) | None => None end
  end.

Lemma source_port r p o : in_port r p -> pt_source p = Some o -> (o, r) ∈ gr_links g /\ exists q, out_port o q.
Proof.
  intros [Hp _] Ho. assert ((o, r) ∈ gr_links g) as Hl by (by apply (pw_source _ _ _ (wf_port _ (rd_wf _ Hg) r p Hp))).
  split; [done|]. destruct (wf_link _ (rd_wf _ Hg) o r Hl) as (q & p' & Hq & _ & Hj). exists q. split; [done|].
  unfold is_input. rewrite (jo_output _ _ Hj). done.
Qed.

Lemma slot_nonzero r p : out_port r p -> vw_at (sl_view (slot_of r)) <> 0.
Proof.
  intros Hr. destruct (slot_cases r p Hr) as [[_ ->]|(i & Hi & Hs)].
  - destruct (sp_at _ _ _ (pl_storage Hpl r p Hr)) as [-> ?]. done.
  - apply (ca_output Hca i (slot_of r) r p (osl_outs _ _ Hs) Hi (proj1 Hr)).
Qed.

(** Where a buffer an input reads comes from. *)
Lemma input_cases m r p s : in_port r p -> input_of m r p = Some s ->
  (exists o q, pt_source p = Some o /\ out_port o q /\ s = slot_of o) \/
  (exists j, pt_source p = None /\ gr_inputs g !! j = Some r /\ ins !! j = Some (Some s)).
Proof.
  intros Hp. unfold input_of. destruct (pt_source p) as [o|] eqn:Eo.
  - destruct (written m o); [|done]. intros [= <-]. destruct (source_port r p o Hp Eo) as (_ & q & Hq). left. by exists o, q.
  - destruct (find_pos _ (gr_inputs g)) as [j|] eqn:E; [|done]. apply find_pos_some in E as (x & Hx & ->%bool_decide_eq_true).
    destruct (ins !! j) as [y|] eqn:Ej; cbn; [|done]. intros ->. right. by exists j.
Qed.

Lemma input_pointer m r p : in_port r p -> pointer_of (input_of m r p) = 0 -> input_of m r p = None.
Proof.
  intros Hp. destruct (input_of m r p) as [s|] eqn:E; [|done]. cbn. intros H0. exfalso.
  destruct (input_cases m r p s Hp E) as [(o & q & _ & Hq & ->)|(j & _ & Hj & Hs)].
  - by apply (slot_nonzero o q Hq).
  - by destruct (ca_input Hca j s r p Hs Hj (proj1 Hp)) as (_ & ? & _).
Qed.

Lemma input_viewed c r p s : kept c -> in_port r p -> input_of (cy_mem c) r p = Some s -> viewed (cy_mem c) (sl_view s).
Proof.
  intros Hc Hp E. destruct (input_cases _ r p s Hp E) as [(o & q & _ & Hq & ->)|(j & _ & Hj & Hs)].
  - by eapply slot_viewed.
  - apply (sd_view _ _ (input_slotted c j s r p Hc Hs Hj (proj1 Hp))).
Qed.

(** An input and the outputs of another node share nothing. *)
Lemma input_apart m r p s r' p' a : in_port r p -> input_of m r p = Some s -> out_port r' p' -> pt_source p <> Some r' ->
  slot_byte s a -> slot_byte (slot_of r') a -> False.
Proof.
  intros Hp E Hr' Hne H1 H2. destruct (input_cases m r p s Hp E) as [(o & q & Eo & Hq & ->)|(j & _ & Hj & Hs)].
  - apply (slots_apart o r' q p' a); try done. intros ->. done.
  - destruct (slot_cases r' p' Hr') as [[_ E']|(i & Hi & Hs')].
    + rewrite E' in H2. apply (proj1 (ca_ins Hca j s a Hs H1)). by exists r', p'.
    + by apply (ow_inputs _ _ _ _ _ _ _ _ (Hown i _ Hs') j s a Hs).
Qed.

Lemma written_same Q m m' o : same_if Q m m' -> (forall a, chunk_byte (sl_view (slot_of o)) a -> Q a) -> written m' o = written m o.
Proof. intros S HQ. unfold written. by destruct (chunk_same Q m m' _ S HQ) as [_ ->]. Qed.

Lemma input_same Q m m' r p : same_if Q m m' ->
  (forall o a, pt_source p = Some o -> chunk_byte (sl_view (slot_of o)) a -> Q a) -> input_of m' r p = input_of m r p.
Proof.
  intros S HQ. unfold input_of. destruct (pt_source p) as [o|] eqn:Eo; [|done].
  rewrite (written_same Q m m' o S); [done|]. intros a Ha. by apply (HQ o a).
Qed.

Lemma input_buffer_wp r p (c : cyc) E : kept c -> wired c -> in_port r p ->
  st_wp (input_buffer r p) (fun b c' => c' = c /\ b = pointer_of (input_of (cy_mem c) r p)) E c.
Proof.
  intros Hc Hw Hp. unfold input_buffer, input_of. destruct (pt_source p) as [o|] eqn:Eo.
  - destruct (source_port r p o Hp Eo) as (_ & q & Hq). apply st_wp_bind, st_wp_get.
    destruct (wi_output _ Hw o q Hq) as [-> _].
    destruct (Z.eqb_spec (vw_at (sl_view (slot_of o))) 0) as [H0|_]; [by apply slot_nonzero in Hq|].
    pose proof (slot_viewed c o q Hc Hq) as Hv. pose proof (load_u64_inv _ _ _ (vd_chunk _ _ Hv)) as (_ & _ & Hch). unfold is_u64 in Hch.
    pose proof (vd_chunk_in _ _ Hv). apply st_wp_bind, reads_wp. unfold buffer_chunk. rewrite (vd_datas _ _ Hv). cbn [obind]. rewrite (vd_chunk _ _ Hv). cbn [obind].
    unfold written, chunk_size. destruct (load_u32_ok (cy_mem c) (vw_chunk (sl_view (slot_of o)) + 4)) as (z & -> & _); [lia..|].
    cbn [o_wp]. split; [done|]. by destruct (z =? 0).
  - apply st_wp_bind, st_wp_get. split; [done|]. destruct (find_pos _ (gr_inputs g)) as [j|] eqn:E'.
    + apply find_pos_some in E' as (x & Hx & ->%bool_decide_eq_true).
      destruct (lookup_lt_is_Some_2 ins j) as [y Hy]; [rewrite (proj1 (ca_inputs Hca)); by eapply lookup_lt_Some|].
      rewrite Hy. cbn. by apply (wi_input _ Hw j y r).
    + cbn. apply (wi_other _ Hw r p Hp). intros Hin. apply find_pos_none in E'. rewrite list.Forall_forall in E'.
      specialize (E' r Hin). by apply bool_decide_eq_false in E'.
Qed.

(** ** The tables of a node *)

Lemma store_entry_wp table j b f (Q : unit -> cyc -> Prop) E c : 0 <= table + j * 16 -> table + j * 16 + 16 <= zlen (cy_mem c) -> is_u64 b ->
  (forall m', same_if (fun a => ~ (table + j * 16 <= a < table + j * 16 + 16)) (cy_mem c) m' ->
     load_u64 m' (table + j * 16) = Ret b -> Q tt (set_mem m' c)) -> st_wp (store_entry table j b f) Q E c.
Proof.
  intros H0 H1 Hb HQ. unfold store_entry.
  assert (zlen (le64 b ++ le64 f) = 16) as Hz by (by rewrite zlen_app, !zlen_le64).
  apply store_wp; [done|lia|]. intros m' Hm'. apply HQ.
  - eapply store_same; [exact Hm'|]. rewrite Hz. intros i Hi Hno. by apply Hno.
  - apply holds_store, holds_app_l in Hm'. rewrite (holds_u64 _ _ _ Hm'). unfold is_u64 in Hb. by rewrite wrap_small.
Qed.

Lemma pointer_u64 c r p : kept c -> in_port r p -> is_u64 (pointer_of (input_of (cy_mem c) r p)).
Proof.
  intros Hc Hp. destruct (input_of (cy_mem c) r p) as [s|] eqn:E; [|done]. cbn.
  pose proof (load_u32_inv _ _ _ (vd_n_metas _ _ (input_viewed c r p s Hc Hp E))) as (? & ? & _).
  pose proof (pl_size Hpl). pose proof (zlen_kept _ c Hc). unfold is_u64. lia.
Qed.
Lemma slot_u64 c r p : kept c -> out_port r p -> is_u64 (vw_at (sl_view (slot_of r))).
Proof.
  intros Hc Hp. pose proof (load_u32_inv _ _ _ (vd_n_metas _ _ (slot_viewed c r p Hc Hp))) as (? & ? & _).
  pose proof (pl_size Hpl). pose proof (zlen_kept _ c Hc). unfold is_u64. lia.
Qed.

Definition optional (p : fgn_port) : bool := has (pi_flags (pt_info p)) SPA_FGN_PORT_FLAG_OPTIONAL.

(** A required input has its buffer. *)
Definition ready_port (m : mem) (k j : nat) : bool :=
  match port_at g (k, j) with Some p => negb (is_none (input_of m (k, j) p) && negb (optional p)) | None => true end.

Lemma table_kept k n (c : cyc) m' : gr_nodes g !! k = Some n -> kept c ->
  same_if (fun a => ~ (table_inputs k n a \/ table_outputs k n a)) (cy_mem c) m' -> kept (set_mem m' c).
Proof.
  intros Hk Hc S. eapply same_if_trans; [exact Hc|]. eapply same_if_weaken; [|exact S].
  intros a Ha Ht. apply Ha. right. left. by exists k, n.
Qed.

Lemma table_not_slot k n r p a : gr_nodes g !! k = Some n -> out_port r p -> slot_byte (slot_of r) a ->
  ~ (table_inputs k n a \/ table_outputs k n a).
Proof. intros Hk Hr Ha Ht. apply (slot_not_table r p a Hr Ha). by exists k, n. Qed.

Lemma gather_inputs_wp k n js : gr_nodes g !! k = Some n -> forall pre ready (c : cyc) E, nd_inputs n = pre ++ js -> kept c -> wired c ->
  st_wp (gather_inputs g w k (zlen pre) js ready) (fun b c' => exists m', c' = set_mem m' c /\
    same_if (fun a => ~ (at_process_inputs w k + zlen pre * 16 <= a < at_process_inputs w k + (zlen pre + zlen js) * 16)) (cy_mem c) m' /\
    b = ready && forallb (ready_port (cy_mem c) k) js /\
    forall i j p, js !! i = Some j -> port_at g (k, j) = Some p ->
      load_u64 m' (at_process_inputs w k + (zlen pre + Z.of_nat i) * 16) = Ret (pointer_of (input_of (cy_mem c) (k, j) p))) E c.
Proof.
  intros Hk. induction js as [|j js IH]; intros pre ready c E Hn Hc Hw; cbn [gather_inputs forallb].
  { exists (cy_mem c). split; [by destruct c|]. split; [apply same_if_refl|]. split; [by rewrite andb_true_r|]. done. }
  assert (j ∈ nd_inputs n) as Hj by (rewrite Hn; set_solver). apply (node_inputs k n j Hk) in Hj as [p Hp].
  pose proof (zlen_nonneg pre). pose proof (zlen_nonneg js).
  assert (zlen (nd_inputs n) = zlen pre + 1 + zlen js) as Hlen by (rewrite Hn, zlen_app, zlen_cons; lia).
  destruct (pl_tables_in Hpl k n Hk) as [[Ht0 Ht1] _]. pose proof (zlen_kept _ c Hc).
  unfold the_port. apply st_wp_bind, st_wp_lift. rewrite (proj1 Hp). cbn [o_wp].
  apply st_wp_bind. eapply st_wp_mono; [by apply input_buffer_wp| |done]. intros b ? [-> Hb].
  apply st_wp_bind. apply store_entry_wp; [lia|lia|rewrite Hb; by apply pointer_u64|]. intros m1 S1 E1.
  assert (same_if (fun a => ~ (table_inputs k n a \/ table_outputs k n a)) (cy_mem c) m1) as T1.
  { eapply same_if_weaken; [|exact S1]. intros a Ha Hb'. apply Ha. left. unfold table_inputs. lia. }
  replace (zlen pre + 1) with (zlen (pre ++ [j])) by (by rewrite zlen_app, zlen_cons, zlen_nil; lia).
  assert (forall j' p', in_port (k, j') p' -> input_of m1 (k, j') p' = input_of (cy_mem c) (k, j') p') as Hsame.
  { intros j' p' Hp'. eapply input_same; [exact T1|]. intros o a Ho Ha. destruct (source_port _ _ _ Hp' Ho) as (_ & q & Hq).
    apply (table_not_slot k n o q a Hk Hq). right. by left. }
  eapply st_wp_mono; [apply (IH (pre ++ [j])); [by rewrite <- app_assoc|by apply (table_kept k n)|by destruct Hw]| |done].
  intros b' c' (m' & -> & S2 & -> & Hload). rewrite zlen_app, zlen_cons, zlen_nil in S2, Hload. cbn [cy_mem set_mem] in *.
  assert (forall i' j', js !! i' = Some j' -> exists p', in_port (k, j') p') as Hin.
  { intros i' j' Hi'. apply (node_inputs k n j' Hk). rewrite Hn. apply elem_of_app. right. right. by apply list_elem_of_lookup_2 with i'. }
  exists m'. split; [done|]. rewrite zlen_cons. split; [|split].
  - eapply same_if_trans; [eapply same_if_weaken; [|exact S1]|eapply same_if_weaken; [|exact S2]]; intros a Ha Hb'; apply Ha; lia.
  - rewrite <- andb_assoc. f_equal. f_equal.
    + unfold ready_port. rewrite (proj1 Hp). fold (optional p). f_equal. f_equal. subst b.
      destruct (input_of (cy_mem c) (k, j) p) as [s|] eqn:Es; cbn [is_none pointer_of]; [|done].
      apply Z.eqb_neq. intros Hz0. pose proof (input_pointer (cy_mem c) (k, j) p Hp) as Hx. rewrite Es in Hx. by specialize (Hx Hz0).
    + clear -Hin Hsame. induction js as [|j' js IH]; [done|]. cbn [forallb]. f_equal.
      * destruct (Hin 0%nat j' eq_refl) as [p' Hp']. unfold ready_port. rewrite (proj1 Hp'). by rewrite Hsame.
      * apply IH. intros i' j'' Hi'. by apply (Hin (S i')).
  - intros [|i'] j' p'; cbn [lookup list_lookup].
    + intros [= <-] Hp'. rewrite (proj1 Hp) in Hp'. injection Hp' as <-. rewrite Z.add_0_r, <- Hb, <- E1.
      eapply same_if_u64; [exact S2|]. intros a Ha Hb'. lia.
    + intros Hi' Hp'. destruct (Hin i' j' Hi') as [p'' Hp'']. rewrite (proj1 Hp'') in Hp'. injection Hp' as <-.
      rewrite <- (Hsame j' p'' Hp''), <- (Hload i' j' p'' Hi' (proj1 Hp'')). f_equal. lia.
Qed.

Lemma gather_outputs_wp k n js : gr_nodes g !! k = Some n -> forall pre (c : cyc) E, nd_outputs n = pre ++ js -> kept c -> wired c ->
  st_wp (gather_outputs w k (zlen pre) js) (fun _ c' => exists m', c' = set_mem m' c /\
    same_if (fun a => ~ (at_process_outputs w k + zlen pre * 16 <= a < at_process_outputs w k + (zlen pre + zlen js) * 16)) (cy_mem c) m' /\
    forall i j, js !! i = Some j ->
      load_u64 m' (at_process_outputs w k + (zlen pre + Z.of_nat i) * 16) = Ret (vw_at (sl_view (slot_of (k, j))))) E c.
Proof.
  intros Hk. induction js as [|j js IH]; intros pre c E Hn Hc Hw; cbn [gather_outputs].
  { exists (cy_mem c). split; [by destruct c|]. split; [apply same_if_refl|]. done. }
  assert (j ∈ nd_outputs n) as Hj by (rewrite Hn; set_solver). apply (node_outputs k n j Hk) in Hj as [p Hp].
  pose proof (zlen_nonneg pre). pose proof (zlen_nonneg js).
  assert (zlen (nd_outputs n) = zlen pre + 1 + zlen js) as Hlen by (rewrite Hn, zlen_app, zlen_cons; lia).
  destruct (pl_tables_in Hpl k n Hk) as [_ [Ht0 Ht1]]. pose proof (zlen_kept _ c Hc).
  apply st_wp_bind, st_wp_get. destruct (wi_output _ Hw (k, j) p Hp) as [-> _].
  apply st_wp_bind. apply store_entry_wp; [lia|lia|by eapply slot_u64|]. intros m1 S1 E1.
  assert (same_if (fun a => ~ (table_inputs k n a \/ table_outputs k n a)) (cy_mem c) m1) as T1.
  { eapply same_if_weaken; [|exact S1]. intros a Ha Hb'. apply Ha. right. unfold table_outputs. lia. }
  replace (zlen pre + 1) with (zlen (pre ++ [j])) by (by rewrite zlen_app, zlen_cons, zlen_nil; lia).
  eapply st_wp_mono; [apply (IH (pre ++ [j])); [by rewrite <- app_assoc|by apply (table_kept k n)|by destruct Hw]| |done].
  intros [] c' (m' & -> & S2 & Hload). rewrite zlen_app, zlen_cons, zlen_nil in S2, Hload. cbn [cy_mem set_mem] in *.
  exists m'. split; [done|]. rewrite zlen_cons. split.
  - eapply same_if_trans; [eapply same_if_weaken; [|exact S1]|eapply same_if_weaken; [|exact S2]]; intros a Ha Hb'; apply Ha; lia.
  - intros [|i'] j'; cbn [lookup list_lookup].
    + intros [= <-]. rewrite Z.add_0_r, <- E1. eapply same_if_u64; [exact S2|]. intros a Ha Hb'. lia.
    + intros Hi'. rewrite <- (Hload i' j' Hi'). f_equal. lia.
Qed.

(** ** The contract of the plugins *)

(** What a node is called with: the tables lead to the buffers, every input is
    complete and inside its data, every output is empty, and an output shares no
    byte with an input or with another output. *)
Record contract (k : nat) (n : fgn_node) (m : mem) (xs : list (option slot)) (ss : list slot) : Prop := {
  ct_inputs : List.length xs = List.length (nd_inputs n);
  ct_input : forall i x j p, xs !! i = Some x -> nd_inputs n !! i = Some j -> port_at g (k, j) = Some p ->
    load_u64 m (at_process_inputs w k + Z.of_nat i * 16) = Ret (pointer_of x) /\
    match x with
    | Some s => viewed m (sl_view s) /\ fits m (sl_view s) p (sl_offset s) /\ filled m (sl_view s) p (sl_offset s)
    | None => optional p = true
    end;
  ct_outputs : List.length ss = List.length (nd_outputs n);
  ct_output : forall i s j p, ss !! i = Some s -> nd_outputs n !! i = Some j -> port_at g (k, j) = Some p ->
    load_u64 m (at_process_outputs w k + Z.of_nat i * 16) = Ret (vw_at (sl_view s)) /\
    slotted m s /\ chunk_size m (vw_chunk (sl_view s)) = Ret 0 /\ sl_size s = pt_payload_size p /\
    view_apart (sl_view s) (sl_offset s) (sl_size s);
  ct_apart : forall i j s t a, i <> j -> ss !! i = Some s -> ss !! j = Some t -> slot_byte s a -> slot_byte t a -> False;
  ct_inputs_apart : forall s t a, Some s ∈ xs -> t ∈ ss -> slot_byte s a -> slot_byte t a -> False }.

(** Called in this way, the plugins write nothing but the chunks, the payloads
    and the records of their outputs. *)
Definition confined : Prop := forall k n x m xs ss, gr_nodes g !! k = Some n -> contract k n m xs ss ->
  same_if (fun a => forall s, s ∈ ss -> ~ slot_moving s a) m
    (process k (at_process_inputs w k) (zlen (nd_inputs n)) (at_process_outputs w k) (zlen (nd_outputs n)) (x, m)).2.2.

(** ** The checks of the inputs of a node *)

Definition gathered (k : nat) (n : fgn_node) (m : mem) : Prop :=
  forall i j p, nd_inputs n !! i = Some j -> port_at g (k, j) = Some p ->
    load_u64 m (at_process_inputs w k + Z.of_nat i * 16) = Ret (pointer_of (input_of m (k, j) p)).

Lemma middle_lookup {A} (l pre post : list A) x : l = pre ++ x :: post -> l !! List.length pre = Some x.
Proof. intros ->. by apply list_lookup_middle. Qed.

Lemma validate_inputs_wp k n js : gr_nodes g !! k = Some n -> forall pre (c : cyc) (E : cyc -> Prop),
  nd_inputs n = pre ++ js -> kept c -> gathered k n (cy_mem c) -> E c ->
  st_wp (validate_inputs g w k (zlen pre) js) (fun _ c' => c' = c /\
    forall j p s, j ∈ js -> port_at g (k, j) = Some p -> input_of (cy_mem c) (k, j) p = Some s ->
      exists off, fits (cy_mem c) (sl_view s) p off /\ filled (cy_mem c) (sl_view s) p off) E c.
Proof.
  intros Hk. induction js as [|j js IH]; intros pre c E Hn Hc Hgat HE; cbn [validate_inputs].
  { split; [done|]. by intros j p s ?%elem_of_nil. }
  assert (j ∈ nd_inputs n) as Hj by (rewrite Hn; set_solver). apply (node_inputs k n j Hk) in Hj as [p Hp].
  pose proof (Hgat (List.length pre) j p (middle_lookup _ pre js j Hn) (proj1 Hp)) as Hload.
  apply st_wp_bind, reads_wp. change (Z.of_nat (List.length pre)) with (zlen pre) in Hload. rewrite Hload. cbn [o_wp].
  unfold the_port. apply st_wp_bind, st_wp_lift. rewrite (proj1 Hp). cbn [o_wp].
  assert (st_wp (validate_inputs g w k (zlen pre + 1) js) (fun _ c' => c' = c /\
    forall j p s, j ∈ js -> port_at g (k, j) = Some p -> input_of (cy_mem c) (k, j) p = Some s ->
      exists off, fits (cy_mem c) (sl_view s) p off /\ filled (cy_mem c) (sl_view s) p off) E c) as Hrest.
  { replace (zlen pre + 1) with (zlen (pre ++ [j])) by (by rewrite zlen_app, zlen_cons, zlen_nil; lia).
    apply IH; try done. by rewrite <- app_assoc. }
  apply st_wp_bind. destruct (Z.eqb_spec (pointer_of (input_of (cy_mem c) (k, j) p)) 0) as [Hz|Hz].
  - change (st_wp (validate_inputs g w k (zlen pre + 1) js) (fun _ c' => c' = c /\
      forall j0 p0 s, j0 ∈ j :: js -> port_at g (k, j0) = Some p0 -> input_of (cy_mem c) (k, j0) p0 = Some s ->
      exists off, fits (cy_mem c) (sl_view s) p0 off /\ filled (cy_mem c) (sl_view s) p0 off) E c).
    eapply st_wp_mono; [exact Hrest| |done]. intros [] c' [-> Hall]. split; [done|].
    intros j' p' s [->|Hj']%elem_of_cons Hp' Hs; [|by eapply Hall].
    rewrite (proj1 Hp) in Hp'. injection Hp' as <-. apply (input_pointer _ _ _ Hp) in Hz. congruence.
  - destruct (input_of (cy_mem c) (k, j) p) as [s|] eqn:Es; [|done]. cbn [pointer_of] in *.
    pose proof (payload_nonneg (k, j) p (proj1 Hp)).
    apply reads_wp. eapply o_wp_mono; [apply validate_viewed; [rewrite (zlen_kept _ c Hc); apply (pl_size Hpl)|lia|by eapply input_viewed]| |done].
    intros [] (_ & off & Hf & Hfill). eapply st_wp_mono; [exact Hrest| |done]. intros [] c' [-> Hall]. split; [done|].
    intros j' p' s' [->|Hj']%elem_of_cons Hp' Hs; [|by eapply Hall].
    rewrite (proj1 Hp) in Hp'. injection Hp' as <-. rewrite Es in Hs. injection Hs as <-. exists off. split; [done|]. by apply Hfill.
Qed.

Lemma records_reads m v q n : zlen m < 2 ^ 63 -> viewed m v -> 0 <= q -> 0 <= n -> q + n * 16 <= zlen m ->
  exists b, records_validate m (vw_at v) q n = Ret b.
Proof.
  intros Hm Hv Hq Hn Hqm. unfold records_validate. rewrite (vd_metas _ _ Hv). cbn [obind]. rewrite (vd_n_metas _ _ Hv). cbn [obind].
  apply records_validate_total; try done; [apply (vd_records _ _ Hv)|apply (vd_stored _ _ Hv)].
Qed.

Lemma validate_input_records_wp k n js : gr_nodes g !! k = Some n -> forall pre (c : cyc) (E : cyc -> Prop),
  nd_inputs n = pre ++ js -> kept c -> gathered k n (cy_mem c) -> E c ->
  st_wp (validate_input_records g w k (zlen pre) js) (fun _ c' => c' = c) E c.
Proof.
  intros Hk. induction js as [|j js IH]; intros pre c E Hn Hc Hgat HE; cbn [validate_input_records]; [done|].
  assert (j ∈ nd_inputs n) as Hj by (rewrite Hn; set_solver). apply (node_inputs k n j Hk) in Hj as [p Hp].
  pose proof (Hgat (List.length pre) j p (middle_lookup _ pre js j Hn) (proj1 Hp)) as Hload.
  apply st_wp_bind, reads_wp. change (Z.of_nat (List.length pre)) with (zlen pre) in Hload. rewrite Hload. cbn [o_wp].
  unfold the_port. apply st_wp_bind, st_wp_lift. rewrite (proj1 Hp). cbn [o_wp].
  apply st_wp_bind. eapply (st_wp_mono _ (fun _ c' => c' = c)); [| |done].
  2: { intros [] c' ->. replace (zlen pre + 1) with (zlen (pre ++ [j])) by (by rewrite zlen_app, zlen_cons, zlen_nil; lia).
       apply IH; try done. by rewrite <- app_assoc. }
  destruct (Z.eqb_spec (pointer_of (input_of (cy_mem c) (k, j) p)) 0) as [Hz|Hz]; [done|].
  destruct (input_of (cy_mem c) (k, j) p) as [s|] eqn:Es; [|done]. cbn [pointer_of].
  apply st_wp_bind, reads_wp. destruct (pl_metas Hpl (k, j) p (proj1 Hp)) as (? & ? & ?). pose proof (zlen_kept _ c Hc).
  destruct (records_reads (cy_mem c) (sl_view s) (at_metas w (k, j)) (pi_n_metas (pt_info p))) as [b ->]; try lia;
    [pose proof (pl_size Hpl); lia|by eapply input_viewed|]. cbn [o_wp]. by destruct b.
Qed.

(** ** The call of a plugin *)

(** The offsets that the outputs were taken with are still there. *)
Definition offsets (m : mem) : Prop := forall r p, out_port r p ->
  chunk_offset m (vw_chunk (sl_view (slot_of r))) = Ret (sl_offset (slot_of r)).

Definition given (k : nat) (n : fgn_node) (m : mem) : list (option slot) :=
  map (fun j => match port_at g (k, j) with Some p => input_of m (k, j) p | None => None end) (nd_inputs n).
Definition handed (k : nat) (n : fgn_node) : list slot := map (fun j => slot_of (k, j)) (nd_outputs n).

Lemma input_offset c r p s : kept c -> offsets (cy_mem c) -> in_port r p -> input_of (cy_mem c) r p = Some s ->
  chunk_offset (cy_mem c) (vw_chunk (sl_view s)) = Ret (sl_offset s).
Proof.
  intros Hc Ho Hp E. destruct (input_cases _ r p s Hp E) as [(o & q & _ & Hq & ->)|(j & _ & Hj & Hs)]; [by eapply Ho|].
  apply (sd_offset _ _ (input_slotted c j s r p Hc Hs Hj (proj1 Hp))).
Qed.

Lemma slot_slotted c r p : kept c -> offsets (cy_mem c) -> out_port r p -> slotted (cy_mem c) (slot_of r).
Proof.
  intros Hc Ho Hr. split; [by eapply slot_viewed|by eapply Ho|].
  destruct (slot_cases r p Hr) as [[_ ->]|(i & Hi & Hs)].
  - destruct (sp_payload _ _ _ (pl_storage Hpl r p Hr)) as [-> _].
    pose proof (load_u64_inv _ _ _ (vd_data _ _ (sp_viewed _ _ _ (pl_storage Hpl r p Hr)))) as (_ & _ & Hd). unfold is_u64 in Hd. lia.
  - apply (sd_top _ _ (proj1 (ca_output Hca i (slot_of r) r p (osl_outs _ _ Hs) Hi (proj1 Hr)))).
Qed.

(** A source is a port of another node. *)
Lemma source_before k n j p o : gr_nodes g !! k = Some n -> in_port (k, j) p -> pt_source p = Some o ->
  forall pre post, gr_order g = pre ++ k :: post -> o.1 ∈ pre.
Proof.
  intros Hk Hp Ho pre post Hord. destruct (source_port _ _ _ Hp Ho) as [Hl _].
  destruct (rd_order _ Hg) as [_ Htop].
  destruct (Htop (List.length pre) o.1 k) as (i & Hi & Hoi); [by exists (o, (k, j))|by apply (middle_lookup _ pre post)|].
  rewrite Hord, lookup_app_l in Hoi by done. by apply list_elem_of_lookup_2 with i.
Qed.

Lemma contract_holds k n (c : cyc) : gr_nodes g !! k = Some n -> kept c -> offsets (cy_mem c) ->
  (forall j p, out_port (k, j) p -> empty (cy_mem c) (k, j)) -> gathered k n (cy_mem c) ->
  (forall i j, nd_outputs n !! i = Some j ->
     load_u64 (cy_mem c) (at_process_outputs w k + Z.of_nat i * 16) = Ret (vw_at (sl_view (slot_of (k, j))))) ->
  (forall j p o, in_port (k, j) p -> pt_source p = Some o -> o.1 <> k) ->
  forallb (ready_port (cy_mem c) k) (nd_inputs n) = true ->
  (forall j p s, j ∈ nd_inputs n -> port_at g (k, j) = Some p -> input_of (cy_mem c) (k, j) p = Some s ->
      exists off, fits (cy_mem c) (sl_view s) p off /\ filled (cy_mem c) (sl_view s) p off) ->
  contract k n (cy_mem c) (given k n (cy_mem c)) (handed k n).
Proof.
  intros Hk Hc Ho Hem Hgat Hout Hsrc Hready Hval.
  assert (forall i j, nd_inputs n !! i = Some j -> j ∈ nd_inputs n /\ exists p, in_port (k, j) p) as Hin.
  { intros i j Hi. assert (j ∈ nd_inputs n) as Hj by (by apply list_elem_of_lookup_2 with i). split; [done|]. by apply (node_inputs k n j Hk). }
  assert (forall s, s ∈ handed k n -> exists j p, s = slot_of (k, j) /\ out_port (k, j) p) as Hh.
  { intros s (j & -> & Hj)%list_elem_of_fmap. apply (node_outputs k n j Hk) in Hj as [p Hp]. by exists j, p. }
  assert (forall i s j, handed k n !! i = Some s -> nd_outputs n !! i = Some j -> s = slot_of (k, j) /\ exists p, out_port (k, j) p) as Hhi.
  { intros i s j Hs Hj. unfold handed in Hs. rewrite list_lookup_fmap, Hj in Hs. injection Hs as <-. split; [done|].
    apply (node_outputs k n j Hk). by apply list_elem_of_lookup_2 with i. }
  split.
  - apply List.length_map.
  - intros i x j p Hx Hj Hp. unfold given in Hx. rewrite list_lookup_fmap, Hj in Hx. cbn in Hx. rewrite Hp in Hx. injection Hx as <-.
    split; [by apply (Hgat i j p)|]. destruct (Hin i j Hj) as [Hel (p' & Hp')]. rewrite (proj1 Hp') in Hp. injection Hp as <-.
    destruct (input_of (cy_mem c) (k, j) p') as [s|] eqn:Es.
    + destruct (Hval j p' s Hel (proj1 Hp') Es) as (off & Hf & Hfill).
      pose proof (fits_offset _ _ _ _ _ Hf (input_offset c _ _ s Hc Ho Hp' Es)) as ->. split; [by eapply input_viewed|done].
    + apply forallb_forall with (x := j) in Hready; [|by apply list_elem_of_In]. unfold ready_port in Hready.
      rewrite (proj1 Hp'), Es in Hready. cbn in Hready. by rewrite negb_involutive in Hready.
  - apply List.length_map.
  - intros i s j p Hs Hj Hp. destruct (Hhi i s j Hs Hj) as (-> & p' & Hp'). rewrite (proj1 Hp') in Hp. injection Hp as <-.
    split; [by apply Hout|]. split; [by eapply slot_slotted|]. split; [apply (Hem j p' Hp')|]. split; [by apply slot_size|by eapply slot_apart].
  - intros i i' s t a Hne Hs Ht. destruct (lookup_lt_is_Some_2 (nd_outputs n) i) as [j Hj].
    { apply lookup_lt_Some in Hs. unfold handed in Hs. by rewrite List.length_map in Hs. }
    destruct (lookup_lt_is_Some_2 (nd_outputs n) i') as [j' Hj'].
    { apply lookup_lt_Some in Ht. unfold handed in Ht. by rewrite List.length_map in Ht. }
    destruct (Hhi i s j Hs Hj) as (-> & p & Hp), (Hhi i' t j' Ht Hj') as (-> & p' & Hp').
    apply (slots_apart _ _ p p' a Hp Hp'). intros [= ->]. apply Hne. eapply NoDup_lookup; [|exact Hj|exact Hj'].
    rewrite (nw_outputs _ _ _ (wf_node _ (rd_wf _ Hg) k n Hk)). apply positions_NoDup.
  - intros s t a (j & E & Hj)%list_elem_of_fmap Ht. destruct (Hh t Ht) as (j' & p' & -> & Hp').
    apply (node_inputs k n j Hk) in Hj as [p Hp]. rewrite (proj1 Hp) in E.
    apply (input_apart (cy_mem c) (k, j) p s (k, j') p'); try done. intros Ho'. by apply (Hsrc j p (k, j') Hp Ho').
Qed.

(** ** What a node completed *)

Definition conditional (p : fgn_port) : bool := has (pi_flags (pt_info p)) SPA_FGN_PORT_FLAG_CONDITIONAL.

(** An output that was written in full, or left empty where it may be. *)
Definition completed (m : mem) (r : port_ref) (p : fgn_port) : Prop :=
  chunk_offset m (vw_chunk (sl_view (slot_of r))) = Ret (sl_offset (slot_of r)) /\
  (chunk_size m (vw_chunk (sl_view (slot_of r))) = Ret (pt_payload_size p) \/
   conditional p = true /\ chunk_size m (vw_chunk (sl_view (slot_of r))) = Ret 0).

Lemma chunk_read m v : viewed m v -> exists o z, chunk_offset m (vw_chunk v) = Ret o /\ chunk_size m (vw_chunk v) = Ret z.
Proof.
  intros Hv. pose proof (load_u64_inv _ _ _ (vd_chunk _ _ Hv)) as (_ & _ & Hch). unfold is_u64 in Hch. pose proof (vd_chunk_in _ _ Hv).
  unfold chunk_offset, chunk_size.
  destruct (load_u32_ok m (vw_chunk v)) as (o & Eo & _); [lia..|]. destruct (load_u32_ok m (vw_chunk v + 4)) as (z & Ez & _); [lia..|].
  by exists o, z.
Qed.

Lemma buffer_chunk_viewed m v : viewed m v -> buffer_chunk m (vw_at v) = Ret (vw_chunk v).
Proof. intros Hv. unfold buffer_chunk. rewrite (vd_datas _ _ Hv). cbn [obind]. by rewrite (vd_chunk _ _ Hv). Qed.

Lemma validate_completed_wp m v size expected cond : zlen m < 2 ^ 63 -> viewed m v ->
  o_wp (validate_completed_output m (vw_at v) size expected cond) (fun _ =>
    chunk_offset m (vw_chunk v) = Ret expected /\
    (chunk_size m (vw_chunk v) = Ret size \/ cond = true /\ chunk_size m (vw_chunk v) = Ret 0)) True.
Proof.
  intros Hm Hv. destruct (chunk_read m v Hv) as (o & z & Eo & Ez). unfold validate_completed_output.
  rewrite (vd_datas _ _ Hv). cbn [obind]. rewrite (vd_chunk _ _ Hv). cbn [obind]. rewrite Ez. cbn [obind]. rewrite Eo. cbn [obind].
  destruct (cond && (z =? 0)) eqn:Ec.
  - apply andb_prop in Ec as [-> Hz%Z.eqb_eq]. subst z. destruct (Z.eqb_spec o expected) as [->|]; [|done]. split; [done|]. by right.
  - rewrite (vd_maxsize _ _ Hv). cbn [obind]. destruct (_ || _) eqn:Eb; [done|].
    apply orb_false_iff in Eb as [Eb _]. apply orb_false_iff in Eb as [Eb _].
    apply orb_false_iff in Eb as [E1%negb_false_iff%Z.eqb_eq E2%negb_false_iff%Z.eqb_eq]. subst o z.
    destruct (records_reads m v 0 0 Hm Hv) as [b ->]; [lia..|pose proof (zlen_nonneg m); lia|]. cbn [obind]. destruct b; [|done]. split; [done|]. by left.
Qed.

Lemma check_completed_wp r p (c : cyc) (E : cyc -> Prop) : kept c -> wired c -> out_port r p -> E c ->
  st_wp (check_completed g w r) (fun _ c' => c' = c /\ completed (cy_mem c) r p) E c.
Proof.
  intros Hc Hw Hr HE. pose proof (slot_viewed c r p Hc Hr) as Hv. pose proof (zlen_kept _ c Hc) as Hz. pose proof (pl_size Hpl).
  destruct (wi_output _ Hw r p Hr) as [Hb Ho]. destruct (chunk_read _ _ Hv) as (o & z & Eo & Ez).
  unfold check_completed, the_port. apply st_wp_bind, st_wp_lift. rewrite (proj1 Hr). cbn [o_wp].
  apply st_wp_bind, st_wp_get. rewrite Hb, Ho.
  apply st_wp_bind, reads_wp. rewrite (buffer_chunk_viewed _ _ Hv). cbn [obind]. rewrite Ez. cbn [o_wp].
  apply st_wp_bind. eapply (st_wp_mono _ (fun _ c' => c' = c)); [| |done].
  - destruct (z =? 0); [done|]. apply reads_wp. destruct (pl_metas Hpl r p (proj1 Hr)) as (? & ? & ?).
    destruct (records_reads (cy_mem c) (sl_view (slot_of r)) (at_metas w r) (pi_n_metas (pt_info p))) as [b ->]; [lia|done|lia..|]. done.
  - intros ok c' ->. destruct ok; cbn [negb]; [|done]. apply reads_wp.
    eapply o_wp_mono; [apply validate_completed_wp; [lia|done]| |done]. intros [] Hd. by split.
Qed.

Lemma check_all_completed_wp k n (c : cyc) (E : cyc -> Prop) : gr_nodes g !! k = Some n -> kept c -> wired c -> E c ->
  st_wp (st_each (nd_outputs n) (fun j => check_completed g w (k, j)))
    (fun _ c' => c' = c /\ forall j p, out_port (k, j) p -> completed (cy_mem c) (k, j) p) E c.
Proof.
  intros Hk Hc Hw HE.
  eapply st_wp_mono; [apply (st_each_wp _ _ (fun pre c' => c' = c /\ forall j p, j ∈ pre -> out_port (k, j) p -> completed (cy_mem c) (k, j) p))| |done].
  - intros pre j post c' Hl [-> Hpre]. assert (j ∈ nd_outputs n) as Hj by (rewrite Hl; set_solver).
    apply (node_outputs k n j Hk) in Hj as [p Hp]. eapply st_wp_mono; [by apply (check_completed_wp (k, j) p)| |done].
    intros [] c' [-> Hd]. split; [done|]. intros j' p' [Hj'|Hj'%list_elem_of_singleton]%elem_of_app Hp'; [by apply Hpre|subst j'].
    destruct Hp as [Hp _], Hp' as [Hp' _]. rewrite Hp in Hp'. by injection Hp' as <-.
  - split; [done|]. by intros j p ?%elem_of_nil.
  - intros [] c' [-> Hall]. split; [done|]. intros j p Hp. apply Hall; [|done]. apply (node_outputs k n j Hk). by exists p.
Qed.

(** ** What one node changes *)

Definition node_moves (k : nat) (a : Z) : Prop := exists j p, out_port (k, j) p /\ slot_moving (slot_of (k, j)) a.
Definition chunks_equal (m m' : mem) (r : port_ref) : Prop :=
  chunk_offset m' (vw_chunk (sl_view (slot_of r))) = chunk_offset m (vw_chunk (sl_view (slot_of r))) /\
  chunk_size m' (vw_chunk (sl_view (slot_of r))) = chunk_size m (vw_chunk (sl_view (slot_of r))).

Lemma tables_chunks k n m m' r p : gr_nodes g !! k = Some n -> out_port r p ->
  same_if (fun a => ~ (table_inputs k n a \/ table_outputs k n a)) m m' -> chunks_equal m m' r.
Proof.
  intros Hk Hr S. eapply chunk_same; [exact S|]. intros a Ha. apply (table_not_slot k n r p a Hk Hr). right. by left.
Qed.

Lemma moves_chunks k m m' r p : out_port r p -> r.1 <> k -> same_if (fun a => ~ node_moves k a) m m' -> chunks_equal m m' r.
Proof.
  intros Hr Hne S. eapply chunk_same; [exact S|]. intros a Ha (j & q & Hq & Hm).
  apply (slots_apart r (k, j) p q a Hr Hq); [by intros ->|right; by left|by right].
Qed.

Lemma moves_kept k (c : cyc) m' : kept c -> same_if (fun a => ~ node_moves k a) (cy_mem c) m' -> same_if (fun a => ~ changes a) m0 m'.
Proof.
  intros Hc S. eapply same_if_trans; [exact Hc|]. eapply same_if_weaken; [|exact S].
  intros a Ha (j & p & Hp & Hm). apply Ha. right. right. by exists (k, j), p.
Qed.

Lemma call_process_wp k n (c : cyc) : gr_nodes g !! k = Some n -> confined -> contract k n (cy_mem c) (given k n (cy_mem c)) (handed k n) ->
  let after c' := cy_buffer c' = cy_buffer c /\ cy_offset c' = cy_offset c /\ cy_props c' = cy_props c /\ cy_params c' = cy_params c /\
    cy_runs c' = cy_runs c ++ [k] /\ same_if (fun a => ~ node_moves k a) (cy_mem c) (cy_mem c') in
  st_wp (call_process process w k n) (fun _ => after) after c.
Proof.
  intros Hk Hconf Hct after. pose proof (Hconf k n (cy_world c) (cy_mem c) _ _ Hk Hct) as S.
  unfold st_wp, call_process. destruct (process k _ _ _ _ _) as [res [x m']]. cbn [snd] in S.
  assert (same_if (fun a => ~ node_moves k a) (cy_mem c) m') as S'.
  { eapply same_if_weaken; [|exact S]. intros a Ha s (j & -> & Hj)%list_elem_of_fmap Hm. apply Ha.
    apply (node_outputs k n j Hk) in Hj as [p Hp]. by exists j, p. }
  by destruct (res <? 0).
Qed.

(** ** The nodes in their order *)

Definition node_ready (m : mem) (k : nat) : bool :=
  match gr_nodes g !! k with Some n => forallb (ready_port m k) (nd_inputs n) | None => false end.

(** The nodes before a point of the order ran, those that were ready. *)
Record ran (pre : list nat) (c : cyc) : Prop := {
  rn_kept : kept c;
  rn_wired : wired c;
  rn_runs : cy_runs c = List.filter (node_ready (cy_mem c)) pre;
  rn_done : forall r p, out_port r p -> r.1 ∈ cy_runs c -> completed (cy_mem c) r p;
  rn_empty : forall r p, out_port r p -> r.1 ∉ cy_runs c -> empty (cy_mem c) r }.
Definition stopped (c : cyc) : Prop := kept c /\ wired c.

Lemma order_distinct : NoDup (gr_order g).
Proof. rewrite (proj1 (rd_order _ Hg)). apply NoDup_seq. Qed.

Lemma order_nodes k : k ∈ gr_order g -> exists n, gr_nodes g !! k = Some n.
Proof.
  rewrite (proj1 (rd_order _ Hg)). intros Hk%elem_of_seq. apply lookup_lt_is_Some_2. lia.
Qed.

Section Round.
Context (pre post : list nat) (k : nat) (Hord : gr_order g = pre ++ k :: post).

Lemma round_fresh : k ∉ pre.
Proof. pose proof order_distinct as H. rewrite Hord in H. apply list.NoDup_app in H as (_ & H & _). intros Hk. apply (H k Hk). set_solver. Qed.

Lemma round_order k' : k' ∈ pre ++ [k] -> k' ∈ gr_order g.
Proof. rewrite Hord, !elem_of_app, list_elem_of_singleton, elem_of_cons. tauto. Qed.
Lemma round_node : exists n, gr_nodes g !! k = Some n.
Proof. apply order_nodes, round_order, elem_of_app. right. by apply list_elem_of_singleton. Qed.

(** The sources of what ran or runs now are behind. *)
Lemma sources_behind k' j p o : k' ∈ pre ++ [k] -> in_port (k', j) p -> pt_source p = Some o -> o.1 ∈ pre.
Proof.
  intros Hk' Hp Ho. assert (exists n, gr_nodes g !! k' = Some n) as [n Hn] by (by apply order_nodes, round_order).
  apply elem_of_app in Hk' as [Hk'|Hk'%list_elem_of_singleton].
  - apply list_elem_of_split in Hk' as (l1 & l2 & Epre). rewrite Epre. apply elem_of_app. left.
    apply (source_before k' n j p o Hn Hp Ho l1 (l2 ++ k :: post)). by rewrite Hord, Epre, <- app_assoc.
  - subst k'. by apply (source_before k n j p o Hn Hp Ho pre post).
Qed.

Lemma node_ready_same m m' k' : k' ∈ pre ++ [k] -> (forall r p, out_port r p -> r.1 <> k -> chunks_equal m m' r) ->
  node_ready m' k' = node_ready m k'.
Proof.
  intros Hk' Heq. unfold node_ready. destruct (gr_nodes g !! k') as [n|] eqn:Hn; [|done].
  assert (forall j, j ∈ nd_inputs n -> ready_port m' k' j = ready_port m k' j) as Hp.
  { intros j (p & Hp)%(node_inputs k' n j Hn). unfold ready_port. rewrite (proj1 Hp). f_equal. f_equal. f_equal.
    unfold input_of. destruct (pt_source p) as [o|] eqn:Eo; [|done].
    pose proof (sources_behind k' j p o Hk' Hp Eo) as Hb. destruct (source_port _ _ _ Hp Eo) as (_ & q & Hq).
    destruct (Heq o q Hq) as [_ Es]; [intros Ek; apply round_fresh; by rewrite <- Ek|]. unfold written. by rewrite Es. }
  clear -Hp. induction (nd_inputs n) as [|j js IH]; [done|]. cbn [forallb]. f_equal; [apply Hp; set_solver|].
  apply IH. intros j' Hj'. apply Hp. set_solver.
Qed.

Lemma filter_same m m' l : (forall k', k' ∈ l -> node_ready m' k' = node_ready m k') -> List.filter (node_ready m') l = List.filter (node_ready m) l.
Proof.
  intros H. induction l as [|x l IH]; [done|]. cbn. rewrite (H x) by set_solver. rewrite IH; [done|]. intros; apply H; set_solver.
Qed.

Lemma ran_offsets l c : ran l c -> offsets (cy_mem c).
Proof.
  intros Hr r p Hp. destruct (decide (r.1 ∈ cy_runs c)) as [Hin|Hno]; [apply (rn_done _ _ Hr r p Hp Hin)|apply (rn_empty _ _ Hr r p Hp Hno)].
Qed.
Lemma ran_fresh c : ran pre c -> k ∉ cy_runs c.
Proof. intros Hr. rewrite (rn_runs _ _ Hr). intros [Hk _]%list_elem_of_In%filter_In. apply round_fresh. by apply list_elem_of_In. Qed.

(** A node that was not ready. *)
Lemma ran_skip n (c : cyc) m' : gr_nodes g !! k = Some n -> ran pre c -> node_ready (cy_mem c) k = false ->
  same_if (fun a => ~ (table_inputs k n a \/ table_outputs k n a)) (cy_mem c) m' -> ran (pre ++ [k]) (set_mem m' c).
Proof.
  intros Hn Hr Hno S. assert (forall r p, out_port r p -> chunks_equal (cy_mem c) m' r) as Heq by (intros; by eapply tables_chunks).
  split; cbn [cy_mem cy_runs set_mem].
  - by apply (table_kept k n); [|apply (rn_kept _ _ Hr)|].
  - destruct (rn_wired _ _ Hr) as [H1 H2 H3]. by split.
  - rewrite List.filter_app, (filter_same (cy_mem c) m' pre), <- (rn_runs _ _ Hr).
    + cbn. rewrite (node_ready_same (cy_mem c) m' k), Hno, app_nil_r; [done|set_solver|]. intros; by eapply Heq.
    + intros k' Hk'. apply node_ready_same; [set_solver|]. intros; by eapply Heq.
  - intros r p Hp Hin. destruct (Heq r p Hp) as [Eo Es]. unfold completed. rewrite Eo, Es. by apply (rn_done _ _ Hr).
  - intros r p Hp Hin. destruct (Heq r p Hp) as [Eo Es]. unfold empty. rewrite Eo, Es. by apply (rn_empty _ _ Hr r p).
Qed.

(** A node that was called and completed its outputs. *)
Lemma ran_call (c c' : cyc) : ran pre c -> node_ready (cy_mem c) k = true ->
  (forall r p, out_port r p -> r.1 <> k -> chunks_equal (cy_mem c) (cy_mem c') r) ->
  kept c' -> wired c' -> cy_runs c' = cy_runs c ++ [k] -> (forall j p, out_port (k, j) p -> completed (cy_mem c') (k, j) p) ->
  ran (pre ++ [k]) c'.
Proof.
  intros Hr Hyes Heq Hk' Hw' Er Hd. split; try done.
  - rewrite Er, List.filter_app, (filter_same (cy_mem c)), <- (rn_runs _ _ Hr).
    + cbn. by rewrite (node_ready_same (cy_mem c) (cy_mem c') k), Hyes; [|set_solver|].
    + intros k' Hin. apply node_ready_same; [set_solver|done].
  - intros [k' j] p Hp. rewrite Er. cbn [fst]. destruct (decide (k' = k)) as [->|Hne]; [intros _; by apply Hd|].
    intros [Hin|Hin%list_elem_of_singleton]%elem_of_app; [|done]. destruct (Heq (k', j) p Hp Hne) as [Eo Es].
    unfold completed. rewrite Eo, Es. by apply (rn_done _ _ Hr).
  - intros [k' j] p Hp. rewrite Er. cbn [fst]. intros Hno. destruct (decide (k' = k)) as [->|Hne]; [set_solver|].
    destruct (Heq (k', j) p Hp Hne) as [Eo Es]. unfold empty. rewrite Eo, Es. apply (rn_empty _ _ Hr (k', j) p Hp). set_solver.
Qed.

(** The checks, the call and the checks behind it. *)
Lemma run_ready_wp {A} n (c : cyc) m2 (rest : cycle_st (W := W) A) Q : confined -> gr_nodes g !! k = Some n -> ran pre c ->
  node_ready (cy_mem c) k = true ->
  same_if (fun a => ~ (table_inputs k n a \/ table_outputs k n a)) (cy_mem c) m2 ->
  (forall i j p, nd_inputs n !! i = Some j -> port_at g (k, j) = Some p ->
     load_u64 m2 (at_process_inputs w k + Z.of_nat i * 16) = Ret (pointer_of (input_of (cy_mem c) (k, j) p))) ->
  (forall i j, nd_outputs n !! i = Some j ->
     load_u64 m2 (at_process_outputs w k + Z.of_nat i * 16) = Ret (vw_at (sl_view (slot_of (k, j))))) ->
  (forall c', ran (pre ++ [k]) c' -> cy_props c' = cy_props c -> cy_params c' = cy_params c -> st_wp rest Q stopped c') ->
  st_wp (validate_inputs g w k 0 (nd_inputs n) ;;; validate_input_records g w k 0 (nd_inputs n) ;;;
    call_process process w k n ;;; st_each (nd_outputs n) (fun j => check_completed g w (k, j)) ;;; rest) Q stopped (set_mem m2 c).
Proof.
  intros Hconf Hn Hr Hyes T Hin Hout Hrest. set (c2 := set_mem m2 c).
  pose proof (table_kept k n c m2 Hn (rn_kept _ _ Hr) T : kept c2) as Hc2.
  assert (wired c2) as Hw2 by (destruct (rn_wired _ _ Hr) as [H1 H2 H3]; by split).
  assert (forall r p, out_port r p -> chunks_equal (cy_mem c) m2 r) as Heq by (intros; by eapply tables_chunks).
  assert (forall j p, in_port (k, j) p -> input_of m2 (k, j) p = input_of (cy_mem c) (k, j) p) as Hsame.
  { intros j p Hp. eapply input_same; [exact T|]. intros o a Ho Ha. destruct (source_port _ _ _ Hp Ho) as (_ & q & Hq).
    apply (table_not_slot k n o q a Hn Hq). right. by left. }
  assert (gathered k n m2) as Hgat.
  { intros i j p Hi Hp. rewrite (Hin i j p Hi Hp). f_equal. f_equal. symmetry. apply Hsame.
    assert (j ∈ nd_inputs n) as (p' & Hp')%(node_inputs k n j Hn) by (by apply list_elem_of_lookup_2 with i).
    pose proof (proj1 Hp') as E. rewrite Hp in E. by injection E as <-. }
  apply st_wp_bind. eapply st_wp_mono; [by apply (validate_inputs_wp k n (nd_inputs n) Hn [] c2 stopped)| |done]. intros [] ? [-> Hval].
  apply st_wp_bind. eapply st_wp_mono; [by apply (validate_input_records_wp k n (nd_inputs n) Hn [] c2 stopped)| |done]. intros [] ? ->.
  assert (contract k n (cy_mem c2) (given k n (cy_mem c2)) (handed k n)) as Hct.
  { apply contract_holds; try done.
    - intros r p Hp. change (cy_mem c2) with m2. destruct (Heq r p Hp) as [-> _]. by apply (ran_offsets pre c Hr r p).
    - intros j p Hp. unfold empty. change (cy_mem c2) with m2. destruct (Heq (k, j) p Hp) as [-> ->]. apply (rn_empty _ _ Hr (k, j) p Hp). by apply ran_fresh.
    - intros j p o Hp Ho Ek. apply round_fresh. rewrite <- Ek. apply (sources_behind k j p o); [|done..].
      apply elem_of_app. right. by apply list_elem_of_singleton.
    - pose proof (node_ready_same (cy_mem c) m2 k) as E. unfold node_ready in E, Hyes. rewrite Hn in E, Hyes. rewrite Hyes in E.
      apply E; [apply elem_of_app; right; by apply list_elem_of_singleton|]. intros; by eapply Heq. }
  apply st_wp_bind. eapply st_wp_mono; [by apply call_process_wp| |].
  2: { intros c' (Eb & Eo & _ & _ & _ & S). split; [by apply (moves_kept k c2)|].
       destruct Hw2 as [H1 H2 H3]. split; unfold assigned, buffer_of, offset_of in *; rewrite ?Eb, ?Eo; done. }
  intros [] c3 (Eb & Eo & Ep & Eq & Er & S).
  assert (kept c3) as Hc3 by (by apply (moves_kept k c2)).
  assert (wired c3) as Hw3 by (destruct Hw2 as [H1 H2 H3]; split; unfold assigned, buffer_of, offset_of in *; rewrite ?Eb, ?Eo; done).
  apply st_wp_bind. eapply st_wp_mono; [by apply (check_all_completed_wp k n c3 stopped)| |done]. intros [] ? [-> Hd].
  apply Hrest; [|done..]. apply (ran_call c); try done. intros r p Hp Hne.
  destruct (moves_chunks k m2 (cy_mem c3) r p Hp Hne S) as [E1 E2], (Heq r p Hp) as [E3 E4]. split; congruence.
Qed.

Lemma run_node_wp (c : cyc) status : confined -> ran pre c ->
  st_wp (run_node get_prop_revision process g w k status) (fun s c' => ran (pre ++ [k]) c' /\
    (s = status \/ s = Z.lor status SPA_FGN_PROCESS_RESULT_PROPS_CHANGED) /\
    cy_props c' = cy_props c /\ cy_params c' = cy_params c) stopped c.
Proof.
  intros Hconf Hr. destruct round_node as [n Hn]. pose proof (rn_kept _ _ Hr) as Hc. pose proof (rn_wired _ _ Hr) as Hw.
  assert (forall m, wired (set_mem m c)) as Hwm by (intros m; destruct Hw as [H1 H2 H3]; by split).
  unfold run_node, the_node. apply st_wp_bind, st_wp_lift. rewrite Hn. cbn [o_wp]. apply st_wp_bind.
  eapply (st_wp_mono _ (fun _ c' => c' = c)); [done| |done]. intros rev ? ->.
  apply st_wp_bind. eapply st_wp_mono; [by apply (gather_inputs_wp k n (nd_inputs n) Hn [])| |done].
  intros b c1 (m1 & -> & S1 & Hb & Hload1). change (zlen (@nil nat)) with 0 in S1, Hload1. cbn [andb] in Hb.
  assert (same_if (fun a => ~ (table_inputs k n a \/ table_outputs k n a)) (cy_mem c) m1) as T1.
  { eapply same_if_weaken; [|exact S1]. intros a Ha Hi. apply Ha. left. unfold table_inputs. lia. }
  pose proof (table_kept k n c m1 Hn Hc T1) as Hc1.
  apply st_wp_bind. eapply st_wp_mono; [by apply (gather_outputs_wp k n (nd_outputs n) Hn [])| |done].
  intros [] c2 (m2 & -> & S2 & Hload2). change (zlen (@nil nat)) with 0 in S2, Hload2. cbn [cy_mem set_mem] in S2. rewrite set_mem_twice.
  assert (same_if (fun a => ~ table_outputs k n a) m1 m2) as T2.
  { eapply same_if_weaken; [|exact S2]. intros a Ha Hi. apply Ha. unfold table_outputs. lia. }
  assert (same_if (fun a => ~ (table_inputs k n a \/ table_outputs k n a)) (cy_mem c) m2) as T.
  { eapply same_if_trans; [exact T1|]. eapply same_if_weaken; [|exact T2]. intros a Ha Hi. apply Ha. by right. }
  assert (b = node_ready (cy_mem c) k) as Eb by (unfold node_ready; by rewrite Hn). clear Hb.
  destruct b; cbn [negb].
  2: { split; [by apply (ran_skip n)|]. by split; [left|]. }
  apply run_ready_wp; try done.
  - intros i j p Hi Hp. rewrite <- (Hload1 i j p Hi Hp). change (0 + Z.of_nat i) with (Z.of_nat i).
    apply lookup_lt_Some in Hi. eapply same_if_u64; [exact T2|]. intros a Ha Ht. apply (pl_table_pair Hpl k n a Hn); [|done]. unfold table_inputs, zlen. lia.
  - intros c' Hr' Ep Eq. destruct (get_prop_revision k); [|by split; [|split; [left|]]].
    apply st_wp_bind. eapply (st_wp_mono _ (fun _ c'' => c'' = c')); [done| |done]. intros current ? ->.
    split; [done|]. split; [|done]. destruct (_ || _); [by right|by left].
Qed.
End Round.

Lemma run_nodes_wp post : confined -> forall pre (c : cyc) status, gr_order g = pre ++ post -> ran pre c ->
  st_wp (run_nodes get_prop_revision process g w post status) (fun s c' => ran (gr_order g) c' /\
    (s = status \/ s = Z.lor status SPA_FGN_PROCESS_RESULT_PROPS_CHANGED) /\
    cy_props c' = cy_props c /\ cy_params c' = cy_params c) stopped c.
Proof.
  intros Hconf. induction post as [|k post IH]; intros pre c status Hord Hr; cbn [run_nodes].
  { rewrite app_nil_r in Hord. subst pre. by split; [|split; [left|]]. }
  apply st_wp_bind. eapply st_wp_mono; [by apply (run_node_wp pre post k Hord)| |done]. intros s c1 (Hr1 & Hs & Ep & Eq).
  eapply st_wp_mono; [apply (IH (pre ++ [k])); [by rewrite <- app_assoc|done]| |done].
  intros s' c2 (Hr2 & Hs' & Ep' & Eq'). split; [done|]. split; [|split; congruence].
  destruct Hs as [->| ->], Hs' as [->| ->]; auto. right. by rewrite <- Z.lor_assoc.
Qed.

(** ** The end of a cycle *)

Lemma check_inputs_wp (c : cyc) (E : cyc -> Prop) : kept c -> E c ->
  st_wp (st_count (zlen (gr_inputs g)) (check_input g w inputs)) (fun _ c' => c' = c) E c.
Proof.
  intros Hc HE. apply (st_count_wp _ _ (fun _ c' => c' = c)); [apply zlen_nonneg| |done].
  intros i ? Hi ->. destruct (input_at (Z.to_nat i)) as (r & p & x & Hj & Hp & Hx); [unfold zlen in Hi; lia|].
  unfold check_input, the_external, the_port. apply st_wp_bind, reads_wp.
  pose proof (kept_input c _ x Hc Hx) as Ex. rewrite Z2Nat.id in Ex by lia. rewrite Ex. cbn [o_wp].
  destruct x as [s|]; cbn [pointer_of]; [|done]. destruct (_ =? 0); [done|].
  apply st_wp_bind, st_wp_lift. rewrite Hj. cbn [o_wp]. apply st_wp_bind, st_wp_lift. rewrite (proj1 Hp). cbn [o_wp].
  apply st_wp_bind, reads_wp. destruct (pl_metas Hpl r p (proj1 Hp)) as (? & ? & ?). pose proof (zlen_kept _ c Hc). pose proof (pl_size Hpl).
  destruct (records_reads (cy_mem c) (sl_view s) (at_metas w r) (pi_n_metas (pt_info p))) as [b ->]; [lia| |lia..|by destruct b].
  apply (sd_view _ _ (input_slotted c _ s r p Hc Hx Hj (proj1 Hp))).
Qed.

(** No external output has a size. *)
Definition cleared (m : mem) : Prop := forall s, s ∈ osl -> chunk_size m (vw_chunk (sl_view s)) = Ret 0.

Lemma clear_wp (c : cyc) (E : cyc -> Prop) : kept c ->
  st_wp (clear_external_output_sizes outputs (zlen (gr_outputs g))) (fun _ c' => kept c' /\ cleared (cy_mem c')) E c.
Proof.
  intros Hc. unfold clear_external_output_sizes.
  eapply st_wp_mono; [apply (st_count_wp _ _ (fun i c' => kept c' /\ forall j s, Z.of_nat j < i -> osl !! j = Some s ->
    chunk_size (cy_mem c') (vw_chunk (sl_view s)) = Ret 0))| |]; [apply zlen_nonneg| |split; [done|intros; lia]| |done].
  - intros i c' Hi [Hk Hz]. destruct (output_at (Z.to_nat i)) as (r & p & x & Hj & Hp & _); [unfold zlen in Hi; lia|].
    destruct (lookup_lt_is_Some_2 osl (Z.to_nat i)) as [s Hs]; [rewrite osl_length; unfold zlen in Hi; lia|].
    pose proof (slot_external _ r s Hj Hs) as Es. pose proof (slot_viewed c' r p Hk Hp) as Hv. rewrite Es in Hv.
    apply st_wp_bind, reads_wp. pose proof (kept_output c' _ s Hk Hs) as Ep. rewrite Z2Nat.id in Ep by lia. rewrite Ep. cbn [o_wp].
    apply st_wp_bind, reads_wp. rewrite (buffer_chunk_viewed _ _ Hv). cbn [o_wp].
    apply (store_chunk_wp s 4 0); [done|done|lia|lia|lia|]. intros m1 S1 E1.
    assert (same_if (fun a => ~ slot_moving (slot_of r) a) (cy_mem c') m1) as T1.
    { rewrite Es. eapply same_if_weaken; [|exact S1]. intros a Ha Hb. apply Ha. apply (chunk_moves s 4 4); lia. }
    split; [by apply (kept_moved r p c' m1)|]. intros j t Hlt Ht. cbn [cy_mem set_mem].
    destruct (output_at j) as (r' & p' & _ & Hj' & Hp' & _); [rewrite <- osl_length; by eapply lookup_lt_Some|].
    pose proof (slot_external _ r' t Hj' Ht) as Et. destruct (decide (r' = r)) as [->|Hne]; [rewrite <- Et, Es; exact E1|].
    destruct (slot_touched r p _ m1 Hp T1) as [_ Ho]. destruct (Ho r' p' Hp' Hne) as [_ Ez]. rewrite Et in Ez. rewrite Ez. apply (Hz j); [|done].
    assert (j <> Z.to_nat i) by (intros ->; congruence). lia.
  - intros [] c' [Hk Hz]. split; [done|]. intros s [j Hj]%list_elem_of_lookup. apply (Hz j); [|done].
    apply lookup_lt_Some in Hj. rewrite osl_length in Hj. unfold zlen. lia.
Qed.

(** The transactions that waited are retired, and reported. *)
Definition retired (t : fgn_transaction_state * list entry) : fgn_transaction_state * list entry :=
  match t with
  | (FGN_TRANSACTION_PENDING, table) => (FGN_TRANSACTION_RETIRED, map (fun e => mk_entry (en_node e) 0) table)
  | _ => t
  end.
Definition reported (c : cyc) (status : Z) : Prop :=
  (status = SPA_FGN_PROCESS_RESULT_NONE \/ status = SPA_FGN_PROCESS_RESULT_PROPS_CHANGED) /\
  ((cy_props c).1 = FGN_TRANSACTION_PENDING \/ (cy_params c).1 = FGN_TRANSACTION_PENDING ->
   status = SPA_FGN_PROCESS_RESULT_PROPS_CHANGED).

Lemma begun_ran c : begun c -> ran [] c.
Proof.
  intros [Hk Hw He Hr]. split; try done; rewrite Hr; [|intros r p Hp _; by apply (He r p)]. by intros r p _ ?%elem_of_nil.
Qed.

Lemma ran_publish c c' : cy_mem c' = cy_mem c -> cy_buffer c' = cy_buffer c -> cy_offset c' = cy_offset c -> cy_runs c' = cy_runs c ->
  ran [] c -> ran [] c'.
Proof.
  intros Em Eb Eo Er [H1 [W1 W2 W3] H3 H4 H5].
  split; unfold kept; rewrite ?Em, ?Er; try done. split; unfold assigned, buffer_of, offset_of in *; rewrite ?Eb, ?Eo; done.
Qed.

Lemma run_cycle_wp (c : cyc) : confined -> begun c ->
  st_wp (run_cycle commit_props commit_parameter adopt_parameters get_prop_revision process g w inputs (zlen (gr_inputs g)))
    (fun s c' => ran (gr_order g) c' /\ reported c s /\ cy_props c' = retired (cy_props c) /\ cy_params c' = retired (cy_params c)) stopped c.
Proof.
  intros Hconf Hb. unfold run_cycle. apply st_wp_bind.
  eapply st_wp_mono; [apply (check_inputs_wp c stopped); [apply Hb|split; apply Hb]| |done]. intros [] ? ->.
  apply begun_ran in Hb. apply st_wp_bind.
  eapply (st_wp_mono _ (fun b c' => ran [] c' /\ cy_props c' = retired (cy_props c) /\ cy_params c' = cy_params c /\
    ((cy_props c).1 = FGN_TRANSACTION_PENDING -> b = true))); [| |done].
  { unfold st_wp, publish_graph_property_transaction. destruct (cy_props c) as [[] t] eqn:Et; cbn [fst retired]; rewrite ?Et; try done.
    split; [by apply (ran_publish c)|done]. }
  intros b1 c1 (Hr1 & Ep1 & Eq1 & Hb1). apply st_wp_bind.
  eapply (st_wp_mono _ (fun b c' => ran [] c' /\ cy_params c' = retired (cy_params c) /\ cy_props c' = cy_props c1 /\
    ((cy_params c).1 = FGN_TRANSACTION_PENDING -> b = true))); [| |done].
  { unfold st_wp, publish_graph_parameter_transaction. rewrite Eq1. destruct (cy_params c) as [[] t] eqn:Et; cbn [fst retired]; try done.
    split; [by apply (ran_publish c1)|done]. }
  intros b2 c2 (Hr2 & Ep2 & Eq2 & Hb2).
  eapply st_wp_mono; [by apply (run_nodes_wp (gr_order g) Hconf [])| |done]. intros s c' (Hr' & Hs & Ep' & Eq').
  split; [done|]. split; [|split; congruence]. unfold reported.
  destruct b1, b2; cbn in Hs; split; try (intros [Hp|Hp]; [specialize (Hb1 Hp)|specialize (Hb2 Hp)]); destruct Hs as [->| ->]; auto; done.
Qed.
End Accepted.

(** ** The whole cycle *)

(** The buffers of the caller were accepted: each is its own output's. *)
Record accepted (osl : list slot) : Prop := {
  ac_outs : outs = map Some osl;
  ac_owned : forall i s, osl !! i = Some s -> owned_output g w inputs outputs ins osl i s;
  ac_records : forall i s r p, osl !! i = Some s -> gr_outputs g !! i = Some r -> port_at g r = Some p ->
    records_ok (vw_metas (sl_view s)) (vw_records (sl_view s)) }.

Lemma begin_cycle_wp (c : cyc) : own_storage c -> cy_runs c = [] ->
  st_wp (begin_cycle g w inputs (zlen (gr_inputs g)) outputs (zlen (gr_outputs g)))
    (fun _ c' => exists osl, accepted osl /\ begun osl c') own_storage c.
Proof.
  intros Hc Hr. unfold begin_cycle. apply st_wp_bind. eapply st_wp_mono; [by apply reset_nodes_wp| |done]. intros [] c1 (Hc1 & Er & Hall).
  apply st_wp_bind. eapply st_wp_mono; [apply (take_inputs_wp c1); [done|congruence|done|]; by intros c'| |done]. intros [] c2 Hin.
  pose proof (it_mem _ Hin) as Hc2.
  apply st_wp_bind. eapply st_wp_mono; [by apply (check_outputs_wp c2)| |done]. intros [] ? (-> & osl & Ho & Hfit).
  apply st_wp_bind, reads_wp.
  assert (zlen (gr_inputs g) = zlen ins /\ zlen (gr_outputs g) = zlen osl) as [-> Eo].
  { unfold zlen. rewrite (proj1 (ca_inputs Hca)), <- (proj1 (ca_outputs Hca)), Ho, List.length_map. done. }
  rewrite Eo. eapply o_wp_mono; [by apply ownership_wp, arrays_ready| |done]. intros [] Hown. cbv beta in Hown.
  assert (accepted osl) as Hac by (split; [done..|]; intros i s r p Hs Hi Hp; apply (ft_records _ _ _ _ (Hfit i s r p Hs Hi Hp))).
  rewrite <- Eo. eapply st_wp_mono; [eapply (take_outputs_wp osl); [apply Hac..|done|]| |done].
  - intros i s r p Hs Hi Hp. apply (ft_offset _ _ _ _ (Hfit i s r p Hs Hi Hp)).
  - intros [] c3 Hb. by exists osl.
Qed.

(** What a cycle that succeeds leaves. *)
Record processed (osl : list slot) (c c' : cyc) (status : Z) : Prop := {
  pr_ran : ran osl (gr_order g) c';
  pr_reported : reported c status;
  pr_props : cy_props c' = retired (cy_props c);
  pr_params : cy_params c' = retired (cy_params c) }.

(** A cycle that fails was refused, with nothing changed but the storage of the
    graph, or leaves every external output without a size. *)
Definition failed (c c' : cyc) : Prop :=
  own_storage c' /\ outside c' = outside c \/
  exists osl, accepted osl /\ kept osl c' /\ cleared osl (cy_mem c').

(** C38: a cycle of the filter graph.  The graph is one that [spa_fgn_graph_new]
    hands out; its storage and tables lie in the memory apart from each other
    ([placed]); the arrays and buffers of the caller are in the memory, the arrays
    and inputs apart from both, the outputs apart from the storage ([called]); and
    the plugins, when they are called with complete inputs and empty outputs that
    overlap nothing, write nothing but the chunks, payloads and records of these
    outputs ([confined]).  Then the cycle never reads or
    writes outside of the memory, and changes nothing but the storage and the
    tables of the graph and the chunks, payloads and records of the outputs it
    accepted.  When it succeeds, the nodes that ran are exactly those of the order
    whose required inputs have a buffer, in that order; every output of a node
    that ran is complete, or empty where it is conditional, and every other output
    is empty; transactions that waited are retired and the status reports it.
    When it fails, either no plugin was called and nothing but the storage of the
    graph changed, or every external output is empty. *)
Theorem graph_process_correct (active prepared : bool) n_inputs n_outputs (c : cyc) : confined -> cy_mem c = m0 -> cy_runs c = [] ->
  st_wp (spa_fgn_graph_process commit_props commit_parameter adopt_parameters get_prop_revision process g w
           active prepared inputs n_inputs outputs n_outputs)
    (fun status c' => exists osl, accepted osl /\ processed osl c c' status) (failed c) c.
Proof.
  intros Hconf Hm Hr. assert (own_storage c) as Hc by (unfold own_storage; rewrite Hm; apply same_if_refl).
  assert (failed c c) as Hrefused by (by left). unfold spa_fgn_graph_process.
  destruct (negb active || negb (n_inputs =? zlen (gr_inputs g)) || negb (n_outputs =? zlen (gr_outputs g)) || _ || _) eqn:Eguard; [done|].
  destruct prepared; cbn [negb]; [|done].
  assert (n_inputs = zlen (gr_inputs g) /\ n_outputs = zlen (gr_outputs g)) as [-> ->] by (destruct active; cbn in Eguard; lia).
  apply st_wp_bind. eapply st_wp_mono; [apply keeps_wp; [apply begin_cycle_keeps|by apply begin_cycle_wp]| |].
  2: { intros c' [H1 H2]. by left. }
  intros [] c1 [(osl & Hac & Hb) Hout]. pose proof Hac as [A1 A2 A3].
  apply st_wp_bind, st_wp_try. eapply st_wp_mono; [by apply (run_cycle_wp osl)| |].
  - intros s c2 (H1 & H2 & H3 & H4). exists osl. split; [done|]. unfold outside in Hout. injection Hout as _ Ep Eq _.
    split; [done|..]; unfold reported in *; congruence.
  - intros c2 [Hk _] e. apply st_wp_bind. eapply st_wp_mono; [by apply (clear_wp osl)| |done]. intros [] c3 [Hk3 Hz3]. right. by exists osl.
Qed.
End Cycle.

(** ** Two nodes that copy *)

Module Copying.
Notation graph := Copy.graph.

(** A buffer of one header and a payload of 128 bytes, in 256 bytes. *)
Definition header_at (b : Z) : spa_meta := mk_meta SPA_META_Header 32 (b + 96).
Definition block (b size : Z) (payload : list byte) : list byte :=
  le32 1 ++ le32 1 ++ le64 (b + 80) ++ le64 (b + 24) ++
  le32 0 ++ le32 0 ++ le64 0 ++ le32 0 ++ le32 128 ++ le64 (b + 128) ++ le64 (b + 64) ++
  le32 0 ++ le32 size ++ le32 0 ++ le32 0 ++
  le32 SPA_META_Header ++ le32 32 ++ le64 (b + 96) ++ repeat (to_byte 0) 32 ++ payload.
Definition view_at (b : Z) : view := mk_view b (b + 80) [header_at b] (b + 24) (b + 128) 128 (b + 64).
Definition slot_at (b : Z) : slot := mk_slot (view_at b) 0 128.

(** The arrays of the caller at 64 and 72, the tables of the nodes from 96, the
    storage of the outputs at 256 and 512, and the buffers of the caller at 768 and
    1024. *)
Definition memory : mem :=
  repeat (to_byte 0) 64 ++ le64 768 ++ le64 1024 ++ repeat (to_byte 0) 176 ++
  block 256 0 (repeat (to_byte 0) 128) ++ block 512 0 (repeat (to_byte 0) 128) ++
  block 768 128 (repeat (to_byte 7) 128) ++ block 1024 0 (repeat (to_byte 0) 128).
Definition storage_at (r : port_ref) : Z := if bool_decide (r = (0, 1)%nat) then 512 else 256.
Definition places : placement :=
  mk_placement storage_at (fun k => 96 + Z.of_nat k * 32) (fun k => 112 + Z.of_nat k * 32) (fun _ => 0) (fun _ => 0).

(** The plugin copies the payload and sets the size. *)
Definition copy_payload (pi po : Z) (m : mem) : outcome mem :=
  let! i := load_u64 m pi in
  let! i_datas := buffer_datas m i in
  let! src := data_data m i_datas in
  let! i_chunk := data_chunk m i_datas in
  let! i_offset := chunk_offset m i_chunk in
  let! bytes := load m (src + i_offset) 128 in
  let! o := load_u64 m po in
  let! o_datas := buffer_datas m o in
  let! dst := data_data m o_datas in
  let! o_chunk := data_chunk m o_datas in
  let! o_offset := chunk_offset m o_chunk in
  let! m := store m (dst + o_offset) bytes in
  store m (o_chunk + 4) (le32 128).
Definition process (k : nat) (pi ni po no : Z) (x : unit * mem) : Z * (unit * mem) :=
  match copy_payload pi po x.2 with Ret m => (0, (tt, m)) | _ => (- EINVAL, x) end.

Definition start : cycle (W := unit) := mk_cycle memory tt ∅ ∅ (FGN_TRANSACTION_PENDING, []) (FGN_TRANSACTION_EMPTY, []) [].
Definition run := spa_fgn_graph_process (W := unit) (fun _ _ x => x) (fun _ _ x => x) (fun _ x => x) (fun _ => None) process graph places
  true true 64 1 72 1 start.

(** Both nodes ran and the payload went through. *)
Lemma run_copies :
  run.1 = Ret SPA_FGN_PROCESS_RESULT_PROPS_CHANGED /\ cy_runs run.2 = [1; 0]%nat /\
  load (cy_mem run.2) (1024 + 128) 128 = Ret (repeat (to_byte 7) 128).
Proof. vm_compute. done. Qed.

#[local] Opaque Copy.graph memory.

Definition summary (p : fgn_port) := (is_input p, pt_payload_size p, pi_n_metas (pt_info p)).

Lemma graph_ports r p : port_at graph r = Some p ->
  (r = (0, 0)%nat /\ is_input p = true \/ r = (0, 1)%nat /\ is_input p = false \/ r = (1, 0)%nat /\ is_input p = true \/ r = (1, 1)%nat /\ is_input p = false) /\
  pt_payload_size p = 128 /\ pi_n_metas (pt_info p) = 0.
Proof.
  assert (forall r, option_map summary (port_at graph r) =
    if decide (r = (0, 0)%nat) then Some (true, 128, 0) else if decide (r = (0, 1)%nat) then Some (false, 128, 0) else
    if decide (r = (1, 0)%nat) then Some (true, 128, 0) else if decide (r = (1, 1)%nat) then Some (false, 128, 0) else None) as H.
  { intros [k j]. destruct k as [|[|k]], j as [|[|j]]; vm_compute; reflexivity. }
  specialize (H r). intros Hp. rewrite Hp in H. cbn [option_map] in H. unfold summary in H. clear Hp.
  repeat case_decide; try discriminate H; injection H as -> -> ->; tauto.
Qed.
Lemma graph_tables k n : gr_nodes graph !! k = Some n -> (k < 2)%nat /\ nd_inputs n = [0%nat] /\ nd_outputs n = [1%nat].
Proof.
  assert (map (fun n => (nd_inputs n, nd_outputs n)) (gr_nodes graph) = [([0], [1]); ([0], [1])]%nat) as H by (vm_compute; reflexivity).
  intros Hk. pose proof (f_equal (fun l => l !! k) H) as Hl. cbv beta in Hl. rewrite list_lookup_fmap, Hk in Hl. clear H Hk.
  destruct k as [|[|k]]; cbn in Hl; [| |discriminate Hl]; injection Hl as -> ->; split; [lia|done|lia|done].
Qed.
Lemma graph_external : gr_inputs graph = [(1, 0)%nat] /\ gr_outputs graph = [(0, 1)%nat].
Proof. vm_compute. done. Qed.

Ltac extent_in H :=
  unfold chunk_byte, payload_byte in H; rewrite covers_extent in H by (vm_compute; discriminate); unfold zlen in H; cbn in H; lia.

Lemma block_fixed b a : fixed (view_at b) a -> b <= a < b + 64 \/ b + 80 <= a < b + 96.
Proof. intros [H|[H|H]]; extent_in H. Qed.
Lemma block_chunk b a : chunk_byte (view_at b) a -> b + 64 <= a < b + 80.
Proof. intros H. extent_in H. Qed.
Lemma block_payload b a : payload_byte (view_at b) 0 128 a -> b + 128 <= a < b + 256.
Proof. intros H. extent_in H. Qed.
Lemma block_record b a : record_byte (view_at b) a -> b + 96 <= a < b + 128.
Proof. intros (r & ->%list_elem_of_singleton & H). extent_in H. Qed.
Lemma block_range b a : slot_byte (slot_at b) a -> b <= a < b + 256.
Proof. intros [H%block_fixed|[H%block_chunk|[H%block_payload|H%block_record]]]; lia. Qed.
Lemma block_apart b : view_apart (view_at b) 0 128.
Proof.
  split.
  - intros a H1%block_fixed [H2%block_chunk|[H2%block_payload|H2%block_record]]; lia.
  - intros a H1%block_chunk [H2%block_payload|H2%block_record]; lia.
  - intros a H1%block_payload H2%block_record. lia.
Qed.

Definition blocks : list Z := [256; 512; 768; 1024].

Lemma block_viewed b : b ∈ blocks -> viewed memory (view_at b) /\ records_ok (b + 80) [header_at b] /\ chunk_offset memory (b + 64) = Ret 0.
Proof.
  intros Hb. unfold blocks in Hb.
  assert (b = 256 \/ b = 512 \/ b = 768 \/ b = 1024) as Hc by (rewrite !elem_of_cons, elem_of_nil in Hb; tauto). clear Hb.
  split; [|split].
  - split; try (destruct Hc as [->|[->|[->| ->]]]; vm_compute; (reflexivity || discriminate)).
    + intros [|i] r; [|done]. intros [= <-]. destruct Hc as [->|[->|[->| ->]]]; vm_compute; reflexivity.
    + intros r ->%list_elem_of_singleton _. destruct Hc as [->|[->|[->| ->]]]; vm_compute; discriminate.
  - unfold records_ok, record_ok, apart. split; [done|]. split; [intros _; destruct Hc as [->|[->|[->| ->]]]; by vm_compute|].
    split; [|split; [by vm_compute|]].
    + apply list.Forall_singleton. split; [by vm_compute|]. intros _. cbn. destruct Hc as [->|[->|[->| ->]]]; vm_compute; intuition discriminate.
    + intros i [|j] r r' Hlt H1 H2; [lia|done].
  - destruct Hc as [->|[->|[->| ->]]]; vm_compute; reflexivity.
Qed.

Lemma obind_returns {A B} (o : outcome A) (k : A -> outcome B) b : obind o k = Ret b -> exists a, o = Ret a /\ k a = Ret b.
Proof. destruct o as [a| |]; cbn; [by exists a|done..]. Qed.

Lemma memory_size : zlen memory = 1280.
Proof. vm_compute. reflexivity. Qed.

Lemma tables_range a : in_tables graph places a -> 96 <= a < 160.
Proof.
  intros (k & n & (Hk & Ei & Eo)%graph_tables & H). rewrite Ei, Eo in H. unfold places, zlen in H. cbn in H. lia.
Qed.

Lemma storage_block r p : out_port graph r p -> (r = (0, 1)%nat /\ storage_at r = 512 \/ r = (1, 1)%nat /\ storage_at r = 256) /\ storage_at r ∈ blocks.
Proof.
  intros [Hp Hi]. destruct (graph_ports r p Hp) as [H _]. destruct H as [[-> H]|[[-> H]|[[-> H]|[-> H]]]]; try congruence; clear Hp.
  - split; [by left|]. unfold blocks, storage_at. rewrite bool_decide_true by done. set_solver.
  - split; [by right|]. unfold blocks, storage_at. rewrite bool_decide_false by done. set_solver.
Qed.

Definition storage (r : port_ref) : slot := slot_at (storage_at r).

Lemma storage_range a : storage_byte graph storage a -> 256 <= a < 768.
Proof. intros (r & p & [[[_ E]|[_ E]] _]%storage_block & H%block_range); lia. Qed.

Lemma is_placed : placed graph places memory storage.
Proof.
  split.
  - by rewrite memory_size.
  - intros r p Hr. destruct (storage_block r p Hr) as [Hb Hin]. destruct (block_viewed _ Hin) as (Hv & Hok & _).
    destruct (graph_ports r p (proj1 Hr)) as (_ & Hsz & _).
    split; try done; [|apply block_apart]. split; [done|]. change (at_storage places r) with (storage_at r). lia.
  - intros r r' p p' a Hr Hr' Hne H1%block_range H2%block_range.
    destruct (storage_block r p Hr) as [[[-> E]|[-> E]] _], (storage_block r' p' Hr') as [[[-> E']|[-> E']] _]; try done; lia.
  - intros a H1%storage_range H2%tables_range. lia.
  - intros k n (Hk & Ei & Eo)%graph_tables. rewrite Ei, Eo, memory_size. unfold places, zlen. cbn. lia.
  - intros k n a (Hk & Ei & Eo)%graph_tables. unfold table_inputs, table_outputs. rewrite Ei, Eo. unfold places, zlen. cbn. lia.
  - intros r p (_ & _ & E)%graph_ports. rewrite E, memory_size. cbn. lia.
Qed.

Lemma singleton_lookup {A} (x y : A) j : [x] !! j = Some y -> j = 0%nat /\ y = x.
Proof. intros H%list_lookup_singleton_Some. by destruct H. Qed.

Lemma is_called : called graph places memory storage 64 72 [Some (slot_at 768)] [Some (slot_at 1024)].
Proof.
  assert (forall b, b ∈ blocks -> slotted memory (slot_at b)) as Hs.
  { intros b Hb. destruct (block_viewed b Hb) as (Hv & _ & Ho). split; [done|done|].
    unfold blocks in Hb. rewrite !elem_of_cons, elem_of_nil in Hb. cbn. lia. }
  assert (768 ∈ blocks /\ 1024 ∈ blocks) as [H7 H10] by (unfold blocks; set_solver).
  destruct graph_external as [Ei Eo]. split; rewrite ?Ei, ?Eo; clear Ei Eo.
  - split; [done|]. intros j x [-> ->]%singleton_lookup. vm_compute. reflexivity.
  - split; [done|]. intros j x [-> ->]%singleton_lookup. vm_compute. reflexivity.
  - intros j s r p [_ [= ->]]%singleton_lookup _ (_ & -> & _)%graph_ports. split; [by apply Hs|done].
  - intros j s r p [_ [= ->]]%singleton_lookup _ (_ & -> & _)%graph_ports. split; [by apply Hs|done].
  - intros a Ha. assert (64 <= a < 80) by (destruct Ha as [Ha|Ha]; unfold zlen in Ha; cbn in Ha; lia).
    split; [intros H1%storage_range|intros H1%tables_range]; lia.
  - intros j s a [_ [= ->]]%singleton_lookup H%block_range. split; [intros H1%storage_range|intros H1%tables_range]; lia.
  - intros j s a [_ [= ->]]%singleton_lookup H%block_range H1%storage_range. lia.
Qed.

Lemma graph_output k : (k < 2)%nat -> exists p, port_at graph (k, 1%nat) = Some p.
Proof.
  intros Hk. assert (summary <$> port_at graph (k, 1%nat) = Some (false, 128, 0)) as H.
  { destruct k as [|[|k]]; [vm_compute; reflexivity..|lia]. }
  destruct (port_at graph (k, 1%nat)) as [p|]; [by exists p|discriminate H].
Qed.

Lemma length_one {A} (l : list A) : List.length l = 1%nat -> exists x, l = [x].
Proof. destruct l as [|x [|]]; try done. by exists x. Qed.

(** The stores are inside the output. *)
Lemma copy_payload_same pi po m m' s : load_u64 m po = Ret (vw_at (sl_view s)) -> slotted m s -> sl_size s = 128 ->
  copy_payload pi po m = Ret m' -> same_if (fun a => ~ slot_moving s a) m m'.
Proof.
  intros Hl [Hv Ho _] Hsz E. unfold copy_payload in E. do 5 (apply obind_returns in E as (? & _ & E)).
  apply obind_returns in E as (bytes & Hload & E). pose proof (load_zlen _ _ _ _ Hload) as Hlen.
  rewrite Hl in E. cbn [obind] in E. rewrite (vd_datas _ _ Hv) in E. cbn [obind] in E. rewrite (vd_data _ _ Hv) in E. cbn [obind] in E.
  rewrite (vd_chunk _ _ Hv) in E. cbn [obind] in E. rewrite Ho in E. cbn [obind] in E. apply obind_returns in E as (m1 & E1 & E2).
  eapply same_if_trans; (eapply store_same; [eassumption|]); intros i Hi Hno; apply Hno; clear Hno.
  - right. left. unfold payload_byte. rewrite covers_extent; lia.
  - rewrite zlen_le32 in Hi. by apply (chunk_moves s 4 4).
Qed.

Lemma is_confined : confined process graph places.
Proof.
  intros k n x m xs ss Hn Hct. destruct (graph_tables k n Hn) as (Hk & Ein & Eout). clear Hn.
  destruct (length_one ss) as [s ->]; [rewrite (ct_outputs _ _ _ _ _ _ _ Hct), Eout; reflexivity|].
  destruct (graph_output k Hk) as [p Hp]. destruct (graph_ports _ _ Hp) as (_ & Hpay & _).
  destruct (ct_output _ _ _ _ _ _ _ Hct 0 s 1 p) as (Hl & Hs & _ & Hsz & _); [reflexivity|rewrite Eout; reflexivity|exact Hp|].
  rewrite Z.add_0_r in Hl. rewrite Hpay in Hsz. clear Hct Hp. unfold process. cbn [snd].
  destruct (copy_payload _ _ m) as [m'| |] eqn:E; [|apply same_if_refl..]. cbn [snd].
  eapply same_if_weaken; [|by eapply copy_payload_same]. intros a Ha. apply Ha. by apply list_elem_of_singleton.
Qed.
End Copying.

Lemma graph_process_correct_witness :
  Copying.run.1 = Ret SPA_FGN_PROCESS_RESULT_PROPS_CHANGED /\
  exists osl, accepted Copy.graph Copying.places 64 72 [Some (Copying.slot_at 768)] [Some (Copying.slot_at 1024)] osl /\
    processed Copy.graph Copying.places Copying.memory Copying.storage [Some (Copying.slot_at 768)] osl Copying.start Copying.run.2
      SPA_FGN_PROCESS_RESULT_PROPS_CHANGED.
Proof.
  split; [apply Copying.run_copies|].
  pose proof (graph_process_correct (fun _ _ x => x) (fun _ _ x => x) (fun _ x => x) (fun _ => None) Copying.process Copy.graph Copying.places
    Copying.memory Copying.storage 64 72 _ _ Copy.graph_is_ready Copying.is_placed Copying.is_called true true 1 1 Copying.start
    Copying.is_confined eq_refl eq_refl) as H.
  unfold st_wp in H. pose proof (proj1 Copying.run_copies) as E. unfold Copying.run in *.
  destruct (spa_fgn_graph_process _ _ _ _ _ _ _ _ _ _ _ _ _ _) as [o c']. cbn [fst] in E. subst o. exact H.
Defined.
